(* ===== verification/_CoqProject ===== *)
-Q . S2P
Prelude.v
Tokenizer.v
SelectorAST.v
SelectorParser.v
SelectorRoundTrip.v
SelectorCompose.v
IPNet.v
IPAMBlock.v
IPAMBlockInv.v
IPAMAssign.v
IPAMRelease.v
DeltaTracker.v
DeltaTrackerSpec.v
Multidict.v
ModelRule.v
PolicySorter.v
PolicySorterSpec.v
PolicyResolver.v
PolicyResolverSpec.v
UniqueLabels.v
InheritIndex.v
InheritIndexSpec.v
InheritIndexCorrect.v
ActiveRules.v
ActiveRulesSpec.v
ActiveRulesCorrect.v
CalcGraph.v
RestrictionIndex.v
RestrictionIndexSpec.v
AdaptiveSet.v
GoSet.v
NameValueIndex.v
NameValueIndexSpec.v
CIDR.v
CIDRTrie.v
CIDRTrieSpec.v
CIDRTrieCorrect.v
MemberDedup.v
MemberDedupSpec.v
NamedPortIndex.v
NamedPortMembers.v
NamedPortCandidates.v
NamedPortScan.v
NamedPortGraph.v
NamedPortInv.v
NamedPortOps.v
NamedPortParents.v
NamedPortSets.v
NamedPortCorrect.v
NetIP.v
NamedPortUpdates.v
RuleScanner.v
RuleScannerSpec.v
RuleScannerTrack.v
RuleMatch.v
RuleGraph.v
NetString.v
NetParse.v
RuleConvert.v
ProtoMessages.v
EventSequencer.v
SequencerTracked.v
SequencerSpec.v
SequencerIPSets.v
SequencerRefs.v
SequencerStages.v
SequencerWireguard.v
SequencerCorrect.v
SequencerTheorems.v
NamedPortEvents.v
ServiceIndex.v
ServiceIndexSpec.v
RuleDataplane.v
IDAlloc.v
MarkBits.v
PolicyIPSet.v
PolicyStore.v
HTTPPath.v
PolicyChecker.v
PolicyCheckerSpec.v
