(* ===== verification/Prelude.v ===== *)
(** * A verification library for Calico

    Calico is a Kubernetes network-policy and networking stack.  This library models
    parts of its Go code that carry the logic of the product, translated from the
    sources function by function, and proves what makes them correct.

    ** The program's parts and how they interact

    - Policies choose the endpoints they apply to with _selectors_ (label expressions
      such as [role == "db" && has(env)]).  [libcalico-go/lib/selector] tokenizes and
      parses them, evaluates them on labels, prints them in a canonical form, and
      derives [LabelRestrictions], which the label indexes of [felix/labelindex] use to
      skip selectors that cannot match.
    - [felix/calc] is Felix's calculation graph.  The [ActiveRulesCalculator] keeps an
      [InheritIndex] of local endpoints (with labels inherited from profiles) and policy
      selectors, and learns from it which policies match which endpoints; it tells the
      rule scanner which policies and profiles are active and the [PolicyResolver] which
      matches start and stop.  The resolver has a [PolicySorter] order tiers and policies,
      and sends every endpoint its ordered policies on [Flush].
    - The rules of active policies refer to endpoints by selectors and named ports.  The
      [SelectorAndNamedPortIndex] of [felix/labelindex] computes the members of the IP
      sets that stand for them, from endpoints, network sets and profiles; it uses the
      [LabelRestrictionIndex], the [LabelNameValueIndex], and an overlap suppressor built
      on the CIDR trie of [felix/ip].  Rules can name Kubernetes services too: the
      [ServiceIndex] of [felix/serviceindex] computes the members of their IP sets from
      endpoint slices.
    - The [EventSequencer] of [felix/calc] is told of IP sets, their members, policies,
      profiles, endpoints, routes and the rest in any order; it coalesces what it is told
      and on [Flush] sends the dataplane driver messages in an order in which nothing is
      used before it is there, nor removed while it is in use.
    - Felix programs dataplanes (BPF maps, IP sets, routes) through
      [felix/deltatracker], which keeps what is desired, what is in the dataplane, and
      the pending differences.
    - [libcalico-go/lib/ipam] hands out pod addresses from allocation blocks that hosts
      are affine to; released addresses go through a cooldown and garbage collection.

    - The policy checker of [app-policy] (Dikastes, and Felix's collector of flow logs) gets the
      same messages as the dataplane driver.  It keeps them in a [PolicyStore] and evaluates
      requests on the policies of an endpoint, with the HTTP path and the identities of
      the peers where the request has them.
    - Dataplane drivers take numbers for IP sets, indexes of tables and bits of packet marks
      from the allocators of [felix/idalloc] and [felix/markbits].

    ** Which file models what

    - [Prelude.v] (this file): outcomes of Go calls, with a bind and its notation in
      [go_scope]; the hint databases; lemmas on strings and lists; [GoRange], an order in
      which Go ranges over a map.
    - [Tokenizer.v]: [selector/tokenizer/tokenizer.go].  One iteration of the loop of
      [AppendTokens] is [scanToken].
    - [SelectorAST.v]: [selector/parser/ast.go] and [stringset.go]: nodes, [Evaluate],
      [LabelRestrictions] with its one-entry cache, [PrefixVisitor], printing.
    - [SelectorParser.v]: [selector/parser/parser.go]: the recursive descent, [Parse] and
      [Validate].  [SelectorRoundTrip.v] relates printing, tokenizing and parsing;
      [SelectorCompose.v] parses selectors between parentheses.
    - [IPNet.v]: [lib/net/ip.go], [ipnet.go] and [lib/ipam/addr_filter.go]: addresses,
      CIDRs, and the filters of reserved addresses; class [AddrFilterLaws] is what the
      block code needs of a filter.
    - [IPAMBlock.v]: [lib/ipam/ipam_block.go], [lib/backend/model/block.go] and
      [lib/ipam/ipam_handle.go]: blocks and their operations, reference counts of handles
      (module [Handle]).  [IPAMBlockInv.v] has the invariant [block_wf] and the abstract
      [view] (ordinal to attribute); [IPAMAssign.v] and [IPAMRelease.v] prove what the
      operations do to the view, and invariants of the transition system of all of them.
    - [DeltaTracker.v]: [felix/deltatracker/delta_tracker.go] and [delta_set.go].
      [DeltaTrackerSpec.v]: the refinement of a pair of plain maps.
    - [ModelRule.v]: rules of [lib/backend/model/rule.go], with the networks, protocols and
      ports they use.  [Multidict.v]: [felix/multidict].  [PolicySorter.v]: [felix/calc/policy_sorter.go].
      [PolicySorterSpec.v]: the abstract [datastore], the simulation relation
      [sorter_rel], the order that [Sorted] returns.
    - [PolicyResolver.v]: [felix/calc/policy_resolver.go].  [PolicyResolverSpec.v]: events,
      the abstract [view], and convergence.
    - [UniqueLabels.v]: [lib/uniquelabels], read-only label maps with interned strings and
      the cache of recent maps.
    - [InheritIndex.v]: [felix/labelindex/label_inheritance_index.go], with the store of
      parent objects that items point to.  [InheritIndexSpec.v] has the lemmas about one
      operation, [InheritIndexCorrect.v] the invariant and the theorems.
    - [ActiveRules.v]: [felix/calc/active_rules_calculator.go]; [ActiveRulesSpec.v] and
      [ActiveRulesCorrect.v] as above.  [CalcGraph.v] wires the calculator to the resolver
      as [felix/calc/calc_graph.go] and [felix/dispatcher] do.
    - [RestrictionIndex.v], [RestrictionIndexSpec.v]:
      [felix/labelindex/labelrestrictionindex].
    - [AdaptiveSet.v]: [libcalico-go/lib/set/adaptive.go], down to the untyped pointer and
      the array behind it; [GoSet.v]: [set.go], [union.go], and the class of sets that
      clients use, of which both kinds of sets are instances.
    - [NameValueIndex.v], [NameValueIndexSpec.v]:
      [felix/labelindex/labelnamevalueindex], with its scan strategies.
    - [CIDR.v]: bit operations of [felix/ip/ip_addr.go]; [CIDRTrie.v]: [felix/ip/trie.go],
      with [CIDRTrieSpec.v] (its invariant) and [CIDRTrieCorrect.v]; [NetIP.v]: the
      conversions from [net.IP] and [net.IPNet].
    - [MemberDedup.v], [MemberDedupSpec.v]: [felix/labelindex/ipsetmember] and the overlap
      suppressors of [named_port_index.go].
    - [NamedPortIndex.v]: the operations of [felix/labelindex/named_port_index.go], on a
      store of endpoint and parent objects.  [NamedPortMembers.v] is about the reference
      counts of members, [NamedPortCandidates.v] and [NamedPortScan.v] about the choice
      and the scan of candidates, [NamedPortGraph.v] about the links between endpoints and
      parents, [NamedPortInv.v] has the invariant, [NamedPortOps.v], [NamedPortParents.v]
      and [NamedPortSets.v] its preservation, [NamedPortCorrect.v] the theorems.
      [NamedPortUpdates.v]: [OnUpdate] and the extraction of CIDRs.
    - [RuleScanner.v]: [felix/calc/rule_scanner.go] and [selector.Normalise].
      [RuleScannerSpec.v] says what it makes of a rule, [RuleScannerTrack.v] what a client of
      its callbacks knows, [RuleMatch.v] what rules and parsed rules match.  [RuleGraph.v]
      wires it to the named port index as [felix/calc/calc_graph.go] does.
    - [NetString.v]: the printing of addresses, CIDRs and IP set members in messages, with
      that of the [net] package.  [NetParse.v]: the parsing of addresses and CIDRs in
      [felix/ip/ip_addr.go], with [net.ParseIP], [net.ParseCIDR] and the automaton of
      [net/netip] behind them.  [RuleConvert.v]: [felix/calc/rule_convert.go], parsed rules
      to [proto.Rule] and the chain of rule identifiers.  [ProtoMessages.v]: the messages of
      [felix/proto] that the sequencer sends and the conversion of endpoints, tiers, policies
      and pools to them.
    - [EventSequencer.v]: [felix/calc/event_sequencer.go], all handlers and all stages of
      [Flush].  [SequencerTracked.v] is about one coalesced map ([coalesces]: what was sent,
      what is pending, what is asked for), [SequencerSpec.v] has the strict dataplane [recv]
      (it refuses unknown references, duplicates and removals of what is in use), the calls,
      and what they ask for ([Want]); [SequencerIPSets.v], [SequencerRefs.v],
      [SequencerStages.v] and [SequencerWireguard.v] are about the stages;
      [SequencerCorrect.v] composes them, [SequencerTheorems.v] has the theorems.
    - [NamedPortEvents.v]: which IP sets the index reports members of.  [RuleDataplane.v]:
      the rule scanner, the named port index and the service index wired to the event
      sequencer.
    - [ServiceIndex.v]: [felix/serviceindex/serviceindex.go], on a store of IP set objects.
      [ServiceIndexSpec.v]: the members of a service, the invariant and the theorems.
    - [IDAlloc.v]: [felix/idalloc], module [idalloc] for identifiers and [indexes] for
      indexes.  [MarkBits.v]: [felix/markbits/mark_bits.go].
    - [PolicyIPSet.v]: [app-policy/policystore/ipset.go], the IP sets of the policy checker,
      with the tries of networks that end in bitmaps.  [PolicyStore.v]: [process.go] and
      [store.go] of the same package and the index of endpoints in
      [app-policy/types/cidr2wls.go].
    - [HTTPPath.v]: the part of [app-policy/checker/match.go] about HTTP, with
      [url.PathUnescape] and [path.Clean].  [PolicyChecker.v]: the rest of [match.go],
      [requestcache.go] and [check.go], in a state monad over the memoized values.
      [PolicyCheckerSpec.v]: the flat reading of an evaluation, and the relation between the
      store and the dataplane of [SequencerSpec.v].

    Structs are records with the source's fields, methods that mutate their receiver
    return the new state (on error paths too), Go maps are [gmap]s, and wherever the code
    ranges over a map or a set its enumeration order is a parameter constrained only to
    be an enumeration.  Callbacks are functions with a state of their own, or the list of
    calls made.  [error] results, panics and loops are values of [outcome].  Where the
    code shares objects through pointers (parents of items, endpoints of IP sets) the
    model has a store of them.

    ** What the theorems show

    - Selectors: parsing is total; [Validate] agrees with [Parse]; printing and parsing
      round-trip up to double negations; a selector that matches satisfies its
      restrictions; prefixing renames exactly; the cache is transparent without visitors
      (and stale after one).
    - Addresses: the size-counting shortcut of [MatchesWholeCIDR] is exact; ordinals and
      addresses are inverse on a block, up to the 64-bit truncation of [IPToOrdinal].
    - IPAM blocks: every reachable block is well formed; [autoAssign] takes the first free
      unreserved ordinals, and [NumFreeAddresses] predicts how many; [assign], [release],
      [releaseByHandle], [updateAllocationOwnership] and garbage collection are described
      on every branch; allocations in use are never disturbed; the cooldown protects
      released addresses; handle counts are exact.
    - Delta tracker: refinement of two maps for any sequence of calls by iterators that yield
      no key twice (a concrete run shows that it fails otherwise); the pending views the exact
      differences; applying them syncs; batched iteration terminates and applies what it says;
      the set tracker.
    - Policy order: [Sorted] returns the tiers and policies of the datastore in order
      (valid tiers first, then by order and name, as [tier_before] and [policy_before] say)
      whatever the history; dirtiness of policy updates is exact.
    - Resolver, calculator and graph: for updates in any order and any batching, the label
      index reports exactly the starts and stops of matches; the rule scanner is told
      exactly the policies and profiles that are active; the last update sent to every
      endpoint is the right one, for the resolver alone and, from the updates of the datastore,
      for the wired graph.
    - Label indexes and sets: no selector (or endpoint) that can match is missed by the
      restriction index or a scan strategy; adaptive sets are sets.
    - CIDR trie: a refinement of a finite map, with exact covering, intersection and
      closest-descendant queries; the overlap suppressor shows exactly the members that no
      other member covers.
    - Named port index: for any sequence of updates, a client that applies the callbacks
      holds exactly the members each IP set should have, no callback is redundant, and the
      code does not panic; updates reach the index as the addresses they name.
    - Rule scanner, for rules with valid selectors that are not blank on a side that has two (a
      concrete run shows the panic otherwise): a strict client of its callbacks holds the parsed rules of the active
      policies and profiles and exactly the IP sets they name; a parsed rule matches the
      packets that the rule matches, as long as endpoints do not share addresses; and wired
      to the named port index, the rules in the dataplane, read with the members it was sent,
      match what the active policies say, for any interleaving of updates.
    - Service index: for any history in which an endpoint slice stays with its service, a
      client that applies the callbacks holds exactly the addresses (and ports) of the slices
      of each service, and no callback is redundant.
    - Text: what is printed for an address or a CIDR is parsed back to it.
    - Event sequencer: for any calls that the contract of the callbacks allows, in any order
      and with any flushes, nothing panics and the strict dataplane accepts every message;
      after a flush it has exactly what was asked for, and a second flush is silent; after
      every single message nothing dangles; misuse of IP sets panics; conversion of rules is
      total and keeps them in order; the text of a member identifies it.
    - The composition: from policies, endpoints, network sets and services to messages.  The rules in
      the messages, read by their own fields ([messageMatches], [says]) with the texts of the
      members that were sent, match the packets that the active policies say, and no field is lost
      or moved, whatever the flushes and the order of Go's maps.
    - Allocators: the identifier allocator refines a finite map of distinct non-zero
      identifiers and its inverse; the index allocator hands out the indexes of its ranges that are not excluded, each
      once, in order; numbers and marks are in bijection, and blocks of bits do not overlap.
    - Policy checker: a set of networks contains the addresses of its networks, after any
      additions and removals, as long as no network ends within the last byte; rules with HTTP
      paths match by the names that paths stand for ([denotes], a reading of spellings apart from
      the code); the verdict is that of the first deciding rule in flat lists of rules; and the store of the checker follows the messages that
      the strict dataplane accepts, so that its rules match the packets that the rules
      in the messages match.
    Some theorems state behaviour that differs from what the code or its comments mean
    (a stale cache, an iteration that does not stop, stale metadata of a policy, a panic
    for a profile listed twice, a panic for a blank selector, a rule that changes its meaning
    where addresses are shared, an endpoint slice whose members are lost when it moves
    between services, a route that is left without its tunnel endpoint for a part of
    a flush, networks that the policy checker does not see, an identifier that depends on
    what was allocated before); they give a concrete run.

    ** Fuel and bounds

    [AppendTokens] runs with fuel one more than the length of the input and the parser
    with fuel from the number of tokens: [Parse_total] shows that neither runs out.  The
    last loop of [IterBatched] has fuel the length of the last batch, shown to be enough
    under the contract of the callback.  [ClosestDescendants] walks the trie with fuel
    130, more than the 129 nodes a path can have in a trie of 128-bit prefixes.  The
    loop of [GetOrAlloc] has as fuel a number of trials that is larger than the number of
    identifiers in use, with distinct hashes; the insertion in a trie of networks has the
    length of the prefix.  The loop of [NewIndexAllocator] over a range has the size of the
    range.  All other recursion is structural.
    Ordinals and sequence numbers are integers; [big.Int.Int64] in [IPToOrdinal] is
    modelled with its truncation, the reference counts of the named port index wrap at 64
    bits, and addresses are words of 32 or of twice 64 bits.  Times are integers of
    nanoseconds; that the JSON of a block keeps the time of a release ([metav1.Time]) in
    seconds only is not modelled.

    ** Parameters

    The B-tree library ([OrderedSet], with the laws of its documentation as
    [OrderedSetLaws]; sorted lists are an instance), the parser of the addresses in a
    request to release them, [strings.ToLower], the equality of values in the delta tracker, the enumeration
    orders of Go maps (collected in [GoOrders] for the named port index), the result of
    [sort.Slice] as a permutation, the hash functions (injective where the code takes a
    hash for an identifier; [collision_free] for the prefixes of IP sets, which the
    identifiers start with), what services stand for in [RuleMatch.v] and [RuleGraph.v] (the
    composition in [RuleDataplane.v] has the service index there), SHA-224 (28 bytes), SHA-256 (32 bytes, of which
    [id_allocator_correct] needs that the trials for a string differ), the order of
    [slices.SortedFunc] and the protobuf encoding of a rule, the configuration
    object that the sequencer updates, the order in which the sequencer ranges over its maps
    ([GoRange], a permutation that may differ from flush to flush), and the clock.

    ** What is not modelled

    Logging and metrics everywhere.  Of the packages above: JSON encoding of addresses and
    blocks, [String] methods for logs.  Of Calico: the IPAM
    client (datastore transactions and retries), the resolvers of routes and tunnels in
    [felix/calc] (their calls are inputs of the sequencer's theorems), iptables, nftables and
    BPF rendering, the Typha protocol, the Kubernetes controllers, the CNI plugin, confd,
    Goldmane and the UI, which are mostly I/O around the logic above, the gRPC server and the Envoy
    adapter of [app-policy], and [felix/iptree], which nothing uses. *)
From stdpp Require Import base list gmap strings sorting.
From stdpp Require Import options.

(** ** Go outcomes

    A Go function call that the library models ends in one of four ways: it
    returns a value, it returns a non-nil [error], it panics (an index out of
    range, a nil dereference), or, in the model only, it runs out of the fuel
    that bounds a loop. *)
Inductive outcome (E A : Type) : Type :=
  | Ret (a : A)
  | Fail (e : E)
  | Panic
  | OutOfFuel.
Arguments Ret {E A} a.
Arguments Fail {E A} e.
Arguments Panic {E A}.
Arguments OutOfFuel {E A}.

Definition obind {E A B} (m : outcome E A) (k : A → outcome E B) : outcome E B :=
  match m with
  | Ret a => k a
  | Fail e => Fail e
  | Panic => Panic
  | OutOfFuel => OutOfFuel
  end.

Declare Scope go_scope.
Delimit Scope go_scope with go.
Notation "'let!' x ':=' c 'in' k" := (obind c (λ x, k))
  (at level 10, x pattern, c at level 100, k at level 200) : go_scope.
Open Scope go_scope.

(** Forget the value, keep how the call ended. *)
Definition omap_ret {E A B} (f : A → B) (m : outcome E A) : outcome E B :=
  let! a := m in Ret (f a).

Lemma obind_Ret {E A B} (m : outcome E A) (k : A → outcome E B) b :
  obind m k = Ret b ↔ ∃ a, m = Ret a ∧ k a = Ret b.
Proof. destruct m; naive_solver. Qed.

(** A loop that appends the result of a call for each item. *)
Fixpoint mapOut {E A B} (f : A → outcome E B) (l : list A) : outcome E (list B) :=
  match l with [] => Ret [] | x :: l' => let! y := f x in let! ys := mapOut f l' in Ret (y :: ys) end.

Lemma mapOut_ok {E A B} (f : A → outcome E B) (R : A → B → Prop) l :
  Forall (λ x, ∃ y, f x = Ret y ∧ R x y) l → ∃ ys, mapOut f l = Ret ys ∧ Forall2 R l ys.
Proof.
  induction 1 as [|x l (y&Hy&HR) _ (ys&Hys&HF)]; cbn [mapOut]; [by eexists|]. rewrite Hy. cbn [obind]. rewrite Hys. cbn [obind].
  exists (y :: ys). split; [done|by constructor].
Qed.

(** Slice indexing [s[i]] panics out of range. *)
Definition index {E A} (l : list A) (i : nat) : outcome E A :=
  match l !! i with Some x => Ret x | None => Panic end.

(** ** Automation shared by the components *)
Create HintDb calico.
Create Rewrite HintDb calico.

(** ** Strings *)
Section strings.
Implicit Types s : string.

Lemma string_app_nil_r s : s +:+ "" = s.
Proof. induction s as [|c s IH]; [done|]. change (String c (s +:+ "") = String c s). by rewrite IH. Qed.

Lemma string_app_assoc s1 s2 s3 : (s1 +:+ s2) +:+ s3 = s1 +:+ s2 +:+ s3.
Proof.
  induction s1 as [|c s1 IH]; [done|].
  change (String c ((s1 +:+ s2) +:+ s3) = String c (s1 +:+ s2 +:+ s3)). by rewrite IH.
Qed.

Lemma string_app_cons c s1 s2 : String c s1 +:+ s2 = String c (s1 +:+ s2).
Proof. done. Qed.

Lemma string_app_nil_l s : "" +:+ s = s.
Proof. done. Qed.

Lemma string_length_app s1 s2 :
  String.length (s1 +:+ s2) = String.length s1 + String.length s2.
Proof.
  induction s1 as [|c s1 IH]; [done|].
  rewrite string_app_cons. simpl. by rewrite IH.
Qed.

(** [strings.Join(fragments, "")]. *)
Fixpoint concat_strings (l : list string) : string :=
  match l with [] => "" | s :: l' => s +:+ concat_strings l' end.

Lemma concat_strings_app l1 l2 :
  concat_strings (l1 ++ l2) = concat_strings l1 +:+ concat_strings l2.
Proof.
  induction l1 as [|s l1 IH]; [done|]. simpl. by rewrite IH, string_app_assoc.
Qed.

(** The bytes of a string satisfy a boolean predicate. *)
Fixpoint string_forallb (f : Ascii.ascii → bool) s : bool :=
  match s with
  | "" => true
  | String c s' => f c && string_forallb f s'
  end.

Lemma string_forallb_app f s1 s2 :
  string_forallb f (s1 +:+ s2) = string_forallb f s1 && string_forallb f s2.
Proof.
  induction s1 as [|c s1 IH]; [done|].
  rewrite string_app_cons. simpl. by rewrite IH, andb_assoc.
Qed.

(** [strings.CutPrefix]: [None] when the prefix is absent. *)
Fixpoint CutPrefix s (prefix : string) {struct prefix} : option string :=
  match prefix, s with
  | "", _ => Some s
  | String p prefix', String c s' =>
      if decide (p = c) then CutPrefix s' prefix' else None
  | String _ _, "" => None
  end.

Lemma CutPrefix_app p s : CutPrefix (p +:+ s) p = Some s.
Proof.
  induction p as [|c p IH]; [done|].
  rewrite string_app_cons. simpl. by rewrite decide_True.
Qed.

Lemma CutPrefix_Some s p r : CutPrefix s p = Some r ↔ s = p +:+ r.
Proof.
  split; [|intros ->; apply CutPrefix_app].
  revert s. induction p as [|c p IH]; intros s; simpl; [by intros [= ->]|].
  destruct s as [|d s]; [done|]. case_decide; [|done]. subst.
  intros ->%IH. done.
Qed.

Lemma CutPrefix_length s p r :
  CutPrefix s p = Some r → String.length s = String.length p + String.length r.
Proof. intros ->%CutPrefix_Some. apply string_length_app. Qed.

(** [strings.HasPrefix], [strings.HasSuffix], [strings.Contains]. *)
Definition HasPrefix s (prefix : string) : bool :=
  match CutPrefix s prefix with Some _ => true | None => false end.

Fixpoint HasSuffix s (suffix : string) : bool :=
  bool_decide (s = suffix) ||
  match s with "" => false | String _ s' => HasSuffix s' suffix end.

Fixpoint Contains s (sub : string) : bool :=
  HasPrefix s sub ||
  match s with "" => false | String _ s' => Contains s' sub end.

Lemma HasPrefix_spec s p : HasPrefix s p = true ↔ ∃ r, s = p +:+ r.
Proof.
  unfold HasPrefix. setoid_rewrite <-CutPrefix_Some.
  destruct (CutPrefix s p); naive_solver.
Qed.

Lemma HasSuffix_spec s p : HasSuffix s p = true ↔ ∃ r, s = r +:+ p.
Proof.
  induction s as [|c s IH]; simpl; rewrite orb_true_iff, bool_decide_eq_true.
  - split; [intros [<-|?]; [by exists ""|done]|].
    intros [[|] Hr]; [by left|done].
  - rewrite IH. split.
    + intros [<-|[r ->]]; [by exists ""|by exists (String c r)].
    + intros [[|d r] Hr]; [left; done|]. rewrite string_app_cons in Hr.
      simplify_eq. right. by exists r.
Qed.

Lemma Contains_spec s p : Contains s p = true ↔ ∃ r1 r2, s = r1 +:+ p +:+ r2.
Proof.
  induction s as [|c s IH]; simpl; rewrite orb_true_iff, HasPrefix_spec.
  - split; [intros [[r Hr]|?]; [by exists "", r|done]|].
    intros ([|]&r2&Hr); [left; by exists r2|done].
  - rewrite IH. split.
    + intros [[r ->]|(r1&r2&->)]; [by exists "", r|by exists (String c r1), r2].
    + intros ([|d r1]&r2&Hr); [left; by exists r2|]. rewrite string_app_cons in Hr.
      simplify_eq. right. by exists r1, r2.
Qed.
End strings.

#[export] Hint Rewrite string_app_assoc string_app_cons string_app_nil_l string_app_nil_r
  concat_strings_app string_length_app : calico.

(** ** Byte-wise order on strings (Go's [<] and [<=] on strings) *)
Section string_order.
Lemma ascii_compare_N a b :
  Ascii.compare a b = (Ascii.N_of_ascii a ?= Ascii.N_of_ascii b)%N.
Proof. done. Qed.

Lemma N_of_ascii_inj a b : Ascii.N_of_ascii a = Ascii.N_of_ascii b → a = b.
Proof.
  intros H. rewrite <-(Ascii.ascii_N_embedding a), <-(Ascii.ascii_N_embedding b).
  by rewrite H.
Qed.

Lemma string_compare_trans s1 s2 s3 :
  String.compare s1 s2 ≠ Gt → String.compare s2 s3 ≠ Gt →
  String.compare s1 s3 ≠ Gt.
Proof.
  revert s2 s3. induction s1 as [|a s1 IH]; intros [|b s2] [|c s3]; simpl; try done.
  rewrite !ascii_compare_N.
  destruct (N.compare_spec (Ascii.N_of_ascii a) (Ascii.N_of_ascii b)) as [E1| |];
  destruct (N.compare_spec (Ascii.N_of_ascii b) (Ascii.N_of_ascii c)) as [E2| |];
  destruct (N.compare_spec (Ascii.N_of_ascii a) (Ascii.N_of_ascii c)); try done;
    try lia.
  intros H1 H2. eapply IH; eauto.
Qed.

Lemma string_le_ltb s1 s2 : String.ltb s2 s1 = negb (String.leb s1 s2).
Proof.
  unfold String.ltb, String.leb. rewrite (String.compare_antisym s1 s2).
  by destruct (String.compare s2 s1).
Qed.

#[global] Instance string_le_trans : Transitive String.le.
Proof.
  intros s1 s2 s3. unfold String.le, String.leb.
  pose proof (string_compare_trans s1 s2 s3) as HT.
  destruct (String.compare s1 s2), (String.compare s2 s3), (String.compare s1 s3);
    naive_solver.
Qed.

#[global] Instance string_le_total : Total String.le.
Proof.
  intros s1 s2. unfold String.le.
  destruct (String.leb_total s1 s2) as [->| ->]; naive_solver.
Qed.

#[global] Instance string_le_antisym : AntiSymm (=) String.le.
Proof.
  intros s1 s2 H1 H2. apply String.leb_antisym; by apply Is_true_eq_true.
Qed.

#[global] Instance string_le_refl : Reflexive String.le.
Proof. intros s. destruct (total String.le s s); done. Qed.
End string_order.

(** ** Ranges over maps
    The order of a [range] loop over a map or a set: any permutation. *)
Record GoRange := MkGoRange { range :> ∀ A : Type, list A → list A; range_perm A l : range A l ≡ₚ l }.
