(* ===== verification/Tokenizer.v ===== *)
(** * The selector tokenizer: [libcalico-go/lib/selector/tokenizer/tokenizer.go]

    [Token] and [Kind] are the source's types, [AppendTokens] its loop.  The loop
    body is [scanToken] (one iteration of the [for]), the loop itself is
    [AppendTokensFuel], bounded by a fuel which [AppendTokens] sets to one more
    than the length of the input; [appendTokens_total] shows it is enough.  The
    second half of the file shows that each lexeme of a printed selector scans
    back to its token. *)
From S2P Require Import Prelude.
From Stdlib Require Import Ascii.
From stdpp Require Import base list gmap strings.
From stdpp Require Import options.

Inductive Kind :=
  | TokNone | TokLabel | TokStringLiteral | TokLBrace | TokRBrace | TokComma
  | TokEq | TokNe | TokIn | TokNot | TokNotIn | TokContains | TokStartsWith
  | TokEndsWith | TokAll | TokHas | TokLParen | TokRParen | TokAnd | TokOr
  | TokGlobal | TokEOF.

#[global] Instance Kind_eq_dec : EqDecision Kind.
Proof. solve_decision. Defined.

Record Token := MkToken { tok_Kind : Kind; tok_Value : string }.

#[global] Instance Token_eq_dec : EqDecision Token.
Proof. solve_decision. Defined.

(** [Token{Kind: k}]: the zero value of the other field. *)
Definition tok (k : Kind) : Token := MkToken k "".

(** The [error] values the tokenizer returns, with the data they print. *)
Inductive TokenizeError :=
  | ErrUnterminatedString
  | ErrExpectedEqEq
  | ErrExpectedAndAnd
  | ErrExpectedOrOr
  | ErrExpectedOperatorAfterLabel (label : string)
  | ErrNoClosingParenAfterHas
  | ErrNoClosingParenAfterAll
  | ErrNoClosingParenAfterGlobal
  | ErrLabelTooLong (ident : string)
  | ErrExpectedIdentifier
  | ErrInfiniteLoop.

Definition MaxLabelLength : nat := 512.

Definition byte_le (a b : ascii) : bool := (N_of_ascii a <=? N_of_ascii b)%N.

Definition identifierChar (c : ascii) : bool :=
  (byte_le "a" c && byte_le c "z") ||
  (byte_le "A" c && byte_le c "Z") ||
  (byte_le "0" c && byte_le c "9") ||
  bool_decide (c = "_"%char) || bool_decide (c = "."%char) ||
  bool_decide (c = "/"%char) || bool_decide (c = "-"%char).

Fixpoint trimWhitespace (input : string) : string :=
  match input with
  | "" => ""
  | String c rest =>
      if bool_decide (c = " "%char) || bool_decide (c = "009"%char)
      then trimWhitespace rest else input
  end.

Definition isWordBoundary (s : string) : bool :=
  match s with
  | "" => true
  | String c _ => negb (identifierChar c)
  end.

Definition cutPrefixCheckBreak (input prefix : string) : option string :=
  match CutPrefix input prefix with
  | None => None
  | Some remainder => if isWordBoundary remainder then Some remainder else None
  end.

(** The loop over [words]; [None] is [return input, false]. *)
Fixpoint cutWords (remainder : string) (words : list string) : option string :=
  match words with
  | [] => Some remainder
  | word :: words' =>
      match CutPrefix remainder word with
      | None => None
      | Some remainder' => cutWords (trimWhitespace remainder') words'
      end
  end.

Definition cutMultiWordPrefixCheckBreak (input : string) (words : list string)
    : option string :=
  match cutWords input words with
  | None => None
  | Some remainder => if isWordBoundary remainder then Some remainder else None
  end.

(** The scanning loop of [cutIdentifier]: the longest prefix of identifier
    bytes and what follows it. *)
Fixpoint spanIdentifier (s : string) : string * string :=
  match s with
  | "" => ("", "")
  | String c rest =>
      if identifierChar c
      then let '(ident, remainder) := spanIdentifier rest in (String c ident, remainder)
      else ("", s)
  end.

(** [cutIdentifier] with the checks of its deferred function. *)
Definition cutIdentifier (s : string) : outcome TokenizeError (string * string) :=
  let '(ident, remainder) := spanIdentifier s in
  if (MaxLabelLength <? String.length ident)%nat then Fail (ErrLabelTooLong ident)
  else if (String.length ident =? 0)%nat then Fail ErrExpectedIdentifier
  else Ret (ident, remainder).

Definition ValidLabel (label : string) : bool :=
  match cutIdentifier label with
  | Ret (_, remainder) => bool_decide (remainder = "")
  | _ => false
  end.

(** [strings.Index(s, q)] for a one-byte [q], with the two slices the caller
    takes around it: [s[0:index]] and [s[index+1:]]. *)
Fixpoint splitAtByte (q : ascii) (s : string) : option (string * string) :=
  match s with
  | "" => None
  | String c rest =>
      if decide (c = q) then Some ("", rest)
      else match splitAtByte q rest with
           | Some (value, rest') => Some (String c value, rest')
           | None => None
           end
  end.

Definition lastTokKind (tokens : list Token) : Kind :=
  match last tokens with Some t => tok_Kind t | None => TokNone end.

Definition scanStringLiteral (q : ascii) (tokens : list Token) (input : string)
    : outcome TokenizeError (list Token * string) :=
  match splitAtByte q input with
  | None => Fail ErrUnterminatedString
  | Some (value, rest) => Ret (tokens ++ [MkToken TokStringLiteral value], rest)
  end.

(** The operators that may follow a label. *)
Definition scanOperator (tokens : list Token) (input : string)
    : outcome TokenizeError (list Token * string) :=
  match cutPrefixCheckBreak input "contains" with
  | Some input' => Ret (tokens ++ [tok TokContains], input')
  | None =>
  match cutMultiWordPrefixCheckBreak input ["starts"; "with"] with
  | Some input' => Ret (tokens ++ [tok TokStartsWith], input')
  | None =>
  match cutMultiWordPrefixCheckBreak input ["ends"; "with"] with
  | Some input' => Ret (tokens ++ [tok TokEndsWith], input')
  | None =>
  match cutMultiWordPrefixCheckBreak input ["not"; "in"] with
  | Some input' => Ret (tokens ++ [tok TokNotIn], input')
  | None =>
  match cutPrefixCheckBreak input "in" with
  | Some input' => Ret (tokens ++ [tok TokIn], input')
  | None =>
      Fail (ErrExpectedOperatorAfterLabel
              match last tokens with Some t => tok_Value t | None => "" end)
  end end end end end.

(** [has(...)], [all()], [global()] or a label. *)
Definition scanTerm (tokens : list Token) (input : string)
    : outcome TokenizeError (list Token * string) :=
  match CutPrefix input "has(" with
  | Some input1 =>
      let! (ident, input2) := cutIdentifier (trimWhitespace input1) in
      match CutPrefix (trimWhitespace input2) ")" with
      | Some input3 => Ret (tokens ++ [MkToken TokHas ident], input3)
      | None => Fail ErrNoClosingParenAfterHas
      end
  | None =>
  match CutPrefix input "all(" with
  | Some input1 =>
      match CutPrefix (trimWhitespace input1) ")" with
      | Some input2 => Ret (tokens ++ [tok TokAll], input2)
      | None => Fail ErrNoClosingParenAfterAll
      end
  | None =>
  match CutPrefix input "global(" with
  | Some input1 =>
      match CutPrefix (trimWhitespace input1) ")" with
      | Some input2 => Ret (tokens ++ [tok TokGlobal], input2)
      | None => Fail ErrNoClosingParenAfterGlobal
      end
  | None =>
      let! (ident, input1) := cutIdentifier input in
      Ret (tokens ++ [MkToken TokLabel ident], input1)
  end end end.

(** The [switch] on the first byte of the trimmed, non-empty input [c :: rest]. *)
Definition scanToken (tokens : list Token) (c : ascii) (rest : string)
    : outcome TokenizeError (list Token * string) :=
  let input := String c rest in
  if decide (c = "("%char) then Ret (tokens ++ [tok TokLParen], rest)
  else if decide (c = ")"%char) then Ret (tokens ++ [tok TokRParen], rest)
  else if decide (c = "034"%char) then scanStringLiteral "034" tokens rest
  else if decide (c = "'"%char) then scanStringLiteral "'" tokens rest
  else if decide (c = "{"%char) then Ret (tokens ++ [tok TokLBrace], rest)
  else if decide (c = "}"%char) then Ret (tokens ++ [tok TokRBrace], rest)
  else if decide (c = ","%char) then Ret (tokens ++ [tok TokComma], rest)
  else if decide (c = "="%char) then
    match CutPrefix input "==" with
    | Some input' => Ret (tokens ++ [tok TokEq], input')
    | None => Fail ErrExpectedEqEq
    end
  else if decide (c = "!"%char) then
    match CutPrefix input "!=" with
    | Some input' => Ret (tokens ++ [tok TokNe], input')
    | None => Ret (tokens ++ [tok TokNot], rest)
    end
  else if decide (c = "&"%char) then
    match CutPrefix input "&&" with
    | Some input' => Ret (tokens ++ [tok TokAnd], input')
    | None => Fail ErrExpectedAndAnd
    end
  else if decide (c = "|"%char) then
    match CutPrefix input "||" with
    | Some input' => Ret (tokens ++ [tok TokOr], input')
    | None => Fail ErrExpectedOrOr
    end
  else if decide (lastTokKind tokens = TokLabel) then scanOperator tokens input
  else scanTerm tokens input.

Fixpoint AppendTokensFuel (fuel : nat) (tokens : list Token) (input : string)
    : outcome TokenizeError (list Token) :=
  match fuel with
  | O => OutOfFuel
  | S fuel' =>
      let startLen := String.length input in
      match trimWhitespace input with
      | "" => Ret (tokens ++ [tok TokEOF])
      | String c rest =>
          let! (tokens', input') := scanToken tokens c rest in
          if (startLen <=? String.length input')%nat then Fail ErrInfiniteLoop
          else AppendTokensFuel fuel' tokens' input'
      end
  end.

Definition AppendTokens (tokens : list Token) (input : string)
    : outcome TokenizeError (list Token) :=
  AppendTokensFuel (S (String.length input)) tokens input.

Definition Tokenize (input : string) : outcome TokenizeError (list Token) :=
  AppendTokens [] input.

Example tokenize_example :
  Tokenize "a not in {'x'}" =
  Ret [MkToken TokLabel "a"; tok TokNotIn; tok TokLBrace;
       MkToken TokStringLiteral "x"; tok TokRBrace; tok TokEOF].
Proof. reflexivity. Qed.

(** ** Scanning helpers *)
Section helpers.
Implicit Types s r : string.

Lemma trimWhitespace_length s : String.length (trimWhitespace s) ≤ String.length s.
Proof. induction s as [|c s IH]; simpl; [done|]. case_match; simpl; lia. Qed.

Lemma spanIdentifier_spec s ident r :
  spanIdentifier s = (ident, r) →
  s = ident +:+ r ∧ string_forallb identifierChar ident = true ∧ isWordBoundary r = true.
Proof.
  revert ident r. induction s as [|c s IH]; intros ident r; simpl.
  - by intros [= <- <-].
  - destruct (identifierChar c) eqn:Hc.
    + destruct (spanIdentifier s) as [i r'] eqn:Hs. intros [= <- <-].
      destruct (IH i r') as (-> & Hi & Hr); [done|]. simpl. by rewrite Hc, Hi.
    + intros [= <- <-]. simpl. by rewrite Hc.
Qed.

Lemma spanIdentifier_app ident r :
  string_forallb identifierChar ident = true → isWordBoundary r = true →
  spanIdentifier (ident +:+ r) = (ident, r).
Proof.
  induction ident as [|c ident IH]; intros Hi Hr.
  - rewrite string_app_nil_l. destruct r as [|c r]; [done|]. simpl in *.
    by destruct (identifierChar c).
  - rewrite string_app_cons. simpl in *. apply andb_true_iff in Hi as [Hc Hi].
    by rewrite Hc, (IH Hi Hr).
Qed.

(** What [ValidLabel] accepts. *)
Lemma ValidLabel_spec s :
  ValidLabel s = true ↔
  string_forallb identifierChar s = true ∧ 0 < String.length s ≤ MaxLabelLength.
Proof.
  unfold ValidLabel, cutIdentifier.
  destruct (spanIdentifier s) as [i r] eqn:Hs.
  pose proof (spanIdentifier_spec _ _ _ Hs) as (-> & Hi & Hr).
  destruct (Nat.ltb_spec MaxLabelLength (String.length i)) as [Hlt|Hle].
  { split; [done|]. intros [_ [_ Hl]]. rewrite string_length_app in Hl. lia. }
  destruct (Nat.eqb_spec (String.length i) 0) as [H0|H0].
  - split; [done|]. destruct i; [|done]. rewrite string_app_nil_l.
    intros [Hf Hl]. destruct r as [|c r]; simpl in *; [lia|].
    by destruct (identifierChar c).
  - rewrite bool_decide_eq_true, string_forallb_app, string_length_app, andb_true_iff.
    split; [intros ->; simpl; split; [done|lia]|].
    intros [[_ Hf] _]. destruct r as [|c r]; [done|]. simpl in *.
    by destruct (identifierChar c).
Qed.

Lemma cutIdentifier_Ret s ident r :
  cutIdentifier s = Ret (ident, r) →
  s = ident +:+ r ∧ ValidLabel ident = true ∧ isWordBoundary r = true.
Proof.
  unfold cutIdentifier. destruct (spanIdentifier s) as [i r'] eqn:Hs.
  apply spanIdentifier_spec in Hs as (-> & Hi & Hr).
  destruct (Nat.ltb_spec MaxLabelLength (String.length i)); [done|].
  destruct (Nat.eqb_spec (String.length i) 0); [done|]. intros [= <- <-].
  rewrite ValidLabel_spec. split_and!; auto; lia.
Qed.

Lemma cutIdentifier_outcome s :
  match cutIdentifier s with
  | Ret _ => True | Fail e => e ≠ ErrInfiniteLoop | _ => False
  end.
Proof.
  unfold cutIdentifier. destruct (spanIdentifier s) as [i r].
  destruct (MaxLabelLength <? String.length i)%nat; [done|].
  by destruct (String.length i =? 0)%nat.
Qed.

Lemma cutIdentifier_app ident r :
  ValidLabel ident = true → isWordBoundary r = true →
  cutIdentifier (ident +:+ r) = Ret (ident, r).
Proof.
  intros [Hi Hl]%ValidLabel_spec Hr. unfold cutIdentifier.
  rewrite (spanIdentifier_app _ _ Hi Hr).
  destruct (Nat.ltb_spec MaxLabelLength (String.length ident)); [lia|].
  destruct (Nat.eqb_spec (String.length ident) 0); [lia|done].
Qed.

Definition lacks (q : ascii) s : bool := string_forallb (λ c, bool_decide (c ≠ q)) s.

Lemma splitAtByte_spec q s v r :
  splitAtByte q s = Some (v, r) ↔ s = v +:+ String q r ∧ lacks q v = true.
Proof.
  revert v. induction s as [|c s IH]; intros v; simpl.
  { split; [done|]. intros [Hv _]. by destruct v. }
  case_decide as Hc; subst.
  - split; [by intros [= <- <-]|]. intros [Heq Hv].
    destruct v as [|d v]; [rewrite string_app_nil_l in Heq; by simplify_eq|]. rewrite string_app_cons in Heq.
    simplify_eq/=. unfold lacks in Hv. simpl in Hv. by rewrite bool_decide_false in Hv by auto.
  - destruct (splitAtByte q s) as [[v' r']|] eqn:E.
    + split.
      * intros [= <- <-]. destruct (proj1 (IH v') eq_refl) as [-> Hv].
        split; [done|]. unfold lacks in *. simpl. by rewrite bool_decide_true.
      * intros [Heq Hv]. destruct v as [|d v]; [rewrite string_app_nil_l in Heq; by simplify_eq|].
        rewrite string_app_cons in Heq. simplify_eq/=.
        unfold lacks in Hv. simpl in Hv. apply andb_true_iff in Hv as [_ Hv].
        by injection (proj2 (IH v) (conj eq_refl Hv)) as -> ->.
    + split; [done|]. intros [Heq Hv]. destruct v as [|d v]; [rewrite string_app_nil_l in Heq; by simplify_eq|].
      rewrite string_app_cons in Heq. simplify_eq/=.
      unfold lacks in Hv. simpl in Hv. apply andb_true_iff in Hv as [_ Hv].
      by pose proof (proj2 (IH v) (conj eq_refl Hv)).
Qed.

Lemma cutWords_length s ws r :
  cutWords s ws = Some r → String.length r ≤ String.length s.
Proof.
  revert s. induction ws as [|w ws IH]; intros s; simpl; [by intros [= ->]|].
  destruct (CutPrefix s w) as [s'|] eqn:E; [|done]. intros Hr%IH.
  apply CutPrefix_length in E. pose proof (trimWhitespace_length s'). lia.
Qed.

Lemma cutMultiWord_length s w ws r :
  cutMultiWordPrefixCheckBreak s (w :: ws) = Some r → w ≠ "" →
  String.length r < String.length s.
Proof.
  unfold cutMultiWordPrefixCheckBreak. simpl.
  destruct (CutPrefix s w) as [s'|] eqn:E; [|done].
  destruct (cutWords _ ws) as [r'|] eqn:Ew; [|done]. case_match; [|done].
  intros [= ->] Hw. apply CutPrefix_length in E. apply cutWords_length in Ew.
  pose proof (trimWhitespace_length s'). destruct w; simpl in *; [done|lia].
Qed.

Lemma cutPrefixCheckBreak_length s p r :
  cutPrefixCheckBreak s p = Some r → p ≠ "" → String.length r < String.length s.
Proof.
  unfold cutPrefixCheckBreak. destruct (CutPrefix s p) as [r'|] eqn:E; [|done].
  case_match; [|done]. intros [= ->] Hp. apply CutPrefix_length in E.
  destruct p; simpl in *; [done|lia].
Qed.
End helpers.

(** ** What one iteration of the loop does

    A token that the tokenizer can emit before the final [TokEOF]: label names
    are valid identifiers, and a string literal never holds both kinds of quote. *)
Definition tok_wf (t : Token) : Prop :=
  tok_Kind t ≠ TokEOF ∧
  match tok_Kind t with
  | TokLabel | TokHas => ValidLabel (tok_Value t) = true
  | TokStringLiteral => lacks "034" (tok_Value t) = true ∨ lacks "'" (tok_Value t) = true
  | _ => True
  end.

(** An iteration that succeeds appends one well-formed token and consumes input;
    one that does not, returns an error other than the loop check's. *)
Definition scan_ok (tokens : list Token) (input : string)
    (o : outcome TokenizeError (list Token * string)) : Prop :=
  match o with
  | Ret (tokens', input') =>
      (∃ t, tokens' = tokens ++ [t] ∧ tok_wf t) ∧
      String.length input' < String.length input
  | Fail e => e ≠ ErrInfiniteLoop
  | _ => False
  end.

Lemma scan_ok_Ret tokens input t input' :
  tok_wf t → String.length input' < String.length input →
  scan_ok tokens input (Ret (tokens ++ [t], input')).
Proof. simpl. eauto. Qed.

Lemma scanOperator_ok tokens input : scan_ok tokens input (scanOperator tokens input).
Proof.
  unfold scanOperator.
  repeat (case_match; [apply scan_ok_Ret; [by split|]; eauto using cutPrefixCheckBreak_length, cutMultiWord_length|]).
  done.
Qed.

Lemma scanTerm_ok tokens input : scan_ok tokens input (scanTerm tokens input).
Proof.
  unfold scanTerm.
  destruct (CutPrefix input "has(") as [i1|] eqn:E1.
  { apply CutPrefix_length in E1. pose proof (trimWhitespace_length i1).
    destruct (cutIdentifier (trimWhitespace i1)) as [[ident i2]|e| |] eqn:Ei.
    - apply cutIdentifier_Ret in Ei as (Hi1 & Hv & _). cbn [obind].
      destruct (CutPrefix (trimWhitespace i2) ")") as [i3|] eqn:E3; [|by simpl].
      apply scan_ok_Ret; [by split|]. apply CutPrefix_length in E3.
      pose proof (trimWhitespace_length i2). rewrite Hi1, string_length_app in *.
      simpl in *. lia.
    - by pose proof (cutIdentifier_outcome (trimWhitespace i1)) as Ho; rewrite Ei in Ho.
    - by pose proof (cutIdentifier_outcome (trimWhitespace i1)) as Ho; rewrite Ei in Ho.
    - by pose proof (cutIdentifier_outcome (trimWhitespace i1)) as Ho; rewrite Ei in Ho. }
  destruct (CutPrefix input "all(") as [i1|] eqn:E2.
  { case_match eqn:E3; [|done]. apply scan_ok_Ret; [by split|].
    apply CutPrefix_length in E2, E3. pose proof (trimWhitespace_length i1).
    simpl in *. lia. }
  destruct (CutPrefix input "global(") as [i1|] eqn:E3.
  { case_match eqn:E4; [|done]. apply scan_ok_Ret; [by split|].
    apply CutPrefix_length in E3, E4. pose proof (trimWhitespace_length i1).
    simpl in *. lia. }
  destruct (cutIdentifier input) as [[ident i1]|e| |] eqn:Ei.
  - apply cutIdentifier_Ret in Ei as (-> & Hv & _). cbn [obind].
    apply scan_ok_Ret; [by split|]. apply ValidLabel_spec in Hv as [_ ?].
    rewrite string_length_app. lia.
  - by pose proof (cutIdentifier_outcome input) as Ho; rewrite Ei in Ho.
  - by pose proof (cutIdentifier_outcome input) as Ho; rewrite Ei in Ho.
  - by pose proof (cutIdentifier_outcome input) as Ho; rewrite Ei in Ho.
Qed.

Lemma scanStringLiteral_ok q tokens c rest :
  q = "034"%char ∨ q = "'"%char →
  scan_ok tokens (String c rest) (scanStringLiteral q tokens rest).
Proof.
  intros Hq. unfold scanStringLiteral.
  destruct (splitAtByte q rest) as [[v r]|] eqn:E; [|done].
  apply splitAtByte_spec in E as [-> Hl]. apply scan_ok_Ret.
  - split; [done|]. simpl. destruct Hq; subst; auto.
  - simpl. rewrite string_length_app. simpl. lia.
Qed.

Lemma scanToken_ok tokens c rest : scan_ok tokens (String c rest) (scanToken tokens c rest).
Proof.
  unfold scanToken.
  repeat first
    [ case_decide; [subst; first
        [ apply scan_ok_Ret; [by split|simpl; lia]
        | apply scanStringLiteral_ok; auto
        | case_match eqn:E; [apply scan_ok_Ret; [by split|]; apply CutPrefix_length in E; simpl in *; lia|];
          first [done | apply scan_ok_Ret; [by split|simpl; lia]]
        | apply scanOperator_ok ] |]
    | apply scanTerm_ok ].
Qed.

(** ** The loop terminates

    Any fuel above the length of the input gives the same, completed, result. *)
Lemma AppendTokensFuel_total fuel tokens input :
  String.length input < fuel →
  match AppendTokensFuel fuel tokens input with
  | Ret ts => ∃ ts', ts = tokens ++ ts' ++ [tok TokEOF] ∧ Forall tok_wf ts'
  | Fail e => e ≠ ErrInfiniteLoop
  | _ => False
  end.
Proof.
  revert tokens input. induction fuel as [|fuel IH]; intros tokens input Hlen; [lia|].
  simpl. pose proof (trimWhitespace_length input) as Htrim.
  destruct (trimWhitespace input) as [|c rest]; [by exists []|].
  pose proof (scanToken_ok tokens c rest) as Hok.
  destruct (scanToken tokens c rest) as [[tokens' input']|e| |]; simpl in *; try done.
  destruct Hok as [(t & -> & Ht) Hlt].
  destruct (Nat.leb_spec (String.length input) (String.length input')); [lia|].
  specialize (IH (tokens ++ [t]) input'). destruct (AppendTokensFuel _ _ _); try (by apply IH; lia).
  destruct IH as (ts' & -> & Hts'); [lia|].
  exists (t :: ts'). rewrite <-!app_assoc. split; [done|]. by constructor.
Qed.

Lemma AppendTokensFuel_irrel fuel1 fuel2 tokens input :
  String.length input < fuel1 → String.length input < fuel2 →
  AppendTokensFuel fuel1 tokens input = AppendTokensFuel fuel2 tokens input.
Proof.
  revert fuel2 tokens input.
  induction fuel1 as [|fuel1 IH]; intros [|fuel2] tokens input H1 H2; try lia.
  simpl. pose proof (trimWhitespace_length input) as Htrim.
  destruct (trimWhitespace input) as [|c rest]; [done|].
  pose proof (scanToken_ok tokens c rest) as Hok.
  destruct (scanToken tokens c rest) as [[tokens' input']|e| |]; simpl in *; try done.
  destruct Hok as [_ Hlt]. case_match; [done|]. apply IH; lia.
Qed.

(** The loop, one iteration unrolled: the fuel and the loop check are gone. *)
Lemma AppendTokens_unfold tokens input :
  AppendTokens tokens input =
  match trimWhitespace input with
  | "" => Ret (tokens ++ [tok TokEOF])
  | String c rest =>
      let! (tokens', input') := scanToken tokens c rest in AppendTokens tokens' input'
  end.
Proof.
  unfold AppendTokens. cbn [AppendTokensFuel]. pose proof (trimWhitespace_length input).
  destruct (trimWhitespace input) as [|c rest]; [done|].
  pose proof (scanToken_ok tokens c rest) as Hok.
  destruct (scanToken tokens c rest) as [[tokens' input']|e| |]; simpl in *; try done.
  destruct Hok as [_ Hlt].
  destruct (Nat.leb_spec (String.length input) (String.length input')); [lia|].
  rewrite (AppendTokensFuel_irrel _ (S (String.length input'))) by lia. done.
Qed.

(** ** Scanning a printed lexeme *)
Section lexemes.
Implicit Types (ts : list Token) (s l v : string).

(** One iteration that succeeds: the step used by every lexeme below. *)
Lemma AppendTokens_step ts c s ts' s' :
  trimWhitespace (String c s) = String c s →
  scanToken ts c s = Ret (ts', s') →
  AppendTokens ts (String c s) = AppendTokens ts' s'.
Proof. intros Ht Hs. by rewrite AppendTokens_unfold, Ht, Hs. Qed.

Lemma lex_space ts s : AppendTokens ts (" " +:+ s) = AppendTokens ts s.
Proof. by rewrite (AppendTokens_unfold _ s), (AppendTokens_unfold _ (" " +:+ s)). Qed.

Lemma lex_lparen ts s : AppendTokens ts ("(" +:+ s) = AppendTokens (ts ++ [tok TokLParen]) s.
Proof. by apply AppendTokens_step. Qed.
Lemma lex_rparen ts s : AppendTokens ts (")" +:+ s) = AppendTokens (ts ++ [tok TokRParen]) s.
Proof. by apply AppendTokens_step. Qed.
Lemma lex_lbrace ts s : AppendTokens ts ("{" +:+ s) = AppendTokens (ts ++ [tok TokLBrace]) s.
Proof. by apply AppendTokens_step. Qed.
Lemma lex_rbrace ts s : AppendTokens ts ("}" +:+ s) = AppendTokens (ts ++ [tok TokRBrace]) s.
Proof. by apply AppendTokens_step. Qed.
Lemma lex_comma ts s : AppendTokens ts ("," +:+ s) = AppendTokens (ts ++ [tok TokComma]) s.
Proof. by apply AppendTokens_step. Qed.
Lemma lex_eq ts s : AppendTokens ts ("==" +:+ s) = AppendTokens (ts ++ [tok TokEq]) s.
Proof. by apply AppendTokens_step. Qed.
Lemma lex_ne ts s : AppendTokens ts ("!=" +:+ s) = AppendTokens (ts ++ [tok TokNe]) s.
Proof. by apply AppendTokens_step. Qed.
Lemma lex_and ts s : AppendTokens ts ("&&" +:+ s) = AppendTokens (ts ++ [tok TokAnd]) s.
Proof. by apply AppendTokens_step. Qed.
Lemma lex_or ts s : AppendTokens ts ("||" +:+ s) = AppendTokens (ts ++ [tok TokOr]) s.
Proof. by apply AppendTokens_step. Qed.

Lemma lex_not ts s :
  CutPrefix s "=" = None → AppendTokens ts ("!" +:+ s) = AppendTokens (ts ++ [tok TokNot]) s.
Proof.
  intros Hs. apply AppendTokens_step; [done|].
  change (match CutPrefix s "=" with
          | Some i => Ret (ts ++ [tok TokNe], i)
          | None => Ret (ts ++ [tok TokNot], s)
          end = Ret (ts ++ [tok TokNot], s) :> outcome TokenizeError _).
  by rewrite Hs.
Qed.

(** A literal between two copies of a quote it does not contain. *)
Lemma lex_literal ts q v s :
  q = "034"%char ∨ q = "'"%char → lacks q v = true →
  AppendTokens ts (String q (v +:+ String q s)) =
  AppendTokens (ts ++ [MkToken TokStringLiteral v]) s.
Proof.
  intros Hq Hv. assert (splitAtByte q (v +:+ String q s) = Some (v, s)) as Hsp
    by (by apply splitAtByte_spec).
  apply AppendTokens_step; [by destruct Hq; subst|].
  destruct Hq; subst; [change (scanStringLiteral "034" ts (v +:+ String "034" s) = Ret (ts ++ [MkToken TokStringLiteral v], s))
    | change (scanStringLiteral "'" ts (v +:+ String "'" s) = Ret (ts ++ [MkToken TokStringLiteral v], s))];
    unfold scanStringLiteral; by rewrite Hsp.
Qed.

(** The first byte of an identifier starts none of the other lexemes. *)
Lemma scanToken_identifier ts c s :
  identifierChar c = true → lastTokKind ts ≠ TokLabel →
  trimWhitespace (String c s) = String c s ∧
  scanToken ts c s = scanTerm ts (String c s).
Proof.
  intros Hc Hl. unfold scanToken. rewrite (decide_False (P := lastTokKind ts = TokLabel)) by done.
  destruct c as [[] [] [] [] [] [] [] []]; first [done | discriminate Hc].
Qed.

Lemma CutPrefix_not_call l d s p :
  string_forallb identifierChar l = true → string_forallb identifierChar p = true →
  identifierChar d = false → d ≠ "("%char →
  CutPrefix (l +:+ String d s) (p +:+ "(") = None.
Proof.
  intros Hl Hp Hd Hd'. revert p Hp. induction l as [|c l IH]; intros [|a p] Hp.
  - rewrite !string_app_nil_l. simpl. by rewrite decide_False by auto.
  - rewrite string_app_nil_l, string_app_cons. simpl in *.
    rewrite decide_False; [done|]. intros <-. by rewrite Hd in Hp.
  - rewrite string_app_nil_l, string_app_cons. simpl. rewrite decide_False; [done|].
    intros <-. by simpl in Hl.
  - rewrite !string_app_cons. simpl in *. apply andb_true_iff in Hl as [_ Hl], Hp as [_ Hp].
    case_decide; [|done]. by apply IH.
Qed.

(** Labels are followed by a space in printed selectors. *)
Lemma lex_label ts l s :
  ValidLabel l = true → lastTokKind ts ≠ TokLabel →
  AppendTokens ts (l +:+ " " +:+ s) = AppendTokens (ts ++ [MkToken TokLabel l]) (" " +:+ s).
Proof.
  intros Hv Hts. pose proof Hv as [Hl Hlen]%ValidLabel_spec.
  destruct l as [|c l]; [simpl in *; lia|]. rewrite string_app_cons.
  assert (identifierChar c = true) as Hc by (simpl in Hl; by apply andb_true_iff in Hl as [??]).
  destruct (scanToken_identifier ts c (l +:+ " " +:+ s) Hc Hts) as [Htrim Hscan].
  apply AppendTokens_step; [done|]. rewrite Hscan, <-string_app_cons.
  change (" " +:+ s) with (String " " s). unfold scanTerm.
  rewrite (CutPrefix_not_call _ " " s "has"), (CutPrefix_not_call _ " " s "all"),
    (CutPrefix_not_call _ " " s "global") by done.
  by rewrite cutIdentifier_app.
Qed.

Lemma lex_has ts l s :
  ValidLabel l = true → lastTokKind ts ≠ TokLabel →
  AppendTokens ts ("has(" +:+ l +:+ ")" +:+ s) = AppendTokens (ts ++ [MkToken TokHas l]) s.
Proof.
  intros Hv Hts. destruct (scanToken_identifier ts "h" ("as(" +:+ l +:+ ")" +:+ s)) as [Htrim Hscan];
    [done..|].
  apply (AppendTokens_step ts "h" ("as(" +:+ l +:+ ")" +:+ s)); [done|]. rewrite Hscan.
  change (String "h" ("as(" +:+ l +:+ ")" +:+ s)) with ("has(" +:+ l +:+ ")" +:+ s).
  unfold scanTerm. rewrite CutPrefix_app.
  assert (trimWhitespace (l +:+ ")" +:+ s) = l +:+ ")" +:+ s) as ->.
  { pose proof Hv as [Hl Hlen]%ValidLabel_spec. destruct l as [|c l]; [simpl in *; lia|].
    rewrite string_app_cons.
    by apply (scanToken_identifier []); [simpl in Hl; apply andb_true_iff in Hl as [??]|]. }
  by rewrite cutIdentifier_app.
Qed.

Lemma lex_all ts s :
  lastTokKind ts ≠ TokLabel → AppendTokens ts ("all()" +:+ s) = AppendTokens (ts ++ [tok TokAll]) s.
Proof.
  intros Hts. destruct (scanToken_identifier ts "a" ("ll()" +:+ s)) as [Htrim Hscan]; [done..|].
  apply (AppendTokens_step ts "a" ("ll()" +:+ s)); [done|]. by rewrite Hscan.
Qed.

Lemma lex_global ts s :
  lastTokKind ts ≠ TokLabel →
  AppendTokens ts ("global()" +:+ s) = AppendTokens (ts ++ [tok TokGlobal]) s.
Proof.
  intros Hts. destruct (scanToken_identifier ts "g" ("lobal()" +:+ s)) as [Htrim Hscan]; [done..|].
  apply (AppendTokens_step ts "g" ("lobal()" +:+ s)); [done|]. by rewrite Hscan.
Qed.

Lemma lex_afterLabel ts c w s ts' s' :
  identifierChar c = true → lastTokKind ts = TokLabel →
  scanOperator ts (String c w +:+ s) = Ret (ts', s') →
  AppendTokens ts (String c w +:+ s) = AppendTokens ts' s'.
Proof.
  intros Hc Hl Hop. rewrite string_app_cons in *. unfold scanToken.
  apply AppendTokens_step; [|rewrite <-Hop; unfold scanToken; rewrite Hl];
    destruct c as [[] [] [] [] [] [] [] []]; first [done | discriminate Hc].
Qed.

(** The word operators, which are only recognised right after a label. *)
Definition opWord (k : Kind) : option string :=
  match k with
  | TokContains => Some "contains"
  | TokStartsWith => Some "starts with"
  | TokEndsWith => Some "ends with"
  | TokNotIn => Some "not in"
  | TokIn => Some "in"
  | _ => None
  end.

Lemma lex_opWord ts k w q s :
  opWord k = Some w → lastTokKind ts = TokLabel →
  q = "034"%char ∨ q = "'"%char ∨ q = "{"%char →
  AppendTokens ts (" " +:+ w +:+ " " +:+ String q s) =
  AppendTokens (ts ++ [tok k]) (String q s).
Proof.
  intros Hw Hts Hq. rewrite lex_space.
  destruct k; simplify_eq/=; destruct Hq as [->|[->| ->]];
    first [ by apply lex_afterLabel
          | rewrite <-(lex_space (ts ++ [tok _])); by apply lex_afterLabel ].
Qed.
End lexemes.
