(* ===== verification/SelectorAST.v ===== *)
(** * Selectors: [libcalico-go/lib/selector/parser/ast.go] and [stringset.go]

    [Node] has one constructor per node type of the source.  An interned
    [uniquestr.Handle] is the string it stands for (handles are equal exactly
    when their strings are).  A Go slice whose nil-ness the code looks at is an
    [option (list _)], [None] being nil; a nil map and an empty map behave alike
    wherever the code reads one, and both are the empty [gmap].  Operand slices
    are indexed with [[0]] by the source: the operations that do so return
    [None] on an empty slice, where the source panics. *)
From S2P Require Import Prelude.
From Stdlib Require Import Ascii.
From stdpp Require Import base list gmap strings sorting.
From stdpp Require Import options.

(** ** [StringSet] *)
Definition StringSet := option (list string).

(** [sort.Search]: the smallest index in [[i, j)] at which [f] holds, by
    bisection; [j] when there is none. *)
Fixpoint sortSearch (fuel : nat) (f : nat → bool) (i j : nat) : nat :=
  match fuel with
  | O => i
  | S fuel' =>
      if (i <? j)%nat then
        let h := (i + j) / 2 in
        if f h then sortSearch fuel' f i h else sortSearch fuel' f (S h) j
      else i
  end.

Definition StringSet_Contains (ss : StringSet) (s : string) : bool :=
  let l := default [] ss in
  let idx := sortSearch (length l) (λ i, String.leb s (default "" (l !! i))) 0 (length l) in
  match l !! idx with
  | Some v => bool_decide (v = s)
  | None => false
  end.

(** The sorted slice with adjacent duplicates dropped: [last] is the last
    element kept so far. *)
Fixpoint dedupSorted (last : string) (s : list string) : list string :=
  match s with
  | [] => []
  | v :: s' => if decide (v = last) then dedupSorted last s' else v :: dedupSorted v s'
  end.

Definition sortStrings (s : list string) : list string := merge_sort String.le s.

(** The slice [ConvertToStringSetInPlace] returns. *)
Definition ConvertToStringSetInPlace (s : list string) : list string :=
  if (length s <=? 1)%nat then s
  else match sortStrings s with
       | [] => []
       | v :: s' => v :: dedupSorted v s'
       end.

(** The caller's slice afterwards: the sort and the compaction ran in its
    backing array, and its length did not change. *)
Definition afterConvertInPlace (s : list string) : list string :=
  if (length s <=? 1)%nat then s
  else let out := ConvertToStringSetInPlace s in
       out ++ drop (length out) (sortStrings s).

(** The parser's slice of literals is nil when there are none. *)
Definition StringSet_of (values : list string) : StringSet :=
  match ConvertToStringSetInPlace values with [] => None | l => Some l end.

(** ** [LabelRestriction] *)
Record LabelRestriction := MkLabelRestriction {
  MustBePresent : bool;
  MustBeAbsent : bool;
  MustHaveOneOfValues : option (list string)
}.

Definition zeroRestriction : LabelRestriction := MkLabelRestriction false false None.

Definition PossibleToSatisfy (r : LabelRestriction) : bool :=
  if MustBePresent r && MustBeAbsent r then false
  else match MustHaveOneOfValues r with
       | Some [] => false
       | _ => true
       end.

(** ** Nodes *)
Scheme All for list.
Inductive Node :=
  | LabelEqValueNode (LabelName Value : string)
  | LabelContainsValueNode (LabelName Value : string)
  | LabelStartsWithValueNode (LabelName Value : string)
  | LabelEndsWithValueNode (LabelName Value : string)
  | LabelInSetNode (LabelName : string) (Value : StringSet)
  | LabelNotInSetNode (LabelName : string) (Value : StringSet)
  | LabelNeValueNode (LabelName Value : string)
  | HasNode (LabelName : string)
  | NotNode (Operand : Node)
  | AndNode (Operands : list Node)
  | OrNode (Operands : list Node)
  | AllNode
  | GlobalNode.

(** The [Labels] interface: [GetHandle] returns the value when present. *)
Class Labels (L : Type) := GetHandle : L → string → option string.

(** [MapAsLabels]. *)
#[global] Instance MapAsLabels : Labels (gmap string string) := λ l labelName, l !! labelName.

Fixpoint Evaluate `{Labels L} (node : Node) (labels : L) : bool :=
  match node with
  | LabelEqValueNode n v =>
      match GetHandle labels n with Some val => bool_decide (val = v) | None => false end
  | LabelContainsValueNode n v =>
      match GetHandle labels n with Some val => Contains val v | None => false end
  | LabelStartsWithValueNode n v =>
      match GetHandle labels n with Some val => HasPrefix val v | None => false end
  | LabelEndsWithValueNode n v =>
      match GetHandle labels n with Some val => HasSuffix val v | None => false end
  | LabelInSetNode n ss =>
      match GetHandle labels n with Some val => StringSet_Contains ss val | None => false end
  | LabelNotInSetNode n ss =>
      match GetHandle labels n with Some val => negb (StringSet_Contains ss val) | None => true end
  | LabelNeValueNode n v =>
      match GetHandle labels n with Some val => bool_decide (val ≠ v) | None => true end
  | HasNode n =>
      match GetHandle labels n with Some _ => true | None => false end
  | NotNode op => negb (Evaluate op labels)
  | AndNode ops => forallb (λ op, Evaluate op labels) ops
  | OrNode ops => existsb (λ op, Evaluate op labels) ops
  | AllNode => true
  | GlobalNode => true
  end.

(** ** Label restrictions *)
Abbreviation restrictions := (gmap string LabelRestriction).

Definition intersectStringSlicesInPlace (a b : list string) : list string :=
  let bSet := Some (ConvertToStringSetInPlace b) in
  List.filter (λ v1, StringSet_Contains bSet v1) a.

Definition unionStringSlicesInPlace (a b : list string) : list string :=
  let aSet := Some (ConvertToStringSetInPlace a) in
  afterConvertInPlace a ++ List.filter (λ v, negb (StringSet_Contains aSet v)) b.

(** The body of [AndNode]'s inner loop: what operand restriction [r] does to
    the accumulated one. *)
Definition andRestriction (base r : LabelRestriction) : LabelRestriction :=
  MkLabelRestriction
    (MustBePresent base || MustBePresent r)
    (MustBeAbsent base || MustBeAbsent r)
    match MustHaveOneOfValues base, MustHaveOneOfValues r with
    | None, vs => vs
    | Some a, Some b => Some (intersectStringSlicesInPlace a b)
    | Some a, None => Some a
    end.

(** The loop over the operand's map: every key is visited once, so the order
    in which Go enumerates them does not matter. *)
Definition andMerge (lr opLR : restrictions) : restrictions :=
  merge (λ base r,
    match r with
    | Some r => Some (andRestriction (default zeroRestriction base) r)
    | None => base
    end) lr opLR.

(** The body of [OrNode]'s inner loop; [None] is [delete(lr, ln)]. *)
Definition orRestriction (r opr : LabelRestriction) : option LabelRestriction :=
  let present := MustBePresent r && MustBePresent opr in
  let values :=
    if present then
      match MustHaveOneOfValues r, MustHaveOneOfValues opr with
      | Some a, Some b => Some (unionStringSlicesInPlace a b)
      | _, _ => None
      end
    else None in
  let absent := MustBeAbsent r && MustBeAbsent opr in
  if present || absent then Some (MkLabelRestriction present absent values) else None.

Definition orMerge (lr opLR : restrictions) : restrictions :=
  merge (λ r opr,
    match r with
    | Some r => orRestriction r (default zeroRestriction opr)
    | None => None
    end) lr opLR.

Fixpoint Node_LabelRestrictions (node : Node) : option restrictions :=
  match node with
  | LabelEqValueNode n v => Some {[ n := MkLabelRestriction true false (Some [v]) ]}
  | LabelContainsValueNode n _ | LabelStartsWithValueNode n _ | LabelEndsWithValueNode n _
  | HasNode n => Some {[ n := MkLabelRestriction true false None ]}
  | LabelInSetNode n ss => Some {[ n := MkLabelRestriction true false ss ]}
  | LabelNotInSetNode _ _ | LabelNeValueNode _ _ | AllNode | GlobalNode => Some ∅
  | NotNode (HasNode n) => Some {[ n := MkLabelRestriction false true None ]}
  | NotNode _ => Some ∅
  | AndNode ops =>
      (fix go lr ops :=
        match ops with
        | [] => Some lr
        | op :: ops' =>
            match Node_LabelRestrictions op with
            | Some opLR => go (andMerge lr opLR) ops'
            | None => None
            end
        end) ∅ ops
  | OrNode [] => None
  | OrNode (op0 :: ops) =>
      match Node_LabelRestrictions op0 with
      | Some lr0 =>
          (fix go lr ops :=
            match ops with
            | [] => Some lr
            | op :: ops' =>
                match Node_LabelRestrictions op with
                | Some opLR => go (orMerge lr opLR) ops'
                | None => None
                end
            end) lr0 ops
      | None => None
      end
  end.

(** ** Canonical text *)
Definition quoteFor (s : string) : string :=
  if Contains s (String "034" "") then "'" else String "034" "".

Definition appendLabelOpAndQuotedString (fragments : list string) (label op s : string)
    : list string :=
  let quote := quoteFor s in
  fragments ++ [label; op; quote; s; quote].

Fixpoint inOpValueFragments (first : bool) (fragments : list string) (values : list string)
    : list string :=
  match values with
  | [] => fragments
  | s :: values' =>
      let quote := quoteFor s in
      let fragments := if first then fragments else fragments ++ [", "] in
      inOpValueFragments false (fragments ++ [quote; s; quote]) values'
  end.

Definition collectInOpFragments (fragments : list string) (labelName op : string)
    (values : StringSet) : list string :=
  inOpValueFragments true (fragments ++ [labelName; " "; op; " {"]) (default [] values) ++ ["}"].

Fixpoint collectFragments (node : Node) (fragments : list string) : option (list string) :=
  match node with
  | LabelEqValueNode n v => Some (appendLabelOpAndQuotedString fragments n " == " v)
  | LabelContainsValueNode n v => Some (appendLabelOpAndQuotedString fragments n " contains " v)
  | LabelStartsWithValueNode n v =>
      Some (appendLabelOpAndQuotedString fragments n " starts with " v)
  | LabelEndsWithValueNode n v => Some (appendLabelOpAndQuotedString fragments n " ends with " v)
  | LabelInSetNode n ss => Some (collectInOpFragments fragments n "in" ss)
  | LabelNotInSetNode n ss => Some (collectInOpFragments fragments n "not in" ss)
  | LabelNeValueNode n v => Some (appendLabelOpAndQuotedString fragments n " != " v)
  | HasNode n => Some (fragments ++ ["has("; n; ")"])
  | NotNode op => collectFragments op (fragments ++ ["!"])
  | AndNode [] | OrNode [] => None
  | AndNode (op0 :: ops) =>
      match collectFragments op0 (fragments ++ ["("]) with
      | Some fragments0 =>
          (fix go fragments ops :=
            match ops with
            | [] => Some (fragments ++ [")"])
            | op :: ops' =>
                match collectFragments op (fragments ++ [" && "]) with
                | Some fragments' => go fragments' ops'
                | None => None
                end
            end) fragments0 ops
      | None => None
      end
  | OrNode (op0 :: ops) =>
      match collectFragments op0 (fragments ++ ["("]) with
      | Some fragments0 =>
          (fix go fragments ops :=
            match ops with
            | [] => Some (fragments ++ [")"])
            | op :: ops' =>
                match collectFragments op (fragments ++ [" || "]) with
                | Some fragments' => go fragments' ops'
                | None => None
                end
            end) fragments0 ops
      | None => None
      end
  | AllNode => Some (fragments ++ ["all()"])
  | GlobalNode => Some (fragments ++ ["global()"])
  end.

(** ** [PrefixVisitor] and [AcceptVisitor]

    [Visit] rewrites the label name of the nodes that have one; [AcceptVisitor]
    visits a node and then its operands.  The tree is not shared, so updating it
    in place and rebuilding it are the same. *)
Definition PrefixVisitor_name (Prefix labelName : string) : string := Prefix +:+ labelName.

Fixpoint AcceptPrefixVisitor (Prefix : string) (node : Node) : Node :=
  let rename := PrefixVisitor_name Prefix in
  match node with
  | LabelEqValueNode n v => LabelEqValueNode (rename n) v
  | LabelNeValueNode n v => LabelNeValueNode (rename n) v
  | LabelContainsValueNode n v => LabelContainsValueNode (rename n) v
  | LabelStartsWithValueNode n v => LabelStartsWithValueNode (rename n) v
  | LabelEndsWithValueNode n v => LabelEndsWithValueNode (rename n) v
  | HasNode n => HasNode (rename n)
  | LabelInSetNode n ss => LabelInSetNode (rename n) ss
  | LabelNotInSetNode n ss => LabelNotInSetNode (rename n) ss
  | NotNode op => NotNode (AcceptPrefixVisitor Prefix op)
  | AndNode ops => AndNode (map (AcceptPrefixVisitor Prefix) ops)
  | OrNode ops => OrNode (map (AcceptPrefixVisitor Prefix) ops)
  | AllNode => AllNode
  | GlobalNode => GlobalNode
  end.

(** ** [Selector] and the one-entry cache of [LabelRestrictions]

    [MakeUniqueID] is the SHA-224 based hash of [libcalico-go/lib/hash]: the
    library it calls is outside the model, so it is a parameter. *)
Record Selector := MkSelector { root : Node; stringRep : string; hash : string }.

Section selector.
Context (MakeUniqueID : string → string → string).

(** [updateFields]; [None] when [collectFragments] panics. *)
Definition updateFields (node : Node) : option Selector :=
  match collectFragments node [] with
  | Some fragments =>
      let str := concat_strings fragments in
      Some (MkSelector node str (MakeUniqueID "s" str))
  | None => None
  end.

(** Selectors live in a heap, because the cache compares their addresses. *)
Record SelectorState := MkSelectorState {
  heap : gmap nat Selector;
  lastRestrictionSelector : option nat;
  lastLabelRestrictions : restrictions
}.

Definition Selector_LabelRestrictions (st : SelectorState) (p : nat)
    : option (SelectorState * restrictions) :=
  match heap st !! p with
  | None => None
  | Some sel =>
      if decide (lastRestrictionSelector st = Some p) then Some (st, lastLabelRestrictions st)
      else match Node_LabelRestrictions (root sel) with
           | Some lr => Some (MkSelectorState (heap st) (Some p) lr, lr)
           | None => None
           end
  end.

Definition Selector_AcceptVisitor (st : SelectorState) (Prefix : string) (p : nat)
    : option SelectorState :=
  match heap st !! p with
  | None => None
  | Some sel =>
      match updateFields (AcceptPrefixVisitor Prefix (root sel)) with
      | Some sel' => Some (MkSelectorState (<[p := sel']> (heap st))
                             (lastRestrictionSelector st) (lastLabelRestrictions st))
      | None => None
      end
  end.
End selector.

(** ** Induction on nodes *)
Section node_induction.
Context (P : Node → Prop).
Hypothesis Heq : ∀ n v, P (LabelEqValueNode n v).
Hypothesis Hcontains : ∀ n v, P (LabelContainsValueNode n v).
Hypothesis Hstarts : ∀ n v, P (LabelStartsWithValueNode n v).
Hypothesis Hends : ∀ n v, P (LabelEndsWithValueNode n v).
Hypothesis Hin : ∀ n ss, P (LabelInSetNode n ss).
Hypothesis Hnotin : ∀ n ss, P (LabelNotInSetNode n ss).
Hypothesis Hne : ∀ n v, P (LabelNeValueNode n v).
Hypothesis Hhas : ∀ n, P (HasNode n).
Hypothesis Hnot : ∀ op, P op → P (NotNode op).
Hypothesis Hand : ∀ ops, Forall P ops → P (AndNode ops).
Hypothesis Hor : ∀ ops, Forall P ops → P (OrNode ops).
Hypothesis Hall : P AllNode.
Hypothesis Hglobal : P GlobalNode.

Fixpoint Node_nested_ind (node : Node) : P node :=
  let fix go (ops : list Node) : Forall P ops :=
    match ops with
    | [] => Forall_nil_2 P
    | op :: ops' => Forall_cons_2 P op ops' (Node_nested_ind op) (go ops')
    end in
  match node with
  | LabelEqValueNode n v => Heq n v
  | LabelContainsValueNode n v => Hcontains n v
  | LabelStartsWithValueNode n v => Hstarts n v
  | LabelEndsWithValueNode n v => Hends n v
  | LabelInSetNode n ss => Hin n ss
  | LabelNotInSetNode n ss => Hnotin n ss
  | LabelNeValueNode n v => Hne n v
  | HasNode n => Hhas n
  | NotNode op => Hnot op (Node_nested_ind op)
  | AndNode ops => Hand ops (go ops)
  | OrNode ops => Hor ops (go ops)
  | AllNode => Hall
  | GlobalNode => Hglobal
  end.
End node_induction.

(** ** [StringSet] behaves as a set *)
Section stringset.
Implicit Types (l : list string) (s v : string).

Lemma sortSearch_spec fuel f i j :
  j - i ≤ fuel → i ≤ j →
  (∀ a b, i ≤ a → a ≤ b → b < j → f a = true → f b = true) →
  let r := sortSearch fuel f i j in
  i ≤ r ≤ j ∧ (∀ a, i ≤ a → a < r → f a = false) ∧ (r < j → f r = true).
Proof.
  revert i j. induction fuel as [|fuel IH]; intros i j Hfuel Hij Hmono;
    cbn [sortSearch]; cbv zeta in *.
  { split_and!; intros; lia. }
  destruct (Nat.ltb_spec i j) as [Hlt|Hge]; [|split_and!; intros; lia].
  assert (i ≤ (i + j) / 2 < j) as Hh.
  { split; [apply Nat.div_le_lower_bound; lia|apply Nat.Div0.div_lt_upper_bound; lia]. }
  set (h := (i + j) / 2) in *. destruct (f h) eqn:Hf.
  - destruct (IH i h) as (H1 & H2 & H3); [lia..| |].
    { intros a b ????. apply (Hmono a b); auto; lia. }
    split_and!; [lia|lia|done|]. intros Hr.
    destruct (decide (sortSearch fuel f i h < h)); [auto|].
    by replace (sortSearch fuel f i h) with h by lia.
  - destruct (IH (S h) j) as (H1 & H2 & H3); [lia..| |].
    { intros a b ????. apply (Hmono a b); auto; lia. }
    split_and!; [lia|lia| |done]. intros a Ha1 Ha2.
    destruct (decide (S h ≤ a)); [auto|].
    destruct (f a) eqn:Hfa; [|done].
    rewrite (Hmono a h) in Hf; [done|lia|lia|lia|done].
Qed.

Lemma sorted_lookup_le l i j x y :
  StronglySorted String.le l → i ≤ j → l !! i = Some x → l !! j = Some y → String.le x y.
Proof.
  intros Hs. revert i j. induction Hs as [|a l Hs IH Ha]; intros i j Hij Hx Hy; [done|].
  destruct i as [|i], j as [|j]; simplify_eq/=; [done| |lia|].
  - rewrite Forall_forall in Ha. apply Ha. by apply list_elem_of_lookup_2 in Hy.
  - apply (IH i j); auto; lia.
Qed.

(** Binary search decides membership of a sorted slice. *)
Lemma StringSet_Contains_sorted l s :
  StronglySorted String.le l → StringSet_Contains (Some l) s = true ↔ s ∈ l.
Proof.
  intros Hs. unfold StringSet_Contains. simpl.
  set (f := λ i, String.leb s (default "" (l !! i))).
  destruct (sortSearch_spec (length l) f 0 (length l)) as (Hr & Hlow & Hhigh); [lia..| |].
  { intros a b _ Hab Hb Ha. unfold f in *.
    destruct (lookup_lt_is_Some_2 l a) as [x Hx]; [lia|].
    destruct (lookup_lt_is_Some_2 l b) as [y Hy]; [lia|].
    rewrite Hx in Ha. rewrite Hy. simpl in *. apply Is_true_eq_true.
    transitivity x; [by apply Is_true_eq_left|]. by apply (sorted_lookup_le l a b). }
  set (r := sortSearch (length l) f 0 (length l)) in *.
  split.
  - destruct (l !! r) as [v|] eqn:Hv; [|done]. rewrite bool_decide_eq_true.
    intros ->. by apply list_elem_of_lookup_2 in Hv.
  - intros [i Hi]%list_elem_of_lookup.
    pose proof (lookup_lt_Some _ _ _ Hi) as Hlen.
    assert (f i = true) as Hfi.
    { unfold f. rewrite Hi. simpl. apply Is_true_eq_true. change (String.le s s). done. }
    assert (r ≤ i) as Hri.
    { destruct (decide (r ≤ i)); [done|]. rewrite Hlow in Hfi by lia. done. }
    destruct (lookup_lt_is_Some_2 l r) as [v Hv]; [lia|]. rewrite Hv.
    apply bool_decide_eq_true. apply (anti_symm String.le).
    + by apply (sorted_lookup_le l r i).
    + assert (f r = true) as Hfr by (apply Hhigh; lia). unfold f in Hfr.
      rewrite Hv in Hfr. by apply Is_true_eq_left.
Qed.

Lemma StringSet_Contains_elem l s : StringSet_Contains (Some l) s = true → s ∈ l.
Proof.
  unfold StringSet_Contains. simpl. case_match eqn:Hv; [|done].
  rewrite bool_decide_eq_true. intros ->. by apply list_elem_of_lookup_2 in Hv.
Qed.

Lemma elem_of_dedupSorted last l s : s ∈ last :: dedupSorted last l ↔ s ∈ last :: l.
Proof.
  revert last. induction l as [|v l IH]; intros last; simpl; [done|].
  case_decide; subst; rewrite ?IH; rewrite !elem_of_cons; [naive_solver|].
  specialize (IH v). rewrite !elem_of_cons in IH. naive_solver.
Qed.

Lemma dedupSorted_sorted last l :
  StronglySorted String.le (last :: l) →
  StronglySorted (λ x y, String.le x y ∧ x ≠ y) (last :: dedupSorted last l).
Proof.
  revert last. induction l as [|v l IH]; intros last; simpl.
  { intros _. repeat constructor. }
  intros Hs. apply StronglySorted_inv in Hs as [Hs Hl]. apply Forall_cons in Hl as [Hv Hl].
  pose proof (StronglySorted_inv Hs) as [Hsl Hvl].
  case_decide as Hd; [apply IH; by constructor|].
  pose proof (IH _ Hs) as IH'. constructor; [done|].
  assert (∀ x, x ∈ v :: l → String.le last x) as Hall.
  { intros x [->|Hx]%elem_of_cons; [done|]. rewrite Forall_forall in Hl. auto. }
  apply Forall_forall. intros x Hx. pose proof Hx as Hx'.
  rewrite elem_of_dedupSorted in Hx. split; [by apply Hall|]. intros ->.
  apply Hd. apply (anti_symm String.le); [|done].
  apply elem_of_cons in Hx as [->|Hx]; [done|]. rewrite Forall_forall in Hvl. auto.
Qed.

Lemma sortStrings_perm l : sortStrings l ≡ₚ l.
Proof. apply merge_sort_Permutation. Qed.

Lemma sortStrings_sorted l : StronglySorted String.le (sortStrings l).
Proof. apply StronglySorted_merge_sort; apply _. Qed.

(** The set has the elements of the slice, in strictly increasing order. *)
Lemma elem_of_ConvertToStringSet l s : s ∈ ConvertToStringSetInPlace l ↔ s ∈ l.
Proof.
  unfold ConvertToStringSetInPlace. case_match; [done|].
  transitivity (s ∈ sortStrings l); [|by rewrite sortStrings_perm].
  destruct (sortStrings l) as [|v l']; [done|]. apply elem_of_dedupSorted.
Qed.

Lemma ConvertToStringSet_sorted l :
  StronglySorted (λ x y, String.le x y ∧ x ≠ y) (ConvertToStringSetInPlace l).
Proof.
  unfold ConvertToStringSetInPlace. destruct (Nat.leb_spec (length l) 1) as [Hl|Hl].
  - destruct l as [|a [|b l]]; simpl in *; [constructor|repeat constructor|lia].
  - pose proof (sortStrings_sorted l) as Hs. destruct (sortStrings l) as [|v l']; [constructor|].
    by apply dedupSorted_sorted.
Qed.

Lemma ConvertToStringSet_le_sorted l : StronglySorted String.le (ConvertToStringSetInPlace l).
Proof.
  pose proof (ConvertToStringSet_sorted l) as Hs.
  induction Hs as [|a l' Hs IH Ha]; constructor; [done|].
  eapply Forall_impl; [exact Ha|]. by intros x [??].
Qed.

Lemma Contains_ConvertToStringSet l s :
  StringSet_Contains (Some (ConvertToStringSetInPlace l)) s = true ↔ s ∈ l.
Proof.
  rewrite StringSet_Contains_sorted by apply ConvertToStringSet_le_sorted.
  apply elem_of_ConvertToStringSet.
Qed.

(** The compaction in place loses no element. *)
Lemma elem_of_afterConvertInPlace l s : s ∈ afterConvertInPlace l ↔ s ∈ l.
Proof.
  unfold afterConvertInPlace. case_match; [done|].
  rewrite elem_of_app, elem_of_ConvertToStringSet. split; [|by left].
  intros [?|Hd]; [done|]. rewrite <-sortStrings_perm.
  apply list_elem_of_lookup in Hd as [i Hi]. rewrite lookup_drop in Hi.
  by apply list_elem_of_lookup_2 in Hi.
Qed.

Lemma elem_of_intersectStringSlices a b s :
  s ∈ intersectStringSlicesInPlace a b ↔ s ∈ a ∧ s ∈ b.
Proof.
  unfold intersectStringSlicesInPlace. rewrite list_elem_of_In, filter_In, <-list_elem_of_In.
  by rewrite Contains_ConvertToStringSet.
Qed.

Lemma elem_of_unionStringSlices a b s :
  s ∈ unionStringSlicesInPlace a b ↔ s ∈ a ∨ s ∈ b.
Proof.
  unfold unionStringSlicesInPlace.
  rewrite elem_of_app, elem_of_afterConvertInPlace.
  rewrite (list_elem_of_In (List.filter _ _)), filter_In, <-list_elem_of_In.
  rewrite negb_true_iff, <-not_true_iff_false, Contains_ConvertToStringSet.
  destruct (decide (s ∈ a)); naive_solver.
Qed.
End stringset.

(** ** Label restrictions are lower bounds *)
Section restrictions.
Context `{Labels L}.
Implicit Types (labels : L) (node : Node) (r : LabelRestriction).

Definition restriction_holds labels (ln : string) r : Prop :=
  (MustBePresent r = true → is_Some (GetHandle labels ln)) ∧
  (MustBeAbsent r = true → GetHandle labels ln = None) ∧
  (∀ vs, MustHaveOneOfValues r = Some vs → ∃ v, GetHandle labels ln = Some v ∧ v ∈ vs).

Definition restrictions_hold labels (lr : restrictions) : Prop :=
  map_Forall (restriction_holds labels) lr.

Lemma restrictions_hold_singleton labels ln r :
  restriction_holds labels ln r → restrictions_hold labels {[ ln := r ]}.
Proof. by intros ? ln' r' [<- <-]%lookup_singleton_Some. Qed.

Lemma restriction_holds_zero labels ln : restriction_holds labels ln zeroRestriction.
Proof. done. Qed.

Lemma andRestriction_holds labels ln base r :
  restriction_holds labels ln base → restriction_holds labels ln r →
  restriction_holds labels ln (andRestriction base r).
Proof.
  intros (Hp1 & Ha1 & Hv1) (Hp2 & Ha2 & Hv2). split_and!; simpl.
  - intros [?|?]%orb_true_iff; auto.
  - intros [?|?]%orb_true_iff; auto.
  - intros vs. destruct (MustHaveOneOfValues base) as [a|], (MustHaveOneOfValues r) as [b|];
      intros [= <-]; auto.
    destruct (Hv1 a) as (v & Hv & Hva), (Hv2 b) as (v' & Hv' & Hvb); [done..|].
    simplify_eq. exists v. split; [done|]. by apply elem_of_intersectStringSlices.
Qed.

Lemma andMerge_holds labels lr opLR :
  restrictions_hold labels lr → restrictions_hold labels opLR →
  restrictions_hold labels (andMerge lr opLR).
Proof.
  intros H1 H2 ln r. unfold andMerge. rewrite lookup_merge.
  destruct (lr !! ln) as [b|] eqn:E1, (opLR !! ln) as [r'|] eqn:E2; simpl; intros [= <-];
    eauto using andRestriction_holds, restriction_holds_zero.
Qed.

Lemma orRestriction_holds_l labels ln r opr r' :
  orRestriction r opr = Some r' → restriction_holds labels ln r → restriction_holds labels ln r'.
Proof.
  unfold orRestriction. intros Hor (Hp & Ha & Hv). case_match; [|done].
  injection Hor as <-. split_and!; simpl.
  - intros [??]%andb_true_iff; auto.
  - intros [??]%andb_true_iff; auto.
  - intros vs. case_match; [|done].
    destruct (MustHaveOneOfValues r) as [a|], (MustHaveOneOfValues opr) as [b|]; try done.
    intros [= <-]. destruct (Hv a) as (v & ? & ?); [done|]. exists v.
    rewrite elem_of_unionStringSlices. auto.
Qed.

Lemma orRestriction_holds_r labels ln r opr r' :
  orRestriction r opr = Some r' → restriction_holds labels ln opr → restriction_holds labels ln r'.
Proof.
  unfold orRestriction. intros Hor (Hp & Ha & Hv). case_match; [|done].
  injection Hor as <-. split_and!; simpl.
  - intros [??]%andb_true_iff; auto.
  - intros [??]%andb_true_iff; auto.
  - intros vs. case_match; [|done].
    destruct (MustHaveOneOfValues r) as [a|], (MustHaveOneOfValues opr) as [b|]; try done.
    intros [= <-]. destruct (Hv b) as (v & ? & ?); [done|]. exists v.
    rewrite elem_of_unionStringSlices. auto.
Qed.

Lemma orMerge_holds labels lr opLR :
  restrictions_hold labels lr ∨ restrictions_hold labels opLR →
  restrictions_hold labels (orMerge lr opLR).
Proof.
  intros Hor ln r. unfold orMerge. rewrite lookup_merge.
  destruct (lr !! ln) as [r1|] eqn:E1; [|by destruct (opLR !! ln)]. simpl.
  destruct Hor as [Hl|Hr]; destruct (opLR !! ln) as [r2|] eqn:E2; simpl; intros Hor.
  - eauto using orRestriction_holds_l.
  - eauto using orRestriction_holds_l.
  - eauto using orRestriction_holds_r.
  - eauto using orRestriction_holds_r, restriction_holds_zero.
Qed.

(** The induction: restrictions of a node hold of all labels it matches. *)
Lemma LabelRestrictions_hold labels node lr :
  Node_LabelRestrictions node = Some lr → Evaluate node labels = true →
  restrictions_hold labels lr.
Proof.
  revert lr. induction node as [n v|n v|n v|n v|n ss|n ss|n v|n|op IH|ops IH|ops IH| |]
    using Node_nested_ind; simpl; intros lr Hlr Hev.
  2-4,8: injection Hlr as <-; apply restrictions_hold_singleton;
    destruct (GetHandle labels n) as [val|] eqn:E; [|done]; by split_and!; simpl; eauto.
  - injection Hlr as <-; apply restrictions_hold_singleton.
    destruct (GetHandle labels n) as [val|] eqn:E; [|done].
    split_and!; simpl; [by eauto|done|intros vs [= <-]]. exists val.
    apply bool_decide_eq_true in Hev as ->. split; [done|by apply list_elem_of_singleton].
  - injection Hlr as <-; apply restrictions_hold_singleton.
    destruct (GetHandle labels n) as [val|] eqn:E; [|done].
    split_and!; simpl; [by eauto|done|intros vs ->]. exists val.
    by apply StringSet_Contains_elem in Hev.
  - by injection Hlr as <-.
  - by injection Hlr as <-.
  - destruct op; injection Hlr as <-; try done. apply restrictions_hold_singleton.
    simpl in Hev. destruct (GetHandle labels _) eqn:E; [done|]. by split_and!.
  - assert (restrictions_hold labels ∅) as H0 by done. revert H0 Hlr. generalize (∅ : restrictions).
    induction IH as [|op ops Hop _ IHops]; intros acc Hacc Hlr; [by injection Hlr as <-|].
    simpl in Hev. apply andb_true_iff in Hev as [Hev1 Hev2].
    destruct (Node_LabelRestrictions op) as [opLR|]; [|done].
    eapply IHops; [done| |exact Hlr]. eauto using andMerge_holds.
  - destruct IH as [|op ops Hop Hops]; [done|]. simpl in Hev.
    destruct (Node_LabelRestrictions op) as [lr0|]; [|done].
    assert (restrictions_hold labels lr0 ∨ existsb (λ op, Evaluate op labels) ops = true) as Hacc.
    { apply orb_true_iff in Hev as [?|?]; eauto. }
    clear Hev Hop. revert lr0 Hacc Hlr.
    induction Hops as [|op' ops Hop' _ IHops]; intros acc Hacc Hlr.
    { injection Hlr as <-. by destruct Hacc. }
    destruct (Node_LabelRestrictions op') as [opLR|]; [|done].
    eapply IHops; [|exact Hlr]. destruct Hacc as [?|Hex].
    + left. apply orMerge_holds. by left.
    + simpl in Hex. apply orb_true_iff in Hex as [?|?]; [|by right].
      left. apply orMerge_holds. right. eauto.
  - by injection Hlr as <-.
  - by injection Hlr as <-.
Qed.

Lemma restriction_holds_possible labels ln r :
  restriction_holds labels ln r → PossibleToSatisfy r = true.
Proof.
  intros (Hp & Ha & Hv). unfold PossibleToSatisfy.
  destruct (MustBePresent r), (MustBeAbsent r); simpl.
  { destruct Hp as [? Hp]; [done|]. rewrite Ha in Hp; done. }
  all: destruct (MustHaveOneOfValues r) as [[|]|]; try done;
    destruct (Hv []) as (? & ? & ?%not_elem_of_nil); done.
Qed.
End restrictions.

(** ** Renaming labels *)
Section prefix.
Context `{Labels L}.

(** The labels seen through a prefix. *)
Lemma AcceptPrefixVisitor_Evaluate {L'} `{Labels L'} Prefix (labels : L) (labels' : L') node :
  (∀ n, GetHandle labels (Prefix +:+ n) = GetHandle labels' n) →
  Evaluate (AcceptPrefixVisitor Prefix node) labels = Evaluate node labels'.
Proof.
  intros Hpre.
  induction node as [n v|n v|n v|n v|n ss|n ss|n v|n|op IH|ops IH|ops IH| |]
    using Node_nested_ind; simpl; unfold PrefixVisitor_name; rewrite ?Hpre; try done.
  - by rewrite IH.
  - induction IH as [|op ops Hop _ IHops]; simpl; [done|]. by rewrite Hop, IHops.
  - induction IH as [|op ops Hop _ IHops]; simpl; [done|]. by rewrite Hop, IHops.
Qed.
End prefix.

(** ** When the one-entry cache is transparent *)
Section cache.
Context (MakeUniqueID : string → string → string).

(** The cached restrictions are those of the selector they were computed for. *)
Definition cache_fresh (st : SelectorState) : Prop :=
  ∀ p sel, lastRestrictionSelector st = Some p → heap st !! p = Some sel →
    Node_LabelRestrictions (root sel) = Some (lastLabelRestrictions st).

Lemma Selector_LabelRestrictions_fresh st p st' lr :
  cache_fresh st → Selector_LabelRestrictions st p = Some (st', lr) →
  cache_fresh st' ∧ heap st' = heap st ∧
  ∃ sel, heap st !! p = Some sel ∧ Node_LabelRestrictions (root sel) = Some lr.
Proof.
  intros Hf. unfold Selector_LabelRestrictions.
  destruct (heap st !! p) as [sel|] eqn:Hp; [|done].
  case_decide as Hc; [intros [= <- <-]; split_and!; eauto|].
  destruct (Node_LabelRestrictions (root sel)) as [lr'|] eqn:E; [|done].
  intros [= <- <-]. split_and!; [|done|eauto].
  intros p' sel' [= <-]. simpl. rewrite Hp. by intros [= <-].
Qed.
End cache.

(** C18: if a selector matches a set of labels, then every entry of its
    [LabelRestrictions] holds of them: a label that must be present is, one that
    must be absent is not, and a listed set of values contains the label's value. *)
Theorem LabelRestrictions_sound `{Labels L} (node : Node) (labels : L) lr ln r :
  Node_LabelRestrictions node = Some lr → lr !! ln = Some r →
  Evaluate node labels = true →
  (MustBePresent r = true → is_Some (GetHandle labels ln)) ∧
  (MustBeAbsent r = true → GetHandle labels ln = None) ∧
  (∀ vs, MustHaveOneOfValues r = Some vs → ∃ v, GetHandle labels ln = Some v ∧ v ∈ vs).
Proof. intros Hlr Hr Hev. exact (LabelRestrictions_hold labels node lr Hlr Hev ln r Hr). Qed.

Lemma LabelRestrictions_sound_witness :
  (MustBePresent (MkLabelRestriction true false (Some ["b"])) = true →
     is_Some (GetHandle ({["a" := "b"]} : gmap string string) "a")) ∧
  (MustBeAbsent (MkLabelRestriction true false (Some ["b"])) = true →
     GetHandle ({["a" := "b"]} : gmap string string) "a" = None) ∧
  (∀ vs, MustHaveOneOfValues (MkLabelRestriction true false (Some ["b"])) = Some vs →
     ∃ v, GetHandle ({["a" := "b"]} : gmap string string) "a" = Some v ∧ v ∈ vs).
Proof.
  apply (LabelRestrictions_sound
    (AndNode [LabelInSetNode "a" (Some ["b"; "c"]); LabelEqValueNode "a" "b"])
    ({["a" := "b"]} : gmap string string)
    {["a" := MkLabelRestriction true false (Some ["b"])]} "a");
    vm_compute; reflexivity.
Defined.

(** A selector one of whose restrictions is not [PossibleToSatisfy] matches
    no labels at all, so the indexes may discard it. *)
Theorem unsatisfiable_restriction_never_matches `{Labels L} (node : Node) (labels : L) lr ln r :
  Node_LabelRestrictions node = Some lr → lr !! ln = Some r →
  PossibleToSatisfy r = false → Evaluate node labels = false.
Proof.
  intros Hlr Hr Hposs. apply not_true_iff_false. intros Hev.
  pose proof (LabelRestrictions_hold labels node lr Hlr Hev ln r Hr) as Hh.
  apply restriction_holds_possible in Hh. congruence.
Qed.

Lemma unsatisfiable_restriction_witness :
  Evaluate (AndNode [LabelEqValueNode "a" "b"; LabelEqValueNode "a" "c"])
    ({["a" := "b"]} : gmap string string) = false.
Proof.
  apply (unsatisfiable_restriction_never_matches _ _
    {["a" := MkLabelRestriction true false (Some [])]} "a" (MkLabelRestriction true false (Some [])));
    vm_compute; reflexivity.
Defined.

(** [StringSet] is a set: converting any slice of literals and then
    binary-searching for a string answers whether the string was in the slice. *)
Theorem StringSet_Contains_correct (values : list string) (s : string) :
  StringSet_Contains (StringSet_of values) s = true ↔ s ∈ values.
Proof.
  unfold StringSet_of. rewrite <-Contains_ConvertToStringSet.
  by destruct (ConvertToStringSetInPlace values).
Qed.

(** Prefixing the label names of a selector with [PrefixVisitor] gives a
    selector that matches prefixed labels exactly when the original matched the
    unprefixed ones. *)
Theorem PrefixVisitor_correct `{Labels L, Labels L'} Prefix (labels : L) (labels' : L') node :
  (∀ n, GetHandle labels (Prefix +:+ n) = GetHandle labels' n) →
  Evaluate (AcceptPrefixVisitor Prefix node) labels = Evaluate node labels'.
Proof. apply AcceptPrefixVisitor_Evaluate. Qed.

Lemma PrefixVisitor_correct_witness :
  Evaluate (AcceptPrefixVisitor "pcns." (NotNode (LabelEqValueNode "a" "b")))
    (∅ : gmap string string) =
  Evaluate (NotNode (LabelEqValueNode "a" "b")) (∅ : gmap string string).
Proof. apply PrefixVisitor_correct. intros n. by vm_compute. Defined.

(** While no visitor runs, the one-entry cache is transparent: the restrictions
    returned are those of the selector asked about, and they stay so. *)
Theorem LabelRestrictions_cache_transparent st p st' lr :
  cache_fresh st → Selector_LabelRestrictions st p = Some (st', lr) →
  cache_fresh st' ∧ heap st' = heap st ∧
  ∃ sel, heap st !! p = Some sel ∧ Node_LabelRestrictions (root sel) = Some lr.
Proof. apply Selector_LabelRestrictions_fresh. Qed.

Definition cache_example_state : SelectorState :=
  MkSelectorState {[ 0 := MkSelector (HasNode "a") "has(a)" "s:1" ]} None ∅.

Definition cache_example_lr : restrictions := {[ "a" := MkLabelRestriction true false None ]}.

Lemma LabelRestrictions_cache_transparent_witness :
  cache_fresh (MkSelectorState (heap cache_example_state) (Some 0) cache_example_lr) ∧
  heap cache_example_state = heap cache_example_state ∧
  ∃ sel, heap cache_example_state !! 0 = Some sel ∧
    Node_LabelRestrictions (root sel) = Some cache_example_lr.
Proof.
  apply (LabelRestrictions_cache_transparent cache_example_state 0
    (MkSelectorState (heap cache_example_state) (Some 0) cache_example_lr) cache_example_lr);
    [|reflexivity].
  intros p sel Hp. discriminate Hp.
Defined.

(** The cache is keyed by the selector's address only, so it survives
    [AcceptVisitor]: after a visitor has renamed the labels of the selector that
    was asked about last, the next call returns the restrictions of the old
    names, which the renamed selector need not satisfy. *)
Theorem LabelRestrictions_stale_after_visitor (MakeUniqueID : string → string → string) :
  ∃ st1 st2 st3 lr1 lr2 sel,
    Selector_LabelRestrictions cache_example_state 0 = Some (st1, lr1) ∧
    Selector_AcceptVisitor MakeUniqueID st1 "p." 0 = Some st2 ∧
    Selector_LabelRestrictions st2 0 = Some (st3, lr2) ∧
    heap st3 !! 0 = Some sel ∧
    Evaluate (root sel) ({["p.a" := "x"]} : gmap string string) = true ∧
    ¬ restrictions_hold ({["p.a" := "x"]} : gmap string string) lr2.
Proof.
  eexists _, _, _, _, cache_example_lr, _.
  split_and!; [reflexivity|reflexivity|reflexivity|reflexivity|reflexivity|].
  intros Hh. destruct (Hh "a" (MkLabelRestriction true false None)) as [Hp _]; [done|].
  destruct Hp as [v Hv]; done.
Qed.
