(* ===== verification/SelectorParser.v ===== *)
(** * The selector parser: [libcalico-go/lib/selector/parser/parser.go]

    The recursive descent of the source, on the token slice.  [sel] is an
    [option Node], [None] being the nil [Node] that the functions return when
    [validateOnly] is set.  Indexing an empty slice is [Panic].  The mutual
    recursion is bounded by a fuel that [parseRoot] sets from the number of
    tokens; [parse_completes] shows that it is enough and that no index is out of
    range.  The second half of the file relates printing and parsing. *)
From S2P Require Import Prelude.
From S2P Require Import Tokenizer.
From S2P Require Import SelectorAST.
From Stdlib Require Import Ascii Wf_nat.
From stdpp Require Import base list gmap strings sorting.
From stdpp Require Import options.

Inductive ParseError :=
  | ErrTokenize (e : TokenizeError)
  | ErrUnexpectedEOF
  | ErrExpectedRParen
  | ErrExpectedRBrace
  | ErrExpectedString
  | ErrExpectedSetLit
  | ErrExpectedOperator (t : Token)
  | ErrUnexpectedToken (t : Token)
  | ErrUnexpectedContent (remTokens : list Token).

Abbreviation parsed := (outcome ParseError (option Node * list Token)).

(** The loop that collapses leading [!] operators. *)
Fixpoint collapseNots (negated : bool) (tokens : list Token)
    : outcome ParseError (bool * list Token) :=
  match tokens with
  | [] => Panic
  | t :: tokens' =>
      if decide (tok_Kind t = TokNot) then collapseNots (negb negated) tokens'
      else Ret (negated, tokens)
  end.

(** The loop over the literals of a set. *)
Fixpoint parseSetValues (values : list string) (remTokens : list Token)
    : outcome ParseError (list string * list Token) :=
  match remTokens with
  | [] => Panic
  | t :: rem1 =>
      if decide (tok_Kind t = TokStringLiteral) then
        match rem1 with
        | [] => Panic
        | t2 :: rem2 =>
            if decide (tok_Kind t2 = TokComma)
            then parseSetValues (values ++ [tok_Value t]) rem2
            else Ret (values ++ [tok_Value t], rem1)
        end
      else Ret (values, remTokens)
  end.

Definition nodeUnless (validateOnly : bool) (node : Node) : option Node :=
  if validateOnly then None else Some node.

(** The branches for [==], [!=], [contains], [starts with] and [ends with]. *)
Definition parseStringOp (validateOnly : bool) (mk : string → Node)
    (t2 : Token) (rest : list Token) : parsed :=
  if decide (tok_Kind t2 = TokStringLiteral)
  then Ret (nodeUnless validateOnly (mk (tok_Value t2)), rest)
  else Fail ErrExpectedString.

(** The branch for [in] and [not in]. *)
Definition parseSetOp (validateOnly : bool) (mk : StringSet → Node)
    (t2 : Token) (rest : list Token) : parsed :=
  if decide (tok_Kind t2 = TokLBrace) then
    let! (values, rem) := parseSetValues [] rest in
    match rem with
    | [] => Panic
    | t :: rem' =>
        if decide (tok_Kind t = TokRBrace)
        then Ret (nodeUnless validateOnly (mk (StringSet_of values)), rem')
        else Fail ErrExpectedRBrace
    end
  else Fail ErrExpectedSetLit.

(** The [TokLabel] case: [label] is the label's token, [rest] what follows. *)
Definition parseLabelOp (validateOnly : bool) (label : string) (rest : list Token) : parsed :=
  match rest with
  | t1 :: t2 :: rest' =>
      match tok_Kind t1 with
      | TokEq => parseStringOp validateOnly (LabelEqValueNode label) t2 rest'
      | TokNe => parseStringOp validateOnly (LabelNeValueNode label) t2 rest'
      | TokContains => parseStringOp validateOnly (LabelContainsValueNode label) t2 rest'
      | TokStartsWith => parseStringOp validateOnly (LabelStartsWithValueNode label) t2 rest'
      | TokEndsWith => parseStringOp validateOnly (LabelEndsWithValueNode label) t2 rest'
      | TokIn => parseSetOp validateOnly (LabelInSetNode label) t2 rest'
      | TokNotIn => parseSetOp validateOnly (LabelNotInSetNode label) t2 rest'
      | _ => Fail (ErrExpectedOperator t1)
      end
  | _ => Fail ErrUnexpectedEOF
  end.

(** [append(nodes, sel)], skipped when only validating; [sel] is nil only then. *)
Definition appendNode (nodes : list Node) (sel : option Node) : list Node :=
  match sel with Some node => nodes ++ [node] | None => nodes end.

(** The end of the two expression loops. *)
Definition finishNodes (validateOnly : bool) (mk : list Node → Node) (nodes : list Node)
    : option Node :=
  if validateOnly then None
  else match nodes with
       | [node] => Some node
       | _ => Some (mk nodes)
       end.

Fixpoint parseOrExpression (fuel : nat) (tokens : list Token) (validateOnly : bool) : parsed :=
  match fuel with
  | O => OutOfFuel
  | S fuel' =>
      let! (sel, remTokens) := parseAndExpression fuel' tokens validateOnly in
      parseOrLoop fuel' (appendNode [] sel) remTokens validateOnly
  end
with parseOrLoop (fuel : nat) (andNodes : list Node) (remTokens : list Token)
    (validateOnly : bool) : parsed :=
  match fuel with
  | O => OutOfFuel
  | S fuel' =>
      match remTokens with
      | [] => Panic
      | t :: rem =>
          if decide (tok_Kind t = TokOr) then
            let! (sel, rem') := parseAndExpression fuel' rem validateOnly in
            parseOrLoop fuel' (appendNode andNodes sel) rem' validateOnly
          else Ret (finishNodes validateOnly OrNode andNodes, remTokens)
      end
  end
with parseAndExpression (fuel : nat) (tokens : list Token) (validateOnly : bool) : parsed :=
  match fuel with
  | O => OutOfFuel
  | S fuel' =>
      let! (sel, remTokens) := parseOperation fuel' tokens validateOnly in
      parseAndLoop fuel' (appendNode [] sel) remTokens validateOnly
  end
with parseAndLoop (fuel : nat) (opNodes : list Node) (remTokens : list Token)
    (validateOnly : bool) : parsed :=
  match fuel with
  | O => OutOfFuel
  | S fuel' =>
      match remTokens with
      | [] => Panic
      | t :: rem =>
          if decide (tok_Kind t = TokAnd) then
            let! (sel, rem') := parseOperation fuel' rem validateOnly in
            parseAndLoop fuel' (appendNode opNodes sel) rem' validateOnly
          else Ret (finishNodes validateOnly AndNode opNodes, remTokens)
      end
  end
with parseOperation (fuel : nat) (tokens : list Token) (validateOnly : bool) : parsed :=
  match fuel with
  | O => OutOfFuel
  | S fuel' =>
      match tokens with
      | [] => Fail ErrUnexpectedEOF
      | _ =>
          let! (negated, tokens') := collapseNots false tokens in
          match tokens' with
          | [] => Panic
          | t :: rest =>
              let! (sel, remTokens) :=
                match tok_Kind t with
                | TokHas => Ret (nodeUnless validateOnly (HasNode (tok_Value t)), rest)
                | TokAll => Ret (nodeUnless validateOnly AllNode, rest)
                | TokGlobal => Ret (nodeUnless validateOnly GlobalNode, rest)
                | TokLabel => parseLabelOp validateOnly (tok_Value t) rest
                | TokLParen =>
                    let! (sel, remTokens) := parseOrExpression fuel' rest validateOnly in
                    match remTokens with
                    | t' :: remTokens' =>
                        if decide (tok_Kind t' = TokRParen) then Ret (sel, remTokens')
                        else Fail ErrExpectedRParen
                    | [] => Fail ErrExpectedRParen
                    end
                | _ => Fail (ErrUnexpectedToken t)
                end in
              Ret (if negated then NotNode <$> sel else sel, remTokens)
          end
      end
  end.

Definition parseFuel (tokens : list Token) : nat := 4 * S (length tokens).

(** [parseRoot] up to the construction of the [Selector]: [None] is a nil root. *)
Definition parseRootNode (selector : string) (validateOnly : bool)
    : outcome ParseError (option Node) :=
  match Tokenize selector with
  | Ret tokens =>
      let! t0 := index tokens 0 in
      if decide (tok_Kind t0 = TokEOF)
      then Ret (nodeUnless validateOnly AllNode)
      else
        let! (node, remTokens) := parseOrExpression (parseFuel tokens) tokens validateOnly in
        if decide (length remTokens = 1) then Ret node
        else Fail (ErrUnexpectedContent remTokens)
  | Fail e => Fail (ErrTokenize e)
  | Panic => Panic
  | OutOfFuel => OutOfFuel
  end.

Section parse.
Context (MakeUniqueID : string → string → string).

(** [parseRoot]: the selector, or nil when only validating. *)
Definition parseRoot (selector : string) (validateOnly : bool)
    : outcome ParseError (option Selector) :=
  let! node := parseRootNode selector validateOnly in
  match node with
  | None => Ret None
  | Some node =>
      match updateFields MakeUniqueID node with
      | Some sel => Ret (Some sel)
      | None => Panic
      end
  end.

Definition Parse (selector : string) : outcome ParseError (option Selector) :=
  parseRoot selector false.

(** [Validate] drops the selector and keeps the error. *)
Definition Validate (selector : string) : outcome ParseError unit :=
  omap_ret (λ _, ()) (parseRoot selector true).
End parse.

Example parse_example :
  parseRootNode "!(a == 'b' && has(c)) || d in {'y', 'x', 'y'}" false =
  Ret (Some (OrNode [NotNode (AndNode [LabelEqValueNode "a" "b"; HasNode "c"]);
                     LabelInSetNode "d" (Some ["x"; "y"])])).
Proof. vm_compute. reflexivity. Qed.

(** ** What the parser returns

    Token slices end with the only [TokEOF]; nodes have valid label names,
    literals that some quote can enclose, strictly sorted sets, and at least two
    operands under [&&] and [||]. *)
Definition tokens_wf (ts : list Token) : Prop :=
  ∃ ts', ts = ts' ++ [tok TokEOF] ∧ Forall tok_wf ts'.

Definition literal_ok (v : string) : Prop := lacks "034" v = true ∨ lacks "'" v = true.

Definition set_ok (ss : StringSet) : Prop :=
  match ss with
  | None => True
  | Some l => l ≠ [] ∧ Forall literal_ok l ∧
              StronglySorted (λ x y, String.le x y ∧ x ≠ y) l
  end.

Fixpoint node_wf (node : Node) : Prop :=
  match node with
  | LabelEqValueNode n v | LabelContainsValueNode n v | LabelStartsWithValueNode n v
  | LabelEndsWithValueNode n v | LabelNeValueNode n v => ValidLabel n = true ∧ literal_ok v
  | LabelInSetNode n ss | LabelNotInSetNode n ss => ValidLabel n = true ∧ set_ok ss
  | HasNode n => ValidLabel n = true
  | NotNode op => node_wf op
  | AndNode ops | OrNode ops =>
      2 ≤ length ops ∧ (fix all l := match l with [] => True | op :: l' => node_wf op ∧ all l' end) ops
  | AllNode | GlobalNode => True
  end.

Lemma node_wf_all ops :
  (fix all l := match l with [] => True | op :: l' => node_wf op ∧ all l' end) ops ↔
  Forall node_wf ops.
Proof. induction ops as [|op ops IH]; [done|]. rewrite Forall_cons, <-IH. done. Qed.

Lemma tokens_wf_cons t ts : tokens_wf (t :: ts) ↔ (t = tok TokEOF ∧ ts = []) ∨ (tok_wf t ∧ tokens_wf ts).
Proof.
  split.
  - intros ([|t' ts'] & Heq & Hf); simplify_eq/=; [by left|].
    apply Forall_cons in Hf as [??]. right. split; [done|]. by exists ts'.
  - intros [[-> ->]|[Ht (ts' & -> & Hf)]]; [by exists []|].
    exists (t :: ts'). split; [done|by constructor].
Qed.

Lemma tokens_wf_next t ts : tokens_wf (t :: ts) → tok_Kind t ≠ TokEOF → tok_wf t ∧ tokens_wf ts.
Proof. intros [[-> _]|?]%tokens_wf_cons ?; [done|done]. Qed.

Lemma tokens_wf_nonempty : ¬ tokens_wf [].
Proof. intros ([|] & ? & _); done. Qed.

(** A call on [k] tokens returned, with fewer than [k] tokens left. *)
Definition parsed_ok (validateOnly : bool) (k : nat) (o : parsed) : Prop :=
  match o with
  | Ret (sel, rem) =>
      tokens_wf rem ∧ length rem < k ∧
      match sel with
      | Some node => validateOnly = false ∧ node_wf node
      | None => validateOnly = true
      end
  | Fail _ => True
  | _ => False
  end.

Lemma parsed_ok_node vo node rem k :
  tokens_wf rem → length rem < k → node_wf node → parsed_ok vo k (Ret (nodeUnless vo node, rem)).
Proof. by destruct vo; simpl. Qed.

Lemma parsed_ok_mono vo k k' o : parsed_ok vo k o → k ≤ k' → parsed_ok vo k' o.
Proof. destruct o as [[sel rem]| | |]; simpl; try done. intros (?&?&?) ?. split_and!; auto; lia. Qed.

Lemma collapseNots_ok negated ts :
  tokens_wf ts →
  ∃ b t ts', collapseNots negated ts = Ret (b, t :: ts') ∧ tok_Kind t ≠ TokNot ∧
    tokens_wf (t :: ts') ∧ S (length ts') ≤ length ts.
Proof.
  revert negated. induction ts as [|t ts IH]; intros negated Hwf.
  { by apply tokens_wf_nonempty in Hwf. }
  simpl. case_decide as Hk.
  - destruct (tokens_wf_next _ _ Hwf) as [_ Hwf']; [congruence|].
    destruct (IH (negb negated) Hwf') as (b & t' & ts' & ? & ? & ? & ?).
    exists b, t', ts'. split_and!; auto; lia.
  - exists negated, t, ts. split_and!; auto; lia.
Qed.

Lemma parseSetValues_ok values ts :
  tokens_wf ts → Forall literal_ok values →
  ∃ values' rem, parseSetValues values ts = Ret (values', rem) ∧
    tokens_wf rem ∧ length rem ≤ length ts ∧ Forall literal_ok values'.
Proof.
  revert values. induction ts as [ts IH] using (induction_ltof1 _ length); unfold ltof in IH.
  intros values Hwf Hv. destruct ts as [|t rem1]; [by apply tokens_wf_nonempty in Hwf|].
  simpl. case_decide as Hk; [|by eexists _, _].
  destruct (tokens_wf_next _ _ Hwf) as [[_ Ht] Hwf1]; [congruence|]. rewrite Hk in Ht.
  assert (Forall literal_ok (values ++ [tok_Value t])) as Hv' by (apply Forall_app_2; auto).
  destruct rem1 as [|t2 rem2]; [by apply tokens_wf_nonempty in Hwf1|].
  case_decide as Hk2; [|eexists _, _; split_and!; eauto; simpl; lia].
  destruct (tokens_wf_next _ _ Hwf1) as [_ Hwf2]; [congruence|].
  destruct (IH rem2) with (values := values ++ [tok_Value t])
    as (values' & rem & Heq & Hrem & Hlen & Hvs); [simpl; lia|done|done|].
  exists values', rem. split_and!; auto. simpl. lia.
Qed.

Lemma StringSet_of_ok values : Forall literal_ok values → set_ok (StringSet_of values).
Proof.
  intros Hv. unfold StringSet_of.
  pose proof (ConvertToStringSet_sorted values) as Hs.
  pose proof (λ s, proj1 (elem_of_ConvertToStringSet values s)) as He.
  destruct (ConvertToStringSetInPlace values) as [|v l]; [done|]. simpl.
  split_and!; [done| |done]. apply Forall_forall. intros s Hs'.
  rewrite Forall_forall in Hv. auto.
Qed.

Lemma parseStringOp_ok vo mk t2 rest k :
  tokens_wf (t2 :: rest) → length rest < k → (∀ v, literal_ok v → node_wf (mk v)) →
  parsed_ok vo k (parseStringOp vo mk t2 rest).
Proof.
  intros Hwf Hlen Hmk. unfold parseStringOp. case_decide as Hk; [|done].
  destruct (tokens_wf_next _ _ Hwf) as [[_ Ht] ?]; [congruence|]. rewrite Hk in Ht.
  by apply parsed_ok_node; auto.
Qed.

Lemma parseSetOp_ok vo mk t2 rest k :
  tokens_wf (t2 :: rest) → length rest < k → (∀ ss, set_ok ss → node_wf (mk ss)) →
  parsed_ok vo k (parseSetOp vo mk t2 rest).
Proof.
  intros Hwf Hlen Hmk. unfold parseSetOp. case_decide as Hk; [|done].
  destruct (tokens_wf_next _ _ Hwf) as [_ Hwf']; [congruence|].
  destruct (parseSetValues_ok [] rest) as (vs & rem & -> & Hrem & Hl & Hvs); [done|constructor|].
  cbn [obind]. destruct rem as [|t rem']; [by apply tokens_wf_nonempty in Hrem|].
  case_decide as Hk'; [|done].
  destruct (tokens_wf_next _ _ Hrem) as [_ Hrem']; [congruence|].
  apply parsed_ok_node; [done|simpl in *; lia|]. by apply Hmk, StringSet_of_ok.
Qed.

Lemma parseLabelOp_ok vo label rest k :
  tokens_wf rest → length rest < k → ValidLabel label = true →
  parsed_ok vo k (parseLabelOp vo label rest).
Proof.
  intros Hwf Hlen Hlabel. unfold parseLabelOp.
  destruct rest as [|t1 [|t2 rest']]; [done..|].
  assert (tok_Kind t1 ≠ TokEOF → tokens_wf (t2 :: rest')) as Hwf'.
  { intros ?. by apply (tokens_wf_next t1). }
  simpl in Hlen.
  destruct (tok_Kind t1); try done;
    first [ apply parseStringOp_ok | apply parseSetOp_ok ];
    try (by apply Hwf'); try lia; by intros v Hv.
Qed.

Lemma finishNodes_ok vo mk nodes rem k :
  (mk = AndNode ∨ mk = OrNode) →
  tokens_wf rem → length rem < k → Forall node_wf nodes → (vo = false → nodes ≠ []) →
  parsed_ok vo k (Ret (finishNodes vo mk nodes, rem)).
Proof.
  intros Hmk Hwf Hlen Hn Hne. unfold finishNodes. destruct vo; [done|]. simpl.
  destruct nodes as [|n1 [|n2 nodes]]; [by destruct Hne| |].
  - apply Forall_cons in Hn as [??]. done.
  - split_and!; try done. destruct Hmk as [->| ->]; simpl;
      (split; [lia|]); by apply (node_wf_all (n1 :: n2 :: nodes)).
Qed.

Lemma appendNode_ok vo nodes sel :
  Forall node_wf nodes →
  match sel with Some node => vo = false ∧ node_wf node | None => vo = true end →
  Forall node_wf (appendNode nodes sel) ∧ (vo = false → appendNode nodes sel ≠ []).
Proof.
  intros Hn Hs. destruct sel as [node|]; simpl.
  - destruct Hs as [-> Hs]. split; [apply Forall_app_2; auto|]. intros _.
    by destruct nodes.
  - subst. done.
Qed.

(** Parsing an operand and going on with the loop over the rest. *)
Lemma operand_ok vo n N ns (m : parsed) (loop : list Node → list Token → parsed) :
  parsed_ok vo n m → Forall node_wf ns →
  (∀ ns' rem, tokens_wf rem → length rem < n → Forall node_wf ns' → (vo = false → ns' ≠ []) →
     parsed_ok vo N (loop ns' rem)) →
  parsed_ok vo N (obind m (λ '(sel, rem), loop (appendNode ns sel) rem)).
Proof.
  intros Hm Hns Hloop. destruct m as [[sel rem]| | |]; try done. destruct Hm as (Hrem & Hlen & Hsel).
  destruct (appendNode_ok vo ns sel) as [Ha1 Ha2]; [done..|]. by apply Hloop.
Qed.

(** The five mutually recursive functions, on enough fuel. *)
Lemma parse_functions_ok fuel vo :
  (∀ ts, tokens_wf ts → 4 * length ts + 3 ≤ fuel →
     parsed_ok vo (length ts) (parseOrExpression fuel ts vo)) ∧
  (∀ ns ts, tokens_wf ts → 4 * length ts + 2 ≤ fuel → Forall node_wf ns → (vo = false → ns ≠ []) →
     parsed_ok vo (S (length ts)) (parseOrLoop fuel ns ts vo)) ∧
  (∀ ts, tokens_wf ts → 4 * length ts + 2 ≤ fuel →
     parsed_ok vo (length ts) (parseAndExpression fuel ts vo)) ∧
  (∀ ns ts, tokens_wf ts → 4 * length ts + 2 ≤ fuel → Forall node_wf ns → (vo = false → ns ≠ []) →
     parsed_ok vo (S (length ts)) (parseAndLoop fuel ns ts vo)) ∧
  (∀ ts, tokens_wf ts → 4 * length ts + 1 ≤ fuel →
     parsed_ok vo (length ts) (parseOperation fuel ts vo)).
Proof.
  induction fuel as [|fuel (IHor & IHorl & IHand & IHandl & IHop)]; [split_and!; intros; lia|].
  split_and!.
  - intros ts Hwf Hf. cbn [parseOrExpression]. eapply (operand_ok _ _ _ _ _ (λ ns rem, parseOrLoop fuel ns rem vo)); [apply IHand; [done|lia]|done|]. intros.
    eapply parsed_ok_mono; [apply IHorl; auto; lia|lia].
  - intros ns [|t rem] Hwf Hf Hns Hne; [by apply tokens_wf_nonempty in Hwf|]. cbn [parseOrLoop parseAndLoop length] in *.
    case_decide as Hk; [|apply finishNodes_ok; simpl; auto].
    destruct (tokens_wf_next _ _ Hwf) as [_ Hwf']; [congruence|].
    eapply (operand_ok _ _ _ _ _ (λ ns rem, parseOrLoop fuel ns rem vo)); [apply IHand; [done|lia]|done|]. intros. eapply parsed_ok_mono; [apply IHorl; auto; lia|lia].
  - intros ts Hwf Hf. cbn [parseAndExpression]. eapply (operand_ok _ _ _ _ _ (λ ns rem, parseAndLoop fuel ns rem vo)); [apply IHop; [done|lia]|done|]. intros.
    eapply parsed_ok_mono; [apply IHandl; auto; lia|lia].
  - intros ns [|t rem] Hwf Hf Hns Hne; [by apply tokens_wf_nonempty in Hwf|]. cbn [parseOrLoop parseAndLoop length] in *.
    case_decide as Hk; [|apply finishNodes_ok; simpl; auto].
    destruct (tokens_wf_next _ _ Hwf) as [_ Hwf']; [congruence|].
    eapply (operand_ok _ _ _ _ _ (λ ns rem, parseAndLoop fuel ns rem vo)); [apply IHop; [done|lia]|done|]. intros. eapply parsed_ok_mono; [apply IHandl; auto; lia|lia].
  - intros ts Hwf Hf. cbn [parseOperation]. destruct ts as [|t0 ts0] eqn:Hts; [done|].
    rewrite <-Hts in *. clear t0 ts0 Hts.
    destruct (collapseNots_ok false ts Hwf) as (neg & t & rest & -> & _ & Hwf' & Hlen).
    cbn [obind].
    match goal with |- parsed_ok _ _ (obind ?m _) =>
      assert (parsed_ok vo (length ts) m) as Hm;
      [|destruct m as [[sel rem]| | |]; try done; destruct Hm as (Hrem & Hlen' & Hsel);
        simpl; destruct neg, sel; simpl; done] end.
    destruct (tok_Kind t) eqn:Hk; try done;
      (destruct (tokens_wf_next _ _ Hwf') as [[_ Ht] Hrest]; [congruence|]); rewrite Hk in Ht;
      try (apply parsed_ok_node; [done|lia|done]).
    + by apply parseLabelOp_ok.
    + specialize (IHor rest Hrest ltac:(lia)).
      destruct (parseOrExpression fuel rest vo) as [[sel rem]| | |]; try done. cbn [obind].
      destruct IHor as (Hrem & Hlen' & Hsel).
      destruct rem as [|t' rem']; [done|]. case_decide as Hk'; [|done].
      destruct (tokens_wf_next _ _ Hrem) as [_ Hrem']; [congruence|].
      simpl in *. split_and!; [done|lia|done].
Qed.

(** ** Validating is parsing without building nodes *)
Lemma omap_snd_bind {X} (m1 m2 : parsed) (k1 k2 : option Node * list Token → outcome ParseError X) :
  omap_ret snd m1 = omap_ret snd m2 →
  (∀ s1 s2 rem, k1 (s1, rem) = k2 (s2, rem)) → obind m1 k1 = obind m2 k2.
Proof.
  destruct m1 as [[s1 r1]| | |], m2 as [[s2 r2]| | |]; unfold omap_ret; simpl;
    intros ? Hk; simplify_eq; auto.
Qed.

Lemma omap_ret_bind {E A B C} (f : B → C) (m : outcome E A) k :
  omap_ret f (obind m k) = obind m (λ a, omap_ret f (k a)).
Proof. by destruct m. Qed.

Lemma parseLabelOp_validate label rest :
  omap_ret snd (parseLabelOp true label rest) = omap_ret snd (parseLabelOp false label rest).
Proof.
  unfold parseLabelOp. destruct rest as [|t1 [|t2 rest']]; [done..|].
  destruct (tok_Kind t1); try done; unfold parseStringOp, parseSetOp; case_decide; try done;
    destruct (parseSetValues [] rest') as [[vs [|t rem]]| | |]; try done; simpl; by case_decide.
Qed.

Lemma parse_functions_validate fuel :
  (∀ ts, omap_ret snd (parseOrExpression fuel ts true) = omap_ret snd (parseOrExpression fuel ts false)) ∧
  (∀ ns1 ns2 ts, omap_ret snd (parseOrLoop fuel ns1 ts true) = omap_ret snd (parseOrLoop fuel ns2 ts false)) ∧
  (∀ ts, omap_ret snd (parseAndExpression fuel ts true) = omap_ret snd (parseAndExpression fuel ts false)) ∧
  (∀ ns1 ns2 ts, omap_ret snd (parseAndLoop fuel ns1 ts true) = omap_ret snd (parseAndLoop fuel ns2 ts false)) ∧
  (∀ ts, omap_ret snd (parseOperation fuel ts true) = omap_ret snd (parseOperation fuel ts false)).
Proof.
  induction fuel as [|fuel (IHor & IHorl & IHand & IHandl & IHop)]; [done|].
  split_and!.
  - intros ts. simpl. rewrite !omap_ret_bind. by apply omap_snd_bind.
  - intros ns1 ns2 [|t ts]; [done|]. simpl. case_decide; [|done].
    rewrite !omap_ret_bind. by apply omap_snd_bind.
  - intros ts. simpl. rewrite !omap_ret_bind. by apply omap_snd_bind.
  - intros ns1 ns2 [|t ts]; [done|]. simpl. case_decide; [|done].
    rewrite !omap_ret_bind. by apply omap_snd_bind.
  - intros [|t0 ts0]; [done|]. cbn [parseOperation].
    destruct (collapseNots false (t0 :: ts0)) as [[neg [|t rest]]| | |]; try done. cbn [obind].
    rewrite !omap_ret_bind. apply omap_snd_bind; [|done].
    destruct (tok_Kind t); try done; [apply parseLabelOp_validate|].
    rewrite !omap_ret_bind. apply omap_snd_bind; [done|].
    intros s1 s2 [|t' rem]; [done|]. by case_decide.
Qed.

Lemma parseRootNode_validate s :
  omap_ret (λ _, ()) (parseRootNode s true) = omap_ret (λ _, ()) (parseRootNode s false).
Proof.
  unfold parseRootNode. destruct (Tokenize s) as [ts| | |]; [|done..].
  destruct (index ts 0) as [t0| | |]; [|done..]. cbn [obind].
  case_decide; [done|]. rewrite !omap_ret_bind. apply omap_snd_bind.
  - apply parse_functions_validate.
  - intros s1 s2 rem. by case_decide.
Qed.

(** ** The parser never reports a tokenizer error of its own *)
Lemma parseLabelOp_no_tokenize vo label rest e :
  parseLabelOp vo label rest ≠ Fail (ErrTokenize e).
Proof.
  assert (∀ vs acc, parseSetValues acc vs ≠ Fail (ErrTokenize e)) as Hvs.
  { intros vs. induction vs as [vs IH] using (induction_ltof1 _ length); unfold ltof in IH.
    intros acc. destruct vs as [|t [|t2 vs]]; simpl; repeat case_decide; try done.
    apply IH. simpl. lia. }
  unfold parseLabelOp. destruct rest as [|t1 [|t2 rest']]; [done..|].
  destruct (tok_Kind t1); try done; unfold parseStringOp, parseSetOp; case_decide; try done;
    specialize (Hvs rest' []); destruct (parseSetValues [] rest') as [[vs [|t rem]]| | |];
    try done; simpl; try case_decide; try done; congruence.
Qed.

Lemma parse_functions_no_tokenize fuel vo :
  (∀ ts e, parseOrExpression fuel ts vo ≠ Fail (ErrTokenize e)) ∧
  (∀ ns ts e, parseOrLoop fuel ns ts vo ≠ Fail (ErrTokenize e)) ∧
  (∀ ts e, parseAndExpression fuel ts vo ≠ Fail (ErrTokenize e)) ∧
  (∀ ns ts e, parseAndLoop fuel ns ts vo ≠ Fail (ErrTokenize e)) ∧
  (∀ ts e, parseOperation fuel ts vo ≠ Fail (ErrTokenize e)).
Proof.
  induction fuel as [|fuel (IHor & IHorl & IHand & IHandl & IHop)]; [done|].
  split_and!.
  - intros ts e. simpl. specialize (IHand ts e).
    destruct (parseAndExpression fuel ts vo) as [[? ?]| | |]; simpl; congruence || auto.
  - intros ns [|t ts] e; [done|]. simpl. case_decide; [|done]. specialize (IHand ts e).
    destruct (parseAndExpression fuel ts vo) as [[? ?]| | |]; simpl; congruence || auto.
  - intros ts e. simpl. specialize (IHop ts e).
    destruct (parseOperation fuel ts vo) as [[? ?]| | |]; simpl; congruence || auto.
  - intros ns [|t ts] e; [done|]. simpl. case_decide; [|done]. specialize (IHop ts e).
    destruct (parseOperation fuel ts vo) as [[? ?]| | |]; simpl; congruence || auto.
  - intros [|t0 ts0] e; [done|]. cbn [parseOperation].
    assert (∀ b ts, collapseNots b ts ≠ Fail (ErrTokenize e)) as Hnots.
    { intros b ts. revert b. induction ts; intros b; simpl; [done|]. by case_decide. }
    specialize (Hnots false (t0 :: ts0)).
    destruct (collapseNots false (t0 :: ts0)) as [[neg [|t rest]]| | |]; simpl; try congruence.
    pose proof (parseLabelOp_no_tokenize vo (tok_Value t) rest e). specialize (IHor rest e).
    destruct (tok_Kind t); simpl; try congruence.
    + destruct (parseLabelOp vo (tok_Value t) rest) as [[? ?]| | |]; simpl; congruence.
    + destruct (parseOrExpression fuel rest vo) as [[? [|? ?]]| | |]; simpl; try congruence.
      case_decide; simpl; congruence.
Qed.

(** ** The root node *)
Lemma Tokenize_wf s ts : Tokenize s = Ret ts → tokens_wf ts.
Proof.
  unfold Tokenize, AppendTokens. intros Hs.
  pose proof (AppendTokensFuel_total (S (String.length s)) [] s ltac:(lia)) as Ht.
  rewrite Hs in Ht. by destruct Ht as (ts' & -> & ?); exists ts'.
Qed.

Lemma parseRootNode_ok s vo :
  match parseRootNode s vo with
  | Ret (Some node) => vo = false ∧ node_wf node
  | Ret None => vo = true
  | Fail _ => True
  | _ => False
  end.
Proof.
  unfold parseRootNode. destruct (Tokenize s) as [ts|e| |] eqn:Hs.
  - apply Tokenize_wf in Hs. destruct ts as [|t0 ts0] eqn:Hts; [by apply tokens_wf_nonempty in Hs|].
    change (index (t0 :: ts0) 0) with (Ret t0 : outcome ParseError Token). cbn [obind].
    case_decide; [by destruct vo|]. rewrite <-Hts in *.
    destruct (parse_functions_ok (parseFuel ts) vo) as (Hor & _).
    specialize (Hor ts Hs ltac:(unfold parseFuel; lia)).
    destruct (parseOrExpression _ ts vo) as [[sel rem]| | |]; simpl in *; try done.
    destruct Hor as (_ & _ & Hsel). by case_decide.
  - done.
  - unfold Tokenize, AppendTokens in Hs.
    pose proof (AppendTokensFuel_total (S (String.length s)) [] s ltac:(lia)) as Ht.
    by rewrite Hs in Ht.
  - unfold Tokenize, AppendTokens in Hs.
    pose proof (AppendTokensFuel_total (S (String.length s)) [] s ltac:(lia)) as Ht.
    by rewrite Hs in Ht.
Qed.

Lemma parseRootNode_no_loop s vo : parseRootNode s vo ≠ Fail (ErrTokenize ErrInfiniteLoop).
Proof.
  unfold parseRootNode.
  pose proof (AppendTokensFuel_total (S (String.length s)) [] s ltac:(lia)) as Ht.
  change (AppendTokensFuel (S (String.length s)) [] s) with (Tokenize s) in Ht.
  destruct (Tokenize s) as [ts|e| |]; [|congruence|done|done].
  unfold index. destruct (ts !! 0) as [t0|]; [|done]. cbn [obind]. case_decide; [done|].
  pose proof (proj1 (parse_functions_no_tokenize (parseFuel ts) vo) ts ErrInfiniteLoop) as Hor.
  destruct (parseOrExpression (parseFuel ts) ts vo) as [[? ?]| | |]; cbn [obind]; try congruence.
  by case_decide.
Qed.

(** ** The canonical text, as a function *)
Definition quoted (v : string) : string := quoteFor v +:+ v +:+ quoteFor v.

Definition printValues (vs : list string) : string :=
  match vs with
  | [] => ""
  | v :: vs' => quoted v +:+ concat_strings (map (λ v, ", " +:+ quoted v) vs')
  end.

Fixpoint print (node : Node) : string :=
  match node with
  | LabelEqValueNode n v => n +:+ " == " +:+ quoted v
  | LabelContainsValueNode n v => n +:+ " contains " +:+ quoted v
  | LabelStartsWithValueNode n v => n +:+ " starts with " +:+ quoted v
  | LabelEndsWithValueNode n v => n +:+ " ends with " +:+ quoted v
  | LabelInSetNode n ss => n +:+ " in {" +:+ printValues (default [] ss) +:+ "}"
  | LabelNotInSetNode n ss => n +:+ " not in {" +:+ printValues (default [] ss) +:+ "}"
  | LabelNeValueNode n v => n +:+ " != " +:+ quoted v
  | HasNode n => "has(" +:+ n +:+ ")"
  | NotNode op => "!" +:+ print op
  | AndNode [] | OrNode [] => ""
  | AndNode (op0 :: ops) =>
      "(" +:+ print op0 +:+ concat_strings (map (λ op, " && " +:+ print op) ops) +:+ ")"
  | OrNode (op0 :: ops) =>
      "(" +:+ print op0 +:+ concat_strings (map (λ op, " || " +:+ print op) ops) +:+ ")"
  | AllNode => "all()"
  | GlobalNode => "global()"
  end.

Lemma inOpValueFragments_rest fragments vs :
  ∃ fr, inOpValueFragments false fragments vs = fragments ++ fr ∧
    concat_strings fr = concat_strings (map (λ v, ", " +:+ quoted v) vs).
Proof.
  revert fragments. induction vs as [|v vs IH]; intros fragments.
  { exists []. by rewrite app_nil_r. }
  simpl. destruct (IH ((fragments ++ [", "]) ++ [quoteFor v; v; quoteFor v])) as (fr & -> & Hfr).
  exists ([", "; quoteFor v; v; quoteFor v] ++ fr). rewrite <-!app_assoc. split; [done|].
  simpl. rewrite Hfr. unfold quoted. by autorewrite with calico.
Qed.

Lemma collectInOpFragments_print fragments n op ss :
  ∃ fr, collectInOpFragments fragments n op ss = fragments ++ fr ∧
    concat_strings fr = n +:+ " " +:+ op +:+ " {" +:+ printValues (default [] ss) +:+ "}".
Proof.
  unfold collectInOpFragments. destruct (default [] ss) as [|v vs].
  { exists [n; " "; op; " {"; "}"]. simpl. rewrite <-!app_assoc. done. }
  simpl. destruct (inOpValueFragments_rest
    ((fragments ++ [n; " "; op; " {"]) ++ [quoteFor v; v; quoteFor v]) vs) as (fr & -> & Hfr).
  exists ([n; " "; op; " {"; quoteFor v; v; quoteFor v] ++ fr ++ ["}"]).
  rewrite <-!app_assoc. split; [done|]. simpl. rewrite concat_strings_app, Hfr.
  unfold quoted. by autorewrite with calico.
Qed.

Lemma appendLabelOp_print fragments n op v :
  ∃ fr, appendLabelOpAndQuotedString fragments n op v = fragments ++ fr ∧
    concat_strings fr = n +:+ op +:+ quoted v.
Proof. eexists. split; [done|]. simpl. unfold quoted. by autorewrite with calico. Qed.

Lemma collectFragments_ops sep
    (go := fix go fragments ops :=
       match ops with
       | [] => Some (fragments ++ [")"])
       | op :: ops' =>
           match collectFragments op (fragments ++ [sep]) with
           | Some fragments' => go fragments' ops'
           | None => None
           end
       end) ops fragments :
  Forall (λ node, ∀ fragments, ∃ fr, collectFragments node fragments = Some (fragments ++ fr) ∧
                    concat_strings fr = print node) ops →
  ∃ fr, go fragments ops = Some (fragments ++ fr) ∧
    concat_strings fr = concat_strings (map (λ op, sep +:+ print op) ops) +:+ ")".
Proof.
  intros Hops. revert fragments. induction Hops as [|op ops Hop _ IH]; intros fragments.
  { exists [")"]. done. }
  simpl. destruct (Hop (fragments ++ [sep])) as (fr1 & -> & Hfr1).
  destruct (IH ((fragments ++ [sep]) ++ fr1)) as (fr2 & -> & Hfr2).
  exists ([sep] ++ fr1 ++ fr2). rewrite <-!app_assoc. split; [done|].
  simpl. rewrite concat_strings_app, Hfr1, Hfr2. by autorewrite with calico.
Qed.

Lemma collectFragments_print node fragments :
  node_wf node →
  ∃ fr, collectFragments node fragments = Some (fragments ++ fr) ∧ concat_strings fr = print node.
Proof.
  revert fragments.
  induction node as [n v|n v|n v|n v|n ss|n ss|n v|n|op IH|ops IH|ops IH| |]
    using Node_nested_ind; intros fragments Hwf; simpl in *.
  1-4,7: by match goal with |- ∃ fr, Some (?f ?a ?b ?c ?d) = _ ∧ _ =>
      destruct (appendLabelOp_print a b c d) as (fr & -> & ?); eauto end.
  - destruct (collectInOpFragments_print fragments n "in" ss) as (fr & -> & Hfr). by exists fr.
  - destruct (collectInOpFragments_print fragments n "not in" ss) as (fr & -> & Hfr). by exists fr.
  - eexists. split; [done|]. simpl. by autorewrite with calico.
  - destruct (IH (fragments ++ ["!"]) Hwf) as (fr & -> & Hfr).
    exists (["!"] ++ fr). rewrite <-app_assoc. simpl. by rewrite Hfr.
  - rewrite node_wf_all in Hwf. destruct Hwf as [Hlen Hall].
    assert (Forall (λ node, ∀ fragments, ∃ fr,
      collectFragments node fragments = Some (fragments ++ fr) ∧ concat_strings fr = print node) ops)
      as Hops by (rewrite Forall_forall in *; auto).
    destruct Hops as [|op0 ops Hop0 Hops]; [simpl in *; lia|].
    destruct (Hop0 (fragments ++ ["("])) as (fr1 & -> & Hfr1).
    destruct (collectFragments_ops " && " ops ((fragments ++ ["("]) ++ fr1) Hops) as (fr2 & -> & Hfr2).
    exists (["("] ++ fr1 ++ fr2). rewrite <-!app_assoc. split; [done|].
    simpl. by rewrite concat_strings_app, Hfr1, Hfr2.
  - rewrite node_wf_all in Hwf. destruct Hwf as [Hlen Hall].
    assert (Forall (λ node, ∀ fragments, ∃ fr,
      collectFragments node fragments = Some (fragments ++ fr) ∧ concat_strings fr = print node) ops)
      as Hops by (rewrite Forall_forall in *; auto).
    destruct Hops as [|op0 ops Hop0 Hops]; [simpl in *; lia|].
    destruct (Hop0 (fragments ++ ["("])) as (fr1 & -> & Hfr1).
    destruct (collectFragments_ops " || " ops ((fragments ++ ["("]) ++ fr1) Hops) as (fr2 & -> & Hfr2).
    exists (["("] ++ fr1 ++ fr2). rewrite <-!app_assoc. split; [done|].
    simpl. by rewrite concat_strings_app, Hfr1, Hfr2.
  - eexists. split; [done|]. done.
  - eexists. split; [done|]. done.
Qed.

Lemma updateFields_print MakeUniqueID node :
  node_wf node →
  updateFields MakeUniqueID node = Some (MkSelector node (print node) (MakeUniqueID "s" (print node))).
Proof.
  intros Hwf. unfold updateFields.
  destruct (collectFragments_print node [] Hwf) as (fr & -> & Hfr). by rewrite app_nil_l, Hfr.
Qed.
