(* ===== verification/SelectorRoundTrip.v ===== *)
(** * Printing and re-parsing selectors

    [lexemes] is the token list of a node's canonical text.  The file shows that
    tokenizing [print node] gives [lexemes node] ([tokenize_print]) and that
    parsing [lexemes node] gives the node back with double negations removed
    ([parse_lexemes]); the claims about [Parse], [Validate] and [String] follow. *)
From S2P Require Import Prelude.
From S2P Require Import Tokenizer.
From S2P Require Import SelectorAST.
From S2P Require Import SelectorParser.
From Stdlib Require Import Ascii.
From stdpp Require Import base list gmap strings sorting.
From stdpp Require Import options.

Definition lit (v : string) : Token := MkToken TokStringLiteral v.

Definition valueLexemes (vs : list string) : list Token :=
  match vs with
  | [] => []
  | v :: vs' => lit v :: concat (map (λ v, [tok TokComma; lit v]) vs')
  end.

Definition opLexemes (n : string) (k : Kind) (v : string) : list Token :=
  [MkToken TokLabel n; tok k; lit v].

Definition setLexemes (n : string) (k : Kind) (ss : StringSet) : list Token :=
  MkToken TokLabel n :: tok k :: tok TokLBrace ::
    valueLexemes (default [] ss) ++ [tok TokRBrace].

Fixpoint lexemes (node : Node) : list Token :=
  match node with
  | LabelEqValueNode n v => opLexemes n TokEq v
  | LabelContainsValueNode n v => opLexemes n TokContains v
  | LabelStartsWithValueNode n v => opLexemes n TokStartsWith v
  | LabelEndsWithValueNode n v => opLexemes n TokEndsWith v
  | LabelInSetNode n ss => setLexemes n TokIn ss
  | LabelNotInSetNode n ss => setLexemes n TokNotIn ss
  | LabelNeValueNode n v => opLexemes n TokNe v
  | HasNode n => [MkToken TokHas n]
  | NotNode op => tok TokNot :: lexemes op
  | AndNode [] | OrNode [] => []
  | AndNode (op0 :: ops) =>
      tok TokLParen :: lexemes op0 ++
        concat (map (λ op, tok TokAnd :: lexemes op) ops) ++ [tok TokRParen]
  | OrNode (op0 :: ops) =>
      tok TokLParen :: lexemes op0 ++
        concat (map (λ op, tok TokOr :: lexemes op) ops) ++ [tok TokRParen]
  | AllNode => [tok TokAll]
  | GlobalNode => [tok TokGlobal]
  end.

(** ** Tokenizing the canonical text *)
Section tokenize.
Implicit Types (ts : list Token) (s v : string).

Lemma lastTokKind_app ts t : lastTokKind (ts ++ [t]) = tok_Kind t.
Proof. unfold lastTokKind. by rewrite last_snoc. Qed.

Lemma app_cons_snoc {A} (l : list A) x l' : l ++ x :: l' = (l ++ [x]) ++ l'.
Proof. by rewrite <-app_assoc. Qed.

Lemma Contains_byte s q : Contains s (String q "") = negb (lacks q s).
Proof.
  unfold lacks. induction s as [|c s IH]; [done|]. cbn [Contains string_forallb].
  rewrite IH. unfold HasPrefix. cbn [CutPrefix].
  destruct (decide (q = c)) as [->|Hne].
  - by rewrite bool_decide_false by auto.
  - by rewrite bool_decide_true by auto.
Qed.

(** The chosen quote does not occur in the literal it encloses. *)
Lemma quoteFor_spec v :
  literal_ok v →
  ∃ q, quoteFor v = String q "" ∧ (q = "034"%char ∨ q = "'"%char) ∧ lacks q v = true.
Proof.
  intros Hv. unfold quoteFor. rewrite Contains_byte.
  destruct (lacks "034" v) eqn:E; simpl; [by exists "034"%char; auto|].
  exists "'"%char. destruct Hv as [?|?]; [congruence|auto].
Qed.

Lemma lex_quoted ts v s :
  literal_ok v → AppendTokens ts (quoted v +:+ s) = AppendTokens (ts ++ [lit v]) s.
Proof.
  intros (q & Hq & Hor & Hl)%quoteFor_spec. unfold quoted. rewrite Hq, !string_app_assoc.
  change (String q "" +:+ v +:+ String q "" +:+ s) with (String q (v +:+ String q s)).
  by apply lex_literal.
Qed.

Lemma lex_values ts vs s :
  Forall literal_ok vs →
  AppendTokens ts (printValues vs +:+ s) = AppendTokens (ts ++ valueLexemes vs) s.
Proof.
  destruct vs as [|v vs]; intros Hvs; [by rewrite app_nil_r|].
  apply Forall_cons in Hvs as [Hv Hvs]. simpl. rewrite string_app_assoc, lex_quoted by done.
  rewrite (app_cons_snoc ts (lit v) (concat _)). generalize (ts ++ [lit v]). clear ts Hv.
  induction Hvs as [|v' vs Hv' _ IH]; intros ts; simpl; [by rewrite app_nil_r|].
  rewrite !string_app_assoc. change (", " +:+ ?x) with ("," +:+ " " +:+ x).
  rewrite lex_comma, lex_space, lex_quoted by done. rewrite IH, <-!app_assoc. done.
Qed.

Lemma lex_quoted_op ts n k v s :
  ValidLabel n = true → literal_ok v → lastTokKind ts ≠ TokLabel →
  (∃ w, opWord k = Some w ∧ s = " " +:+ w +:+ " " +:+ quoted v) ∨
  (k = TokEq ∧ s = " == " +:+ quoted v) ∨ (k = TokNe ∧ s = " != " +:+ quoted v) →
  ∀ s', AppendTokens ts (n +:+ s +:+ s') = AppendTokens (ts ++ opLexemes n k v) s'.
Proof.
  intros Hn Hv Hts Hs s'. unfold opLexemes.
  assert (AppendTokens ts (n +:+ s +:+ s') = AppendTokens (ts ++ [MkToken TokLabel n]) (s +:+ s')) as ->.
  { destruct Hs as [(w & _ & ->)|[[_ ->]|[_ ->]]]; by apply lex_label. }
  assert (lastTokKind (ts ++ [MkToken TokLabel n]) = TokLabel) as Hlast by apply lastTokKind_app.
  rewrite (app_cons_snoc ts (MkToken TokLabel n) [tok k; lit v]).
  generalize dependent (ts ++ [MkToken TokLabel n]). clear ts Hts. intros ts Hlast.
  transitivity (AppendTokens (ts ++ [tok k]) (quoted v +:+ s')).
  2: { rewrite lex_quoted by done. by rewrite <-app_assoc. }
  destruct Hs as [(w & Hw & ->)|[[-> ->]|[-> ->]]].
  - pose proof (quoteFor_spec v Hv) as (q & Hq & Hor & _). unfold quoted.
    rewrite Hq, !string_app_assoc. apply (lex_opWord ts k w q); [done|done|].
    destruct Hor; auto.
  - change ((" == " +:+ quoted v) +:+ s') with (" " +:+ "==" +:+ " " +:+ (quoted v +:+ s')).
    by rewrite lex_space, lex_eq, lex_space.
  - change ((" != " +:+ quoted v) +:+ s') with (" " +:+ "!=" +:+ " " +:+ (quoted v +:+ s')).
    by rewrite lex_space, lex_ne, lex_space.
Qed.

Lemma lex_set_op ts n k w ss s' :
  ValidLabel n = true → set_ok ss → lastTokKind ts ≠ TokLabel → opWord k = Some w →
  AppendTokens ts (n +:+ (" " +:+ w +:+ " {" +:+ printValues (default [] ss) +:+ "}") +:+ s') =
  AppendTokens (ts ++ setLexemes n k ss) s'.
Proof.
  intros Hn Hss Hts Hw. unfold setLexemes.
  rewrite !string_app_assoc, lex_label by done.
  assert (lastTokKind (ts ++ [MkToken TokLabel n]) = TokLabel) as Hlast by apply lastTokKind_app.
  rewrite (app_cons_snoc ts (MkToken TokLabel n) (tok k :: _)).
  generalize dependent (ts ++ [MkToken TokLabel n]). clear ts Hts. intros ts Hlast.
  change (" {" +:+ ?x) with (" " +:+ String "{" x). rewrite (lex_opWord ts k w) by auto.
  change (String "{" ?x) with ("{" +:+ x). rewrite lex_lbrace, lex_values, lex_rbrace.
  - by rewrite <-!app_assoc.
  - destruct ss as [l|]; simpl in *; [tauto|constructor].
Qed.

Lemma print_no_eq node s : node_wf node → CutPrefix (print node +:+ s) "=" = None.
Proof.
  assert (∀ n s, ValidLabel n = true → CutPrefix (n +:+ s) "=" = None) as Hlabel.
  { intros n s' [Hn Hlen]%ValidLabel_spec. destruct n as [|c n]; [simpl in *; lia|].
    simpl in Hn. apply andb_true_iff in Hn as [Hc _]. rewrite string_app_cons. simpl.
    rewrite decide_False; [done|]. intros <-. done. }
  destruct node; simpl; intros Hwf; rewrite ?string_app_assoc; try (by apply Hlabel);
    try (by apply Hlabel, Hwf); try done.
  all: by destruct Operands; simpl in *; [lia|].
Qed.

(** Printed operands, each after its separator. *)
Lemma lex_operands (sep : string) (k : Kind) ops ts s :
  (∀ ts s, AppendTokens ts (sep +:+ s) = AppendTokens (ts ++ [tok k]) s) → k ≠ TokLabel →
  Forall (λ op, ∀ ts s, lastTokKind ts ≠ TokLabel →
    AppendTokens ts (print op +:+ s) = AppendTokens (ts ++ lexemes op) s) ops →
  AppendTokens ts (concat_strings (map (λ op, sep +:+ print op) ops) +:+ s) =
  AppendTokens (ts ++ concat (map (λ op, tok k :: lexemes op) ops)) s.
Proof.
  intros Hsep Hk Hops. revert ts. induction Hops as [|op ops Hop _ IH]; intros ts; simpl.
  { by rewrite app_nil_r. }
  rewrite !string_app_assoc, Hsep, Hop by (by rewrite lastTokKind_app).
  rewrite IH. by rewrite <-!app_assoc.
Qed.

Lemma lex_node node ts s :
  node_wf node → lastTokKind ts ≠ TokLabel →
  AppendTokens ts (print node +:+ s) = AppendTokens (ts ++ lexemes node) s.
Proof.
  revert ts s.
  induction node as [n v|n v|n v|n v|n ss|n ss|n v|n|op IH|ops IH|ops IH| |]
    using Node_nested_ind; intros ts s Hwf Hts; cbn [print lexemes]; 
    try (simpl in Hwf; lazymatch type of Hwf with _ ∧ _ => destruct Hwf as [Hn Hv] end);
    rewrite ?(string_app_assoc n).
  - apply lex_quoted_op; auto.
  - apply lex_quoted_op; eauto.
  - apply lex_quoted_op; eauto.
  - apply lex_quoted_op; eauto.
  - by apply (lex_set_op ts n TokIn "in").
  - by apply (lex_set_op ts n TokNotIn "not in").
  - apply lex_quoted_op; auto.
  - rewrite !string_app_assoc. by apply lex_has.
  - rewrite string_app_assoc, lex_not by (by apply print_no_eq).
    rewrite IH by (done || by rewrite lastTokKind_app). by rewrite <-app_assoc.
  - apply node_wf_all in Hv.
    assert (Forall (λ op, ∀ ts s, lastTokKind ts ≠ TokLabel →
      AppendTokens ts (print op +:+ s) = AppendTokens (ts ++ lexemes op) s) ops) as Hops
      by (rewrite Forall_forall in *; auto).
    destruct Hops as [|op0 ops Hop0 Hops]; [simpl in *; lia|].
    rewrite !string_app_assoc, lex_lparen, Hop0 by (by rewrite lastTokKind_app).
    rewrite (lex_operands " && " TokAnd); [|intros|done|done].
    + rewrite lex_rparen. by rewrite <-!app_assoc.
    + change (" && " +:+ ?x) with (" " +:+ "&&" +:+ " " +:+ x). by rewrite lex_space, lex_and, lex_space.
  - apply node_wf_all in Hv.
    assert (Forall (λ op, ∀ ts s, lastTokKind ts ≠ TokLabel →
      AppendTokens ts (print op +:+ s) = AppendTokens (ts ++ lexemes op) s) ops) as Hops
      by (rewrite Forall_forall in *; auto).
    destruct Hops as [|op0 ops Hop0 Hops]; [simpl in *; lia|].
    rewrite !string_app_assoc, lex_lparen, Hop0 by (by rewrite lastTokKind_app).
    rewrite (lex_operands " || " TokOr); [|intros|done|done].
    + rewrite lex_rparen. by rewrite <-!app_assoc.
    + change (" || " +:+ ?x) with (" " +:+ "||" +:+ " " +:+ x). by rewrite lex_space, lex_or, lex_space.
  - by apply lex_all.
  - by apply lex_global.
Qed.

Lemma tokenize_print node :
  node_wf node → Tokenize (print node) = Ret (lexemes node ++ [tok TokEOF]).
Proof.
  intros Hwf. unfold Tokenize. rewrite <-(string_app_nil_r (print node)).
  rewrite lex_node by done. by rewrite AppendTokens_unfold.
Qed.
End tokenize.

(** ** Removing double negations *)
Definition flipNot (node : Node) : Node :=
  match node with NotNode op => op | _ => NotNode node end.

Fixpoint collapse (node : Node) : Node :=
  match node with
  | NotNode op => flipNot (collapse op)
  | AndNode ops => AndNode (map collapse ops)
  | OrNode ops => OrNode (map collapse ops)
  | _ => node
  end.

Definition is_not (node : Node) : Prop :=
  match node with NotNode _ => True | _ => False end.

(** Collapsing leaves no negation directly below a negation. *)
Lemma collapse_single_not node op : collapse node = NotNode op → ¬ is_not op.
Proof.
  revert op. induction node as [n v|n v|n v|n v|n ss|n ss|n v|n|op' IH|ops IH|ops IH| |]
    using Node_nested_ind; simpl; intros op Heq; try done.
  destruct (collapse op') as [| | | | | | | |op''| | | |] eqn:E; simplify_eq/=; try (by intros []).
  intros Hop. by destruct (IH (NotNode op)).
Qed.

Lemma flipNot_collapse node : flipNot (flipNot (collapse node)) = collapse node.
Proof.
  destruct (collapse node) as [| | | | | | | |op| | | |] eqn:E; try done. simpl.
  pose proof (collapse_single_not _ _ E). by destruct op.
Qed.

Lemma flipNot_Evaluate `{Labels L} node (labels : L) :
  Evaluate (flipNot node) labels = negb (Evaluate node labels).
Proof. destruct node; simpl; by rewrite ?negb_involutive. Qed.

Lemma collapse_Evaluate `{Labels L} node (labels : L) :
  Evaluate (collapse node) labels = Evaluate node labels.
Proof.
  induction node as [n v|n v|n v|n v|n ss|n ss|n v|n|op IH|ops IH|ops IH| |]
    using Node_nested_ind; simpl; try done.
  - by rewrite flipNot_Evaluate, IH.
  - induction IH as [|op ops Hop _ IHops]; simpl; [done|]. by rewrite Hop, IHops.
  - induction IH as [|op ops Hop _ IHops]; simpl; [done|]. by rewrite Hop, IHops.
Qed.

Lemma flipNot_wf node : node_wf node → node_wf (flipNot node).
Proof. by destruct node. Qed.

Lemma collapse_wf node : node_wf node → node_wf (collapse node).
Proof.
  induction node as [n v|n v|n v|n v|n ss|n ss|n v|n|op IH|ops IH|ops IH| |]
    using Node_nested_ind; simpl; try done.
  - intros Hwf. by apply flipNot_wf, IH.
  - rewrite !node_wf_all, length_map, Forall_map. intros [Hl Hall]. split; [done|].
    rewrite Forall_forall in *. intros op Hop. by apply IH, Hall.
  - rewrite !node_wf_all, length_map, Forall_map. intros [Hl Hall]. split; [done|].
    rewrite Forall_forall in *. intros op Hop. by apply IH, Hall.
Qed.

Lemma collapse_flipNot node : collapse (flipNot (collapse node)) = flipNot (collapse (collapse node)).
Proof.
  destruct (collapse node) as [| | | | | | | |op| | | |] eqn:E; try done.
  simpl. pose proof (collapse_single_not _ _ E). by destruct op.
Qed.

Lemma collapse_idemp node : collapse (collapse node) = collapse node.
Proof.
  induction node as [n v|n v|n v|n v|n ss|n ss|n v|n|op IH|ops IH|ops IH| |]
    using Node_nested_ind; simpl; try done.
  - by rewrite collapse_flipNot, IH.
  - f_equal. rewrite map_map. induction IH as [|op ops Hop _ IHops]; simpl; [done|].
    by rewrite Hop, IHops.
  - f_equal. rewrite map_map. induction IH as [|op ops Hop _ IHops]; simpl; [done|].
    by rewrite Hop, IHops.
Qed.

(** ** Parsing the lexemes *)
Section parse.
Implicit Types (ts rest : list Token).

Lemma parseSetValues_lexemes vs acc t rest :
  tok_Kind t ≠ TokComma → tok_Kind t ≠ TokStringLiteral →
  parseSetValues acc (valueLexemes vs ++ t :: rest) = Ret (acc ++ vs, t :: rest).
Proof.
  intros Ht1 Ht2. destruct vs as [|v vs]; simpl.
  { rewrite decide_False by done. by rewrite app_nil_r. }
  revert v acc. induction vs as [|v' vs IH]; intros v acc; simpl.
  { by rewrite decide_False by done. }
  by rewrite IH, <-app_assoc.
Qed.

Lemma dedupSorted_id v l :
  StronglySorted (λ x y, String.le x y ∧ x ≠ y) (v :: l) → dedupSorted v l = l.
Proof.
  revert v. induction l as [|w l IH]; intros v Hs; [done|]. simpl.
  apply StronglySorted_inv in Hs as [Hs Hv]. apply Forall_cons in Hv as [[_ Hne] _].
  rewrite decide_False by done. by rewrite IH.
Qed.

Lemma StringSet_of_id ss : set_ok ss → StringSet_of (default [] ss) = ss.
Proof.
  destruct ss as [l|]; [|done]. simpl. intros (Hne & _ & Hs). unfold StringSet_of.
  assert (ConvertToStringSetInPlace l = l) as ->; [|by destruct l].
  unfold ConvertToStringSetInPlace. case_match; [done|].
  assert (StronglySorted String.le l) as Hle.
  { clear -Hs. induction Hs as [|a l' Hs IH Ha]; constructor; [done|].
    eapply Forall_impl; [exact Ha|]. by intros x [??]. }
  assert (sortStrings l = l) as ->.
  { apply (StronglySorted_unique String.le); [apply sortStrings_sorted|done|apply sortStrings_perm]. }
  destruct l as [|v l]; [done|]. by rewrite dedupSorted_id.
Qed.

Lemma collapseNots_replicate b k ts :
  collapseNots b (replicate k (tok TokNot) ++ ts) = collapseNots (xorb b (Nat.odd k)) ts.
Proof.
  revert b. induction k as [|k IH]; intros b; [simpl; by rewrite xorb_false_r|].
  simpl replicate. cbn [app collapseNots]. rewrite decide_True by done. rewrite IH.
  f_equal. rewrite Nat.odd_succ, <-Nat.negb_odd. by destruct b, (Nat.odd k).
Qed.

(** What [parseOperation] does with [k] negations and a term. *)
Definition applyNots (k : nat) (node : Node) : Node :=
  if Nat.odd k then flipNot node else node.

Lemma applyNots_S k node :
  applyNots (S k) (collapse node) = applyNots k (flipNot (collapse node)).
Proof.
  unfold applyNots. rewrite Nat.odd_succ, <-Nat.negb_odd.
  destruct (Nat.odd k); simpl; [by rewrite flipNot_collapse|done].
Qed.

Definition parses_to node : Prop :=
  ∀ k fuel rest, 4 * length (lexemes node) + 1 ≤ fuel → rest ≠ [] →
    parseOperation fuel (replicate k (tok TokNot) ++ lexemes node ++ rest) false =
    Ret (Some (applyNots k (collapse node)), rest).

(** A term that is not a negation, once its own branch is known. *)
Lemma parseOperation_term k fuel t ts m rest :
  tok_Kind t ≠ TokNot → ¬ is_not m →
  obind
    match tok_Kind t with
    | TokHas => Ret (Some (HasNode (tok_Value t)), ts)
    | TokAll => Ret (Some AllNode, ts)
    | TokGlobal => Ret (Some GlobalNode, ts)
    | TokLabel => parseLabelOp false (tok_Value t) ts
    | TokLParen =>
        let! (sel, remTokens) := parseOrExpression fuel ts false in
        match remTokens with
        | t' :: remTokens' =>
            if decide (tok_Kind t' = TokRParen) then Ret (sel, remTokens')
            else Fail ErrExpectedRParen
        | [] => Fail ErrExpectedRParen
        end
    | _ => Fail (ErrUnexpectedToken t)
    end Ret = Ret (Some m, rest) →
  parseOperation (S fuel) (replicate k (tok TokNot) ++ t :: ts) false =
  Ret (Some (applyNots k m), rest).
Proof.
  intros Ht Hm Hbody. cbn [parseOperation].
  destruct (replicate k (tok TokNot) ++ t :: ts) as [|t0 ts0] eqn:E; [by destruct k|].
  rewrite <-E, collapseNots_replicate. cbn [collapseNots]. rewrite decide_False by done.
  cbn [obind]. cbn [nodeUnless]. revert Hbody.
  match goal with |- obind ?x Ret = _ → obind ?y _ = _ => change y with x; generalize x end.
  intros [[sel rem]| | |]; simpl; intros ?; simplify_eq. unfold applyNots.
  destruct (Nat.odd k); simpl; [|done]. by destruct m.
Qed.

Lemma parses_to_plain node fuel rest :
  parses_to node → 4 * length (lexemes node) + 1 ≤ fuel → rest ≠ [] →
  parseOperation fuel (lexemes node ++ rest) false = Ret (Some (collapse node), rest).
Proof. intros Hp Hf Hr. exact (Hp 0 fuel rest Hf Hr). Qed.

Lemma parseAnd_single fuel node t rest :
  parses_to node → 4 * length (lexemes node) + 2 ≤ fuel →
  tok_Kind t ≠ TokAnd →
  parseAndExpression fuel (lexemes node ++ t :: rest) false = Ret (Some (collapse node), t :: rest).
Proof.
  intros Hp Hf Ht. destruct fuel as [|fuel]; [lia|]. cbn [parseAndExpression].
  rewrite parses_to_plain by (done || lia). cbn [obind].
  destruct fuel as [|fuel]; [lia|]. cbn [parseAndLoop]. by rewrite decide_False by done.
Qed.

Lemma parseAndLoop_lexemes ops acc fuel t rest :
  Forall parses_to ops →
  4 * length (concat (map (λ op, tok TokAnd :: lexemes op) ops)) + 1 ≤ fuel →
  tok_Kind t ≠ TokAnd →
  parseAndLoop fuel acc (concat (map (λ op, tok TokAnd :: lexemes op) ops) ++ t :: rest) false =
  Ret (finishNodes false AndNode (acc ++ map collapse ops), t :: rest).
Proof.
  intros Hops. revert acc fuel. induction Hops as [|op ops Hop _ IH]; intros acc fuel Hf Ht;
    (destruct fuel as [|fuel]; [lia|]); cbn [map concat].
  { cbn [parseAndLoop app]. rewrite decide_False by done. by rewrite app_nil_r. }
  cbn [map concat] in Hf. rewrite length_app in Hf. cbn [length] in Hf.
  rewrite <-app_assoc. cbn [app parseAndLoop]. rewrite decide_True by done.
  rewrite parses_to_plain by (done || lia || (by destruct (concat _))). cbn [obind appendNode].
  rewrite IH by (done || lia). by rewrite <-app_assoc.
Qed.

Lemma parseOrLoop_lexemes ops acc fuel t rest :
  Forall parses_to ops →
  4 * length (concat (map (λ op, tok TokOr :: lexemes op) ops)) + 1 ≤ fuel →
  tok_Kind t ≠ TokAnd → tok_Kind t ≠ TokOr →
  parseOrLoop fuel acc (concat (map (λ op, tok TokOr :: lexemes op) ops) ++ t :: rest) false =
  Ret (finishNodes false OrNode (acc ++ map collapse ops), t :: rest).
Proof.
  intros Hops. revert acc fuel. induction Hops as [|op ops Hop _ IH]; intros acc fuel Hf Ht1 Ht2;
    (destruct fuel as [|fuel]; [lia|]); cbn [map concat].
  { cbn [parseOrLoop app]. rewrite decide_False by done. by rewrite app_nil_r. }
  cbn [map concat] in Hf. rewrite length_app in Hf. cbn [length] in Hf.
  rewrite <-app_assoc. cbn [app parseOrLoop]. rewrite decide_True by done.
  assert (∃ t' rest', concat (map (λ op, tok TokOr :: lexemes op) ops) ++ t :: rest = t' :: rest' ∧
            tok_Kind t' ≠ TokAnd) as (t' & rest' & Heq & Ht').
  { destruct ops; simpl; eauto. }
  rewrite Heq, parseAnd_single by (done || lia). cbn [obind appendNode].
  rewrite <-Heq, IH by (done || lia). by rewrite <-app_assoc.
Qed.
End parse.

Section parse_nodes.
Lemma parses_to_And op0 ops :
  ops ≠ [] → parses_to op0 → Forall parses_to ops → parses_to (AndNode (op0 :: ops)).
Proof.
  intros Hne Hop0 Hops k fuel rest Hf Hr. cbn [lexemes] in *.
  destruct fuel as [|fuel]; [lia|]. cbn [length] in Hf. rewrite !length_app in Hf. cbn [length] in Hf.
  cbn [app]. apply parseOperation_term; [done|by intros []|]. cbn [tok_Kind tok].
  destruct fuel as [|[|fuel]]; [lia..|]. cbn [parseOrExpression parseAndExpression].
  rewrite <-!app_assoc. cbn [app].
  rewrite parses_to_plain by (done || lia || (by destruct (concat _))). cbn [obind appendNode app].
  rewrite parseAndLoop_lexemes by (done || lia). cbn [obind appendNode app].
  cbn [parseOrLoop tok_Kind tok]. rewrite decide_False by done. cbn [obind].
  rewrite decide_True by done. simpl. by destruct ops.
Qed.

Lemma parses_to_Or op0 ops :
  ops ≠ [] → parses_to op0 → Forall parses_to ops → parses_to (OrNode (op0 :: ops)).
Proof.
  intros Hne Hop0 Hops k fuel rest Hf Hr. cbn [lexemes] in *.
  destruct fuel as [|fuel]; [lia|]. cbn [length] in Hf. rewrite !length_app in Hf. cbn [length] in Hf.
  cbn [app]. apply parseOperation_term; [done|by intros []|]. cbn [tok_Kind tok].
  destruct fuel as [|fuel]; [lia|]. cbn [parseOrExpression].
  rewrite <-!app_assoc. cbn [app].
  assert (∃ t' rest', concat (map (λ op, tok TokOr :: lexemes op) ops) ++ tok TokRParen :: rest = t' :: rest' ∧
            tok_Kind t' ≠ TokAnd) as (t' & rest' & Heq & Ht').
  { destruct ops; simpl; eauto. }
  rewrite Heq, parseAnd_single by (done || lia). cbn [obind appendNode app].
  rewrite <-Heq, parseOrLoop_lexemes by (done || lia). cbn [obind].
  rewrite decide_True by done. simpl. by destruct ops.
Qed.

Lemma parses_to_leaf node t ts :
  lexemes node = t :: ts → tok_Kind t ≠ TokNot → tok_Kind t ≠ TokLParen → ¬ is_not (collapse node) →
  (∀ rest, rest ≠ [] →
    match tok_Kind t with
    | TokHas => Ret (Some (HasNode (tok_Value t)), ts ++ rest)
    | TokAll => Ret (Some AllNode, ts ++ rest)
    | TokGlobal => Ret (Some GlobalNode, ts ++ rest)
    | TokLabel => parseLabelOp false (tok_Value t) (ts ++ rest)
    | _ => Fail (ErrUnexpectedToken t)
    end = Ret (Some (collapse node), rest)) →
  parses_to node.
Proof.
  intros Hlex Hk1 Hk2 Hnot Hbody k fuel rest Hf Hr. rewrite Hlex. cbn [app].
  destruct fuel as [|fuel]; [lia|]. apply parseOperation_term; [done|done|].
  specialize (Hbody rest Hr). destruct (tok_Kind t); try done; by rewrite Hbody.
Qed.

Lemma parseLabelOp_set mk k n ss rest :
  set_ok ss → rest ≠ [] →
  (k = TokIn ∧ mk = LabelInSetNode ∨ k = TokNotIn ∧ mk = LabelNotInSetNode) →
  parseLabelOp false n (tok k :: tok TokLBrace :: (valueLexemes (default [] ss) ++ [tok TokRBrace]) ++ rest) =
  Ret (Some (mk n ss), rest).
Proof.
  intros Hss Hr Hk. rewrite <-app_assoc. cbn [app].
  destruct Hk as [[-> ->]|[-> ->]]; simpl; unfold parseSetOp; rewrite decide_True by done;
    rewrite parseSetValues_lexemes by done; simpl; by rewrite StringSet_of_id.
Qed.

Lemma parse_lexemes node : node_wf node → parses_to node.
Proof.
  induction node as [n v|n v|n v|n v|n ss|n ss|n v|n|op IH|ops IH|ops IH| |]
    using Node_nested_ind; intros Hwf.
  1-4,7,8,12,13: by (eapply parses_to_leaf; [done|done|done|by intros []|done]).
  - eapply parses_to_leaf; [done|done|done|by intros []|]. intros rest Hr.
    apply (parseLabelOp_set LabelInSetNode TokIn); [apply Hwf|done|auto].
  - eapply parses_to_leaf; [done|done|done|by intros []|]. intros rest Hr.
    apply (parseLabelOp_set LabelNotInSetNode TokNotIn); [apply Hwf|done|auto].
  - intros k fuel rest Hf Hr. cbn [lexemes length app] in *.
    rewrite (app_cons_snoc (replicate k _)), <-replicate_S_end.
    rewrite (IH Hwf (S k) fuel rest) by (done || lia). cbn [collapse]. by rewrite applyNots_S.
  - simpl in Hwf. rewrite node_wf_all in Hwf. destruct Hwf as [Hlen Hall].
    assert (Forall parses_to ops) as Hops by (rewrite Forall_forall in *; auto).
    destruct Hops as [|op0 [|op1 ops]]; simpl in Hlen; [lia..|]. by apply parses_to_And.
  - simpl in Hwf. rewrite node_wf_all in Hwf. destruct Hwf as [Hlen Hall].
    assert (Forall parses_to ops) as Hops by (rewrite Forall_forall in *; auto).
    destruct Hops as [|op0 [|op1 ops]]; simpl in Hlen; [lia..|]. by apply parses_to_Or.
Qed.

Lemma lexemes_nonempty node : node_wf node → ∃ t ts, lexemes node = t :: ts ∧ tok_Kind t ≠ TokEOF.
Proof.
  destruct node as [| | | | | | | | |ops|ops| |]; simpl; eauto;
    destruct ops; simpl; eauto; intros [? _]; lia.
Qed.

(** Re-parsing the canonical text of any well-formed node. *)
Lemma parseRootNode_print node :
  node_wf node → parseRootNode (print node) false = Ret (Some (collapse node)).
Proof.
  intros Hwf. unfold parseRootNode. rewrite tokenize_print by done.
  destruct (lexemes_nonempty node Hwf) as (t & ts & Hlex & Ht).
  assert (index (lexemes node ++ [tok TokEOF]) 0 = (Ret t : outcome ParseError Token)) as ->
    by (by rewrite Hlex).
  cbn [obind]. rewrite decide_False by done.
  unfold parseFuel. rewrite length_app. cbn [length].
  replace (4 * S (length (lexemes node) + 1)) with (S (4 * length (lexemes node) + 7)) by lia.
  cbn [parseOrExpression].
  rewrite parseAnd_single by (by apply parse_lexemes || lia || done). cbn [obind appendNode app].
  by replace (4 * length (lexemes node) + 7) with (S (4 * length (lexemes node) + 6)) by lia.
Qed.
End parse_nodes.

(** ** Claims about [Parse], [Validate] and [String] *)
Section claims.
Context (MakeUniqueID : string → string → string).

Lemma Parse_Ret s sel :
  Parse MakeUniqueID s = Ret (Some sel) →
  parseRootNode s false = Ret (Some (root sel)) ∧ node_wf (root sel) ∧ stringRep sel = print (root sel) ∧
  updateFields MakeUniqueID (root sel) = Some sel.
Proof.
  unfold Parse, parseRoot. pose proof (parseRootNode_ok s false) as Hok.
  destruct (parseRootNode s false) as [[node|]| | |]; simpl; try done. destruct Hok as [_ Hok].
  rewrite updateFields_print by done. intros [= <-]. by rewrite updateFields_print.
Qed.

Lemma Parse_print node :
  node_wf node → Parse MakeUniqueID (print node) =
  Ret (Some (MkSelector (collapse node) (print (collapse node))
               (MakeUniqueID "s" (print (collapse node))))).
Proof.
  intros Hwf. unfold Parse, parseRoot. rewrite parseRootNode_print by done.
  cbn [obind]. by rewrite updateFields_print by (by apply collapse_wf).
Qed.
End claims.

(** C29: parsing is total: on every input string [Parse] returns a selector or an
    error; it never indexes out of range, its loops end, and the tokenizer's
    defensive "infinite loop detected" error is never returned. *)
Theorem Parse_total MakeUniqueID (s : string) :
  match Parse MakeUniqueID s with
  | Ret (Some sel) => node_wf (root sel)
  | Ret None => False
  | Fail e => e ≠ ErrTokenize ErrInfiniteLoop
  | Panic | OutOfFuel => False
  end.
Proof.
  unfold Parse, parseRoot. pose proof (parseRootNode_ok s false) as Hok.
  pose proof (parseRootNode_no_loop s false) as Hloop.
  destruct (parseRootNode s false) as [[node|]|e| |]; simpl in *; try done.
  - destruct Hok as [_ Hok]. by rewrite updateFields_print.
  - congruence.
Qed.

(** [Validate] accepts exactly the selectors that [Parse] accepts, and rejects
    the others with the same error. *)
Theorem Validate_agrees_with_Parse MakeUniqueID (s : string) :
  Validate MakeUniqueID s = omap_ret (λ _, ()) (Parse MakeUniqueID s).
Proof.
  unfold Validate, Parse, parseRoot.
  pose proof (parseRootNode_ok s true) as Hok1. pose proof (parseRootNode_ok s false) as Hok2.
  pose proof (parseRootNode_validate s) as Hv.
  destruct (parseRootNode s true) as [[n1|]| | |], (parseRootNode s false) as [[n2|]| | |];
    unfold omap_ret in *; simpl in *; try done; try (by destruct Hok1); try (by destruct Hok2).
  - destruct Hok2 as [_ Hok2]. by rewrite updateFields_print.
Qed.

(** The canonical text of every well-formed selector node parses, and gives the
    node back with double negations removed; in particular operator precedence,
    parentheses, quoting and set literals survive printing. *)
Theorem parse_of_printed_node node :
  node_wf node → parseRootNode (print node) false = Ret (Some (collapse node)).
Proof. apply parseRootNode_print. Qed.

Lemma parse_of_printed_node_witness :
  parseRootNode
    (print (AndNode [NotNode (OrNode [HasNode "a"; LabelEqValueNode "b" "it's"]);
                     LabelInSetNode "c" (Some ["x"; "y"])])) false =
  Ret (Some (collapse (AndNode [NotNode (OrNode [HasNode "a"; LabelEqValueNode "b" "it's"]);
                     LabelInSetNode "c" (Some ["x"; "y"])]))).
Proof.
  apply parse_of_printed_node. cbn. unfold literal_ok.
  repeat split; try lia; try (vm_compute; reflexivity); try (by left; vm_compute);
    try discriminate.
  - repeat constructor; by left; vm_compute.
  - repeat constructor; try discriminate.
Defined.

(** C25: [String] is a faithful description: re-parsing the string form of a parsed
    selector succeeds and gives a selector that matches the same labels; its own
    string form is then a fixed point of parsing and printing. *)
Theorem Parse_String_roundtrip MakeUniqueID s sel :
  Parse MakeUniqueID s = Ret (Some sel) →
  ∃ sel', Parse MakeUniqueID (stringRep sel) = Ret (Some sel') ∧
    (∀ labels : gmap string string, Evaluate (root sel') labels = Evaluate (root sel) labels) ∧
    Parse MakeUniqueID (stringRep sel') = Ret (Some sel').
Proof.
  intros (_ & Hwf & -> & _)%Parse_Ret. rewrite Parse_print by done.
  eexists. split; [done|]. simpl. split.
  - intros labels. apply collapse_Evaluate.
  - rewrite Parse_print by (by apply collapse_wf). by rewrite collapse_idemp.
Qed.

Lemma Parse_String_roundtrip_witness :
  ∃ sel', Parse (λ p c, p +:+ c) "(!has(a))" = Ret (Some sel') ∧
    (∀ labels : gmap string string,
       Evaluate (root sel') labels = Evaluate (NotNode (HasNode "a")) labels) ∧
    Parse (λ p c, p +:+ c) (stringRep sel') = Ret (Some sel').
Proof.
  destruct (Parse_String_roundtrip (λ p c, p +:+ c) "!( has( a ) )"
    (MkSelector (NotNode (HasNode "a")) "!has(a)" "s!has(a)")) as (sel' & H1 & H2 & H3).
  - vm_compute. reflexivity.
  - exists sel'. split; [rewrite <-H1; vm_compute; reflexivity|]. split; [exact H2|exact H3].
Defined.
