(* ===== verification/SelectorCompose.v ===== *)
(** * Selectors between parentheses

    The rule scanner builds new selectors by text, as ["(%s) && (!(%s))"].  This file shows that
    such a combination of two selectors that parse means what it says: the tokenizer and the
    parser, given a selector followed by a closing parenthesis, do what they do on the selector
    alone and stop before the parenthesis. *)
From S2P Require Import Prelude Tokenizer SelectorAST SelectorParser SelectorRoundTrip.
From Stdlib Require Import Ascii.
From stdpp Require Import base list gmap strings.
From stdpp Require Import options.

(** ** Tokens *)
Section tokens.
Implicit Types (s p r x : string) (ts : list Token).

Lemma CutPrefix_more s p r x : CutPrefix s p = Some r → CutPrefix (s +:+ x) p = Some (r +:+ x).
Proof. rewrite !CutPrefix_Some. intros ->. apply string_app_assoc. Qed.

Lemma CutPrefix_none s p x :
  lacks ")" p = true → CutPrefix s p = None → CutPrefix (s +:+ String ")" x) p = None.
Proof.
  revert s. induction p as [|c p IH]; intros s Hp; [done|]. cbn in Hp. apply andb_true_iff in Hp as [Hc Hp].
  destruct s as [|d s]; rewrite ?string_app_nil_l, ?string_app_cons; cbn [CutPrefix].
  - intros _. destruct (decide (c = ")"%char)) as [->|]; [by vm_compute in Hc|done].
  - destruct (decide (c = d)); [by apply IH|done].
Qed.

Lemma trim_more s x : trimWhitespace (s +:+ String ")" x) = trimWhitespace s +:+ String ")" x.
Proof. induction s as [|c s IH]; [done|]. rewrite string_app_cons. cbn [trimWhitespace]. destruct (_ || _); [done|done]. Qed.

Lemma boundary_more s x : isWordBoundary (s +:+ String ")" x) = isWordBoundary s.
Proof. by destruct s. Qed.

Lemma span_more s x :
  spanIdentifier (s +:+ String ")" x) = ((spanIdentifier s).1, (spanIdentifier s).2 +:+ String ")" x).
Proof.
  induction s as [|c s IH]; [done|]. rewrite string_app_cons. cbn [spanIdentifier]. destruct (identifierChar c); [|done].
  rewrite IH. by destruct (spanIdentifier s).
Qed.

Lemma cutIdentifier_more s i r x : cutIdentifier s = Ret (i, r) → cutIdentifier (s +:+ String ")" x) = Ret (i, r +:+ String ")" x).
Proof.
  unfold cutIdentifier. rewrite span_more. destruct (spanIdentifier s) as [i' r']. cbn [fst snd].
  destruct (MaxLabelLength <? String.length i')%nat, (String.length i' =? 0)%nat; intros [=]. by subst.
Qed.

Lemma splitAtByte_more q s v r x : splitAtByte q s = Some (v, r) → splitAtByte q (s +:+ x) = Some (v, r +:+ x).
Proof.
  revert v. induction s as [|c s IH]; intros v; [done|]. rewrite string_app_cons. cbn [splitAtByte].
  destruct (decide (c = q)); [by intros [= <- <-]|]. destruct (splitAtByte q s) as [[v' r']|]; [|done]. intros [= <- <-]. by rewrite (IH v').
Qed.

Lemma cutPrefixCheckBreak_more s p x :
  lacks ")" p = true →
  cutPrefixCheckBreak (s +:+ String ")" x) p = (λ r, r +:+ String ")" x) <$> cutPrefixCheckBreak s p.
Proof.
  intros Hp. unfold cutPrefixCheckBreak. destruct (CutPrefix s p) as [r|] eqn:Hc.
  - rewrite (CutPrefix_more _ _ _ _ Hc), boundary_more. by destruct (isWordBoundary r).
  - by rewrite CutPrefix_none.
Qed.

Lemma cutWords_more ws : ∀ s x, Forall (λ w, lacks ")" w = true) ws →
  cutWords (s +:+ String ")" x) ws = (λ r, r +:+ String ")" x) <$> cutWords s ws.
Proof.
  induction ws as [|w ws IH]; intros s x Hws; [done|]. apply list.Forall_cons in Hws as [Hw Hws]. cbn [cutWords].
  destruct (CutPrefix s w) as [r|] eqn:Hc; [|by rewrite CutPrefix_none]. by rewrite (CutPrefix_more _ _ _ _ Hc), trim_more, IH.
Qed.

Lemma cutMultiWord_more s ws x : Forall (λ w, lacks ")" w = true) ws →
  cutMultiWordPrefixCheckBreak (s +:+ String ")" x) ws = (λ r, r +:+ String ")" x) <$> cutMultiWordPrefixCheckBreak s ws.
Proof.
  intros Hws. unfold cutMultiWordPrefixCheckBreak. rewrite cutWords_more by done. destruct (cutWords s ws) as [r|]; [|done]. cbn [fmap option_fmap option_map].
  rewrite boundary_more. by destruct (isWordBoundary r).
Qed.

Lemma scanOperator_more ts s ts' r x : scanOperator ts s = Ret (ts', r) → scanOperator ts (s +:+ String ")" x) = Ret (ts', r +:+ String ")" x).
Proof.
  unfold scanOperator. rewrite !cutPrefixCheckBreak_more, !cutMultiWord_more by (done || by repeat constructor).
  destruct (cutPrefixCheckBreak s "contains"); cbn [fmap option_fmap option_map]; [by intros [= <- <-]|].
  destruct (cutMultiWordPrefixCheckBreak s ["starts"; "with"]); cbn [fmap option_fmap option_map]; [by intros [= <- <-]|].
  destruct (cutMultiWordPrefixCheckBreak s ["ends"; "with"]); cbn [fmap option_fmap option_map]; [by intros [= <- <-]|].
  destruct (cutMultiWordPrefixCheckBreak s ["not"; "in"]); cbn [fmap option_fmap option_map]; [by intros [= <- <-]|].
  destruct (cutPrefixCheckBreak s "in"); cbn [fmap option_fmap option_map]; [by intros [= <- <-]|done].
Qed.

Lemma scanTerm_more ts s ts' r x : scanTerm ts s = Ret (ts', r) → scanTerm ts (s +:+ String ")" x) = Ret (ts', r +:+ String ")" x).
Proof.
  unfold scanTerm. destruct (CutPrefix s "has(") as [s1|] eqn:H1.
  { rewrite (CutPrefix_more _ _ _ _ H1), trim_more. intros ([i s2]&Hi&Hr)%obind_Ret. rewrite (cutIdentifier_more _ _ _ _ Hi). cbn [obind].
    rewrite trim_more. destruct (CutPrefix (trimWhitespace s2) ")") as [s3|] eqn:H3; [|done]. injection Hr as <- <-. by rewrite (CutPrefix_more _ _ _ _ H3). }
  rewrite CutPrefix_none by done. destruct (CutPrefix s "all(") as [s1|] eqn:H2.
  { rewrite (CutPrefix_more _ _ _ _ H2), trim_more. destruct (CutPrefix (trimWhitespace s1) ")") as [s3|] eqn:H3; [|done].
    intros [= <- <-]. by rewrite (CutPrefix_more _ _ _ _ H3). }
  rewrite CutPrefix_none by done. destruct (CutPrefix s "global(") as [s1|] eqn:H4.
  { rewrite (CutPrefix_more _ _ _ _ H4), trim_more. destruct (CutPrefix (trimWhitespace s1) ")") as [s3|] eqn:H3; [|done].
    intros [= <- <-]. by rewrite (CutPrefix_more _ _ _ _ H3). }
  rewrite CutPrefix_none by done. intros ([i s2]&Hi&[= <- <-])%obind_Ret. by rewrite (cutIdentifier_more _ _ _ _ Hi).
Qed.

Lemma scanStringLiteral_more q ts s ts' r x : scanStringLiteral q ts s = Ret (ts', r) → scanStringLiteral q ts (s +:+ x) = Ret (ts', r +:+ x).
Proof.
  unfold scanStringLiteral. destruct (splitAtByte q s) as [[v r']|] eqn:Hs; [|done]. intros [= <- <-]. by rewrite (splitAtByte_more _ _ _ _ _ Hs).
Qed.

Lemma scanToken_more ts c s ts' r x :
  scanToken ts c s = Ret (ts', r) → scanToken ts c (s +:+ String ")" x) = Ret (ts', r +:+ String ")" x).
Proof.
  unfold scanToken. rewrite <- (string_app_cons c s).
  repeat match goal with
    | |- context [decide (c = ?d)] => destruct (decide (c = d)); [try (by intros [= <- <-]); try apply scanStringLiteral_more|]
    end.
  - destruct (CutPrefix (String c s) "==") as [s'|] eqn:H; [|done]. intros [= <- <-]. by rewrite (CutPrefix_more _ _ _ _ H).
  - destruct (CutPrefix (String c s) "!=") as [s'|] eqn:H.
    + intros [= <- <-]. by rewrite (CutPrefix_more _ _ _ _ H).
    + intros [= <- <-]. by rewrite CutPrefix_none.
  - destruct (CutPrefix (String c s) "&&") as [s'|] eqn:H; [|done]. intros [= <- <-]. by rewrite (CutPrefix_more _ _ _ _ H).
  - destruct (CutPrefix (String c s) "||") as [s'|] eqn:H; [|done]. intros [= <- <-]. by rewrite (CutPrefix_more _ _ _ _ H).
  - destruct (decide (lastTokKind ts = TokLabel)); [apply scanOperator_more|apply scanTerm_more].
Qed.

(** The tokens of a selector that a closing parenthesis follows. *)
Lemma AppendTokens_more s : ∀ ts ts' x,
  AppendTokens ts s = Ret (ts' ++ [tok TokEOF]) →
  AppendTokens ts (s +:+ String ")" x) = AppendTokens (ts' ++ [tok TokRParen]) x.
Proof.
  induction s as [s IH] using (well_founded_induction (well_founded_ltof _ String.length)). unfold ltof in IH.
  intros ts ts' x. rewrite (AppendTokens_unfold ts s), (AppendTokens_unfold ts (s +:+ _)), trim_more.
  pose proof (trimWhitespace_length s) as Hl. destruct (trimWhitespace s) as [|c s'].
  { intros [= Heq]. apply app_inj_tail in Heq as [-> _]. done. }
  rewrite string_app_cons. pose proof (scanToken_ok ts c s') as Hok. destruct (scanToken ts c s') as [[ts1 s1]| | |] eqn:Hs; try done.
  rewrite (scanToken_more _ _ _ _ _ _ Hs). cbn [obind]. destruct Hok as [_ Hlt]. apply IH. cbn in *. lia.
Qed.
End tokens.

(** ** Parsing *)
Section parser.
Implicit Types (l ts rest : list Token) (ns : list Node) (fuel n : nat).

Abbreviation closed l rest := (l ++ tok TokRParen :: rest).
Abbreviation ended l := (l ++ [tok TokEOF]).

(** The call [m] on tokens that end leaves the end; the call [m'], on the same tokens with more
    after a closing parenthesis, returns the same and leaves the parenthesis and the rest. *)
Definition stops {A} rest (m m' : outcome ParseError (A * list Token)) : Prop :=
  ∀ a rem, m = Ret (a, rem) → ∃ l, rem = ended l ∧ m' = Ret (a, closed l rest).

Lemma stops_bind {A B} rest (m m' : outcome ParseError (A * list Token)) (k k' : A → list Token → outcome ParseError (B * list Token)) :
  stops rest m m' → (∀ a l, stops rest (k a (ended l)) (k' a (closed l rest))) →
  stops rest (let! (a, rem) := m in k a rem) (let! (a, rem) := m' in k' a rem).
Proof.
  intros Hm Hk b rem ([a r]&Ha&Hb)%obind_Ret. destruct (Hm a r Ha) as (l&->&->). cbn [obind]. by apply Hk.
Qed.

Lemma stops_ret {A} rest (a : A) l : stops rest (Ret (a, ended l)) (Ret (a, closed l rest)).
Proof. intros b rem [= <- <-]. by exists l. Qed.

Lemma stops_fail {A} rest e (m : outcome ParseError (A * list Token)) : stops rest (Fail e) m.
Proof. by intros ??. Qed.

Lemma collapseNots_stops rest l : ∀ b, stops rest (collapseNots b (ended l)) (collapseNots b (closed l rest)).
Proof.
  induction l as [|t l IH]; intros b; cbn [collapseNots app]; [apply (stops_ret rest b [])|].
  destruct (decide (tok_Kind t = TokNot)); [apply IH|apply (stops_ret rest b (t :: l))].
Qed.

Lemma parseSetValues_stops rest n : ∀ l vs, length l ≤ n → stops rest (parseSetValues vs (ended l)) (parseSetValues vs (closed l rest)).
Proof.
  induction n as [|n IH]; intros [|t [|t2 l]] vs Hl; cbn [parseSetValues app length] in *; try lia; try apply (stops_ret rest vs []).
  - destruct (decide _); [apply (stops_ret rest _ [])|apply (stops_ret rest _ [t])].
  - destruct (decide _); [|apply (stops_ret rest _ (t :: t2 :: l))].
    destruct (decide _); [apply IH; lia|apply (stops_ret rest _ (t2 :: l))].
Qed.

Lemma parseStringOp_stops rest mk t2 l : stops rest (parseStringOp false mk t2 (ended l)) (parseStringOp false mk t2 (closed l rest)).
Proof. unfold parseStringOp. destruct (decide _); [apply stops_ret|apply stops_fail]. Qed.

Lemma parseSetOp_stops rest mk t2 l : stops rest (parseSetOp false mk t2 (ended l)) (parseSetOp false mk t2 (closed l rest)).
Proof.
  unfold parseSetOp. destruct (decide _); [|apply stops_fail].
  apply (stops_bind rest _ _
    (λ vs rem, match rem with [] => Panic | t :: rem' => if decide (tok_Kind t = TokRBrace) then Ret (nodeUnless false (mk (StringSet_of vs)), rem') else Fail ErrExpectedRBrace end)
    (λ vs rem, match rem with [] => Panic | t :: rem' => if decide (tok_Kind t = TokRBrace) then Ret (nodeUnless false (mk (StringSet_of vs)), rem') else Fail ErrExpectedRBrace end)).
  { by apply (parseSetValues_stops rest (length l)). }
  intros vs [|t l']; cbn [app]; [apply stops_fail|]. destruct (decide _); [apply stops_ret|apply stops_fail].
Qed.

Lemma parseLabelOp_stops rest label l : stops rest (parseLabelOp false label (ended l)) (parseLabelOp false label (closed l rest)).
Proof.
  destruct l as [|t1 [|t2 l]]; cbn [app parseLabelOp]; [apply stops_fail| |].
  - destruct (tok_Kind t1); apply stops_fail.
  - destruct (tok_Kind t1); try apply stops_fail; first [apply parseStringOp_stops|apply parseSetOp_stops].
Qed.

(** [parseOperation] after the leading negations. *)
Definition operand fuel (negated : bool) ts : parsed :=
  match ts with
  | [] => Panic
  | t :: rest =>
      let! (sel, remTokens) :=
        match tok_Kind t with
        | TokHas => Ret (Some (HasNode (tok_Value t)), rest)
        | TokAll => Ret (Some AllNode, rest)
        | TokGlobal => Ret (Some GlobalNode, rest)
        | TokLabel => parseLabelOp false (tok_Value t) rest
        | TokLParen =>
            let! (sel, remTokens) := parseOrExpression fuel rest false in
            match remTokens with
            | t' :: remTokens' => if decide (tok_Kind t' = TokRParen) then Ret (sel, remTokens') else Fail ErrExpectedRParen
            | [] => Fail ErrExpectedRParen
            end
        | _ => Fail (ErrUnexpectedToken t)
        end in
      Ret (if negated then NotNode <$> sel else sel, remTokens)
  end.

Lemma parseOperation_operand fuel ts : ts ≠ [] → parseOperation (S fuel) ts false = let! (negated, ts') := collapseNots false ts in operand fuel negated ts'.
Proof. by destruct ts. Qed.

Lemma operand_stops rest fuel fuel' :
  (∀ l, stops rest (parseOrExpression fuel (ended l) false) (parseOrExpression fuel' (closed l rest) false)) →
  ∀ negated l, stops rest (operand fuel negated (ended l)) (operand fuel' negated (closed l rest)).
Proof.
  intros Hor negated [|t l]; cbn [operand app]; [apply stops_fail|].
  apply (stops_bind rest _ _ (λ sel rem, Ret (if negated then NotNode <$> sel else sel, rem))
    (λ sel rem, Ret (if negated then NotNode <$> sel else sel, rem))); [|intros; apply stops_ret].
  destruct (tok_Kind t); try apply stops_fail; try apply stops_ret; [apply parseLabelOp_stops|].
  set (k := λ (sel : option Node) rem, match rem with
     | t' :: rem' => if decide (tok_Kind t' = TokRParen) then Ret (sel, rem') else Fail ErrExpectedRParen
     | [] => Fail ErrExpectedRParen end).
  apply (stops_bind rest _ _ k k); [done|]. intros sel [|t' l']; cbn; [apply stops_fail|].
  destruct (decide (tok_Kind t' = TokRParen)); [apply stops_ret|apply stops_fail].
Qed.

Lemma parse_functions_stop rest fuel : ∀ fuel', fuel ≤ fuel' →
  (∀ l, stops rest (parseOrExpression fuel (ended l) false) (parseOrExpression fuel' (closed l rest) false)) ∧
  (∀ ns l, stops rest (parseOrLoop fuel ns (ended l) false) (parseOrLoop fuel' ns (closed l rest) false)) ∧
  (∀ l, stops rest (parseAndExpression fuel (ended l) false) (parseAndExpression fuel' (closed l rest) false)) ∧
  (∀ ns l, stops rest (parseAndLoop fuel ns (ended l) false) (parseAndLoop fuel' ns (closed l rest) false)) ∧
  (∀ l, stops rest (parseOperation fuel (ended l) false) (parseOperation fuel' (closed l rest) false)).
Proof.
  induction fuel as [|fuel IH]; intros [|fuel'] Hf; [by split_and!|by split_and!|lia|].
  destruct (IH fuel' ltac:(lia)) as (IHor&IHorl&IHand&IHandl&IHop). split_and!.
  - intros l. cbn [parseOrExpression]. by apply (stops_bind rest _ _ (λ sel rem, parseOrLoop fuel (appendNode [] sel) rem false)).
  - intros ns [|t l]; cbn [parseOrLoop app]; [apply (stops_ret rest _ [])|]. destruct (decide (tok_Kind t = TokOr)); [|apply (stops_ret rest _ (t :: l))].
    by apply (stops_bind rest _ _ (λ sel rem, parseOrLoop fuel (appendNode ns sel) rem false)).
  - intros l. cbn [parseAndExpression]. by apply (stops_bind rest _ _ (λ sel rem, parseAndLoop fuel (appendNode [] sel) rem false)).
  - intros ns [|t l]; cbn [parseAndLoop app]; [apply (stops_ret rest _ [])|]. destruct (decide (tok_Kind t = TokAnd)); [|apply (stops_ret rest _ (t :: l))].
    by apply (stops_bind rest _ _ (λ sel rem, parseAndLoop fuel (appendNode ns sel) rem false)).
  - intros l. rewrite !parseOperation_operand by (by destruct l). apply stops_bind; [apply collapseNots_stops|by apply operand_stops].
Qed.
End parser.

(** ** Tokens already scanned do not matter, unless the last one is a label *)
Section prefix.
Implicit Types (s r : string) (ts pre : list Token).

Ltac shift := intros [= <- <-]; by rewrite app_assoc.

Lemma scanOperator_shift pre ts s ts' r : scanOperator ts s = Ret (ts', r) → scanOperator (pre ++ ts) s = Ret (pre ++ ts', r).
Proof.
  unfold scanOperator.
  destruct (cutPrefixCheckBreak s "contains"); [shift|]. destruct (cutMultiWordPrefixCheckBreak s ["starts"; "with"]); [shift|].
  destruct (cutMultiWordPrefixCheckBreak s ["ends"; "with"]); [shift|]. destruct (cutMultiWordPrefixCheckBreak s ["not"; "in"]); [shift|].
  destruct (cutPrefixCheckBreak s "in"); [shift|done].
Qed.

Lemma scanTerm_shift pre ts s ts' r : scanTerm ts s = Ret (ts', r) → scanTerm (pre ++ ts) s = Ret (pre ++ ts', r).
Proof.
  unfold scanTerm. destruct (CutPrefix s "has(") as [s1|].
  { intros ([i s2]&->&Hr)%obind_Ret. cbn [obind]. destruct (CutPrefix _ ")"); [|done]. revert Hr. shift. }
  destruct (CutPrefix s "all("); [destruct (CutPrefix _ ")"); [shift|done]|].
  destruct (CutPrefix s "global("); [destruct (CutPrefix _ ")"); [shift|done]|].
  intros ([i s2]&->&Hr)%obind_Ret. cbn [obind]. revert Hr. shift.
Qed.

Lemma scanToken_shift pre ts c s ts' r :
  (lastTokKind (pre ++ ts) = TokLabel ↔ lastTokKind ts = TokLabel) →
  scanToken ts c s = Ret (ts', r) → scanToken (pre ++ ts) c s = Ret (pre ++ ts', r).
Proof.
  intros Hl. unfold scanToken, scanStringLiteral.
  repeat match goal with |- context [decide (c = ?d)] => destruct (decide (c = d)); [try shift|] end.
  - destruct (splitAtByte _ _) as [[v r']|]; [shift|done].
  - destruct (splitAtByte _ _) as [[v r']|]; [shift|done].
  - destruct (CutPrefix _ "=="); [shift|done].
  - destruct (CutPrefix _ "!="); shift.
  - destruct (CutPrefix _ "&&"); [shift|done].
  - destruct (CutPrefix _ "||"); [shift|done].
  - destruct (decide (lastTokKind ts = TokLabel)) as [H|H].
    + rewrite decide_True by tauto. apply scanOperator_shift.
    + rewrite decide_False by tauto. apply scanTerm_shift.
Qed.

Lemma lastTokKind_shift pre ts t : lastTokKind (pre ++ ts ++ [t]) = lastTokKind (ts ++ [t]).
Proof. by rewrite app_assoc, !lastTokKind_app. Qed.

Lemma AppendTokens_shift s : ∀ pre ts ts',
  (lastTokKind (pre ++ ts) = TokLabel ↔ lastTokKind ts = TokLabel) →
  AppendTokens ts s = Ret ts' → AppendTokens (pre ++ ts) s = Ret (pre ++ ts').
Proof.
  induction s as [s IH] using (well_founded_induction (well_founded_ltof _ String.length)). unfold ltof in IH.
  intros pre ts ts' Hl. rewrite (AppendTokens_unfold ts s), (AppendTokens_unfold (pre ++ ts) s).
  pose proof (trimWhitespace_length s) as Hlen. destruct (trimWhitespace s) as [|c s'].
  { intros [= <-]. by rewrite app_assoc. }
  pose proof (scanToken_ok ts c s') as Hok. destruct (scanToken ts c s') as [[ts1 s1]| | |] eqn:Hs; try done.
  rewrite (scanToken_shift pre _ _ _ _ _ Hl Hs). cbn [obind]. destruct Hok as [(t&->&_) Hlt]. apply IH; [cbn in *; lia|].
  by rewrite lastTokKind_shift.
Qed.

(** Between an opening and a closing parenthesis. *)
Lemma lex_between pre s l x :
  lastTokKind pre ≠ TokLabel → Tokenize s = Ret (l ++ [tok TokEOF]) →
  AppendTokens pre (s +:+ String ")" x) = AppendTokens (pre ++ l ++ [tok TokRParen]) x.
Proof.
  intros Hpre Hs. rewrite app_assoc. apply AppendTokens_more. rewrite <- app_assoc, <- (app_nil_r pre) at 1.
  apply AppendTokens_shift; [|done]. by rewrite app_nil_r.
Qed.
End prefix.

(** ** A selector that is not blank, and a combination of two *)
Definition blank (s : string) : bool := bool_decide (trimWhitespace s = "").

Lemma parse_not_blank s node :
  parseRootNode s false = Ret (Some node) → blank s = false →
  ∃ l, Tokenize s = Ret (l ++ [tok TokEOF]) ∧ parseOrExpression (parseFuel (l ++ [tok TokEOF])) (l ++ [tok TokEOF]) false = Ret (Some node, [tok TokEOF]).
Proof.
  unfold parseRootNode. intros Hp Hb%bool_decide_eq_false. destruct (Tokenize s) as [ts| | |] eqn:Ht; try done.
  pose proof (Tokenize_wf _ _ Ht) as (l&->&Hl). destruct l as [|t l].
  { unfold Tokenize in Ht. rewrite AppendTokens_unfold in Ht. destruct (trimWhitespace s) as [|c s']; [done|].
    apply obind_Ret in Ht as ([ts1 s1]&Hs&Ht). pose proof (scanToken_ok [] c s') as Hok. rewrite Hs in Hok. destruct Hok as [(t&->&_) _].
    pose proof (AppendTokensFuel_total (S (String.length s1)) ([] ++ [t]) s1 ltac:(lia)) as Htot. unfold AppendTokens in Ht. rewrite Ht in Htot.
    destruct Htot as (ts'&Heq&_). apply (f_equal length) in Heq. rewrite !length_app in Heq. cbn in Heq. lia. }
  cbn [index app obind lookup list_lookup] in Hp. apply list.Forall_cons in Hl as [[Hk _] _]. rewrite decide_False in Hp by done.
  exists (t :: l). split; [done|]. apply obind_Ret in Hp as ([sel rem]&Hor&Hrem). cbn [app]. rewrite Hor.
  destruct (parse_functions_stop [] (parseFuel (t :: l ++ [tok TokEOF])) _ (le_n _)) as (Hstop&_).
  destruct (Hstop (t :: l) sel rem Hor) as (l'&->&_). destruct (decide _) as [H1|]; [|done].
  rewrite length_app in H1. cbn in H1. destruct l'; [|cbn in H1; lia]. by injection Hrem as ->.
Qed.

Section combined.
Implicit Types (l rest : list Token) (node : Node) (fuel : nat).

(** [l] are the tokens of a selector with the root [node]. *)
Definition tokens_of l node : Prop :=
  parseOrExpression (parseFuel (l ++ [tok TokEOF])) (l ++ [tok TokEOF]) false = Ret (Some node, [tok TokEOF]).

Lemma parse_in_parens l node rest fuel :
  tokens_of l node → parseFuel (l ++ [tok TokEOF]) ≤ fuel →
  parseOrExpression fuel (l ++ tok TokRParen :: rest) false = Ret (Some node, tok TokRParen :: rest).
Proof.
  intros Hl Hf. destruct (parse_functions_stop rest _ fuel Hf) as (Hstop&_). destruct (Hstop l _ _ Hl) as (l'&Heq&->).
  destruct l'; [done|]. apply (f_equal length) in Heq. cbn in Heq. rewrite length_app in Heq. cbn in Heq. lia.
Qed.

Lemma parse_parens (negated : bool) l node rest fuel :
  tokens_of l node → parseFuel (l ++ [tok TokEOF]) ≤ fuel →
  parseOperation (S fuel) ((if negated then [tok TokNot] else []) ++ tok TokLParen :: l ++ tok TokRParen :: rest) false =
    Ret (Some (if negated then NotNode node else node), rest).
Proof.
  intros Hl Hf. rewrite parseOperation_operand by (by destruct negated).
  destruct negated; cbn [app collapseNots tok_Kind tok negb]; rewrite ?decide_True, ?decide_False by done; cbn [obind operand tok_Kind tok];
    rewrite (parse_in_parens l node rest fuel Hl Hf); cbn [obind tok_Kind tok]; by rewrite decide_True.
Qed.

(** An expression of one operand, before a token that is neither [&&] nor [||]. *)
Lemma parse_one_operand l node t rest fuel :
  parseOperation fuel l false = Ret (Some node, t :: rest) → tok_Kind t ≠ TokAnd → tok_Kind t ≠ TokOr → 1 ≤ fuel →
  parseOrExpression (S (S fuel)) l false = Ret (Some node, t :: rest).
Proof.
  intros Hop Ha Ho Hf. cbn [parseOrExpression parseAndExpression]. rewrite Hop. cbn [obind]. destruct fuel as [|fuel]; [lia|]. cbn [parseAndLoop].
  rewrite decide_False by done. cbn [obind]. cbn [parseOrLoop]. by rewrite decide_False.
Qed.

Lemma parse_and_not lp P ln N fuel :
  tokens_of lp P → tokens_of ln N → 4 * (length lp + length ln + 6) ≤ fuel →
  parseOrExpression (S fuel) (tok TokLParen :: lp ++ tok TokRParen :: tok TokAnd :: tok TokLParen :: tok TokNot :: tok TokLParen :: ln ++ [tok TokRParen; tok TokRParen; tok TokEOF]) false =
    Ret (Some (AndNode [P; NotNode N]), [tok TokEOF]).
Proof.
  intros Hp Hn Hf. assert (∃ f, fuel = S (S (S (S (S (S (S f))))))) as [f ->] by (exists (fuel - 7); lia).
  assert (Hfuel : ∀ l, length l ≤ length lp + length ln → parseFuel (l ++ [tok TokEOF]) ≤ S f).
  { intros l Hlen. unfold parseFuel. rewrite length_app. cbn [length]. lia. }
  cbn [parseOrExpression parseAndExpression].
  assert (Hpos : ∀ rest, parseOperation (S (S (S (S (S (S f)))))) (tok TokLParen :: lp ++ tok TokRParen :: rest) false = Ret (Some P, rest)).
  { intros rest. apply (parse_parens false lp P rest); [done|]. specialize (Hfuel lp). lia. }
  rewrite Hpos. cbn [obind appendNode app].
  cbn [parseAndLoop tok_Kind tok]. rewrite decide_True by done.
  assert (Hin : parseOrExpression (S (S (S (S f)))) (tok TokNot :: tok TokLParen :: ln ++ [tok TokRParen; tok TokRParen; tok TokEOF]) false
    = Ret (Some (NotNode N), [tok TokRParen; tok TokEOF])).
  { apply parse_one_operand; [|done|done|lia]. apply (parse_parens true ln N); [done|]. specialize (Hfuel ln). lia. }
  rewrite parseOperation_operand by done. cbn [collapseNots tok_Kind tok]. rewrite decide_False by done. cbn [obind operand tok_Kind tok].
  rewrite Hin. cbn [obind tok_Kind tok]. rewrite decide_True by done. cbn [obind appendNode app parseAndLoop tok_Kind tok].
  rewrite decide_False by done. cbn [obind parseOrLoop tok_Kind tok finishNodes appendNode app]. by rewrite decide_False.
Qed.

(** The text that the rule scanner makes of a positive and a negated selector. *)
Lemma parseRootNode_combined (p n : string) P N :
  parseRootNode p false = Ret (Some P) → parseRootNode n false = Ret (Some N) → blank p = false → blank n = false →
  parseRootNode ("(" +:+ p +:+ ") && (!(" +:+ n +:+ "))") false = Ret (Some (AndNode [P; NotNode N])).
Proof.
  intros HP HN Hbp Hbn. destruct (parse_not_blank p P HP Hbp) as (lp&Htp&Hlp). destruct (parse_not_blank n N HN Hbn) as (ln&Htn&Hln).
  set (ts := tok TokLParen :: lp ++ tok TokRParen :: tok TokAnd :: tok TokLParen :: tok TokNot :: tok TokLParen :: ln ++ [tok TokRParen; tok TokRParen; tok TokEOF]).
  assert (Ht : Tokenize ("(" +:+ p +:+ ") && (!(" +:+ n +:+ "))") = Ret ts).
  { unfold Tokenize. rewrite lex_lparen. change (") && (!(" +:+ n +:+ "))") with (String ")" (" && (!(" +:+ n +:+ "))")).
    rewrite (lex_between _ p lp) by done. change (" && (!(" +:+ n +:+ "))") with (" " +:+ ("&&" +:+ (" " +:+ ("(" +:+ ("!" +:+ ("(" +:+ (n +:+ "))"))))))).
    rewrite lex_space, lex_and, lex_space, lex_lparen, lex_not, lex_lparen by done. change "))" with (String ")" ")").
    rewrite (lex_between _ n ln) by (by rewrite ?lastTokKind_app || done). rewrite (lex_rparen _ ""), AppendTokens_unfold. cbn [trimWhitespace]. f_equal. unfold ts.
    rewrite <- !app_assoc. done. }
  unfold parseRootNode. rewrite Ht. cbn [index lookup list_lookup ts obind]. rewrite decide_False by done.
  assert (Hlen : length ts = length lp + length ln + 9) by (unfold ts; cbn [length]; rewrite length_app; cbn [length]; rewrite length_app; cbn [length]; lia).
  replace (parseFuel _) with (S (4 * length ts + 3)) by (unfold parseFuel; fold ts; lia).
  rewrite (parse_and_not lp P ln N _ Hlp Hln) by lia.
  cbn [obind length]. by rewrite decide_True.
Qed.

(** [Parse] of the combination, and what it evaluates to. *)
Lemma Parse_combined MakeUniqueID (p n : string) sp sn :
  Parse MakeUniqueID p = Ret (Some sp) → Parse MakeUniqueID n = Ret (Some sn) → blank p = false → blank n = false →
  ∃ sel, Parse MakeUniqueID ("(" +:+ p +:+ ") && (!(" +:+ n +:+ "))") = Ret (Some sel) ∧ root sel = AndNode [root sp; NotNode (root sn)].
Proof.
  intros (HP&Hwp&_&_)%Parse_Ret (HN&Hwn&_&_)%Parse_Ret Hbp Hbn. unfold Parse, parseRoot.
  rewrite (parseRootNode_combined _ _ _ _ HP HN Hbp Hbn). cbn [obind]. rewrite updateFields_print by (cbn; split_and!; lia || done).
  by eexists.
Qed.

Lemma Evaluate_combined `{Labels L} P N (l : L) : Evaluate (AndNode [P; NotNode N]) l = Evaluate P l && negb (Evaluate N l).
Proof. cbn. by rewrite andb_true_r. Qed.
End combined.
