(* ===== verification/IPNet.v ===== *)
(** * Addresses and CIDRs: [libcalico-go/lib/net] and [libcalico-go/lib/ipam/addr_filter.go]

    An [IP] is its family and its value as an unsigned integer (the bytes of
    [net.IP.To4] or [net.IP.To16], most significant first).  An [IPNet] is an
    address and a prefix length; the address need not be masked.  [Contains] is
    the standard library's [net.IPNet.Contains].  The last section shows that the
    counting argument of [MatchesWholeCIDR] decides whether a filter covers every
    address of a CIDR. *)
From S2P Require Import Prelude.
From stdpp Require Import base list numbers sorting.
From stdpp Require Import options.
#[local] Open Scope Z_scope.

Record IP := MkIP { ip_v6 : bool; ip_int : Z }.

#[global] Instance IP_eq_dec : EqDecision IP.
Proof. solve_decision. Defined.

Definition bitLen (v6 : bool) : Z := if v6 then 128 else 32.

Definition ip_wf (ip : IP) : Prop := 0 ≤ ip_int ip < 2 ^ bitLen (ip_v6 ip).

(** [ones, bits := Mask.Size()]. *)
Record IPNet := MkIPNet { net_IP : IP; net_ones : Z }.

#[global] Instance IPNet_eq_dec : EqDecision IPNet.
Proof. solve_decision. Defined.

Definition net_bits (n : IPNet) : Z := bitLen (ip_v6 (net_IP n)).
Definition net_hostbits (n : IPNet) : Z := net_bits n - net_ones n.

Definition net_wf (n : IPNet) : Prop := ip_wf (net_IP n) ∧ 0 ≤ net_ones n ≤ net_bits n.

(** [net.IPNet.Contains]: same family, same network number. *)
Definition Contains (n : IPNet) (ip : IP) : bool :=
  bool_decide (ip_v6 ip = ip_v6 (net_IP n)) &&
  (Z.shiftr (ip_int ip) (net_hostbits n) =? Z.shiftr (ip_int (net_IP n)) (net_hostbits n)).

Definition IPToBigInt (ip : IP) : Z := ip_int ip.

(** [BigIntToIP]: [FillBytes] writes the absolute value and panics when it does
    not fit. *)
Definition BigIntToIP (ipInt : Z) (v6 : bool) : option IP :=
  if Z.abs ipInt <? 2 ^ bitLen v6 then Some (MkIP v6 (Z.abs ipInt)) else None.

Definition IncrementIP (ip : IP) (increment : Z) : option IP :=
  BigIntToIP (IPToBigInt ip + increment) (ip_v6 ip).

Definition NthIP (n : IPNet) (k : Z) : option IP := IncrementIP (net_IP n) k.

Definition NumAddrs (n : IPNet) : Z := Z.shiftl 1 (net_hostbits n).

Definition IsNetOverlap (i n : IPNet) : bool := Contains n (net_IP i) || Contains i (net_IP n).

Definition Covers (i n : IPNet) : bool :=
  if negb (Contains i (net_IP n)) then false
  else net_ones i <=? net_ones n.

(** ** The address filters of IPAM *)
Class addrFilter (F : Type) := {
  MatchesIP : F → IP → bool;
  MatchesWholeCIDR : F → IPNet → bool;
  MatchesSome : F → IPNet → bool
}.

Inductive nilAddrFilter := NilAddrFilter.

#[global] Instance nilAddrFilter_addrFilter : addrFilter nilAddrFilter := {
  MatchesIP _ _ := false;
  MatchesWholeCIDR _ _ := false;
  MatchesSome _ _ := false
}.

Abbreviation cidrSliceFilter := (list IPNet).

Definition cidr_MatchesSome (c : cidrSliceFilter) (ip : IPNet) : bool :=
  existsb (λ cidr, IsNetOverlap cidr ip) c.

Definition cidr_MatchesIP (c : cidrSliceFilter) (ip : IP) : bool :=
  existsb (λ cidr, Contains cidr ip) c.

Definition smallerOrEqual (a b : IPNet) : Prop := NumAddrs a ≤ NumAddrs b.

#[global] Instance smallerOrEqual_dec : RelDecision smallerOrEqual.
Proof. intros a b. unfold smallerOrEqual. apply _. Defined.

(** The loop labelled [outer]: keep a CIDR unless a later, larger one contains it. *)
Fixpoint dropCovered (c : cidrSliceFilter) : cidrSliceFilter :=
  match c with
  | [] => []
  | cidr :: larger =>
      if existsb (λ l, Contains l (net_IP cidr)) larger then dropCovered larger
      else cidr :: dropCovered larger
  end.

(** [sort.SliceStable] by size, then the loop; merge sort is stable. *)
Definition filterOutDuplicates (c : cidrSliceFilter) : cidrSliceFilter :=
  dropCovered (merge_sort smallerOrEqual c).

Definition sumNumAddrs (c : cidrSliceFilter) : Z := foldr (λ cidr num, NumAddrs cidr + num) 0 c.

Definition filterDupesAndGetNumCoveredIPs (c : cidrSliceFilter) : cidrSliceFilter * Z :=
  let filtered := filterOutDuplicates c in (filtered, sumNumAddrs filtered).

Definition cidr_MatchesWholeCIDR (c : cidrSliceFilter) (candidateCIDR : IPNet) : bool :=
  if existsb (λ filterCIDR, Covers filterCIDR candidateCIDR) c then true
  else
    let overlapping := List.filter (λ filterCIDR, Contains candidateCIDR (net_IP filterCIDR)) c in
    match overlapping with
    | [] => false
    | _ => snd (filterDupesAndGetNumCoveredIPs overlapping) =? NumAddrs candidateCIDR
    end.

#[global] Instance cidrSliceFilter_addrFilter : addrFilter cidrSliceFilter := {
  MatchesIP := cidr_MatchesIP;
  MatchesWholeCIDR := cidr_MatchesWholeCIDR;
  MatchesSome := cidr_MatchesSome
}.

(** ** CIDRs as intervals *)
Section intervals.
Implicit Types (n m : IPNet) (ip : IP).

Definition net_first n : Z := Z.shiftl (Z.shiftr (ip_int (net_IP n)) (net_hostbits n)) (net_hostbits n).

Lemma bitLen_pos v6 : 0 < bitLen v6.
Proof. by destruct v6. Qed.

Lemma NumAddrs_pow n : net_wf n → NumAddrs n = 2 ^ net_hostbits n.
Proof.
  intros [_ Ho]. unfold NumAddrs. rewrite Z.shiftl_mul_pow2; unfold net_hostbits in *; lia.
Qed.

Lemma NumAddrs_pos n : net_wf n → 0 < NumAddrs n.
Proof.
  intros Hn. rewrite NumAddrs_pow by done. apply Z.pow_pos_nonneg; [lia|].
  destruct Hn as [_ ?]. unfold net_hostbits. lia.
Qed.

Lemma net_first_spec n :
  net_wf n → net_first n = NumAddrs n * (ip_int (net_IP n) / NumAddrs n).
Proof.
  intros Hn. rewrite NumAddrs_pow by done. destruct Hn as [_ Ho]. unfold net_first, net_hostbits in *.
  rewrite Z.shiftl_mul_pow2, Z.shiftr_div_pow2 by lia. lia.
Qed.

(** [Contains] is membership of the aligned interval of [NumAddrs] addresses. *)
Lemma Contains_interval n ip :
  net_wf n →
  Contains n ip = true ↔
  ip_v6 ip = ip_v6 (net_IP n) ∧ net_first n ≤ ip_int ip < net_first n + NumAddrs n.
Proof.
  intros Hn. unfold Contains. rewrite andb_true_iff, bool_decide_eq_true, Z.eqb_eq.
  rewrite net_first_spec by done. pose proof (NumAddrs_pos n Hn) as Hpos.
  rewrite NumAddrs_pow in * by done. destruct Hn as [_ Ho].
  unfold net_hostbits in *. rewrite !Z.shiftr_div_pow2 by lia.
  set (p := 2 ^ (net_bits n - net_ones n)) in *. clearbody p.
  set (x := ip_int ip). set (y := ip_int (net_IP n)).
  split; (intros [Hv H]; split; [done|]).
  - rewrite <-H. pose proof (Z.mul_div_le x p Hpos). pose proof (Z.mul_succ_div_gt x p Hpos). nia.
  - symmetry. apply (Z.div_unique x p (y / p) (x - p * (y / p))); lia.
Qed.

Lemma net_first_contained n : net_wf n → net_first n ≤ ip_int (net_IP n) < net_first n + NumAddrs n.
Proof.
  intros Hn. assert (Contains n (net_IP n) = true) as Hc.
  { unfold Contains. by rewrite bool_decide_true, Z.eqb_refl by done. }
  apply Contains_interval in Hc; [|done]. apply Hc.
Qed.

Lemma NumAddrs_divide n m : net_wf n → net_wf m → NumAddrs m ≤ NumAddrs n → (NumAddrs m | NumAddrs n).
Proof.
  intros Hn Hm Hle. rewrite !NumAddrs_pow in * by done.
  assert (0 ≤ net_hostbits n ∧ 0 ≤ net_hostbits m) as [? ?].
  { destruct Hn as [_ ?], Hm as [_ ?]. unfold net_hostbits. lia. }
  apply Z.pow_le_mono_r_iff in Hle; [|lia|lia].
  exists (2 ^ (net_hostbits n - net_hostbits m)). rewrite <-Z.pow_add_r by lia. f_equal. lia.
Qed.

(** Two CIDRs are nested or disjoint: if the larger contains the smaller's
    address, it contains all of it. *)
Lemma Contains_nested n m :
  net_wf n → net_wf m → NumAddrs m ≤ NumAddrs n → Contains n (net_IP m) = true →
  net_first n ≤ net_first m ∧ net_first m + NumAddrs m ≤ net_first n + NumAddrs n.
Proof.
  intros Hn Hm Hle Hc. apply Contains_interval in Hc as [_ Hc]; [|done].
  destruct (NumAddrs_divide n m Hn Hm Hle) as [k Hk].
  pose proof (NumAddrs_pos m Hm) as Hpos. rewrite net_first_spec in * by done.
  rewrite (net_first_spec m) by done.
  set (a := NumAddrs m) in *. set (b := NumAddrs n) in *. clearbody a b. subst b.
  set (x := ip_int (net_IP m)) in *. set (q := ip_int (net_IP n) / (k * a)) in *. clearbody q x.
  assert (k * q ≤ x / a).
  { apply Z.div_le_lower_bound; [done|]. lia. }
  assert (x / a < k * q + k).
  { apply Z.div_lt_upper_bound; [done|]. lia. }
  nia.
Qed.

Lemma Contains_trans n m ip :
  net_wf n → net_wf m → NumAddrs m ≤ NumAddrs n → Contains n (net_IP m) = true →
  Contains m ip = true → Contains n ip = true.
Proof.
  intros Hn Hm Hle Hc Hip. pose proof (Contains_nested n m Hn Hm Hle Hc).
  apply Contains_interval in Hip as [Hv Hip]; [|done].
  apply Contains_interval in Hc as [Hv' _]; [|done].
  apply Contains_interval; [done|]. split; [congruence|lia].
Qed.

Lemma Contains_flip n m ip :
  net_wf n → net_wf m → NumAddrs m ≤ NumAddrs n →
  Contains n ip = true → Contains m ip = true → Contains n (net_IP m) = true.
Proof.
  intros Hn Hm Hle H1 H2.
  destruct (NumAddrs_divide n m Hn Hm Hle) as [k Hk].
  pose proof (NumAddrs_pos m Hm) as Hpos. pose proof (net_first_contained m Hm) as Hm0.
  apply Contains_interval in H1 as [Hv1 H1]; [|done]. apply Contains_interval in H2 as [Hv2 H2]; [|done].
  apply Contains_interval; [done|]. split; [congruence|].
  rewrite ?(net_first_spec n Hn), ?(net_first_spec m Hm) in *.
  set (a := NumAddrs m) in *. set (b := NumAddrs n) in *. clearbody a b. subst b.
  set (y := ip_int (net_IP m)) in *. set (q := ip_int (net_IP n) / (k * a)) in *.
  set (z := y / a) in *. set (x := ip_int ip) in *. clearbody q z x y.
  assert (z < k * q + k) by nia. assert (k * q ≤ z) by nia. nia.
Qed.
End intervals.

(** ** Ordinals: stepping through the addresses of a CIDR *)
Lemma NthIP_Some n k ip :
  net_wf n → 0 ≤ k → NthIP n k = Some ip ↔
  ip = MkIP (ip_v6 (net_IP n)) (ip_int (net_IP n) + k) ∧ ip_int (net_IP n) + k < 2 ^ net_bits n.
Proof.
  intros [[Hlo Hhi] _] Hk. unfold NthIP, IncrementIP, BigIntToIP, IPToBigInt, net_bits in *.
  rewrite Z.abs_eq by lia. destruct (Z.ltb_spec (ip_int (net_IP n) + k) (2 ^ bitLen (ip_v6 (net_IP n)))).
  - split; [intros [= <-]; done|]. by intros [-> _].
  - split; [done|]. intros [_ ?]. lia.
Qed.

(** ** Counting addresses *)
Section counting.
Implicit Types (c : cidrSliceFilter).

Definition net_disjoint (n m : IPNet) : Prop :=
  net_first n + NumAddrs n ≤ net_first m ∨ net_first m + NumAddrs m ≤ net_first n.

Definition addresses (n : IPNet) : list Z := seqZ (net_first n) (NumAddrs n).

Lemma elem_of_addresses n x : x ∈ addresses n ↔ net_first n ≤ x < net_first n + NumAddrs n.
Proof. unfold addresses. rewrite elem_of_seqZ. lia. Qed.

Lemma sumNumAddrs_length c :
  Forall net_wf c → sumNumAddrs c = Z.of_nat (length (flat_map addresses c)).
Proof.
  induction 1 as [|n c Hn _ IH]; [done|]. simpl. rewrite length_app, IH. unfold addresses at 2.
  rewrite length_seqZ. pose proof (NumAddrs_pos n Hn). lia.
Qed.

Lemma NoDup_concat_addresses c :
  Forall net_wf c → ForallOrdPairs net_disjoint c → NoDup (flat_map addresses c).
Proof.
  intros Hwf Hd. induction Hd as [|n c Hn Hd IH]; simpl; [constructor|].
  apply Forall_cons in Hwf as [Hnwf Hwf]. apply NoDup_app. split_and!.
  - apply NoDup_seqZ.
  - intros x Hx Hx'. apply list_elem_of_In, in_flat_map in Hx' as (m & Hm & Hxm).
    apply list_elem_of_In in Hxm. rewrite elem_of_addresses in *.
    rewrite List.Forall_forall in Hn. destruct (Hn m Hm); lia.
  - by apply IH.
Qed.

(** Pairwise disjoint CIDRs inside an interval cover it iff their sizes add up. *)
Lemma disjoint_cover_iff c (a len : Z) :
  0 ≤ len → Forall net_wf c → ForallOrdPairs net_disjoint c →
  Forall (λ n, a ≤ net_first n ∧ net_first n + NumAddrs n ≤ a + len) c →
  sumNumAddrs c = len ↔
  (∀ x, a ≤ x < a + len → Exists (λ n, net_first n ≤ x < net_first n + NumAddrs n) c).
Proof.
  intros Hlen Hwf Hd Hin. rewrite sumNumAddrs_length by done.
  pose proof (NoDup_concat_addresses c Hwf Hd) as Hnd.
  set (l := flat_map addresses c) in *.
  assert (∀ x, x ∈ l ↔ Exists (λ n, net_first n ≤ x < net_first n + NumAddrs n) c) as Hl.
  { intros x. unfold l. rewrite list_elem_of_In, in_flat_map, Exists_exists.
    setoid_rewrite <-list_elem_of_In. by setoid_rewrite elem_of_addresses. }
  assert (∀ x, x ∈ l → x ∈ seqZ a len) as Hsub.
  { intros x Hx. apply Hl in Hx. apply elem_of_seqZ. apply Exists_exists in Hx as (n & Hn & Hx).
    rewrite Forall_forall in Hin. specialize (Hin n Hn). lia. }
  setoid_rewrite <-Hl. split.
  - intros Heq x Hx. assert (l ≡ₚ seqZ a len) as ->; [|apply elem_of_seqZ; lia].
    apply submseteq_length_Permutation; [by apply NoDup_submseteq|]. rewrite length_seqZ. lia.
  - intros Hcov. assert (l ≡ₚ seqZ a len) as ->; [|rewrite length_seqZ; lia].
    apply NoDup_Permutation; [done|apply NoDup_seqZ|]. intros x. split; [auto|].
    rewrite elem_of_seqZ. intros ?. apply Hcov. lia.
Qed.
End counting.

(** ** Pruning overlaps *)
Section pruning.
Implicit Types (c : cidrSliceFilter).

#[local] Instance smallerOrEqual_total : Total smallerOrEqual.
Proof. intros a b. unfold smallerOrEqual. lia. Qed.
#[local] Instance smallerOrEqual_trans : Transitive smallerOrEqual.
Proof. intros a b d. unfold smallerOrEqual. lia. Qed.

Lemma dropCovered_sub c n : n ∈ dropCovered c → n ∈ c.
Proof.
  induction c as [|m c IH]; simpl; [done|]. case_match; [right; auto|].
  intros [->|?]%elem_of_cons; [left|right; auto].
Qed.

(** What is dropped is inside something that is kept. *)
Lemma dropCovered_covers c ip :
  Forall net_wf c → StronglySorted smallerOrEqual c →
  cidr_MatchesIP (dropCovered c) ip = cidr_MatchesIP c ip.
Proof.
  intros Hwf Hs. induction Hs as [|n c Hs IH Hn]; [done|].
  apply Forall_cons in Hwf as [Hnwf Hwf]. simpl. specialize (IH Hwf).
  destruct (existsb _ c) eqn:E; simpl; [|unfold cidr_MatchesIP in *; simpl; by rewrite IH].
  rewrite IH. unfold cidr_MatchesIP. simpl. destruct (Contains n ip) eqn:Hc; [|done]. simpl.
  apply existsb_exists in E as (m & Hm & Hmc). apply existsb_exists. exists m. split; [done|].
  rewrite Forall_forall in Hn, Hwf. apply list_elem_of_In in Hm.
  apply (Contains_trans m n); auto. by apply Hn.
Qed.

(** What is kept is pairwise disjoint. *)
Lemma dropCovered_disjoint c v6 :
  Forall net_wf c → Forall (λ n, ip_v6 (net_IP n) = v6) c → StronglySorted smallerOrEqual c →
  ForallOrdPairs net_disjoint (dropCovered c).
Proof.
  intros Hwf Hv Hs. induction Hs as [|n c Hs IH Hn]; simpl; [constructor|].
  apply Forall_cons in Hwf as [Hnwf Hwf]. apply Forall_cons in Hv as [Hnv Hv].
  specialize (IH Hwf Hv). destruct (existsb _ c) eqn:E; [done|]. constructor; [|done].
  apply List.Forall_forall. intros m Hm. apply list_elem_of_In, dropCovered_sub in Hm.
  rewrite Forall_forall in Hn, Hwf, Hv.
  assert (Contains m (net_IP n) = false) as Hnc.
  { apply not_true_iff_false. intros Hc. apply not_true_iff_false in E. apply E.
    apply existsb_exists. exists m. split; [by apply list_elem_of_In|done]. }
  unfold net_disjoint. destruct (decide (net_first n + NumAddrs n ≤ net_first m)); [by left|].
  right. destruct (decide (net_first m + NumAddrs m ≤ net_first n)); [done|]. exfalso.
  apply not_true_iff_false in Hnc. apply Hnc.
  set (x := Z.max (net_first n) (net_first m)).
  pose proof (NumAddrs_pos n Hnwf). pose proof (NumAddrs_pos m (Hwf _ Hm)).
  apply (Contains_flip m n (MkIP v6 x)); auto; [by apply Hn| |];
    apply Contains_interval; auto; simpl; (split; [symmetry; auto|lia]).
Qed.

Lemma filterOutDuplicates_matches c ip :
  Forall net_wf c → cidr_MatchesIP (filterOutDuplicates c) ip = cidr_MatchesIP c ip.
Proof.
  intros Hwf. unfold filterOutDuplicates.
  pose proof (merge_sort_Permutation smallerOrEqual c) as Hp.
  rewrite dropCovered_covers.
  - unfold cidr_MatchesIP. apply eq_true_iff_eq. rewrite !existsb_exists.
    setoid_rewrite <-list_elem_of_In. by setoid_rewrite Hp.
  - by rewrite Hp.
  - apply StronglySorted_merge_sort; apply _.
Qed.
End pruning.

(** ** Coverage of a whole CIDR *)
Section coverage.
Implicit Types (c : cidrSliceFilter) (n : IPNet).

Lemma Covers_contains i n ip :
  net_wf i → net_wf n → Covers i n = true → Contains n ip = true → Contains i ip = true.
Proof.
  intros Hi Hn. unfold Covers. destruct (Contains i (net_IP n)) eqn:Hc; simpl; [|done].
  intros Hle%Z.leb_le. apply Contains_trans; auto. rewrite !NumAddrs_pow by done.
  apply Contains_interval in Hc as [Hv _]; [|done].
  apply Z.pow_le_mono_r; [lia|]. unfold net_hostbits, net_bits. rewrite Hv. lia.
Qed.

Lemma MatchesIP_overlapping c n ip :
  Forall net_wf c → net_wf n → existsb (λ f, Covers f n) c = false → Contains n ip = true →
  cidr_MatchesIP (List.filter (λ f, Contains n (net_IP f)) c) ip = cidr_MatchesIP c ip.
Proof.
  intros Hwf Hn Hcov Hip. unfold cidr_MatchesIP.
  induction Hwf as [|f c Hf _ IH]; [done|]. simpl in *.
  apply orb_false_iff in Hcov as [Hcf Hcov].
  destruct (Contains n (net_IP f)) eqn:Hnf; simpl; rewrite IH by done; [done|].
  destruct (Contains f ip) eqn:Hfi; [|done]. exfalso.
  destruct (decide (NumAddrs f ≤ NumAddrs n)) as [Hle|Hgt].
  - rewrite (Contains_flip n f ip) in Hnf by done. done.
  - assert (Contains f (net_IP n) = true) as Hfn by (apply (Contains_flip f n ip); auto; lia).
    unfold Covers in Hcf. rewrite Hfn in Hcf. simpl in Hcf. apply Z.leb_gt in Hcf.
    apply Contains_interval in Hfn as [Hv _]; [|done].
    apply Hgt. rewrite !NumAddrs_pow by done. apply Z.pow_le_mono_r; [lia|].
    unfold net_hostbits, net_bits. rewrite Hv. lia.
Qed.

(** The filter covers the candidate iff it matches every address of it. *)
(** The CIDRs of the filter that start in the candidate, when none covers it: they are
    smaller than it, and they cover it iff their sizes, without duplicates, add up. *)
Definition overlapping (c : list IPNet) (n : IPNet) : list IPNet := List.filter (λ f, Contains n (net_IP f)) c.

Lemma overlapping_wf c n f :
  Forall net_wf c → f ∈ overlapping c n → f ∈ c ∧ net_wf f ∧ Contains n (net_IP f) = true.
Proof.
  intros Hwf [Hf Hc]%list_elem_of_In%filter_In. apply list_elem_of_In in Hf. rewrite list.Forall_forall in Hwf. auto.
Qed.

Lemma not_covered_smaller c n f :
  Forall net_wf c → net_wf n → existsb (λ f, Covers f n) c = false → f ∈ overlapping c n → NumAddrs f ≤ NumAddrs n.
Proof.
  intros Hwf Hn Hcov (Hfc & Hfwf & Hc)%overlapping_wf; [|done].
  destruct (Z.le_gt_cases (NumAddrs f) (NumAddrs n)) as [|Hgt]; [done|].
  exfalso. assert (Contains f (net_IP n) = true) as Hfn.
  { apply (Contains_flip f n (net_IP f)); auto; [lia|]. unfold Contains. by rewrite bool_decide_true, Z.eqb_refl. }
  apply not_true_iff_false in Hcov. apply Hcov. apply existsb_exists. exists f. split; [by apply list_elem_of_In|].
  unfold Covers. rewrite Hfn. simpl. apply Z.leb_le. apply Contains_interval in Hfn as [Hv _]; [|done].
  rewrite !NumAddrs_pow in Hgt by done. destruct Hn as [_ Hn'], Hfwf as [_ Hf'].
  apply Z.pow_lt_mono_r_iff in Hgt; [|lia|]; unfold net_hostbits, net_bits in *; rewrite Hv in *; lia.
Qed.

Lemma elem_of_filterOutDuplicates o f : f ∈ filterOutDuplicates o → f ∈ o.
Proof.
  unfold filterOutDuplicates. intros Hf%dropCovered_sub. by rewrite (merge_sort_Permutation smallerOrEqual o) in Hf.
Qed.

Lemma sizes_add_up o n :
  net_wf n → (∀ f, f ∈ o → net_wf f ∧ Contains n (net_IP f) = true ∧ NumAddrs f ≤ NumAddrs n) →
  snd (filterDupesAndGetNumCoveredIPs o) = NumAddrs n ↔
  ∀ x, net_first n ≤ x < net_first n + NumAddrs n →
    Exists (λ f, net_first f ≤ x < net_first f + NumAddrs f) (filterOutDuplicates o).
Proof.
  intros Hn Ho. pose proof (merge_sort_Permutation smallerOrEqual o) as Hp. apply disjoint_cover_iff.
  - pose proof (NumAddrs_pos n Hn). lia.
  - apply Forall_forall. intros f Hf. by apply Ho, elem_of_filterOutDuplicates.
  - apply (dropCovered_disjoint _ (ip_v6 (net_IP n))).
    + rewrite Hp. apply Forall_forall. intros f Hf. by apply Ho.
    + rewrite Hp. apply Forall_forall. intros f Hf. destruct (Ho f Hf) as (_ & Hc & _).
      by apply Contains_interval in Hc as [? _].
    + apply StronglySorted_merge_sort; [intros a b d|intros a b]; unfold smallerOrEqual; lia.
  - apply Forall_forall. intros f Hf%elem_of_filterOutDuplicates. destruct (Ho f Hf) as (? & ? & ?).
    apply Contains_nested; auto.
Qed.

(** Covering, as intervals of numbers and as addresses. *)
Lemma cover_addresses o n :
  net_wf n → (∀ f, f ∈ o → net_wf f ∧ Contains n (net_IP f) = true) →
  (∀ x, net_first n ≤ x < net_first n + NumAddrs n →
     Exists (λ f, net_first f ≤ x < net_first f + NumAddrs f) (filterOutDuplicates o)) ↔
  (∀ ip, Contains n ip = true → cidr_MatchesIP o ip = true).
Proof.
  intros Hn Ho. assert (Forall net_wf o) as Howf by (apply Forall_forall; intros f Hf; by apply Ho). split.
  - intros Hall ip Hip. pose proof Hip as [Hv Hip']%Contains_interval; [|done].
    rewrite <-filterOutDuplicates_matches by done. apply Hall in Hip'.
    apply Exists_exists in Hip' as (f & Hf & Hx). apply existsb_exists. exists f.
    split; [by apply list_elem_of_In|]. apply elem_of_filterOutDuplicates, Ho in Hf as [Hfwf Hc].
    apply Contains_interval in Hc as [Hv' _]; [|done]. apply Contains_interval; [done|].
    split; [congruence|done].
  - intros Hall x Hx. specialize (Hall (MkIP (ip_v6 (net_IP n)) x)).
    rewrite <-filterOutDuplicates_matches in Hall by done.
    assert (Contains n (MkIP (ip_v6 (net_IP n)) x) = true) as Hc by (by apply Contains_interval).
    specialize (Hall Hc). apply existsb_exists in Hall as (f & Hf & Hfc). apply list_elem_of_In in Hf.
    apply Exists_exists. exists f. split; [done|]. apply elem_of_filterOutDuplicates, Ho in Hf as [Hfwf _].
    by apply Contains_interval in Hfc as [_ ?].
Qed.

Lemma MatchesWholeCIDR_spec c n :
  Forall net_wf c → net_wf n →
  cidr_MatchesWholeCIDR c n = true ↔ (∀ ip, Contains n ip = true → cidr_MatchesIP c ip = true).
Proof.
  intros Hwf Hn. unfold cidr_MatchesWholeCIDR. destruct (existsb (λ f, Covers f n) c) eqn:Hcov.
  { split; [intros _ ip Hip|done]. apply existsb_exists in Hcov as (f & Hf & Hc).
    apply existsb_exists. exists f. split; [done|]. rewrite Forall_forall in Hwf.
    apply (Covers_contains f n); auto. by apply Hwf, list_elem_of_In. }
  change (List.filter (λ f, Contains n (net_IP f)) c) with (overlapping c n).
  assert (∀ f, f ∈ overlapping c n → net_wf f ∧ Contains n (net_IP f) = true ∧ NumAddrs f ≤ NumAddrs n) as Ho.
  { intros f Hf. pose proof (not_covered_smaller c n f Hwf Hn Hcov Hf). apply overlapping_wf in Hf; [|done]. tauto. }
  transitivity (snd (filterDupesAndGetNumCoveredIPs (overlapping c n)) = NumAddrs n).
  { destruct (overlapping c n) as [|f o']; [|by rewrite Z.eqb_eq]. split; [done|].
    intros H0. pose proof (NumAddrs_pos n Hn). unfold filterDupesAndGetNumCoveredIPs in H0. simpl in H0. lia. }
  rewrite (sizes_add_up _ _ Hn Ho), (cover_addresses _ _ Hn) by (intros f Hf; destruct (Ho f Hf) as (? & ? & _); done).
  split; intros Hall ip Hip; specialize (Hall ip Hip); unfold overlapping in *; by rewrite MatchesIP_overlapping in *.
Qed.
End coverage.

(** Two CIDRs overlap iff one contains the other's address. *)
Lemma IsNetOverlap_spec i n :
  net_wf i → net_wf n →
  IsNetOverlap i n = true ↔ ∃ ip, Contains n ip = true ∧ Contains i ip = true.
Proof.
  intros Hi Hn. unfold IsNetOverlap. rewrite orb_true_iff.
  assert (∀ m, Contains m (net_IP m) = true) as Hself.
  { intros m. unfold Contains. by rewrite bool_decide_true, Z.eqb_refl. }
  split; [intros [H|H]; eauto|]. intros (ip & H1 & H2).
  destruct (Z.le_gt_cases (NumAddrs i) (NumAddrs n)).
  - left. by apply (Contains_flip n i ip).
  - right. apply (Contains_flip i n ip); auto. lia.
Qed.

Lemma MatchesSome_spec c n :
  Forall net_wf c → net_wf n →
  cidr_MatchesSome c n = true ↔ (∃ ip, Contains n ip = true ∧ cidr_MatchesIP c ip = true).
Proof.
  intros Hwf Hn. unfold cidr_MatchesSome, cidr_MatchesIP. setoid_rewrite existsb_exists.
  setoid_rewrite <-list_elem_of_In. rewrite Forall_forall in Hwf. split.
  - intros (f & Hf & Ho). apply IsNetOverlap_spec in Ho as (ip & ? & ?); eauto.
  - intros (ip & Hip & f & Hf & Hc). exists f. split; [done|]. apply IsNetOverlap_spec; eauto.
Qed.

(** What the allocator relies on: the two CIDR tests agree with the test of each
    address, for the filters that satisfy [filter_wf]. *)
Class AddrFilterLaws (F : Type) `{addrFilter F} := {
  filter_wf : F → Prop;
  MatchesWholeCIDR_sound f n ip :
    filter_wf f → net_wf n → MatchesWholeCIDR f n = true → Contains n ip = true → MatchesIP f ip = true;
  MatchesSome_complete f n ip :
    filter_wf f → net_wf n → MatchesSome f n = false → Contains n ip = true → MatchesIP f ip = false
}.

#[global, refine] Instance nilAddrFilter_laws : AddrFilterLaws nilAddrFilter :=
  { filter_wf _ := True }.
Proof. all: done. Defined.

#[global, refine] Instance cidrSliceFilter_laws : AddrFilterLaws cidrSliceFilter :=
  { filter_wf := Forall net_wf }.
Proof.
  - intros f n ip Hf Hn Hw. by apply MatchesWholeCIDR_spec.
  - intros f n ip Hf Hn Hs Hip. destruct (MatchesIP f ip) eqn:E; [|done].
    assert (MatchesSome f n = true) by (apply MatchesSome_spec; eauto). congruence.
Defined.

(** The size-counting shortcut of [cidrSliceFilter.MatchesWholeCIDR] is exact:
    for any filter, with duplicate, nested and overlapping CIDRs of both families,
    it answers true iff every single address of the candidate CIDR is matched. *)
Theorem MatchesWholeCIDR_exact (c : cidrSliceFilter) (candidate : IPNet) :
  Forall net_wf c → net_wf candidate →
  cidr_MatchesWholeCIDR c candidate = true ↔
  (∀ ip, Contains candidate ip = true → cidr_MatchesIP c ip = true).
Proof. apply MatchesWholeCIDR_spec. Qed.

Definition v4net (a b c d ones : Z) : IPNet :=
  MkIPNet (MkIP false (a * 16777216 + b * 65536 + c * 256 + d)) ones.

Lemma MatchesWholeCIDR_exact_witness :
  cidr_MatchesWholeCIDR [v4net 10 0 0 0 25; v4net 10 0 0 128 25; v4net 10 0 0 3 32]
    (v4net 10 0 0 0 24) = true ↔
  (∀ ip, Contains (v4net 10 0 0 0 24) ip = true →
     cidr_MatchesIP [v4net 10 0 0 0 25; v4net 10 0 0 128 25; v4net 10 0 0 3 32] ip = true).
Proof.
  apply MatchesWholeCIDR_exact.
  - repeat constructor; vm_compute; congruence.
  - split; vm_compute; split; congruence.
Defined.

(** [MatchesSome] answers true iff some address of the candidate is matched. *)
Theorem MatchesSome_exact (c : cidrSliceFilter) (candidate : IPNet) :
  Forall net_wf c → net_wf candidate →
  cidr_MatchesSome c candidate = true ↔
  (∃ ip, Contains candidate ip = true ∧ cidr_MatchesIP c ip = true).
Proof. apply MatchesSome_spec. Qed.

Lemma MatchesSome_exact_witness :
  cidr_MatchesSome [v4net 10 0 0 3 32] (v4net 10 0 0 0 24) = true ↔
  (∃ ip, Contains (v4net 10 0 0 0 24) ip = true ∧ cidr_MatchesIP [v4net 10 0 0 3 32] ip = true).
Proof.
  apply MatchesSome_exact.
  - repeat constructor; vm_compute; congruence.
  - split; vm_compute; split; congruence.
Defined.
