(* ===== verification/IPAMBlock.v ===== *)
(** * IPAM allocation blocks: [libcalico-go/lib/ipam/ipam_block.go] and
    [libcalico-go/lib/backend/model/block.go]

    [AllocationBlock] is the backend struct; the methods of [allocationBlock] are
    functions from a block to a block and an outcome, the block being returned on
    error paths too because the Go methods mutate their receiver.  Pointers to
    attribute indexes are the indexes (the code never writes through them); nil
    pointers and nil maps are [None].  The sequence-number map is keyed by the
    ordinal that the code formats with "%d".  Times are integers (nanoseconds);
    [now] is what the [v1.Now()] call of the code returns.  [ToLower], the parser
    of addresses and the iteration order of Go maps are parameters. *)
From S2P Require Import Prelude.
From S2P Require Import IPNet.
From Stdlib Require Import Ascii.
From stdpp Require Import base list gmap strings numbers.
From stdpp Require Import options.

(** ** Data *)
Record AllocationAttribute := MkAttribute {
  HandleID : option string;
  ActiveOwnerAttrs : option (gmap string string);
  AlternateOwnerAttrs : option (gmap string string);
  ReleasedAt : option Z
}.

#[global] Instance AllocationAttribute_eq_dec : EqDecision AllocationAttribute.
Proof. solve_decision. Defined.

Record AllocationBlock := MkBlock {
  CIDR : IPNet;
  Affinity : option string;
  AffinityClaimTime : option Z;
  Allocations : list (option nat);
  Unallocated : list nat;
  Attributes : list AllocationAttribute;
  SequenceNumber : Z;
  SequenceNumberForAllocation : gmap nat Z;
  Deleted : bool
}.

Definition set_Allocations (f : list (option nat) → list (option nat)) (b : AllocationBlock) :=
  MkBlock (CIDR b) (Affinity b) (AffinityClaimTime b) (f (Allocations b)) (Unallocated b)
    (Attributes b) (SequenceNumber b) (SequenceNumberForAllocation b) (Deleted b).
Definition set_Unallocated (f : list nat → list nat) (b : AllocationBlock) :=
  MkBlock (CIDR b) (Affinity b) (AffinityClaimTime b) (Allocations b) (f (Unallocated b))
    (Attributes b) (SequenceNumber b) (SequenceNumberForAllocation b) (Deleted b).
Definition set_Attributes (f : list AllocationAttribute → list AllocationAttribute)
    (b : AllocationBlock) :=
  MkBlock (CIDR b) (Affinity b) (AffinityClaimTime b) (Allocations b) (Unallocated b)
    (f (Attributes b)) (SequenceNumber b) (SequenceNumberForAllocation b) (Deleted b).
Definition set_SequenceNumberForAllocation (f : gmap nat Z → gmap nat Z) (b : AllocationBlock) :=
  MkBlock (CIDR b) (Affinity b) (AffinityClaimTime b) (Allocations b) (Unallocated b)
    (Attributes b) (SequenceNumber b) (f (SequenceNumberForAllocation b)) (Deleted b).

Inductive IPAMError :=
  | ErrAffinityMismatch
  | ErrNoAffinity
  | ErrIPNotInBlock (ip : IP)
  | ErrAlreadyAssigned (ip : IP)
  | ErrBadSequenceNumber (address : string) (requested expected : Z)
  | ErrBadHandle (requested expected : string)
  | ErrAddressNotAllocated (ip : IP)
  | ErrInCooldown (ip : IP)
  | ErrUnexpectedOwner (ip : IP) (field : string)
  | ErrNotAssignedToHandle (ip : IP) (handleID : string).

Abbreviation result A := (outcome IPAMError A).

(** ** [model.AllocationBlock] *)
(** [int64] arithmetic wraps around. *)
Definition wrap64 (z : Z) : Z := ((z + 2 ^ 63) mod 2 ^ 64 - 2 ^ 63)%Z.

Definition NumAddresses_of (cidr : IPNet) : Z := wrap64 (Z.shiftl 1 (net_hostbits cidr)).
Definition NumAddresses (b : AllocationBlock) : Z := NumAddresses_of (CIDR b).

(** [big.Int.Int64] keeps the low 64 bits. *)
Definition IPToOrdinal (b : AllocationBlock) (ip : IP) : result nat :=
  let ord := wrap64 (IPToBigInt ip - IPToBigInt (net_IP (CIDR b))) in
  if ((ord <? 0) || (NumAddresses b <=? ord))%Z then Fail (ErrIPNotInBlock ip)
  else Ret (Z.to_nat ord).

Definition OrdinalToIP (b : AllocationBlock) (ord : nat) : option IP :=
  NthIP (CIDR b) (Z.of_nat ord).

Definition SetSequenceNumberForOrdinal (ordinal : nat) (b : AllocationBlock) : AllocationBlock :=
  set_SequenceNumberForAllocation <[ordinal := SequenceNumber b]> b.

Definition GetSequenceNumberForOrdinal (b : AllocationBlock) (ordinal : nat) : Z :=
  default 0%Z (SequenceNumberForAllocation b !! ordinal).

Definition ClearSequenceNumberForOrdinal (ordinal : nat) (b : AllocationBlock) : AllocationBlock :=
  set_SequenceNumberForAllocation (delete ordinal) b.

(** [b.Allocations[ordinal]] and [b.Allocations[ordinal] = v], with Go's bounds check. *)
Definition getAllocation (b : AllocationBlock) (ordinal : nat) : result (option nat) :=
  index (Allocations b) ordinal.
Definition setAllocation (b : AllocationBlock) (ordinal : nat) (v : option nat)
    : result AllocationBlock :=
  if (ordinal <? length (Allocations b))%nat
  then Ret (set_Allocations <[ordinal := v]> b) else Panic.

(** ** New blocks *)
Record HostReservedAttr := MkHostReservedAttr {
  StartOfBlock : nat; EndOfBlock : nat; rsvd_Handle : string; rsvd_Note : string }.

Definition allocateAll (v : nat) (ordinals : list nat) (allocs : list (option nat))
    : list (option nat) :=
  foldl (λ allocs o, <[o := Some v]> allocs) allocs ordinals.

(** [nowNano] is [time.Now().UnixNano()] as a [uint64]. *)
Definition newBlock (nowNano : Z) (cidr : IPNet) (rsvdAttr : option HostReservedAttr)
    : result AllocationBlock :=
  if (NumAddresses_of cidr <? 0)%Z then Panic
  else
    let numAddresses := Z.to_nat (NumAddresses_of cidr) in
    let b := MkBlock cidr None None (replicate numAddresses None) (seq 0 numAddresses)
               [] nowNano ∅ false in
    match rsvdAttr with
    | None => Ret b
    | Some r =>
        (* The slice expression panics when its bounds cross. *)
        if (numAddresses <? StartOfBlock r + EndOfBlock r)%nat then Panic
        else
          let handleID := rsvd_Handle r in
          let attr := MkAttribute (Some handleID) (Some {["note" := rsvd_Note r]}) None None in
          Ret (set_Attributes (λ _, [attr])
            (set_Unallocated
              (λ u, take (numAddresses - EndOfBlock r - StartOfBlock r) (drop (StartOfBlock r) u))
              (set_Allocations
                (λ a, allocateAll 0 (map (λ i, numAddresses - i) (seq 1 (EndOfBlock r)))
                        (allocateAll 0 (seq 0 (StartOfBlock r)) a)) b)))
    end.

(** ** Attributes *)
Fixpoint findAttribute (attr : AllocationAttribute) (idx : nat)
    (attrs : list AllocationAttribute) : option nat :=
  match attrs with
  | [] => None
  | existing :: attrs' =>
      if decide (attr = existing) then Some idx else findAttribute attr (S idx) attrs'
  end.

Definition findOrAddAttribute (b : AllocationBlock) (handleID : option string)
    (attrs alternateAttrs : option (gmap string string)) : AllocationBlock * nat :=
  let attr := MkAttribute handleID attrs alternateAttrs None in
  match findAttribute attr 0 (Attributes b) with
  | Some idx => (b, idx)
  | None => (set_Attributes (λ l, l ++ [attr]) b, length (Attributes b))
  end.

Definition addCooldownAttribute (now : Z) (b : AllocationBlock) : AllocationBlock * nat :=
  (set_Attributes (λ l, l ++ [MkAttribute None None None (Some now)]) b, length (Attributes b)).

(** [strings.Split(handleID, "\r")[0]]. *)
Fixpoint sanitizeHandle (handleID : string) : string :=
  match handleID with
  | "" => ""
  | String c rest => if decide (c = "013"%char) then "" else String c (sanitizeHandle rest)
  end.

(** ** Affinity *)
Record AffinityConfig := MkAffinityConfig { aff_Type : string; aff_Host : string }.

Definition affinityMatches (cfg : AffinityConfig) (affinity : string) : bool :=
  bool_decide (affinity = aff_Type cfg +:+ ":" +:+ aff_Host cfg).

(** The guard shared by [autoAssign] and [assign]. *)
Definition affinityGuard (affinityCheck : bool) (cfg : AffinityConfig) (b : AllocationBlock)
    : option IPAMError :=
  match Affinity b with
  | Some a => if affinityCheck && negb (affinityMatches cfg a) then Some ErrAffinityMismatch else None
  | None => if affinityCheck then Some ErrNoAffinity else None
  end.

Definition getAffinityConfig (b : AllocationBlock) : option AffinityConfig :=
  match Affinity b with
  | None => None
  | Some a =>
      match CutPrefix a "host:" with
      | Some host => Some (MkAffinityConfig "host" host)
      | None =>
          match CutPrefix a "virtual:" with
          | Some host => Some (MkAffinityConfig "virtual" host)
          | None => None
          end
      end
  end.

(** ** Assignment *)
Section assign.
Context `{addrFilter F}.

Fixpoint autoAssignLoop (reservations : F) (num : Z) (handleID : option string)
    (attrs : option (gmap string string)) (todo : list nat) (b : AllocationBlock)
    (updatedUnallocated : list nat) (ips : list IPNet) (attrIndexPtr : option nat)
    : result (AllocationBlock * list nat * list IPNet) :=
  match todo with
  | [] => Ret (b, updatedUnallocated, ips)
  | ordinal :: rest =>
      if (num <=? Z.of_nat (length ips))%Z then Ret (b, updatedUnallocated ++ todo, ips)
      else
        match OrdinalToIP b ordinal with
        | None => Panic
        | Some addr =>
            if MatchesIP reservations addr
            then autoAssignLoop reservations num handleID attrs rest b
                   (updatedUnallocated ++ [ordinal]) ips attrIndexPtr
            else
              let '(b1, attrIndex) :=
                match attrIndexPtr with
                | Some i => (b, i)
                | None => findOrAddAttribute b handleID attrs None
                end in
              let! b2 := setAllocation b1 ordinal (Some attrIndex) in
              autoAssignLoop reservations num handleID attrs rest
                (SetSequenceNumberForOrdinal ordinal b2) updatedUnallocated
                (ips ++ [MkIPNet addr (net_ones (CIDR b))]) (Some attrIndex)
        end
  end.

Definition autoAssign (num : Z) (handleID : option string) (affinityCfg : AffinityConfig)
    (attrs : option (gmap string string)) (affinityCheck : bool) (reservations : F)
    (b : AllocationBlock) : result (AllocationBlock * list IPNet) :=
  match affinityGuard affinityCheck affinityCfg b with
  | Some e => Fail e
  | None =>
      let! (b', updatedUnallocated, ips) :=
        autoAssignLoop reservations num handleID attrs (Unallocated b) b [] [] None in
      Ret (set_Unallocated (λ _, updatedUnallocated) b', ips)
  end.

Definition NumFreeAddresses (reservations : F) (b : AllocationBlock) : option nat :=
  if MatchesWholeCIDR reservations (CIDR b) then Some 0
  else if MatchesSome reservations (CIDR b) then
    foldr (λ ord acc,
      match OrdinalToIP b ord, acc with
      | Some ip, Some k => Some (if MatchesIP reservations ip then k else S k)
      | _, _ => None
      end) (Some 0) (Unallocated b)
  else Some (length (Unallocated b)).

(** [None] is the panic of [NthIP]; [seq 0] is empty when the count is negative. *)
Definition NumReservedAddresses (reservations : F) (b : AllocationBlock) : option Z :=
  if MatchesWholeCIDR reservations (CIDR b) then Some (NumAddresses b)
  else if negb (MatchesSome reservations (CIDR b)) then Some 0%Z
  else
    foldr (λ ord acc,
      match OrdinalToIP b ord, acc with
      | Some ip, Some k => Some (if MatchesIP reservations ip then k + 1 else k)%Z
      | _, _ => None
      end) (Some 0%Z) (seq 0 (Z.to_nat (NumAddresses b))).
End assign.

(** The loop that removes the first occurrence of the ordinal. *)
Fixpoint removeOrdinal (ordinal : nat) (l : list nat) : list nat :=
  match l with
  | [] => []
  | u :: l' => if decide (u = ordinal) then l' else u :: removeOrdinal ordinal l'
  end.

(** [assign]: the block is returned on failure too, since the sequence number is
    set before the check for an existing allocation. *)
Definition assign (affinityCheck : bool) (address : IP) (handleID : option string)
    (attrs : option (gmap string string)) (affinityCfg : AffinityConfig) (b : AllocationBlock)
    : AllocationBlock * result unit :=
  match affinityGuard affinityCheck affinityCfg b with
  | Some e => (b, Fail e)
  | None =>
      match IPToOrdinal b address with
      | Ret ordinal =>
          let b1 := SetSequenceNumberForOrdinal ordinal b in
          match getAllocation b1 ordinal with
          | Ret (Some _) => (b1, Fail (ErrAlreadyAssigned address))
          | Ret None =>
              let '(b2, attrIndex) := findOrAddAttribute b1 handleID attrs None in
              match setAllocation b2 ordinal (Some attrIndex) with
              | Ret b3 => (set_Unallocated (removeOrdinal ordinal) b3, Ret ())
              | _ => (b2, Panic)
              end
          | _ => (b1, Panic)
          end
      | Fail e => (b, Fail e)
      | Panic => (b, Panic)
      | OutOfFuel => (b, OutOfFuel)
      end
  end.

(** ** Garbage collection *)
Definition nanosPerSecond : Z := 1000000000%Z.

(** Whether an ordinal with this attribute is deallocated now. *)
Definition canDealloc (ipCooldownSeconds now : Z) (attr : AllocationAttribute) : bool :=
  match ReleasedAt attr with
  | None => false
  | Some t =>
      if (0 <=? ipCooldownSeconds)%Z
      then (t <? now - nanosPerSecond * ipCooldownSeconds)%Z
      else true
  end.

Fixpoint gcLoop (cooldown now : Z) (os : list nat) (b : AllocationBlock) (usedAttrs : gset nat)
    (changed : bool) : result (AllocationBlock * gset nat * bool) :=
  match os with
  | [] => Ret (b, usedAttrs, changed)
  | o :: os' =>
      let! alloc := getAllocation b o in
      match alloc with
      | None => gcLoop cooldown now os' b usedAttrs changed
      | Some i =>
          let! attr := index (Attributes b) i in
          if canDealloc cooldown now attr then
            let! b1 := setAllocation b o None in
            gcLoop cooldown now os'
              (ClearSequenceNumberForOrdinal o (set_Unallocated (λ u, u ++ [o]) b1)) usedAttrs true
          else gcLoop cooldown now os' b ({[i]} ∪ usedAttrs) changed
      end
  end.

(** The loop that builds [newIndexes] and [newAttrs]: [x] is the old index, [y]
    the next free slot. *)
Fixpoint compactAttributes (usedAttrs : gset nat) (x y : nat) (attrs : list AllocationAttribute)
    : list (option nat) * list AllocationAttribute :=
  match attrs with
  | [] => ([], [])
  | attr :: attrs' =>
      if decide (x ∈ usedAttrs) then
        let '(newIndexes, newAttrs) := compactAttributes usedAttrs (S x) (S y) attrs' in
        (Some y :: newIndexes, attr :: newAttrs)
      else
        let '(newIndexes, newAttrs) := compactAttributes usedAttrs (S x) y attrs' in
        (None :: newIndexes, newAttrs)
  end.

Fixpoint rewriteIndexes (newIndexes : list (option nat)) (os : list nat) (b : AllocationBlock)
    : result AllocationBlock :=
  match os with
  | [] => Ret b
  | o :: os' =>
      let! alloc := getAllocation b o in
      match alloc with
      | None => rewriteIndexes newIndexes os' b
      | Some i =>
          let! newIndex := index newIndexes i in
          let! b1 := setAllocation b o newIndex in
          rewriteIndexes newIndexes os' b1
      end
  end.

Definition ordinals (b : AllocationBlock) : list nat := seq 0 (Z.to_nat (NumAddresses b)).

Definition garbageCollect (ipCooldownSeconds now : Z) (b : AllocationBlock)
    : result (AllocationBlock * bool) :=
  let! (b1, usedAttrs, changed) := gcLoop ipCooldownSeconds now (ordinals b) b ∅ false in
  let '(newIndexes, newAttrs) := compactAttributes usedAttrs 0 0 (Attributes b1) in
  if decide (length newAttrs = length (Attributes b1)) then Ret (b1, changed)
  else
    let! b2 := rewriteIndexes newIndexes (ordinals b1) (set_Attributes (λ _, newAttrs) b1) in
    Ret (b2, true).

Definition blockFromBackend (ipCooldownSeconds now : Z) (b : AllocationBlock)
    : result AllocationBlock :=
  omap_ret fst (garbageCollect ipCooldownSeconds now b).

(** ** Queries *)
Definition attributeIndexesByHandle (b : AllocationBlock) (handleID : string) : list nat :=
  List.filter (λ i,
    match Attributes b !! i with
    | Some attr =>
        match HandleID attr with
        | Some h => bool_decide (sanitizeHandle h = handleID)
        | None => false
        end
    | None => false
    end) (seq 0 (length (Attributes b))).

Definition intInSlice (i : nat) (l : list nat) : bool := bool_decide (i ∈ l).

Definition ipsByHandle (b : AllocationBlock) (handleID : string) : result (list IP) :=
  let attrIndexes := attributeIndexesByHandle b handleID in
  foldr (λ o acc,
    let! alloc := getAllocation b o in
    match alloc with
    | Some i =>
        if intInSlice i attrIndexes then
          match OrdinalToIP b o with
          | Some ip => let! ips := acc in Ret (ip :: ips)
          | None => Panic
          end
        else acc
    | None => acc
    end) (Ret []) (ordinals b).

Definition allocationAttributesForIP (b : AllocationBlock) (ip : IP) : result AllocationAttribute :=
  let! ordinal := IPToOrdinal b ip in
  let! attrIndex := getAllocation b ordinal in
  match attrIndex with
  | None => Fail (ErrAddressNotAllocated ip)
  | Some i =>
      let! attr := index (Attributes b) i in
      match ReleasedAt attr with
      | Some _ => Fail (ErrInCooldown ip)
      | None => Ret (MkAttribute (sanitizeHandle <$> HandleID attr) (ActiveOwnerAttrs attr)
                       (AlternateOwnerAttrs attr) None)
      end
  end.

Section queries.
Context (ToLower : string → string).

Definition WindowsReservedHandle : string := "windows-reserved-ipam-handle".

(** The loop of [empty]; [None] is an index out of range. *)
Definition empty (b : AllocationBlock) : option bool :=
  foldr (λ attrIdx acc,
    match attrIdx with
    | None => acc
    | Some i =>
        match Attributes b !! i with
        | None => None
        | Some attrs =>
            match HandleID attrs with
            | None => Some false
            | Some h => if decide (ToLower h = WindowsReservedHandle) then acc else Some false
            end
        end
    end) (Some true) (Allocations b).
End queries.

(** ** Release *)
Record ReleaseOptions := MkReleaseOptions {
  opt_Address : string;
  opt_Handle : string;
  opt_SequenceNumber : option Z
}.

Section release.
(** [cnet.MustParseIP] ([None] is its panic), and the order in which Go
    enumerates a map. *)
Context (MustParseIP : string → option IP).
Context (enumerate : gmap string ReleaseOptions → list (string * ReleaseOptions)).

Definition uniqueAddresses (addresses : list ReleaseOptions) : gmap string ReleaseOptions :=
  foldl (λ m opt, <[opt_Address opt := opt]> m) ∅ addresses.

Definition handleOf (attr : AllocationAttribute) : string :=
  match HandleID attr with Some h => sanitizeHandle h | None => "" end.

Definition seqMismatch (b : AllocationBlock) (ordinal : nat) (seq : option Z) : option Z :=
  match seq with
  | Some s => if (s =? GetSequenceNumberForOrdinal b ordinal)%Z then None else Some s
  | None => None
  end.

(** The first loop of [release]. *)
Fixpoint releaseLoop (b : AllocationBlock) (todo : list (string * ReleaseOptions))
    (unallocated : list IP) (countByHandle : gmap string nat) (ordinals : list nat)
    : result (list IP * gmap string nat * list nat) :=
  match todo with
  | [] => Ret (unallocated, countByHandle, ordinals)
  | (ipStr, opts) :: todo' =>
      match MustParseIP ipStr with
      | None => Panic
      | Some ip =>
          let! ordinal := IPToOrdinal b ip in
          match seqMismatch b ordinal (opt_SequenceNumber opts) with
          | Some s => Fail (ErrBadSequenceNumber (opt_Address opts) s
                              (GetSequenceNumberForOrdinal b ordinal))
          | None =>
              let! attrIdx := getAllocation b ordinal in
              match attrIdx with
              | None => releaseLoop b todo' (unallocated ++ [ip]) countByHandle ordinals
              | Some i =>
                  let! attr := index (Attributes b) i in
                  match ReleasedAt attr with
                  | Some _ => releaseLoop b todo' (unallocated ++ [ip]) countByHandle ordinals
                  | None =>
                      let handleID := handleOf attr in
                      if negb (bool_decide (opt_Handle opts = "")) &&
                         negb (bool_decide (handleID = opt_Handle opts))
                      then Fail (ErrBadHandle (opt_Handle opts) handleID)
                      else
                        let countByHandle' :=
                          if decide (handleID = "") then countByHandle
                          else <[handleID := S (default 0 (countByHandle !! handleID))]> countByHandle in
                        releaseLoop b todo' unallocated countByHandle' (ordinals ++ [ordinal])
                  end
              end
          end
      end
  end.

(** The second loop: redirect the ordinals to the cooldown attribute. *)
Fixpoint markCooldown (releaseAttrIdx : nat) (ordinals : list nat) (b : AllocationBlock)
    : result AllocationBlock :=
  match ordinals with
  | [] => Ret b
  | o :: os =>
      let! b1 := setAllocation b o (Some releaseAttrIdx) in
      markCooldown releaseAttrIdx os (SetSequenceNumberForOrdinal o b1)
  end.

(** [now] is read by [addCooldownAttribute], [nowGC] by [garbageCollect]. *)
Definition release (ipCooldownSeconds now nowGC : Z) (addresses : list ReleaseOptions)
    (b : AllocationBlock) : result (AllocationBlock * list IP * gmap string nat) :=
  let! (unallocated, countByHandle, ordinals) :=
    releaseLoop b (enumerate (uniqueAddresses addresses)) [] ∅ [] in
  match ordinals with
  | [] => Ret (b, unallocated, countByHandle)
  | _ =>
      let '(b1, releaseAttrIdx) := addCooldownAttribute now b in
      let! b2 := markCooldown releaseAttrIdx ordinals b1 in
      let! (b3, _) := garbageCollect ipCooldownSeconds nowGC b2 in
      Ret (b3, unallocated, countByHandle)
  end.

(** The loop of [releaseByHandle]. *)
Fixpoint releaseByHandleLoop (now : Z) (attrIndexes : list nat) (seq : option Z) (os : list nat)
    (b : AllocationBlock) (releaseAttrIdx : option nat) (releaseCount : nat)
    : result (AllocationBlock * nat) :=
  match os with
  | [] => Ret (b, releaseCount)
  | o :: os' =>
      let! alloc := getAllocation b o in
      match alloc with
      | None => releaseByHandleLoop now attrIndexes seq os' b releaseAttrIdx releaseCount
      | Some attrIndex =>
          if intInSlice attrIndex attrIndexes &&
             match seqMismatch b o seq with None => true | Some _ => false end
          then
            let '(b1, idx) :=
              match releaseAttrIdx with
              | Some idx => (b, idx)
              | None => addCooldownAttribute now b
              end in
            let! b2 := setAllocation b1 o (Some idx) in
            releaseByHandleLoop now attrIndexes seq os' b2 (Some idx) (S releaseCount)
          else releaseByHandleLoop now attrIndexes seq os' b releaseAttrIdx releaseCount
      end
  end.

Definition releaseByHandle (ipCooldownSeconds now nowGC : Z) (opts : ReleaseOptions)
    (b : AllocationBlock) : result (AllocationBlock * nat) :=
  let attrIndexes := attributeIndexesByHandle b (opt_Handle opts) in
  match attrIndexes with
  | [] => Ret (b, 0)
  | _ =>
      let! (b1, releaseCount) :=
        releaseByHandleLoop now attrIndexes (opt_SequenceNumber opts) (ordinals b) b None 0 in
      let! (b2, _) := garbageCollect ipCooldownSeconds nowGC b1 in
      Ret (b2, releaseCount)
  end.
End release.

(** ** Ownership *)
Record AttributeOwner := MkOwner { owner_Namespace : string; owner_Name : string }.

Definition EmptyAttributeOwner : AttributeOwner := MkOwner "" "".

Definition AttributeOwner_Matches (o : AttributeOwner) (attrs : option (gmap string string)) : bool :=
  let isEmpty := match attrs with None => true | Some m => bool_decide (m = ∅) end in
  if bool_decide (owner_Namespace o = "") && bool_decide (owner_Name o = "") then isEmpty
  else if isEmpty then false
  else
    let m := default ∅ attrs in
    match m !! "pod", m !! "namespace" with
    | Some actualPod, Some actualNamespace =>
        bool_decide (actualPod = owner_Name o) && bool_decide (actualNamespace = owner_Namespace o)
    | _, _ => false
    end.

Definition verifyExpectedOwner (currentAttrs : option (gmap string string))
    (expectedOwner : option AttributeOwner) (ip : IP) (field : string) : result unit :=
  match expectedOwner with
  | None => Ret ()
  | Some o => if AttributeOwner_Matches o currentAttrs then Ret ()
              else Fail (ErrUnexpectedOwner ip field)
  end.

Record ownershipPreconditions := MkPre {
  pre_handle : string;
  pre_activeOwner : option AttributeOwner;
  pre_alternateOwner : option AttributeOwner
}.

Record ownershipUpdate := MkUpdate {
  upd_handle : option string;
  upd_activeOwner : option (gmap string string);
  upd_clearActiveOwner : bool;
  upd_alternateOwner : option (gmap string string);
  upd_clearAlternateOwner : bool
}.

(** The [switch] that picks the new attributes of one owner. *)
Definition updatedOwner (current : option (gmap string string)) (clear : bool)
    (new : option (gmap string string)) : option (gmap string string) :=
  if clear then None
  else match new with Some m => Some m | None => current end.

Definition updateAllocationOwnership (ipCooldownSeconds now : Z) (ip : IP)
    (pre : ownershipPreconditions) (update : ownershipUpdate) (b : AllocationBlock)
    : result (AllocationBlock * string) :=
  let! ordinal := IPToOrdinal b ip in
  let! attrIdx := getAllocation b ordinal in
  match attrIdx with
  | None => Fail (ErrAddressNotAllocated ip)
  | Some i =>
      let! attr := index (Attributes b) i in
      match ReleasedAt attr with
      | Some _ => Fail (ErrInCooldown ip)
      | None =>
          let fromHandle := handleOf attr in
          if negb (bool_decide (pre_handle pre = "")) &&
             negb (bool_decide (fromHandle = pre_handle pre))
          then Fail (ErrBadHandle (pre_handle pre) fromHandle)
          else
            let! _ := verifyExpectedOwner (ActiveOwnerAttrs attr) (pre_activeOwner pre) ip
                        "ActiveOwnerAttrs" in
            let! _ := verifyExpectedOwner (AlternateOwnerAttrs attr) (pre_alternateOwner pre) ip
                        "AlternateOwnerAttrs" in
            let toHandle :=
              match upd_handle update with Some h => sanitizeHandle h | None => fromHandle end in
            let activeOwner :=
              updatedOwner (ActiveOwnerAttrs attr) (upd_clearActiveOwner update)
                (upd_activeOwner update) in
            let alternateOwner :=
              updatedOwner (AlternateOwnerAttrs attr) (upd_clearAlternateOwner update)
                (upd_alternateOwner update) in
            let '(b1, newIdx) := findOrAddAttribute b (Some toHandle) activeOwner alternateOwner in
            if decide (newIdx = i) then Ret (b1, fromHandle)
            else
              let! b2 := setAllocation b1 ordinal (Some newIdx) in
              let! (b3, _) :=
                garbageCollect ipCooldownSeconds now (SetSequenceNumberForOrdinal ordinal b2) in
              Ret (b3, fromHandle)
      end
  end.

Record MoveOptions := MkMoveOptions {
  mv_ToHandle : string;
  mv_Attrs : option (gmap string string);
  mv_ExpectedOwner : option AttributeOwner;
  mv_ExpectedHandle : string
}.

Definition moveIPToHandle (ipCooldownSeconds now : Z) (ip : IP) (opts : MoveOptions)
    (b : AllocationBlock) : result (AllocationBlock * string) :=
  updateAllocationOwnership ipCooldownSeconds now ip
    (MkPre (mv_ExpectedHandle opts) (mv_ExpectedOwner opts) None)
    (MkUpdate (Some (mv_ToHandle opts)) (mv_Attrs opts)
       (match mv_Attrs opts with None => true | Some _ => false end) None false) b.

Record OwnerAttributeUpdates := MkOwnerUpdates {
  ou_ActiveOwnerAttrs : option (gmap string string);
  ou_ClearActiveOwner : bool;
  ou_AlternateOwnerAttrs : option (gmap string string);
  ou_ClearAlternateOwner : bool
}.

Record OwnerAttributePreconditions := MkOwnerPreconditions {
  op_ExpectedActiveOwner : option AttributeOwner;
  op_VerifyActiveOwnerEmpty : bool;
  op_ExpectedAlternateOwner : option AttributeOwner;
  op_VerifyAlternateOwnerEmpty : bool
}.

Definition expectedActiveOwner (p : option OwnerAttributePreconditions) : option AttributeOwner :=
  match p with
  | None => None
  | Some p => if op_VerifyActiveOwnerEmpty p then Some EmptyAttributeOwner
              else op_ExpectedActiveOwner p
  end.

Definition expectedAlternateOwner (p : option OwnerAttributePreconditions) : option AttributeOwner :=
  match p with
  | None => None
  | Some p => if op_VerifyAlternateOwnerEmpty p then Some EmptyAttributeOwner
              else op_ExpectedAlternateOwner p
  end.

Definition setOwnerAttributes (ipCooldownSeconds now : Z) (ip : IP) (handleID : string)
    (updates : OwnerAttributeUpdates) (preconditions : option OwnerAttributePreconditions)
    (b : AllocationBlock) : result AllocationBlock :=
  let! ordinal := IPToOrdinal b ip in
  let! attrIndex := getAllocation b ordinal in
  match attrIndex with
  | None => Fail (ErrAddressNotAllocated ip)
  | Some i =>
      let! attr := index (Attributes b) i in
      if match HandleID attr with
         | None => true
         | Some h => negb (bool_decide (sanitizeHandle h = handleID))
         end
      then Fail (ErrNotAssignedToHandle ip handleID)
      else
        let active := match ou_ActiveOwnerAttrs updates with Some _ => true | None => false end
                      || ou_ClearActiveOwner updates in
        let alternate := match ou_AlternateOwnerAttrs updates with Some _ => true | None => false end
                         || ou_ClearAlternateOwner updates in
        let pre := MkPre ""
          (if active then expectedActiveOwner preconditions else None)
          (if alternate then expectedAlternateOwner preconditions else None) in
        omap_ret fst (updateAllocationOwnership ipCooldownSeconds now ip pre
          (MkUpdate None (ou_ActiveOwnerAttrs updates) (ou_ClearActiveOwner updates)
             (ou_AlternateOwnerAttrs updates) (ou_ClearAlternateOwner updates)) b)
  end.

(** ** [libcalico-go/lib/ipam/ipam_handle.go]

    The key of [Block] is the string of the block's CIDR, which the caller formats. *)
Module Handle.
Record IPAMHandle := MkHandle { HandleID : string; Block : gmap string Z; Deleted : bool }.

Definition incrementBlock (h : IPAMHandle) (blockId : string) (num : Z) : IPAMHandle * Z :=
  let newNum := match Block h !! blockId with Some val => (val + num)%Z | None => num end in
  (MkHandle (HandleID h) (<[blockId := newNum]> (Block h)) (Deleted h), newNum).

Inductive HandleError := ErrNotLinked (blockId : string) | ErrTooFew (blockId : string) (current : Z).

Definition decrementBlock (h : IPAMHandle) (blockId : string) (num : Z)
    : outcome HandleError (IPAMHandle * Z) :=
  match Block h !! blockId with
  | None => Fail (ErrNotLinked blockId)
  | Some current =>
      let newNum := (current - num)%Z in
      if (newNum <? 0)%Z then Fail (ErrTooFew blockId current)
      else if (newNum =? 0)%Z
      then Ret (MkHandle (HandleID h) (delete blockId (Block h)) (Deleted h), newNum)
      else Ret (MkHandle (HandleID h) (<[blockId := newNum]> (Block h)) (Deleted h), newNum)
  end.

Definition handle_empty (h : IPAMHandle) : bool := bool_decide (size (Block h) = 0).

Definition totalCount (h : IPAMHandle) : Z := map_fold (λ _ count total, total + count)%Z 0%Z (Block h).

Definition totalCountByVersion (h : IPAMHandle) (version : Z) : Z :=
  map_fold (λ blockCIDR count total,
    let isIPv6 := Prelude.Contains blockCIDR ":" in
    if ((version =? 4)%Z && negb isIPv6) || ((version =? 6)%Z && isIPv6)
    then (total + count)%Z else total) 0%Z (Block h).
End Handle.
