(* ===== verification/IPAMBlockInv.v ===== *)
(** * The invariant of allocation blocks and their abstract view

    [block_wf] says what a block must satisfy between operations: [Unallocated]
    lists, once each, exactly the ordinals with no allocation, and every
    allocation refers to an attribute.  [view] forgets the representation: it maps
    an ordinal to the attribute of its allocation.  The lemmas of this file state
    each primitive step, and garbage collection, on the view. *)
From S2P Require Import Prelude.
From S2P Require Import IPNet.
From S2P Require Import IPAMBlock.
From stdpp Require Import base list gmap strings numbers.
From stdpp Require Import options.

(** ** Invariant and view *)
Definition view (b : AllocationBlock) (o : nat) : option AllocationAttribute :=
  match Allocations b !! o with Some (Some i) => Attributes b !! i | _ => None end.

Definition cidr_ok (c : IPNet) : Prop :=
  net_wf c ∧ (net_hostbits c ≤ 62)%Z ∧ net_first c = ip_int (net_IP c).

Record block_wf (b : AllocationBlock) : Prop := {
  wf_cidr : cidr_ok (CIDR b);
  wf_length : length (Allocations b) = Z.to_nat (NumAddresses b);
  wf_unallocated o : o ∈ Unallocated b ↔ Allocations b !! o = Some None;
  wf_nodup : NoDup (Unallocated b);
  wf_attr o i : Allocations b !! o = Some (Some i) → i < length (Attributes b)
}.

(** The fields that no operation on allocations touches. *)
Definition same_header (b b' : AllocationBlock) : Prop :=
  CIDR b' = CIDR b ∧ Affinity b' = Affinity b ∧ AffinityClaimTime b' = AffinityClaimTime b ∧
  SequenceNumber b' = SequenceNumber b ∧ Deleted b' = Deleted b.

#[global] Instance same_header_preorder : PreOrder same_header.
Proof.
  split; [done|]. intros b1 b2 b3 (?&?&?&?&?) (?&?&?&?&?). split_and!; congruence.
Qed.

#[export] Hint Resolve wf_cidr wf_nodup : calico.

Section lemmas.
Implicit Types (b : AllocationBlock) (o i : nat) (a : AllocationAttribute).

Lemma wrap64_small (z : Z) : (- 2 ^ 63 ≤ z < 2 ^ 63)%Z → wrap64 z = z.
Proof. intros Hz. unfold wrap64. rewrite Z.mod_small by lia. lia. Qed.

Lemma NumAddresses_ok c : cidr_ok c → NumAddresses_of c = NumAddrs c ∧ (0 < NumAddrs c ≤ 2 ^ 62)%Z.
Proof.
  intros (Hwf & Hh & _). pose proof (NumAddrs_pos c Hwf). unfold NumAddresses_of.
  fold (NumAddrs c). rewrite NumAddrs_pow in * by done.
  assert (2 ^ net_hostbits c ≤ 2 ^ 62)%Z by (apply Z.pow_le_mono_r; lia).
  rewrite wrap64_small by lia. lia.
Qed.

Lemma net_first_fits c : net_wf c → (net_first c + NumAddrs c ≤ 2 ^ net_bits c)%Z.
Proof.
  intros Hc. pose proof (NumAddrs_pos c Hc) as Hpos. rewrite net_first_spec by done.
  destruct Hc as [[Hlo Hhi] Ho]. pose proof (NumAddrs_pow c (conj (conj Hlo Hhi) Ho)) as Hp.
  assert (2 ^ net_bits c = NumAddrs c * 2 ^ net_ones c)%Z as Hd.
  { rewrite Hp, <-Z.pow_add_r; unfold net_hostbits; [f_equal; lia|lia|lia]. }
  change (bitLen (ip_v6 (net_IP c))) with (net_bits c) in Hhi.
  set (x := ip_int (net_IP c)) in *. set (p := NumAddrs c) in *. rewrite Hd in *.
  assert (x / p < 2 ^ net_ones c)%Z by (apply Z.div_lt_upper_bound; lia). nia.
Qed.

(** Every ordinal of a block is an address, and conversely. *)
Lemma OrdinalToIP_ok b o :
  cidr_ok (CIDR b) → (Z.of_nat o < NumAddresses b)%Z →
  OrdinalToIP b o = Some (MkIP (ip_v6 (net_IP (CIDR b))) (ip_int (net_IP (CIDR b)) + Z.of_nat o)).
Proof.
  intros Hc Ho. unfold OrdinalToIP, NumAddresses in *.
  destruct (NumAddresses_ok _ Hc) as [Hn _]. destruct Hc as (Hwf & _ & Hfirst).
  apply NthIP_Some; [done|lia|]. split; [done|]. pose proof (net_first_fits _ Hwf). lia.
Qed.

Lemma IPToOrdinal_ok b o :
  cidr_ok (CIDR b) → (Z.of_nat o < NumAddresses b)%Z →
  IPToOrdinal b (MkIP (ip_v6 (net_IP (CIDR b))) (ip_int (net_IP (CIDR b)) + Z.of_nat o)) = Ret o.
Proof.
  intros Hc Ho. unfold IPToOrdinal, IPToBigInt. simpl.
  destruct (NumAddresses_ok _ Hc) as [Hn Hb]. unfold NumAddresses in *.
  rewrite Z.add_simpl_l, wrap64_small by lia.
  destruct (Z.ltb_spec (Z.of_nat o) 0); [lia|].
  destruct (Z.leb_spec (NumAddresses_of (CIDR b)) (Z.of_nat o)); [lia|]. simpl. by rewrite Nat2Z.id.
Qed.

Lemma IPToOrdinal_Ret b ip o : IPToOrdinal b ip = Ret o → (Z.of_nat o < NumAddresses b)%Z.
Proof.
  unfold IPToOrdinal. destruct (_ <? 0)%Z eqn:E1, (_ <=? _)%Z eqn:E2; simpl; try done.
  intros [= <-]. lia.
Qed.

Lemma ordinal_lt b o : block_wf b → (Z.of_nat o < NumAddresses b)%Z ↔ o < length (Allocations b).
Proof.
  intros Hb. rewrite (wf_length b Hb). pose proof (NumAddresses_ok _ (wf_cidr b Hb)) as [Hn ?].
  unfold NumAddresses in *. lia.
Qed.

Lemma elem_of_ordinals b o : o ∈ ordinals b ↔ (Z.of_nat o < NumAddresses b)%Z.
Proof. unfold ordinals. rewrite elem_of_seq. lia. Qed.

Lemma NoDup_ordinals b : NoDup (ordinals b).
Proof. unfold ordinals. apply NoDup_seq. Qed.

Lemma view_None b o : block_wf b → o < length (Allocations b) → view b o = None ↔ o ∈ Unallocated b.
Proof.
  intros Hb Ho. rewrite (wf_unallocated b Hb). unfold view.
  destruct (lookup_lt_is_Some_2 _ _ Ho) as [[i|] Hi]; rewrite Hi; [|done].
  destruct (lookup_lt_is_Some_2 (Attributes b) i) as [a ->]; [by eapply wf_attr|]. done.
Qed.

Lemma view_Some_lt b o a : view b o = Some a → o < length (Allocations b).
Proof. unfold view. intros Hv. destruct (Allocations b !! o) eqn:E; [|done]. by eapply lookup_lt_Some. Qed.

Lemma getAllocation_ok b o :
  o < length (Allocations b) → ∃ v, getAllocation b o = Ret v ∧ Allocations b !! o = Some v.
Proof.
  intros [v Hv]%lookup_lt_is_Some_2. exists v. unfold getAllocation, index. by rewrite Hv.
Qed.

Lemma setAllocation_ok b o v :
  o < length (Allocations b) → setAllocation b o v = Ret (set_Allocations <[o := v]> b).
Proof. intros Ho. unfold setAllocation. by destruct (Nat.ltb_spec o (length (Allocations b))); [|lia]. Qed.

(** *** The view after each primitive update *)
Lemma view_set_Allocations b o i a o' :
  o < length (Allocations b) → Attributes b !! i = Some a →
  view (set_Allocations <[o := Some i]> b) o' = if decide (o' = o) then Some a else view b o'.
Proof.
  intros Ho Hi. unfold view. simpl. case_decide; subst.
  - by rewrite list_lookup_insert_eq.
  - by rewrite list_lookup_insert_ne.
Qed.

Lemma view_append_attr b a o :
  (∀ o i, Allocations b !! o = Some (Some i) → i < length (Attributes b)) →
  view (set_Attributes (λ l, l ++ [a]) b) o = view b o.
Proof.
  intros Hattr. unfold view. simpl. destruct (Allocations b !! o) as [[i|]|] eqn:E; try done.
  rewrite lookup_app_l; [done|]. eauto.
Qed.

Lemma findAttribute_spec a k l :
  match findAttribute a k l with
  | Some i => k ≤ i ∧ l !! (i - k) = Some a
  | None => a ∉ l
  end.
Proof.
  revert k. induction l as [|a' l IH]; intros k; simpl; [by intros ?%not_elem_of_nil|].
  case_decide; subst; [by rewrite Nat.sub_diag|].
  specialize (IH (S k)). destruct (findAttribute a (S k) l) as [i|].
  - destruct IH as [Hi Hl]. split; [lia|]. by replace (i - k) with (S (i - S k)) by lia.
  - rewrite not_elem_of_cons. done.
Qed.

(** [findOrAddAttribute] gives an index that holds exactly the requested
    attribute, and does not disturb the others. *)
Lemma findOrAddAttribute_spec b h m1 m2 b' i :
  findOrAddAttribute b h m1 m2 = (b', i) →
  Attributes b' !! i = Some (MkAttribute h m1 m2 None) ∧
  Attributes b `prefix_of` Attributes b' ∧
  b' = set_Attributes (λ _, Attributes b') b.
Proof.
  unfold findOrAddAttribute. set (a := MkAttribute h m1 m2 None).
  pose proof (findAttribute_spec a 0 (Attributes b)) as Hf.
  destruct (findAttribute a 0 (Attributes b)) as [j|]; intros [= <- <-].
  - rewrite Nat.sub_0_r in Hf. split_and!; [apply Hf|done|by destruct b].
  - simpl. split_and!; [|by apply prefix_app_r|done].
    rewrite lookup_app_r by lia. by rewrite Nat.sub_diag.
Qed.

Lemma view_prefix_attrs b l o :
  (∀ o i, Allocations b !! o = Some (Some i) → i < length (Attributes b)) →
  Attributes b `prefix_of` l → view (set_Attributes (λ _, l) b) o = view b o.
Proof.
  intros Hattr [k ->]. unfold view. simpl. destruct (Allocations b !! o) as [[i|]|] eqn:E; try done.
  rewrite lookup_app_l; [done|]. eauto.
Qed.

Lemma block_wf_prefix_attrs b l :
  block_wf b → Attributes b `prefix_of` l → block_wf (set_Attributes (λ _, l) b).
Proof.
  intros Hb Hp. split; simpl; try apply Hb.
  intros o i Hi%(wf_attr b Hb). apply prefix_length in Hp. lia.
Qed.

(** Pointing an allocated ordinal at another attribute keeps the invariant. *)
Lemma block_wf_redirect b o i a :
  block_wf b → view b o = Some a → i < length (Attributes b) →
  block_wf (set_Allocations <[o := Some i]> b).
Proof.
  intros Hb Hv Hi. pose proof (view_Some_lt _ _ _ Hv) as Ho.
  assert (∃ j, Allocations b !! o = Some (Some j)) as [j Hj].
  { unfold view in Hv. destruct (Allocations b !! o) as [[j|]|]; eauto; done. }
  split; simpl; try apply Hb.
  - rewrite length_insert. apply Hb.
  - intros o'. rewrite (wf_unallocated b Hb). destruct (decide (o = o')) as [<-|].
    + rewrite list_lookup_insert_eq, Hj by done. done.
    + by rewrite list_lookup_insert_ne.
  - intros o' i'. destruct (decide (o = o')) as [<-|].
    + rewrite list_lookup_insert_eq by done. by intros [= <-].
    + rewrite list_lookup_insert_ne by done. apply (wf_attr b Hb).
Qed.

Lemma view_set_Unallocated b f o : view (set_Unallocated f b) o = view b o.
Proof. done. Qed.

(** The loop of [assign] that removes an ordinal. *)
Lemma elem_of_removeOrdinal o l x : NoDup l → x ∈ removeOrdinal o l ↔ x ∈ l ∧ x ≠ o.
Proof.
  induction l as [|u l IH]; intros Hnd; simpl.
  { split; [by intros ?%not_elem_of_nil|]. by intros [?%not_elem_of_nil _]. }
  apply list.NoDup_cons in Hnd as [Hu Hnd]. case_decide; subst.
  - rewrite elem_of_cons. split; [|tauto]. intros Hx. split; [by right|]. by intros ->.
  - rewrite !elem_of_cons, IH by done. split; [|tauto]. intros [->|[? ?]]; auto.
Qed.

Lemma NoDup_removeOrdinal o l : NoDup l → NoDup (removeOrdinal o l).
Proof.
  induction l as [|u l IH]; intros Hnd; simpl; [done|]. pose proof Hnd as Hnd'.
  apply list.NoDup_cons in Hnd as [Hu Hnd]. case_decide; [done|]. apply list.NoDup_cons. split; [|auto].
  rewrite elem_of_removeOrdinal by done. tauto.
Qed.

(** Allocating a free ordinal and removing it from the free list. *)
Lemma block_wf_remove b o i :
  block_wf b → Allocations b !! o = Some None → i < length (Attributes b) →
  block_wf (set_Unallocated (removeOrdinal o) (set_Allocations <[o := Some i]> b)).
Proof.
  intros Hb Ho Hi. pose proof (lookup_lt_Some _ _ _ Ho) as Hlt. split; simpl.
  - apply Hb.
  - rewrite length_insert. apply Hb.
  - intros x. rewrite elem_of_removeOrdinal, (wf_unallocated b Hb) by apply Hb.
    destruct (decide (o = x)) as [<-|].
    + rewrite list_lookup_insert_eq by done. split; [by intros [_ ?]|done].
    + rewrite list_lookup_insert_ne by done. split; [by intros [? _]|by auto].
  - apply NoDup_removeOrdinal, Hb.
  - intros x j. destruct (decide (o = x)) as [<-|].
    + rewrite list_lookup_insert_eq by done. by intros [= <-].
    + rewrite list_lookup_insert_ne by done. apply Hb.
Qed.

Lemma block_wf_seq b f : block_wf b → block_wf (set_SequenceNumberForAllocation f b).
Proof. intros Hb. split; apply Hb. Qed.

Lemma view_seq b f o : view (set_SequenceNumberForAllocation f b) o = view b o.
Proof. done. Qed.
End lemmas.

#[export] Hint Resolve block_wf_seq : calico.

(** ** Garbage collection on the view *)
Section gc.
Context (cooldown now : Z).
Implicit Types (b : AllocationBlock) (o i : nat).

(** The cooldown of a released address is over: more seconds have passed since its release than the
    cooldown has (a negative one is over at once).  Times are nanoseconds. *)
Definition cooled (a : AllocationAttribute) : bool :=
  match ReleasedAt a with None => false | Some t => ((cooldown <? 0) || (t + 1000000000 * cooldown <? now))%Z end.

Lemma canDealloc_cooled a : canDealloc cooldown now a = cooled a.
Proof.
  unfold canDealloc, cooled, nanosPerSecond. destruct (ReleasedAt a) as [t|]; [|done].
  destruct (Z.leb_spec 0 cooldown), (Z.ltb_spec cooldown 0); lia.
Qed.

Definition expired b o : bool := match view b o with Some a => cooled a | None => false end.

Definition attrs_valid b : Prop :=
  ∀ o i, Allocations b !! o = Some (Some i) → i < length (Attributes b).

Lemma wf_valid b : block_wf b → attrs_valid b.
Proof. intros Hb o i. apply (wf_attr b Hb). Qed.

Lemma elem_of_cons_ne (o o' : nat) os (P : Prop) : o' ≠ o → o' ∈ os ∧ P ↔ o' ∈ o :: os ∧ P.
Proof. intros Hne. rewrite elem_of_cons. tauto. Qed.

(** What the first loop does to the ordinals [os]: which it deallocates, lists as free,
    and whose attributes it marks as used. *)
Record gc_done (os : list nat) b (used : gset nat) (b' : AllocationBlock) (used' : gset nat) : Prop := {
  gd_header : same_header b b';
  gd_attrs : Attributes b' = Attributes b;
  gd_length : length (Allocations b') = length (Allocations b);
  gd_alloc o : Allocations b' !! o =
    if decide (o ∈ os ∧ expired b o = true) then Some None else Allocations b !! o;
  gd_free : Unallocated b' = Unallocated b ++ List.filter (expired b) os;
  gd_used i : i ∈ used' ↔ i ∈ used ∨ ∃ o, o ∈ os ∧ expired b o = false ∧ Allocations b !! o = Some (Some i)
}.

Definition attrOf b o : gset nat := match Allocations b !! o with Some (Some i) => {[i]} | _ => ∅ end.

Lemma elem_of_attrOf b o i : i ∈ attrOf b o ↔ Allocations b !! o = Some (Some i).
Proof. unfold attrOf. destruct (Allocations b !! o) as [[j|]|]; set_solver. Qed.

Lemma gc_done_nil b used : gc_done [] b used b used.
Proof.
  split; try done; [by rewrite app_nil_r|]. intros i. split; [by left|]. intros [?|(?&?%not_elem_of_nil&_)]; done.
Qed.

Lemma gc_done_keep o os b used b' used' :
  expired b o = false → gc_done os b (attrOf b o ∪ used) b' used' → gc_done (o :: os) b used b' used'.
Proof.
  intros He [Hh Ha Hl Hal Hu Hused]. split; try done.
  - intros o'. rewrite Hal. destruct (decide (o' = o)) as [->|].
    + rewrite !decide_False by (intros [_ ?]; congruence). done.
    + apply decide_ext. by apply elem_of_cons_ne.
  - cbn [List.filter]. by rewrite He.
  - intros j. rewrite Hused, elem_of_union, elem_of_attrOf. setoid_rewrite elem_of_cons. naive_solver.
Qed.

Definition freed o b : AllocationBlock :=
  ClearSequenceNumberForOrdinal o (set_Unallocated (λ u, u ++ [o]) (set_Allocations <[o:=None]> b)).

Lemma freed_expired o o' b : o' ≠ o → expired (freed o b) o' = expired b o'.
Proof. intros Hne. unfold expired, view, freed. simpl. by rewrite list_lookup_insert_ne. Qed.

Lemma freed_valid o b : o < length (Allocations b) → attrs_valid b → attrs_valid (freed o b).
Proof.
  intros Ho Hattr o' j. unfold freed. simpl. destruct (decide (o = o')) as [<-|].
  - by rewrite list_lookup_insert_eq.
  - rewrite list_lookup_insert_ne by done. apply Hattr.
Qed.

Lemma gc_done_free o os b used b' used' :
  o ∉ os → o < length (Allocations b) → expired b o = true →
  gc_done os (freed o b) used b' used' → gc_done (o :: os) b used b' used'.
Proof.
  intros Hno Hlt He [Hh Ha Hl Hal Hu Hused].
  assert (∀ o', o' ∈ os → o' ≠ o) as Hne by (intros o' Ho' ->; done). split; try done.
  - rewrite Hl. apply length_insert.
  - intros o'. rewrite Hal. destruct (decide (o' = o)) as [->|Hne'].
    + rewrite (decide_False (P := o ∈ os ∧ _)) by (intros [? _]; done).
      rewrite decide_True by (split; [by left|done]). simpl. by rewrite list_lookup_insert_eq.
    + simpl. rewrite list_lookup_insert_ne, freed_expired by done. apply decide_ext. by apply elem_of_cons_ne.
  - rewrite Hu. cbn [List.filter]. rewrite He. simpl. rewrite <-app_assoc. f_equal. simpl. f_equal.
    apply List.filter_ext_in. intros o' Ho'%list_elem_of_In. by apply freed_expired, Hne.
  - intros j. rewrite Hused. setoid_rewrite elem_of_cons. apply or_iff_compat_l. split.
    + intros (o' & Ho' & Hx & Hj). exists o'. rewrite freed_expired in Hx by auto. simpl in Hj.
      rewrite list_lookup_insert_ne in Hj by (symmetry; auto). auto.
    + intros (o' & [->|Ho'] & Hx & Hj); [congruence|]. exists o'. rewrite freed_expired by auto. simpl.
      rewrite list_lookup_insert_ne by (symmetry; auto). auto.
Qed.

(** The first loop of garbage collection. *)
Lemma gcLoop_spec os b used ch :
  attrs_valid b → NoDup os → (∀ o, o ∈ os → o < length (Allocations b)) →
  ∃ b' used' ch', gcLoop cooldown now os b used ch = Ret (b', used', ch') ∧ gc_done os b used b' used'.
Proof.
  revert b used ch. induction os as [|o os IH]; intros b used ch Hattr Hnd Hlt.
  { exists b, used, ch. split; [done|apply gc_done_nil]. }
  apply list.NoDup_cons in Hnd as [Hno Hnd]. assert (o < length (Allocations b)) as Ho by (apply Hlt; by left).
  destruct (getAllocation_ok b o Ho) as (alloc & Hg & Hlk). simpl. rewrite Hg. cbn [obind].
  assert (∀ o', o' ∈ os → o' < length (Allocations b)) as Hlt' by (intros; apply Hlt; by right).
  destruct alloc as [i|].
  2: { destruct (IH b used ch) as (b' & used' & ch' & Heq & Hd); [done..|]. exists b', used', ch'. split; [done|].
    apply gc_done_keep; [unfold expired, view; by rewrite Hlk|]. unfold attrOf. by rewrite Hlk, (left_id_L ∅ _). }
  destruct (lookup_lt_is_Some_2 (Attributes b) i) as [a Hai]; [by eapply Hattr|].
  assert (index (Attributes b) i = (Ret a : result AllocationAttribute)) as -> by (unfold index; by rewrite Hai).
  cbn [obind]. assert (expired b o = canDealloc cooldown now a) as He by (unfold expired, view; by rewrite Hlk, Hai, canDealloc_cooled).
  destruct (canDealloc cooldown now a) eqn:Hc.
  - rewrite setAllocation_ok by done. cbn [obind].
    destruct (IH (freed o b) used true) as (b' & used' & ch' & Heq & Hd); [by apply freed_valid|done| |].
    { intros o' Ho'. simpl. rewrite length_insert. auto. }
    exists b', used', ch'. split; [done|]. by apply gc_done_free.
  - destruct (IH b ({[i]} ∪ used) ch) as (b' & used' & ch' & Heq & Hd); [done..|]. exists b', used', ch'. split; [done|].
    apply gc_done_keep; [done|]. unfold attrOf. by rewrite Hlk.
Qed.

Lemma elem_of_eq (used : gset nat) k k' : k ∈ used → k = k' → k' ∈ used.
Proof. by intros ? <-. Qed.

(** The compaction keeps the used attributes, and tells where each one went. *)
Lemma compactAttributes_spec used x y l :
  let '(idxs, news) := compactAttributes used x y l in
  length idxs = length l ∧ length news ≤ length l ∧
  (∀ k a, l !! k = Some a → x + k ∈ used →
     ∃ j, idxs !! k = Some (Some (y + j)) ∧ news !! j = Some a) ∧
  (∀ j a, news !! j = Some a → ∃ k, l !! k = Some a ∧ x + k ∈ used ∧ idxs !! k = Some (Some (y + j))) ∧
  (length news = length l → ∀ k, k < length l → x + k ∈ used).
Proof.
  revert x y. induction l as [|a l IH]; intros x y; simpl.
  { split_and!; [done|done|intros ??; by rewrite lookup_nil|intros ??; by rewrite lookup_nil|intros; lia]. }
  case_decide as Hx.
  - specialize (IH (S x) (S y)). destruct (compactAttributes used (S x) (S y) l) as [idxs news].
    destruct IH as (Hl1 & Hl2 & Hin & Hout & Hall). simpl. split_and!; [lia|lia| | |].
    + intros [|k] a' Ha Hu; simplify_eq/=.
      * exists 0. split; [do 2 f_equal; lia|done].
      * destruct (Hin k a' Ha) as (j & Hj & ?); [apply (elem_of_eq _ _ _ Hu); lia|].
        exists (S j). split; [simpl; rewrite Hj; do 2 f_equal; lia|done].
    + intros [|j] a' Ha; simplify_eq/=.
      * exists 0. split_and!; [done|apply (elem_of_eq _ _ _ Hx); lia|simpl; do 2 f_equal; lia].
      * destruct (Hout j a' Ha) as (k & ? & Hk & Hj). exists (S k).
        split_and!; [done|apply (elem_of_eq _ _ _ Hk); lia|simpl; rewrite Hj; do 2 f_equal; lia].
    + intros Heq [|k] Hk; [apply (elem_of_eq _ _ _ Hx); lia|].
      eapply elem_of_eq; [apply (Hall ltac:(lia) k); lia|lia].
  - specialize (IH (S x) y). destruct (compactAttributes used (S x) y l) as [idxs news].
    destruct IH as (Hl1 & Hl2 & Hin & Hout & Hall). simpl. split_and!; [lia|lia| | |].
    + intros [|k] a' Ha Hu; simplify_eq/=; [by destruct Hx; apply (elem_of_eq _ _ _ Hu); lia|].
      apply Hin; [done|]. apply (elem_of_eq _ _ _ Hu); lia.
    + intros j a' Ha. destruct (Hout j a' Ha) as (k & ? & Hk & ?). exists (S k).
      split_and!; [done|apply (elem_of_eq _ _ _ Hk); lia|done].
    + intros. lia.
Qed.

Definition renumber (idxs : list (option nat)) (alloc : option nat) : option nat :=
  match alloc with Some i => default None (idxs !! i) | None => None end.

Lemma rewriteIndexes_spec idxs os b :
  NoDup os → (∀ o, o ∈ os → o < length (Allocations b)) →
  (∀ o i, o ∈ os → Allocations b !! o = Some (Some i) → i < length idxs) →
  ∃ b', rewriteIndexes idxs os b = Ret b' ∧
    (∀ o, Allocations b' !! o =
       if decide (o ∈ os) then renumber idxs <$> Allocations b !! o else Allocations b !! o) ∧
    length (Allocations b') = length (Allocations b) ∧
    b' = set_Allocations (λ _, Allocations b') b.
Proof.
  revert b. induction os as [|o os IH]; intros b Hnd Hlt Hidx.
  { exists b. cbn [rewriteIndexes]. split_and!; [done| |done|by destruct b].
    intros o. by rewrite decide_False by (by intros ?%not_elem_of_nil). }
  apply list.NoDup_cons in Hnd as [Hno Hnd]. cbn [rewriteIndexes].
  destruct (getAllocation_ok b o) as (alloc & -> & Hlk); [apply Hlt; by left|]. cbn [obind].
  destruct alloc as [i|].
  - destruct (lookup_lt_is_Some_2 idxs i) as [j Hj]; [eapply Hidx; [by left|done]|].
    assert (index idxs i = (Ret j : result (option nat))) as -> by (unfold index; by rewrite Hj).
    cbn [obind]. rewrite setAllocation_ok by (apply Hlt; by left). cbn [obind].
    destruct (IH (set_Allocations <[o:=j]> b)) as (b' & -> & Hal & Hl & Hb'); [done| | |].
    { intros o' Ho'. simpl. rewrite length_insert. apply Hlt. by right. }
    { intros o' i' Ho'. simpl. rewrite list_lookup_insert_ne by (intros ->; done).
      apply Hidx. by right. }
    exists b'. split_and!; [done| | |].
    + intros o'. rewrite Hal. simpl. destruct (decide (o' = o)) as [->|Hne].
      * rewrite decide_False by done. rewrite decide_True by (by left).
        rewrite list_lookup_insert_eq by (apply Hlt; by left). rewrite Hlk. simpl. by rewrite Hj.
      * rewrite list_lookup_insert_ne by done. apply decide_ext. rewrite elem_of_cons. tauto.
    + rewrite Hl. simpl. apply length_insert.
    + rewrite Hb' at 1. by destruct b.
  - destruct (IH b) as (b' & -> & Hal & Hl & Hb'); [done| | |].
    { intros o' Ho'. apply Hlt. by right. }
    { intros o' i' Ho'. apply Hidx. by right. }
    exists b'. split_and!; [done| |done|done].
    intros o'. rewrite Hal. destruct (decide (o' = o)) as [->|Hne].
    + rewrite decide_False by done. rewrite decide_True by (by left). by rewrite Hlk.
    + apply decide_ext. rewrite elem_of_cons. tauto.
Qed.

Lemma elem_of_ordinals_wf b o : block_wf b → o ∈ ordinals b ↔ o < length (Allocations b).
Proof. intros Hb. rewrite elem_of_ordinals. by apply ordinal_lt. Qed.

Lemma expired_lt b o : expired b o = true → o < length (Allocations b).
Proof. unfold expired. destruct (view b o) eqn:Hv; [|done]. intros _. by eapply view_Some_lt. Qed.

Lemma expired_not_free b o : block_wf b → expired b o = true → o ∉ Unallocated b.
Proof.
  intros Hb He Ho%(wf_unallocated b Hb). unfold expired, view in He. by rewrite Ho in He.
Qed.

(** The first loop over a whole well-formed block. *)
Lemma gcLoop_block b :
  block_wf b →
  ∃ b' used ch, gcLoop cooldown now (ordinals b) b ∅ false = Ret (b', used, ch) ∧
    block_wf b' ∧ same_header b b' ∧ (∀ o, view b' o = if expired b o then None else view b o) ∧
    Unallocated b' = Unallocated b ++ List.filter (expired b) (ordinals b) ∧
    (∀ i, i ∈ used ↔ ∃ o, Allocations b' !! o = Some (Some i)).
Proof.
  intros Hb.
  destruct (gcLoop_spec (ordinals b) b ∅ false) as (b1 & used & ch & Hgc & [Hh Ha Hl Hal Hu Hused]).
  { by apply wf_valid. } { apply NoDup_ordinals. }
  { intros o. by apply elem_of_ordinals_wf. }
  exists b1, used, ch. split; [done|].
  assert (∀ o, Allocations b1 !! o = if expired b o then Some None else Allocations b !! o) as Hal1.
  { intros o. rewrite Hal. destruct (expired b o) eqn:E.
    - rewrite decide_True; [done|]. split; [|done]. by apply elem_of_ordinals_wf, expired_lt.
    - by rewrite decide_False by (intros [_ ?]; done). }
  split_and!; [|done| |done|].
  - split.
    + destruct Hh as (-> & _). apply Hb.
    + unfold NumAddresses. destruct Hh as (-> & _). rewrite Hl. apply Hb.
    + intros o. rewrite Hu, elem_of_app, (wf_unallocated b Hb), Hal1.
      rewrite list_elem_of_In, filter_In, <-list_elem_of_In. destruct (expired b o) eqn:E.
      * split; [done|]. intros _. right. split; [by apply elem_of_ordinals_wf, expired_lt|done].
      * split; [|by left]. by intros [?|[_ ?]].
    + rewrite Hu. apply list.NoDup_app. split_and!; [apply Hb| |].
      * intros o Ho Hf. apply list_elem_of_In, filter_In in Hf as [_ He].
        by apply (expired_not_free b o).
      * apply NoDup_ListNoDup, List.NoDup_filter, NoDup_ListNoDup, NoDup_ordinals.
    + intros o i. rewrite Ha, Hal1. destruct (expired b o); [done|]. apply Hb.
  - intros o. unfold view. rewrite Hal1, Ha. by destruct (expired b o).
  - intros i. rewrite Hused. setoid_rewrite Hal1. split.
    + intros [?%not_elem_of_empty|(o & Ho & He & Hi)]; [done|]. exists o. by rewrite He.
    + intros [o Ho]. right. exists o. destruct (expired b o); [done|]. split_and!; [|done|done].
      apply elem_of_ordinals_wf; [done|]. by eapply lookup_lt_Some.
Qed.

(** The second part: dropping unreferenced attributes does not change the view. *)
Lemma compact_block b used idxs news :
  block_wf b → (∀ i, i ∈ used ↔ ∃ o, Allocations b !! o = Some (Some i)) →
  compactAttributes used 0 0 (Attributes b) = (idxs, news) →
  ∃ b', rewriteIndexes idxs (ordinals b) (set_Attributes (λ _, news) b) = Ret b' ∧
    block_wf b' ∧ same_header b b' ∧ (∀ o, view b' o = view b o) ∧ Unallocated b' = Unallocated b ∧
    (∀ i, i < length (Attributes b') → ∃ o, Allocations b' !! o = Some (Some i)).
Proof.
  intros Hb Hused Hcomp. pose proof (compactAttributes_spec used 0 0 (Attributes b)) as Hspec.
  rewrite Hcomp in Hspec. destruct Hspec as (Hc1 & Hc2 & Hin & Hout & _).
  destruct (rewriteIndexes_spec idxs (ordinals b) (set_Attributes (λ _, news) b))
    as (b2 & Hrw & Hal & Hl & Hb2).
  { apply NoDup_ordinals. } { intros o. by apply elem_of_ordinals_wf. }
  { intros o i _. simpl. rewrite Hc1. apply Hb. }
  exists b2. split; [done|].
  assert (∀ o, Allocations b2 !! o = renumber idxs <$> Allocations b !! o) as Hal'.
  { intros o. rewrite Hal. simpl. case_decide as Ho; [done|].
    rewrite elem_of_ordinals_wf in Ho by done. by rewrite lookup_ge_None_2 by lia. }
  assert (∀ o i, Allocations b !! o = Some (Some i) →
            ∃ j a, renumber idxs (Some i) = Some j ∧ news !! j = Some a ∧ Attributes b !! i = Some a) as Hren.
  { intros o i Ho. destruct (lookup_lt_is_Some_2 (Attributes b) i) as [a Hi]; [by eapply (wf_attr b Hb)|].
    destruct (Hin i a Hi) as (j & Hj & Hn); [apply Hused; eauto|]. exists j, a. simpl. by rewrite Hj. }
  assert (Attributes b2 = news ∧ Unallocated b2 = Unallocated b ∧ same_header b b2) as (Ha2 & Hu2 & Hh2).
  { rewrite Hb2. done. }
  split_and!; [|done| |done|].
  - split.
    + destruct Hh2 as (-> & _). apply Hb.
    + rewrite Hl. unfold NumAddresses. destruct Hh2 as (-> & _). apply Hb.
    + intros o. rewrite Hu2, (wf_unallocated b Hb), Hal'.
      destruct (Allocations b !! o) as [[i|]|] eqn:E; [|done|done].
      destruct (Hren o i E) as (j & a & Hj & _ & _). cbn [fmap option_fmap option_map]. by rewrite Hj.
    + rewrite Hu2. apply Hb.
    + intros o i. rewrite Hal', Ha2. intros ([i0|] & Ho & Heq)%fmap_Some; [|done].
      destruct (Hren o i0 Ho) as (j & a & Hj & Hn & _). rewrite Hj in Heq. injection Heq as ->.
      by eapply lookup_lt_Some.
  - intros o. unfold view. rewrite Hal', Ha2.
    destruct (Allocations b !! o) as [[i|]|] eqn:E; [|done|done].
    destruct (Hren o i E) as (j & a & Hj & Hn & Hi). cbn [fmap option_fmap option_map]. by rewrite Hj, Hn, Hi.
  - intros i. rewrite Ha2. intros [a Hi]%lookup_lt_is_Some_2.
    destruct (Hout i a Hi) as (k & Hk & Hku & Hidx). apply Hused in Hku as [o Ho].
    exists o. rewrite Hal', Ho. simpl. by rewrite Hidx.
Qed.

(** Collecting a well-formed block: it stays well formed, expired ordinals become
    free, the others keep their attribute, and only referenced attributes remain. *)
Lemma garbageCollect_spec b :
  block_wf b →
  ∃ b' ch, garbageCollect cooldown now b = Ret (b', ch) ∧ block_wf b' ∧ same_header b b' ∧
    (∀ o, view b' o = if expired b o then None else view b o) ∧
    Unallocated b' = Unallocated b ++ List.filter (expired b) (ordinals b) ∧
    (∀ i, i < length (Attributes b') → ∃ o, Allocations b' !! o = Some (Some i)).
Proof.
  intros Hb. destruct (gcLoop_block b Hb) as (b1 & used & ch & Hgc & Hb1 & Hh & Hv & Hu & Hused).
  unfold garbageCollect. rewrite Hgc. cbn [obind].
  pose proof (compactAttributes_spec used 0 0 (Attributes b1)) as Hspec.
  destruct (compactAttributes used 0 0 (Attributes b1)) as [idxs news] eqn:Hcomp.
  case_decide as Hlen.
  { exists b1, ch. destruct Hspec as (_ & _ & _ & _ & Hall). split_and!; [done..|].
    intros i Hi. apply Hused. apply (Hall Hlen i Hi). }
  destruct (compact_block b1 used idxs news Hb1 Hused Hcomp) as (b2 & -> & Hb2 & Hh2 & Hv2 & Hu2 & Href).
  cbn [obind]. exists b2, true. split_and!; [done|done|by etrans| |by rewrite Hu2|done].
  intros o. by rewrite Hv2, Hv.
Qed.
End gc.

#[export] Hint Resolve wf_valid : calico.
