(* ===== verification/IPAMAssign.v ===== *)
(** * What IPAM blocks promise when they assign addresses

    Every operation of [ipam_block.go] that creates a block or assigns addresses is
    described on the abstract view: which ordinals it takes, which attribute they
    get, and that nothing else changes.  [autoAssign] refines a list program that
    takes the first unreserved free ordinals. *)
From S2P Require Import Prelude.
From S2P Require Import IPNet.
From S2P Require Import IPAMBlock.
From S2P Require Import IPAMBlockInv.
From stdpp Require Import base list gmap strings numbers.
From stdpp Require Import options.

(** The address of an ordinal. *)
Definition addressOf (b : AllocationBlock) (o : nat) : IP :=
  MkIP (ip_v6 (net_IP (CIDR b))) (ip_int (net_IP (CIDR b)) + Z.of_nat o).

(** What the autoassignment of a block takes: the first [num] free ordinals whose
    address the filter does not reserve. *)
Section reference.
Context `{addrFilter F}.
Definition assignable (reservations : F) (b : AllocationBlock) (o : nat) : bool :=
  negb (MatchesIP reservations (addressOf b o)).
Definition taken (reservations : F) (num : Z) (b : AllocationBlock) : list nat :=
  take (Z.to_nat num) (List.filter (assignable reservations b) (Unallocated b)).
End reference.

Section lemmas.
Implicit Types (b : AllocationBlock) (o i : nat) (l : list nat).

Lemma addressOf_header b b' o : same_header b b' → addressOf b' o = addressOf b o.
Proof. intros (Hc & _). unfold addressOf. by rewrite Hc. Qed.

Lemma filter_notin_nil l : List.filter (λ o, negb (bool_decide (o ∈ @nil nat))) l = l.
Proof.
  induction l as [|o l IH]; cbn [List.filter]; [done|].
  by rewrite bool_decide_false, IH by (by intros ?%not_elem_of_nil).
Qed.

Lemma filter_notin_cons o (t l : list nat) :
  o ∉ l → List.filter (λ x, negb (bool_decide (x ∈ o :: t))) l =
          List.filter (λ x, negb (bool_decide (x ∈ t))) l.
Proof.
  intros Ho. apply List.filter_ext_in. intros x Hx%list_elem_of_In. f_equal.
  apply bool_decide_ext. rewrite elem_of_cons. split; [|by right]. by intros [->|].
Qed.

Lemma take_elem_of {A} (x : A) n (l : list A) : x ∈ take n l → x ∈ l.
Proof. intros Hx. rewrite <-(take_drop n l). apply elem_of_app. by left. Qed.

(** Giving a free ordinal an attribute. *)
Lemma view_allocate b o i a o' :
  o < length (Allocations b) → Attributes b !! i = Some a →
  view (SetSequenceNumberForOrdinal o (set_Allocations <[o := Some i]> b)) o' =
    if decide (o' = o) then Some a else view b o'.
Proof. apply view_set_Allocations. Qed.

Lemma attrs_valid_allocate b o i :
  attrs_valid b → i < length (Attributes b) → attrs_valid (set_Allocations <[o := Some i]> b).
Proof.
  intros Hv Hi o' i'. simpl. destruct (decide (o' = o)) as [->|Hne].
  - destruct (decide (o < length (Allocations b))).
    + rewrite list_lookup_insert_eq by done. by intros [= <-].
    + rewrite list_insert_ge by lia. apply Hv.
  - rewrite list_lookup_insert_ne by done. apply Hv.
Qed.
End lemmas.

(** ** Automatic assignment *)
Section autoAssign.
Context `{addrFilter F} (reservations : F) (num : Z) (handleID : option string)
        (attrs : option (gmap string string)).
Implicit Types (b : AllocationBlock) (o i : nat).

Abbreviation attr := (MkAttribute handleID attrs None None).

(** The state of the loop that later iterations rely on. *)
Record loop_ok (b b' : AllocationBlock) (os : list nat) : Prop := {
  lo_header : same_header b b';
  lo_unallocated : Unallocated b' = Unallocated b;
  lo_length : length (Allocations b') = length (Allocations b);
  lo_valid : attrs_valid b';
  lo_view o : view b' o = if decide (o ∈ os) then Some attr else view b o;
  lo_free o : Allocations b' !! o = Some None ↔ Allocations b !! o = Some None ∧ o ∉ os;
  lo_seq o : SequenceNumberForAllocation b' !! o =
               if decide (o ∈ os) then Some (SequenceNumber b) else SequenceNumberForAllocation b !! o
}.

Lemma loop_ok_nil b : attrs_valid b → loop_ok b b [].
Proof.
  intros Hv. split; [done..| | |].
  - intros o. by rewrite decide_False by (by intros ?%not_elem_of_nil).
  - intros o. split; [|tauto]. intros ?. split; [done|]. by intros ?%not_elem_of_nil.
  - intros o. by rewrite decide_False by (by intros ?%not_elem_of_nil).
Qed.

Lemma loop_ok_attr b :
  attrs_valid b →
  ∃ b1 i, findOrAddAttribute b handleID attrs None = (b1, i) ∧ loop_ok b b1 [] ∧
    Attributes b1 !! i = Some attr.
Proof.
  intros Hv. destruct (findOrAddAttribute b handleID attrs None) as [b1 i] eqn:E.
  destruct (findOrAddAttribute_spec _ _ _ _ _ _ E) as (Hi & Hp & Hb1).
  exists b1, i. split_and!; [done| |done]. rewrite Hb1 in *. simpl in *.
  split; try done.
  - intros o j Hj. simpl in *. apply Hv in Hj. apply prefix_length in Hp. lia.
  - intros o. rewrite decide_False by (by intros ?%not_elem_of_nil). by apply view_prefix_attrs.
  - intros o. simpl. split; [|tauto]. intros ?. split; [done|]. by intros ?%not_elem_of_nil.
Qed.

Lemma loop_ok_take b b1 b2 o i os :
  loop_ok b b1 [] → Attributes b1 !! i = Some attr → Allocations b !! o = Some None →
  loop_ok (SetSequenceNumberForOrdinal o (set_Allocations <[o := Some i]> b1)) b2 os →
  loop_ok b b2 (o :: os).
Proof.
  intros H1 Hi Ho H2. pose proof (lookup_lt_Some _ _ _ Ho) as Hlt. rewrite <-(lo_length _ _ _ H1) in Hlt.
  split.
  - etrans; [apply H1|]. etrans; [|apply H2]. done.
  - rewrite (lo_unallocated _ _ _ H2). apply H1.
  - rewrite (lo_length _ _ _ H2). simpl. rewrite length_insert. apply H1.
  - apply H2.
  - intros x. rewrite (lo_view _ _ _ H2), (view_allocate _ _ _ attr) by done.
    rewrite (lo_view _ _ _ H1), (decide_False (P := x ∈ [])) by (by intros ?%not_elem_of_nil).
    destruct (decide (x = o)) as [->|Hne].
    + rewrite (decide_True (P := o ∈ o :: os)) by (by left). by case_decide.
    + apply decide_ext. rewrite elem_of_cons. tauto.
  - intros x. rewrite (lo_free _ _ _ H2). simpl. rewrite not_elem_of_cons. destruct (decide (x = o)) as [->|Hne].
    + rewrite list_lookup_insert_eq by done. split; [by intros [? _]|tauto].
    + rewrite list_lookup_insert_ne by done. rewrite (lo_free _ _ _ H1).
      assert (x ∉ []) by (by intros ?%not_elem_of_nil). tauto.
  - intros x. rewrite (lo_seq _ _ _ H2). simpl. destruct (lo_header _ _ _ H1) as (_ & _ & _ & Hs & _).
    rewrite Hs. destruct (decide (x = o)) as [->|Hne].
    + rewrite (decide_True (P := o ∈ o :: os)) by (by left). rewrite lookup_insert_eq. by case_decide.
    + rewrite lookup_insert_ne by done. rewrite (lo_seq _ _ _ H1).
      rewrite (decide_False (P := x ∈ [])) by (by intros ?%not_elem_of_nil).
      apply decide_ext. rewrite elem_of_cons. tauto.
Qed.

Definition takenFrom b (k : nat) (todo : list nat) : list nat :=
  take k (List.filter (assignable reservations b) todo).

Lemma takenFrom_header b b' k todo : same_header b b' → takenFrom b' k todo = takenFrom b k todo.
Proof.
  intros Hh. unfold takenFrom. f_equal. apply List.filter_ext. intros o.
  unfold assignable. by rewrite (addressOf_header b b').
Qed.

Definition ipNetOf b o : IPNet := MkIPNet (addressOf b o) (net_ones (CIDR b)).

Lemma ipNetOf_header b b' o : same_header b b' → ipNetOf b' o = ipNetOf b o.
Proof. intros Hh. unfold ipNetOf. rewrite (addressOf_header b b') by done. by destruct Hh as (-> & _). Qed.

Lemma autoAssignLoop_spec todo b upd ips ptr :
  cidr_ok (CIDR b) → length (Allocations b) = Z.to_nat (NumAddresses b) → attrs_valid b →
  NoDup todo → (∀ o, o ∈ todo → Allocations b !! o = Some None) →
  (∀ i, ptr = Some i → Attributes b !! i = Some attr) →
  let os := takenFrom b (Z.to_nat num - length ips) todo in
  ∃ b', autoAssignLoop reservations num handleID attrs todo b upd ips ptr =
          Ret (b', upd ++ List.filter (λ o, negb (bool_decide (o ∈ os))) todo, ips ++ map (ipNetOf b) os) ∧
        loop_ok b b' os.
Proof.
  revert b upd ips ptr. induction todo as [|o todo IH]; intros b upd ips ptr Hc Hlen Hv Hnd Hfree Hptr os.
  { exists b. unfold os, takenFrom. simpl. rewrite take_nil. simpl. rewrite !app_nil_r.
    split; [done|by apply loop_ok_nil]. }
  apply list.NoDup_cons in Hnd as [Hno Hnd]. cbn [autoAssignLoop].
  destruct (Z.leb_spec num (Z.of_nat (length ips))) as [Hdone|Hmore].
  { exists b. assert (os = []) as -> by (unfold os, takenFrom; by replace (Z.to_nat num - length ips) with 0 by lia).
    rewrite filter_notin_nil. simpl. rewrite app_nil_r. split; [done|by apply loop_ok_nil]. }
  pose proof (Hfree o ltac:(by left)) as Ho. pose proof (lookup_lt_Some _ _ _ Ho) as Hlt.
  rewrite (OrdinalToIP_ok b o Hc) by lia. fold (addressOf b o).
  destruct (MatchesIP reservations (addressOf b o)) eqn:Hm.
  - destruct (IH b (upd ++ [o]) ips ptr) as (b' & -> & Hok); [done..| |done|].
    { intros x Hx. apply Hfree. by right. }
    assert (os = takenFrom b (Z.to_nat num - length ips) todo) as ->.
    { unfold os, takenFrom. simpl. by unfold assignable at 1; rewrite Hm. }
    exists b'. split; [|done]. simpl. rewrite bool_decide_false; [by rewrite <-app_assoc|].
    intros Hin%take_elem_of. apply list_elem_of_In, filter_In in Hin as [Hin _].
    by apply Hno, list_elem_of_In.
  - assert (∃ b1 i, match ptr with Some i => (b, i) | None => findOrAddAttribute b handleID attrs None end = (b1, i) ∧
              loop_ok b b1 [] ∧ Attributes b1 !! i = Some attr) as (b1 & i & -> & H1 & Hi).
    { destruct ptr as [i|]; [|by apply loop_ok_attr]. exists b, i. split_and!; [done|by apply loop_ok_nil|auto]. }
    rewrite setAllocation_ok by (by rewrite (lo_length _ _ _ H1)). cbn [obind].
    set (b2 := SetSequenceNumberForOrdinal o (set_Allocations <[o:=Some i]> b1)).
    assert (same_header b b2) as Hh2 by (etrans; [apply H1|done]).
    destruct (IH b2 upd (ips ++ [ipNetOf b o]) (Some i)) as (b' & Heq & Hok).
    { destruct Hh2 as (-> & _). done. }
    { unfold NumAddresses. destruct Hh2 as (-> & _). simpl. rewrite length_insert, (lo_length _ _ _ H1). done. }
    { apply attrs_valid_allocate; [apply H1|by eapply lookup_lt_Some]. }
    { done. }
    { intros x Hx. simpl. rewrite list_lookup_insert_ne by (intros ->; done).
      apply (lo_free _ _ _ H1). split; [apply Hfree; by right|]. by intros ?%not_elem_of_nil. }
    { by intros j [= <-]. }
    rewrite (takenFrom_header b b2), length_app in Heq, Hok by done. simpl in Heq, Hok.
    assert (os = o :: takenFrom b (Z.to_nat num - (length ips + 1)) todo) as ->.
    { unfold os, takenFrom. simpl. unfold assignable at 1. rewrite Hm. simpl.
      replace (Z.to_nat num - length ips) with (S (Z.to_nat num - (length ips + 1))) by lia. done. }
    exists b'. split; [|by eapply loop_ok_take].
    rewrite (map_ext (ipNetOf b2) (ipNetOf b)), <-app_assoc in Heq by (intros x; by apply ipNetOf_header).
    etrans; [exact Heq|]. cbn [List.filter]. rewrite bool_decide_true by (by left). cbn [negb].
    by rewrite filter_notin_cons.
Qed.
End autoAssign.

Section autoAssign_top.
Context `{addrFilter F} (reservations : F).
Implicit Types (b : AllocationBlock) (o : nat).

Lemma autoAssign_spec num handleID cfg attrs check b :
  block_wf b → affinityGuard check cfg b = None →
  let os := taken reservations num b in
  ∃ b', autoAssign num handleID cfg attrs check reservations b = Ret (b', map (ipNetOf b) os) ∧
    block_wf b' ∧ same_header b b' ∧
    Unallocated b' = List.filter (λ o, negb (bool_decide (o ∈ os))) (Unallocated b) ∧
    (∀ o, view b' o = if decide (o ∈ os) then Some (MkAttribute handleID attrs None None) else view b o) ∧
    (∀ o, GetSequenceNumberForOrdinal b' o =
            if decide (o ∈ os) then SequenceNumber b else GetSequenceNumberForOrdinal b o).
Proof.
  intros Hb Hg os. unfold autoAssign. rewrite Hg.
  destruct (autoAssignLoop_spec reservations num handleID attrs (Unallocated b) b [] [] None)
    as (b1 & Heq & Hok).
  { apply Hb. } { apply Hb. } { by apply wf_valid. } { apply Hb. }
  { intros o. apply (wf_unallocated b Hb). } { done. }
  rewrite Heq. cbn [obind]. simpl length. rewrite Nat.sub_0_r.
  change (takenFrom reservations b (Z.to_nat num) (Unallocated b)) with os in *.
  simpl length in Hok. rewrite Nat.sub_0_r in Hok.
  change (takenFrom reservations b (Z.to_nat num) (Unallocated b)) with os in *.
  eexists. split; [done|]. split_and!; [|apply Hok|done|apply Hok|].
  - split; simpl.
    + destruct (lo_header _ _ _ _ _ Hok) as (-> & _). apply Hb.
    + unfold NumAddresses. simpl. destruct (lo_header _ _ _ _ _ Hok) as (-> & _).
      rewrite (lo_length _ _ _ _ _ Hok). apply Hb.
    + intros o. rewrite (lo_free _ _ _ _ _ Hok), <-(wf_unallocated b Hb).
      rewrite list_elem_of_In, filter_In, <-list_elem_of_In, negb_true_iff, bool_decide_eq_false. done.
    + apply NoDup_ListNoDup, List.NoDup_filter, NoDup_ListNoDup, Hb.
    + apply Hok.
  - intros o. unfold GetSequenceNumberForOrdinal. simpl. rewrite (lo_seq _ _ _ _ _ Hok). by case_decide.
Qed.

Lemma taken_spec num b o :
  o ∈ taken reservations num b → o ∈ Unallocated b ∧ MatchesIP reservations (addressOf b o) = false.
Proof.
  intros Ho%take_elem_of. apply list_elem_of_In, filter_In in Ho as [?%list_elem_of_In Ha].
  split; [done|]. by apply negb_true_iff.
Qed.

Lemma taken_NoDup num b : block_wf b → NoDup (taken reservations num b).
Proof.
  intros Hb. unfold taken. eapply sublist_NoDup; [|apply sublist_take].
  apply NoDup_ListNoDup, List.NoDup_filter, NoDup_ListNoDup, Hb.
Qed.

Lemma ipNetOf_inj b o o' : ipNetOf b o = ipNetOf b o' → o = o'.
Proof. unfold ipNetOf, addressOf. intros [= ?]. lia. Qed.
End autoAssign_top.

(** C15: [autoAssign], for any filter of reserved addresses: on a well-formed block
    that passes the affinity check it succeeds and takes the first [num] free and
    unreserved ordinals, in order; it returns exactly their addresses (with the
    block's mask), gives them the requested attribute and the block's sequence number,
    keeps the order of the remaining free list, changes no other allocation and
    preserves the block's invariant. *)
Theorem autoAssign_refines {F} `{addrFilter F} (reservations : F) (num : Z) (handleID : option string)
    (cfg : AffinityConfig) (attrs : option (gmap string string)) (check : bool) (b : AllocationBlock) :
  block_wf b → affinityGuard check cfg b = None →
  let os := taken reservations num b in
  ∃ b', autoAssign num handleID cfg attrs check reservations b = Ret (b', map (ipNetOf b) os) ∧
    block_wf b' ∧ same_header b b' ∧
    Unallocated b' = List.filter (λ o, negb (bool_decide (o ∈ os))) (Unallocated b) ∧
    (∀ o, view b' o = if decide (o ∈ os) then Some (MkAttribute handleID attrs None None) else view b o) ∧
    (∀ o, GetSequenceNumberForOrdinal b' o =
            if decide (o ∈ os) then SequenceNumber b else GetSequenceNumberForOrdinal b o).
Proof. apply autoAssign_spec. Qed.

(** A /29 block with two addresses taken by a pod, one in cooldown. *)
Definition example_cidr : IPNet := v4net 10 0 0 8 29.
Definition example_attr : AllocationAttribute :=
  MkAttribute (Some "pod-a") (Some {["pod" := "a"; "namespace" := "ns"]}) None None.
Definition example_block : AllocationBlock :=
  MkBlock example_cidr (Some "host:node1") None
    [Some 0; None; Some 0; None; Some 1; None; None; None] [6; 1; 3; 5; 7]
    [example_attr; MkAttribute None None None (Some 5000000000%Z)] 77 {[0 := 77%Z; 2 := 77%Z]} false.

Lemma example_block_wf : block_wf example_block.
Proof.
  split.
  - split_and!; [|done|done]. split; [|done]. split; done.
  - done.
  - intros o. split.
    + intros Ho. repeat (apply elem_of_cons in Ho as [->|Ho]; [done|]). by apply not_elem_of_nil in Ho.
    + do 8 (destruct o as [|o]; [simpl; intros ?; (done || set_solver)|]). done.
  - unfold example_block. simpl. repeat (apply NoDup_cons_2; [set_solver|]). apply NoDup_nil_2.
  - intros o i. do 8 (destruct o as [|o]; [simpl; intros ?; simplify_eq; simpl; lia|]). done.
Qed.

Lemma autoAssign_refines_witness :
  ∃ b', autoAssign 2 (Some "h") (MkAffinityConfig "host" "node1") None true [v4net 10 0 0 8 30] example_block
          = Ret (b', [v4net 10 0 0 14 29; v4net 10 0 0 13 29]) ∧ block_wf b' ∧
        view b' 6 = Some (MkAttribute (Some "h") None None None) ∧ view b' 1 = None.
Proof.
  destruct (autoAssign_refines [v4net 10 0 0 8 30] 2 (Some "h") (MkAffinityConfig "host" "node1") None true
              example_block example_block_wf eq_refl) as (b' & Heq & Hwf & _ & _ & Hv & _).
  exists b'. split_and!; [exact Heq|exact Hwf|by rewrite (Hv 6)|by rewrite (Hv 1)].
Defined.

(** ** Free addresses *)
Lemma addressOf_contained b o :
  cidr_ok (CIDR b) → (Z.of_nat o < NumAddresses b)%Z → Contains (CIDR b) (addressOf b o) = true.
Proof.
  intros Hc Ho. destruct (NumAddresses_ok _ Hc) as [Hn _]. destruct Hc as (Hwf & _ & Hf).
  apply Contains_interval; [done|]. unfold NumAddresses in Ho. simpl. split; [done|]. lia.
Qed.

Lemma NumFreeAddresses_spec {F} `{AddrFilterLaws F} (reservations : F) b :
  block_wf b → filter_wf reservations →
  NumFreeAddresses reservations b = Some (length (List.filter (assignable reservations b) (Unallocated b))).
Proof.
  intros Hb Hf. unfold NumFreeAddresses.
  assert (∀ o, o ∈ Unallocated b → (Z.of_nat o < NumAddresses b)%Z) as Hin.
  { intros o Ho%(wf_unallocated b Hb)%lookup_lt_Some. by apply ordinal_lt. }
  assert (net_wf (CIDR b)) as Hn by apply Hb.
  destruct (MatchesWholeCIDR reservations (CIDR b)) eqn:Hw; [|destruct (MatchesSome reservations (CIDR b)) eqn:Hs].
  - f_equal. symmetry. apply length_zero_iff_nil. apply elem_of_nil_inv. intros o Ho.
    apply list_elem_of_In, filter_In in Ho as [Ho%list_elem_of_In Ha]. apply negb_true_iff in Ha.
    rewrite (MatchesWholeCIDR_sound _ (CIDR b)) in Ha; [done..|]. apply addressOf_contained; [apply Hb|auto].
  - clear Hw Hs. revert Hin. induction (Unallocated b) as [|o l IH]; intros Hin; [done|]. simpl.
    rewrite OrdinalToIP_ok; [|apply Hb|apply Hin; by left]. rewrite IH by (intros; apply Hin; by right).
    fold (addressOf b o). change (assignable reservations b o) with (negb (MatchesIP reservations (addressOf b o))).
    by destruct (MatchesIP reservations (addressOf b o)).
  - f_equal. f_equal. symmetry. apply forallb_filter_id, forallb_forall. intros o Ho%list_elem_of_In.
    apply negb_true_iff. apply (MatchesSome_complete _ (CIDR b)); [done..|]. apply addressOf_contained; [apply Hb|auto].
Qed.

(** C35: [NumFreeAddresses], with its two shortcuts on whole CIDRs, is exactly what
    [autoAssign] can hand out: asking for [num] addresses returns the minimum of [num]
    and the reported number of free addresses, all distinct. *)
Theorem NumFreeAddresses_is_capacity {F} `{AddrFilterLaws F} (reservations : F) (num : Z) handleID cfg attrs check b :
  block_wf b → filter_wf reservations → affinityGuard check cfg b = None →
  ∃ b' ips n, autoAssign num handleID cfg attrs check reservations b = Ret (b', ips) ∧
    NumFreeAddresses reservations b = Some n ∧ length ips = Z.to_nat num `min` n ∧ NoDup ips.
Proof.
  intros Hb Hf Hg. destruct (autoAssign_spec reservations num handleID cfg attrs check b Hb Hg) as (b' & Heq & _).
  eexists b', _, _. split_and!; [done|by apply NumFreeAddresses_spec| |].
  - rewrite length_map. unfold taken. apply length_take.
  - apply NoDup_fmap_2; [|by apply taken_NoDup]. intros o o'. apply ipNetOf_inj.
Qed.

Lemma NumFreeAddresses_is_capacity_witness :
  ∃ b' ips n, autoAssign 9 (Some "h") (MkAffinityConfig "host" "node1") None true [v4net 10 0 0 8 30] example_block
                = Ret (b', ips) ∧
    NumFreeAddresses [v4net 10 0 0 8 30] example_block = Some n ∧ length ips = 9 `min` n ∧ NoDup ips.
Proof.
  apply (NumFreeAddresses_is_capacity [v4net 10 0 0 8 30] 9).
  - exact example_block_wf.
  - repeat constructor; vm_compute; congruence.
  - reflexivity.
Defined.

(** ** Assigning a given address *)
Lemma assign_success affinityCheck ip handleID attrs cfg b o :
  block_wf b → affinityGuard affinityCheck cfg b = None → IPToOrdinal b ip = Ret o → view b o = None →
  ∃ b', assign affinityCheck ip handleID attrs cfg b = (b', Ret ()) ∧ block_wf b' ∧ same_header b b' ∧
    (∀ o', view b' o' = if decide (o' = o) then Some (MkAttribute handleID attrs None None) else view b o').
Proof.
  intros Hb Hg Ho Hv. pose proof (IPToOrdinal_Ret _ _ _ Ho) as Hlt%ordinal_lt; [|done].
  assert (Allocations b !! o = Some None) as Hfree by (by apply wf_unallocated, view_None).
  unfold assign. rewrite Hg, Ho. unfold getAllocation, index. simpl. rewrite Hfree.
  set (b1 := SetSequenceNumberForOrdinal o b).
  assert (block_wf b1) as Hb1 by (apply block_wf_seq, Hb).
  destruct (findOrAddAttribute b1 handleID attrs None) as [b2 i] eqn:E.
  destruct (findOrAddAttribute_spec _ _ _ _ _ _ E) as (Hi & Hp & Hb2).
  assert (block_wf b2 ∧ ∀ o', view b2 o' = view b o') as [Hwf2 Hv2].
  { rewrite Hb2. split; [by apply block_wf_prefix_attrs|]. intros o'. rewrite view_prefix_attrs; [done| |done].
    apply (wf_attr b1 Hb1). }
  assert (Allocations b2 = Allocations b ∧ Unallocated b2 = Unallocated b ∧ same_header b b2) as (Ha2 & Hu2 & Hh2).
  { rewrite Hb2. done. }
  rewrite setAllocation_ok by (by rewrite Ha2). eexists. split; [done|]. split_and!; [|done|].
  - apply block_wf_remove; [done| |by eapply lookup_lt_Some]. by rewrite Ha2.
  - intros o'. rewrite view_set_Unallocated, (view_set_Allocations _ _ _ (MkAttribute handleID attrs None None)), Hv2;
      [done|by rewrite Ha2|done].
Qed.

(** C36: [assign] on every branch, for a well-formed block: a failing affinity check or
    an address outside the block leaves the block as it was; an address that is
    allocated (to a workload or in cooldown) is refused, only the sequence number
    stored for it being overwritten; otherwise the assignment succeeds, gives the
    address the requested attribute, changes no other allocation and keeps the
    invariant.  It never panics. *)
Theorem assign_branches affinityCheck ip handleID attrs cfg b :
  block_wf b →
  match affinityGuard affinityCheck cfg b, IPToOrdinal b ip with
  | Some e, _ => assign affinityCheck ip handleID attrs cfg b = (b, Fail e)
  | None, Ret o =>
      match view b o with
      | Some _ => assign affinityCheck ip handleID attrs cfg b =
                    (SetSequenceNumberForOrdinal o b, Fail (ErrAlreadyAssigned ip))
      | None =>
          ∃ b', assign affinityCheck ip handleID attrs cfg b = (b', Ret ()) ∧ block_wf b' ∧ same_header b b' ∧
            (∀ o', view b' o' = if decide (o' = o) then Some (MkAttribute handleID attrs None None) else view b o')
      end
  | None, r => r = Fail (ErrIPNotInBlock ip) ∧
               assign affinityCheck ip handleID attrs cfg b = (b, Fail (ErrIPNotInBlock ip))
  end.
Proof.
  intros Hb. destruct (affinityGuard affinityCheck cfg b) as [e|] eqn:Hg; [unfold assign; by rewrite Hg|].
  destruct (IPToOrdinal b ip) as [o|e| |] eqn:Ho.
  - destruct (view b o) eqn:Hv; [|by apply assign_success]. unfold assign. rewrite Hg, Ho.
    unfold getAllocation, index. simpl. unfold view in Hv. by destruct (Allocations b !! o) as [[i|]|].
  - unfold IPToOrdinal in Ho. destruct (_ || _)%bool eqn:E; [|done]. injection Ho as <-. split; [done|].
    unfold assign, IPToOrdinal. by rewrite Hg, E.
  - unfold IPToOrdinal in Ho. by destruct (_ || _)%bool.
  - unfold IPToOrdinal in Ho. by destruct (_ || _)%bool.
Qed.

Lemma assign_branches_witness :
  ∃ b', assign true (MkIP false 167772169) (Some "h") None (MkAffinityConfig "host" "node1") example_block
          = (b', Ret ()) ∧ block_wf b' ∧ same_header example_block b' ∧
        (∀ o', view b' o' = if decide (o' = 1) then Some (MkAttribute (Some "h") None None None)
                            else view example_block o').
Proof.
  exact (assign_branches true (MkIP false 167772169) (Some "h") None (MkAffinityConfig "host" "node1")
           example_block example_block_wf).
Defined.

(** ** New blocks *)
Section newBlock.
Implicit Types (l : list (option nat)) (os : list nat).

Lemma allocateAll_length v os l : length (allocateAll v os l) = length l.
Proof.
  unfold allocateAll. revert l. induction os as [|o os IH]; intros l; simpl; [done|].
  by rewrite IH, length_insert.
Qed.

Lemma allocateAll_lookup v os l o :
  allocateAll v os l !! o =
    if decide (o ∈ os ∧ o < length l) then Some (Some v) else l !! o.
Proof.
  unfold allocateAll. revert l. induction os as [|o' os IH]; intros l; cbn [foldl].
  { by rewrite decide_False by (intros [?%not_elem_of_nil _]; done). }
  rewrite IH, length_insert. destruct (decide (o ∈ os ∧ o < length l)) as [[Ho Hl]|Hn].
  - by rewrite decide_True by (split; [by right|done]).
  - destruct (decide (o = o')) as [->|Hne].
    + destruct (decide (o' < length l)) as [Hl|Hl].
      * rewrite list_lookup_insert_eq by done. by rewrite decide_True by (split; [by left|done]).
      * rewrite decide_False by tauto. by rewrite list_insert_ge by lia.
    + rewrite list_lookup_insert_ne by done. rewrite decide_False; [done|].
      rewrite elem_of_cons. tauto.
Qed.
End newBlock.

(** Whether a new block reserves an ordinal. *)
Definition reservedOrdinal (n : nat) (r : option HostReservedAttr) (o : nat) : Prop :=
  match r with Some r => (o < StartOfBlock r ∨ n - EndOfBlock r ≤ o) ∧ o < n | None => False end.

#[global] Instance reservedOrdinal_dec n r o : Decision (reservedOrdinal n r o).
Proof. destruct r; apply _. Defined.

Definition reservedAttribute (r : option HostReservedAttr) : option AllocationAttribute :=
  match r with
  | Some r => Some (MkAttribute (Some (rsvd_Handle r)) (Some {["note" := rsvd_Note r]}) None None)
  | None => None
  end.

Lemma take_drop_seq s k m n : s + k ≤ n → take k (drop s (seq m n)) = seq (m + s) k.
Proof.
  intros Hle. apply list_eq. intros i. destruct (decide (i < k)).
  - rewrite lookup_take_lt, lookup_drop, lookup_seq_lt, lookup_seq_lt by lia. f_equal. lia.
  - rewrite lookup_take_ge by lia. symmetry. apply lookup_ge_None_2. rewrite length_seq. lia.
Qed.

Lemma newBlock_reserved_alloc n s e o :
  s + e ≤ n →
  allocateAll 0 (map (λ i, n - i) (seq 1 e)) (allocateAll 0 (seq 0 s) (replicate n None)) !! o =
    if decide (o < n) then
      if decide (o < s ∨ n - e ≤ o) then Some (Some 0) else Some None
    else None.
Proof.
  intros Hle. rewrite !allocateAll_lookup, allocateAll_length, length_replicate.
  assert (o ∈ map (λ i, n - i) (seq 1 e) ∧ o < n ↔ n - e ≤ o ∧ o < n) as Hiff.
  { rewrite list_elem_of_In, in_map_iff. setoid_rewrite in_seq. split.
    - intros [(i & <- & Hi) ?]. lia.
    - intros [H1 H2]. split; [|done]. exists (n - o). lia. }
  assert (o ∈ seq 0 s ↔ o < s) as Hs by (rewrite elem_of_seq; lia).
  destruct (decide (o < n)) as [Hn|Hn].
  - repeat case_decide; try done; try lia; [tauto..|]. by apply lookup_replicate_2.
  - rewrite decide_False by (rewrite Hiff; lia). rewrite decide_False by lia.
    apply lookup_replicate_None. lia.
Qed.

Lemma newBlock_spec nowNano cidr rsvd :
  let n := Z.to_nat (NumAddresses_of cidr) in
  cidr_ok cidr →
  match rsvd with Some r => StartOfBlock r + EndOfBlock r ≤ n | None => True end →
  ∃ b, newBlock nowNano cidr rsvd = Ret b ∧ block_wf b ∧ CIDR b = cidr ∧ SequenceNumber b = nowNano ∧
    (∀ o, view b o = if decide (reservedOrdinal n rsvd o) then reservedAttribute rsvd else None).
Proof.
  intros n Hc Hr. destruct (NumAddresses_ok _ Hc) as [Hn1 Hn2]. unfold newBlock. fold n.
  destruct (Z.ltb_spec (NumAddresses_of cidr) 0); [lia|]. destruct rsvd as [r|].
  - destruct (Nat.ltb_spec n (StartOfBlock r + EndOfBlock r)); [lia|].
    eexists. split; [done|]. split_and!; [|done|done|].
    + split; simpl; [done| | | |].
      * by rewrite !allocateAll_length, length_replicate.
      * intros o. rewrite take_drop_seq, newBlock_reserved_alloc, elem_of_seq by lia.
        repeat case_decide; split; intros; try done; lia.
      * rewrite take_drop_seq by lia. apply NoDup_seq.
      * intros o i. rewrite newBlock_reserved_alloc by lia. repeat case_decide; try done. intros [= <-]. lia.
    + intros o. unfold view. simpl. rewrite newBlock_reserved_alloc by lia.
      repeat case_decide; try done; lia.
  - eexists. split; [done|]. split_and!; [|done|done|].
    + split; simpl; [done| | | |].
      * apply length_replicate.
      * intros o. rewrite elem_of_seq, lookup_replicate. intuition lia.
      * apply NoDup_seq.
      * intros o i [? _]%lookup_replicate. done.
    + intros o. rewrite decide_False by tauto. unfold view. simpl.
      destruct (replicate n None !! o) as [x|] eqn:E; [|done]. by apply lookup_replicate in E as [-> _].
Qed.

(** A new block satisfies the invariant, and the only allocated ordinals are the
    ones the host reservation asks for at the start and at the end of the block (they
    share one attribute with the reservation's handle and note). *)
Theorem newBlock_correct nowNano cidr rsvd :
  let n := Z.to_nat (NumAddresses_of cidr) in
  cidr_ok cidr →
  match rsvd with Some r => StartOfBlock r + EndOfBlock r ≤ n | None => True end →
  ∃ b, newBlock nowNano cidr rsvd = Ret b ∧ block_wf b ∧ CIDR b = cidr ∧ SequenceNumber b = nowNano ∧
    (∀ o, view b o = if decide (reservedOrdinal n rsvd o) then reservedAttribute rsvd else None).
Proof. apply newBlock_spec. Qed.

Lemma newBlock_correct_witness :
  ∃ b, newBlock 42 (v4net 10 0 0 64 26) (Some (MkHostReservedAttr 3 1 WindowsReservedHandle "win")) = Ret b ∧
    block_wf b ∧ view b 2 ≠ None ∧ view b 3 = None ∧ view b 63 ≠ None.
Proof.
  destruct (newBlock_correct 42 (v4net 10 0 0 64 26) (Some (MkHostReservedAttr 3 1 WindowsReservedHandle "win")))
    as (b & Heq & Hwf & _ & _ & Hv).
  { split_and!; [|done|done]. split; [|done]. split; done. }
  { vm_compute. lia. }
  exists b. rewrite (Hv 2), (Hv 3), (Hv 63). vm_compute in Heq. split_and!; [exact Heq|exact Hwf|done..].
Defined.

(** ** Addresses and ordinals *)
(** C40: [IPToOrdinal] and [OrdinalToIP] are inverse on the block: every ordinal has an
    address that is in the block's CIDR and converts back, and an address of the
    block's family less than 2^63 away converts to an ordinal exactly when it is
    in the CIDR (any other address is an error). *)
Theorem ordinals_are_addresses b ip :
  cidr_ok (CIDR b) → ip_v6 ip = ip_v6 (net_IP (CIDR b)) →
  (- 2 ^ 63 ≤ ip_int ip - ip_int (net_IP (CIDR b)) < 2 ^ 63)%Z →
  (∀ o, (Z.of_nat o < NumAddresses b)%Z →
     OrdinalToIP b o = Some (addressOf b o) ∧ Contains (CIDR b) (addressOf b o) = true ∧
     IPToOrdinal b (addressOf b o) = Ret o) ∧
  (if Contains (CIDR b) ip then ∃ o, IPToOrdinal b ip = Ret o ∧ OrdinalToIP b o = Some ip
   else IPToOrdinal b ip = Fail (ErrIPNotInBlock ip)).
Proof.
  intros Hc Hv Hd. split.
  { intros o Ho. split_and!; [by apply OrdinalToIP_ok|by apply addressOf_contained|by apply IPToOrdinal_ok]. }
  destruct (NumAddresses_ok _ Hc) as [Hn1 Hn2]. pose proof Hc as (Hwf & _ & Hf).
  pose proof (Contains_interval (CIDR b) ip Hwf) as Hi. rewrite Hf in Hi.
  destruct (Contains (CIDR b) ip).
  - destruct Hi as [Hi _]. destruct (Hi eq_refl) as [_ Hr].
    assert (ip = addressOf b (Z.to_nat (ip_int ip - ip_int (net_IP (CIDR b))))) as ->.
    { destruct ip as [v x]; unfold addressOf; simpl in *. f_equal; [done|lia]. }
    eexists. split; [apply IPToOrdinal_ok; [done|]|apply OrdinalToIP_ok; [done|]];
      unfold NumAddresses; simpl; lia.
  - unfold IPToOrdinal, IPToBigInt. rewrite wrap64_small by lia.
    destruct (Z.ltb_spec (ip_int ip - ip_int (net_IP (CIDR b))) 0); [done|].
    destruct (Z.leb_spec (NumAddresses b) (ip_int ip - ip_int (net_IP (CIDR b)))); [done|].
    destruct Hi as [_ Hi]. assert (false = true) by (apply Hi; split; [done|unfold NumAddresses in *; lia]). done.
Qed.

Lemma ordinals_are_addresses_witness :
  IPToOrdinal example_block (MkIP false 167772173) = Ret 5 ∧
  (if Contains (CIDR example_block) (MkIP false 167772176)
   then ∃ o, IPToOrdinal example_block (MkIP false 167772176) = Ret o ∧
             OrdinalToIP example_block o = Some (MkIP false 167772176)
   else IPToOrdinal example_block (MkIP false 167772176) = Fail (ErrIPNotInBlock (MkIP false 167772176))).
Proof.
  destruct (ordinals_are_addresses example_block (MkIP false 167772176)) as [H1 H2].
  - apply example_block_wf.
  - reflexivity.
  - vm_compute. split; congruence.
  - split; [exact (proj2 (proj2 (H1 5 eq_refl)))|exact H2].
Defined.

(** The range restriction is needed: [IPToOrdinal] looks at the low 64 bits of the
    distance only, so it accepts an IPv6 address that is not in the block's CIDR and
    gives it the ordinal of another address. *)
Theorem IPToOrdinal_wraps :
  ∃ b ip o, block_wf b ∧ ip_wf ip ∧ ip_v6 ip = ip_v6 (net_IP (CIDR b)) ∧
    Contains (CIDR b) ip = false ∧ IPToOrdinal b ip = Ret o ∧ OrdinalToIP b o ≠ Some ip.
Proof.
  destruct (newBlock_spec 0 (MkIPNet (MkIP true (Z.shiftl 64768 112)) 122) None) as (b & Heq & Hb & Hc & _ & _).
  { split_and!; [|done|done]. split; [|done]. split; done. } { done. }
  exists b, (MkIP true (Z.shiftl 64768 112 + 2 ^ 64 + 5)), 5.
  split; [done|]. rewrite Hc. split_and!; [by split|done|done| |].
  - unfold IPToOrdinal, NumAddresses. by rewrite Hc.
  - unfold OrdinalToIP. rewrite Hc. vm_compute. congruence.
Qed.

(** ** Affinity *)
(** The affinity string that [getAffinityConfig] parses is the one that the strict
    check of [autoAssign] and [assign] accepts: a block has a parsed affinity exactly
    when its affinity is "host:<h>" or "virtual:<h>", and then the check passes for
    the parsed configuration and fails for every other one. *)
Theorem affinity_check_agrees b cfg :
  getAffinityConfig b = Some cfg →
  Affinity b = Some (aff_Type cfg +:+ ":" +:+ aff_Host cfg) ∧
  (aff_Type cfg = "host" ∨ aff_Type cfg = "virtual") ∧
  (∀ cfg', (aff_Type cfg' = "host" ∨ aff_Type cfg' = "virtual") →
     affinityGuard true cfg' b = None ↔ cfg' = cfg).
Proof.
  unfold getAffinityConfig, affinityGuard, affinityMatches. destruct (Affinity b) as [a|]; [|done].
  intros Hcfg.
  assert (a = aff_Type cfg +:+ ":" +:+ aff_Host cfg ∧ (aff_Type cfg = "host" ∨ aff_Type cfg = "virtual"))
    as [-> Ht].
  { destruct (CutPrefix a "host:") as [h|] eqn:E1.
    - apply CutPrefix_Some in E1 as ->. injection Hcfg as <-. by split; [|left].
    - destruct (CutPrefix a "virtual:") as [h|] eqn:E2; [|done].
      apply CutPrefix_Some in E2 as ->. injection Hcfg as <-. by split; [|right]. }
  split_and!; [done|done|]. intros cfg' Ht'. destruct cfg as [t h], cfg' as [t' h']. simpl in *.
  destruct (bool_decide_reflect (t +:+ ":" +:+ h = t' +:+ ":" +:+ h')) as [Heq|Hne]; simpl.
  - split; [intros _|done]. destruct Ht as [-> | ->], Ht' as [-> | ->];
      rewrite !string_app_cons, ?string_app_nil_l in Heq; by simplify_eq.
  - split; [done|]. intros [= -> ->]. done.
Qed.

Lemma affinity_check_agrees_witness :
  Affinity example_block = Some ("host" +:+ ":" +:+ "node1") ∧ ("host" = "host" ∨ "host" = "virtual") ∧
  (∀ cfg', (aff_Type cfg' = "host" ∨ aff_Type cfg' = "virtual") →
     affinityGuard true cfg' example_block = None ↔ cfg' = MkAffinityConfig "host" "node1").
Proof. exact (affinity_check_agrees example_block (MkAffinityConfig "host" "node1") eq_refl). Defined.
