(* ===== verification/IPAMRelease.v ===== *)
(** * What IPAM blocks promise when they release addresses and change owners

    Releasing an address redirects its ordinal to a cooldown attribute; only garbage
    collection, after the cooldown, makes it free again.  [redirected] is the common
    step of [release], [releaseByHandle] and [updateAllocationOwnership]; the end of
    the file puts all the operations together as a transition system and shows that
    its reachable blocks are well formed. *)
From S2P Require Import Prelude.
From S2P Require Import IPNet.
From S2P Require Import IPAMBlock.
From S2P Require Import IPAMBlockInv.
From S2P Require Import IPAMAssign.
From stdpp Require Import base list gmap strings numbers.
From stdpp Require Import options.

(** ** Redirecting allocated ordinals to an attribute *)
Record redirected (a : AllocationAttribute) (b b' : AllocationBlock) (os : list nat) : Prop := {
  rd_header : same_header b b';
  rd_unallocated : Unallocated b' = Unallocated b;
  rd_length : length (Allocations b') = length (Allocations b);
  rd_valid : attrs_valid b';
  rd_view o : view b' o = if decide (o ∈ os) then Some a else view b o;
  rd_free o : Allocations b' !! o = Some None ↔ Allocations b !! o = Some None
}.

Section redirect.
Context (a : AllocationAttribute).
Implicit Types (b : AllocationBlock) (o i : nat) (os : list nat).

Lemma redirected_nil b : attrs_valid b → redirected a b b [].
Proof.
  intros Hv. split; [done..| |done]. intros o. by rewrite decide_False by (by intros ?%not_elem_of_nil).
Qed.

Lemma redirected_attrs b l :
  attrs_valid b → Attributes b `prefix_of` l → redirected a b (set_Attributes (λ _, l) b) [].
Proof.
  intros Hv Hp. split; try done.
  - intros o i Hi%Hv. simpl. apply prefix_length in Hp. lia.
  - intros o. rewrite decide_False by (by intros ?%not_elem_of_nil). by apply view_prefix_attrs.
Qed.

Lemma redirected_ext b b' os os' :
  (∀ o, o ∈ os ↔ o ∈ os') → redirected a b b' os → redirected a b b' os'.
Proof.
  intros Heq H. split; try apply H. intros o. rewrite (rd_view _ _ _ _ H). by apply decide_ext.
Qed.

Lemma redirected_step b b1 os o i :
  redirected a b b1 os → view b o ≠ None → Attributes b1 !! i = Some a →
  redirected a b (set_Allocations <[o := Some i]> b1) (o :: os).
Proof.
  intros H Hv Hi.
  assert (∃ a', view b1 o = Some a') as [a' Ha'].
  { rewrite (rd_view _ _ _ _ H). case_decide; [by eexists|]. by destruct (view b o); [eexists|]. }
  pose proof (view_Some_lt _ _ _ Ha') as Hlt. split; simpl.
  - apply H.
  - apply H.
  - rewrite length_insert. apply H.
  - apply attrs_valid_allocate; [apply H|by eapply lookup_lt_Some].
  - intros x. rewrite (view_set_Allocations _ _ _ a) by done. rewrite (rd_view _ _ _ _ H).
    destruct (decide (x = o)) as [->|Hne]; [by rewrite decide_True by (by left)|].
    apply decide_ext. rewrite elem_of_cons. tauto.
  - intros x. rewrite <-(rd_free _ _ _ _ H). destruct (decide (o = x)) as [<-|].
    + rewrite list_lookup_insert_eq by done. split; [done|]. intros Hn. unfold view in Ha'. by rewrite Hn in Ha'.
    + by rewrite list_lookup_insert_ne.
Qed.

Lemma redirected_seq b b1 os o :
  redirected a b b1 os → redirected a b (SetSequenceNumberForOrdinal o b1) os.
Proof. intros H. split; try apply H. Qed.

Lemma redirected_wf b b' os : block_wf b → redirected a b b' os → block_wf b'.
Proof.
  intros Hb H. split.
  - destruct (rd_header _ _ _ _ H) as (-> & _). apply Hb.
  - rewrite (rd_length _ _ _ _ H). unfold NumAddresses. destruct (rd_header _ _ _ _ H) as (-> & _). apply Hb.
  - intros o. rewrite (rd_unallocated _ _ _ _ H), (rd_free _ _ _ _ H). apply Hb.
  - rewrite (rd_unallocated _ _ _ _ H). apply Hb.
  - apply H.
Qed.

(** The loop that marks ordinals. *)
Lemma markCooldown_spec os b b1 os0 i :
  redirected a b b1 os0 → Attributes b1 !! i = Some a → (∀ o, o ∈ os → view b o ≠ None) →
  ∃ b', markCooldown i os b1 = Ret b' ∧ redirected a b b' (os ++ os0).
Proof.
  revert b1 os0. induction os as [|o os IH]; intros b1 os0 H Hi Hv; [by eexists|].
  cbn [markCooldown]. pose proof (Hv o ltac:(by left)) as Ho.
  assert (o < length (Allocations b1)) as Hlt.
  { rewrite (rd_length _ _ _ _ H). destruct (view b o) eqn:E; [|done]. by eapply view_Some_lt. }
  rewrite setAllocation_ok by done. cbn [obind].
  destruct (IH (SetSequenceNumberForOrdinal o (set_Allocations <[o := Some i]> b1)) (o :: os0)) as (b' & -> & H').
  { by apply redirected_seq, redirected_step. } { done. } { intros x Hx. apply Hv. by right. }
  exists b'. split; [done|]. eapply redirected_ext; [|exact H'].
  intros x. simpl. rewrite elem_of_cons, !elem_of_app, elem_of_cons. tauto.
Qed.
End redirect.

(** Collecting garbage after a redirection. *)
Lemma redirected_collected a b b1 os c now :
  block_wf b → redirected a b b1 os →
  ∃ b' ch, garbageCollect c now b1 = Ret (b', ch) ∧ block_wf b' ∧ same_header b b' ∧
    (∀ o, view b' o = if decide (o ∈ os) then if cooled c now a then None else Some a
                      else if expired c now b o then None else view b o).
Proof.
  intros Hb H. destruct (garbageCollect_spec c now b1) as (b' & ch & -> & Hb' & Hh & Hv & _).
  { by eapply redirected_wf. }
  exists b', ch. split_and!; [done|done|etrans; [apply H|done]|]. intros o. rewrite Hv.
  unfold expired. rewrite (rd_view _ _ _ _ H). case_decide; done.
Qed.

Definition cooldownAttr (now : Z) : AllocationAttribute := MkAttribute None None None (Some now).

Lemma addCooldown_redirected now b :
  attrs_valid b →
  redirected (cooldownAttr now) b (fst (addCooldownAttribute now b)) [] ∧
  Attributes (fst (addCooldownAttribute now b)) !! snd (addCooldownAttribute now b) = Some (cooldownAttr now).
Proof.
  intros Hv. unfold addCooldownAttribute. cbn [fst snd]. split.
  - change (set_Attributes (λ l, l ++ [MkAttribute None None None (Some now)]) b)
      with (set_Attributes (λ _, Attributes b ++ [cooldownAttr now]) b).
    apply redirected_attrs; [done|by apply prefix_app_r].
  - simpl. rewrite lookup_app_r by lia. by rewrite Nat.sub_diag.
Qed.

#[global] Instance List_filter_Permutation {A} (f : A → bool) : Proper ((≡ₚ) ==> (≡ₚ)) (List.filter f).
Proof.
  intros l l' Hp. induction Hp as [|x l l' _ IH|x y l|l1 l2 l3 _ IH1 _ IH2]; simpl; [done| | |by etrans].
  - destruct (f x); by rewrite IH.
  - destruct (f x), (f y); [constructor|done..].
Qed.

(** ** [release] *)
Section release.
Context (MustParseIP : string → option IP).
Context (enumerate : gmap string ReleaseOptions → list (string * ReleaseOptions)).
Implicit Types (b : AllocationBlock) (o : nat) (s : string) (opts : ReleaseOptions).

(** An ordinal is active when it is allocated and not in cooldown. *)
Definition active b o : bool :=
  match view b o with Some a => match ReleasedAt a with None => true | Some _ => false end | None => false end.

Definition handleAt b o : string := match view b o with Some a => handleOf a | None => "" end.

Definition ordinalOf b s : option nat :=
  match MustParseIP s with
  | Some ip => match IPToOrdinal b ip with Ret o => Some o | _ => None end
  | None => None
  end.

(** An entry of the request that does not make the whole request fail. *)
Definition entryOk b (e : string * ReleaseOptions) : Prop :=
  ∃ o, ordinalOf b e.1 = Some o ∧ seqMismatch b o (opt_SequenceNumber e.2) = None ∧
    (active b o = true → opt_Handle e.2 = "" ∨ opt_Handle e.2 = handleAt b o).

Definition releasedOrdinals b (todo : list (string * ReleaseOptions)) : list nat :=
  List.filter (active b) (omap (λ e, ordinalOf b e.1) todo).

Definition countHandle b (h : string) (os : list nat) : nat :=
  length (List.filter (λ o, bool_decide (handleAt b o = h)) os).

(** One iteration of the first loop on an acceptable entry. *)
Lemma releaseLoop_step b s opts todo unalloc counts ords o :
  block_wf b → ordinalOf b s = Some o → seqMismatch b o (opt_SequenceNumber opts) = None →
  (active b o = true → opt_Handle opts = "" ∨ opt_Handle opts = handleAt b o) →
  ∃ unalloc' counts',
    releaseLoop MustParseIP b ((s, opts) :: todo) unalloc counts ords =
    releaseLoop MustParseIP b todo unalloc' counts' (ords ++ List.filter (active b) [o]) ∧
    (∀ h, h ≠ "" → default 0 (counts' !! h) =
                   default 0 (counts !! h) + countHandle b h (List.filter (active b) [o])).
Proof.
  intros Hb Ho Hs Hh. unfold ordinalOf in Ho. cbn [releaseLoop]. destruct (MustParseIP s) as [ip|]; [|done].
  destruct (IPToOrdinal b ip) as [o'| | |] eqn:E; try done. injection Ho as ->. cbn [obind]. rewrite Hs.
  apply IPToOrdinal_Ret, ordinal_lt in E; [|done].
  destruct (getAllocation_ok b o E) as (alloc & -> & Hal). cbn [obind].
  unfold active, handleAt in Hh. cbn [List.filter]. unfold active, countHandle, handleAt.
  destruct alloc as [i|]; [|].
  2: { assert (view b o = None) as Hv by (unfold view; by rewrite Hal). rewrite Hv.
       eexists _, counts. split; [by rewrite app_nil_r|]. intros h _. cbn [List.filter length]. lia. }
  destruct (lookup_lt_is_Some_2 (Attributes b) i) as [a Ha]; [by eapply (wf_attr b Hb)|].
  assert (view b o = Some a) as Hv by (unfold view; by rewrite Hal).
  unfold index. rewrite Ha. cbn [obind]. rewrite Hv in Hh |- *.
  destruct (ReleasedAt a).
  { eexists _, counts. split; [by rewrite app_nil_r|]. intros h _. cbn [List.filter length]. lia. }
  assert (negb (bool_decide (opt_Handle opts = "")) && negb (bool_decide (handleOf a = opt_Handle opts)) = false)
    as ->.
  { destruct (Hh eq_refl) as [-> | ->]; [done|]. by rewrite (bool_decide_true (handleOf a = handleOf a)), andb_false_r. }
  eexists unalloc, _. split; [done|]. intros h Hne. cbn [List.filter]. rewrite Hv.
  destruct (decide (handleOf a = "")) as [He|He].
  - rewrite bool_decide_false by congruence. cbn [length]. lia.
  - destruct (decide (handleOf a = h)) as [<-|Hd].
    + rewrite lookup_insert_eq, bool_decide_true by done. cbn [default length]. simpl. lia.
    + rewrite lookup_insert_ne, bool_decide_false by done. cbn [length]. lia.
Qed.

(** An entry that is not acceptable stops the loop with an error (or the parser's panic). *)
Lemma releaseLoop_bad b e todo unalloc counts ords :
  block_wf b → ¬ entryOk b e → ∀ r, releaseLoop MustParseIP b (e :: todo) unalloc counts ords ≠ Ret r.
Proof.
  intros Hb Hbad r. destruct e as [s opts]. cbn [releaseLoop].
  destruct (MustParseIP s) as [ip|] eqn:Hp; [|done].
  destruct (IPToOrdinal b ip) as [o| | |] eqn:E; try done. cbn [obind].
  destruct (seqMismatch b o (opt_SequenceNumber opts)) eqn:Hs; [done|].
  assert (ordinalOf b s = Some o) as Ho by (unfold ordinalOf; by rewrite Hp, E).
  apply IPToOrdinal_Ret, ordinal_lt in E; [|done].
  destruct (getAllocation_ok b o E) as (alloc & -> & Hal). cbn [obind].
  destruct alloc as [i|].
  2: { destruct Hbad. exists o. split_and!; [done..|]. unfold active, view. by rewrite Hal. }
  destruct (lookup_lt_is_Some_2 (Attributes b) i) as [a Ha]; [by eapply (wf_attr b Hb)|].
  assert (view b o = Some a) as Hv by (unfold view; by rewrite Hal).
  unfold index. rewrite Ha. cbn [obind]. destruct (ReleasedAt a) eqn:Hr.
  { destruct Hbad. exists o. split_and!; [done..|]. unfold active. by rewrite Hv, Hr. }
  destruct (negb _ && negb _) eqn:Hm; [done|]. destruct Hbad. exists o. split_and!; [done..|].
  intros _. unfold handleAt. rewrite Hv. apply andb_false_iff in Hm as [Hm|Hm];
    apply negb_false_iff, bool_decide_eq_true in Hm; [by left|by right].
Qed.

Lemma releaseLoop_spec todo b unalloc counts ords :
  block_wf b →
  (∀ r, releaseLoop MustParseIP b todo unalloc counts ords = Ret r → Forall (entryOk b) todo) ∧
  (Forall (entryOk b) todo →
   ∃ unalloc' counts',
     releaseLoop MustParseIP b todo unalloc counts ords =
       Ret (unalloc', counts', ords ++ releasedOrdinals b todo) ∧
     (∀ h, h ≠ "" → default 0 (counts' !! h) =
                    default 0 (counts !! h) + countHandle b h (releasedOrdinals b todo))).
Proof.
  intros Hb. revert unalloc counts ords. induction todo as [|e todo IH]; intros unalloc counts ords.
  { split; [constructor|]. intros _. exists unalloc, counts. cbn [releaseLoop].
    unfold releasedOrdinals. simpl. rewrite app_nil_r. split; [done|]. intros h _. cbn. lia. }
  split.
  - intros r Hr. assert (¬ ¬ entryOk b e) as Hok.
    { intros Hbad. by apply (releaseLoop_bad b e todo unalloc counts ords Hb Hbad r). }
    assert (entryOk b e) as He.
    { destruct e as [s opts]. unfold entryOk in *. cbn [fst snd] in *.
      destruct (ordinalOf b s) as [o|] eqn:Ho; [|destruct Hok; by intros (?&?&_)].
      exists o. split; [done|]. split.
      - destruct (seqMismatch b o (opt_SequenceNumber opts)) eqn:E; [|done]. destruct Hok. intros (?&?&?&_). congruence.
      - intros Ha. destruct (decide (opt_Handle opts = "" ∨ opt_Handle opts = handleAt b o)); [done|].
        destruct Hok. intros (o' & [= <-] & _ & Hx). auto. }
    constructor; [done|]. destruct e as [s opts], He as (o & Ho & Hs & Hh).
    destruct (releaseLoop_step b s opts todo unalloc counts ords o Hb Ho Hs Hh) as (u & c & Heq & _).
    rewrite Heq in Hr. destruct (IH u c (ords ++ List.filter (active b) [o])) as [IH1 _]. by eapply IH1.
  - intros [He Hf]%list.Forall_cons. destruct e as [s opts], He as (o & Ho & Hs & Hh). cbn [fst snd] in *.
    destruct (releaseLoop_step b s opts todo unalloc counts ords o Hb Ho Hs Hh) as (u & c & -> & Hc).
    destruct (IH u c (ords ++ List.filter (active b) [o])) as [_ IH2].
    destruct (IH2 Hf) as (u' & c' & -> & Hc'). exists u', c'.
    assert (releasedOrdinals b ((s, opts) :: todo) = List.filter (active b) [o] ++ releasedOrdinals b todo) as ->.
    { unfold releasedOrdinals. cbn [omap list_omap fst]. rewrite Ho. cbn [List.filter]. by destruct (active b o). }
    split; [by rewrite <-app_assoc|]. intros h Hne. rewrite Hc', Hc by done. unfold countHandle.
    rewrite List.filter_app, length_app. lia.
Qed.

(** Go enumerates every entry of a map once, in some order. *)
Context (Henum : ∀ m, enumerate m ≡ₚ map_to_list m).

Definition requested b (addresses : list ReleaseOptions) : list nat :=
  releasedOrdinals b (enumerate (uniqueAddresses addresses)).

Lemma enumerate_entries addresses (P : string * ReleaseOptions → Prop) :
  Forall P (enumerate (uniqueAddresses addresses)) ↔
  (∀ s opts, uniqueAddresses addresses !! s = Some opts → P (s, opts)).
Proof using Henum.
  rewrite Henum, list.Forall_forall. split.
  - intros H s opts Hs. by apply H, elem_of_map_to_list.
  - intros H [s opts] Hs%elem_of_map_to_list. auto.
Qed.

Lemma elem_of_requested b addresses o :
  o ∈ requested b addresses ↔
  active b o = true ∧ ∃ s, is_Some (uniqueAddresses addresses !! s) ∧ ordinalOf b s = Some o.
Proof using Henum.
  unfold requested, releasedOrdinals. rewrite list_elem_of_In, filter_In, <-list_elem_of_In, list_elem_of_omap.
  setoid_rewrite Henum. split.
  - intros [([s opts] & Hs%elem_of_map_to_list & Ho) Ha]. split; [done|]. exists s. eauto.
  - intros [Ha (s & [opts Hs] & Ho)]. split; [|done]. exists (s, opts). by rewrite elem_of_map_to_list.
Qed.

Lemma active_view b o : active b o = true → view b o ≠ None.
Proof. unfold active. by destruct (view b o). Qed.

Lemma release_spec c now nowGC addresses b :
  block_wf b →
  let os := requested b addresses in
  let run := release MustParseIP enumerate c now nowGC addresses b in
  (∀ r, run = Ret r → ∀ s opts, uniqueAddresses addresses !! s = Some opts → entryOk b (s, opts)) ∧
  ((∀ s opts, uniqueAddresses addresses !! s = Some opts → entryOk b (s, opts)) →
   ∃ b' unalloc counts, run = Ret (b', unalloc, counts) ∧ block_wf b' ∧ same_header b b' ∧
     (os = [] → b' = b) ∧
     (os ≠ [] → ∀ o, view b' o =
        if decide (o ∈ os) then if cooled c nowGC (cooldownAttr now) then None else Some (cooldownAttr now)
        else if expired c nowGC b o then None else view b o) ∧
     (∀ h, h ≠ "" → default 0 (counts !! h) = countHandle b h os)).
Proof using Henum.
  intros Hb os run. unfold run, release. destruct (releaseLoop_spec (enumerate (uniqueAddresses addresses)) b [] ∅ [] Hb)
    as [Hbad Hgood]. split.
  { intros r Hr. apply enumerate_entries. apply obind_Ret in Hr as (x & Hx & _). by eapply Hbad. }
  intros Hall%enumerate_entries. destruct (Hgood Hall) as (u & counts & -> & Hc). cbn [obind].
  change (releasedOrdinals b (enumerate (uniqueAddresses addresses))) with os in *. rewrite app_nil_l.
  setoid_rewrite lookup_empty in Hc. cbn [default] in Hc. destruct os as [|o0 os'] eqn:Hos.
  { exists b, u, counts. split_and!; try done. }
  rewrite <-Hos in *.
  destruct (addCooldownAttribute now b) as [b1 i] eqn:Ha.
  destruct (addCooldown_redirected now b) as [H1 Hi]; [by apply wf_valid|]. rewrite Ha in H1, Hi.
  destruct (markCooldown_spec (cooldownAttr now) os b b1 [] i H1 Hi) as (b2 & -> & H2).
  { intros o Ho. apply active_view. by apply elem_of_requested in Ho as [? _]. }
  cbn [obind]. rewrite app_nil_r in H2.
  destruct (redirected_collected _ b b2 os c nowGC Hb H2) as (b3 & ch & -> & Hb3 & Hh3 & Hv3).
  cbn [obind]. exists b3, u, counts. split_and!; [done|done|done|by rewrite Hos|done|done].
Qed.
End release.

(** ** [releaseByHandle] *)
Section releaseByHandle.
Context (now : Z) (handleID : string) (seqno : option Z).
Implicit Types (b : AllocationBlock) (o i : nat).

(** The allocations that the call releases. *)
Definition ownedBy b o : bool :=
  match view b o with
  | Some a =>
      match HandleID a with Some h => bool_decide (sanitizeHandle h = handleID) | None => false end &&
      match seqMismatch b o seqno with None => true | Some _ => false end
  | None => false
  end.

Lemma intInSlice_byHandle b i :
  intInSlice i (attributeIndexesByHandle b handleID) =
  match Attributes b !! i with
  | Some a => match HandleID a with Some h => bool_decide (sanitizeHandle h = handleID) | None => false end
  | None => false
  end.
Proof.
  unfold intInSlice, attributeIndexesByHandle. apply eq_true_iff_eq.
  rewrite bool_decide_eq_true, list_elem_of_In, filter_In, in_seq.
  split; [tauto|]. intros H. split; [|done]. destruct (Attributes b !! i) eqn:E; [|done].
  apply lookup_lt_Some in E. lia.
Qed.

Lemma ownedBy_alloc b o i :
  block_wf b → Allocations b !! o = Some (Some i) →
  ownedBy b o = intInSlice i (attributeIndexesByHandle b handleID) &&
                match seqMismatch b o seqno with None => true | Some _ => false end.
Proof.
  intros Hb Ho. rewrite intInSlice_byHandle. unfold ownedBy, view. rewrite Ho.
  destruct (lookup_lt_is_Some_2 (Attributes b) i) as [a ->]; [by eapply (wf_attr b Hb)|]. done.
Qed.

Lemma ownedBy_view b o : ownedBy b o = true → view b o ≠ None.
Proof. unfold ownedBy. by destruct (view b o). Qed.

Lemma releaseByHandleLoop_spec b0 os b idx n ds :
  block_wf b0 → redirected (cooldownAttr now) b0 b ds →
  SequenceNumberForAllocation b = SequenceNumberForAllocation b0 → NoDup os →
  (∀ o, o ∈ os → o < length (Allocations b0)) → (∀ o, o ∈ os → Allocations b !! o = Allocations b0 !! o) →
  match idx with Some i => Attributes b !! i = Some (cooldownAttr now) | None => b = b0 ∧ ds = [] end →
  ∃ b', releaseByHandleLoop now (attributeIndexesByHandle b0 handleID) seqno os b idx n =
          Ret (b', n + length (List.filter (ownedBy b0) os)) ∧
        redirected (cooldownAttr now) b0 b' (List.filter (ownedBy b0) os ++ ds).
Proof.
  intros Hb. revert b idx n ds. induction os as [|o os IH]; intros b idx n ds Hr Hseq Hnd Hlt Hal Hidx.
  { exists b. cbn [releaseByHandleLoop List.filter length app]. by rewrite Nat.add_0_r. }
  apply list.NoDup_cons in Hnd as [Hno Hnd].
  pose proof (Hlt o ltac:(by left)) as Ho. pose proof (Hal o ltac:(by left)) as Hao.
  assert (∀ x, x ∈ os → x < length (Allocations b0)) as Hlt' by (intros x ?; apply Hlt; by right).
  assert (∀ x, x ∈ os → Allocations b !! x = Allocations b0 !! x) as Hal' by (intros x ?; apply Hal; by right).
  cbn [releaseByHandleLoop]. destruct (getAllocation_ok b o) as (alloc & -> & Hlk).
  { by rewrite (rd_length _ _ _ _ Hr). }
  cbn [obind List.filter]. rewrite Hao in Hlk. destruct alloc as [i|].
  2: { assert (ownedBy b0 o = false) as -> by (unfold ownedBy, view; by rewrite Hlk). by apply IH. }
  assert (seqMismatch b o seqno = seqMismatch b0 o seqno) as ->.
  { unfold seqMismatch, GetSequenceNumberForOrdinal. by rewrite Hseq. }
  rewrite <-(ownedBy_alloc b0 o i) by done. destruct (ownedBy b0 o) eqn:Hown; [|by apply IH].
  assert (∃ b1 j, match idx with Some j => (b, j) | None => addCooldownAttribute now b end = (b1, j) ∧
            redirected (cooldownAttr now) b0 b1 ds ∧ Attributes b1 !! j = Some (cooldownAttr now) ∧
            SequenceNumberForAllocation b1 = SequenceNumberForAllocation b0 ∧ Allocations b1 = Allocations b)
    as (b1 & j & -> & Hr1 & Hj & Hs1 & Ha1).
  { destruct idx as [j|]; [by exists b, j|]. destruct Hidx as [-> ->].
    destruct (addCooldown_redirected now b0) as [H1 H2]; [by apply wf_valid|].
    eexists _, _. split_and!; [apply surjective_pairing|done..]. }
  rewrite setAllocation_ok by (by rewrite (rd_length _ _ _ _ Hr1)). cbn [obind].
  destruct (IH (set_Allocations <[o:=Some j]> b1) (Some j) (S n) (o :: ds)) as (b' & -> & Hr').
  { apply redirected_step; [done|by apply ownedBy_view|done]. }
  { done. } { done. } { done. }
  { intros x Hx. simpl. rewrite list_lookup_insert_ne by (intros ->; done). rewrite Ha1. auto. }
  { done. }
  exists b'. cbn [length]. split; [by rewrite <-Nat.add_succ_comm|]. eapply redirected_ext; [|exact Hr'].
  intros x. cbn [app]. rewrite elem_of_cons, !elem_of_app, elem_of_cons. tauto.
Qed.

Lemma no_indexes_not_owned b o :
  block_wf b → attributeIndexesByHandle b handleID = [] → ownedBy b o = false.
Proof.
  intros Hb Hn. destruct (Allocations b !! o) as [[i|]|] eqn:E.
  - rewrite (ownedBy_alloc b o i) by done. by rewrite Hn.
  - unfold ownedBy, view. by rewrite E.
  - unfold ownedBy, view. by rewrite E.
Qed.
End releaseByHandle.

Lemma releaseByHandle_spec c now nowGC opts b :
  block_wf b →
  let owned := ownedBy (opt_Handle opts) (opt_SequenceNumber opts) b in
  ∃ b', releaseByHandle c now nowGC opts b = Ret (b', length (List.filter owned (ordinals b))) ∧
    block_wf b' ∧ same_header b b' ∧
    (attributeIndexesByHandle b (opt_Handle opts) = [] → b' = b) ∧
    (attributeIndexesByHandle b (opt_Handle opts) ≠ [] → ∀ o, view b' o =
       if owned o then if cooled c nowGC (cooldownAttr now) then None else Some (cooldownAttr now)
       else if expired c nowGC b o then None else view b o).
Proof.
  intros Hb owned. unfold releaseByHandle.
  destruct (attributeIndexesByHandle b (opt_Handle opts)) as [|i0 idxs] eqn:Hidx.
  { exists b. split_and!; try done. do 2 f_equal. symmetry. apply length_zero_iff_nil, elem_of_nil_inv.
    intros o [_ Ho]%list_elem_of_In%filter_In. unfold owned in Ho. by rewrite no_indexes_not_owned in Ho. }
  rewrite <-Hidx.
  destruct (releaseByHandleLoop_spec now (opt_Handle opts) (opt_SequenceNumber opts) b (ordinals b) b None 0 [])
    as (b1 & -> & H1); [done|by apply redirected_nil, wf_valid|done|apply NoDup_ordinals| |done|done|].
  { intros o. by apply elem_of_ordinals_wf. }
  cbn [obind]. rewrite app_nil_r in H1.
  destruct (redirected_collected _ b b1 _ c nowGC Hb H1) as (b2 & ch & -> & Hb2 & Hh2 & Hv2).
  cbn [obind]. exists b2. split_and!; [done|done|done|by rewrite Hidx|]. intros _ o. rewrite Hv2.
  fold owned. destruct (owned o) eqn:Ho.
  - rewrite decide_True; [done|]. apply list_elem_of_In, filter_In. split; [|done].
    apply list_elem_of_In, elem_of_ordinals_wf; [done|]. apply ownedBy_view in Ho.
    destruct (view b o) eqn:E; [|done]. by eapply view_Some_lt.
  - rewrite decide_False; [done|]. intros [_ ?]%list_elem_of_In%filter_In. congruence.
Qed.

(** ** Ownership *)
Definition ownerOk (current : option (gmap string string)) (expected : option AttributeOwner) : Prop :=
  match expected with Some o => AttributeOwner_Matches o current = true | None => True end.

Definition preconditionsHold (a : AllocationAttribute) (pre : ownershipPreconditions) : Prop :=
  (pre_handle pre = "" ∨ handleOf a = pre_handle pre) ∧
  ownerOk (ActiveOwnerAttrs a) (pre_activeOwner pre) ∧ ownerOk (AlternateOwnerAttrs a) (pre_alternateOwner pre).

Definition updatedAttribute (a : AllocationAttribute) (update : ownershipUpdate) : AllocationAttribute :=
  MkAttribute
    (Some match upd_handle update with Some h => sanitizeHandle h | None => handleOf a end)
    (updatedOwner (ActiveOwnerAttrs a) (upd_clearActiveOwner update) (upd_activeOwner update))
    (updatedOwner (AlternateOwnerAttrs a) (upd_clearAlternateOwner update) (upd_alternateOwner update))
    None.

Lemma verifyExpectedOwner_spec cur exp ip f : verifyExpectedOwner cur exp ip f = Ret () ↔ ownerOk cur exp.
Proof. unfold verifyExpectedOwner, ownerOk. destruct exp; [|done]. by destruct (AttributeOwner_Matches _ _). Qed.

Section ownership.
Context (c now : Z) (ip : IP) (pre : ownershipPreconditions) (update : ownershipUpdate).
Implicit Types (b : AllocationBlock) (o : nat).

(** What must hold of the block for the update to go through. *)
Definition updatable b o (a : AllocationAttribute) : Prop :=
  IPToOrdinal b ip = Ret o ∧ view b o = Some a ∧ ReleasedAt a = None ∧ preconditionsHold a pre.

Lemma updateAllocationOwnership_success b o a :
  block_wf b → updatable b o a →
  ∃ b', updateAllocationOwnership c now ip pre update b = Ret (b', handleOf a) ∧ block_wf b' ∧
    same_header b b' ∧ view b' o = Some (updatedAttribute a update) ∧
    (∀ o', o' ≠ o → view b' o' = view b o' ∨ expired c now b o' = true ∧ view b' o' = None).
Proof.
  intros Hb (Ho & Hv & Hr & Hh & Ha1 & Ha2). unfold updateAllocationOwnership. rewrite Ho. cbn [obind].
  pose proof (view_Some_lt _ _ _ Hv) as Hlt. unfold view in Hv.
  unfold getAllocation, index. destruct (Allocations b !! o) as [[i|]|] eqn:Hal; try done.
  cbn [obind]. rewrite Hv. cbn [obind]. rewrite Hr.
  assert (negb (bool_decide (pre_handle pre = "")) && negb (bool_decide (handleOf a = pre_handle pre)) = false) as ->.
  { destruct Hh as [-> | ->]; [done|]. by rewrite (bool_decide_true (pre_handle pre = pre_handle pre)), andb_false_r. }
  rewrite (proj2 (verifyExpectedOwner_spec _ _ _ _) Ha1). cbn [obind].
  rewrite (proj2 (verifyExpectedOwner_spec _ _ _ _) Ha2). cbn [obind].
  destruct (findOrAddAttribute b _ _ _) as [b1 j] eqn:Hf.
  destruct (findOrAddAttribute_spec _ _ _ _ _ _ Hf) as (Hj & Hp & Hb1).
  fold (updatedAttribute a update) in Hj.
  assert (redirected (updatedAttribute a update) b b1 []) as H1.
  { rewrite Hb1. apply redirected_attrs; [by apply wf_valid|done]. }
  case_decide as Heq.
  - subst j. exists b1. split_and!; [done|by eapply redirected_wf|apply H1| |].
    + rewrite (rd_view _ _ _ _ H1), decide_False by (by intros ?%not_elem_of_nil).
      unfold view. rewrite Hal, <-Hj. destruct Hp as [l Hl]. rewrite Hl, lookup_app_l; [done|]. by eapply lookup_lt_Some.
    + intros o' _. left. rewrite (rd_view _ _ _ _ H1). by rewrite decide_False by (by intros ?%not_elem_of_nil).
  - rewrite setAllocation_ok by (by rewrite (rd_length _ _ _ _ H1)). cbn [obind].
    assert (redirected (updatedAttribute a update) b
              (SetSequenceNumberForOrdinal o (set_Allocations <[o := Some j]> b1)) [o]) as H2.
    { apply redirected_seq, redirected_step; [done| |done]. unfold view. by rewrite Hal, Hv. }
    destruct (redirected_collected _ _ _ _ c now Hb H2) as (b3 & ch & -> & Hb3 & Hh3 & Hv3).
    cbn [obind]. exists b3. split_and!; [done|done|done| |].
    + rewrite Hv3, decide_True by (by left). done.
    + intros o' Hne. rewrite Hv3, decide_False by (by intros ?%list_elem_of_singleton).
      destruct (expired c now b o'); auto.
Qed.

Lemma updateAllocationOwnership_inv b r :
  block_wf b → updateAllocationOwnership c now ip pre update b = Ret r → ∃ o a, updatable b o a.
Proof.
  intros Hb. unfold updateAllocationOwnership. intros (o & Ho & H)%obind_Ret.
  apply obind_Ret in H as (alloc & Hal & H). destruct alloc as [i|]; [|done].
  apply obind_Ret in H as (a & Ha & H). destruct (ReleasedAt a) eqn:Hr; [done|].
  destruct (negb _ && negb _) eqn:Hh; [done|].
  apply obind_Ret in H as ([] & H1%verifyExpectedOwner_spec & H).
  apply obind_Ret in H as ([] & H2%verifyExpectedOwner_spec & _).
  exists o, a. split; [done|]. unfold getAllocation, index in *. split; [|split; [done|split; [|done]]].
  - unfold view. destruct (Allocations b !! o) as [[j|]|]; try done. injection Hal as ->.
    by destruct (Attributes b !! i); simplify_eq.
  - apply andb_false_iff in Hh as [Hh|Hh]; apply negb_false_iff, bool_decide_eq_true in Hh; [by left|by right].
Qed.
End ownership.

(** ** The operations together *)
Inductive event := EvAssign | EvCollect | EvRelease | EvOwner.

Inductive block_step (MustParseIP : string → option IP)
    (enumerate : gmap string ReleaseOptions → list (string * ReleaseOptions))
    : event → AllocationBlock → AllocationBlock → Prop :=
  | step_autoAssign F (H : addrFilter F) (f : F) num h cfg attrs check b b' ips :
      autoAssign num h cfg attrs check f b = Ret (b', ips) → block_step MustParseIP enumerate EvAssign b b'
  | step_assign check ip h attrs cfg b b' r :
      assign check ip h attrs cfg b = (b', r) → block_step MustParseIP enumerate EvAssign b b'
  | step_collect c now b b' ch :
      garbageCollect c now b = Ret (b', ch) → block_step MustParseIP enumerate EvCollect b b'
  | step_release c now nowGC addrs b b' u n :
      release MustParseIP enumerate c now nowGC addrs b = Ret (b', u, n) →
      block_step MustParseIP enumerate EvRelease b b'
  | step_releaseByHandle c now nowGC opts b b' n :
      releaseByHandle c now nowGC opts b = Ret (b', n) → block_step MustParseIP enumerate EvRelease b b'
  | step_move c now ip opts b b' h :
      moveIPToHandle c now ip opts b = Ret (b', h) → block_step MustParseIP enumerate EvOwner b b'
  | step_setOwner c now ip h upd pre b b' :
      setOwnerAttributes c now ip h upd pre b = Ret b' → block_step MustParseIP enumerate EvOwner b b'.

Section system.
Context (MustParseIP : string → option IP).
Context (enumerate : gmap string ReleaseOptions → list (string * ReleaseOptions)).
Context (Henum : ∀ m, enumerate m ≡ₚ map_to_list m).
Implicit Types (b : AllocationBlock) (o : nat).

(** A step keeps the invariant and the header; an assignment keeps every
    allocation, garbage collection keeps the active ones. *)
Definition step_ok (ev : event) b b' : Prop :=
  block_wf b' ∧ same_header b b' ∧
  match ev with
  | EvAssign => ∀ o, view b o ≠ None → view b' o = view b o
  | EvCollect => ∀ o, active b o = true → view b' o = view b o
  | EvRelease | EvOwner => True
  end.

Lemma active_not_expired c now b o : active b o = true → expired c now b o = false.
Proof.
  unfold active, expired. destruct (view b o) as [a|]; [|done]. unfold cooled.
  by destruct (ReleasedAt a).
Qed.

Lemma autoAssign_step_ok F (H : addrFilter F) (f : F) num h cfg attrs check b b' ips :
  block_wf b → autoAssign num h cfg attrs check f b = Ret (b', ips) → step_ok EvAssign b b'.
Proof.
  intros Hb Heq. destruct (affinityGuard check cfg b) eqn:Hg; [unfold autoAssign in Heq; by rewrite Hg in Heq|].
  destruct (autoAssign_spec f num h cfg attrs check b Hb Hg) as (b1 & Heq1 & Hb1 & Hh1 & _ & Hv1 & _).
  rewrite Heq in Heq1. injection Heq1 as -> _. split_and!; [done|done|]. intros o Ha. rewrite Hv1.
  rewrite decide_False; [done|]. intros [Ho _]%taken_spec.
  apply view_None in Ho; [done|done|]. destruct (view b o) eqn:E; [|done]. by eapply view_Some_lt.
Qed.

Lemma assign_step_ok check ip h attrs cfg b b' r :
  block_wf b → assign check ip h attrs cfg b = (b', r) → step_ok EvAssign b b'.
Proof.
  intros Hb Heq. destruct (affinityGuard check cfg b) eqn:Hg.
  { unfold assign in Heq. rewrite Hg in Heq. by injection Heq as <- _. }
  destruct (IPToOrdinal b ip) as [o| | |] eqn:Ho.
  2-4: unfold assign in Heq; rewrite Hg, Ho in Heq; by injection Heq as <- _.
  destruct (view b o) as [a|] eqn:Hv.
  - unfold assign in Heq. rewrite Hg, Ho in Heq. unfold getAllocation, index in Heq. simpl in Heq.
    unfold view in Hv. destruct (Allocations b !! o) as [[i|]|]; try done. injection Heq as <- _.
    split_and!; [by apply block_wf_seq|done|done].
  - destruct (assign_success check ip h attrs cfg b o Hb Hg Ho Hv) as (b1 & Heq1 & Hb1 & Hh1 & Hv1).
    rewrite Heq in Heq1. injection Heq1 as -> _. split_and!; [done|done|]. intros o' Ha. rewrite Hv1.
    case_decide; [|done]. by subst.
Qed.

Lemma ownership_step_ok c now ip pre upd b r :
  block_wf b → updateAllocationOwnership c now ip pre upd b = Ret r → step_ok EvOwner b r.1.
Proof.
  intros Hb Heq. destruct (updateAllocationOwnership_inv _ _ _ _ _ _ _ Hb Heq) as (o & a & Hu).
  destruct (updateAllocationOwnership_success c now ip pre upd b o a Hb Hu) as (b1 & Heq1 & ? & ? & _).
  rewrite Heq in Heq1. injection Heq1 as ->. by split_and!.
Qed.

Lemma block_step_ok ev b b' : block_wf b → block_step MustParseIP enumerate ev b b' → step_ok ev b b'.
Proof using Henum.
  intros Hb Hs. destruct Hs as [F H f num h cfg attrs check b b' ips Heq|check ip h attrs cfg b b' r Heq
    |c now b b' ch Heq|c now nowGC addrs b b' u n Heq|c now nowGC opts b b' n Heq
    |c now ip opts b b' h Heq|c now ip h upd pre b b' Heq].
  - by eapply autoAssign_step_ok.
  - by eapply assign_step_ok.
  - destruct (garbageCollect_spec c now b Hb) as (b1 & ch1 & Heq1 & Hb1 & Hh1 & Hv1 & _).
    rewrite Heq in Heq1. injection Heq1 as -> ->. split_and!; [done|done|]. intros o Ha.
    by rewrite Hv1, active_not_expired.
  - destruct (release_spec MustParseIP enumerate Henum c now nowGC addrs b Hb) as [H1 H2].
    destruct (H2 (H1 _ Heq)) as (b1 & u1 & n1 & Heq1 & ? & ? & _). rewrite Heq in Heq1.
    injection Heq1 as -> _ _. by split_and!.
  - destruct (releaseByHandle_spec c now nowGC opts b Hb) as (b1 & Heq1 & ? & ? & _). rewrite Heq in Heq1.
    injection Heq1 as -> _. by split_and!.
  - by apply (ownership_step_ok _ _ _ _ _ _ (b', h) Hb Heq).
  - unfold setOwnerAttributes in Heq. apply obind_Ret in Heq as (o & _ & Heq).
    apply obind_Ret in Heq as ([i|] & _ & Heq); [|done]. apply obind_Ret in Heq as (a & _ & Heq).
    destruct (match HandleID a with Some _ => _ | None => _ end); [done|].
    apply obind_Ret in Heq as (r & Hr & [= <-]). by eapply ownership_step_ok.
Qed.

Inductive reachable (b0 : AllocationBlock) : AllocationBlock → Prop :=
  | reach_refl : reachable b0 b0
  | reach_step ev b b' : reachable b0 b → block_step MustParseIP enumerate ev b b' → reachable b0 b'.

Lemma reachable_wf b0 b : block_wf b0 → reachable b0 b → block_wf b ∧ same_header b0 b.
Proof using Henum.
  intros Hb0 Hr. induction Hr as [|ev b b' _ [Hb Hh] Hs]; [done|].
  destruct (block_step_ok ev b b' Hb Hs) as (Hb' & Hh' & _). split; [done|by etrans].
Qed.
End system.

(** ** Cooldown *)
Section cooldown.
Context (MustParseIP : string → option IP).
Context (enumerate : gmap string ReleaseOptions → list (string * ReleaseOptions)).
Context (Henum : ∀ m, enumerate m ≡ₚ map_to_list m).
Context (c limit : Z).

(** What can happen to a block up to a time: assignments, and garbage collections
    (which every read of a block performs). *)
Inductive untilLimit (b0 : AllocationBlock) : AllocationBlock → Prop :=
  | until_refl : untilLimit b0 b0
  | until_assign b b' :
      untilLimit b0 b → block_step MustParseIP enumerate EvAssign b b' → untilLimit b0 b'
  | until_collect b b' t :
      untilLimit b0 b → (t ≤ limit)%Z → blockFromBackend c t b = Ret b' → untilLimit b0 b'.

Lemma blockFromBackend_spec t b b' :
  block_wf b → blockFromBackend c t b = Ret b' →
  block_wf b' ∧ same_header b b' ∧ ∀ o, view b' o = if expired c t b o then None else view b o.
Proof.
  intros Hb Heq. destruct (garbageCollect_spec c t b Hb) as (b1 & ch & Hgc & Hb1 & Hh1 & Hv & _).
  unfold blockFromBackend in Heq. rewrite Hgc in Heq. by injection Heq as ->.
Qed.

Lemma cooldown_kept now t : (0 ≤ c)%Z → (t ≤ now + nanosPerSecond * c)%Z → cooled c t (cooldownAttr now) = false.
Proof.
  intros Hc Ht. unfold cooled, nanosPerSecond in *. simpl. destruct (Z.ltb_spec c 0); [lia|].
  destruct (Z.ltb_spec (now + 1000000000 * c) t); [lia|done].
Qed.

Lemma untilLimit_cooldown now b b' o :
  block_wf b → (0 ≤ c)%Z → (limit ≤ now + nanosPerSecond * c)%Z → view b o = Some (cooldownAttr now) →
  untilLimit b b' → block_wf b' ∧ same_header b b' ∧ view b' o = Some (cooldownAttr now).
Proof using Henum.
  intros Hb Hc Hl Hv Hu. induction Hu as [|b1 b2 _ (Hb1 & Hh1 & Hv1) Hs|b1 b2 t _ (Hb1 & Hh1 & Hv1) Ht Heq]; [done| |].
  - destruct (block_step_ok MustParseIP enumerate Henum _ _ _ Hb1 Hs) as (Hb2 & Hh2 & Hk).
    split_and!; [done|by etrans|]. rewrite Hk by congruence. done.
  - destruct (blockFromBackend_spec t b1 b2 Hb1 Heq) as (Hb2 & Hh2 & Hv2). split_and!; [done|by etrans|].
    rewrite Hv2. unfold expired. rewrite Hv1, cooldown_kept by lia. done.
Qed.
End cooldown.

(** ** The promises *)
(** C19: every block reachable from a new one by any sequence of automatic and explicit
    assignments, releases by address or by handle, garbage collections and ownership
    changes (failing ones included) is well formed: the free list holds, once each,
    exactly the unallocated ordinals, and every allocation has an attribute. *)
Theorem reachable_blocks_wf MustParseIP enumerate nowNano cidr rsvd b0 b :
  (∀ m, enumerate m ≡ₚ map_to_list m) → cidr_ok cidr → newBlock nowNano cidr rsvd = Ret b0 →
  reachable MustParseIP enumerate b0 b → block_wf b ∧ CIDR b = cidr.
Proof.
  intros Henum Hc Hnew Hr.
  assert (match rsvd with Some r => StartOfBlock r + EndOfBlock r ≤ Z.to_nat (NumAddresses_of cidr) | None => True end)
    as Hfit.
  { destruct rsvd as [r|]; [|done]. unfold newBlock in Hnew. destruct (_ <? 0)%Z; [done|].
    destruct (Nat.ltb_spec (Z.to_nat (NumAddresses_of cidr)) (StartOfBlock r + EndOfBlock r)); [done|lia]. }
  destruct (newBlock_spec nowNano cidr rsvd Hc Hfit) as (b1 & Heq & Hb1 & Hcidr & _). rewrite Hnew in Heq.
  injection Heq as ->. destruct (reachable_wf _ _ Henum _ _ Hb1 Hr) as (Hb & HC & _). split; [done|]. by rewrite HC.
Qed.

(** A parser of two spellings of one address, and the enumeration in key order. *)
Definition example_parse (s : string) : option IP :=
  if decide (s = "10.0.0.8" ∨ s = "::ffff:10.0.0.8") then Some (MkIP false 167772168)
  else if decide (s = "10.0.0.10") then Some (MkIP false 167772170) else None.

Definition example_order (m : gmap string ReleaseOptions) : list (string * ReleaseOptions) := map_to_list m.

Lemma example_order_perm m : example_order m ≡ₚ map_to_list m.
Proof. done. Qed.

Definition example_new : AllocationBlock :=
  match newBlock 42 example_cidr None with Ret b => b | _ => example_block end.
Definition example_assigned : AllocationBlock :=
  fst (assign false (MkIP false 167772168) (Some "h") None (MkAffinityConfig "host" "n") example_new).

Lemma reachable_blocks_wf_witness :
  view example_assigned 0 ≠ None ∧ reachable example_parse example_order example_new example_assigned ∧
  block_wf example_assigned ∧ CIDR example_assigned = example_cidr.
Proof.
  assert (reachable example_parse example_order example_new example_assigned) as H.
  { eapply reach_step; [apply reach_refl|].
    apply (step_assign _ _ false (MkIP false 167772168) (Some "h") None (MkAffinityConfig "host" "n") _ _ (Ret ())).
    reflexivity. }
  split; [discriminate|]. split; [exact H|].
  refine (reachable_blocks_wf _ _ 42 example_cidr None _ _ example_order_perm _ eq_refl H).
  split_and!; [|done|done]. split; [|done]. split; done.
Defined.

(** C26: an allocation in use is never disturbed by the rest of the block: no assignment
    (automatic or explicit, successful or not) and no garbage collection changes the
    attribute of an address that is allocated and not released. *)
Theorem active_allocation_stable MustParseIP enumerate ev b b' o :
  (∀ m, enumerate m ≡ₚ map_to_list m) → block_wf b → ev = EvAssign ∨ ev = EvCollect →
  block_step MustParseIP enumerate ev b b' → active b o = true → view b' o = view b o.
Proof.
  intros Henum Hb Hev Hs Ha. destruct (block_step_ok _ _ Henum ev b b' Hb Hs) as (_ & _ & Hk).
  destruct Hev; subst; [|auto]. apply Hk. by apply active_view.
Qed.

Definition example_collected : AllocationBlock :=
  match garbageCollect 3 9000000000 example_block with Ret (b, _) => b | _ => example_block end.

Lemma active_allocation_stable_witness :
  block_step example_parse example_order EvCollect example_block example_collected ∧
  example_collected ≠ example_block ∧ view example_collected 2 = view example_block 2.
Proof.
  assert (block_step example_parse example_order EvCollect example_block example_collected) as Hs.
  { apply (step_collect _ _ 3 9000000000%Z _ _ true). vm_compute. reflexivity. }
  split; [exact Hs|]. split; [vm_compute; discriminate|].
  exact (active_allocation_stable _ _ EvCollect _ _ 2 example_order_perm example_block_wf (or_intror eq_refl) Hs eq_refl).
Defined.

(** C34: garbage collection refines its specification on the view: it never fails,
    exactly the addresses that were released more than the cooldown ago (at any time, for
    a negative cooldown) become free (in ordinal order, at the end of the free list), all others keep their attribute although the attributes are
    renumbered, and every attribute that is kept is used by some address. *)
Theorem garbageCollect_refines c now b :
  block_wf b →
  ∃ b' ch, garbageCollect c now b = Ret (b', ch) ∧ block_wf b' ∧ same_header b b' ∧
    (∀ o, view b' o = if expired c now b o then None else view b o) ∧
    Unallocated b' = Unallocated b ++ List.filter (expired c now b) (ordinals b) ∧
    (∀ i, i < length (Attributes b') → ∃ o, Allocations b' !! o = Some (Some i)).
Proof. apply garbageCollect_spec. Qed.

Lemma garbageCollect_refines_witness :
  ∃ b' ch, garbageCollect 3 9000000000 example_block = Ret (b', ch) ∧ view b' 4 = None ∧
    Unallocated b' = [6; 1; 3; 5; 7; 4].
Proof.
  destruct (garbageCollect_refines 3 9000000000 example_block example_block_wf)
    as (b' & ch & Heq & _ & _ & Hv & Hu & _).
  exists b', ch. rewrite (Hv 4), Hu. split_and!; [exact Heq|done|done].
Defined.

(** C30: [release]: it succeeds exactly when every requested address is in the block,
    has the given sequence number (if any) and, if it is in use, the given handle (if
    any).  Then the requested addresses in use go to cooldown (or become free at once
    if the cooldown is negative or over), all others keep their attribute up to garbage
    collection, the invariant is kept, and the number reported for each handle is the
    number of requests that released one of its addresses. *)
Theorem release_correct MustParseIP enumerate c now nowGC addresses b :
  (∀ m, enumerate m ≡ₚ map_to_list m) → block_wf b →
  let os := requested MustParseIP enumerate b addresses in
  let run := release MustParseIP enumerate c now nowGC addresses b in
  (∀ r, run = Ret r → ∀ s opts, uniqueAddresses addresses !! s = Some opts → entryOk MustParseIP b (s, opts)) ∧
  ((∀ s opts, uniqueAddresses addresses !! s = Some opts → entryOk MustParseIP b (s, opts)) →
   ∃ b' unalloc counts, run = Ret (b', unalloc, counts) ∧ block_wf b' ∧ same_header b b' ∧
     (os = [] → b' = b) ∧
     (os ≠ [] → ∀ o, view b' o =
        if decide (o ∈ os) then if cooled c nowGC (cooldownAttr now) then None else Some (cooldownAttr now)
        else if expired c nowGC b o then None else view b o) ∧
     (∀ h, h ≠ "" → default 0 (counts !! h) = countHandle b h os)).
Proof. intros Henum Hb. by apply release_spec. Qed.

Definition example_request : list ReleaseOptions := [MkReleaseOptions "10.0.0.8" "pod-a" (Some 77%Z)].

Lemma example_request_ok s opts :
  uniqueAddresses example_request !! s = Some opts → entryOk example_parse example_block (s, opts).
Proof.
  unfold example_request, uniqueAddresses. cbn [foldl]. intros [[<- <-]|[_ ?]]%lookup_insert_Some; [|done].
  exists 0. split_and!; [reflexivity|reflexivity|by right].
Qed.

Lemma release_correct_witness :
  ∃ b' unalloc counts,
    release example_parse example_order 30 8000000000 8000000000 example_request example_block
      = Ret (b', unalloc, counts) ∧
    view b' 0 = Some (cooldownAttr 8000000000) ∧ view b' 2 = Some example_attr ∧ default 0 (counts !! "pod-a") = 1.
Proof.
  destruct (release_correct example_parse example_order 30 8000000000 8000000000 example_request example_block
              example_order_perm example_block_wf) as [_ H].
  destruct (H example_request_ok) as (b' & u & n & Heq & _ & _ & _ & Hv & Hn).
  exists b', u, n. rewrite (Hn "pod-a") by done.
  assert (requested example_parse example_order example_block example_request ≠ []) as Hne by (vm_compute; discriminate).
  split_and!; [exact Heq|exact (Hv Hne 0)|exact (Hv Hne 2)|vm_compute; reflexivity].
Defined.

(** C33: a released address is not handed out during its cooldown: after a successful
    [release] at time [now], and any sequence of further assignments and reads of the
    block up to [now] plus the cooldown period, automatic assignment does not return
    the address and explicit assignment refuses it. *)
Theorem cooldown_protects {F} `{addrFilter F} MustParseIP enumerate c now nowGC limit addresses
    b b1 u n o b2 (f : F) num h cfg attrs check b3 ips :
  (∀ m, enumerate m ≡ₚ map_to_list m) → block_wf b → (0 ≤ c)%Z →
  (nowGC ≤ limit)%Z → (limit ≤ now + nanosPerSecond * c)%Z →
  release MustParseIP enumerate c now nowGC addresses b = Ret (b1, u, n) →
  o ∈ requested MustParseIP enumerate b addresses →
  untilLimit MustParseIP enumerate c limit b1 b2 →
  autoAssign num h cfg attrs check f b2 = Ret (b3, ips) →
  (ipNetOf b o ∉ ips) ∧
  assign false (addressOf b o) h attrs cfg b2 =
    (SetSequenceNumberForOrdinal o b2, Fail (ErrAlreadyAssigned (addressOf b o))).
Proof.
  intros Henum Hb Hc Hgc Hl Hrel Ho Hu Haa.
  destruct (release_spec MustParseIP enumerate Henum c now nowGC addresses b Hb) as [H1 H2].
  destruct (H2 (H1 _ Hrel)) as (b1' & u' & n' & Heq & Hb1 & Hh1 & _ & Hv1 & _).
  rewrite Hrel in Heq. injection Heq as <- <- <-.
  assert (view b1 o = Some (cooldownAttr now)) as Hcool.
  { rewrite Hv1 by (intros He; rewrite He in Ho; by apply not_elem_of_nil in Ho).
    rewrite decide_True by done. by rewrite cooldown_kept by lia. }
  destruct (untilLimit_cooldown MustParseIP enumerate Henum c limit now b1 b2 o Hb1 Hc Hl Hcool Hu) as (Hb2 & Hh2 & Hv2).
  assert (same_header b b2) as Hh by (by etrans). pose proof (view_Some_lt _ _ _ Hv2) as Hlt. split.
  - destruct (affinityGuard check cfg b2) eqn:Hg; [unfold autoAssign in Haa; by rewrite Hg in Haa|].
    destruct (autoAssign_spec f num h cfg attrs check b2 Hb2 Hg) as (b3' & Heq & _). rewrite Haa in Heq.
    injection Heq as _ ->. rewrite list_elem_of_fmap. intros (o' & Heq & [Ht _]%taken_spec).
    rewrite (ipNetOf_header b b2) in Heq by done. apply ipNetOf_inj in Heq as <-.
    apply view_None in Ht; [congruence|done|done].
  - unfold assign. assert (affinityGuard false cfg b2 = None) as -> by (unfold affinityGuard; by destruct (Affinity b2)).
    rewrite <-(addressOf_header b b2) by done. assert (IPToOrdinal b2 (addressOf b2 o) = Ret o) as ->
      by (apply IPToOrdinal_ok; [apply Hb2|by apply ordinal_lt]).
    unfold getAllocation, index. simpl. unfold view in Hv2. by destruct (Allocations b2 !! o) as [[i|]|].
Qed.

Definition example_released : AllocationBlock :=
  match release example_parse example_order 30 8000000000 8000000000 example_request example_block with
  | Ret (b, _, _) => b | _ => example_block end.

Lemma cooldown_protects_witness :
  view example_released 0 = Some (cooldownAttr 8000000000) ∧
  assign false (MkIP false 167772168) None None (MkAffinityConfig "host" "node1") example_released =
    (SetSequenceNumberForOrdinal 0 example_released, Fail (ErrAlreadyAssigned (MkIP false 167772168))).
Proof.
  split; [vm_compute; reflexivity|].
  refine (proj2 (cooldown_protects example_parse example_order 30 8000000000 8000000000 8000000000 example_request
    example_block example_released [] {["pod-a" := 1]} 0 example_released NilAddrFilter 0 None
    (MkAffinityConfig "host" "node1") None true example_released []
    example_order_perm example_block_wf _ _ _ _ _ (until_refl _ _ _ _ _) _)).
  - lia.
  - lia.
  - vm_compute. congruence.
  - vm_compute. reflexivity.
  - vm_compute. by left.
  - vm_compute. reflexivity.
Defined.

(** The de-duplication of [release] is by spelling: for any parser, two different
    spellings of the same address in use are counted twice for its handle, although one
    address is released. *)
Theorem release_counts_spellings MustParseIP enumerate c now nowGC b s1 s2 ip o a :
  (∀ m, enumerate m ≡ₚ map_to_list m) → block_wf b → s1 ≠ s2 →
  MustParseIP s1 = Some ip → MustParseIP s2 = Some ip → IPToOrdinal b ip = Ret o →
  view b o = Some a → ReleasedAt a = None → handleOf a ≠ "" →
  ∃ b' u counts,
    release MustParseIP enumerate c now nowGC [MkReleaseOptions s1 "" None; MkReleaseOptions s2 "" None] b
      = Ret (b', u, counts) ∧
    counts !! handleOf a = Some 2 ∧
    (∀ o', o' ∈ requested MustParseIP enumerate b [MkReleaseOptions s1 "" None; MkReleaseOptions s2 "" None] ↔ o' = o).
Proof.
  intros Henum Hb Hne H1 H2 Ho Hv Hr Hh. set (req := [MkReleaseOptions s1 "" None; MkReleaseOptions s2 "" None]).
  destruct (release_spec MustParseIP enumerate Henum c now nowGC req b Hb) as [_ H].
  assert (active b o = true) as Ha by (unfold active; by rewrite Hv, Hr).
  assert (∀ s, s = s1 ∨ s = s2 → ordinalOf MustParseIP b s = Some o) as Hord.
  { unfold ordinalOf. intros s [-> | ->]; [rewrite H1|rewrite H2]; by rewrite Ho. }
  assert (uniqueAddresses req = <[s2 := MkReleaseOptions s2 "" None]> {[s1 := MkReleaseOptions s1 "" None]}) as Hreq.
  { reflexivity. }
  destruct H as (b' & u & n & Heq & _ & _ & _ & _ & Hn).
  { intros s opts. rewrite Hreq. intros [[<- <-]|[_ [<- <-]%lookup_singleton_Some]]%lookup_insert_Some;
      (exists o; split_and!; [by auto|done|by left]). }
  assert (countHandle b (handleOf a) (requested MustParseIP enumerate b req) = 2) as Hc.
  { unfold requested, releasedOrdinals, countHandle. rewrite Henum, Hreq.
    rewrite map_to_list_insert, map_to_list_singleton by (by rewrite lookup_singleton_ne).
    cbn [omap list_omap fst]. rewrite !Hord by auto. cbn [List.filter]. rewrite Ha. cbn [List.filter].
    unfold handleAt. rewrite Hv, bool_decide_true by done. done. }
  exists b', u, n. split_and!; [done| |].
  - specialize (Hn (handleOf a) Hh). rewrite Hc in Hn. destruct (n !! handleOf a); simpl in Hn; congruence.
  - intros o'. rewrite elem_of_requested by done. rewrite Hreq. split.
    + intros [_ (s & [opts [[<- _]|[_ [<- _]%lookup_singleton_Some]]%lookup_insert_Some] & Hs)];
        rewrite Hord in Hs by auto; congruence.
    + intros ->. split; [done|]. exists s2. rewrite lookup_insert_eq. split; [done|auto].
Qed.

Lemma release_counts_spellings_witness :
  ∃ b' u counts,
    release example_parse example_order 30 8000000000 8000000000
      [MkReleaseOptions "10.0.0.8" "" None; MkReleaseOptions "::ffff:10.0.0.8" "" None] example_block
      = Ret (b', u, counts) ∧
    counts !! "pod-a" = Some 2 ∧
    (∀ o', o' ∈ requested example_parse example_order example_block
                  [MkReleaseOptions "10.0.0.8" "" None; MkReleaseOptions "::ffff:10.0.0.8" "" None] ↔ o' = 0).
Proof.
  exact (release_counts_spellings example_parse example_order 30 8000000000 8000000000 example_block
    "10.0.0.8" "::ffff:10.0.0.8" (MkIP false 167772168) 0 example_attr
    example_order_perm example_block_wf ltac:(discriminate) eq_refl eq_refl eq_refl eq_refl eq_refl ltac:(discriminate)).
Defined.

(** [releaseByHandle] never fails; it sends to cooldown exactly the addresses of the
    handle (with the given sequence number, if any) and returns how many they were,
    leaves the other allocations alone up to garbage collection, and keeps the
    invariant; with no attribute of that handle the block is unchanged. *)
Theorem releaseByHandle_correct c now nowGC opts b :
  block_wf b →
  let owned := ownedBy (opt_Handle opts) (opt_SequenceNumber opts) b in
  ∃ b', releaseByHandle c now nowGC opts b = Ret (b', length (List.filter owned (ordinals b))) ∧
    block_wf b' ∧ same_header b b' ∧
    (attributeIndexesByHandle b (opt_Handle opts) = [] → b' = b) ∧
    (attributeIndexesByHandle b (opt_Handle opts) ≠ [] → ∀ o, view b' o =
       if owned o then if cooled c nowGC (cooldownAttr now) then None else Some (cooldownAttr now)
       else if expired c nowGC b o then None else view b o).
Proof. apply releaseByHandle_spec. Qed.

Lemma releaseByHandle_correct_witness :
  ∃ b', releaseByHandle 0 8000000000 8000000000 (MkReleaseOptions "" "pod-a" None) example_block = Ret (b', 2) ∧
    block_wf b' ∧ view b' 2 = Some (cooldownAttr 8000000000).
Proof.
  destruct (releaseByHandle_correct 0 8000000000 8000000000 (MkReleaseOptions "" "pod-a" None) example_block
              example_block_wf) as (b' & Heq & Hb & _ & _ & Hv).
  exists b'. split_and!; [exact Heq|exact Hb|]. exact (Hv ltac:(vm_compute; discriminate) 2).
Defined.

(** [updateAllocationOwnership] succeeds exactly when the address is in use and the
    expected handle and owners match, returns the previous handle, gives the address
    (and no other) the updated handle and owners, and keeps the invariant; a shared
    attribute entry of the old owner is never modified under another address. *)
Theorem updateAllocationOwnership_correct c now ip pre update b :
  block_wf b →
  (∀ r, updateAllocationOwnership c now ip pre update b = Ret r → ∃ o a, updatable ip pre b o a) ∧
  (∀ o a, updatable ip pre b o a →
    ∃ b', updateAllocationOwnership c now ip pre update b = Ret (b', handleOf a) ∧ block_wf b' ∧
      same_header b b' ∧ view b' o = Some (updatedAttribute a update) ∧
      (∀ o', o' ≠ o → view b' o' = view b o' ∨ expired c now b o' = true ∧ view b' o' = None)).
Proof.
  intros Hb. split; [intros r; by apply updateAllocationOwnership_inv|].
  intros o a. by apply updateAllocationOwnership_success.
Qed.

Lemma updateAllocationOwnership_correct_witness :
  ∃ b', moveIPToHandle 30 8000000000 (MkIP false 167772168) (MkMoveOptions "pod-b" None None "pod-a") example_block
          = Ret (b', "pod-a") ∧
    view b' 0 = Some (MkAttribute (Some "pod-b") None None None) ∧ view b' 2 = Some example_attr.
Proof.
  destruct (updateAllocationOwnership_correct 30 8000000000 (MkIP false 167772168) (MkPre "pod-a" None None)
    (MkUpdate (Some "pod-b") None true None false) example_block example_block_wf) as [_ H].
  destruct (H 0 example_attr) as (b' & Heq & _ & _ & Hv & Hk).
  { split_and!; [reflexivity|reflexivity|reflexivity|]. split; [by right|done]. }
  exists b'. split_and!; [exact Heq|exact Hv|].
  destruct (Hk 2 ltac:(discriminate)) as [Hk2|[Hx _]]; [exact Hk2|vm_compute in Hx; discriminate].
Defined.

(** ** Handles *)
Section handles.
Import Handle.
Implicit Types (h : IPAMHandle) (k : string).

(** The counts of a stored handle are positive: a zero entry is deleted. *)
Definition handle_wf h : Prop := ∀ k n, Block h !! k = Some n → (0 < n)%Z.

Definition countAt h k : Z := default 0%Z (Block h !! k).
End handles.

(** Reference counting of handles: with positive counts stored, incrementing by a
    positive number keeps them positive and adds it to the block's count; decrementing
    succeeds exactly when the block has at least that many, subtracts it, keeps the
    counts positive (the entry is removed at zero), and fails otherwise; decrementing
    what was just added restores the handle. *)
Theorem handle_refcounts (h : Handle.IPAMHandle) k num :
  handle_wf h → (0 < num)%Z →
  let h' := fst (Handle.incrementBlock h k num) in
  handle_wf h' ∧ countAt h' k = (countAt h k + num)%Z ∧ (∀ k', k' ≠ k → countAt h' k' = countAt h k') ∧
  Handle.decrementBlock h' k num = Ret (h, countAt h k) ∧
  (if decide (num ≤ countAt h k)%Z
   then ∃ h2, Handle.decrementBlock h k num = Ret (h2, (countAt h k - num)%Z) ∧ handle_wf h2 ∧
          countAt h2 k = (countAt h k - num)%Z ∧ (∀ k', k' ≠ k → countAt h2 k' = countAt h k')
   else ∃ e, Handle.decrementBlock h k num = Fail e).
Proof.
  intros Hwf Hn. destruct h as [id m d]. unfold handle_wf, countAt, Handle.incrementBlock, Handle.decrementBlock in *.
  simpl in *. rewrite lookup_insert_eq. split_and!.
  - intros k' n [[<- <-]|[_ Hl]]%lookup_insert_Some; [|eauto]. destruct (m !! k) eqn:E; [|lia]. apply Hwf in E. lia.
  - simpl. destruct (m !! k); simpl; lia.
  - intros k' Hk. by rewrite lookup_insert_ne.
  - destruct (m !! k) as [v|] eqn:E; simpl.
    + pose proof (Hwf _ _ E). rewrite Z.add_simpl_r. destruct (Z.ltb_spec v 0); [lia|]. destruct (Z.eqb_spec v 0); [lia|].
      rewrite insert_insert_eq, insert_id by done. done.
    + rewrite Z.sub_diag. simpl. by rewrite delete_insert_id.
  - destruct (m !! k) as [v|] eqn:E; simpl.
    2: { rewrite decide_False by lia. by eexists. }
    case_decide as Hle.
    + destruct (Z.ltb_spec (v - num) 0); [lia|]. destruct (Z.eqb_spec (v - num) 0) as [Hz|Hz].
      * eexists. split; [done|]. simpl. split_and!.
        -- intros k' n [_ Hl]%lookup_delete_Some. eauto.
        -- rewrite lookup_delete_eq. simpl. lia.
        -- intros k' Hk. by rewrite lookup_delete_ne.
      * eexists. split; [done|]. simpl. split_and!.
        -- intros k' n [[<- <-]|[_ Hl]]%lookup_insert_Some; [lia|eauto].
        -- by rewrite lookup_insert_eq.
        -- intros k' Hk. by rewrite lookup_insert_ne.
    + destruct (Z.ltb_spec (v - num) 0); [by eexists|lia].
Qed.

Lemma handle_refcounts_witness :
  Handle.decrementBlock (fst (Handle.incrementBlock (Handle.MkHandle "h" {["10.0.0.0/26" := 2%Z]} false) "10.0.0.64/26" 3))
    "10.0.0.64/26" 3 = Ret (Handle.MkHandle "h" {["10.0.0.0/26" := 2%Z]} false, 0%Z).
Proof.
  refine (proj1 (proj2 (proj2 (proj2 (handle_refcounts (Handle.MkHandle "h" {["10.0.0.0/26" := 2%Z]} false)
    "10.0.0.64/26" 3 _ _))))).
  - intros k n. simpl. intros [_ <-]%lookup_singleton_Some. done.
  - done.
Defined.
