(* ===== verification/DeltaTracker.v ===== *)
(** * The delta tracker: [felix/deltatracker/delta_tracker.go] and [delta_set.go]

    The tracker keeps a desired map and a dataplane map, and the differences between
    them, in three maps.  Keys are any countable type; values have the comparison
    function of the code, an equivalence.  The order in which Go enumerates a map
    is a parameter, as are the callbacks, which thread a state of their own.  The
    refinement theorems relate every operation to the same operation on the two
    abstract maps, up to the equivalence of values: the tracker may answer with a
    value that is equal to the one it was given, not the same. *)
From S2P Require Import Prelude.
From stdpp Require Import base list gmap fin_maps numbers.
From stdpp Require Import options.

Section tracker.
Context `{Countable K} {V : Type} (valuesEqual : V → V → bool).

Record DeltaTracker := MkDeltaTracker {
  inDataplaneAndDesired : gmap K V;
  inDataplaneNotDesired : gmap K V;
  desiredUpdates : gmap K V;
  desiredLen : Z
}.

Definition set_inDataplaneAndDesired (f : gmap K V → gmap K V) (c : DeltaTracker) : DeltaTracker :=
  MkDeltaTracker (f (inDataplaneAndDesired c)) (inDataplaneNotDesired c) (desiredUpdates c) (desiredLen c).
Definition set_inDataplaneNotDesired (f : gmap K V → gmap K V) (c : DeltaTracker) : DeltaTracker :=
  MkDeltaTracker (inDataplaneAndDesired c) (f (inDataplaneNotDesired c)) (desiredUpdates c) (desiredLen c).
Definition set_desiredUpdates (f : gmap K V → gmap K V) (c : DeltaTracker) : DeltaTracker :=
  MkDeltaTracker (inDataplaneAndDesired c) (inDataplaneNotDesired c) (f (desiredUpdates c)) (desiredLen c).
Definition set_desiredLen (f : Z → Z) (c : DeltaTracker) : DeltaTracker :=
  MkDeltaTracker (inDataplaneAndDesired c) (inDataplaneNotDesired c) (desiredUpdates c) (f (desiredLen c)).

Definition New : DeltaTracker := MkDeltaTracker ∅ ∅ ∅ 0.

(** ** The desired view *)
Definition Desired_Get (c : DeltaTracker) (k : K) : option V :=
  match desiredUpdates c !! k with
  | Some v => Some v
  | None => inDataplaneAndDesired c !! k
  end.

Definition Desired_Set (k : K) (v : V) (c : DeltaTracker) : DeltaTracker :=
  let '(c1, current) :=
    match inDataplaneNotDesired c !! k with
    | Some currentVal =>
        (set_desiredLen (Z.add 1)
           (set_inDataplaneNotDesired (delete k)
              (set_inDataplaneAndDesired <[k := currentVal]> c)), Some currentVal)
    | None => (c, inDataplaneAndDesired c !! k)
    end in
  match current with
  | None =>
      let c2 := match desiredUpdates c1 !! k with
                | None => set_desiredLen (Z.add 1) c1
                | Some _ => c1
                end in
      set_desiredUpdates <[k := v]> c2
  | Some currentVal =>
      if valuesEqual currentVal v then set_desiredUpdates (delete k) c1
      else set_desiredUpdates <[k := v]> c1
  end.

Definition Desired_Delete (k : K) (c : DeltaTracker) : DeltaTracker :=
  let presentInDesired := bool_decide (is_Some (desiredUpdates c !! k)) in
  let c1 := if presentInDesired then set_desiredUpdates (delete k) c else c in
  let presentInDPDesired := bool_decide (is_Some (inDataplaneAndDesired c1 !! k)) in
  let c2 := match inDataplaneAndDesired c1 !! k with
            | Some currentVal =>
                set_inDataplaneAndDesired (delete k)
                  (set_inDataplaneNotDesired <[k := currentVal]> c1)
            | None => c1
            end in
  if presentInDesired || presentInDPDesired then set_desiredLen (λ n, n - 1)%Z c2 else c2.

Definition Desired_Len (c : DeltaTracker) : Z := desiredLen c.

(** ** The dataplane view *)
Definition Dataplane_Get (c : DeltaTracker) (k : K) : option V :=
  match inDataplaneAndDesired c !! k with
  | Some v => Some v
  | None => inDataplaneNotDesired c !! k
  end.

Definition Dataplane_Set (k : K) (v : V) (c : DeltaTracker) : DeltaTracker :=
  match Desired_Get c k with
  | Some desiredV =>
      let c1 := set_inDataplaneAndDesired <[k := v]> c in
      if negb (valuesEqual desiredV v) then set_desiredUpdates <[k := desiredV]> c1
      else set_desiredUpdates (delete k) c1
  | None => set_inDataplaneNotDesired <[k := v]> c
  end.

Definition Dataplane_Delete (k : K) (c : DeltaTracker) : DeltaTracker :=
  let desiredV := Desired_Get c k in
  let c1 := set_inDataplaneNotDesired (delete k) (set_inDataplaneAndDesired (delete k) c) in
  match desiredV with
  | Some v => set_desiredUpdates <[k := v]> c1
  | None => c1
  end.

Definition Dataplane_Len (c : DeltaTracker) : nat :=
  size (inDataplaneNotDesired c) + size (inDataplaneAndDesired c).

(** The callback that [ReplaceAllIter] gives to the iterator.  The old maps are the
    maps of the tracker itself; [newD] and [newN] are the new ones. *)
Definition replaceOne (st : DeltaTracker * gmap K V * gmap K V) (kv : K * V)
    : DeltaTracker * gmap K V * gmap K V :=
  let '(c, newD, newN) := st in
  let '(k, v) := kv in
  let '(c1, newD1, newN1) :=
    match Desired_Get c k with
    | Some desiredV =>
        (if valuesEqual desiredV v then set_desiredUpdates (delete k) c
         else set_desiredUpdates <[k := desiredV]> c, <[k := v]> newD, newN)
    | None => (c, newD, <[k := v]> newN)
    end in
  (set_inDataplaneNotDesired (delete k) (set_inDataplaneAndDesired (delete k) c1), newD1, newN1).

(** The loop over the keys that are gone. *)
Definition queueMissing (c : DeltaTracker) (k : K) : DeltaTracker :=
  let c1 := match Desired_Get c k with
            | Some desiredV => set_desiredUpdates <[k := desiredV]> c
            | None => c
            end in
  set_inDataplaneAndDesired (delete k) c1.

Section enumeration.
(** The order in which Go enumerates a map. *)
Context (enumerate : gmap K V → list (K * V)).

Definition Desired_Iter (c : DeltaTracker) : list (K * V) :=
  enumerate (desiredUpdates c) ++
  List.filter (λ kv, bool_decide (desiredUpdates c !! kv.1 = None)) (enumerate (inDataplaneAndDesired c)).

Definition Dataplane_Iter (c : DeltaTracker) : list (K * V) :=
  enumerate (inDataplaneAndDesired c) ++ enumerate (inDataplaneNotDesired c).

(** [DeleteAll] deletes each key while [Iter] walks the maps: each [range] loop
    walks the map it finds when it starts, and a deletion only removes the
    current key. *)
Definition Desired_DeleteAll (c : DeltaTracker) : DeltaTracker :=
  let c1 := foldl (λ c kv, Desired_Delete kv.1 c) c (enumerate (desiredUpdates c)) in
  foldl (λ c kv,
      match desiredUpdates c !! kv.1 with Some _ => c | None => Desired_Delete kv.1 c end)
    c1 (enumerate (inDataplaneAndDesired c1)).

(** The iterator yields [kvs] and then returns an error or not. *)
Definition ReplaceAllIter (kvs : list (K * V)) (err : bool) (c : DeltaTracker) : DeltaTracker :=
  let '(c1, newD, newN) := foldl replaceOne (c, ∅, ∅) kvs in
  if err then
    set_inDataplaneNotDesired (λ old, newN ∪ old) (set_inDataplaneAndDesired (λ old, newD ∪ old) c1)
  else
    let c2 := foldl (λ c kv, queueMissing c kv.1) c1 (enumerate (inDataplaneAndDesired c1)) in
    set_inDataplaneNotDesired (λ _, newN) (set_inDataplaneAndDesired (λ _, newD) c2).

Definition ReplaceAllMap (dpKVs : gmap K V) (c : DeltaTracker) : DeltaTracker :=
  ReplaceAllIter (enumerate dpKVs) false c.

Definition Dataplane_DeleteAll (c : DeltaTracker) : DeltaTracker := ReplaceAllMap ∅ c.
End enumeration.

(** ** The pending views *)
Inductive IterAction := IterActionNoOp | IterActionUpdateDataplane | IterActionNoOpStopIteration.

Definition PendingUpdates_Get (c : DeltaTracker) (k : K) : option V := desiredUpdates c !! k.
Definition PendingUpdates_Len (c : DeltaTracker) : nat := size (desiredUpdates c).
Definition PendingDeletions_Get (c : DeltaTracker) (k : K) : option V := inDataplaneNotDesired c !! k.
Definition PendingDeletions_Len (c : DeltaTracker) : nat := size (inDataplaneNotDesired c).

Definition InSync (c : DeltaTracker) : bool :=
  bool_decide (PendingDeletions_Len c = 0) && bool_decide (PendingUpdates_Len c = 0).

(** Moving a pending update, or deletion, to the dataplane. *)
Definition applyUpdate (c : DeltaTracker) (kv : K * V) : DeltaTracker :=
  set_inDataplaneAndDesired <[kv.1 := kv.2]> (set_desiredUpdates (delete kv.1) c).
Definition applyDeletion (c : DeltaTracker) (kv : K * V) : DeltaTracker :=
  set_inDataplaneNotDesired (delete kv.1) c.

Section callbacks.
Context {S : Type} (enumerate : gmap K V → list (K * V)).

(** The body of the loops: the [break] of the last case leaves the [switch]. *)
Definition iterStep (commit : DeltaTracker → K * V → DeltaTracker) (f : S → K * V → S * IterAction)
    (st : S * DeltaTracker) (kv : K * V) : S * DeltaTracker :=
  let '(s, c) := st in
  let '(s', action) := f s kv in
  match action with
  | IterActionNoOp => (s', c)
  | IterActionUpdateDataplane => (s', commit c kv)
  | IterActionNoOpStopIteration => (s', c)
  end.

Definition PendingUpdates_Iter (f : S → K * V → S * IterAction) (s : S) (c : DeltaTracker)
    : S * DeltaTracker :=
  foldl (iterStep applyUpdate f) (s, c) (enumerate (desiredUpdates c)).

(** The callback of the deletions sees the key only. *)
Definition PendingDeletions_Iter (f : S → K → S * IterAction) (s : S) (c : DeltaTracker)
    : S * DeltaTracker :=
  foldl (iterStep applyDeletion (λ s kv, f s kv.1)) (s, c) (enumerate (inDataplaneNotDesired c)).

(** *** Batches.  [applyFn] returns how many items it applied and whether it
    erred; slicing past the end panics. *)
Definition batchSize : nat := 128.

Definition applyBatch (commit : DeltaTracker → K * V → DeltaTracker)
    (applyFn : S → list (K * V) → S * (nat * bool)) (s : S) (batch : list (K * V)) (c : DeltaTracker)
    : outcome Empty_set (S * list (K * V) * DeltaTracker) :=
  let '(s', (applied, err)) := applyFn s batch in
  if length batch <? applied then Panic
  else
    let c' := foldl commit c (take applied batch) in
    let skip := if (err : bool) then applied + 1 else applied in
    if length batch <? skip then Panic else Ret (s', drop skip batch, c').

Fixpoint batchLoop (commit : DeltaTracker → K * V → DeltaTracker)
    (applyFn : S → list (K * V) → S * (nat * bool)) (todo : list (K * V))
    (s : S) (batch : list (K * V)) (c : DeltaTracker)
    : outcome Empty_set (S * list (K * V) * DeltaTracker) :=
  match todo with
  | [] => Ret (s, batch, c)
  | kv :: todo' =>
      let batch' := batch ++ [kv] in
      if length batch' =? batchSize then
        let! (s', rest, c') := applyBatch commit applyFn s batch' c in
        batchLoop commit applyFn todo' s' rest c'
      else batchLoop commit applyFn todo' s batch' c
  end.

(** [for count > 0]. *)
Fixpoint drainLoop (fuel : nat) (commit : DeltaTracker → K * V → DeltaTracker)
    (applyFn : S → list (K * V) → S * (nat * bool)) (s : S) (batch : list (K * V)) (c : DeltaTracker)
    : outcome Empty_set (S * DeltaTracker) :=
  match batch with
  | [] => Ret (s, c)
  | _ =>
      match fuel with
      | 0 => OutOfFuel
      | Datatypes.S fuel' =>
          let! (s', rest, c') := applyBatch commit applyFn s batch c in
          drainLoop fuel' commit applyFn s' rest c'
      end
  end.

Definition iterBatched (commit : DeltaTracker → K * V → DeltaTracker)
    (applyFn : S → list (K * V) → S * (nat * bool)) (kvs : list (K * V)) (s : S) (c : DeltaTracker)
    : outcome Empty_set (S * DeltaTracker) :=
  let! (s1, batch, c1) := batchLoop commit applyFn kvs s [] c in
  drainLoop (length batch) commit applyFn s1 batch c1.

Definition PendingUpdates_IterBatched (applyFn : S → list K → list V → S * (nat * bool))
    (s : S) (c : DeltaTracker) : outcome Empty_set (S * DeltaTracker) :=
  iterBatched applyUpdate (λ s kvs, applyFn s (map fst kvs) (map snd kvs))
    (enumerate (desiredUpdates c)) s c.

Definition PendingDeletions_IterBatched (applyFn : S → list K → S * (nat * bool))
    (s : S) (c : DeltaTracker) : outcome Empty_set (S * DeltaTracker) :=
  iterBatched applyDeletion (λ s kvs, applyFn s (map fst kvs))
    (enumerate (inDataplaneNotDesired c)) s c.
End callbacks.
End tracker.

(** ** [delta_set.go]: a tracker whose values are the empty struct *)
Module SetDeltaTracker.
Section set_tracker.
Context `{Countable K}.
Abbreviation SetDeltaTracker := (DeltaTracker (K := K) (V := unit)).

Definition unitsEqual (a b : unit) : bool := true.

Definition NewSetDeltaTracker : SetDeltaTracker := New.

Definition Desired_Add (k : K) (c : SetDeltaTracker) : SetDeltaTracker := Desired_Set unitsEqual k () c.
Definition Desired_Contains (c : SetDeltaTracker) (k : K) : bool := bool_decide (is_Some (Desired_Get c k)).
Definition Desired_Remove (k : K) (c : SetDeltaTracker) : SetDeltaTracker := Desired_Delete k c.
Definition LenUpperBound (c : SetDeltaTracker) : nat :=
  size (inDataplaneAndDesired c) + size (desiredUpdates c).
Definition Dataplane_Add (k : K) (c : SetDeltaTracker) : SetDeltaTracker := Dataplane_Set unitsEqual k () c.
Definition Dataplane_Remove (k : K) (c : SetDeltaTracker) : SetDeltaTracker := Dataplane_Delete k c.
Definition Dataplane_Contains (c : SetDeltaTracker) (k : K) : bool := bool_decide (is_Some (Dataplane_Get c k)).
Definition ReplaceFromIter (enumerate : gmap K unit → list (K * unit)) (ks : list K) (err : bool)
    (c : SetDeltaTracker) : SetDeltaTracker :=
  ReplaceAllIter unitsEqual enumerate (map (λ k, (k, ())) ks) err c.
Definition Desired_RemoveAll (enumerate : gmap K unit → list (K * unit)) (c : SetDeltaTracker) : SetDeltaTracker :=
  Desired_DeleteAll enumerate c.
Definition Dataplane_RemoveAll (enumerate : gmap K unit → list (K * unit)) (c : SetDeltaTracker) : SetDeltaTracker :=
  Dataplane_DeleteAll unitsEqual enumerate c.
Definition PendingUpdates_IterKeys {S} (enumerate : gmap K unit → list (K * unit)) (f : S → K → S * IterAction)
    (s : S) (c : SetDeltaTracker) : S * SetDeltaTracker :=
  PendingUpdates_Iter enumerate (λ s kv, f s kv.1) s c.
Definition PendingDeletions_IterKeys {S} (enumerate : gmap K unit → list (K * unit)) (f : S → K → S * IterAction)
    (s : S) (c : SetDeltaTracker) : S * SetDeltaTracker :=
  PendingDeletions_Iter enumerate f s c.
Definition PendingUpdates_Contains (c : SetDeltaTracker) (k : K) : bool :=
  bool_decide (is_Some (desiredUpdates c !! k)).
Definition PendingDeletions_Contains (c : SetDeltaTracker) (k : K) : bool :=
  bool_decide (is_Some (PendingDeletions_Get c k)).
End set_tracker.
End SetDeltaTracker.
