(* ===== verification/DeltaTrackerSpec.v ===== *)
(** * The delta tracker refines a pair of maps

    [desired] and [dataplane] rebuild the two maps that the tracker represents.
    [tracker_inv] is the representation invariant of the comment in the code: a key
    is in one of the in-dataplane maps at most, and a pending update of a key that is
    in the dataplane has a different value. *)
From S2P Require Import Prelude.
From S2P Require Import DeltaTracker.
From stdpp Require Import base list gmap fin_maps fin_map_dom numbers.
From stdpp Require Import options.
#[local] Set Default Proof Using "Type*".

(** What the tracker needs of the comparison function of the values. *)
Class ValuesEqual (V : Type) (valuesEqual : V → V → bool) `{Equiv V} := {
  valuesEqual_spec a b : valuesEqual a b = true ↔ a ≡ b;
  valuesEqual_equiv :: Equivalence (≡@{V})
}.

Section spec.
Context `{Countable K} {V : Type} `{Equiv V} (valuesEqual : V → V → bool) `{!ValuesEqual V valuesEqual}.
Implicit Types (c : DeltaTracker (K := K) (V := V)) (k : K) (v : V) (m : gmap K V).

(** ** Abstraction and invariant *)
Definition desired c : gmap K V := desiredUpdates c ∪ inDataplaneAndDesired c.
Definition dataplane c : gmap K V := inDataplaneAndDesired c ∪ inDataplaneNotDesired c.

Definition key_ok c k : Prop :=
  (is_Some (inDataplaneNotDesired c !! k) → inDataplaneAndDesired c !! k = None ∧ desiredUpdates c !! k = None) ∧
  (∀ v v', inDataplaneAndDesired c !! k = Some v → desiredUpdates c !! k = Some v' → ¬ v ≡ v').

Record tracker_inv c : Prop := {
  ti_keys k : key_ok c k;
  ti_len : desiredLen c = Z.of_nat (size (desired c))
}.

Lemma desired_lookup c k : desired c !! k = Desired_Get c k.
Proof.
  unfold desired, Desired_Get. rewrite lookup_union.
  by destruct (desiredUpdates c !! k), (inDataplaneAndDesired c !! k).
Qed.

Lemma dataplane_lookup c k : dataplane c !! k = Dataplane_Get c k.
Proof.
  unfold dataplane, Dataplane_Get. rewrite lookup_union.
  by destruct (inDataplaneNotDesired c !! k), (inDataplaneAndDesired c !! k).
Qed.

Lemma not_equal v v' : valuesEqual v v' = false → ¬ v ≡ v'.
Proof. intros Hf He%(valuesEqual_spec (valuesEqual := valuesEqual)). congruence. Qed.

(** *** Operations on one key leave the others alone *)
Definition agree_at c c' k : Prop :=
  inDataplaneAndDesired c' !! k = inDataplaneAndDesired c !! k ∧
  inDataplaneNotDesired c' !! k = inDataplaneNotDesired c !! k ∧
  desiredUpdates c' !! k = desiredUpdates c !! k.

Lemma agree_desired c c' k : agree_at c c' k → desired c' !! k = desired c !! k.
Proof. intros (H1 & H2 & H3). rewrite !desired_lookup. unfold Desired_Get. by rewrite H1, H3. Qed.

Lemma agree_dataplane c c' k : agree_at c c' k → dataplane c' !! k = dataplane c !! k.
Proof. intros (H1 & H2 & H3). rewrite !dataplane_lookup. unfold Dataplane_Get. by rewrite H1, H2. Qed.

Lemma agree_key_ok c c' k : agree_at c c' k → key_ok c k → key_ok c' k.
Proof. intros (H1 & H2 & H3). unfold key_ok. by rewrite H1, H2, H3. Qed.

(** A change of one key: the maps follow from what happens at that key. *)
Lemma local_change c c' k (d p : option V) :
  (∀ k', key_ok c k') → (∀ k', k' ≠ k → agree_at c c' k') → key_ok c' k →
  Desired_Get c' k ≡ d → Dataplane_Get c' k = p →
  (∀ k', key_ok c' k') ∧ desired c' ≡ partial_alter (λ _, d) k (desired c) ∧
  dataplane c' = partial_alter (λ _, p) k (dataplane c).
Proof.
  intros Hok Hag Hk Hd Hp. split_and!.
  - intros k'. destruct (decide (k' = k)) as [->|Hne]; [done|]. eapply agree_key_ok; [by apply Hag|done].
  - intros k'. destruct (decide (k' = k)) as [->|Hne].
    + by rewrite lookup_partial_alter_eq, desired_lookup.
    + rewrite lookup_partial_alter_ne by done. by rewrite (agree_desired c c') by auto.
  - apply map_eq. intros k'. destruct (decide (k' = k)) as [->|Hne].
    + by rewrite lookup_partial_alter_eq, dataplane_lookup.
    + rewrite lookup_partial_alter_ne by done. by apply agree_dataplane, Hag.
Qed.

Lemma partial_alter_keep m k (o : option V) : o = m !! k → partial_alter (λ _, o) k m = m.
Proof. intros ->. apply partial_alter_self. Qed.

Lemma size_equiv m1 m2 : m1 ≡ m2 → size m1 = size m2.
Proof. intros Heq. rewrite <-!(size_dom (D := gset K)). by rewrite Heq. Qed.

(** The goals at the changed key, after case analysis on its three entries. *)
Ltac at_key k :=
  repeat (first
    [ rewrite lookup_insert_eq | rewrite lookup_delete_eq
    | match goal with E : _ !! k = _ |- _ => rewrite E end ]).
Ltac off_key Hne :=
  unfold agree_at; simpl;
  rewrite ?lookup_insert_ne, ?lookup_delete_ne by (first [exact Hne | apply not_eq_sym; exact Hne]); done.

(** *** Desired view *)

Ltac finish k :=
  at_key k; simpl;
  first
    [ done | lia
    | by intros [? ?]
    | by constructor; apply (valuesEqual_spec (valuesEqual := valuesEqual))
    | by constructor; symmetry; apply (valuesEqual_spec (valuesEqual := valuesEqual))
    | by intros ? ? [= <-] [= <-]; apply not_equal
    | by intros ? ? [= <-] [= <-] Heq; symmetry in Heq; revert Heq; apply not_equal ].
Ltac local_op k := simpl; split_and!; first [intros ? Hne; off_key Hne | finish k].

Lemma Desired_Set_local c k v :
  key_ok c k → let c' := Desired_Set valuesEqual k v c in
  (∀ k', k' ≠ k → agree_at c c' k') ∧ key_ok c' k ∧ Desired_Get c' k ≡ Some v ∧
  Dataplane_Get c' k = Dataplane_Get c k ∧
  desiredLen c' = (desiredLen c + if decide (Desired_Get c k = None) then 1 else 0)%Z.
Proof.
  intros [Hn Hu]. unfold Desired_Set, Desired_Get, Dataplane_Get, key_ok. simpl.
  destruct (inDataplaneNotDesired c !! k) as [vn|] eqn:En.
  - destruct (Hn ltac:(done)) as [Ed Eu]. rewrite Ed, Eu. simpl.
    destruct (valuesEqual vn v) eqn:Eq; local_op k.
  - destruct (inDataplaneAndDesired c !! k) as [vd|] eqn:Ed.
    + destruct (valuesEqual vd v) eqn:Eq, (desiredUpdates c !! k) eqn:Eu; local_op k.
    + destruct (desiredUpdates c !! k) as [vu|] eqn:Eu; local_op k.
Qed.

Lemma Desired_Delete_local c k :
  key_ok c k → let c' := Desired_Delete k c in
  (∀ k', k' ≠ k → agree_at c c' k') ∧ key_ok c' k ∧ Desired_Get c' k = None ∧
  Dataplane_Get c' k = Dataplane_Get c k ∧
  desiredLen c' = (desiredLen c - if decide (Desired_Get c k = None) then 0 else 1)%Z.
Proof.
  intros [Hn Hu]. unfold Desired_Delete, Desired_Get, Dataplane_Get, key_ok. simpl.
  destruct (inDataplaneNotDesired c !! k) as [vn|] eqn:En.
  - destruct (Hn ltac:(done)) as [Ed Eu]. rewrite Eu. simpl. rewrite Ed. simpl. local_op k.
  - destruct (desiredUpdates c !! k) as [vu|] eqn:Eu; simpl;
      destruct (inDataplaneAndDesired c !! k) as [vd|] eqn:Ed; local_op k.
Qed.

(** *** Dataplane view *)
Lemma Dataplane_Set_local c k v :
  key_ok c k → let c' := Dataplane_Set valuesEqual k v c in
  (∀ k', k' ≠ k → agree_at c c' k') ∧ key_ok c' k ∧ Desired_Get c' k ≡ Desired_Get c k ∧
  Dataplane_Get c' k = Some v ∧ desiredLen c' = desiredLen c.
Proof.
  intros [Hn Hu]. unfold Dataplane_Set, Desired_Get, Dataplane_Get, key_ok. simpl.
  destruct (inDataplaneNotDesired c !! k) as [vn|] eqn:En.
  - destruct (Hn ltac:(done)) as [Ed Eu]. rewrite Ed, Eu. local_op k.
  - destruct (desiredUpdates c !! k) as [vu|] eqn:Eu.
    + destruct (valuesEqual vu v) eqn:Eq; local_op k.
    + destruct (inDataplaneAndDesired c !! k) as [vd|] eqn:Ed; [|local_op k].
      destruct (valuesEqual vd v) eqn:Eq; local_op k.
Qed.

Lemma Dataplane_Delete_local c k :
  key_ok c k → let c' := Dataplane_Delete k c in
  (∀ k', k' ≠ k → agree_at c c' k') ∧ key_ok c' k ∧ Desired_Get c' k = Desired_Get c k ∧
  Dataplane_Get c' k = None ∧ desiredLen c' = desiredLen c.
Proof.
  intros [Hn Hu]. unfold Dataplane_Delete, Desired_Get, Dataplane_Get, key_ok. simpl.
  destruct (desiredUpdates c !! k) as [vu|] eqn:Eu; [|destruct (inDataplaneAndDesired c !! k) as [vd|] eqn:Ed];
    local_op k.
Qed.

(** *** The operations on the two maps *)
Lemma Desired_Set_spec c k v :
  tracker_inv c → let c' := Desired_Set valuesEqual k v c in
  tracker_inv c' ∧ desired c' ≡ <[k := v]> (desired c) ∧ dataplane c' = dataplane c.
Proof.
  intros [Hok Hlen] c'. destruct (Desired_Set_local c k v (Hok k)) as (Hag & Hk & Hd & Hp & Hl).
  destruct (local_change c c' k _ _ Hok Hag Hk Hd Hp) as (Hok' & Hd' & Hp').
  change (partial_alter (λ _, Some v) k (desired c)) with (<[k := v]> (desired c)) in Hd'.
  split_and!; [split; [done|]|done|].
  - rewrite (size_equiv _ _ Hd'). unfold c'. rewrite Hl, Hlen, map_size_insert.
    rewrite <-desired_lookup. destruct (desired c !! k); simpl; lia.
  - rewrite Hp'. apply partial_alter_keep. by rewrite dataplane_lookup.
Qed.

Lemma Desired_Delete_spec c k :
  tracker_inv c → let c' := Desired_Delete k c in
  tracker_inv c' ∧ desired c' = delete k (desired c) ∧ dataplane c' = dataplane c.
Proof.
  intros [Hok Hlen] c'. destruct (Desired_Delete_local c k (Hok k)) as (Hag & Hk & Hd & Hp & Hl).
  destruct (local_change c c' k None _ Hok Hag Hk ltac:(unfold c'; by rewrite Hd) Hp) as (Hok' & _ & Hp').
  assert (desired c' = delete k (desired c)) as Hd'.
  { apply map_eq. intros k'. destruct (decide (k' = k)) as [->|Hne].
    - by rewrite lookup_delete_eq, desired_lookup.
    - rewrite lookup_delete_ne by done. by apply agree_desired, Hag. }
  split_and!; [split; [done|]|done|].
  - rewrite Hd'. unfold c'. rewrite Hl, Hlen, map_size_delete, <-desired_lookup.
    destruct (desired c !! k) eqn:E; simpl; [|lia].
    assert (size (desired c) ≠ 0) by (apply (map_size_ne_0_lookup_2 _ k); by rewrite E). lia.
  - rewrite Hp'. apply partial_alter_keep. by rewrite dataplane_lookup.
Qed.

Lemma Dataplane_Set_spec c k v :
  tracker_inv c → let c' := Dataplane_Set valuesEqual k v c in
  tracker_inv c' ∧ desired c' ≡ desired c ∧ dataplane c' = <[k := v]> (dataplane c).
Proof.
  intros [Hok Hlen] c'. destruct (Dataplane_Set_local c k v (Hok k)) as (Hag & Hk & Hd & Hp & Hl).
  destruct (local_change c c' k _ _ Hok Hag Hk Hd Hp) as (Hok' & Hd' & Hp').
  rewrite partial_alter_keep in Hd' by (by rewrite desired_lookup).
  split_and!; [split; [done|]|done|done]. rewrite (size_equiv _ _ Hd'), <-Hlen. done.
Qed.

Lemma Dataplane_Delete_spec c k :
  tracker_inv c → let c' := Dataplane_Delete k c in
  tracker_inv c' ∧ desired c' ≡ desired c ∧ dataplane c' = delete k (dataplane c).
Proof.
  intros [Hok Hlen] c'. destruct (Dataplane_Delete_local c k (Hok k)) as (Hag & Hk & Hd & Hp & Hl).
  destruct (local_change c c' k (Desired_Get c k) None Hok Hag Hk ltac:(unfold c'; by rewrite Hd) Hp) as (Hok' & Hd' & Hp').
  rewrite partial_alter_keep in Hd' by (by rewrite desired_lookup).
  split_and!; [split; [done|]|done|done]. rewrite (size_equiv _ _ Hd'), <-Hlen. done.
Qed.

(** *** Replacing the dataplane state *)
Abbreviation replacing c kvs := (foldl (replaceOne valuesEqual) (c, ∅, ∅) kvs).

(** What the iteration has done to one key. *)
Definition replaced c c1 (newD newN : gmap K V) k (seen : option V) : Prop :=
  match seen with
  | None => agree_at c c1 k ∧ newD !! k = None ∧ newN !! k = None
  | Some v =>
      inDataplaneAndDesired c1 !! k = None ∧ inDataplaneNotDesired c1 !! k = None ∧
      match Desired_Get c k with
      | Some dv => newD !! k = Some v ∧ newN !! k = None ∧
                   desiredUpdates c1 !! k = (if valuesEqual dv v then None else Some dv)
      | None => newD !! k = None ∧ newN !! k = Some v ∧ desiredUpdates c1 !! k = None
      end
  end.

Lemma replaceOne_off c newD newN k v k' :
  k' ≠ k → let '(c1, newD1, newN1) := replaceOne valuesEqual (c, newD, newN) (k, v) in
  agree_at c c1 k' ∧ newD1 !! k' = newD !! k' ∧ newN1 !! k' = newN !! k'.
Proof.
  intros Hne. unfold replaceOne. destruct (Desired_Get c k) as [dv|]; [destruct (valuesEqual dv v)|]; simpl;
    unfold agree_at; simpl; rewrite ?lookup_insert_ne, ?lookup_delete_ne by done; done.
Qed.

Lemma replaceOne_at c newD newN k v :
  let '(c1, newD1, newN1) := replaceOne valuesEqual (c, newD, newN) (k, v) in
  newD !! k = None → newN !! k = None → replaced c c1 newD1 newN1 k (Some v).
Proof.
  unfold replaceOne. destruct (Desired_Get c k) as [dv|] eqn:Eg.
  - destruct (valuesEqual dv v) eqn:Eq; intros Hd Hn; unfold replaced; rewrite Eg; simpl;
      rewrite ?lookup_delete_eq, ?lookup_insert_eq, Eq; done.
  - intros Hd Hn. unfold replaced. rewrite Eg. simpl. rewrite ?lookup_delete_eq, ?lookup_insert_eq.
    split_and!; try done. unfold Desired_Get in Eg. by destruct (desiredUpdates c !! k).
Qed.

Lemma replaced_agree c c0 c1 newD newN k seen :
  agree_at c c0 k → replaced c0 c1 newD newN k seen → replaced c c1 newD newN k seen.
Proof.
  intros (H1 & H2 & H3). unfold replaced, agree_at, Desired_Get. rewrite H1, H2, H3. done.
Qed.

Lemma replacing_spec c kvs :
  NoDup kvs.*1 →
  let '(c1, newD, newN) := replacing c kvs in
  ∀ k, replaced c c1 newD newN k ((list_to_map kvs : gmap K V) !! k).
Proof.
  induction kvs as [|[k v] kvs IH] using rev_ind; intros Hnd.
  { simpl. intros k. rewrite lookup_empty. done. }
  rewrite fmap_app in Hnd. apply list.NoDup_app in Hnd as (Hnd & Hdis & _).
  assert (k ∉ kvs.*1) as Hk by (intros Hk; apply (Hdis k Hk); by left).
  specialize (IH Hnd). rewrite foldl_app. destruct (replacing c kvs) as [[c1 newD] newN].
  cbn [foldl].
  pose proof (IH k) as Hkk. rewrite not_elem_of_list_to_map_1 in Hkk by done. destruct Hkk as (Hag & HD & HN).
  pose proof (replaceOne_at c1 newD newN k v) as Hat.
  pose proof (λ k', replaceOne_off c1 newD newN k v k') as Hoff.
  destruct (replaceOne valuesEqual (c1, newD, newN) (k, v)) as [[c2 newD2] newN2].
  intros k'. rewrite list_to_map_snoc by done. destruct (decide (k' = k)) as [->|Hne].
  - rewrite lookup_insert_eq. eapply replaced_agree; [exact Hag|auto].
  - rewrite lookup_insert_ne by done. destruct (Hoff k' Hne) as ((H1 & H2 & H3) & H4 & H5). specialize (IH k').
    unfold replaced, agree_at in *. by rewrite H1, H2, H3, H4, H5.
Qed.

Lemma queueMissing_spec c (l : list (K * V)) :
  NoDup l.*1 →
  let c' := foldl (λ c (kv : K * V), queueMissing c kv.1) c l in
  ∀ k, desiredUpdates c' !! k = (if decide (k ∈ l.*1) then Desired_Get c k else desiredUpdates c !! k).
Proof.
  revert c. induction l as [|[k0 v0] l IH]; intros c Hnd.
  { intros c' k. by rewrite decide_False by (by intros ?%not_elem_of_nil). }
  apply list.NoDup_cons in Hnd as [Hk0 Hnd]. cbn [foldl].
  pose proof (IH (queueMissing c k0) Hnd) as IHu. cbv zeta in *.
  intros k. etrans; [apply IHu|]. cbn [fst] in *. change (((k0, v0) :: l).*1) with (k0 :: l.*1).
  destruct (decide (k = k0)) as [->|Hne].
  - rewrite decide_False, decide_True by (try done; by left). unfold queueMissing.
    destruct (Desired_Get c k0) as [dv|] eqn:Eg; simpl; [by rewrite lookup_insert_eq|].
    unfold Desired_Get in Eg. by destruct (desiredUpdates c !! k0).
  - assert (agree_at c (queueMissing c k0) k) as (H1 & H2 & H3).
    { unfold queueMissing, agree_at. destruct (Desired_Get c k0); simpl;
        rewrite ?lookup_insert_ne, ?lookup_delete_ne by done; done. }
    unfold Desired_Get. rewrite H1, H3. apply decide_ext. rewrite elem_of_cons. tauto.
Qed.

(** The per-key result of a complete replacement. *)
Lemma ReplaceAllIter_ok_key enumerate c kvs k :
  (∀ m, enumerate m ≡ₚ map_to_list m) → NoDup kvs.*1 → key_ok c k →
  let c' := ReplaceAllIter valuesEqual enumerate kvs false c in
  key_ok c' k ∧ Desired_Get c' k ≡ Desired_Get c k ∧
  Dataplane_Get c' k = (list_to_map kvs : gmap K V) !! k.
Proof.
  intros Henum Hnd Hok c'. unfold c', ReplaceAllIter.
  pose proof (replacing_spec c kvs Hnd) as Hrep. destruct (replacing c kvs) as [[c1 newD] newN].
  specialize (Hrep k).
  pose proof (queueMissing_spec c1 (enumerate (inDataplaneAndDesired c1))) as Hq.
  rewrite Henum in Hq at 1. specialize (Hq (NoDup_fst_map_to_list _) k). cbv zeta in Hq. set (c2 := foldl _ c1 _) in *. unfold Desired_Get, Dataplane_Get, key_ok. simpl. rewrite Hq.
  assert (k ∈ (enumerate (inDataplaneAndDesired c1)).*1 ↔ is_Some (inDataplaneAndDesired c1 !! k)) as Hmem.
  { rewrite Henum, list_elem_of_fmap. split.
    - intros ([k' v] & -> & Hin%elem_of_map_to_list). by eexists.
    - intros [v Hv]. exists (k, v). by rewrite elem_of_map_to_list. }
  destruct (list_to_map kvs !! k) as [v|].
  - destruct Hrep as (HD & HN & Hrep). rewrite decide_False by (rewrite Hmem, HD; by intros [? ?]).
    fold (Desired_Get c k). destruct (Desired_Get c k) as [dv|]; destruct Hrep as (-> & -> & ->).
    + destruct (valuesEqual dv v) eqn:Eq; simpl; split_and!; try done; try (by intros [? ?]).
      * constructor. symmetry. by apply (valuesEqual_spec (valuesEqual := valuesEqual)).
      * intros ? ? [= <-] [= <-] Heq. symmetry in Heq. by apply (not_equal dv v).
    + split_and!; done.
  - destruct Hrep as ((H1 & H2 & H3) & -> & ->). fold (Desired_Get c k). fold (Desired_Get c1 k).
    assert (Desired_Get c1 k = Desired_Get c k) as Hg by (unfold Desired_Get; by rewrite H1, H3). rewrite Hg.
    assert ((if decide (k ∈ (enumerate (inDataplaneAndDesired c1)).*1) then Desired_Get c k
             else desiredUpdates c1 !! k) = Desired_Get c k) as ->.
    { case_decide as Hin; [done|]. rewrite Hmem in Hin. rewrite <-Hg. unfold Desired_Get.
      destruct (desiredUpdates c1 !! k), (inDataplaneAndDesired c1 !! k); try done. by destruct Hin. }
    destruct (Desired_Get c k); split_and!; try done; by intros [? ?].
Qed.

(** The per-key result of a replacement whose iterator fails. *)
Lemma ReplaceAllIter_err_key enumerate c kvs k :
  NoDup kvs.*1 → key_ok c k →
  let c' := ReplaceAllIter valuesEqual enumerate kvs true c in
  key_ok c' k ∧ Desired_Get c' k ≡ Desired_Get c k ∧
  Dataplane_Get c' k = ((list_to_map kvs : gmap K V) ∪ dataplane c) !! k.
Proof.
  intros Hnd Hok c'. unfold c', ReplaceAllIter.
  pose proof (replacing_spec c kvs Hnd) as Hrep. destruct (replacing c kvs) as [[c1 newD] newN].
  specialize (Hrep k).
  unfold Desired_Get, Dataplane_Get, key_ok. simpl. rewrite !lookup_union, dataplane_lookup.
  destruct (list_to_map kvs !! k) as [v|].
  - destruct Hrep as (-> & -> & Hrep). fold (Desired_Get c k).
    destruct (Desired_Get c k) as [dv|]; destruct Hrep as (-> & -> & ->).
    + destruct (valuesEqual dv v) eqn:Eq; simpl; split_and!; try done; try (by intros [? ?]);
        try (by destruct (Dataplane_Get c k)).
      * constructor. symmetry. by apply (valuesEqual_spec (valuesEqual := valuesEqual)).
      * intros ? ? [= <-] [= <-] Heq. symmetry in Heq. by apply (not_equal dv v).
    + split_and!; try done; by destruct (Dataplane_Get c k).
  - destruct Hrep as ((-> & -> & ->) & -> & ->). assert (∀ o : option V, None ∪ o = o) as Hl by (by intros []).
    setoid_rewrite Hl. rewrite ?Hl. unfold key_ok in Hok.
    split; [exact Hok|]. split; [reflexivity|done].
Qed.

Lemma per_key_lift c c' :
  tracker_inv c → (∀ k, key_ok c' k) → desiredLen c' = desiredLen c →
  (∀ k, Desired_Get c' k ≡ Desired_Get c k) → tracker_inv c' ∧ desired c' ≡ desired c.
Proof.
  intros [_ Hlen] Hok Hl Hd. assert (desired c' ≡ desired c) as Heq.
  { intros k. rewrite !desired_lookup. done. }
  split; [|done]. split; [done|]. by rewrite (size_equiv _ _ Heq), Hl.
Qed.

Lemma ReplaceAllIter_len enumerate c kvs err :
  desiredLen (ReplaceAllIter valuesEqual enumerate kvs err c) = desiredLen c.
Proof.
  assert (∀ st, desiredLen (foldl (replaceOne valuesEqual) st kvs).1.1 = desiredLen st.1.1) as Hr.
  { induction kvs as [|[k v] kvs IH]; intros [[c0 newD] newN]; [done|]. cbn [foldl]. rewrite IH. simpl.
    by destruct (Desired_Get c0 k) as [dv|]; [destruct (valuesEqual dv v)|]. }
  assert (∀ (l : list (K * V)) c, desiredLen (foldl (λ c kv, queueMissing c kv.1) c l) = desiredLen c) as Hq.
  { induction l as [|[k v] l IH]; intros c0; [done|]. cbn [foldl fst]. rewrite IH. unfold queueMissing.
    by destruct (Desired_Get c0 k). }
  specialize (Hr (c, ∅, ∅)). unfold ReplaceAllIter. destruct (replacing c kvs) as [[c1 newD] newN].
  destruct err; simpl in *; [done|]. by rewrite Hq.
Qed.

Lemma ReplaceAllIter_spec enumerate c kvs err :
  (∀ m, enumerate m ≡ₚ map_to_list m) → NoDup kvs.*1 → tracker_inv c →
  let c' := ReplaceAllIter valuesEqual enumerate kvs err c in
  tracker_inv c' ∧ desired c' ≡ desired c ∧
  dataplane c' = if err then list_to_map kvs ∪ dataplane c else list_to_map kvs.
Proof.
  intros Henum Hnd Hinv c'. apply and_assoc.
  assert (∀ k, key_ok c' k ∧ Desired_Get c' k ≡ Desired_Get c k ∧
            Dataplane_Get c' k = (if err then list_to_map kvs ∪ dataplane c else list_to_map kvs) !! k) as Hk.
  { intros k. destruct err; [apply ReplaceAllIter_err_key|apply ReplaceAllIter_ok_key]; try done; apply Hinv. }
  split.
  - apply per_key_lift; [done|apply Hk|apply ReplaceAllIter_len|apply Hk].
  - apply map_eq. intros k. rewrite dataplane_lookup. apply Hk.
Qed.

(** *** Emptying the desired map *)
Lemma Desired_Delete_all_spec c (l : list (K * V)) :
  tracker_inv c → let c' := foldl (λ c kv, Desired_Delete kv.1 c) c l in
  tracker_inv c' ∧ dataplane c' = dataplane c ∧ (∀ k, desired c' !! k = if decide (k ∈ l.*1) then None else desired c !! k) ∧
  (∀ k, desiredUpdates c' !! k = if decide (k ∈ l.*1) then None else desiredUpdates c !! k).
Proof.
  revert c. induction l as [|[k0 v0] l IH]; intros c Hinv.
  { split_and!; try done; intros k; by rewrite decide_False by (by intros ?%not_elem_of_nil). }
  cbn [foldl fst]. destruct (Desired_Delete_spec c k0 Hinv) as (Hinv1 & Hd1 & Hp1).
  destruct (IH _ Hinv1) as (Hinv2 & Hp2 & Hd2 & Hu2). change (((k0, v0) :: l).*1) with (k0 :: l.*1).
  split_and!; [exact Hinv2|etrans; [exact Hp2|exact Hp1]| |].
  - intros k. etrans; [apply Hd2|]. rewrite Hd1. destruct (decide (k = k0)) as [->|Hne].
    + rewrite lookup_delete_eq, (decide_True (P := k0 ∈ k0 :: l.*1)) by (by left). by case_decide.
    + rewrite lookup_delete_ne by done. apply decide_ext. rewrite elem_of_cons. tauto.
  - intros k. etrans; [apply Hu2|]. destruct (Desired_Delete_local c k0 (ti_keys c Hinv k0)) as (Hag & _ & Hg & _).
    destruct (decide (k = k0)) as [->|Hne].
    + rewrite (decide_True (P := k0 ∈ k0 :: l.*1)) by (by left). unfold Desired_Get in Hg.
      case_decide; [done|]. by destruct (desiredUpdates (Desired_Delete k0 c) !! k0).
    + destruct (Hag k Hne) as (_ & _ & ->). apply decide_ext. rewrite elem_of_cons. tauto.
Qed.

Lemma guarded_delete (c : DeltaTracker) (l : list (K * V)) :
  desiredUpdates c = ∅ →
  foldl (λ c kv, match desiredUpdates c !! kv.1 with Some _ => c | None => Desired_Delete kv.1 c end) c l =
  foldl (λ c kv, Desired_Delete kv.1 c) c l.
Proof.
  revert c. induction l as [|[k v] l IH]; intros c Hu; [done|]. cbn [foldl fst]. rewrite Hu, lookup_empty.
  apply IH. unfold Desired_Delete. rewrite Hu, lookup_empty. simpl.
  by destruct (inDataplaneAndDesired c !! k); simpl; rewrite Hu.
Qed.

Lemma enumerate_keys enumerate m k :
  (∀ m, enumerate m ≡ₚ map_to_list m) → k ∈ (enumerate m).*1 ↔ is_Some (m !! k).
Proof.
  intros Henum. rewrite Henum, list_elem_of_fmap. split.
  - intros ([k' v] & -> & Hin%elem_of_map_to_list). by eexists.
  - intros [v Hv]. exists (k, v). by rewrite elem_of_map_to_list.
Qed.

Lemma Desired_DeleteAll_spec enumerate c :
  (∀ m, enumerate m ≡ₚ map_to_list m) → tracker_inv c →
  let c' := Desired_DeleteAll enumerate c in
  tracker_inv c' ∧ desired c' = ∅ ∧ dataplane c' = dataplane c.
Proof.
  intros Henum Hinv. unfold Desired_DeleteAll.
  destruct (Desired_Delete_all_spec c (enumerate (desiredUpdates c)) Hinv) as (Hinv1 & Hp1 & Hd1 & Hu1).
  set (c1 := foldl _ c _) in *.
  assert (desiredUpdates c1 = ∅) as He.
  { apply map_eq. intros k. rewrite Hu1, lookup_empty. case_decide as Hk; [done|].
    rewrite enumerate_keys in Hk by done. by apply eq_None_not_Some. }
  rewrite guarded_delete by done.
  destruct (Desired_Delete_all_spec c1 (enumerate (inDataplaneAndDesired c1)) Hinv1) as (Hinv2 & Hp2 & Hd2 & _).
  split_and!; [done| |by rewrite Hp2].
  apply map_eq. intros k. rewrite Hd2, lookup_empty. case_decide as Hk; [done|].
  rewrite enumerate_keys in Hk by done. rewrite desired_lookup. unfold Desired_Get. rewrite He, lookup_empty.
  by apply eq_None_not_Some.
Qed.

(** *** The pending views are the differences *)
Lemma pending_updates_spec c k v :
  tracker_inv c → desiredUpdates c !! k = Some v ↔ desired c !! k = Some v ∧ ¬ dataplane c !! k ≡ Some v.
Proof.
  intros Hinv. rewrite desired_lookup, dataplane_lookup. destruct (ti_keys c Hinv k) as [Hn Hu].
  unfold Desired_Get, Dataplane_Get. destruct (desiredUpdates c !! k) as [vu|] eqn:Eu.
  - split; [|by intros [? _]]. intros [= ->]. split; [done|].
    destruct (inDataplaneAndDesired c !! k) as [vd|] eqn:Ed.
    + intros He%(inj Some). by apply (Hu vd v).
    + destruct (inDataplaneNotDesired c !! k) as [vn|] eqn:En; [by destruct (Hn ltac:(done))|]. by inversion 1.
  - split; [done|]. intros [-> Hne]. by destruct Hne.
Qed.

Lemma pending_deletions_spec c k v :
  tracker_inv c → inDataplaneNotDesired c !! k = Some v ↔ dataplane c !! k = Some v ∧ desired c !! k = None.
Proof.
  intros Hinv. rewrite desired_lookup, dataplane_lookup. destruct (ti_keys c Hinv k) as [Hn _].
  unfold Desired_Get, Dataplane_Get. split.
  - intros Hv. destruct (Hn ltac:(by rewrite Hv)) as [-> ->]. done.
  - destruct (desiredUpdates c !! k); [by intros [_ ?]|]. by destruct (inDataplaneAndDesired c !! k); intros [? ?].
Qed.

Lemma InSync_spec c : tracker_inv c → InSync c = true ↔ desired c ≡ dataplane c.
Proof.
  intros Hinv. unfold InSync, PendingDeletions_Len, PendingUpdates_Len.
  rewrite andb_true_iff, !bool_decide_eq_true, !map_size_empty_iff. split.
  - intros [Hn Hu]. unfold desired, dataplane. rewrite Hn, Hu, (left_id ∅ (∪)), (right_id ∅ (∪)). done.
  - intros Heq. split; apply map_empty; intros k; apply eq_None_not_Some; intros [v Hv].
    + apply pending_deletions_spec in Hv as [Hp Hd]; [|done]. specialize (Heq k). rewrite Hp, Hd in Heq. inversion Heq.
    + apply pending_updates_spec in Hv as [Hd Hp]; [|done]. apply Hp. rewrite <-Hd. symmetry. apply Heq.
Qed.

Lemma Dataplane_Len_spec c : tracker_inv c → Dataplane_Len c = size (dataplane c).
Proof.
  intros Hinv. unfold Dataplane_Len, dataplane. rewrite map_size_disj_union; [lia|].
  apply map_disjoint_spec. intros k v1 v2 H1 H2. destruct (ti_keys c Hinv k) as [Hn _].
  destruct (Hn ltac:(by rewrite H2)). congruence.
Qed.

(** *** Applying pending changes *)
Lemma applyUpdate_spec c k v :
  tracker_inv c → desiredUpdates c !! k = Some v → let c' := applyUpdate c (k, v) in
  tracker_inv c' ∧ desired c' = desired c ∧ dataplane c' = <[k := v]> (dataplane c) ∧
  desiredUpdates c' = delete k (desiredUpdates c) ∧ inDataplaneNotDesired c' = inDataplaneNotDesired c.
Proof.
  intros Hinv Hu c'. destruct (ti_keys c Hinv k) as [Hn _].
  assert (desired c' = desired c) as Hd.
  { apply map_eq. intros k'. rewrite !desired_lookup. unfold Desired_Get. simpl. destruct (decide (k' = k)) as [->|Hne].
    - by rewrite lookup_delete_eq, lookup_insert_eq, Hu.
    - by rewrite lookup_delete_ne, lookup_insert_ne. }
  split_and!; [|done| |done|done].
  - split; [|rewrite Hd; apply Hinv]. intros k'. destruct (decide (k' = k)) as [->|Hne].
    + unfold key_ok. simpl. rewrite lookup_insert_eq, lookup_delete_eq. split; [|done].
      intros Hs%Hn. destruct Hs. congruence.
    + apply (agree_key_ok c); [|apply Hinv]. unfold agree_at. simpl.
      by rewrite lookup_insert_ne, lookup_delete_ne.
  - apply map_eq. intros k'. rewrite !dataplane_lookup. unfold Dataplane_Get. simpl.
    destruct (decide (k' = k)) as [->|Hne]; [by rewrite !lookup_insert_eq|].
    by rewrite !lookup_insert_ne, dataplane_lookup.
Qed.

Lemma applyDeletion_spec c k v :
  tracker_inv c → inDataplaneNotDesired c !! k = Some v → let c' := applyDeletion c (k, v) in
  tracker_inv c' ∧ desired c' = desired c ∧ dataplane c' = delete k (dataplane c) ∧
  desiredUpdates c' = desiredUpdates c ∧ inDataplaneNotDesired c' = delete k (inDataplaneNotDesired c).
Proof.
  intros Hinv Hu c'. destruct (ti_keys c Hinv k) as [Hn _]. destruct (Hn ltac:(by rewrite Hu)) as [Ed Eu].
  split_and!; [|done| |done|done].
  - split; [|apply Hinv]. intros k'. unfold key_ok. simpl. split; [|apply Hinv].
    intros [v' [_ Hv']%lookup_delete_Some]. apply (ti_keys c Hinv k'). by rewrite Hv'.
  - apply map_eq. intros k'. rewrite dataplane_lookup. unfold Dataplane_Get. simpl.
    destruct (decide (k' = k)) as [->|Hne]; [by rewrite !lookup_delete_eq, Ed|].
    by rewrite !lookup_delete_ne, dataplane_lookup.
Qed.

Lemma applyUpdates_spec c (l : list (K * V)) :
  tracker_inv c → NoDup l.*1 → (∀ k v, (k, v) ∈ l → desiredUpdates c !! k = Some v) →
  let c' := foldl applyUpdate c l in
  tracker_inv c' ∧ desired c' = desired c ∧ dataplane c' = list_to_map l ∪ dataplane c ∧
  (∀ k, desiredUpdates c' !! k = if decide (k ∈ l.*1) then None else desiredUpdates c !! k) ∧
  inDataplaneNotDesired c' = inDataplaneNotDesired c.
Proof.
  revert c. induction l as [|[k0 v0] l IH]; intros c Hinv Hnd Hl.
  { split_and!; [done|done|by rewrite list_to_map_nil, (left_id ∅ (∪))| |done].
    intros k. by rewrite decide_False by (by intros ?%not_elem_of_nil). }
  apply list.NoDup_cons in Hnd as [Hk0 Hnd]. cbn [foldl].
  destruct (applyUpdate_spec c k0 v0 Hinv) as (Hinv1 & Hd1 & Hp1 & Hu1 & Hn1); [apply Hl; by left|].
  destruct (IH _ Hinv1 Hnd) as (Hinv2 & Hd2 & Hp2 & Hu2 & Hn2).
  { intros k v Hin. rewrite Hu1, lookup_delete_ne; [apply Hl; by right|].
    intros <-. apply Hk0. apply list_elem_of_fmap. by exists (k0, v). }
  split_and!; [done|by rewrite Hd2| | |by rewrite Hn2].
  - rewrite Hp2, Hp1, list_to_map_cons, <-insert_union_l.
    symmetry. apply insert_union_r. by apply not_elem_of_list_to_map_1.
  - intros k. rewrite Hu2, Hu1. change (((k0, v0) :: l).*1) with (k0 :: l.*1). destruct (decide (k = k0)) as [->|Hne].
    + rewrite lookup_delete_eq, (decide_True (P := k0 ∈ k0 :: l.*1)) by (by left). by case_decide.
    + rewrite lookup_delete_ne by done. apply decide_ext. rewrite elem_of_cons. tauto.
Qed.

Lemma applyDeletions_spec c (l : list (K * V)) :
  tracker_inv c → NoDup l.*1 → (∀ k v, (k, v) ∈ l → inDataplaneNotDesired c !! k = Some v) →
  let c' := foldl applyDeletion c l in
  tracker_inv c' ∧ desired c' = desired c ∧
  (∀ k, dataplane c' !! k = if decide (k ∈ l.*1) then None else dataplane c !! k) ∧
  (∀ k, inDataplaneNotDesired c' !! k = if decide (k ∈ l.*1) then None else inDataplaneNotDesired c !! k) ∧
  desiredUpdates c' = desiredUpdates c.
Proof.
  revert c. induction l as [|[k0 v0] l IH]; intros c Hinv Hnd Hl.
  { split_and!; try done; intros k; by rewrite decide_False by (by intros ?%not_elem_of_nil). }
  apply list.NoDup_cons in Hnd as [Hk0 Hnd]. cbn [foldl].
  destruct (applyDeletion_spec c k0 v0 Hinv) as (Hinv1 & Hd1 & Hp1 & Hu1 & Hn1); [apply Hl; by left|].
  destruct (IH _ Hinv1 Hnd) as (Hinv2 & Hd2 & Hp2 & Hn2 & Hu2).
  { intros k v Hin. rewrite Hn1, lookup_delete_ne; [apply Hl; by right|].
    intros <-. apply Hk0. apply list_elem_of_fmap. by exists (k0, v). }
  split_and!; [done|by rewrite Hd2| | |by rewrite Hu2]; intros k; rewrite ?Hp2, ?Hp1, ?Hn2, ?Hn1;
    change (((k0, v0) :: l).*1) with (k0 :: l.*1); destruct (decide (k = k0)) as [->|Hne].
  1, 3: rewrite lookup_delete_eq, (decide_True (P := k0 ∈ k0 :: l.*1)) by (by left); by case_decide.
  all: rewrite lookup_delete_ne by done; apply decide_ext; rewrite elem_of_cons; tauto.
Qed.

(** *** Iterating with callbacks *)
Section callbacks.
Context {St : Type} (commit : DeltaTracker (K := K) (V := V) → K * V → DeltaTracker (K := K) (V := V)).
Implicit Types (s : St) (l kvs : list (K * V)).

Lemma iterStep_fold (f : St → K * V → St * IterAction) s c kvs :
  ∃ s' l, foldl (iterStep commit f) (s, c) kvs = (s', foldl commit c l) ∧ l `sublist_of` kvs ∧
    ((∀ s kv, (f s kv).2 = IterActionUpdateDataplane) → l = kvs).
Proof.
  revert s c. induction kvs as [|kv kvs IH]; intros s c.
  { exists s, []. split_and!; [done|constructor|done]. }
  cbn [foldl]. unfold iterStep at 2. destruct (f s kv) as [s1 a] eqn:E. destruct a.
  - destruct (IH s1 c) as (s' & l & -> & Hl & _). exists s', l. split_and!; [done|by constructor|].
    intros Hf. specialize (Hf s kv). by rewrite E in Hf.
  - destruct (IH s1 (commit c kv)) as (s' & l & -> & Hl & Hall). exists s', (kv :: l).
    split_and!; [done|by constructor|]. intros Hf. f_equal. auto.
  - destruct (IH s1 c) as (s' & l & -> & Hl & _). exists s', l. split_and!; [done|by constructor|].
    intros Hf. specialize (Hf s kv). by rewrite E in Hf.
Qed.

(** What the code asks of [applyFn]: without error everything was applied, with
    an error at least one item was not. *)
Definition applyFn_ok (applyFn : St → list (K * V) → St * (nat * bool)) : Prop :=
  ∀ s b, b ≠ [] → let '(applied, err) := (applyFn s b).2 in
         if (err : bool) then applied < length b else applied = length b.

Definition never_errs (applyFn : St → list (K * V) → St * (nat * bool)) : Prop :=
  ∀ s b, (applyFn s b).2.2 = false.

Context (applyFn : St → list (K * V) → St * (nat * bool)) (Hok : applyFn_ok applyFn).

Lemma applyBatch_spec s b c :
  b ≠ [] → ∃ s' l rest, applyBatch commit applyFn s b c = Ret (s', rest, foldl commit c l) ∧
    l ++ rest `sublist_of` b ∧ length rest < length b ∧ (never_errs applyFn → l = b ∧ rest = []).
Proof using Hok.
  intros Hb. specialize (Hok s b Hb). unfold applyBatch. destruct (applyFn s b) as [s' [n err]] eqn:E.
  cbn [snd] in Hok. exists s', (take n b), (drop (if err then n + 1 else n) b). destruct err.
  - destruct (Nat.ltb_spec (length b) n); [lia|]. destruct (Nat.ltb_spec (length b) (n + 1)); [lia|].
    split_and!; [done| | |].
    + rewrite <-(take_drop n b) at 3. apply sublist_app; [done|]. rewrite <-drop_drop. apply sublist_drop.
    + rewrite length_drop. lia.
    + intros Hne. specialize (Hne s b). by rewrite E in Hne.
  - destruct (Nat.ltb_spec (length b) n); [lia|]. destruct (Nat.ltb_spec (length b) n); [lia|].
    split_and!; [done|by rewrite take_drop| |].
    + rewrite length_drop. destruct b; simpl in *; [done|lia].
    + intros _. subst n. by rewrite firstn_all, drop_all.
Qed.

Lemma batchLoop_spec kvs s b c :
  ∃ s' l rest, batchLoop commit applyFn kvs s b c = Ret (s', rest, foldl commit c l) ∧
    l ++ rest `sublist_of` b ++ kvs ∧ (never_errs applyFn → l ++ rest = b ++ kvs).
Proof using Hok.
  revert s b c. induction kvs as [|kv kvs IH]; intros s b c.
  { exists s, [], b. cbn [batchLoop]. rewrite app_nil_r. done. }
  cbn [batchLoop]. destruct (length (b ++ [kv]) =? batchSize).
  - destruct (applyBatch_spec s (b ++ [kv]) c) as (s1 & l1 & r1 & -> & Hs1 & _ & Ha1); [by destruct b|].
    cbn [obind]. destruct (IH s1 r1 (foldl commit c l1)) as (s2 & l2 & r2 & -> & Hs2 & Ha2).
    exists s2, (l1 ++ l2), r2. rewrite foldl_app. split_and!; [done| |].
    + rewrite <-app_assoc. etrans; [apply sublist_app; [done|exact Hs2]|].
      rewrite app_assoc. etrans; [apply sublist_app; [exact Hs1|done]|]. by rewrite <-app_assoc.
    + intros Hne. destruct (Ha1 Hne) as [-> ->]. rewrite <-app_assoc, (Ha2 Hne). by rewrite <-app_assoc.
  - destruct (IH s (b ++ [kv]) c) as (s2 & l2 & r2 & -> & Hs2 & Ha2). exists s2, l2, r2.
    rewrite <-app_assoc in Hs2, Ha2. done.
Qed.

Lemma drainLoop_spec n s b c :
  length b ≤ n → ∃ s' l, drainLoop n commit applyFn s b c = Ret (s', foldl commit c l) ∧ l `sublist_of` b ∧
    (never_errs applyFn → l = b).
Proof using Hok.
  revert s b c. induction n as [|n IH]; intros s b c Hn.
  { destruct b; simpl in Hn; [|lia]. by exists s, []. }
  destruct b as [|kv b0]; [by exists s, []|]. cbn [drainLoop]. set (b := kv :: b0) in *.
  destruct (applyBatch_spec s b c) as (s1 & l1 & r1 & -> & Hs1 & Hlt & Ha1); [done|].
  cbn [obind]. destruct (IH s1 r1 (foldl commit c l1)) as (s2 & l2 & -> & Hs2 & Ha2); [lia|].
  exists s2, (l1 ++ l2). rewrite foldl_app. split_and!; [done| |].
  - etrans; [apply sublist_app; [done|exact Hs2]|exact Hs1].
  - intros Hne. destruct (Ha1 Hne) as [-> ->]. rewrite (Ha2 Hne). apply app_nil_r.
Qed.

Lemma iterBatched_spec kvs s c :
  ∃ s' l, iterBatched commit applyFn kvs s c = Ret (s', foldl commit c l) ∧ l `sublist_of` kvs ∧
    (never_errs applyFn → l = kvs).
Proof using Hok.
  unfold iterBatched. destruct (batchLoop_spec kvs s [] c) as (s1 & l1 & r1 & -> & Hs1 & Ha1). cbn [obind].
  destruct (drainLoop_spec (length r1) s1 r1 (foldl commit c l1)) as (s2 & l2 & -> & Hs2 & Ha2); [done|].
  exists s2, (l1 ++ l2). rewrite foldl_app. split_and!; [done| |].
  - etrans; [apply sublist_app; [done|exact Hs2]|exact Hs1].
  - intros Hne. rewrite (Ha2 Hne). by apply Ha1.
Qed.
End callbacks.
End spec.

(** ** Programs over the tracker *)
Section programs.
Context `{Countable K} {V : Type} `{Equiv V} (valuesEqual : V → V → bool) `{!ValuesEqual V valuesEqual}.
Context (enumerate : gmap K V → list (K * V)).

(** The calls that change one of the two maps. *)
Inductive call :=
  | CallDesiredSet (k : K) (v : V)
  | CallDesiredDelete (k : K)
  | CallDesiredDeleteAll
  | CallDataplaneSet (k : K) (v : V)
  | CallDataplaneDelete (k : K)
  | CallReplaceAll (kvs : list (K * V)) (err : bool)
  | CallDataplaneDeleteAll.

Definition run (c : DeltaTracker) (p : call) : DeltaTracker :=
  match p with
  | CallDesiredSet k v => Desired_Set valuesEqual k v c
  | CallDesiredDelete k => Desired_Delete k c
  | CallDesiredDeleteAll => Desired_DeleteAll enumerate c
  | CallDataplaneSet k v => Dataplane_Set valuesEqual k v c
  | CallDataplaneDelete k => Dataplane_Delete k c
  | CallReplaceAll kvs err => ReplaceAllIter valuesEqual enumerate kvs err c
  | CallDataplaneDeleteAll => Dataplane_DeleteAll valuesEqual enumerate c
  end.

(** The same calls on the desired and the dataplane map. *)
Definition spec_run (st : gmap K V * gmap K V) (p : call) : gmap K V * gmap K V :=
  let '(D, P) := st in
  match p with
  | CallDesiredSet k v => (<[k := v]> D, P)
  | CallDesiredDelete k => (delete k D, P)
  | CallDesiredDeleteAll => (∅, P)
  | CallDataplaneSet k v => (D, <[k := v]> P)
  | CallDataplaneDelete k => (D, delete k P)
  | CallReplaceAll kvs err => (D, if (err : bool) then list_to_map kvs ∪ P else list_to_map kvs)
  | CallDataplaneDeleteAll => (D, ∅)
  end.

(** Iterators yield each key once. *)
Definition call_ok (p : call) : Prop :=
  match p with CallReplaceAll kvs _ => NoDup kvs.*1 | _ => True end.

Definition refines (c : DeltaTracker) (st : gmap K V * gmap K V) : Prop :=
  tracker_inv c ∧ desired c ≡ st.1 ∧ dataplane c = st.2.

Lemma refines_New : refines New (∅, ∅).
Proof.
  split_and!; [split|done|done].
  - intros k. unfold key_ok. simpl. rewrite lookup_empty. split; [by intros [? ?]|done].
  - done.
Qed.

Lemma run_refines c st p :
  (∀ m, enumerate m ≡ₚ map_to_list m) → call_ok p → refines c st → refines (run c p) (spec_run st p).
Proof.
  destruct st as [D P]. intros Henum Hp (Hinv & Hd & Hdp). cbn [fst snd] in *. subst P. destruct p; simpl.
  - destruct (Desired_Set_spec valuesEqual c k v Hinv) as (? & Heq & ?). split_and!; [done| |done].
    simpl. by rewrite Heq, Hd.
  - destruct (Desired_Delete_spec valuesEqual c k Hinv) as (? & Heq & ?). split_and!; [done| |done].
    simpl. by rewrite Heq, Hd.
  - destruct (Desired_DeleteAll_spec valuesEqual enumerate c Henum Hinv) as (? & Heq & ?).
    split_and!; [done| |done]. simpl. by rewrite Heq.
  - destruct (Dataplane_Set_spec valuesEqual c k v Hinv) as (? & Heq & ?). split_and!; [done| |done].
    simpl. by rewrite Heq.
  - destruct (Dataplane_Delete_spec valuesEqual c k Hinv) as (? & Heq & ?). split_and!; [done| |done].
    simpl. by rewrite Heq.
  - destruct (ReplaceAllIter_spec valuesEqual enumerate c kvs err Henum Hp Hinv) as (? & Heq & ?).
    split_and!; [done| |done]. simpl. by rewrite Heq.
  - destruct (ReplaceAllIter_spec valuesEqual enumerate c (enumerate ∅) false Henum) as (? & Heq & Hdp); [|done|].
    { rewrite Henum. apply NoDup_fst_map_to_list. }
    split_and!; [done|by simpl; rewrite Heq|]. simpl. unfold Dataplane_DeleteAll, ReplaceAllMap. rewrite Hdp.
    assert (enumerate ∅ = []) as ->; [|done]. apply Permutation_nil_r. rewrite Henum. by rewrite map_to_list_empty.
Qed.

Lemma runs_refine ps c st :
  (∀ m, enumerate m ≡ₚ map_to_list m) → Forall call_ok ps → refines c st →
  refines (foldl run c ps) (foldl spec_run st ps).
Proof.
  intros Henum Hps. revert c st. induction Hps as [|p ps Hp _ IH]; intros c st Hr; [done|].
  cbn [foldl]. apply IH. by apply run_refines.
Qed.
End programs.

(** ** Instances *)
#[local] Instance Z_equiv : Equiv Z := (=).
#[local] Instance unit_equiv : Equiv unit := (=).

#[global, refine] Instance Z_eqb_ValuesEqual : ValuesEqual Z Z.eqb := {}.
Proof. intros a b. apply Z.eqb_eq. Defined.

(** The comparison of the set tracker. *)
#[global, refine] Instance unitsEqual_ValuesEqual : ValuesEqual unit SetDeltaTracker.unitsEqual := {}.
Proof. by intros [] []. Defined.

(** ** The promises *)
Section claims.
Context `{Countable K} {V : Type} `{Equiv V} (valuesEqual : V → V → bool) `{!ValuesEqual V valuesEqual}.
Context (enumerate : gmap K V → list (K * V)).

(** C16: the three maps of the tracker refine a desired map and a dataplane map: after any
  sequence of calls on a new tracker (sets, deletes, delete-all of both views,
  complete and failing replacements of the dataplane by iterators that yield no key
  twice, for any enumeration order of Go maps), the desired view is the desired map of the same calls on plain maps up to the
  values' equivalence, the dataplane view is exactly the dataplane map, and both
  lengths are right. *)
Theorem tracker_refines_maps (ps : list (call (K := K) (V := V))) :
(∀ m, enumerate m ≡ₚ map_to_list m) → Forall call_ok ps →
let c := foldl (run valuesEqual enumerate) New ps in
let '(D, P) := foldl spec_run (∅, ∅) ps in
(∀ k, Desired_Get c k ≡ D !! k) ∧ (∀ k, Dataplane_Get c k = P !! k) ∧
Desired_Len c = Z.of_nat (size D) ∧ Dataplane_Len c = size P.
Proof.
intros Henum Hps. pose proof (runs_refine valuesEqual enumerate ps _ _ Henum Hps (refines_New valuesEqual enumerate)) as Hr.
cbv zeta. destruct (foldl spec_run (∅, ∅) ps) as [D P]. destruct Hr as (Hinv & Hd & Hp). cbn [fst snd] in *.
split_and!.
- intros k. rewrite <-(desired_lookup valuesEqual). apply Hd.
- intros k. by rewrite <-(dataplane_lookup valuesEqual), Hp.
- unfold Desired_Len. by rewrite (ti_len _ Hinv), (size_equiv valuesEqual _ _ Hd).
- by rewrite (Dataplane_Len_spec valuesEqual), Hp.
Qed.

(** The pending views are exactly the differences: a pending update is a desired
  pair that the dataplane does not have (with an equal value), a pending deletion is a
  dataplane pair whose key is not desired, and [InSync] holds iff the two maps are
  equal. *)
Theorem pending_views_exact (ps : list (call (K := K) (V := V))) :
(∀ m, enumerate m ≡ₚ map_to_list m) → Forall call_ok ps →
let c := foldl (run valuesEqual enumerate) New ps in
(∀ k v, PendingUpdates_Get c k = Some v ↔ Desired_Get c k = Some v ∧ ¬ Dataplane_Get c k ≡ Some v) ∧
(∀ k v, PendingDeletions_Get c k = Some v ↔ Dataplane_Get c k = Some v ∧ Desired_Get c k = None) ∧
(InSync c = true ↔ ∀ k, Desired_Get c k ≡ Dataplane_Get c k).
Proof.
intros Henum Hps. pose proof (runs_refine valuesEqual enumerate ps _ _ Henum Hps (refines_New valuesEqual enumerate)) as (Hinv & _).
cbv zeta. set (c := foldl _ New ps) in *. split_and!.
- intros k v. rewrite <-(desired_lookup valuesEqual), <-(dataplane_lookup valuesEqual). by apply (pending_updates_spec valuesEqual).
- intros k v. rewrite <-(desired_lookup valuesEqual), <-(dataplane_lookup valuesEqual). by apply (pending_deletions_spec valuesEqual).
- rewrite (InSync_spec valuesEqual) by done. split.
  + intros Heq k. rewrite <-(desired_lookup valuesEqual), <-(dataplane_lookup valuesEqual). apply Heq.
  + intros Heq k. rewrite (desired_lookup valuesEqual), (dataplane_lookup valuesEqual). apply Heq.
Qed.

(** C28: applying what is pending brings the dataplane in sync: after any sequence of calls by iterators
  that yield no key twice, if the callbacks report
  success for every pending deletion and every pending update, then afterwards [InSync]
  holds, the desired map is unchanged and the dataplane map equals it. *)
Theorem applying_pending_syncs {S : Type} (f : S → K → S * IterAction) (g : S → K * V → S * IterAction)
  (s : S) (ps : list (call (K := K) (V := V))) :
(∀ m, enumerate m ≡ₚ map_to_list m) → Forall call_ok ps →
(∀ s k, (f s k).2 = IterActionUpdateDataplane) → (∀ s kv, (g s kv).2 = IterActionUpdateDataplane) →
let c := foldl (run valuesEqual enumerate) New ps in
let '(s1, c1) := PendingDeletions_Iter enumerate f s c in
let '(s2, c2) := PendingUpdates_Iter enumerate g s1 c1 in
InSync c2 = true ∧ desired c2 = desired c ∧ dataplane c2 ≡ desired c.
Proof.
intros Henum Hps Hf Hg. pose proof (runs_refine valuesEqual enumerate ps _ _ Henum Hps (refines_New valuesEqual enumerate)) as (Hinv & _).
cbv zeta. set (c := foldl _ New ps) in *. unfold PendingDeletions_Iter.
destruct (iterStep_fold valuesEqual applyDeletion (λ s kv, f s kv.1) s c (enumerate (inDataplaneNotDesired c)))
  as (s1 & l1 & -> & _ & Hl1). rewrite Hl1 by (intros; apply Hf).
destruct (applyDeletions_spec valuesEqual c (enumerate (inDataplaneNotDesired c)) Hinv)
  as (Hinv1 & Hd1 & _ & Hn1 & Hu1).
{ rewrite Henum. apply NoDup_fst_map_to_list. } { intros k v. by rewrite Henum, elem_of_map_to_list. }
set (c1 := foldl applyDeletion c _) in *. unfold PendingUpdates_Iter.
destruct (iterStep_fold valuesEqual applyUpdate g s1 c1 (enumerate (desiredUpdates c1)))
  as (s2 & l2 & -> & _ & Hl2). rewrite Hl2 by (intros; apply Hg).
destruct (applyUpdates_spec valuesEqual c1 (enumerate (desiredUpdates c1)) Hinv1)
  as (Hinv2 & Hd2 & _ & Hu2 & Hn2).
{ rewrite Henum. apply NoDup_fst_map_to_list. } { intros k v. by rewrite Henum, elem_of_map_to_list. }
set (c2 := foldl applyUpdate c1 _) in *.
assert (InSync c2 = true) as Hsync.
{ unfold InSync, PendingDeletions_Len, PendingUpdates_Len. rewrite andb_true_iff, !bool_decide_eq_true, !map_size_empty_iff.
  split; apply map_empty; intros k.
  - rewrite Hn2, Hn1. case_decide as Hk; [done|]. rewrite (enumerate_keys valuesEqual) in Hk by done. by apply eq_None_not_Some.
  - rewrite Hu2. case_decide as Hk; [done|]. rewrite (enumerate_keys valuesEqual) in Hk by done. by apply eq_None_not_Some. }
split_and!; [done|by rewrite Hd2|]. rewrite <-Hd1, <-Hd2. symmetry. by apply (InSync_spec valuesEqual).
Qed.

(** [IterBatched] on the pending updates, for any callback that reports fewer items
  than it got when it fails and all of them when it does not: it terminates without
  panic, applies some of the pending updates (each at most once, all of them if the
  callback never fails), and leaves the desired map as it was; the dataplane map gets
  exactly the applied pairs. *)
Theorem IterBatched_correct {S : Type} (applyFn : S → list K → list V → S * (nat * bool)) (s : S)
  (ps : list (call (K := K) (V := V))) :
(∀ m, enumerate m ≡ₚ map_to_list m) → Forall call_ok ps →
applyFn_ok (λ s kvs, applyFn s (map fst kvs) (map snd kvs)) →
let c := foldl (run valuesEqual enumerate) New ps in
∃ s' c' l, PendingUpdates_IterBatched enumerate applyFn s c = Ret (s', c') ∧
  l `sublist_of` enumerate (desiredUpdates c) ∧
  (never_errs (λ s kvs, applyFn s (map fst kvs) (map snd kvs)) → l = enumerate (desiredUpdates c)) ∧
  desired c' = desired c ∧ dataplane c' = list_to_map l ∪ dataplane c ∧
  (∀ k, PendingUpdates_Get c' k = if decide (k ∈ l.*1) then None else PendingUpdates_Get c k).
Proof.
intros Henum Hps Hok. pose proof (runs_refine valuesEqual enumerate ps _ _ Henum Hps (refines_New valuesEqual enumerate)) as (Hinv & _).
cbv zeta. set (c := foldl _ New ps) in *. unfold PendingUpdates_IterBatched.
destruct (iterBatched_spec applyUpdate _ Hok (enumerate (desiredUpdates c)) s c) as (s' & l & Heq & Hs & Ha).
destruct (applyUpdates_spec valuesEqual c l Hinv) as (_ & Hd & Hp & Hu & _).
{ eapply sublist_NoDup; [|apply fmap_sublist, Hs]. rewrite Henum. apply NoDup_fst_map_to_list. }
{ intros k v Hin. apply elem_of_map_to_list. rewrite <-Henum. eapply elem_of_sublist; [exact Hin|exact Hs]. }
exists s', (foldl applyUpdate c l), l. split_and!; [exact Heq|done|exact Ha|done|done|exact Hu].
Qed.

(** [IterActionNoOpStopIteration] does not stop the iteration: the [break] leaves the
  [switch] only, so a callback that asks to stop at its first call is still called for
  every pending update. *)
Theorem StopIteration_does_not_stop (c : DeltaTracker (K := K) (V := V)) :
(∀ m, enumerate m ≡ₚ map_to_list m) →
PendingUpdates_Iter enumerate (λ n _, (Datatypes.S n, IterActionNoOpStopIteration)) 0 c = (PendingUpdates_Len c, c).
Proof using Type.
intros Henum. unfold PendingUpdates_Iter, PendingUpdates_Len.
assert (∀ l n, foldl (iterStep applyUpdate (λ n _, (Datatypes.S n, IterActionNoOpStopIteration))) (n, c) l
               = (n + length l, c)) as Hl.
{ induction l as [|kv l IH]; intros n; simpl; [by rewrite Nat.add_0_r|]. rewrite IH. f_equal. lia. }
rewrite Hl. simpl. rewrite Henum. by rewrite length_map_to_list.
Qed.
End claims.

Definition example_calls : list (call (K := nat) (V := Z)) :=
  [CallDesiredSet 1 10%Z; CallDesiredSet 2 20%Z; CallReplaceAll [(2, 21%Z); (3, 30%Z)] false;
   CallDataplaneSet 4 40%Z; CallDesiredDelete 4; CallReplaceAll [(3, 31%Z)] true].

Lemma example_calls_ok : Forall call_ok example_calls.
Proof.
  repeat (apply Forall_cons_2; [first [exact I|by apply (bool_decide_unpack (NoDup _))]|]). constructor.
Qed.

Lemma map_to_list_perm {V : Type} (m : gmap nat V) : map_to_list m ≡ₚ map_to_list m.
Proof. done. Qed.

Lemma tracker_refines_maps_witness :
  let c := foldl (run Z.eqb map_to_list) New example_calls in
  Desired_Get c 2 = Some 20%Z ∧ Dataplane_Get c 3 = Some 31%Z ∧ Desired_Len c = 2%Z ∧ Dataplane_Len c = 3.
Proof.
  destruct (tracker_refines_maps Z.eqb map_to_list example_calls map_to_list_perm example_calls_ok) as (H1 & H2 & H3 & H4).
  split_and!; [vm_compute; reflexivity|exact (H2 3)|exact H3|exact H4].
Defined.

Lemma pending_views_exact_witness :
  let c := foldl (run Z.eqb map_to_list) New example_calls in
  PendingUpdates_Get c 2 = Some 20%Z ∧ PendingDeletions_Get c 3 = Some 31%Z ∧
  (InSync c = true ↔ ∀ k, Desired_Get c k ≡ Dataplane_Get c k).
Proof.
  destruct (pending_views_exact Z.eqb map_to_list example_calls map_to_list_perm example_calls_ok) as (H1 & H2 & H3).
  split_and!; [|apply H2; split; vm_compute; reflexivity|exact H3].
  apply H1. split; [vm_compute; reflexivity|]. vm_compute. intros Heq. inversion Heq. discriminate.
Defined.

Lemma applying_pending_syncs_witness :
  let c := foldl (run Z.eqb map_to_list) New example_calls in
  let '(s1, c1) := PendingDeletions_Iter map_to_list (λ s _, (s, IterActionUpdateDataplane)) () c in
  let '(s2, c2) := PendingUpdates_Iter map_to_list (λ s _, (s, IterActionUpdateDataplane)) s1 c1 in
  InSync c2 = true ∧ desired c2 = desired c ∧ dataplane c2 ≡ desired c.
Proof.
  exact (applying_pending_syncs Z.eqb map_to_list (λ s _, (s, IterActionUpdateDataplane))
    (λ s _, (s, IterActionUpdateDataplane)) () example_calls map_to_list_perm example_calls_ok
    (λ _ _, eq_refl) (λ _ _, eq_refl)).
Defined.

(** A callback that fails at the first item of its first call. *)
Definition example_applyFn (calls : nat) (ks : list nat) (vs : list Z) : nat * (nat * bool) :=
  match calls with 0 => (1, (0, true)) | _ => (S calls, (length ks, false)) end.

Lemma IterBatched_correct_witness :
  let c := foldl (run Z.eqb map_to_list) New example_calls in
  ∃ s' c' l, PendingUpdates_IterBatched map_to_list example_applyFn 0 c = Ret (s', c') ∧
    l `sublist_of` map_to_list (desiredUpdates c) ∧
    (never_errs (λ s kvs, example_applyFn s (map fst kvs) (map snd kvs)) → l = map_to_list (desiredUpdates c)) ∧
    desired c' = desired c ∧ dataplane c' = list_to_map l ∪ dataplane c ∧
    (∀ k, PendingUpdates_Get c' k = if decide (k ∈ l.*1) then None else PendingUpdates_Get c k).
Proof.
  apply (IterBatched_correct Z.eqb map_to_list example_applyFn 0 example_calls map_to_list_perm example_calls_ok).
  intros s b Hb. destruct s; simpl; [|apply length_map]. destruct b; [done|simpl; lia].
Defined.

Lemma StopIteration_does_not_stop_witness :
  PendingUpdates_Iter map_to_list (λ n _, (S n, IterActionNoOpStopIteration)) 0
    (foldl (run Z.eqb map_to_list) New example_calls) =
  (2, foldl (run Z.eqb map_to_list) New example_calls).
Proof.
  exact (StopIteration_does_not_stop map_to_list (foldl (run Z.eqb map_to_list) New example_calls) map_to_list_perm).
Defined.

(** [ReplaceAllIter] needs an iterator that yields each key once, which its
    documentation does not ask for: when a key that is desired is reported twice, the
    first time with the desired value, the key is queued for deletion although it is
    still desired. *)
Theorem ReplaceAllIter_duplicate_key :
  ∃ (c : DeltaTracker (K := nat) (V := Z)) kvs,
    tracker_inv c ∧ desired c !! 1 = Some 10%Z ∧ (∀ k v, (k, v) ∈ kvs → k = 1 ∧ v = 10%Z) ∧
    let c' := ReplaceAllIter Z.eqb map_to_list kvs false c in
    Desired_Get c' 1 = Some 10%Z ∧ PendingDeletions_Get c' 1 = Some 10%Z ∧ ¬ tracker_inv c'.
Proof.
  exists (Desired_Set Z.eqb 1 10%Z New), [(1, 10%Z); (1, 10%Z)]. cbv zeta. split_and!.
  - apply (Desired_Set_spec Z.eqb). apply (refines_New Z.eqb map_to_list).
  - done.
  - intros k v. rewrite !elem_of_cons. intros [[= -> ->]|[[= -> ->]|?%not_elem_of_nil]]; done.
  - vm_compute. done.
  - vm_compute. done.
  - intros Hinv. destruct (ti_keys _ Hinv 1) as [Hn _]. by destruct Hn as [? _]; [vm_compute; eexists|].
Qed.

(** The set tracker tracks two sets exactly: after any sequence of calls, membership
    of both views is membership of the two sets, the pending sets are the set
    differences, and [LenUpperBound] is not just a bound but the number of desired
    members. *)
Theorem set_tracker_exact `{Countable K} (enumerate : gmap K unit → list (K * unit)) (ps : list (call (K := K) (V := unit))) :
  (∀ m, enumerate m ≡ₚ map_to_list m) → Forall call_ok ps →
  let c := foldl (run SetDeltaTracker.unitsEqual enumerate) SetDeltaTracker.NewSetDeltaTracker ps in
  let '(D, P) := foldl spec_run (∅, ∅) ps in
  (∀ k, SetDeltaTracker.Desired_Contains c k = bool_decide (k ∈ dom D)) ∧
  (∀ k, SetDeltaTracker.Dataplane_Contains c k = bool_decide (k ∈ dom P)) ∧
  (∀ k, SetDeltaTracker.PendingUpdates_Contains c k = bool_decide (k ∈ dom D ∖ dom P)) ∧
  (∀ k, SetDeltaTracker.PendingDeletions_Contains c k = bool_decide (k ∈ dom P ∖ dom D)) ∧
  SetDeltaTracker.LenUpperBound c = size D.
Proof.
  intros Henum Hps. pose proof (runs_refine SetDeltaTracker.unitsEqual enumerate ps _ _ Henum Hps
    (refines_New SetDeltaTracker.unitsEqual enumerate)) as Hr.
  cbv zeta. change SetDeltaTracker.NewSetDeltaTracker with (New (K := K) (V := unit)). set (c := foldl _ New ps) in *.
  destruct (foldl spec_run (∅, ∅) ps) as [D P]. destruct Hr as (Hinv & Hd & Hp). cbn [fst snd] in *.
  assert (∀ k, is_Some (Desired_Get c k) ↔ is_Some (D !! k)) as HD.
  { intros k. rewrite <-(desired_lookup SetDeltaTracker.unitsEqual). specialize (Hd k).
    destruct (desired c !! k), (D !! k); inversion Hd; split; intros [? ?]; done. }
  assert (∀ k, Dataplane_Get c k = P !! k) as HP.
  { intros k. by rewrite <-(dataplane_lookup SetDeltaTracker.unitsEqual), Hp. }
  split_and!.
  - intros k. apply bool_decide_ext. rewrite HD. symmetry. apply elem_of_dom.
  - intros k. apply bool_decide_ext. rewrite HP. symmetry. apply elem_of_dom.
  - intros k. apply bool_decide_ext. rewrite elem_of_difference, !elem_of_dom, <-HD, <-HP.
    pose proof (λ v, pending_updates_spec SetDeltaTracker.unitsEqual c k v Hinv) as Hs.
    setoid_rewrite (desired_lookup SetDeltaTracker.unitsEqual) in Hs.
    setoid_rewrite (dataplane_lookup SetDeltaTracker.unitsEqual) in Hs. split.
    + intros [[] Hv%Hs]. destruct Hv as [Hv1 Hv2]. split; [by rewrite Hv1|]. intros [[] Hv3]. by apply Hv2; rewrite Hv3.
    + intros [[[] Hv1] Hv2]. exists (). apply Hs. split; [done|]. intros Hv3. apply Hv2.
      destruct (Dataplane_Get c k); [done|]. inversion Hv3.
  - intros k. apply bool_decide_ext. rewrite elem_of_difference, !elem_of_dom, <-HD, <-HP.
    pose proof (λ v, pending_deletions_spec SetDeltaTracker.unitsEqual c k v Hinv) as Hs.
    setoid_rewrite (desired_lookup SetDeltaTracker.unitsEqual) in Hs.
    setoid_rewrite (dataplane_lookup SetDeltaTracker.unitsEqual) in Hs. split.
    + intros [[] Hv%Hs]. destruct Hv as [Hv1 Hv2]. split; [by rewrite Hv1|]. rewrite Hv2. by intros [? ?].
    + intros [[[] Hv1] Hv2]. exists (). apply Hs. split; [done|]. by apply eq_None_not_Some.
  - unfold SetDeltaTracker.LenUpperBound. rewrite <-(size_equiv SetDeltaTracker.unitsEqual _ _ Hd). unfold desired.
    rewrite map_size_disj_union; [lia|]. apply map_disjoint_spec. intros k [] [] H1 H2.
    by destruct (ti_keys c Hinv k) as [_ Hne]; apply (Hne () ()).
Qed.

Lemma set_tracker_exact_witness :
  let c := foldl (run SetDeltaTracker.unitsEqual map_to_list) SetDeltaTracker.NewSetDeltaTracker
             [CallDesiredSet 1 (); CallDataplaneSet 2 (); CallDesiredSet 2 (); CallDataplaneSet 3 ()] in
  SetDeltaTracker.PendingDeletions_Contains c 3 = true ∧ SetDeltaTracker.LenUpperBound c = 2.
Proof.
  destruct (set_tracker_exact map_to_list [CallDesiredSet 1 (); CallDataplaneSet 2 (); CallDesiredSet 2 (); CallDataplaneSet 3 ()])
    as (_ & _ & _ & H4 & H5); [apply map_to_list_perm|repeat constructor|].
  split; [exact (H4 3)|exact H5].
Defined.
