(* ===== verification/Multidict.v ===== *)
(** * Multidicts: [felix/multidict/multidict.go]

    A multidict maps a key to a set of values; a key is present exactly while its set is
    not empty.  [md_in] is the relation a multidict represents and [md_ok] the invariant
    on empty sets; both are used by every index that keeps a relation in both
    directions (the policy resolver, the label index, the active rules calculator). *)
From S2P Require Import Prelude.
From stdpp Require Import base gmap.
From stdpp Require Import options.

(** ** [felix/multidict/multidict.go] *)
Module Multidict.
Section multidict.
Context `{Countable K} `{Countable V}.

Definition Put (key : K) (value : V) (md : gmap K (gset V)) : gmap K (gset V) :=
  <[key := {[value]} ∪ default ∅ (md !! key)]> md.

Definition Discard (key : K) (value : V) (md : gmap K (gset V)) : gmap K (gset V) :=
  match md !! key with
  | None => md
  | Some s =>
      let s' := s ∖ {[value]} in
      if decide (size s' = 0) then delete key md else <[key := s']> md
  end.

Definition Contains (md : gmap K (gset V)) (key : K) (value : V) : bool :=
  match md !! key with Some s => bool_decide (value ∈ s) | None => false end.

Definition ContainsKey (md : gmap K (gset V)) (key : K) : bool := bool_decide (is_Some (md !! key)).

Definition DiscardKey (md : gmap K (gset V)) (k : K) : gmap K (gset V) := delete k md.

Definition Len (md : gmap K (gset V)) : nat := size md.

Definition IterKeys (md : gmap K (gset V)) : gset K := dom md.

Definition Iter (md : gmap K (gset V)) (key : K) : gset V := default ∅ (md !! key).
End multidict.
End Multidict.

(** ** Multidicts as relations *)
Section multidict_lemmas.
Context `{Countable K} `{Countable V}.
Implicit Types (md : gmap K (gset V)) (k : K) (v : V).

Definition md_ok md : Prop := ∀ k s, md !! k = Some s → s ≠ ∅.
Definition md_in md k v : Prop := Multidict.Contains md k v = true.

Lemma md_in_lookup md k v : md_in md k v ↔ v ∈ default ∅ (md !! k).
Proof.
  unfold md_in, Multidict.Contains. destruct (md !! k) as [s|]; simpl; [apply bool_decide_eq_true|].
  split; [done|by intros ?%not_elem_of_empty].
Qed.

Lemma md_key md k : md_ok md → is_Some (md !! k) ↔ ∃ v, md_in md k v.
Proof.
  intros Hok. setoid_rewrite md_in_lookup. split.
  - intros [s Hs]. rewrite Hs. simpl. apply set_choose_L. eauto.
  - intros [v Hv]. destruct (md !! k); [done|]. by apply not_elem_of_empty in Hv.
Qed.

Lemma md_Put_in md k v k' v' : md_in (Multidict.Put k v md) k' v' ↔ (k' = k ∧ v' = v) ∨ md_in md k' v'.
Proof.
  rewrite !md_in_lookup. unfold Multidict.Put. destruct (decide (k' = k)) as [->|Hne].
  - rewrite lookup_insert_eq. simpl. set_solver.
  - rewrite lookup_insert_ne by done. naive_solver.
Qed.

Lemma md_Put_ok md k v : md_ok md → md_ok (Multidict.Put k v md).
Proof.
  intros Hok k' s. unfold Multidict.Put. intros [[<- <-]|[_ Hs]]%lookup_insert_Some; [set_solver|eauto].
Qed.

Lemma md_Discard_in md k v k' v' :
  md_in (Multidict.Discard k v md) k' v' ↔ md_in md k' v' ∧ ¬ (k' = k ∧ v' = v).
Proof.
  rewrite !md_in_lookup. unfold Multidict.Discard. destruct (md !! k) as [s|] eqn:E.
  - destruct (decide (k' = k)) as [->|Hne].
    + rewrite E. case_decide as Hsz.
      * rewrite lookup_delete_eq. simpl. apply size_empty_inv in Hsz. set_solver.
      * rewrite lookup_insert_eq. simpl. set_solver.
    + case_decide; [rewrite lookup_delete_ne by done|rewrite lookup_insert_ne by done]; naive_solver.
  - destruct (decide (k' = k)) as [->|Hne]; [rewrite E; simpl; set_solver|naive_solver].
Qed.

Lemma md_Discard_ok md k v : md_ok md → md_ok (Multidict.Discard k v md).
Proof.
  intros Hok. unfold Multidict.Discard. destruct (md !! k) as [s|] eqn:E; [|done]. case_decide as Hsz; intros k' s'.
  - intros [_ Hs]%lookup_delete_Some. eauto.
  - intros [[<- <-]|[_ Hs]]%lookup_insert_Some; [|eauto]. intros He. apply Hsz. by rewrite He, size_empty.
Qed.

Lemma md_ContainsKey md k : Multidict.ContainsKey md k = true ↔ is_Some (md !! k).
Proof. apply bool_decide_eq_true. Qed.
End multidict_lemmas.
