(* ===== verification/ModelRule.v ===== *)
(** * Rules of the data model: [libcalico-go/lib/backend/model/rule.go]

    The rules of policies and profiles with all their fields, and the types of their fields:
    networks of the [net] package, protocols and ports of [numorstring].  A pointer is an
    [option]; [net.IP] and its mask are slices of bytes. *)
From S2P Require Import Prelude.
From stdpp Require Import base list gmap numbers strings.
From stdpp Require Import options.

(** ** The [net] package *)
Abbreviation NetIP := (list Z).
Abbreviation IPMask := (list Z).
Record IPNet_ := MkIPNet { net_IP : NetIP; net_Mask : IPMask }.

#[global] Instance IPNet__eq_dec : EqDecision IPNet_.
Proof. solve_decision. Defined.

(** ** [numorstring] *)
Inductive NumOrStringType := NumOrStringNum | NumOrStringString.

#[global] Instance NumOrStringType_eq_dec : EqDecision NumOrStringType.
Proof. solve_decision. Defined.

Record ModelProtocol := MkModelProtocol { Type_ : NumOrStringType; NumVal : Z; StrVal : string }.

#[global] Instance ModelProtocol_eq_dec : EqDecision ModelProtocol.
Proof. solve_decision. Defined.

(** A range of numeric ports, or a named port. *)
Record Port := MkPort { MinPort : Z; MaxPort : Z; PortName : string }.

#[global] Instance Port_eq_dec : EqDecision Port.
Proof. solve_decision. Defined.

(** ** Rules *)
Record HTTPPath := MkHTTPPath { http_Exact : string; http_Prefix : string }.
Record HTTPMatch := MkHTTPMatch { http_Methods : list string; http_Paths : list HTTPPath }.
Record RuleMetadata := MkRuleMetadata { rm_Annotations : option (gmap string string) }.

Record Rule := MkRule {
  rule_Action : string;
  rule_IPVersion : option Z;
  rule_Protocol : option ModelProtocol;
  rule_NotProtocol : option ModelProtocol;
  rule_ICMPType : option Z;
  rule_ICMPCode : option Z;
  rule_NotICMPType : option Z;
  rule_NotICMPCode : option Z;
  rule_SrcTag : string;
  rule_SrcNet : option IPNet_;
  rule_SrcNets : list IPNet_;
  rule_SrcSelector : string;
  rule_SrcPorts : list Port;
  rule_SrcService : string;
  rule_SrcServiceNamespace : string;
  rule_DstTag : string;
  rule_DstSelector : string;
  rule_DstNet : option IPNet_;
  rule_DstNets : list IPNet_;
  rule_DstPorts : list Port;
  rule_DstService : string;
  rule_DstServiceNamespace : string;
  rule_NotSrcTag : string;
  rule_NotSrcNet : option IPNet_;
  rule_NotSrcNets : list IPNet_;
  rule_NotSrcSelector : string;
  rule_NotSrcPorts : list Port;
  rule_NotDstTag : string;
  rule_NotDstSelector : string;
  rule_NotDstNet : option IPNet_;
  rule_NotDstNets : list IPNet_;
  rule_NotDstPorts : list Port;
  rule_OriginalSrcSelector : string;
  rule_OriginalSrcNamespaceSelector : string;
  rule_OriginalDstSelector : string;
  rule_OriginalDstNamespaceSelector : string;
  rule_OriginalNotSrcSelector : string;
  rule_OriginalNotDstSelector : string;
  rule_OriginalSrcServiceAccountNames : list string;
  rule_OriginalSrcServiceAccountSelector : string;
  rule_OriginalDstServiceAccountNames : list string;
  rule_OriginalDstServiceAccountSelector : string;
  rule_HTTPMatch : option HTTPMatch;
  rule_Metadata : option RuleMetadata
}.

(** [model.Rule{Action: action}]. *)
Definition actionRule (action : string) : Rule :=
  MkRule action None None None None None None None
    "" None [] "" [] "" "" "" "" None [] [] "" "" "" None [] "" [] "" "" None [] []
    "" "" "" "" "" "" [] "" [] "" None None.

(** The network of the old field joins the others, at the end. *)
Definition combineNets (n : option IPNet_) (nets : list IPNet_) : list IPNet_ :=
  match n with
  | None => nets
  | Some n => match nets with [] => [n] | _ => nets ++ [n] end
  end.

Definition AllSrcNets (r : Rule) : list IPNet_ := combineNets (rule_SrcNet r) (rule_SrcNets r).
Definition AllDstNets (r : Rule) : list IPNet_ := combineNets (rule_DstNet r) (rule_DstNets r).
Definition AllNotSrcNets (r : Rule) : list IPNet_ := combineNets (rule_NotSrcNet r) (rule_NotSrcNets r).
Definition AllNotDstNets (r : Rule) : list IPNet_ := combineNets (rule_NotDstNet r) (rule_NotDstNets r).

(** The rules of a profile. *)
Record ProfileRules := MkProfileRules { pr_InboundRules : list Rule; pr_OutboundRules : list Rule }.
