(* ===== verification/PolicySorter.v ===== *)
(** * Ordering tiers and policies: [felix/calc/policy_sorter.go]

    The B-tree library is a parameter: [OrderedSet] has its operations and
    [OrderedSetLaws] what its documentation promises; a sorted list is an instance.
    Pointers to tiers are the tiers themselves, stored under their name; a pointer
    to an order is an address and a value, because the code compares addresses.  A
    [float64] is a rational number or +Inf (orders come from JSON, which has no NaN). *)
From S2P Require Import Prelude.
From S2P Require Import ModelRule.
From Stdlib Require Import Ascii QArith Qcanon.
From stdpp Require Import base list gmap strings numbers.
From stdpp Require Import options.

(** ** The B-tree *)
Class OrderedSet (A T : Type) (less : A → A → bool) := {
  bt_new : T;
  bt_Delete : A → T → T;
  bt_ReplaceOrInsert : A → T → T;
  bt_Ascend : T → list A
}.

(** ** Orders *)
Inductive float64 := Finite (q : Qc) | PosInf.

#[global] Instance float64_eq_dec : EqDecision float64.
Proof. solve_decision. Defined.

Definition float64_lt (a b : float64) : bool :=
  match a, b with
  | Finite p, Finite q => bool_decide (p < q)%Qc
  | Finite _, PosInf => true
  | PosInf, _ => false
  end.

(** A [*float64] that is not nil. *)
Record float64ptr := MkPtr { addr : positive; deref : float64 }.

#[global] Instance float64ptr_eq_dec : EqDecision float64ptr.
Proof. solve_decision. Defined.

(** ** Policies *)
Record PolicyKey := MkPolicyKey { pk_Name : string; pk_Namespace : string; pk_Kind : string }.

#[global] Instance PolicyKey_eq_dec : EqDecision PolicyKey.
Proof. solve_decision. Defined.
#[global] Instance PolicyKey_countable : Countable PolicyKey.
Proof.
  apply (inj_countable' (λ k, (pk_Name k, pk_Namespace k, pk_Kind k)) (λ '(n, ns, k), MkPolicyKey n ns k)).
  by intros [].
Defined.

Record policyMetadata := MkMetadata { m_Order : float64; m_Flags : Z; m_Tier : string }.

#[global] Instance policyMetadata_eq_dec : EqDecision policyMetadata.
Proof. solve_decision. Defined.

Definition policyMetaDoNotTrack : Z := Z.shiftl 1 0.
Definition policyMetaPreDNAT : Z := Z.shiftl 1 1.
Definition policyMetaApplyOnForward : Z := Z.shiftl 1 2.
Definition policyMetaIngress : Z := Z.shiftl 1 3.
Definition policyMetaEgress : Z := Z.shiftl 1 4.

(** The fields of [model.Policy] that the calculation graph reads. *)
Record Policy := MkPolicy {
  pol_Namespace : string;
  pol_Tier : string;
  pol_Order : option float64;
  pol_DoNotTrack : bool;
  pol_PreDNAT : bool;
  pol_ApplyOnForward : bool;
  pol_Types : list string;
  pol_Selector : string;
  pol_PerformanceHints : list string;
  pol_InboundRules : list Rule;
  pol_OutboundRules : list Rule
}.

Definition lowerByte (c : ascii) : ascii :=
  if ((65 <=? N_of_ascii c) && (N_of_ascii c <=? 90))%N then ascii_of_N (N_of_ascii c + 32) else c.

(** [strings.EqualFold] for a pattern of lower-case letters without k: besides the
    case of ASCII letters, "s" also matches the long s (U+017F, bytes C5 BF). *)
Fixpoint EqualFold (s pattern : string) : bool :=
  match pattern, s with
  | "", "" => true
  | String p pattern', String c s' =>
      if decide (lowerByte c = p) then EqualFold s' pattern'
      else if decide (p = "s"%char ∧ c = "197"%char) then
        match s' with
        | String d s'' => if decide (d = "191"%char) then EqualFold s'' pattern' else false
        | "" => false
        end
      else false
  | _, _ => false
  end.

Definition orIf (b : bool) (flag flags : Z) : Z := if b then Z.lor flags flag else flags.

Definition addType (flags : Z) (t : string) : Z :=
  if EqualFold t "ingress" then Z.lor flags policyMetaIngress
  else if EqualFold t "egress" then Z.lor flags policyMetaEgress
  else flags.

Definition ExtractPolicyMetadata (policy : Policy) : policyMetadata :=
  let flags0 :=
    orIf (pol_ApplyOnForward policy) policyMetaApplyOnForward
      (orIf (pol_PreDNAT policy) policyMetaPreDNAT
        (orIf (pol_DoNotTrack policy) policyMetaDoNotTrack 0)) in
  let flags1 := orIf (bool_decide (pol_Types policy = [])) (Z.lor policyMetaIngress policyMetaEgress) flags0 in
  MkMetadata (default PosInf (pol_Order policy)) (foldl addType flags1 (pol_Types policy))
    (if decide (pol_Tier policy = "") then "default" else pol_Tier policy).

Definition hasFlag (m : policyMetadata) (flag : Z) : bool := negb (Z.land (m_Flags m) flag =? 0)%Z.

(** The accessors; a nil pointer has no flag. *)
Definition DoNotTrack (m : option policyMetadata) : bool := from_option (λ m, hasFlag m policyMetaDoNotTrack) false m.
Definition PreDNAT (m : option policyMetadata) : bool := from_option (λ m, hasFlag m policyMetaPreDNAT) false m.
Definition ApplyOnForward (m : option policyMetadata) : bool :=
  from_option (λ m, hasFlag m policyMetaApplyOnForward) false m.

(** [PolKV]; its value is never nil in the sorter. *)
Record PolKV := MkPolKV { kv_Key : PolicyKey; kv_Value : policyMetadata }.

#[global] Instance PolKV_eq_dec : EqDecision PolKV.
Proof. solve_decision. Defined.

Definition GovernsIngress (p : PolKV) : bool := hasFlag (kv_Value p) policyMetaIngress.
Definition GovernsEgress (p : PolKV) : bool := hasFlag (kv_Value p) policyMetaEgress.

Definition keyString (k : PolicyKey) : string :=
  pk_Name k +:+ "/" +:+ pk_Namespace k +:+ "/" +:+ pk_Kind k.

Definition PolKVLess (i j : PolKV) : bool :=
  if decide (m_Order (kv_Value i) = m_Order (kv_Value j))
  then String.ltb (keyString (kv_Key i)) (keyString (kv_Key j))
  else float64_lt (m_Order (kv_Value i)) (m_Order (kv_Value j)).

(** ** Tiers *)
Record tierInfoKey := MkTierInfoKey { tk_Name : string; tk_Valid : bool; tk_Order : option float64ptr }.

#[global] Instance tierInfoKey_eq_dec : EqDecision tierInfoKey.
Proof. solve_decision. Defined.

(** Two equal pointers have equal values, so the test of [TierLess] is on values. *)
Definition TierLess (i j : tierInfoKey) : bool :=
  if negb (tk_Valid i) && tk_Valid j then false
  else if tk_Valid i && negb (tk_Valid j) then true
  else match tk_Order i, tk_Order j with
       | None, Some _ => false
       | Some _, None => true
       | None, None => String.ltb (tk_Name i) (tk_Name j)
       | Some oi, Some oj =>
           if decide (deref oi = deref oj) then String.ltb (tk_Name i) (tk_Name j)
           else float64_lt (deref oi) (deref oj)
       end.

(** [model.Tier]. *)
Record Tier := MkTier { tier_Order : option float64ptr; tier_DefaultAction : string }.

Section sorter.
Context {PT TT : Type} `{OrderedSet PolKV PT PolKVLess} `{OrderedSet tierInfoKey TT TierLess}.

Record TierInfo := MkTierInfo {
  ti_Name : string;
  ti_Valid : bool;
  ti_Order : option float64ptr;
  ti_DefaultAction : string;
  ti_Policies : gmap PolicyKey policyMetadata;
  ti_SortedPolicies : PT;
  ti_OrderedPolicies : list PolKV
}.

Definition NewTierInfo (name : string) : TierInfo := MkTierInfo name false None "" ∅ bt_new [].

Record PolicySorter := MkPolicySorter { tiers : gmap string TierInfo; sortedTiers : TT }.

Definition NewPolicySorter : PolicySorter := MkPolicySorter ∅ bt_new.

Definition set_tiers (f : gmap string TierInfo → gmap string TierInfo) (poc : PolicySorter) : PolicySorter :=
  MkPolicySorter (f (tiers poc)) (sortedTiers poc).
Definition set_sortedTiers (f : TT → TT) (poc : PolicySorter) : PolicySorter :=
  MkPolicySorter (tiers poc) (f (sortedTiers poc)).

Definition tierKey (ti : TierInfo) : tierInfoKey := MkTierInfoKey (ti_Name ti) (ti_Valid ti) (ti_Order ti).

Definition withPolicies (policies : gmap PolicyKey policyMetadata) (sorted : PT) (ti : TierInfo) : TierInfo :=
  MkTierInfo (ti_Name ti) (ti_Valid ti) (ti_Order ti) (ti_DefaultAction ti) policies sorted (ti_OrderedPolicies ti).
Definition withTier (valid : bool) (order : option float64ptr) (action : string) (ti : TierInfo) : TierInfo :=
  MkTierInfo (ti_Name ti) valid order action (ti_Policies ti) (ti_SortedPolicies ti) (ti_OrderedPolicies ti).
Definition withOrdered (l : list PolKV) (ti : TierInfo) : TierInfo :=
  MkTierInfo (ti_Name ti) (ti_Valid ti) (ti_Order ti) (ti_DefaultAction ti) (ti_Policies ti)
    (ti_SortedPolicies ti) l.

(** [Sorted]: the tiers in order, each with its policies in order; a name that is
    not in the map panics. *)
Fixpoint sortedLoop (keys : list tierInfoKey) (poc : PolicySorter) (acc : list TierInfo)
    : outcome Empty_set (PolicySorter * list TierInfo) :=
  match keys with
  | [] => Ret (poc, acc)
  | t :: keys' =>
      match tiers poc !! tk_Name t with
      | Some ti =>
          let ti' := withOrdered (bt_Ascend (ti_SortedPolicies ti)) ti in
          sortedLoop keys' (set_tiers <[tk_Name t := ti']> poc) (acc ++ [ti'])
      | None => Panic
      end
  end.

Definition Sorted (poc : PolicySorter) : outcome Empty_set (PolicySorter * list TierInfo) :=
  sortedLoop (bt_Ascend (sortedTiers poc)) poc [].

(** *** Tier updates.  The result says whether the order is dirty. *)
Definition samePtr (a b : option float64ptr) : bool := bool_decide (addr <$> a = addr <$> b).

Definition OnTierUpdate (tierName : string) (value : option Tier) (poc : PolicySorter)
    : PolicySorter * bool :=
  match value with
  | Some newTier =>
      let '(ti, dirty0, poc0) :=
        match tiers poc !! tierName with
        | None => (NewTierInfo tierName, true, poc)
        | Some ti => (ti, false, set_sortedTiers (bt_Delete (tierKey ti)) poc)
        end in
      let dirty1 := dirty0 || negb (samePtr (ti_Order ti) (tier_Order newTier)) in
      let dirty2 := dirty1 || negb (bool_decide (ti_DefaultAction ti = tier_DefaultAction newTier)) in
      (* The assignments keep the old pointer when it is the same. *)
      let order := if samePtr (ti_Order ti) (tier_Order newTier) then ti_Order ti else tier_Order newTier in
      let ti' := withTier true order (tier_DefaultAction newTier) ti in
      (set_sortedTiers (bt_ReplaceOrInsert (tierKey ti')) (set_tiers <[tierName := ti']> poc0), dirty2)
  | None =>
      match tiers poc !! tierName with
      | None => (poc, false)
      | Some ti =>
          let poc0 := set_sortedTiers (bt_Delete (tierKey ti)) poc in
          let ti' := withTier false None (ti_DefaultAction ti) ti in
          if decide (size (ti_Policies ti') = 0) then (set_tiers (delete tierName) poc0, true)
          else (set_sortedTiers (bt_ReplaceOrInsert (tierKey ti')) (set_tiers <[tierName := ti']> poc0), true)
      end
  end.

(** *** Policy updates *)
Section policies.
(** The order in which Go enumerates the tiers. *)
Context (enumerate : gmap string TierInfo → list (string * TierInfo)).

Definition HasPolicy (poc : PolicySorter) (key : PolicyKey) : bool :=
  existsb (λ '(_, ti), bool_decide (is_Some (ti_Policies ti !! key))) (enumerate (tiers poc)).

Definition findTier (poc : PolicySorter) (key : PolicyKey) : option (string * TierInfo) :=
  List.find (λ '(_, ti), bool_decide (is_Some (ti_Policies ti !! key))) (enumerate (tiers poc)).

Definition tierForPolicy (poc : PolicySorter) (key : PolicyKey) (meta : option policyMetadata)
    : string * option TierInfo :=
  match meta with
  | Some m => (m_Tier m, tiers poc !! m_Tier m)
  | None =>
      match findTier poc key with
      | Some (name, ti) => (name, Some ti)
      | None => ("", None)
      end
  end.

(** Taking a policy out of a tier, which goes away if it is empty and not valid. *)
Definition removeFromTier (key : PolicyKey) (ti : TierInfo) (poc : PolicySorter) : PolicySorter :=
  match ti_Policies ti !! key with
  | None => poc
  | Some oldPolicy =>
      let ti' := withPolicies (delete key (ti_Policies ti))
                   (bt_Delete (MkPolKV key oldPolicy) (ti_SortedPolicies ti)) ti in
      if decide (size (ti_Policies ti') = 0 ∧ ti_Valid ti' = false)
      then set_sortedTiers (bt_Delete (tierKey ti)) (set_tiers (delete (ti_Name ti)) poc)
      else set_tiers <[ti_Name ti := ti']> poc
  end.

(** Adding a policy to its tier, which is created if needed. *)
Definition putPolicy (key : PolicyKey) (m : policyMetadata) (tierName : string) (tierInfo : option TierInfo)
    (poc1 : PolicySorter) (dirty1 : bool) : PolicySorter * bool :=
  let '(ti, poc2) :=
    match tierInfo with
    | Some ti => (ti, poc1)
    | None =>
        let ti := NewTierInfo tierName in
        (ti, set_sortedTiers (bt_ReplaceOrInsert (tierKey ti)) (set_tiers <[tierName := ti]> poc1))
    end in
  let oldPolicy := ti_Policies ti !! key in
  let dirty2 := dirty1 || negb (bool_decide (oldPolicy = Some m)) in
  let tree := match oldPolicy with
              | Some op => bt_Delete (MkPolKV key op) (ti_SortedPolicies ti)
              | None => ti_SortedPolicies ti
              end in
  let ti' := withPolicies (<[key := m]> (ti_Policies ti)) (bt_ReplaceOrInsert (MkPolKV key m) tree) ti in
  (set_tiers <[ti_Name ti := ti']> poc2, dirty2).

Definition UpdatePolicy (key : PolicyKey) (newPolicy : option policyMetadata) (poc : PolicySorter)
    : PolicySorter * bool :=
  let oldTierInfo := snd (tierForPolicy poc key None) in
  let '(tierName, tierInfo) := tierForPolicy poc key newPolicy in
  (* If the tier has changed, remove from old tier first. *)
  let '(poc1, dirty1) :=
    match oldTierInfo with
    | Some oti =>
        if bool_decide (Some (ti_Name oti) = ti_Name <$> tierInfo) then (poc, false)
        else (removeFromTier key oti poc, true)
    | None => (poc, false)
    end in
  match newPolicy with
  | Some m => putPolicy key m tierName tierInfo poc1 dirty1
  | None =>
      match tierInfo with
      | Some ti =>
          match ti_Policies ti !! key with
          | Some _ => (removeFromTier key ti poc1, true)
          | None => (poc1, dirty1)
          end
      | None => (poc1, dirty1)
      end
  end.

Inductive SorterUpdate :=
  | TierUpdate (name : string) (value : option Tier)
  | PolicyUpdate (key : PolicyKey) (value : option Policy).

Definition OnUpdate (update : SorterUpdate) (poc : PolicySorter) : PolicySorter * bool :=
  match update with
  | TierUpdate name value => OnTierUpdate name value poc
  | PolicyUpdate key value => UpdatePolicy key (ExtractPolicyMetadata <$> value) poc
  end.
End policies.
End sorter.
