(* ===== verification/PolicySorterSpec.v ===== *)
(** * The policy sorter keeps the tiers and policies of the datastore in order

    The abstract state is what the datastore holds: the tiers, and the policies with
    their metadata.  [sorter_rel] relates it to the sorter's maps and trees; every
    update preserves it, and [Sorted] then returns exactly the tiers and policies of
    the datastore, in order. *)
From S2P Require Import Prelude.
From S2P Require Import ModelRule.
From S2P Require Import PolicySorter.
From Stdlib Require Import Ascii QArith Qcanon.
From stdpp Require Import base list gmap strings numbers sorting.
From stdpp Require Import options.
#[local] Open Scope nat_scope.

(** ** Strict weak orders *)
Class StrictWeak {A} (less : A → A → bool) : Prop := {
  sw_irrefl x : less x x = false;
  sw_trans x y z : less x y = true → less y z = true → less x z = true;
  sw_negtrans x y z : less x z = true → less x y = true ∨ less y z = true
}.

Definition comparable {A} (less : A → A → bool) (x y : A) : Prop := less x y = true ∨ less y x = true.

(** What the B-tree library promises for a strict weak order. *)
Class OrderedSetLaws (A T : Type) (less : A → A → bool) `{OrderedSet A T less} := {
  bt_wf : T → Prop;
  bt_new_wf : bt_wf bt_new;
  bt_new_elems : bt_Ascend bt_new = [];
  bt_Delete_wf x t : bt_wf t → bt_wf (bt_Delete x t);
  bt_Delete_elems x t y : bt_wf t → y ∈ bt_Ascend (bt_Delete x t) ↔ y ∈ bt_Ascend t ∧ comparable less x y;
  bt_Insert_wf x t : bt_wf t → bt_wf (bt_ReplaceOrInsert x t);
  bt_Insert_elems x t y :
    bt_wf t → y ∈ bt_Ascend (bt_ReplaceOrInsert x t) ↔ y = x ∨ (y ∈ bt_Ascend t ∧ comparable less x y);
  bt_Ascend_sorted t : bt_wf t → StronglySorted (λ x y, less x y = true) (bt_Ascend t)
}.

(** ** Sorted lists are ordered sets *)
Section list_set.
Context {A : Type} (less : A → A → bool).

Fixpoint list_insert_sorted (x : A) (l : list A) : list A :=
  match l with
  | [] => [x]
  | y :: l' => if less x y then x :: l else if less y x then y :: list_insert_sorted x l' else x :: l'
  end.

Fixpoint list_delete_sorted (x : A) (l : list A) : list A :=
  match l with
  | [] => []
  | y :: l' => if less x y then l else if less y x then y :: list_delete_sorted x l' else l'
  end.

Context `{!StrictWeak less}.
Abbreviation sorted := (StronglySorted (λ x y, less x y = true)).

Lemma sorted_cons x l : sorted (x :: l) ↔ (∀ y, y ∈ l → less x y = true) ∧ sorted l.
Proof using Type.
  split.
  - intros Hs. inversion Hs as [|? ? Hl Hf]; subst. split; [|done]. by apply list.Forall_forall.
  - intros [Hf Hl]. constructor; [done|]. by apply list.Forall_forall.
Qed.

Lemma less_not_refl x y : less x y = true → x ≠ y.
Proof using StrictWeak0. intros Hl ->. by rewrite sw_irrefl in Hl. Qed.

Lemma equiv_less x y z : less x y = false → less y x = false → less y z = true → less x z = true.
Proof using StrictWeak0. intros H1 H2 H3. destruct (sw_negtrans y x z H3); congruence. Qed.

Lemma insert_sorted_elems x l y :
  sorted l → y ∈ list_insert_sorted x l ↔ y = x ∨ (y ∈ l ∧ comparable less x y).
Proof using StrictWeak0.
  unfold comparable. induction l as [|z l IH]; intros Hs; simpl.
  { rewrite list_elem_of_singleton. split; [by left|]. intros [?|[?%not_elem_of_nil _]]; done. }
  apply sorted_cons in Hs as [Hz Hl]. destruct (less x z) eqn:E1; [|destruct (less z x) eqn:E2].
  - rewrite elem_of_cons. split; [|tauto]. intros [->|Hy]; [by left|]. right. split; [done|]. left.
    apply elem_of_cons in Hy as [->|Hy]; [done|]. apply (sw_trans x z y); auto.
  - rewrite !elem_of_cons, IH by done. split; [|tauto]. intros [->|[->|[Hy Hc]]]; auto.
  - rewrite !elem_of_cons. split.
    + intros [->|Hy]; [by left|]. right. split; [by right|]. left. apply (equiv_less x z y); auto.
    + intros [->|[[->|Hy] [Hc|Hc]]]; auto; congruence.
Qed.

Lemma delete_sorted_elems x l y :
  sorted l → y ∈ list_delete_sorted x l ↔ y ∈ l ∧ comparable less x y.
Proof using StrictWeak0.
  unfold comparable. induction l as [|z l IH]; intros Hs; simpl.
  { split; [by intros ?%not_elem_of_nil|]. by intros [?%not_elem_of_nil _]. }
  apply sorted_cons in Hs as [Hz Hl]. destruct (less x z) eqn:E1; [|destruct (less z x) eqn:E2].
  - split; [|tauto]. intros Hy. split; [done|]. left. apply elem_of_cons in Hy as [->|Hy]; [done|].
    apply (sw_trans x z y); auto.
  - rewrite !elem_of_cons, IH by done. split; [|tauto]. intros [->|[Hy Hc]]; auto.
  - rewrite elem_of_cons. split.
    + intros Hy. split; [by right|]. left. apply (equiv_less x z y); auto.
    + intros [[->|Hy] [Hc|Hc]]; auto; congruence.
Qed.

Lemma insert_sorted_sorted x l : sorted l → sorted (list_insert_sorted x l).
Proof using StrictWeak0.
  induction l as [|z l IH]; intros Hs; simpl; [repeat constructor|]. pose proof Hs as Hs0.
  apply sorted_cons in Hs as [Hz Hl]. destruct (less x z) eqn:E1; [|destruct (less z x) eqn:E2].
  - apply sorted_cons. split; [|done]. intros y [->|Hy]%elem_of_cons; [done|]. apply (sw_trans x z y); auto.
  - apply sorted_cons. split; [|auto]. intros y [->|[Hy _]]%insert_sorted_elems; auto.
  - apply sorted_cons. split; [|done]. intros y Hy. apply (equiv_less x z y); auto.
Qed.

Lemma delete_sorted_sorted x l : sorted l → sorted (list_delete_sorted x l).
Proof using StrictWeak0.
  induction l as [|z l IH]; intros Hs; simpl; [done|]. pose proof Hs as Hs0.
  apply sorted_cons in Hs as [Hz Hl]. destruct (less x z) eqn:E1; [done|destruct (less z x) eqn:E2; [|done]].
  apply sorted_cons. split; [|auto]. intros y [Hy _]%delete_sorted_elems; auto.
Qed.

(** A sorted list is determined by its elements. *)
Lemma sorted_unique l1 l2 : sorted l1 → sorted l2 → (∀ x, x ∈ l1 ↔ x ∈ l2) → l1 = l2.
Proof using StrictWeak0.
  revert l2. induction l1 as [|x l1 IH]; intros [|y l2] H1 H2 Heq; [done| | |].
  - exfalso. apply (not_elem_of_nil y). apply Heq. by left.
  - exfalso. apply (not_elem_of_nil x). apply Heq. by left.
  - apply sorted_cons in H1 as [Hx H1]. apply sorted_cons in H2 as [Hy H2].
    assert (x = y) as <-.
    { assert (x ∈ y :: l2) as [?|Hxl]%elem_of_cons by (apply Heq; by left); [done|].
      assert (y ∈ x :: l1) as [?|Hyl]%elem_of_cons by (apply Heq; by left); [done|].
      assert (less x x = true) by (apply (sw_trans x y x); auto). by rewrite sw_irrefl in *. }
    f_equal. apply IH; [done..|]. intros z. split; intros Hz.
    + assert (z ∈ x :: l2) as [->|?]%elem_of_cons by (apply Heq; by right); [|done].
      apply Hx in Hz. by rewrite sw_irrefl in Hz.
    + assert (z ∈ x :: l1) as [->|?]%elem_of_cons by (apply Heq; by right); [|done].
      apply Hy in Hz. by rewrite sw_irrefl in Hz.
Qed.
End list_set.

#[global] Instance list_OrderedSet {A} (less : A → A → bool) : OrderedSet A (list A) less := {
  bt_new := [];
  bt_Delete := list_delete_sorted less;
  bt_ReplaceOrInsert := list_insert_sorted less;
  bt_Ascend := id
}.

#[global, refine] Instance list_OrderedSetLaws {A} (less : A → A → bool) `{!StrictWeak less} :
  OrderedSetLaws A (list A) less := { bt_wf := StronglySorted (λ x y, less x y = true) }.
Proof.
  - constructor.
  - done.
  - intros x t. by apply delete_sorted_sorted.
  - intros x t y. by apply delete_sorted_elems.
  - intros x t. by apply insert_sorted_sorted.
  - intros x t y. by apply insert_sorted_elems.
  - done.
Defined.

(** ** The orders of policies and tiers *)
Class StrictTotal {A} (less : A → A → bool) : Prop := {
  st_irrefl x : less x x = false;
  st_trans x y z : less x y = true → less y z = true → less x z = true;
  st_total x y : less x y = true ∨ x = y ∨ less y x = true
}.

#[global] Instance float64_StrictTotal : StrictTotal float64_lt.
Proof.
  split.
  - intros [q|]; simpl; [|done]. rewrite bool_decide_false; [done|]. intros Hq; by apply Qclt_not_eq in Hq.
  - intros [p|] [q|] [r|]; simpl; try done. rewrite !bool_decide_eq_true. apply Qclt_trans.
  - intros [p|] [q|]; simpl; auto. rewrite !bool_decide_eq_true.
    destruct (Qc_dec p q) as [[?|?]|<-]; auto.
Qed.

#[global] Instance string_StrictTotal : StrictTotal String.ltb.
Proof.
  split.
  - intros s. rewrite string_le_ltb. apply negb_false_iff, Is_true_eq_true. by apply string_le_refl.
  - intros s1 s2 s3. rewrite !string_le_ltb, !negb_true_iff. intros H12 H23.
    destruct (String.leb s3 s1) eqn:E; [|done]. exfalso.
    assert (String.leb s1 s2 = true) as Hle.
    { destruct (String.leb_total s1 s2) as [?|?]; [done|congruence]. }
    assert (String.le s3 s2) as Hx by (transitivity s1; apply Is_true_eq_left; done).
    apply Is_true_eq_true in Hx. congruence.
  - intros s1 s2. rewrite !string_le_ltb. destruct (String.leb s2 s1) eqn:E1; [|by left].
    destruct (String.leb s1 s2) eqn:E2; [|by right; right]. right. left. by apply String.leb_antisym.
Qed.

(** Comparing two parts of a key, one after the other. *)
Section lexicographic.
Context {A X Y : Type} `{!EqDecision X} (f : A → X) (g : A → Y) (ltX : X → X → bool) (ltY : Y → Y → bool).
Context `{!StrictTotal ltX} `{!StrictTotal ltY} (less : A → A → bool).
Context (Hless : ∀ i j, less i j = if decide (f i = f j) then ltY (g i) (g j) else ltX (f i) (f j)).

Lemma lexicographic_comparable i j : comparable less i j ↔ ¬ (f i = f j ∧ g i = g j).
Proof using All.
  unfold comparable. rewrite !Hless. destruct (decide (f i = f j)) as [Hf|Hf].
  - rewrite decide_True by done. destruct (st_total (less := ltY) (g i) (g j)) as [Hl|[Hl|Hl]].
    + split; [|by left]. intros _ [_ Hg]. rewrite Hg in Hl. pose proof (st_irrefl (less := ltY) (g j)). congruence.
    + split; [|tauto]. rewrite Hl. pose proof (st_irrefl (less := ltY) (g j)). intros [?|?]; congruence.
    + split; [|by right]. intros _ [_ Hg]. rewrite Hg in Hl. pose proof (st_irrefl (less := ltY) (g j)). congruence.
  - rewrite decide_False by congruence. split; [tauto|]. intros _.
    destruct (st_total (less := ltX) (f i) (f j)) as [?|[?|?]]; [by left|congruence|by right].
Qed.

Lemma lexicographic_StrictWeak : StrictWeak less.
Proof using All.
  assert (∀ x y z, less x y = true → less y z = true → less x z = true) as Htrans.
  { intros x y z. rewrite !Hless. destruct (decide (f x = f y)) as [E1|E1], (decide (f y = f z)) as [E2|E2].
    - rewrite decide_True by congruence. apply st_trans.
    - rewrite decide_False by congruence. by rewrite E1.
    - rewrite decide_False by congruence. by rewrite E2.
    - intros H1 H2. pose proof (st_trans (less := ltX) _ _ _ H1 H2) as H3. destruct (decide (f x = f z)) as [E3|E3]; [|done].
      rewrite E3 in H3. pose proof (st_irrefl (less := ltX) (f z)). congruence. }
  split; [|done|].
  - intros x. rewrite Hless, decide_True by done. apply st_irrefl.
  - intros x y z Hxz. destruct (less x y) eqn:Exy; [by left|]. destruct (less y z) eqn:Eyz; [by right|]. exfalso.
    destruct (less y x) eqn:Eyx; [by rewrite (Htrans y x z) in Eyz|].
    assert (¬ comparable less x y) as Hc by (intros [?|?]; congruence).
    rewrite lexicographic_comparable in Hc.
    assert (f x = f y ∧ g x = g y) as [Hf Hg].
    { destruct (decide (f x = f y)) as [Hf|Hf]; [|exfalso; apply Hc; tauto].
      destruct (st_total (less := ltY) (g x) (g y)) as [Hl|[Hl|Hl]]; [|done|].
      - exfalso. apply Hc. intros [_ Hg]. rewrite Hg in Hl. pose proof (st_irrefl (less := ltY) (g y)). congruence.
      - exfalso. apply Hc. intros [_ Hg]. rewrite Hg in Hl. pose proof (st_irrefl (less := ltY) (g y)). congruence. }
    rewrite Hless in Hxz, Eyz. rewrite <-Hf, <-Hg in Eyz. congruence.
Qed.
End lexicographic.

#[global] Instance PolKVLess_StrictWeak : StrictWeak PolKVLess.
Proof.
  eapply (lexicographic_StrictWeak (λ kv, m_Order (kv_Value kv)) (λ kv, keyString (kv_Key kv)) float64_lt String.ltb).
  done.
Qed.

Lemma PolKVLess_comparable i j :
  comparable PolKVLess i j ↔
  ¬ (m_Order (kv_Value i) = m_Order (kv_Value j) ∧ keyString (kv_Key i) = keyString (kv_Key j)).
Proof.
  apply (lexicographic_comparable (λ kv, m_Order (kv_Value kv)) (λ kv, keyString (kv_Key kv)) float64_lt String.ltb).
  done.
Qed.

(** Valid tiers come first, then tiers with an order. *)
Definition tierRank (t : tierInfoKey) : bool * option float64 := (tk_Valid t, deref <$> tk_Order t).
Definition tierRank_lt (a b : bool * option float64) : bool :=
  match a, b with
  | (true, _), (false, _) => true
  | (false, _), (true, _) => false
  | (_, Some x), (_, Some y) => float64_lt x y
  | (_, Some _), (_, None) => true
  | (_, None), _ => false
  end.

#[global] Instance tierRank_StrictTotal : StrictTotal tierRank_lt.
Proof.
  split.
  - intros [[] [o|]]; simpl; try done; apply st_irrefl.
  - intros [[] [o1|]] [[] [o2|]] [[] [o3|]]; simpl; try done; apply st_trans.
  - intros [[] [o1|]] [[] [o2|]]; simpl; auto; destruct (st_total (less := float64_lt) o1 o2) as [?|[->|?]]; auto.
Qed.

Lemma TierLess_lexicographic i j :
  TierLess i j = if decide (tierRank i = tierRank j) then String.ltb (tk_Name i) (tk_Name j)
                 else tierRank_lt (tierRank i) (tierRank j).
Proof.
  destruct i as [n1 v1 o1], j as [n2 v2 o2]. unfold TierLess, tierRank. simpl.
  destruct v1, v2, o1 as [[a1 d1]|], o2 as [[a2 d2]|]; simpl; repeat case_decide; simplify_eq/=; done.
Qed.

#[global] Instance TierLess_StrictWeak : StrictWeak TierLess.
Proof. eapply (lexicographic_StrictWeak tierRank tk_Name tierRank_lt String.ltb). apply TierLess_lexicographic. Qed.

Lemma TierLess_comparable i j : comparable TierLess i j ↔ ¬ (tierRank i = tierRank j ∧ tk_Name i = tk_Name j).
Proof. apply (lexicographic_comparable tierRank tk_Name tierRank_lt String.ltb). apply TierLess_lexicographic. Qed.

(** ** Keys whose printed form is unambiguous *)
Definition no_slash (s : string) : Prop := string_forallb (λ c, negb (bool_decide (c = "/"%char))) s = true.
Definition pkey_wf (k : PolicyKey) : Prop := no_slash (pk_Name k) ∧ no_slash (pk_Namespace k).

Lemma slash_split s1 s2 t1 t2 :
  no_slash s1 → no_slash s2 → s1 +:+ "/" +:+ t1 = s2 +:+ "/" +:+ t2 → s1 = s2 ∧ t1 = t2.
Proof.
  unfold no_slash. revert s2. induction s1 as [|c1 s1 IH]; intros [|c2 s2]; simpl;
    rewrite ?string_app_nil_l, ?string_app_cons.
  - intros _ _ Heq. rewrite !string_app_nil_l in Heq. by simplify_eq.
  - intros _ [Hc _]%andb_prop Heq. by simplify_eq.
  - intros [Hc _]%andb_prop _ Heq. by simplify_eq.
  - intros [_ H1]%andb_prop [_ H2]%andb_prop Heq. injection Heq as -> Heq.
    destruct (IH s2 H1 H2) as [-> ->]; [by rewrite !string_app_cons, !string_app_nil_l|done].
Qed.

Lemma keyString_inj k1 k2 : pkey_wf k1 → pkey_wf k2 → keyString k1 = keyString k2 → k1 = k2.
Proof.
  destruct k1 as [n1 ns1 d1], k2 as [n2 ns2 d2]. unfold pkey_wf, keyString. simpl. intros [H1 H2] [H3 H4] Heq.
  apply slash_split in Heq as [-> Heq]; [|done..]. by apply slash_split in Heq as [-> ->].
Qed.

(** ** The abstract state *)
Record datastore := MkDatastore {
  s_tiers : gmap string (option float64 * string);
  s_pols : gmap PolicyKey policyMetadata
}.

Definition put_pol (k : PolicyKey) (m : policyMetadata) (sp : datastore) : datastore :=
  MkDatastore (s_tiers sp) (<[k := m]> (s_pols sp)).
Definition del_pol (k : PolicyKey) (sp : datastore) : datastore :=
  MkDatastore (s_tiers sp) (delete k (s_pols sp)).
Definition put_tier (name : string) (t : Tier) (sp : datastore) : datastore :=
  MkDatastore (<[name := (deref <$> tier_Order t, tier_DefaultAction t)]> (s_tiers sp)) (s_pols sp).
Definition del_tier (name : string) (sp : datastore) : datastore :=
  MkDatastore (delete name (s_tiers sp)) (s_pols sp).

(** What is kept of a policy, from its fields: the order (last without one), a bit for each flag and
    direction (both directions when the policy names no type), and the tier. *)
Definition bit_if (b : bool) (z : Z) : Z := if b then z else 0%Z.
Definition applies (direction : string) (p : Policy) : bool := bool_decide (pol_Types p = []) || existsb (λ t, EqualFold t direction) (pol_Types p).

Definition metadata_of (p : Policy) : policyMetadata := {|
  m_Order := match pol_Order p with Some o => o | None => PosInf end;
  m_Flags := bit_if (pol_DoNotTrack p) 1 + bit_if (pol_PreDNAT p) 2 + bit_if (pol_ApplyOnForward p) 4 + bit_if (applies "ingress" p) 8 + bit_if (applies "egress" p) 16;
  m_Tier := match pol_Tier p with "" => "default" | tier => tier end
|}.

Lemma EqualFold_disjoint t : EqualFold t "ingress" = true → EqualFold t "egress" = false.
Proof.
  destruct t as [|c t]; [done|]. cbn [EqualFold]. destruct (decide (lowerByte c = "i"%char)) as [Hi|Hi].
  - intros _. rewrite Hi. by rewrite !decide_False by (by intros [=]) || by intros [[=] _].
  - by rewrite decide_False by (by intros [[=] _]).
Qed.

Lemma addTypes flags ts : foldl addType flags ts =
  Z.lor flags (Z.lor (bit_if (existsb (λ t, EqualFold t "ingress") ts) 8) (bit_if (existsb (λ t, EqualFold t "egress") ts) 16)).
Proof.
  revert flags. induction ts as [|t ts IH]; intros flags; cbn [foldl existsb]; [cbn; by rewrite Z.lor_0_r|]. rewrite IH. unfold addType. pose proof (EqualFold_disjoint t) as Hd.
  destruct (EqualFold t "ingress"); [rewrite Hd by done|]; [|destruct (EqualFold t "egress"); [|done]]; cbn [orb]; rewrite <- !Z.lor_assoc; f_equal;
    destruct (existsb (λ t, EqualFold t "ingress") ts), (existsb (λ t, EqualFold t "egress") ts); done.
Qed.

Lemma ExtractPolicyMetadata_spec p : ExtractPolicyMetadata p = metadata_of p.
Proof.
  unfold ExtractPolicyMetadata, metadata_of, applies. rewrite addTypes. f_equal.
  - destruct (pol_Types p) as [|t ts]; [rewrite bool_decide_eq_true_2 by done|rewrite bool_decide_eq_false_2 by done; generalize (t :: ts); intros l].
    + destruct (pol_DoNotTrack p), (pol_PreDNAT p), (pol_ApplyOnForward p); done.
    + destruct (existsb (λ t, EqualFold t "ingress") l), (existsb (λ t, EqualFold t "egress") l), (pol_DoNotTrack p), (pol_PreDNAT p), (pol_ApplyOnForward p); done.
  - by destruct (pol_Tier p).
Qed.

Definition spec_update (sp : datastore) (u : SorterUpdate) : datastore :=
  match u with
  | TierUpdate name (Some t) => put_tier name t sp
  | TierUpdate name None => del_tier name sp
  | PolicyUpdate k (Some p) => put_pol k (metadata_of p) sp
  | PolicyUpdate k None => del_pol k sp
  end.

Lemma StronglySorted_weaken {A} (R R' : A → A → Prop) (l : list A) : (∀ x y, R x y → R' x y) → StronglySorted R l → StronglySorted R' l.
Proof. intros HR. induction 1 as [|x l _ IH Hx]; constructor; [done|]. eapply Forall_impl; [exact Hx|]. apply HR. Qed.

(** ** The order of tiers and policies, from the datastore *)
Definition order_before (x y : float64) : Prop :=
  match x, y with Finite p, Finite q => (p < q)%Qc | Finite _, PosInf => True | PosInf, _ => False end.

(** Tiers that exist come before names that policies use without a tier; then by order, tiers without an
    order last; then by name. *)
Definition tier_before (sp : datastore) (n1 n2 : string) : Prop :=
  match s_tiers sp !! n1, s_tiers sp !! n2 with
  | Some _, None => True
  | None, Some _ => False
  | None, None | Some (None, _), Some (None, _) => String.ltb n1 n2 = true
  | Some (Some x, _), Some (Some y, _) => order_before x y ∨ x = y ∧ String.ltb n1 n2 = true
  | Some (Some _, _), Some (None, _) => True
  | Some (None, _), Some (Some _, _) => False
  end.

Definition policyName (k : PolicyKey) : string := pk_Name k +:+ "/" +:+ pk_Namespace k +:+ "/" +:+ pk_Kind k.

Definition policy_before (x y : PolKV) : Prop :=
  order_before (m_Order (kv_Value x)) (m_Order (kv_Value y)) ∨
  m_Order (kv_Value x) = m_Order (kv_Value y) ∧ String.ltb (policyName (kv_Key x)) (policyName (kv_Key y)) = true.

Lemma float64_lt_before x y : float64_lt x y = true ↔ order_before x y.
Proof. destruct x, y; cbn; rewrite ?bool_decide_eq_true; done. Qed.

Lemma PolKVLess_before x y : PolKVLess x y = true ↔ policy_before x y.
Proof.
  unfold PolKVLess, policy_before. destruct (decide _) as [He|He].
  - rewrite He. split; [by right|]. intros [Hl%float64_lt_before|[_ ?]]; [|done]. pose proof (st_irrefl (less := float64_lt) (m_Order (kv_Value y))). congruence.
  - rewrite float64_lt_before. tauto.
Qed.

Section relation.
Context {PT TT : Type} `{OrderedSetLaws PolKV PT PolKVLess} `{OrderedSetLaws tierInfoKey TT TierLess}.
(** What is stored at the addresses of the orders. *)
Context (heap : positive → float64).
Abbreviation TierInfo := (TierInfo (PT := PT)).
Abbreviation PolicySorter := (PolicySorter (PT := PT) (TT := TT)).
Implicit Types (sp : datastore) (ti : TierInfo) (poc : PolicySorter) (k : PolicyKey) (m : policyMetadata).

(** *** The tree of a tier holds its policies *)
Definition tree_rel (pols : gmap PolicyKey policyMetadata) (t : PT) : Prop :=
  bt_wf t ∧ (∀ k m, pols !! k = Some m → pkey_wf k) ∧
  ∀ kv, kv ∈ bt_Ascend t ↔ pols !! kv_Key kv = Some (kv_Value kv).

Lemma tree_rel_new : tree_rel ∅ bt_new.
Proof.
  split_and!; [apply bt_new_wf|done|]. intros kv. rewrite bt_new_elems, lookup_empty.
  split; [by intros ?%not_elem_of_nil|done].
Qed.

Lemma tree_rel_delete pols t k m :
  tree_rel pols t → pols !! k = Some m → tree_rel (delete k pols) (bt_Delete (MkPolKV k m) t).
Proof.
  intros (Hwf & Hk & Helem) Hkm. split_and!; [by apply bt_Delete_wf| |].
  { intros k' m' [_ ?]%lookup_delete_Some. eauto. }
  intros [k' m']. rewrite bt_Delete_elems, Helem, PolKVLess_comparable, lookup_delete_Some by done. simpl. split.
  - intros [Hp Hc]. split; [|done]. intros <-. apply Hc. split; [|done]. congruence.
  - intros [Hne Hp]. split; [done|]. intros [_ Hs]. apply Hne. apply keyString_inj; eauto.
Qed.

Lemma tree_rel_insert pols t k m :
  tree_rel pols t → pols !! k = None → pkey_wf k → tree_rel (<[k := m]> pols) (bt_ReplaceOrInsert (MkPolKV k m) t).
Proof.
  intros (Hwf & Hk & Helem) Hkm Hkw. split_and!; [by apply bt_Insert_wf| |].
  { intros k' m' [[<- _]|[_ ?]]%lookup_insert_Some; eauto. }
  intros [k' m']. rewrite bt_Insert_elems, Helem, PolKVLess_comparable, lookup_insert_Some by done. simpl. split.
  - intros [[= -> ->]|[Hp Hc]]; [by left|]. right. split; [|done]. intros <-. congruence.
  - intros [[<- <-]|[Hne Hp]]; [by left|]. right. split; [done|]. intros [_ Hs]. apply Hne. apply keyString_inj; eauto.
Qed.

(** *** The tree of tiers holds the keys of the tiers *)
Definition stree_rel (ts : gmap string TierInfo) (t : TT) : Prop :=
  bt_wf t ∧ (∀ name ti, ts !! name = Some ti → ti_Name ti = name) ∧
  ∀ tk, tk ∈ bt_Ascend t ↔ ∃ ti, ts !! tk_Name tk = Some ti ∧ tk = tierKey ti.

Lemma stree_rel_delete ts t name ti :
  stree_rel ts t → ts !! name = Some ti → stree_rel (delete name ts) (bt_Delete (tierKey ti) t).
Proof.
  intros (Hwf & Hn & Helem) Hti. split_and!; [by apply bt_Delete_wf| |].
  { intros name' ti' [_ ?]%lookup_delete_Some. eauto. }
  intros tk. rewrite bt_Delete_elems, Helem, TierLess_comparable by done.
  setoid_rewrite lookup_delete_Some. pose proof (Hn _ _ Hti) as Hname. split.
  - intros [(ti' & Hti' & ->) Hc]. exists ti'. split_and!; [|done|done]. simpl. intros Heq.
    pose proof (Hn _ _ Hti') as Hname'. simpl in Hname'. apply Hc. assert (ti' = ti) as -> by (simpl in *; congruence). done.
  - intros (ti' & [Hne Hti'] & ->). split; [by exists ti'|]. simpl in *. intros [_ Heq]. congruence.
Qed.

Lemma stree_rel_insert ts t name ti :
  stree_rel ts t → ts !! name = None → ti_Name ti = name →
  stree_rel (<[name := ti]> ts) (bt_ReplaceOrInsert (tierKey ti) t).
Proof.
  intros (Hwf & Hn & Helem) Hti Hname. split_and!; [by apply bt_Insert_wf| |].
  { intros name' ti' [[<- <-]|[_ ?]]%lookup_insert_Some; eauto. }
  intros tk. rewrite bt_Insert_elems, Helem, TierLess_comparable by done.
  setoid_rewrite lookup_insert_Some. split.
  - intros [->|[(ti' & Hti' & ->) Hc]].
    + exists ti. split; [|done]. left. done.
    + exists ti'. split; [|done]. right. split; [|done]. simpl in *. intros Heq. congruence.
  - intros (ti' & [[Heq <-]|[Hne Hti']] & ->); [by left|]. right. split; [by exists ti'|].
    simpl in *. intros [_ Heq]. congruence.
Qed.

Lemma stree_rel_same ts t name ti ti' :
  stree_rel ts t → ts !! name = Some ti → tierKey ti' = tierKey ti → stree_rel (<[name := ti']> ts) t.
Proof.
  intros (Hwf & Hn & Helem) Hti Hkey. assert (ti_Name ti' = ti_Name ti) as Hnm by (by injection Hkey).
  split_and!; [done| |].
  { intros name' ti0 [[<- <-]|[_ ?]]%lookup_insert_Some; [|eauto]. rewrite Hnm. eauto. }
  intros tk. rewrite Helem. setoid_rewrite lookup_insert_Some. split.
  - intros (ti0 & Hti0 & ->). destruct (decide (name = ti_Name ti0)) as [->|Hne].
    + exists ti'. split; [by left|]. simpl in *. congruence.
    + exists ti0. split; [by right|done].
  - intros (ti0 & [[Heq <-]|[Hne Hti0]] & ->); [|by exists ti0]. exists ti. simpl in *. subst name. done.
Qed.

Lemma stree_rel_replace ts t name ti ti' :
  stree_rel ts t → ts !! name = Some ti → ti_Name ti' = name →
  stree_rel (<[name := ti']> ts) (bt_ReplaceOrInsert (tierKey ti') (bt_Delete (tierKey ti) t)).
Proof.
  intros Hs Hti Hname. rewrite <-insert_delete_eq. apply stree_rel_insert; [|apply lookup_delete_eq|done].
  by apply stree_rel_delete.
Qed.

(** *** The whole sorter *)
Definition tier_info_rel sp (name : string) ti : Prop :=
  match s_tiers sp !! name with
  | Some (o, a) => ti_Valid ti = true ∧ deref <$> ti_Order ti = o ∧ ti_DefaultAction ti = a
  | None => ti_Valid ti = false ∧ ti_Order ti = None
  end.

Record tier_rel sp (name : string) ti : Prop := {
  tr_info : tier_info_rel sp name ti;
  tr_pols k m : ti_Policies ti !! k = Some m ↔ s_pols sp !! k = Some m ∧ m_Tier m = name;
  tr_tree : tree_rel (ti_Policies ti) (ti_SortedPolicies ti);
  tr_ptr p : ti_Order ti = Some p → deref p = heap (addr p)
}.

Definition wanted sp (name : string) : Prop :=
  is_Some (s_tiers sp !! name) ∨ ∃ k m, s_pols sp !! k = Some m ∧ m_Tier m = name.

Record sorter_rel poc sp : Prop := {
  sr_tier name ti : tiers poc !! name = Some ti → tier_rel sp name ti;
  sr_dom name : is_Some (tiers poc !! name) ↔ wanted sp name;
  sr_sorted : stree_rel (tiers poc) (sortedTiers poc);
  sr_keys k m : s_pols sp !! k = Some m → pkey_wf k
}.

Lemma sorter_rel_new : sorter_rel NewPolicySorter (MkDatastore ∅ ∅).
Proof.
  split; simpl.
  - done.
  - intros name. unfold wanted. simpl. setoid_rewrite lookup_empty. split.
    + by intros [? ?].
    + by intros [[? ?]|(? & ? & ? & _)].
  - split_and!; [apply bt_new_wf|done|]. intros tk. rewrite bt_new_elems. setoid_rewrite lookup_empty.
    split; [by intros ?%not_elem_of_nil|]. by intros (? & ? & _).
  - done.
Qed.

(** A policy is in the tier that its metadata names. *)
Lemma policy_tier poc sp k m :
  sorter_rel poc sp → s_pols sp !! k = Some m →
  ∃ ti, tiers poc !! m_Tier m = Some ti ∧ ti_Policies ti !! k = Some m.
Proof.
  intros Hr Hk. destruct (proj2 (sr_dom _ _ Hr (m_Tier m))) as [ti Hti]; [right; eauto|].
  exists ti. split; [done|]. apply (sr_tier _ _ Hr _ _ Hti). done.
Qed.

Lemma tier_rel_other sp name ti k m :
  tier_rel sp name ti → m_Tier m ≠ name → (∀ m0, s_pols sp !! k = Some m0 → m_Tier m0 ≠ name) →
  tier_rel (put_pol k m sp) name ti.
Proof.
  intros [Hi Hp Ht Hptr] Hne Hold. split; [done| |done|done]. intros k' m'. rewrite Hp. simpl.
  destruct (decide (k = k')) as [<-|Hk].
  - rewrite lookup_insert_eq. split; intros [Hx Hy]; [by destruct (Hold _ Hx)|simplify_eq].
  - by rewrite lookup_insert_ne.
Qed.

Lemma tier_rel_del sp name ti k :
  tier_rel sp name ti → (∀ m0, s_pols sp !! k = Some m0 → m_Tier m0 ≠ name) → tier_rel (del_pol k sp) name ti.
Proof.
  intros [Hi Hp Ht Hptr] Hold. split; [done| |done|done]. intros k' m'. rewrite Hp. simpl.
  rewrite lookup_delete_Some. split; [|tauto]. intros [Hx Hy]. split_and!; [|done|done].
  intros <-. by apply (Hold m').
Qed.

(** Putting a policy in its tier. *)
Lemma tier_rel_put sp ti k m tree :
  tier_info_rel sp (m_Tier m) ti → (∀ p, ti_Order ti = Some p → deref p = heap (addr p)) →
  (∀ k' m', k' ≠ k → ti_Policies ti !! k' = Some m' ↔ s_pols sp !! k' = Some m' ∧ m_Tier m' = m_Tier m) →
  tree_rel (delete k (ti_Policies ti)) tree → pkey_wf k →
  tier_rel (put_pol k m sp) (m_Tier m)
    (withPolicies (<[k := m]> (ti_Policies ti)) (bt_ReplaceOrInsert (MkPolKV k m) tree) ti).
Proof.
  intros Hi Hptr Hp Ht Hk. split; [done| | |done]; simpl.
  - intros k' m'. destruct (decide (k' = k)) as [->|Hne].
    + rewrite !lookup_insert_eq. split; [|tauto]. intros [= <-]. done.
    + rewrite !lookup_insert_ne by done. auto.
  - rewrite <-insert_delete_eq. apply tree_rel_insert; [done|apply lookup_delete_eq|done].
Qed.

Lemma wanted_put sp k m name :
  (∀ m0, s_pols sp !! k = Some m0 → m_Tier m0 = m_Tier m) →
  wanted (put_pol k m sp) name ↔ wanted sp name ∨ name = m_Tier m.
Proof.
  intros Hold. unfold wanted. simpl. split.
  - intros [?|(k' & m' & [[<- <-]|[_ Hk]]%lookup_insert_Some & Ht)]; eauto. left. right. eauto.
  - intros [[?|(k' & m' & Hk & Ht)]| ->]; [by left| |].
    + right. destruct (decide (k' = k)) as [->|Hne].
      * exists k, m. rewrite lookup_insert_eq. split; [done|]. rewrite <-(Hold m') by done. done.
      * exists k', m'. by rewrite lookup_insert_ne.
    + right. exists k, m. by rewrite lookup_insert_eq.
Qed.

Lemma putPolicy_rel poc sp k m d :
  sorter_rel poc sp → pkey_wf k → (∀ m0, s_pols sp !! k = Some m0 → m_Tier m0 = m_Tier m) →
  let '(poc', d') := putPolicy k m (m_Tier m) (tiers poc !! m_Tier m) poc d in
  sorter_rel poc' (put_pol k m sp) ∧ d' = d || negb (bool_decide (s_pols sp !! k = Some m)).
Proof.
  intros Hr Hk Hold. unfold putPolicy.
  assert (∀ ti0, tiers poc !! m_Tier m = Some ti0 → ti_Policies ti0 !! k = s_pols sp !! k) as Hpol.
  { intros ti0 Hti0. pose proof (tr_pols _ _ _ (sr_tier _ _ Hr _ _ Hti0) k) as Hp. apply option_eq.
    intros m'. rewrite Hp. split; [tauto|]. intros Hm'. auto. }
  assert (∀ name ti0, name ≠ m_Tier m → tiers poc !! name = Some ti0 → tier_rel (put_pol k m sp) name ti0) as Hoth.
  { intros name ti0 Hne Hti0. apply tier_rel_other; [by apply (sr_tier _ _ Hr)|done|]. intros m0 Hm0.
    rewrite (Hold m0) by done. done. }
  assert (∀ k' m', s_pols (put_pol k m sp) !! k' = Some m' → pkey_wf k') as Hkeys.
  { simpl. intros k' m' [[<- _]|[_ ?]]%lookup_insert_Some; [done|]. by eapply (sr_keys _ _ Hr). }
  destruct (tiers poc !! m_Tier m) as [ti|] eqn:Hti.
  - pose proof (sr_tier _ _ Hr _ _ Hti) as Htr. pose proof (proj1 (proj2 (sr_sorted _ _ Hr)) _ _ Hti) as Hnm.
    rewrite (Hpol ti eq_refl). split; [|done]. rewrite Hnm.
    assert (tree_rel (delete k (ti_Policies ti))
              match s_pols sp !! k with Some op => bt_Delete (MkPolKV k op) (ti_SortedPolicies ti)
              | None => ti_SortedPolicies ti end) as Htree.
    { destruct (s_pols sp !! k) as [op|] eqn:Eop.
      - apply tree_rel_delete; [apply Htr|]. by rewrite (Hpol ti eq_refl).
      - rewrite delete_id by (by rewrite (Hpol ti eq_refl)). apply Htr. }
    split; simpl.
    + intros name ti0 [[<- <-]|[Hne Hti0]]%lookup_insert_Some; [|by apply Hoth].
      apply tier_rel_put; [apply Htr|apply Htr| |done|done]. intros k' m' _. apply Htr.
    + intros name. rewrite wanted_put, <-(sr_dom _ _ Hr) by done. rewrite lookup_insert_is_Some.
      destruct (decide (m_Tier m = name)) as [<-|Hne]; [|naive_solver]. rewrite Hti. naive_solver.
    + eapply stree_rel_same; [apply Hr|exact Hti|done].
    + exact Hkeys.
  - assert (s_pols sp !! k = None) as Hnone.
    { destruct (s_pols sp !! k) as [m0|] eqn:E; [|done]. destruct (policy_tier poc sp k m0 Hr E) as (ti & Hx & _).
      rewrite (Hold m0) in Hx by done. congruence. }
    assert (∀ k' m', s_pols sp !! k' = Some m' → m_Tier m' ≠ m_Tier m) as Hempty.
    { intros k' m' Hk' Heq. destruct (policy_tier poc sp k' m' Hr Hk') as (ti & Hx & _). congruence. }
    assert (s_tiers sp !! m_Tier m = None) as Hnt.
    { apply eq_None_not_Some. intros Hs. destruct (proj2 (sr_dom _ _ Hr (m_Tier m))) as [? ?]; [by left|congruence]. }
    simpl. rewrite lookup_empty, Hnone. split; [|done]. split; simpl; rewrite ?insert_insert_eq.
    + intros name ti0 [[<- <-]|[Hne Hti0]]%lookup_insert_Some; [|by apply Hoth].
      apply tier_rel_put; [|done| | |done].
      * unfold tier_info_rel. by rewrite Hnt.
      * intros k' m' _. simpl. rewrite lookup_empty. split; [done|]. intros [Hx Hy]. by destruct (Hempty k' m').
      * simpl. rewrite delete_empty. apply tree_rel_new.
    + intros name. rewrite wanted_put, <-(sr_dom _ _ Hr) by done. rewrite lookup_insert_is_Some.
      destruct (decide (m_Tier m = name)) as [<-|Hne]; naive_solver.
    + exact (stree_rel_insert _ _ _ (withPolicies _ _ (NewTierInfo (m_Tier m))) (sr_sorted _ _ Hr) Hti eq_refl).
    + exact Hkeys.
Qed.

Lemma size_zero_lookup (pols : gmap PolicyKey policyMetadata) : size pols = 0 ↔ ∀ k, pols !! k = None.
Proof using Type. rewrite map_size_empty_iff. split; [by intros ->|]. apply map_empty. Qed.

Lemma wanted_del sp k m name :
  s_pols sp !! k = Some m →
  wanted (del_pol k sp) name ↔
  wanted sp name ∧ (name = m_Tier m → is_Some (s_tiers sp !! name) ∨
                      ∃ k' m', k' ≠ k ∧ s_pols sp !! k' = Some m' ∧ m_Tier m' = name).
Proof using Type.
  intros Hk. unfold wanted. simpl. setoid_rewrite lookup_delete_Some. split.
  - intros [?|(k' & m' & [Hne Hk'] & Ht)]; [tauto|]. split; [right; eauto|]. intros _. right. eauto.
  - intros [[?|(k' & m' & Hk' & Ht)] Himp]; [by left|]. destruct (decide (k' = k)) as [->|Hne].
    + assert (m' = m) as -> by congruence. destruct (Himp (eq_sym Ht)) as [?|(k2 & m2 & ? & ? & ?)]; [by left|].
      right. exists k2, m2. auto.
    + right. exists k', m'. auto.
Qed.

Lemma removeFromTier_rel poc sp k m ti :
  sorter_rel poc sp → s_pols sp !! k = Some m → tiers poc !! m_Tier m = Some ti →
  sorter_rel (removeFromTier k ti poc) (del_pol k sp) ∧
  (∀ name, name ≠ m_Tier m → tiers (removeFromTier k ti poc) !! name = tiers poc !! name).
Proof.
  intros Hr Hk Hti. pose proof (sr_tier _ _ Hr _ _ Hti) as Htr.
  pose proof (proj1 (proj2 (sr_sorted _ _ Hr)) _ _ Hti) as Hnm.
  assert (ti_Policies ti !! k = Some m) as Hpk by (apply Htr; done).
  assert (∀ name ti0, name ≠ m_Tier m → tiers poc !! name = Some ti0 → tier_rel (del_pol k sp) name ti0) as Hoth.
  { intros name ti0 Hne Hti0. apply tier_rel_del; [by apply (sr_tier _ _ Hr)|]. intros m0 Hm0. congruence. }
  assert (∀ k' m', s_pols (del_pol k sp) !! k' = Some m' → pkey_wf k') as Hkeys.
  { simpl. intros k' m' [_ ?]%lookup_delete_Some. by eapply (sr_keys _ _ Hr). }
  assert ((∃ k' m', k' ≠ k ∧ s_pols sp !! k' = Some m' ∧ m_Tier m' = m_Tier m) ↔ size (delete k (ti_Policies ti)) ≠ 0)
    as Hsize.
  { rewrite map_size_ne_0_lookup. split.
    - intros (k' & m' & Hne & Hk' & Ht). exists k', m'. rewrite lookup_delete_ne by done. by apply Htr.
    - intros [k' [m' [Hne Hk']%lookup_delete_Some]]. exists k', m'. apply Htr in Hk'. naive_solver. }
  assert (is_Some (s_tiers sp !! m_Tier m) ↔ ti_Valid ti = true) as Hvalid.
  { pose proof (tr_info _ _ _ Htr) as Hi. unfold tier_info_rel in Hi. destruct (s_tiers sp !! m_Tier m) as [[o a]|].
    - split; [|by eexists]. intros _. apply Hi.
    - destruct Hi as [-> _]. split; [by intros [? ?]|done]. }
  unfold removeFromTier. rewrite Hpk. simpl. rewrite Hnm. case_decide as Hd.
  - destruct Hd as [Hd1 Hd2]. split; [|intros name Hne; simpl; by rewrite lookup_delete_ne]. split; simpl.
    + intros name ti0 [Hne Hti0]%lookup_delete_Some. by apply Hoth.
    + intros name. rewrite (wanted_del _ _ m), <-(sr_dom _ _ Hr) by done. rewrite lookup_delete_is_Some.
      destruct (decide (m_Tier m = name)) as [<-|Hne]; [|naive_solver]. rewrite Hvalid, Hsize, Hd2. naive_solver.
    + apply stree_rel_delete; [apply Hr|done].
    + exact Hkeys.
  - split; [|intros name Hne; simpl; by rewrite lookup_insert_ne]. split; simpl.
    + intros name ti0 [[<- <-]|[Hne Hti0]]%lookup_insert_Some; [|by apply Hoth].
      split; simpl; [apply Htr| |apply tree_rel_delete; [apply Htr|done]|apply Htr].
      intros k' m'. rewrite !lookup_delete_Some. rewrite (tr_pols _ _ _ Htr). tauto.
    + intros name. rewrite (wanted_del _ _ m), <-(sr_dom _ _ Hr) by done. rewrite lookup_insert_is_Some.
      destruct (decide (m_Tier m = name)) as [<-|Hne]; [|naive_solver]. rewrite Hvalid, Hsize, Hti.
      destruct (ti_Valid ti); naive_solver.
    + eapply stree_rel_same; [apply Hr|exact Hti|done].
    + exact Hkeys.
Qed.

Section update.
Context (enumerate : gmap string TierInfo → list (string * TierInfo)).
Context (Henum : ∀ ts, enumerate ts ≡ₚ map_to_list ts).

Lemma findTier_spec poc sp k :
  sorter_rel poc sp →
  match s_pols sp !! k with
  | Some m => ∃ ti, findTier enumerate poc k = Some (m_Tier m, ti) ∧ tiers poc !! m_Tier m = Some ti
  | None => findTier enumerate poc k = None
  end.
Proof using Henum.
  intros Hr. unfold findTier. set (f := λ '(_, ti), _).
  assert (∀ name ti, (name, ti) ∈ enumerate (tiers poc) ↔ tiers poc !! name = Some ti) as Hin.
  { intros name ti. by rewrite Henum, elem_of_map_to_list. }
  destruct (List.find f (enumerate (tiers poc))) as [[name ti]|] eqn:E.
  - apply find_some in E as [Hel Hf]. apply list_elem_of_In, Hin in Hel. simpl in Hf.
    apply bool_decide_eq_true in Hf as [m Hm]. apply (sr_tier _ _ Hr _ _ Hel) in Hm as [Hkm Htm].
    rewrite Hkm. subst name. by exists ti.
  - destruct (s_pols sp !! k) as [m|] eqn:Ek; [|done]. exfalso.
    destruct (policy_tier poc sp k m Hr Ek) as (ti & Hti & Hp). apply Hin, list_elem_of_In in Hti.
    pose proof (find_none _ _ E _ Hti) as Hf. simpl in Hf. apply bool_decide_eq_false in Hf. apply Hf. by rewrite Hp.
Qed.

Lemma UpdatePolicy_rel poc sp k new :
  sorter_rel poc sp → pkey_wf k →
  let '(poc', dirty) := UpdatePolicy enumerate k new poc in
  sorter_rel poc' (match new with Some m => put_pol k m sp | None => del_pol k sp end) ∧
  dirty = negb (bool_decide (s_pols sp !! k = new)).
Proof using Henum.
  intros Hr Hk. unfold UpdatePolicy, tierForPolicy. pose proof (findTier_spec poc sp k Hr) as Hfind.
  destruct (s_pols sp !! k) as [m0|] eqn:E0.
  - destruct Hfind as (ti0 & -> & Hti0). cbn [fst snd].
    pose proof (proj1 (proj2 (sr_sorted _ _ Hr)) _ _ Hti0) as Hnm.
    destruct (removeFromTier_rel poc sp k m0 ti0 Hr E0 Hti0) as [Hrem Hsame].
    destruct new as [m|].
    + case_bool_decide as Hpt.
      * assert (m_Tier m0 = m_Tier m) as Hmt.
        { destruct (tiers poc !! m_Tier m) as [ti|] eqn:Et; [|done]. simpl in Hpt.
          pose proof (proj1 (proj2 (sr_sorted _ _ Hr)) _ _ Et). congruence. }
        pose proof (putPolicy_rel poc sp k m false Hr Hk) as Hput.
        destruct (putPolicy k m (m_Tier m) (tiers poc !! m_Tier m) poc false) as [poc' d'].
        rewrite E0 in Hput. apply Hput. intros m1. congruence.
      * assert (m_Tier m ≠ m_Tier m0) as Hmt.
        { intros Heq. rewrite Heq, Hti0 in Hpt. done. }
        rewrite <-(Hsame (m_Tier m)) by done.
        pose proof (putPolicy_rel _ _ k m true Hrem Hk) as Hput.
        destruct (putPolicy k m (m_Tier m) _ _ true) as [poc' d'].
        simpl in Hput. rewrite lookup_delete_eq in Hput. destruct Hput as [Hput ->]; [done|].
        split; [|rewrite bool_decide_false by congruence; done].
        replace (put_pol k m sp) with (put_pol k m (del_pol k sp)); [done|].
        unfold put_pol, del_pol. simpl. by rewrite insert_delete_eq.
    + cbn [fmap option_fmap option_map]. rewrite bool_decide_true by done.
      rewrite (proj2 (tr_pols _ _ _ (sr_tier _ _ Hr _ _ Hti0) k m0)) by done. done.
  - rewrite Hfind. cbn [fst snd]. destruct new as [m|].
    + pose proof (putPolicy_rel poc sp k m false Hr Hk) as Hput.
      destruct (putPolicy k m (m_Tier m) (tiers poc !! m_Tier m) poc false) as [poc' d'].
      rewrite E0 in Hput. by apply Hput.
    + split; [|done]. unfold del_pol. rewrite delete_id by done. by destruct sp.
Qed.
End update.

(** *** Tier updates *)
Definition ptr_ok (o : option float64ptr) : Prop := ∀ p, o = Some p → deref p = heap (addr p).

Lemma samePtr_deref o1 o2 : ptr_ok o1 → ptr_ok o2 → samePtr o1 o2 = true → deref <$> o1 = deref <$> o2.
Proof using Type.
  unfold ptr_ok, samePtr. rewrite bool_decide_eq_true. intros H1' H2' Heq.
  destruct o1 as [p1|], o2 as [p2|]; simplify_eq/=; [|done]. f_equal. rewrite (H1' p1), (H2' p2) by done. congruence.
Qed.

Lemma OnTierUpdate_put_rel poc sp name t :
  sorter_rel poc sp → ptr_ok (tier_Order t) → sorter_rel (fst (OnTierUpdate name (Some t) poc)) (put_tier name t sp).
Proof.
  intros Hr Hp. unfold OnTierUpdate.
  assert (∀ n ti0, n ≠ name → tiers poc !! n = Some ti0 → tier_rel (put_tier name t sp) n ti0) as Hoth.
  { intros n ti0 Hne Hti0. destruct (sr_tier _ _ Hr _ _ Hti0) as [Hi Hpp Ht Hptr]. split; try done.
    unfold tier_info_rel in *. simpl. by rewrite lookup_insert_ne. }
  assert (∀ n, is_Some (tiers poc !! n) ∨ n = name ↔ wanted (put_tier name t sp) n) as Hdom.
  { intros n. rewrite (sr_dom _ _ Hr). unfold wanted. simpl. rewrite lookup_insert_is_Some'. naive_solver. }
  assert (∀ n ti', is_Some (<[name := ti']> (tiers poc) !! n) ↔ wanted (put_tier name t sp) n) as Hdom'.
  { intros n ti'. rewrite <-Hdom, lookup_insert_is_Some'. naive_solver. }
  destruct (tiers poc !! name) as [ti|] eqn:Hti; cbn [fst].
  - pose proof (sr_tier _ _ Hr _ _ Hti) as Htr. pose proof (proj1 (proj2 (sr_sorted _ _ Hr)) _ _ Hti) as Hnm.
    set (order := if samePtr (ti_Order ti) (tier_Order t) then ti_Order ti else tier_Order t).
    assert (deref <$> order = deref <$> tier_Order t ∧ ptr_ok order) as [Ho1 Ho2].
    { unfold order. destruct (samePtr (ti_Order ti) (tier_Order t)) eqn:E; [|done].
      split; [|intros p; apply Htr]. apply samePtr_deref; [intros p; apply Htr|done|done]. }
    split; simpl.
    + intros n ti0 [[<- <-]|[Hne Hti0]]%lookup_insert_Some; [|by apply Hoth].
      split; simpl; [|apply Htr|apply Htr|exact Ho2]. unfold tier_info_rel. simpl. by rewrite lookup_insert_eq.
    + intros n. apply Hdom'.
    + apply stree_rel_replace; [apply Hr|done|done].
    + apply Hr.
  - assert (∀ k' m', s_pols sp !! k' = Some m' → m_Tier m' ≠ name) as Hempty.
    { intros k' m' Hk' Heq. destruct (policy_tier poc sp k' m' Hr Hk') as (ti & Hx & _). congruence. }
    assert ((if samePtr (ti_Order (NewTierInfo (PT := PT) name)) (tier_Order t)
             then ti_Order (NewTierInfo (PT := PT) name) else tier_Order t) = tier_Order t) as ->.
    { unfold samePtr. simpl. destruct (tier_Order t); [done|]. by case_bool_decide. }
    split; simpl.
    + intros n ti0 [[<- <-]|[Hne Hti0]]%lookup_insert_Some; [|by apply Hoth].
      split; simpl; [| |apply tree_rel_new|exact Hp].
      * unfold tier_info_rel. simpl. by rewrite lookup_insert_eq.
      * intros k' m'. rewrite lookup_empty. split; [done|]. intros [Hx Hy]. by destruct (Hempty k' m').
    + intros n. apply Hdom'.
    + apply stree_rel_insert; [apply Hr|done|done].
    + apply Hr.
Qed.

Lemma OnTierUpdate_del_rel poc sp name :
  sorter_rel poc sp → sorter_rel (fst (OnTierUpdate name None poc)) (del_tier name sp).
Proof.
  intros Hr. unfold OnTierUpdate.
  assert (∀ n ti0, n ≠ name → tiers poc !! n = Some ti0 → tier_rel (del_tier name sp) n ti0) as Hoth.
  { intros n ti0 Hne Hti0. destruct (sr_tier _ _ Hr _ _ Hti0) as [Hi Hpp Ht Hptr]. split; try done.
    unfold tier_info_rel in *. simpl. by rewrite lookup_delete_ne. }
  assert (∀ n, wanted (del_tier name sp) n ↔
            if decide (n = name) then ∃ k m, s_pols sp !! k = Some m ∧ m_Tier m = n else is_Some (tiers poc !! n)) as Hdom.
  { intros n. unfold wanted. simpl. case_decide as Hn.
    - subst. rewrite lookup_delete_eq. split; [|by right]. by intros [[? ?]|?].
    - rewrite lookup_delete_ne by done. by rewrite (sr_dom _ _ Hr). }
  destruct (tiers poc !! name) as [ti|] eqn:Hti; cbn [fst].
  - pose proof (sr_tier _ _ Hr _ _ Hti) as Htr. pose proof (proj1 (proj2 (sr_sorted _ _ Hr)) _ _ Hti) as Hnm.
    assert ((∃ k m, s_pols sp !! k = Some m ∧ m_Tier m = name) ↔ size (ti_Policies ti) ≠ 0) as Hsize.
    { rewrite map_size_ne_0_lookup. split.
      - intros (k & m & Hk & Ht). exists k, m. by apply Htr.
      - intros [k [m Hk]]. exists k, m. by apply Htr. }
    case_decide as Hd; cbn [fst]; split; simpl.
    + intros n ti0 [Hne Hti0]%lookup_delete_Some. by apply Hoth.
    + intros n. rewrite Hdom, lookup_delete_is_Some. case_decide as Hn; [|naive_solver]. subst. rewrite Hsize. naive_solver.
    + apply stree_rel_delete; [apply Hr|done].
    + apply Hr.
    + intros n ti0 [[<- <-]|[Hne Hti0]]%lookup_insert_Some; [|by apply Hoth].
      split; simpl; [|apply Htr|apply Htr|done]. unfold tier_info_rel. simpl. by rewrite lookup_delete_eq.
    + intros n. rewrite Hdom, lookup_insert_is_Some'. case_decide as Hn; [|naive_solver]. subst. rewrite Hsize. naive_solver.
    + apply stree_rel_replace; [apply Hr|done|done].
    + apply Hr.
  - assert (s_tiers sp !! name = None) as Hnt.
    { apply eq_None_not_Some. intros Hs. destruct (proj2 (sr_dom _ _ Hr name)) as [? ?]; [by left|congruence]. }
    unfold del_tier. rewrite delete_id by done. by destruct sp.
Qed.

(** *** Reading the order *)
Definition filled ti : TierInfo := withOrdered (bt_Ascend (ti_SortedPolicies ti)) ti.

Lemma sortedLoop_spec (keys : list tierInfoKey) poc acc :
  NoDup (tk_Name <$> keys) → (∀ tk, tk ∈ keys → is_Some (tiers poc !! tk_Name tk)) →
  ∃ poc', sortedLoop keys poc acc =
      Ret (poc', acc ++ omap (λ tk, filled <$> tiers poc !! tk_Name tk) keys) ∧
    sortedTiers poc' = sortedTiers poc ∧
    (∀ name, tiers poc' !! name = if decide (name ∈ tk_Name <$> keys) then filled <$> tiers poc !! name else tiers poc !! name).
Proof using Type.
  revert poc acc. induction keys as [|tk keys IH]; intros poc acc Hnd Hall.
  { exists poc. cbn [sortedLoop omap list_omap]. rewrite app_nil_r. split_and!; [done|done|].
    intros name. by rewrite decide_False by (by intros ?%not_elem_of_nil). }
  apply list.NoDup_cons in Hnd as [Hni Hnd]. cbn [sortedLoop].
  destruct (Hall tk ltac:(by left)) as [ti Hti]. rewrite Hti.
  destruct (IH (set_tiers <[tk_Name tk := filled ti]> poc) (acc ++ [filled ti])) as (poc' & Heq & Hst & Hts).
  { done. }
  { intros tk' Hin. simpl. rewrite lookup_insert_is_Some'. right. apply Hall. by right. }
  exists poc'. split_and!; [|done|].
  - etrans; [exact Heq|]. rewrite <-app_assoc. do 3 f_equal. cbn [omap list_omap]. rewrite Hti. simpl. f_equal.
    apply list_omap_ext. apply Forall2_same_length_lookup_2; [done|]. intros i x y Hx Hy. simplify_eq.
    rewrite lookup_insert_ne; [done|]. intros Heqn. apply Hni. rewrite Heqn. apply list_elem_of_fmap. exists x.
    split; [done|]. by eapply list_elem_of_lookup_2.
  - intros name. rewrite Hts. simpl. change (tk_Name <$> tk :: keys) with (tk_Name tk :: (tk_Name <$> keys)).
    destruct (decide (name = tk_Name tk)) as [->|Hne].
    + rewrite decide_False, decide_True by (try done; by left). by rewrite lookup_insert_eq, Hti.
    + rewrite lookup_insert_ne by done. apply decide_ext. rewrite elem_of_cons. tauto.
Qed.

(** What [Sorted] returns, in the orders of the code. *)
Record sorted_raw sp (tis : list TierInfo) : Prop := {
  so_tiers : StronglySorted (λ x y, TierLess x y = true) (tierKey <$> tis);
  so_names name : name ∈ ti_Name <$> tis ↔ wanted sp name;
  so_info ti : ti ∈ tis → tier_info_rel sp (ti_Name ti) ti;
  so_sorted ti : ti ∈ tis → StronglySorted (λ x y, PolKVLess x y = true) (ti_OrderedPolicies ti);
  so_pols ti kv : ti ∈ tis →
    kv ∈ ti_OrderedPolicies ti ↔ s_pols sp !! kv_Key kv = Some (kv_Value kv) ∧ m_Tier (kv_Value kv) = ti_Name ti
}.

Lemma filled_keys poc (keys : list tierInfoKey) :
  (∀ tk, tk ∈ keys → ∃ ti, tiers poc !! tk_Name tk = Some ti ∧ tk = tierKey ti) →
  tierKey <$> omap (λ tk, filled <$> tiers poc !! tk_Name tk) keys = keys.
Proof using Type.
  induction keys as [|tk keys IH]; intros Hall; [done|]. destruct (Hall tk ltac:(by left)) as (ti & Hti & Heq).
  cbn [omap list_omap]. rewrite Hti. simpl. f_equal; [done|]. apply IH. intros tk' Hin. apply Hall. by right.
Qed.

Lemma strictly_sorted_NoDup {A} (less : A → A → bool) `{!StrictWeak less} (l : list A) :
  StronglySorted (λ x y, less x y = true) l → NoDup l.
Proof using Type.
  induction l as [|x l IH]; intros Hs; [constructor|]. apply sorted_cons in Hs as [Hx Hl].
  apply list.NoDup_cons. split; [|auto]. intros Hin%Hx. by rewrite sw_irrefl in Hin.
Qed.

Lemma sorter_rel_filled poc poc' sp :
  sorter_rel poc sp → sortedTiers poc' = sortedTiers poc →
  (∀ name, tiers poc' !! name = filled <$> tiers poc !! name ∨ tiers poc' !! name = tiers poc !! name) →
  sorter_rel poc' sp.
Proof.
  intros Hr Hst Hts.
  assert (∀ name ti', tiers poc' !! name = Some ti' → ∃ ti, tiers poc !! name = Some ti ∧ (ti' = filled ti ∨ ti' = ti)) as Hinv.
  { intros name ti' Hti'. destruct (Hts name) as [Heq|Heq]; rewrite Heq in Hti'; [|by exists ti'; auto].
    apply fmap_Some in Hti' as (ti & Hti & ->). exists ti. auto. }
  assert (∀ name, is_Some (tiers poc' !! name) ↔ is_Some (tiers poc !! name)) as Hdom.
  { intros name. destruct (Hts name) as [-> | ->]; [apply fmap_is_Some|done]. }
  destruct (sr_sorted _ _ Hr) as (Hwf & Hn & Helem). split.
  - intros name ti' Hti'. destruct (Hinv name ti' Hti') as (ti & Hti & [-> | ->]); destruct (sr_tier _ _ Hr _ _ Hti); by split.
  - intros name. rewrite Hdom. apply Hr.
  - rewrite Hst. split_and!; [done| |].
    + intros name ti' Hti'. destruct (Hinv name ti' Hti') as (ti & Hti & [-> | ->]); by apply Hn in Hti.
    + intros tk. rewrite Helem. split.
      * intros (ti & Hti & ->). destruct (Hts (ti_Name ti)) as [Heq|Heq]; simpl in *; rewrite Hti in Heq.
        -- by exists (filled ti).
        -- by exists ti.
      * intros (ti' & Hti' & ->). destruct (Hinv _ ti' Hti') as (ti & Hti & [-> | ->]); by exists ti.
  - apply Hr.
Qed.

Lemma Sorted_rel poc sp :
  sorter_rel poc sp → ∃ poc' tis, PolicySorter.Sorted poc = Ret (poc', tis) ∧ sorter_rel poc' sp ∧ sorted_raw sp tis.
Proof.
  intros Hr. destruct (sr_sorted _ _ Hr) as (Hwf & Hn & Helem).
  pose proof (bt_Ascend_sorted _ Hwf) as Hsort. set (keys := bt_Ascend (sortedTiers poc)) in *.
  assert (∀ tk, tk ∈ keys → ∃ ti, tiers poc !! tk_Name tk = Some ti ∧ tk = tierKey ti) as Hall by (intros tk; apply Helem).
  destruct (sortedLoop_spec keys poc []) as (poc' & Heq & Hst & Hts).
  { apply NoDup_fmap_2_strong; [|by apply (strictly_sorted_NoDup TierLess)]. intros tk1 tk2 Hin1 Hin2 Hne.
    destruct (Hall tk1 Hin1) as (ti1 & Hti1 & ->), (Hall tk2 Hin2) as (ti2 & Hti2 & ->). congruence. }
  { intros tk Hin. destruct (Hall tk Hin) as (ti & -> & _). done. }
  set (tis := omap _ keys) in *.
  assert (∀ ti', ti' ∈ tis → ∃ ti, tiers poc !! ti_Name ti' = Some ti ∧ ti' = filled ti) as Htis.
  { intros ti' (tk & Hin & Hf)%list_elem_of_omap. destruct (Hall tk Hin) as (ti & Hti & ->). rewrite Hti in Hf.
    injection Hf as <-. exists ti. done. }
  exists poc', tis. split_and!; [exact Heq| |].
  { apply (sorter_rel_filled poc); [done|done|]. intros name. rewrite Hts. case_decide; auto. }
  split.
  - unfold tis. by rewrite filled_keys.
  - intros name. rewrite <-(sr_dom _ _ Hr), list_elem_of_fmap. split.
    + intros (ti' & -> & Hin). destruct (Htis ti' Hin) as (ti & -> & _). done.
    + intros [ti Hti]. exists (filled ti). split; [by rewrite <-(Hn _ _ Hti)|]. apply list_elem_of_omap.
      exists (tierKey ti). pose proof (Hn _ _ Hti) as Hnm. simpl. rewrite Hnm, Hti. split; [|done].
      apply Helem. exists ti. simpl. by rewrite Hnm.
  - intros ti' Hin. destruct (Htis ti' Hin) as (ti & Hti & ->). apply (sr_tier _ _ Hr _ _ Hti).
  - intros ti' Hin. destruct (Htis ti' Hin) as (ti & Hti & ->). simpl. apply bt_Ascend_sorted.
    apply (sr_tier _ _ Hr _ _ Hti).
  - intros ti' kv Hin. destruct (Htis ti' Hin) as (ti & Hti & ->). simpl in *.
    destruct (sr_tier _ _ Hr _ _ Hti) as [_ Hp (_ & _ & Ht) _]. by rewrite Ht, Hp.
Qed.

(** *** The order is determined by the datastore *)
Definition shape ti : string * bool * option float64 * option string * list PolKV :=
  (ti_Name ti, ti_Valid ti, deref <$> ti_Order ti,
   if ti_Valid ti then Some (ti_DefaultAction ti) else None, ti_OrderedPolicies ti).

Definition rank_of sp (name : string) : bool * option float64 :=
  match s_tiers sp !! name with Some (o, _) => (true, o) | None => (false, None) end.
Definition name_less sp (n1 n2 : string) : bool :=
  if decide (rank_of sp n1 = rank_of sp n2) then String.ltb n1 n2 else tierRank_lt (rank_of sp n1) (rank_of sp n2).

#[local] Instance name_less_StrictWeak sp : StrictWeak (name_less sp).
Proof using Type. by apply (lexicographic_StrictWeak (rank_of sp) id tierRank_lt String.ltb). Qed.

Lemma tier_info_rank sp ti : tier_info_rel sp (ti_Name ti) ti → tierRank (tierKey ti) = rank_of sp (ti_Name ti).
Proof using Type.
  unfold tier_info_rel, tierRank, rank_of. simpl. destruct (s_tiers sp !! ti_Name ti) as [[o a]|].
  - by intros (-> & -> & _).
  - by intros (-> & ->).
Qed.

Lemma sorted_raw_names sp tis :
  sorted_raw sp tis → StronglySorted (λ x y, name_less sp x y = true) (ti_Name <$> tis).
Proof using Type.
  intros [Hs _ Hi _ _]. revert Hs Hi. induction tis as [|ti tis IH]; intros Hs Hi; [constructor|].
  change (tierKey <$> ti :: tis) with (tierKey ti :: (tierKey <$> tis)) in Hs.
  change (ti_Name <$> ti :: tis) with (ti_Name ti :: (ti_Name <$> tis)).
  apply sorted_cons in Hs as [Hlt Hs]. apply sorted_cons. split.
  - intros n (ti' & -> & Hin)%list_elem_of_fmap. assert (TierLess (tierKey ti) (tierKey ti') = true) as Hl.
    { apply Hlt. apply list_elem_of_fmap. by exists ti'. }
    rewrite TierLess_lexicographic in Hl. rewrite !(tier_info_rank sp) in Hl by (apply Hi; (by left) || (by right)). exact Hl.
  - apply IH; [done|]. intros ti' Hin. apply Hi. by right.
Qed.

Lemma name_less_before sp n1 n2 : name_less sp n1 n2 = true → tier_before sp n1 n2.
Proof using Type.
  unfold name_less, rank_of, tier_before. destruct (s_tiers sp !! n1) as [[o1 a1]|], (s_tiers sp !! n2) as [[o2 a2]|]; cycle 1.
  { intros _. by destruct o1. }
  { rewrite decide_False by done. by destruct o2. }
  { by rewrite decide_True. }
  destruct (decide _) as [[= ->]|Hne]; [by destruct o2; [right|]|]. destruct o1, o2; cbn; try done. rewrite float64_lt_before. by left.
Qed.

(** What [Sorted] returns for a datastore. *)
Record sorted_ok sp (tis : list TierInfo) : Prop := {
  sok_tiers : StronglySorted (tier_before sp) (ti_Name <$> tis);
  sok_names name : name ∈ ti_Name <$> tis ↔ wanted sp name;
  sok_info ti : ti ∈ tis → tier_info_rel sp (ti_Name ti) ti;
  sok_order ti : ti ∈ tis → StronglySorted policy_before (ti_OrderedPolicies ti);
  sok_pols ti kv : ti ∈ tis →
    kv ∈ ti_OrderedPolicies ti ↔ s_pols sp !! kv_Key kv = Some (kv_Value kv) ∧ m_Tier (kv_Value kv) = ti_Name ti
}.

Lemma sorted_raw_ok sp tis : sorted_raw sp tis → sorted_ok sp tis.
Proof using Type.
  intros Hs. split; [|apply Hs|apply Hs| |apply Hs].
  - eapply StronglySorted_weaken; [|by apply sorted_raw_names]. intros n1 n2. apply name_less_before.
  - intros ti Hti. eapply StronglySorted_weaken; [|by apply (so_sorted _ _ Hs)]. intros x y. apply PolKVLess_before.
Qed.

Lemma sorted_raw_shape sp tis1 tis2 ti1 ti2 :
  sorted_raw sp tis1 → sorted_raw sp tis2 → ti1 ∈ tis1 → ti2 ∈ tis2 → ti_Name ti1 = ti_Name ti2 → shape ti1 = shape ti2.
Proof using Type.
  intros H1' H2' Hin1 Hin2 Hn. unfold shape.
  assert (ti_OrderedPolicies ti1 = ti_OrderedPolicies ti2) as ->.
  { apply (sorted_unique PolKVLess); [by apply (so_sorted _ _ H1')|by apply (so_sorted _ _ H2')|].
    intros kv. rewrite (so_pols _ _ H1') by done. rewrite (so_pols _ _ H2') by done. by rewrite Hn. }
  pose proof (so_info _ _ H1' _ Hin1) as Hi1. pose proof (so_info _ _ H2' _ Hin2) as Hi2.
  unfold tier_info_rel in *. rewrite Hn in *. destruct (s_tiers sp !! ti_Name ti2) as [[o a]|].
  - destruct Hi1 as (-> & -> & ->), Hi2 as (-> & -> & ->). done.
  - destruct Hi1 as (-> & ->), Hi2 as (-> & ->). done.
Qed.

Lemma sorted_raw_unique sp tis1 tis2 : sorted_raw sp tis1 → sorted_raw sp tis2 → shape <$> tis1 = shape <$> tis2.
Proof using Type.
  intros H1' H2'. assert (ti_Name <$> tis1 = ti_Name <$> tis2) as Hnames.
  { apply (sorted_unique (name_less sp)); [by apply sorted_raw_names..|]. intros n.
    by rewrite (so_names _ _ H1'), (so_names _ _ H2'). }
  assert (length tis1 = length tis2) as Hlen.
  { pose proof (f_equal length Hnames) as Hl. by rewrite !length_fmap in Hl. }
  apply list_eq. intros i. rewrite !list_lookup_fmap.
  pose proof (f_equal (lookup i) Hnames) as Hi. rewrite !list_lookup_fmap in Hi.
  destruct (tis1 !! i) as [ti1|] eqn:E1, (tis2 !! i) as [ti2|] eqn:E2; try done. simpl in *. f_equal.
  apply (sorted_raw_shape sp tis1 tis2); try done; [by eapply list_elem_of_lookup_2..|congruence].
Qed.
End relation.

(** ** Sequences of updates *)
Section runs.
Context {PT TT : Type} `{OrderedSetLaws PolKV PT PolKVLess} `{OrderedSetLaws tierInfoKey TT TierLess}.
Context (heap : positive → float64).
Context (enumerate : gmap string (TierInfo (PT := PT)) → list (string * TierInfo (PT := PT))).

Definition sorter_run (us : list SorterUpdate) : PolicySorter (PT := PT) (TT := TT) :=
  foldl (λ poc u, fst (OnUpdate enumerate u poc)) NewPolicySorter us.
Definition datastore_of (us : list SorterUpdate) : datastore := foldl spec_update (MkDatastore ∅ ∅) us.

(** Pointers to orders read the heap; policy names contain no slash. *)
Definition update_ok (u : SorterUpdate) : Prop :=
  match u with
  | TierUpdate _ (Some t) => ptr_ok heap (tier_Order t)
  | TierUpdate _ None => True
  | PolicyUpdate k _ => pkey_wf k
  end.

Context (Henum : ∀ ts, enumerate ts ≡ₚ map_to_list ts).

Lemma OnUpdate_rel poc sp u :
  sorter_rel heap poc sp → update_ok u → sorter_rel heap (fst (OnUpdate enumerate u poc)) (spec_update sp u).
Proof using All.
  intros Hr Hu. destruct u as [name [t|]|k v]; simpl.
  - by apply OnTierUpdate_put_rel.
  - by apply OnTierUpdate_del_rel.
  - pose proof (UpdatePolicy_rel heap enumerate Henum poc sp k (ExtractPolicyMetadata <$> v) Hr Hu) as Hup.
    destruct (UpdatePolicy enumerate k (ExtractPolicyMetadata <$> v) poc) as [poc' d]. destruct Hup as [Hup _].
    destruct v; [|done]. cbn in *. by rewrite <- ExtractPolicyMetadata_spec.
Qed.

Lemma sorter_run_rel us : Forall update_ok us → sorter_rel heap (sorter_run us) (datastore_of us).
Proof using All.
  unfold sorter_run, datastore_of. assert (sorter_rel heap (NewPolicySorter (PT := PT) (TT := TT)) (MkDatastore ∅ ∅)) as Hr
    by apply sorter_rel_new.
  revert Hr. generalize (NewPolicySorter (PT := PT) (TT := TT)) (MkDatastore ∅ ∅).
  induction us as [|u us IH]; intros poc sp Hr Hall; [done|]. apply list.Forall_cons in Hall as [Hu Hall].
  cbn [foldl]. apply IH; [by apply OnUpdate_rel|done].
Qed.
End runs.

(** C17: the policy order is right after any sequence of tier and policy updates and
    deletions, in any order (policies before their tier, tiers deleted under their
    policies, policies moving between tiers): [Sorted] does not panic; it returns exactly
    the tiers that exist or still have policies, valid ones first, then by order (no
    order last) and name; each tier has its current order and default action, and
    exactly the policies of the datastore with that tier, by order and then name. *)
Theorem Sorted_correct {PT TT} `{OrderedSetLaws PolKV PT PolKVLess} `{OrderedSetLaws tierInfoKey TT TierLess}
    heap (enumerate : gmap string (TierInfo (PT := PT)) → list (string * TierInfo (PT := PT))) us :
  (∀ ts, enumerate ts ≡ₚ map_to_list ts) → Forall (update_ok heap) us →
  ∃ poc' tis, PolicySorter.Sorted (sorter_run (TT := TT) enumerate us) = Ret (poc', tis) ∧
    sorted_ok (datastore_of us) tis.
Proof.
  intros Henum Hus. destruct (Sorted_rel heap _ _ (sorter_run_rel heap enumerate Henum us Hus)) as (poc' & tis & Heq & _ & Hok).
  exists poc', tis. split; [done|by apply sorted_raw_ok].
Qed.

(** The policy order depends on the contents of the datastore only: two histories of
    updates with the same final contents give the same tiers (with their validity, order
    and, for the valid ones, default action) and the same policies in the same order. *)
Theorem Sorted_history_independent {PT TT} `{OrderedSetLaws PolKV PT PolKVLess} `{OrderedSetLaws tierInfoKey TT TierLess}
    heap (enumerate : gmap string (TierInfo (PT := PT)) → list (string * TierInfo (PT := PT))) us1 us2 :
  (∀ ts, enumerate ts ≡ₚ map_to_list ts) → Forall (update_ok heap) us1 → Forall (update_ok heap) us2 →
  datastore_of us1 = datastore_of us2 →
  ∃ poc1 tis1 poc2 tis2, PolicySorter.Sorted (sorter_run (TT := TT) enumerate us1) = Ret (poc1, tis1) ∧
    PolicySorter.Sorted (sorter_run (TT := TT) enumerate us2) = Ret (poc2, tis2) ∧ shape <$> tis1 = shape <$> tis2.
Proof.
  intros Henum H1' H2' Heq.
  destruct (Sorted_rel heap _ _ (sorter_run_rel heap enumerate Henum us1 H1')) as (poc1 & tis1 & Hs1 & _ & Hok1).
  destruct (Sorted_rel heap _ _ (sorter_run_rel heap enumerate Henum us2 H2')) as (poc2 & tis2 & Hs2 & _ & Hok2).
  exists poc1, tis1, poc2, tis2. split_and!; [done|done|]. rewrite Heq in Hok1. by apply (sorted_raw_unique (datastore_of us2)).
Qed.

(** A policy update is reported as dirty exactly when it changes what the sorter
    knows of the policy: its tier, order or flags, or whether it exists. *)
Theorem policy_dirty_exact {PT TT} `{OrderedSetLaws PolKV PT PolKVLess} `{OrderedSetLaws tierInfoKey TT TierLess}
    heap (enumerate : gmap string (TierInfo (PT := PT)) → list (string * TierInfo (PT := PT))) us k value :
  (∀ ts, enumerate ts ≡ₚ map_to_list ts) → Forall (update_ok heap) us → pkey_wf k →
  snd (OnUpdate enumerate (PolicyUpdate k value) (sorter_run (TT := TT) enumerate us)) =
  negb (bool_decide (s_pols (datastore_of us) !! k = metadata_of <$> value)).
Proof.
  intros Henum Hus Hk. pose proof (sorter_run_rel heap enumerate Henum us Hus (TT := TT)) as Hr. simpl.
  pose proof (UpdatePolicy_rel heap enumerate Henum _ _ k (ExtractPolicyMetadata <$> value) Hr Hk) as Hup.
  destruct (UpdatePolicy enumerate k _ _) as [poc' d]. destruct Hup as [_ ->]. destruct value; cbn; by rewrite ?ExtractPolicyMetadata_spec.
Qed.

(** ** Examples *)
Definition list_enumerate (ts : gmap string (TierInfo (PT := list PolKV))) : list (string * TierInfo (PT := list PolKV)) :=
  map_to_list ts.

Lemma list_enumerate_perm ts : list_enumerate ts ≡ₚ map_to_list ts.
Proof. done. Qed.

Definition example_policy (tier : string) (order : option Z) : Policy :=
  MkPolicy "" tier ((λ z, Finite (Q2Qc (inject_Z z))) <$> order) false false false ["Ingress"] "has(b)" [] [] [].
Definition example_key (name : string) : PolicyKey := MkPolicyKey name "ns" "NetworkPolicy".
Definition example_heap (a : positive) : float64 := Finite (Q2Qc (inject_Z (Z.pos a))).
Definition example_ptr (a : positive) : float64ptr := MkPtr a (example_heap a).

Definition example_updates : list SorterUpdate :=
  [PolicyUpdate (example_key "b") (Some (example_policy "t" (Some 10%Z)));
   PolicyUpdate (example_key "a") (Some (example_policy "t" None));
   TierUpdate "t" (Some (MkTier (Some (example_ptr 5)) "Deny"));
   TierUpdate "s" (Some (MkTier None "Pass"));
   PolicyUpdate (example_key "a") (Some (example_policy "s" (Some 1%Z)))].

Definition example_updates' : list SorterUpdate :=
  [TierUpdate "s" (Some (MkTier None "Pass"));
   TierUpdate "t" (Some (MkTier (Some (example_ptr 5)) "Deny"));
   PolicyUpdate (example_key "a") (Some (example_policy "s" (Some 1%Z)));
   PolicyUpdate (example_key "b") (Some (example_policy "t" (Some 10%Z)))].

Lemma example_updates_ok : Forall (update_ok example_heap) example_updates ∧ Forall (update_ok example_heap) example_updates'.
Proof.
  split; repeat (apply Forall_cons_2; [first [split; reflexivity|by intros p [= <-]|done]|]); constructor.
Qed.

Lemma Sorted_correct_witness :
  ∃ poc' tis, PolicySorter.Sorted (sorter_run (TT := list tierInfoKey) list_enumerate example_updates) = Ret (poc', tis) ∧
    sorted_ok (datastore_of example_updates) tis.
Proof.
  exact (Sorted_correct example_heap list_enumerate example_updates list_enumerate_perm (proj1 example_updates_ok)).
Defined.

Lemma Sorted_history_independent_witness :
  ∃ poc1 tis1 poc2 tis2,
    PolicySorter.Sorted (sorter_run (TT := list tierInfoKey) list_enumerate example_updates) = Ret (poc1, tis1) ∧
    PolicySorter.Sorted (sorter_run (TT := list tierInfoKey) list_enumerate example_updates') = Ret (poc2, tis2) ∧
    shape <$> tis1 = shape <$> tis2.
Proof.
  apply (Sorted_history_independent example_heap list_enumerate example_updates example_updates' list_enumerate_perm
    (proj1 example_updates_ok) (proj2 example_updates_ok)).
  vm_compute. reflexivity.
Defined.

Lemma policy_dirty_exact_witness :
  snd (OnUpdate list_enumerate (PolicyUpdate (example_key "b") None)
         (sorter_run (TT := list tierInfoKey) list_enumerate example_updates)) = true.
Proof.
  etransitivity; [apply (policy_dirty_exact example_heap list_enumerate example_updates (example_key "b") None
    list_enumerate_perm (proj1 example_updates_ok)); split; reflexivity|]. vm_compute. reflexivity.
Defined.

(** A tier update can change the order without being reported as dirty: when a tier
    without an order is deleted while it has policies and then created again with the
    same default action, its validity changes, and with it what [Sorted] returns, but
    [OnUpdate] answers that nothing changed. *)
Theorem tier_update_not_dirty :
  ∃ us u, Forall (update_ok example_heap) (us ++ [u]) ∧
    let before := sorter_run (PT := list PolKV) (TT := list tierInfoKey) list_enumerate us in
    let '(after, dirty) := OnUpdate list_enumerate u before in
    dirty = false ∧
    ∃ poc1 tis1 poc2 tis2, PolicySorter.Sorted before = Ret (poc1, tis1) ∧ PolicySorter.Sorted after = Ret (poc2, tis2) ∧
      shape <$> tis1 ≠ shape <$> tis2.
Proof.
  exists [PolicyUpdate (example_key "a") (Some (example_policy "t" None)); TierUpdate "t" (Some (MkTier None "Pass"));
          TierUpdate "t" None], (TierUpdate "t" (Some (MkTier None "Pass"))). split.
  { repeat (apply Forall_cons_2; [first [split; reflexivity|done]|]); constructor. }
  cbv zeta. vm_compute (OnUpdate _ _ _). split; [done|].
  eexists _, _, _, _. split_and!; [vm_compute; reflexivity|vm_compute; reflexivity|]. vm_compute. congruence.
Qed.
