(* ===== verification/PolicyResolver.v ===== *)
(** * The policy resolver: [felix/calc/policy_resolver.go]

    The resolver keeps which policies match which local endpoints, feeds the policies
    that match something to the policy sorter, and on [Flush] sends every dirty
    endpoint its tiers with the policies that match it, in order.  The callbacks are
    the list of updates that [Flush] returns.  Endpoint keys and values, computed data
    and BGP peer data are parameters: the resolver only stores and forwards them. *)
From S2P Require Import Prelude.
From S2P Require Import ModelRule.
From S2P Require Import Multidict.
From S2P Require Import PolicySorter.
From S2P Require Import PolicySorterSpec.
From stdpp Require Import base list gmap strings numbers.
From stdpp Require Import options.

Section resolver.
Context {PT TT : Type} `{OrderedSet PolKV PT PolKVLess} `{OrderedSet tierInfoKey TT TierLess}.
Context `{Countable EndpointKey} {Endpoint : Type} (isWorkload : EndpointKey → bool).
Context `{Countable ComputedDataKind} {ComputedData PeerData : Type} (PeerData_Empty : PeerData → bool).
(** The enumeration orders of Go maps and sets. *)
Context (enumerate : gmap string (TierInfo (PT := PT)) → list (string * TierInfo (PT := PT))).
Context (enumerateKeys : gset PolicyKey → list PolicyKey) (enumerateEndpoints : gset EndpointKey → list EndpointKey).
Context (enumerateData : gmap ComputedDataKind ComputedData → list (ComputedDataKind * ComputedData)).

Record PolicyResolver := MkPolicyResolver {
  policyIDToEndpointIDs : gmap PolicyKey (gset EndpointKey);
  endpointIDToPolicyIDs : gmap EndpointKey (gset PolicyKey);
  allPolicies : gmap PolicyKey policyMetadata;
  sortedTierData : list (TierInfo (PT := PT));
  endpoints : gmap EndpointKey Endpoint;
  dirtyEndpoints : gset EndpointKey;
  endpointComputedData : gmap EndpointKey (gmap ComputedDataKind ComputedData);
  policySorter : PolicySorter (PT := PT) (TT := TT);
  InitialSyncCompleted : bool;
  endpointBGPPeerData : gmap EndpointKey PeerData;
  pendingPolicyUpdates : gset PolicyKey
}.

Definition NewPolicyResolver : PolicyResolver :=
  MkPolicyResolver ∅ ∅ ∅ [] ∅ ∅ ∅ NewPolicySorter false ∅ ∅.

Definition set_matches (f : gmap PolicyKey (gset EndpointKey) → gmap PolicyKey (gset EndpointKey))
    (g : gmap EndpointKey (gset PolicyKey) → gmap EndpointKey (gset PolicyKey)) (pr : PolicyResolver) :=
  MkPolicyResolver (f (policyIDToEndpointIDs pr)) (g (endpointIDToPolicyIDs pr)) (allPolicies pr) (sortedTierData pr)
    (endpoints pr) (dirtyEndpoints pr) (endpointComputedData pr) (policySorter pr) (InitialSyncCompleted pr)
    (endpointBGPPeerData pr) (pendingPolicyUpdates pr).
Definition set_allPolicies (f : gmap PolicyKey policyMetadata → gmap PolicyKey policyMetadata) (pr : PolicyResolver) :=
  MkPolicyResolver (policyIDToEndpointIDs pr) (endpointIDToPolicyIDs pr) (f (allPolicies pr)) (sortedTierData pr)
    (endpoints pr) (dirtyEndpoints pr) (endpointComputedData pr) (policySorter pr) (InitialSyncCompleted pr)
    (endpointBGPPeerData pr) (pendingPolicyUpdates pr).
Definition set_sortedTierData (l : list TierInfo) (pr : PolicyResolver) :=
  MkPolicyResolver (policyIDToEndpointIDs pr) (endpointIDToPolicyIDs pr) (allPolicies pr) l
    (endpoints pr) (dirtyEndpoints pr) (endpointComputedData pr) (policySorter pr) (InitialSyncCompleted pr)
    (endpointBGPPeerData pr) (pendingPolicyUpdates pr).
Definition set_endpoints (f : gmap EndpointKey Endpoint → gmap EndpointKey Endpoint) (pr : PolicyResolver) :=
  MkPolicyResolver (policyIDToEndpointIDs pr) (endpointIDToPolicyIDs pr) (allPolicies pr) (sortedTierData pr)
    (f (endpoints pr)) (dirtyEndpoints pr) (endpointComputedData pr) (policySorter pr) (InitialSyncCompleted pr)
    (endpointBGPPeerData pr) (pendingPolicyUpdates pr).
Definition set_dirtyEndpoints (f : gset EndpointKey → gset EndpointKey) (pr : PolicyResolver) :=
  MkPolicyResolver (policyIDToEndpointIDs pr) (endpointIDToPolicyIDs pr) (allPolicies pr) (sortedTierData pr)
    (endpoints pr) (f (dirtyEndpoints pr)) (endpointComputedData pr) (policySorter pr) (InitialSyncCompleted pr)
    (endpointBGPPeerData pr) (pendingPolicyUpdates pr).
Definition set_endpointComputedData (f : gmap EndpointKey (gmap ComputedDataKind ComputedData) →
    gmap EndpointKey (gmap ComputedDataKind ComputedData)) (pr : PolicyResolver) :=
  MkPolicyResolver (policyIDToEndpointIDs pr) (endpointIDToPolicyIDs pr) (allPolicies pr) (sortedTierData pr)
    (endpoints pr) (dirtyEndpoints pr) (f (endpointComputedData pr)) (policySorter pr) (InitialSyncCompleted pr)
    (endpointBGPPeerData pr) (pendingPolicyUpdates pr).
Definition set_policySorter (f : PolicySorter → PolicySorter (PT := PT) (TT := TT)) (pr : PolicyResolver) :=
  MkPolicyResolver (policyIDToEndpointIDs pr) (endpointIDToPolicyIDs pr) (allPolicies pr) (sortedTierData pr)
    (endpoints pr) (dirtyEndpoints pr) (endpointComputedData pr) (f (policySorter pr)) (InitialSyncCompleted pr)
    (endpointBGPPeerData pr) (pendingPolicyUpdates pr).
Definition set_InitialSyncCompleted (b : bool) (pr : PolicyResolver) :=
  MkPolicyResolver (policyIDToEndpointIDs pr) (endpointIDToPolicyIDs pr) (allPolicies pr) (sortedTierData pr)
    (endpoints pr) (dirtyEndpoints pr) (endpointComputedData pr) (policySorter pr) b
    (endpointBGPPeerData pr) (pendingPolicyUpdates pr).
Definition set_endpointBGPPeerData (f : gmap EndpointKey PeerData → gmap EndpointKey PeerData) (pr : PolicyResolver) :=
  MkPolicyResolver (policyIDToEndpointIDs pr) (endpointIDToPolicyIDs pr) (allPolicies pr) (sortedTierData pr)
    (endpoints pr) (dirtyEndpoints pr) (endpointComputedData pr) (policySorter pr) (InitialSyncCompleted pr)
    (f (endpointBGPPeerData pr)) (pendingPolicyUpdates pr).
Definition set_pendingPolicyUpdates (f : gset PolicyKey → gset PolicyKey) (pr : PolicyResolver) :=
  MkPolicyResolver (policyIDToEndpointIDs pr) (endpointIDToPolicyIDs pr) (allPolicies pr) (sortedTierData pr)
    (endpoints pr) (dirtyEndpoints pr) (endpointComputedData pr) (policySorter pr) (InitialSyncCompleted pr)
    (endpointBGPPeerData pr) (f (pendingPolicyUpdates pr)).

Definition markAllEndpointsDirty (pr : PolicyResolver) : PolicyResolver :=
  set_dirtyEndpoints (λ d, Multidict.IterKeys (endpointIDToPolicyIDs pr) ∪ d) pr.

Definition markEndpointsMatchingPolicyDirty (polKey : PolicyKey) (pr : PolicyResolver) : PolicyResolver :=
  set_dirtyEndpoints (λ d, Multidict.Iter (policyIDToEndpointIDs pr) polKey ∪ d) pr.

(** [OnUpdate], by the type of the key. *)
Definition OnEndpointUpdate (key : EndpointKey) (value : option Endpoint) (pr : PolicyResolver) : PolicyResolver :=
  let pr1 :=
    match value with
    | Some ep => set_endpoints <[key := ep]> pr
    | None =>
        let pr0 := set_endpoints (delete key) pr in
        if isWorkload key then set_endpointComputedData (delete key) pr0 else pr0
    end in
  set_dirtyEndpoints (λ d, {[key]} ∪ d) pr1.

Definition OnPolicyUpdate (key : PolicyKey) (value : option Policy) (pr : PolicyResolver) : PolicyResolver :=
  let pr1 :=
    match value with
    | None => set_pendingPolicyUpdates (λ s, s ∖ {[key]}) (set_allPolicies (delete key) pr)
    | Some policy => set_allPolicies <[key := ExtractPolicyMetadata policy]> pr
    end in
  if negb (Multidict.ContainsKey (policyIDToEndpointIDs pr1) key) then pr1
  else
    let '(sorter, policiesDirty) := OnUpdate enumerate (PolicyUpdate key value) (policySorter pr1) in
    let pr2 := set_policySorter (λ _, sorter) pr1 in
    if (policiesDirty : bool) then markEndpointsMatchingPolicyDirty key pr2 else pr2.

Definition OnTierUpdate (name : string) (value : option Tier) (pr : PolicyResolver) : PolicyResolver :=
  markAllEndpointsDirty
    (set_policySorter (λ s, fst (OnUpdate enumerate (TierUpdate name value) s)) pr).

Definition OnDatamodelStatus (inSync : bool) (pr : PolicyResolver) : PolicyResolver :=
  if inSync && negb (InitialSyncCompleted pr) then set_InitialSyncCompleted true pr else pr.

Definition OnPolicyMatch (policyKey : PolicyKey) (endpointKey : EndpointKey) (pr : PolicyResolver) : PolicyResolver :=
  let pr1 := if negb (HasPolicy enumerate (policySorter pr) policyKey)
             then set_pendingPolicyUpdates (λ s, {[policyKey]} ∪ s) pr else pr in
  set_dirtyEndpoints (λ d, {[endpointKey]} ∪ d)
    (set_matches (Multidict.Put policyKey endpointKey) (Multidict.Put endpointKey policyKey) pr1).

Definition OnPolicyMatchStopped (policyKey : PolicyKey) (endpointKey : EndpointKey) (pr : PolicyResolver)
    : PolicyResolver :=
  let pr1 := set_matches (Multidict.Discard policyKey endpointKey) (Multidict.Discard endpointKey policyKey) pr in
  let pr2 := if negb (Multidict.ContainsKey (policyIDToEndpointIDs pr1) policyKey)
             then set_policySorter (λ s, fst (UpdatePolicy enumerate policyKey None s)) pr1 else pr1 in
  set_dirtyEndpoints (λ d, {[endpointKey]} ∪ d) pr2.

(** What a callback receives. *)
Record TierUpdateEvent := MkEvent {
  ev_key : EndpointKey;
  ev_endpoint : option Endpoint;
  ev_computed : list ComputedData;
  ev_peer : option PeerData;
  ev_tiers : list (TierInfo (PT := PT))
}.

(** The filtered tier has no [Policies] and no tree ([bt_new] stands for nil). *)
Definition filterTier (endpointID : EndpointKey) (pr : PolicyResolver) (tier : TierInfo (PT := PT))
    : option (TierInfo (PT := PT)) :=
  let ordered := List.filter (λ polKV, Multidict.Contains (endpointIDToPolicyIDs pr) endpointID (kv_Key polKV))
                   (ti_OrderedPolicies tier) in
  if decide (ordered = []) then None
  else Some (MkTierInfo (ti_Name tier) true (ti_Order tier) (ti_DefaultAction tier) ∅ bt_new ordered).

Definition sendEndpointUpdate (pr : PolicyResolver) (endpointID : EndpointKey) : TierUpdateEvent :=
  match endpoints pr !! endpointID with
  | None => MkEvent endpointID None [] None []
  | Some endpoint =>
      MkEvent endpointID (Some endpoint)
        (if isWorkload endpointID
         then map snd (enumerateData (default ∅ (endpointComputedData pr !! endpointID))) else [])
        (if isWorkload endpointID then
           match endpointBGPPeerData pr !! endpointID with
           | Some data => if PeerData_Empty data then None else Some data
           | None => None
           end
         else None)
        (omap (filterTier endpointID pr) (sortedTierData pr))
  end.

(** The loop over the pending policies; one without metadata stays pending. *)
Definition resolvePending (pr : PolicyResolver) (polKey : PolicyKey) : PolicyResolver :=
  match allPolicies pr !! polKey with
  | None => pr
  | Some policy =>
      set_pendingPolicyUpdates (λ s, s ∖ {[polKey]})
        (set_policySorter (λ s, fst (UpdatePolicy enumerate polKey (Some policy) s)) pr)
  end.

Definition Flush (pr : PolicyResolver) : outcome Empty_set (PolicyResolver * list TierUpdateEvent) :=
  if negb (InitialSyncCompleted pr) then Ret (pr, [])
  else
    let pr1 := foldl resolvePending pr (enumerateKeys (pendingPolicyUpdates pr)) in
    let! (sorter, sorted) := PolicySorter.Sorted (policySorter pr1) in
    let pr2 := set_sortedTierData sorted (set_policySorter (λ _, sorter) pr1) in
    Ret (set_dirtyEndpoints (λ _, ∅) pr2, map (sendEndpointUpdate pr2) (enumerateEndpoints (dirtyEndpoints pr2))).

(** *** Data that is forwarded *)
Definition OnEndpointComputedDataUpdate (key : EndpointKey) (kind : ComputedDataKind) (computedData : option ComputedData)
    (pr : PolicyResolver) : PolicyResolver :=
  match endpointComputedData pr !! key, computedData with
  | None, None => pr
  | existing, _ =>
      let epComputedData := default ∅ existing in
      match computedData, epComputedData !! kind with
      | None, None => pr
      | Some data, _ =>
          set_dirtyEndpoints (λ d, {[key]} ∪ d)
            (set_endpointComputedData <[key := <[kind := data]> epComputedData]> pr)
      | None, Some _ =>
          let rest := delete kind epComputedData in
          set_dirtyEndpoints (λ d, {[key]} ∪ d)
            (set_endpointComputedData (if decide (size rest = 0) then delete key else <[key := rest]>) pr)
      end
  end.

Definition OnEndpointBGPPeerDataUpdate (key : EndpointKey) (peerData : option PeerData) (pr : PolicyResolver)
    : PolicyResolver :=
  set_dirtyEndpoints (λ d, {[key]} ∪ d)
    (set_endpointBGPPeerData (match peerData with Some d => <[key := d]> | None => delete key end) pr).
End resolver.
