(* ===== verification/PolicyResolverSpec.v ===== *)
(** * The policy resolver keeps every endpoint up to date

    The abstract state [view] is what the resolver was told: the policies, tiers and
    endpoints of the datastore and which policy matches which endpoint.  [resolver_inv]
    relates it to the resolver's maps, its sorter and its pending set; [log_inv] says
    that the last update sent for an endpoint that is not dirty is still right.  Every
    event preserves both, and a flush that is in sync leaves no endpoint dirty. *)
From S2P Require Import Prelude.
From S2P Require Import ModelRule.
From S2P Require Import Multidict.
From S2P Require Import PolicySorter.
From S2P Require Import PolicySorterSpec.
From S2P Require Import PolicyResolver.
From Stdlib Require Import QArith Qcanon.
From stdpp Require Import base list gmap strings numbers sorting.
From stdpp Require Import options.
#[local] Open Scope nat_scope.

Section spec.
Context {PT TT : Type} `{OrderedSetLaws PolKV PT PolKVLess} `{OrderedSetLaws tierInfoKey TT TierLess}.
Context (heap : positive → float64).
Context `{Countable EndpointKey} {Endpoint : Type} (isWorkload : EndpointKey → bool).
Context `{Countable ComputedDataKind} {ComputedData PeerData : Type} (PeerData_Empty : PeerData → bool).
Context (enumerate : gmap string (TierInfo (PT := PT)) → list (string * TierInfo (PT := PT))).
Context (enumerateKeys : gset PolicyKey → list PolicyKey) (enumerateEndpoints : gset EndpointKey → list EndpointKey).
Context (enumerateData : gmap ComputedDataKind ComputedData → list (ComputedDataKind * ComputedData)).
Abbreviation Resolver := (PolicyResolver (PT := PT) (TT := TT) (EndpointKey := EndpointKey) (Endpoint := Endpoint)
  (ComputedDataKind := ComputedDataKind) (ComputedData := ComputedData) (PeerData := PeerData)).
Abbreviation Event := (TierUpdateEvent (PT := PT) (EndpointKey := EndpointKey) (Endpoint := Endpoint)
  (ComputedData := ComputedData) (PeerData := PeerData)).
Abbreviation TierInfo := (TierInfo (PT := PT)).

(** ** Events *)
Inductive ResolverEvent :=
  | EndpointEvent (key : EndpointKey) (value : option Endpoint)
  | PolicyEvent (key : PolicyKey) (value : option Policy)
  | TierEvent (name : string) (value : option Tier)
  | StatusEvent (inSync : bool)
  | MatchEvent (policyKey : PolicyKey) (endpointKey : EndpointKey)
  | MatchStoppedEvent (policyKey : PolicyKey) (endpointKey : EndpointKey)
  | ComputedDataEvent (key : EndpointKey) (kind : ComputedDataKind) (data : option ComputedData)
  | PeerDataEvent (key : EndpointKey) (data : option PeerData).

Definition resolver_step (ev : ResolverEvent) (pr : Resolver) : Resolver :=
  match ev with
  | EndpointEvent key value => OnEndpointUpdate isWorkload key value pr
  | PolicyEvent key value => OnPolicyUpdate enumerate key value pr
  | TierEvent name value => OnTierUpdate enumerate name value pr
  | StatusEvent inSync => OnDatamodelStatus inSync pr
  | MatchEvent p e => OnPolicyMatch enumerate p e pr
  | MatchStoppedEvent p e => OnPolicyMatchStopped enumerate p e pr
  | ComputedDataEvent key kind data => OnEndpointComputedDataUpdate key kind data pr
  | PeerDataEvent key data => OnEndpointBGPPeerDataUpdate key data pr
  end.

Abbreviation flush := (Flush isWorkload PeerData_Empty enumerate enumerateKeys enumerateEndpoints enumerateData).

(** A batch of events and then a flush, many times; the log has what was sent. *)
Definition batch_step (evs : list ResolverEvent) (st : Resolver * list Event)
    : outcome Empty_set (Resolver * list Event) :=
  let! (pr', sent) := flush (foldl (λ pr ev, resolver_step ev pr) (fst st) evs) in
  Ret (pr', snd st ++ sent).

Fixpoint run_batches (batches : list (list ResolverEvent)) (st : Resolver * list Event)
    : outcome Empty_set (Resolver * list Event) :=
  match batches with
  | [] => Ret st
  | evs :: batches' => let! st' := batch_step evs st in run_batches batches' st'
  end.

(** The last update sent for an endpoint. *)
Definition latest (e : EndpointKey) (log : list Event) : option Event := last (filter (λ ev, ev_key ev = e) log).

(** ** The abstract state *)
Record view := MkView {
  v_match : gset (PolicyKey * EndpointKey);
  v_pols : gmap PolicyKey policyMetadata;
  v_tiers : gmap string (option float64 * string);
  v_endpoints : gmap EndpointKey Endpoint;
  v_computed : gmap EndpointKey (gmap ComputedDataKind ComputedData);
  v_peers : gmap EndpointKey PeerData;
  v_sync : bool
}.

Definition empty_view : view := MkView ∅ ∅ ∅ ∅ ∅ ∅ false.

Definition computed_of (v : view) (e : EndpointKey) : gmap ComputedDataKind ComputedData :=
  default ∅ (v_computed v !! e).

Definition view_step (v : view) (ev : ResolverEvent) : view :=
  let 'MkView ms ps ts es cs ds sync := v in
  match ev with
  | EndpointEvent e (Some x) => MkView ms ps ts (<[e := x]> es) cs ds sync
  | EndpointEvent e None => MkView ms ps ts (delete e es) (if isWorkload e then delete e cs else cs) ds sync
  | PolicyEvent k (Some p) => MkView ms (<[k := metadata_of p]> ps) ts es cs ds sync
  | PolicyEvent k None => MkView ms (delete k ps) ts es cs ds sync
  | TierEvent n (Some t) => MkView ms ps (<[n := (deref <$> tier_Order t, tier_DefaultAction t)]> ts) es cs ds sync
  | TierEvent n None => MkView ms ps (delete n ts) es cs ds sync
  | StatusEvent b => MkView ms ps ts es cs ds (sync || b)
  | MatchEvent p e => MkView ({[(p, e)]} ∪ ms) ps ts es cs ds sync
  | MatchStoppedEvent p e => MkView (ms ∖ {[(p, e)]}) ps ts es cs ds sync
  | ComputedDataEvent e kind (Some x) => MkView ms ps ts es (<[e := <[kind := x]> (computed_of v e)]> cs) ds sync
  | ComputedDataEvent e kind None => MkView ms ps ts es (<[e := delete kind (computed_of v e)]> cs) ds sync
  | PeerDataEvent e (Some x) => MkView ms ps ts es cs (<[e := x]> ds) sync
  | PeerDataEvent e None => MkView ms ps ts es cs (delete e ds) sync
  end.

(** ** What an endpoint must be told *)
Definition policy_for (v : view) (e : EndpointKey) (k : PolicyKey) (m : policyMetadata) : Prop :=
  (k, e) ∈ v_match v ∧ v_pols v !! k = Some m.

Definition tier_data_ok (v : view) (ti : TierInfo) : Prop :=
  match v_tiers v !! ti_Name ti with
  | Some (o, a) => deref <$> ti_Order ti = o ∧ ti_DefaultAction ti = a
  | None => ti_Order ti = None
  end.

(** The tiers with the policies that match, in the order of tiers, each with exactly
    those policies, with their current metadata and in their order. *)
Record tiers_ok (v : view) (e : EndpointKey) (tis : list TierInfo) : Prop := {
  to_sorted : StronglySorted (tier_before (MkDatastore (v_tiers v) ∅)) (ti_Name <$> tis);
  to_names name : name ∈ ti_Name <$> tis ↔ ∃ k m, policy_for v e k m ∧ m_Tier m = name;
  to_data ti : ti ∈ tis → tier_data_ok v ti;
  to_pols_sorted ti : ti ∈ tis → StronglySorted policy_before (ti_OrderedPolicies ti);
  to_pols ti kv : ti ∈ tis →
    kv ∈ ti_OrderedPolicies ti ↔ policy_for v e (kv_Key kv) (kv_Value kv) ∧ m_Tier (kv_Value kv) = ti_Name ti
}.

Definition endpoint_update_ok (v : view) (ev : Event) : Prop :=
  let e := ev_key ev in
  ev_endpoint ev = v_endpoints v !! e ∧
  if v_endpoints v !! e is Some _ then
    tiers_ok v e (ev_tiers ev) ∧
    ev_computed ev ≡ₚ (if isWorkload e then map snd (map_to_list (computed_of v e)) else []) ∧
    ev_peer ev = (if isWorkload e then
                    x ← v_peers v !! e; if PeerData_Empty x then None else Some x
                  else None)
  else ev_tiers ev = [] ∧ ev_computed ev = [] ∧ ev_peer ev = None.

(** ** Invariants *)
Record resolver_inv (pr : Resolver) (v : view) (sp : datastore) : Prop := {
  ri_rel : sorter_rel heap (policySorter pr) sp;
  ri_tiers : s_tiers sp = v_tiers v;
  ri_pols : allPolicies pr = v_pols v;
  ri_match p e : md_in (policyIDToEndpointIDs pr) p e ↔ (p, e) ∈ v_match v;
  ri_match' p e : md_in (endpointIDToPolicyIDs pr) e p ↔ (p, e) ∈ v_match v;
  ri_ok : md_ok (policyIDToEndpointIDs pr);
  ri_ok' : md_ok (endpointIDToPolicyIDs pr);
  ri_sub p m : s_pols sp !! p = Some m → v_pols v !! p = Some m ∧ ∃ e, (p, e) ∈ v_match v;
  ri_pending p : p ∈ pendingPolicyUpdates pr → pkey_wf p ∧ ∃ e, (p, e) ∈ v_match v;
  ri_resolved p e m : policy_for v e p m →
    s_pols sp !! p = Some m ∨ (p ∈ pendingPolicyUpdates pr ∧ e ∈ dirtyEndpoints pr);
  ri_endpoints : endpoints pr = v_endpoints v;
  ri_computed e : default ∅ (endpointComputedData pr !! e) = computed_of v e;
  ri_peers : endpointBGPPeerData pr = v_peers v;
  ri_sync : InitialSyncCompleted pr = v_sync v
}.

Definition log_inv (v : view) (dirty : gset EndpointKey) (log : list Event) : Prop :=
  ∀ e, e ∉ dirty →
    match latest e log with
    | Some ev => endpoint_update_ok v ev
    | None => v_endpoints v !! e = None
    end.

(** Two views that tell an endpoint the same. *)
Record same_for (e : EndpointKey) (v v' : view) : Prop := {
  sf_endpoint : v_endpoints v' !! e = v_endpoints v !! e;
  sf_computed : computed_of v' e = computed_of v e;
  sf_peers : v_peers v' !! e = v_peers v !! e;
  sf_pols k m : policy_for v' e k m ↔ policy_for v e k m;
  sf_tiers : v_tiers v' = v_tiers v ∨ ∀ k m, ¬ policy_for v e k m
}.

(** What the events must satisfy: names without slashes, pointers that read the heap,
    and no policy that loses its last match while it still waits for the flush. *)
Definition event_ok (ev : ResolverEvent) (pr : Resolver) : Prop :=
  match ev with
  | PolicyEvent k _ | MatchEvent k _ => pkey_wf k
  | TierEvent _ (Some t) => ptr_ok heap (tier_Order t)
  | MatchStoppedEvent k e =>
      pkey_wf k ∧ (k ∉ pendingPolicyUpdates pr ∨
                   ∃ e', e' ≠ e ∧ e' ∈ Multidict.Iter (policyIDToEndpointIDs pr) k)
  | _ => True
  end.

Fixpoint events_ok (evs : list ResolverEvent) (pr : Resolver) : Prop :=
  match evs with
  | [] => True
  | ev :: evs' => event_ok ev pr ∧ events_ok evs' (resolver_step ev pr)
  end.

Fixpoint batches_ok (batches : list (list ResolverEvent)) (st : Resolver * list Event) : Prop :=
  match batches with
  | [] => True
  | evs :: batches' =>
      events_ok evs (fst st) ∧ ∀ st', batch_step evs st = Ret st' → batches_ok batches' st'
  end.

(** The same, as a test that can be run. *)
#[local] Instance pkey_wf_dec k : Decision (pkey_wf k).
Proof. unfold pkey_wf, no_slash. apply _. Defined.

Definition event_okb (ev : ResolverEvent) (pr : Resolver) : bool :=
  match ev with
  | PolicyEvent k _ | MatchEvent k _ => bool_decide (pkey_wf k)
  | TierEvent _ (Some t) => match tier_Order t with Some q => bool_decide (deref q = heap (addr q)) | None => true end
  | MatchStoppedEvent k e =>
      bool_decide (pkey_wf k) && (bool_decide (k ∉ pendingPolicyUpdates pr) ||
        bool_decide (Multidict.Iter (policyIDToEndpointIDs pr) k ∖ {[e]} ≠ ∅))
  | _ => true
  end.

Fixpoint events_okb (evs : list ResolverEvent) (pr : Resolver) : bool :=
  match evs with
  | [] => true
  | ev :: evs' => event_okb ev pr && events_okb evs' (resolver_step ev pr)
  end.

Fixpoint batches_okb (batches : list (list ResolverEvent)) (st : Resolver * list Event) : bool :=
  match batches with
  | [] => true
  | evs :: batches' =>
      events_okb evs (fst st) && match batch_step evs st with Ret st' => batches_okb batches' st' | _ => true end
  end.

Lemma event_okb_sound ev pr : event_okb ev pr = true → event_ok ev pr.
Proof.
  destruct ev as [| |? [t|]| | | | |]; simpl; try done; try apply bool_decide_eq_true.
  - intros Ht q Hq. rewrite Hq in Ht. by apply bool_decide_eq_true in Ht.
  - intros [Hk%bool_decide_eq_true [Hb|Hb]%orb_prop]%andb_prop; apply bool_decide_eq_true in Hb; (split; [done|]); [by left|].
    right. apply set_choose_L in Hb as [e [He Hne]%elem_of_difference]. exists e. split; [|done].
    intros ->. by apply Hne, elem_of_singleton.
Qed.

Lemma events_okb_sound evs pr : events_okb evs pr = true → events_ok evs pr.
Proof.
  revert pr. induction evs as [|ev evs IH]; intros pr; simpl; [done|]. intros [Hev Hevs]%andb_prop.
  split; [by apply event_okb_sound|auto].
Qed.

Lemma batches_okb_sound batches st : batches_okb batches st = true → batches_ok batches st.
Proof.
  revert st. induction batches as [|evs batches IH]; intros st; simpl; [done|]. intros [Hevs Hrest]%andb_prop.
  split; [by apply events_okb_sound|]. intros st' Heq. rewrite Heq in Hrest. auto.
Qed.

(** ** Lemmas *)
Context (Henum : ∀ ts, enumerate ts ≡ₚ map_to_list ts) (HenumKeys : ∀ s, enumerateKeys s ≡ₚ elements s).
Context (HenumEndpoints : ∀ s, enumerateEndpoints s ≡ₚ elements s) (HenumData : ∀ m, enumerateData m ≡ₚ map_to_list m).
#[local] Set Default Proof Using "All".
Implicit Types (pr : Resolver) (v : view) (sp : datastore) (log : list Event) (e : EndpointKey) (p k : PolicyKey).

Lemma latest_app e log1 log2 :
  latest e (log1 ++ log2) = match latest e log2 with Some ev => Some ev | None => latest e log1 end.
Proof. unfold latest. rewrite filter_app. apply last_app. Qed.

Lemma latest_Some e log ev : latest e log = Some ev → ev_key ev = e ∧ ev ∈ log.
Proof. intros Hl%last_Some_elem_of. by apply list_elem_of_filter in Hl. Qed.

Lemma latest_None e log : latest e log = None ↔ e ∉ ev_key <$> log.
Proof.
  unfold latest. rewrite last_None. split.
  - intros Hnil (ev & -> & Hin)%list_elem_of_fmap. apply (not_elem_of_nil ev). rewrite <-Hnil.
    by apply list_elem_of_filter.
  - intros Hnot. destruct (filter _ log) as [|ev l] eqn:E; [done|]. exfalso. apply Hnot.
    assert (ev ∈ filter (λ ev, ev_key ev = e) log) as [<- Hin]%list_elem_of_filter by (rewrite E; by left).
    apply list_elem_of_fmap. eauto.
Qed.

(** An endpoint that is told the same keeps a right update. *)
Lemma tiers_ok_same v v' e tis : same_for e v v' → tiers_ok v e tis → tiers_ok v' e tis.
Proof.
  intros [_ _ _ Hp Ht] [Hs Hn Hd Hps Hpk].
  assert (tis = [] ∨ v_tiers v' = v_tiers v) as [->|Heq].
  { destruct Ht as [Ht|Ht]; [by right|]. left. destruct tis as [|ti tis]; [done|].
    destruct (proj1 (Hn (ti_Name ti))) as (k & m & Hk & _); [by left|]. by destruct (Ht k m). }
  - split; [constructor| |by intros ? ?%not_elem_of_nil|by intros ? ?%not_elem_of_nil|by intros ? ? ?%not_elem_of_nil].
    intros name. rewrite Hn. by setoid_rewrite Hp.
  - unfold tier_data_ok in *. rewrite <-Heq in Hs, Hd. split; [done| |done|done|].
    + intros name. rewrite Hn. by setoid_rewrite Hp.
    + intros ti kv Hti. rewrite Hpk by done. by rewrite Hp.
Qed.

Lemma endpoint_update_ok_same v v' ev :
  same_for (ev_key ev) v v' → endpoint_update_ok v ev → endpoint_update_ok v' ev.
Proof.
  intros Hs. unfold endpoint_update_ok. rewrite (sf_endpoint _ _ _ Hs), (sf_computed _ _ _ Hs), (sf_peers _ _ _ Hs).
  intros [He Hrest]. split; [done|]. destruct (v_endpoints v !! ev_key ev); [|done].
  split; [|apply Hrest]. apply (tiers_ok_same v); [done|apply Hrest].
Qed.

Lemma log_inv_same v v' d d' log :
  log_inv v d log → d ⊆ d' → (∀ e, e ∉ d' → same_for e v v') → log_inv v' d' log.
Proof.
  intros Hl Hd Hs e He. specialize (Hl e ltac:(set_solver)). specialize (Hs e He).
  destruct (latest e log) as [ev|] eqn:E.
  - apply latest_Some in E as [<- _]. by apply (endpoint_update_ok_same v).
  - by rewrite (sf_endpoint _ _ _ Hs).
Qed.

Lemma HasPolicy_spec (poc : PolicySorter (PT := PT) (TT := TT)) sp k :
  sorter_rel heap poc sp → HasPolicy enumerate poc k = bool_decide (is_Some (s_pols sp !! k)).
Proof.
  intros Hr. pose proof (findTier_spec heap enumerate Henum poc sp k Hr) as Hf. unfold HasPolicy.
  destruct (s_pols sp !! k) as [m|] eqn:E.
  - destruct Hf as (ti & Hf & _). apply find_some in Hf as [Hin Hb]. rewrite bool_decide_true by done.
    apply existsb_exists. eauto.
  - rewrite bool_decide_false by (by intros [? ?]). apply not_true_iff_false. rewrite existsb_exists.
    intros (x & Hin & Hb). unfold findTier in Hf. apply (find_none _ _ Hf) in Hin. congruence.
Qed.

Lemma ContainsKey_match pr v sp p :
  resolver_inv pr v sp → Multidict.ContainsKey (policyIDToEndpointIDs pr) p = true ↔ ∃ e, (p, e) ∈ v_match v.
Proof.
  intros Hi. rewrite md_ContainsKey, md_key by apply Hi. by setoid_rewrite (ri_match _ _ _ Hi).
Qed.

Lemma new_resolver_inv : resolver_inv NewPolicyResolver empty_view (MkDatastore ∅ ∅).
Proof.
  split; simpl; try done.
  - apply sorter_rel_new.
  - intros p e m [Hf _]. simpl in Hf. set_solver.
Qed.

(** *** Events that leave the sorter alone *)
Lemma resolved_mono pr v sp (P : gset PolicyKey) (d : gset EndpointKey) e p m :
  resolver_inv pr v sp → pendingPolicyUpdates pr ⊆ P → dirtyEndpoints pr ⊆ d → policy_for v e p m →
  s_pols sp !! p = Some m ∨ (p ∈ P ∧ e ∈ d).
Proof. intros Hi HP Hd Hp. destruct (ri_resolved _ _ _ Hi p e m Hp) as [?|[??]]; [by left|]. right. set_solver. Qed.

Lemma endpoint_inv pr v sp e x :
  resolver_inv pr v sp → resolver_inv (resolver_step (EndpointEvent e x) pr) (view_step v (EndpointEvent e x)) sp.
Proof.
  intros Hi. pose proof (λ P d e' p m, resolved_mono pr v sp P d e' p m Hi) as Hw.
  destruct v as [ms ps ts es cs ds sy], Hi. unfold resolver_step, OnEndpointUpdate, view_step, computed_of in *.
  destruct x as [x|]; [|destruct (isWorkload e)]; split; simpl in *; try done.
  all: try (intros p e' m Hp; apply Hw; [set_solver..|done]).
  all: unfold computed_of; simpl; try congruence; try done.
  intros e'. destruct (decide (e = e')) as [->|Hne]; [by rewrite !lookup_delete_eq|by rewrite !lookup_delete_ne].
Qed.

Lemma peer_inv pr v sp e x :
  resolver_inv pr v sp → resolver_inv (resolver_step (PeerDataEvent e x) pr) (view_step v (PeerDataEvent e x)) sp.
Proof.
  intros Hi. pose proof (λ P d e' p m, resolved_mono pr v sp P d e' p m Hi) as Hw.
  destruct v as [ms ps ts es cs ds sy], Hi. unfold resolver_step, OnEndpointBGPPeerDataUpdate, view_step in *.
  destruct x as [x|]; split; simpl in *; try done.
  all: try (intros p e' m Hp; apply Hw; [set_solver..|done]).
  all: congruence.
Qed.

(** The stored data never has an empty map, the abstract one may. *)
Lemma computed_inv pr v sp e kind x :
  resolver_inv pr v sp →
  resolver_inv (resolver_step (ComputedDataEvent e kind x) pr) (view_step v (ComputedDataEvent e kind x)) sp.
Proof.
  intros Hi. pose proof (λ P d e' p m, resolved_mono pr v sp P d e' p m Hi) as Hw.
  destruct v as [ms ps ts es cs ds sy], Hi. unfold resolver_step, OnEndpointComputedDataUpdate, view_step in *.
  unfold computed_of in *. simpl in *.
  assert (∀ f : gmap EndpointKey (gmap ComputedDataKind ComputedData), ∀ y,
    (∀ e', default ∅ (f !! e') = if decide (e' = e) then y else default ∅ (cs !! e')) →
    ∀ e', default ∅ (f !! e') = default ∅ (<[e := y]> cs !! e')) as Hf.
  { intros f y Hf e'. rewrite Hf. case_decide as He; [subst; by rewrite lookup_insert_eq|by rewrite lookup_insert_ne]. }
  rewrite <-(ri_computed0 e).
  destruct (endpointComputedData pr !! e) as [old|] eqn:E, x as [x|]; simpl; [|destruct (old !! kind) eqn:Ek| |].
  all: split; simpl; try done.
  all: try (intros p e' m Hp; apply Hw; [set_solver..|done]).
  all: unfold computed_of; simpl; apply Hf; intros e'; destruct (decide (e' = e)) as [->|He]; try done.
  - by rewrite lookup_insert_eq.
  - by rewrite lookup_insert_ne.
  - case_decide as Hs; [|by rewrite lookup_insert_eq]. apply map_size_empty_inv in Hs. by rewrite lookup_delete_eq, Hs.
  - case_decide as Hs; [by rewrite lookup_delete_ne|by rewrite lookup_insert_ne].
  - rewrite E. simpl. by rewrite delete_id.
  - by rewrite lookup_insert_eq.
  - by rewrite lookup_insert_ne.
  - rewrite E. simpl. by rewrite delete_empty.
Qed.

Lemma status_inv pr v sp b :
  resolver_inv pr v sp → resolver_inv (resolver_step (StatusEvent b) pr) (view_step v (StatusEvent b)) sp.
Proof.
  intros Hi. destruct v as [ms ps ts es cs ds sy], Hi. unfold resolver_step, OnDatamodelStatus, view_step in *.
  simpl in *. subst sy. destruct b, (InitialSyncCompleted pr) eqn:E; split; simpl; rewrite ?E; done.
Qed.

(** *** Events that reach the sorter *)
Lemma tier_inv pr v sp name x :
  resolver_inv pr v sp → event_ok (TierEvent name x) pr →
  ∃ sp', resolver_inv (resolver_step (TierEvent name x) pr) (view_step v (TierEvent name x)) sp'.
Proof.
  intros Hi Hok. pose proof (λ P d e' p m, resolved_mono pr v sp P d e' p m Hi) as Hw.
  destruct v as [ms ps ts es cs ds sy], Hi. unfold resolver_step, OnTierUpdate, markAllEndpointsDirty, view_step in *.
  destruct x as [t|]; [exists (put_tier name t sp)|exists (del_tier name sp)]; split; simpl in *; try done.
  all: try (intros p e' m Hp; apply Hw; [set_solver..|done]).
  - by apply OnTierUpdate_put_rel.
  - congruence.
  - by apply OnTierUpdate_del_rel.
  - congruence.
Qed.

Lemma match_inv pr v sp p e :
  resolver_inv pr v sp → event_ok (MatchEvent p e) pr →
  resolver_inv (resolver_step (MatchEvent p e) pr) (view_step v (MatchEvent p e)) sp.
Proof.
  intros Hi Hk. pose proof (λ P d e' p m, resolved_mono pr v sp P d e' p m Hi) as Hw.
  destruct v as [ms ps ts es cs ds sy], Hi. unfold resolver_step, OnPolicyMatch, view_step in *.
  rewrite (HasPolicy_spec _ sp) by done. simpl in *.
  destruct (s_pols sp !! p) as [m0|] eqn:E; [rewrite bool_decide_true by done|rewrite bool_decide_false by (by intros [? ?])].
  all: assert (∀ P : PolicyKey → Prop, ∀ p', P p' ∧ (∃ e', (p', e') ∈ ms) → P p' ∧ ∃ e', (p', e') ∈ {[(p, e)]} ∪ ms) as Hgrow
    by (intros P p' [? [e' ?]]; split; [done|exists e'; set_solver]).
  all: split; simpl in *; try done; try by apply md_Put_ok.
  1,2,6,7: intros p' e'; rewrite md_Put_in, ?ri_match0, ?ri_match'0, elem_of_union, elem_of_singleton; naive_solver.
  - intros p' m Hp'. destruct (ri_sub0 p' m Hp') as [? [e' ?]]. split; [done|exists e'; set_solver].
  - intros p' Hp'. by apply (Hgrow pkey_wf), ri_pending0.
  - intros p' e' m [Hm Hpol]. simpl in *.
    apply elem_of_union in Hm as [[= -> ->]%elem_of_singleton|Hm]; [|apply Hw; [set_solver..|by split]].
    left. destruct (ri_sub0 _ _ E) as [? _]. congruence.
  - intros p' m Hp'. destruct (ri_sub0 p' m Hp') as [? [e' ?]]. split; [done|exists e'; set_solver].
  - intros p' [->%elem_of_singleton|Hp']%elem_of_union; [|by apply (Hgrow pkey_wf), ri_pending0].
    split; [done|]. exists e. set_solver.
  - intros p' e' m [Hm Hpol]. simpl in *.
    apply elem_of_union in Hm as [[= -> ->]%elem_of_singleton|Hm]; [|apply Hw; [set_solver..|by split]].
    right. set_solver.
Qed.

Lemma stop_inv pr v sp p e :
  resolver_inv pr v sp → event_ok (MatchStoppedEvent p e) pr →
  ∃ sp', resolver_inv (resolver_step (MatchStoppedEvent p e) pr) (view_step v (MatchStoppedEvent p e)) sp'.
Proof.
  intros Hi [Hk Hstop]. pose proof (λ P d e' p m, resolved_mono pr v sp P d e' p m Hi) as Hw.
  destruct v as [ms ps ts es cs ds sy], Hi. unfold resolver_step, OnPolicyMatchStopped, view_step in *. simpl in *.
  assert (Multidict.ContainsKey (Multidict.Discard p e (policyIDToEndpointIDs pr)) p = true ↔
    ∃ e', (p, e') ∈ ms ∖ {[(p, e)]}) as Hc.
  { rewrite md_ContainsKey, md_key by (by apply md_Discard_ok). setoid_rewrite md_Discard_in. setoid_rewrite ri_match0.
    set_solver. }
  destruct (Multidict.ContainsKey _ p).
  - destruct (proj1 Hc eq_refl) as [e0 He0]. exists sp. split; simpl in *; try done; try by apply md_Discard_ok.
    1,2: intros p' e'; rewrite md_Discard_in, ?ri_match0, ?ri_match'0, elem_of_difference, elem_of_singleton; naive_solver.
    + intros p' m Hp'. destruct (ri_sub0 p' m Hp') as [? [e' ?]]. split; [done|].
      destruct (decide (p' = p)) as [->|?]; [by exists e0|exists e'; set_solver].
    + intros p' Hp'. destruct (ri_pending0 p' Hp') as [? [e' ?]]. split; [done|].
      destruct (decide (p' = p)) as [->|?]; [by exists e0|exists e'; set_solver].
    + intros p' e' m [Hm Hpol]. apply Hw; [set_solver..|]. split; set_solver.
  - exists (del_pol p sp). split; simpl in *; try done; try by apply md_Discard_ok.
    2,3: intros p' e'; rewrite md_Discard_in, ?ri_match0, ?ri_match'0, elem_of_difference, elem_of_singleton; naive_solver.
    + pose proof (UpdatePolicy_rel heap enumerate Henum _ sp p None ri_rel0 Hk) as Hu.
      destruct (UpdatePolicy enumerate p None (policySorter pr)) as [poc d]. apply Hu.
    + intros p' m [Hne Hp']%lookup_delete_Some. destruct (ri_sub0 p' m Hp') as [? [e' ?]]. set_solver.
    + intros p' Hp'. destruct (ri_pending0 p' Hp') as [? [e' ?]]. split; [done|].
      destruct (decide (p' = p)) as [->|?]; [|exists e'; set_solver].
      destruct Hstop as [?|(e2 & Hne & He2)]; [done|]. exists e2. apply md_in_lookup, ri_match0 in He2. set_solver.
    + intros p' e' m [Hm Hpol]. simpl in *. destruct (decide (p' = p)) as [->|Hne].
      * assert (false = true); [apply Hc; eauto|done].
      * rewrite lookup_delete_ne by done. apply Hw; [set_solver..|]. split; set_solver.
Qed.

(** A policy update is an update of the map of policies, for a policy that matches
    nothing, and also an update of the sorter for one that does. *)
Definition set_pol (k : PolicyKey) (x : option policyMetadata) (ps : gmap PolicyKey policyMetadata) :=
  partial_alter (λ _, x) k ps.

Lemma lookup_set_pol k x ps k' : set_pol k x ps !! k' = if decide (k' = k) then x else ps !! k'.
Proof using Type.
  unfold set_pol. case_decide as Hk; [subst; apply lookup_partial_alter_eq|by apply lookup_partial_alter_ne].
Qed.

Lemma policy_unmatched_inv pr v sp k x (P : gset PolicyKey) :
  resolver_inv pr v sp → (∀ e, (k, e) ∉ v_match v) → P ⊆ pendingPolicyUpdates pr →
  pendingPolicyUpdates pr ⊆ {[k]} ∪ P →
  resolver_inv (set_pendingPolicyUpdates (λ _, P) (set_allPolicies (set_pol k x) pr))
    (MkView (v_match v) (set_pol k x (v_pols v)) (v_tiers v) (v_endpoints v) (v_computed v) (v_peers v) (v_sync v)) sp.
Proof.
  intros Hi Hno HP HP'. pose proof (ri_resolved _ _ _ Hi) as Hw. destruct Hi. split; simpl in *; try done.
  - congruence.
  - intros p m Hp. destruct (ri_sub0 p m Hp) as [? [e He]]. rewrite lookup_set_pol. split; [|by exists e].
    rewrite decide_False; [done|]. intros ->. by apply (Hno e).
  - intros p Hp. apply ri_pending0. set_solver.
  - intros p e m [Hm Hp]. simpl in *. rewrite lookup_set_pol in Hp.
    destruct (decide (p = k)) as [->|Hne]; [by destruct (Hno e)|].
    destruct (Hw p e m) as [?|[??]]; [by split|by left|]. right. set_solver.
Qed.

Lemma policy_matched_inv pr v sp k x (P : gset PolicyKey) (poc : PolicySorter) (d : gset EndpointKey) :
  resolver_inv pr v sp → (∃ e, (k, e) ∈ v_match v) → P ⊆ pendingPolicyUpdates pr →
  pendingPolicyUpdates pr ⊆ {[k]} ∪ P → sorter_rel heap poc (MkDatastore (s_tiers sp) (set_pol k x (s_pols sp))) →
  dirtyEndpoints pr ⊆ d →
  resolver_inv (set_dirtyEndpoints (λ _, d) (set_policySorter (λ _, poc)
      (set_pendingPolicyUpdates (λ _, P) (set_allPolicies (set_pol k x) pr))))
    (MkView (v_match v) (set_pol k x (v_pols v)) (v_tiers v) (v_endpoints v) (v_computed v) (v_peers v) (v_sync v))
    (MkDatastore (s_tiers sp) (set_pol k x (s_pols sp))).
Proof.
  intros Hi [e0 He0] HP HP' Hr Hd. pose proof (ri_resolved _ _ _ Hi) as Hw. destruct Hi. split; simpl in *; try done.
  - congruence.
  - intros p m. rewrite !lookup_set_pol. case_decide as Hk; [subst; intros ->; eauto|]. apply ri_sub0.
  - intros p Hp. apply ri_pending0. set_solver.
  - intros p e m [Hm Hp]. simpl in *. rewrite lookup_set_pol in *.
    destruct (decide (p = k)) as [->|Hne]; [by left|].
    destruct (Hw p e m) as [?|[??]]; [by split|by left|]. right. set_solver.
Qed.

Definition pending_after (x : option Policy) (k : PolicyKey) (pr : Resolver) : gset PolicyKey :=
  match x with None => pendingPolicyUpdates pr ∖ {[k]} | Some _ => pendingPolicyUpdates pr end.

(** What a policy update does, by whether the policy matches something and whether the
    sorter finds it changed. *)
Lemma OnPolicyUpdate_cases pr v sp k x :
  resolver_inv pr v sp → pkey_wf k →
  let pr1 := set_pendingPolicyUpdates (λ _, pending_after x k pr)
               (set_allPolicies (set_pol k (ExtractPolicyMetadata <$> x)) pr) in
  ((∀ e, (k, e) ∉ v_match v) ∧ OnPolicyUpdate enumerate k x pr = pr1) ∨
  ((∃ e, (k, e) ∈ v_match v) ∧ ∃ poc,
    sorter_rel heap poc (MkDatastore (s_tiers sp) (set_pol k (ExtractPolicyMetadata <$> x) (s_pols sp))) ∧
    OnPolicyUpdate enumerate k x pr =
    set_dirtyEndpoints (λ _, if decide (s_pols sp !! k = ExtractPolicyMetadata <$> x) then dirtyEndpoints pr
                             else Multidict.Iter (policyIDToEndpointIDs pr) k ∪ dirtyEndpoints pr)
      (set_policySorter (λ _, poc) pr1)).
Proof.
  intros Hi Hk pr1. pose proof (ContainsKey_match pr v sp k Hi) as Hc. unfold OnPolicyUpdate.
  assert (match x with
    | None => set_pendingPolicyUpdates (λ s, s ∖ {[k]}) (set_allPolicies (delete k) pr)
    | Some policy => set_allPolicies <[k := ExtractPolicyMetadata policy]> pr
    end = pr1) as -> by (by destruct x).
  change (policyIDToEndpointIDs pr1) with (policyIDToEndpointIDs pr). change (policySorter pr1) with (policySorter pr).
  destruct (Multidict.ContainsKey (policyIDToEndpointIDs pr) k); simpl.
  - right. split; [by apply Hc|].
    pose proof (UpdatePolicy_rel heap enumerate Henum _ sp k (ExtractPolicyMetadata <$> x) (ri_rel _ _ _ Hi) Hk) as Hu.
    destruct (UpdatePolicy enumerate k (ExtractPolicyMetadata <$> x) (policySorter pr)) as [poc d].
    destruct Hu as [Hr ->]. exists poc. split; [by destruct x|]. case_decide as Hd.
    + by rewrite bool_decide_true.
    + by rewrite bool_decide_false.
  - left. split; [|done]. intros e He. assert (false = true) by (apply Hc; eauto). done.
Qed.

Lemma view_step_policy v k x :
  view_step v (PolicyEvent k x) =
  MkView (v_match v) (set_pol k (ExtractPolicyMetadata <$> x) (v_pols v)) (v_tiers v) (v_endpoints v) (v_computed v)
    (v_peers v) (v_sync v).
Proof using Type. destruct v, x; cbn; by rewrite ?ExtractPolicyMetadata_spec. Qed.

Lemma pending_after_bounds x k pr :
  pending_after x k pr ⊆ pendingPolicyUpdates pr ∧ pendingPolicyUpdates pr ⊆ {[k]} ∪ pending_after x k pr.
Proof.
  destruct x; simpl; [set_solver|]. split; [set_solver|]. intros p Hp. destruct (decide (p = k)); set_solver.
Qed.

Lemma policy_inv pr v sp k x :
  resolver_inv pr v sp → event_ok (PolicyEvent k x) pr →
  ∃ sp', resolver_inv (resolver_step (PolicyEvent k x) pr) (view_step v (PolicyEvent k x)) sp'.
Proof.
  intros Hi Hk. rewrite view_step_policy. simpl. destruct (pending_after_bounds x k pr).
  destruct (OnPolicyUpdate_cases pr v sp k x Hi Hk) as [[Hno ->]|[Hm (poc & Hr & ->)]].
  - exists sp. by apply policy_unmatched_inv.
  - eexists. apply policy_matched_inv; [done..|]. case_decide; set_solver.
Qed.

Lemma step_inv pr v sp ev :
  resolver_inv pr v sp → event_ok ev pr → ∃ sp', resolver_inv (resolver_step ev pr) (view_step v ev) sp'.
Proof.
  destruct ev; eauto using endpoint_inv, status_inv, match_inv, computed_inv, peer_inv.
  - apply policy_inv.
  - apply tier_inv.
  - apply stop_inv.
Qed.

(** *** Every event keeps the updates of the endpoints that are not dirty right *)
Lemma same_for_refl e v : same_for e v v.
Proof. split; auto. Qed.

Lemma step_dirty ev pr : dirtyEndpoints pr ⊆ dirtyEndpoints (resolver_step ev pr).
Proof.
  destruct ev as [e x|k x|n x|b|p e|p e|e kind x|e x]; simpl.
  - unfold OnEndpointUpdate. destruct x; [|destruct (isWorkload e)]; apply union_subseteq_r.
  - unfold OnPolicyUpdate. destruct x; case_match; simpl; try done.
    all: destruct (UpdatePolicy _ _ _ _) as [poc []]; [apply union_subseteq_r|done].
  - apply union_subseteq_r.
  - unfold OnDatamodelStatus. by case_match.
  - unfold OnPolicyMatch. case_match; apply union_subseteq_r.
  - unfold OnPolicyMatchStopped. case_match; apply union_subseteq_r.
  - unfold OnEndpointComputedDataUpdate. repeat case_match; try done; apply union_subseteq_r.
  - apply union_subseteq_r.
Qed.

Lemma policy_same pr v sp k x e :
  resolver_inv pr v sp → pkey_wf k → e ∉ dirtyEndpoints (resolver_step (PolicyEvent k x) pr) →
  same_for e v (view_step v (PolicyEvent k x)).
Proof.
  intros Hi Hk. rewrite view_step_policy. simpl. intros He.
  assert ((k, e) ∈ v_match v → v_pols v !! k = ExtractPolicyMetadata <$> x) as Hsame.
  { intros Hin. destruct (OnPolicyUpdate_cases pr v sp k x Hi Hk) as [[Hno _]|[_ (poc & _ & Heq)]]; [by destruct (Hno e)|].
    rewrite Heq in He. simpl in He. case_decide as Hd.
    - destruct (v_pols v !! k) as [m|] eqn:E.
      + destruct (ri_resolved _ _ _ Hi k e m) as [?|[??]]; [by split|congruence|done].
      + destruct (s_pols sp !! k) as [m|] eqn:Es; [|done]. destruct (ri_sub _ _ _ Hi k m Es). congruence.
    - exfalso. apply He, elem_of_union_l, md_in_lookup, (ri_match _ _ _ Hi). done. }
  split; simpl; try done; [|by left]. intros k' m. unfold policy_for. simpl. rewrite lookup_set_pol.
  case_decide as Hkk; [subst|done]. split; intros [Hin Hm]; split; try done; rewrite Hsame in *; done.
Qed.

Lemma computed_same pr v sp key kind x e :
  resolver_inv pr v sp → e ∉ dirtyEndpoints (resolver_step (ComputedDataEvent key kind x) pr) →
  computed_of (view_step v (ComputedDataEvent key kind x)) e = computed_of v e.
Proof.
  intros Hi He. assert (e ≠ key ∨ x = None ∧ computed_of v key !! kind = None) as Hc.
  { rewrite <-(ri_computed _ _ _ Hi key). unfold resolver_step, OnEndpointComputedDataUpdate in He.
    destruct x as [x|]; [left|destruct (endpointComputedData pr !! key) as [old|];
      [destruct (default ∅ (Some old) !! kind) eqn:Ek; [left|by right]|by right]].
    all: intros ->; apply He; simpl; repeat case_match; apply elem_of_union_l, elem_of_singleton; done. }
  destruct v as [ms ps ts es cs ds sy]. unfold computed_of in *. simpl in *.
  destruct (decide (e = key)) as [->|Hne].
  - destruct Hc as [?|[-> Hn]]; [done|]. simpl. rewrite lookup_insert_eq. simpl. by rewrite delete_id.
  - destruct x; simpl; by rewrite lookup_insert_ne.
Qed.

Lemma step_same pr v sp ev e :
  resolver_inv pr v sp → event_ok ev pr → e ∉ dirtyEndpoints (resolver_step ev pr) → same_for e v (view_step v ev).
Proof.
  intros Hi Hok He. destruct ev as [key x|k x|n x|b|p key|p key|key kind x|key x].
  - assert (e ≠ key) as Hne.
    { intros ->. apply He. unfold resolver_step, OnEndpointUpdate. destruct x; [|destruct (isWorkload key)]; set_solver. }
    destruct v as [ms ps ts es cs ds sy], x; split; simpl; auto; unfold computed_of; simpl.
    + by rewrite lookup_insert_ne.
    + by rewrite lookup_delete_ne.
    + destruct (isWorkload key); [by rewrite lookup_delete_ne|done].
  - by apply (policy_same pr v sp).
  - assert (∀ k m, ¬ policy_for v e k m) as Hno.
    { intros k m [Hin _]. apply He, elem_of_union_l, elem_of_dom, md_key; [apply Hi|].
      exists k. by apply (ri_match' _ _ _ Hi). }
    destruct v, x; split; simpl; auto.
  - destruct v; split; simpl; auto.
  - assert (e ≠ key) as Hne by (intros ->; apply He, elem_of_union_l, elem_of_singleton; done).
    destruct v; split; simpl; auto. intros k m. unfold policy_for. simpl. set_solver.
  - assert (e ≠ key) as Hne by (intros ->; apply He, elem_of_union_l, elem_of_singleton; done).
    destruct v; split; simpl; auto. intros k m. unfold policy_for. simpl. set_solver.
  - pose proof (computed_same pr v sp key kind x e Hi He) as Hc. destruct v, x; split; simpl; auto.
  - assert (e ≠ key) as Hne by (intros ->; apply He, elem_of_union_l, elem_of_singleton; done).
    destruct v, x; split; simpl; auto; [by rewrite lookup_insert_ne|by rewrite lookup_delete_ne].
Qed.

(** *** Flush *)
Abbreviation send := (sendEndpointUpdate isWorkload PeerData_Empty enumerateData).

Lemma resolvePending_inv pr v sp p :
  resolver_inv pr v sp → pkey_wf p → (∃ e, (p, e) ∈ v_match v) →
  ∃ sp', resolver_inv (resolvePending enumerate pr p) v sp' ∧
    dirtyEndpoints (resolvePending enumerate pr p) = dirtyEndpoints pr ∧
    pendingPolicyUpdates (resolvePending enumerate pr p) =
      (if v_pols v !! p is Some _ then pendingPolicyUpdates pr ∖ {[p]} else pendingPolicyUpdates pr).
Proof.
  intros Hi Hp [e0 He0]. unfold resolvePending. rewrite (ri_pols _ _ _ Hi).
  destruct (v_pols v !! p) as [m|] eqn:E; [|by exists sp].
  exists (put_pol p m sp). split; [|done]. pose proof (ri_resolved _ _ _ Hi) as Hw. destruct Hi. split; simpl; try done.
  - pose proof (UpdatePolicy_rel heap enumerate Henum _ sp p (Some m) ri_rel0 Hp) as Hu.
    destruct (UpdatePolicy enumerate p (Some m) (policySorter pr)) as [poc d]. apply Hu.
  - intros p' m' [[<- <-]|[_ Hp']]%lookup_insert_Some; eauto.
  - intros p' Hp'. apply ri_pending0. set_solver.
  - intros p' e m' Hf. destruct (decide (p' = p)) as [->|Hne].
    + left. rewrite lookup_insert_eq. destruct Hf. congruence.
    + rewrite lookup_insert_ne by done. destruct (Hw p' e m' Hf) as [?|[??]]; [by left|]. right. set_solver.
Qed.

Lemma resolveAll_inv l pr v sp :
  resolver_inv pr v sp → (∀ p, p ∈ l → pkey_wf p ∧ ∃ e, (p, e) ∈ v_match v) →
  ∃ sp', resolver_inv (foldl (resolvePending enumerate) pr l) v sp' ∧
    dirtyEndpoints (foldl (resolvePending enumerate) pr l) = dirtyEndpoints pr ∧
    ∀ p, p ∈ pendingPolicyUpdates (foldl (resolvePending enumerate) pr l) →
      p ∈ pendingPolicyUpdates pr ∧ (p ∈ l → v_pols v !! p = None).
Proof.
  revert pr sp. induction l as [|p l IH]; intros pr sp Hi Hl; cbn [foldl].
  { exists sp. split_and!; [done|done|]. intros p Hp. split; [done|]. by intros ?%not_elem_of_nil. }
  destruct (Hl p) as [Hp Hm]; [by left|].
  destruct (resolvePending_inv pr v sp p Hi Hp Hm) as (sp1 & Hi1 & Hd1 & Hp1).
  destruct (IH _ sp1 Hi1) as (sp2 & Hi2 & Hd2 & Hp2); [intros p' Hp'; apply Hl; by right|].
  exists sp2. split_and!; [done|congruence|]. intros p' [Hin Hnone]%Hp2. rewrite Hp1 in Hin. split.
  - destruct (v_pols v !! p); [set_solver|done].
  - intros [->|?]%elem_of_cons; [|auto]. destruct (v_pols v !! p); [set_solver|done].
Qed.

Lemma StronglySorted_omap {A B C} (R : C → C → Prop) (f : A → option B) (g : A → C) (h : B → C) (l : list A) :
  (∀ x y, f x = Some y → h y = g x) → StronglySorted R (g <$> l) → StronglySorted R (h <$> omap f l).
Proof using Type.
  intros Hfg. induction l as [|x l IH]; [constructor|].
  change (g <$> x :: l) with (g x :: (g <$> l)). intros Hs. inversion_clear Hs as [|? ? Hl Hx].
  cbn [omap list_omap]. destruct (f x) as [y|] eqn:E; [|auto].
  change (h <$> y :: omap f l) with (h y :: (h <$> omap f l)). constructor; [auto|].
  apply list.Forall_forall. intros c (y' & -> & (x' & Hx' & Hf)%list_elem_of_omap)%list_elem_of_fmap.
  rewrite (Hfg _ _ E), (Hfg _ _ Hf). rewrite list.Forall_forall in Hx. apply Hx, list_elem_of_fmap. eauto.
Qed.

Lemma StronglySorted_List_filter {A} (R : A → A → Prop) (f : A → bool) (l : list A) :
  StronglySorted R l → StronglySorted R (List.filter f l).
Proof using Type.
  induction 1 as [|x l Hl IH Hx]; simpl; [constructor|]. destruct (f x); [|done]. constructor; [done|].
  apply list.Forall_forall. intros y Hy%list_elem_of_In%filter_In. rewrite list.Forall_forall in Hx.
  apply Hx, list_elem_of_In, Hy.
Qed.

Lemma filterTier_spec e pr (ti ti' : TierInfo) :
  filterTier e pr ti = Some ti' →
  ti_Name ti' = ti_Name ti ∧ ti_Order ti' = ti_Order ti ∧ ti_DefaultAction ti' = ti_DefaultAction ti ∧
  ti_OrderedPolicies ti' =
    List.filter (λ kv, Multidict.Contains (endpointIDToPolicyIDs pr) e (kv_Key kv)) (ti_OrderedPolicies ti).
Proof using Type. unfold filterTier. case_decide; [done|]. by intros [= <-]. Qed.

(** The sorter holds exactly the matching policies of the datastore, so filtering its
    tiers gives what the endpoint must be told. *)
Lemma filtered_tiers_ok pr v sp tis e :
  resolver_inv pr v sp → sorted_raw sp tis → (∀ p m, policy_for v e p m → s_pols sp !! p = Some m) →
  tiers_ok v e (omap (filterTier e pr) tis).
Proof.
  intros Hi Hs Hall.
  assert (∀ ti kv, ti ∈ tis → kv ∈ List.filter (λ kv, Multidict.Contains (endpointIDToPolicyIDs pr) e (kv_Key kv))
      (ti_OrderedPolicies ti) ↔ policy_for v e (kv_Key kv) (kv_Value kv) ∧ m_Tier (kv_Value kv) = ti_Name ti) as Hkv.
  { intros ti kv Hti. rewrite list_elem_of_In, filter_In, <-list_elem_of_In, (so_pols _ _ Hs) by done.
    fold (md_in (endpointIDToPolicyIDs pr) e (kv_Key kv)). rewrite (ri_match' _ _ _ Hi). split.
    - intros [[Hp Ht] Hm]. destruct (ri_sub _ _ _ Hi _ _ Hp). by split.
    - intros [Hp Ht]. split; [|apply Hp]. split; [by apply Hall|done]. }
  split.
  - apply (StronglySorted_omap _ _ ti_Name); [intros ti ti' Hf; apply (filterTier_spec _ _ _ _ Hf)|].
    pose proof (sok_tiers _ _ (sorted_raw_ok sp tis Hs)) as Hn. unfold tier_before in *. simpl. by rewrite <-(ri_tiers _ _ _ Hi).
  - intros name. rewrite list_elem_of_fmap. setoid_rewrite list_elem_of_omap. split.
    + intros (ti' & -> & ti & Hti & Hf). pose proof Hf as Hf'. apply filterTier_spec in Hf as (-> & _ & _ & _).
      unfold filterTier in Hf'. case_decide as Hne; [done|].
      destruct (List.filter _ _) as [|kv kvs] eqn:E; [done|]. exists (kv_Key kv), (kv_Value kv).
      apply Hkv; [done|]. rewrite E. by left.
    + intros (k & m & Hp & Ht).
      assert (name ∈ ti_Name <$> tis) as (ti & -> & Hti)%list_elem_of_fmap.
      { apply (so_names _ _ Hs). right. exists k, m. auto. }
      pose proof (proj2 (Hkv ti (MkPolKV k m) Hti) (conj Hp Ht)) as Hin.
      unfold filterTier. eexists. split; [|exists ti; split; [done|rewrite decide_False; [done|]]]; [done|].
      intros Hnil. rewrite Hnil in Hin. by apply not_elem_of_nil in Hin.
  - intros ti' (ti & Hti & (Hn & Ho & Ha & _)%filterTier_spec)%list_elem_of_omap. unfold tier_data_ok. rewrite Hn, Ho, Ha.
    pose proof (so_info _ _ Hs ti Hti) as Hinfo. unfold tier_info_rel in Hinfo. rewrite <-(ri_tiers _ _ _ Hi).
    destruct (s_tiers sp !! ti_Name ti) as [[o a]|]; tauto.
  - intros ti' (ti & Hti & (_ & _ & _ & ->)%filterTier_spec)%list_elem_of_omap.
    apply StronglySorted_List_filter. by apply (sok_order _ _ (sorted_raw_ok sp tis Hs)).
  - intros ti' kv (ti & Hti & (-> & _ & _ & ->)%filterTier_spec)%list_elem_of_omap. by apply Hkv.
Qed.

Lemma ev_key_send pr e : ev_key (send pr e) = e.
Proof using Type. unfold sendEndpointUpdate. by destruct (endpoints pr !! e). Qed.

Lemma send_ok pr v sp tis e :
  resolver_inv pr v sp → sorted_raw sp tis → (∀ p m, policy_for v e p m → s_pols sp !! p = Some m) →
  sortedTierData pr = tis → endpoint_update_ok v (send pr e).
Proof.
  intros Hi Hs Hall Htis. unfold endpoint_update_ok. rewrite ev_key_send. unfold sendEndpointUpdate.
  rewrite (ri_endpoints _ _ _ Hi). destruct (v_endpoints v !! e) as [x|] eqn:E; simpl; [|done].
  split_and!; [done|rewrite Htis; by apply (filtered_tiers_ok _ _ sp)| |].
  - destruct (isWorkload e); [|done]. rewrite (ri_computed _ _ _ Hi). apply Permutation_map, HenumData.
  - destruct (isWorkload e); [|done]. rewrite (ri_peers _ _ _ Hi). by destruct (v_peers v !! e).
Qed.

Lemma Flush_inv pr v sp log :
  resolver_inv pr v sp → log_inv v (dirtyEndpoints pr) log →
  ∃ pr' sent sp', flush pr = Ret (pr', sent) ∧ resolver_inv pr' v sp' ∧ log_inv v (dirtyEndpoints pr') (log ++ sent) ∧
    if v_sync v then dirtyEndpoints pr' = ∅ else sent = [].
Proof.
  intros Hi Hl. unfold Flush. rewrite (ri_sync _ _ _ Hi). destruct (v_sync v) eqn:Esync; simpl.
  2: { exists pr, [], sp. by rewrite app_nil_r. }
  destruct (resolveAll_inv (enumerateKeys (pendingPolicyUpdates pr)) pr v sp Hi) as (sp1 & Hi1 & Hd1 & Hp1).
  { intros p Hp. apply (ri_pending _ _ _ Hi). rewrite HenumKeys in Hp. by apply elem_of_elements. }
  set (pr1 := foldl _ _ _) in *.
  destruct (Sorted_rel heap _ sp1 (ri_rel _ _ _ Hi1)) as (poc & tis & -> & Hr & Hs). simpl.
  set (pr2 := set_sortedTierData tis (set_policySorter (λ _, poc) pr1)).
  assert (∀ p e m, policy_for v e p m → s_pols sp1 !! p = Some m) as Hall.
  { intros p e m Hpf. destruct (ri_resolved _ _ _ Hi1 p e m Hpf) as [?|[Hin _]]; [done|].
    destruct (Hp1 p Hin) as [Hin0 Hnone]. destruct Hpf as [_ Hpf]. rewrite Hnone in Hpf; [done|].
    rewrite HenumKeys. by apply elem_of_elements. }
  assert (resolver_inv pr2 v sp1) as Hi2 by (destruct Hi1; split; done).
  eexists _, _, sp1. split_and!; [done| |simpl|done].
  - destruct Hi2. split; simpl; try done. left. eauto.
  - intros e _. set (l := enumerateEndpoints _).
    change (map (send pr2) l) with (send pr2 <$> l). rewrite latest_app.
    destruct (latest e (send pr2 <$> l)) as [ev|] eqn:E.
    + apply latest_Some in E as [<- (e' & -> & _)%list_elem_of_fmap].
      apply (send_ok _ _ sp1 tis); [done|done| |done]. intros p m. apply Hall.
    + apply latest_None in E. apply Hl. intros He. apply E. rewrite <-list_fmap_compose.
      apply list_elem_of_fmap. exists e. split; [symmetry; apply ev_key_send|].
      subst l. rewrite HenumEndpoints, Hd1. by apply elem_of_elements.
Qed.

Lemma steps_inv evs pr v sp log :
  resolver_inv pr v sp → log_inv v (dirtyEndpoints pr) log → events_ok evs pr →
  let pr' := foldl (λ pr ev, resolver_step ev pr) pr evs in
  ∃ sp', resolver_inv pr' (foldl view_step v evs) sp' ∧ log_inv (foldl view_step v evs) (dirtyEndpoints pr') log.
Proof.
  revert pr v sp. induction evs as [|ev evs IH]; intros pr v sp Hi Hl Hok; [by exists sp|].
  destruct Hok as [Hev Hok]. cbn [foldl]. destruct (step_inv pr v sp ev Hi Hev) as [sp1 Hi1].
  apply (IH _ _ sp1); [done| |done]. apply (log_inv_same v _ (dirtyEndpoints pr)); [done|apply step_dirty|].
  intros e He. by apply (step_same pr v sp).
Qed.

Lemma sync_mono v evs : v_sync (foldl view_step v evs) = false → v_sync v = false.
Proof.
  revert v. induction evs as [|ev evs IH]; intros v; [done|]. cbn [foldl]. intros Hs%IH.
  destruct v as [ms ps ts es cs ds sy], ev as [? []|? []|? []| | | |? ? []|? []]; simpl in *; try done.
  apply orb_false_iff in Hs. tauto.
Qed.

Lemma run_batches_inv batches pr v sp log :
  resolver_inv pr v sp → log_inv v (dirtyEndpoints pr) log → (if v_sync v then dirtyEndpoints pr = ∅ else log = []) →
  batches_ok batches (pr, log) →
  ∃ pr' log' sp', run_batches batches (pr, log) = Ret (pr', log') ∧
    let v' := foldl view_step v (concat batches) in
    resolver_inv pr' v' sp' ∧ log_inv v' (dirtyEndpoints pr') log' ∧
    if v_sync v' then dirtyEndpoints pr' = ∅ else log' = [].
Proof.
  revert pr v sp log. induction batches as [|evs batches IH]; intros pr v sp log Hi Hl Hsync Hok.
  { exists pr, log, sp. done. }
  destruct Hok as [Hevs Hok]. destruct (steps_inv evs pr v sp log Hi Hl Hevs) as (sp1 & Hi1 & Hl1).
  destruct (Flush_inv _ _ sp1 log Hi1 Hl1) as (pr2 & sent & sp2 & Hf & Hi2 & Hl2 & Hs2).
  assert (batch_step evs (pr, log) = Ret (pr2, log ++ sent)) as Hb by (unfold batch_step; simpl; by rewrite Hf).
  simpl. rewrite Hb. simpl. rewrite foldl_app. apply (IH _ _ sp2); [done|done| |by apply Hok].
  destruct (v_sync (foldl view_step v evs)) eqn:E; [done|]. apply sync_mono in E. rewrite E in Hsync. by rewrite Hsync, Hs2.
Qed.

(** C12: the resolver keeps every endpoint up to date.  Policies, tiers, endpoints,
    endpoint data and matches are announced in any order, in any number of batches,
    each followed by a flush; a policy does not lose its last match while it waits for
    the next flush.  Then no flush panics; before the first in-sync status nothing is
    sent; afterwards the last update sent for every endpoint carries the endpoint, its
    data, and exactly the policies that match it with their current metadata, by tier
    and in order, and an endpoint without any update does not exist. *)
Theorem resolver_converges batches :
  batches_ok batches (NewPolicyResolver, []) →
  ∃ pr log, run_batches batches (NewPolicyResolver, []) = Ret (pr, log) ∧
    let v := foldl view_step empty_view (concat batches) in
    if v_sync v then
      ∀ e, match latest e log with
           | Some ev => endpoint_update_ok v ev
           | None => v_endpoints v !! e = None
           end
    else log = [].
Proof.
  intros Hok. destruct (run_batches_inv batches _ empty_view (MkDatastore ∅ ∅) [] new_resolver_inv)
    as (pr & log & sp & Hrun & Hinv); [done|done|done|].
  exists pr, log. split; [done|]. simpl in *. destruct Hinv as (Hi & Hl & Hs). destruct (v_sync _); [|done].
  intros e. apply Hl. rewrite Hs. apply not_elem_of_empty.
Qed.
End spec.

(** ** Examples *)
Definition ex_event := ResolverEvent (EndpointKey := string) (Endpoint := nat) (ComputedDataKind := string)
  (ComputedData := nat) (PeerData := nat).
Definition ex_run (batches : list (list ex_event)) :=
  run_batches (PT := list PolKV) (TT := list tierInfoKey) (λ _, true) (λ d, d =? 0) list_enumerate elements elements
    map_to_list batches (NewPolicyResolver, []).
Definition ex_view (batches : list (list ex_event)) := foldl (view_step (λ _, true)) empty_view (concat batches).

(** Two endpoints, two policies in two tiers; one policy changes its order and tier. *)
Definition ex_batches : list (list ex_event) :=
  [[PolicyEvent (example_key "a") (Some (example_policy "t" (Some 5%Z)));
    MatchEvent (example_key "a") "e1"; MatchEvent (example_key "b") "e1"; MatchEvent (example_key "a") "e2";
    EndpointEvent "e1" (Some 1); TierEvent "t" (Some (MkTier (Some (example_ptr 5)) "Deny"));
    ComputedDataEvent "e1" "kind" (Some 7)];
   [StatusEvent true; PolicyEvent (example_key "b") (Some (example_policy "t" (Some 1%Z))); EndpointEvent "e2" (Some 2)];
   [PolicyEvent (example_key "a") (Some (example_policy "s" (Some 9%Z))); MatchStoppedEvent (example_key "b") "e1";
    PeerDataEvent "e1" (Some 3)]].

Lemma resolver_converges_witness :
  ∃ pr log, ex_run ex_batches = Ret (pr, log) ∧
    ∀ e, match latest e log with
         | Some ev => endpoint_update_ok (λ _, true) (λ d, d =? 0) (ex_view ex_batches) ev
         | None => v_endpoints (ex_view ex_batches) !! e = None
         end.
Proof.
  apply (resolver_converges (TT := list tierInfoKey) example_heap (λ _, true) (λ d, d =? 0) list_enumerate elements elements
    map_to_list list_enumerate_perm (λ _, reflexivity _) (λ _, reflexivity _) (λ _, reflexivity _) ex_batches).
  apply batches_okb_sound. vm_compute. reflexivity.
Defined.

(** Without that condition the resolver can send stale metadata.  A policy matches an
    endpoint and stops matching before the flush; the flush still adds it to the sorter,
    although nothing matches it.  When the policy then changes, the sorter is not told,
    and the next endpoint that it matches is sent its old order. *)
Theorem stop_before_flush_sends_stale_policy :
  let k := example_key "p" in
  let old := example_policy "t" (Some 10%Z) in
  let new := example_policy "t" (Some 1%Z) in
  let batches : list (list ex_event) :=
    [[StatusEvent true; PolicyEvent k (Some old); MatchEvent k "e1"; MatchStoppedEvent k "e1"];
     [PolicyEvent k (Some new)];
     [EndpointEvent "e2" (Some 2); MatchEvent k "e2"]] in
  ∃ pr log ev, ex_run batches = Ret (pr, log) ∧ latest "e2" log = Some ev ∧
    mjoin (ti_OrderedPolicies <$> ev_tiers ev) = [MkPolKV k (ExtractPolicyMetadata old)] ∧
    v_pols (ex_view batches) !! k = Some (ExtractPolicyMetadata new) ∧
    ExtractPolicyMetadata old ≠ ExtractPolicyMetadata new.
Proof.
  cbv zeta. eexists _, _, _. split_and!; [vm_compute; reflexivity|vm_compute; reflexivity|vm_compute; reflexivity| |].
  - vm_compute. reflexivity.
  - intros Heq. apply (f_equal m_Order) in Heq. vm_compute in Heq. discriminate.
Qed.
