(* ===== verification/UniqueLabels.v ===== *)
(** * Interned label maps: [lib/std/uniquelabels]

    [Map] wraps a Go map of interned strings; nil and empty are different values of it.
    A handle is the string it stands for (as in [SelectorAST]).  [Make] goes through a
    small direct-mapped cache of recent results; its state is threaded explicitly, and
    the hash of [hash/maphash], which is seeded at random, is a parameter. *)
From S2P Require Import Prelude.
From S2P Require Import SelectorAST.
From stdpp Require Import base list gmap strings numbers.
From stdpp Require Import options.

Module uniquelabels.
(** ** [Map] *)
Definition Map := option (gmap string string).
Definition Nil : Map := None.
Definition Empty : Map := Some ∅.

Definition IsNil (i : Map) : bool := match i with None => true | Some _ => false end.
Definition entries (i : Map) : gmap string string := default ∅ i.
Definition Len (i : Map) : nat := size (entries i).
Definition Map_GetHandle (i : Map) (h : string) : option string := entries i !! h.
Definition GetString (i : Map) (k : string) : option string := entries i !! k.
Definition RecomputeOriginalMap (i : Map) : option (gmap string string) :=
  match i with None => None | Some m => Some (list_to_map (map_to_list m)) end.

#[global] Instance Map_Labels : Labels Map := Map_GetHandle.

(** [maps.Equal]: a nil map compares like an empty one. *)
Definition Equals (i other : Map) : bool :=
  (Len i =? Len other)%nat &&
  forallb (λ '(k, v), match entries other !! k with Some v' => bool_decide (v' = v) | None => false end)
    (map_to_list (entries i)).

Definition EquivalentTo (i : Map) (m : option (gmap string string)) : bool :=
  if negb (Bool.eqb (IsNil i) (match m with None => true | Some _ => false end)) then false
  else if negb (size (default ∅ m) =? Len i)%nat then false
  else forallb (λ '(k, v), match default ∅ m !! k with Some mv => bool_decide (mv = v) | None => false end)
         (map_to_list (entries i)).

(** ** The cache of [Make]: [cache.go] *)
Definition recentMapCacheSize : Z := 128.

Record recentMapCacheEntry := MkCacheEntry { ce_hash : Z; ce_m : Map }.

(** The zero value of the array of entries: hash 0 and the nil map. *)
Definition recentMapCache := list recentMapCacheEntry.
Definition newRecentMapCache : recentMapCache := replicate (Z.to_nat recentMapCacheSize) (MkCacheEntry 0 Nil).

Section cache.
(** [maphash] of one key and value (written with a zero byte between), and the
    enumeration order of a map. *)
Context (Sum64 : string → string → Z) (enumerate : gmap string string → list (string * string)).

Definition hashMapStringString (m : gmap string string) : Z :=
  foldl (λ combined '(k, v), Z.lxor combined (Sum64 k v)) 0%Z (enumerate m).

Definition slot (hash : Z) : nat := Z.to_nat (Z.land hash (recentMapCacheSize - 1)).

(** [None] is a miss; indexing the array cannot fail, see [slot_lt]. *)
Definition Lookup (c : recentMapCache) (m : gmap string string) : option Map * Z :=
  let hash := hashMapStringString m in
  match c !! slot hash with
  | Some entry =>
      if bool_decide (ce_hash entry = hash) && EquivalentTo (ce_m entry) (Some m)
      then (Some (ce_m entry), hash) else (None, hash)
  | None => (None, hash)
  end.

Definition Store (hash : Z) (result : Map) (c : recentMapCache) : recentMapCache :=
  <[slot hash := MkCacheEntry hash result]> c.

Definition Make (c : recentMapCache) (m : option (gmap string string)) : recentMapCache * Map :=
  match m with
  | None => (c, Nil)
  | Some m =>
      if decide (size m = 0) then (c, Empty)
      else
        match Lookup c m with
        | (Some cached, _) => (c, cached)
        | (None, hash) =>
            let result := Some (foldl (λ hm '(k, v), <[k := v]> hm) ∅ (enumerate m)) in
            (Store hash result c, result)
        end
  end.
End cache.

(** ** [IntersectAndFilter]

    [include] is [None] when nil.  The recursive call swaps the maps, so it happens at
    most once: the body is written with the shorter map already chosen. *)
Definition noOpFilter (_ _ : string) : bool := true.

Definition keepEntry (include : string → string → bool) (b : Map) (kv : string * string) : bool :=
  include kv.1 kv.2 &&
  match Map_GetHandle b kv.1 with Some otherV => bool_decide (otherV = kv.2) | None => false end.

Definition intersectShorter (a b : Map) (include : option (string → string → bool)) : Map :=
  let include := default noOpFilter include in
  let needToFilter := existsb (λ kv, negb (keepEntry include b kv)) (map_to_list (entries a)) in
  if negb needToFilter then a
  else
    let intersection := filter (λ kv, keepEntry include b kv = true) (entries a) in
    if decide (size intersection = 0) then Empty else Some intersection.

Definition IntersectAndFilter (a b : Map) (include : option (string → string → bool)) : Map :=
  if IsNil a || IsNil b then Nil
  else if (Len b <? Len a)%nat then intersectShorter b a include
  else intersectShorter a b include.

(** ** Lemmas *)
Lemma forallb_subset (m1 m2 : gmap string string) :
  forallb (λ '(k, v), match m2 !! k with Some v' => bool_decide (v' = v) | None => false end)
    (map_to_list m1) = true ↔ m1 ⊆ m2.
Proof.
  rewrite forallb_forall, map_subseteq_spec. split.
  - intros HP k v Hk. specialize (HP (k, v)). cbn in HP.
    destruct (m2 !! k) as [v'|]; [apply bool_decide_eq_true in HP as ->; [done|]|exfalso; enough (false = true) by done; apply HP];
      by apply list_elem_of_In, elem_of_map_to_list.
  - intros HP [k v] Hin%list_elem_of_In%elem_of_map_to_list%HP. rewrite Hin. by apply bool_decide_eq_true.
Qed.

Lemma EquivalentTo_spec i m : EquivalentTo i m = true ↔ i = m.
Proof.
  unfold EquivalentTo, Len, entries. destruct i as [i|], m as [m|]; cbn; try done.
  destruct (Nat.eqb_spec (size m) (size i)) as [Hsz|Hsz]; cbn; [|naive_solver]. rewrite forallb_subset. split.
  - intros Hsub. f_equal. apply map_subseteq_size_eq; [done|lia].
  - by intros [= ->].
Qed.

Lemma Equals_spec i other : Equals i other = true ↔ entries i = entries other.
Proof.
  unfold Equals, Len. rewrite andb_true_iff, Nat.eqb_eq, forallb_subset. split; [|by intros ->].
  intros [Hsz Hsub]. apply map_subseteq_size_eq; [done|lia].
Qed.

Lemma slot_lt hash : slot hash < Z.to_nat recentMapCacheSize.
Proof.
  unfold slot. apply Z2Nat.inj_lt; [apply Z.land_nonneg; by right|done|].
  change (recentMapCacheSize - 1)%Z with (Z.ones 7). rewrite Z.land_ones by done.
  pose proof (Z.mod_pos_bound hash (2 ^ 7) eq_refl). unfold recentMapCacheSize. lia.
Qed.

Lemma foldl_insert_list (l : list (string * string)) (m : gmap string string) :
  NoDup l.*1 → (∀ k, k ∈ l.*1 → m !! k = None) →
  foldl (λ hm '(k, v), <[k := v]> hm) m l = list_to_map l ∪ m.
Proof.
  revert m. induction l as [|[k v] l IH]; intros m Hnd Hd; cbn -[union]; [by rewrite (left_id_L ∅ (∪))|].
  cbn in Hnd, Hd. apply list.NoDup_cons in Hnd as [Hk Hnd]. rewrite IH; [|done|].
  - rewrite <-insert_union_r by (by apply not_elem_of_list_to_map). by rewrite insert_union_l.
  - intros k' Hk'. rewrite lookup_insert_ne by (intros ->; done). apply Hd. set_solver.
Qed.

Lemma foldl_insert_enum (l : list (string * string)) (m : gmap string string) :
  l ≡ₚ map_to_list m → foldl (λ hm '(k, v), <[k := v]> hm) ∅ l = m.
Proof.
  intros Hp. rewrite foldl_insert_list.
  - rewrite (right_id_L ∅ (∪)). rewrite (list_to_map_proper l (map_to_list m)); [apply list_to_map_to_list| |done].
    rewrite Hp. apply NoDup_fst_map_to_list.
  - rewrite Hp. apply NoDup_fst_map_to_list.
  - intros k _. apply lookup_empty.
Qed.

Section cache_claims.
Context (Sum64 : string → string → Z) (enumerate : gmap string string → list (string * string)).
Context (Henum : ∀ m, enumerate m ≡ₚ map_to_list m).
#[local] Set Default Proof Using "All".

(** The result of [Make], whatever the cache holds. *)
Lemma Make_result c m : snd (Make Sum64 enumerate c m) = m.
Proof.
  unfold Make, Lookup. destruct m as [m|]; [|done]. case_decide as Hsz.
  { apply map_size_empty_iff in Hsz as ->. done. }
  destruct (c !! slot (hashMapStringString Sum64 enumerate m)) as [entry|].
  - destruct (bool_decide _); cbn [andb snd].
    + destruct (EquivalentTo (ce_m entry) (Some m)) eqn:He; cbn [snd].
      * by apply EquivalentTo_spec.
      * f_equal. by apply foldl_insert_enum.
    + f_equal. by apply foldl_insert_enum.
  - cbn [snd]. f_equal. by apply foldl_insert_enum.
Qed.
End cache_claims.

Lemma intersectShorter_entries a b include :
  entries (intersectShorter a b include) =
  filter (λ kv, keepEntry (default noOpFilter include) b kv = true) (entries a).
Proof.
  unfold intersectShorter.
  destruct (existsb _ (map_to_list (entries a))) eqn:Hf; cbn [negb].
  - case_decide as Hsz; [|done]. by apply map_size_empty_iff in Hsz as ->.
  - symmetry. apply map_filter_id. intros k v Hkv.
    destruct (keepEntry _ b (k, v)) eqn:Hkeep; [done|].
    enough (existsb (λ kv, negb (keepEntry (default noOpFilter include) b kv)) (map_to_list (entries a)) = true) by congruence.
    apply existsb_exists. exists (k, v). rewrite Hkeep. split; [|done].
    apply list_elem_of_In. by apply elem_of_map_to_list.
Qed.

Lemma keep_lookup include a b k v :
  filter (λ kv, keepEntry include b kv = true) (entries a) !! k = Some v ↔
  include k v = true ∧ entries a !! k = Some v ∧ entries b !! k = Some v.
Proof.
  rewrite map_lookup_filter_Some. unfold keepEntry, Map_GetHandle. simpl. rewrite andb_true_iff.
  destruct (entries b !! k); rewrite ?bool_decide_eq_true; naive_solver.
Qed.

(** [Make] returns the map it is given, and keeps nil apart from empty, whatever its
    cache holds and however the hash collides. *)
Theorem Make_cache_transparent Sum64 enumerate (c : recentMapCache) (m : option (gmap string string)) :
  (∀ m, enumerate m ≡ₚ map_to_list m) → snd (Make Sum64 enumerate c m) = m.
Proof. intros He. by apply Make_result. Qed.

Lemma Make_cache_transparent_witness :
  let c := fst (Make (λ _ _, 5%Z) map_to_list newRecentMapCache (Some {["a" := "b"]})) in
  snd (Make (λ _ _, 5%Z) map_to_list c (Some {["a" := "c"]})) = Some {["a" := "c"]} ∧
  fst (Lookup (λ _ _, 5%Z) map_to_list c {["a" := "b"]}) = Some (Some {["a" := "b"]}).
Proof.
  split; [|vm_compute; reflexivity]. apply (Make_cache_transparent (λ _ _, 5%Z) map_to_list). done.
Defined.

(** The intersection has exactly the common entries that [include] accepts, whichever
    map is the shorter; it is nil exactly when one of the maps is. *)
Theorem IntersectAndFilter_correct (a b : Map) (include : option (string → string → bool)) :
  (IsNil (IntersectAndFilter a b include) = IsNil a || IsNil b) ∧
  (∀ k v, IsNil a = false → IsNil b = false →
    Map_GetHandle (IntersectAndFilter a b include) k = Some v ↔
    default noOpFilter include k v = true ∧ Map_GetHandle a k = Some v ∧ Map_GetHandle b k = Some v).
Proof.
  unfold IntersectAndFilter. split.
  - destruct a as [a|], b as [b|]; simpl; try done.
    destruct (_ <? _); unfold intersectShorter; by repeat case_match.
  - intros k v -> ->. cbn [orb]. unfold Map_GetHandle.
    destruct (_ <? _); rewrite intersectShorter_entries, keep_lookup; naive_solver.
Qed.

Lemma IntersectAndFilter_correct_witness :
  Map_GetHandle (IntersectAndFilter (Some {["a" := "1"; "b" := "2"]}) (Some {["b" := "2"]}) None) "b" = Some "2".
Proof.
  apply (IntersectAndFilter_correct (Some {["a" := "1"; "b" := "2"]}) (Some {["b" := "2"]}) None);
    [reflexivity|reflexivity|]. repeat split; vm_compute; reflexivity.
Defined.
End uniquelabels.
