(* ===== verification/InheritIndex.v ===== *)
(** * The label inheritance index: [felix/labelindex/label_inheritance_index.go]

    The index matches selectors against items (local endpoints) whose labels are their
    own and those inherited from their parents (profiles), and calls back when a match
    starts or stops.

    Items hold pointers to the data of their parents, and a parent's labels change in
    place: [parentData] objects live in a heap, [parents] of an item are addresses in it
    and [parentDataByParentID] maps an identifier to an address.  The calls of
    [OnMatchStarted] and [OnMatchStopped] are recorded in order in [callbacks]; the
    callbacks do not use the index, so running them later is the same.  The orders in
    which Go ranges over maps and sets are parameters. *)
From S2P Require Import Prelude.
From S2P Require Import SelectorAST.
From S2P Require Import UniqueLabels.
From S2P Require Import Multidict.
From stdpp Require Import base list gmap strings.
From stdpp Require Import options.

Section index.
Context `{Countable ItemID} `{Countable SelID}.

Inductive MatchCallback :=
  | OnMatchStarted (selId : SelID) (labelId : ItemID)
  | OnMatchStopped (selId : SelID) (labelId : ItemID).

Definition parentAddr := nat.

Record itemData := MkItemData { labels : uniquelabels.Map; parents : list parentAddr }.

(** [itemIDs] is [None] when the set is nil. *)
Record parentData := MkParentData {
  pd_id : string;
  pd_labels : uniquelabels.Map;
  pd_itemIDs : option (gset ItemID)
}.

Abbreviation parentHeap := (list parentData).

(** [*parent]: addresses come from [getOrCreateParent] only, so they are in range. *)
Definition deref (h : parentHeap) (a : parentAddr) : parentData :=
  default (MkParentData "" uniquelabels.Nil None) (h !! a).

(** [itemData.GetHandle]: the item's own labels first, then those of its parents. *)
Fixpoint inheritedHandle (h : parentHeap) (ps : list parentAddr) (labelName : string) : option string :=
  match ps with
  | [] => None
  | a :: ps' =>
      match uniquelabels.Map_GetHandle (pd_labels (deref h a)) labelName with
      | Some handle => Some handle
      | None => inheritedHandle h ps' labelName
      end
  end.

Definition itemGetHandle (item : parentHeap * itemData) (labelName : string) : option string :=
  match uniquelabels.Map_GetHandle (labels item.2) labelName with
  | Some handle => Some handle
  | None => inheritedHandle item.1 (parents item.2) labelName
  end.

#[global] Instance itemData_Labels : Labels (parentHeap * itemData) := itemGetHandle.

Record InheritIndex := MkInheritIndex {
  itemDataByID : gmap ItemID itemData;
  parentDataByParentID : gmap string parentAddr;
  selectorsById : gmap SelID Selector;
  selIdsByLabelId : gmap ItemID (gset SelID);
  labelIdsBySelId : gmap SelID (gset ItemID);
  dirtyItemIDs : gset ItemID;
  parentObjects : parentHeap;
  callbacks : list MatchCallback
}.

Definition NewInheritIndex : InheritIndex := MkInheritIndex ∅ ∅ ∅ ∅ ∅ ∅ [] [].

Definition set_items f (idx : InheritIndex) :=
  MkInheritIndex (f (itemDataByID idx)) (parentDataByParentID idx) (selectorsById idx) (selIdsByLabelId idx)
    (labelIdsBySelId idx) (dirtyItemIDs idx) (parentObjects idx) (callbacks idx).
Definition set_parents f g (idx : InheritIndex) :=
  MkInheritIndex (itemDataByID idx) (f (parentDataByParentID idx)) (selectorsById idx) (selIdsByLabelId idx)
    (labelIdsBySelId idx) (dirtyItemIDs idx) (g (parentObjects idx)) (callbacks idx).
Definition set_selectors f (idx : InheritIndex) :=
  MkInheritIndex (itemDataByID idx) (parentDataByParentID idx) (f (selectorsById idx)) (selIdsByLabelId idx)
    (labelIdsBySelId idx) (dirtyItemIDs idx) (parentObjects idx) (callbacks idx).
Definition set_matches f g ev (idx : InheritIndex) :=
  MkInheritIndex (itemDataByID idx) (parentDataByParentID idx) (selectorsById idx) (f (selIdsByLabelId idx))
    (g (labelIdsBySelId idx)) (dirtyItemIDs idx) (parentObjects idx) (callbacks idx ++ [ev]).
Definition set_dirty f (idx : InheritIndex) :=
  MkInheritIndex (itemDataByID idx) (parentDataByParentID idx) (selectorsById idx) (selIdsByLabelId idx)
    (labelIdsBySelId idx) (f (dirtyItemIDs idx)) (parentObjects idx) (callbacks idx).
(** Forget the calls that were made: the caller has run the callbacks. *)
Definition clear_callbacks (idx : InheritIndex) :=
  MkInheritIndex (itemDataByID idx) (parentDataByParentID idx) (selectorsById idx) (selIdsByLabelId idx)
    (labelIdsBySelId idx) (dirtyItemIDs idx) (parentObjects idx) [].

(** ** Recording matches *)
Definition storeMatch (selId : SelID) (labelId : ItemID) (idx : InheritIndex) : InheritIndex :=
  let labelIds := default ∅ (labelIdsBySelId idx !! selId) in
  if decide (labelId ∈ labelIds) then idx
  else
    set_matches
      (λ m, <[labelId := {[selId]} ∪ default ∅ (m !! labelId)]> m)
      (λ m, <[selId := {[labelId]} ∪ labelIds]> m)
      (OnMatchStarted selId labelId) idx.

Definition deleteMatch (selId : SelID) (labelId : ItemID) (idx : InheritIndex) : InheritIndex :=
  match labelIdsBySelId idx !! selId with
  | None => idx
  | Some labelIds =>
      if decide (labelId ∈ labelIds) then
        set_matches
          (λ m, let selIds := default ∅ (m !! labelId) ∖ {[selId]} in
                if decide (size selIds = 0) then delete labelId m else <[labelId := selIds]> m)
          (λ m, let rest := labelIds ∖ {[labelId]} in
                if decide (size rest = 0) then delete selId m else <[selId := rest]> m)
          (OnMatchStopped selId labelId) idx
      else idx
  end.

Definition updateMatches (selId : SelID) (sel : Selector) (labelId : ItemID) (item : itemData)
    (idx : InheritIndex) : InheritIndex :=
  let nowMatches := Evaluate (root sel) (parentObjects idx, item) in
  if nowMatches then storeMatch selId labelId idx else deleteMatch selId labelId idx.

Section operations.
Context (enumItems : gmap ItemID itemData → list (ItemID * itemData)).
Context (enumSelectors : gmap SelID Selector → list (SelID * Selector)).
Context (enumItemIDs : gset ItemID → list ItemID) (enumSelIDs : gset SelID → list SelID).

Definition scanAllLabels (selId : SelID) (sel : Selector) (idx : InheritIndex) : InheritIndex :=
  foldl (λ idx '(labelId, item), updateMatches selId sel labelId item idx) idx (enumItems (itemDataByID idx)).

(** Only called for an item that is in the map. *)
Definition scanAllSelectors (labelId : ItemID) (idx : InheritIndex) : InheritIndex :=
  match itemDataByID idx !! labelId with
  | None => idx
  | Some item =>
      foldl (λ idx '(selId, sel), updateMatches selId sel labelId item idx) idx (enumSelectors (selectorsById idx))
  end.

(** The body of the loop of [flushUpdates]. *)
Definition flushItem (idx : InheritIndex) (itemID : ItemID) : InheritIndex :=
  let idx1 :=
    match itemDataByID idx !! itemID with
    | None =>
        foldl (λ idx selId, deleteMatch selId itemID idx) idx
          (enumSelIDs (default ∅ (selIdsByLabelId idx !! itemID)))
    | Some _ => scanAllSelectors itemID idx
    end in
  set_dirty (λ d, d ∖ {[itemID]}) idx1.

Definition flushUpdates (idx : InheritIndex) : InheritIndex :=
  foldl flushItem idx (enumItemIDs (dirtyItemIDs idx)).

(** ** Selectors *)
(** [Selector.Equal] with a receiver that may be nil, against a selector that is not. *)
Definition Selector_Equal (sel : option Selector) (other : Selector) : bool :=
  match sel with None => false | Some sel => bool_decide (hash other = hash sel) end.

Definition UpdateSelector (id : SelID) (sel : option Selector) (idx : InheritIndex) : outcome Empty_set InheritIndex :=
  match sel with
  | None => Panic
  | Some sel =>
      if Selector_Equal (selectorsById idx !! id) sel then Ret idx
      else Ret (set_selectors <[id := sel]> (scanAllLabels id sel idx))
  end.

Definition DeleteSelector (id : SelID) (idx : InheritIndex) : InheritIndex :=
  set_selectors (delete id)
    (foldl (λ idx labelId, deleteMatch id labelId idx) idx
       (enumItemIDs (default ∅ (labelIdsBySelId idx !! id)))).

(** ** Parents *)
Definition getOrCreateParent (id : string) (idx : InheritIndex) : InheritIndex * parentAddr :=
  match parentDataByParentID idx !! id with
  | Some parent => (idx, parent)
  | None =>
      let parent := length (parentObjects idx) in
      (set_parents <[id := parent]> (λ h, h ++ [MkParentData id uniquelabels.Nil None]) idx, parent)
  end.

Definition discardParentIfEmpty (id : string) (idx : InheritIndex) : InheritIndex :=
  match parentDataByParentID idx !! id with
  | None => idx
  | Some parent =>
      let pd := deref (parentObjects idx) parent in
      match pd_itemIDs pd with
      | None => if uniquelabels.IsNil (pd_labels pd) then set_parents (delete id) (λ h, h) idx else idx
      | Some _ => idx
      end
  end.

Definition set_itemIDs (a : parentAddr) (f : option (gset ItemID) → option (gset ItemID)) (h : parentHeap) : parentHeap :=
  <[a := let pd := deref h a in MkParentData (pd_id pd) (pd_labels pd) (f (pd_itemIDs pd))]> h.
Definition set_labels (a : parentAddr) (l : uniquelabels.Map) (h : parentHeap) : parentHeap :=
  <[a := let pd := deref h a in MkParentData (pd_id pd) l (pd_itemIDs pd)]> h.

(** [parent.itemIDs.Discard(id)] (a nil set has nothing to discard), then nil if empty. *)
Definition discardItemID (id : ItemID) (ids : option (gset ItemID)) : option (gset ItemID) :=
  match ids with
  | None => None
  | Some s => let s' := s ∖ {[id]} in if decide (size s' = 0) then None else Some s'
  end.

Definition removeOldParent (id : ItemID) (currentParentIDs : gset string) (idx : InheritIndex) (parent : parentAddr)
    : InheritIndex :=
  let pid := pd_id (deref (parentObjects idx) parent) in
  if decide (pid ∈ currentParentIDs) then idx
  else discardParentIfEmpty pid (set_parents (λ m, m) (set_itemIDs parent (discardItemID id)) idx).

Definition addNewParent (id : ItemID) (idx : InheritIndex) (parent : parentAddr) : InheritIndex :=
  set_parents (λ m, m) (set_itemIDs parent (λ ids, Some ({[id]} ∪ default ∅ ids))) idx.

Definition onItemParentsUpdate (id : ItemID) (oldParents newParents : list parentAddr) (idx : InheritIndex) : InheritIndex :=
  let currentParentIDs : gset string :=
    list_to_set (map (λ a, pd_id (deref (parentObjects idx) a)) newParents) in
  foldl (addNewParent id) (foldl (removeOldParent id currentParentIDs) idx oldParents) newParents.

(** ** Items *)
(** [reflect.DeepEqual] of the old parents, a slice of pointers, and of the identifiers of
    the new ones, a slice of strings: values of different types are never deeply equal. *)
Definition DeepEqual_parents (oldParents : list parentAddr) (parentIDs : list string) : bool := false.

Fixpoint getOrCreateParents (ids : list string) (idx : InheritIndex) : InheritIndex * list parentAddr :=
  match ids with
  | [] => (idx, [])
  | pID :: ids' =>
      let '(idx1, parent) := getOrCreateParent pID idx in
      let '(idx2, rest) := getOrCreateParents ids' idx1 in
      (idx2, parent :: rest)
  end.

Definition UpdateLabels (id : ItemID) (newLabels : uniquelabels.Map) (parentIDs : list string) (idx : InheritIndex) : InheritIndex :=
  let oldItemData := itemDataByID idx !! id in
  let oldParents := match oldItemData with Some old => parents old | None => [] end in
  if match oldItemData with
     | Some old => bool_decide (labels old = newLabels) && DeepEqual_parents oldParents parentIDs
     | None => false
     end
  then idx
  else
    let l := if (0 <? uniquelabels.Len newLabels)%nat then newLabels else uniquelabels.Nil in
    let '(idx1, newParents) := getOrCreateParents parentIDs idx in
    let idx2 := set_items <[id := MkItemData l newParents]> idx1 in
    let idx3 := onItemParentsUpdate id oldParents newParents idx2 in
    flushUpdates (set_dirty (λ d, {[id]} ∪ d) idx3).

Definition DeleteLabels (id : ItemID) (idx : InheritIndex) : InheritIndex :=
  let oldParents := match itemDataByID idx !! id with Some old => parents old | None => [] end in
  let idx1 := onItemParentsUpdate id oldParents [] (set_items (delete id) idx) in
  flushUpdates (set_dirty (λ d, {[id]} ∪ d) idx1).

Definition flushChildren (parentID : string) (idx : InheritIndex) : InheritIndex :=
  flushUpdates
    (match parentDataByParentID idx !! parentID with
     | Some parent =>
         set_dirty (λ d, default ∅ (pd_itemIDs (deref (parentObjects idx) parent)) ∪ d) idx
     | None => idx
     end).

(** [uniquelabels.Make] returns its argument (see [UniqueLabels.v]). *)
Definition UpdateParentLabels (parentID : string) (newLabels : option (gmap string string)) (idx : InheritIndex) : InheritIndex :=
  let '(idx1, parent) := getOrCreateParent parentID idx in
  flushChildren parentID (set_parents (λ m, m) (set_labels parent newLabels) idx1).

Definition DeleteParentLabels (parentID : string) (idx : InheritIndex) : InheritIndex :=
  match parentDataByParentID idx !! parentID with
  | None => idx
  | Some parent =>
      flushChildren parentID
        (discardParentIfEmpty parentID (set_parents (λ m, m) (set_labels parent uniquelabels.Nil) idx))
  end.

(** ** [OnUpdate]

    A workload or host endpoint carries its labels and profile identifiers; a resource
    matters only when it is a profile. *)
Inductive IndexUpdate :=
  | EndpointUpdate (key : ItemID) (value : option (uniquelabels.Map * list string))
  | ResourceUpdate (Kind Name : string) (LabelsToApply : option (option (gmap string string))).

Definition OnUpdate (update : IndexUpdate) (idx : InheritIndex) : InheritIndex :=
  match update with
  | EndpointUpdate key (Some (l, profileIDs)) => UpdateLabels key l profileIDs idx
  | EndpointUpdate key None => DeleteLabels key idx
  | ResourceUpdate Kind Name value =>
      if decide (Kind ≠ "Profile") then idx
      else match value with
           | Some l => UpdateParentLabels Name l idx
           | None => DeleteParentLabels Name idx
           end
  end.
End operations.
End index.
Arguments MatchCallback : clear implicits.
Arguments IndexUpdate : clear implicits.
Arguments InheritIndex ItemID {_ _} SelID {_ _}.
