(* ===== verification/InheritIndexSpec.v ===== *)
(** * What the label inheritance index promises

    [datamodel] is what the index was told: items with their labels and parents, labels of
    parents, selectors.  [matching] is the relation the index must maintain.  [replay] runs
    the callbacks against the set of current matches; it fails on a match that starts
    twice or stops without having started.  [index_inv] relates an index to a data model. *)
From S2P Require Import Prelude.
From S2P Require Import SelectorAST.
From S2P Require Import SelectorParser.
From S2P Require Import SelectorRoundTrip.
From S2P Require Import UniqueLabels.
From S2P Require Import Multidict.
From S2P Require Import InheritIndex.
From stdpp Require Import base list gmap strings.
From stdpp Require Import options.

(** Evaluation only looks labels up. *)
Lemma Evaluate_ext {L1 L2} `{Labels L1} `{Labels L2} node (l1 : L1) (l2 : L2) :
  (∀ n, GetHandle l1 n = GetHandle l2 n) → Evaluate node l1 = Evaluate node l2.
Proof.
  intros Hl. induction node as [n v|n v|n v|n v|n ss|n ss|n v|n|op IH|ops IH|ops IH| |]
    using Node_nested_ind; simpl; rewrite ?Hl; try done.
  - by rewrite IH.
  - induction IH as [|op ops Hop _ IHops]; simpl; [done|]. by rewrite Hop, IHops.
  - induction IH as [|op ops Hop _ IHops]; simpl; [done|]. by rewrite Hop, IHops.
Qed.

Section spec.
Context `{Countable ItemID} `{Countable SelID}.

Record datamodel := MkDatamodel {
  dm_items : gmap ItemID (uniquelabels.Map * list string);
  dm_parents : gmap string uniquelabels.Map;
  dm_selectors : gmap SelID Selector
}.

Definition emptyDatamodel : datamodel := MkDatamodel ∅ ∅ ∅.

Definition parentLabels (dm : datamodel) (p : string) : gmap string string :=
  uniquelabels.entries (default uniquelabels.Nil (dm_parents dm !! p)).

(** The labels of an item: its own, then the first parent that has the label. *)
Definition effectiveLabel (dm : datamodel) (item : uniquelabels.Map * list string) (n : string) : option string :=
  match uniquelabels.entries item.1 !! n with
  | Some v => Some v
  | None => list_find (λ p, is_Some (parentLabels dm p !! n)) item.2 ≫= λ '(_, p), parentLabels dm p !! n
  end.

#[global] Instance effective_Labels : Labels (datamodel * (uniquelabels.Map * list string)) :=
  λ '(dm, item), effectiveLabel dm item.

Definition matching (dm : datamodel) (s : SelID) (i : ItemID) : bool :=
  match dm_selectors dm !! s, dm_items dm !! i with
  | Some sel, Some item => Evaluate (root sel) (dm, item)
  | _, _ => false
  end.

Inductive IndexOp :=
  | OpUpdate (update : IndexUpdate ItemID)
  | OpUpdateSelector (id : SelID) (sel : Selector)
  | OpDeleteSelector (id : SelID).

Definition dm_step (dm : datamodel) (op : IndexOp) : datamodel :=
  match op with
  | OpUpdate (EndpointUpdate key (Some item)) =>
      MkDatamodel (<[key := item]> (dm_items dm)) (dm_parents dm) (dm_selectors dm)
  | OpUpdate (EndpointUpdate key None) =>
      MkDatamodel (delete key (dm_items dm)) (dm_parents dm) (dm_selectors dm)
  | OpUpdate (ResourceUpdate Kind Name value) =>
      if decide (Kind ≠ "Profile") then dm
      else MkDatamodel (dm_items dm)
             (match value with Some l => <[Name := l]> (dm_parents dm) | None => delete Name (dm_parents dm) end)
             (dm_selectors dm)
  | OpUpdateSelector id sel => MkDatamodel (dm_items dm) (dm_parents dm) (<[id := sel]> (dm_selectors dm))
  | OpDeleteSelector id => MkDatamodel (dm_items dm) (dm_parents dm) (delete id (dm_selectors dm))
  end.

Definition callbackPair (ev : MatchCallback ItemID SelID) : SelID * ItemID :=
  match ev with OnMatchStarted s i | OnMatchStopped s i => (s, i) end.

Definition replayStep (M : option (gset (SelID * ItemID))) (ev : MatchCallback ItemID SelID)
    : option (gset (SelID * ItemID)) :=
  match M, ev with
  | None, _ => None
  | Some M, OnMatchStarted s i => if decide ((s, i) ∈ M) then None else Some ({[(s, i)]} ∪ M)
  | Some M, OnMatchStopped s i => if decide ((s, i) ∈ M) then Some (M ∖ {[(s, i)]}) else None
  end.
Definition replay (M : gset (SelID * ItemID)) (evs : list (MatchCallback ItemID SelID)) : option (gset (SelID * ItemID)) :=
  foldl replayStep (Some M) evs.

(** The callbacks report exactly the pairs on which [A] and [B] differ, each once. *)
Definition exact_events (evs : list (MatchCallback ItemID SelID)) (A B : SelID * ItemID → bool) : Prop :=
  NoDup (callbackPair <$> evs) ∧
  ∀ s i, (OnMatchStarted s i ∈ evs ↔ A (s, i) = false ∧ B (s, i) = true) ∧
         (OnMatchStopped s i ∈ evs ↔ A (s, i) = true ∧ B (s, i) = false).

Lemma callback_pair_cases x (evs : list (MatchCallback ItemID SelID)) :
  x ∈ callbackPair <$> evs ↔ OnMatchStarted x.1 x.2 ∈ evs ∨ OnMatchStopped x.1 x.2 ∈ evs.
Proof.
  rewrite list_elem_of_fmap. split.
  - intros ([s i|s i] & -> & Hin); auto.
  - intros [Hin|Hin]; eexists; (split; [|exact Hin]); by destruct x.
Qed.

Lemma exact_events_nil A B : (∀ x, A x = B x) → exact_events [] A B.
Proof.
  intros Heq. split; [constructor|]. intros s i. rewrite Heq. split; (split; [by intros ?%not_elem_of_nil|]);
    by destruct (B (s, i)); intros [].
Qed.

Lemma exact_events_ext evs A A' B B' :
  (∀ x, A x = A' x) → (∀ x, B x = B' x) → exact_events evs A B → exact_events evs A' B'.
Proof. intros HA HB [Hnd Hev]. split; [done|]. intros s i. rewrite <-HA, <-HB. apply Hev. Qed.

Lemma exact_events_app evs1 evs2 A B C :
  (∀ x, A x = B x ∨ B x = C x) → exact_events evs1 A B → exact_events evs2 B C → exact_events (evs1 ++ evs2) A C.
Proof.
  intros Hd [Hnd1 H1] [Hnd2 H2]. split.
  - rewrite fmap_app. apply NoDup_app. split_and!; [done| |done]. intros x. rewrite !callback_pair_cases.
    destruct x as [s i]. simpl. rewrite !(proj1 (H1 s i)), !(proj2 (H1 s i)), !(proj1 (H2 s i)), !(proj2 (H2 s i)).
    destruct (Hd (s, i)); intuition congruence.
  - intros s i. rewrite !elem_of_app, (proj1 (H1 s i)), (proj2 (H1 s i)), (proj1 (H2 s i)), (proj2 (H2 s i)).
    destruct (Hd (s, i)); intuition congruence.
Qed.

Definition setPair (x : SelID * ItemID) (b : bool) (A : SelID * ItemID → bool) (y : SelID * ItemID) : bool :=
  if decide (y = x) then b else A y.

Lemma exact_events_cons ev evs A B :
  exact_events (ev :: evs) A B →
  match ev with
  | OnMatchStarted s i => A (s, i) = false ∧ exact_events evs (setPair (s, i) true A) B
  | OnMatchStopped s i => A (s, i) = true ∧ exact_events evs (setPair (s, i) false A) B
  end.
Proof.
  intros [Hnd Hev]. apply list.NoDup_cons in Hnd as [Hni Hnd]. rewrite callback_pair_cases in Hni.
  assert (Hhead := λ s i, Hev s i). destruct ev as [s i|s i]; simpl in Hni.
  - destruct (Hev s i) as [[HS _] _]. destruct HS as [HA HB]; [by left|]. split; [done|]. split; [done|].
    intros s' i'. specialize (Hev s' i') as [H1 H2]. rewrite elem_of_cons in H1, H2. unfold setPair.
    case_decide; simplify_eq; [rewrite HB; naive_solver|]. rewrite <-H1, <-H2. naive_solver.
  - destruct (Hev s i) as [_ [HS _]]. destruct HS as [HA HB]; [by left|]. split; [done|]. split; [done|].
    intros s' i'. specialize (Hev s' i') as [H1 H2]. rewrite elem_of_cons in H1, H2. unfold setPair.
    case_decide; simplify_eq; [rewrite HB; naive_solver|]. rewrite <-H1, <-H2. naive_solver.
Qed.

Lemma replay_exact (evs : list (MatchCallback ItemID SelID)) (A B : SelID * ItemID → bool) (M : gset (SelID * ItemID)) :
  exact_events evs A B → (∀ x, x ∈ M ↔ A x = true) →
  ∃ M', replay M evs = Some M' ∧ ∀ x, x ∈ M' ↔ B x = true.
Proof.
  revert A M. induction evs as [|ev evs IH]; intros A M Hex HM.
  - exists M. split; [done|]. intros [s i]. rewrite HM. destruct Hex as [_ Hex]. specialize (Hex s i) as [H1 H2].
    rewrite elem_of_nil in H1, H2. destruct (A (s, i)), (B (s, i)); naive_solver.
  - apply exact_events_cons in Hex. unfold replay. destruct ev as [s i|s i]; destruct Hex as [HA Hex]; cbn [foldl replayStep].
    + rewrite decide_False by (rewrite HM; congruence). apply (IH _ _ Hex). intros y. unfold setPair.
      case_decide; set_solver.
    + rewrite decide_True by (by rewrite HM). apply (IH _ _ Hex). intros y. unfold setPair.
      case_decide; set_solver.
Qed.

Lemma replay_app M evs1 evs2 : replay M (evs1 ++ evs2) = replay M evs1 ≫= λ M', replay M' evs2.
Proof.
  unfold replay. rewrite foldl_app. destruct (foldl replayStep (Some M) evs1) as [M'|]; [done|]. simpl.
  induction evs2; done.
Qed.

(** ** Recording matches *)
Abbreviation Index := (InheritIndex ItemID SelID).
Implicit Types (idx : Index) (dm : datamodel) (x : SelID * ItemID).

Definition matched idx x : bool := Multidict.Contains (labelIdsBySelId idx) x.1 x.2.

Record core_ok idx : Prop := {
  co_by_sel : md_ok (labelIdsBySelId idx);
  co_by_item : md_ok (selIdsByLabelId idx);
  co_inverse s i : md_in (selIdsByLabelId idx) i s ↔ md_in (labelIdsBySelId idx) s i
}.

(** The operations on matches leave the rest of the index alone. *)
Record frame idx idx' : Prop := {
  fr_items : itemDataByID idx' = itemDataByID idx;
  fr_parents : parentDataByParentID idx' = parentDataByParentID idx;
  fr_selectors : selectorsById idx' = selectorsById idx;
  fr_objects : parentObjects idx' = parentObjects idx
}.

#[global] Instance frame_refl : Reflexive frame.
Proof. by intros idx. Qed.
#[global] Instance frame_trans : Transitive frame.
Proof. intros i1 i2 i3 [] []. split; congruence. Qed.

(** From [idx] to [idx'] the pairs of [P], and only those, were set to [T], with exact
    callbacks. *)
Record scanned (T P : SelID * ItemID → bool) idx idx' : Prop := {
  sc_frame : frame idx idx';
  sc_core : core_ok idx';
  sc_set x : matched idx' x = if P x then T x else matched idx x;
  sc_events : ∃ evs, callbacks idx' = callbacks idx ++ evs ∧ exact_events evs (matched idx) (matched idx')
}.

Lemma scanned_refl T P idx : core_ok idx → (∀ x, P x = true → matched idx x = T x) → scanned T P idx idx.
Proof.
  intros Hc HP. split; [done|done| |].
  - intros x. destruct (P x) eqn:E; [by apply HP|done].
  - exists []. split; [by rewrite app_nil_r|by apply exact_events_nil].
Qed.

Lemma scanned_trans T P1 P2 idx1 idx2 idx3 :
  (∀ x, P1 x = true → P2 x = true → False) →
  scanned T P1 idx1 idx2 → scanned T P2 idx2 idx3 → scanned T (λ x, P1 x || P2 x) idx1 idx3.
Proof.
  intros Hd [Hf1 Hc1 Hs1 (evs1&Hcb1&Hev1)] [Hf2 Hc2 Hs2 (evs2&Hcb2&Hev2)]. split; [by etrans|done| |].
  - intros x. rewrite Hs2, Hs1. specialize (Hd x). destruct (P1 x), (P2 x); naive_solver.
  - exists (evs1 ++ evs2). split; [by rewrite Hcb2, Hcb1, (assoc_L (++))|]. eapply exact_events_app; [|done|done].
    intros x. rewrite Hs2, Hs1. specialize (Hd x). destruct (P1 x), (P2 x); naive_solver.
Qed.

Lemma scanned_ext T P T' P' idx idx' :
  (∀ x, P x = P' x) → (∀ x, P x = true → T x = T' x) → scanned T P idx idx' → scanned T' P' idx idx'.
Proof.
  intros HP HT [Hf Hc Hs Hev]. split; [done|done| |done]. intros x. rewrite Hs, <-HP. destruct (P x) eqn:E; [|done].
  by apply HT.
Qed.

(** Loops: the pairs of different elements are disjoint. *)
Lemma foldl_scanned {A} (J : Index → Prop) (f : Index → A → Index) T (P : A → SelID * ItemID → bool) l idx :
  NoDup l → core_ok idx → J idx →
  (∀ a b x, a ∈ l → b ∈ l → P a x = true → P b x = true → a = b) →
  (∀ a idx', a ∈ l → frame idx idx' → core_ok idx' → J idx' → scanned T (P a) idx' (f idx' a) ∧ J (f idx' a)) →
  scanned T (λ x, existsb (λ a, P a x) l) idx (foldl f idx l) ∧ J (foldl f idx l).
Proof.
  revert idx. induction l as [|a l IH]; intros idx Hnd Hc HJ Hd Hf; cbn [foldl existsb].
  - split; [by apply scanned_refl|done].
  - apply list.NoDup_cons in Hnd as [Ha Hnd].
    destruct (Hf a idx) as [Hsa HJa]; [left|done|done|done|].
    destruct (IH (f idx a)) as [Hsl HJl]; [done|apply Hsa|done| | |].
    + intros b c x Hb Hcc. apply Hd; by right.
    + intros b idx' Hb Hfr. apply Hf; [by right|]. etrans; [apply Hsa|done].
    + split; [|done]. eapply scanned_trans; [|exact Hsa|exact Hsl].
      intros x Hx (b&Hb&Hbx)%existsb_exists. apply list_elem_of_In in Hb.
      assert (a = b) as <- by (eapply Hd; eauto using list_elem_of_here, list_elem_of_further). done.
Qed.

Definition isPair (s : SelID) (i : ItemID) x : bool := bool_decide (x = (s, i)).

Lemma matched_md idx x : matched idx x = true ↔ md_in (labelIdsBySelId idx) x.1 x.2.
Proof. done. Qed.

(** A change of one pair, in both directions, with its callback. *)
Lemma set_matches_scanned f g ev idx s i (b : bool) :
  core_ok idx → matched idx (s, i) = negb b → ev = (if b then OnMatchStarted s i else OnMatchStopped s i) →
  f (selIdsByLabelId idx) = (if b then Multidict.Put i s else Multidict.Discard i s) (selIdsByLabelId idx) →
  g (labelIdsBySelId idx) = (if b then Multidict.Put s i else Multidict.Discard s i) (labelIdsBySelId idx) →
  scanned (λ _, b) (isPair s i) idx (set_matches f g ev idx).
Proof.
  intros [Hos Hoi Hinv] Hm Hev Hf Hg.
  assert (Hset : ∀ x, matched (set_matches f g ev idx) x = if isPair s i x then b else matched idx x).
  { intros [s' i']. apply eq_true_iff_eq. rewrite matched_md. cbn [set_matches labelIdsBySelId fst snd]. rewrite Hg.
    unfold isPair. destruct b; rewrite ?md_Put_in, ?md_Discard_in; case_bool_decide; rewrite ?matched_md; simpl; naive_solver. }
  split; [done| |done|].
  - split; cbn [set_matches labelIdsBySelId selIdsByLabelId]; rewrite ?Hf, ?Hg.
    + destruct b; auto using md_Put_ok, md_Discard_ok.
    + destruct b; auto using md_Put_ok, md_Discard_ok.
    + intros s' i'. destruct b; rewrite ?md_Put_in, ?md_Discard_in, Hinv; naive_solver.
  - exists [ev]. split; [done|]. split; [apply NoDup_singleton|]. intros s' i'. rewrite Hset. unfold isPair.
    rewrite !list_elem_of_singleton, Hev. case_bool_decide; simplify_eq; rewrite ?Hm; destruct b; simpl; intuition congruence.
Qed.

Lemma storeMatch_scanned s i idx : core_ok idx → scanned (λ _, true) (isPair s i) idx (storeMatch s i idx).
Proof.
  intros Hc. unfold storeMatch. case_decide as Hin.
  - apply scanned_refl; [done|]. intros x ->%bool_decide_eq_true. by apply matched_md, md_in_lookup.
  - apply set_matches_scanned; try done. apply not_true_is_false. by rewrite matched_md, md_in_lookup.
Qed.

Lemma deleteMatch_scanned s i idx : core_ok idx → scanned (λ _, false) (isPair s i) idx (deleteMatch s i idx).
Proof.
  intros Hc. unfold deleteMatch.
  destruct (labelIdsBySelId idx !! s) as [labelIds|] eqn:Hs; [case_decide as Hin|].
  - assert (Hm : md_in (labelIdsBySelId idx) s i) by (by rewrite md_in_lookup, Hs).
    apply set_matches_scanned; try done.
    + cbn. unfold Multidict.Discard. apply (co_inverse _ Hc), md_in_lookup in Hm.
      by destruct (selIdsByLabelId idx !! i).
    + cbn. unfold Multidict.Discard. by rewrite Hs.
  - apply scanned_refl; [done|]. intros x ->%bool_decide_eq_true. apply not_true_is_false.
    rewrite matched_md, md_in_lookup. simpl. by rewrite Hs.
  - apply scanned_refl; [done|]. intros x ->%bool_decide_eq_true. apply not_true_is_false.
    rewrite matched_md, md_in_lookup. simpl. rewrite Hs. apply not_elem_of_empty.
Qed.

Lemma updateMatches_scanned T s sel i item idx :
  core_ok idx → T (s, i) = Evaluate (root sel) (parentObjects idx, item) →
  scanned T (isPair s i) idx (updateMatches s sel i item idx).
Proof.
  intros Hc HT. unfold updateMatches.
  eapply (scanned_ext (λ _, Evaluate (root sel) (parentObjects idx, item)) (isPair s i)); [done| |].
  - by intros x ->%bool_decide_eq_true.
  - destruct (Evaluate _ _); [by apply storeMatch_scanned|by apply deleteMatch_scanned].
Qed.

(** ** Scans *)
Section scans.
Context (enumItems : gmap ItemID itemData → list (ItemID * itemData)).
Context (enumSelectors : gmap SelID Selector → list (SelID * Selector)).
Context (enumItemIDs : gset ItemID → list ItemID) (enumSelIDs : gset SelID → list SelID).
Context (HenumItems : ∀ m, enumItems m ≡ₚ map_to_list m) (HenumSelectors : ∀ m, enumSelectors m ≡ₚ map_to_list m).
Context (HenumItemIDs : ∀ s, enumItemIDs s ≡ₚ elements s) (HenumSelIDs : ∀ s, enumSelIDs s ≡ₚ elements s).
#[local] Set Default Proof Using "All".

(** What the index would answer for a pair if it evaluated it now. *)
Definition now idx x : bool :=
  match selectorsById idx !! x.1, itemDataByID idx !! x.2 with
  | Some sel, Some item => Evaluate (root sel) (parentObjects idx, item)
  | _, _ => false
  end.

Lemma now_frame idx idx' x : frame idx idx' → now idx' x = now idx x.
Proof. intros [Hi _ Hs Ho]. unfold now. by rewrite Hi, Hs, Ho. Qed.

Definition known idx : Prop := ∀ x, matched idx x = true → is_Some (selectorsById idx !! x.1).

Lemma existsb_enum {K V} `{Countable K} (l : list (K * V)) (m : gmap K V) (f : K * V → bool) :
  l ≡ₚ map_to_list m → existsb f l = true ↔ ∃ k v, m !! k = Some v ∧ f (k, v) = true.
Proof.
  intros Hp. rewrite existsb_exists. setoid_rewrite <-list_elem_of_In. setoid_rewrite Hp. split.
  - intros ([k v] & Hk%elem_of_map_to_list & Hf). eauto.
  - intros (k & v & Hk & Hf). exists (k, v). by rewrite elem_of_map_to_list.
Qed.

Lemma NoDup_enum {K V} `{Countable K} (l : list (K * V)) (m : gmap K V) : l ≡ₚ map_to_list m → NoDup l.
Proof. intros ->. apply NoDup_map_to_list. Qed.

Lemma enum_functional {K V} `{Countable K} (l : list (K * V)) (m : gmap K V) k v1 v2 :
  l ≡ₚ map_to_list m → (k, v1) ∈ l → (k, v2) ∈ l → v1 = v2.
Proof. intros ->. rewrite !elem_of_map_to_list. congruence. Qed.

Lemma scanAllLabels_scanned s sel idx :
  core_ok idx →
  scanned (λ x, match itemDataByID idx !! x.2 with
                | Some item => Evaluate (root sel) (parentObjects idx, item) | None => false end)
    (λ x, bool_decide (x.1 = s) && bool_decide (is_Some (itemDataByID idx !! x.2))) idx
    (scanAllLabels enumItems s sel idx).
Proof.
  intros Hc. unfold scanAllLabels. eapply scanned_ext; [| |eapply (foldl_scanned (λ _, True) _ _ (λ a, isPair s a.1))].
  - intros [s' i]. apply eq_true_iff_eq. rewrite (existsb_enum _ _ _ (HenumItems _)), andb_true_iff, !bool_decide_eq_true.
    unfold isPair. setoid_rewrite bool_decide_eq_true. simpl. split.
    + intros (k & v & Hk & ?). simplify_eq. by eauto.
    + intros [-> [v Hv]]. by eauto.
  - done.
  - eapply NoDup_enum, HenumItems.
  - done.
  - done.
  - intros [i1 it1] [i2 it2] x H1 H2. unfold isPair. rewrite !bool_decide_eq_true. intros -> [= <-]. f_equal.
    eapply enum_functional; eauto.
  - intros [i it] idx' Hin Hfr Hc' _. split; [|done]. apply updateMatches_scanned; [done|]. simpl.
    rewrite HenumItems, elem_of_map_to_list in Hin. by rewrite Hin, (fr_objects _ _ Hfr).
Qed.

Lemma scanAllSelectors_scanned i item idx :
  core_ok idx → itemDataByID idx !! i = Some item →
  scanned (now idx) (λ x, bool_decide (x.2 = i) && bool_decide (is_Some (selectorsById idx !! x.1))) idx
    (scanAllSelectors enumSelectors i idx).
Proof.
  intros Hc Hi. unfold scanAllSelectors. rewrite Hi.
  eapply scanned_ext; [| |eapply (foldl_scanned (λ _, True) _ (now idx) (λ a, isPair a.1 i))].
  - intros [s i']. apply eq_true_iff_eq. rewrite (existsb_enum _ _ _ (HenumSelectors _)), andb_true_iff, !bool_decide_eq_true.
    unfold isPair. setoid_rewrite bool_decide_eq_true. simpl. split.
    + intros (k & v & Hk & ?). simplify_eq. by eauto.
    + intros [-> [v Hv]]. by eauto.
  - done.
  - eapply NoDup_enum, HenumSelectors.
  - done.
  - done.
  - intros [s1 sel1] [s2 sel2] x H1 H2. unfold isPair. rewrite !bool_decide_eq_true. intros -> [= <-]. f_equal.
    eapply enum_functional; eauto.
  - intros [s sel] idx' Hin Hfr Hc' _. split; [|done]. apply updateMatches_scanned; [done|]. unfold now. simpl.
    rewrite HenumSelectors, elem_of_map_to_list in Hin. by rewrite Hin, Hi, (fr_objects _ _ Hfr).
Qed.

Lemma set_dirty_scanned T P f idx idx' : scanned T P idx idx' → scanned T P idx (set_dirty f idx').
Proof. intros [[] [] Hs Hev]. split; [by split|by split|done|done]. Qed.

(** Deleting all the matches of an item, or of a selector. *)
Lemma deleteMatches_item i idx :
  core_ok idx →
  scanned (λ _, false) (λ x, bool_decide (x.2 = i)) idx
    (foldl (λ idx selId, deleteMatch selId i idx) idx (enumSelIDs (default ∅ (selIdsByLabelId idx !! i)))).
Proof.
  intros Hc. destruct (foldl_scanned (λ _, True) (λ idx selId, deleteMatch selId i idx) (λ _, false) (λ s, isPair s i)
    (enumSelIDs (default ∅ (selIdsByLabelId idx !! i))) idx) as [Hs _]; try done.
  - rewrite HenumSelIDs. apply NoDup_elements.
  - intros s1 s2 x _ _. unfold isPair. rewrite !bool_decide_eq_true. by intros -> [= <-].
  - intros s idx' _ _ Hc' _. split; [by apply deleteMatch_scanned|done].
  - destruct Hs as [Hf Hc' Hset Hev]. split; [done|done| |done]. intros [s i']. rewrite Hset. simpl.
    destruct (existsb _ _) eqn:Hex.
    + apply existsb_exists in Hex as (s'&_&Heq). apply bool_decide_eq_true in Heq. simplify_eq.
      by rewrite bool_decide_eq_true_2.
    + case_bool_decide; [|done]. subst i'. apply not_true_is_false. intros Hm.
      apply not_true_iff_false in Hex. apply Hex, existsb_exists. exists s. split; [|by apply bool_decide_eq_true].
      apply list_elem_of_In. rewrite HenumSelIDs, elem_of_elements. by apply md_in_lookup, (co_inverse _ Hc).
Qed.

Lemma deleteMatches_selector s idx :
  core_ok idx →
  scanned (λ _, false) (λ x, bool_decide (x.1 = s)) idx
    (foldl (λ idx labelId, deleteMatch s labelId idx) idx (enumItemIDs (default ∅ (labelIdsBySelId idx !! s)))).
Proof.
  intros Hc. destruct (foldl_scanned (λ _, True) (λ idx labelId, deleteMatch s labelId idx) (λ _, false) (λ i, isPair s i)
    (enumItemIDs (default ∅ (labelIdsBySelId idx !! s))) idx) as [Hs _]; try done.
  - rewrite HenumItemIDs. apply NoDup_elements.
  - intros i1 i2 x _ _. unfold isPair. rewrite !bool_decide_eq_true. by intros -> [= <-].
  - intros i idx' _ _ Hc' _. split; [by apply deleteMatch_scanned|done].
  - destruct Hs as [Hf Hc' Hset Hev]. split; [done|done| |done]. intros [s' i]. rewrite Hset. simpl.
    destruct (existsb _ _) eqn:Hex.
    + apply existsb_exists in Hex as (i'&_&Heq). apply bool_decide_eq_true in Heq. simplify_eq.
      by rewrite bool_decide_eq_true_2.
    + case_bool_decide; [|done]. subst s'. apply not_true_is_false. intros Hm.
      apply not_true_iff_false in Hex. apply Hex, existsb_exists. exists i. split; [|by apply bool_decide_eq_true].
      apply list_elem_of_In. rewrite HenumItemIDs, elem_of_elements. by apply md_in_lookup.
Qed.

(** ** Flushing *)
Lemma scanned_known P idx idx' : known idx → scanned (now idx) P idx idx' → known idx'.
Proof.
  intros Hk Hs x. rewrite (sc_set _ _ _ _ Hs), (fr_selectors _ _ (sc_frame _ _ _ _ Hs)). destruct (P x); [|apply Hk].
  unfold now. by destruct (selectorsById idx !! x.1).
Qed.

Lemma flushItem_scanned idx i :
  core_ok idx → known idx →
  scanned (now idx) (λ x, bool_decide (x.2 = i)) idx (flushItem enumSelectors enumSelIDs idx i).
Proof.
  intros Hc Hk. unfold flushItem. apply set_dirty_scanned. destruct (itemDataByID idx !! i) as [item|] eqn:Hi.
  - destruct (scanAllSelectors_scanned i item idx Hc Hi) as [Hf Hc' Hset Hev]. split; [done|done| |done].
    intros x. rewrite Hset. case_bool_decide; simpl; [|done]. case_bool_decide as Hsel; [done|].
    unfold now. destruct (selectorsById idx !! x.1) eqn:E; [destruct Hsel; eauto|].
    apply not_true_is_false. intros Hm%Hk. destruct Hsel. by rewrite E in Hm.
  - eapply scanned_ext; [done| |by apply deleteMatches_item]. simpl. intros x Hx%bool_decide_eq_true.
    unfold now. rewrite Hx, Hi. by destruct (selectorsById idx !! x.1).
Qed.

Lemma foldl_dirty {A} (f : Index → A → Index) l idx :
  (∀ idx a, dirtyItemIDs (f idx a) = dirtyItemIDs idx) → dirtyItemIDs (foldl f idx l) = dirtyItemIDs idx.
Proof using Type. intros Hf. revert idx. induction l as [|a l IH]; intros idx; [done|]. cbn [foldl]. by rewrite IH. Qed.

Lemma deleteMatch_dirty s i idx : dirtyItemIDs (deleteMatch s i idx) = dirtyItemIDs idx.
Proof using Type. unfold deleteMatch. by repeat case_match. Qed.

Lemma updateMatches_dirty s sel i item idx : dirtyItemIDs (updateMatches s sel i item idx) = dirtyItemIDs idx.
Proof using Type.
  unfold updateMatches. destruct (Evaluate _ _); [|apply deleteMatch_dirty]. unfold storeMatch. by case_decide.
Qed.

Lemma flushItem_dirty idx i :
  dirtyItemIDs (flushItem enumSelectors enumSelIDs idx i) = dirtyItemIDs idx ∖ {[i]}.
Proof.
  unfold flushItem. cbn [set_dirty dirtyItemIDs]. f_equal. destruct (itemDataByID idx !! i) as [item|] eqn:Hi.
  - unfold scanAllSelectors. rewrite Hi. apply foldl_dirty. intros ? [? ?]. apply updateMatches_dirty.
  - apply foldl_dirty. intros. apply deleteMatch_dirty.
Qed.

Lemma foldl_flushItem_dirty l idx :
  dirtyItemIDs (foldl (flushItem enumSelectors enumSelIDs) idx l) = dirtyItemIDs idx ∖ list_to_set l.
Proof.
  revert idx. induction l as [|i l IH]; intros idx; cbn [foldl list_to_set]; [set_solver|].
  rewrite IH, flushItem_dirty. set_solver.
Qed.

Lemma flushUpdates_scanned idx :
  core_ok idx → known idx →
  scanned (now idx) (λ x, bool_decide (x.2 ∈ dirtyItemIDs idx)) idx
    (flushUpdates enumSelectors enumItemIDs enumSelIDs idx) ∧
  known (flushUpdates enumSelectors enumItemIDs enumSelIDs idx) ∧
  dirtyItemIDs (flushUpdates enumSelectors enumItemIDs enumSelIDs idx) = ∅.
Proof.
  intros Hc Hk. unfold flushUpdates. rewrite foldl_flushItem_dirty.
  destruct (foldl_scanned known (flushItem enumSelectors enumSelIDs) (now idx) (λ i x, bool_decide (x.2 = i))
    (enumItemIDs (dirtyItemIDs idx)) idx) as [Hs Hk']; try done.
  - rewrite HenumItemIDs. apply NoDup_elements.
  - intros i1 i2 x _ _. rewrite !bool_decide_eq_true. congruence.
  - intros i idx' _ Hfr Hc' Hk'. assert (Hfl := flushItem_scanned idx' i Hc' Hk').
    split; [|by eapply scanned_known]. eapply scanned_ext; [done| |done]. intros x _. by apply now_frame.
  - split_and!; [|done|].
    2: { apply set_eq. intros i. rewrite elem_of_difference, elem_of_list_to_set, HenumItemIDs, elem_of_elements. set_solver. }
    eapply scanned_ext; [|done|done]. intros x. apply eq_true_iff_eq.
    rewrite existsb_exists. setoid_rewrite <-list_elem_of_In. setoid_rewrite HenumItemIDs.
    setoid_rewrite elem_of_elements. setoid_rewrite bool_decide_eq_true. naive_solver.
Qed.
End scans.
End spec.
