(* ===== verification/InheritIndexCorrect.v ===== *)
(** * The label inheritance index keeps exactly the matches

    [parents_ok] says what the shared objects of the parents hold; it is stated for any
    assignment of labels and children, because the operations pass through states in
    which the item being updated is not yet, or no longer, a child.  [index_inv] relates
    an index to the data model, and every operation preserves it, with callbacks that are
    exactly the changes. *)
From S2P Require Import Prelude.
From S2P Require Import SelectorAST.
From S2P Require Import SelectorParser.
From S2P Require Import SelectorRoundTrip.
From S2P Require Import UniqueLabels.
From S2P Require Import Multidict.
From S2P Require Import InheritIndex.
From S2P Require Import InheritIndexSpec.
From stdpp Require Import base list gmap strings.
From stdpp Require Import options.

Section parents.
Context `{Countable ItemID} `{Countable SelID}.
Abbreviation Index := (InheritIndex ItemID SelID).
Implicit Types (idx : Index) (p q : string) (i : ItemID) (a : parentAddr).
Implicit Types (L : string → gmap string string) (C : string → ItemID → Prop).

Record parent_ok L C p (pd : parentData (ItemID := ItemID)) : Prop := {
  pk_id : pd_id pd = p;
  pk_labels : uniquelabels.entries (pd_labels pd) = L p;
  pk_items i : i ∈ default ∅ (pd_itemIDs pd) ↔ C p i;
  pk_nonempty : pd_itemIDs pd ≠ Some ∅
}.

Record parents_ok idx L C : Prop := {
  po_entry p a : parentDataByParentID idx !! p = Some a →
    ∃ pd, parentObjects idx !! a = Some pd ∧ parent_ok L C p pd;
  po_missing p : parentDataByParentID idx !! p = None → L p = ∅ ∧ ∀ i, ¬ C p i
}.

(** The operations on parents leave the rest of the index alone. *)
Record rest_same idx idx' : Prop := {
  rs_items : itemDataByID idx' = itemDataByID idx;
  rs_selectors : selectorsById idx' = selectorsById idx;
  rs_by_label : selIdsByLabelId idx' = selIdsByLabelId idx;
  rs_by_sel : labelIdsBySelId idx' = labelIdsBySelId idx;
  rs_dirty : dirtyItemIDs idx' = dirtyItemIDs idx;
  rs_callbacks : callbacks idx' = callbacks idx
}.

#[global] Instance rest_same_refl : Reflexive rest_same.
Proof. by intros idx. Qed.
#[global] Instance rest_same_trans : Transitive rest_same.
Proof. intros i1 i2 i3 [] []. split; congruence. Qed.

Lemma deref_Some h a (pd : parentData (ItemID := ItemID)) : h !! a = Some pd → deref h a = pd.
Proof. intros Ha. unfold deref. by rewrite Ha. Qed.

Lemma parents_ok_ext idx L L' C C' :
  (∀ p, L p = L' p) → (∀ p i, C p i ↔ C' p i) → parents_ok idx L C → parents_ok idx L' C'.
Proof.
  intros HL HC [He Hm]. split.
  - intros p a (pd&Hpd&[H1 H2 H3 H4])%He. exists pd. split; [done|]. split; [done|by rewrite <-HL| |done].
    intros i. by rewrite <-HC.
  - intros p [H1 H2]%Hm. rewrite <-HL. split; [done|]. intros i. by rewrite <-HC.
Qed.

(** Changing one object: the other entries point to other objects. *)
Lemma parents_ok_set idx L C L' C' p a pd pd' :
  parents_ok idx L C → parentObjects idx !! a = Some pd → pd_id pd = p →
  (parentDataByParentID idx !! p = Some a → parent_ok L' C' p pd') →
  (parentDataByParentID idx !! p = None → L' p = ∅ ∧ ∀ i, ¬ C' p i) →
  (parentDataByParentID idx !! p = Some a ∨ parentDataByParentID idx !! p = None) →
  (∀ q, q ≠ p → L' q = L q ∧ ∀ i, C' q i ↔ C q i) →
  parents_ok (set_parents (λ m, m) <[a := pd']> idx) L' C'.
Proof.
  intros [He Hm] Ha Hid Hp1 Hp2 Hp Hother.
  assert (Hlen : a < length (parentObjects idx)) by (by eapply lookup_lt_Some).
  split; cbn [set_parents parentDataByParentID parentObjects].
  - intros q b Hq. destruct (decide (q = p)) as [->|Hne].
    + destruct Hp as [Hp|Hp]; [|congruence]. assert (b = a) as -> by congruence. exists pd'.
      rewrite list_lookup_insert_eq by done. auto.
    + destruct (He q b Hq) as (pdq & Hb & [H1 H2 H3 H4]). exists pdq. split.
      * rewrite list_lookup_insert_ne; [done|]. intros <-. congruence.
      * destruct (Hother q Hne) as [HL HC]. split; [done|congruence| |done]. intros i. by rewrite HC.
  - intros q Hq. destruct (decide (q = p)) as [->|Hne]; [by apply Hp2|]. destruct (Hother q Hne) as [-> HC].
    setoid_rewrite HC. by apply Hm.
Qed.

(** ** [getOrCreateParent] *)
Definition map_grows idx idx' : Prop :=
  ∀ q a, parentDataByParentID idx !! q = Some a → parentDataByParentID idx' !! q = Some a.

Lemma getOrCreateParent_ok idx L C p idx' a :
  parents_ok idx L C → getOrCreateParent p idx = (idx', a) →
  parents_ok idx' L C ∧ parentDataByParentID idx' !! p = Some a ∧ map_grows idx idx' ∧ rest_same idx idx'.
Proof.
  intros Hok. unfold getOrCreateParent. destruct (parentDataByParentID idx !! p) as [b|] eqn:Hp; intros [= <- <-].
  - split_and!; [done|done|by intros ?|done].
  - cbn [set_parents parentDataByParentID]. split_and!; [|apply lookup_insert_eq| |done].
    + destruct Hok as [He Hm]. split; cbn [set_parents parentDataByParentID parentObjects].
      * intros q b [[<- <-]|[Hne Hq]]%lookup_insert_Some.
        -- eexists. split; [by apply list_lookup_middle|]. destruct (Hm p Hp) as [HL HC]. split; simpl; [done|by rewrite HL| |done].
           intros i. split; [by intros ?%not_elem_of_empty|by intros ?%HC].
        -- destruct (He q b Hq) as (pd&Hb&Hpd). exists pd. split; [by apply lookup_app_l_Some|done].
      * intros q [Hq _]%lookup_insert_None. by apply Hm.
    + intros q b Hq. cbn [set_parents parentDataByParentID]. rewrite lookup_insert_ne; [done|]. intros <-. congruence.
Qed.

Lemma getOrCreateParents_ok ps idx L C idx' addrs :
  parents_ok idx L C → getOrCreateParents ps idx = (idx', addrs) →
  parents_ok idx' L C ∧ Forall2 (λ a p, parentDataByParentID idx' !! p = Some a) addrs ps ∧
  map_grows idx idx' ∧ rest_same idx idx'.
Proof.
  revert idx addrs. induction ps as [|p ps IH]; intros idx addrs Hok; cbn [getOrCreateParents].
  - intros [= <- <-]. split_and!; [done|constructor|by intros ?|done].
  - destruct (getOrCreateParent p idx) as [idx1 a] eqn:E1. destruct (getOrCreateParents ps idx1) as [idx2 rest] eqn:E2.
    intros [= <- <-]. eapply getOrCreateParent_ok in E1 as (Hok1&Ha&Hg1&Hr1); [|done].
    eapply IH in E2 as (Hok2&Hrest&Hg2&Hr2); [|done]. split_and!; [done| | |by etrans].
    + constructor; [by apply Hg2|done].
    + intros q b Hq. by apply Hg2, Hg1.
Qed.

(** ** [discardParentIfEmpty] *)
Lemma discardParentIfEmpty_ok idx L C p :
  parents_ok idx L C →
  parents_ok (discardParentIfEmpty p idx) L C ∧ rest_same idx (discardParentIfEmpty p idx) ∧
  parentObjects (discardParentIfEmpty p idx) = parentObjects idx ∧
  (∀ q, parentDataByParentID (discardParentIfEmpty p idx) !! q = parentDataByParentID idx !! q ∨
        q = p ∧ parentDataByParentID (discardParentIfEmpty p idx) !! q = None).
Proof.
  intros Hok. unfold discardParentIfEmpty.
  destruct (parentDataByParentID idx !! p) as [a|] eqn:Hp; [|split_and!; [done..|by left]].
  destruct (po_entry _ _ _ Hok p a Hp) as (pd&Ha&[Hid Hl Hi Hne]). rewrite (deref_Some _ _ _ Ha).
  destruct (pd_itemIDs pd) as [s|] eqn:Es; [split_and!; [done..|by left]|].
  destruct (uniquelabels.IsNil (pd_labels pd)) eqn:Enil; [|split_and!; [done..|by left]].
  destruct Hok as [He Hm]. split_and!; [|done|done|].
  - split; cbn [set_parents parentDataByParentID parentObjects].
    + intros q b [_ Hq]%lookup_delete_Some. by apply He.
    + intros q [<-|Hq]%lookup_delete_None; [|by apply Hm]. split.
      * rewrite <-Hl. by destruct (pd_labels pd).
      * intros i Hc%Hi. by apply not_elem_of_empty in Hc.
  - intros q. cbn [set_parents parentDataByParentID]. destruct (decide (q = p)) as [->|Hqp].
    + right. by rewrite lookup_delete_eq.
    + left. by rewrite lookup_delete_ne.
Qed.

(** ** [onItemParentsUpdate] *)
(** A parent of the old item: it may have been dropped from the map meanwhile (an item may
    name a parent twice). *)
Definition old_ok idx a p : Prop :=
  ∃ pd, parentObjects idx !! a = Some pd ∧ pd_id pd = p ∧
    (parentDataByParentID idx !! p = Some a ∨ parentDataByParentID idx !! p = None).

Definition map_shrinks idx idx' : Prop :=
  ∀ q, parentDataByParentID idx' !! q = parentDataByParentID idx !! q ∨ parentDataByParentID idx' !! q = None.

Lemma discardItemID_spec i (ids : option (gset ItemID)) :
  ids ≠ Some ∅ → (∀ j, j ∈ default ∅ (discardItemID i ids) ↔ j ∈ default ∅ ids ∧ j ≠ i) ∧ discardItemID i ids ≠ Some ∅.
Proof.
  intros Hne. unfold discardItemID. destruct ids as [s|]; simpl.
  - case_decide as Hsz; simpl.
    + apply size_empty_inv in Hsz. split; [set_solver|done].
    + split; [set_solver|]. intros [= Hs]. apply Hsz. rewrite Hs. apply size_empty.
  - split; [set_solver|done].
Qed.

Lemma set_itemIDs_Some a f h pd :
  h !! a = Some pd →
  set_itemIDs a f h = <[a := MkParentData (pd_id pd) (pd_labels pd) (f (pd_itemIDs pd))]> (h : list (parentData (ItemID := ItemID))).
Proof. intros Ha. unfold set_itemIDs. by rewrite (deref_Some _ _ _ Ha). Qed.

Lemma old_ok_set idx idx' b q a f :
  parentObjects idx' = set_itemIDs a f (parentObjects idx) → map_shrinks idx idx' → old_ok idx b q → old_ok idx' b q.
Proof.
  intros Ho Hs (pd&Hb&Hid&Hmap).
  assert (∃ pd', parentObjects idx' !! b = Some pd' ∧ pd_id pd' = q) as (pd'&Hb'&Hid').
  { rewrite Ho. unfold set_itemIDs. destruct (decide (a = b)) as [->|Hne].
    - rewrite (deref_Some _ _ _ Hb), list_lookup_insert_eq by (by eapply lookup_lt_Some). eauto.
    - rewrite list_lookup_insert_ne by done. eauto. }
  exists pd'. split_and!; [done|done|]. specialize (Hs q). destruct Hs as [-> | ->]; auto.
Qed.

Lemma removeOldParent_ok idx L C id (cur : gset string) a p :
  parents_ok idx L C → old_ok idx a p →
  parents_ok (removeOldParent id cur idx a) L (λ q i, C q i ∧ ¬ (i = id ∧ q = p ∧ q ∉ cur)) ∧
  rest_same idx (removeOldParent id cur idx a) ∧ map_shrinks idx (removeOldParent id cur idx a) ∧
  (∀ b q, old_ok idx b q → old_ok (removeOldParent id cur idx a) b q) ∧
  (∀ q, q ∈ cur → parentDataByParentID (removeOldParent id cur idx a) !! q = parentDataByParentID idx !! q).
Proof.
  intros Hok (pd&Ha&Hid&Hmap). unfold removeOldParent. rewrite (deref_Some _ _ _ Ha), Hid. case_decide as Hcur.
  { split_and!; [|done|by left|done|done]. eapply parents_ok_ext, Hok; [done|]. naive_solver. }
  set (idx1 := set_parents _ _ idx).
  assert (Hok1 : parents_ok idx1 L (λ q i, C q i ∧ ¬ (i = id ∧ q = p ∧ q ∉ cur))).
  { subst idx1. unfold set_parents at 1. rewrite (set_itemIDs_Some _ _ _ _ Ha).
    eapply (parents_ok_set idx L C _ _ p a pd); [done|done|done| | |done| ].
    - intros Hp. destruct (po_entry _ _ _ Hok p a Hp) as (pd1&Ha1&[H1 H2 H3 H4]). simplify_eq.
      destruct (discardItemID_spec id _ H4) as [Hd1 Hd2]. split; simpl; [done|done| |done].
      intros i. rewrite Hd1, H3. naive_solver.
    - intros Hp. destruct (po_missing _ _ _ Hok p Hp). naive_solver.
    - naive_solver. }
  destruct (discardParentIfEmpty_ok idx1 L _ p Hok1) as (Hok2&Hr&Ho&Hm).
  assert (Hsh : map_shrinks idx (discardParentIfEmpty p idx1)) by (intros q; destruct (Hm q) as [->|[_ ->]]; auto).
  split_and!; [done| |done| |].
  - etrans; [|exact Hr]. done.
  - intros b q. eapply old_ok_set; [|done]. exact Ho.
  - intros q Hq. destruct (Hm q) as [->|[-> _]]; done.
Qed.

Lemma removeOldParents_ok idx L C id cur olds ps :
  parents_ok idx L C → Forall2 (old_ok idx) olds ps →
  parents_ok (foldl (removeOldParent id cur) idx olds) L (λ q i, C q i ∧ ¬ (i = id ∧ q ∈ ps ∧ q ∉ cur)) ∧
  rest_same idx (foldl (removeOldParent id cur) idx olds) ∧ map_shrinks idx (foldl (removeOldParent id cur) idx olds) ∧
  (∀ q, q ∈ cur → parentDataByParentID (foldl (removeOldParent id cur) idx olds) !! q = parentDataByParentID idx !! q).
Proof.
  revert idx C ps. induction olds as [|a olds IH]; intros idx C ps Hok Hold; inversion Hold as [|? p ? ps' Hp Hps]; subst.
  - cbn [foldl]. split_and!; [|done|by left|done]. eapply parents_ok_ext, Hok; [done|]. intros q i. rewrite elem_of_nil. tauto.
  - cbn [foldl]. destruct (removeOldParent_ok idx L C id cur a p Hok Hp) as (Hok1&Hr1&Hs1&Hold1&Hk1).
    destruct (IH _ _ ps' Hok1) as (Hok2&Hr2&Hs2&Hk2).
    { eapply Forall2_impl; [done|]. apply Hold1. }
    split_and!; [|by etrans| |intros q Hq; by rewrite Hk2, Hk1].
    + eapply parents_ok_ext, Hok2; [done|]. intros q i. rewrite elem_of_cons. tauto.
    + intros q. destruct (Hs2 q) as [-> | ->]; [apply Hs1|by right].
Qed.

Lemma addNewParents_ok idx L C id news ps :
  parents_ok idx L C → Forall2 (λ a p, parentDataByParentID idx !! p = Some a) news ps →
  parents_ok (foldl (addNewParent id) idx news) L (λ q i, C q i ∨ (i = id ∧ q ∈ ps)) ∧
  rest_same idx (foldl (addNewParent id) idx news) ∧
  parentDataByParentID (foldl (addNewParent id) idx news) = parentDataByParentID idx.
Proof.
  revert idx C ps. induction news as [|a news IH]; intros idx C ps Hok Hnew; inversion Hnew as [|? p ? ps' Hp Hps]; subst.
  - cbn [foldl]. split_and!; [|done|done]. eapply parents_ok_ext, Hok; [done|]. intros q i. rewrite elem_of_nil. tauto.
  - cbn [foldl].
    assert (Hok1 : parents_ok (addNewParent id idx a) L (λ q i, C q i ∨ (i = id ∧ q = p))).
    { destruct (po_entry _ _ _ Hok p a Hp) as (pd&Ha&[H1 H2 H3 H4]).
      unfold addNewParent, set_parents at 1. rewrite (set_itemIDs_Some _ _ _ _ Ha).
      eapply (parents_ok_set idx L C _ _ p a pd); [done|done|done| |congruence|by left|naive_solver].
      intros _. split; simpl; [done|done| |].
      - intros i. rewrite <-H3. set_solver.
      - intros [= He]. set_solver. }
    destruct (IH (addNewParent id idx a) _ ps' Hok1 Hps) as (Hok2&Hr2&Hm2). split_and!; [|by etrans; [|exact Hr2]|done].
    eapply parents_ok_ext, Hok2; [done|]. intros q i. rewrite elem_of_cons. tauto.
Qed.

Lemma onItemParentsUpdate_ok idx L C id olds oldIDs news newIDs :
  parents_ok idx L C → Forall2 (old_ok idx) olds oldIDs →
  Forall2 (λ a p, parentDataByParentID idx !! p = Some a) news newIDs →
  let idx' := onItemParentsUpdate id olds news idx in
  parents_ok idx' L (λ q i, (C q i ∧ ¬ (i = id ∧ q ∈ oldIDs)) ∨ (i = id ∧ q ∈ newIDs)) ∧ rest_same idx idx' ∧
  (∀ q a, parentDataByParentID idx !! q = Some a →
     (∃ i, C q i ∧ i ≠ id) ∨ q ∈ newIDs → parentDataByParentID idx' !! q = Some a).
Proof.
  intros Hok Hold Hnew. unfold onItemParentsUpdate.
  assert (Hcur : map (λ a, pd_id (deref (parentObjects idx) a)) news = newIDs).
  { clear Hold. induction Hnew as [|a p news ps Hp _ IH]; [done|]. cbn [map]. rewrite IH. f_equal.
    destruct (po_entry _ _ _ Hok p a Hp) as (pd&Ha&Hpd). rewrite (deref_Some _ _ _ Ha). apply Hpd. }
  rewrite Hcur. set (cur := list_to_set newIDs).
  destruct (removeOldParents_ok idx L C id cur olds oldIDs Hok Hold) as (Hok1&Hr1&Hs1&Hk1).
  destruct (addNewParents_ok (foldl (removeOldParent id cur) idx olds) L _ id news newIDs Hok1) as (Hok2&Hr2&Hm2).
  { rewrite Forall2_lookup in Hnew |- *. intros k. specialize (Hnew k).
    destruct (newIDs !! k) as [q|] eqn:Hq; inversion Hnew; constructor. rewrite Hk1; [done|].
    apply elem_of_list_to_set. by eapply list_elem_of_lookup_2. }
  split_and!; [|by etrans|].
  - eapply parents_ok_ext, Hok2; [done|]. intros q i. subst cur. cbn beta. rewrite elem_of_list_to_set.
    destruct (decide (q ∈ newIDs)), (decide (i = id)); tauto.
  - intros q a Hq [(i&HC&Hi)|Hin]; rewrite Hm2.
    + destruct (Hs1 q) as [->|Hnone]; [done|]. destruct (po_missing _ _ _ Hok1 q Hnone) as [_ Hno].
      exfalso. apply (Hno i). tauto.
    + rewrite Hk1; [done|]. by apply elem_of_list_to_set.
Qed.
End parents.

Section correct.
Context (MakeUniqueID : string → string → string).
(** The hash of a selector has no collisions. *)
Context (Hhash : ∀ c1 c2, MakeUniqueID "s" c1 = MakeUniqueID "s" c2 → c1 = c2).

Definition parsed (sel : Selector) : Prop := ∃ str, Parse MakeUniqueID str = Ret (Some sel).

Lemma parsed_hash sel : parsed sel → node_wf (root sel) ∧ hash sel = MakeUniqueID "s" (print (root sel)).
Proof using Type.
  intros [s (_&Hwf&_&Hu)%Parse_Ret]. rewrite updateFields_print in Hu by done. split; [done|].
  injection Hu as Hu. by rewrite <-Hu at 1.
Qed.

Lemma same_hash_Evaluate `{Labels L} x y (l : L) :
  parsed x → parsed y → hash x = hash y → Evaluate (root x) l = Evaluate (root y) l.
Proof using Hhash.
  intros [Hwf1 Hh1]%parsed_hash [Hwf2 Hh2]%parsed_hash Hh. rewrite Hh1, Hh2 in Hh. apply Hhash in Hh.
  pose proof (parseRootNode_print (root x) Hwf1) as P1. pose proof (parseRootNode_print (root y) Hwf2) as P2.
  rewrite <-(collapse_Evaluate (root x)), <-(collapse_Evaluate (root y)). congruence.
Qed.

Context `{Countable ItemID} `{Countable SelID}.
Context (enumItems : gmap ItemID itemData → list (ItemID * itemData)).
Context (enumSelectors : gmap SelID Selector → list (SelID * Selector)).
Context (enumItemIDs : gset ItemID → list ItemID) (enumSelIDs : gset SelID → list SelID).
Context (HenumItems : ∀ m, enumItems m ≡ₚ map_to_list m) (HenumSelectors : ∀ m, enumSelectors m ≡ₚ map_to_list m).
Context (HenumItemIDs : ∀ s, enumItemIDs s ≡ₚ elements s) (HenumSelIDs : ∀ s, enumSelIDs s ≡ₚ elements s).
Abbreviation Index := (InheritIndex ItemID SelID).
Abbreviation Model := (datamodel (ItemID := ItemID) (SelID := SelID)).
Implicit Types (idx : Index) (dm : Model) (p q : string) (i : ItemID) (a : parentAddr).

Definition index_step (op : IndexOp) idx : outcome Empty_set Index :=
  match op with
  | OpUpdate update => Ret (OnUpdate enumSelectors enumItemIDs enumSelIDs update idx)
  | OpUpdateSelector id sel => UpdateSelector enumItems id (Some sel) idx
  | OpDeleteSelector id => Ret (DeleteSelector enumItemIDs id idx)
  end.

Fixpoint index_run (ops : list IndexOp) idx : outcome Empty_set Index :=
  match ops with
  | [] => Ret idx
  | op :: ops' => let! idx' := index_step op idx in index_run ops' idx'
  end.

Definition op_ok (op : IndexOp (ItemID := ItemID) (SelID := SelID)) : Prop :=
  match op with OpUpdateSelector _ sel => parsed sel | _ => True end.

#[local] Set Default Proof Using "All".

Definition child dm p i : Prop := ∃ item, dm_items dm !! i = Some item ∧ p ∈ item.2.

Definition item_ok idx (item : option itemData) (spec : option (uniquelabels.Map * list string)) : Prop :=
  match item, spec with
  | Some it, Some (l, ps) =>
      uniquelabels.entries (labels it) = uniquelabels.entries l ∧
      Forall2 (λ a p, parentDataByParentID idx !! p = Some a) (parents it) ps
  | None, None => True
  | _, _ => False
  end.

Definition selector_ok (sel spec : option Selector) : Prop :=
  match sel, spec with
  | Some x, Some y => parsed x ∧ parsed y ∧ hash x = hash y
  | None, None => True
  | _, _ => False
  end.

Record rel idx dm : Prop := {
  rl_parents : parents_ok idx (parentLabels dm) (child dm);
  rl_items i : item_ok idx (itemDataByID idx !! i) (dm_items dm !! i);
  rl_selectors s : selector_ok (selectorsById idx !! s) (dm_selectors dm !! s)
}.

Record index_inv idx dm : Prop := {
  ii_core : core_ok idx;
  ii_rel : rel idx dm;
  ii_dirty : dirtyItemIDs idx = ∅;
  ii_matched x : matched idx x = matching dm x.1 x.2
}.

(** The labels an item sees through the shared objects are its effective labels. *)
Lemma inherited_effective idx dm addrs ps n :
  parents_ok idx (parentLabels dm) (child dm) →
  Forall2 (λ a p, parentDataByParentID idx !! p = Some a) addrs ps →
  inheritedHandle (parentObjects idx) addrs n =
  list_find (λ p, is_Some (parentLabels dm p !! n)) ps ≫= λ '(_, p), parentLabels dm p !! n.
Proof.
  intros Hok Hps. induction Hps as [|a p addrs ps Hp _ IH]; [done|]. cbn [inheritedHandle list_find].
  destruct (po_entry _ _ _ Hok p a Hp) as (pd&Ha&[_ Hl _ _]). rewrite (deref_Some _ _ _ Ha).
  unfold uniquelabels.Map_GetHandle. rewrite Hl. case_decide as Hs.
  - simpl. destruct Hs as [v ->]. done.
  - rewrite IH. destruct (parentLabels dm p !! n); [by destruct Hs|].
    by destruct (list_find _ ps) as [[]|].
Qed.

Lemma now_matching idx dm x : rel idx dm → now idx x = matching dm x.1 x.2.
Proof.
  intros [Hpar Hit Hsel]. unfold now, matching. specialize (Hsel x.1). specialize (Hit x.2).
  destruct (selectorsById idx !! x.1) as [sel|], (dm_selectors dm !! x.1) as [sel'|]; try done.
  destruct (itemDataByID idx !! x.2) as [it|], (dm_items dm !! x.2) as [[l ps]|]; try done.
  destruct Hsel as (Hp1&Hp2&Hh). rewrite (same_hash_Evaluate sel sel') by done. destruct Hit as [Hl Hps].
  apply Evaluate_ext. intros n. unfold GetHandle, itemData_Labels, effective_Labels, itemGetHandle, effectiveLabel.
  unfold uniquelabels.Map_GetHandle. simpl. rewrite Hl. destruct (uniquelabels.entries l !! n); [done|].
  by apply inherited_effective.
Qed.

Lemma effectiveLabel_ext dm dm' item n :
  (∀ p, p ∈ item.2 → parentLabels dm p = parentLabels dm' p) → effectiveLabel dm item n = effectiveLabel dm' item n.
Proof.
  intros Hp. unfold effectiveLabel. destruct (uniquelabels.entries item.1 !! n); [done|].
  induction (item.2) as [|p ps IH]; [done|]. cbn [list_find]. rewrite (Hp p) by left.
  case_decide as Hs; [simpl; by rewrite (Hp p) by left|].
  assert (IH' := IH (λ q Hq, Hp q (list_elem_of_further _ _ _ Hq))).
  destruct (list_find (λ p, is_Some (parentLabels dm p !! n)) ps) as [[]|],
    (list_find (λ p, is_Some (parentLabels dm' p !! n)) ps) as [[]|]; done.
Qed.

(** ** Flushing brings the matches up to date *)
Lemma flush_inv idx dm dm' :
  core_ok idx → rel idx dm' → (∀ x, matched idx x = matching dm x.1 x.2) →
  (∀ s, is_Some (dm_selectors dm !! s) → is_Some (dm_selectors dm' !! s)) →
  (∀ x, x.2 ∉ dirtyItemIDs idx → matching dm x.1 x.2 = matching dm' x.1 x.2) →
  let idx' := flushUpdates enumSelectors enumItemIDs enumSelIDs idx in
  index_inv idx' dm' ∧ ∃ evs, callbacks idx' = callbacks idx ++ evs ∧
    exact_events evs (λ x, matching dm x.1 x.2) (λ x, matching dm' x.1 x.2).
Proof.
  intros Hc Hrel Hm Hsel Hclean idx'.
  assert (Hk : known idx).
  { intros x. rewrite Hm. intros Hx. assert (is_Some (dm_selectors dm' !! x.1)) as Hs.
    { apply Hsel. unfold matching in Hx. destruct (dm_selectors dm !! x.1); [eauto|done]. }
    pose proof (rl_selectors _ _ Hrel x.1) as Hr. destruct Hs as [y Hy]. rewrite Hy in Hr.
    destruct (selectorsById idx !! x.1); [eauto|done]. }
  destruct (flushUpdates_scanned enumItems enumSelectors enumItemIDs enumSelIDs HenumItems HenumSelectors HenumItemIDs HenumSelIDs
    idx Hc Hk) as ([Hf Hc' Hset (evs&Hcb&Hev)]&_&Hd). fold idx' in Hf, Hc', Hset, Hcb, Hev, Hd.
  assert (Hm' : ∀ x, matched idx' x = matching dm' x.1 x.2).
  { intros x. rewrite Hset. case_bool_decide as Hx; [by apply now_matching|]. rewrite Hm. by apply Hclean. }
  split; [|exists evs; split; [done|by eapply exact_events_ext]].
  split; [done| |done|done].
  destruct Hrel as [Hpar Hit Hs], Hf as [F1 F2 F3 F4]. split.
  - destruct Hpar as [He Hmis]. split; rewrite ?F2, ?F4; done.
  - intros i. specialize (Hit i). rewrite F1. unfold item_ok in *. by rewrite F2.
  - intros s. by rewrite F3.
Qed.

(** ** The operations *)
Definition step_ok idx dm idx' dm' : Prop :=
  index_inv idx' dm' ∧ ∃ evs, callbacks idx' = callbacks idx ++ evs ∧
    exact_events evs (λ x, matching dm x.1 x.2) (λ x, matching dm' x.1 x.2).

Lemma matching_same dm dm' s i :
  dm_selectors dm !! s = dm_selectors dm' !! s → dm_items dm !! i = dm_items dm' !! i →
  (∀ p, child dm p i → parentLabels dm p = parentLabels dm' p) → matching dm s i = matching dm' s i.
Proof.
  intros Hs Hi Hp. unfold matching. rewrite Hs, Hi. destruct (dm_selectors dm' !! s) as [sel|]; [|done].
  destruct (dm_items dm' !! i) as [item|] eqn:E; [|done]. apply Evaluate_ext. intros n. apply effectiveLabel_ext.
  intros p Hin. apply Hp. exists item. by rewrite Hi.
Qed.

Lemma parents_ok_fields idx idx' (L : string → gmap string string) C :
  parentDataByParentID idx' = parentDataByParentID idx → parentObjects idx' = parentObjects idx →
  parents_ok idx L C → parents_ok idx' L C.
Proof. intros H1 H2 [He Hm]. split; rewrite ?H1, ?H2; done. Qed.

Lemma item_ok_map idx idx' dm i it :
  (∀ q a, child dm q i → parentDataByParentID idx !! q = Some a → parentDataByParentID idx' !! q = Some a) →
  item_ok idx it (dm_items dm !! i) → item_ok idx' it (dm_items dm !! i).
Proof.
  intros Hmap. unfold item_ok, child in *. destruct it as [it|], (dm_items dm !! i) as [[l ps]|]; try done.
  intros [Hl Hps]. split; [done|]. apply Forall2_same_length_lookup. apply Forall2_same_length_lookup in Hps as [Hlen Hps].
  split; [done|]. intros k a p Ha Hp. apply Hmap; [|by eapply Hps].
  eexists. split; [done|]. by eapply list_elem_of_lookup_2.
Qed.

Definition oldParentIDs dm i : list string := match dm_items dm !! i with Some item => item.2 | None => [] end.

Lemma child_oldParentIDs dm q i : child dm q i ↔ q ∈ oldParentIDs dm i.
Proof.
  unfold child, oldParentIDs. destruct (dm_items dm !! i) as [item|]; split.
  - by intros (?&[= <-]&?).
  - eauto.
  - by intros (?&?&?).
  - by intros ?%elem_of_nil.
Qed.

Lemma oldParents_ok idx idx1 dm L C id :
  rel idx dm → map_grows idx idx1 → parents_ok idx1 L C →
  Forall2 (old_ok idx1) (match itemDataByID idx !! id with Some old => parents old | None => [] end) (oldParentIDs dm id).
Proof.
  intros Hrel Hg Hok. pose proof (rl_items _ _ Hrel id) as Hi. unfold oldParentIDs, item_ok in *.
  destruct (itemDataByID idx !! id) as [it|], (dm_items dm !! id) as [[l ps]|]; try done.
  destruct Hi as [_ Hps]. eapply Forall2_impl; [exact Hps|]. intros a p Hp%Hg.
  destruct (po_entry _ _ _ Hok p a Hp) as (pd&Ha&[Hid _ _ _]). exists pd. auto.
Qed.

(** The part that [UpdateLabels] and [DeleteLabels] share: the parents of the item have
    been looked up ([idx1]), its data is replaced, and its membership in the parents is
    updated. *)
Lemma itemUpdate_rel idx idx1 dm dm' id news newIDs f :
  rel idx dm → parents_ok idx1 (parentLabels dm) (child dm) → map_grows idx idx1 → rest_same idx idx1 →
  Forall2 (λ a p, parentDataByParentID idx1 !! p = Some a) news newIDs →
  dm_parents dm' = dm_parents dm → dm_selectors dm' = dm_selectors dm →
  (∀ i, i ≠ id → dm_items dm' !! i = dm_items dm !! i) →
  (∀ i, i ≠ id → f (itemDataByID idx1) !! i = itemDataByID idx1 !! i) →
  oldParentIDs dm' id = newIDs →
  (∀ idx', Forall2 (λ a p, parentDataByParentID idx' !! p = Some a) news newIDs →
     item_ok idx' (f (itemDataByID idx1) !! id) (dm_items dm' !! id)) →
  let idx' := onItemParentsUpdate id (match itemDataByID idx !! id with Some old => parents old | None => [] end)
                news (set_items f idx1) in
  rel idx' dm' ∧ rest_same (set_items f idx1) idx'.
Proof.
  intros Hrel Hok Hg Hr Hnew Hdp Hds Hdi Hfi Hids Hid idx'.
  destruct (onItemParentsUpdate_ok (set_items f idx1) (parentLabels dm) (child dm) id
    (match itemDataByID idx !! id with Some old => parents old | None => [] end) (oldParentIDs dm id) news newIDs)
    as (Hok'&Hr'&Hmap); [by eapply parents_ok_fields, Hok| |done|].
  { eapply oldParents_ok; [done|done|]. by eapply parents_ok_fields, Hok. }
  fold idx' in Hok', Hr', Hmap. split; [|done].
  assert (HdL : ∀ p, parentLabels dm p = parentLabels dm' p) by (intros p; unfold parentLabels; by rewrite Hdp).
  split.
  - eapply parents_ok_ext, Hok'; [done|]. intros q i. cbn beta. rewrite !child_oldParentIDs.
    destruct (decide (i = id)) as [->|Hne]; [rewrite Hids; tauto|].
    unfold oldParentIDs. rewrite (Hdi i Hne). tauto.
  - intros i. rewrite (rs_items _ _ Hr'). cbn [set_items itemDataByID]. destruct (decide (i = id)) as [->|Hne].
    + apply Hid. apply Forall2_same_length_lookup in Hnew as [Hlen Hnew]. apply Forall2_same_length_lookup.
      split; [done|]. intros k a p Ha Hp. apply Hmap; [by eapply Hnew|]. right. by eapply list_elem_of_lookup_2.
    + rewrite Hfi, Hdi, (rs_items _ _ Hr) by done. eapply item_ok_map, (rl_items _ _ Hrel i).
      intros q a Hc Hq. apply Hmap; [by apply Hg|]. left. eauto.
  - intros s. rewrite (rs_selectors _ _ Hr'). cbn [set_items selectorsById]. rewrite (rs_selectors _ _ Hr), Hds.
    apply (rl_selectors _ _ Hrel).
Qed.

Lemma itemUpdate_step idx idx1 idx0 f dm dm' id :
  index_inv idx dm → rel idx0 dm' → rest_same idx idx1 → rest_same (set_items f idx1) idx0 →
  dm_parents dm' = dm_parents dm → dm_selectors dm' = dm_selectors dm →
  (∀ i, i ≠ id → dm_items dm' !! i = dm_items dm !! i) →
  step_ok idx dm (flushUpdates enumSelectors enumItemIDs enumSelIDs (set_dirty (λ d, {[id]} ∪ d) idx0)) dm'.
Proof.
  intros [Hc Hrel Hd Hm] Hrel' [Hi1 Hs1 Hl1 Hb1 Hd1 Hcb1] [Hi2 Hs2 Hl2 Hb2 Hd2 Hcb2] Hdp Hds Hdi.
  cbn in Hi2, Hs2, Hl2, Hb2, Hd2, Hcb2. rewrite Hl1 in Hl2. rewrite Hb1 in Hb2. rewrite Hcb1 in Hcb2.
  destruct (flush_inv (set_dirty (λ d, {[id]} ∪ d) idx0) dm dm') as [Hi (evs&Hcb'&Hev)].
  - destruct Hc as [Ho1 Ho2 Hinv]. split; cbn; by rewrite ?Hl2, ?Hb2.
  - destruct Hrel' as [[] ? ?]. split; [by split|done|done].
  - intros x. rewrite <-Hm. unfold matched. cbn. by rewrite Hb2.
  - intros s. by rewrite Hds.
  - intros x Hx. cbn in Hx. apply matching_same; [by rewrite Hds|symmetry; apply Hdi; set_solver|].
    intros p _. unfold parentLabels. by rewrite Hdp.
  - split; [done|]. exists evs. rewrite Hcb'. cbn. by rewrite Hcb2.
Qed.

Lemma UpdateLabels_step idx dm id l ps :
  index_inv idx dm →
  step_ok idx dm (UpdateLabels enumSelectors enumItemIDs enumSelIDs id l ps idx)
    (dm_step dm (OpUpdate (EndpointUpdate id (Some (l, ps))))).
Proof.
  intros Hinv. assert (Hrel := ii_rel _ _ Hinv). unfold UpdateLabels.
  replace (match itemDataByID idx !! id with Some old => _ | None => false end) with false
    by (destruct (itemDataByID idx !! id); [by rewrite andb_false_r|done]).
  destruct (getOrCreateParents ps idx) as [idx1 news] eqn:E.
  eapply getOrCreateParents_ok in E as (Hok&Hnew&Hg&Hr); [|apply Hrel].
  set (l' := if (0 <? uniquelabels.Len l)%nat then l else uniquelabels.Nil).
  assert (Hl' : uniquelabels.entries l' = uniquelabels.entries l).
  { subst l'. unfold uniquelabels.Len. destruct (Nat.ltb_spec 0 (size (uniquelabels.entries l))) as [|Hz]; [done|].
    assert (size (uniquelabels.entries l) = 0) as Hz'%map_size_empty_iff by lia. by rewrite Hz'. }
  destruct (itemUpdate_rel idx idx1 dm (dm_step dm (OpUpdate (EndpointUpdate id (Some (l, ps))))) id news ps
    (<[id := MkItemData l' news]>)) as [Hrel' Hr']; try done.
  - intros i Hi. simpl. by rewrite lookup_insert_ne.
  - intros i Hi. by rewrite lookup_insert_ne.
  - unfold oldParentIDs. simpl. by rewrite lookup_insert_eq.
  - intros idx' Hps. simpl. by rewrite !lookup_insert_eq.
  - eapply itemUpdate_step; [done|exact Hrel'|exact Hr|exact Hr'|done|done|].
    intros i Hi. simpl. by rewrite lookup_insert_ne.
Qed.

Lemma DeleteLabels_step idx dm id :
  index_inv idx dm →
  step_ok idx dm (DeleteLabels enumSelectors enumItemIDs enumSelIDs id idx) (dm_step dm (OpUpdate (EndpointUpdate id None))).
Proof.
  intros Hinv. assert (Hrel := ii_rel _ _ Hinv). unfold DeleteLabels.
  destruct (itemUpdate_rel idx idx dm (dm_step dm (OpUpdate (EndpointUpdate id None))) id [] [] (delete id))
    as [Hrel' Hr']; try done.
  - apply Hrel.
  - by intros q a.
  - intros i Hi. simpl. by rewrite lookup_delete_ne.
  - intros i Hi. by rewrite lookup_delete_ne.
  - unfold oldParentIDs. simpl. by rewrite lookup_delete_eq.
  - intros idx' Hps. simpl. by rewrite !lookup_delete_eq.
  - eapply itemUpdate_step; [done|exact Hrel'|done|exact Hr'|done|done|].
    intros i Hi. simpl. by rewrite lookup_delete_ne.
Qed.

(** Parents: the labels of [p], and no others, may change, in the model and in the index. *)
Lemma parentUpdate_step idx idx0 dm dm' p :
  index_inv idx dm → rest_same idx idx0 → parents_ok idx0 (parentLabels dm') (child dm') →
  (∀ q a i, child dm q i → parentDataByParentID idx !! q = Some a → parentDataByParentID idx0 !! q = Some a) →
  dm_items dm' = dm_items dm → dm_selectors dm' = dm_selectors dm →
  (∀ q, q ≠ p → parentLabels dm' q = parentLabels dm q) →
  step_ok idx dm (flushChildren enumSelectors enumItemIDs enumSelIDs p idx0) dm'.
Proof.
  intros [Hc Hrel Hd Hm] [Hi Hs Hl Hb Hdirty Hcb] Hok Hmap Hdi Hds HdL. unfold flushChildren.
  set (idx1 := match parentDataByParentID idx0 !! p with Some _ => _ | None => idx0 end).
  assert (Hf1 : ∃ D, idx1 = set_dirty (λ d, D ∪ d) idx0 ∧ ∀ i, child dm' p i → i ∈ D).
  { subst idx1. destruct (parentDataByParentID idx0 !! p) as [a|] eqn:Hp.
    - eexists. split; [done|]. intros i Hch. destruct (po_entry _ _ _ Hok p a Hp) as (pd&Ha&[_ _ Hit _]).
      rewrite (deref_Some _ _ _ Ha). by apply Hit.
    - exists ∅. split.
      + destruct idx0; unfold set_dirty; cbn. by rewrite (left_id_L ∅ (∪)).
      + intros i Hch. by destruct (proj2 (po_missing _ _ _ Hok p Hp) i). }
  clearbody idx1. destruct Hf1 as (D&->&HD).
  destruct (flush_inv (set_dirty (λ d, D ∪ d) idx0) dm dm') as [Hinv (evs&Hcb'&Hev)].
  - destruct Hc as [Ho1 Ho2 Hinv]. split; cbn; by rewrite ?Hl, ?Hb.
  - split; cbn; [by eapply parents_ok_fields, Hok| |].
    + intros i. rewrite Hi, Hdi. eapply item_ok_map, (rl_items _ _ Hrel i). intros q a Hch. by eapply Hmap.
    + intros s. rewrite Hs, Hds. apply (rl_selectors _ _ Hrel).
  - intros x. rewrite <-Hm. unfold matched. cbn. by rewrite Hb.
  - intros s. by rewrite Hds.
  - intros x Hx. cbn in Hx. apply matching_same; [by rewrite Hds|by rewrite Hdi|].
    intros q Hch. destruct (decide (q = p)) as [->|Hne]; [|by rewrite HdL].
    exfalso. apply Hx, elem_of_union_l, HD. unfold child. by rewrite Hdi.
  - split; [done|]. exists evs. rewrite Hcb'. cbn. by rewrite Hcb.
Qed.

Lemma set_labels_ok idx L C p a l :
  parents_ok idx L C → parentDataByParentID idx !! p = Some a →
  parents_ok (set_parents (λ m, m) (set_labels a l) idx) (λ q, if decide (q = p) then uniquelabels.entries l else L q) C.
Proof.
  intros Hok Hp. destruct (po_entry _ _ _ Hok p a Hp) as (pd&Ha&[H1 H2 H3 H4]).
  unfold set_labels, set_parents at 1. rewrite (deref_Some _ _ _ Ha).
  eapply (parents_ok_set idx L C _ _ p a pd); [done|done|done| |congruence|by left|].
  - intros _. split; cbn; [done|by rewrite decide_True|done|done].
  - intros q Hne. by rewrite decide_False.
Qed.

Lemma parentLabels_step dm Name value q :
  parentLabels (dm_step dm (OpUpdate (ResourceUpdate "Profile" Name value))) q =
  if decide (q = Name) then uniquelabels.entries (default uniquelabels.Nil value) else parentLabels dm q.
Proof.
  unfold parentLabels. simpl. destruct value as [l|]; simpl; case_decide; subst;
    by rewrite ?lookup_insert_eq, ?lookup_delete_eq, ?lookup_insert_ne, ?lookup_delete_ne by done.
Qed.

Lemma UpdateParentLabels_step idx dm p l :
  index_inv idx dm →
  step_ok idx dm (UpdateParentLabels enumSelectors enumItemIDs enumSelIDs p l idx)
    (dm_step dm (OpUpdate (ResourceUpdate "Profile" p (Some l)))).
Proof.
  intros Hinv. assert (Hrel := ii_rel _ _ Hinv). unfold UpdateParentLabels.
  destruct (getOrCreateParent p idx) as [idx1 a] eqn:E.
  eapply getOrCreateParent_ok in E as (Hok&Ha&Hg&Hr); [|apply Hrel].
  apply parentUpdate_step; [done|by etrans; [exact Hr|]| | |done|done|].
  - eapply parents_ok_ext, set_labels_ok; [|done|done|done]. intros q. by rewrite parentLabels_step.
  - intros q b i _ Hq. cbn. by apply Hg.
  - intros q Hne. by rewrite parentLabels_step, decide_False.
Qed.

Lemma DeleteParentLabels_step idx dm p :
  index_inv idx dm →
  step_ok idx dm (DeleteParentLabels enumSelectors enumItemIDs enumSelIDs p idx)
    (dm_step dm (OpUpdate (ResourceUpdate "Profile" p None))).
Proof.
  intros Hinv. assert (Hrel := ii_rel _ _ Hinv). unfold DeleteParentLabels.
  assert (HL := λ q, parentLabels_step dm p None q). cbn [default] in HL.
  destruct (parentDataByParentID idx !! p) as [a|] eqn:Hp.
  - assert (Hok := set_labels_ok idx _ _ p a uniquelabels.Nil (rl_parents _ _ Hrel) Hp).
    destruct (discardParentIfEmpty_ok _ _ _ p Hok) as (Hok'&Hr&_&Hm).
    apply parentUpdate_step; [done|by etrans; [|exact Hr]| | |done|done|].
    + eapply parents_ok_ext, Hok'; [|done]. intros q. by rewrite HL.
    + intros q b i Hch Hq. destruct (Hm q) as [->|[-> Hnone]]; [done|].
      destruct (proj2 (po_missing _ _ _ Hok' p Hnone) i Hch).
    + intros q Hne. by rewrite HL, decide_False.
  - assert (Hz : parentLabels dm p = ∅) by (by apply (po_missing _ _ _ (rl_parents _ _ Hrel))).
    assert (HL' : ∀ q, parentLabels (dm_step dm (OpUpdate (ResourceUpdate "Profile" p None))) q = parentLabels dm q).
    { intros q. rewrite HL. case_decide; [by subst|done]. }
    assert (Hmt : ∀ s i, matching dm s i = matching (dm_step dm (OpUpdate (ResourceUpdate "Profile" p None))) s i).
    { intros s i. apply matching_same; [done|done|]. intros q _. by rewrite HL'. }
    destruct Hinv as [Hc _ Hd Hm]. split.
    + split; [done| |done|]; [|intros x; by rewrite Hm].
      destruct Hrel as [Hpar Hit Hs]. split; [|done|done]. eapply parents_ok_ext, Hpar; [|done]. intros q. by rewrite HL'.
    + exists []. split; [by rewrite app_nil_r|]. apply exact_events_nil. intros x. apply Hmt.
Qed.

(** *** Selectors *)
Lemma rel_selectors idx idx' dm f g :
  rel idx dm → itemDataByID idx' = itemDataByID idx → parentDataByParentID idx' = parentDataByParentID idx →
  parentObjects idx' = parentObjects idx → selectorsById idx' = f (selectorsById idx) →
  (∀ s, selector_ok (f (selectorsById idx) !! s) (g (dm_selectors dm) !! s)) →
  rel idx' (MkDatamodel (dm_items dm) (dm_parents dm) (g (dm_selectors dm))).
Proof.
  intros [Hpar Hit Hs] H1 H2 H3 H4 Hsel. split.
  - by eapply parents_ok_fields, Hpar.
  - intros i. specialize (Hit i). rewrite H1. unfold item_ok in *. by rewrite H2.
  - intros s. rewrite H4. apply Hsel.
Qed.

Lemma selector_step idx idx1 dm s f g T P :
  index_inv idx dm → scanned T P idx idx1 → dirtyItemIDs idx1 = ∅ →
  (∀ s', selector_ok (f (selectorsById idx) !! s') (g (dm_selectors dm) !! s')) →
  (∀ x, x.1 ≠ s → P x = false) →
  (∀ s', s' ≠ s → g (dm_selectors dm) !! s' = dm_selectors dm !! s') →
  (∀ i, (if P (s, i) then T (s, i) else matched idx (s, i)) =
        matching (MkDatamodel (dm_items dm) (dm_parents dm) (g (dm_selectors dm))) s i) →
  step_ok idx dm (set_selectors f idx1) (MkDatamodel (dm_items dm) (dm_parents dm) (g (dm_selectors dm))).
Proof.
  intros [Hc Hrel Hd Hm] [[F1 F2 F3 F4] Hc1 Hset (evs&Hcb&Hev)] Hd1 Hsel HP Hg HT.
  assert (Hm' : ∀ x, matched idx1 x =
    matching (MkDatamodel (dm_items dm) (dm_parents dm) (g (dm_selectors dm))) x.1 x.2).
  { intros [s' i]. rewrite Hset. destruct (decide (s' = s)) as [->|Hne]; [apply HT|].
    rewrite HP by done. rewrite Hm. apply matching_same; [by rewrite Hg|done|done]. }
  split.
  - split; [by destruct Hc1| |done|done]. eapply (rel_selectors idx); [done|done|done|done|by cbn; rewrite F3|done].
  - exists evs. split; [done|]. eapply exact_events_ext; [done|done|done].
Qed.

Lemma selector_ok_lookup idx dm s x :
  index_inv idx dm → parsed x → Selector_Equal (selectorsById idx !! s) x = true →
  ∃ y, dm_selectors dm !! s = Some y ∧ selectorsById idx !! s ≠ None ∧ parsed y ∧ hash x = hash y.
Proof.
  intros Hinv Hx. pose proof (rl_selectors _ _ (ii_rel _ _ Hinv) s) as Hs. unfold Selector_Equal, selector_ok in *.
  destruct (selectorsById idx !! s) as [z|], (dm_selectors dm !! s) as [y|]; try done.
  intros Hh%bool_decide_eq_true. exists y. destruct Hs as (_&Hy&Hh'). split_and!; [done|done|done|congruence].
Qed.

Lemma UpdateSelector_step idx dm s x :
  index_inv idx dm → parsed x →
  ∃ idx', UpdateSelector enumItems s (Some x) idx = Ret idx' ∧ step_ok idx dm idx' (dm_step dm (OpUpdateSelector s x)).
Proof.
  intros Hinv Hx. unfold UpdateSelector. destruct (Selector_Equal (selectorsById idx !! s) x) eqn:He; eexists; (split; [done|]).
  - destruct (selector_ok_lookup idx dm s x Hinv Hx He) as (y&Hy&_&Hpy&Hh).
    assert (Hmt : ∀ s' i, matching dm s' i = matching (dm_step dm (OpUpdateSelector s x)) s' i).
    { intros s' i. destruct (decide (s' = s)) as [->|Hne]; [|apply matching_same; [by simpl; rewrite lookup_insert_ne|done|done]].
      unfold matching. simpl. rewrite lookup_insert_eq, Hy. destruct (dm_items dm !! i) as [item|]; [|done].
      rewrite (same_hash_Evaluate y x) by done. by apply Evaluate_ext. }
    split.
    + destruct Hinv as [Hc Hrel Hd Hm]. split; [done| |done|intros z; by rewrite Hm].
      eapply (rel_selectors idx idx dm (λ m, m) <[s := x]>); try done. intros s'.
      pose proof (rl_selectors _ _ Hrel s') as Hs. destruct (decide (s' = s)) as [->|Hne]; [|by rewrite lookup_insert_ne].
      rewrite lookup_insert_eq. rewrite Hy in Hs. unfold selector_ok in *.
      destruct (selectorsById idx !! s); [|done]. destruct Hs as (?&?&?). split_and!; [done|done|congruence].
    + exists []. split; [by rewrite app_nil_r|]. apply exact_events_nil. intros z. apply Hmt.
  - eapply (selector_step idx _ dm s <[s := x]> <[s := x]>); [done| | | | | |].
    + by eapply (scanAllLabels_scanned enumItems enumSelectors enumItemIDs enumSelIDs), Hinv.
    + unfold scanAllLabels. rewrite foldl_dirty; [apply Hinv|]. intros ? [? ?]. apply updateMatches_dirty.
    + intros s'. destruct (decide (s' = s)) as [->|Hne]; [by rewrite !lookup_insert_eq|].
      rewrite !lookup_insert_ne by done. apply (rl_selectors _ _ (ii_rel _ _ Hinv)).
    + intros z Hz. cbn beta. by rewrite bool_decide_eq_false_2.
    + intros s' Hne. by rewrite lookup_insert_ne.
    + intros i. cbn [fst snd]. rewrite bool_decide_eq_true_2 by done. cbn [andb].
      pose proof (now_matching (set_selectors <[s := x]> idx) (dm_step dm (OpUpdateSelector s x)) (s, i)) as Hn.
      cbn [fst snd] in Hn. cbn [dm_step] in Hn. rewrite <-Hn.
      * unfold now. cbn. rewrite lookup_insert_eq. case_bool_decide as Hi.
        -- destruct (itemDataByID idx !! i); done.
        -- destruct (itemDataByID idx !! i) eqn:E; [by destruct Hi|]. rewrite (ii_matched _ _ Hinv). unfold matching. cbn.
           pose proof (rl_items _ _ (ii_rel _ _ Hinv) i) as Hit. rewrite E in Hit. unfold item_ok in Hit.
           destruct (dm_items dm !! i); [done|]. by destruct (dm_selectors dm !! s).
      * eapply (rel_selectors idx); [apply Hinv|done|done|done|done|]. intros s'.
        destruct (decide (s' = s)) as [->|Hne]; [by rewrite !lookup_insert_eq|].
        rewrite !lookup_insert_ne by done. apply (rl_selectors _ _ (ii_rel _ _ Hinv)).
Qed.

Lemma DeleteSelector_step idx dm s :
  index_inv idx dm → step_ok idx dm (DeleteSelector enumItemIDs s idx) (dm_step dm (OpDeleteSelector s)).
Proof.
  intros Hinv. eapply (selector_step idx _ dm s (delete s) (delete s)); [done| | | | | |].
  - by eapply (deleteMatches_selector enumItems enumSelectors enumItemIDs enumSelIDs), Hinv.
  - rewrite foldl_dirty; [apply Hinv|]. intros. apply deleteMatch_dirty.
  - intros s'. destruct (decide (s' = s)) as [->|Hne]; [by rewrite !lookup_delete_eq|].
    rewrite !lookup_delete_ne by done. apply (rl_selectors _ _ (ii_rel _ _ Hinv)).
  - intros z Hz. cbn beta. by rewrite bool_decide_eq_false_2.
  - intros s' Hne. by rewrite lookup_delete_ne.
  - intros i. cbn [fst snd]. rewrite bool_decide_eq_true_2 by done. unfold matching. cbn. by rewrite lookup_delete_eq.
Qed.

(** ** Every operation, and every sequence of operations *)
Lemma index_step_ok idx dm op :
  index_inv idx dm → op_ok op → ∃ idx', index_step op idx = Ret idx' ∧ step_ok idx dm idx' (dm_step dm op).
Proof.
  intros Hinv Hop. destruct op as [[key [[l ps]|]|Kind Name value]|s x|s]; cbn [index_step OnUpdate].
  - eexists. split; [done|by apply UpdateLabels_step].
  - eexists. split; [done|by apply DeleteLabels_step].
  - case_decide as HK.
    + eexists. split; [done|]. simpl. rewrite decide_True by done. split; [done|]. exists [].
      split; [by rewrite app_nil_r|by apply exact_events_nil].
    + destruct (decide (Kind = "Profile")) as [->|]; [|done]. eexists. split; [done|].
      destruct value; [by apply UpdateParentLabels_step|by apply DeleteParentLabels_step].
  - by apply UpdateSelector_step.
  - eexists. split; [done|by apply DeleteSelector_step].
Qed.

Lemma index_inv_init : index_inv NewInheritIndex emptyDatamodel.
Proof using Type.
  split; [by split| |done|].
  - split; [|done|done]. split; [done|]. intros p _. split; [done|]. by intros i (?&?&?).
  - done.
Qed.

Lemma index_run_ok (ops : list (IndexOp (ItemID := ItemID) (SelID := SelID))) idx dm (M : gset (SelID * ItemID)) :
  index_inv idx dm → Forall op_ok ops → (∀ x, x ∈ M ↔ matching dm x.1 x.2 = true) →
  ∃ idx' evs M', index_run ops idx = Ret idx' ∧ index_inv idx' (foldl dm_step dm ops) ∧
    callbacks idx' = callbacks idx ++ evs ∧ replay M evs = Some M' ∧
    ∀ x, x ∈ M' ↔ matching (foldl dm_step dm ops) x.1 x.2 = true.
Proof.
  revert idx dm M. induction ops as [|op ops IH]; intros idx dm M Hinv Hops HM; cbn [index_run foldl].
  - exists idx, [], M. by rewrite app_nil_r.
  - apply list.Forall_cons in Hops as [Hop Hops]. destruct (index_step_ok idx dm op Hinv Hop) as (idx1&->&Hinv1&evs1&Hcb1&Hev1).
    destruct (replay_exact _ _ _ M Hev1 HM) as (M1&HM1&HM1').
    destruct (IH idx1 _ M1 Hinv1 Hops HM1') as (idx'&evs&M'&Hrun&Hinv'&Hcb&HM'&Hin).
    exists idx', (evs1 ++ evs), M'. cbn [obind]. split_and!; [done|done| | |done].
    + by rewrite Hcb, Hcb1, (assoc_L (++)).
    + by rewrite replay_app, HM1.
Qed.

(** C14: whatever sequence of endpoint, profile and selector updates the index is given, it
    does not panic, no match is started twice or stopped without having started, and the
    matches started and not stopped are exactly the pairs of a selector and an item such
    that the selector evaluates to true on the item's effective labels (its own labels,
    then those of its parents in order). *)
Theorem index_tracks_matches (ops : list (IndexOp (ItemID := ItemID) (SelID := SelID))) :
  Forall op_ok ops →
  ∃ idx M, index_run ops NewInheritIndex = Ret idx ∧ replay ∅ (callbacks idx) = Some M ∧
    ∀ s i, (s, i) ∈ M ↔ matching (foldl dm_step emptyDatamodel ops) s i = true.
Proof.
  intros Hops. destruct (index_run_ok ops NewInheritIndex emptyDatamodel ∅ index_inv_init Hops)
    as (idx&evs&M&Hrun&_&Hcb&HM&Hin).
  { intros x. split; [by intros ?%not_elem_of_empty|done]. }
  exists idx, M. split_and!; [done|by rewrite Hcb|]. intros s i. apply (Hin (s, i)).
Qed.

(** The callbacks of one operation, after any history, are exactly the changes it makes
    to the matches: a pair is reported once when its match changes and not at all
    otherwise (no flapping). *)
Theorem index_callbacks_exact (ops : list (IndexOp (ItemID := ItemID) (SelID := SelID))) op idx :
  Forall op_ok ops → op_ok op → index_run ops NewInheritIndex = Ret idx →
  let before := foldl dm_step emptyDatamodel ops in
  ∃ idx' evs, index_step op idx = Ret idx' ∧ callbacks idx' = callbacks idx ++ evs ∧
    NoDup (callbackPair <$> evs) ∧
    ∀ s i, (OnMatchStarted s i ∈ evs ↔ matching before s i = false ∧ matching (dm_step before op) s i = true) ∧
           (OnMatchStopped s i ∈ evs ↔ matching before s i = true ∧ matching (dm_step before op) s i = false).
Proof.
  intros Hops Hop Hrun before. destruct (index_run_ok ops NewInheritIndex emptyDatamodel ∅ index_inv_init Hops)
    as (idx1&_&_&Hrun'&Hinv&_).
  { intros x. split; [by intros ?%not_elem_of_empty|done]. }
  rewrite Hrun in Hrun'. simplify_eq. destruct (index_step_ok idx1 before op Hinv Hop) as (idx'&Hs&_&evs&Hcb&Hnd&Hev).
  by exists idx', evs.
Qed.
End correct.

(** ** Witnesses *)
Section witnesses.
Definition exampleHash (prefix content : string) : string := prefix +:+ ":" +:+ content.

Lemma exampleHash_inj c1 c2 : exampleHash "s" c1 = exampleHash "s" c2 → c1 = c2.
Proof. unfold exampleHash. intros Hh. by simplify_eq. Qed.

Lemma parsed_example s sel : Parse exampleHash s = Ret (Some sel) → parsed exampleHash sel.
Proof. by exists s. Qed.

(** Endpoint 1 inherits [b] from profile ["prof"]; policy 7 selects it. *)
Definition exampleSelector : Selector := MkSelector (HasNode "b") "has(b)" "s:has(b)".

Lemma exampleSelector_parsed : parsed exampleHash exampleSelector.
Proof. apply (parsed_example "has( b )"). vm_compute. reflexivity. Qed.

Definition exampleOps : list (IndexOp (ItemID := nat) (SelID := nat)) :=
  [OpUpdate (EndpointUpdate 1 (Some (uniquelabels.Nil, ["prof"; "prof"])));
   OpUpdateSelector 7 exampleSelector;
   OpUpdate (ResourceUpdate "Profile" "prof" (Some (Some {["b" := "2"]})))].

Lemma exampleOps_ok : Forall (op_ok exampleHash) exampleOps.
Proof. repeat constructor. apply exampleSelector_parsed. Qed.

Lemma index_tracks_matches_witness :
  ∃ idx M, index_run map_to_list map_to_list elements elements exampleOps NewInheritIndex = Ret idx ∧
    replay ∅ (callbacks idx) = Some M ∧ (7, 1) ∈ M.
Proof.
  destruct (index_tracks_matches exampleHash exampleHash_inj map_to_list map_to_list elements elements
    (λ _, reflexivity _) (λ _, reflexivity _) (λ _, reflexivity _) (λ _, reflexivity _) exampleOps exampleOps_ok)
    as (idx & M & H1 & H2 & H3).
  exists idx, M. split; [exact H1|]. split; [exact H2|]. apply H3. vm_compute. reflexivity.
Defined.

Definition exampleIndex : InheritIndex nat nat :=
  match index_run map_to_list map_to_list elements elements exampleOps NewInheritIndex with
  | Ret idx => idx | _ => NewInheritIndex end.

Lemma index_callbacks_exact_witness :
  ∃ idx' evs, index_run map_to_list map_to_list elements elements exampleOps NewInheritIndex = Ret exampleIndex ∧
    index_step map_to_list map_to_list elements elements (OpUpdate (EndpointUpdate 1 None)) exampleIndex = Ret idx' ∧
    callbacks idx' = callbacks exampleIndex ++ evs ∧ OnMatchStopped 7 1 ∈ evs.
Proof.
  assert (Hrun : index_run map_to_list map_to_list elements elements exampleOps NewInheritIndex = Ret exampleIndex)
    by (vm_compute; reflexivity).
  destruct (index_callbacks_exact exampleHash exampleHash_inj map_to_list map_to_list elements elements
    (λ _, reflexivity _) (λ _, reflexivity _) (λ _, reflexivity _) (λ _, reflexivity _) exampleOps
    (OpUpdate (EndpointUpdate 1 None)) exampleIndex exampleOps_ok I Hrun) as (idx' & evs & H1 & H2 & H3 & H4).
  exists idx', evs. split; [exact Hrun|]. split; [exact H1|]. split; [exact H2|].
  apply H4. split; vm_compute; reflexivity.
Defined.
End witnesses.
