(* ===== verification/ActiveRules.v ===== *)
(** * The active rules calculator: [felix/calc/active_rules_calculator.go]

    The calculator decides which policies and profiles are active on this host: a policy
    while its selector matches a local endpoint (or while it is force-programmed), a
    profile while a local endpoint names it.  It feeds the label index, whose callbacks
    are [onMatchStarted] and [onMatchStopped].

    The calls it makes (to the rule scanner and the policy lookup cache, which get the same
    calls; to the policy match listeners; to the listeners of computed selectors; to
    [OnPolicyCountsChanged]) are recorded in order in [outputs].  A packed map stores
    compressed values and reads them back: it is modelled as a map.  The index runs its
    callbacks as it goes; they do not use the index, so [runIndex] runs the operation
    first and the callbacks that it recorded afterwards. *)
From S2P Require Import Prelude.
From S2P Require Import ModelRule.
From S2P Require Import SelectorAST.
From S2P Require Import SelectorParser.
From S2P Require Import UniqueLabels.
From S2P Require Import Multidict.
From S2P Require Import InheritIndex.
From S2P Require Import PolicySorter.
From stdpp Require Import base list gmap strings.
From stdpp Require Import options.

Definition denyRule : Rule := actionRule "deny".
Definition DummyDropRules : ProfileRules := MkProfileRules [denyRule] [denyRule].

Definition forceProgrammedDummyKey : string := "PolicyAlwaysProgrammed".
Definition PerfHintAssumeNeededOnEveryNode : string := "AssumeNeededOnEveryNode".

Definition policyForceProgrammed (policy : option Policy) : bool :=
  match policy with
  | None => false
  | Some policy => bool_decide (PerfHintAssumeNeededOnEveryNode ∈ pol_PerformanceHints policy)
  end.

Definition isALPRule (rule : Rule) : bool :=
  bool_decide (is_Some (rule_HTTPMatch rule)) || bool_decide (rule_OriginalSrcServiceAccountSelector rule ≠ "") ||
  bool_decide (rule_OriginalDstServiceAccountSelector rule ≠ "").

Definition isALPPolicy (policy : Policy) : bool :=
  existsb isALPRule (pol_InboundRules policy) || existsb isALPRule (pol_OutboundRules policy).

Section arc.
Context `{Countable EndpointKey} `{Countable Listener}.
Context (MakeUniqueID : string → string → string).
(** [reflect.DeepEqual] on policies and on profile rules. *)
Context (DeepEqual_Policy : Policy → Policy → bool) (DeepEqual_ProfileRules : ProfileRules → ProfileRules → bool).
(** Enumeration orders. *)
Context (enumItems : gmap EndpointKey itemData → list (EndpointKey * itemData)).
Context (enumSelectors : gmap (PolicyKey + string * Listener) Selector → list ((PolicyKey + string * Listener) * Selector)).
Context (enumItemIDs : gset EndpointKey → list EndpointKey).
Context (enumSelIDs : gset (PolicyKey + string * Listener) → list (PolicyKey + string * Listener)).
Context (enumIDs : gset string → list string).

(** A selector identifier is a policy key or a [computedSelectorKey]; what a policy
    matches is an endpoint or the dummy key. *)
Definition computedSelectorKey : Type := string * Listener.
Abbreviation selID := (PolicyKey + string * Listener)%type.
Abbreviation labelID := (EndpointKey + string)%type.

Inductive Output :=
  | OnPolicyActive (key : PolicyKey) (policy : Policy)
  | OnPolicyInactive (key : PolicyKey)
  | OnProfileActive (name : string) (rules : ProfileRules)
  | OnProfileInactive (name : string)
  | OnPolicyMatch (policyKey : PolicyKey) (endpointKey : EndpointKey)
  | OnPolicyMatchStopped (policyKey : PolicyKey) (endpointKey : EndpointKey)
  | OnComputedSelectorMatch (cs : computedSelectorKey) (endpointKey : EndpointKey)
  | OnComputedSelectorMatchStopped (cs : computedSelectorKey) (endpointKey : EndpointKey)
  | OnPolicyCountsChanged (numTiers numPolicies numProfiles numALPPolicies : nat).

Record ActiveRulesCalculator := MkARC {
  allTiers : gmap string Tier;
  allPolicies : gmap PolicyKey Policy;
  allProfileRules : gmap string ProfileRules;
  allALPPolicies : gset PolicyKey;
  policyIDToEndpointKeys : gmap PolicyKey (gset labelID);
  profileIDToEndpointKeys : gmap string (gset EndpointKey);
  labelIndex : InheritIndex EndpointKey selID;
  endpointKeyToProfileIDs : gmap EndpointKey (list string);
  initialSyncCompleted : bool;
  missingProfiles : gset string;
  outputs : list Output
}.

Definition NewActiveRulesCalculator : ActiveRulesCalculator :=
  MkARC ∅ ∅ ∅ ∅ ∅ ∅ NewInheritIndex ∅ false ∅ [].

Definition set_store t p r alp (arc : ActiveRulesCalculator) :=
  MkARC (t (allTiers arc)) (p (allPolicies arc)) (r (allProfileRules arc)) (alp (allALPPolicies arc))
    (policyIDToEndpointKeys arc) (profileIDToEndpointKeys arc) (labelIndex arc) (endpointKeyToProfileIDs arc)
    (initialSyncCompleted arc) (missingProfiles arc) (outputs arc).
Definition set_policyEndpoints f (arc : ActiveRulesCalculator) :=
  MkARC (allTiers arc) (allPolicies arc) (allProfileRules arc) (allALPPolicies arc)
    (f (policyIDToEndpointKeys arc)) (profileIDToEndpointKeys arc) (labelIndex arc) (endpointKeyToProfileIDs arc)
    (initialSyncCompleted arc) (missingProfiles arc) (outputs arc).
Definition set_profileEndpoints f (arc : ActiveRulesCalculator) :=
  MkARC (allTiers arc) (allPolicies arc) (allProfileRules arc) (allALPPolicies arc)
    (policyIDToEndpointKeys arc) (f (profileIDToEndpointKeys arc)) (labelIndex arc) (endpointKeyToProfileIDs arc)
    (initialSyncCompleted arc) (missingProfiles arc) (outputs arc).
Definition set_labelIndex idx (arc : ActiveRulesCalculator) :=
  MkARC (allTiers arc) (allPolicies arc) (allProfileRules arc) (allALPPolicies arc)
    (policyIDToEndpointKeys arc) (profileIDToEndpointKeys arc) idx (endpointKeyToProfileIDs arc)
    (initialSyncCompleted arc) (missingProfiles arc) (outputs arc).
Definition set_endpointProfiles f (arc : ActiveRulesCalculator) :=
  MkARC (allTiers arc) (allPolicies arc) (allProfileRules arc) (allALPPolicies arc)
    (policyIDToEndpointKeys arc) (profileIDToEndpointKeys arc) (labelIndex arc) (f (endpointKeyToProfileIDs arc))
    (initialSyncCompleted arc) (missingProfiles arc) (outputs arc).
Definition set_sync b (f : gset string → gset string) (arc : ActiveRulesCalculator) :=
  MkARC (allTiers arc) (allPolicies arc) (allProfileRules arc) (allALPPolicies arc)
    (policyIDToEndpointKeys arc) (profileIDToEndpointKeys arc) (labelIndex arc) (endpointKeyToProfileIDs arc)
    b (f (missingProfiles arc)) (outputs arc).
Definition output (o : Output) (arc : ActiveRulesCalculator) :=
  MkARC (allTiers arc) (allPolicies arc) (allProfileRules arc) (allALPPolicies arc)
    (policyIDToEndpointKeys arc) (profileIDToEndpointKeys arc) (labelIndex arc) (endpointKeyToProfileIDs arc)
    (initialSyncCompleted arc) (missingProfiles arc) (outputs arc ++ [o]).

Definition updateStats (arc : ActiveRulesCalculator) : ActiveRulesCalculator :=
  output (OnPolicyCountsChanged (size (allTiers arc)) (size (allPolicies arc)) (size (allProfileRules arc))
            (size (allALPPolicies arc))) arc.

(** ** Telling the rule scanner *)
Definition sendProfileUpdate (profileID : string) (rules : option ProfileRules) (arc : ActiveRulesCalculator)
    : ActiveRulesCalculator :=
  let active := Multidict.ContainsKey (profileIDToEndpointKeys arc) profileID in
  let arc1 := set_sync (initialSyncCompleted arc) (λ m, m ∖ {[profileID]}) arc in
  if active then
    match rules with
    | Some rules => output (OnProfileActive profileID rules) arc1
    | None =>
        let arc2 := if initialSyncCompleted arc1 then arc1
                    else set_sync (initialSyncCompleted arc1) (λ m, {[profileID]} ∪ m) arc1 in
        output (OnProfileActive profileID DummyDropRules) arc2
    end
  else output (OnProfileInactive profileID) arc1.

Definition sendPolicyUpdate (policyKey : PolicyKey) (policy : option Policy) (arc : ActiveRulesCalculator)
    : outcome Empty_set ActiveRulesCalculator :=
  if Multidict.ContainsKey (policyIDToEndpointKeys arc) policyKey then
    match policy with
    | None => Panic
    | Some policy => Ret (output (OnPolicyActive policyKey policy) arc)
    end
  else Ret (output (OnPolicyInactive policyKey) arc).

(** ** Callbacks of the label index *)
Definition onMatchStarted (sel : selID) (label : labelID) (arc : ActiveRulesCalculator)
    : outcome Empty_set ActiveRulesCalculator :=
  match sel with
  | inr key =>
      Ret (match label with inl endpoint => output (OnComputedSelectorMatch key endpoint) arc | inr _ => arc end)
  | inl polKey =>
      let policyWasActive := Multidict.ContainsKey (policyIDToEndpointKeys arc) polKey in
      let arc1 := set_policyEndpoints (Multidict.Put polKey label) arc in
      let! arc2 :=
        (if policyWasActive then Ret arc1
         else match allPolicies arc1 !! polKey with
              | None => Panic
              | Some policy => sendPolicyUpdate polKey (Some policy) arc1
              end) in
      Ret (match label with inl endpoint => output (OnPolicyMatch polKey endpoint) arc2 | inr _ => arc2 end)
  end.

Definition onMatchStopped (sel : selID) (label : labelID) (arc : ActiveRulesCalculator)
    : outcome Empty_set ActiveRulesCalculator :=
  match sel with
  | inr key =>
      Ret (match label with inl endpoint => output (OnComputedSelectorMatchStopped key endpoint) arc | inr _ => arc end)
  | inl polKey =>
      let arc1 := set_policyEndpoints (Multidict.Discard polKey label) arc in
      let! arc2 :=
        (if Multidict.ContainsKey (policyIDToEndpointKeys arc1) polKey then Ret arc1
         else sendPolicyUpdate polKey (allPolicies arc1 !! polKey) arc1) in
      Ret (match label with inl endpoint => output (OnPolicyMatchStopped polKey endpoint) arc2 | inr _ => arc2 end)
  end.

Fixpoint runCallbacks (cbs : list (MatchCallback EndpointKey selID)) (arc : ActiveRulesCalculator)
    : outcome Empty_set ActiveRulesCalculator :=
  match cbs with
  | [] => Ret arc
  | cb :: cbs' =>
      let! arc1 := (match cb with
                    | InheritIndex.OnMatchStarted sel label => onMatchStarted sel (inl label) arc
                    | InheritIndex.OnMatchStopped sel label => onMatchStopped sel (inl label) arc
                    end) in
      runCallbacks cbs' arc1
  end.

Definition runIndex (f : InheritIndex EndpointKey selID → outcome Empty_set (InheritIndex EndpointKey selID))
    (arc : ActiveRulesCalculator) : outcome Empty_set ActiveRulesCalculator :=
  let! idx := f (labelIndex arc) in
  runCallbacks (callbacks idx) (set_labelIndex (clear_callbacks idx) arc).

Abbreviation index_OnUpdate update := (λ idx, Ret (InheritIndex.OnUpdate enumSelectors enumItemIDs enumSelIDs update idx)).

(** ** Profiles of endpoints: [EndpointKeyToProfileIDMap.Update] *)
Definition profileDelta (oldIDs profileIDs : list string) : gset string * gset string :=
  foldl (λ '(removedIDs, addedIDs) id,
           if decide (id ∈ removedIDs) then (removedIDs ∖ {[id]}, addedIDs) else (removedIDs, {[id]} ∪ addedIDs))
    (list_to_set oldIDs, ∅) profileIDs.

Definition EndpointKeyToProfileIDMap_Update (key : EndpointKey) (profileIDs : list string)
    (m : gmap EndpointKey (list string)) : gmap EndpointKey (list string) * (gset string * gset string) :=
  let oldIDs := default [] (m !! key) in
  (if (0 <? length profileIDs)%nat then <[key := profileIDs]> m else delete key m, profileDelta oldIDs profileIDs).

Definition addProfile (key : EndpointKey) (arc : ActiveRulesCalculator) (id : string) : ActiveRulesCalculator :=
  let wasActive := Multidict.ContainsKey (profileIDToEndpointKeys arc) id in
  let arc1 := set_profileEndpoints (Multidict.Put id key) arc in
  if wasActive then arc1 else sendProfileUpdate id (allProfileRules arc1 !! id) arc1.

Definition removeProfile (key : EndpointKey) (arc : ActiveRulesCalculator) (id : string) : ActiveRulesCalculator :=
  let arc1 := set_profileEndpoints (Multidict.Discard id key) arc in
  if Multidict.ContainsKey (profileIDToEndpointKeys arc1) id then arc1
  else sendProfileUpdate id (allProfileRules arc1 !! id) arc1.

Definition updateEndpointProfileIDs (key : EndpointKey) (profileIDs : list string) (arc : ActiveRulesCalculator)
    : ActiveRulesCalculator :=
  let '(m, (removedIDs, addedIDs)) := EndpointKeyToProfileIDMap_Update key profileIDs (endpointKeyToProfileIDs arc) in
  let arc1 := set_endpointProfiles (λ _, m) arc in
  foldl (removeProfile key) (foldl (addProfile key) arc1 (enumIDs addedIDs)) (enumIDs removedIDs).

(** ** [OnUpdate], by the type of the key *)
Definition OnEndpointUpdate (key : EndpointKey) (value : option (uniquelabels.Map * list string)) (arc : ActiveRulesCalculator)
    : outcome Empty_set ActiveRulesCalculator :=
  let profileIDs := match value with Some (_, ids) => ids | None => [] end in
  runIndex (index_OnUpdate (EndpointUpdate key value)) (updateEndpointProfileIDs key profileIDs arc).

Definition OnResourceUpdate (Kind Name : string) (value : option (option (gmap string string))) (arc : ActiveRulesCalculator)
    : outcome Empty_set ActiveRulesCalculator :=
  runIndex (index_OnUpdate (ResourceUpdate Kind Name value)) arc.

Definition OnProfileRulesUpdate (Name : string) (value : option ProfileRules) (arc : ActiveRulesCalculator)
    : ActiveRulesCalculator :=
  match value with
  | Some rules =>
      if match allProfileRules arc !! Name with Some oldRules => DeepEqual_ProfileRules oldRules rules | None => false end
      then arc
      else
        let arc1 := set_store (λ t, t) (λ p, p) <[Name := rules]> (λ a, a) arc in
        updateStats (if Multidict.ContainsKey (profileIDToEndpointKeys arc1) Name
                     then sendProfileUpdate Name (Some rules) arc1 else arc1)
  | None =>
      let arc1 := set_store (λ t, t) (λ p, p) (delete Name) (λ a, a) arc in
      updateStats (if Multidict.ContainsKey (profileIDToEndpointKeys arc1) Name
                   then sendProfileUpdate Name None arc1 else arc1)
  end.

Definition updatePolicy (key : PolicyKey) (policy : Policy) (oldWasForceProgrammed : bool) (arc : ActiveRulesCalculator)
    : outcome Empty_set ActiveRulesCalculator :=
  let arc1 := set_store (λ t, t) <[key := policy]> (λ r, r) (λ a, a) arc in
  let newForceProgrammed := policyForceProgrammed (Some policy) in
  let! arc2 := (if negb oldWasForceProgrammed && newForceProgrammed
                then onMatchStarted (inl key) (inr forceProgrammedDummyKey) arc1 else Ret arc1) in
  match Parse MakeUniqueID (pol_Selector policy) with
  | Ret sel =>
      let! arc3 := runIndex (UpdateSelector enumItems (inl key) sel) arc2 in
      let! arc4 := (if oldWasForceProgrammed && negb newForceProgrammed
                    then onMatchStopped (inl key) (inr forceProgrammedDummyKey) arc3 else Ret arc3) in
      let! arc5 := (if Multidict.ContainsKey (policyIDToEndpointKeys arc4) key
                    then sendPolicyUpdate key (Some policy) arc4 else Ret arc4) in
      Ret (set_store (λ t, t) (λ p, p) (λ r, r) (λ a, if isALPPolicy policy then {[key]} ∪ a else a ∖ {[key]}) arc5)
  | _ => Panic
  end.

Definition OnPolicyUpdate (key : PolicyKey) (value : option Policy) (arc : ActiveRulesCalculator)
    : outcome Empty_set ActiveRulesCalculator :=
  let oldPolicy := allPolicies arc !! key in
  let oldWasForceProgrammed := policyForceProgrammed oldPolicy in
  match value with
  | Some policy =>
      if match oldPolicy with Some old => DeepEqual_Policy old policy | None => false end then Ret arc
      else let! arc1 := updatePolicy key policy oldWasForceProgrammed arc in Ret (updateStats arc1)
  | None =>
      let arc1 := set_store (λ t, t) (delete key) (λ r, r) (λ a, a) arc in
      let! arc2 := (if oldWasForceProgrammed then onMatchStopped (inl key) (inr forceProgrammedDummyKey) arc1 else Ret arc1) in
      let! arc3 := runIndex (λ idx, Ret (DeleteSelector enumItemIDs (inl key) idx)) arc2 in
      Ret (updateStats (set_store (λ t, t) (λ p, p) (λ r, r) (λ a, a ∖ {[key]}) arc3))
  end.

Definition OnTierUpdate (Name : string) (value : option Tier) (arc : ActiveRulesCalculator) : ActiveRulesCalculator :=
  updateStats (set_store (match value with Some tier => <[Name := tier]> | None => delete Name end)
                 (λ p, p) (λ r, r) (λ a, a) arc).

Inductive Update :=
  | UpdEndpoint (key : EndpointKey) (value : option (uniquelabels.Map * list string))
  | UpdResource (Kind Name : string) (value : option (option (gmap string string)))
  | UpdProfileRules (Name : string) (value : option ProfileRules)
  | UpdPolicy (key : PolicyKey) (value : option Policy)
  | UpdTier (Name : string) (value : option Tier).

Definition OnUpdate (update : Update) (arc : ActiveRulesCalculator) : outcome Empty_set ActiveRulesCalculator :=
  match update with
  | UpdEndpoint key value => OnEndpointUpdate key value arc
  | UpdResource Kind Name value => OnResourceUpdate Kind Name value arc
  | UpdProfileRules Name value => Ret (OnProfileRulesUpdate Name value arc)
  | UpdPolicy key value => OnPolicyUpdate key value arc
  | UpdTier Name value => Ret (OnTierUpdate Name value arc)
  end.

(** [OnStatusUpdate]: the missing profiles are logged and forgotten. *)
Definition OnStatusUpdate (inSync : bool) (arc : ActiveRulesCalculator) : ActiveRulesCalculator :=
  if inSync && negb (initialSyncCompleted arc) then set_sync true (λ _, ∅) arc else arc.

(** ** Computed selectors *)
Definition AddExtraComputedSelector (cs : string) (listener : Listener) (arc : ActiveRulesCalculator)
    : outcome Empty_set ActiveRulesCalculator :=
  match Parse MakeUniqueID cs with
  | Ret sel => runIndex (UpdateSelector enumItems (inr (cs, listener)) sel) arc
  | _ => Panic
  end.

Definition RemoveExtraComputedSelector (cs : string) (listener : Listener) (arc : ActiveRulesCalculator)
    : outcome Empty_set ActiveRulesCalculator :=
  runIndex (λ idx, Ret (DeleteSelector enumItemIDs (inr (cs, listener)) idx)) arc.
End arc.
