(* ===== verification/ActiveRulesSpec.v ===== *)
(** * What the active rules calculator tells its listeners

    [store] is what the calculator was told.  [listen] replays its calls against what the
    listeners know: the active policies and profiles with their rules, the matches, and
    the matches of computed selectors.  It fails on a call that makes no sense (a policy
    that becomes inactive without being active, a match that starts twice, or that starts
    for a policy that is not active).  The theorems say that what the listeners know is
    always exactly right. *)
From S2P Require Import Prelude.
From S2P Require Import ModelRule.
From S2P Require Import SelectorAST.
From S2P Require Import SelectorParser.
From S2P Require Import UniqueLabels.
From S2P Require Import Multidict.
From S2P Require Import InheritIndex.
From S2P Require Import InheritIndexSpec.
From S2P Require Import InheritIndexCorrect.
From S2P Require Import PolicySorter.
From S2P Require Import ActiveRules.
From stdpp Require Import base list gmap strings.
From stdpp Require Import options.

Section spec.
Context `{Countable EndpointKey} `{Countable Listener}.
Abbreviation selID := (PolicyKey + string * Listener)%type.
Abbreviation ARC := (ActiveRulesCalculator (EndpointKey := EndpointKey) (Listener := Listener)).
Abbreviation Output := (Output (EndpointKey := EndpointKey) (Listener := Listener)).
Abbreviation Model := (datamodel (ItemID := EndpointKey) (SelID := selID)).
Implicit Types (arc : ARC) (k : PolicyKey) (e : EndpointKey).

Record knowledge := MkKnowledge {
  kn_policies : gmap PolicyKey Policy;
  kn_profiles : gmap string ProfileRules;
  kn_matches : gset (PolicyKey * EndpointKey);
  kn_computed : gset (string * Listener * EndpointKey)
}.
Implicit Types (S : knowledge).

Definition noKnowledge : knowledge := MkKnowledge ∅ ∅ ∅ ∅.

Definition listen (S : option knowledge) (o : Output) : option knowledge :=
  match S with
  | None => None
  | Some (MkKnowledge ps rs ms cs) =>
      match o with
      | OnPolicyActive k p => Some (MkKnowledge (<[k := p]> ps) rs ms cs)
      | OnPolicyInactive k => if ps !! k is Some _ then Some (MkKnowledge (delete k ps) rs ms cs) else None
      | OnProfileActive id r => Some (MkKnowledge ps (<[id := r]> rs) ms cs)
      | OnProfileInactive id => if rs !! id is Some _ then Some (MkKnowledge ps (delete id rs) ms cs) else None
      | OnPolicyMatch k e =>
          if decide ((k, e) ∈ ms ∨ ps !! k = None) then None else Some (MkKnowledge ps rs ({[(k, e)]} ∪ ms) cs)
      | OnPolicyMatchStopped k e =>
          if decide ((k, e) ∈ ms) then Some (MkKnowledge ps rs (ms ∖ {[(k, e)]}) cs) else None
      | OnComputedSelectorMatch c e =>
          if decide ((c, e) ∈ cs) then None else Some (MkKnowledge ps rs ms ({[(c, e)]} ∪ cs))
      | OnComputedSelectorMatchStopped c e =>
          if decide ((c, e) ∈ cs) then Some (MkKnowledge ps rs ms (cs ∖ {[(c, e)]})) else None
      | OnPolicyCountsChanged _ _ _ _ => S
      end
  end.

(** What the listeners know from the calls made so far. *)
Definition told (os : list Output) : option knowledge := foldl listen (Some noKnowledge) os.

Lemma told_snoc os o : told (os ++ [o]) = listen (told os) o.
Proof. unfold told. by rewrite foldl_app. Qed.

(** ** Policies and their matches *)
(** The callbacks about policies change only these two fields. *)
Record pol_frame arc arc' : Prop := {
  pf_tiers : allTiers arc' = allTiers arc;
  pf_policies : allPolicies arc' = allPolicies arc;
  pf_rules : allProfileRules arc' = allProfileRules arc;
  pf_alp : allALPPolicies arc' = allALPPolicies arc;
  pf_profiles : profileIDToEndpointKeys arc' = profileIDToEndpointKeys arc;
  pf_index : labelIndex arc' = labelIndex arc;
  pf_ids : endpointKeyToProfileIDs arc' = endpointKeyToProfileIDs arc;
  pf_sync : initialSyncCompleted arc' = initialSyncCompleted arc;
  pf_missing : missingProfiles arc' = missingProfiles arc
}.
#[global] Instance pol_frame_refl : Reflexive pol_frame.
Proof. by intros arc. Qed.
#[global] Instance pol_frame_trans : Transitive pol_frame.
Proof. intros a1 a2 a3 [] []. split; congruence. Qed.

Abbreviation active arc k := (Multidict.ContainsKey (policyIDToEndpointKeys arc) k).

(** The scanner knows the active policies; of all but the one being updated ([exc]) it has
    the current contents. *)
Record pol_ok (exc : option PolicyKey) arc S : Prop := {
  pk_md : md_ok (policyIDToEndpointKeys arc);
  pk_told : told (outputs arc) = Some S;
  pk_active k : is_Some (kn_policies S !! k) ↔ active arc k = true;
  pk_current k : exc ≠ Some k → active arc k = true → kn_policies S !! k = allPolicies arc !! k
}.

Lemma active_in arc k : md_ok (policyIDToEndpointKeys arc) → active arc k = true ↔ ∃ l, md_in (policyIDToEndpointKeys arc) k l.
Proof. intros Hok. by rewrite md_ContainsKey, md_key. Qed.

Lemma active_Put arc k l k' :
  md_ok (policyIDToEndpointKeys arc) →
  active (set_policyEndpoints (Multidict.Put k l) arc) k' = true ↔ k' = k ∨ active arc k' = true.
Proof.
  intros Hok. rewrite !active_in; [|done|by apply md_Put_ok]. cbn [set_policyEndpoints policyIDToEndpointKeys].
  setoid_rewrite md_Put_in. naive_solver.
Qed.

Lemma active_Discard_ne arc k l k' :
  md_ok (policyIDToEndpointKeys arc) → k' ≠ k →
  active (set_policyEndpoints (Multidict.Discard k l) arc) k' = active arc k'.
Proof.
  intros Hok Hne. apply eq_true_iff_eq. rewrite !active_in; [|done|by apply md_Discard_ok].
  cbn [set_policyEndpoints policyIDToEndpointKeys]. setoid_rewrite md_Discard_in. naive_solver.
Qed.

Definition addMatch k (l : EndpointKey + string) (ms : gset (PolicyKey * EndpointKey)) :=
  match l with inl e => {[(k, e)]} ∪ ms | inr _ => ms end.
Definition delMatch k (l : EndpointKey + string) (ms : gset (PolicyKey * EndpointKey)) :=
  match l with inl e => ms ∖ {[(k, e)]} | inr _ => ms end.

(** The listeners' other knowledge is untouched. *)
Definition same_rest S S' : Prop := kn_profiles S' = kn_profiles S ∧ kn_computed S' = kn_computed S.

Lemma onMatchStarted_ok exc arc S k l :
  pol_ok exc arc S → is_Some (allPolicies arc !! k) → (∀ e, l = inl e → (k, e) ∉ kn_matches S) →
  ∃ arc' S', onMatchStarted (inl k) l arc = Ret arc' ∧ pol_frame arc arc' ∧ pol_ok exc arc' S' ∧
    policyIDToEndpointKeys arc' = Multidict.Put k l (policyIDToEndpointKeys arc) ∧
    kn_matches S' = addMatch k l (kn_matches S) ∧ same_rest S S'.
Proof.
  intros [Hmd Ht Ha Hc] [p Hp] Hl. unfold onMatchStarted. set (arc1 := set_policyEndpoints (Multidict.Put k l) arc).
  assert (∃ arc2 S2, (if active arc k then Ret arc1
         else match allPolicies arc1 !! k with
              | None => Panic | Some policy => sendPolicyUpdate k (Some policy) arc1 end) = Ret (E := Empty_set) arc2 ∧
       pol_frame arc arc2 ∧ pol_ok exc arc2 S2 ∧
       policyIDToEndpointKeys arc2 = Multidict.Put k l (policyIDToEndpointKeys arc) ∧
       kn_matches S2 = kn_matches S ∧ same_rest S S2) as (arc2&S2&->&Hf2&Hok2&Hm2&HM2&HR2).
  { assert (Hmd1 : md_ok (policyIDToEndpointKeys arc1)) by (by apply md_Put_ok).
    destruct (active arc k) eqn:Hact.
    - exists arc1, S. split_and!; try done. split; [done|done| |].
      + intros k'. unfold arc1. rewrite active_Put, Ha by done. naive_solver.
      + intros k' Hne. unfold arc1. rewrite active_Put by done. intros [->|Hk']; by apply Hc.
    - replace (allPolicies arc1 !! k) with (Some p) by done. unfold sendPolicyUpdate.
      assert (active arc1 k = true) as -> by (unfold arc1; rewrite active_Put by done; by left).
      exists (output (OnPolicyActive k p) arc1), (MkKnowledge (<[k := p]> (kn_policies S)) (kn_profiles S) (kn_matches S) (kn_computed S)).
      split_and!; try done. split; [done| | |].
      + cbn [output outputs]. rewrite told_snoc. change (outputs arc1) with (outputs arc). rewrite Ht. by destruct S.
      + intros k'. cbn [output policyIDToEndpointKeys kn_policies]. unfold arc1. rewrite active_Put by done.
        destruct (decide (k' = k)) as [->|Hne]; [rewrite lookup_insert_eq; naive_solver|].
        rewrite lookup_insert_ne, Ha by done. naive_solver.
      + intros k' Hne. cbn [output policyIDToEndpointKeys kn_policies]. unfold arc1. rewrite active_Put by done.
        destruct (decide (k' = k)) as [->|Hne']; [by rewrite lookup_insert_eq|]. rewrite lookup_insert_ne by done.
        intros [->|Hk']; [done|]. by apply Hc. }
  cbn [obind]. destruct l as [e|x]; [|by exists arc2, S2].
  assert (Hak : is_Some (kn_policies S2 !! k)).
  { apply (pk_active _ _ _ Hok2). rewrite active_in by apply Hok2. exists (inl e). rewrite Hm2. apply md_Put_in. by left. }
  exists (output (OnPolicyMatch k e) arc2),
    (MkKnowledge (kn_policies S2) (kn_profiles S2) ({[(k, e)]} ∪ kn_matches S2) (kn_computed S2)).
  split_and!; [done|by etrans; [exact Hf2|]| |done|cbn; by rewrite HM2|exact HR2].
  destruct Hok2 as [Hmd2 Ht2 Ha2 Hc2]. split; [done| |done|done].
  cbn [output outputs]. rewrite told_snoc, Ht2. destruct S2 as [ps rs ms cs]. cbn [listen kn_matches kn_policies] in *.
  rewrite decide_False; [done|]. intros [Hin|Hnone]; [rewrite HM2 in Hin; by eapply Hl|]. by rewrite Hnone in Hak; destruct Hak.
Qed.

Lemma onMatchStopped_ok exc arc S k l :
  pol_ok exc arc S → md_in (policyIDToEndpointKeys arc) k l → (∀ e, l = inl e → (k, e) ∈ kn_matches S) →
  ∃ arc' S', onMatchStopped (inl k) l arc = Ret arc' ∧ pol_frame arc arc' ∧ pol_ok exc arc' S' ∧
    policyIDToEndpointKeys arc' = Multidict.Discard k l (policyIDToEndpointKeys arc) ∧
    kn_matches S' = delMatch k l (kn_matches S) ∧ same_rest S S'.
Proof.
  intros [Hmd Ht Ha Hc] Hin Hl. unfold onMatchStopped. set (arc1 := set_policyEndpoints (Multidict.Discard k l) arc).
  assert (Hact : active arc k = true) by (apply active_in; eauto).
  assert (∃ arc2 S2, (if active arc1 k then Ret arc1 else sendPolicyUpdate k (allPolicies arc1 !! k) arc1) = Ret (E := Empty_set) arc2 ∧
       pol_frame arc arc2 ∧ pol_ok exc arc2 S2 ∧
       policyIDToEndpointKeys arc2 = Multidict.Discard k l (policyIDToEndpointKeys arc) ∧
       kn_matches S2 = kn_matches S ∧ same_rest S S2) as (arc2&S2&->&Hf2&Hok2&Hm2&HM2&HR2).
  { assert (Hmd1 : md_ok (policyIDToEndpointKeys arc1)) by (by apply md_Discard_ok).
    destruct (active arc1 k) eqn:Hact1.
    - exists arc1, S. split_and!; try done. split; [done|done| |].
      + intros k'. rewrite Ha. destruct (decide (k' = k)) as [->|Hne]; [by rewrite Hact, Hact1|].
        unfold arc1. by rewrite active_Discard_ne.
      + intros k' Hne. destruct (decide (k' = k)) as [->|Hne']; [intros _; by apply Hc|].
        unfold arc1. rewrite active_Discard_ne by done. by apply Hc.
    - unfold sendPolicyUpdate. rewrite Hact1.
      exists (output (OnPolicyInactive k) arc1), (MkKnowledge (delete k (kn_policies S)) (kn_profiles S) (kn_matches S) (kn_computed S)).
      split_and!; try done. split; [done| | |].
      + cbn [output outputs]. rewrite told_snoc. change (outputs arc1) with (outputs arc). rewrite Ht.
        apply Ha in Hact as [p Hp]. destruct S as [ps rs ms cs]. cbn in *. by rewrite Hp.
      + intros k'. cbn [output policyIDToEndpointKeys kn_policies].
        destruct (decide (k' = k)) as [->|Hne]; [rewrite lookup_delete_eq; unfold arc1 in Hact1; cbn in Hact1 |- *; rewrite Hact1|].
        * split; [by intros []|done].
        * rewrite lookup_delete_ne, Ha by done. unfold arc1. by rewrite active_Discard_ne.
      + intros k' Hne. cbn [output policyIDToEndpointKeys kn_policies].
        destruct (decide (k' = k)) as [->|Hne']; [unfold arc1 in *; cbn in Hact1 |- *; by rewrite Hact1|].
        rewrite lookup_delete_ne by done. unfold arc1. rewrite active_Discard_ne by done. by apply Hc. }
  cbn [obind]. destruct l as [e|x]; [|by exists arc2, S2].
  exists (output (OnPolicyMatchStopped k e) arc2),
    (MkKnowledge (kn_policies S2) (kn_profiles S2) (kn_matches S2 ∖ {[(k, e)]}) (kn_computed S2)).
  split_and!; [done|by etrans; [exact Hf2|]| |done|cbn; by rewrite HM2|exact HR2].
  destruct Hok2 as [Hmd2 Ht2 Ha2 Hc2]. split; [done| |done|done].
  cbn [output outputs]. rewrite told_snoc, Ht2. destruct S2 as [ps rs ms cs]. cbn [listen kn_matches kn_policies] in *.
  rewrite decide_True; [done|]. rewrite HM2. by eapply Hl.
Qed.

(** ** The callbacks of the index *)
Record matches_ok arc S (A : selID * EndpointKey → bool) : Prop := {
  mo_in k e : md_in (policyIDToEndpointKeys arc) k (inl e) ↔ A (inl k, e) = true;
  mo_matches k e : (k, e) ∈ kn_matches S ↔ A (inl k, e) = true;
  mo_computed c e : (c, e) ∈ kn_computed S ↔ A (inr c, e) = true
}.

Lemma computed_output_ok exc arc S o S' :
  pol_ok exc arc S → listen (Some S) o = Some S' → kn_policies S' = kn_policies S →
  pol_ok exc (output o arc) S' ∧ pol_frame arc (output o arc).
Proof.
  intros [Hmd Ht Ha Hc] Hl Hp. split; [|done]. split; [done| | |].
  - cbn [output outputs]. by rewrite told_snoc, Ht.
  - intros k. rewrite Hp. apply Ha.
  - intros k. rewrite Hp. apply Hc.
Qed.

Lemma runCallback_ok exc arc S A sel e (b : bool) :
  pol_ok exc arc S → matches_ok arc S A → A (sel, e) = negb b →
  (b = true → ∀ k, sel = inl k → is_Some (allPolicies arc !! k)) →
  ∃ arc' S', (if b then onMatchStarted sel (inl e) arc else onMatchStopped sel (inl e) arc) = Ret arc' ∧
    pol_frame arc arc' ∧ pol_ok exc arc' S' ∧ matches_ok arc' S' (setPair (sel, e) b A) ∧
    (∀ k x, md_in (policyIDToEndpointKeys arc') k (inr x) ↔ md_in (policyIDToEndpointKeys arc) k (inr x)) ∧
    kn_profiles S' = kn_profiles S.
Proof.
  intros Hok [Hin HM HC] HA Hkn. destruct sel as [k|c].
  - assert (∃ arc' S', (if b then onMatchStarted (inl k) (inl e) arc else onMatchStopped (inl k) (inl e) arc) = Ret arc' ∧
      pol_frame arc arc' ∧ pol_ok exc arc' S' ∧
      policyIDToEndpointKeys arc' = (if b then Multidict.Put else Multidict.Discard) k (inl e) (policyIDToEndpointKeys arc) ∧
      kn_matches S' = (if b then {[(k, e)]} ∪ kn_matches S else kn_matches S ∖ {[(k, e)]}) ∧ same_rest S S')
      as (arc'&S'&->&Hf&Hok'&Hm&HM'&HR).
    { destruct b.
      - apply (onMatchStarted_ok exc arc S k (inl e)); [done|by apply Hkn|]. intros e' [= <-]. rewrite HM. by rewrite HA.
      - apply (onMatchStopped_ok exc arc S k (inl e)); [done|by apply Hin|]. intros e' [= <-]. by rewrite HM. }
    exists arc', S'. destruct HR as [HR1 HR2]. split_and!; [done|done|done| | |done].
    + split.
      * intros k' e'. rewrite Hm. unfold setPair. destruct b; rewrite ?md_Put_in, ?md_Discard_in, Hin;
          case_decide; simplify_eq; naive_solver.
      * intros k' e'. rewrite HM'. unfold setPair. destruct b; rewrite ?elem_of_union, ?elem_of_difference, elem_of_singleton, HM;
          case_decide; simplify_eq; naive_solver.
      * intros c' e'. rewrite HR2, HC. unfold setPair. by case_decide.
    + intros k' x. rewrite Hm. destruct b; rewrite ?md_Put_in, ?md_Discard_in; naive_solver.
  - assert (∃ o S', listen (Some S) o = Some S' ∧
      (if b then onMatchStarted (inr c) (inl e) arc else onMatchStopped (inr c) (inl e) arc) = Ret (E := Empty_set) (output o arc) ∧
      kn_policies S' = kn_policies S ∧ kn_profiles S' = kn_profiles S ∧ kn_matches S' = kn_matches S ∧
      kn_computed S' = (if b then {[(c, e)]} ∪ kn_computed S else kn_computed S ∖ {[(c, e)]}))
      as (o&S'&Ho&->&H1&H2&H3&H4).
    { destruct S as [ps rs ms cs]. cbn in HC. destruct b; cbn.
      - eexists (OnComputedSelectorMatch c e), _. cbn. rewrite decide_False by (rewrite HC; by rewrite HA). by split_and!.
      - eexists (OnComputedSelectorMatchStopped c e), _. cbn. rewrite decide_True by (by rewrite HC). by split_and!. }
    destruct (computed_output_ok exc arc S o S' Hok Ho H1) as [Hok' Hf].
    exists (output o arc), S'. split_and!; [done|done|done| |done|done]. split.
    + intros k' e'. cbn [output policyIDToEndpointKeys]. rewrite Hin. unfold setPair. by case_decide.
    + intros k' e'. rewrite H3, HM. unfold setPair. by case_decide.
    + intros c' e'. rewrite H4. unfold setPair. destruct b; rewrite ?elem_of_union, ?elem_of_difference, elem_of_singleton, HC;
        case_decide; simplify_eq; naive_solver.
Qed.

Lemma exact_events_started evs (A B : selID * EndpointKey → bool) s e :
  exact_events evs A B → InheritIndex.OnMatchStarted s e ∈ evs → B (s, e) = true.
Proof. intros [_ Hev] Hin. by apply (Hev s e). Qed.

Lemma matches_ok_ext arc S A A' : (∀ x, A x = A' x) → matches_ok arc S A → matches_ok arc S A'.
Proof. intros HA [H1 H2 H3]. split; intros; rewrite <-HA; auto. Qed.

Lemma runCallbacks_ok exc evs arc S (A B : selID * EndpointKey → bool) :
  exact_events evs A B → pol_ok exc arc S → matches_ok arc S A →
  (∀ k e, B (inl k, e) = true → is_Some (allPolicies arc !! k)) →
  ∃ arc' S', runCallbacks evs arc = Ret arc' ∧ pol_frame arc arc' ∧ pol_ok exc arc' S' ∧ matches_ok arc' S' B ∧
    (∀ k x, md_in (policyIDToEndpointKeys arc') k (inr x) ↔ md_in (policyIDToEndpointKeys arc) k (inr x)) ∧
    kn_profiles S' = kn_profiles S.
Proof.
  revert arc S A. induction evs as [|ev evs IH]; intros arc S A Hex Hok Hm HB.
  - exists arc, S. split_and!; try done. eapply matches_ok_ext, Hm. intros [s e]. destruct Hex as [_ Hex].
    specialize (Hex s e) as [H1 H2]. rewrite elem_of_nil in H1, H2. destruct (A (s, e)), (B (s, e)); naive_solver.
  - assert (∃ sel e b, A (sel, e) = negb b ∧ exact_events evs (setPair (sel, e) b A) B ∧
      (b = true → B (sel, e) = true) ∧
      ev = (if b then InheritIndex.OnMatchStarted sel e else InheritIndex.OnMatchStopped sel e)) as (sel&e&b&HA&Hex'&Hb&->).
    { pose proof (exact_events_cons _ _ _ _ Hex) as Hc. destruct ev as [sel e|sel e]; destruct Hc as [HA Hex'].
      - exists sel, e, true. split_and!; try done. intros _. apply (exact_events_started _ _ _ _ _ Hex). left.
      - exists sel, e, false. by split_and!. }
    destruct (runCallback_ok exc arc S A sel e b Hok Hm HA) as (arc1&S1&Hrun&Hf1&Hok1&Hm1&Hd1&HP1).
    { intros Hb' k ->. by eapply HB, Hb. }
    cbn [runCallbacks]. replace (match (if b then _ else _) with InheritIndex.OnMatchStarted _ _ => _ | _ => _ end)
      with (Ret (E := Empty_set) arc1) by (rewrite <-Hrun; by destruct b).
    cbn [obind]. destruct (IH arc1 S1 _ Hex' Hok1 Hm1) as (arc'&S'&->&Hf&Hok'&Hm'&Hd&HP).
    { intros k e'. rewrite (pf_policies _ _ Hf1). apply HB. }
    exists arc', S'. split_and!; [done|by etrans|done|done| |congruence]. intros k x. by rewrite Hd.
Qed.

(** ** Profiles *)
Record prof_frame arc arc' : Prop := {
  rf_tiers : allTiers arc' = allTiers arc;
  rf_policies : allPolicies arc' = allPolicies arc;
  rf_rules : allProfileRules arc' = allProfileRules arc;
  rf_alp : allALPPolicies arc' = allALPPolicies arc;
  rf_matches : policyIDToEndpointKeys arc' = policyIDToEndpointKeys arc;
  rf_index : labelIndex arc' = labelIndex arc;
  rf_ids : endpointKeyToProfileIDs arc' = endpointKeyToProfileIDs arc;
  rf_sync : initialSyncCompleted arc' = initialSyncCompleted arc
}.
#[global] Instance prof_frame_refl : Reflexive prof_frame.
Proof. by intros arc. Qed.
#[global] Instance prof_frame_trans : Transitive prof_frame.
Proof. intros a1 a2 a3 [] []. split; congruence. Qed.

Definition same_policies S S' : Prop :=
  kn_policies S' = kn_policies S ∧ kn_matches S' = kn_matches S ∧ kn_computed S' = kn_computed S.

Abbreviation activeProfile arc id := (Multidict.ContainsKey (profileIDToEndpointKeys arc) id).

Definition profileRulesOf arc (id : string) : ProfileRules := default DummyDropRules (allProfileRules arc !! id).

Record prof_ok arc S : Prop := {
  ro_md : md_ok (profileIDToEndpointKeys arc);
  ro_told : told (outputs arc) = Some S;
  ro_profiles id : kn_profiles S !! id = if activeProfile arc id then Some (profileRulesOf arc id) else None
}.

Lemma sendProfileUpdate_ok id arc S :
  told (outputs arc) = Some S → (activeProfile arc id = false → is_Some (kn_profiles S !! id)) →
  let arc' := sendProfileUpdate id (allProfileRules arc !! id) arc in
  ∃ S', told (outputs arc') = Some S' ∧ same_policies S S' ∧ prof_frame arc arc' ∧
    profileIDToEndpointKeys arc' = profileIDToEndpointKeys arc ∧
    kn_profiles S' = (if activeProfile arc id then <[id := profileRulesOf arc id]> else delete id) (kn_profiles S).
Proof.
  intros Ht Hina. unfold sendProfileUpdate, profileRulesOf. destruct S as [ps rs ms cs]. cbn in Hina.
  destruct (activeProfile arc id).
  - destruct (allProfileRules arc !! id) as [r|]; cbn; [|destruct (initialSyncCompleted arc) eqn:Es; cbn];
      (eexists; split_and!; [rewrite told_snoc, Ht; done|done| |done|done]); by split.
  - destruct (Hina eq_refl) as [r Hr]. cbn. eexists. split_and!; [rewrite told_snoc, Ht; cbn; by rewrite Hr|done|done|done|done].
Qed.

(** One more, or one fewer, endpoint for a profile. *)
Lemma profileChange_ok id arc arc1 S :
  prof_ok arc S → prof_frame arc arc1 → outputs arc1 = outputs arc → md_ok (profileIDToEndpointKeys arc1) →
  (∀ id', id' ≠ id → activeProfile arc1 id' = activeProfile arc id') →
  (activeProfile arc1 id = false → activeProfile arc id = true) →
  let arc' := sendProfileUpdate id (allProfileRules arc1 !! id) arc1 in
  ∃ S', prof_ok arc' S' ∧ same_policies S S' ∧ prof_frame arc arc' ∧
    profileIDToEndpointKeys arc' = profileIDToEndpointKeys arc1.
Proof.
  intros [Hmd Ht Hp] Hf Ho Hmd1 Hne Hid arc'. rewrite <-Ho in Ht.
  destruct (sendProfileUpdate_ok id arc1 S Ht) as (S'&Ht'&HS&Hf'&Hm'&HP').
  { intros Hina%Hid. rewrite Hp, Hina. eauto. }
  fold arc' in Ht', Hf', Hm'. exists S'. split_and!; [|done|by etrans|done].
  split; [by rewrite Hm'|done|]. intros id'. unfold profileRulesOf in *. rewrite HP', Hm', (rf_rules _ _ Hf').
  destruct (decide (id' = id)) as [->|Hne'].
  - destruct (activeProfile arc1 id); [by rewrite lookup_insert_eq|by rewrite lookup_delete_eq].
  - rewrite (Hne id') by done. destruct (activeProfile arc1 id); rewrite ?lookup_insert_ne, ?lookup_delete_ne by done;
      rewrite Hp; unfold profileRulesOf; by rewrite (rf_rules _ _ Hf).
Qed.

Lemma addProfile_ok key id arc S :
  prof_ok arc S →
  ∃ S', prof_ok (addProfile key arc id) S' ∧ same_policies S S' ∧ prof_frame arc (addProfile key arc id) ∧
    profileIDToEndpointKeys (addProfile key arc id) = Multidict.Put id key (profileIDToEndpointKeys arc).
Proof.
  intros Hok. unfold addProfile. set (arc1 := set_profileEndpoints (Multidict.Put id key) arc).
  assert (Hmd1 : md_ok (profileIDToEndpointKeys arc1)) by (by apply md_Put_ok, (ro_md _ _ Hok)).
  assert (Hact : ∀ id', activeProfile arc1 id' = true ↔ id' = id ∨ activeProfile arc id' = true).
  { intros id'. rewrite !md_ContainsKey, !md_key; [|apply Hok|done]. cbn. setoid_rewrite md_Put_in. naive_solver. }
  destruct (activeProfile arc id) eqn:Ha.
  - exists S. split_and!; [|done|done|done]. destruct Hok as [Hmd Ht Hp]. split; [done|done|].
    intros id'. rewrite Hp. replace (activeProfile arc1 id') with (activeProfile arc id'); [done|].
    apply eq_true_iff_eq. rewrite Hact. naive_solver.
  - apply (profileChange_ok id arc arc1 S Hok); [done|done|done| |].
    + intros id' Hne. apply eq_true_iff_eq. rewrite Hact. naive_solver.
    + intros Hf. assert (activeProfile arc1 id = true) by (apply Hact; by left). congruence.
Qed.

Lemma removeProfile_ok key id arc S :
  prof_ok arc S → md_in (profileIDToEndpointKeys arc) id key →
  ∃ S', prof_ok (removeProfile key arc id) S' ∧ same_policies S S' ∧ prof_frame arc (removeProfile key arc id) ∧
    profileIDToEndpointKeys (removeProfile key arc id) = Multidict.Discard id key (profileIDToEndpointKeys arc).
Proof.
  intros Hok Hin. unfold removeProfile. set (arc1 := set_profileEndpoints (Multidict.Discard id key) arc).
  assert (Hmd1 : md_ok (profileIDToEndpointKeys arc1)) by (by apply md_Discard_ok, (ro_md _ _ Hok)).
  assert (Hact : ∀ id', id' ≠ id → activeProfile arc1 id' = activeProfile arc id').
  { intros id' Hne. apply eq_true_iff_eq. rewrite !md_ContainsKey, !md_key; [|apply Hok|done]. cbn.
    setoid_rewrite md_Discard_in. naive_solver. }
  assert (Ha : activeProfile arc id = true) by (rewrite md_ContainsKey, md_key; [eauto|apply Hok]).
  destruct (activeProfile arc1 id) eqn:Ha1.
  - exists S. split_and!; [|done|done|done]. destruct Hok as [Hmd Ht Hp]. split; [done|done|].
    intros id'. rewrite Hp. destruct (decide (id' = id)) as [->|Hne]; [by rewrite Ha, Ha1|]. by rewrite Hact.
  - by apply (profileChange_ok id arc arc1 S Hok).
Qed.

Lemma same_policies_trans S1 S2 S3 : same_policies S1 S2 → same_policies S2 S3 → same_policies S1 S3.
Proof. intros (?&?&?) (?&?&?). split_and!; congruence. Qed.

Lemma addProfiles_ok key ids arc S :
  prof_ok arc S →
  ∃ S', prof_ok (foldl (addProfile key) arc ids) S' ∧ same_policies S S' ∧ prof_frame arc (foldl (addProfile key) arc ids) ∧
    ∀ id e, md_in (profileIDToEndpointKeys (foldl (addProfile key) arc ids)) id e ↔
            md_in (profileIDToEndpointKeys arc) id e ∨ (e = key ∧ id ∈ ids).
Proof.
  revert arc S. induction ids as [|id ids IH]; intros arc S Hok; cbn [foldl].
  - exists S. split_and!; try done. intros id e. rewrite elem_of_nil. tauto.
  - destruct (addProfile_ok key id arc S Hok) as (S1&Hok1&HS1&Hf1&Hm1).
    destruct (IH _ S1 Hok1) as (S'&Hok'&HS'&Hf'&Hm'). exists S'.
    split_and!; [done|by eapply same_policies_trans|by etrans|].
    intros id' e. rewrite Hm', Hm1, md_Put_in, elem_of_cons. naive_solver.
Qed.

Lemma removeProfiles_ok key ids arc S :
  NoDup ids → prof_ok arc S → (∀ id, id ∈ ids → md_in (profileIDToEndpointKeys arc) id key) →
  ∃ S', prof_ok (foldl (removeProfile key) arc ids) S' ∧ same_policies S S' ∧
    prof_frame arc (foldl (removeProfile key) arc ids) ∧
    ∀ id e, md_in (profileIDToEndpointKeys (foldl (removeProfile key) arc ids)) id e ↔
            md_in (profileIDToEndpointKeys arc) id e ∧ ¬ (e = key ∧ id ∈ ids).
Proof.
  revert arc S. induction ids as [|id ids IH]; intros arc S Hnd Hok Hin; cbn [foldl].
  - exists S. split_and!; try done. intros id e. rewrite elem_of_nil. tauto.
  - apply list.NoDup_cons in Hnd as [Hni Hnd].
    destruct (removeProfile_ok key id arc S Hok) as (S1&Hok1&HS1&Hf1&Hm1); [apply Hin; left|].
    destruct (IH _ S1 Hnd Hok1) as (S'&Hok'&HS'&Hf'&Hm').
    { intros id' Hid'. rewrite Hm1, md_Discard_in. split; [apply Hin; by right|]. by intros [-> _]. }
    exists S'. split_and!; [done|by eapply same_policies_trans|by etrans|].
    intros id' e. rewrite Hm', Hm1, md_Discard_in, elem_of_cons. naive_solver.
Qed.

(** The delta of [EndpointKeyToProfileIDMap.Update]. *)
Lemma profileDelta_spec oldIDs profileIDs :
  let '(removed, added) := profileDelta oldIDs profileIDs in
  (∀ id, id ∈ removed ↔ id ∈ oldIDs ∧ id ∉ profileIDs) ∧
  (∀ id, id ∈ added → id ∈ profileIDs) ∧ (∀ id, id ∈ profileIDs → id ∈ oldIDs ∨ id ∈ added).
Proof.
  unfold profileDelta.
  assert (Hgen : ∀ l (r a : gset string), let '(r', a') := foldl (λ '(removedIDs, addedIDs) id,
      if decide (id ∈ removedIDs) then (removedIDs ∖ {[id]}, addedIDs) else (removedIDs, {[id]} ∪ addedIDs)) (r, a) l in
    (∀ id, id ∈ r' ↔ id ∈ r ∧ id ∉ l) ∧ (∀ id, id ∈ a' → id ∈ a ∨ id ∈ l) ∧ (∀ id, id ∈ l → id ∈ r ∨ id ∈ a') ∧
    (∀ id, id ∈ a → id ∈ a')).
  { induction l as [|x l IH]; intros r a; cbn [foldl].
    - set_solver.
    - destruct (decide (x ∈ r)) as [Hx|Hx].
      + specialize (IH (r ∖ {[x]}) a). destruct (foldl _ _ l) as [r' a']. set_solver.
      + specialize (IH r ({[x]} ∪ a)). destruct (foldl _ _ l) as [r' a']. set_solver. }
  specialize (Hgen profileIDs (list_to_set oldIDs) ∅). destruct (foldl _ _ profileIDs) as [r a]. set_solver.
Qed.
End spec.
