(* ===== verification/ActiveRulesCorrect.v ===== *)
(** * The active rules calculator keeps its listeners exactly informed

    [store] is what the datastore says: the data model of the label index, the policies
    and the profile rules.  [arc_inv] relates a calculator, a store and what the listeners
    know; every operation preserves it. *)
From S2P Require Import Prelude.
From S2P Require Import ModelRule.
From S2P Require Import SelectorAST.
From S2P Require Import SelectorParser.
From S2P Require Import UniqueLabels.
From S2P Require Import Multidict.
From S2P Require Import InheritIndex.
From S2P Require Import InheritIndexSpec.
From S2P Require Import InheritIndexCorrect.
From S2P Require Import PolicySorter.
From S2P Require Import ActiveRules.
From S2P Require Import ActiveRulesSpec.
From stdpp Require Import base list gmap strings.
From stdpp Require Import options.

Section correct.
Context `{Countable EndpointKey} `{Countable Listener}.
Abbreviation selID := (PolicyKey + string * Listener)%type.
Context (MakeUniqueID : string → string → string).
Context (Hhash : ∀ c1 c2, MakeUniqueID "s" c1 = MakeUniqueID "s" c2 → c1 = c2).
Context (DeepEqual_Policy : Policy → Policy → bool) (DeepEqual_ProfileRules : ProfileRules → ProfileRules → bool).
(** [reflect.DeepEqual] may tell equal values apart (NaN, nil and empty slices), but not
    the converse. *)
Context (HDeepPolicy : ∀ p q, DeepEqual_Policy p q = true → p = q).
Context (HDeepRules : ∀ p q, DeepEqual_ProfileRules p q = true → p = q).
Context (enumItems : gmap EndpointKey itemData → list (EndpointKey * itemData)).
Context (enumSelectors : gmap selID Selector → list (selID * Selector)).
Context (enumItemIDs : gset EndpointKey → list EndpointKey).
Context (enumSelIDs : gset selID → list selID) (enumIDs : gset string → list string).
Context (HenumItems : ∀ m, enumItems m ≡ₚ map_to_list m) (HenumSelectors : ∀ m, enumSelectors m ≡ₚ map_to_list m).
Context (HenumItemIDs : ∀ s, enumItemIDs s ≡ₚ elements s) (HenumSelIDs : ∀ s, enumSelIDs s ≡ₚ elements s).
Context (HenumIDs : ∀ s, enumIDs s ≡ₚ elements s).
Abbreviation ARC := (ActiveRulesCalculator (EndpointKey := EndpointKey) (Listener := Listener)).
Abbreviation Knowledge := (knowledge (EndpointKey := EndpointKey) (Listener := Listener)).
Abbreviation Model := (datamodel (ItemID := EndpointKey) (SelID := selID)).
Abbreviation Index := (InheritIndex EndpointKey selID).

Definition parse_of (s : string) : option Selector :=
  match Parse MakeUniqueID s with Ret (Some sel) => Some sel | _ => None end.

(** ** Inputs and the store *)
Record store := MkStore {
  st_dm : Model;
  st_policies : gmap PolicyKey Policy;
  st_rules : gmap string ProfileRules
}.
Implicit Types (exc : option PolicyKey) (ps : gmap PolicyKey Policy) (rs : gmap string ProfileRules).
Implicit Types (arc : ARC) (st : store) (S : Knowledge) (dm : Model) (idx : Index) (k : PolicyKey) (e : EndpointKey).

Definition emptyStore : store := MkStore emptyDatamodel ∅ ∅.

Inductive ArcOp :=
  | ArcUpdate (update : Update (EndpointKey := EndpointKey))
  | ArcStatus (inSync : bool)
  | ArcAddSelector (cs : string) (listener : Listener)
  | ArcRemoveSelector (cs : string) (listener : Listener).

Definition arc_step (op : ArcOp) arc : outcome Empty_set ARC :=
  match op with
  | ArcUpdate update =>
      OnUpdate MakeUniqueID DeepEqual_Policy DeepEqual_ProfileRules enumItems enumSelectors enumItemIDs enumSelIDs enumIDs update arc
  | ArcStatus inSync => Ret (OnStatusUpdate inSync arc)
  | ArcAddSelector cs l => AddExtraComputedSelector MakeUniqueID enumItems cs l arc
  | ArcRemoveSelector cs l => RemoveExtraComputedSelector enumItemIDs cs l arc
  end.

Fixpoint arc_run (ops : list ArcOp) arc : outcome Empty_set ARC :=
  match ops with
  | [] => Ret arc
  | op :: ops' => let! arc' := arc_step op arc in arc_run ops' arc'
  end.

Definition setSelector (id : selID) (s : string) dm : Model :=
  match parse_of s with Some sel => dm_step dm (OpUpdateSelector id sel) | None => dm end.

Definition store_step st (op : ArcOp) : store :=
  let 'MkStore dm ps rs := st in
  match op with
  | ArcUpdate (UpdEndpoint key value) => MkStore (dm_step dm (OpUpdate (EndpointUpdate key value))) ps rs
  | ArcUpdate (UpdResource Kind Name value) => MkStore (dm_step dm (OpUpdate (ResourceUpdate Kind Name value))) ps rs
  | ArcUpdate (UpdProfileRules Name (Some r)) => MkStore dm ps (<[Name := r]> rs)
  | ArcUpdate (UpdProfileRules Name None) => MkStore dm ps (delete Name rs)
  | ArcUpdate (UpdPolicy key (Some p)) => MkStore (setSelector (inl key) (pol_Selector p) dm) (<[key := p]> ps) rs
  | ArcUpdate (UpdPolicy key None) => MkStore (dm_step dm (OpDeleteSelector (inl key))) (delete key ps) rs
  | ArcUpdate (UpdTier _ _) | ArcStatus _ => st
  | ArcAddSelector cs l => MkStore (setSelector (inr (cs, l)) cs dm) ps rs
  | ArcRemoveSelector cs l => MkStore (dm_step dm (OpDeleteSelector (inr (cs, l)))) ps rs
  end.

(** Selectors parse: the validation filter in front of the calculator drops the others. *)
Definition arc_op_ok (op : ArcOp) : Prop :=
  match op with
  | ArcUpdate (UpdPolicy _ (Some p)) => is_Some (parse_of (pol_Selector p))
  | ArcAddSelector cs _ => is_Some (parse_of cs)
  | _ => True
  end.

(** ** The invariant *)
Definition matchingPair dm (x : selID * EndpointKey) : bool := matching dm x.1 x.2.

(** [dm] is the data model the index has, [dm0] the one that the profiles of endpoints come
    from, [ps] the policies the calculator has: in the middle of an update these are not
    in step. *)
Record arc_mid (exc : option PolicyKey) arc dm dm0 (ps : gmap PolicyKey Policy) (rs : gmap string ProfileRules) S : Prop := {
  am_index : index_inv MakeUniqueID (labelIndex arc) dm;
  am_callbacks : callbacks (labelIndex arc) = [];
  am_policies : allPolicies arc = ps;
  am_rules : allProfileRules arc = rs;
  am_pol : pol_ok exc arc S;
  am_matches : matches_ok arc S (matchingPair dm);
  am_prof : prof_ok arc S;
  am_prof_in id e : md_in (profileIDToEndpointKeys arc) id e ↔ id ∈ oldParentIDs dm0 e;
  am_ids e : default [] (endpointKeyToProfileIDs arc !! e) = oldParentIDs dm0 e
}.

Definition dummy_ok arc (forced : PolicyKey → bool) : Prop :=
  ∀ k x, md_in (policyIDToEndpointKeys arc) k (inr x) ↔ x = forceProgrammedDummyKey ∧ forced k = true.

Record arc_inv arc st S : Prop := {
  ai_mid : arc_mid None arc (st_dm st) (st_dm st) (st_policies st) (st_rules st) S;
  ai_dummy : dummy_ok arc (λ k, policyForceProgrammed (st_policies st !! k));
  ai_selectors k : dm_selectors (st_dm st) !! inl k = st_policies st !! k ≫= λ p, parse_of (pol_Selector p);
  ai_parsed k p : st_policies st !! k = Some p → is_Some (parse_of (pol_Selector p))
}.

#[local] Set Default Proof Using "All".

Lemma pol_ok_prof exc arc arc' S S' :
  pol_ok exc arc S → prof_frame arc arc' → same_policies S S' → told (outputs arc') = Some S' → pol_ok exc arc' S'.
Proof using Type.
  intros [Hmd Ht Ha Hc] Hf (HP&_&_) Ht'. split; [by rewrite (rf_matches _ _ Hf)|done| |]; intros k;
    rewrite HP, (rf_matches _ _ Hf), ?(rf_policies _ _ Hf); auto.
Qed.

Lemma matches_ok_prof arc arc' S S' A :
  matches_ok arc S A → prof_frame arc arc' → same_policies S S' → matches_ok arc' S' A.
Proof using Type.
  intros [H1 H2 H3] Hf (_&HM&HC). split; intros; by rewrite ?(rf_matches _ _ Hf), ?HM, ?HC.
Qed.

Lemma prof_ok_pol arc arc' S S' :
  prof_ok arc S → allProfileRules arc' = allProfileRules arc → profileIDToEndpointKeys arc' = profileIDToEndpointKeys arc →
  told (outputs arc') = Some S' → kn_profiles S' = kn_profiles S → prof_ok arc' S'.
Proof using Type.
  intros [Hmd Ht Hp] H1 H2 Ht' HP. split; [by rewrite H2|done|]. intros id. rewrite HP, Hp, H2.
  unfold profileRulesOf. by rewrite H1.
Qed.

(** ** Operations of the index *)
Lemma index_inv_clear (idx : Index) dm : index_inv MakeUniqueID idx dm → index_inv MakeUniqueID (clear_callbacks idx) dm.
Proof using Type. intros [[] [[]] ? ?]. split; [by split| |done|done]. split; [by split|done|done]. Qed.

Lemma runIndex_ok exc arc dm dm' dm0 (ps : gmap PolicyKey Policy) (rs : gmap string ProfileRules) S (f : Index → outcome Empty_set Index) (idx' : Index) :
  arc_mid exc arc dm dm0 ps rs S → f (labelIndex arc) = Ret idx' →
  step_ok MakeUniqueID (labelIndex arc) dm idx' dm' →
  (∀ k e, matching dm' (inl k) e = true → is_Some (ps !! k)) →
  ∃ arc' S', runIndex f arc = Ret arc' ∧ arc_mid exc arc' dm' dm0 ps rs S' ∧
    (∀ k x, md_in (policyIDToEndpointKeys arc') k (inr x) ↔ md_in (policyIDToEndpointKeys arc) k (inr x)).
Proof using Type.
  intros [Hi Hcb Hp Hr Hpol Hm Hprof Hpin Hids] Hf (Hi'&evs&Hcb'&Hev) Hknown. rewrite Hcb in Hcb'. simpl in Hcb'.
  unfold runIndex. rewrite Hf. cbn [obind]. rewrite Hcb'.
  destruct (runCallbacks_ok exc evs (set_labelIndex (clear_callbacks idx') arc) S (matchingPair dm) (matchingPair dm') Hev)
    as (arc'&S'&Hrun&Hfr&Hpol'&Hm'&Hd&HP).
  - destruct Hpol. by split.
  - destruct Hm. by split.
  - intros k e He. cbn. rewrite Hp. by eapply Hknown.
  - exists arc', S'. split; [done|]. split; [|exact Hd]. destruct Hfr as [_ F2 F3 _ F5 F6 F7 _ _]. cbn in F2, F3, F5, F6, F7.
    split.
    + rewrite F6. by apply index_inv_clear.
    + by rewrite F6.
    + by rewrite F2.
    + by rewrite F3.
    + done.
    + done.
    + eapply prof_ok_pol; [exact Hprof|done|done|apply Hpol'|done].
    + intros id e. by rewrite F5.
    + intros e. by rewrite F7.
Qed.

Lemma known_match dm ps k e :
  (∀ k, dm_selectors dm !! inl k = ps !! k ≫= λ p, parse_of (pol_Selector p)) →
  matching dm (inl k) e = true → is_Some (ps !! k).
Proof using Type.
  intros Hs. unfold matching. rewrite Hs. destruct (ps !! k); [eauto|done].
Qed.

Lemma arc_mid_dm0 exc arc dm dm0 dm0' ps rs S :
  (∀ e, oldParentIDs dm0' e = oldParentIDs dm0 e) → arc_mid exc arc dm dm0 ps rs S → arc_mid exc arc dm dm0' ps rs S.
Proof using Type. intros Hold []. split; try done; intros; by rewrite Hold. Qed.

(** Fields that the invariant does not mention. *)
Lemma arc_mid_fields exc arc arc' dm dm0 ps rs S :
  allPolicies arc' = allPolicies arc → allProfileRules arc' = allProfileRules arc →
  policyIDToEndpointKeys arc' = policyIDToEndpointKeys arc → profileIDToEndpointKeys arc' = profileIDToEndpointKeys arc →
  labelIndex arc' = labelIndex arc → endpointKeyToProfileIDs arc' = endpointKeyToProfileIDs arc →
  told (outputs arc') = told (outputs arc) →
  arc_mid exc arc dm dm0 ps rs S → arc_mid exc arc' dm dm0 ps rs S.
Proof using Type.
  intros H1 H2 H3 H4 H5 H6 H7 [Hi Hcb Hp Hr [] [] [] Hpin Hids].
  split; [by rewrite H5|by rewrite H5|by rewrite H1|by rewrite H2| | | |by rewrite H4|by rewrite H6].
  - split; rewrite ?H1, ?H3, ?H7; done.
  - split; rewrite ?H3; done.
  - split; unfold profileRulesOf; rewrite ?H2, ?H4, ?H7; done.
Qed.

Lemma updateStats_mid exc arc dm dm0 ps rs S : arc_mid exc arc dm dm0 ps rs S → arc_mid exc (updateStats arc) dm dm0 ps rs S.
Proof using Type.
  apply arc_mid_fields; try done. cbn [updateStats output outputs]. rewrite told_snoc.
  by destruct (told (outputs arc)) as [[]|].
Qed.

(** ** Endpoints and profile labels *)
Lemma updateEndpointProfileIDs_ok arc dm ps rs S key value :
  arc_mid None arc dm dm ps rs S →
  let ids := match value with Some (_, ids) => ids | None => [] end in
  let arc' := updateEndpointProfileIDs enumIDs key ids arc in
  ∃ S', arc_mid None arc' dm (dm_step dm (OpUpdate (EndpointUpdate key value))) ps rs S' ∧
    policyIDToEndpointKeys arc' = policyIDToEndpointKeys arc.
Proof using HenumIDs.
  intros [Hi Hcb Hp Hr Hpol Hm Hprof Hpin Hids] ids arc'. subst arc'. unfold updateEndpointProfileIDs, EndpointKeyToProfileIDMap_Update.
  rewrite (Hids key). pose proof (profileDelta_spec (oldParentIDs dm key) ids) as Hd.
  destruct (profileDelta (oldParentIDs dm key) ids) as [removed added]. destruct Hd as (Hrem&Hadd1&Hadd2).
  set (m := if (0 <? length ids)%nat then _ else _). set (arc0 := set_endpointProfiles (λ _, m) arc).
  assert (Hprof0 : prof_ok arc0 S) by (destruct Hprof; by split).
  destruct (addProfiles_ok key (enumIDs added) arc0 S Hprof0) as (S1&Hok1&HS1&Hf1&Hm1). set (arc1 := foldl (addProfile key) arc0 _) in *.
  destruct (removeProfiles_ok key (enumIDs removed) arc1 S1) as (S2&Hok2&HS2&Hf2&Hm2); [|done| |].
  { rewrite HenumIDs. apply NoDup_elements. }
  { intros id. rewrite HenumIDs, elem_of_elements, Hrem, Hm1. intros [Hid _]. left. by apply Hpin. }
  set (arc2 := foldl (removeProfile key) arc1 _) in *.
  assert (Hf : prof_frame arc0 arc2) by (by etrans). assert (HS : same_policies S S2) by (by eapply same_policies_trans).
  exists S2. split; [|apply Hf].
  assert (Hnew : ∀ e, oldParentIDs (dm_step dm (OpUpdate (EndpointUpdate key value))) e =
    if decide (e = key) then ids else oldParentIDs dm e).
  { intros e. unfold oldParentIDs. subst ids. destruct value as [[l ps']|]; simpl; case_decide; subst;
      rewrite ?lookup_insert_eq, ?lookup_delete_eq, ?lookup_insert_ne, ?lookup_delete_ne by done; done. }
  split.
  - by rewrite (rf_index _ _ Hf).
  - by rewrite (rf_index _ _ Hf).
  - by rewrite (rf_policies _ _ Hf).
  - by rewrite (rf_rules _ _ Hf).
  - eapply (pol_ok_prof None arc0); [by destruct Hpol; split|done|done|apply Hok2].
  - eapply (matches_ok_prof arc0); [by destruct Hm; split|done|done].
  - done.
  - intros id e. rewrite Hm2, Hm1, !HenumIDs, !elem_of_elements, Hrem, Hnew. cbn [arc0 set_endpointProfiles profileIDToEndpointKeys].
    rewrite Hpin. case_decide; [subst e|naive_solver]. split.
    + intros [[Hold|[_ Ha%Hadd1]] Hn]; [|done]. destruct (decide (id ∈ ids)); [done|]. destruct Hn; auto.
    + intros Hid. split; [|tauto]. destruct (Hadd2 id Hid); auto.
  - intros e. rewrite (rf_ids _ _ Hf), Hnew. cbn [arc0 set_endpointProfiles endpointKeyToProfileIDs]. subst m.
    destruct (Nat.ltb_spec 0 (length ids)) as [Hlen|Hlen]; case_decide; subst;
      rewrite ?lookup_insert_eq, ?lookup_delete_eq, ?lookup_insert_ne, ?lookup_delete_ne by done; try done.
    destruct ids; [done|simpl in Hlen; lia].
Qed.

Lemma index_step_OnUpdate (idx : Index) dm u :
  index_inv MakeUniqueID idx dm →
  step_ok MakeUniqueID idx dm (InheritIndex.OnUpdate enumSelectors enumItemIDs enumSelIDs u idx) (dm_step dm (OpUpdate u)).
Proof.
  intros Hi. destruct (index_step_ok MakeUniqueID Hhash enumItems enumSelectors enumItemIDs enumSelIDs HenumItems HenumSelectors
    HenumItemIDs HenumSelIDs idx dm (OpUpdate u) Hi I) as (idx'&[= <-]&Hs). done.
Qed.

Lemma dm_step_OpUpdate_selectors dm u : dm_selectors (dm_step dm (OpUpdate u)) = dm_selectors dm.
Proof using Type. destruct u as [key [value|]|K N value]; simpl; try done. by case_decide. Qed.

Definition preserves (arc : ARC) (m : outcome Empty_set ARC) st st' : Prop :=
  ∀ S, arc_inv arc st S → ∃ arc' S', m = Ret arc' ∧ arc_inv arc' st' S'.

Lemma OnEndpointUpdate_ok arc st key value :
  preserves arc (OnEndpointUpdate enumSelectors enumItemIDs enumSelIDs enumIDs key value arc) st
    (store_step st (ArcUpdate (UpdEndpoint key value))).
Proof.
  intros S [Hmid Hd Hsel Hpar]. destruct st as [dm ps rs]. simpl in Hmid, Hd, Hsel, Hpar.
  destruct (updateEndpointProfileIDs_ok arc dm ps rs S key value Hmid) as (S1&Hmid1&Hm1). unfold OnEndpointUpdate.
  set (arc1 := updateEndpointProfileIDs _ _ _ _) in *.
  destruct (runIndex_ok None arc1 dm _ _ ps rs S1
    (λ idx, Ret (InheritIndex.OnUpdate enumSelectors enumItemIDs enumSelIDs (EndpointUpdate key value) idx)) _ Hmid1 eq_refl
    (index_step_OnUpdate _ dm (EndpointUpdate key value) (am_index _ _ _ _ _ _ _ Hmid1)))
    as (arc'&S'&->&Hmid'&Hd').
  { intros k e. apply known_match. intros k'. by rewrite dm_step_OpUpdate_selectors, Hsel. }
  exists arc', S'. split; [done|]. split; cbn [store_step st_dm st_policies st_rules];
    [done| |intros k; by rewrite dm_step_OpUpdate_selectors, Hsel|done].
  intros k x. by rewrite Hd', Hm1, (Hd k x).
Qed.

Lemma OnResourceUpdate_ok arc st Kind Name value :
  preserves arc (OnResourceUpdate enumSelectors enumItemIDs enumSelIDs Kind Name value arc) st
    (store_step st (ArcUpdate (UpdResource Kind Name value))).
Proof.
  intros S [Hmid Hd Hsel Hpar]. destruct st as [dm ps rs]. simpl in Hmid, Hd, Hsel, Hpar. unfold OnResourceUpdate.
  destruct (runIndex_ok None arc dm _ _ ps rs S
    (λ idx, Ret (InheritIndex.OnUpdate enumSelectors enumItemIDs enumSelIDs (ResourceUpdate Kind Name value) idx)) _ Hmid eq_refl
    (index_step_OnUpdate _ dm (ResourceUpdate Kind Name value) (am_index _ _ _ _ _ _ _ Hmid)))
    as (arc'&S'&->&Hmid'&Hd').
  { intros k e. apply known_match. intros k'. by rewrite dm_step_OpUpdate_selectors, Hsel. }
  exists arc', S'. split; [done|]. split; cbn [store_step st_dm st_policies st_rules].
  - eapply arc_mid_dm0, Hmid'. intros e. unfold oldParentIDs. cbn [dm_step]. by case_decide.
  - intros k x. by rewrite Hd', (Hd k x).
  - intros k. by rewrite dm_step_OpUpdate_selectors, Hsel.
  - done.
Qed.

(** ** Profile rules, tiers, status *)
Lemma OnProfileRulesUpdate_ok arc st Name value :
  preserves arc (Ret (OnProfileRulesUpdate DeepEqual_ProfileRules Name value arc)) st
    (store_step st (ArcUpdate (UpdProfileRules Name value))).
Proof using HDeepRules.
  intros S [Hmid Hd Hsel Hpar]. destruct st as [dm ps rs]. simpl in Hmid, Hd, Hsel, Hpar.
  set (f := λ rs : gmap string ProfileRules, match value with Some r => <[Name := r]> rs | None => delete Name rs end).
  set (arc1 := set_store (λ t, t) (λ p, p) f (λ a, a) arc).
  assert (Hone : ∃ S', arc_mid None (if Multidict.ContainsKey (profileIDToEndpointKeys arc1) Name
     then sendProfileUpdate Name value arc1 else arc1) dm dm ps (f rs) S' ∧
     policyIDToEndpointKeys (if Multidict.ContainsKey (profileIDToEndpointKeys arc1) Name
     then sendProfileUpdate Name value arc1 else arc1) = policyIDToEndpointKeys arc).
  { destruct Hmid as [Hi Hcb Hp Hr Hpol Hm Hprof Hpin Hids].
    assert (Hval : value = allProfileRules arc1 !! Name).
    { cbn. unfold f. destruct value; [by rewrite lookup_insert_eq|by rewrite lookup_delete_eq]. }
    assert (Hoth : ∀ id, id ≠ Name → allProfileRules arc1 !! id = allProfileRules arc !! id).
    { intros id Hne. cbn. unfold f. destruct value; [by rewrite lookup_insert_ne|by rewrite lookup_delete_ne]. }
    destruct (Multidict.ContainsKey (profileIDToEndpointKeys arc1) Name) eqn:Ha.
    - rewrite Hval. destruct (sendProfileUpdate_ok Name arc1 S) as (S'&Ht'&HS&Hf&Hm'&HP'); [apply Hprof|congruence|].
      set (arc2 := sendProfileUpdate _ _ arc1) in *. exists S'. split; [|apply Hf]. split.
      + by rewrite (rf_index _ _ Hf).
      + by rewrite (rf_index _ _ Hf).
      + by rewrite (rf_policies _ _ Hf).
      + rewrite (rf_rules _ _ Hf). cbn. by rewrite Hr.
      + eapply (pol_ok_prof None arc1); [by destruct Hpol; split|done|done|done].
      + eapply (matches_ok_prof arc1); [by destruct Hm; split|done|done].
      + split; [rewrite Hm'; apply Hprof|done|]. intros id. rewrite HP', Hm', Ha. unfold profileRulesOf.
        rewrite (rf_rules _ _ Hf). destruct (decide (id = Name)) as [->|Hne]; [by rewrite lookup_insert_eq, Ha|].
        rewrite lookup_insert_ne, Hoth, (ro_profiles _ _ Hprof) by done. done.
      + intros id e. rewrite Hm'. apply Hpin.
      + intros e. rewrite (rf_ids _ _ Hf). apply Hids.
    - exists S. split; [|done]. split; try done.
      + cbn. by rewrite Hr.
      + by destruct Hpol; split.
      + by destruct Hm; split.
      + destruct Hprof as [Hmd Ht Hpf]. split; [done|done|]. intros id. rewrite Hpf.
        change (profileIDToEndpointKeys arc1) with (profileIDToEndpointKeys arc) in Ha |- *. unfold profileRulesOf.
        destruct (decide (id = Name)) as [->|Hne]; [by rewrite Ha|]. by rewrite Hoth. }
  destruct Hone as (S'&Hmid'&Hm'). unfold OnProfileRulesUpdate. destruct value as [r|].
  - destruct (match allProfileRules arc !! Name with Some _ => _ | None => _ end) eqn:Hdeep.
    + exists arc, S. split; [done|]. destruct (allProfileRules arc !! Name) as [r'|] eqn:Hr'; [|done].
      apply HDeepRules in Hdeep as ->. split; cbn; try done. rewrite (am_rules _ _ _ _ _ _ _ Hmid) in Hr'.
      by rewrite insert_id.
    + eexists _, S'. split; [done|]. split; cbn [store_step st_dm st_policies st_rules]; [by apply updateStats_mid| |done|done].
      intros k x. by rewrite <-(Hd k x), <-Hm'.
  - eexists _, S'. split; [done|]. split; cbn [store_step st_dm st_policies st_rules]; [by apply updateStats_mid| |done|done].
    intros k x. by rewrite <-(Hd k x), <-Hm'.
Qed.

Lemma OnTierUpdate_ok arc st Name value :
  preserves arc (Ret (OnTierUpdate Name value arc)) st (store_step st (ArcUpdate (UpdTier Name value))).
Proof using Type.
  intros S [Hmid Hd Hsel Hpar]. destruct st as [dm ps rs]. eexists _, S. split; [done|]. split; cbn; [|done|done|done].
  unfold OnTierUpdate. apply updateStats_mid. by eapply arc_mid_fields, Hmid.
Qed.

Lemma OnStatusUpdate_ok arc st inSync :
  preserves arc (Ret (OnStatusUpdate inSync arc)) st (store_step st (ArcStatus inSync)).
Proof using Type.
  intros S [Hmid Hd Hsel Hpar]. destruct st as [dm ps rs]. eexists _, S. split; [done|]. unfold OnStatusUpdate.
  destruct (inSync && _); [|by split]. split; cbn; [|done|done|done]. by eapply arc_mid_fields, Hmid.
Qed.

(** ** Policies *)
(** While a policy is updated the calculator has the new contents (or none). *)
Lemma arc_mid_policy arc dm dm0 ps rs S key f :
  arc_mid None arc dm dm0 ps rs S → (∀ k, k ≠ key → f ps !! k = ps !! k) →
  arc_mid (Some key) (set_store (λ t, t) f (λ r, r) (λ a, a) arc) dm dm0 (f ps) rs S.
Proof using Type.
  intros [Hi Hcb Hp Hr [Hmd Ht Ha Hc] [] [] Hpin Hids] Hf.
  split; cbn; [done|done|by rewrite Hp|done| |by split|by split|done|done].
  split; [done|done|done|]. intros k Hne Hact. cbn in Hact. cbn. rewrite Hp, Hf by congruence.
  rewrite <-Hp. by apply Hc.
Qed.

(** A frame of the policy callbacks keeps the invariant. *)
Lemma arc_mid_pol_frame exc arc arc' dm dm0 ps rs S S' :
  arc_mid exc arc dm dm0 ps rs S → pol_frame arc arc' → pol_ok exc arc' S' →
  (∀ k e, md_in (policyIDToEndpointKeys arc') k (inl e) ↔ md_in (policyIDToEndpointKeys arc) k (inl e)) →
  kn_matches S' = kn_matches S → same_rest S S' → arc_mid exc arc' dm dm0 ps rs S'.
Proof using Type.
  intros [Hi Hcb Hp Hr Hpol [M1 M2 M3] Hprof Hpin Hids] [_ F2 F3 _ F5 F6 F7 _ _] Hpol' Hmd HM [HR1 HR2].
  split; [by rewrite F6|by rewrite F6|by rewrite F2|by rewrite F3|done| | |by rewrite F5|by rewrite F7].
  - split; intros; rewrite ?Hmd, ?HM, ?HR2; auto.
  - eapply prof_ok_pol; [done|done|done|apply Hpol'|done].
Qed.

Lemma dummyStarted_ok exc arc dm dm0 ps rs S key x :
  arc_mid exc arc dm dm0 ps rs S → is_Some (ps !! key) →
  ∃ arc' S', onMatchStarted (inl key) (inr x) arc = Ret arc' ∧ arc_mid exc arc' dm dm0 ps rs S' ∧
    ∀ k y, md_in (policyIDToEndpointKeys arc') k (inr y) ↔ (k = key ∧ y = x) ∨ md_in (policyIDToEndpointKeys arc) k (inr y).
Proof using Type.
  intros Hmid Hk. destruct (onMatchStarted_ok exc arc S key (inr x)) as (arc'&S'&->&Hf&Hok&Hm&HM&HR).
  - apply Hmid.
  - by rewrite (am_policies _ _ _ _ _ _ _ Hmid).
  - done.
  - exists arc', S'. split; [done|]. split.
    + eapply arc_mid_pol_frame; [done|done|done| |done|done]. intros k e. rewrite Hm, md_Put_in. naive_solver.
    + intros k y. rewrite Hm, md_Put_in. naive_solver.
Qed.

Lemma dummyStopped_ok exc arc dm dm0 ps rs S key x :
  arc_mid exc arc dm dm0 ps rs S → md_in (policyIDToEndpointKeys arc) key (inr x) →
  ∃ arc' S', onMatchStopped (inl key) (inr x) arc = Ret arc' ∧ arc_mid exc arc' dm dm0 ps rs S' ∧
    ∀ k y, md_in (policyIDToEndpointKeys arc') k (inr y) ↔ md_in (policyIDToEndpointKeys arc) k (inr y) ∧ ¬ (k = key ∧ y = x).
Proof using Type.
  intros Hmid Hk. destruct (onMatchStopped_ok exc arc S key (inr x)) as (arc'&S'&->&Hf&Hok&Hm&HM&HR).
  - apply Hmid.
  - done.
  - done.
  - exists arc', S'. split; [done|]. split.
    + eapply arc_mid_pol_frame; [done|done|done| |done|done]. intros k e. rewrite Hm, md_Discard_in. naive_solver.
    + intros k y. rewrite Hm, md_Discard_in. naive_solver.
Qed.

(** When the updated policy is not active, or once it was sent, nothing is stale. *)
Lemma arc_mid_inactive key arc dm dm0 ps rs S :
  arc_mid (Some key) arc dm dm0 ps rs S → Multidict.ContainsKey (policyIDToEndpointKeys arc) key = false →
  arc_mid None arc dm dm0 ps rs S.
Proof using Type.
  intros [Hi Hcb Hp Hr [Hmd Ht Ha Hc] Hm Hprof Hpin Hids] Hina. split; try done. split; [done|done|done|].
  intros k _ Hact. apply Hc; [congruence|done].
Qed.

Lemma arc_mid_sent key p arc dm dm0 ps rs S :
  arc_mid (Some key) arc dm dm0 ps rs S → ps !! key = Some p →
  ∃ arc' S', (if Multidict.ContainsKey (policyIDToEndpointKeys arc) key then sendPolicyUpdate key (Some p) arc else Ret arc) = Ret arc' ∧
    arc_mid None arc' dm dm0 ps rs S' ∧ policyIDToEndpointKeys arc' = policyIDToEndpointKeys arc.
Proof using Type.
  intros Hmid Hp. unfold sendPolicyUpdate. destruct (Multidict.ContainsKey (policyIDToEndpointKeys arc) key) eqn:Hact.
  2: { exists arc, S. split; [done|]. split; [by eapply arc_mid_inactive|done]. }
  destruct Hmid as [Hi Hcb Hps Hr [Hmd Ht Ha Hc] [] [] Hpin Hids].
  exists (output (OnPolicyActive key p) arc), (MkKnowledge (<[key := p]> (kn_policies S)) (kn_profiles S) (kn_matches S) (kn_computed S)).
  assert (Ht' : told (outputs (output (OnPolicyActive key p) arc)) =
    Some (MkKnowledge (<[key := p]> (kn_policies S)) (kn_profiles S) (kn_matches S) (kn_computed S))).
  { cbn [output outputs]. rewrite told_snoc, Ht. by destruct S. }
  split; [done|]. split; [|done]. split; [done|done|done|done| |by split|by split|done|done].
  split; [done|done| |].
  - intros k. cbn. destruct (decide (k = key)) as [->|Hne]; [rewrite lookup_insert_eq, Hact; naive_solver|].
    rewrite lookup_insert_ne by done. apply Ha.
  - intros k _ Hk. cbn. destruct (decide (k = key)) as [->|Hne]; [by rewrite lookup_insert_eq, Hps|].
    rewrite lookup_insert_ne by done. apply Hc; [congruence|done].
Qed.

Lemma index_UpdateSelector (idx : Index) dm id str sel :
  index_inv MakeUniqueID idx dm → Parse MakeUniqueID str = Ret (Some sel) →
  ∃ idx', UpdateSelector enumItems id (Some sel) idx = Ret idx' ∧
    step_ok MakeUniqueID idx dm idx' (dm_step dm (OpUpdateSelector id sel)).
Proof.
  intros Hi Hs. apply (index_step_ok MakeUniqueID Hhash enumItems enumSelectors enumItemIDs enumSelIDs HenumItems HenumSelectors
    HenumItemIDs HenumSelIDs idx dm (OpUpdateSelector id sel) Hi). by exists str.
Qed.

Lemma index_DeleteSelector (idx : Index) dm id :
  index_inv MakeUniqueID idx dm →
  step_ok MakeUniqueID idx dm (DeleteSelector enumItemIDs id idx) (dm_step dm (OpDeleteSelector id)).
Proof.
  intros Hi. destruct (index_step_ok MakeUniqueID Hhash enumItems enumSelectors enumItemIDs enumSelIDs HenumItems HenumSelectors
    HenumItemIDs HenumSelIDs idx dm (OpDeleteSelector id) Hi I) as (idx'&[= <-]&Hs). done.
Qed.

Lemma parse_of_Some s sel : parse_of s = Some sel → Parse MakeUniqueID s = Ret (Some sel).
Proof using Type. unfold parse_of. destruct (Parse MakeUniqueID s) as [[]| | |]; naive_solver. Qed.

Lemma updatePolicy_ok arc st S key p :
  arc_inv arc st S → is_Some (parse_of (pol_Selector p)) →
  ∃ arc' S', updatePolicy MakeUniqueID enumItems key p (policyForceProgrammed (st_policies st !! key)) arc = Ret arc' ∧
    arc_inv arc' (store_step st (ArcUpdate (UpdPolicy key (Some p)))) S'.
Proof.
  intros [Hmid Hd Hsel Hpar] [sel Hps]. destruct st as [dm ps rs]. cbn [st_dm st_policies st_rules] in *.
  pose proof (parse_of_Some _ _ Hps) as HP. unfold updatePolicy. rewrite HP.
  apply (arc_mid_policy arc dm dm ps rs S key <[key := p]>) in Hmid; [|intros k Hne; by rewrite lookup_insert_ne].
  set (arc1 := set_store _ _ _ _ arc) in *. set (oldF := policyForceProgrammed (ps !! key)) in *.
  set (newF := policyForceProgrammed (Some p)) in *.
  assert (Hd1 : dummy_ok arc1 (λ k, policyForceProgrammed (ps !! k))) by exact Hd. clearbody arc1.
  assert (∃ arc2 S2, (if negb oldF && newF then onMatchStarted (inl key) (inr forceProgrammedDummyKey) arc1 else Ret arc1) = Ret arc2 ∧
    arc_mid (Some key) arc2 dm dm (<[key := p]> ps) rs S2 ∧
    dummy_ok arc2 (λ k, if decide (k = key) then oldF || newF else policyForceProgrammed (ps !! k))) as (arc2&S2&->&Hmid2&Hd2).
  { destruct (negb oldF && newF) eqn:E.
    - destruct (dummyStarted_ok _ _ _ _ _ _ _ key forceProgrammedDummyKey Hmid) as (arc2&S2&->&Hmid2&Hd2).
      { rewrite lookup_insert_eq. eauto. }
      exists arc2, S2. split_and!; [done|done|]. intros k x. rewrite Hd2, (Hd1 k x).
      apply andb_true_iff in E as [E1%negb_true_iff E2]. case_decide; [subst k; rewrite E1, E2|]; naive_solver.
    - exists arc1, S. split_and!; [done|done|]. intros k x. rewrite (Hd1 k x). case_decide; [subst k|done].
      fold oldF. destruct oldF, newF; try done. }
  cbn [obind]. destruct (index_UpdateSelector (labelIndex arc2) dm (inl key) (pol_Selector p) sel) as (idx'&Hu&Hs); [apply Hmid2|done|].
  assert (Hsel' : ∀ k, dm_selectors (dm_step dm (OpUpdateSelector (inl key) sel)) !! inl k =
    (<[key := p]> ps) !! k ≫= λ p, parse_of (pol_Selector p)).
  { intros k. cbn. destruct (decide (k = key)) as [->|Hne]; [by rewrite !lookup_insert_eq|].
    rewrite !lookup_insert_ne by congruence. apply Hsel. }
  destruct (runIndex_ok (Some key) arc2 dm _ dm _ rs S2 (UpdateSelector enumItems (inl key) (Some sel)) idx' Hmid2 Hu Hs)
    as (arc3&S3&->&Hmid3&Hd3).
  { intros k e. by apply known_match. }
  cbn [obind].
  assert (∃ arc4 S4, (if oldF && negb newF then onMatchStopped (inl key) (inr forceProgrammedDummyKey) arc3 else Ret arc3) = Ret arc4 ∧
    arc_mid (Some key) arc4 (dm_step dm (OpUpdateSelector (inl key) sel)) dm (<[key := p]> ps) rs S4 ∧
    dummy_ok arc4 (λ k, policyForceProgrammed ((<[key := p]> ps) !! k))) as (arc4&S4&->&Hmid4&Hd4).
  { assert (Hd3' : dummy_ok arc3 (λ k, if decide (k = key) then oldF || newF else policyForceProgrammed (ps !! k))).
    { intros k x. by rewrite Hd3, (Hd2 k x). }
    destruct (oldF && negb newF) eqn:E.
    - apply andb_true_iff in E as [E1 E2%negb_true_iff].
      destruct (dummyStopped_ok _ _ _ _ _ _ _ key forceProgrammedDummyKey Hmid3) as (arc4&S4&->&Hmid4&Hd4).
      { apply Hd3'. rewrite decide_True by done. by rewrite E1. }
      exists arc4, S4. split_and!; [done|done|]. intros k x. rewrite Hd4, (Hd3' k x).
      case_decide; [subst k; rewrite lookup_insert_eq; fold newF; rewrite E1, E2|rewrite lookup_insert_ne by done]; naive_solver.
    - exists arc3, S3. split_and!; [done|done|]. intros k x. rewrite (Hd3' k x). case_decide; [subst k|by rewrite lookup_insert_ne].
      rewrite lookup_insert_eq. fold newF. destruct oldF, newF; try done. }
  cbn [obind]. destruct (arc_mid_sent key p arc4 _ _ _ _ _ Hmid4) as (arc5&S5&->&Hmid5&Hd5); [by rewrite lookup_insert_eq|].
  cbn [obind]. eexists _, S5. split; [done|]. cbn [store_step]. unfold setSelector. rewrite Hps.
  split; cbn [st_dm st_policies st_rules].
  - eapply arc_mid_dm0, arc_mid_fields, Hmid5; done.
  - intros k x. cbn [set_store policyIDToEndpointKeys]. rewrite Hd5. apply Hd4.
  - done.
  - intros k q [[<- <-]|[_ Hk]]%lookup_insert_Some; [rewrite Hps; eauto|by eapply Hpar].
Qed.

Lemma OnPolicyUpdate_ok arc st key value :
  arc_op_ok (ArcUpdate (UpdPolicy key value)) →
  preserves arc (OnPolicyUpdate MakeUniqueID DeepEqual_Policy enumItems enumItemIDs key value arc) st
    (store_step st (ArcUpdate (UpdPolicy key value))).
Proof.
  intros Hop S Hinv. unfold OnPolicyUpdate. rewrite (am_policies _ _ _ _ _ _ _ (ai_mid _ _ _ Hinv)).
  destruct value as [p|].
  - destruct (match st_policies st !! key with Some _ => _ | None => _ end) eqn:Hdeep.
    + exists arc, S. split; [done|]. destruct (st_policies st !! key) as [q|] eqn:Hq; [|done].
      apply HDeepPolicy in Hdeep as ->. destruct Hinv as [Hmid Hd Hsel Hpar]. destruct st as [dm ps rs].
      cbn [st_dm st_policies st_rules] in *. cbn [store_step]. unfold setSelector.
      pose proof (Hpar key p Hq) as [sel Hs]. rewrite Hs.
      assert (dm_step dm (OpUpdateSelector (inl key) sel) = dm) as ->.
      { destruct dm. cbn. f_equal. apply insert_id. specialize (Hsel key). cbn in Hsel. by rewrite Hsel, Hq. }
      rewrite insert_id by done. by split.
    + destruct (updatePolicy_ok arc st S key p Hinv Hop) as (arc'&S'&->&Hinv'). cbn [obind].
      exists (updateStats arc'), S'. split; [done|]. destruct Hinv' as [Hmid' Hd' Hsel' Hpar'].
      split; [by apply updateStats_mid|exact Hd'|done|done].
  - destruct Hinv as [Hmid Hd Hsel Hpar]. destruct st as [dm ps rs]. cbn [st_dm st_policies st_rules] in *.
    apply (arc_mid_policy arc dm dm ps rs S key (delete key)) in Hmid; [|intros k Hne; by rewrite lookup_delete_ne].
    set (arc1 := set_store _ _ _ _ arc) in *.
    assert (Hd1 : dummy_ok arc1 (λ k, policyForceProgrammed (ps !! k))) by exact Hd. clearbody arc1.
    assert (∃ arc2 S2, (if policyForceProgrammed (ps !! key) then onMatchStopped (inl key) (inr forceProgrammedDummyKey) arc1 else Ret arc1) = Ret arc2 ∧
      arc_mid (Some key) arc2 dm dm (delete key ps) rs S2 ∧
      dummy_ok arc2 (λ k, policyForceProgrammed (delete key ps !! k))) as (arc2&S2&->&Hmid2&Hd2).
    { destruct (policyForceProgrammed (ps !! key)) eqn:E.
      - destruct (dummyStopped_ok _ _ _ _ _ _ _ key forceProgrammedDummyKey Hmid) as (arc2&S2&->&Hmid2&Hd2); [by apply Hd1|].
        exists arc2, S2. split_and!; [done|done|]. intros k x. rewrite Hd2, (Hd1 k x).
        destruct (decide (k = key)) as [->|Hne]; [rewrite lookup_delete_eq; naive_solver|rewrite lookup_delete_ne by done; naive_solver].
      - exists arc1, S. split_and!; [done|done|]. intros k x. rewrite (Hd1 k x).
        destruct (decide (k = key)) as [->|Hne]; [rewrite lookup_delete_eq, E; done|by rewrite lookup_delete_ne]. }
    cbn [obind].
    assert (Hsel' : ∀ k, dm_selectors (dm_step dm (OpDeleteSelector (inl key))) !! inl k =
      (delete key ps) !! k ≫= λ p, parse_of (pol_Selector p)).
    { intros k. cbn. destruct (decide (k = key)) as [->|Hne]; [by rewrite !lookup_delete_eq|].
      rewrite !lookup_delete_ne by congruence. apply Hsel. }
    destruct (runIndex_ok (Some key) arc2 dm _ dm _ rs S2 (λ idx, Ret (DeleteSelector enumItemIDs (inl key) idx)) _ Hmid2 eq_refl
      (index_DeleteSelector _ dm (inl key) (am_index _ _ _ _ _ _ _ Hmid2))) as (arc3&S3&->&Hmid3&Hd3).
    { intros k e. by apply known_match. }
    cbn [obind]. eexists _, S3. split; [done|].
    assert (Hd3' : dummy_ok arc3 (λ k, policyForceProgrammed (delete key ps !! k))) by (intros k x; rewrite Hd3; apply Hd2).
    assert (Hina : Multidict.ContainsKey (policyIDToEndpointKeys arc3) key = false).
    { apply not_true_is_false. rewrite active_in by apply (am_pol _ _ _ _ _ _ _ Hmid3). intros [[e|x] Hin].
      - apply (mo_in _ _ _ (am_matches _ _ _ _ _ _ _ Hmid3)) in Hin. unfold matchingPair, matching in Hin.
        cbn in Hin. by rewrite lookup_delete_eq in Hin.
      - apply Hd3' in Hin as [_ Hin]. by rewrite lookup_delete_eq in Hin. }
    split; cbn [store_step st_dm st_policies st_rules].
    + apply updateStats_mid, (arc_mid_dm0 _ _ _ dm); [done|]. apply (arc_mid_inactive key) in Hmid3; [|done].
      eapply arc_mid_fields, Hmid3; done.
    + exact Hd3'.
    + done.
    + intros k q [_ Hk]%lookup_delete_Some. by eapply Hpar.
Qed.

(** ** Computed selectors *)
Lemma AddExtraComputedSelector_ok arc st cs l :
  is_Some (parse_of cs) →
  preserves arc (AddExtraComputedSelector MakeUniqueID enumItems cs l arc) st (store_step st (ArcAddSelector cs l)).
Proof.
  intros [sel Hps] S [Hmid Hd Hsel Hpar]. destruct st as [dm ps rs]. cbn [st_dm st_policies st_rules] in *.
  pose proof (parse_of_Some _ _ Hps) as HP. unfold AddExtraComputedSelector. rewrite HP.
  destruct (index_UpdateSelector (labelIndex arc) dm (inr (cs, l)) cs sel) as (idx'&Hu&Hs); [apply Hmid|done|].
  assert (Hsel' : ∀ k, dm_selectors (dm_step dm (OpUpdateSelector (inr (cs, l)) sel)) !! inl k =
    ps !! k ≫= λ p, parse_of (pol_Selector p)) by (intros k; cbn; by rewrite lookup_insert_ne).
  destruct (runIndex_ok None arc dm _ dm _ rs S (UpdateSelector enumItems (inr (cs, l)) (Some sel)) idx' Hmid Hu Hs)
    as (arc'&S'&->&Hmid'&Hd').
  { intros k e. by apply known_match. }
  exists arc', S'. split; [done|]. cbn [store_step]. unfold setSelector. rewrite Hps. split; cbn [st_dm st_policies st_rules].
  - by eapply arc_mid_dm0, Hmid'.
  - intros k x. by rewrite Hd', (Hd k x).
  - done.
  - done.
Qed.

Lemma RemoveExtraComputedSelector_ok arc st cs l :
  preserves arc (RemoveExtraComputedSelector enumItemIDs cs l arc) st (store_step st (ArcRemoveSelector cs l)).
Proof.
  intros S [Hmid Hd Hsel Hpar]. destruct st as [dm ps rs]. cbn [st_dm st_policies st_rules] in *.
  assert (Hsel' : ∀ k, dm_selectors (dm_step dm (OpDeleteSelector (inr (cs, l)))) !! inl k =
    ps !! k ≫= λ p, parse_of (pol_Selector p)) by (intros k; cbn; by rewrite lookup_delete_ne).
  destruct (runIndex_ok None arc dm _ dm _ rs S (λ idx, Ret (DeleteSelector enumItemIDs (inr (cs, l)) idx)) _ Hmid eq_refl
    (index_DeleteSelector _ dm (inr (cs, l)) (am_index _ _ _ _ _ _ _ Hmid))) as (arc'&S'&Hrun&Hmid'&Hd').
  { intros k e. by apply known_match. }
  exists arc', S'. split; [exact Hrun|]. split; cbn [store_step st_dm st_policies st_rules].
  - by eapply arc_mid_dm0, Hmid'.
  - intros k x. by rewrite Hd', (Hd k x).
  - done.
  - done.
Qed.

(** ** Every sequence of operations *)
Lemma arc_step_ok arc st op : arc_op_ok op → preserves arc (arc_step op arc) st (store_step st op).
Proof.
  intros Hop. destruct op as [[key value|K N value|N value|key value|N value]|b|cs l|cs l]; cbn [arc_step OnUpdate].
  - apply OnEndpointUpdate_ok.
  - apply OnResourceUpdate_ok.
  - apply OnProfileRulesUpdate_ok.
  - by apply OnPolicyUpdate_ok.
  - apply OnTierUpdate_ok.
  - apply OnStatusUpdate_ok.
  - by apply AddExtraComputedSelector_ok.
  - apply RemoveExtraComputedSelector_ok.
Qed.

Lemma arc_inv_init : arc_inv NewActiveRulesCalculator emptyStore noKnowledge.
Proof using Type.
  assert (Hno : ∀ (K V : Type) `{Countable K} `{Countable V} (k : K) (v : V), ¬ md_in ∅ k v) by done.
  split; [|intros k x; split; [by intros ?%Hno|by intros [_ ?]]|done|done].
  split; [by apply index_inv_init|done|done|done| | | | |].
  - split; [done|done| |done]. intros k. split; [by intros []|done].
  - split; intros; (split; [|done]); try (by intros ?%Hno); by intros ?%not_elem_of_empty.
  - split; [done|done|]. intros id. done.
  - intros id e. split; [by intros ?%Hno|]. by intros ?%elem_of_nil.
  - done.
Qed.

Lemma arc_run_ok ops arc st S :
  Forall arc_op_ok ops → arc_inv arc st S →
  ∃ arc' S', arc_run ops arc = Ret arc' ∧ arc_inv arc' (foldl store_step st ops) S'.
Proof.
  revert arc st S. induction ops as [|op ops IH]; intros arc st S Hops Hinv; cbn [arc_run foldl]; [by exists arc, S|].
  apply list.Forall_cons in Hops as [Hop Hops]. destruct (arc_step_ok arc st op Hop S Hinv) as (arc1&S1&->&Hinv1).
  cbn [obind]. by apply (IH _ _ S1).
Qed.

(** What an invariant says about the listeners. *)
Record informed st S : Prop := {
  in_policies k p : kn_policies S !! k = Some p ↔
    st_policies st !! k = Some p ∧ (policyForceProgrammed (Some p) = true ∨ ∃ e, matching (st_dm st) (inl k) e = true);
  in_profiles id r : kn_profiles S !! id = Some r ↔
    (∃ e, id ∈ oldParentIDs (st_dm st) e) ∧ r = default DummyDropRules (st_rules st !! id);
  in_matches k e : (k, e) ∈ kn_matches S ↔ matching (st_dm st) (inl k) e = true;
  in_computed c e : (c, e) ∈ kn_computed S ↔ matching (st_dm st) (inr c) e = true
}.

Lemma arc_inv_informed arc st S : arc_inv arc st S → told (outputs arc) = Some S ∧ informed st S.
Proof using Type.
  intros [[Hi Hcb Hp Hr [Hmd Ht Ha Hc] [M1 M2 M3] [Rmd Rt Rp] Hpin Hids] Hd Hsel Hpar]. split; [done|]. split.
  - intros k p.
    assert (Hact : Multidict.ContainsKey (policyIDToEndpointKeys arc) k = true ↔
      policyForceProgrammed (st_policies st !! k) = true ∨ ∃ e, matching (st_dm st) (inl k) e = true).
    { rewrite active_in by done. split.
      - intros [[e|x] Hin]; [right; exists e; by apply M1 in Hin|left; by apply Hd in Hin as [_ ?]].
      - intros [Hf|[e He]]; [exists (inr forceProgrammedDummyKey); by apply Hd|exists (inl e); by apply M1]. }
    split.
    + intros Hk. assert (Hk' : Multidict.ContainsKey (policyIDToEndpointKeys arc) k = true) by (apply Ha; eauto).
      rewrite Hc, Hp in Hk by done. split; [done|]. apply Hact in Hk'. by rewrite Hk in Hk'.
    + intros [Hk Hor]. rewrite Hc, Hp; [done|done|]. apply Hact. by rewrite Hk.
  - intros id r. rewrite Rp. unfold profileRulesOf. rewrite Hr. setoid_rewrite <-Hpin. rewrite <-md_key, <-md_ContainsKey by done.
    destruct (Multidict.ContainsKey (profileIDToEndpointKeys arc) id); naive_solver.
  - intros k e. by rewrite M2.
  - intros c e. by rewrite M3.
Qed.

(** C13: for any sequence of updates of endpoints, profiles, policies and tiers, in any
    order, with selectors that parse, the calculator does not panic, and its calls make
    its listeners know exactly the truth: the active policies are those that are
    force-programmed or whose selector matches a local endpoint, with their current
    contents; the active profiles are those that an endpoint names, with their rules or
    the drop rules when there are none; the matches of policies and of computed
    selectors are those of the effective labels. *)
Theorem arc_informs_exactly ops :
  Forall arc_op_ok ops →
  ∃ arc S, arc_run ops NewActiveRulesCalculator = Ret arc ∧ told (outputs arc) = Some S ∧
    informed (foldl store_step emptyStore ops) S.
Proof.
  intros Hops. destruct (arc_run_ok ops _ _ _ Hops arc_inv_init) as (arc&S&Hrun&Hinv).
  exists arc, S. split; [done|]. by apply arc_inv_informed.
Qed.
End correct.

(** ** Witness *)
Section witness.
Definition arcExamplePolicy (hints : list string) : Policy :=
  MkPolicy "ns" "default" None false false false ["Ingress"] "has( b )" hints [] [].
Definition arcExampleKey (name : string) : PolicyKey := MkPolicyKey name "ns" "NetworkPolicy".

(** A policy that matches through a profile's label, a force-programmed policy that
    matches nothing, a profile without rules, and a computed selector. *)
Definition arcExampleOps : list (ArcOp (EndpointKey := string) (Listener := nat)) :=
  [ArcUpdate (UpdPolicy (arcExampleKey "p") (Some (arcExamplePolicy [])));
   ArcUpdate (UpdEndpoint "e1" (Some (uniquelabels.Nil, ["prof"])));
   ArcUpdate (UpdResource "Profile" "prof" (Some (Some {["b" := "x"]})));
   ArcUpdate (UpdEndpoint "e2" (Some (uniquelabels.Nil, [])));
   ArcAddSelector "!has(b)" 0;
   ArcStatus true;
   ArcUpdate (UpdPolicy (arcExampleKey "q") (Some (arcExamplePolicy [PerfHintAssumeNeededOnEveryNode])));
   ArcUpdate (UpdPolicy (arcExampleKey "p") None)].

Lemma arcExampleOps_ok : Forall (arc_op_ok exampleHash) arcExampleOps.
Proof. repeat constructor; cbn; eexists; vm_compute; reflexivity. Qed.

Lemma arc_informs_exactly_witness :
  ∃ arc S, arc_run exampleHash (λ _ _, false) (λ _ _, false) map_to_list map_to_list elements elements elements
      arcExampleOps NewActiveRulesCalculator = Ret arc ∧
    told (outputs arc) = Some S ∧
    kn_policies S !! arcExampleKey "q" = Some (arcExamplePolicy [PerfHintAssumeNeededOnEveryNode]) ∧
    kn_profiles S !! "prof" = Some DummyDropRules ∧ ("!has(b)", 0, "e2") ∈ kn_computed S.
Proof.
  destruct (arc_informs_exactly exampleHash exampleHash_inj (λ _ _, false) (λ _ _, false)
    (λ _ _ Hf, match Bool.diff_false_true Hf with end) (λ _ _ Hf, match Bool.diff_false_true Hf with end)
    map_to_list map_to_list elements elements elements (λ _, reflexivity _) (λ _, reflexivity _) (λ _, reflexivity _)
    (λ _, reflexivity _) (λ _, reflexivity _) arcExampleOps arcExampleOps_ok) as (arc & S & H1 & H2 & H3).
  exists arc, S. split; [exact H1|]. split; [exact H2|]. split; [|split].
  - apply (in_policies _ _ H3). split; [vm_compute; reflexivity|]. left. vm_compute. reflexivity.
  - apply (in_profiles _ _ H3). split; [|vm_compute; reflexivity]. exists "e1". apply list_elem_of_In. vm_compute. left. reflexivity.
  - apply (in_computed _ _ H3). vm_compute. reflexivity.
Defined.
End witness.
