(* ===== verification/CalcGraph.v ===== *)
(** * From datastore updates to the policies of endpoints: [felix/calc/calc_graph.go]

    The calculation graph fans updates out in the order in which receivers registered: the
    active rules calculator first, whose match events reach the policy resolver at once,
    then the resolver itself.  Updates of endpoints pass a filter that drops those of other
    hosts.  [graph_step] is one update, up to the events that the resolver receives;
    batches of updates end in a flush of the resolver. *)
From S2P Require Import Prelude.
From S2P Require Import ModelRule.
From S2P Require Import SelectorAST.
From S2P Require Import SelectorParser.
From S2P Require Import UniqueLabels.
From S2P Require Import InheritIndex.
From S2P Require Import InheritIndexSpec.
From S2P Require Import InheritIndexCorrect.
From S2P Require Import PolicySorter.
From S2P Require Import PolicySorterSpec.
From S2P Require Import PolicyResolver.
From S2P Require Import PolicyResolverSpec.
From S2P Require Import ActiveRules.
From S2P Require Import ActiveRulesSpec.
From S2P Require Import ActiveRulesCorrect.
From stdpp Require Import base list gmap strings.
From stdpp Require Import options.

(** ** The calculator only adds to its outputs *)
Section outputs.
Context `{Countable EndpointKey} `{Countable Listener}.
Abbreviation ARC := (ActiveRulesCalculator (EndpointKey := EndpointKey) (Listener := Listener)).
Implicit Types (arc : ARC).

Definition extends arc (m : outcome Empty_set ARC) : Prop :=
  match m with Ret arc' => ∃ new, outputs arc' = outputs arc ++ new | _ => True end.

Lemma extends_same arc arc' : outputs arc' = outputs arc → extends arc (Ret arc').
Proof. intros Ho. exists []. by rewrite app_nil_r. Qed.

Lemma extends_output arc arc' o : extends arc (Ret arc') → extends arc (Ret (output o arc')).
Proof. intros [new Hn]. exists (new ++ [o]). cbn. by rewrite Hn, (assoc_L (++)). Qed.

Lemma extends_trans arc arc1 m : extends arc (Ret arc1) → extends arc1 m → extends arc m.
Proof.
  intros [n1 H1]. destruct m as [arc2| | |]; try done. intros [n2 H2]. exists (n1 ++ n2). by rewrite H2, H1, (assoc_L (++)).
Qed.

Lemma extends_bind arc m (f : ARC → outcome Empty_set ARC) :
  extends arc m → (∀ arc1, extends arc (Ret arc1) → extends arc (f arc1)) → extends arc (obind m f).
Proof. intros Hm Hf. destruct m as [arc1| | |]; try done. by apply Hf. Qed.
End outputs.
#[export] Hint Resolve extends_output extends_same : calico.

Ltac extends_tac :=
  repeat first
    [ done | progress intros | apply extends_output | apply extends_bind | case_match
    | eapply extends_trans; [eassumption|] | apply extends_same; done ].

Section outputs_ops.
Context `{Countable EndpointKey} `{Countable Listener}.
Abbreviation ARC := (ActiveRulesCalculator (EndpointKey := EndpointKey) (Listener := Listener)).
Implicit Types (arc : ARC).

Lemma sendProfileUpdate_extends id r arc : extends arc (Ret (sendProfileUpdate id r arc)).
Proof. unfold sendProfileUpdate. extends_tac. Qed.

Lemma sendPolicyUpdate_extends k p arc : extends arc (sendPolicyUpdate k p arc).
Proof. unfold sendPolicyUpdate. extends_tac. Qed.

Lemma onMatchStarted_extends sel l arc : extends arc (onMatchStarted sel l arc).
Proof.
  unfold onMatchStarted. destruct sel; [|extends_tac]. apply extends_bind; [|extends_tac].
  case_match; [by apply extends_same|]. case_match; [|done].
  eapply (extends_trans _ (set_policyEndpoints _ arc)); [by apply extends_same|]. apply sendPolicyUpdate_extends.
Qed.

Lemma onMatchStopped_extends sel l arc : extends arc (onMatchStopped sel l arc).
Proof.
  unfold onMatchStopped. destruct sel; [|extends_tac]. apply extends_bind; [|extends_tac].
  case_match; [by apply extends_same|].
  eapply (extends_trans _ (set_policyEndpoints _ arc)); [by apply extends_same|]. apply sendPolicyUpdate_extends.
Qed.

Lemma runCallbacks_extends cbs arc : extends arc (runCallbacks cbs arc).
Proof.
  revert arc. induction cbs as [|cb cbs IH]; intros arc; cbn [runCallbacks]; [by apply extends_same|].
  apply extends_bind.
  - destruct cb; [apply onMatchStarted_extends|apply onMatchStopped_extends].
  - intros arc1 Hx1. eapply extends_trans; [exact Hx1|apply IH].
Qed.

Lemma runIndex_extends f arc : extends arc (runIndex f arc).
Proof.
  unfold runIndex. destruct (f (labelIndex arc)) as [idx| | |]; try done. cbn [obind].
  eapply extends_trans, runCallbacks_extends. by apply extends_same.
Qed.

Lemma foldl_extends {A} (f : ARC → A → ARC) l arc :
  (∀ arc a, extends arc (Ret (f arc a))) → extends arc (Ret (foldl f arc l)).
Proof.
  intros Hf. revert arc. induction l as [|a l IH]; intros arc; cbn [foldl]; [by apply extends_same|].
  eapply extends_trans; [apply Hf|apply IH].
Qed.

Lemma updateEndpointProfileIDs_extends enumIDs key ids arc :
  extends arc (Ret (updateEndpointProfileIDs enumIDs key ids arc)).
Proof.
  unfold updateEndpointProfileIDs. destruct (EndpointKeyToProfileIDMap_Update _ _ _) as [m [removed added]].
  eapply extends_trans; [eapply extends_trans|].
  - by apply (extends_same _ (set_endpointProfiles (λ _, m) arc)).
  - apply (foldl_extends (addProfile key)). intros arc1 id. unfold addProfile. case_match; [by apply extends_same|].
    eapply extends_trans, sendProfileUpdate_extends. by apply extends_same.
  - apply (foldl_extends (removeProfile key)). intros arc1 id. unfold removeProfile. case_match; [by apply extends_same|].
    eapply extends_trans, sendProfileUpdate_extends. by apply extends_same.
Qed.

Lemma updatePolicy_extends MakeUniqueID enumItems key p b arc :
  extends arc (updatePolicy MakeUniqueID enumItems key p b arc).
Proof.
  unfold updatePolicy. apply extends_bind.
  { case_match; [|by apply extends_same]. eapply extends_trans, onMatchStarted_extends. by apply extends_same. }
  intros arc2 Hx2. destruct (Parse MakeUniqueID (pol_Selector p)) as [sel| | |]; try done.
  apply extends_bind; [eapply extends_trans; [exact Hx2|apply runIndex_extends]|]. intros arc3 Hx3.
  apply extends_bind; [case_match; [eapply extends_trans; [exact Hx3|apply onMatchStopped_extends]|done]|]. intros arc4 Hx4.
  apply extends_bind; [case_match; [eapply extends_trans; [exact Hx4|apply sendPolicyUpdate_extends]|done]|]. by intros arc5 Hx5.
Qed.

Lemma arc_step_extends MakeUniqueID dp dr eItems eSels eIDs eSelIDs eStr (op : ArcOp (EndpointKey := EndpointKey) (Listener := Listener)) arc :
  extends arc (arc_step MakeUniqueID dp dr eItems eSels eIDs eSelIDs eStr op arc).
Proof.
  destruct op as [[key value|K N value|N value|key value|N value]|b|cs l|cs l]; cbn [arc_step OnUpdate].
  - eapply extends_trans, runIndex_extends. apply updateEndpointProfileIDs_extends.
  - apply runIndex_extends.
  - unfold OnProfileRulesUpdate, updateStats. extends_tac; (eapply extends_trans, sendProfileUpdate_extends); by apply extends_same.
  - unfold OnPolicyUpdate. destruct value as [p|].
    + case_match; [by apply extends_same|]. apply extends_bind; [apply updatePolicy_extends|].
      intros arc1 Hx1. by apply extends_output.
    + apply extends_bind.
      { case_match; [|by apply extends_same]. eapply extends_trans, onMatchStopped_extends. by apply extends_same. }
      intros arc2 Hx2. apply extends_bind; [eapply extends_trans; [exact Hx2|apply runIndex_extends]|].
      intros arc3 Hx3. by apply extends_output.
  - unfold OnTierUpdate. apply extends_output. by apply extends_same.
  - apply extends_same. unfold OnStatusUpdate. by case_match.
  - unfold AddExtraComputedSelector. case_match; try done. apply runIndex_extends.
  - apply runIndex_extends.
Qed.
End outputs_ops.

(** ** The graph *)
Section graph.
Context {PT TT : Type} `{OrderedSetLaws PolKV PT PolKVLess} `{OrderedSetLaws tierInfoKey TT TierLess}.
Context (heap : positive → float64).
Context `{Countable EndpointKey} {Endpoint : Type} (isWorkload : EndpointKey → bool).
Context `{Countable ComputedDataKind} {ComputedData PeerData : Type} (PeerData_Empty : PeerData → bool).
Context (enumerate : gmap string (TierInfo (PT := PT)) → list (string * TierInfo (PT := PT))).
Context (enumerateKeys : gset PolicyKey → list PolicyKey) (enumerateEndpoints : gset EndpointKey → list EndpointKey).
Context (enumerateData : gmap ComputedDataKind ComputedData → list (ComputedDataKind * ComputedData)).
Context (Henum : ∀ ts, enumerate ts ≡ₚ map_to_list ts) (HenumKeys : ∀ s, enumerateKeys s ≡ₚ elements s).
Context (HenumEndpoints : ∀ s, enumerateEndpoints s ≡ₚ elements s) (HenumData : ∀ m, enumerateData m ≡ₚ map_to_list m).
Context `{Countable Listener}.
Abbreviation selID := (PolicyKey + string * Listener)%type.
Context (MakeUniqueID : string → string → string).
Context (Hhash : ∀ c1 c2, MakeUniqueID "s" c1 = MakeUniqueID "s" c2 → c1 = c2).
Context (DeepEqual_Policy : Policy → Policy → bool) (DeepEqual_ProfileRules : ProfileRules → ProfileRules → bool).
Context (HDeepPolicy : ∀ p q, DeepEqual_Policy p q = true → p = q).
Context (HDeepRules : ∀ p q, DeepEqual_ProfileRules p q = true → p = q).
Context (enumItems : gmap EndpointKey itemData → list (EndpointKey * itemData)).
Context (enumSelectors : gmap selID Selector → list (selID * Selector)).
Context (enumItemIDs : gset EndpointKey → list EndpointKey).
Context (enumSelIDs : gset selID → list selID) (enumIDs : gset string → list string).
Context (HenumItems : ∀ m, enumItems m ≡ₚ map_to_list m) (HenumSelectors : ∀ m, enumSelectors m ≡ₚ map_to_list m).
Context (HenumItemIDs : ∀ s, enumItemIDs s ≡ₚ elements s) (HenumSelIDs : ∀ s, enumSelIDs s ≡ₚ elements s).
Context (HenumIDs : ∀ s, enumIDs s ≡ₚ elements s).
(** Endpoints, and those of this host. *)
Context (epLabels : Endpoint → uniquelabels.Map) (epProfileIDs : Endpoint → list string) (isLocal : EndpointKey → bool).
Abbreviation ARC := (ActiveRulesCalculator (EndpointKey := EndpointKey) (Listener := Listener)).
Abbreviation Resolver := (PolicyResolver (PT := PT) (TT := TT) (EndpointKey := EndpointKey) (Endpoint := Endpoint)
  (ComputedDataKind := ComputedDataKind) (ComputedData := ComputedData) (PeerData := PeerData)).
Abbreviation Event := (ResolverEvent (EndpointKey := EndpointKey) (Endpoint := Endpoint)
  (ComputedDataKind := ComputedDataKind) (ComputedData := ComputedData) (PeerData := PeerData)).
Abbreviation View := (view (EndpointKey := EndpointKey) (Endpoint := Endpoint)
  (ComputedDataKind := ComputedDataKind) (ComputedData := ComputedData) (PeerData := PeerData)).
Abbreviation Store := (store (EndpointKey := EndpointKey) (Listener := Listener)).
Abbreviation Knowledge := (knowledge (EndpointKey := EndpointKey) (Listener := Listener)).
Implicit Types (arc : ARC) (v : View) (st : Store) (S : Knowledge).

Inductive GraphUpdate :=
  | GEndpoint (key : EndpointKey) (value : option Endpoint)
  | GResource (Kind Name : string) (value : option (option (gmap string string)))
  | GProfileRules (Name : string) (value : option ProfileRules)
  | GPolicy (key : PolicyKey) (value : option Policy)
  | GTier (Name : string) (value : option Tier)
  | GStatus (inSync : bool)
  | GComputedData (key : EndpointKey) (kind : ComputedDataKind) (data : option ComputedData)
  | GPeerData (key : EndpointKey) (data : option PeerData).

(** [endpointHostnameFilter.OnUpdate]. *)
Definition filterOut (u : GraphUpdate) : bool :=
  match u with GEndpoint key _ => negb (isLocal key) | _ => false end.

(** What the active rules calculator and the resolver are registered for. *)
Definition arcOp (u : GraphUpdate) : option (ArcOp (EndpointKey := EndpointKey) (Listener := Listener)) :=
  match u with
  | GEndpoint key value => Some (ArcUpdate (UpdEndpoint key ((λ ep, (epLabels ep, epProfileIDs ep)) <$> value)))
  | GResource Kind Name value => Some (ArcUpdate (UpdResource Kind Name value))
  | GProfileRules Name value => Some (ArcUpdate (UpdProfileRules Name value))
  | GPolicy key value => Some (ArcUpdate (UpdPolicy key value))
  | GTier Name value => Some (ArcUpdate (UpdTier Name value))
  | GStatus inSync => Some (ArcStatus inSync)
  | GComputedData _ _ _ | GPeerData _ _ => None
  end.

Definition ownEvent (u : GraphUpdate) : list Event :=
  match u with
  | GEndpoint key value => [EndpointEvent key value]
  | GPolicy key value => [PolicyEvent key value]
  | GTier Name value => [TierEvent Name value]
  | GStatus inSync => [StatusEvent inSync]
  | GComputedData key kind data => [ComputedDataEvent key kind data]
  | GPeerData key data => [PeerDataEvent key data]
  | GResource _ _ _ | GProfileRules _ _ => []
  end.

(** The calls to a [PolicyMatchListener]. *)
Definition matchEvent (o : Output (EndpointKey := EndpointKey) (Listener := Listener)) : option Event :=
  match o with
  | OnPolicyMatch k e => Some (MatchEvent k e)
  | OnPolicyMatchStopped k e => Some (MatchStoppedEvent k e)
  | _ => None
  end.

Abbreviation astep := (arc_step MakeUniqueID DeepEqual_Policy DeepEqual_ProfileRules enumItems enumSelectors enumItemIDs enumSelIDs enumIDs).

Definition graph_step (u : GraphUpdate) arc : outcome Empty_set (ARC * list Event) :=
  if filterOut u then Ret (arc, [])
  else
    let! arc' := (match arcOp u with Some op => astep op arc | None => Ret arc end) in
    Ret (arc', omap matchEvent (drop (length (outputs arc)) (outputs arc')) ++ ownEvent u).

Fixpoint graph_batch (us : list GraphUpdate) arc : outcome Empty_set (ARC * list Event) :=
  match us with
  | [] => Ret (arc, [])
  | u :: us' =>
      let! (arc1, evs1) := graph_step u arc in
      let! (arc2, evs2) := graph_batch us' arc1 in
      Ret (arc2, evs1 ++ evs2)
  end.

Fixpoint graph_batches (batches : list (list GraphUpdate)) arc : outcome Empty_set (ARC * list (list Event)) :=
  match batches with
  | [] => Ret (arc, [])
  | us :: batches' =>
      let! (arc1, evs) := graph_batch us arc in
      let! (arc2, rest) := graph_batches batches' arc1 in
      Ret (arc2, evs :: rest)
  end.

Definition graph_store_step st (u : GraphUpdate) : Store :=
  if filterOut u then st else match arcOp u with Some op => store_step MakeUniqueID st op | None => st end.

Definition update_ok (u : GraphUpdate) : Prop :=
  match u with GPolicy _ (Some p) => is_Some (parse_of MakeUniqueID (pol_Selector p)) | _ => True end.

Abbreviation vstep := (view_step isWorkload).

(** *** What the updates leave in the datastore; of endpoints, those of this host *)
Record GraphData := MkGraphData {
  gd_endpoints : gmap EndpointKey Endpoint;
  gd_profiles : gmap string (gmap string string);
  gd_policies : gmap PolicyKey Policy;
  gd_tiers : gmap string Tier;
  gd_computed : gmap EndpointKey (gmap ComputedDataKind ComputedData);
  gd_peers : gmap EndpointKey PeerData;
  gd_sync : bool
}.
Implicit Types (d : GraphData).

Definition emptyData : GraphData := MkGraphData ∅ ∅ ∅ ∅ ∅ ∅ false.

(** Set a key, or delete it. *)
Definition put {K A} `{Countable K} (k : K) (value : option A) (m : gmap K A) : gmap K A := match value with Some x => <[k := x]> m | None => delete k m end.

(** A workload endpoint that is deleted takes its computed data along. *)
Definition data_step d (u : GraphUpdate) : GraphData :=
  let 'MkGraphData es qs ps ts cs ds sync := d in
  match u with
  | GEndpoint e value => if isLocal e then MkGraphData (put e value es) qs ps ts (if isWorkload e && bool_decide (value = None) then delete e cs else cs) ds sync else d
  | GResource Kind Name value => if decide (Kind = "Profile") then MkGraphData es (put Name (default ∅ <$> value) qs) ps ts cs ds sync else d
  | GProfileRules _ _ => d
  | GPolicy k value => MkGraphData es qs (put k value ps) ts cs ds sync
  | GTier n value => MkGraphData es qs ps (put n value ts) cs ds sync
  | GStatus b => MkGraphData es qs ps ts cs ds (sync || b)
  | GComputedData e kind value => MkGraphData es qs ps ts (<[e := put kind value (default ∅ (cs !! e))]> cs) ds sync
  | GPeerData e value => MkGraphData es qs ps ts cs (put e value ds) sync
  end.

(** A label of an endpoint: its own, or that of the first of its profiles that has it. *)
Definition labelOf d (ep : Endpoint) (n : string) : option string :=
  match uniquelabels.entries (epLabels ep) !! n with
  | Some v => Some v
  | None => head (omap (λ p, gd_profiles d !! p ≫= lookup n) (epProfileIDs ep))
  end.

#[local] Instance graph_Labels : Labels (GraphData * Endpoint) := λ '(d, ep), labelOf d ep.

(** The policies of an endpoint, by evaluating every selector on its labels. *)
Definition policyApplies d (e : EndpointKey) (k : PolicyKey) (p : Policy) : Prop :=
  gd_policies d !! k = Some p ∧ ∃ sel ep, Parse MakeUniqueID (pol_Selector p) = Ret (Some sel) ∧ gd_endpoints d !! e = Some ep ∧ Evaluate (root sel) (d, ep) = true.

(** What endpoints must be told, from the datastore alone. *)
Record view_of d v : Prop := {
  vo_endpoints : v_endpoints v = gd_endpoints d;
  vo_tiers : v_tiers v = (λ t, (deref <$> tier_Order t, tier_DefaultAction t)) <$> gd_tiers d;
  vo_computed e : computed_of v e = default ∅ (gd_computed d !! e);
  vo_peers : v_peers v = gd_peers d;
  vo_sync : v_sync v = gd_sync d;
  vo_policies e k m : policy_for v e k m ↔ ∃ p, policyApplies d e k p ∧ m = metadata_of p
}.

(** The view of the resolver agrees with the store. *)
Record graph_rel arc v st S : Prop := {
  gr_inv : arc_inv MakeUniqueID arc st S;
  gr_match : v_match v = kn_matches S;
  gr_pols : v_pols v = metadata_of <$> st_policies st
}.

(** The events and the store of the calculator agree with the datastore. *)
Record data_rel d v st : Prop := {
  dr_endpoints : v_endpoints v = gd_endpoints d;
  dr_tiers : v_tiers v = (λ t, (deref <$> tier_Order t, tier_DefaultAction t)) <$> gd_tiers d;
  dr_computed e : computed_of v e = default ∅ (gd_computed d !! e);
  dr_peers : v_peers v = gd_peers d;
  dr_sync : v_sync v = gd_sync d;
  dr_policies : st_policies st = gd_policies d;
  dr_items : dm_items (st_dm st) = (λ ep, (epLabels ep, epProfileIDs ep)) <$> gd_endpoints d;
  dr_parents p : parentLabels (st_dm st) p = default ∅ (gd_profiles d !! p)
}.

Definition set_match (ms : gset (PolicyKey * EndpointKey)) v : View :=
  MkView ms (v_pols v) (v_tiers v) (v_endpoints v) (v_computed v) (v_peers v) (v_sync v).

Lemma listen_view os S S' v :
  foldl listen (Some S) os = Some S' → v_match v = kn_matches S →
  foldl vstep v (omap matchEvent os) = set_match (kn_matches S') v.
Proof using Type.
  revert S v. induction os as [|o os IH]; intros S v.
  - intros [= <-] Hm. destruct v. cbn in *. by rewrite Hm.
  - cbn [foldl]. intros Hl Hm. destruct (listen (Some S) o) as [S1|] eqn:Ho.
    2: { exfalso. clear -Hl. induction os; cbn in *; [done|auto]. }
    change (omap matchEvent (o :: os)) with
      (match matchEvent o with Some ev => ev :: omap matchEvent os | None => omap matchEvent os end).
    destruct S as [ps rs ms cs], v as [ms' ps' ts es cs' ds sy]. cbn in Hm. subst ms'.
    destruct o; cbn in Ho |- *; repeat case_match; simplify_eq; by rewrite (IH _ _ Hl).
Qed.

#[local] Set Default Proof Using "All".

Lemma arc_told arc st S : arc_inv MakeUniqueID arc st S → told (outputs arc) = Some S.
Proof using Type. intros Hi. apply (am_pol _ _ _ _ _ _ _ _ (ai_mid _ _ _ _ Hi)). Qed.

(** The matches that the calculator reports in one operation. *)
Lemma arc_events_ok op arc v st S :
  arc_op_ok MakeUniqueID op → arc_inv MakeUniqueID arc st S → v_match v = kn_matches S →
  ∃ arc' S', astep op arc = Ret arc' ∧ arc_inv MakeUniqueID arc' (store_step MakeUniqueID st op) S' ∧
    foldl vstep v (omap matchEvent (drop (length (outputs arc)) (outputs arc'))) = set_match (kn_matches S') v.
Proof.
  intros Hop Hi Hm.
  destruct (arc_step_ok MakeUniqueID Hhash DeepEqual_Policy DeepEqual_ProfileRules HDeepPolicy HDeepRules enumItems enumSelectors
    enumItemIDs enumSelIDs enumIDs HenumItems HenumSelectors HenumItemIDs HenumSelIDs HenumIDs arc st op Hop S Hi)
    as (arc'&S'&Hrun&Hi').
  pose proof (arc_step_extends MakeUniqueID DeepEqual_Policy DeepEqual_ProfileRules enumItems enumSelectors
    enumItemIDs enumSelIDs enumIDs op arc) as Hext. rewrite Hrun in Hext. destruct Hext as [new Hnew].
  exists arc', S'. split_and!; [done|done|]. rewrite Hnew, drop_app_length. apply (listen_view _ S); [|done].
  apply arc_told in Hi, Hi'. rewrite Hnew in Hi'. unfold told in Hi, Hi'. by rewrite foldl_app, Hi in Hi'.
Qed.

Lemma ownEvent_match u v : v_match (foldl vstep v (ownEvent u)) = v_match v.
Proof using Type. destruct v, u as [? []| | |? []|? []| |? ? []|? []]; done. Qed.

(** What one update does to the view and the store, but for the matches. *)
Lemma data_rel_match d v st ms : data_rel d v st → data_rel d (set_match ms v) st.
Proof using Type. intros []. destruct v. by split. Qed.

Lemma data_rel_step d v st u : filterOut u = false → data_rel d v st →
  data_rel (data_step d u) (foldl vstep v (ownEvent u)) (match arcOp u with Some op => store_step MakeUniqueID st op | None => st end).
Proof using Type.
  intros Hf [He Ht Hc Hp Hs Hpol Hi Hpar]. destruct d as [es qs ps ts cs ds sy], v as [ms ps' ts' es' cs' ds' sy'], st as [[di dp dsel] ps2 rs]. cbn in *.
  destruct u as [e value|K N value|N value|k value|N value|b|e kind value|e value]; cbn in *.
  - apply negb_false_iff in Hf. rewrite Hf. destruct value as [ep|]; cbn.
    + rewrite andb_false_r. split; cbn; try done; [by rewrite He|by rewrite Hi, fmap_insert].
    + rewrite andb_true_r. split; cbn; try done; [by rewrite He|intros e'; destruct (isWorkload e)|by rewrite Hi, fmap_delete]; [|apply Hc].
      destruct (decide (e = e')) as [->|Hne]; [by unfold computed_of; cbn; rewrite !lookup_delete_eq|]. unfold computed_of in *. cbn in *. by rewrite !lookup_delete_ne.
  - destruct (decide (K = "Profile")) as [->|HK]; [rewrite decide_False by tauto|rewrite decide_True by done; by split]. split; cbn; try done.
    intros p. specialize (Hpar p). unfold parentLabels in *. cbn in *. destruct value as [l|]; cbn.
    + destruct (decide (N = p)) as [->|Hne]; [by rewrite !lookup_insert_eq|by rewrite !lookup_insert_ne].
    + destruct (decide (N = p)) as [->|Hne]; [by rewrite !lookup_delete_eq|by rewrite !lookup_delete_ne].
  - destruct value; by split.
  - destruct value as [p|]; cbn; [unfold setSelector; destruct (parse_of _ _)|]; split; cbn; try done; by rewrite Hpol.
  - destruct value as [t|]; split; cbn; try done; by rewrite Ht, ?fmap_insert, ?fmap_delete.
  - split; cbn; try done. by rewrite Hs.
  - specialize (Hc e) as Hce. destruct value as [x|]; split; cbn; try done; intros e'; specialize (Hc e'); unfold computed_of in *; cbn in *;
      (destruct (decide (e = e')) as [->|Hne]; [by rewrite !lookup_insert_eq; cbn; rewrite Hce|by rewrite !lookup_insert_ne]).
  - destruct value as [x|]; split; cbn; try done; by rewrite Hp.
Qed.

Lemma filtered_step d v st u : filterOut u = true → data_rel d v st → data_rel (data_step d u) v st.
Proof using Type. destruct u; cbn; try done. intros Hl%negb_true_iff Hd. destruct d. cbn. by rewrite Hl. Qed.

Lemma graph_step_ok u arc v st S d :
  update_ok u → graph_rel arc v st S → data_rel d v st →
  ∃ arc' evs S', graph_step u arc = Ret (arc', evs) ∧ graph_rel arc' (foldl vstep v evs) (graph_store_step st u) S' ∧
    data_rel (data_step d u) (foldl vstep v evs) (graph_store_step st u).
Proof.
  intros Hok [Hi Hm Hp] Hd. unfold graph_step, graph_store_step. destruct (filterOut u) eqn:Hf; [exists arc, [], S; split_and!; [done|done|by apply filtered_step]|].
  destruct (arcOp u) as [op|] eqn:Hop.
  - destruct (arc_events_ok op arc v st S) as (arc'&S'&->&Hi'&Hv); [by destruct u as [| | |? []| | | |]; simplify_eq/=|done|done|].
    cbn [obind]. eexists _, _, S'. split; [done|]. rewrite foldl_app, Hv. split.
    + split; [done|by rewrite ownEvent_match|].
      destruct v, st as [dm ps rs], u as [? []| |? []|? []|? []| |? ? []|? []]; simplify_eq/=; try done;
        by rewrite ?fmap_insert, ?fmap_delete.
    + pose proof (data_rel_step d _ st u Hf (data_rel_match d v st (kn_matches S') Hd)) as Hs. by rewrite Hop in Hs.
  - cbn [obind]. eexists _, _, S. split; [done|]. rewrite drop_all. cbn [omap list_omap app]. split.
    + destruct v, u as [| | | | | |? ? []|? []]; simplify_eq/=; by split.
    + pose proof (data_rel_step d v st u Hf Hd) as Hs. by rewrite Hop in Hs.
Qed.

Lemma graph_batch_ok us arc v st S d :
  Forall update_ok us → graph_rel arc v st S → data_rel d v st →
  ∃ arc' evs S', graph_batch us arc = Ret (arc', evs) ∧ graph_rel arc' (foldl vstep v evs) (foldl graph_store_step st us) S' ∧
    data_rel (foldl data_step d us) (foldl vstep v evs) (foldl graph_store_step st us).
Proof.
  revert arc v st S d. induction us as [|u us IH]; intros arc v st S d Hus Hg Hd; cbn [graph_batch foldl]; [by exists arc, [], S|].
  apply list.Forall_cons in Hus as [Hu Hus]. destruct (graph_step_ok u arc v st S d Hu Hg Hd) as (arc1&evs1&S1&->&Hg1&Hd1).
  cbn [obind]. destruct (IH _ _ _ _ _ Hus Hg1 Hd1) as (arc2&evs2&S2&->&Hg2&Hd2). cbn [obind].
  exists arc2, (evs1 ++ evs2), S2. by rewrite foldl_app.
Qed.

Lemma graph_batches_ok batches arc v st S d :
  Forall (Forall update_ok) batches → graph_rel arc v st S → data_rel d v st →
  ∃ arc' evss S', graph_batches batches arc = Ret (arc', evss) ∧
    graph_rel arc' (foldl vstep v (concat evss)) (foldl graph_store_step st (concat batches)) S' ∧
    data_rel (foldl data_step d (concat batches)) (foldl vstep v (concat evss)) (foldl graph_store_step st (concat batches)).
Proof.
  revert arc v st S d. induction batches as [|us batches IH]; intros arc v st S d Hb Hg Hd; cbn [graph_batches]; [by exists arc, [], S|].
  apply list.Forall_cons in Hb as [Hus Hb]. destruct (graph_batch_ok us arc v st S d Hus Hg Hd) as (arc1&evs&S1&->&Hg1&Hd1).
  cbn [obind]. destruct (IH _ _ _ _ _ Hb Hg1 Hd1) as (arc2&rest&S2&->&Hg2&Hd2). cbn [obind].
  exists arc2, (evs :: rest), S2. split; [done|]. cbn [concat]. by rewrite !foldl_app.
Qed.

(** The label index and [labelOf] look for the first profile in the same way. *)
Lemma labelOf_effective d v st ep n : data_rel d v st → effectiveLabel (st_dm st) (epLabels ep, epProfileIDs ep) n = labelOf d ep n.
Proof using Type.
  intros Hd. unfold effectiveLabel, labelOf. cbn [fst snd]. destruct (uniquelabels.entries (epLabels ep) !! n); [done|].
  induction (epProfileIDs ep) as [|p ps IH]; [done|]. cbn [list_find omap list_omap].
  assert (Hp : parentLabels (st_dm st) p !! n = gd_profiles d !! p ≫= lookup n).
  { rewrite (dr_parents _ _ _ Hd). destruct (gd_profiles d !! p); [done|]. apply lookup_empty. }
  destruct (gd_profiles d !! p ≫= lookup n) as [x|] eqn:Hx.
  - rewrite decide_True by (by eexists). cbn. by rewrite Hp.
  - rewrite decide_False by (rewrite Hp; by intros []). rewrite <- IH. by destruct (list_find _ ps) as [[]|].
Qed.

Lemma graph_view_of arc v st S d : graph_rel arc v st S → data_rel d v st → view_of d v.
Proof using Type.
  intros [Hi Hm Hp] Hd. split; try apply Hd. intros e k m. unfold policy_for, policyApplies. rewrite Hm, Hp, lookup_fmap_Some.
  destruct (arc_inv_informed _ _ _ _ Hi) as [_ Hin]. rewrite (in_matches _ _ Hin). unfold matching.
  rewrite (ai_selectors _ _ _ _ Hi), (dr_items _ _ _ Hd), (dr_policies _ _ _ Hd), lookup_fmap.
  assert (Hev : ∀ sel ep, Evaluate (root sel) (st_dm st, (epLabels ep, epProfileIDs ep)) = Evaluate (root sel) (d, ep)).
  { intros sel ep. apply Evaluate_ext. intros n. by apply (labelOf_effective d v). }
  split.
  - intros [Hmt (p&<-&Hk)]. rewrite Hk in Hmt. cbn in Hmt. destruct (parse_of _ _) as [sel|] eqn:Hs; [|done].
    destruct (gd_endpoints d !! e) as [ep|] eqn:He; [|done]. cbn in Hmt. rewrite Hev in Hmt. apply parse_of_Some in Hs. exists p. split; [|done]. split; [done|]. by exists sel, ep.
  - intros (p&(Hk&sel&ep&Hs&He&Hx)&->). rewrite Hk. cbn. unfold parse_of. rewrite Hs, He. cbn. rewrite Hev. by eauto.
Qed.

(** C3: the path from the datastore to the endpoints is right.  Batches of updates of
    endpoints, profiles, policies, tiers and status pass the hostname filter, the active
    rules calculator with its label index, and the policy resolver, which is flushed after
    every batch (and in which no policy loses its last match while it waits for a flush).
    Then nothing panics, and after the in-sync status the last update sent for every endpoint
    is right for what the updates have left in the datastore: it carries the endpoint, if it is one
    of this host, the tiers with their current order and default action, sorted, and, in order and
    with their current metadata, exactly the policies whose selector evaluates to true on the
    labels of the endpoint and its profiles.  Nothing is sent before the status. *)
Theorem graph_converges (batches : list (list GraphUpdate)) :
  Forall (Forall update_ok) batches →
  ∃ arc evss, graph_batches batches NewActiveRulesCalculator = Ret (arc, evss) ∧
    (batches_ok heap isWorkload PeerData_Empty enumerate enumerateKeys enumerateEndpoints enumerateData evss
       (NewPolicyResolver (PT := PT) (TT := TT), []) →
     ∃ pr log, run_batches isWorkload PeerData_Empty enumerate enumerateKeys enumerateEndpoints enumerateData evss
                 (NewPolicyResolver, []) = Ret (pr, log) ∧
       let d := foldl data_step emptyData (concat batches) in
       if gd_sync d then
         ∃ v, view_of d v ∧
           ∀ e, match latest e log with
                | Some ev => endpoint_update_ok isWorkload PeerData_Empty v ev
                | None => gd_endpoints d !! e = None
                end
       else log = []).
Proof.
  intros Hb. destruct (graph_batches_ok batches NewActiveRulesCalculator empty_view emptyStore noKnowledge emptyData Hb)
    as (arc&evss&S&Hrun&Hg&Hd).
  { split; [apply arc_inv_init|done|done]. }
  { by split. }
  exists arc, evss. split; [done|]. intros Hok.
  destruct (run_batches_inv heap isWorkload PeerData_Empty enumerate enumerateKeys enumerateEndpoints enumerateData
    Henum HenumKeys HenumEndpoints HenumData evss NewPolicyResolver empty_view (MkDatastore ∅ ∅) []) as (pr&log&sp&Hr&Hinv).
  - by apply (new_resolver_inv heap isWorkload PeerData_Empty enumerate enumerateKeys enumerateEndpoints enumerateData).
  - done.
  - done.
  - done.
  - exists pr, log. split; [done|]. cbv zeta in Hinv |- *. destruct Hinv as (_&Hl&Hs). rewrite <- (dr_sync _ _ _ Hd).
    destruct (v_sync _); [|done]. eexists. split; [by eapply graph_view_of|]. intros e. rewrite <- (dr_endpoints _ _ _ Hd). apply Hl. rewrite Hs. apply not_elem_of_empty.
Qed.
End graph.

(** ** Witness: two local endpoints, one of which matches through its profile, and a
    remote one. *)
Section witness.
Definition graphUpdate := GraphUpdate (EndpointKey := string) (Endpoint := uniquelabels.Map * list string)
  (ComputedDataKind := string) (ComputedData := nat) (PeerData := nat).

Definition graphExample : list (list graphUpdate) :=
  [[GPolicy (example_key "a") (Some (example_policy "t" (Some 5%Z)));
    GEndpoint "e1" (Some (Some {["b" := "x"]}, [])); GTier "t" (Some (MkTier (Some (example_ptr 5)) "Deny"));
    GStatus true];
   [GEndpoint "e2" (Some (uniquelabels.Nil, ["prof"])); GEndpoint "remote" (Some (Some {["b" := "x"]}, []));
    GResource "Profile" "prof" (Some (Some {["b" := "y"]}))];
   [GPolicy (example_key "a") (Some (example_policy "t" (Some 7%Z))); GEndpoint "e1" None]].

Lemma graphExample_ok : Forall (Forall (update_ok exampleHash)) graphExample.
Proof. repeat constructor; cbn; eexists; vm_compute; reflexivity. Qed.

Definition graphExampleLocal (e : string) : bool := bool_decide (e ≠ "remote").

Definition graphExampleRun :=
  graph_batches (Listener := nat) exampleHash (λ _ _, false) (λ _ _, false) map_to_list map_to_list elements elements elements
    fst snd graphExampleLocal graphExample NewActiveRulesCalculator.

Definition graphExampleEvents := match graphExampleRun with Ret (_, evss) => evss | _ => [] end.

Lemma graphExampleEvents_ok :
  batches_ok example_heap (λ _, true) (λ d, (d =? 0)%nat) list_enumerate elements elements map_to_list graphExampleEvents
    (NewPolicyResolver (PT := list PolKV) (TT := list tierInfoKey), []).
Proof. apply batches_okb_sound. vm_compute. reflexivity. Qed.

Definition graphExampleData := foldl (data_step (λ _ : string, true) graphExampleLocal) emptyData (concat graphExample).

Lemma graph_converges_witness :
  ∃ arc evss pr log v, graphExampleRun = Ret (arc, evss) ∧
    run_batches (PT := list PolKV) (TT := list tierInfoKey) (λ _, true) (λ d, (d =? 0)%nat) list_enumerate elements elements
      map_to_list evss (NewPolicyResolver, []) = Ret (pr, log) ∧ view_of exampleHash fst snd graphExampleData v ∧
    ∀ e, match latest e log with
         | Some ev => endpoint_update_ok (λ _, true) (λ d, (d =? 0)%nat) v ev
         | None => gd_endpoints graphExampleData !! e = None
         end.
Proof.
  destruct (graph_converges (PT := list PolKV) (TT := list tierInfoKey) (Listener := nat) example_heap (λ _, true) (λ d, (d =? 0)%nat)
    list_enumerate elements elements map_to_list list_enumerate_perm (λ _, reflexivity _) (λ _, reflexivity _) (λ _, reflexivity _)
    exampleHash exampleHash_inj (λ _ _, false) (λ _ _, false)
    (λ _ _ Hf, match Bool.diff_false_true Hf with end) (λ _ _ Hf, match Bool.diff_false_true Hf with end)
    map_to_list map_to_list elements elements elements (λ _, reflexivity _) (λ _, reflexivity _) (λ _, reflexivity _)
    (λ _, reflexivity _) (λ _, reflexivity _) fst snd graphExampleLocal graphExample graphExample_ok)
    as (arc & evss & H1 & H2).
  assert (Hevs : evss = graphExampleEvents) by (unfold graphExampleEvents, graphExampleRun; rewrite H1; reflexivity).
  destruct H2 as (pr & log & H3 & H4); [rewrite Hevs; exact graphExampleEvents_ok|]. cbv zeta in H4.
  match type of H4 with context [gd_sync ?d] => change d with graphExampleData in H4 end.
  assert (Hsync : gd_sync graphExampleData = true) by (vm_compute; reflexivity). rewrite Hsync in H4. destruct H4 as (v & Hv & H4).
  exists arc, evss, pr, log, v. split; [exact H1|]. split; [exact H3|]. split; [exact Hv|exact H4].
Defined.
End witness.
