(* ===== verification/RestrictionIndex.v ===== *)
(** * The label restriction index: [felix/labelindex/labelrestrictionindex]

    The index stores selectors under the label that restricts them most, so that the
    labels of an item lead to the few selectors that can match it.  An operation ranges
    over a Go map of restrictions, twice when a selector is replaced; the order is an
    argument of each call, because Go picks a new one every time.  A sub-index is changed
    in place while the map holds a pointer to it. *)
From S2P Require Import Prelude.
From S2P Require Import SelectorAST.
From S2P Require Import SelectorParser.
From S2P Require Import UniqueLabels.
From S2P Require Import Multidict.
From stdpp Require Import base list gmap strings numbers.
From stdpp Require Import options.

(** ** Choosing a label *)
Definition MaxInt : Z := 2 ^ 63 - 1.

Definition scoreLabelRestriction (lr : LabelRestriction) : Z :=
  if negb (PossibleToSatisfy lr) then MaxInt
  else (if MustBePresent lr then 10 else 0) +
       match MustHaveOneOfValues lr with Some vs => Z.max (10000 - Z.of_nat (length vs)) 100 | None => 0 end.

(** The body of the loop; [None] is the zero handle. *)
Definition betterLabel (best : option string * Z) (entry : string * LabelRestriction) : option string * Z :=
  let '(bestLabel, bestScore) := best in
  let '(label, res) := entry in
  let score := scoreLabelRestriction res in
  match bestLabel with
  | None => (Some label, score)
  | Some b => if (bestScore <? score)%Z || ((score =? bestScore)%Z && String.ltb b label)
              then (Some label, score) else best
  end.

Definition findMostRestrictedLabel (lrs : list (string * LabelRestriction)) : option string :=
  fst (foldl betterLabel (None, (-1)%Z) lrs).

(** The branches that [AddSelector] and [DeleteSelector] share. *)
Inductive Placement :=
  | Impossible
  | ByValues (labelName : string) (values : list string)
  | ByPresence (labelName : string)
  | Unoptimized.

Definition mapOrder := restrictions → list (string * LabelRestriction).

Definition placement (order : mapOrder) (lrs : restrictions) : Placement :=
  match findMostRestrictedLabel (order lrs) with
  | None => Unoptimized
  | Some labelName =>
      let res := default zeroRestriction (lrs !! labelName) in
      if negb (PossibleToSatisfy res) then Impossible
      else match MustHaveOneOfValues res with
           | Some values => ByValues labelName values
           | None => if MustBePresent res then ByPresence labelName else Unoptimized
           end
  end.

Section index.
Context `{Countable SelID}.

(** ** [valuesSubIndex] (a nil map is an empty one; a nil set is [None]) *)
Record valuesSubIndex := MkValuesSubIndex {
  selsMatchingSpecificValues : gmap string (gset SelID);
  selsMatchingWildcard : option (gset SelID)
}.

Definition newValuesSubIndex : valuesSubIndex := MkValuesSubIndex ∅ None.

Definition sub_Add (value : string) (id : SelID) (t : valuesSubIndex) : valuesSubIndex :=
  let values := default ∅ (selsMatchingSpecificValues t !! value) in
  MkValuesSubIndex (<[value := {[id]} ∪ values]> (selsMatchingSpecificValues t)) (selsMatchingWildcard t).

Definition sub_Remove (value : string) (id : SelID) (t : valuesSubIndex) : valuesSubIndex :=
  match selsMatchingSpecificValues t !! value with
  | None => t
  | Some values =>
      let values' := values ∖ {[id]} in
      MkValuesSubIndex
        (if decide (size values' = 0) then delete value (selsMatchingSpecificValues t)
         else <[value := values']> (selsMatchingSpecificValues t))
        (selsMatchingWildcard t)
  end.

Definition sub_AddWildcard (id : SelID) (t : valuesSubIndex) : valuesSubIndex :=
  MkValuesSubIndex (selsMatchingSpecificValues t) (Some ({[id]} ∪ default ∅ (selsMatchingWildcard t))).

Definition sub_RemoveWildcard (id : SelID) (t : valuesSubIndex) : valuesSubIndex :=
  match selsMatchingWildcard t with
  | None => t
  | Some s =>
      let s' := s ∖ {[id]} in
      MkValuesSubIndex (selsMatchingSpecificValues t) (if decide (size s' = 0) then None else Some s')
  end.

Definition sub_Empty (t : valuesSubIndex) : bool :=
  bool_decide (size (selsMatchingSpecificValues t) = 0) && match selsMatchingWildcard t with None => true | Some _ => false end.

(** ** The index *)
Record LabelRestrictionIndex := MkRestrictionIndex {
  selectorsByID : gmap SelID Selector;
  labelToValueToIDs : gmap string valuesSubIndex;
  unoptimizedIDs : gset SelID
}.

Definition New : LabelRestrictionIndex := MkRestrictionIndex ∅ ∅ ∅.

Definition addValue (labelName : string) (id : SelID) (m : gmap string valuesSubIndex) (v : string) : gmap string valuesSubIndex :=
  <[labelName := sub_Add v id (default newValuesSubIndex (m !! labelName))]> m.

(** One round of the loop of [DeleteSelector] over the values: the sub-index, and whether
    the map still points to it. *)
Definition removeValue (id : SelID) (st : valuesSubIndex * bool) (v : string) : valuesSubIndex * bool :=
  let values := sub_Remove v id st.1 in (values, st.2 && negb (sub_Empty values)).

Definition storeSub (labelName : string) (st : valuesSubIndex * bool) (m : gmap string valuesSubIndex) : gmap string valuesSubIndex :=
  if st.2 then <[labelName := st.1]> m else delete labelName m.

Definition DeleteSelector (order : mapOrder) (id : SelID) (s : LabelRestrictionIndex) : outcome Empty_set LabelRestrictionIndex :=
  match selectorsByID s !! id with
  | None => Ret s
  | Some sel =>
      match Node_LabelRestrictions (root sel) with
      | None => Panic
      | Some lrs =>
          let finish m unopt := Ret (MkRestrictionIndex (delete id (selectorsByID s)) m unopt) in
          match placement order lrs with
          | Impossible => finish (labelToValueToIDs s) (unoptimizedIDs s)
          | ByValues labelName vs =>
              match labelToValueToIDs s !! labelName with
              | None => Panic
              | Some values =>
                  finish (storeSub labelName (foldl (removeValue id) (values, true) vs) (labelToValueToIDs s)) (unoptimizedIDs s)
              end
          | ByPresence labelName =>
              match labelToValueToIDs s !! labelName with
              | None => Panic
              | Some values =>
                  let values' := sub_RemoveWildcard id values in
                  finish (storeSub labelName (values', negb (sub_Empty values')) (labelToValueToIDs s)) (unoptimizedIDs s)
              end
          | Unoptimized => finish (labelToValueToIDs s) (unoptimizedIDs s ∖ {[id]})
          end
      end
  end.

Definition AddSelector (orderOld orderNew : mapOrder) (id : SelID) (sel : Selector) (s0 : LabelRestrictionIndex)
    : outcome Empty_set LabelRestrictionIndex :=
  let! s := DeleteSelector orderOld id s0 in
  match Node_LabelRestrictions (root sel) with
  | None => Panic
  | Some lrs =>
      let finish m unopt := Ret (MkRestrictionIndex (<[id := sel]> (selectorsByID s)) m unopt) in
      match placement orderNew lrs with
      | Impossible => finish (labelToValueToIDs s) (unoptimizedIDs s)
      | ByValues labelName vs => finish (foldl (addValue labelName id) (labelToValueToIDs s) vs) (unoptimizedIDs s)
      | ByPresence labelName =>
          finish (<[labelName := sub_AddWildcard id (default newValuesSubIndex (labelToValueToIDs s !! labelName))]>
                    (labelToValueToIDs s)) (unoptimizedIDs s)
      | Unoptimized => finish (labelToValueToIDs s) ({[id]} ∪ unoptimizedIDs s)
      end
  end.

(** What the iterator yields, in order; a consumer may stop early.  [labels] is the
    sequence of [AllOwnAndParentLabelHandles]. *)
Definition AllPotentialMatches (enumIDs : gset SelID → list SelID) (labels : list (string * string)) (s : LabelRestrictionIndex)
    : list (SelID * option Selector) :=
  let emit id := (id, selectorsByID s !! id) in
  concat (map (λ '(k, v),
    match labelToValueToIDs s !! k with
    | None => []
    | Some values =>
        map emit (match selsMatchingWildcard values with Some ids => enumIDs ids | None => [] end) ++
        map emit (match selsMatchingSpecificValues values !! v with Some ids => enumIDs ids | None => [] end)
    end) labels) ++
  map emit (enumIDs (unoptimizedIDs s)).

(** The gauges: optimized and unoptimized selectors. *)
Definition updateGauges (s : LabelRestrictionIndex) : Z * Z :=
  (Z.of_nat (size (selectorsByID s)) - Z.of_nat (size (unoptimizedIDs s)), Z.of_nat (size (unoptimizedIDs s)))%Z.
End index.
