(* ===== verification/RestrictionIndexSpec.v ===== *)
(** * The restriction index finds every selector that matches

    The label that [findMostRestrictedLabel] picks does not depend on the order of the Go
    map, so that a deletion looks where the addition stored.  [index_ok] says where every
    selector is stored; it is preserved by additions and deletions, and implies that the
    candidates for an item contain every selector that matches it. *)
From S2P Require Import Prelude.
From S2P Require Import SelectorAST.
From S2P Require Import SelectorParser.
From S2P Require Import SelectorRoundTrip.
From S2P Require Import Multidict.
From S2P Require Import RestrictionIndex.
From stdpp Require Import base list gmap strings numbers.
From stdpp Require Import options.

(** ** The order of labels *)
Definition dominates (x y : string * Z) : Prop := (y.2 < x.2)%Z ∨ (y.2 = x.2 ∧ String.le y.1 x.1).

#[global] Instance dominates_refl : Reflexive dominates.
Proof. intros x. right. split; [done|reflexivity]. Qed.

#[global] Instance dominates_trans : Transitive dominates.
Proof.
  intros x y z [H1|[H1 H1']] [H2|[H2 H2']]; [left; lia|left; lia|left; lia|].
  right. split; [lia|]. by etrans.
Qed.

Lemma dominates_antisym x y : dominates x y → dominates y x → x = y.
Proof.
  intros [H1|[H1 H1']] [H2|[H2 H2']]; try lia. destruct x as [a i], y as [b j]; simpl in *. f_equal; [|lia].
  by apply (anti_symm String.le).
Qed.

Lemma betterLabel_Some b sc x r :
  ∃ b' sc', betterLabel (Some b, sc) (x, r) = (Some b', sc') ∧
    ((b', sc') = (b, sc) ∨ (b', sc') = (x, scoreLabelRestriction r)) ∧
    dominates (b', sc') (b, sc) ∧ dominates (b', sc') (x, scoreLabelRestriction r).
Proof.
  unfold betterLabel. destruct (_ || _) eqn:E.
  - exists x, (scoreLabelRestriction r). split_and!; [done|by right| |reflexivity].
    apply orb_prop in E as [E%Z.ltb_lt|[E1%Z.eqb_eq E2]%andb_prop]; [by left|]. right. simpl. split; [done|].
    rewrite string_le_ltb in E2. destruct (total String.le b x) as [|Hle]; [done|].
    unfold String.le in Hle. apply Is_true_eq_true in Hle. by rewrite Hle in E2.
  - exists b, sc. split_and!; [done|by left|reflexivity|]. apply orb_false_elim in E as [E1%Z.ltb_ge E2].
    destruct (Z.eqb_spec (scoreLabelRestriction r) sc) as [Heq|Hne]; [|left; simpl; lia]. right. simpl in *. split; [done|].
    rewrite string_le_ltb in E2. apply negb_false_iff in E2. unfold String.le. by rewrite E2.
Qed.

Lemma foldl_betterLabel l b sc :
  ∃ b' sc', foldl betterLabel (Some b, sc) l = (Some b', sc') ∧
    ((b', sc') = (b, sc) ∨ ∃ r, (b', r) ∈ l ∧ sc' = scoreLabelRestriction r) ∧
    dominates (b', sc') (b, sc) ∧ ∀ x r, (x, r) ∈ l → dominates (b', sc') (x, scoreLabelRestriction r).
Proof.
  revert b sc. induction l as [|[x r] l IH]; intros b sc; cbn [foldl].
  - exists b, sc. split_and!; [done|by left|reflexivity|by intros ? ? ?%elem_of_nil].
  - destruct (betterLabel_Some b sc x r) as (b1&sc1&->&Hor1&Hd1&Hd1').
    destruct (IH b1 sc1) as (b'&sc'&->&Hor&Hd&Hall). exists b', sc'. split_and!; [done| |by etrans|].
    + destruct Hor as [Heq|(r'&Hin&Hr')]; [|right; exists r'; split; [by right|done]].
      destruct Hor1 as [Heq1|Heq1]; rewrite Heq1 in Heq; [by left|]. right. simplify_eq. exists r. split; [left|done].
    + intros y ry [Heq|Hin]%elem_of_cons; [|by apply Hall]. simplify_eq. by etrans.
Qed.

Lemma findMostRestrictedLabel_spec l :
  match findMostRestrictedLabel l with
  | None => l = []
  | Some b => ∃ r, (b, r) ∈ l ∧ ∀ x rx, (x, rx) ∈ l → dominates (b, scoreLabelRestriction r) (x, scoreLabelRestriction rx)
  end.
Proof.
  unfold findMostRestrictedLabel. destruct l as [|[x r] l]; [done|]. cbn [foldl betterLabel].
  destruct (foldl_betterLabel l x (scoreLabelRestriction r)) as (b'&sc'&->&Hor&Hd&Hall). simpl.
  destruct Hor as [Heq|(r'&Hin&->)].
  - simplify_eq. exists r. split; [left|]. intros y ry [Heq|Hy]%elem_of_cons; [by simplify_eq|by apply Hall].
  - exists r'. split; [by right|]. intros y ry [Heq|Hy]%elem_of_cons; [by simplify_eq|by apply Hall].
Qed.

(** The choice depends on the restrictions only. *)
Lemma findMostRestrictedLabel_perm l1 l2 : l1 ≡ₚ l2 → findMostRestrictedLabel l1 = findMostRestrictedLabel l2.
Proof.
  intros Hp. pose proof (findMostRestrictedLabel_spec l1) as H1. pose proof (findMostRestrictedLabel_spec l2) as H2.
  destruct (findMostRestrictedLabel l1) as [b1|], (findMostRestrictedLabel l2) as [b2|]; try done.
  - destruct H1 as (r1&Hin1&Hd1), H2 as (r2&Hin2&Hd2).
    assert (Heq : (b1, scoreLabelRestriction r1) = (b2, scoreLabelRestriction r2)).
    { apply dominates_antisym; [apply Hd1; by rewrite Hp|apply Hd2; by rewrite <-Hp]. }
    by simplify_eq.
  - subst l2. symmetry in Hp. apply Permutation_nil in Hp. subst l1. destruct H1 as (?&?%elem_of_nil&_). done.
  - subst l1. apply Permutation_nil in Hp. subst l2. destruct H2 as (?&?%elem_of_nil&_). done.
Qed.

Definition order_ok (order : mapOrder) : Prop := ∀ lrs, order lrs ≡ₚ map_to_list lrs.

Lemma placement_order order lrs : order_ok order → placement order lrs = placement map_to_list lrs.
Proof. intros Ho. unfold placement. by rewrite (findMostRestrictedLabel_perm _ _ (Ho lrs)). Qed.

(** A selector under a value or a label only matches items that have them. *)
Lemma placement_sound `{Labels L} node lrs (labels : L) :
  Node_LabelRestrictions node = Some lrs → Evaluate node labels = true →
  match placement map_to_list lrs with
  | Impossible => False
  | ByValues l vs => ∃ v, GetHandle labels l = Some v ∧ v ∈ vs
  | ByPresence l => is_Some (GetHandle labels l)
  | Unoptimized => True
  end.
Proof.
  intros Hn Hev. pose proof (LabelRestrictions_hold labels node lrs Hn Hev) as Hall. unfold placement.
  pose proof (findMostRestrictedLabel_spec (map_to_list lrs)) as Hf.
  destruct (findMostRestrictedLabel (map_to_list lrs)) as [l|]; [|done].
  destruct Hf as (r&Hr%elem_of_map_to_list&_). rewrite Hr. simpl. pose proof (Hall l r Hr) as Hh.
  rewrite (restriction_holds_possible labels l r Hh). simpl. destruct Hh as (Hp&_&Hv).
  destruct (MustHaveOneOfValues r) as [vs|]; [by apply Hv|]. by destruct (MustBePresent r); [apply Hp|].
Qed.

(** A set of values under which a selector is stored is not empty. *)
Lemma placement_values order lrs l vs : placement order lrs = ByValues l vs → vs ≠ [].
Proof.
  unfold placement. destruct (findMostRestrictedLabel _) as [l'|]; [|done]. set (res := default _ _).
  destruct (PossibleToSatisfy res) eqn:E; [|done]. cbn. destruct (MustHaveOneOfValues res) as [vs'|] eqn:Ev; [|by case_match].
  intros [= -> ->] ->. unfold PossibleToSatisfy in E. rewrite Ev in E. by case_match.
Qed.

(** Selectors that came out of the parser have restrictions. *)
Lemma Node_LabelRestrictions_wf node : node_wf node → is_Some (Node_LabelRestrictions node).
Proof.
  induction node as [n v|n v|n v|n v|n ss|n ss|n v|n|op IH|ops IH|ops IH| |] using Node_nested_ind; cbn [node_wf]; intros Hwf;
    try (by eexists).
  - cbn. by destruct op; eexists.
  - destruct Hwf as [_ Hwf%node_wf_all]. cbn. generalize (∅ : restrictions). clear -IH Hwf.
    induction IH as [|op ops Hop _ IHops]; intros lr; [by eexists|]. apply list.Forall_cons in Hwf as [H1 H2].
    destruct (Hop H1) as [lr' ->]. by apply IHops.
  - destruct Hwf as [Hlen Hwf%node_wf_all]. destruct ops as [|op0 ops]; [simpl in Hlen; lia|]. cbn.
    inversion IH as [|? ? H0 IH']; subst. apply list.Forall_cons in Hwf as [Hwf0 Hwf]. destruct (H0 Hwf0) as [lr0 ->].
    clear -IH' Hwf. revert lr0. induction IH' as [|op ops Hop _ IHops]; intros lr; [by eexists|].
    apply list.Forall_cons in Hwf as [H1 H2]. destruct (Hop H1) as [lr' ->]. by apply IHops.
Qed.

Section index.
Context `{Countable SelID}.
Abbreviation Index := (LabelRestrictionIndex (SelID := SelID)).
Abbreviation Subs := (gmap string (valuesSubIndex (SelID := SelID))).
Implicit Types (s : Index) (m : Subs) (t : valuesSubIndex (SelID := SelID)) (id : SelID) (l v : string).

Definition in_value m l v id : Prop :=
  match m !! l with Some t => md_in (selsMatchingSpecificValues t) v id | None => False end.
Definition in_wild m l id : Prop :=
  match m !! l with Some t => id ∈ default ∅ (selsMatchingWildcard t) | None => False end.

(** No empty sets and no empty sub-indexes are kept. *)
Record sub_ok t : Prop := {
  sb_md : md_ok (selsMatchingSpecificValues t);
  sb_wild : selsMatchingWildcard t ≠ Some ∅
}.
Definition subs_ok m : Prop := ∀ l t, m !! l = Some t → sub_ok t ∧ sub_Empty t = false.

Lemma sub_Empty_spec t :
  sub_ok t → sub_Empty t = true ↔ (∀ v id, ¬ md_in (selsMatchingSpecificValues t) v id) ∧ (∀ id, id ∉ default ∅ (selsMatchingWildcard t)).
Proof.
  intros [Hmd Hw]. unfold sub_Empty. rewrite andb_true_iff, bool_decide_eq_true, map_size_empty_iff. split.
  - intros [-> Hn]. destruct (selsMatchingWildcard t); [done|]. split; [done|]. intros id. apply not_elem_of_empty.
  - intros [H1 H2]. split.
    + apply map_empty. intros v. apply eq_None_not_Some. intros Hs%md_key; [|done]. destruct Hs as [id Hid]. by apply H1 in Hid.
    + destruct (selsMatchingWildcard t) as [w|]; [|done]. exfalso. apply Hw. f_equal. by apply set_eq; set_solver.
Qed.

Lemma sub_Add_ok v id t :
  sub_ok t → sub_ok (sub_Add v id t) ∧ sub_Empty (sub_Add v id t) = false ∧
  (∀ v' id', md_in (selsMatchingSpecificValues (sub_Add v id t)) v' id' ↔
             (v' = v ∧ id' = id) ∨ md_in (selsMatchingSpecificValues t) v' id') ∧
  selsMatchingWildcard (sub_Add v id t) = selsMatchingWildcard t.
Proof.
  intros [Hmd Hw].
  assert (Hspec : ∀ v' id', md_in (selsMatchingSpecificValues (sub_Add v id t)) v' id' ↔
             (v' = v ∧ id' = id) ∨ md_in (selsMatchingSpecificValues t) v' id') by (intros; apply md_Put_in).
  assert (Hok : sub_ok (sub_Add v id t)) by (split; [by apply (md_Put_ok _ v id)|done]).
  split_and!; [done| |done|done]. apply not_true_is_false. rewrite sub_Empty_spec by done. intros [H1 _].
  apply (H1 v id), Hspec. by left.
Qed.

Lemma sub_Remove_ok v id t :
  sub_ok t → sub_ok (sub_Remove v id t) ∧
  (∀ v' id', md_in (selsMatchingSpecificValues (sub_Remove v id t)) v' id' ↔
             md_in (selsMatchingSpecificValues t) v' id' ∧ ¬ (v' = v ∧ id' = id)) ∧
  selsMatchingWildcard (sub_Remove v id t) = selsMatchingWildcard t.
Proof.
  intros [Hmd Hw]. assert (Heq : sub_Remove v id t = MkValuesSubIndex (Multidict.Discard v id (selsMatchingSpecificValues t)) (selsMatchingWildcard t)).
  { unfold sub_Remove, Multidict.Discard. destruct t as [sp w]. cbn. by destruct (sp !! v). }
  rewrite Heq. split_and!; [|intros; apply md_Discard_in|done]. split; [by apply md_Discard_ok|done].
Qed.

(** *** Adding *)
Lemma subs_insert_ok m l t : subs_ok m → sub_ok t → sub_Empty t = false → subs_ok (<[l := t]> m).
Proof. intros Hm Ht He l' t' [[<- <-]|[_ Hl']]%lookup_insert_Some; [done|by apply Hm in Hl']. Qed.

Lemma default_sub_ok m l : subs_ok m → sub_ok (default newValuesSubIndex (m !! l)).
Proof. intros Hm. destruct (m !! l) as [t|] eqn:E; [by apply Hm in E as [? _]|]. by split. Qed.

Lemma in_value_default m l v id :
  in_value m l v id ↔ md_in (selsMatchingSpecificValues (default newValuesSubIndex (m !! l))) v id.
Proof. unfold in_value. destruct (m !! l); [done|]. simpl. split; [done|]. by unfold md_in. Qed.

Lemma in_wild_default m l id :
  in_wild m l id ↔ id ∈ default ∅ (selsMatchingWildcard (default newValuesSubIndex (m !! l))).
Proof. unfold in_wild. destruct (m !! l); [done|]. simpl. split; [done|]. by intros ?%not_elem_of_empty. Qed.

Lemma addValue_ok l id v m :
  subs_ok m → subs_ok (addValue l id m v) ∧
  (∀ l' v' id', in_value (addValue l id m v) l' v' id' ↔ in_value m l' v' id' ∨ (l' = l ∧ v' = v ∧ id' = id)) ∧
  (∀ l' id', in_wild (addValue l id m v) l' id' ↔ in_wild m l' id').
Proof.
  intros Hm. destruct (sub_Add_ok v id _ (default_sub_ok m l Hm)) as (Hok&He&Hin&Hw). unfold addValue. split_and!.
  - by apply subs_insert_ok.
  - intros l' v' id'. rewrite !in_value_default. destruct (decide (l' = l)) as [->|Hne].
    + rewrite lookup_insert_eq. simpl. rewrite Hin. naive_solver.
    + rewrite lookup_insert_ne by done. naive_solver.
  - intros l' id'. rewrite !in_wild_default. destruct (decide (l' = l)) as [->|Hne].
    + rewrite lookup_insert_eq. done.
    + by rewrite lookup_insert_ne.
Qed.

Lemma addValues_ok l id vs m :
  subs_ok m → subs_ok (foldl (addValue l id) m vs) ∧
  (∀ l' v' id', in_value (foldl (addValue l id) m vs) l' v' id' ↔ in_value m l' v' id' ∨ (l' = l ∧ v' ∈ vs ∧ id' = id)) ∧
  (∀ l' id', in_wild (foldl (addValue l id) m vs) l' id' ↔ in_wild m l' id').
Proof.
  revert m. induction vs as [|v vs IH]; intros m Hm; cbn [foldl].
  - split_and!; [done| |done]. intros. rewrite elem_of_nil. tauto.
  - destruct (addValue_ok l id v m Hm) as (Hm1&Hv1&Hw1). destruct (IH _ Hm1) as (Hm2&Hv2&Hw2). split_and!; [done| |].
    + intros. rewrite Hv2, Hv1, elem_of_cons. tauto.
    + intros. by rewrite Hw2, Hw1.
Qed.

Lemma addWildcard_ok l id m :
  subs_ok m →
  let m' := <[l := sub_AddWildcard id (default newValuesSubIndex (m !! l))]> m in
  subs_ok m' ∧ (∀ l' v' id', in_value m' l' v' id' ↔ in_value m l' v' id') ∧
  (∀ l' id', in_wild m' l' id' ↔ in_wild m l' id' ∨ (l' = l ∧ id' = id)).
Proof.
  intros Hm m'. pose proof (default_sub_ok m l Hm) as [Hmd Hw]. set (t := default newValuesSubIndex (m !! l)) in *.
  assert (Hok : sub_ok (sub_AddWildcard id t)) by (split; [done|]; cbn; intros [= He]; set_solver).
  split_and!.
  - apply subs_insert_ok; [done|done|]. apply not_true_is_false. rewrite sub_Empty_spec by done. intros [_ H2].
    apply (H2 id). cbn. set_solver.
  - intros l' v' id'. rewrite !in_value_default. subst m'. destruct (decide (l' = l)) as [->|Hne].
    + by rewrite lookup_insert_eq.
    + by rewrite lookup_insert_ne.
  - intros l' id'. rewrite !in_wild_default. subst m'. destruct (decide (l' = l)) as [->|Hne].
    + rewrite lookup_insert_eq. cbn. fold t. set_solver.
    + rewrite lookup_insert_ne by done. naive_solver.
Qed.

(** *** Removing *)
Lemma storeSub_ok l t t' b m (P : string → SelID → Prop) (Q : SelID → Prop) :
  subs_ok m → m !! l = Some t → sub_ok t' → b = negb (sub_Empty t') →
  (∀ v id, md_in (selsMatchingSpecificValues t') v id ↔ md_in (selsMatchingSpecificValues t) v id ∧ ¬ P v id) →
  (∀ id, id ∈ default ∅ (selsMatchingWildcard t') ↔ id ∈ default ∅ (selsMatchingWildcard t) ∧ ¬ Q id) →
  let m' := storeSub l (t', b) m in
  subs_ok m' ∧ (∀ l' v id, in_value m' l' v id ↔ in_value m l' v id ∧ ¬ (l' = l ∧ P v id)) ∧
  (∀ l' id, in_wild m' l' id ↔ in_wild m l' id ∧ ¬ (l' = l ∧ Q id)).
Proof.
  intros Hm Ht Ht' -> HP HQ m'. subst m'. unfold storeSub. cbn [fst snd]. destruct (sub_Empty t') eqn:He; cbn [negb].
  - apply sub_Empty_spec in He as [H1 H2]; [|done]. split_and!.
    + intros l' t0 [_ Hl']%lookup_delete_Some. by apply Hm in Hl'.
    + intros l' v id. unfold in_value. destruct (decide (l' = l)) as [->|Hne].
      * rewrite lookup_delete_eq, Ht. specialize (H1 v id). rewrite HP in H1. naive_solver.
      * rewrite lookup_delete_ne by done. naive_solver.
    + intros l' id. unfold in_wild. destruct (decide (l' = l)) as [->|Hne].
      * rewrite lookup_delete_eq, Ht. specialize (H2 id). rewrite HQ in H2. naive_solver.
      * rewrite lookup_delete_ne by done. naive_solver.
  - split_and!.
    + by apply subs_insert_ok.
    + intros l' v id. unfold in_value. destruct (decide (l' = l)) as [->|Hne].
      * rewrite lookup_insert_eq, Ht, HP. naive_solver.
      * rewrite lookup_insert_ne by done. naive_solver.
    + intros l' id. unfold in_wild. destruct (decide (l' = l)) as [->|Hne].
      * rewrite lookup_insert_eq, Ht, HQ. naive_solver.
      * rewrite lookup_insert_ne by done. naive_solver.
Qed.

Lemma removeValues_loop id vs t :
  sub_ok t →
  let st := foldl (removeValue id) (t, negb (sub_Empty t)) vs in
  sub_ok st.1 ∧ st.2 = negb (sub_Empty st.1) ∧ selsMatchingWildcard st.1 = selsMatchingWildcard t ∧
  ∀ v id', md_in (selsMatchingSpecificValues st.1) v id' ↔
           md_in (selsMatchingSpecificValues t) v id' ∧ ¬ (v ∈ vs ∧ id' = id).
Proof.
  revert t. induction vs as [|v vs IH]; intros t Ht; cbn [foldl].
  - split_and!; [done|done|done|]. intros. rewrite elem_of_nil. tauto.
  - destruct (sub_Remove_ok v id t Ht) as (Hok&Hin&Hw).
    assert (removeValue id (t, negb (sub_Empty t)) v = (sub_Remove v id t, negb (sub_Empty (sub_Remove v id t)))) as ->.
    { unfold removeValue. cbn [fst snd]. f_equal. destruct (sub_Empty t) eqn:He; [|done]. cbn [negb andb].
      apply sub_Empty_spec in He as [H1 H2]; [|done]. symmetry. apply negb_false_iff, sub_Empty_spec; [done|].
      rewrite Hw. split; [|done]. intros v' id'. rewrite Hin. naive_solver. }
    destruct (IH _ Hok) as (Hok'&Hb&Hw'&Hin'). split_and!; [done|done|congruence|].
    intros v' id'. rewrite Hin', Hin, elem_of_cons. tauto.
Qed.

Lemma removeWildcard_loop id t :
  sub_ok t → sub_ok (sub_RemoveWildcard id t) ∧
  selsMatchingSpecificValues (sub_RemoveWildcard id t) = selsMatchingSpecificValues t ∧
  ∀ id', id' ∈ default ∅ (selsMatchingWildcard (sub_RemoveWildcard id t)) ↔ id' ∈ default ∅ (selsMatchingWildcard t) ∧ id' ≠ id.
Proof.
  intros [Hmd Hw]. unfold sub_RemoveWildcard. destruct (selsMatchingWildcard t) as [w|] eqn:E.
  - split_and!; [|done|].
    + split; [done|]. cbn. case_decide as Hsz; [done|]. intros [= He]. apply Hsz. rewrite He. apply size_empty.
    + intros id'. cbn. case_decide as Hsz; cbn; [|set_solver]. apply size_empty_inv in Hsz. set_solver.
  - split_and!; [by split; rewrite ?E|done|]. intros id'. rewrite E. cbn. set_solver.
Qed.

(** ** The invariant *)
Definition placeOf (sel : Selector) : option Placement := placement map_to_list <$> Node_LabelRestrictions (root sel).
Definition stored (sels : gmap SelID Selector) id : option Placement := sels !! id ≫= placeOf.

Record index_ok s : Prop := {
  io_subs : subs_ok (labelToValueToIDs s);
  io_values l v id : in_value (labelToValueToIDs s) l v id ↔ ∃ vs, stored (selectorsByID s) id = Some (ByValues l vs) ∧ v ∈ vs;
  io_wild l id : in_wild (labelToValueToIDs s) l id ↔ stored (selectorsByID s) id = Some (ByPresence l);
  io_unopt id : id ∈ unoptimizedIDs s ↔ stored (selectorsByID s) id = Some Unoptimized;
  io_restrictions id sel : selectorsByID s !! id = Some sel → is_Some (Node_LabelRestrictions (root sel))
}.

Lemma index_ok_New : index_ok New.
Proof.
  split; [done| | | |done]; cbn.
  - intros l v id. split; [done|]. by intros (?&?&_).
  - done.
  - intros id. split; [by intros ?%not_elem_of_empty|done].
Qed.

Lemma stored_delete sels id id' : stored (delete id sels) id' = if decide (id' = id) then None else stored sels id'.
Proof. unfold stored. case_decide; [subst; by rewrite lookup_delete_eq|by rewrite lookup_delete_ne]. Qed.

Lemma stored_insert sels id sel id' : stored (<[id := sel]> sels) id' = if decide (id' = id) then placeOf sel else stored sels id'.
Proof. unfold stored. case_decide; [subst; by rewrite lookup_insert_eq|by rewrite lookup_insert_ne]. Qed.

(** What is left when the sub-indexes and the unoptimized set lose exactly [id]. *)
Lemma index_ok_delete s id m U :
  index_ok s → subs_ok m →
  (∀ l v id', in_value m l v id' ↔ in_value (labelToValueToIDs s) l v id' ∧ id' ≠ id) →
  (∀ l id', in_wild m l id' ↔ in_wild (labelToValueToIDs s) l id' ∧ id' ≠ id) →
  (∀ id', id' ∈ U ↔ id' ∈ unoptimizedIDs s ∧ id' ≠ id) →
  index_ok (MkRestrictionIndex (delete id (selectorsByID s)) m U).
Proof.
  intros [Hs Hv Hw Hu Hr] Hm Hv' Hw' Hu'. split; cbn; [done| | | |].
  - intros l v id'. rewrite Hv', Hv, stored_delete. case_decide; naive_solver.
  - intros l id'. rewrite Hw', Hw, stored_delete. case_decide; naive_solver.
  - intros id'. rewrite Hu', Hu, stored_delete. case_decide; naive_solver.
  - intros id' sel [_ Hl]%lookup_delete_Some. by eapply Hr.
Qed.

Lemma stored_Some s id sel lrs :
  selectorsByID s !! id = Some sel → Node_LabelRestrictions (root sel) = Some lrs →
  stored (selectorsByID s) id = Some (placement map_to_list lrs).
Proof. intros H1 H2. unfold stored, placeOf. by rewrite H1; cbn; rewrite H2. Qed.

Lemma DeleteSelector_ok order id s :
  order_ok order → index_ok s →
  ∃ s', DeleteSelector order id s = Ret s' ∧ index_ok s' ∧ selectorsByID s' = delete id (selectorsByID s).
Proof.
  intros Ho Hok. unfold DeleteSelector. destruct (selectorsByID s !! id) as [sel|] eqn:Hsel.
  2: { exists s. split_and!; [done|done|]. by rewrite delete_id. }
  destruct (io_restrictions _ Hok id sel Hsel) as [lrs Hlrs]. rewrite Hlrs, (placement_order order) by done.
  pose proof (stored_Some s id sel lrs Hsel Hlrs) as Hst. pose proof Hok as [Hs Hv Hw Hu Hr].
  destruct (placement map_to_list lrs) as [|l vs|l|] eqn:Hp.
  - eexists. split_and!; [done| |done]. apply index_ok_delete; [done|done| | |]; intros;
      rewrite ?Hv, ?Hw, ?Hu; (split; [|tauto]); intros Hx; (split; [done|]); intros ->; naive_solver.
  - assert (Hin : ∀ v, in_value (labelToValueToIDs s) l v id ↔ v ∈ vs) by (intros v; rewrite Hv; naive_solver).
    destruct (labelToValueToIDs s !! l) as [t|] eqn:Ht.
    2: { exfalso. destruct vs as [|v vs]; [by apply placement_values in Hp|]. specialize (Hin v).
         unfold in_value in Hin. rewrite Ht in Hin. apply Hin. left. }
    destruct (Hs l t Ht) as [Htok Hte]. pose proof (removeValues_loop id vs t Htok) as Hloop. rewrite Hte in Hloop. cbn [negb] in Hloop.
    destruct (foldl (removeValue id) (t, true) vs) as [t' b]. cbn [fst snd] in Hloop. destruct Hloop as (Hok'&Hb&Hwt&Hvt).
    destruct (storeSub_ok l t t' b (labelToValueToIDs s) (λ v id', v ∈ vs ∧ id' = id) (λ _, False) Hs Ht Hok' Hb Hvt) as (Hm&Hv'&Hw').
    { intros id'. rewrite Hwt. tauto. }
    eexists. split_and!; [done| |done]. apply index_ok_delete; [done|done| | |].
    + intros l' v id'. rewrite Hv'. split; [|naive_solver]. intros [Hx Hn]. split; [done|]. intros ->. apply Hn.
      apply Hv in Hx as (vs'&Heq&Hvs'). rewrite Hst in Heq. by simplify_eq.
    + intros l' id'. rewrite Hw'. split; [|naive_solver]. intros [Hx Hn]. split; [done|]. intros ->.
      apply Hw in Hx. congruence.
    + intros id'. split; [|tauto]. intros Hx. split; [done|]. intros ->. apply Hu in Hx. congruence.
  - assert (Hin : in_wild (labelToValueToIDs s) l id) by (by apply Hw).
    destruct (labelToValueToIDs s !! l) as [t|] eqn:Ht; [|unfold in_wild in Hin; by rewrite Ht in Hin].
    destruct (Hs l t Ht) as [Htok Hte]. destruct (removeWildcard_loop id t Htok) as (Hok'&Hvt&Hwt).
    destruct (storeSub_ok l t (sub_RemoveWildcard id t) _ (labelToValueToIDs s) (λ _ _, False) (λ id', id' = id) Hs Ht Hok' eq_refl)
      as (Hm&Hv'&Hw'); [intros; rewrite Hvt; tauto|done|].
    eexists. split_and!; [done| |done]. apply index_ok_delete; [done|done| | |].
    + intros l' v id'. rewrite Hv'. split; [|naive_solver]. intros [Hx Hn]. split; [done|]. intros ->.
      apply Hv in Hx as (vs'&Heq&_). congruence.
    + intros l' id'. rewrite Hw'. split; [|naive_solver]. intros [Hx Hn]. split; [done|]. intros ->. apply Hn.
      apply Hw in Hx. rewrite Hst in Hx. by simplify_eq.
    + intros id'. split; [|tauto]. intros Hx. split; [done|]. intros ->. apply Hu in Hx. congruence.
  - eexists. split_and!; [done| |done]. apply index_ok_delete; [done|done| | |].
    + intros l v id'. rewrite Hv. split; [|tauto]. intros Hx. split; [done|]. intros ->. naive_solver.
    + intros l id'. rewrite Hw. split; [|tauto]. intros Hx. split; [done|]. intros ->. naive_solver.
    + intros id'. set_solver.
Qed.

Lemma index_ok_insert s id sel lrs m U :
  index_ok s → selectorsByID s !! id = None → Node_LabelRestrictions (root sel) = Some lrs → subs_ok m →
  (∀ l v id', in_value m l v id' ↔ in_value (labelToValueToIDs s) l v id' ∨
     (id' = id ∧ ∃ vs, placement map_to_list lrs = ByValues l vs ∧ v ∈ vs)) →
  (∀ l id', in_wild m l id' ↔ in_wild (labelToValueToIDs s) l id' ∨ (id' = id ∧ placement map_to_list lrs = ByPresence l)) →
  (∀ id', id' ∈ U ↔ id' ∈ unoptimizedIDs s ∨ (id' = id ∧ placement map_to_list lrs = Unoptimized)) →
  index_ok (MkRestrictionIndex (<[id := sel]> (selectorsByID s)) m U).
Proof.
  intros [Hs Hv Hw Hu Hr] Hnone Hlrs Hm Hv' Hw' Hu'.
  assert (Hnst : stored (selectorsByID s) id = None) by (unfold stored; by rewrite Hnone).
  assert (Hpl : placeOf sel = Some (placement map_to_list lrs)) by (unfold placeOf; by rewrite Hlrs).
  split; cbn; [done| | | |].
  - intros l v id'. rewrite Hv', Hv, stored_insert, Hpl. case_decide; [subst id'; rewrite Hnst; split|split; [by intros [?|[? _]]|by left]].
    + intros [(?&?&?)|[_ (vs&->&?)]]; [done|eauto].
    + intros (vs&[= ->]&?). right. eauto.
  - intros l id'. rewrite Hw', Hw, stored_insert, Hpl.
    case_decide; [subst id'; rewrite Hnst; split; [by intros [?|[_ ->]]|intros [= ->]; by right]|split; [by intros [?|[? _]]|by left]].
  - intros id'. rewrite Hu', Hu, stored_insert, Hpl.
    case_decide; [subst id'; rewrite Hnst; split; [by intros [?|[_ ->]]|intros [= ->]; by right]|split; [by intros [?|[? _]]|by left]].
  - intros id' sel' [[<- <-]|[_ Hl]]%lookup_insert_Some; [eauto|by eapply Hr].
Qed.

Lemma AddSelector_ok order1 order2 id sel s :
  order_ok order1 → order_ok order2 → is_Some (Node_LabelRestrictions (root sel)) → index_ok s →
  ∃ s', AddSelector order1 order2 id sel s = Ret s' ∧ index_ok s' ∧ selectorsByID s' = <[id := sel]> (selectorsByID s).
Proof.
  intros Ho1 Ho2 [lrs Hlrs] Hok. unfold AddSelector. destruct (DeleteSelector_ok order1 id s Ho1 Hok) as (s1&->&Hok1&Hs1).
  cbn [obind]. rewrite Hlrs, (placement_order order2) by done.
  assert (Hnone : selectorsByID s1 !! id = None) by (rewrite Hs1; apply lookup_delete_eq).
  assert (Hsel : <[id := sel]> (selectorsByID s1) = <[id := sel]> (selectorsByID s)) by (by rewrite Hs1, insert_delete_eq).
  pose proof (io_subs _ Hok1) as Hsub. destruct (placement map_to_list lrs) as [|l vs|l|] eqn:Hp.
  - eexists. split_and!; [done| |done]. apply (index_ok_insert s1 id sel lrs); [done|done|done|done|..]; intros; rewrite Hp; naive_solver.
  - destruct (addValues_ok l id vs (labelToValueToIDs s1) Hsub) as (Hm&Hv&Hw).
    eexists. split_and!; [done| |done]. apply (index_ok_insert s1 id sel lrs); [done|done|done|done|..]; intros; rewrite ?Hv, ?Hw, ?Hp; naive_solver.
  - destruct (addWildcard_ok l id (labelToValueToIDs s1) Hsub) as (Hm&Hv&Hw).
    eexists. split_and!; [done| |done]. apply (index_ok_insert s1 id sel lrs); [done|done|done|done|..]; intros; rewrite ?Hv, ?Hw, ?Hp; naive_solver.
  - eexists. split_and!; [done| |done]. apply (index_ok_insert s1 id sel lrs); [done|done|done|done|..]; intros; rewrite ?Hp; set_solver.
Qed.

(** ** Candidates *)
Section candidates.
Context (enumIDs : gset SelID → list SelID) (HenumIDs : ∀ x, enumIDs x ≡ₚ elements x).

Definition idsFor s (kv : string * string) : list SelID :=
  match labelToValueToIDs s !! kv.1 with
  | None => []
  | Some t => enumIDs (default ∅ (selsMatchingWildcard t)) ++ enumIDs (default ∅ (selsMatchingSpecificValues t !! kv.2))
  end.

Definition potentialIDs (labels : list (string * string)) s : list SelID :=
  concat (map (idsFor s) labels) ++ enumIDs (unoptimizedIDs s).

#[local] Set Default Proof Using "All".

Lemma enumIDs_empty : enumIDs ∅ = [].
Proof. apply Permutation_nil. symmetry. by rewrite HenumIDs, elements_empty. Qed.

Lemma elem_of_enumIDs id x : id ∈ enumIDs x ↔ id ∈ x.
Proof. by rewrite HenumIDs, elem_of_elements. Qed.

Lemma NoDup_enumIDs x : NoDup (enumIDs x).
Proof. rewrite HenumIDs. apply NoDup_elements. Qed.

Lemma AllPotentialMatches_ids labels s :
  AllPotentialMatches enumIDs labels s = map (λ id, (id, selectorsByID s !! id)) (potentialIDs labels s).
Proof.
  unfold AllPotentialMatches, potentialIDs. rewrite map_app. f_equal.
  induction labels as [|[k v] labels IH]; [done|]. cbn [map concat]. rewrite map_app, IH. f_equal. unfold idsFor. simpl.
  destruct (labelToValueToIDs s !! k) as [t|]; [|done]. rewrite map_app. f_equal; f_equal.
  - destruct (selsMatchingWildcard t); [done|]. simpl. by rewrite enumIDs_empty.
  - destruct (selsMatchingSpecificValues t !! v); [done|]. simpl. by rewrite enumIDs_empty.
Qed.

Lemma elem_of_idsFor s k v id :
  id ∈ idsFor s (k, v) ↔ in_wild (labelToValueToIDs s) k id ∨ in_value (labelToValueToIDs s) k v id.
Proof.
  unfold idsFor, in_wild, in_value. simpl. destruct (labelToValueToIDs s !! k) as [t|]; [|by rewrite elem_of_nil; tauto].
  by rewrite elem_of_app, !elem_of_enumIDs, md_in_lookup.
Qed.

Lemma idsFor_NoDup s k v : index_ok s → NoDup (idsFor s (k, v)).
Proof.
  intros Hok. pose proof (io_wild _ Hok k) as Hw. pose proof (io_values _ Hok k v) as Hv. unfold idsFor, in_wild, in_value in *. simpl.
  destruct (labelToValueToIDs s !! k) as [t|]; [|constructor]. apply list.NoDup_app. split_and!; [apply NoDup_enumIDs| |apply NoDup_enumIDs].
  intros id. rewrite !elem_of_enumIDs, <-md_in_lookup, Hw, Hv. naive_solver.
Qed.

Lemma elem_of_concat_map {A B} (f : A → list B) (l : list A) x : x ∈ concat (map f l) ↔ ∃ a, a ∈ l ∧ x ∈ f a.
Proof using Type.
  setoid_rewrite list_elem_of_In. rewrite in_concat. setoid_rewrite in_map_iff. naive_solver.
Qed.

Lemma NoDup_concat_map {A B} (f : A → list B) (l : list A) :
  NoDup l → (∀ a, a ∈ l → NoDup (f a)) → (∀ a b x, a ∈ l → b ∈ l → x ∈ f a → x ∈ f b → a = b) → NoDup (concat (map f l)).
Proof using Type.
  induction l as [|a l IH]; intros Hnd Hf Hd; cbn [map concat]; [constructor|].
  apply list.NoDup_cons in Hnd as [Ha Hnd]. apply list.NoDup_app. split_and!.
  - apply Hf. left.
  - intros x Hx (b&Hb&Hxb)%elem_of_concat_map.
    assert (a = b) as -> by (eapply Hd; eauto using list_elem_of_here, list_elem_of_further). done.
  - apply IH; [done| |]; intros; [apply Hf|eapply Hd]; try done; by right.
Qed.

Lemma potentialIDs_NoDup labels (m : gmap string string) s : index_ok s → labels ≡ₚ map_to_list m → NoDup (potentialIDs labels s).
Proof.
  intros Hok Hl. unfold potentialIDs. apply list.NoDup_app. split_and!; [| |apply NoDup_enumIDs].
  - apply NoDup_concat_map.
    + rewrite Hl. apply NoDup_map_to_list.
    + intros [k v] _. by apply idsFor_NoDup.
    + intros [k1 v1] [k2 v2] id Hin1 Hin2. rewrite !elem_of_idsFor, !(io_wild _ Hok), !(io_values _ Hok). intros Hx1 Hx2.
      assert (k1 = k2) as <- by naive_solver. rewrite Hl, elem_of_map_to_list in Hin1, Hin2. congruence.
  - intros id ([k v]&_&Hxy)%elem_of_concat_map.
    rewrite elem_of_enumIDs, (io_unopt _ Hok). apply elem_of_idsFor in Hxy. rewrite (io_wild _ Hok), (io_values _ Hok) in Hxy. naive_solver.
Qed.

Lemma potentialIDs_complete labels (m : gmap string string) s id sel :
  index_ok s → labels ≡ₚ map_to_list m → selectorsByID s !! id = Some sel → Evaluate (root sel) m = true →
  id ∈ potentialIDs labels s.
Proof.
  intros Hok Hl Hsel Hev. destruct (io_restrictions _ Hok id sel Hsel) as [lrs Hlrs].
  pose proof (stored_Some s id sel lrs Hsel Hlrs) as Hst. pose proof (placement_sound (root sel) lrs m Hlrs Hev) as Hp.
  unfold potentialIDs. rewrite elem_of_app, elem_of_concat_map, elem_of_enumIDs, (io_unopt _ Hok), Hst.
  assert (Hlab : ∀ k v, m !! k = Some v → in_wild (labelToValueToIDs s) k id ∨ in_value (labelToValueToIDs s) k v id →
    ∃ kv, kv ∈ labels ∧ id ∈ idsFor s kv).
  { intros k v Hk Hin. exists (k, v). split; [by rewrite Hl, elem_of_map_to_list|by apply elem_of_idsFor]. }
  destruct (placement map_to_list lrs) as [|l vs|l|]; [done| | |by right]; left.
  - destruct Hp as (v&Hv&Hin). apply (Hlab l v Hv). right. rewrite (io_values _ Hok), Hst. eauto.
  - destruct Hp as [v Hv]. apply (Hlab l v Hv). left. by rewrite (io_wild _ Hok), Hst.
Qed.

Lemma potentialIDs_known labels s id : index_ok s → id ∈ potentialIDs labels s → is_Some (selectorsByID s !! id).
Proof.
  intros Hok. assert (Hst : ∀ pl, stored (selectorsByID s) id = Some pl → is_Some (selectorsByID s !! id)).
  { unfold stored. intros pl. destruct (selectorsByID s !! id); [eauto|done]. }
  unfold potentialIDs. rewrite elem_of_app, elem_of_concat_map, elem_of_enumIDs, (io_unopt _ Hok).
  intros [([k v]&_&Hin)|Hu]; [|eauto].
  apply elem_of_idsFor in Hin. rewrite (io_wild _ Hok), (io_values _ Hok) in Hin. naive_solver.
Qed.
End candidates.

(** ** Histories *)
Inductive RestrictionOp :=
  | RAdd (orderOld orderNew : mapOrder) (id : SelID) (sel : Selector)
  | RDelete (order : mapOrder) (id : SelID).

Definition restriction_step (op : RestrictionOp) s : outcome Empty_set Index :=
  match op with
  | RAdd orderOld orderNew id sel => AddSelector orderOld orderNew id sel s
  | RDelete order id => DeleteSelector order id s
  end.

Fixpoint restriction_run (ops : list RestrictionOp) s : outcome Empty_set Index :=
  match ops with
  | [] => Ret s
  | op :: ops' => let! s' := restriction_step op s in restriction_run ops' s'
  end.

Definition selectors_step (sels : gmap SelID Selector) (op : RestrictionOp) : gmap SelID Selector :=
  match op with RAdd _ _ id sel => <[id := sel]> sels | RDelete _ id => delete id sels end.

(** Any order of iteration; selectors that came out of the parser. *)
Definition restriction_op_ok (op : RestrictionOp) : Prop :=
  match op with
  | RAdd o1 o2 id sel => order_ok o1 ∧ order_ok o2 ∧ node_wf (root sel)
  | RDelete o id => order_ok o
  end.

Lemma restriction_run_ok ops s :
  Forall restriction_op_ok ops → index_ok s →
  ∃ s', restriction_run ops s = Ret s' ∧ index_ok s' ∧ selectorsByID s' = foldl selectors_step (selectorsByID s) ops.
Proof.
  revert s. induction ops as [|op ops IH]; intros s Hops Hok; cbn [restriction_run foldl]; [by exists s|].
  apply list.Forall_cons in Hops as [Hop Hops].
  assert (∃ s1, restriction_step op s = Ret s1 ∧ index_ok s1 ∧ selectorsByID s1 = selectors_step (selectorsByID s) op)
    as (s1&->&Hok1&Hs1).
  { destruct op as [o1 o2 id sel|o id]; cbn in *; [|by apply DeleteSelector_ok].
    destruct Hop as (Ho1&Ho2&Hwf). apply AddSelector_ok; try done. by apply Node_LabelRestrictions_wf. }
  cbn [obind]. destruct (IH s1 Hops Hok1) as (s'&->&Hok'&Hs'). exists s'. by rewrite Hs', Hs1.
Qed.
End index.

(** C20: after any history of additions, replacements and deletions, each ranging over Go
    maps in an order of its own, the index does not panic, and for an item with labels [m]
    it yields each candidate once, only selectors that are in the index, and every
    selector of the index that matches the item; when all selectors are deleted nothing
    is left in the index. *)
Theorem restriction_index_complete `{Countable SelID} (ops : list (RestrictionOp (SelID := SelID)))
    (enumIDs : gset SelID → list SelID) (m : gmap string string) (labels : list (string * string)) :
  Forall restriction_op_ok ops → (∀ x, enumIDs x ≡ₚ elements x) → labels ≡ₚ map_to_list m →
  ∃ s, restriction_run ops New = Ret s ∧
    let sels := foldl selectors_step ∅ ops in
    let candidates := AllPotentialMatches enumIDs labels s in
    NoDup (fst <$> candidates) ∧
    (∀ id o, (id, o) ∈ candidates → ∃ sel, o = Some sel ∧ sels !! id = Some sel) ∧
    (∀ id sel, sels !! id = Some sel → Evaluate (root sel) m = true → (id, Some sel) ∈ candidates) ∧
    (sels = ∅ → s = New).
Proof.
  intros Hops He Hl. destruct (restriction_run_ok ops New Hops index_ok_New) as (s&Hrun&Hok&Hsel). exists s. split; [done|].
  cbn [selectorsByID New] in Hsel. cbv zeta. rewrite <-Hsel, AllPotentialMatches_ids by done.
  change (map ?f ?l) with (f <$> l). split_and!.
  - rewrite <-list_fmap_compose. change (compose _ _) with (λ id : SelID, id). rewrite list_fmap_id.
    by eapply potentialIDs_NoDup.
  - intros id o (id'&Heq&Hin)%list_elem_of_fmap. simplify_eq. destruct (potentialIDs_known enumIDs He _ _ _ Hok Hin) as [sel Hs].
    by exists sel.
  - intros id sel Hs Hev. apply list_elem_of_fmap. exists id. rewrite Hs. split; [done|]. by eapply potentialIDs_complete.
  - intros Hempty.
    assert (Hno : ∀ id pl, stored (selectorsByID s) id = Some pl → False) by (intros id pl; unfold stored; by rewrite Hempty).
    destruct s as [sels subs U]. cbn in *. subst sels. unfold New. f_equal; [done| |].
    + apply map_empty. intros l. destruct (subs !! l) as [t|] eqn:Ht; [|done]. exfalso.
      destruct (io_subs _ Hok l t Ht) as [Htok Hte]. apply not_true_iff_false in Hte. apply Hte, sub_Empty_spec; [done|]. split.
      * intros v id Hin. assert (Hv : in_value subs l v id) by (unfold in_value; by rewrite Ht).
        apply (io_values _ Hok) in Hv as (vs&Hst&_). by apply Hno in Hst.
      * intros id Hin. assert (Hw : in_wild subs l id) by (unfold in_wild; by rewrite Ht).
        apply (io_wild _ Hok) in Hw. by apply Hno in Hw.
    + apply set_eq. intros id. split; [|by intros ?%not_elem_of_empty]. intros Hu%(io_unopt _ Hok). by apply Hno in Hu.
Qed.

Definition reverseOrder : mapOrder := λ lrs, reverse (map_to_list lrs).

Lemma reverseOrder_ok : order_ok reverseOrder.
Proof. intros lrs. apply reverse_Permutation. Qed.

Definition restrictionExample : list (RestrictionOp (SelID := nat)) :=
  let sel := MkSelector (LabelInSetNode "role" (Some ["db"; "web"])) "" "" in
  [RAdd reverseOrder map_to_list 1 sel; RAdd reverseOrder reverseOrder 1 sel;
   RAdd reverseOrder reverseOrder 2 (MkSelector (HasNode "x") "" ""); RDelete reverseOrder 2].

Lemma restrictionExample_ok : Forall restriction_op_ok restrictionExample.
Proof.
  repeat constructor; try apply reverseOrder_ok; try (intros lrs; reflexivity); vm_compute; auto; discriminate.
Qed.

Lemma restriction_index_complete_witness :
  let sel := MkSelector (LabelInSetNode "role" (Some ["db"; "web"])) "" "" in
  ∃ s, restriction_run restrictionExample New = Ret s ∧
    (1, Some sel) ∈ AllPotentialMatches elements [("a", "b"); ("role", "web")] s.
Proof.
  cbv zeta. destruct (restriction_index_complete restrictionExample elements {["a" := "b"; "role" := "web"]}
    [("a", "b"); ("role", "web")] restrictionExample_ok) as (s & Hrun & _ & _ & Hc & _).
  - intros x. reflexivity.
  - vm_compute. reflexivity.
  - exists s. split; [exact Hrun|]. apply Hc; vm_compute; reflexivity.
Defined.
