(* ===== verification/AdaptiveSet.v ===== *)
(** * Adaptive sets: [libcalico-go/lib/set/adaptive.go] and [union.go]

    An [Adaptive] set is a size and an untyped pointer: to nothing, to an array whose
    capacity is determined by the size, or to a map.  The array is never described by a
    slice header: its length and capacity are recomputed from the size on every access,
    with [unsafe.Slice].  [backing] is what the pointer really points to; an access that
    reads it as something else, or past the end of the array, is undefined in Go and is
    [Panic] here.  Slots of the array that are not in use should hold the zero value. *)
From S2P Require Import Prelude.
From stdpp Require Import base list gmap numbers sorting.
From stdpp Require Import options.

Definition adaptiveSetArrayLimit : Z := 16.
Definition sizeStoredInMap : Z := -1.
Definition arrCapForSize : list nat := [0; 1; 2; 4; 4; 8; 8; 8; 8; 16; 16; 16; 16; 16; 16; 16; 16].

(** Indexing the array with a Go [int]. *)
Definition capForSize (n : Z) : outcome Empty_set nat :=
  if (n <? 0)%Z then Panic else index arrCapForSize (Z.to_nat n).

Section adaptive.
Context `{Countable T} (zeroT : T).
(** The order in which Go ranges over a map. *)
Context (enumMap : gset T → list T).

Inductive backing :=
  | NilPtr
  | ArrayPtr (arr : list T)
  | MapPtr (m : gset T).

Record Adaptive := MkAdaptive { a_size : Z; a_p : backing }.

Definition NewAdaptive : Adaptive := MkAdaptive 0 NilPtr.

(** The slice: its elements, and the backing array with the capacity. *)
Definition loadSliceFromPointer (a : Adaptive) : outcome Empty_set (list T * list T) :=
  if ((a_size a <? 1) || (adaptiveSetArrayLimit <? a_size a))%Z then Panic
  else
    let! cap := capForSize (a_size a) in
    match a_p a with
    | ArrayPtr arr => if decide (cap ≤ length arr) then Ret (take (Z.to_nat (a_size a)) arr, take cap arr) else Panic
    | _ => Panic
    end.

Definition loadMapFromPointer (a : Adaptive) : outcome Empty_set (gset T) :=
  if decide (a_size a ≠ sizeStoredInMap) then Panic
  else match a_p a with MapPtr m => Ret m | _ => Panic end.

Definition Len (a : Adaptive) : outcome Empty_set Z :=
  if decide (a_size a = sizeStoredInMap)
  then match a_p a with MapPtr m => Ret (Z.of_nat (size m)) | _ => Panic end
  else Ret (a_size a).

(** [make([]T, len(in), newCap)] and a copy. *)
Definition growSliceCap (s : list T) (newCap : nat) : list T := s ++ replicate (newCap - length s) zeroT.

(** [append] writes in place when there is room; otherwise it makes a new array, which
    nothing points to here. *)
Definition appendInPlace (s arr : list T) (item : T) : list T :=
  if decide (length s < length arr) then <[length s := item]> arr else arr.

Definition Add (item : T) (a : Adaptive) : outcome Empty_set Adaptive :=
  if decide (a_size a = 0)%Z then Ret (MkAdaptive 1 (ArrayPtr [item]))
  else if decide (a_size a = sizeStoredInMap) then
    let! m := loadMapFromPointer a in Ret (MkAdaptive (a_size a) (MapPtr ({[item]} ∪ m)))
  else
    let! (tSlice, arr) := loadSliceFromPointer a in
    if decide (item ∈ tSlice) then Ret a
    else if (a_size a <? adaptiveSetArrayLimit)%Z then
      let! arr' := (if decide (length tSlice = length arr)
                    then let! newCap := capForSize (a_size a + 1) in Ret (growSliceCap tSlice newCap)
                    else Ret arr) in
      Ret (MkAdaptive (a_size a + 1) (ArrayPtr (appendInPlace tSlice arr' item)))
    else Ret (MkAdaptive sizeStoredInMap (MapPtr ({[item]} ∪ list_to_set tSlice))).

(** [slices.Index], as the loop of [Discard] finds it. *)
Fixpoint indexOf (item : T) (s : list T) : option nat :=
  match s with
  | [] => None
  | t :: s' => if decide (t = item) then Some 0 else S <$> indexOf item s'
  end.

Definition discardFromArray (item : T) (tSlice arr : list T) (a : Adaptive) : outcome Empty_set Adaptive :=
  match indexOf item tSlice with
  | None => Ret a
  | Some i =>
      let newSize := (a_size a - 1)%Z in
      let! newCap := capForSize newSize in
      if decide (newCap < length arr) then
        (* make([]T, newSize, newCap); &updatedSlice[0] panics when it is empty *)
        let updated := take i tSlice ++ drop (S i) tSlice in
        if decide (updated = []) then Panic
        else Ret (MkAdaptive newSize (ArrayPtr (updated ++ replicate (newCap - length updated) zeroT)))
      else
        let! last := index arr (Z.to_nat newSize) in
        Ret (MkAdaptive newSize (ArrayPtr (<[Z.to_nat newSize := zeroT]> (<[i := last]> arr))))
  end.

Definition Discard (item : T) (a : Adaptive) : outcome Empty_set Adaptive :=
  if decide (a_size a = 0)%Z then Ret a
  else if decide (a_size a = 1)%Z then
    match a_p a with
    | ArrayPtr (theOne :: _) => Ret (if decide (theOne = item) then MkAdaptive 0 NilPtr else a)
    | _ => Panic
    end
  else if decide (a_size a = sizeStoredInMap) then
    let! m0 := loadMapFromPointer a in
    let m := m0 ∖ {[item]} in
    if (Z.of_nat (size m) <=? adaptiveSetArrayLimit)%Z then
      let! cap := capForSize (Z.of_nat (size m)) in
      let s := enumMap m in
      match s with
      | [] => Panic
      | _ => Ret (MkAdaptive (Z.of_nat (size m)) (ArrayPtr (s ++ replicate (cap - length s) zeroT)))
      end
    else Ret (MkAdaptive (a_size a) (MapPtr m))
  else
    let! (tSlice, arr) := loadSliceFromPointer a in
    discardFromArray item tSlice arr a.

Definition Clear (a : Adaptive) : Adaptive := MkAdaptive 0 NilPtr.

Definition Contains (t : T) (a : Adaptive) : outcome Empty_set bool :=
  if decide (a_size a = 0)%Z then Ret false
  else if decide (a_size a = sizeStoredInMap) then
    let! m := loadMapFromPointer a in Ret (bool_decide (t ∈ m))
  else
    let! (tSlice, _) := loadSliceFromPointer a in Ret (bool_decide (t ∈ tSlice)).

(** The items that [All] yields to a consumer that does not stop; the array is copied
    first, so the consumer may discard from the set. *)
Definition All (a : Adaptive) : outcome Empty_set (list T) :=
  if decide (a_size a = 0)%Z then Ret []
  else if decide (a_size a = sizeStoredInMap) then
    let! m := loadMapFromPointer a in Ret (enumMap m)
  else
    let! (tSlice, _) := loadSliceFromPointer a in
    Ret (take (Z.to_nat (a_size a)) (take (Z.to_nat adaptiveSetArrayLimit) tSlice)).

Fixpoint AddAll (items : list T) (a : Adaptive) : outcome Empty_set Adaptive :=
  match items with
  | [] => Ret a
  | v :: items' => let! a' := Add v a in AddAll items' a'
  end.

Definition AdaptiveFromArray (items : list T) : outcome Empty_set Adaptive := AddAll items NewAdaptive.

Definition Copy (a : Adaptive) : outcome Empty_set Adaptive := let! items := All a in AddAll items NewAdaptive.

Definition Slice (a : Adaptive) : outcome Empty_set (list T) := All a.

(** [Iter]: the callback says what to do with an item; the state of the callback is [A]. *)
Inductive IterResult := IterContinue | IterStop | IterRemove.

Fixpoint iterItems {A} (f : A → T → A * IterResult) (items : list T) (acc : A) (a : Adaptive) : outcome Empty_set (A * Adaptive) :=
  match items with
  | [] => Ret (acc, a)
  | v :: items' =>
      match f acc v with
      | (acc', IterStop) => Ret (acc', a)
      | (acc', IterRemove) => let! a' := Discard v a in iterItems f items' acc' a'
      | (acc', IterContinue) => iterItems f items' acc' a
      end
  end.

Definition Iter {A} (f : A → T → A * IterResult) (acc : A) (a : Adaptive) : outcome Empty_set (A * Adaptive) :=
  let! items := All a in iterItems f items acc a.

(** [ContainsAll] and [Equals], with another adaptive set. *)
Fixpoint containsEach (contains : T → outcome Empty_set bool) (items : list T) : outcome Empty_set bool :=
  match items with
  | [] => Ret true
  | t :: items' => let! b := contains t in if (b : bool) then containsEach contains items' else Ret false
  end.

Definition ContainsAll (a s : Adaptive) : outcome Empty_set bool :=
  let! ls := Len s in
  let! la := Len a in
  if (la <? ls)%Z then Ret false else let! items := All s in containsEach (λ t, Contains t a) items.

Definition Equals (a s : Adaptive) : outcome Empty_set bool :=
  let! la := Len a in
  let! ls := Len s in
  if decide (la ≠ ls) then Ret false else let! items := All a in containsEach (λ t, Contains t s) items.

(** ** The set that an adaptive set represents, and its representation invariant *)
Definition elems (a : Adaptive) : gset T :=
  match a_p a with
  | NilPtr => ∅
  | ArrayPtr arr => list_to_set (take (Z.to_nat (a_size a)) arr)
  | MapPtr m => m
  end.

Record array_ok (n : nat) (arr : list T) : Prop := {
  ao_lower : 1 ≤ n;
  ao_upper : n ≤ 16;
  ao_cap : arrCapForSize !! n = Some (length arr);
  ao_nodup : NoDup (take n arr);
  ao_zero : Forall (λ t, t = zeroT) (drop n arr)
}.

Definition adaptive_ok (a : Adaptive) : Prop :=
  match a_p a with
  | NilPtr => a_size a = 0%Z
  | ArrayPtr arr => ∃ n, a_size a = Z.of_nat n ∧ array_ok n arr
  | MapPtr m => a_size a = sizeStoredInMap ∧ 17 ≤ size m
  end.

Lemma cap_bounds n c : arrCapForSize !! n = Some c → n ≤ c ∧ n ≤ 16 ∧ c ≤ 16.
Proof using Type. intros Hc. do 17 (destruct n as [|n]; [cbn in Hc; injection Hc as <-; lia|]). done. Qed.

Lemma capForSize_nat n : capForSize (Z.of_nat n) = match arrCapForSize !! n with Some c => Ret c | None => Panic end.
Proof using Type. unfold capForSize, index. destruct (Z.ltb_spec (Z.of_nat n) 0); [lia|]. by rewrite Nat2Z.id. Qed.

Lemma array_ok_length n arr : array_ok n arr → n ≤ length arr.
Proof using Type. intros Hok. by apply (cap_bounds n), (ao_cap _ _ Hok). Qed.

Lemma loadSlice_ok n arr a :
  a_size a = Z.of_nat n → a_p a = ArrayPtr arr → array_ok n arr → loadSliceFromPointer a = Ret (take n arr, arr).
Proof using Type.
  intros Hs Hp Hok. unfold loadSliceFromPointer. rewrite Hs, Hp, capForSize_nat, (ao_cap _ _ Hok).
  pose proof (ao_lower _ _ Hok). pose proof (ao_upper _ _ Hok). unfold adaptiveSetArrayLimit.
  destruct (Z.ltb_spec (Z.of_nat n) 1); [lia|]. destruct (Z.ltb_spec 16 (Z.of_nat n)); [lia|]. cbn [orb obind].
  rewrite decide_True by lia. by rewrite Nat2Z.id, (take_ge arr (length arr)) by lia.
Qed.

Lemma elems_array n arr : elems (MkAdaptive (Z.of_nat n) (ArrayPtr arr)) = list_to_set (take n arr).
Proof using Type. unfold elems. cbn. by rewrite Nat2Z.id. Qed.

(** An array that holds the elements of a slice, with zeroes after them. *)
Lemma array_ok_fill (s : list T) c :
  1 ≤ length s → length s ≤ 16 → NoDup s → arrCapForSize !! length s = Some c →
  array_ok (length s) (s ++ replicate (c - length s) zeroT) ∧ take (length s) (s ++ replicate (c - length s) zeroT) = s.
Proof using Type.
  intros H1 H2 Hnd Hc. assert (Ht : take (length s) (s ++ replicate (c - length s) zeroT) = s) by apply take_app_length.
  pose proof (cap_bounds _ _ Hc). split; [|done]. split; [done|done| |by rewrite Ht|].
  - rewrite length_app, length_replicate, Hc. f_equal. lia.
  - rewrite drop_app_length. by apply Forall_replicate.
Qed.

Lemma Len_ok a : adaptive_ok a → Len a = Ret (Z.of_nat (size (elems a))).
Proof using Type.
  unfold adaptive_ok, Len, elems. destruct a as [n [|arr|m]]; cbn.
  - intros ->. by rewrite decide_False.
  - intros (k&->&Hok). rewrite decide_False by (unfold sizeStoredInMap; lia). rewrite Nat2Z.id, size_list_to_set by apply Hok.
    rewrite length_take_le by (by apply array_ok_length). done.
  - intros [-> _]. by rewrite decide_True.
Qed.

Lemma Contains_ok t a : adaptive_ok a → Contains t a = Ret (bool_decide (t ∈ elems a)).
Proof using Type.
  unfold adaptive_ok, Contains, elems. destruct a as [n [|arr|m]]; cbn [a_p a_size].
  - intros ->. by rewrite decide_True.
  - intros (k&->&Hok). pose proof (ao_lower _ _ Hok). rewrite decide_False by lia.
    rewrite decide_False by (unfold sizeStoredInMap; lia). rewrite (loadSlice_ok k arr) by done. cbn [obind].
    rewrite Nat2Z.id. f_equal. apply bool_decide_ext. by rewrite elem_of_list_to_set.
  - intros [-> _]. by rewrite decide_False, decide_True.
Qed.

(** The array of a set is its slice [s] and zeroes up to the capacity for its length. *)
Definition filled (s : list T) (c : nat) : list T := s ++ replicate (c - length s) zeroT.

Lemma array_ok_inv n arr :
  array_ok n arr →
  ∃ s c, n = length s ∧ arr = filled s c ∧ take n arr = s ∧ length arr = c ∧
         arrCapForSize !! length s = Some c ∧ 1 ≤ length s ∧ length s ≤ 16 ∧ NoDup s.
Proof using Type.
  intros Hok. pose proof (array_ok_length _ _ Hok) as Hlen. destruct Hok as [H1 H2 Hcap Hnd Hz].
  exists (take n arr), (length arr). rewrite length_take_le by done.
  split_and!; try done. unfold filled. rewrite length_take_le by done. rewrite <- (take_drop n arr) at 1. f_equal.
  apply list_eq. intros i.
  destruct (decide (i < length arr - n)) as [Hi|Hi].
  - rewrite lookup_replicate_2 by done. destruct (lookup_lt_is_Some_2 (drop n arr) i) as [x Hx]; [rewrite length_drop; lia|].
    rewrite Hx. f_equal. by apply (Forall_lookup_1 _ _ _ _ Hz Hx).
  - rewrite !lookup_ge_None_2; [done|rewrite length_replicate; lia|rewrite length_drop; lia].
Qed.

Lemma adaptive_ok_filled s c :
  1 ≤ length s → NoDup s → arrCapForSize !! length s = Some c →
  adaptive_ok (MkAdaptive (Z.of_nat (length s)) (ArrayPtr (filled s c))) ∧
  elems (MkAdaptive (Z.of_nat (length s)) (ArrayPtr (filled s c))) = list_to_set s.
Proof using Type.
  intros H1 Hnd Hc. pose proof (cap_bounds _ _ Hc) as (?&?&?). destruct (array_ok_fill s c) as [Hok Ht]; [done..|].
  rewrite elems_array. unfold filled. rewrite Ht. split; [|done]. by exists (length s).
Qed.

Lemma length_filled s c : arrCapForSize !! length s = Some c → length (filled s c) = c.
Proof using Type. intros Hc. apply cap_bounds in Hc. unfold filled. rewrite length_app, length_replicate. lia. Qed.

Lemma loadSlice_filled s c :
  1 ≤ length s → NoDup s → arrCapForSize !! length s = Some c →
  loadSliceFromPointer (MkAdaptive (Z.of_nat (length s)) (ArrayPtr (filled s c))) = Ret (s, filled s c).
Proof using Type.
  intros H1 Hnd Hc. pose proof (cap_bounds _ _ Hc) as (?&?&?). destruct (array_ok_fill s c) as [Hok Ht]; [done..|].
  rewrite (loadSlice_ok (length s) (filled s c)) by done. unfold filled at 1. by rewrite Ht.
Qed.

(** The capacity stays when there is room, and the array has to grow when there is none. *)
Lemma cap_next n c :
  arrCapForSize !! n = Some c → n < 16 →
  ∃ c', arrCapForSize !! S n = Some c' ∧ n < c' ∧ (n ≠ c → c' = c).
Proof using Type.
  intros Hc Hn. do 16 (destruct n as [|n]; [cbn in Hc; injection Hc as <-; eexists; split; [reflexivity|lia]|]). lia.
Qed.

Lemma append_filled s c item :
  length s < c → appendInPlace s (filled s c) item = filled (s ++ [item]) c.
Proof using Type.
  intros Hc. unfold appendInPlace, filled. rewrite length_app, length_replicate, decide_True by lia.
  rewrite insert_app_r_alt by lia. rewrite Nat.sub_diag, length_app. cbn [length].
  replace (c - length s) with (S (c - (length s + 1))) by lia. cbn. by rewrite <- app_assoc.
Qed.

Lemma Add_array_ok item s c :
  1 ≤ length s → NoDup s → arrCapForSize !! length s = Some c →
  ∃ a', Add item (MkAdaptive (Z.of_nat (length s)) (ArrayPtr (filled s c))) = Ret a' ∧ adaptive_ok a' ∧ elems a' = {[item]} ∪ list_to_set s.
Proof using Type.
  intros H1 Hnd Hc. pose proof (cap_bounds _ _ Hc) as (?&?&?).
  destruct (adaptive_ok_filled s c) as [Hok' He]; [done..|].
  unfold Add. cbn [a_size]. rewrite !decide_False by (unfold sizeStoredInMap; lia).
  rewrite loadSlice_filled by done. cbn [obind].
  destruct (decide (item ∈ s)) as [Hin|Hin].
  { eexists; split_and!; [done|done|]. rewrite He. set_solver. }
  unfold adaptiveSetArrayLimit. destruct (Z.ltb_spec (Z.of_nat (length s)) 16) as [Hlt|Hge].
  - destruct (cap_next _ _ Hc) as (c'&Hc'&Hroom&Hsame); [lia|]. rewrite (length_filled s c Hc).
    assert (Hset : (if decide (length s = c) then let! newCap := capForSize (Z.of_nat (length s) + 1) in Ret (growSliceCap s newCap)
                    else Ret (filled s c)) = Ret (E := Empty_set) (filled s c')).
    { case_decide; [|by rewrite Hsame]. replace (Z.of_nat (length s) + 1)%Z with (Z.of_nat (S (length s))) by lia.
      by rewrite capForSize_nat, Hc'. }
    rewrite Hset. cbn [obind]. rewrite append_filled by done.
    replace (Z.of_nat (length s) + 1)%Z with (Z.of_nat (length (s ++ [item]))) by (rewrite length_app; cbn; lia).
    destruct (adaptive_ok_filled (s ++ [item]) c') as [Hok2 He2].
    { rewrite length_app; lia. } { apply list.NoDup_app; split_and!; [done|set_solver|apply NoDup_singleton]. }
    { rewrite length_app; cbn. by rewrite Nat.add_1_r. }
    eexists; split_and!; [done|done|]. rewrite He2. rewrite list_to_set_app_L. set_solver.
  - eexists; split_and!; [done| |done]. unfold adaptive_ok. cbn. split; [done|].
    rewrite size_union by set_solver. rewrite size_singleton, size_list_to_set by done. lia.
Qed.

Lemma Add_ok item a : adaptive_ok a → ∃ a', Add item a = Ret a' ∧ adaptive_ok a' ∧ elems a' = {[item]} ∪ elems a.
Proof using Type.
  clear enumMap. destruct a as [n [|arr|m]]; unfold adaptive_ok; cbn [a_p a_size].
  - intros ->. unfold Add. cbn [a_size]. rewrite decide_True by done.
    destruct (adaptive_ok_filled [item] 1) as [Hok He]; [cbn; lia|apply NoDup_singleton|done|].
    eexists; split_and!; [done|exact Hok|]. etrans; [exact He|]. set_solver.
  - intros (k&->&Hok). rewrite elems_array. destruct (array_ok_inv _ _ Hok) as (s&c&->&->&Ht&Hl&Hc&H1&H2&Hnd).
    rewrite Ht. by apply Add_array_ok.
  - intros [-> Hs]. exists (MkAdaptive sizeStoredInMap (MapPtr ({[item]} ∪ m))). split_and!; [done| |done]. cbn.
    split; [done|]. etrans; [exact Hs|]. apply subseteq_size. set_solver.
Qed.

Lemma indexOf_None item s : indexOf item s = None → item ∉ s.
Proof using Type.
  induction s as [|t s IH]; cbn; [set_solver|]. case_decide; [done|]. destruct (indexOf item s); [done|]. set_solver.
Qed.

Lemma indexOf_Some item s i : indexOf item s = Some i → ∃ s1 s2, s = s1 ++ item :: s2 ∧ i = length s1.
Proof using Type.
  revert i. induction s as [|t s IH]; intros i; cbn; [done|]. case_decide as Ht.
  - intros [= <-]. subst. by exists [], s.
  - destruct (indexOf item s) as [j|]; [|done]. cbn. intros [= <-]. destruct (IH j) as (s1&s2&->&->); [done|].
    by exists (t :: s1), s2.
Qed.

Lemma removed_perm item s s' :
  NoDup s → s ≡ₚ item :: s' → NoDup s' ∧ length s = S (length s') ∧ (list_to_set s' : gset T) = list_to_set s ∖ {[item]}.
Proof using Type.
  intros Hnd Hp. pose proof Hnd as Hnd'. rewrite Hp in Hnd'. apply list.NoDup_cons in Hnd' as [Hni Hnd']. split_and!; [done| |].
  - by rewrite Hp.
  - apply set_eq. intros x. rewrite elem_of_difference, !elem_of_list_to_set, elem_of_singleton, Hp. set_solver.
Qed.

(** Removal by moving the last element into the slot. *)
Lemma swap_remove item s1 s2 last rest :
  s1 ++ item :: s2 = rest ++ [last] →
  ∃ s', s1 ++ item :: s2 ≡ₚ item :: s' ∧ length s' = length rest ∧
        <[length rest := zeroT]> (<[length s1 := last]> (rest ++ [last])) = s' ++ [zeroT].
Proof using Type.
  destruct s2 as [|x s2 _] using rev_ind.
  - intros [-> [= ->]]%app_inj_tail. exists rest. split_and!; [|done|].
    + by rewrite Permutation_app_comm.
    + rewrite insert_app_r_alt, Nat.sub_diag by lia. cbn. by rewrite insert_app_r_alt, Nat.sub_diag by lia.
  - rewrite app_comm_cons, app_assoc. intros [<- ->]%app_inj_tail. exists (s1 ++ last :: s2). split_and!.
    + rewrite <- (Permutation_middle s1 s2 last), <- (Permutation_middle s1 s2 item).
      cbn. apply perm_skip. by rewrite (Permutation_app_comm _ [last]).
    + by rewrite !length_app.
    + rewrite <- !app_assoc. rewrite insert_app_r_alt, Nat.sub_diag by lia. cbn.
      rewrite insert_app_r_alt by (rewrite length_app; lia). rewrite length_app. cbn [length].
      replace (length s1 + S (length s2) - length s1) with (S (length s2)) by lia. cbn. f_equal. f_equal.
      etrans; [by apply (insert_app_r_alt s2 [last] (length s2))|]. by rewrite Nat.sub_diag.
Qed.

Lemma discardFromArray_ok item s c :
  2 ≤ length s → NoDup s → arrCapForSize !! length s = Some c → item ∈ s →
  ∃ s' c', discardFromArray item s (filled s c) (MkAdaptive (Z.of_nat (length s)) (ArrayPtr (filled s c)))
           = Ret (MkAdaptive (Z.of_nat (length s')) (ArrayPtr (filled s' c'))) ∧
           s ≡ₚ item :: s' ∧ arrCapForSize !! length s' = Some c'.
Proof using Type.
  intros H2 Hnd Hc Hin. pose proof (cap_bounds _ _ Hc) as (?&?&?). unfold discardFromArray.
  destruct (indexOf item s) as [i|] eqn:Hi; [|by apply indexOf_None in Hi].
  apply indexOf_Some in Hi as (s1&s2&Hs&->). cbn [a_size].
  assert (Hn : length s = S (length (s1 ++ s2))) by (rewrite Hs, !length_app; cbn; lia).
  replace (Z.of_nat (length s) - 1)%Z with (Z.of_nat (length (s1 ++ s2))) by lia.
  destruct (lookup_lt_is_Some_2 arrCapForSize (length (s1 ++ s2))) as [c' Hc']; [cbn; lia|].
  rewrite capForSize_nat, Hc'. cbn [obind]. rewrite length_filled by done. rewrite Nat2Z.id.
  destruct (decide (c' < c)) as [Hlt|Hge].
  - exists (s1 ++ s2), c'. assert (Hu : take (length s1) s ++ drop (S (length s1)) s = s1 ++ s2).
    { rewrite Hs. rewrite take_app_length. rewrite drop_app_ge by lia.
      by replace (S (length s1) - length s1) with 1 by lia. }
    rewrite Hu. rewrite decide_False by (intros He; rewrite He in Hn; cbn in Hn; lia).
    split_and!; [done| |done]. rewrite Hs. by rewrite Permutation_middle.
  - assert (Hcc : c' = c).
    { destruct (cap_next _ _ Hc') as (c''&Hc''&_&Heq); [lia|]. rewrite <- Hn, Hc in Hc''. injection Hc'' as <-.
      destruct (decide (length (s1 ++ s2) = c')) as [He|]; [|symmetry; auto]. lia. }
    subst c'. destruct s as [|last rest _] using rev_ind; [cbn in Hn; lia|].
    assert (Hr : length (s1 ++ s2) = length rest) by (rewrite length_app in Hn; cbn in Hn; lia). rewrite Hr in *.
    destruct (swap_remove item s1 s2 last rest) as (s'&Hp&Hl&Hins); [done|].
    assert (Hlast : filled (rest ++ [last]) c !! length rest = Some last).
    { unfold filled. rewrite <- app_assoc. by apply list_lookup_middle. }
    unfold index. rewrite Hlast. cbn [obind]. exists s', c. rewrite Hl. split_and!; [|by rewrite Hs|done].
    f_equal. f_equal. f_equal. unfold filled. rewrite insert_app_l by (rewrite Hs, length_app; cbn; lia).
    rewrite insert_app_l by (rewrite length_insert, length_app; cbn; lia). rewrite Hins, <- app_assoc. f_equal. cbn.
    change (zeroT :: replicate ?k zeroT) with (replicate (S k) zeroT). f_equal. rewrite length_app in *. cbn in *. lia.
Qed.

Context (enumMap_perm : ∀ m, enumMap m ≡ₚ elements m).
Set Default Proof Using "All".

Lemma enumMap_ok (m : gset T) : NoDup (enumMap m) ∧ length (enumMap m) = size m ∧ (list_to_set (enumMap m) : gset T) = m.
Proof using enumMap_perm.
  rewrite (enumMap_perm m). split_and!; [apply NoDup_elements|done|].
  apply set_eq. intros x. by rewrite elem_of_list_to_set, (enumMap_perm m), elem_of_elements.
Qed.

Lemma Discard_map_ok item (m : gset T) :
  17 ≤ size m →
  ∃ a', Discard item (MkAdaptive sizeStoredInMap (MapPtr m)) = Ret a' ∧ adaptive_ok a' ∧ elems a' = m ∖ {[item]}.
Proof.
  intros Hs. unfold Discard. cbn [a_size]. rewrite (decide_False (P := sizeStoredInMap = 0%Z)) by done.
  rewrite (decide_False (P := sizeStoredInMap = 1%Z)) by done. rewrite (decide_True (P := sizeStoredInMap = sizeStoredInMap)) by done.
  change (loadMapFromPointer _) with (Ret (E := Empty_set) m). cbn [obind].
  assert (Hsize : 16 ≤ size (m ∖ {[item]})).
  { destruct (decide (item ∈ m)) as [Hin|Hni].
    - rewrite size_difference by set_solver. rewrite size_singleton. lia.
    - replace (m ∖ {[item]}) with m by set_solver. lia. }
  unfold adaptiveSetArrayLimit. destruct (Z.leb_spec (Z.of_nat (size (m ∖ {[item]}))) 16) as [Hle|Hgt].
  - replace (size (m ∖ {[item]})) with 16 by lia. change (capForSize (Z.of_nat 16)) with (Ret (E := Empty_set) 16). cbn [obind].
    destruct (enumMap_ok (m ∖ {[item]})) as (Hnd&Hlen&Hset). destruct (enumMap (m ∖ {[item]})) as [|x l] eqn:He; [cbn in Hlen; lia|].
    rewrite <- He in *. assert (Hl : length (enumMap (m ∖ {[item]})) = 16) by lia.
    destruct (adaptive_ok_filled (enumMap (m ∖ {[item]})) 16) as [Hok Hel]; [lia|done|by rewrite Hl|].
    rewrite Hl in Hok, Hel. eexists; split_and!; [done|exact Hok|]. etrans; [exact Hel|done].
  - eexists; split_and!; [done| |done]. cbn. split; [done|]. lia.
Qed.

Lemma Discard_ok item a : adaptive_ok a → ∃ a', Discard item a = Ret a' ∧ adaptive_ok a' ∧ elems a' = elems a ∖ {[item]}.
Proof.
  destruct a as [n [|arr|m]]; unfold adaptive_ok; cbn [a_p a_size].
  - intros ->. exists (MkAdaptive 0 NilPtr). split_and!; [done|done|]. unfold elems. cbn. set_solver.
  - intros (k&->&Hok). rewrite elems_array. destruct (array_ok_inv _ _ Hok) as (s&c&->&->&Ht&Hl&Hc&H1&H2&Hnd). rewrite Ht.
    destruct (adaptive_ok_filled s c) as [Hok' He]; [done..|].
    destruct (decide (length s = 1)) as [Hone|Hmany].
    + destruct s as [|t [|]]; try done. unfold Discard. cbn [a_size a_p length filled app].
      rewrite decide_False, decide_True by done. case_decide as Hti.
      * subst t. exists (MkAdaptive 0 NilPtr). split_and!; [done|done|]. unfold elems. cbn. set_solver.
      * eexists; split_and!; [done|exact Hok'|]. etrans; [exact He|]. set_solver.
    + unfold Discard. cbn [a_size]. rewrite !decide_False by (unfold sizeStoredInMap; lia).
      rewrite loadSlice_filled by done. cbn [obind]. destruct (decide (item ∈ s)) as [Hin|Hni].
      * destruct (discardFromArray_ok item s c) as (s'&c'&->&Hp&Hc'); [lia|done..|].
        destruct (removed_perm _ _ _ Hnd Hp) as (Hnd'&Hlen&Hset).
        destruct (adaptive_ok_filled s' c') as [Hok2 He2]; [lia|done..|]. eexists; split_and!; [done|done|]. by rewrite He2.
      * unfold discardFromArray. destruct (indexOf item s) as [i|] eqn:Hi.
        { apply indexOf_Some in Hi as (s1&s2&->&_). set_solver. }
        eexists; split_and!; [done|exact Hok'|]. rewrite He. set_solver.
  - intros [-> Hs]. by apply Discard_map_ok.
Qed.

Lemma All_ok a : adaptive_ok a → ∃ l, All a = Ret l ∧ NoDup l ∧ list_to_set l = elems a.
Proof.
  destruct a as [n [|arr|m]]; unfold adaptive_ok; cbn [a_p a_size].
  - intros ->. exists []. split_and!; [done|constructor|done].
  - intros (k&->&Hok). rewrite elems_array. destruct (array_ok_inv _ _ Hok) as (s&c&->&->&Ht&Hl&Hc&H1&H2&Hnd). rewrite Ht.
    unfold All. cbn [a_size]. rewrite !decide_False by (unfold sizeStoredInMap; lia). rewrite loadSlice_filled by done.
    cbn [obind]. exists s. rewrite Nat2Z.id. change (Z.to_nat adaptiveSetArrayLimit) with 16. rewrite (take_ge s 16) by lia. rewrite take_ge by lia. done.
  - intros [-> Hs]. exists (enumMap m). destruct (enumMap_ok m) as (?&?&?). done.
Qed.
End adaptive.
