(* ===== verification/GoSet.v ===== *)
(** * The set interface of [libcalico-go/lib/set]: promises and clients

    [SetOps] is the part of the interface [Set] that readers of sets use, [SetLaws] is what an
    implementation promises about it: on well-formed sets no call panics, and a set behaves as
    the finite set that it represents.  [Typed] (a Go map) and [Adaptive] are implementations.
    [IterUnion] is a client: its theorem is proved against [SetLaws]. *)
From S2P Require Import Prelude AdaptiveSet.
From stdpp Require Import base list gmap numbers sorting.
From stdpp Require Import options.

Record SetOps (S T : Type) := MkSetOps {
  set_Len : S → outcome Empty_set Z;
  set_Contains : T → S → outcome Empty_set bool;
  set_All : S → outcome Empty_set (list T)
}.
Arguments set_Len {_ _} _ _ : assert.
Arguments set_Contains {_ _} _ _ _ : assert.
Arguments set_All {_ _} _ _ : assert.

Class SetLaws {S T} `{Countable T} (ops : SetOps S T) (ok : S → Prop) (contents : S → gset T) : Prop := {
  law_Len s : ok s → set_Len ops s = Ret (Z.of_nat (size (contents s)));
  law_Contains t s : ok s → set_Contains ops t s = Ret (bool_decide (t ∈ contents s));
  law_All s : ok s → ∃ l, set_All ops s = Ret l ∧ NoDup l ∧ list_to_set l = contents s
}.

(** ** [Typed]: a Go map *)
Section typed.
Context `{Countable T} (enumMap : gset T → list T).

Definition Typed_Len (s : gset T) : Z := Z.of_nat (size s).
Definition Typed_Add (item : T) (s : gset T) : gset T := {[item]} ∪ s.
Definition Typed_Discard (item : T) (s : gset T) : gset T := s ∖ {[item]}.
Definition Typed_Contains (item : T) (s : gset T) : bool := bool_decide (item ∈ s).
Definition Typed_All (s : gset T) : list T := enumMap s.

Definition TypedOps : SetOps (gset T) T :=
  MkSetOps _ _ (λ s, Ret (Typed_Len s)) (λ t s, Ret (Typed_Contains t s)) (λ s, Ret (Typed_All s)).

Definition AdaptiveOps : SetOps (Adaptive (T := T)) T := MkSetOps _ _ Len Contains (All enumMap).

Context (enumMap_perm : ∀ m, enumMap m ≡ₚ elements m).

#[export] Instance TypedLaws : SetLaws TypedOps (λ _, True) id.
Proof using enumMap_perm.
  split; [done|done|]. intros s _. exists (enumMap s). destruct (enumMap_ok enumMap enumMap_perm s) as (?&?&?). done.
Qed.

#[export] Instance AdaptiveLaws (zeroT : T) : SetLaws AdaptiveOps (adaptive_ok zeroT) elems.
Proof using enumMap_perm.
  split; [apply Len_ok|apply Contains_ok|by apply All_ok].
Qed.
End typed.

Lemma filter_not_seen_add `{Countable T} (item : T) (seen : gset T) (items : list T) :
  item ∉ items → filter (λ t, t ∉ {[item]} ∪ seen) items = filter (λ t, t ∉ seen) items.
Proof.
  induction items as [|x items IH]; intros Hni; [done|]. rewrite !filter_cons, IH by set_solver.
  repeat case_decide; [done|set_solver..|done].
Qed.

(** ** [IterUnion] *)
Section union.
Context {S T A : Type} `{Countable T} (ops : SetOps S T).
(** [sort.Slice] with the given order; it sorts the caller's slice in place. *)
Context (sortSlice : (S → S → bool) → list S → list S).
(** The callback: [false] stops the iteration. *)
Context (f : A → T → A * bool).

(** A callback on the items of a list until it says stop; the flag says whether it did not. *)
Fixpoint iterWhile (items : list T) (acc : A) : A * bool :=
  match items with
  | [] => (acc, true)
  | t :: items' => match f acc t with (acc', true) => iterWhile items' acc' | (acc', false) => (acc', false) end
  end.

(** Is the item in one of the sets that have been scanned? *)
Fixpoint seenBefore (scanned : list S) (item : T) : outcome Empty_set bool :=
  match scanned with
  | [] => Ret false
  | s :: scanned' => let! b := set_Contains ops item s in if (b : bool) then Ret true else seenBefore scanned' item
  end.

Fixpoint unionItemsFew (scanned : list S) (items : list T) (acc : A) : outcome Empty_set (A * bool) :=
  match items with
  | [] => Ret (acc, true)
  | item :: items' =>
      let! seen := seenBefore scanned item in
      if (seen : bool) then unionItemsFew scanned items' acc
      else match f acc item with
           | (acc', true) => unionItemsFew scanned items' acc'
           | (acc', false) => Ret (acc', false)
           end
  end.

Fixpoint unionFew (scanned sets : list S) (acc : A) : outcome Empty_set A :=
  match sets with
  | [] => Ret acc
  | s1 :: sets' =>
      let! items := set_All ops s1 in
      let! (acc', continue) := unionItemsFew scanned items acc in
      if (continue : bool) then unionFew (scanned ++ [s1]) sets' acc' else Ret acc'
  end.

Fixpoint unionItemsMany (isFirst isLast : bool) (items : list T) (seen : gset T) (acc : A) : A * gset T * bool :=
  match items with
  | [] => (acc, seen, true)
  | item :: items' =>
      if negb isFirst && Typed_Contains item seen then unionItemsMany isFirst isLast items' seen acc
      else match f acc item with
           | (acc', false) => (acc', seen, false)
           | (acc', true) => unionItemsMany isFirst isLast items' (if isLast then seen else Typed_Add item seen) acc'
           end
  end.

Fixpoint unionMany (isFirst : bool) (sets : list S) (seen : gset T) (acc : A) : outcome Empty_set A :=
  match sets with
  | [] => Ret acc
  | s :: sets' =>
      let! items := set_All ops s in
      match unionItemsMany isFirst (bool_decide (sets' = [])) items seen acc with
      | (acc', seen', true) => unionMany false sets' seen' acc'
      | (acc', _, false) => Ret acc'
      end
  end.

Definition lenOf (s : S) : Z := match set_Len ops s with Ret n => n | _ => 0 end.

(** Biggest set first. *)
Definition biggerFirst (s1 s2 : S) : bool := (lenOf s2 <? lenOf s1)%Z.

Definition IterUnion (sets : list S) (acc : A) : outcome Empty_set A :=
  match sets with
  | [] => Ret acc
  | [s] => let! items := set_All ops s in Ret (iterWhile items acc).1
  | _ =>
      if decide (length sets < 5) then unionFew [] (sortSlice biggerFirst sets) acc
      else unionMany true sets ∅ acc
  end.

(** *** The enumeration that [IterUnion] walks *)
Context (ok : S → Prop) (contents : S → gset T) `{!SetLaws ops ok contents}.
Set Default Proof Using "Type".

Definition unionOf (sets : list S) : gset T := ⋃ (contents <$> sets).

Lemma elem_of_unionOf t sets : t ∈ unionOf sets ↔ ∃ s, s ∈ sets ∧ t ∈ contents s.
Proof.
  unfold unionOf. rewrite elem_of_union_list. split.
  - intros (X&(s&->&Hs)%list_elem_of_fmap&Ht). by exists s.
  - intros (s&Hs&Ht). exists (contents s). split; [|done]. apply list_elem_of_fmap. by exists s.
Qed.

Lemma iterWhile_app l1 l2 acc :
  iterWhile (l1 ++ l2) acc = if (iterWhile l1 acc).2 then iterWhile l2 (iterWhile l1 acc).1 else iterWhile l1 acc.
Proof.
  revert acc. induction l1 as [|t l1 IH]; intros acc; cbn; [done|]. destruct (f acc t) as [acc' []]; [apply IH|done].
Qed.

Lemma seenBefore_ok scanned item :
  Forall ok scanned → seenBefore scanned item = Ret (bool_decide (item ∈ unionOf scanned)).
Proof using SetLaws0.
  induction 1 as [|s scanned Hs _ IH]; cbn [seenBefore]; [done|]. rewrite law_Contains by done. cbn [obind].
  destruct (decide (item ∈ contents s)) as [Hin|Hin].
  - rewrite !bool_decide_true; [done| |done]. apply elem_of_unionOf. exists s. split; [apply list_elem_of_here|done].
  - rewrite (bool_decide_false (item ∈ contents s)), IH by done. f_equal. apply bool_decide_ext. rewrite !elem_of_unionOf. set_solver.
Qed.

Lemma unionItemsFew_ok scanned items acc :
  Forall ok scanned →
  unionItemsFew scanned items acc = Ret (iterWhile (filter (λ t, t ∉ unionOf scanned) items) acc).
Proof using SetLaws0.
  intros Hok. revert acc. induction items as [|t items IH]; intros acc; cbn [unionItemsFew]; [done|].
  rewrite seenBefore_ok by done. cbn [obind]. case_bool_decide as Hin.
  - rewrite filter_cons_False by auto. apply IH.
  - rewrite filter_cons_True by done. cbn [iterWhile]. destruct (f acc t) as [acc' []]; [apply IH|done].
Qed.

(** The walk over the remaining sets emits what the scanned ones do not have, once each. *)
Lemma unionFew_ok sets scanned acc :
  Forall ok scanned → Forall ok sets →
  ∃ l, unionFew scanned sets acc = Ret (iterWhile l acc).1 ∧ NoDup l ∧
       ∀ t, t ∈ l ↔ t ∈ unionOf sets ∧ t ∉ unionOf scanned.
Proof using SetLaws0.
  revert scanned acc. induction sets as [|s sets IH]; intros scanned acc Hsc Hok; cbn [unionFew].
  { exists []. split_and!; [done|constructor|]. intros t. unfold unionOf. set_solver. }
  apply list.Forall_cons in Hok as [Hs Hok]. destruct (law_All s Hs) as (items&->&Hnd&Hset). cbn [obind].
  rewrite unionItemsFew_ok by done. cbn [obind].
  set (l1 := filter (λ t, t ∉ unionOf scanned) items).
  destruct (IH (scanned ++ [s]) (iterWhile l1 acc).1) as (l2&Hl2&Hnd2&Hin2); [by apply Forall_app_2; [|constructor]|done|].
  assert (Hin1 : ∀ t, t ∈ l1 ↔ t ∈ contents s ∧ t ∉ unionOf scanned).
  { intros t. unfold l1. rewrite list_elem_of_filter. rewrite <- Hset, elem_of_list_to_set. tauto. }
  assert (Hsnoc : ∀ t, t ∈ unionOf (scanned ++ [s]) ↔ t ∈ unionOf scanned ∨ t ∈ contents s).
  { intros t. rewrite !elem_of_unionOf. set_solver. }
  assert (Hcons : ∀ t, t ∈ unionOf (s :: sets) ↔ t ∈ contents s ∨ t ∈ unionOf sets).
  { intros t. rewrite !elem_of_unionOf. set_solver. }
  exists (l1 ++ l2). rewrite iterWhile_app. split_and!.
  - destruct (iterWhile l1 acc) as [acc' []]; [exact Hl2|done].
  - apply list.NoDup_app. split_and!; [by apply NoDup_filter| |done].
    intros t Ht1 Ht2. apply Hin1 in Ht1 as [? _]. apply Hin2 in Ht2 as [_ Hn]. apply Hn, Hsnoc. by right.
  - intros t. rewrite elem_of_app, Hin1, Hin2, Hcons. specialize (Hsnoc t). destruct (decide (t ∈ contents s)); tauto.
Qed.

Lemma unionItemsMany_ok isFirst isLast items seen acc :
  NoDup items → (isFirst = true → list_to_set items ## seen) →
  ∃ seen', unionItemsMany isFirst isLast items seen acc =
             ((iterWhile (filter (λ t, t ∉ seen) items) acc).1, seen', (iterWhile (filter (λ t, t ∉ seen) items) acc).2) ∧
           ((iterWhile (filter (λ t, t ∉ seen) items) acc).2 = true → isLast = false → seen' = list_to_set items ∪ seen).
Proof using Type.
  clear dependent ops. clear ok contents sortSlice. revert seen acc.
  induction items as [|t items IH]; intros seen acc Hnd Hfirst; cbn [unionItemsMany].
  { exists seen. split; [done|]. intros _ _. set_solver. }
  apply list.NoDup_cons in Hnd as [Hni Hnd]. unfold Typed_Contains. case_bool_decide as Hin.
  - rewrite filter_cons_False by auto. destruct isFirst; [exfalso; set_solver|]. cbn [negb andb].
    destruct (IH seen acc) as (seen'&->&Hseen); [done..|]. exists seen'. split; [done|].
    intros H1 H2. rewrite Hseen by done. set_solver.
  - rewrite andb_false_r, filter_cons_True by done. cbn [iterWhile]. destruct (f acc t) as [acc' []]; [|by exists seen].
    destruct isLast.
    + destruct (IH seen acc') as (seen'&->&Hseen); [done|set_solver|]. exists seen'. split; [done|]. done.
    + unfold Typed_Add. destruct (IH ({[t]} ∪ seen) acc') as (seen'&->&Hseen); [done|set_solver|].
      rewrite filter_not_seen_add in * by done. exists seen'. split; [done|]. intros H1 H2. rewrite Hseen by done. set_solver.
Qed.

Lemma unionMany_ok sets isFirst seen acc :
  Forall ok sets → (isFirst = true → seen = ∅) →
  ∃ l, unionMany isFirst sets seen acc = Ret (iterWhile l acc).1 ∧ NoDup l ∧
       ∀ t, t ∈ l ↔ t ∈ unionOf sets ∧ t ∉ seen.
Proof using SetLaws0.
  clear sortSlice. revert isFirst seen acc. induction sets as [|s sets IH]; intros isFirst seen acc Hok Hfirst; cbn [unionMany].
  { exists []. split_and!; [done|constructor|]. intros t. unfold unionOf. set_solver. }
  apply list.Forall_cons in Hok as [Hs Hok]. destruct (law_All s Hs) as (items&->&Hnd&Hset). cbn [obind].
  assert (Hcons : ∀ t, t ∈ unionOf (s :: sets) ↔ t ∈ items ∨ t ∈ unionOf sets).
  { intros t. rewrite !elem_of_unionOf. rewrite <- (elem_of_list_to_set (C := gset T)), Hset. set_solver. }
  set (l1 := filter (λ t, t ∉ seen) items).
  assert (Hin1 : ∀ t, t ∈ l1 ↔ t ∈ items ∧ t ∉ seen) by (intros t; unfold l1; rewrite list_elem_of_filter; tauto).
  destruct (unionItemsMany_ok isFirst (bool_decide (sets = [])) items seen acc) as (seen'&->&Hseen); [done| |].
  { intros ->. rewrite Hfirst by done. set_solver. }
  fold l1. fold l1 in Hseen. destruct sets as [|s2 sets'].
  { exists l1. destruct (iterWhile l1 acc) as [acc' []]; cbn [fst snd unionMany]; (split_and!; [done|by apply NoDup_filter|]);
      intros t; rewrite Hin1, Hcons; unfold unionOf; set_solver. }
  destruct (IH false seen' (iterWhile l1 acc).1) as (l2&Hl2&Hnd2&Hin2); [done|done|].
  destruct (iterWhile l1 acc) as [acc' []] eqn:Hw; cbn [fst snd] in *.
  - specialize (Hseen eq_refl eq_refl). subst seen'. exists (l1 ++ l2). rewrite iterWhile_app, Hw. cbn [fst snd]. split_and!.
    + exact Hl2.
    + apply list.NoDup_app. split_and!; [by apply NoDup_filter| |done].
      intros t Ht1 Ht2. apply Hin1 in Ht1 as [? _]. apply Hin2 in Ht2 as [_ Hn]. set_solver.
    + intros t. rewrite elem_of_app, Hin1, Hin2, Hcons, elem_of_union, elem_of_list_to_set. destruct (decide (t ∈ items)); tauto.
  - destruct (IH false (list_to_set items ∪ seen) acc') as (l3&_&Hnd3&Hin3); [done|done|].
    exists (l1 ++ l3). rewrite iterWhile_app, Hw. cbn [fst snd]. split_and!; [done| |].
    + apply list.NoDup_app. split_and!; [by apply NoDup_filter| |done].
      intros t Ht1 Ht2. apply Hin1 in Ht1 as [? _]. apply Hin3 in Ht2 as [_ Hn]. set_solver.
    + intros t. rewrite elem_of_app, Hin1, Hin3, Hcons, elem_of_union, elem_of_list_to_set. destruct (decide (t ∈ items)); tauto.
Qed.

Lemma unionOf_perm sets sets' : sets ≡ₚ sets' → unionOf sets = unionOf sets'.
Proof. intros Hp. apply set_eq. intros t. rewrite !elem_of_unionOf. by setoid_rewrite Hp. Qed.

Context (sortSlice_perm : ∀ lt l, sortSlice lt l ≡ₚ l).

(** [IterUnion] runs the callback over the union of the sets, each item once, until it
    says stop, whichever of its three strategies it takes. *)
Lemma IterUnion_ok sets acc :
  Forall ok sets →
  ∃ l, IterUnion sets acc = Ret (iterWhile l acc).1 ∧ NoDup l ∧ list_to_set l = unionOf sets.
Proof using SetLaws0 sortSlice_perm.
  intros Hok. destruct sets as [|s [|s2 sets]].
  - exists []. split_and!; [done|constructor|done].
  - apply list.Forall_cons in Hok as [Hok _]. destruct (law_All s Hok) as (l&Hl&Hnd&Hset). exists l. cbn [IterUnion]. rewrite Hl.
    split_and!; [done|done|]. rewrite Hset. unfold unionOf. cbn. set_solver.
  - assert (Hgoal : ∀ l, (∀ t, t ∈ l ↔ t ∈ unionOf (s :: s2 :: sets) ∧ t ∉ (∅ : gset T)) → list_to_set l = unionOf (s :: s2 :: sets)).
    { intros l Hl. apply set_eq. intros t. rewrite elem_of_list_to_set, Hl. set_solver. }
    cbn [IterUnion]. case_decide.
    + destruct (unionFew_ok (sortSlice biggerFirst (s :: s2 :: sets)) [] acc) as (l&->&Hnd&Hin); [constructor|by rewrite sortSlice_perm|].
      exists l. split_and!; [done|done|]. apply Hgoal. intros t. by rewrite Hin, (unionOf_perm _ _ (sortSlice_perm _ _)).
    + destruct (unionMany_ok (s :: s2 :: sets) true ∅ acc) as (l&->&Hnd&Hin); [done|done|]. exists l. eauto.
Qed.
End union.

(** ** Sequences of operations on an adaptive set *)
#[export] Instance IterResult_eq_dec : EqDecision IterResult.
Proof. solve_decision. Defined.

Section history.
Context `{Countable T} (zeroT : T) (enumMap : gset T → list T).

Inductive set_op :=
  | OpAdd (t : T)
  | OpDiscard (t : T)
  | OpClear
  | OpAddAll (ts : list T)
  | OpCopy
  | OpIter (f : T → IterResult).

Definition run_op (op : set_op) (a : Adaptive) : outcome Empty_set Adaptive :=
  match op with
  | OpAdd t => AdaptiveSet.Add zeroT t a
  | OpDiscard t => Discard zeroT enumMap t a
  | OpClear => Ret (Clear a)
  | OpAddAll ts => AddAll zeroT ts a
  | OpCopy => Copy zeroT enumMap a
  | OpIter f => let! (_, a') := Iter zeroT enumMap (λ (_ : unit) t, (tt, f t)) tt a in Ret a'
  end.

Fixpoint run_ops (ops : list set_op) (a : Adaptive) : outcome Empty_set Adaptive :=
  match ops with
  | [] => Ret a
  | op :: ops' => let! a' := run_op op a in run_ops ops' a'
  end.

(** What the operations mean for a finite set.  An iteration that stops has removed what the
    callback rejected before it stopped, in the order of the enumeration. *)
Inductive op_means : set_op → gset T → gset T → Prop :=
  | means_Add t X : op_means (OpAdd t) X ({[t]} ∪ X)
  | means_Discard t X : op_means (OpDiscard t) X (X ∖ {[t]})
  | means_Clear X : op_means OpClear X ∅
  | means_AddAll ts X : op_means (OpAddAll ts) X (list_to_set ts ∪ X)
  | means_Copy X : op_means OpCopy X X
  | means_Iter f X visited rest :
      visited ++ rest ≡ₚ elements X →
      (rest ≠ [] → ∃ t, last visited = Some t ∧ f t = IterStop) →
      (∀ t, t ∈ take (length visited - 1) visited → f t ≠ IterStop) →
      op_means (OpIter f) X (X ∖ list_to_set (filter (λ t, f t = IterRemove) visited)).

Inductive ops_mean : list set_op → gset T → gset T → Prop :=
  | ops_nil X : ops_mean [] X X
  | ops_cons op ops X Y Z : op_means op X Y → ops_mean ops Y Z → ops_mean (op :: ops) X Z.

Context (enumMap_perm : ∀ m, enumMap m ≡ₚ elements m).
Set Default Proof Using "enumMap_perm".

Lemma AddAll_ok ts a :
  adaptive_ok zeroT a → ∃ a', AddAll zeroT ts a = Ret a' ∧ adaptive_ok zeroT a' ∧ elems a' = list_to_set ts ∪ elems a.
Proof using Type.
  clear enumMap_perm enumMap. revert a. induction ts as [|t ts IH]; intros a Hok; cbn [AddAll].
  - exists a. split_and!; [done|done|]. cbn. set_solver.
  - destruct (Add_ok zeroT t a Hok) as (a1&->&Hok1&He1). cbn [obind]. destruct (IH a1 Hok1) as (a2&->&Hok2&He2).
    exists a2. split_and!; [done|done|]. rewrite He2, He1. cbn. set_solver.
Qed.

Lemma NewAdaptive_ok : adaptive_ok zeroT (NewAdaptive (T := T)).
Proof using Type. done. Qed.

Lemma Copy_ok a : adaptive_ok zeroT a → ∃ a', Copy zeroT enumMap a = Ret a' ∧ adaptive_ok zeroT a' ∧ elems a' = elems a.
Proof.
  intros Hok. destruct (All_ok zeroT enumMap enumMap_perm a Hok) as (l&Hl&_&Hset). unfold Copy. rewrite Hl. cbn [obind].
  destruct (AddAll_ok l NewAdaptive NewAdaptive_ok) as (a'&->&Hok'&He). exists a'. split_and!; [done|done|].
  rewrite He, Hset. unfold elems at 2. cbn. apply (right_id_L ∅ union).
Qed.

Lemma iterItems_ok (f : T → IterResult) items a :
  adaptive_ok zeroT a →
  ∃ a' visited rest,
    iterItems zeroT enumMap (λ (_ : unit) t, (tt, f t)) items tt a = Ret (tt, a') ∧ adaptive_ok zeroT a' ∧
    elems a' = elems a ∖ list_to_set (filter (λ t, f t = IterRemove) visited) ∧ items = visited ++ rest ∧
    (rest ≠ [] → ∃ t, last visited = Some t ∧ f t = IterStop) ∧
    (∀ t, t ∈ take (length visited - 1) visited → f t ≠ IterStop).
Proof.
  revert a. induction items as [|v items IH]; intros a Hok; cbn [iterItems].
  { exists a, [], []. split_and!; [done|done| |done|done|]; set_solver. }
  assert (Hcont : ∀ a1, adaptive_ok zeroT a1 → f v ≠ IterStop →
            elems a1 = elems a ∖ list_to_set (filter (λ t, f t = IterRemove) [v]) →
            ∃ a' visited rest, iterItems zeroT enumMap (λ (_ : unit) t, (tt, f t)) items tt a1 = Ret (tt, a') ∧ adaptive_ok zeroT a' ∧
              elems a' = elems a ∖ list_to_set (filter (λ t, f t = IterRemove) visited) ∧ v :: items = visited ++ rest ∧
              (rest ≠ [] → ∃ t, last visited = Some t ∧ f t = IterStop) ∧
              (∀ t, t ∈ take (length visited - 1) visited → f t ≠ IterStop)).
  { intros a1 Hok1 Hv He1. destruct (IH a1 Hok1) as (a'&vis&rest&Hr&Hok'&He'&->&Hlast&Hbefore).
    exists a', (v :: vis), rest. split_and!; [done|done| |done| |].
    - rewrite He', He1. change (v :: vis) with ([v] ++ vis). rewrite filter_app, list_to_set_app_L. set_solver.
    - intros Hne. destruct (Hlast Hne) as (t&Ht&Hft). exists t. by rewrite last_cons, Ht.
    - intros t. cbn [length]. rewrite Nat.sub_succ, Nat.sub_0_r. destruct vis as [|v2 vis]; [set_solver|]. cbn [length take].
      intros [->|Ht]%elem_of_cons; [done|]. apply Hbefore. cbn [length]. by rewrite Nat.sub_succ, Nat.sub_0_r. }
  destruct (f v) eqn:Hv.
  - apply (Hcont a); [done|done|]. rewrite filter_cons_False by (by rewrite Hv). set_solver.
  - exists a, [v], items. split_and!; [done|done| |done|by exists v|set_solver].
    rewrite filter_cons_False by (by rewrite Hv). set_solver.
  - destruct (Discard_ok zeroT enumMap enumMap_perm v a Hok) as (a1&->&Hok1&He1). cbn [obind].
    apply (Hcont a1); [done|done|]. rewrite He1, filter_cons_True by done. set_solver.
Qed.

Lemma run_op_ok op a :
  adaptive_ok zeroT a → ∃ a', run_op op a = Ret a' ∧ adaptive_ok zeroT a' ∧ op_means op (elems a) (elems a').
Proof.
  intros Hok. destruct op as [t|t| |ts| |f]; cbn [run_op].
  - destruct (Add_ok zeroT t a Hok) as (a'&->&Hok'&He). exists a'. rewrite He. split_and!; [done|done|constructor].
  - destruct (Discard_ok zeroT enumMap enumMap_perm t a Hok) as (a'&->&Hok'&He). exists a'. rewrite He.
    split_and!; [done|done|constructor].
  - exists (Clear a). split_and!; [done|done|constructor].
  - destruct (AddAll_ok ts a Hok) as (a'&->&Hok'&He). exists a'. rewrite He. split_and!; [done|done|constructor].
  - destruct (Copy_ok a Hok) as (a'&->&Hok'&He). exists a'. rewrite He. split_and!; [done|done|constructor].
  - unfold Iter. destruct (All_ok zeroT enumMap enumMap_perm a Hok) as (l&->&Hnd&Hset). cbn [obind].
    destruct (iterItems_ok f l a Hok) as (a'&vis&rest&->&Hok'&He&->&Hlast&Hbefore). cbn [obind]. exists a'. split_and!; [done|done|].
    rewrite He. apply (means_Iter f (elems a) vis rest); [|done|done].
    rewrite <- Hset. symmetry. apply elements_list_to_set. done.
Qed.

Lemma run_ops_ok ops a :
  adaptive_ok zeroT a → ∃ a', run_ops ops a = Ret a' ∧ adaptive_ok zeroT a' ∧ ops_mean ops (elems a) (elems a').
Proof.
  revert a. induction ops as [|op ops IH]; intros a Hok; cbn [run_ops].
  - exists a. split_and!; [done|done|constructor].
  - destruct (run_op_ok op a Hok) as (a1&->&Hok1&Hm1). cbn [obind]. destruct (IH a1 Hok1) as (a2&->&Hok2&Hm2).
    exists a2. split_and!; [done|done|]. by econstructor.
Qed.

Lemma containsEach_ok (contains : T → outcome Empty_set bool) (X : gset T) items :
  (∀ t, contains t = Ret (bool_decide (t ∈ X))) →
  containsEach contains items = Ret (bool_decide (list_to_set items ⊆ X)).
Proof using Type.
  intros Hc. induction items as [|t items IH]; cbn [containsEach].
  - rewrite bool_decide_true; [done|]. cbn. apply empty_subseteq.
  - rewrite Hc. cbn [obind]. destruct (decide (t ∈ X)) as [Hin|Hni].
    + rewrite (bool_decide_true (t ∈ X)), IH by done. f_equal. apply bool_decide_ext. cbn.
      rewrite union_subseteq, singleton_subseteq_l. tauto.
    + rewrite (bool_decide_false (t ∈ X)) by done. rewrite bool_decide_false; [done|]. cbn.
      rewrite union_subseteq, singleton_subseteq_l. tauto.
Qed.

Lemma Equals_ok a b :
  adaptive_ok zeroT a → adaptive_ok zeroT b → Equals enumMap a b = Ret (bool_decide (elems a = elems b)).
Proof.
  intros Ha Hb. unfold Equals. rewrite !(Len_ok zeroT) by done. cbn [obind].
  destruct (decide (size (elems a) = size (elems b))) as [Hsz|Hsz].
  - rewrite decide_False by lia. destruct (All_ok zeroT enumMap enumMap_perm a Ha) as (l&->&_&Hset). cbn [obind].
    rewrite (containsEach_ok _ (elems b)) by (intros t; by apply (Contains_ok zeroT)). f_equal. apply bool_decide_ext.
    rewrite Hset. split; [|by intros ->]. intros Hsub. apply leibniz_equiv, set_subseteq_size_equiv; [done|lia].
  - rewrite decide_True by lia. rewrite bool_decide_false; [done|]. intros He. apply Hsz. by rewrite He.
Qed.

Lemma ContainsAll_ok a b :
  adaptive_ok zeroT a → adaptive_ok zeroT b → ContainsAll enumMap a b = Ret (bool_decide (elems b ⊆ elems a)).
Proof.
  intros Ha Hb. unfold ContainsAll. rewrite !(Len_ok zeroT) by done. cbn [obind].
  destruct (Z.ltb_spec (Z.of_nat (size (elems a))) (Z.of_nat (size (elems b)))) as [Hlt|Hge].
  - rewrite bool_decide_false; [done|]. intros Hsub%subseteq_size. lia.
  - destruct (All_ok zeroT enumMap enumMap_perm b Hb) as (l&->&_&Hset). cbn [obind].
    rewrite (containsEach_ok _ (elems a)) by (intros t; by apply (Contains_ok zeroT)). by rewrite Hset.
Qed.

(** C27: after any sequence of operations on a new adaptive set, no operation has panicked or
    read its untyped pointer as something that it does not point to, the representation agrees
    with the stored size (nothing for an empty set, an array of exactly the capacity that the
    size determines with its unused slots zeroed, or a map of more than 16 items), and the set
    behaves as the finite set that the operations describe: [Len], [Contains], [All], and
    [Equals] and [ContainsAll] against any other adaptive set. *)
Theorem adaptive_is_a_set ops :
  ∃ a X, run_ops ops NewAdaptive = Ret a ∧ adaptive_ok zeroT a ∧ ops_mean ops ∅ X ∧
         Len a = Ret (Z.of_nat (size X)) ∧ (∀ t, Contains t a = Ret (bool_decide (t ∈ X))) ∧
         (∃ l, All enumMap a = Ret l ∧ l ≡ₚ elements X) ∧
         (∀ ops' b, run_ops ops' NewAdaptive = Ret b →
            Equals enumMap a b = Ret (bool_decide (X = elems b)) ∧
            ContainsAll enumMap a b = Ret (bool_decide (elems b ⊆ X))).
Proof.
  destruct (run_ops_ok ops NewAdaptive NewAdaptive_ok) as (a&Hr&Hok&Hm). exists a, (elems a).
  split_and!; [done|done|done|by apply (Len_ok zeroT)|intros t; by apply (Contains_ok zeroT)| |].
  - destruct (All_ok zeroT enumMap enumMap_perm a Hok) as (l&Hl&Hnd&Hset). exists l. split; [done|].
    rewrite <- Hset. symmetry. by apply elements_list_to_set.
  - intros ops' b Hb. destruct (run_ops_ok ops' NewAdaptive NewAdaptive_ok) as (b'&Hr'&Hok'&_).
    rewrite Hr' in Hb. injection Hb as <-. split; [by apply Equals_ok|by apply ContainsAll_ok].
Qed.
End history.
Set Default Proof Using "Type".

(** Seventeen additions turn the array into a map, and one discard turns it back. *)
Lemma adaptive_is_a_set_witness :
  ∃ a, run_ops 0 elements (OpAddAll (seq 1 17) :: [OpDiscard 3]) NewAdaptive = Ret a ∧
       Len a = Ret 16%Z ∧ Contains 3 a = Ret false ∧ Contains 17 a = Ret true.
Proof.
  destruct (adaptive_is_a_set 0 elements (λ m, Permutation_refl _) (OpAddAll (seq 1 17) :: [OpDiscard 3]))
    as (a&X&Hr&_&Hm&Hl&Hc&_).
  exists a. assert (HX : X = (list_to_set (seq 1 17) ∪ ∅) ∖ {[3]}).
  { inversion Hm as [|op ops X0 Y Z Hm1 Hm2]; subst. inversion Hm1; subst. inversion Hm2 as [|op ops X0 Y Z Hm3 Hm4]; subst.
    inversion Hm3; subst. by inversion Hm4; subst. }
  rewrite Hl, !Hc, HX. split_and!; [done|by vm_compute..].
Defined.
