(* ===== verification/NameValueIndex.v ===== *)
(** * The label name/value index: [felix/labelindex/labelnamevalueindex]

    [LabelNameValueIndex] stores items by ID and indexes the IDs by the names and the values of
    the items' own labels; [StrategyFor] turns a [LabelRestriction] of a selector into a scan.
    The sets of IDs are adaptive sets.  The order in which an item yields its labels is an
    argument of [Add] and of [Remove] (Go ranges over the labels anew on each call), the order
    in which a scan ranges over a Go map is a parameter. *)
From S2P Require Import Prelude SelectorAST AdaptiveSet GoSet.
From stdpp Require Import base list gmap numbers strings sorting.
From stdpp Require Import options.

Section index.
Context `{Countable ItemID} {Item : Type} (zeroID : ItemID).
Context (enumMap : gset ItemID → list ItemID).
Abbreviation idSet_t := (Adaptive (T := ItemID)).
Context (sortSlice : (idSet_t → idSet_t → bool) → list idSet_t → list idSet_t).
Context (enumItems : gmap ItemID Item → list ItemID).
Context (enumValues : gmap string idSet_t → list (string * idSet_t)).

Record values := MkValues { vals_m : gmap string idSet_t; vals_count : Z }.

(** The zero value, for a label name that is not there. *)
Definition zeroValues : values := MkValues ∅ 0.

Record LabelNameValueIndex := MkIndex {
  allItems : gmap ItemID Item;
  labelNameToValueToIDs : gmap string values
}.

Definition New : LabelNameValueIndex := MkIndex ∅ ∅.

Abbreviation byName := (gmap string values).

(** One label in the loop of [Add]. *)
Definition addLabel (id : ItemID) (k v : string) (names : byName) : outcome Empty_set byName :=
  let vals := default zeroValues (names !! k) in
  let setOfIDs := default NewAdaptive (vals_m vals !! v) in
  let! setOfIDs' := AdaptiveSet.Add zeroID id setOfIDs in
  Ret (<[k := MkValues (<[v := setOfIDs']> (vals_m vals)) (vals_count vals + 1)]> names).

Fixpoint addLabels (id : ItemID) (labels : list (string * string)) (names : byName) : outcome Empty_set byName :=
  match labels with
  | [] => Ret names
  | (k, v) :: labels' => let! names' := addLabel id k v names in addLabels id labels' names'
  end.

Definition Add (labels : list (string * string)) (id : ItemID) (item : Item) (idx : LabelNameValueIndex) : outcome Empty_set LabelNameValueIndex :=
  match allItems idx !! id with
  | Some _ => Panic
  | None =>
      let! names := addLabels id labels (labelNameToValueToIDs idx) in
      Ret (MkIndex (<[id := item]> (allItems idx)) names)
  end.

(** One label in the loop of [Remove]; calling a method of a nil set panics. *)
Definition removeLabel (id : ItemID) (k v : string) (names : byName) : outcome Empty_set byName :=
  let vals := default zeroValues (names !! k) in
  match vals_m vals !! v with
  | None => Panic
  | Some setOfIDs =>
      let! setOfIDs' := Discard zeroID enumMap id setOfIDs in
      let! n := Len setOfIDs' in
      if decide (n = 0)%Z then
        let m := delete v (vals_m vals) in
        if decide (m = ∅) then Ret (delete k names)
        else Ret (<[k := MkValues m (vals_count vals - 1)]> names)
      else Ret (<[k := MkValues (<[v := setOfIDs']> (vals_m vals)) (vals_count vals - 1)]> names)
  end.

Fixpoint removeLabels (id : ItemID) (labels : list (string * string)) (names : byName) : outcome Empty_set byName :=
  match labels with
  | [] => Ret names
  | (k, v) :: labels' => let! names' := removeLabel id k v names in removeLabels id labels' names'
  end.

Definition Remove (labels : list (string * string)) (id : ItemID) (idx : LabelNameValueIndex) : outcome Empty_set LabelNameValueIndex :=
  let! names := removeLabels id labels (labelNameToValueToIDs idx) in
  Ret (MkIndex (delete id (allItems idx)) names).

Definition Get (id : ItemID) (idx : LabelNameValueIndex) : option Item := allItems idx !! id.

Definition Index_Len (idx : LabelNameValueIndex) : Z := Z.of_nat (size (allItems idx)).

(** ** Scan strategies *)
Inductive ScanStrategy :=
  | NoMatchStrategy
  | LabelNameSingleValueStrategy (label value : string) (idSet : idSet_t)
  | LabelNameMultiValueStrategy (label : string) (vals : list string) (idSets : list idSet_t)
  | LabelNameStrategy (label : string) (vals : values)
  | FullScanStrategy (items : gmap ItemID Item).

(** The values that some item has, with the sets of the IDs. *)
Fixpoint filterMustHaves (m : gmap string idSet_t) (vs : list string) : list (string * idSet_t) :=
  match vs with
  | [] => []
  | v :: vs' => match m !! v with Some idsSet => (v, idsSet) :: filterMustHaves m vs' | None => filterMustHaves m vs' end
  end.

Definition StrategyFor (labelName : string) (r : LabelRestriction) (idx : LabelNameValueIndex) : ScanStrategy :=
  if negb (MustBePresent r) then FullScanStrategy (allItems idx)
  else
    match MustHaveOneOfValues r with
    | None =>
        match labelNameToValueToIDs idx !! labelName with
        | None => NoMatchStrategy
        | Some vals => LabelNameStrategy labelName vals
        end
    | Some vs =>
        match filterMustHaves (vals_m (default zeroValues (labelNameToValueToIDs idx !! labelName))) vs with
        | [] => NoMatchStrategy
        | [(v, idSet)] => LabelNameSingleValueStrategy labelName v idSet
        | found => LabelNameMultiValueStrategy labelName found.*1 found.*2
        end
    end.

Fixpoint sumLens (sets : list idSet_t) : outcome Empty_set Z :=
  match sets with
  | [] => Ret 0%Z
  | s :: sets' => let! n := Len s in let! rest := sumLens sets' in Ret (n + rest)%Z
  end.

Definition EstimatedItemsToScan (s : ScanStrategy) : outcome Empty_set Z :=
  match s with
  | NoMatchStrategy => Ret 0%Z
  | LabelNameSingleValueStrategy _ _ idSet => Len idSet
  | LabelNameMultiValueStrategy _ _ idSets => sumLens idSets
  | LabelNameStrategy _ vals => Ret (vals_count vals)
  | FullScanStrategy items => Ret (Z.of_nat (size items))
  end.

Section scan.
Context {A : Type} (f : A → ItemID → A * bool).

Fixpoint scanSets (sets : list (string * idSet_t)) (acc : A) : outcome Empty_set A :=
  match sets with
  | [] => Ret acc
  | (_, epIDs) :: sets' =>
      let! items := All enumMap epIDs in
      match iterWhile f items acc with
      | (acc', true) => scanSets sets' acc'
      | (acc', false) => Ret acc'
      end
  end.

Definition Scan (s : ScanStrategy) (acc : A) : outcome Empty_set A :=
  match s with
  | NoMatchStrategy => Ret acc
  | LabelNameSingleValueStrategy _ _ idSet => let! items := All enumMap idSet in Ret (iterWhile f items acc).1
  | LabelNameMultiValueStrategy _ _ idSets => IterUnion (AdaptiveOps enumMap) sortSlice f idSets acc
  | LabelNameStrategy _ vals => scanSets (enumValues (vals_m vals)) acc
  | FullScanStrategy items => Ret (iterWhile f (enumItems items) acc).1
  end.
End scan.
End index.
