(* ===== verification/NameValueIndexSpec.v ===== *)
(** * The label name/value index scans exactly the items that satisfy a restriction *)
From S2P Require Import Prelude SelectorAST AdaptiveSet GoSet NameValueIndex.
From stdpp Require Import base list gmap numbers strings sorting.
From stdpp Require Import options.

Section sets.
Context `{Countable ItemID} (zeroID : ItemID).
Abbreviation idSet_t := (Adaptive (T := ItemID)).

Lemma filterMustHaves_ok (m : gmap string idSet_t) vs v s : (v, s) ∈ filterMustHaves m vs ↔ v ∈ vs ∧ m !! v = Some s.
Proof.
  induction vs as [|v' vs IH]; cbn; [set_solver|]. destruct (m !! v') as [s'|] eqn:Hs; rewrite ?elem_of_cons, IH; [|set_solver].
  split; [|set_solver]. intros [[= -> ->]|[? ?]]; auto.
Qed.

Lemma filterMustHaves_NoDup (m : gmap string idSet_t) vs : NoDup vs → NoDup (filterMustHaves m vs).*1.
Proof.
  induction 1 as [|v vs Hv _ IH]; cbn; [constructor|]. destruct (m !! v) as [s|]; [|done]. cbn. constructor; [|done].
  intros ([v' s']&->&[Hin _]%filterMustHaves_ok)%list_elem_of_fmap. done.
Qed.

Lemma sumLens_ok sets : Forall (adaptive_ok zeroID) sets → sumLens sets = Ret (Z.of_nat (sum_list_with (λ s, size (elems s)) sets)).
Proof.
  induction 1 as [|s sets Hs _ IH]; cbn [sumLens]; [done|]. rewrite (Len_ok zeroID), IH by done. cbn. f_equal. lia.
Qed.

Lemma size_union_sets sets :
  size (unionOf elems sets) ≤ sum_list_with (λ s : idSet_t, size (elems s)) sets.
Proof.
  induction sets as [|s sets IH]; cbn; [done|]. unfold unionOf in *. cbn. rewrite size_union_alt.
  assert (size (⋃ (elems <$> sets) ∖ elems s) ≤ size (⋃ (elems <$> sets))) by (apply subseteq_size; set_solver). lia.
Qed.

Lemma size_union_disjoint (sets : list (string * idSet_t)) :
  (∀ v s v' s' id, (v, s) ∈ sets → (v', s') ∈ sets → id ∈ elems s → id ∈ elems s' → v = v') → NoDup sets.*1 →
  size (unionOf elems sets.*2) = sum_list_with (λ s : idSet_t, size (elems s)) sets.*2.
Proof.
  induction sets as [|[v s] sets IH]; intros Hdisj Hnd; cbn; [done|]. apply list.NoDup_cons in Hnd as [Hv Hnd].
  unfold unionOf in *. cbn. rewrite size_union.
  - rewrite IH; [done| |done]. intros ?????. intros ? ?. eapply Hdisj; by apply list_elem_of_further.
  - apply elem_of_disjoint. intros id Hid Hu. apply elem_of_union_list in Hu as (Y&HY&HidY).
    apply list_elem_of_fmap in HY as (s'&->&Hs'). apply list_elem_of_fmap in Hs' as ([v' s0]&->&Hin).
    apply Hv, list_elem_of_fmap. exists (v', s0). split; [|done]. cbn.
    eapply (Hdisj v s v' s0 id); [apply list_elem_of_here|by apply list_elem_of_further|done|done].
Qed.
End sets.

Section spec.
Context `{Countable ItemID} {Item : Type} (zeroID : ItemID).
Abbreviation idSet_t := (Adaptive (T := ItemID)).
Abbreviation byName := (gmap string (values (ItemID := ItemID))).
Abbreviation Index := (LabelNameValueIndex (ItemID := ItemID) (Item := Item)).
Set Default Proof Using "Type".

(** ** What the maps of the index hold

    The index is described by the set of the facts "item [id] has the label [k] with the value
    [v]" that have been entered into it. *)
Abbreviation facts := (gset (ItemID * string * string)).
Implicit Types (X : facts) (names : byName).

Definition withName X (k : string) : gset ItemID :=
  set_map (λ x, x.1.1) (filter (λ x, x.1.2 = k) X).

Lemma elem_of_withName X k id : id ∈ withName X k ↔ ∃ v, (id, k, v) ∈ X.
Proof.
  unfold withName. rewrite elem_of_map. setoid_rewrite elem_of_filter. split.
  - intros ([[i k'] v]&->&<-&Hx). cbn. by exists v.
  - intros [v Hv]. by exists (id, k, v).
Qed.

(** The set that is stored under a name and a value. *)
Definition lookupSet names (k v : string) : option idSet_t := names !! k ≫= λ vals, vals_m vals !! v.

Definition idsFor names k v : gset ItemID := default ∅ (elems <$> lookupSet names k v).

Record names_ok X names : Prop := {
  no_functional id k v v' : (id, k, v) ∈ X → (id, k, v') ∈ X → v = v';
  no_values k vals : names !! k = Some vals → vals_m vals ≠ ∅ ∧ vals_count vals = Z.of_nat (size (withName X k));
  no_sets k v s : lookupSet names k v = Some s → adaptive_ok zeroID s ∧ elems s ≠ ∅;
  no_facts id k v : (id, k, v) ∈ X ↔ id ∈ idsFor names k v
}.

Lemma names_ok_empty : names_ok ∅ ∅.
Proof. split; set_solver. Qed.

Lemma withName_add X id k v k' : withName ({[(id, k, v)]} ∪ X) k' = if decide (k' = k) then {[id]} ∪ withName X k' else withName X k'.
Proof. apply set_eq. intros x. rewrite elem_of_withName. case_decide; rewrite ?elem_of_union, ?elem_of_withName; set_solver. Qed.

Lemma withName_remove X id k v k' :
  (∀ v', (id, k, v') ∈ X → v' = v) →
  withName (X ∖ {[(id, k, v)]}) k' = if decide (k' = k) then withName X k' ∖ {[id]} else withName X k'.
Proof.
  intros Hf. apply set_eq. intros x. rewrite elem_of_withName. setoid_rewrite elem_of_difference. setoid_rewrite elem_of_singleton.
  case_decide; subst; rewrite ?elem_of_difference, ?elem_of_withName, ?elem_of_singleton; [|naive_solver].
  split; [|naive_solver]. intros (v'&Hv'&Hne). split; [eauto|]. intros ->. apply Hne. by rewrite (Hf v').
Qed.

Lemma lookupSet_insert names k vals k' v' :
  lookupSet (<[k := vals]> names) k' v' = if decide (k' = k) then vals_m vals !! v' else lookupSet names k' v'.
Proof.
  unfold lookupSet. case_decide; subst; [by rewrite lookup_insert_eq|by rewrite lookup_insert_ne].
Qed.

Lemma lookupSet_delete names k k' v' :
  lookupSet (delete k names) k' v' = if decide (k' = k) then None else lookupSet names k' v'.
Proof.
  unfold lookupSet. case_decide; subst; [by rewrite lookup_delete_eq|by rewrite lookup_delete_ne].
Qed.

Lemma lookupSet_default names k v : vals_m (default zeroValues (names !! k)) !! v = lookupSet names k v.
Proof. unfold lookupSet. destruct (names !! k); cbn; [done|]. apply lookup_empty. Qed.

(** The count of a label name, when there may be none. *)
Lemma count_default X names k :
  names_ok X names → vals_count (default zeroValues (names !! k)) = Z.of_nat (size (withName X k)).
Proof.
  intros Hok. destruct (names !! k) as [vals|] eqn:Hk; cbn; [by apply (no_values _ _ Hok)|].
  replace (withName X k) with (∅ : gset ItemID); [done|]. symmetry. apply set_eq. intros x. rewrite elem_of_withName.
  split; [|set_solver]. intros [v Hv%(no_facts _ _ Hok)]. unfold idsFor, lookupSet in Hv. rewrite Hk in Hv. set_solver.
Qed.

Lemma size_withName_remove X names id k v :
  names_ok X names → (id, k, v) ∈ X → size (withName X k) = S (size (withName (X ∖ {[(id, k, v)]}) k)).
Proof.
  intros Hok Hin. rewrite withName_remove, decide_True by (done || (intros v' Hv'; by apply (no_functional _ _ Hok id k))).
  assert (Hid : id ∈ withName X k) by (rewrite elem_of_withName; eauto).
  rewrite size_difference by set_solver. rewrite size_singleton.
  assert (size (withName X k) ≠ 0); [|lia]. intros Hz%size_empty_inv. set_solver.
Qed.

Lemma lookupSet_put names k m' c v o :
  (∀ v', m' !! v' = if decide (v' = v) then o else lookupSet names k v') →
  ∀ k' v', lookupSet (<[k := MkValues m' c]> names) k' v' = if decide ((k', v') = (k, v)) then o else lookupSet names k' v'.
Proof.
  intros Hm k' v'. rewrite lookupSet_insert. cbn. destruct (decide (k' = k)) as [->|]; [|by rewrite decide_False by congruence].
  rewrite Hm. destruct (decide (v' = v)) as [->|]; [by rewrite decide_True|by rewrite decide_False by congruence].
Qed.

(** A step that changes the set under one name and one value only keeps the invariant. *)
Lemma names_ok_step X X' names names' k v o :
  names_ok X names →
  (∀ k' v', lookupSet names' k' v' = if decide ((k', v') = (k, v)) then o else lookupSet names k' v') →
  (∀ k', k' ≠ k → names' !! k' = names !! k') →
  (∀ vals, names' !! k = Some vals → vals_m vals ≠ ∅ ∧ vals_count vals = Z.of_nat (size (withName X' k))) →
  (∀ s, o = Some s → adaptive_ok zeroID s ∧ elems s ≠ ∅) →
  (∀ id' k' v', (id', k', v') ∈ X' ↔ if decide ((k', v') = (k, v)) then id' ∈ (default ∅ (elems <$> o) : gset ItemID) else (id', k', v') ∈ X) →
  (∀ id' v1 v2, (id', k, v1) ∈ X' → (id', k, v2) ∈ X' → v1 = v2) →
  names_ok X' names'.
Proof.
  intros Hok Hl Hn Hv Ho HX Hf.
  assert (Hother : ∀ id' k' v', k' ≠ k → (id', k', v') ∈ X' ↔ (id', k', v') ∈ X).
  { intros id' k' v' Hne. rewrite HX, decide_False by congruence. done. }
  split.
  - intros id' k' v1 v2. destruct (decide (k' = k)) as [->|Hne]; [apply Hf|]. rewrite !Hother by done. apply (no_functional _ _ Hok).
  - intros k' vals. destruct (decide (k' = k)) as [->|Hne]; [apply Hv|]. rewrite Hn by done. intros Hk.
    replace (withName X' k') with (withName X k'); [by apply (no_values _ _ Hok)|].
    apply set_eq. intros x. rewrite !elem_of_withName. by setoid_rewrite Hother.
  - intros k' v' s. rewrite Hl. case_decide; [apply Ho|apply (no_sets _ _ Hok)].
  - intros id' k' v'. rewrite HX. unfold idsFor. rewrite Hl. case_decide; [done|]. apply (no_facts _ _ Hok).
Qed.

Lemma addLabel_ok X names id k v :
  names_ok X names → id ∉ withName X k →
  ∃ names', addLabel zeroID id k v names = Ret names' ∧ names_ok ({[(id, k, v)]} ∪ X) names'.
Proof.
  intros Hok Hni. unfold addLabel. rewrite lookupSet_default, (count_default X) by done.
  assert (Hs : adaptive_ok zeroID (default NewAdaptive (lookupSet names k v)) ∧ elems (default NewAdaptive (lookupSet names k v)) = idsFor names k v).
  { unfold idsFor. destruct (lookupSet names k v) as [s|] eqn:Hv; cbn; [|done]. split; [|done]. by apply (no_sets _ _ Hok k v). }
  destruct Hs as [Hs He]. destruct (Add_ok zeroID id _ Hs) as (s'&->&Hs'&He'). cbn [obind]. eexists; split; [done|].
  rewrite He in He'. apply (names_ok_step X _ names _ k v (Some s')); [done|..].
  - apply lookupSet_put. intros v'. rewrite <- lookupSet_default. case_decide; subst; [by rewrite lookup_insert_eq|by rewrite lookup_insert_ne].
  - intros k' Hne. by rewrite lookup_insert_ne.
  - intros vals. rewrite lookup_insert_eq. intros [= <-]. cbn. split; [apply insert_non_empty|].
    rewrite withName_add, decide_True by done. rewrite size_union by set_solver. rewrite size_singleton. lia.
  - intros s [= <-]. split; [done|]. rewrite He'. set_solver.
  - intros id' k' v'. cbn. rewrite He', elem_of_union, elem_of_singleton. case_decide as Hd; [|naive_solver].
    injection Hd as -> ->. rewrite elem_of_union, elem_of_singleton, <- (no_facts _ _ Hok). naive_solver.
  - intros id' v1 v2. rewrite elem_of_withName in Hni. rewrite !elem_of_union, !elem_of_singleton.
    intros [H1|H1] [H2|H2]; [naive_solver..|]. by apply (no_functional _ _ Hok id' k).
Qed.

Context (enumMap : gset ItemID → list ItemID) (enumMap_perm : ∀ m, enumMap m ≡ₚ elements m).

Lemma removeLabel_ok X names id k v :
  names_ok X names → (id, k, v) ∈ X →
  ∃ names', removeLabel zeroID enumMap id k v names = Ret names' ∧ names_ok (X ∖ {[(id, k, v)]}) names'.
Proof using enumMap_perm.
  intros Hok Hin. pose proof Hin as Hid. rewrite (no_facts _ _ Hok) in Hid. unfold idsFor in Hid.
  unfold removeLabel. rewrite lookupSet_default, (count_default X) by done.
  destruct (lookupSet names k v) as [s|] eqn:Hs; [|set_solver]. cbn in Hid. destruct (no_sets _ _ Hok _ _ _ Hs) as [Hsok _].
  destruct (Discard_ok zeroID enumMap enumMap_perm id s Hsok) as (s'&->&Hsok'&He'). cbn [obind].
  rewrite (Len_ok zeroID) by done. cbn [obind].
  pose proof (size_withName_remove X names id k v Hok Hin) as Hcount.
  assert (Hfacts : ∀ o, default ∅ (elems <$> o) = elems s' → ∀ id' k' v', (id', k', v') ∈ X ∖ {[(id, k, v)]} ↔
            if decide ((k', v') = (k, v)) then id' ∈ (default ∅ (elems <$> o) : gset ItemID) else (id', k', v') ∈ X).
  { intros o -> id' k' v'. rewrite He', elem_of_difference, elem_of_singleton. case_decide as Hd; [|naive_solver].
    injection Hd as -> ->. rewrite elem_of_difference, elem_of_singleton, (no_facts _ _ Hok). unfold idsFor. rewrite Hs. naive_solver. }
  assert (Hfun : ∀ id' v1 v2, (id', k, v1) ∈ X ∖ {[(id, k, v)]} → (id', k, v2) ∈ X ∖ {[(id, k, v)]} → v1 = v2).
  { intros id' v1 v2 [H1 _]%elem_of_difference [H2 _]%elem_of_difference. by apply (no_functional _ _ Hok id' k). }
  assert (Hvals : ∀ v', vals_m (default zeroValues (names !! k)) !! v' = lookupSet names k v') by (intros v'; apply lookupSet_default).
  set (m := vals_m (default zeroValues (names !! k))) in *.
  case_decide as Hz.
  - assert (He : elems s' = ∅) by (apply leibniz_equiv, size_empty_inv; lia).
    case_decide as Hm; (eexists; split; [done|]);
      (apply (names_ok_step X _ names _ k v None); [done|..|by apply Hfacts|done]).
    + intros k' v'. rewrite lookupSet_delete. destruct (decide (k' = k)) as [->|]; [|by rewrite decide_False by congruence].
      case_decide as Hd; [done|]. rewrite <- Hvals. rewrite <- (lookup_delete_ne m v v') by congruence. by rewrite Hm.
    + intros k' Hne. by rewrite lookup_delete_ne.
    + intros vals. by rewrite lookup_delete_eq.
    + done.
    + apply lookupSet_put. intros v'. rewrite <- Hvals. case_decide; subst; [by rewrite lookup_delete_eq|by rewrite lookup_delete_ne].
    + intros k' Hne. by rewrite lookup_insert_ne.
    + intros vals. rewrite lookup_insert_eq. intros [= <-]. cbn. split; [done|]. lia.
    + done.
  - eexists; split; [done|]. apply (names_ok_step X _ names _ k v (Some s')); [done|..|by apply Hfacts|done].
    + apply lookupSet_put. intros v'. rewrite <- Hvals. case_decide; subst; [by rewrite lookup_insert_eq|by rewrite lookup_insert_ne].
    + intros k' Hne. by rewrite lookup_insert_ne.
    + intros vals. rewrite lookup_insert_eq. intros [= <-]. cbn. split; [apply insert_non_empty|]. lia.
    + intros ? [= <-]. split; [done|]. intros He. rewrite He, size_empty in Hz. lia.
Qed.

(** ** Whole items *)
Definition itemFacts (id : ItemID) (labels : list (string * string)) : facts :=
  list_to_set ((λ '(k, v), (id, k, v)) <$> labels).

Lemma elem_of_itemFacts id labels id' k v : (id', k, v) ∈ itemFacts id labels ↔ id' = id ∧ (k, v) ∈ labels.
Proof.
  unfold itemFacts. rewrite elem_of_list_to_set, list_elem_of_fmap. split.
  - intros ([k' v']&[= -> -> ->]&Hin). done.
  - intros [-> Hin]. by exists (k, v).
Qed.

Lemma itemFacts_cons id k v labels : itemFacts id ((k, v) :: labels) = {[(id, k, v)]} ∪ itemFacts id labels.
Proof. done. Qed.

Lemma addLabels_ok X names id labels :
  names_ok X names → NoDup labels.*1 → (∀ k v v', (k, v) ∈ labels → (id, k, v') ∉ X) →
  ∃ names', addLabels zeroID id labels names = Ret names' ∧ names_ok (itemFacts id labels ∪ X) names'.
Proof.
  revert X names. induction labels as [|[k v] labels IH]; intros X names Hok Hnd Hni; cbn [addLabels].
  { exists names. split; [done|]. unfold itemFacts. cbn. by rewrite (left_id_L ∅ (∪)). }
  apply list.NoDup_cons in Hnd as [Hk Hnd]. destruct (addLabel_ok X names id k v Hok) as (names1&->&Hok1).
  { rewrite elem_of_withName. intros [v' Hv']. apply (Hni k v v'); [apply list_elem_of_here|done]. }
  cbn [obind]. destruct (IH _ _ Hok1 Hnd) as (names2&->&Hok2).
  { intros k' v1 v2 Hin. rewrite elem_of_union, elem_of_singleton. intros [[= -> ->]|Hx].
    - apply Hk. apply list_elem_of_fmap. by exists (k, v1).
    - apply (Hni k' v1 v2); [by apply list_elem_of_further|done]. }
  exists names2. split; [done|]. rewrite itemFacts_cons. by rewrite <- (assoc_L (∪)), (comm_L (∪) (itemFacts id labels)), !(assoc_L (∪)) in * || done.
Qed.

Lemma removeLabels_ok X names id labels :
  names_ok X names → NoDup labels → (∀ k v, (k, v) ∈ labels → (id, k, v) ∈ X) →
  ∃ names', removeLabels zeroID enumMap id labels names = Ret names' ∧ names_ok (X ∖ itemFacts id labels) names'.
Proof using enumMap_perm.
  revert X names. induction labels as [|[k v] labels IH]; intros X names Hok Hnd Hin; cbn [removeLabels].
  { exists names. split; [done|]. unfold itemFacts. cbn. by rewrite difference_empty_L. }
  apply list.NoDup_cons in Hnd as [Hk Hnd]. destruct (removeLabel_ok X names id k v Hok) as (names1&->&Hok1).
  { apply Hin, list_elem_of_here. }
  cbn [obind]. destruct (IH _ _ Hok1 Hnd) as (names2&->&Hok2).
  { intros k' v' Hkv. rewrite elem_of_difference, elem_of_singleton. split; [by apply Hin, list_elem_of_further|congruence]. }
  exists names2. split; [done|]. rewrite itemFacts_cons. by rewrite <- difference_difference_l_L.
Qed.

(** Walking over a list of disjoint sets. *)
Lemma scanSets_ok {A} (f : A → ItemID → A * bool) (sets : list (string * idSet_t)) acc :
  (∀ v s, (v, s) ∈ sets → adaptive_ok zeroID s) →
  (∀ v s v' s' id, (v, s) ∈ sets → (v', s') ∈ sets → id ∈ elems s → id ∈ elems s' → v = v') → NoDup sets.*1 →
  ∃ l, scanSets enumMap f sets acc = Ret (iterWhile f l acc).1 ∧ NoDup l ∧
       ∀ id, id ∈ l ↔ ∃ v s, (v, s) ∈ sets ∧ id ∈ elems s.
Proof using enumMap_perm.
  clear Item. revert acc. induction sets as [|[v s] sets IH]; intros acc Hok Hdisj Hnd; cbn [scanSets].
  { exists []. split_and!; [done|constructor|]. set_solver. }
  apply list.NoDup_cons in Hnd as [Hv Hnd].
  destruct (All_ok zeroID enumMap enumMap_perm s) as (l1&->&Hnd1&Hset); [apply (Hok v), list_elem_of_here|]. cbn [obind].
  destruct (IH (iterWhile f l1 acc).1) as (l2&Hl2&Hnd2&Hin2); [|intros ?????|done|].
  { intros v' s' Hin. by apply (Hok v'), list_elem_of_further. }
  { intros ????. eapply Hdisj; [by apply list_elem_of_further..|done|done]. }
  exists (l1 ++ l2). assert (Hin1 : ∀ id, id ∈ l1 ↔ id ∈ elems s) by (intros id; by rewrite <- Hset, elem_of_list_to_set). split_and!.
  - rewrite iterWhile_app. destruct (iterWhile f l1 acc) as [acc' []]; [exact Hl2|done].
  - apply list.NoDup_app. split_and!; [done| |done]. intros id Hid1 (v'&s'&Hs'&Hid')%Hin2. apply Hin1 in Hid1.
    assert (v = v') as -> by (eapply (Hdisj v s v' s' id); [apply list_elem_of_here|by apply list_elem_of_further|done|done]).
    apply Hv, list_elem_of_fmap. by exists (v', s').
  - intros id. rewrite elem_of_app, Hin1, Hin2. set_solver.
Qed.
(** The facts of a map of items. *)
Context (labelsOf : Item → gmap string string).

Definition factsOf (items : gmap ItemID Item) : facts :=
  list_to_set (map_to_list items ≫= λ '(id, item), (λ '(k, v), (id, k, v)) <$> map_to_list (labelsOf item)).

Lemma elem_of_factsOf items id k v : (id, k, v) ∈ factsOf items ↔ ∃ item, items !! id = Some item ∧ labelsOf item !! k = Some v.
Proof.
  unfold factsOf. rewrite elem_of_list_to_set, list_elem_of_bind. split.
  - intros ([id' item]&Hx&Hin%elem_of_map_to_list). apply list_elem_of_fmap in Hx as ([k' v']&[= -> -> ->]&Hkv%elem_of_map_to_list). eauto.
  - intros (item&Hi%elem_of_map_to_list&Hk%elem_of_map_to_list). exists (id, item). split; [|done]. apply list_elem_of_fmap. by exists (k, v).
Qed.

Definition index_ok (idx : Index) : Prop := names_ok (factsOf (allItems idx)) (labelNameToValueToIDs idx).

Lemma New_ok : index_ok New.
Proof. unfold index_ok, New. cbn. replace (factsOf ∅) with (∅ : facts); [apply names_ok_empty|]. done. Qed.

Lemma Add_index_ok labels id item idx :
  index_ok idx → allItems idx !! id = None → labels ≡ₚ map_to_list (labelsOf item) →
  ∃ idx', NameValueIndex.Add zeroID labels id item idx = Ret idx' ∧ index_ok idx' ∧ allItems idx' = <[id := item]> (allItems idx).
Proof.
  intros Hok Hid Hp. unfold NameValueIndex.Add. rewrite Hid.
  destruct (addLabels_ok (factsOf (allItems idx)) (labelNameToValueToIDs idx) id labels) as (names&->&Hok'); [done| | |].
  { rewrite Hp. apply NoDup_fst_map_to_list. }
  { intros k v v' _. rewrite elem_of_factsOf. intros (?&?&_). congruence. }
  cbn [obind]. eexists; split_and!; [done| |done]. unfold index_ok. cbn.
  replace (factsOf (<[id := item]> (allItems idx))) with (itemFacts id labels ∪ factsOf (allItems idx)); [done|].
  apply set_eq. intros [[id' k] v]. rewrite elem_of_union, elem_of_itemFacts, !elem_of_factsOf, Hp, elem_of_map_to_list.
  destruct (decide (id' = id)) as [->|Hne].
  - rewrite lookup_insert_eq, Hid. naive_solver.
  - rewrite lookup_insert_ne by done. naive_solver.
Qed.

Lemma Remove_index_ok labels id item idx :
  index_ok idx → allItems idx !! id = Some item → labels ≡ₚ map_to_list (labelsOf item) →
  ∃ idx', NameValueIndex.Remove zeroID enumMap labels id idx = Ret idx' ∧ index_ok idx' ∧ allItems idx' = delete id (allItems idx).
Proof using enumMap_perm.
  intros Hok Hid Hp. unfold Remove.
  destruct (removeLabels_ok (factsOf (allItems idx)) (labelNameToValueToIDs idx) id labels) as (names&->&Hok'); [done| | |].
  { rewrite Hp. apply NoDup_map_to_list. }
  { intros k v. rewrite Hp, elem_of_map_to_list, elem_of_factsOf. eauto. }
  cbn [obind]. eexists; split_and!; [done| |done]. unfold index_ok. cbn.
  replace (factsOf (delete id (allItems idx))) with (factsOf (allItems idx) ∖ itemFacts id labels); [done|].
  apply set_eq. intros [[id' k] v]. rewrite elem_of_difference, elem_of_itemFacts, !elem_of_factsOf, Hp, elem_of_map_to_list.
  destruct (decide (id' = id)) as [->|Hne].
  - rewrite lookup_delete_eq, Hid. naive_solver.
  - rewrite lookup_delete_ne by done. naive_solver.
Qed.

(** ** Scans *)
Context (sortSlice : (idSet_t → idSet_t → bool) → list idSet_t → list idSet_t) (sortSlice_perm : ∀ lt l, sortSlice lt l ≡ₚ l).
Context (enumItems : gmap ItemID Item → list ItemID) (enumItems_perm : ∀ m, enumItems m ≡ₚ (map_to_list m).*1).
Context (enumValues : gmap string idSet_t → list (string * idSet_t)) (enumValues_perm : ∀ m, enumValues m ≡ₚ map_to_list m).

(** What a scan for a restriction of a label is meant to produce. *)
Definition scanMatches (r : LabelRestriction) (value : option string) : Prop :=
  MustBePresent r = true → is_Some value ∧ ∀ vs, MustHaveOneOfValues r = Some vs → ∃ v, value = Some v ∧ v ∈ vs.

Definition scanned (idx : Index) (k : string) (r : LabelRestriction) (l : list ItemID) : Prop :=
  NoDup l ∧ ∀ id, id ∈ l ↔ ∃ item, allItems idx !! id = Some item ∧ scanMatches r (labelsOf item !! k).



Section scans.
Context {A : Type} (f : A → ItemID → A * bool) (acc : A) (idx : Index) (Hok : index_ok idx).
Abbreviation names := (labelNameToValueToIDs idx).
Abbreviation scan s := (Scan enumMap sortSlice enumItems enumValues f s acc).

(** A strategy that walks over the right items, with an estimate that is not too low, and
    exact unless the restriction repeats a value. *)
Definition goodScan (k : string) (r : LabelRestriction) (s : ScanStrategy) : Prop :=
  ∃ l n, scan s = Ret (iterWhile f l acc).1 ∧ scanned idx k r l ∧ EstimatedItemsToScan s = Ret n ∧
         (Z.of_nat (length l) ≤ n)%Z ∧ ((∀ vs, MustHaveOneOfValues r = Some vs → NoDup vs) → n = Z.of_nat (length l)).

Lemma lookupSet_facts k v s id :
  lookupSet names k v = Some s → id ∈ elems s ↔ ∃ item, allItems idx !! id = Some item ∧ labelsOf item !! k = Some v.
Proof using Hok. intros Hs. rewrite <- elem_of_factsOf, (no_facts _ _ Hok). unfold idsFor. by rewrite Hs. Qed.

Lemma facts_lookupSet k v id item :
  allItems idx !! id = Some item → labelsOf item !! k = Some v → ∃ s, lookupSet names k v = Some s ∧ id ∈ elems s.
Proof using Hok.
  intros Hi Hk. assert (Hx : (id, k, v) ∈ factsOf (allItems idx)) by (apply elem_of_factsOf; eauto).
  apply (no_facts _ _ Hok) in Hx. unfold idsFor in Hx. destruct (lookupSet names k v) as [s|]; [eauto|]. by apply not_elem_of_empty in Hx.
Qed.

Lemma lookupSets_disjoint k v s v' s' id :
  lookupSet names k v = Some s → lookupSet names k v' = Some s' → id ∈ elems s → id ∈ elems s' → v = v'.
Proof using Hok.
  intros Hs Hs' (item&Hi&Hk)%(lookupSet_facts k v s id Hs) (item'&Hi'&Hk')%(lookupSet_facts k v' s' id Hs'). congruence.
Qed.

Lemma FullScan_good k r : MustBePresent r = false → goodScan k r (FullScanStrategy (allItems idx)).
Proof using enumItems_perm.
  intros Hr. exists (enumItems (allItems idx)), (Z.of_nat (size (allItems idx))).
  assert (Hlen : length (enumItems (allItems idx)) = size (allItems idx)) by (by rewrite enumItems_perm, length_fmap, length_map_to_list).
  split_and!; [done| |done|lia|intros _; lia]. split.
  - rewrite enumItems_perm. apply NoDup_fst_map_to_list.
  - intros id. rewrite enumItems_perm, list_elem_of_fmap. split.
    + intros ([id' item]&->&Hin%elem_of_map_to_list). exists item. split; [done|]. unfold scanMatches. by rewrite Hr.
    + intros (item&Hi&_). exists (id, item). split; [done|]. by apply elem_of_map_to_list.
Qed.

Lemma NoMatch_good k r :
  (∀ id item, allItems idx !! id = Some item → ¬ scanMatches r (labelsOf item !! k)) → goodScan k r NoMatchStrategy.
Proof using Type.
  intros Hno. exists [], 0%Z. split_and!; [done| |done|done|done]. split; [constructor|]. intros id. split; [by intros ?%elem_of_nil|].
  intros (item&Hi&Hm). by destruct (Hno id item Hi).
Qed.

Lemma LabelName_good k r vals :
  MustBePresent r = true → MustHaveOneOfValues r = None → names !! k = Some vals → goodScan k r (LabelNameStrategy k vals).
Proof using Hok enumMap_perm enumValues_perm.
  intros Hr Hv Hk. assert (Hl : ∀ v s, (v, s) ∈ enumValues (vals_m vals) ↔ lookupSet names k v = Some s).
  { intros v s. rewrite enumValues_perm, elem_of_map_to_list. unfold lookupSet. by rewrite Hk. }
  destruct (scanSets_ok f (enumValues (vals_m vals)) acc) as (l&Hscan&Hnd&Hin).
  { intros v s Hs%Hl. by apply (no_sets _ _ Hok k v). }
  { intros v s v' s' id Hs%Hl Hs'%Hl. by apply (lookupSets_disjoint k). }
  { rewrite enumValues_perm. apply NoDup_fst_map_to_list. }
  assert (Hset : list_to_set l = withName (factsOf (allItems idx)) k).
  { apply set_eq. intros id. rewrite elem_of_list_to_set, Hin, elem_of_withName. split.
    - intros (v&s&Hs%Hl&Hid). exists v. apply elem_of_factsOf. by apply (lookupSet_facts k v s).
    - intros [v (item&Hi&Hkv)%elem_of_factsOf]. destruct (facts_lookupSet k v id item Hi Hkv) as (s&Hs%Hl&Hid). eauto. }
  destruct (no_values _ _ Hok k vals Hk) as [_ Hcount]. rewrite <- Hset, size_list_to_set in Hcount by done.
  exists l, (vals_count vals). split_and!; [done| |done|lia|intros _; lia]. split; [done|]. intros id. rewrite Hin. split.
  - intros (v&s&Hs%Hl&(item&Hi&Hkv)%(lookupSet_facts k v s id)); [|done]. exists item. split; [done|].
    intros _. rewrite Hkv, Hv. split; [eauto|done].
  - intros (item&Hi&Hm). destruct (Hm Hr) as [[v Hkv] _].
    destruct (facts_lookupSet k v id item Hi Hkv) as (s&Hs%Hl&Hid). eauto.
Qed.

(** The sets that the scan for a list of values unites. *)
Lemma Values_good k r vs s :
  MustBePresent r = true → MustHaveOneOfValues r = Some vs →
  let found := filterMustHaves (vals_m (default zeroValues (names !! k))) vs in
  (∃ l, scan s = Ret (iterWhile f l acc).1 ∧ NoDup l ∧ list_to_set l = unionOf elems found.*2) →
  EstimatedItemsToScan s = sumLens found.*2 → goodScan k r s.
Proof using Hok.
  intros Hr Hv found (l&Hscan&Hnd&Hset) Hest.
  assert (Hfound : ∀ v s, (v, s) ∈ found ↔ v ∈ vs ∧ lookupSet names k v = Some s).
  { intros v s'. unfold found. by rewrite filterMustHaves_ok, lookupSet_default. }
  assert (Hlen : length l = size (unionOf elems found.*2)) by (by rewrite <- Hset, size_list_to_set).
  exists l, (Z.of_nat (sum_list_with (λ s, size (elems s)) found.*2)). rewrite Hest, Hlen. split_and!; [done| | | |].
  - split; [done|]. intros id. rewrite <- (elem_of_list_to_set (C := gset ItemID)), Hset, elem_of_unionOf. split.
    + intros (s'&([v s0]&->&[Hvs Hs]%Hfound)%list_elem_of_fmap&Hid). cbn in Hid.
      apply (lookupSet_facts k v s0 id Hs) in Hid as (item&Hi&Hkv). exists item. split; [done|]. intros _. rewrite Hkv, Hv.
      split; [eauto|]. intros ? [= <-]. eauto.
    + intros (item&Hi&Hm). destruct (Hm Hr) as [_ Hvals]. destruct (Hvals vs Hv) as (v&Hkv&Hvs).
      destruct (facts_lookupSet k v id item Hi Hkv) as (s0&Hs&Hid). exists s0. split; [|done].
      apply list_elem_of_fmap. exists (v, s0). split; [done|]. by apply Hfound.
  - apply (sumLens_ok zeroID). apply list.Forall_forall. intros s' ([v s0]&->&[_ Hs]%Hfound)%list_elem_of_fmap. by apply (no_sets _ _ Hok k v).
  - apply Nat2Z.inj_le, size_union_sets.
  - intros Hvnd. f_equal. symmetry. apply size_union_disjoint; [|by apply filterMustHaves_NoDup, Hvnd].
    intros v s1 v' s2 id [_ H1]%Hfound [_ H2]%Hfound. by apply (lookupSets_disjoint k).
Qed.

Lemma StrategyFor_good k r : goodScan k r (StrategyFor k r idx).
Proof using Hok enumMap_perm enumValues_perm enumItems_perm sortSlice_perm.
  unfold StrategyFor. destruct (MustBePresent r) eqn:Hr; cbn [negb]; [|by apply FullScan_good].
  destruct (MustHaveOneOfValues r) as [vs|] eqn:Hv.
  - pose proof (Values_good k r vs) as Hgood. 
    set (found := filterMustHaves (vals_m (default zeroValues (names !! k))) vs) in *.
    assert (Hsets : Forall (adaptive_ok zeroID) found.*2).
    { apply list.Forall_forall. intros s ([v s0]&->&[_ Hs]%filterMustHaves_ok)%list_elem_of_fmap. rewrite lookupSet_default in Hs.
      by apply (no_sets _ _ Hok k v). }
    destruct found as [|[v s] [|[v2 s2] found']] eqn:Hf.
    + apply (Hgood NoMatchStrategy Hr Hv); [|done]. exists []. split_and!; [done|constructor|done].
    + apply (Hgood (LabelNameSingleValueStrategy k v s) Hr Hv).
      * apply list.Forall_cons in Hsets as [Hs _]. destruct (All_ok zeroID enumMap enumMap_perm s Hs) as (l&Hl&Hnd&Hset).
        exists l. cbn [Scan]. rewrite Hl. split_and!; [done|done|]. rewrite Hset. unfold unionOf. cbn. by rewrite (right_id_L ∅ (∪)).
      * cbn. apply list.Forall_cons in Hsets as [Hs _]. rewrite (Len_ok zeroID) by done. cbn. f_equal. lia.
    + apply (Hgood (LabelNameMultiValueStrategy k _ _) Hr Hv); [|done]. cbn [Scan].
      destruct (IterUnion_ok (AdaptiveOps enumMap) sortSlice f (adaptive_ok zeroID) elems (SetLaws0 := AdaptiveLaws enumMap enumMap_perm zeroID)
        sortSlice_perm ((v, s) :: (v2, s2) :: found').*2 acc Hsets) as (l&Hl&Hnd&Hset). by exists l.
  - destruct (names !! k) as [vals|] eqn:Hk; [by apply LabelName_good|]. apply NoMatch_good. intros id item Hi Hm.
    destruct (Hm Hr) as [[v Hkv] _]. destruct (facts_lookupSet k v id item Hi Hkv) as (s&Hs&_).
    unfold lookupSet in Hs. by rewrite Hk in Hs.
Qed.
End scans.

(** ** Histories *)
Inductive IndexOp := OpAddItem (labels : list (string * string)) (id : ItemID) (item : Item) | OpRemoveItem (labels : list (string * string)) (id : ItemID).

Definition index_step (op : IndexOp) (idx : Index) : outcome Empty_set Index :=
  match op with
  | OpAddItem labels id item => NameValueIndex.Add zeroID labels id item idx
  | OpRemoveItem labels id => NameValueIndex.Remove zeroID enumMap labels id idx
  end.

Fixpoint index_run (ops : list IndexOp) (idx : Index) : outcome Empty_set Index :=
  match ops with
  | [] => Ret idx
  | op :: ops' => let! idx' := index_step op idx in index_run ops' idx'
  end.

Definition items_step (items : gmap ItemID Item) (op : IndexOp) : gmap ItemID Item :=
  match op with OpAddItem _ id item => <[id := item]> items | OpRemoveItem _ id => delete id items end.

(** A caller that adds only IDs that are not there, removes only IDs that are, and whose items
    yield their labels, in any order. *)
Definition op_ok (items : gmap ItemID Item) (op : IndexOp) : Prop :=
  match op with
  | OpAddItem labels id item => items !! id = None ∧ labels ≡ₚ map_to_list (labelsOf item)
  | OpRemoveItem labels id => ∃ item, items !! id = Some item ∧ labels ≡ₚ map_to_list (labelsOf item)
  end.

Fixpoint ops_ok (items : gmap ItemID Item) (ops : list IndexOp) : Prop :=
  match ops with [] => True | op :: ops' => op_ok items op ∧ ops_ok (items_step items op) ops' end.

Lemma items_run_ok ops idx :
  index_ok idx → ops_ok (allItems idx) ops →
  ∃ idx', index_run ops idx = Ret idx' ∧ index_ok idx' ∧ allItems idx' = foldl items_step (allItems idx) ops.
Proof using enumMap_perm.
  revert idx. induction ops as [|op ops IH]; intros idx Hok Hops; cbn [index_run foldl]; [by exists idx|].
  destruct Hops as [Hop Hops].
  assert (∃ idx1, index_step op idx = Ret idx1 ∧ index_ok idx1 ∧ allItems idx1 = items_step (allItems idx) op) as (idx1&->&Hok1&Hi1).
  { destruct op as [labels id item|labels id]; cbn in Hop.
    - destruct Hop. by apply Add_index_ok.
    - destruct Hop as (item&?&?). by apply (Remove_index_ok labels id item). }
  cbn [obind]. rewrite <- Hi1 in *. by apply IH.
Qed.
End spec.

(** C21: after any sequence of additions of new IDs and removals of present ones, the strategy
    for a restriction of a label runs the callback, until it stops, over exactly the items
    whose own labels satisfy the restriction, each once, and over all items when the label need
    not be present; its estimate is never too low and is exact when the restriction names each
    value once.  In particular every item that the selector matches by its own labels is
    scanned. *)
Theorem scan_finds_matches `{Countable ItemID} {Item A} (zeroID : ItemID)
    enumMap sortSlice enumItems enumValues (labelsOf : Item → gmap string string)
    (ops : list (IndexOp (ItemID := ItemID))) (f : A → ItemID → A * bool) (acc : A) (k : string) (r : LabelRestriction) :
  (∀ m, enumMap m ≡ₚ elements m) → (∀ lt l, sortSlice lt l ≡ₚ l) → (∀ m, enumItems m ≡ₚ (map_to_list m).*1) →
  (∀ m, enumValues m ≡ₚ map_to_list m) → ops_ok labelsOf ∅ ops →
  let items := foldl items_step ∅ ops in
  ∃ idx l n, index_run zeroID enumMap ops New = Ret idx ∧
    Scan enumMap sortSlice enumItems enumValues f (StrategyFor k r idx) acc = Ret (iterWhile f l acc).1 ∧ NoDup l ∧
    (∀ id, id ∈ l ↔ ∃ item, items !! id = Some item ∧ scanMatches r (labelsOf item !! k)) ∧
    EstimatedItemsToScan (StrategyFor k r idx) = Ret n ∧ (Z.of_nat (length l) ≤ n)%Z ∧
    ((∀ vs, MustHaveOneOfValues r = Some vs → NoDup vs) → n = Z.of_nat (length l)) ∧
    (∀ node lr id item, Node_LabelRestrictions node = Some lr → lr !! k = Some r → items !! id = Some item →
       Evaluate node (labelsOf item) = true → id ∈ l).
Proof.
  intros He Hs Hi Hv Hops items. destruct (items_run_ok zeroID enumMap He labelsOf ops New (New_ok zeroID labelsOf) Hops) as (idx&Hrun&Hok&Hitems).
  destruct (StrategyFor_good zeroID enumMap He labelsOf sortSlice Hs enumItems Hi enumValues Hv f acc idx Hok k r)
    as (l&n&Hscan&[Hnd Hin]&Hest&Hle&Heq).
  rewrite Hitems in Hin. exists idx, l, n. split_and!; [done..|]. intros node lr id item Hlr Hr Hid Hev. apply Hin. exists item. split; [done|].
  destruct (LabelRestrictions_hold (labelsOf item) node lr Hlr Hev k r Hr) as (Hp&_&Hvals). by intros ?; split; [apply Hp|apply Hvals].
Qed.

(** Three items, one of them removed; a scan for "a in {x, y}" that collects the IDs. *)
Definition scanExample : list (IndexOp (ItemID := nat)) :=
  [OpAddItem [("a", "x")] 1 ({["a" := "x"]} : gmap string string); OpAddItem [("a", "y")] 2 {["a" := "y"]};
   OpAddItem [("a", "x")] 3 {["a" := "x"]}; OpRemoveItem [("a", "x")] 1].

Lemma scan_finds_matches_witness :
  ∃ idx l, index_run 0 elements scanExample New = Ret idx ∧
    Scan elements (λ _ l, l) (λ m, (map_to_list m).*1) map_to_list (λ acc id, (acc ++ [id], true))
      (StrategyFor "a" (MkLabelRestriction true false (Some ["x"; "y"])) idx) [] = Ret l ∧ length l = 2.
Proof.
  destruct (scan_finds_matches 0 elements (λ _ l, l) (λ m, (map_to_list m).*1) map_to_list (λ m, m) scanExample
    (λ acc id, (acc ++ [id], true)) [] "a" (MkLabelRestriction true false (Some ["x"; "y"]))) as (idx&l&n&Hrun&Hscan&_);
    [done..|vm_compute; naive_solver|].
  set (res := (iterWhile _ l []).1) in Hscan. clearbody res. exists idx, res. split_and!; [done|done|].
  vm_compute in Hrun. injection Hrun as <-. vm_compute in Hscan. by injection Hscan as <-.
Defined.
