(* ===== verification/CIDR.v ===== *)
(** * Felix's addresses and CIDRs: [felix/ip/ip_addr.go], and the common prefixes of [trie.go]

    Addresses are fixed-size byte arrays in Go; here they are their big-endian values, 32 bits
    or two halves of 64 bits, so [AsUint32] and [AsUint64Pair] are the stored values.  The
    arithmetic is that of Go's unsigned types: conversions wrap, a shift by the width or more
    gives zero.  The second part of the file relates the words to strings of bits. *)
From S2P Require Import Prelude.
From stdpp Require Import base list gmap numbers.
From stdpp Require Import options.
#[local] Open Scope Z_scope.

(** ** Machine words *)
Definition uintN (w x : Z) : Z := x mod 2 ^ w.
Definition uint8 : Z → Z := uintN 8.

Definition shl (w x s : Z) : Z := if s <? w then uintN w (Z.shiftl x s) else 0.
Definition shr (w x s : Z) : Z := if s <? w then Z.shiftr x s else 0.

(** [math/bits]: the length of a word, and its leading zeros. *)
Definition bitsLen (x : Z) : Z := if x =? 0 then 0 else Z.log2 x + 1.
Definition LeadingZeros (w x : Z) : Z := w - bitsLen x.

(** ** Addresses *)
Inductive Addr :=
  | V4Addr (a : Z)
  | V6Addr (h l : Z).

#[global] Instance Addr_eq_dec : EqDecision Addr.
Proof. solve_decision. Defined.

Definition Addr_Version (a : Addr) : Z := match a with V4Addr _ => 4 | V6Addr _ _ => 6 end.

(** The differences are of [uint]s, which wrap. *)
Definition V4_NthBit (a : Z) (n : Z) : Z := Z.land (shr 32 a (uintN 64 (32 - n))) 1.

Definition V6_NthBit (h l : Z) (n : Z) : Z :=
  if n <=? 64 then Z.land (shr 64 h (uintN 64 (64 - n))) 1 else Z.land (shr 64 l (uintN 64 (128 - n))) 1.

Definition NthBit (a : Addr) (n : Z) : Z := match a with V4Addr a => V4_NthBit a n | V6Addr h l => V6_NthBit h l n end.

(** [big.Int.Bytes] is the absolute value; a result of more than 16 bytes gives a negative
    offset, and slicing panics. *)
Definition Addr_Add (a : Addr) (n : Z) : outcome Empty_set Addr :=
  match a with
  | V4Addr a => Ret (V4Addr (uintN 32 (a + n)))
  | V6Addr h l =>
      let v := Z.abs (h * 2 ^ 64 + l + n) in
      if v <? 2 ^ 128 then Ret (V6Addr (v / 2 ^ 64) (v mod 2 ^ 64)) else Panic
  end.

(** ** CIDRs *)
Inductive CIDR :=
  | V4CIDR (addr : Z) (prefix : Z)
  | V6CIDR (h l : Z) (prefix : Z).

#[global] Instance CIDR_eq_dec : EqDecision CIDR.
Proof. solve_decision. Defined.

#[global] Instance CIDR_countable : Countable CIDR.
Proof.
  refine (inj_countable' (λ c, match c with V4CIDR a p => inl (a, p) | V6CIDR h l p => inr (h, l, p) end)
            (λ s, match s with inl (a, p) => V4CIDR a p | inr (h, l, p) => V6CIDR h l p end) _).
  by intros [].
Defined.

Definition Version (c : CIDR) : Z := match c with V4CIDR _ _ => 4 | V6CIDR _ _ _ => 6 end.
Definition AddrOf (c : CIDR) : Addr := match c with V4CIDR a _ => V4Addr a | V6CIDR h l _ => V6Addr h l end.
Definition Prefix (c : CIDR) : Z := match c with V4CIDR _ p => p | V6CIDR _ _ p => p end.

Definition AsCIDR (a : Addr) : CIDR := match a with V4Addr a => V4CIDR a 32 | V6Addr h l => V6CIDR h l 128 end.

Definition IsSingleAddress (c : CIDR) : bool :=
  match c with V4CIDR _ p => p =? 32 | V6CIDR _ _ p => p =? 128 end.

Definition ContainsV4 (a32 prefix b32 : Z) : bool :=
  prefix <=? uint8 (LeadingZeros 32 (Z.lxor a32 b32)).

Definition ContainsV6 (a_h a_l prefix b_h b_l : Z) : bool :=
  let xored_h := Z.lxor a_h b_h in
  let xored_l := Z.lxor a_l b_l in
  let commonPrefixLen :=
    if xored_h =? 0 then uint8 (64 + uint8 (LeadingZeros 64 xored_l)) else uint8 (LeadingZeros 64 xored_h) in
  prefix <=? commonPrefixLen.

Definition CIDR_Contains (c : CIDR) (addr : Addr) : bool :=
  match c, addr with
  | V4CIDR a p, V4Addr b => ContainsV4 a p b
  | V6CIDR h l p, V6Addr h' l' => ContainsV6 h l p h' l'
  | _, _ => false
  end.

(** ** Common prefixes *)
Definition V4CommonPrefix (a32 a_prefix b32 b_prefix : Z) : CIDR :=
  let commonPrefixLen := uint8 (LeadingZeros 32 (Z.lxor a32 b32)) in
  let prefix := Z.min commonPrefixLen (Z.min b_prefix a_prefix) in
  let mask := shl 32 (Z.ones 32) (uint8 (32 - prefix)) in
  V4CIDR (Z.land mask a32) prefix.

Definition V6CommonPrefix (a_h a_l a_prefix b_h b_l b_prefix : Z) : CIDR :=
  let xored_h := Z.lxor a_h b_h in
  let xored_l := Z.lxor a_l b_l in
  let maxLen := Z.min b_prefix a_prefix in
  if xored_h =? 0 then
    let commonPrefixLen := uint8 (64 + uint8 (LeadingZeros 64 xored_l)) in
    let prefix := Z.min commonPrefixLen maxLen in
    let mask := shl 64 (Z.ones 64) (uint8 (128 - prefix)) in
    V6CIDR a_h (Z.land mask a_l) prefix
  else
    let commonPrefixLen := uint8 (LeadingZeros 64 xored_h) in
    let prefix := Z.min commonPrefixLen maxLen in
    let mask := shl 64 (Z.ones 64) (uint8 (64 - prefix)) in
    V6CIDR (Z.land mask a_h) 0 prefix.

Definition CommonPrefix (a b : CIDR) : outcome Empty_set CIDR :=
  match a, b with
  | V4CIDR a32 a_prefix, V4CIDR b32 b_prefix => Ret (V4CommonPrefix a32 a_prefix b32 b_prefix)
  | V6CIDR a_h a_l a_prefix, V6CIDR b_h b_l b_prefix => Ret (V6CommonPrefix a_h a_l a_prefix b_h b_l b_prefix)
  | _, _ => Panic
  end.

(** ** Words as strings of bits, the most significant first *)
Definition word_ok (w x : Z) : Prop := 0 <= x < 2 ^ w.

Definition wordBits (w : nat) (x : Z) : list bool := (λ i, Z.testbit x (Z.of_nat w - 1 - Z.of_nat i)) <$> seq 0 w.

Lemma wordBits_length w x : length (wordBits w x) = w.
Proof. unfold wordBits. by rewrite length_fmap, length_seq. Qed.

Lemma wordBits_lookup w x i : (i < w)%nat → wordBits w x !! i = Some (Z.testbit x (Z.of_nat w - 1 - Z.of_nat i)).
Proof. intros Hi. unfold wordBits. rewrite list_lookup_fmap, lookup_seq_lt by done. done. Qed.

Lemma word_above w x j : word_ok w x → w <= j → Z.testbit x j = false.
Proof.
  intros [H0 Hx] Hj. destruct (Z.eq_dec x 0) as [->|Hne]; [apply Z.testbit_0_l|].
  apply Z.bits_above_log2; [done|]. assert (Z.log2 x < w) by (apply Z.log2_lt_pow2; lia). lia.
Qed.

Lemma word_ok_bits w x : 0 <= w → 0 <= x → (∀ j, w <= j → Z.testbit x j = false) → word_ok w x.
Proof.
  intros Hw Hx Hb. split; [done|]. destruct (Z.eq_dec x 0) as [->|Hne]; [lia|]. apply Z.log2_lt_pow2; [lia|].
  destruct (Z.lt_ge_cases (Z.log2 x) w) as [|Hge]; [done|]. apply Hb in Hge. rewrite Z.bit_log2 in Hge by lia. done.
Qed.

Lemma wordBits_inj w x y : word_ok (Z.of_nat w) x → word_ok (Z.of_nat w) y → wordBits w x = wordBits w y → x = y.
Proof.
  intros [Hx0 Hx] [Hy0 Hy] Heq. apply Z.bits_inj'. intros j Hj. destruct (Z.lt_ge_cases j (Z.of_nat w)) as [Hlt|Hge].
  - assert (Hi : wordBits w x !! (w - 1 - Z.to_nat j)%nat = wordBits w y !! (w - 1 - Z.to_nat j)%nat) by (by rewrite Heq).
    rewrite !wordBits_lookup in Hi by lia. injection Hi as Hi.
    by replace (Z.of_nat w - 1 - Z.of_nat (w - 1 - Z.to_nat j)) with j in Hi by lia.
  - by rewrite !(word_above (Z.of_nat w)).
Qed.

(** The leading zeros are the first bits that are false. *)
Lemma LeadingZeros_bounds w x : 0 <= w → word_ok w x → 0 <= LeadingZeros w x <= w.
Proof.
  intros Hw [H0 Hx]. unfold LeadingZeros, bitsLen. destruct (Z.eqb_spec x 0) as [->|Hne]; [lia|].
  pose proof (Z.log2_nonneg x). assert (Z.log2 x < w) by (apply Z.log2_lt_pow2; lia). lia.
Qed.

Lemma LeadingZeros_lt w x : 0 <= w → word_ok w x → x ≠ 0 → 0 <= LeadingZeros w x < w.
Proof.
  intros Hw Hx Hne. pose proof (LeadingZeros_bounds w x Hw Hx). unfold LeadingZeros, bitsLen in *.
  destruct (Z.eqb_spec x 0); [done|]. pose proof (Z.log2_nonneg x). lia.
Qed.

Lemma LeadingZeros_zeros w x i : word_ok w x → 0 <= i < LeadingZeros w x → Z.testbit x (w - 1 - i) = false.
Proof.
  intros [H0 Hx] Hi. unfold LeadingZeros, bitsLen in Hi. destruct (Z.eqb_spec x 0) as [->|Hne]; [apply Z.testbit_0_l|].
  apply Z.bits_above_log2; lia.
Qed.

Lemma LeadingZeros_one w x : word_ok w x → LeadingZeros w x < w → Z.testbit x (w - 1 - LeadingZeros w x) = true.
Proof.
  intros [H0 Hx] Hlt. unfold LeadingZeros, bitsLen in *. destruct (Z.eqb_spec x 0) as [->|Hne]; [lia|].
  replace (w - 1 - (w - (Z.log2 x + 1))) with (Z.log2 x) by lia. apply Z.bit_log2. lia.
Qed.

Lemma word_lxor w x y : 0 <= w → word_ok w x → word_ok w y → word_ok w (Z.lxor x y).
Proof.
  intros Hw Hx Hy. apply word_ok_bits; [done|apply Z.lxor_nonneg; unfold word_ok in *; lia|].
  intros j Hj. by rewrite Z.lxor_spec, !(word_above w).
Qed.

Lemma word_land w x y : 0 <= w → word_ok w x → 0 <= y → word_ok w (Z.land y x).
Proof.
  intros Hw Hx Hy. apply word_ok_bits; [done|apply Z.land_nonneg; unfold word_ok in *; lia|].
  intros j Hj. rewrite Z.land_spec, (word_above w x) by done. apply andb_false_r.
Qed.

(** The bits of the masks. *)
Lemma mask_bits w s j : 0 <= s → 0 <= j → Z.testbit (shl w (Z.ones w) s) j = (s <=? j) && (j <? w).
Proof.
  intros Hs Hj. unfold shl, uintN. destruct (Z.ltb_spec s w) as [Hlt|Hge].
  - destruct (Z.ltb_spec j w) as [Hjw|Hjw].
    + rewrite Z.mod_pow2_bits_low by lia. rewrite Z.shiftl_spec by lia. destruct (Z.leb_spec s j).
      * rewrite Z.ones_spec_low by lia. done.
      * by rewrite Z.testbit_neg_r by lia.
    + rewrite Z.mod_pow2_bits_high by lia. by rewrite andb_false_r.
  - rewrite Z.testbit_0_l. destruct (Z.leb_spec s j), (Z.ltb_spec j w); try done. lia.
Qed.

Lemma mask_nonneg w s : 0 <= w → 0 <= shl w (Z.ones w) s.
Proof. intros Hw. unfold shl, uintN. destruct (s <? w); [|done]. apply Z.mod_pos_bound. lia. Qed.

Lemma masked_bits w x (p : nat) :
  (p <= w)%nat →
  wordBits w (Z.land (shl (Z.of_nat w) (Z.ones (Z.of_nat w)) (Z.of_nat w - Z.of_nat p)) x) =
  take p (wordBits w x) ++ replicate (w - p) false.
Proof.
  intros Hp. apply list_eq_same_length with (n := w); [|by rewrite wordBits_length|].
  { rewrite length_app, length_take, wordBits_length, length_replicate. lia. }
  intros i b1 b2 Hi. rewrite wordBits_lookup by done. intros [= <-]. rewrite Z.land_spec, mask_bits by lia.
  destruct (decide (i < p)%nat) as [Hlt|Hge].
  - rewrite lookup_app_l by (rewrite length_take, wordBits_length; lia). rewrite lookup_take_lt, wordBits_lookup by lia.
    intros [= <-]. destruct (Z.leb_spec (Z.of_nat w - Z.of_nat p) (Z.of_nat w - 1 - Z.of_nat i)); [|lia].
    destruct (Z.ltb_spec (Z.of_nat w - 1 - Z.of_nat i) (Z.of_nat w)); [|lia]. done.
  - rewrite lookup_app_r by (rewrite length_take, wordBits_length; lia). rewrite length_take, wordBits_length, Nat.min_l by lia.
    rewrite lookup_replicate_2 by lia. intros [= <-].
    destruct (Z.leb_spec (Z.of_nat w - Z.of_nat p) (Z.of_nat w - 1 - Z.of_nat i)); [lia|]. done.
Qed.

Lemma wordBits_0 w : wordBits w 0 = replicate w false.
Proof.
  apply list_eq_same_length with (n := w); [by rewrite length_replicate|by rewrite wordBits_length|].
  intros i b1 b2 Hi. rewrite wordBits_lookup, lookup_replicate_2, Z.testbit_0_l by done. congruence.
Qed.

(** ** The first difference of two strings of bits *)
Record differ_at (n : nat) (l1 l2 : list bool) : Prop := {
  da_length : length l1 = length l2;
  da_le : (n <= length l1)%nat;
  da_same : take n l1 = take n l2;
  da_differ : (n < length l1)%nat → l1 !! n ≠ l2 !! n
}.

Lemma differ_prefix n l1 l2 p :
  differ_at n l1 l2 → (p <= length l1)%nat → take p l1 `prefix_of` l2 ↔ (p <= n)%nat.
Proof.
  intros [Hlen Hle Hsame Hdiff] Hp. split.
  - intros Hpre. destruct (decide (p <= n)%nat) as [|Hgt]; [done|]. exfalso. apply Hdiff; [lia|].
    destruct (lookup_lt_is_Some_2 l1 n) as [b Hb]; [lia|].
    rewrite Hb. symmetry. eapply prefix_lookup_Some; [|exact Hpre]. by rewrite lookup_take_lt by lia.
  - intros Hpn. replace (take p l1) with (take p l2); [apply prefix_take|].
    rewrite <- (Nat.min_l p n) by done. rewrite <- !take_take. by rewrite Hsame.
Qed.

Lemma word_differ w x y :
  word_ok (Z.of_nat w) x → word_ok (Z.of_nat w) y →
  differ_at (Z.to_nat (LeadingZeros (Z.of_nat w) (Z.lxor x y))) (wordBits w x) (wordBits w y).
Proof.
  intros Hx Hy. assert (Hok : word_ok (Z.of_nat w) (Z.lxor x y)) by (apply word_lxor; [lia|done..]).
  pose proof (LeadingZeros_bounds (Z.of_nat w) (Z.lxor x y) ltac:(lia) Hok) as Hb. split; rewrite ?wordBits_length; [done|lia| |].
  - apply list_eq. intros i. destruct (decide (i < Z.to_nat (LeadingZeros (Z.of_nat w) (Z.lxor x y)))%nat) as [Hi|Hi].
    + rewrite !lookup_take_lt, !wordBits_lookup by lia. f_equal. apply xorb_eq. rewrite <- Z.lxor_spec.
      apply LeadingZeros_zeros; [done|lia].
    + by rewrite !lookup_take_ge by lia.
  - intros Hlt. rewrite !wordBits_lookup by lia. intros [= Heq].
    assert (Ht : Z.testbit (Z.lxor x y) (Z.of_nat w - 1 - LeadingZeros (Z.of_nat w) (Z.lxor x y)) = true) by (apply LeadingZeros_one; [done|lia]).
    rewrite Z2Nat.id in Heq by lia. rewrite Z.lxor_spec, Heq, xorb_nilpotent in Ht. done.
Qed.

Lemma differ_app_l n l1 l2 k1 k2 :
  differ_at n l1 l2 → (n < length l1)%nat → length k1 = length k2 → differ_at n (l1 ++ k1) (l2 ++ k2).
Proof.
  intros [Hlen Hle Hsame Hdiff] Hn Hk. split.
  - rewrite !length_app. lia.
  - rewrite length_app. lia.
  - by rewrite !take_app_le by lia.
  - intros _. rewrite !lookup_app_l by lia. by apply Hdiff.
Qed.

Lemma differ_app_r n l k1 k2 : differ_at n k1 k2 → differ_at (length l + n) (l ++ k1) (l ++ k2).
Proof.
  intros [Hlen Hle Hsame Hdiff]. split.
  - rewrite !length_app. lia.
  - rewrite length_app. lia.
  - by rewrite !take_app_add, Hsame.
  - rewrite length_app. intros Hn. rewrite !lookup_app_r by lia.
    replace (length l + n - length l)%nat with n by lia. apply Hdiff. lia.
Qed.

(** ** Addresses and CIDRs as strings of bits *)
Definition addrBits (a : Addr) : list bool :=
  match a with V4Addr a => wordBits 32 a | V6Addr h l => wordBits 64 h ++ wordBits 64 l end.

Definition addr_ok (a : Addr) : Prop :=
  match a with V4Addr a => word_ok 32 a | V6Addr h l => word_ok 64 h ∧ word_ok 64 l end.

Definition addrWidth (a : Addr) : nat := match a with V4Addr _ => 32 | V6Addr _ _ => 128 end.

Lemma addrBits_length a : length (addrBits a) = addrWidth a.
Proof. destruct a; cbn [addrBits]; by rewrite ?length_app, ?wordBits_length. Qed.

Lemma addrBits_inj a b : Addr_Version a = Addr_Version b → addr_ok a → addr_ok b → addrBits a = addrBits b → a = b.
Proof.
  destruct a as [a|h l], b as [b|h' l']; try done; cbn [addrBits]; intros _ Ha Hb Heq.
  - f_equal. by apply (wordBits_inj 32).
  - destruct Ha, Hb. apply app_inj_1 in Heq as [Hh Hl]; [|by rewrite !wordBits_length]. f_equal; by apply (wordBits_inj 64).
Qed.

(** The length of the common prefix, as [Contains] and [CommonPrefix] compute it. *)
Definition commonLen (a b : Addr) : Z :=
  match a, b with
  | V4Addr a32, V4Addr b32 => uint8 (LeadingZeros 32 (Z.lxor a32 b32))
  | V6Addr a_h a_l, V6Addr b_h b_l =>
      if Z.lxor a_h b_h =? 0 then uint8 (64 + uint8 (LeadingZeros 64 (Z.lxor a_l b_l)))
      else uint8 (LeadingZeros 64 (Z.lxor a_h b_h))
  | _, _ => 0
  end.

Lemma uint8_small x : 0 <= x < 256 → uint8 x = x.
Proof. intros Hx. unfold uint8, uintN. by apply Z.mod_small. Qed.

Lemma commonLen_spec a b :
  Addr_Version a = Addr_Version b → addr_ok a → addr_ok b →
  0 <= commonLen a b ∧ differ_at (Z.to_nat (commonLen a b)) (addrBits a) (addrBits b).
Proof.
  destruct a as [a|h l], b as [b|h' l']; try done; cbn [addrBits commonLen]; intros _ Ha Hb.
  - pose proof (LeadingZeros_bounds 32 (Z.lxor a b) ltac:(lia) (word_lxor 32 a b ltac:(lia) Ha Hb)).
    rewrite uint8_small by lia. split; [lia|]. by apply (word_differ 32).
  - destruct Ha as [Hh Hl], Hb as [Hh' Hl'].
    pose proof (LeadingZeros_bounds 64 (Z.lxor h h') ltac:(lia) (word_lxor 64 h h' ltac:(lia) Hh Hh')).
    pose proof (LeadingZeros_bounds 64 (Z.lxor l l') ltac:(lia) (word_lxor 64 l l' ltac:(lia) Hl Hl')).
    destruct (Z.eqb_spec (Z.lxor h h') 0) as [Hz|Hnz].
    + apply Z.lxor_eq in Hz as <-. rewrite !uint8_small by (rewrite ?uint8_small; lia). split; [lia|].
      replace (Z.to_nat (64 + LeadingZeros 64 (Z.lxor l l'))) with (length (wordBits 64 h) + Z.to_nat (LeadingZeros 64 (Z.lxor l l')))%nat
        by (rewrite wordBits_length; lia).
      apply differ_app_r. by apply (word_differ 64).
    + rewrite uint8_small by lia. split; [lia|]. apply differ_app_l; [by apply (word_differ 64)| |by rewrite !wordBits_length].
      rewrite wordBits_length. assert (LeadingZeros 64 (Z.lxor h h') < 64); [|lia].
      unfold LeadingZeros, bitsLen. destruct (Z.eqb_spec (Z.lxor h h') 0); [done|]. pose proof (Z.log2_nonneg (Z.lxor h h')). lia.
Qed.

Definition bitsOf (c : CIDR) : list bool := take (Z.to_nat (Prefix c)) (addrBits (AddrOf c)).

(** A canonical CIDR: the prefix is in range, and the bits beyond it are zero. *)
Record cidr_ok (c : CIDR) : Prop := {
  co_addr : addr_ok (AddrOf c);
  co_prefix : 0 <= Prefix c <= Z.of_nat (addrWidth (AddrOf c));
  co_zero : drop (Z.to_nat (Prefix c)) (addrBits (AddrOf c)) = replicate (addrWidth (AddrOf c) - Z.to_nat (Prefix c)) false
}.

Lemma bitsOf_length c : cidr_ok c → length (bitsOf c) = Z.to_nat (Prefix c).
Proof. intros [_ Hp _]. unfold bitsOf. rewrite length_take, addrBits_length. lia. Qed.

Lemma addrBits_cidr c :
  cidr_ok c → addrBits (AddrOf c) = bitsOf c ++ replicate (addrWidth (AddrOf c) - Z.to_nat (Prefix c)) false.
Proof. intros [_ _ Hz]. unfold bitsOf. by rewrite <- Hz, take_drop. Qed.

Lemma Version_AddrOf c : Addr_Version (AddrOf c) = Version c.
Proof. by destruct c. Qed.

Lemma addrWidth_Version a b : Addr_Version a = Addr_Version b → addrWidth a = addrWidth b.
Proof. by destruct a, b. Qed.

Lemma bitsOf_inj c d : Version c = Version d → cidr_ok c → cidr_ok d → bitsOf c = bitsOf d → c = d.
Proof.
  intros Hv Hc Hd Heq. assert (Hp : Prefix c = Prefix d).
  { pose proof (bitsOf_length c Hc). pose proof (bitsOf_length d Hd). destruct Hc as [_ ? _], Hd as [_ ? _]. rewrite Heq in *. lia. }
  assert (Ha : AddrOf c = AddrOf d).
  { apply addrBits_inj; [by rewrite !Version_AddrOf|apply Hc|apply Hd|]. rewrite (addrBits_cidr c Hc), (addrBits_cidr d Hd), Heq, Hp.
    rewrite (addrWidth_Version (AddrOf c) (AddrOf d)); [done|by rewrite !Version_AddrOf]. }
  destruct c, d; cbn in *; congruence.
Qed.

Lemma CIDR_Contains_len c a : Version c = Addr_Version a → CIDR_Contains c a = (Prefix c <=? commonLen (AddrOf c) a).
Proof. by destruct c, a. Qed.

Lemma CIDR_Contains_spec c a :
  Version c = Addr_Version a → cidr_ok c → addr_ok a → CIDR_Contains c a = true ↔ bitsOf c `prefix_of` addrBits a.
Proof.
  intros Hv Hc Ha. rewrite CIDR_Contains_len, Z.leb_le by done.
  destruct (commonLen_spec (AddrOf c) a) as [H0 Hd]; [by rewrite Version_AddrOf|apply Hc|done|].
  destruct Hc as [_ Hp _]. unfold bitsOf. rewrite (differ_prefix _ _ _ _ Hd) by (rewrite addrBits_length; lia). lia.
Qed.

(** ** [CommonPrefix] is the longest common prefix *)
Fixpoint lcp (l1 l2 : list bool) : list bool :=
  match l1, l2 with
  | b1 :: l1', b2 :: l2' => if Bool.eqb b1 b2 then b1 :: lcp l1' l2' else []
  | _, _ => []
  end.

Lemma differ_lcp n l1 l2 p1 p2 :
  differ_at n l1 l2 → lcp (take p1 l1) (take p2 l2) = take (n `min` (p2 `min` p1)) l1.
Proof.
  revert n l2 p1 p2. induction l1 as [|b1 l1 IH]; intros n l2 p1 p2 [Hlen Hle Hsame Hdiff].
  { by rewrite !take_nil. }
  destruct l2 as [|b2 l2]; [done|]. destruct p1 as [|p1]; [by rewrite !Nat.min_0_r|]. destruct p2 as [|p2].
  { rewrite Nat.min_0_r. cbn. done. }
  cbn [take lcp]. destruct n as [|n].
  - destruct (Bool.eqb_spec b1 b2) as [->|]; [|done]. by destruct (Hdiff ltac:(cbn; lia)).
  - cbn in Hsame. injection Hsame as -> Hsame. rewrite Bool.eqb_reflx. cbn. f_equal. apply IH. split; [| |done|].
    + by injection Hlen.
    + cbn in Hle. lia.
    + intros Hn. apply Hdiff. cbn. lia.
Qed.

Lemma lcp_prefix_l l1 l2 : lcp l1 l2 `prefix_of` l1.
Proof.
  revert l2. induction l1 as [|b1 l1 IH]; intros [|b2 l2]; cbn; [apply prefix_nil..|]. destruct (Bool.eqb b1 b2); [|apply prefix_nil].
  by apply prefix_cons.
Qed.

Lemma lcp_comm l1 l2 : lcp l1 l2 = lcp l2 l1.
Proof.
  revert l2. induction l1 as [|b1 l1 IH]; intros [|b2 l2]; cbn; [done..|]. by destruct b1, b2; cbn; rewrite ?IH.
Qed.

Lemma lcp_prefix_r l1 l2 : lcp l1 l2 `prefix_of` l2.
Proof. rewrite lcp_comm. apply lcp_prefix_l. Qed.

Lemma lcp_greatest l l1 l2 : l `prefix_of` l1 → l `prefix_of` l2 → l `prefix_of` lcp l1 l2.
Proof.
  revert l1 l2. induction l as [|b l IH]; intros l1 l2 H1 H2; [apply prefix_nil|].
  destruct H1 as [k1 ->], H2 as [k2 ->]. cbn. rewrite Bool.eqb_reflx. apply prefix_cons, IH; by apply prefix_app_r.
Qed.

Lemma lcp_l l1 l2 : l1 `prefix_of` l2 → lcp l1 l2 = l1.
Proof. intros Hp. apply (anti_symm prefix); [apply lcp_prefix_l|by apply lcp_greatest]. Qed.

(** A CIDR whose address is a prefix of another address, padded with zeroes. *)
Lemma padded_cidr c a (p : nat) :
  Prefix c = Z.of_nat p → Version c = Addr_Version a → (p <= addrWidth a)%nat → addr_ok (AddrOf c) →
  addrBits (AddrOf c) = take p (addrBits a) ++ replicate (addrWidth a - p) false →
  cidr_ok c ∧ bitsOf c = take p (addrBits a).
Proof.
  intros Hp Hv Hle Hok Hb. assert (Hlen : length (take p (addrBits a)) = p) by (rewrite length_take, addrBits_length; lia).
  assert (Hw : addrWidth (AddrOf c) = addrWidth a) by (apply addrWidth_Version; by rewrite Version_AddrOf).
  unfold bitsOf. rewrite Hp, Nat2Z.id, Hb. split.
  - split; [done|rewrite Hp, Hw; lia|]. rewrite Hp, Nat2Z.id, Hb, Hw. by rewrite drop_app_length'.
  - by rewrite take_app_length'.
Qed.

Lemma V4CommonPrefix_ok a32 pa b32 pb :
  let a := V4CIDR a32 pa in let b := V4CIDR b32 pb in let c := V4CommonPrefix a32 pa b32 pb in
  cidr_ok a → cidr_ok b → cidr_ok c ∧ bitsOf c = lcp (bitsOf a) (bitsOf b).
Proof.
  intros a b c Ha Hb. destruct (commonLen_spec (V4Addr a32) (V4Addr b32)) as [H0 Hd]; [done|apply Ha|apply Hb|].
  cbn in H0, Hd. pose proof (co_prefix _ Ha) as Hpa. pose proof (co_prefix _ Hb) as Hpb. cbn in Hpa, Hpb.
  unfold bitsOf at 2 3. cbn [AddrOf Prefix addrBits a b]. rewrite (differ_lcp _ _ _ _ _ Hd).
  set (n := uint8 (LeadingZeros 32 (Z.lxor a32 b32))) in *.
  assert (Hp : Z.min n (Z.min pb pa) = Z.of_nat (Z.to_nat n `min` (Z.to_nat pb `min` Z.to_nat pa))) by lia.
  set (p := (Z.to_nat n `min` (Z.to_nat pb `min` Z.to_nat pa))%nat) in *.
  assert (Hc : c = V4CIDR (Z.land (shl 32 (Z.ones 32) (32 - Z.of_nat p)) a32) (Z.of_nat p)).
  { unfold c, V4CommonPrefix. fold n. rewrite Hp. by rewrite (uint8_small (32 - _)) by lia. }
  rewrite Hc. apply (padded_cidr _ (V4Addr a32)); cbn [AddrOf Prefix Version Addr_Version addr_ok addrWidth]; [done|done|lia| |].
  - apply word_land; [lia|apply Ha|]. apply mask_nonneg. lia.
  - cbn [addrBits]. apply (masked_bits 32). lia.
Qed.

Lemma V6_low_bits h l (p : nat) :
  (64 <= p <= 128)%nat →
  wordBits 64 h ++ wordBits 64 (Z.land (shl 64 (Z.ones 64) (128 - Z.of_nat p)) l) =
  (wordBits 64 h ++ take (p - 64) (wordBits 64 l)) ++ replicate (128 - p) false.
Proof.
  intros Hp. rewrite <- (assoc_L (++)). f_equal. replace (128 - Z.of_nat p) with (Z.of_nat 64 - Z.of_nat (p - 64)) by lia.
  etrans; [apply (masked_bits 64); lia|]. f_equal. f_equal. lia.
Qed.

(** When the prefix of a canonical CIDR ends in the high word, the rest of that word is zero. *)
Lemma V6_high_zero h l p :
  cidr_ok (V6CIDR h l p) → (Z.to_nat p < 64)%nat → drop (Z.to_nat p) (wordBits 64 h) = replicate (64 - Z.to_nat p) false.
Proof.
  intros [_ _ Hz] Hp. cbn [AddrOf Prefix addrBits addrWidth] in Hz. rewrite drop_app_le in Hz by (rewrite wordBits_length; lia).
  apply (f_equal (take (64 - Z.to_nat p))) in Hz. rewrite take_app_length' in Hz by (rewrite length_drop, wordBits_length; lia).
  rewrite Hz, take_replicate. f_equal. lia.
Qed.

Lemma V6CommonPrefix_ok a_h a_l pa b_h b_l pb :
  let a := V6CIDR a_h a_l pa in let b := V6CIDR b_h b_l pb in let c := V6CommonPrefix a_h a_l pa b_h b_l pb in
  cidr_ok a → cidr_ok b → cidr_ok c ∧ bitsOf c = lcp (bitsOf a) (bitsOf b).
Proof.
  intros a b c Ha Hb. destruct (commonLen_spec (V6Addr a_h a_l) (V6Addr b_h b_l)) as [H0 Hd]; [done|apply Ha|apply Hb|].
  pose proof (co_prefix _ Ha) as Hpa. pose proof (co_prefix _ Hb) as Hpb. cbn in Hpa, Hpb.
  unfold bitsOf at 2 3. cbn [AddrOf Prefix a b]. rewrite (differ_lcp _ _ _ _ _ Hd).
  set (n := commonLen (V6Addr a_h a_l) (V6Addr b_h b_l)) in *.
  assert (Hp : Z.min n (Z.min pb pa) = Z.of_nat (Z.to_nat n `min` (Z.to_nat pb `min` Z.to_nat pa))) by lia.
  set (p := (Z.to_nat n `min` (Z.to_nat pb `min` Z.to_nat pa))%nat) in *.
  destruct (co_addr _ Ha) as [Hah Hal]. cbn in Hah, Hal.
  assert (Hc : c = if Z.lxor a_h b_h =? 0 then V6CIDR a_h (Z.land (shl 64 (Z.ones 64) (128 - Z.of_nat p)) a_l) (Z.of_nat p)
                   else V6CIDR (Z.land (shl 64 (Z.ones 64) (uint8 (64 - Z.of_nat p))) a_h) 0 (Z.of_nat p)).
  { unfold c, V6CommonPrefix. pose proof Hp as Hp'. unfold n, commonLen in Hp'. destruct (Z.lxor a_h b_h =? 0); rewrite Hp'; [|done].
    by rewrite (uint8_small (128 - _)) by lia. }
  assert (Hn : (Z.to_nat n <= 128)%nat) by (destruct Hd as [_ Hle _ _]; by rewrite addrBits_length in Hle).
  rewrite Hc. destruct (Z.eqb_spec (Z.lxor a_h b_h) 0) as [Heq|Hne].
  - apply Z.lxor_eq in Heq as <-. apply padded_cidr; cbn [AddrOf Prefix Version Addr_Version addr_ok addrWidth]; [done|done|lia| |].
    { split; [done|]. apply word_land; [lia|done|apply mask_nonneg; lia]. }
    destruct (decide (64 <= p)%nat) as [Hge|Hlt].
    + cbn [addrBits]. rewrite V6_low_bits by lia. by rewrite take_app_ge, wordBits_length by (rewrite wordBits_length; lia).
    + assert (Hn64 : (64 <= Z.to_nat n)%nat).
      { unfold n. cbn. rewrite Z.lxor_nilpotent. cbn [Z.eqb].
        pose proof (LeadingZeros_bounds 64 (Z.lxor a_l b_l) ltac:(lia) (word_lxor 64 a_l b_l ltac:(lia) Hal (proj2 (co_addr _ Hb)))).
        rewrite !uint8_small by (rewrite ?uint8_small; lia). lia. }
      assert (Hz : drop p (wordBits 64 a_h) = replicate (64 - p) false).
      { destruct (decide (Z.to_nat pb <= Z.to_nat pa)%nat).
        - replace p with (Z.to_nat pb) by lia. apply (V6_high_zero _ _ _ Hb). lia.
        - replace p with (Z.to_nat pa) by lia. apply (V6_high_zero _ _ _ Ha). lia. }
      cbn [addrBits]. rewrite take_app_le by (rewrite wordBits_length; lia). rewrite <- (take_drop p (wordBits 64 a_h)) at 1.
      rewrite Hz, <- (assoc_L (++)). f_equal. unfold shl. destruct (Z.ltb_spec (128 - Z.of_nat p) 64); [lia|].
      rewrite Z.land_0_l, wordBits_0, <- replicate_add. f_equal. lia.
  - assert (Hn64 : (Z.to_nat n < 64)%nat).
    { unfold n. cbn. destruct (Z.eqb_spec (Z.lxor a_h b_h) 0); [done|].
      pose proof (LeadingZeros_lt 64 (Z.lxor a_h b_h) ltac:(lia) (word_lxor 64 a_h b_h ltac:(lia) Hah (proj1 (co_addr _ Hb))) Hne).
      rewrite uint8_small by lia. lia. }
    apply padded_cidr; cbn [AddrOf Prefix Version Addr_Version addr_ok addrWidth]; [done|done|lia| |].
    { split; [|done]. apply word_land; [lia|done|apply mask_nonneg; lia]. }
    cbn [addrBits]. rewrite uint8_small by lia. rewrite (masked_bits 64) by lia.
    rewrite wordBits_0, take_app_le by (rewrite wordBits_length; lia). rewrite <- (assoc_L (++)), <- replicate_add. f_equal. f_equal. lia.
Qed.

Lemma CommonPrefix_ok a b :
  Version a = Version b → cidr_ok a → cidr_ok b →
  ∃ c, CommonPrefix a b = Ret c ∧ cidr_ok c ∧ Version c = Version a ∧ bitsOf c = lcp (bitsOf a) (bitsOf b).
Proof.
  destruct a as [a32 pa|a_h a_l pa], b as [b32 pb|b_h b_l pb]; try done; intros _ Ha Hb; cbn [CommonPrefix].
  - destruct (V4CommonPrefix_ok a32 pa b32 pb Ha Hb) as [Hok Hbits]. by exists (V4CommonPrefix a32 pa b32 pb).
  - destruct (V6CommonPrefix_ok a_h a_l pa b_h b_l pb Ha Hb) as [Hok Hbits]. exists (V6CommonPrefix a_h a_l pa b_h b_l pb).
    split_and!; [done|done| |done]. unfold V6CommonPrefix. by destruct (Z.lxor a_h b_h =? 0).
Qed.

(** ** [NthBit] counts from one, and is zero one past the last bit *)
Lemma land_1_testbit x k : 0 <= k → Z.land (Z.shiftr x k) 1 = Z.b2z (Z.testbit x k).
Proof.
  intros Hk. change 1 with (Z.ones 1). rewrite Z.land_ones by done. rewrite <- Z.bit0_mod, Z.shiftr_spec by done. done.
Qed.

Lemma shifted_bit w x (k : Z) : 0 <= k < w → w <= 2 ^ 64 → Z.land (shr w x (uintN 64 k)) 1 = Z.b2z (Z.testbit x k).
Proof.
  intros Hk Hw. unfold shr, uintN. rewrite Z.mod_small by lia. destruct (Z.ltb_spec k w); [|lia]. apply land_1_testbit. lia.
Qed.

Lemma NthBit_spec a n :
  (n <= addrWidth a)%nat → NthBit a (Z.of_nat n + 1) = Z.b2z (default false (addrBits a !! n)).
Proof.
  destruct a as [a|h l]; cbn [addrWidth addrBits NthBit]; intros Hn.
  - unfold V4_NthBit. destruct (decide (n < 32)%nat) as [Hlt|Hge].
    + rewrite wordBits_lookup by done. cbn [default]. rewrite shifted_bit by lia.
      by replace (32 - (Z.of_nat n + 1)) with (Z.of_nat 32 - 1 - Z.of_nat n) by lia.
    + rewrite lookup_ge_None_2 by (rewrite wordBits_length; lia). by replace n with 32%nat by lia.
  - unfold V6_NthBit. destruct (Z.leb_spec (Z.of_nat n + 1) 64) as [Hle|Hgt].
    + rewrite lookup_app_l, wordBits_lookup by (rewrite ?wordBits_length; lia). cbn [default]. rewrite shifted_bit by lia.
      by replace (64 - (Z.of_nat n + 1)) with (Z.of_nat 64 - 1 - Z.of_nat n) by lia.
    + rewrite lookup_app_r by (rewrite wordBits_length; lia). rewrite wordBits_length. destruct (decide (n < 128)%nat) as [Hlt|Hge].
      * rewrite wordBits_lookup by lia. cbn [default]. rewrite shifted_bit by lia.
        by replace (128 - (Z.of_nat n + 1)) with (Z.of_nat 64 - 1 - Z.of_nat (n - 64)) by lia.
      * rewrite lookup_ge_None_2 by (rewrite wordBits_length; lia). by replace n with 128%nat by lia.
Qed.

(** The bit after the prefix of a CIDR that is inside another one. *)
Lemma childIdx_spec c d :
  Version c = Version d → cidr_ok c → cidr_ok d → bitsOf c `prefix_of` bitsOf d →
  NthBit (AddrOf d) (Prefix c + 1) = Z.b2z (default false (bitsOf d !! length (bitsOf c))).
Proof.
  intros Hv Hc Hd Hp. pose proof (co_prefix _ Hc) as Hpc.
  assert (Hw : addrWidth (AddrOf c) = addrWidth (AddrOf d)) by (apply addrWidth_Version; by rewrite !Version_AddrOf).
  replace (Prefix c) with (Z.of_nat (length (bitsOf c))) by (rewrite bitsOf_length by done; lia).
  pose proof (bitsOf_length c Hc). rewrite NthBit_spec by lia. f_equal. rewrite (addrBits_cidr d Hd).
  destruct (decide (length (bitsOf c) < length (bitsOf d))%nat) as [Hlt|Hge]; [by rewrite lookup_app_l|].
  rewrite (lookup_ge_None_2 (bitsOf d)) by lia. rewrite lookup_app_r by lia.
  destruct (replicate _ false !! _) as [b|] eqn:Hb; [|done]. by apply lookup_replicate_1 in Hb as [-> _].
Qed.
