(* ===== verification/CIDRTrie.v ===== *)
(** * The CIDR trie: [felix/ip/trie.go]

    A binary trie with path compression.  A nil [*CIDRNode] is [NilNode]; nodes are not
    shared, so methods that mutate them return the new node.  [data] is an [any] that may be
    nil: [option D].  Comparing CIDRs of different IP versions panics. *)
From S2P Require Import Prelude CIDR.
From stdpp Require Import base list gmap numbers.
From stdpp Require Import options.

Section trie.
Context {D : Type}.

Inductive CIDRNode :=
  | NilNode
  | Node (cidr : CIDR) (children0 children1 : CIDRNode) (data : option D).

Abbreviation CIDRTrie := CIDRNode.
Definition NewCIDRTrie : CIDRTrie := NilNode.

Definition node_data (n : CIDRNode) : option D := match n with NilNode => None | Node _ _ _ d => d end.

(** [cidr.Addr().NthBit(uint(c.Prefix() + 1))]; the sum is of [uint8]s. *)
Definition childIdx (cidr c : CIDR) : Z := NthBit (AddrOf cidr) (uint8 (Prefix c + 1)).

Definition sameVersion {A} (c cidr : CIDR) (k : outcome Empty_set A) : outcome Empty_set A :=
  if decide (Version c ≠ Version cidr) then Panic else k.

(** ** Deletion *)
Fixpoint deleteInternal (n : CIDRNode) (cidr : CIDR) : outcome Empty_set CIDRNode :=
  match n with
  | NilNode => Panic
  | Node c c0 c1 d =>
      sameVersion c cidr
        (if negb (CIDR_Contains c (AddrOf cidr)) then Ret n
         else if decide (cidr = c) then
           Ret (match c0, c1 with
                | NilNode, _ => c1
                | _, NilNode => c0
                | _, _ => Node c c0 c1 None
                end)
         else if (childIdx cidr c =? 0)%Z then
           match c0 with
           | NilNode => Ret n
           | _ =>
               let! c0' := deleteInternal c0 cidr in
               Ret (match c0', d with NilNode, None => c1 | _, _ => Node c c0' c1 d end)
           end
         else
           match c1 with
           | NilNode => Ret n
           | _ =>
               let! c1' := deleteInternal c1 cidr in
               Ret (match c1', d with NilNode, None => c0 | _, _ => Node c c0 c1' d end)
           end)
  end.

Definition Delete (t : CIDRTrie) (cidr : CIDR) : outcome Empty_set CIDRTrie :=
  match t with
  | NilNode => Ret t
  | Node c _ _ _ =>
      let! pfx := CommonPrefix c cidr in
      if decide (pfx ≠ c) then Ret t else deleteInternal t cidr
  end.

(** ** Lookups *)
Fixpoint getNode (n : CIDRNode) (cidr : CIDR) (includeIntermediates : bool) : outcome Empty_set CIDRNode :=
  match n with
  | NilNode => Ret NilNode
  | Node c c0 c1 d =>
      sameVersion c cidr
        (if negb (CIDR_Contains c (AddrOf cidr)) then Ret NilNode
         else if decide (cidr = c) then
           Ret (if negb includeIntermediates && bool_decide (d = None) then NilNode else n)
         else if (childIdx cidr c =? 0)%Z then getNode c0 cidr includeIntermediates
         else getNode c1 cidr includeIntermediates)
  end.

Definition Get (t : CIDRTrie) (cidr : CIDR) : outcome Empty_set (option D) :=
  let! node := getNode t cidr false in Ret (node_data node).

Fixpoint lookupPath (n : CIDRNode) (buffer : list (CIDR * D)) (cidr : CIDR) : outcome Empty_set (list (CIDR * D)) :=
  match n with
  | NilNode => Ret []
  | Node c c0 c1 d =>
      sameVersion c cidr
        (if negb (CIDR_Contains c (AddrOf cidr)) then Ret []
         else
           let buffer' := match d with Some x => buffer ++ [(c, x)] | None => buffer end in
           if decide (cidr = c) then Ret (match d with None => [] | Some _ => buffer' end)
           else if (childIdx cidr c =? 0)%Z then lookupPath c0 buffer' cidr
           else lookupPath c1 buffer' cidr)
  end.

Definition LookupPath (t : CIDRTrie) (cidr : CIDR) : outcome Empty_set (list (CIDR * D)) := lookupPath t [] cidr.

(** The loop of [LPM]: the last node with data on the path. *)
Fixpoint lpmLoop (n : CIDRNode) (match_ : option (CIDR * D)) (cidr : CIDR) : option (CIDR * D) :=
  match n with
  | NilNode => match_
  | Node c c0 c1 d =>
      if negb (CIDR_Contains c (AddrOf cidr)) then match_
      else
        let match' := match d with Some x => Some (c, x) | None => match_ end in
        if decide (cidr = c) then match'
        else if (childIdx cidr c =? 0)%Z then lpmLoop c0 match' cidr else lpmLoop c1 match' cidr
  end.

Definition LPM (t : CIDRTrie) (cidr : CIDR) : CIDR * option D :=
  match lpmLoop t None cidr with
  | Some (c, x) => (c, Some x)
  | None => (match cidr with V4CIDR _ _ => V4CIDR 0 0 | V6CIDR _ _ _ => V6CIDR 0 0 0 end, None)
  end.

(** ** Covering *)
(** [t.root.cidr] of an empty trie is a nil dereference. *)
Definition CoveredBy (t : CIDRTrie) (cidr : CIDR) : outcome Empty_set bool :=
  match t with
  | NilNode => Panic
  | Node c _ _ _ => let! pfx := CommonPrefix c cidr in Ret (bool_decide (pfx = cidr))
  end.

Fixpoint covers (n : CIDRNode) (cidr : CIDR) : outcome Empty_set bool :=
  match n with
  | NilNode => Ret false
  | Node c c0 c1 d =>
      let! commonPfx := CommonPrefix c cidr in
      if decide (commonPfx ≠ c) then Ret false
      else match d with
           | Some _ => Ret true
           | None => if (childIdx cidr c =? 0)%Z then covers c0 cidr else covers c1 cidr
           end
  end.

Definition Covers (t : CIDRTrie) (cidr : CIDR) : outcome Empty_set bool := covers t cidr.

Fixpoint intersects (n : CIDRNode) (cidr : CIDR) : outcome Empty_set bool :=
  match n with
  | NilNode => Ret false
  | Node c c0 c1 d =>
      let! common := CommonPrefix c cidr in
      if decide (common = cidr) then Ret true
      else if decide (common ≠ c) then Ret false
      else if (childIdx cidr c =? 0)%Z then intersects c0 cidr else intersects c1 cidr
  end.

Definition Intersects (t : CIDRTrie) (cidr : CIDR) : outcome Empty_set bool := intersects t cidr.

Definition Overlaps (t : CIDRTrie) (cidr : CIDR) : outcome Empty_set bool :=
  let! b := Covers t cidr in if (b : bool) then Ret true else Intersects t cidr.

(** ** Enumeration *)
Fixpoint appendTo (n : CIDRNode) (s : list (CIDR * D)) : list (CIDR * D) :=
  match n with
  | NilNode => s
  | Node c c0 c1 d =>
      let s' := match d with Some x => s ++ [(c, x)] | None => s end in
      appendTo c1 (appendTo c0 s')
  end.

Definition ToSlice (t : CIDRTrie) : list (CIDR * D) := appendTo t [].

Fixpoint visit {A} (f : A → CIDR → D → A * bool) (n : CIDRNode) (acc : A) : A * bool :=
  match n with
  | NilNode => (acc, true)
  | Node c c0 c1 d =>
      let '(acc0, keepGoing) := match d with Some x => f acc c x | None => (acc, true) end in
      if negb keepGoing then (acc0, false)
      else
        let '(acc1, keepGoing) := visit f c0 acc0 in
        if negb keepGoing then (acc1, false) else visit f c1 acc1
  end.

Definition Visit {A} (f : A → CIDR → D → A * bool) (t : CIDRTrie) (acc : A) : A := (visit f t acc).1.

(** [ClosestDescendants] looks every intermediate child up again from the root; each call is
    for a longer prefix, so that the depth is at most one more than the width. *)
Fixpoint closestDescendants (fuel : nat) (t : CIDRTrie) (buf : list CIDR) (parent : CIDR) : outcome Empty_set (list CIDR) :=
  match fuel with
  | O => OutOfFuel
  | S fuel' =>
      let descend (buf : list CIDR) (child : CIDRNode) : outcome Empty_set (list CIDR) :=
        match child with
        | NilNode => Ret buf
        | Node c _ _ (Some _) => Ret (buf ++ [c])
        | Node c _ _ None => closestDescendants fuel' t buf c
        end in
      let! node := getNode t parent true in
      match node with
      | NilNode => Ret []
      | Node _ c0 c1 _ => let! buf' := descend buf c0 in descend buf' c1
      end
  end.

Definition ClosestDescendants (t : CIDRTrie) (buf : list CIDR) (parent : CIDR) : outcome Empty_set (list CIDR) :=
  closestDescendants 130 t buf parent.

(** ** Insertion *)
Fixpoint update (thisNode : CIDRNode) (cidr : CIDR) (value : D) : outcome Empty_set CIDRNode :=
  match thisNode with
  | NilNode => Ret (Node cidr NilNode NilNode (Some value))
  | Node c c0 c1 d =>
      if decide (c = cidr) then Ret (Node c c0 c1 (Some value))
      else
        let! commonPrefix := CommonPrefix cidr c in
        if (Prefix commonPrefix =? Prefix c)%Z then
          if (childIdx cidr commonPrefix =? 0)%Z
          then let! c0' := update c0 cidr value in Ret (Node c c0' c1 d)
          else let! c1' := update c1 cidr value in Ret (Node c c0 c1' d)
        else if (Prefix commonPrefix =? Prefix cidr)%Z then
          Ret (if (childIdx c commonPrefix =? 0)%Z
               then Node cidr thisNode NilNode (Some value)
               else Node cidr NilNode thisNode (Some value))
        else
          let newNode := Node cidr NilNode NilNode (Some value) in
          Ret (if (childIdx c commonPrefix =? 0)%Z
               then Node commonPrefix thisNode newNode None
               else Node commonPrefix newNode thisNode None)
  end.

Definition Update (t : CIDRTrie) (cidr : CIDR) (value : option D) : outcome Empty_set CIDRTrie :=
  match value with
  | None => Panic
  | Some value => update t cidr value
  end.
End trie.
Arguments CIDRNode D : clear implicits.
Abbreviation CIDRTrie D := (CIDRNode D).
