(* ===== verification/CIDRTrieSpec.v ===== *)
(** * The CIDR trie is a map from CIDRs, with exact covering queries

    The proofs see a CIDR as its string of bits ([bitsOf] of [CIDR.v]): containment is
    [prefix_of].  The invariant [node_ok v l n] says that a subtree holds CIDRs of version [v]
    below [l], that it branches on the next bit, and that every node without data has two
    children. *)
From S2P Require Import Prelude CIDR CIDRTrie.
From stdpp Require Import base list gmap numbers sorting.
From stdpp Require Import options.

Section spec.
Context {D : Type}.
Abbreviation Node_t := (CIDRNode D).
Implicit Types (n t : Node_t) (c q : CIDR) (l : list bool) (x : D).

Fixpoint node_ok (v : Z) l n : Prop :=
  match n with
  | NilNode => True
  | Node c c0 c1 d =>
      cidr_ok c ∧ Version c = v ∧ l `prefix_of` bitsOf c ∧
      (is_Some d ∨ c0 ≠ NilNode ∧ c1 ≠ NilNode) ∧
      node_ok v (bitsOf c ++ [false]) c0 ∧ node_ok v (bitsOf c ++ [true]) c1
  end.

(** The entries of a subtree. *)
Fixpoint entries n : list (CIDR * D) :=
  match n with
  | NilNode => []
  | Node c c0 c1 d => match d with Some x => [(c, x)] | None => [] end ++ entries c0 ++ entries c1
  end.

Lemma appendTo_entries n s : appendTo n s = s ++ entries n.
Proof.
  revert s. induction n as [|c c0 IH0 c1 IH1 d]; intros s; cbn [appendTo entries]; [by rewrite app_nil_r|].
  destruct d; by rewrite IH1, IH0, <- ?(assoc_L (++)).
Qed.

Lemma node_ok_weaken v l l' n : l' `prefix_of` l → node_ok v l n → node_ok v l' n.
Proof. destruct n as [|c c0 c1 d]; [done|]. intros Hp (?&?&?&?&?&?). split_and!; try done. by etrans. Qed.

(** What is below what. *)
Lemma node_ok_below v l n c x : node_ok v l n → (c, x) ∈ entries n → l `prefix_of` bitsOf c ∧ cidr_ok c ∧ Version c = v.
Proof.
  revert l. induction n as [|c' c0 IH0 c1 IH1 d]; intros l; cbn [node_ok entries]; [set_solver|].
  intros (Hc&Hv&Hl&_&H0&H1). rewrite !elem_of_app. intros [Hin|[Hin|Hin]].
  - destruct d; [|set_solver]. apply list_elem_of_singleton in Hin as [= -> ->]. done.
  - destruct (IH0 _ H0 Hin) as (Hp&?&?). split; [|done]. etrans; [exact Hl|]. etrans; [|exact Hp]. by apply prefix_app_r.
  - destruct (IH1 _ H1 Hin) as (Hp&?&?). split; [|done]. etrans; [exact Hl|]. etrans; [|exact Hp]. by apply prefix_app_r.
Qed.

Lemma prefix_snoc_inj l b1 b2 l' : l ++ [b1] `prefix_of` l' → l ++ [b2] `prefix_of` l' → b1 = b2.
Proof. intros [k1 ->] [k2 Hk]. rewrite <- !(assoc_L (++)) in Hk. apply app_inv_head in Hk. by injection Hk. Qed.

Lemma prefix_snoc_lookup l b l' : l ++ [b] `prefix_of` l' → l' !! length l = Some b.
Proof. intros Hp. eapply prefix_lookup_Some; [|exact Hp]. by rewrite lookup_app_r, Nat.sub_diag by done. Qed.

Lemma prefix_snoc_iff l b l' : l `prefix_of` l' → l' !! length l = Some b → l ++ [b] `prefix_of` l'.
Proof.
  intros [k ->] Hb. rewrite lookup_app_r, Nat.sub_diag in Hb by done. destruct k as [|b' k]; [done|]. injection Hb as ->.
  exists k. by rewrite <- (assoc_L (++)).
Qed.

Lemma prefix_snoc_not l b : ¬ l ++ [b] `prefix_of` l.
Proof. intros Hp%prefix_length. rewrite length_app in Hp. cbn in Hp. lia. Qed.

Lemma entry_cases c (c0 c1 : Node_t) d c' x :
  (c', x) ∈ entries (Node c c0 c1 d) ↔ (c' = c ∧ d = Some x) ∨ (c', x) ∈ entries c0 ∨ (c', x) ∈ entries c1.
Proof.
  cbn [entries]. rewrite !elem_of_app. destruct d as [y|]; [rewrite list_elem_of_singleton; naive_solver|set_solver].
Qed.

Lemma bits_below c' : cidr_ok c' → bitsOf c' `prefix_of` addrBits (AddrOf c').
Proof. intros Hc'. rewrite (addrBits_cidr c' Hc'). by apply prefix_app_r. Qed.

(** ** Descending *)
Lemma addrWidth_le a : addrWidth a ≤ 128.
Proof. destruct a; cbn; lia. Qed.

Section bit.
Context (c q : CIDR) (Hc : cidr_ok c) (Hq : cidr_ok q) (Hv : Version c = Version q).

Lemma uint8_prefix : uint8 (Prefix c + 1) = (Prefix c + 1)%Z.
Proof using Hc.
  apply uint8_small. pose proof (co_prefix _ Hc). pose proof (addrWidth_le (AddrOf c)). lia.
Qed.

(** The child that the next bit of an address selects. *)
Lemma childIdx_addr b : bitsOf c ++ [b] `prefix_of` addrBits (AddrOf q) → childIdx q c = Z.b2z b.
Proof using Hc Hq Hv.
  intros Hp. unfold childIdx. rewrite uint8_prefix.
  pose proof (prefix_snoc_lookup _ _ _ Hp) as Hb. pose proof (bitsOf_length c Hc) as Hl. pose proof (co_prefix _ Hc) as Hpc.
  replace (Prefix c) with (Z.of_nat (length (bitsOf c))) by lia. rewrite NthBit_spec; [by rewrite Hb|].
  apply lookup_lt_Some in Hb. rewrite addrBits_length in Hb. lia.
Qed.

Lemma bit_below b : bitsOf c ++ [b] `prefix_of` bitsOf q → childIdx q c = Z.b2z b.
Proof using Hc Hq Hv. intros Hp. apply childIdx_addr. etrans; [exact Hp|by apply bits_below]. Qed.

(** A CIDR that is below another one, and is not the same, goes on with one more bit. *)
Lemma below_bit : bitsOf c `prefix_of` bitsOf q → q ≠ c → ∃ b, bitsOf c ++ [b] `prefix_of` bitsOf q ∧ childIdx q c = Z.b2z b.
Proof using Hc Hq Hv.
  intros [k Hk] Hne. destruct k as [|b k].
  - rewrite app_nil_r in Hk. destruct Hne. by apply bitsOf_inj.
  - assert (Hp : bitsOf c ++ [b] `prefix_of` bitsOf q) by (exists k; by rewrite Hk, <- (assoc_L (++))).
    exists b. split; [done|]. by apply bit_below.
Qed.
End bit.

Section node.
Context (v : Z) (l : list bool) (c : CIDR) (c0 c1 : Node_t) (d : option D) (q : CIDR).
Hypothesis (Hn : node_ok v l (Node c c0 c1 d)) (Hq : cidr_ok q) (Hv : Version q = v).

Lemma contains_prefix : CIDR_Contains c (AddrOf q) = true ↔ bitsOf c `prefix_of` addrBits (AddrOf q).
Proof using Hn Hq Hv.
  destruct Hn as (Hc&Hcv&_). apply CIDR_Contains_spec; [by rewrite Version_AddrOf, Hcv|done|apply Hq].
Qed.

Lemma childIdx_below b : bitsOf c ++ [b] `prefix_of` bitsOf q → childIdx q c = Z.b2z b.
Proof using Hn Hq Hv. destruct Hn as (Hc&Hcv&_). apply bit_below; [done|done|congruence]. Qed.

Lemma below_child : bitsOf c `prefix_of` bitsOf q → q ≠ c → ∃ b, bitsOf c ++ [b] `prefix_of` bitsOf q ∧ childIdx q c = Z.b2z b.
Proof using Hn Hq Hv. destruct Hn as (Hc&Hcv&_). apply below_bit; [done|done|congruence]. Qed.

Lemma entry_child0 c' x : (c', x) ∈ entries c0 → bitsOf c ++ [false] `prefix_of` bitsOf c'.
Proof using Hn. destruct Hn as (_&_&_&_&H0&_). intros Hin. by apply (node_ok_below v _ c0 c' x). Qed.

Lemma entry_child1 c' x : (c', x) ∈ entries c1 → bitsOf c ++ [true] `prefix_of` bitsOf c'.
Proof using Hn. destruct Hn as (_&_&_&_&_&H1). intros Hin. by apply (node_ok_below v _ c1 c' x). Qed.

Lemma entry_child_ne c' x : (c', x) ∈ entries c0 ∨ (c', x) ∈ entries c1 → c' ≠ c.
Proof using Hn. intros [Hin%entry_child0|Hin%entry_child1] ->; by apply prefix_snoc_not in Hin. Qed.

(** Where an entry for the CIDR itself can be. *)
Lemma entry_self x : (c, x) ∈ entries (Node c c0 c1 d) ↔ d = Some x.
Proof using Hn. rewrite entry_cases. split; [|by left]. intros [[_ ?]|Hin]; [done|]. by apply entry_child_ne in Hin. Qed.

Lemma entry_descend x :
  q ≠ c → (q, x) ∈ entries (Node c c0 c1 d) ↔ if (childIdx q c =? 0)%Z then (q, x) ∈ entries c0 else (q, x) ∈ entries c1.
Proof using Hn Hq Hv.
  intros Hne. rewrite entry_cases. split.
  - intros [[? _]|[Hin|Hin]]; [done| |].
    + by rewrite (childIdx_below false (entry_child0 _ _ Hin)).
    + by rewrite (childIdx_below true (entry_child1 _ _ Hin)).
  - destruct (childIdx q c =? 0)%Z; auto.
Qed.

Lemma entry_contained c' x : (c', x) ∈ entries (Node c c0 c1 d) → bitsOf c `prefix_of` bitsOf c'.
Proof using Hn.
  rewrite entry_cases. intros [[Heq _]|[Hin%entry_child0|Hin%entry_child1]]; [by rewrite Heq| |];
    (etrans; [|exact Hin]); by apply prefix_app_r.
Qed.

Lemma not_contained_no_entry x : CIDR_Contains c (AddrOf q) = false → (q, x) ∉ entries (Node c c0 c1 d).
Proof using Hn Hq Hv.
  intros Hf Hin. apply entry_contained in Hin. assert (Ht : CIDR_Contains c (AddrOf q) = true); [|congruence].
  apply contains_prefix. etrans; [exact Hin|by apply bits_below].
Qed.

Lemma sameVersion_ok {A} (k : outcome Empty_set A) : sameVersion c q k = k.
Proof using Hn Hv. destruct Hn as (_&Hcv&_). unfold sameVersion. rewrite decide_False by (intros Hne; apply Hne; congruence). done. Qed.
End node.

(** ** [Get] *)
Lemma getNode_spec v l n q :
  node_ok v l n → cidr_ok q → Version q = v →
  ∃ r, getNode n q false = Ret r ∧ ∀ x, node_data r = Some x ↔ (q, x) ∈ entries n.
Proof.
  revert l. induction n as [|c c0 IH0 c1 IH1 d]; intros l Hn Hq Hv.
  { exists NilNode. split; [done|]. cbn. set_solver. }
  cbn [getNode]. rewrite (sameVersion_ok v l c c0 c1 d q Hn Hv). destruct (CIDR_Contains c (AddrOf q)) eqn:Hc; cbn [negb].
  2:{ exists NilNode. split; [done|]. intros x. split; [done|]. by intros Hin%(not_contained_no_entry v l c c0 c1 d q Hn Hq Hv x). }
  case_decide as Heq.
  - subst q. eexists; split; [done|]. intros x. rewrite (entry_self v l c c0 c1 d Hn). cbn [negb andb]. case_bool_decide as Hd; cbn; [|done].
    by rewrite Hd.
  - setoid_rewrite (entry_descend v l c c0 c1 d q Hn Hq Hv); [|done]. destruct Hn as (_&_&_&_&H0&H1).
    destruct (childIdx q c =? 0)%Z; [by apply (IH0 _ H0)|by apply (IH1 _ H1)].
Qed.

(** ** Covering *)
Lemma CommonPrefix_cases a b :
  Version a = Version b → cidr_ok a → cidr_ok b →
  ∃ p, CommonPrefix a b = Ret p ∧ cidr_ok p ∧ Version p = Version a ∧ bitsOf p = lcp (bitsOf a) (bitsOf b) ∧
       (p = a ↔ bitsOf a `prefix_of` bitsOf b) ∧ (p = b ↔ bitsOf b `prefix_of` bitsOf a).
Proof.
  intros Hv Ha Hb. destruct (CommonPrefix_ok a b Hv Ha Hb) as (p&Hp&Hok&Hpv&Hbits). exists p. split_and!; [done..| |].
  - split; [intros ->; rewrite Hbits; apply lcp_prefix_r|]. intros Hpre. apply bitsOf_inj; [done..|]. by rewrite Hbits, lcp_l.
  - split; [intros ->; rewrite Hbits; apply lcp_prefix_l|]. intros Hpre. apply bitsOf_inj; [congruence|done..|].
    by rewrite Hbits, lcp_comm, lcp_l.
Qed.

Lemma covers_spec v l n q :
  node_ok v l n → cidr_ok q → Version q = v →
  ∃ b, covers n q = Ret b ∧ (b = true ↔ ∃ c x, (c, x) ∈ entries n ∧ bitsOf c `prefix_of` bitsOf q).
Proof.
  revert l. induction n as [|c c0 IH0 c1 IH1 d]; intros l Hn Hq Hv; cbn [covers].
  { exists false. split; [done|]. split; [done|]. intros (?&?&Hin&_). cbn in Hin. set_solver. }
  pose proof Hn as (Hc&Hcv&_&_&H0&H1). destruct (CommonPrefix_cases c q) as (p&->&_&_&_&Hpc&_); [congruence|done..|]. cbn [obind].
  case_decide as Hne.
  { exists false. split; [done|]. split; [done|]. intros (c'&x&Hin&Hcov). destruct Hne. apply Hpc.
    etrans; [by apply (entry_contained v l c c0 c1 d Hn c' x)|done]. }
  assert (Hbelow : bitsOf c `prefix_of` bitsOf q) by (apply Hpc; by destruct (decide (p = c))).
  destruct d as [y|].
  { exists true. split; [done|]. split; [|done]. intros _. exists c, y. split; [|done]. by apply (entry_self v l c c0 c1 _ Hn). }
  assert (Hpick : (∃ c' x, (c', x) ∈ entries (Node c c0 c1 None) ∧ bitsOf c' `prefix_of` bitsOf q) ↔
                  ∃ c' x, (c', x) ∈ entries (if (childIdx q c =? 0)%Z then c0 else c1) ∧ bitsOf c' `prefix_of` bitsOf q).
  { split.
    - intros (c'&x&Hin&Hcov). apply entry_cases in Hin as [[_ ?]|[Hin|Hin]]; [done| |].
      + rewrite (childIdx_below v l c c0 c1 None q Hn Hq Hv false); [by eauto|]. etrans; [by apply (entry_child0 v l c c0 c1 None Hn c' x)|done].
      + rewrite (childIdx_below v l c c0 c1 None q Hn Hq Hv true); [by eauto|]. etrans; [by apply (entry_child1 v l c c0 c1 None Hn c' x)|done].
    - intros (c'&x&Hin&Hcov). exists c', x. split; [|done]. apply entry_cases. right. destruct (childIdx q c =? 0)%Z; auto. }
  setoid_rewrite Hpick. destruct (childIdx q c =? 0)%Z; [by apply (IH0 _ H0)|by apply (IH1 _ H1)].
Qed.

Lemma node_nonempty v l n : node_ok v l n → n ≠ NilNode → ∃ c x, (c, x) ∈ entries n.
Proof.
  revert l. induction n as [|c c0 IH0 c1 IH1 d]; intros l Hn Hne; [done|]. destruct Hn as (_&_&_&Hd&H0&_).
  destruct Hd as [[x ->]|[Hne0 _]].
  - exists c, x. apply entry_cases. by left.
  - destruct (IH0 _ H0 Hne0) as (c'&x&Hin). exists c', x. apply entry_cases. auto.
Qed.

Lemma intersects_spec v l n q :
  node_ok v l n → cidr_ok q → Version q = v →
  ∃ b, intersects n q = Ret b ∧ (b = true ↔ ∃ c x, (c, x) ∈ entries n ∧ bitsOf q `prefix_of` bitsOf c).
Proof.
  revert l. induction n as [|c c0 IH0 c1 IH1 d]; intros l Hn Hq Hv; cbn [intersects].
  { exists false. split; [done|]. split; [done|]. intros (?&?&Hin&_). cbn in Hin. set_solver. }
  pose proof Hn as (Hc&Hcv&_&_&H0&H1). destruct (CommonPrefix_cases c q) as (p&->&_&_&_&Hpc&Hpq); [congruence|done..|]. cbn [obind].
  case_decide as Heq.
  { exists true. split; [done|]. split; [|done]. intros _. destruct (node_nonempty v l _ Hn ltac:(done)) as (c'&x&Hin). exists c', x.
    split; [done|]. etrans; [by apply Hpq|]. by apply (entry_contained v l c c0 c1 d Hn c' x). }
  case_decide as Hne.
  { exists false. split; [done|]. split; [done|]. intros (c'&x&Hin&Hcov). apply (entry_contained v l c c0 c1 d Hn) in Hin.
    destruct (prefix_weak_total _ _ _ Hin Hcov) as [Hp|Hp]; [destruct Hne; by apply Hpc|destruct Heq; by apply Hpq]. }
  assert (Hbelow : bitsOf c `prefix_of` bitsOf q) by (apply Hpc; by destruct (decide (p = c))).
  assert (Hqc : ¬ bitsOf q `prefix_of` bitsOf c) by (intros Hp; destruct Heq; by apply Hpq).
  assert (Hqne : q ≠ c) by (intros ->; by destruct Hqc).
  destruct (below_child v l c c0 c1 d q Hn Hq Hv Hbelow Hqne) as (b&Hb&Hidx). rewrite Hidx.
  assert (Hpick : (∃ c' x, (c', x) ∈ entries (Node c c0 c1 d) ∧ bitsOf q `prefix_of` bitsOf c') ↔
                  ∃ c' x, (c', x) ∈ entries (if (Z.b2z b =? 0)%Z then c0 else c1) ∧ bitsOf q `prefix_of` bitsOf c').
  { split.
    - intros (c'&x&Hin&Hcov). apply entry_cases in Hin as [[-> _]|[Hin|Hin]]; [done| |].
      + rewrite (prefix_snoc_inj (bitsOf c) b false (bitsOf c')); [by eauto|by etrans|by apply (entry_child0 v l c c0 c1 d Hn c' x)].
      + rewrite (prefix_snoc_inj (bitsOf c) b true (bitsOf c')); [by eauto|by etrans|by apply (entry_child1 v l c c0 c1 d Hn c' x)].
    - intros (c'&x&Hin&Hcov). exists c', x. split; [|done]. apply entry_cases. right. destruct b; cbn in Hin; auto. }
  setoid_rewrite Hpick. destruct b; cbn; [by apply (IH1 _ H1)|by apply (IH0 _ H0)].
Qed.

(** ** Insertion *)
Definition set_entry q x n n' : Prop :=
  ∀ c y, (c, y) ∈ entries n' ↔ (c = q ∧ y = x) ∨ (c ≠ q ∧ (c, y) ∈ entries n).

Lemma not_below_no_entry v l c (c0 c1 : Node_t) d q x :
  node_ok v l (Node c c0 c1 d) → ¬ bitsOf c `prefix_of` bitsOf q → (q, x) ∉ entries (Node c c0 c1 d).
Proof. intros Hn Hp Hin. apply Hp. by apply (entry_contained v l c c0 c1 d Hn q x). Qed.

Lemma entry_leaf q x c y : (c, y) ∈ entries (Node q NilNode NilNode (Some x)) ↔ c = q ∧ y = x.
Proof. rewrite entry_cases. cbn. set_solver. Qed.

(** The prefix of a common prefix tells whether it is one of the two. *)
Lemma prefix_eq p c : cidr_ok p → cidr_ok c → Version p = Version c → bitsOf p `prefix_of` bitsOf c → (Prefix p =? Prefix c)%Z = bool_decide (p = c).
Proof.
  intros Hp Hc Hv Hpre. destruct (Z.eqb_spec (Prefix p) (Prefix c)) as [Heq|Hne]; symmetry.
  - apply bool_decide_eq_true. apply bitsOf_inj; [done..|]. apply prefix_length_eq; [done|]. rewrite !bitsOf_length by done. lia.
  - apply bool_decide_eq_false. congruence.
Qed.

(** The three shapes of an insertion at a node: below it, above it, and beside it. *)
Lemma update_below v l c (c0 c1 : Node_t) d q x b n' :
  node_ok v l (Node c c0 c1 d) → bitsOf c ++ [b] `prefix_of` bitsOf q →
  node_ok v (bitsOf c ++ [b]) n' → n' ≠ NilNode → set_entry q x (if b then c1 else c0) n' →
  let n2 := if b then Node c c0 n' d else Node c n' c1 d in
  node_ok v l n2 ∧ n2 ≠ NilNode ∧ set_entry q x (Node c c0 c1 d) n2.
Proof.
  intros Hn Hb Hok Hne Hset n2. pose proof Hn as (Hc&Hcv&Hlc&Hd&H0&H1).
  assert (Hqc : q ≠ c) by (intros ->; by apply prefix_snoc_not in Hb).
  assert (Hother : ∀ y, (q, y) ∉ entries (if b then c0 else c1)).
  { intros y Hin. destruct b.
    - apply (entry_child0 v l c c0 c1 d Hn) in Hin. by pose proof (prefix_snoc_inj _ _ _ _ Hin Hb).
    - apply (entry_child1 v l c c0 c1 d Hn) in Hin. by pose proof (prefix_snoc_inj _ _ _ _ Hin Hb). }
  split_and!.
  - destruct b; cbn; split_and!; try done; destruct Hd as [?|[? ?]]; auto.
  - by destruct b.
  - intros c' y. destruct b; unfold n2; rewrite !entry_cases, (Hset c' y); destruct (decide (c' = q)) as [->|];
      specialize (Hother y); naive_solver.
Qed.

Lemma update_above v l c (c0 c1 : Node_t) d q x b :
  node_ok v l (Node c c0 c1 d) → cidr_ok q → Version q = v → l `prefix_of` bitsOf q → bitsOf q ++ [b] `prefix_of` bitsOf c →
  let n2 := if b then Node q NilNode (Node c c0 c1 d) (Some x) else Node q (Node c c0 c1 d) NilNode (Some x) in
  node_ok v l n2 ∧ set_entry q x (Node c c0 c1 d) n2.
Proof.
  intros Hn Hq Hv Hl Hb n2. pose proof Hn as (Hc&Hcv&Hlc&Hd&H0&H1).
  assert (Hsub : node_ok v (bitsOf q ++ [b]) (Node c c0 c1 d)) by (cbn; split_and!; done).
  assert (Hnot : ∀ y, (q, y) ∉ entries (Node c c0 c1 d)).
  { intros y Hin. apply (node_ok_below v _ _ _ _ Hsub) in Hin as [Hin _]. by apply prefix_snoc_not in Hin. }
  split.
  - destruct b; cbn [node_ok n2]; split_and!; try done; left; by eexists.
  - intros c' y. specialize (Hnot y). destruct b; unfold n2; rewrite entry_cases; (destruct (decide (c' = q)) as [->|]);
      cbn [entries] in *; set_solver.
Qed.

Lemma update_beside v l p c (c0 c1 : Node_t) d q x b :
  node_ok v l (Node c c0 c1 d) → cidr_ok q → Version q = v → cidr_ok p → Version p = v → l `prefix_of` bitsOf p →
  bitsOf p ++ [b] `prefix_of` bitsOf c → bitsOf p ++ [negb b] `prefix_of` bitsOf q →
  let newNode := Node q NilNode NilNode (Some x) in
  let n2 := if b then Node p newNode (Node c c0 c1 d) None else Node p (Node c c0 c1 d) newNode None in
  node_ok v l n2 ∧ set_entry q x (Node c c0 c1 d) n2.
Proof.
  intros Hn Hq Hv Hp Hpv Hl Hbc Hbq newNode n2. pose proof Hn as (Hc&Hcv&Hlc&Hd&H0&H1).
  assert (Hsub : node_ok v (bitsOf p ++ [b]) (Node c c0 c1 d)) by (cbn; split_and!; done).
  assert (Hnew : node_ok v (bitsOf p ++ [negb b]) newNode) by (cbn; split_and!; try done; left; by eexists).
  assert (Hnot : ∀ y, (q, y) ∉ entries (Node c c0 c1 d)).
  { intros y Hin. apply (node_ok_below v _ _ _ _ Hsub) in Hin as [Hin _]. pose proof (prefix_snoc_inj _ _ _ _ Hin Hbq). by destruct b. }
  split.
  - destruct b; cbn [node_ok n2 negb] in *; split_and!; try done; right; done.
  - intros c' y. specialize (Hnot y). destruct b; unfold n2, newNode; rewrite entry_cases, entry_leaf; (destruct (decide (c' = q)) as [->|]);
      naive_solver.
Qed.

Lemma update_spec v l n q x :
  node_ok v l n → cidr_ok q → Version q = v → l `prefix_of` bitsOf q →
  ∃ n', update n q x = Ret n' ∧ node_ok v l n' ∧ n' ≠ NilNode ∧ set_entry q x n n'.
Proof.
  revert l. induction n as [|c c0 IH0 c1 IH1 d]; intros l Hn Hq Hv Hl; cbn [update].
  { eexists; split_and!; [done| |done|].
    - cbn. split_and!; [done..| |done|done]. left. by eexists.
    - intros c y. rewrite entry_leaf. cbn. set_solver. }
  pose proof Hn as (Hc&Hcv&Hlc&Hd&H0&H1). case_decide as Heq.
  { subst c. eexists; split_and!; [done| |done|].
    - cbn. split_and!; try done. left. by eexists.
    - intros c y. rewrite !entry_cases. pose proof (entry_child_ne v l q c0 c1 d Hn c y). naive_solver. }
  destruct (CommonPrefix_cases q c) as (p&->&Hp&Hpv&Hbits&Hpq&Hpc); [congruence|done..|]. cbn [obind].
  assert (Hplq : bitsOf p `prefix_of` bitsOf q) by (rewrite Hbits; apply lcp_prefix_l).
  assert (Hplc : bitsOf p `prefix_of` bitsOf c) by (rewrite Hbits; apply lcp_prefix_r).
  rewrite (prefix_eq p c), (prefix_eq p q) by (done || congruence). case_bool_decide as Hpc'.
  { subst p. destruct (below_child v l c c0 c1 d q Hn Hq Hv) as (b&Hb&->); [by apply Hpc|done|]. destruct b; cbn [Z.b2z Z.eqb].
    - destruct (IH1 _ H1 Hq Hv Hb) as (c1'&->&Hok&Hne&Hset). eexists; split; [done|]. by apply (update_below v l c c0 c1 d q x true c1').
    - destruct (IH0 _ H0 Hq Hv Hb) as (c0'&->&Hok&Hne&Hset). eexists; split; [done|]. by apply (update_below v l c c0 c1 d q x false c0'). }
  case_bool_decide as Hpq'.
  { subst p. destruct (below_bit q c Hq Hc) as (b&Hb&->); [congruence|by apply Hpq|done|].
    destruct (update_above v l c c0 c1 d q x b) as [Hok Hset]; [done..|].
    eexists; split_and!; [done| | |]; by destruct b. }
  destruct (below_bit p c Hp Hc) as (b&Hb&->); [congruence|done|congruence|].
  destruct (below_bit p q Hp Hq) as (b'&Hb'&_); [congruence|done|congruence|].
  assert (Hbb : b' = negb b).
  { destruct (decide (b' = b)) as [->|]; [|by destruct b, b']. destruct (prefix_snoc_not (bitsOf p) b). rewrite Hbits at 2. by apply lcp_greatest. }
  subst b'. destruct (update_beside v l p c c0 c1 d q x b) as [Hok Hset]; [done|done|done|done|congruence| |done|done|].
  { rewrite Hbits. by apply lcp_greatest. }
  eexists; split_and!; [done| | |]; by destruct b.
Qed.

(** ** Deletion *)
Definition del_entry q n n' : Prop := ∀ c y, (c, y) ∈ entries n' ↔ c ≠ q ∧ (c, y) ∈ entries n.

Lemma del_entry_id q n : (∀ y, (q, y) ∉ entries n) → del_entry q n n.
Proof. intros Hno c y. split; [|tauto]. intros Hin. split; [|done]. intros ->. by apply (Hno y). Qed.

Lemma child_ok v l c (c0 c1 : Node_t) (d : option D) (b : bool) : node_ok v l (Node c c0 c1 d) → node_ok v l (if b then c1 else c0).
Proof.
  intros (_&_&Hl&_&H0&H1). destruct b; (eapply node_ok_weaken; [|done]); (etrans; [exact Hl|]); by apply prefix_app_r.
Qed.

Lemma node_ok_mk v l c (c0 c1 : Node_t) d d' (Hn : node_ok v l (Node c c0 c1 d)) n0 n1 :
  node_ok v (bitsOf c ++ [false]) n0 → node_ok v (bitsOf c ++ [true]) n1 → is_Some d' ∨ n0 ≠ NilNode ∧ n1 ≠ NilNode →
  node_ok v l (Node c n0 n1 d').
Proof. destruct Hn as (Hc&Hcv&Hlc&_). intros. by split_and!. Qed.

Lemma delete_here v l c (c0 c1 : Node_t) d :
  node_ok v l (Node c c0 c1 d) →
  let n2 := match c0, c1 with NilNode, _ => c1 | _, NilNode => c0 | _, _ => Node c c0 c1 None end in
  node_ok v l n2 ∧ del_entry c (Node c c0 c1 d) n2.
Proof.
  intros Hn n2. pose proof Hn as (Hc&Hcv&Hlc&Hd&H0&H1). split.
  - pose proof (child_ok v l c c0 c1 d true Hn). pose proof (child_ok v l c c0 c1 d false Hn). destruct c0 as [|]; [done|]. destruct c1 as [|]; [done|].
    apply (node_ok_mk _ _ _ _ _ _ _ Hn); [done|done|by right].
  - assert (He : ∀ c' y, (c', y) ∈ entries n2 ↔ (c', y) ∈ entries c0 ∨ (c', y) ∈ entries c1).
    { intros c' y. unfold n2. destruct c0 as [|]; [cbn [entries]; set_solver|]. destruct c1 as [|]; [cbn [entries]; set_solver|].
      rewrite entry_cases. naive_solver. }
    intros c' y. rewrite He, entry_cases. pose proof (entry_child_ne v l c c0 c1 d Hn c' y). naive_solver.
Qed.

Lemma delete_below v l c (c0 c1 : Node_t) (d : option D) q (b : bool) n' :
  node_ok v l (Node c c0 c1 d) → q ≠ c → (∀ y, (q, y) ∉ entries (if b then c0 else c1)) →
  node_ok v (bitsOf c ++ [b]) n' → del_entry q (if b then c1 else c0) n' → (if b then c1 else c0) ≠ NilNode →
  let n2 := match n', d with
            | NilNode, None => if b then c0 else c1
            | _, _ => if b then Node c c0 n' d else Node c n' c1 d
            end in
  node_ok v l n2 ∧ del_entry q (Node c c0 c1 d) n2.
Proof.
  intros Hn Hqc Hother Hok Hdel Hne n2. pose proof Hn as (Hc&Hcv&Hlc&Hd&H0&H1). split.
  - pose proof (child_ok v l c c0 c1 d (negb b) Hn) as Hch. unfold n2. destruct n' as [|c' c0' c1' d'].
    + destruct d as [y|]; [|by destruct b]. destruct b; apply (node_ok_mk _ _ _ _ _ _ _ Hn); try done; left; by eexists.
    + destruct b; apply (node_ok_mk _ _ _ _ _ _ _ Hn); try done; (destruct Hd as [?|[? ?]]; [by left|by right]).
  - intros c' y. specialize (Hother y). specialize (Hdel c' y).
    assert (He : (c', y) ∈ entries n2 ↔ (c' = c ∧ d = Some y) ∨ (c', y) ∈ entries (if b then c0 else c1) ∨ (c', y) ∈ entries n').
    { unfold n2. destruct n' as [|cn n0 n1 dn]; destruct d as [z|]; destruct b; rewrite ?entry_cases; cbn [entries]; set_solver. }
    rewrite He, entry_cases, Hdel. destruct (decide (c' = q)) as [->|]; destruct b; naive_solver.
Qed.

Lemma deleteInternal_spec v l n q :
  node_ok v l n → n ≠ NilNode → cidr_ok q → Version q = v →
  ∃ n', deleteInternal n q = Ret n' ∧ node_ok v l n' ∧ del_entry q n n'.
Proof.
  revert l. induction n as [|c c0 IH0 c1 IH1 d]; intros l Hn Hne Hq Hv; [done|]. cbn [deleteInternal].
  rewrite (sameVersion_ok v l c c0 c1 d q Hn Hv). pose proof Hn as (Hc&Hcv&Hlc&Hd&H0&H1).
  destruct (CIDR_Contains c (AddrOf q)) eqn:Hcont; cbn [negb].
  2:{ eexists; split_and!; [done|done|]. apply del_entry_id. intros y. by apply (not_contained_no_entry v l c c0 c1 d q Hn Hq Hv). }
  case_decide as Heq.
  { subst q. eexists; split; [done|]. by apply (delete_here v l c c0 c1 d). }
  pose proof (entry_descend v l c c0 c1 d q Hn Hq Hv) as Hdesc.
  assert (Hother : ∀ b, (childIdx q c =? 0)%Z = negb b → ∀ y, (q, y) ∉ entries (if b then c0 else c1)).
  { intros b Hidx y Hin. destruct b; cbn in Hidx.
    - rewrite (childIdx_below v l c c0 c1 d q Hn Hq Hv false) in Hidx; [done|]. by apply (entry_child0 v l c c0 c1 d Hn q y).
    - rewrite (childIdx_below v l c c0 c1 d q Hn Hq Hv true) in Hidx; [done|]. by apply (entry_child1 v l c c0 c1 d Hn q y). }
  destruct (childIdx q c =? 0)%Z.
  - destruct c0 as [|cc c00 c01 dd].
    { eexists; split_and!; [done|done|]. apply del_entry_id. intros y. rewrite Hdesc by done. cbn. set_solver. }
    destruct (IH0 _ H0 ltac:(done) Hq Hv) as (c0'&Hrec&Hok&Hdel). rewrite Hrec. cbn [obind].
    eexists; split; [done|]. apply (delete_below v l c (Node cc c00 c01 dd) c1 d q false c0'); [done|done|by apply (Hother false)|done..].
  - destruct c1 as [|cc c10 c11 dd].
    { eexists; split_and!; [done|done|]. apply del_entry_id. intros y. rewrite Hdesc by done. cbn. set_solver. }
    destruct (IH1 _ H1 ltac:(done) Hq Hv) as (c1'&Hrec&Hok&Hdel). rewrite Hrec. cbn [obind].
    eexists; split; [done|]. apply (delete_below v l c c0 (Node cc c10 c11 dd) d q true c1'); [done|done|by apply (Hother true)|done..].
Qed.

Lemma Delete_spec v t q :
  node_ok v [] t → cidr_ok q → Version q = v → ∃ t', CIDRTrie.Delete t q = Ret t' ∧ node_ok v [] t' ∧ del_entry q t t'.
Proof.
  intros Hn Hq Hv. destruct t as [|c c0 c1 d]; cbn [CIDRTrie.Delete].
  { eexists; split_and!; [done|done|]. apply del_entry_id. cbn. set_solver. }
  pose proof Hn as (Hc&Hcv&_). destruct (CommonPrefix_cases c q) as (p&->&_&_&_&Hpc&_); [congruence|done..|]. cbn [obind].
  case_decide as Hne; [|by apply deleteInternal_spec].
  eexists; split_and!; [done|done|]. apply del_entry_id. intros y. apply (not_below_no_entry v []); [done|]. by rewrite <- Hpc.
Qed.

(** ** Paths: the entries that enclose a CIDR, in the order of the trie *)
Definition path n q : list (CIDR * D) := filter (λ e, bitsOf e.1 `prefix_of` bitsOf q) (entries n).

Lemma path_nil n q : (∀ c x, (c, x) ∈ entries n → ¬ bitsOf c `prefix_of` bitsOf q) → path n q = [].
Proof.
  intros Hno. unfold path. induction (entries n) as [|[c x] es IH]; [done|]. rewrite filter_cons_False.
  - apply IH. intros c' x' Hin. apply (Hno c' x'). by apply list_elem_of_further.
  - apply (Hno c x), list_elem_of_here.
Qed.

Lemma elem_of_path n q c x : (c, x) ∈ path n q ↔ (c, x) ∈ entries n ∧ bitsOf c `prefix_of` bitsOf q.
Proof. unfold path. rewrite list_elem_of_filter. cbn. tauto. Qed.

Definition ownEntry c (d : option D) : list (CIDR * D) := match d with Some x => [(c, x)] | None => [] end.

Lemma path_node v l c (c0 c1 : Node_t) d q :
  node_ok v l (Node c c0 c1 d) → cidr_ok q → Version q = v → bitsOf c `prefix_of` bitsOf q →
  path (Node c c0 c1 d) q = ownEntry c d ++ path (if (childIdx q c =? 0)%Z then c0 else c1) q ∧
  (q = c → path (if (childIdx q c =? 0)%Z then c0 else c1) q = []).
Proof.
  intros Hn Hq Hv Hc.
  assert (Hother : ∀ b, childIdx q c ≠ Z.b2z b → path (if b then c1 else c0) q = []).
  { intros b Hb. apply path_nil. intros c' x Hin Hp. apply Hb. apply (childIdx_below v l c c0 c1 d q Hn Hq Hv). etrans; [|exact Hp].
    destruct b; [by apply (entry_child1 v l c c0 c1 d Hn c' x)|by apply (entry_child0 v l c c0 c1 d Hn c' x)]. }
  split.
  - assert (Hown : path (Node c c0 c1 d) q = ownEntry c d ++ path c0 q ++ path c1 q).
    { unfold path. cbn [entries]. rewrite !filter_app. f_equal. destruct d as [x|]; [|done]. cbn. by rewrite decide_True. }
    rewrite Hown. f_equal. destruct (Z.eqb_spec (childIdx q c) 0) as [Hi|Hi].
    + rewrite (Hother true) by (rewrite Hi; done). by rewrite app_nil_r.
    + by rewrite (Hother false) by done.
  - intros ->. apply path_nil. intros c' x Hin Hp. assert (Hb : ∃ b, bitsOf c ++ [b] `prefix_of` bitsOf c').
    { destruct (childIdx c c =? 0)%Z; [exists false; by apply (entry_child0 v l c c0 c1 d Hn c' x)|exists true; by apply (entry_child1 v l c c0 c1 d Hn c' x)]. }
    destruct Hb as [b Hb]. apply (prefix_snoc_not (bitsOf c) b). by etrans.
Qed.

Lemma path_outside v l c (c0 c1 : Node_t) d q : node_ok v l (Node c c0 c1 d) → ¬ bitsOf c `prefix_of` bitsOf q → path (Node c c0 c1 d) q = [].
Proof.
  intros Hn Hno. apply path_nil. intros c' x Hin Hp. apply Hno. etrans; [|exact Hp]. by apply (entry_contained v l c c0 c1 d Hn c' x).
Qed.

(** Enclosing CIDRs come from the widest to the narrowest. *)
Lemma path_sorted v l n q :
  node_ok v l n → cidr_ok q → Version q = v →
  StronglySorted (λ e1 e2, (Prefix e1.1 < Prefix e2.1)%Z) (path n q).
Proof.
  revert l. induction n as [|c c0 IH0 c1 IH1 d]; intros l Hn Hq Hv; [constructor|].
  destruct (decide (bitsOf c `prefix_of` bitsOf q)) as [Hc|Hc]; [|rewrite (path_outside v l) by done; constructor].
  destruct (path_node v l c c0 c1 d q Hn Hq Hv Hc) as [-> _]. pose proof Hn as (Hcok&_&_&_&H0&H1).
  assert (Hrest : StronglySorted (λ e1 e2, (Prefix e1.1 < Prefix e2.1)%Z) (path (if (childIdx q c =? 0)%Z then c0 else c1) q)).
  { destruct (childIdx q c =? 0)%Z; [by apply (IH0 _ H0)|by apply (IH1 _ H1)]. }
  destruct d as [x|]; [|done]. constructor; [done|]. apply list.Forall_forall. intros [c' x'] [Hin _]%elem_of_path. cbn.
  assert (Hlt : ∃ b, bitsOf c ++ [b] `prefix_of` bitsOf c' ∧ cidr_ok c').
  { destruct (childIdx q c =? 0)%Z; [exists false; by destruct (node_ok_below v _ _ _ _ H0 Hin) as (?&?&?)|
      exists true; by destruct (node_ok_below v _ _ _ _ H1 Hin) as (?&?&?)]. }
  destruct Hlt as (b&Hp%prefix_length&Hok'). rewrite length_app, !bitsOf_length in Hp by done. cbn in Hp.
  pose proof (co_prefix _ Hcok). pose proof (co_prefix _ Hok'). lia.
Qed.

Lemma lookupPath_spec v l n q buf :
  node_ok v l n → cidr_ok q → Version q = v →
  ∃ r, lookupPath n buf q = Ret r ∧ (∀ x, (q, x) ∈ entries n → r = buf ++ path n q) ∧ ((∀ x, (q, x) ∉ entries n) → r = []).
Proof.
  revert l buf. induction n as [|c c0 IH0 c1 IH1 d]; intros l buf Hn Hq Hv; cbn [lookupPath].
  { exists []. split_and!; [done| |done]. cbn. set_solver. }
  rewrite (sameVersion_ok v l c c0 c1 d q Hn Hv). destruct (CIDR_Contains c (AddrOf q)) eqn:Hcont; cbn [negb].
  2:{ exists []. split_and!; [done| |done]. by intros x ?%(not_contained_no_entry v l c c0 c1 d q Hn Hq Hv). }
  assert (Hpath : ∀ x, (q, x) ∈ entries (Node c c0 c1 d) →
            path (Node c c0 c1 d) q = ownEntry c d ++ path (if (childIdx q c =? 0)%Z then c0 else c1) q).
  { intros x Hin. apply (path_node v l); [done..|]. by apply (entry_contained v l c c0 c1 d Hn q x). }
  assert (Hbuf : match d with Some x => buf ++ [(c, x)] | None => buf end = buf ++ ownEntry c d) by (destruct d; cbn; by rewrite ?app_nil_r).
  rewrite Hbuf. case_decide as Heq.
  - subst q. eexists; split_and!; [done| |].
    + intros x Hin. pose proof (proj1 (entry_self v l c c0 c1 d Hn x) Hin) as Hd. clear Hpath Hbuf Hin. subst d.
      destruct (path_node v l c c0 c1 (Some x) c Hn Hq Hv) as [-> Hself]; [done|]. by rewrite Hself, app_nil_r.
    + intros Hno. destruct d as [x|]; [|done]. destruct (Hno x). by apply (entry_self v l c c0 c1 _ Hn).
  - pose proof (λ x, entry_descend v l c c0 c1 d q Hn Hq Hv x Heq) as Hdesc. setoid_rewrite Hdesc in Hpath. setoid_rewrite Hdesc. clear Hdesc.
    destruct Hn as (_&_&_&_&H0&H1). destruct (childIdx q c =? 0)%Z.
    + destruct (IH0 _ (buf ++ ownEntry c d) H0 Hq Hv) as (r&->&Hyes&Hno). exists r. split_and!; [done| |done].
      intros x Hin. rewrite (Hpath x Hin), (Hyes x Hin). by rewrite (assoc_L (++)).
    + destruct (IH1 _ (buf ++ ownEntry c d) H1 Hq Hv) as (r&->&Hyes&Hno). exists r. split_and!; [done| |done].
      intros x Hin. rewrite (Hpath x Hin), (Hyes x Hin). by rewrite (assoc_L (++)).
Qed.

(** ** [LPM] of a single address is the last entry of its path *)
Lemma lpmLoop_spec v l n q m :
  node_ok v l n → cidr_ok q → Version q = v → bitsOf q = addrBits (AddrOf q) →
  lpmLoop n m q = match last (path n q) with Some e => Some e | None => m end.
Proof.
  revert l m. induction n as [|c c0 IH0 c1 IH1 d]; intros l m Hn Hq Hv Hhost; cbn [lpmLoop]; [done|].
  pose proof (contains_prefix v l c c0 c1 d q Hn Hq Hv) as Hcont. rewrite <- Hhost in Hcont.
  destruct (CIDR_Contains c (AddrOf q)); cbn [negb].
  2:{ rewrite (path_outside v l) by (done || (intros Hp; apply Hcont in Hp; done)). done. }
  destruct (path_node v l c c0 c1 d q Hn Hq Hv) as [-> Hself]; [by apply Hcont|].
  assert (Hm : match last (ownEntry c d) with Some e => Some e | None => m end = match d with Some x => Some (c, x) | None => m end) by (by destruct d).
  rewrite <- Hm. rewrite last_app. case_decide as Heq; [by rewrite Hself by done|].
  pose proof Hn as (_&_&_&_&H0&H1). destruct (childIdx q c =? 0)%Z.
  - rewrite (IH0 _ _ H0) by done. destruct (last (path c0 q)); [done|]. by destruct (last (ownEntry c d)).
  - rewrite (IH1 _ _ H1) by done. destruct (last (path c1 q)); [done|]. by destruct (last (ownEntry c d)).
Qed.
End spec.
