(* ===== verification/CIDRTrieCorrect.v ===== *)
(** * The CIDR trie against a finite map: closest descendants, enumeration, histories *)
From S2P Require Import Prelude CIDR CIDRTrie CIDRTrieSpec.
From stdpp Require Import base list gmap numbers sorting.
From stdpp Require Import options.

Section correct.
Context {D : Type}.
Abbreviation Node_t := (CIDRNode D).
Implicit Types (n t : Node_t) (c q : CIDR) (l : list bool) (x : D).

(** ** Entries are unique *)
Lemma entries_NoDup v l n : node_ok v l n → NoDup (entries n).*1.
Proof.
  revert l. induction n as [|c c0 IH0 c1 IH1 d]; intros l Hn; cbn [entries]; [constructor|].
  pose proof Hn as (_&_&_&_&H0&H1). rewrite !fmap_app. apply list.NoDup_app. split_and!.
  - destruct d; cbn; [apply NoDup_singleton|constructor].
  - intros c' Hc'. destruct d as [x|]; [|set_solver]. apply list_elem_of_singleton in Hc' as ->. cbn.
    rewrite elem_of_app, !list_elem_of_fmap. intros [([c' y]&->&Hin)|([c' y]&->&Hin)]; by apply (entry_child_ne v l c' c0 c1 _ Hn c' y); auto.
  - apply list.NoDup_app. split_and!; [by apply (IH0 _ H0)| |by apply (IH1 _ H1)].
    intros c' ([? y]&->&Hin0)%list_elem_of_fmap ([? y']&Heq&Hin1)%list_elem_of_fmap. cbn in Heq. subst.
    apply (entry_child0 v l c c0 c1 d Hn) in Hin0. apply (entry_child1 v l c c0 c1 d Hn) in Hin1.
    by pose proof (prefix_snoc_inj _ _ _ _ Hin0 Hin1).
Qed.

Lemma visit_iter {A} (f : A → CIDR → D → A * bool) n acc :
  visit f n acc = foldl (λ (r : A * bool) e, if r.2 then f r.1 e.1 e.2 else r) (acc, true) (entries n).
Proof.
  assert (Hstop : ∀ es a, foldl (λ (r : A * bool) (e : CIDR * D), if r.2 then f r.1 e.1 e.2 else r) (a, false) es = (a, false)).
  { intros es a. by induction es. }
  revert acc. induction n as [|c c0 IH0 c1 IH1 d]; intros acc; cbn [visit entries]; [done|]. rewrite !foldl_app.
  assert (Hd : foldl (λ (r : A * bool) e, if r.2 then f r.1 e.1 e.2 else r) (acc, true) (ownEntry c d)
               = match d with Some x => f acc c x | None => (acc, true) end) by (by destruct d).
  unfold ownEntry in Hd. rewrite Hd. destruct (match d with Some x => f acc c x | None => (acc, true) end) as [acc0 []]; cbn [negb].
  - rewrite <- IH0. destruct (visit f c0 acc0) as [acc1 []]; cbn [negb]; [apply IH1|by rewrite Hstop].
  - by rewrite !Hstop.
Qed.

(** ** The topmost entries of a subtree *)
Fixpoint tops n : list CIDR :=
  match n with
  | NilNode => []
  | Node c c0 c1 (Some _) => [c]
  | Node c c0 c1 None => tops c0 ++ tops c1
  end.

Definition uncovered n c : Prop :=
  (∃ x, (c, x) ∈ entries n) ∧ ∀ c' x', (c', x') ∈ entries n → bitsOf c' `prefix_of` bitsOf c → c' = c.

Lemma tops_spec v l n c : node_ok v l n → c ∈ tops n ↔ uncovered n c.
Proof.
  revert l. induction n as [|cn c0 IH0 c1 IH1 d]; intros l Hn.
  { cbn. split; [set_solver|]. intros [[x Hin] _]. cbn in Hin. set_solver. }
  pose proof Hn as (Hc&Hcv&_&_&H0&H1). destruct d as [y|]; cbn [tops].
  - rewrite list_elem_of_singleton. split.
    + intros ->. split; [exists y; by apply (entry_self v l cn c0 c1 _ Hn)|]. intros c' x' Hin Hp.
      apply entry_cases in Hin as [[-> _]|[Hin|Hin]]; [done| |]; exfalso.
      * apply (entry_child0 v l cn c0 c1 _ Hn) in Hin. apply (prefix_snoc_not (bitsOf cn) false). by etrans.
      * apply (entry_child1 v l cn c0 c1 _ Hn) in Hin. apply (prefix_snoc_not (bitsOf cn) true). by etrans.
    + intros [[x Hin] Hmin]. symmetry. apply (Hmin cn y); [by apply (entry_self v l cn c0 c1 _ Hn)|].
      by apply (entry_contained v l cn c0 c1 _ Hn c x).
  - rewrite elem_of_app, (IH0 _ H0), (IH1 _ H1). unfold uncovered. split.
    + intros [[[x Hin] Hmin]|[[x Hin] Hmin]]; (split; [exists x; apply entry_cases; auto|]); intros c' x' Hin' Hp;
        apply entry_cases in Hin' as [[_ ?]|[Hin'|Hin']]; try done; try (by apply (Hmin c' x')); exfalso.
      * apply (entry_child0 v l cn c0 c1 _ Hn) in Hin. apply (entry_child1 v l cn c0 c1 _ Hn) in Hin'.
        by pose proof (prefix_snoc_inj (bitsOf cn) false true (bitsOf c) Hin (transitivity Hin' Hp)).
      * apply (entry_child1 v l cn c0 c1 _ Hn) in Hin. apply (entry_child0 v l cn c0 c1 _ Hn) in Hin'.
        by pose proof (prefix_snoc_inj (bitsOf cn) false true (bitsOf c) (transitivity Hin' Hp) Hin).
    + intros [[x Hin] Hmin]. apply entry_cases in Hin as [[_ ?]|[Hin|Hin]]; [done|left|right];
        (split; [by exists x|]); intros c' x' Hin' Hp; apply (Hmin c' x'); try done; apply entry_cases; auto.
Qed.

Lemma tops_app_NoDup v l (c0 c1 : Node_t) :
  node_ok v (l ++ [false]) c0 → node_ok v (l ++ [true]) c1 → NoDup (tops c0) → NoDup (tops c1) → NoDup (tops c0 ++ tops c1).
Proof.
  intros H0 H1 Hnd0 Hnd1. apply list.NoDup_app. split_and!; [done| |done]. intros c Hc0 Hc1.
  apply (tops_spec v _ _ _ H0) in Hc0 as [[x Hin0] _]. apply (tops_spec v _ _ _ H1) in Hc1 as [[x' Hin1] _].
  apply (node_ok_below v _ _ _ _ H0) in Hin0 as [Hp0 _]. apply (node_ok_below v _ _ _ _ H1) in Hin1 as [Hp1 _].
  by pose proof (prefix_snoc_inj _ _ _ _ Hp0 Hp1).
Qed.

Lemma tops_NoDup v l n : node_ok v l n → NoDup (tops n).
Proof.
  revert l. induction n as [|cn c0 IH0 c1 IH1 d]; intros l Hn; cbn [tops]; [constructor|].
  pose proof Hn as (_&_&_&_&H0&H1). destruct d as [y|]; [apply NoDup_singleton|]. apply (tops_app_NoDup v (bitsOf cn)); eauto.
Qed.

(** ** Subtrees, which lookups from the root find again *)
Inductive subtree n : Node_t → Prop :=
  | sub_here : subtree n n
  | sub_0 c (c0 c1 : Node_t) d : subtree n c0 → subtree n (Node c c0 c1 d)
  | sub_1 c (c0 c1 : Node_t) d : subtree n c1 → subtree n (Node c c0 c1 d).

Lemma subtree_ok v l n t : subtree n t → node_ok v l t → node_ok v l n.
Proof.
  induction 1 as [|c c0 c1 d _ IH|c c0 c1 d _ IH]; intros Hn; [done| |]; apply IH.
  - exact (child_ok v l c c0 c1 d false Hn).
  - exact (child_ok v l c c0 c1 d true Hn).
Qed.

Lemma subtree_trans n1 n2 t : subtree n1 n2 → subtree n2 t → subtree n1 t.
Proof. intros H1. induction 1; [done|by apply sub_0|by apply sub_1]. Qed.

Lemma subtree_below v l c (c0 c1 : Node_t) d t : subtree (Node c c0 c1 d) t → node_ok v l t → l `prefix_of` bitsOf c.
Proof. intros Hs Hn. apply (subtree_ok v l) in Hs; [|done]. by destruct Hs as (_&_&?&_). Qed.

Lemma getNode_subtree v l c (c0 c1 : Node_t) d t :
  node_ok v l t → subtree (Node c c0 c1 d) t → getNode t c true = Ret (Node c c0 c1 d).
Proof.
  intros Hn Hs. pose proof (subtree_ok v l _ _ Hs Hn) as (Hc&Hcv&_). revert l Hn.
  remember (Node c c0 c1 d) as n eqn:Hnode. induction Hs as [|c' c0' c1' d' Hs IH|c' c0' c1' d' Hs IH]; intros l Hn; subst n; cbn [getNode].
  - rewrite (sameVersion_ok v l c c0 c1 d c Hn Hcv). rewrite (proj2 (contains_prefix v l c c0 c1 d c Hn Hc Hcv)) by (by apply bits_below).
    cbn [negb]. by rewrite decide_True.
  - rewrite (sameVersion_ok v l c' c0' c1' d' c Hn Hcv). pose proof Hn as (_&_&_&_&H0&_).
    assert (Hb : bitsOf c' ++ [false] `prefix_of` bitsOf c) by (by apply (subtree_below v _ _ _ _ _ _ Hs)).
    assert (Hne : c ≠ c') by (intros ->; by apply prefix_snoc_not in Hb).
    rewrite (proj2 (contains_prefix v l c' c0' c1' d' c Hn Hc Hcv)); [|etrans; [|by apply bits_below]; etrans; [|exact Hb]; by apply prefix_app_r].
    cbn [negb]. rewrite decide_False by done. rewrite (childIdx_below v l c' c0' c1' d' c Hn Hc Hcv false Hb). cbn. by apply (IH _ H0).
  - rewrite (sameVersion_ok v l c' c0' c1' d' c Hn Hcv). pose proof Hn as (_&_&_&_&_&H1).
    assert (Hb : bitsOf c' ++ [true] `prefix_of` bitsOf c) by (by apply (subtree_below v _ _ _ _ _ _ Hs)).
    assert (Hne : c ≠ c') by (intros ->; by apply prefix_snoc_not in Hb).
    rewrite (proj2 (contains_prefix v l c' c0' c1' d' c Hn Hc Hcv)); [|etrans; [|by apply bits_below]; etrans; [|exact Hb]; by apply prefix_app_r].
    cbn [negb]. rewrite decide_False by done. rewrite (childIdx_below v l c' c0' c1' d' c Hn Hc Hcv true Hb). cbn. by apply (IH _ H1).
Qed.

Lemma entry_subtree n c x : (c, x) ∈ entries n → ∃ c0 c1 : Node_t, subtree (Node c c0 c1 (Some x)) n.
Proof.
  induction n as [|cn c0 IH0 c1 IH1 d]; [cbn; set_solver|]. intros Hin. apply entry_cases in Hin as [[-> ->]|[Hin|Hin]].
  - exists c0, c1. apply sub_here.
  - destruct (IH0 Hin) as (a&b&Hs). exists a, b. by apply sub_0.
  - destruct (IH1 Hin) as (a&b&Hs). exists a, b. by apply sub_1.
Qed.

Lemma subtree_entries v l c (c0 c1 : Node_t) d t c' y :
  node_ok v l t → subtree (Node c c0 c1 d) t →
  (c', y) ∈ entries (Node c c0 c1 d) ↔ (c', y) ∈ entries t ∧ bitsOf c `prefix_of` bitsOf c'.
Proof.
  intros Hn Hs. split.
  - intros Hin. split; [|by apply (entry_contained v l c c0 c1 d (subtree_ok v l _ _ Hs Hn) c' y)]. clear Hn.
    remember (Node c c0 c1 d) as n eqn:Hnode. induction Hs; [done| |]; apply entry_cases; auto.
  - intros [Hin Hp]. revert l Hn Hin. remember (Node c c0 c1 d) as n eqn:Hnode.
    induction Hs as [|cc c0' c1' d' Hs IH|cc c0' c1' d' Hs IH]; intros l Hn Hin; subst n; [done| |].
    + pose proof Hn as (_&_&_&_&H0&_). pose proof (subtree_below v _ _ _ _ _ _ Hs H0) as Hb.
      assert (Hb' : bitsOf cc ++ [false] `prefix_of` bitsOf c') by (by etrans).
      apply entry_cases in Hin as [[-> _]|[Hin|Hin]]; [by apply prefix_snoc_not in Hb'|by apply (IH _ H0)|].
      apply (entry_child1 v l cc c0' c1' d' Hn) in Hin. by pose proof (prefix_snoc_inj _ _ _ _ Hb' Hin).
    + pose proof Hn as (_&_&_&_&_&H1). pose proof (subtree_below v _ _ _ _ _ _ Hs H1) as Hb.
      assert (Hb' : bitsOf cc ++ [true] `prefix_of` bitsOf c') by (by etrans).
      apply entry_cases in Hin as [[-> _]|[Hin|Hin]]; [by apply prefix_snoc_not in Hb'| |by apply (IH _ H1)].
      apply (entry_child0 v l cc c0' c1' d' Hn) in Hin. by pose proof (prefix_snoc_inj _ _ _ _ Hb' Hin).
Qed.

(** The topmost entries of the children of a node. *)
Lemma tops_children v l c (c0 c1 : Node_t) d c' :
  node_ok v l (Node c c0 c1 d) →
  c' ∈ tops c0 ++ tops c1 ↔
  c' ≠ c ∧ (∃ y, (c', y) ∈ entries (Node c c0 c1 d)) ∧
  ∀ c2 y2, (c2, y2) ∈ entries (Node c c0 c1 d) → bitsOf c2 `prefix_of` bitsOf c' → c2 = c ∨ c2 = c'.
Proof.
  intros Hn. pose proof Hn as (_&_&_&_&H0&H1). rewrite elem_of_app, (tops_spec v _ _ _ H0), (tops_spec v _ _ _ H1). unfold uncovered. split.
  - intros [[[y Hin] Hmin]|[[y Hin] Hmin]];
      (split_and!; [apply (entry_child_ne v l c c0 c1 d Hn c' y); auto|exists y; apply entry_cases; auto|]); intros c2 y2 Hin2 Hp;
      apply entry_cases in Hin2 as [[-> _]|[Hin2|Hin2]]; auto; try (right; by apply (Hmin c2 y2)); exfalso.
    + apply (entry_child0 v l c c0 c1 d Hn) in Hin. apply (entry_child1 v l c c0 c1 d Hn) in Hin2.
      by pose proof (prefix_snoc_inj (bitsOf c) false true (bitsOf c') Hin (transitivity Hin2 Hp)).
    + apply (entry_child1 v l c c0 c1 d Hn) in Hin. apply (entry_child0 v l c c0 c1 d Hn) in Hin2.
      by pose proof (prefix_snoc_inj (bitsOf c) false true (bitsOf c') (transitivity Hin2 Hp) Hin).
  - intros (Hne&[y Hin]&Hmin). apply entry_cases in Hin as [[-> _]|[Hin|Hin]]; [done|left|right]; (split; [by exists y|]);
      intros c2 y2 Hin2 Hp; (destruct (Hmin c2 y2) as [->|]; [apply entry_cases; auto|done| |done]); exfalso;
      apply (entry_child_ne v l c c0 c1 d Hn c y2); auto.
Qed.

(** With enough fuel, the topmost entries below the node. *)
Lemma closestDescendants_spec v fuel t buf c (c0 c1 : Node_t) d :
  node_ok v [] t → subtree (Node c c0 c1 d) t → 130 ≤ fuel + length (bitsOf c) →
  closestDescendants fuel t buf c = Ret (buf ++ tops c0 ++ tops c1).
Proof.
  intros Ht. revert buf c c0 c1 d. induction fuel as [|fuel IH]; intros buf c c0 c1 d Hs Hfuel.
  { pose proof (subtree_ok v [] _ _ Hs Ht) as (Hc&_). pose proof (bitsOf_length c Hc). pose proof (co_prefix _ Hc).
    pose proof (addrWidth_le (AddrOf c)). lia. }
  cbn [closestDescendants]. rewrite (getNode_subtree v [] c c0 c1 d t Ht Hs). cbn [obind].
  assert (Hdescend : ∀ (b : bool) buf, match (if b then c1 else c0) with
             | NilNode => Ret buf
             | Node c' _ _ (Some _) => Ret (buf ++ [c'])
             | Node c' _ _ None => closestDescendants fuel t buf c'
             end = Ret (E := Empty_set) (buf ++ tops (if b then c1 else c0))).
  { intros b buf'. assert (Hchild : subtree (if b then c1 else c0) t).
    { eapply subtree_trans; [|exact Hs]. destruct b; [apply sub_1, sub_here|apply sub_0, sub_here]. }
    pose proof (subtree_ok v [] _ _ Hs Ht) as (_&_&_&_&H0&H1).
    assert (Hch : node_ok v (bitsOf c ++ [b]) (if b then c1 else c0)) by (by destruct b).
    destruct (if b then c1 else c0) as [|c' c0' c1' [y|]]; cbn [tops]; [by rewrite app_nil_r|done|].
    rewrite (IH buf' c' c0' c1' None Hchild); [done|]. destruct Hch as (_&_&Hp&_). apply prefix_length in Hp. rewrite length_app in Hp. cbn in Hp. lia. }
  pose proof (Hdescend false buf) as Hd0. cbn in Hd0. rewrite Hd0. cbn [obind].
  pose proof (Hdescend true (buf ++ tops c0)) as Hd1. cbn in Hd1. rewrite Hd1. by rewrite (assoc_L (++)).
Qed.

(** ** Histories *)
Inductive TrieOp := TrieUpdate (c : CIDR) (x : D) | TrieDelete (c : CIDR).

Definition trie_step (op : TrieOp) t : outcome Empty_set Node_t :=
  match op with TrieUpdate c x => Update t c (Some x) | TrieDelete c => CIDRTrie.Delete t c end.

Fixpoint trie_run (ops : list TrieOp) t : outcome Empty_set Node_t :=
  match ops with [] => Ret t | op :: ops' => let! t' := trie_step op t in trie_run ops' t' end.

Definition map_step (m : gmap CIDR D) (op : TrieOp) : gmap CIDR D :=
  match op with TrieUpdate c x => <[c := x]> m | TrieDelete c => delete c m end.

Definition op_cidr (op : TrieOp) : CIDR := match op with TrieUpdate c _ => c | TrieDelete c => c end.

(** The trie [t] holds the map [m]. *)
Record trie_rel (v : Z) t (m : gmap CIDR D) : Prop := {
  tr_ok : node_ok v [] t;
  tr_map c x : (c, x) ∈ entries t ↔ m !! c = Some x
}.

Lemma trie_rel_empty v : trie_rel v NewCIDRTrie ∅.
Proof. split; [done|]. intros c x. rewrite lookup_empty. cbn. set_solver. Qed.

Lemma trie_step_ok v t m op :
  trie_rel v t m → cidr_ok (op_cidr op) → Version (op_cidr op) = v →
  ∃ t', trie_step op t = Ret t' ∧ trie_rel v t' (map_step m op).
Proof.
  intros [Hok Hm] Hc Hv. destruct op as [c x|c]; cbn [op_cidr trie_step map_step Update] in *.
  - destruct (update_spec v [] t c x Hok Hc Hv (prefix_nil _)) as (t'&->&Hok'&_&Hset). exists t'. split; [done|]. split; [done|].
    intros c' y. rewrite (Hset c' y), Hm. destruct (decide (c' = c)) as [->|Hne].
    + rewrite lookup_insert_eq. naive_solver.
    + rewrite lookup_insert_ne by done. naive_solver.
  - destruct (Delete_spec v t c Hok Hc Hv) as (t'&->&Hok'&Hdel). exists t'. split; [done|]. split; [done|].
    intros c' y. rewrite (Hdel c' y), Hm. destruct (decide (c' = c)) as [->|Hne].
    + rewrite lookup_delete_eq. naive_solver.
    + rewrite lookup_delete_ne by done. naive_solver.
Qed.

Lemma trie_run_ok v ops t m :
  trie_rel v t m → Forall (λ op, cidr_ok (op_cidr op) ∧ Version (op_cidr op) = v) ops →
  ∃ t', trie_run ops t = Ret t' ∧ trie_rel v t' (foldl map_step m ops).
Proof.
  revert t m. induction ops as [|op ops IH]; intros t m Hrel Hops; cbn [trie_run foldl]; [by exists t|].
  apply list.Forall_cons in Hops as [[Hc Hv] Hops]. destruct (trie_step_ok v t m op Hrel Hc Hv) as (t'&->&Hrel').
  cbn [obind]. by apply IH.
Qed.

(** ** Queries of a trie that holds a map *)
(** [q] is inside [c]. *)
Definition within (c q : CIDR) : Prop := CIDR_Contains c (AddrOf q) = true ∧ (Prefix c <= Prefix q)%Z.

Lemma within_bits c q : cidr_ok c → cidr_ok q → Version c = Version q → within c q ↔ bitsOf c `prefix_of` bitsOf q.
Proof.
  intros Hc Hq Hcv. unfold within. rewrite CIDR_Contains_spec by (done || apply Hq || (by rewrite Version_AddrOf)).
  pose proof (bitsOf_length c Hc). pose proof (bitsOf_length q Hq). pose proof (co_prefix _ Hc). pose proof (co_prefix _ Hq). split.
  - intros [Hp Hle]. destruct (prefix_weak_total _ _ _ Hp (bits_below q Hq)) as [|Hr]; [done|].
    by rewrite (prefix_length_eq _ _ Hr) by lia.
  - intros Hp. split; [etrans; [exact Hp|by apply bits_below]|]. apply prefix_length in Hp. lia.
Qed.

Section queries.
Context (v : Z) t (m : gmap CIDR D) (Hrel : trie_rel v t m) (q : CIDR) (Hq : cidr_ok q) (Hv : Version q = v).


Lemma entry_ok c x : m !! c = Some x → cidr_ok c ∧ Version c = v.
Proof using Hrel. intros Hin%(tr_map _ _ _ Hrel). by destruct (node_ok_below v [] t c x (tr_ok _ _ _ Hrel) Hin). Qed.

Lemma Get_ok : Get t q = Ret (m !! q).
Proof using Hrel Hq Hv.
  destruct (getNode_spec v [] t q (tr_ok _ _ _ Hrel) Hq Hv) as (r&Hr&Hdata). unfold Get. rewrite Hr. cbn [obind]. f_equal.
  apply option_eq. intros x. by rewrite Hdata, (tr_map _ _ _ Hrel).
Qed.

Lemma ToSlice_ok : ToSlice t ≡ₚ map_to_list m.
Proof using Hrel.
  unfold ToSlice. rewrite appendTo_entries. cbn [app]. apply NoDup_Permutation.
  - apply (NoDup_fmap_1 fst), (entries_NoDup v []), Hrel.
  - apply NoDup_map_to_list.
  - intros [c x]. by rewrite elem_of_map_to_list, (tr_map _ _ _ Hrel).
Qed.

Lemma Covers_ok : ∃ b, Covers t q = Ret b ∧ (b = true ↔ ∃ c x, m !! c = Some x ∧ within c q).
Proof using Hrel Hq Hv.
  destruct (covers_spec v [] t q (tr_ok _ _ _ Hrel) Hq Hv) as (b&Hb&Hiff). exists b. split; [done|]. rewrite Hiff.
  split; intros (c&x&Hin&Hp); exists c, x.
  - apply (tr_map _ _ _ Hrel) in Hin. split; [done|]. destruct (entry_ok c x Hin). apply within_bits; [done|done|congruence|done].
  - split; [by apply (tr_map _ _ _ Hrel)|]. destruct (entry_ok c x Hin). apply within_bits; [done|done|congruence|done].
Qed.

Lemma Intersects_ok : ∃ b, Intersects t q = Ret b ∧ (b = true ↔ ∃ c x, m !! c = Some x ∧ within q c).
Proof using Hrel Hq Hv.
  destruct (intersects_spec v [] t q (tr_ok _ _ _ Hrel) Hq Hv) as (b&Hb&Hiff). exists b. split; [done|]. rewrite Hiff.
  split; intros (c&x&Hin&Hp); exists c, x.
  - apply (tr_map _ _ _ Hrel) in Hin. split; [done|]. destruct (entry_ok c x Hin). apply within_bits; [done|done|congruence|done].
  - split; [by apply (tr_map _ _ _ Hrel)|]. destruct (entry_ok c x Hin). apply within_bits; [done|done|congruence|done].
Qed.

Lemma Overlaps_ok : ∃ b, Overlaps t q = Ret b ∧ (b = true ↔ ∃ c x, m !! c = Some x ∧ (within c q ∨ within q c)).
Proof using Hrel Hq Hv.
  destruct Covers_ok as (b1&Hb1&Hiff1). destruct Intersects_ok as (b2&Hb2&Hiff2). unfold Overlaps. rewrite Hb1. cbn [obind].
  exists (b1 || b2). split; [by destruct b1|]. rewrite orb_true_iff, Hiff1, Hiff2. naive_solver.
Qed.

Lemma elem_of_path_map c x : (c, x) ∈ path t q ↔ m !! c = Some x ∧ within c q.
Proof using Hrel Hq Hv.
  rewrite elem_of_path, (tr_map _ _ _ Hrel). split; intros [Hin Hp]; (split; [done|]); destruct (entry_ok c x Hin);
    (apply within_bits; [done|done|congruence|done]).
Qed.

(** The entries that enclose [q], from the widest to the narrowest. *)
Definition enclosing (p : list (CIDR * D)) : Prop :=
  StronglySorted (λ e1 e2, (Prefix e1.1 < Prefix e2.1)%Z) p ∧ ∀ c x, (c, x) ∈ p ↔ m !! c = Some x ∧ within c q.

Lemma path_enclosing : enclosing (path t q).
Proof using Hrel Hq Hv. split; [apply (path_sorted v []); [apply Hrel|done..]|apply elem_of_path_map]. Qed.

Lemma LookupPath_ok : ∃ r, LookupPath t q = Ret r ∧ (is_Some (m !! q) → enclosing r) ∧ (m !! q = None → r = []).
Proof using Hrel Hq Hv.
  destruct (lookupPath_spec v [] t q [] (tr_ok _ _ _ Hrel) Hq Hv) as (r&Hr&Hyes&Hno). exists r. split_and!; [done| |].
  - intros [x Hx]. rewrite (Hyes x) by (by apply (tr_map _ _ _ Hrel)). apply path_enclosing.
  - intros Hnone. apply Hno. intros x Hin%(tr_map _ _ _ Hrel). congruence.
Qed.

(** A longest match of an address: an entry that contains it, and none that does is longer. *)
Lemma LPM_ok :
  IsSingleAddress q = true →
  ((LPM t q).2 = None → ∀ c x, m !! c = Some x → ¬ within c q) ∧
  (∀ c x, LPM t q = (c, Some x) → m !! c = Some x ∧ within c q ∧ ∀ c' x', m !! c' = Some x' → within c' q → (Prefix c' <= Prefix c)%Z).
Proof using Hrel Hq Hv.
  intros Hs. assert (Hhost : bitsOf q = addrBits (AddrOf q)).
  { unfold bitsOf. apply take_ge. rewrite addrBits_length. destruct q; cbn in *; apply Z.eqb_eq in Hs; lia. }
  unfold LPM. rewrite (lpmLoop_spec v [] t q None (tr_ok _ _ _ Hrel) Hq Hv Hhost). destruct path_enclosing as [Hsorted Hin].
  destruct (last (path t q)) as [[c x]|] eqn:Hlast.
  - split; [done|]. intros c' x' [= <- <-]. apply last_Some in Hlast as [p Hp]. rewrite Hp in *.
    assert (Hcx : m !! c = Some x ∧ within c q) by (apply Hin, elem_of_app; right; apply list_elem_of_here).
    destruct Hcx as [Hcx Hw]. split_and!; [done|done|]. intros c2 x2 Hc2 Hw2.
    assert (Hin2 : (c2, x2) ∈ p ++ [(c, x)]) by (by apply Hin). apply elem_of_app in Hin2 as [Hin2|Hin2].
    + apply StronglySorted_app_1_elem_of with (x1 := (c2, x2)) (x2 := (c, x)) in Hsorted; [|done|apply list_elem_of_here]. cbn in Hsorted. lia.
    + apply list_elem_of_singleton in Hin2 as [= -> ->]. done.
  - apply last_None in Hlast. split; [|done]. intros _ c x Hc Hw. assert (Hcx : (c, x) ∈ path t q) by (by apply Hin).
    rewrite Hlast in Hcx. set_solver.
Qed.

(** The entries strictly inside [q] with no other entry in between. *)
Definition closest (c : CIDR) : Prop :=
  is_Some (m !! c) ∧ within q c ∧ c ≠ q ∧ ∀ c', is_Some (m !! c') → within q c' → within c' c → c' = q ∨ c' = c.


Lemma ClosestDescendants_ok :
  is_Some (m !! q) → ∃ r, ClosestDescendants t [] q = Ret r ∧ NoDup r ∧ ∀ c, c ∈ r ↔ closest c.
Proof using Hrel Hq Hv.
  intros [x Hx]. assert (Hin : (q, x) ∈ entries t) by (by apply (tr_map _ _ _ Hrel)). pose proof (tr_ok _ _ _ Hrel) as Hn.
  destruct (entry_subtree t q x Hin) as (c0&c1&Hs). pose proof (subtree_ok v [] _ _ Hs Hn) as Hsub.
  exists (tops c0 ++ tops c1). split_and!.
  - unfold ClosestDescendants. rewrite (closestDescendants_spec v 130 t [] q c0 c1 (Some x)) by (done || lia). done.
  - pose proof Hsub as (_&_&_&_&H0&H1). apply (tops_app_NoDup v (bitsOf q)); [done..|by apply (tops_NoDup v _ _ H0)|by apply (tops_NoDup v _ _ H1)].
  - assert (Hiff : ∀ c y, (c, y) ∈ entries (Node q c0 c1 (Some x)) ↔ m !! c = Some y ∧ within q c).
    { intros c y. rewrite (subtree_entries v [] q c0 c1 (Some x) t c y Hn Hs), (tr_map _ _ _ Hrel).
      split; intros [Hc Hp]; (split; [done|]); destruct (entry_ok c y Hc); (apply within_bits; [done|done|congruence|done]). }
    assert (Hw : ∀ c y c' y', m !! c = Some y → m !! c' = Some y' → bitsOf c `prefix_of` bitsOf c' ↔ within c c').
    { intros c y c' y' Hc Hc'. destruct (entry_ok c y Hc), (entry_ok c' y' Hc'). symmetry. apply within_bits; [done|done|congruence]. }
    intros c. rewrite (tops_children v [] q c0 c1 (Some x) c Hsub). unfold closest. setoid_rewrite Hiff. split.
    + intros (Hne&(y&Hc&Hqc)&Hmin). split_and!; [by exists y|done|done|]. intros c' [y' Hc'] Hqc' Hcc. apply (Hmin c' y'); [done|]. by apply (Hw c' y' c y).
    + intros ([y Hc]&Hqc&Hne&Hmin). split_and!; [done|by exists y|]. intros c2 y2 [Hc2 Hqc2] Hp. apply Hmin; [by exists y2|done|]. by apply (Hw c2 y2 c y).
Qed.
End queries.
End correct.

(** C23: after any sequence of updates and deletions of canonical CIDRs of one IP version, on
    32-bit and on 128-bit addresses alike, the trie holds exactly the map that the sequence
    describes: [Get] looks up in it, [ToSlice] enumerates it, [LookupPath] of a stored CIDR
    lists the stored CIDRs that enclose it from the widest to the narrowest (and is empty for
    a CIDR that is not stored), and [LPM] of an address is its longest match. *)
Theorem trie_refines_map {D} (v : Z) (ops : list (TrieOp (D := D))) (q : CIDR) :
  Forall (λ op, cidr_ok (op_cidr op) ∧ Version (op_cidr op) = v) ops → cidr_ok q → Version q = v →
  let m := foldl map_step ∅ ops in
  ∃ t, trie_run ops NewCIDRTrie = Ret t ∧ Get t q = Ret (m !! q) ∧ ToSlice t ≡ₚ map_to_list m ∧
    (∃ r, LookupPath t q = Ret r ∧ (is_Some (m !! q) → enclosing m q r) ∧ (m !! q = None → r = [])) ∧
    (IsSingleAddress q = true →
       ((LPM t q).2 = None → ∀ c x, m !! c = Some x → ¬ within c q) ∧
       (∀ c x, LPM t q = (c, Some x) →
          m !! c = Some x ∧ within c q ∧ ∀ c' x', m !! c' = Some x' → within c' q → (Prefix c' <= Prefix c)%Z)).
Proof.
  intros Hops Hq Hv m. destruct (trie_run_ok v ops NewCIDRTrie ∅ (trie_rel_empty v) Hops) as (t&Hrun&Hrel). exists t.
  split_and!; [done|by apply (Get_ok v)|by apply (ToSlice_ok v)|by apply (LookupPath_ok v)|by apply (LPM_ok v)].
Qed.

(** After any such sequence, [Covers] tells exactly whether a stored CIDR encloses the
    given one, [Intersects] whether one is enclosed by it and [Overlaps] whether either is the
    case, and [ClosestDescendants] of a stored CIDR lists, each once, the stored CIDRs strictly
    inside it with no stored CIDR in between; its recursion through the root ends within the
    fuel. *)
Theorem trie_covering_exact {D} (v : Z) (ops : list (TrieOp (D := D))) (q : CIDR) :
  Forall (λ op, cidr_ok (op_cidr op) ∧ Version (op_cidr op) = v) ops → cidr_ok q → Version q = v →
  let m := foldl map_step ∅ ops in
  ∃ t, trie_run ops NewCIDRTrie = Ret t ∧
    (∃ b, Covers t q = Ret b ∧ (b = true ↔ ∃ c x, m !! c = Some x ∧ within c q)) ∧
    (∃ b, Intersects t q = Ret b ∧ (b = true ↔ ∃ c x, m !! c = Some x ∧ within q c)) ∧
    (∃ b, Overlaps t q = Ret b ∧ (b = true ↔ ∃ c x, m !! c = Some x ∧ (within c q ∨ within q c))) ∧
    (is_Some (m !! q) → ∃ r, ClosestDescendants t [] q = Ret r ∧ NoDup r ∧ ∀ c, c ∈ r ↔ closest m q c).
Proof.
  intros Hops Hq Hv m. destruct (trie_run_ok v ops NewCIDRTrie ∅ (trie_rel_empty v) Hops) as (t&Hrun&Hrel). exists t.
  split_and!; [done|by apply (Covers_ok v)|by apply (Intersects_ok v)|by apply (Overlaps_ok v)|by apply (ClosestDescendants_ok v)].
Qed.

(** 10.0.0.0/8, 10.1.0.0/16, 10.2.0.0/16 and 10.1.2.3/32, the third of them deleted. *)
Definition net10 : CIDR := V4CIDR 167772160 8.
Definition net10_1 : CIDR := V4CIDR 167837696 16.
Definition net10_2 : CIDR := V4CIDR 167903232 16.
Definition host10 : CIDR := V4CIDR 167838211 32.

Lemma example_cidrs_ok : cidr_ok net10 ∧ cidr_ok net10_1 ∧ cidr_ok net10_2 ∧ cidr_ok host10.
Proof. split_and!; (split; [cbn; unfold word_ok; lia|cbn; lia|by vm_compute]). Qed.

Definition trieExample : list (TrieOp (D := nat)) :=
  [TrieUpdate host10 1; TrieUpdate net10_2 2; TrieUpdate net10 3; TrieUpdate net10_1 4; TrieDelete net10_2].

Lemma trieExample_ok : Forall (λ op, cidr_ok (op_cidr op) ∧ Version (op_cidr op) = 4%Z) trieExample.
Proof. destruct example_cidrs_ok as (?&?&?&?). repeat constructor; done. Qed.

Lemma trie_refines_map_witness :
  ∃ t, trie_run trieExample NewCIDRTrie = Ret t ∧ Get t host10 = Ret (Some 1) ∧ LPM t host10 = (host10, Some 1).
Proof.
  destruct example_cidrs_ok as (_&_&_&Hq).
  destruct (trie_refines_map 4 trieExample host10 trieExample_ok Hq eq_refl) as (t&Hrun&Hget&_).
  exists t. split_and!; [done|by rewrite Hget|]. vm_compute in Hrun. injection Hrun as <-. by vm_compute.
Defined.

Lemma trie_covering_exact_witness :
  ∃ t, trie_run trieExample NewCIDRTrie = Ret t ∧ ClosestDescendants t [] net10 = Ret [net10_1] ∧ Covers t net10_2 = Ret true.
Proof.
  destruct example_cidrs_ok as (_&_&Hq&_).
  destruct (trie_covering_exact 4 trieExample net10_2 trieExample_ok Hq eq_refl) as (t&Hrun&(b&Hb&Hcov)&_).
  exists t. split_and!; [done|vm_compute in Hrun; injection Hrun as <-; by vm_compute|]. rewrite Hb. f_equal. apply Hcov.
  exists net10, 3. split; by vm_compute.
Defined.

(** [LPM] only compares with the address of its argument: for a CIDR that is wider than a
    stored one with the same address, it answers with the narrower one, which does not contain
    the argument. *)
Example LPM_of_wider_CIDR :
  ∃ t, trie_run [TrieUpdate (V4CIDR 167772160 16) 1] NewCIDRTrie = Ret t ∧
       LPM t net10 = (V4CIDR 167772160 16, Some 1) ∧ ¬ within (V4CIDR 167772160 16) net10.
Proof. eexists. split_and!; [by vm_compute|by vm_compute|]. intros [_ Hle]. by vm_compute in Hle. Qed.
