(* ===== verification/MemberDedup.v ===== *)
(** * IP set members and the suppression of overlapping CIDRs

    [felix/labelindex/ipsetmember], and from [felix/labelindex/named_port_index.go] the
    [OverlapSuppressor]s with [onMemberAdded] and [onMemberRemoved].  Some dataplanes reject IP
    sets with overlapping CIDRs: the deduplicator shows them only the members that no other
    member covers. *)
From S2P Require Import Prelude CIDR CIDRTrie CIDRTrieSpec CIDRTrieCorrect.
From stdpp Require Import base list gmap numbers strings.
From stdpp Require Import options.

(** ** Protocols and members *)
Definition Protocol := Z.
Definition ProtocolNone : Protocol := 0%Z.
Definition ProtocolTCP : Protocol := 6%Z.
Definition ProtocolUDP : Protocol := 17%Z.
Definition ProtocolSCTP : Protocol := 132%Z.
Definition ProtocolAny : Protocol := 255%Z.

Inductive IPSetMember :=
  | ipPortProtoIPSetMember (addr : Addr) (port : Z) (proto : Protocol)
  | cidrIPSetMember (cidr : CIDR)
  | ipAddrIPSetMember (addr : Addr).

#[global] Instance IPSetMember_eq_dec : EqDecision IPSetMember.
Proof. solve_decision. Defined.

#[global] Instance Addr_countable : Countable Addr.
Proof.
  refine (inj_countable' (λ a, match a with V4Addr a => inl a | V6Addr h l => inr (h, l) end)
            (λ s, match s with inl a => V4Addr a | inr (h, l) => V6Addr h l end) _).
  by intros [].
Defined.

#[global] Instance IPSetMember_countable : Countable IPSetMember.
Proof.
  refine (inj_countable' (λ m, match m with ipPortProtoIPSetMember a p pr => inl (a, p, pr) | cidrIPSetMember c => inr (inl c) | ipAddrIPSetMember a => inr (inr a) end)
            (λ s, match s with inl (a, p, pr) => ipPortProtoIPSetMember a p pr | inr (inl c) => cidrIPSetMember c | inr (inr a) => ipAddrIPSetMember a end) _).
  by intros [].
Defined.

Definition MakeSingleIP (addr : Addr) : IPSetMember := ipAddrIPSetMember addr.

Definition MakeCIDROrIPOnly (cidr : CIDR) : IPSetMember :=
  if IsSingleAddress cidr then MakeSingleIP (AddrOf cidr) else cidrIPSetMember cidr.

Definition MakeIPPortProto (addr : Addr) (port : Z) (proto : Protocol) : IPSetMember :=
  if decide (port = 0%Z ∧ proto = ProtocolNone) then MakeCIDROrIPOnly (AsCIDR addr) else ipPortProtoIPSetMember addr port proto.

(** The members that implement [CIDROrIPOnlyIPSetMember], with their [CIDR()]. *)
Definition memberCIDR (m : IPSetMember) : option CIDR :=
  match m with
  | ipPortProtoIPSetMember _ _ _ => None
  | cidrIPSetMember cidr => Some cidr
  | ipAddrIPSetMember addr => Some (AsCIDR addr)
  end.

(** ** Overlap suppressors *)
Abbreviation Trie := (CIDRTrie CIDR).

Record memberDeduplicator := MkDedup { v4tries : gmap string Trie; v6tries : gmap string Trie }.

Inductive OverlapSuppressor :=
  | noopMemberDeduplicator
  | Dedup (t : memberDeduplicator).

Definition NewMemberOverlapSuppressor : OverlapSuppressor := Dedup (MkDedup ∅ ∅).
Definition NewNoopMemberOverlapSuppressor : OverlapSuppressor := noopMemberDeduplicator.

(** [strings.Contains(cidr.String(), ":")]: the [net] package prints a v6 address that maps a
    v4 address in dotted form. *)
Definition printsColon (cidr : CIDR) : bool :=
  match cidr with
  | V4CIDR _ _ => false
  | V6CIDR h l _ => negb ((h =? 0)%Z && (Z.shiftr l 32 =? 65535)%Z)
  end.

(** [getTrie] creates the trie of an IP set when it is first asked for. *)
Definition getTrie (t : memberDeduplicator) (set : string) (v6 : bool) : Trie :=
  default NewCIDRTrie ((if v6 then v6tries t else v4tries t) !! set).

Definition setTrie (t : memberDeduplicator) (set : string) (v6 : bool) (trie : Trie) : memberDeduplicator :=
  if v6 then MkDedup (v4tries t) (<[set := trie]> (v6tries t)) else MkDedup (<[set := trie]> (v4tries t)) (v6tries t).

Definition dedup_Add (t : memberDeduplicator) (set : string) (cidr : CIDR) : outcome Empty_set (memberDeduplicator * option CIDR * list CIDR) :=
  let v6 := printsColon cidr in
  let trie := getTrie t set v6 in
  let! covered := Covers trie cidr in
  let! trie' := Update trie cidr (Some cidr) in
  let t' := setTrie t set v6 trie' in
  if (covered : bool) then Ret (t', None, [])
  else let! masked := ClosestDescendants trie' [] cidr in Ret (t', Some cidr, masked).

Definition dedup_Remove (t : memberDeduplicator) (set : string) (cidr : CIDR) : outcome Empty_set (memberDeduplicator * option CIDR * list CIDR) :=
  let v6 := printsColon cidr in
  let trie := getTrie t set v6 in
  let! masked := ClosestDescendants trie [] cidr in
  let! trie' := CIDRTrie.Delete trie cidr in
  let t' := setTrie t set v6 trie' in
  let! covered := Covers trie' cidr in
  if (covered : bool) then Ret (t', None, []) else Ret (t', Some cidr, masked).

Definition suppressor_Add (s : OverlapSuppressor) (set : string) (cidr : CIDR) : outcome Empty_set (OverlapSuppressor * option CIDR * list CIDR) :=
  match s with
  | noopMemberDeduplicator => Ret (s, Some cidr, [])
  | Dedup t => let! (t', add, removes) := dedup_Add t set cidr in Ret (Dedup t', add, removes)
  end.

Definition suppressor_Remove (s : OverlapSuppressor) (set : string) (cidr : CIDR) : outcome Empty_set (OverlapSuppressor * option CIDR * list CIDR) :=
  match s with
  | noopMemberDeduplicator => Ret (s, Some cidr, [])
  | Dedup t => let! (t', rem, adds) := dedup_Remove t set cidr in Ret (Dedup t', rem, adds)
  end.

Definition suppressor_DeleteIPSet (s : OverlapSuppressor) (set : string) : OverlapSuppressor :=
  match s with
  | noopMemberDeduplicator => s
  | Dedup t => Dedup (MkDedup (delete set (v4tries t)) (delete set (v6tries t)))
  end.

(** ** The callbacks *)
Inductive MemberEvent :=
  | OnMemberAdded (ipSetID : string) (member : IPSetMember)
  | OnMemberRemoved (ipSetID : string) (member : IPSetMember).

Definition onMemberAdded (ipSetID : string) (member : IPSetMember) (s : OverlapSuppressor) : outcome Empty_set (OverlapSuppressor * list MemberEvent) :=
  match memberCIDR member with
  | Some cidr =>
      let! (s', add, removes) := suppressor_Add s ipSetID cidr in
      Ret (s', (match add with Some _ => [OnMemberAdded ipSetID member] | None => [] end) ++ ((λ r, OnMemberRemoved ipSetID (MakeCIDROrIPOnly r)) <$> removes))
  | None => Ret (s, [OnMemberAdded ipSetID member])
  end.

Definition onMemberRemoved (ipSetID : string) (member : IPSetMember) (s : OverlapSuppressor) : outcome Empty_set (OverlapSuppressor * list MemberEvent) :=
  match memberCIDR member with
  | Some cidr =>
      let! (s', rem, adds) := suppressor_Remove s ipSetID cidr in
      Ret (s', (match rem with Some _ => [OnMemberRemoved ipSetID member] | None => [] end) ++ ((λ a, OnMemberAdded ipSetID (MakeCIDROrIPOnly a)) <$> adds))
  | None => Ret (s, [OnMemberRemoved ipSetID member])
  end.
