(* ===== verification/MemberDedupSpec.v ===== *)
(** * What the overlap suppressors show of an IP set

    The order of enclosure between CIDRs, its minimal elements under insertion and deletion,
    and a client that replays the member callbacks strictly: over any history it holds the
    members that no other member covers. *)
From S2P Require Import Prelude CIDR CIDRTrie CIDRTrieSpec CIDRTrieCorrect MemberDedup.
From stdpp Require Import base list gmap numbers strings.
From stdpp Require Import options.

(** ** Enclosure is a tree order *)
Lemma within_version c q : within c q → Version c = Version q.
Proof. intros [Hc _]. by destruct c, q. Qed.

Lemma within_refl c : cidr_ok c → within c c.
Proof. intros Hc. by apply within_bits. Qed.

Lemma within_trans a b c : cidr_ok a → cidr_ok b → cidr_ok c → within a b → within b c → within a c.
Proof.
  intros Ha Hb Hc Hab Hbc. pose proof (within_version _ _ Hab). pose proof (within_version _ _ Hbc).
  apply within_bits in Hab; [|done..]. apply within_bits in Hbc; [|done..]. apply within_bits; [done|done|congruence|by etrans].
Qed.

Lemma within_antisym a b : cidr_ok a → cidr_ok b → within a b → within b a → a = b.
Proof.
  intros Ha Hb Hab Hba. pose proof (within_version _ _ Hab). apply within_bits in Hab; [|done..]. apply within_bits in Hba; [|done..].
  apply bitsOf_inj; [done..|]. by apply (anti_symm prefix).
Qed.

Lemma within_linear a b c : cidr_ok a → cidr_ok b → cidr_ok c → within a c → within b c → within a b ∨ within b a.
Proof.
  intros Ha Hb Hc Hac Hbc. pose proof (within_version _ _ Hac). pose proof (within_version _ _ Hbc).
  apply within_bits in Hac; [|done..]. apply within_bits in Hbc; [|done..].
  rewrite !within_bits by (done || congruence). by apply (prefix_weak_total _ _ (bitsOf c)).
Qed.

(** ** Outermost elements of a set of CIDRs *)
Definition outermost (S : CIDR → Prop) (c : CIDR) : Prop := S c ∧ ∀ c', S c' → within c' c → c' = c.

Definition covered (S : CIDR → Prop) (c : CIDR) : Prop := ∃ c', S c' ∧ within c' c.

Definition inside (S : CIDR → Prop) (c r : CIDR) : Prop :=
  S r ∧ within c r ∧ r ≠ c ∧ ∀ c', S c' → within c c' → within c' r → c' = c ∨ c' = r.

Section outermost.
Context (S S' : CIDR → Prop) (c : CIDR).
Context (HS : ∀ d, S d → cidr_ok d) (Hc : cidr_ok c) (Hnew : ¬ S c) (HS' : ∀ d, S' d ↔ d = c ∨ S d).

(** [S'] is [S] with [c]. *)
Lemma outermost_covered d : covered S c → outermost S' d ↔ outermost S d.
Proof using HS Hc Hnew HS'.
  intros (e&He&Hec). unfold outermost. setoid_rewrite HS'. split.
  - intros [[->|Hd] Hmin]; [|by eauto]. by pose proof (Hmin e (or_intror He) Hec); subst.
  - intros [Hd Hmin]. split; [by right|]. intros d' [->|Hd'] Hw; [|by apply Hmin]. exfalso.
    assert (e = d) as -> by (apply Hmin; [done|]; apply (within_trans e c d); auto). apply Hnew.
    by rewrite (within_antisym c d) by auto.
Qed.

Lemma outermost_inside d : ¬ covered S c → inside S' c d ↔ outermost S d ∧ within c d.
Proof using HS Hc Hnew HS'.
  intros Hnc. unfold inside, outermost. setoid_rewrite HS'. split.
  - intros ([->|Hd]&Hcd&Hne&Hmin); [done|]. split_and!; [done| |done]. intros e He Hed.
    destruct (within_linear c e d) as [Hce|Hec]; auto.
    + destruct (Hmin e (or_intror He) Hce Hed) as [->|?]; done.
    + destruct Hnc. by exists e.
  - intros [[Hd Hmin] Hcd]. split_and!; [by right|done|by intros ->|]. intros e [->|He] Hce Hed; [by left|right; by apply Hmin].
Qed.

Lemma outermost_uncovered d : ¬ covered S c → outermost S' d ↔ d = c ∨ outermost S d ∧ ¬ inside S' c d.
Proof using HS Hc Hnew HS'.
  intros Hnc. rewrite outermost_inside by done. unfold outermost. setoid_rewrite HS'. split.
  - intros [[->|Hd] Hmin]; [by left|right]. split; [by eauto|]. intros [_ Hcd]. destruct Hnew.
    by rewrite (Hmin c (or_introl eq_refl) Hcd).
  - intros [->|[[Hd Hmin] Hn]].
    + split; [by left|]. intros e [->|He] Hec; [done|]. destruct Hnc. by exists e.
    + split; [by right|]. intros e [->|He] Hed; [|by apply Hmin]. destruct Hn. split; [split|]; done.
Qed.
End outermost.

(** ** A client that replays the callbacks *)
Abbreviation Sets := (gmap string (gset IPSetMember)).

(** An addition of a member that is there, or a removal of one that is not, is a [Panic]. *)
Definition apply_event (e : MemberEvent) (P : Sets) : outcome Empty_set Sets :=
  match e with
  | OnMemberAdded id m => if decide (m ∈ P !!! id) then Panic else Ret (<[id := {[m]} ∪ P !!! id]> P)
  | OnMemberRemoved id m => if decide (m ∈ P !!! id) then Ret (<[id := P !!! id ∖ {[m]}]> P) else Panic
  end.

Fixpoint replay (es : list MemberEvent) (P : Sets) : outcome Empty_set Sets :=
  match es with [] => Ret P | e :: es' => let! P' := apply_event e P in replay es' P' end.

Lemma elem_of_insert_set (P : Sets) id X i m : m ∈ <[id := X]> P !!! i ↔ if decide (i = id) then m ∈ X else m ∈ P !!! i.
Proof. destruct (decide (i = id)) as [->|Hne]; [by rewrite lookup_total_insert_eq|by rewrite lookup_total_insert_ne]. Qed.

Lemma replay_events_app es1 es2 P : replay (es1 ++ es2) P = (let! P' := replay es1 P in replay es2 P').
Proof. revert P. induction es1 as [|e es IH]; intros P; cbn; [done|]. destruct (apply_event e P); cbn; [apply IH|done..]. Qed.

Lemma replay_adds id ms P :
  NoDup ms → (∀ m, m ∈ ms → m ∉ P !!! id) →
  ∃ P', replay (OnMemberAdded id <$> ms) P = Ret P' ∧ ∀ i m, m ∈ P' !!! i ↔ m ∈ P !!! i ∨ i = id ∧ m ∈ ms.
Proof.
  revert P. induction ms as [|m0 ms IH]; intros P Hnd Hfresh; cbn [fmap list_fmap replay apply_event].
  { exists P. split; [done|]. set_solver. }
  apply list.NoDup_cons in Hnd as [Hm0 Hnd]. rewrite decide_False by (apply Hfresh; apply list_elem_of_here). cbn [obind].
  destruct (IH (<[id := {[m0]} ∪ P !!! id]> P) Hnd) as (P'&->&HP').
  { intros m Hm. rewrite elem_of_insert_set, decide_True by done. pose proof (Hfresh m). set_solver. }
  exists P'. split; [done|]. intros i m. rewrite HP', elem_of_insert_set, elem_of_cons. case_decide; set_solver.
Qed.

Lemma replay_removes id ms P :
  NoDup ms → (∀ m, m ∈ ms → m ∈ P !!! id) →
  ∃ P', replay (OnMemberRemoved id <$> ms) P = Ret P' ∧ ∀ i m, m ∈ P' !!! i ↔ m ∈ P !!! i ∧ ¬ (i = id ∧ m ∈ ms).
Proof.
  revert P. induction ms as [|m0 ms IH]; intros P Hnd Hfresh; cbn [fmap list_fmap replay apply_event].
  { exists P. split; [done|]. set_solver. }
  apply list.NoDup_cons in Hnd as [Hm0 Hnd]. rewrite decide_True by (apply Hfresh; apply list_elem_of_here). cbn [obind].
  destruct (IH (<[id := P !!! id ∖ {[m0]}]> P) Hnd) as (P'&->&HP').
  { intros m Hm. rewrite elem_of_insert_set, decide_True by done. pose proof (Hfresh m). set_solver. }
  exists P'. split; [done|]. intros i m. rewrite HP', elem_of_insert_set, elem_of_cons. case_decide; set_solver.
Qed.

(** ** Members *)
Lemma memberCIDR_Make c : memberCIDR (MakeCIDROrIPOnly c) = Some c.
Proof.
  unfold MakeCIDROrIPOnly. destruct (IsSingleAddress c) eqn:Hs; [|done]. destruct c; cbn in *; apply Z.eqb_eq in Hs; by subst.
Qed.

#[global] Instance MakeCIDROrIPOnly_inj : Inj (=) (=) MakeCIDROrIPOnly.
Proof. intros c d Heq. pose proof (memberCIDR_Make c) as Hc. rewrite Heq, memberCIDR_Make in Hc. congruence. Qed.

(** Members are made by [MakeCIDROrIPOnly] and [MakeIPPortProto], of canonical CIDRs that are
    not v4 addresses in v6 clothing (the conversions from [net.IPNet] make those v4). *)
Definition member_ok (m : IPSetMember) : Prop :=
  ∀ c, memberCIDR m = Some c → m = MakeCIDROrIPOnly c ∧ cidr_ok c ∧ printsColon c = bool_decide (Version c = 6%Z).

Definition set_ok (X : gset IPSetMember) : Prop := ∀ m, m ∈ X → member_ok m.

(** No other member of the set covers [m]. *)
Definition shown (X : gset IPSetMember) (m : IPSetMember) : Prop :=
  m ∈ X ∧ ∀ c m' c', memberCIDR m = Some c → m' ∈ X → memberCIDR m' = Some c' → within c' c → m' = m.

Definition cidrsOf (X : gset IPSetMember) (c : CIDR) : Prop := MakeCIDROrIPOnly c ∈ X.

Lemma cidrsOf_ok X c : set_ok X → cidrsOf X c → cidr_ok c.
Proof. intros HX Hc. by destruct (HX _ Hc c (memberCIDR_Make c)) as (_&?&_). Qed.

Lemma shown_cidr X c : set_ok X → shown X (MakeCIDROrIPOnly c) ↔ outermost (cidrsOf X) c.
Proof.
  intros HX. unfold shown, outermost, cidrsOf. rewrite memberCIDR_Make. split; intros [Hin Hmin]; (split; [done|]).
  - intros d Hd Hw. apply (inj MakeCIDROrIPOnly). by apply (Hmin c _ d); [..|apply memberCIDR_Make|].
  - intros ? m d [= <-] Hm Hd Hw. destruct (HX m Hm d Hd) as (->&_). by rewrite (Hmin d).
Qed.

Lemma shown_port X m : memberCIDR m = None → shown X m ↔ m ∈ X.
Proof. unfold shown. intros ->. naive_solver. Qed.

(** ** The tries of the deduplicator hold the CIDRs of the members *)
Definition ipVersion (v6 : bool) : Z := if v6 then 6%Z else 4%Z.

Definition holds (v6 : bool) (X : gset IPSetMember) (m : gmap CIDR CIDR) : Prop :=
  ∀ c x, m !! c = Some x ↔ x = c ∧ Version c = ipVersion v6 ∧ cidrsOf X c.

Definition dedup_rel (t : memberDeduplicator) (M : Sets) : Prop :=
  ∀ id v6, ∃ m, trie_rel (ipVersion v6) (getTrie t id v6) m ∧ holds v6 (M !!! id) m.

Lemma getTrie_setTrie t id v6 tr i w : getTrie (setTrie t id v6 tr) i w = if decide (i = id ∧ w = v6) then tr else getTrie t i w.
Proof.
  unfold getTrie, setTrie. destruct (decide (i = id)) as [->|Hne], v6, w; cbn; rewrite ?lookup_insert_eq, ?lookup_insert_ne by done;
    first [rewrite decide_True by done | rewrite decide_False by naive_solver]; done.
Qed.

Lemma holds_is_Some v6 X m c : holds v6 X m → is_Some (m !! c) ↔ Version c = ipVersion v6 ∧ cidrsOf X c.
Proof. intros Hm. split; [intros [x Hx%Hm]; naive_solver|]. intros Hc. exists c. by apply Hm. Qed.

Lemma holds_covered v6 X m c : holds v6 X m → Version c = ipVersion v6 → (∃ c' x, m !! c' = Some x ∧ within c' c) ↔ covered (cidrsOf X) c.
Proof.
  intros Hm Hv. unfold covered. split.
  - intros (c'&x&Hx%Hm&Hw). naive_solver.
  - intros (c'&Hc'&Hw). exists c', c'. split; [|done]. apply Hm. split_and!; [done|by rewrite (within_version _ _ Hw)|done].
Qed.

Lemma holds_inside v6 X m c d : holds v6 X m → Version c = ipVersion v6 → closest m c d ↔ inside (cidrsOf X) c d.
Proof.
  intros Hm Hv. unfold closest, inside. setoid_rewrite (holds_is_Some v6 X m _ Hm). split.
  - intros ([Hdv Hd]&Hcd&Hne&Hmin). split_and!; [done..|]. intros c' Hc' Hcc' Hc'd. apply Hmin; [|done..].
    split; [|done]. by rewrite <- (within_version _ _ Hcc').
  - intros (Hd&Hcd&Hne&Hmin). split_and!; [by rewrite <- (within_version _ _ Hcd)|done..|]. intros c' [_ Hc']. by apply Hmin.
Qed.

Lemma cidrsOf_insert X c d : cidrsOf ({[MakeCIDROrIPOnly c]} ∪ X) d ↔ d = c ∨ cidrsOf X d.
Proof. unfold cidrsOf. rewrite elem_of_union, elem_of_singleton. split; [|naive_solver]. intros [->%(inj _)|]; auto. Qed.

Lemma cidrsOf_delete X c d : cidrsOf (X ∖ {[MakeCIDROrIPOnly c]}) d ↔ d ≠ c ∧ cidrsOf X d.
Proof.
  unfold cidrsOf. rewrite elem_of_difference, elem_of_singleton. split.
  - intros [Hd Hne]. split; [congruence|done].
  - intros [Hne Hd]. split; [done|]. by intros ?%(inj MakeCIDROrIPOnly).
Qed.

Lemma holds_insert v6 X m c : holds v6 X m → Version c = ipVersion v6 → holds v6 ({[MakeCIDROrIPOnly c]} ∪ X) (<[c := c]> m).
Proof.
  intros Hm Hv d x. rewrite cidrsOf_insert. destruct (decide (d = c)) as [->|Hne].
  - rewrite lookup_insert_eq. naive_solver.
  - rewrite lookup_insert_ne, (Hm d x) by done. naive_solver.
Qed.

Lemma holds_delete v6 X m c : holds v6 X m → Version c = ipVersion v6 → holds v6 (X ∖ {[MakeCIDROrIPOnly c]}) (delete c m).
Proof.
  intros Hm Hv d x. rewrite cidrsOf_delete. destruct (decide (d = c)) as [->|Hne].
  - rewrite lookup_delete_eq. naive_solver.
  - rewrite lookup_delete_ne, (Hm d x) by done. naive_solver.
Qed.

(** The tries of the other IP sets, and of the other version, do not change. *)
Lemma dedup_rel_set t M id v6 tr X m :
  dedup_rel t M → trie_rel (ipVersion v6) tr m → holds v6 X m → (∀ c, Version c ≠ ipVersion v6 → cidrsOf X c ↔ cidrsOf (M !!! id) c) →
  dedup_rel (setTrie t id v6 tr) (<[id := X]> M).
Proof.
  intros Hrel Htr Hm Hother i w. rewrite getTrie_setTrie. case_decide as Hcase.
  - destruct Hcase as [-> ->]. exists m. by rewrite lookup_total_insert_eq.
  - destruct (Hrel i w) as (m'&Htr'&Hm'). exists m'. split; [done|]. destruct (decide (i = id)) as [->|Hne]; [|by rewrite lookup_total_insert_ne].
    assert (w = negb v6) as -> by (destruct v6, w; naive_solver). rewrite lookup_total_insert_eq. intros c x. rewrite (Hm' c x).
    split; intros (?&Hv&?); split_and!; try done; (apply Hother; [by destruct v6; cbn in *; rewrite Hv|done]).
Qed.

(** Members that are not CIDRs do not matter to the tries. *)
Lemma dedup_rel_port t M id X : dedup_rel t M → (∀ c, cidrsOf X c ↔ cidrsOf (M !!! id) c) → dedup_rel t (<[id := X]> M).
Proof.
  intros Hrel Hsame i w. destruct (Hrel i w) as (m&Htr&Hm). exists m. split; [done|]. intros c x. rewrite (Hm c x).
  destruct (decide (i = id)) as [->|Hne]; [rewrite lookup_total_insert_eq, Hsame; done|by rewrite lookup_total_insert_ne].
Qed.

Section step.
Context (t : memberDeduplicator) (M : Sets) (id : string) (c : CIDR).
Context (Hrel : dedup_rel t M) (Hc : cidr_ok c) (Hprint : printsColon c = bool_decide (Version c = 6%Z)).
Abbreviation X := (M !!! id).

Lemma printed_version : Version c = ipVersion (printsColon c).
Proof using Hprint. clear Hc Hrel. rewrite Hprint. by destruct c. Qed.

Lemma dedup_Add_spec X' :
  X' = {[MakeCIDROrIPOnly c]} ∪ X →
  ∃ t' add removes, dedup_Add t id c = Ret (t', add, removes) ∧ dedup_rel t' (<[id := X']> M) ∧
    ((covered (cidrsOf X) c ∧ add = None ∧ removes = []) ∨
     (¬ covered (cidrsOf X) c ∧ add = Some c ∧ NoDup removes ∧ ∀ d, d ∈ removes ↔ inside (cidrsOf X') c d)).
Proof using Hrel Hc Hprint.
  intros ->. pose proof printed_version as Hv. destruct (Hrel id (printsColon c)) as (m&Htr&Hm). unfold dedup_Add.
  destruct (Covers_ok _ _ _ Htr c Hc Hv) as (b&->&Hb). rewrite (holds_covered _ _ _ _ Hm Hv) in Hb. cbn [obind].
  destruct (trie_step_ok _ _ _ (TrieUpdate c c) Htr Hc Hv) as (tr&Htr'&Hrel'). cbn [trie_step] in Htr'. rewrite Htr'. cbn [obind].
  pose proof (holds_insert _ _ _ _ Hm Hv) as Hm'.
  assert (Hnext : dedup_rel (setTrie t id (printsColon c) tr) (<[id := {[MakeCIDROrIPOnly c]} ∪ X]> M)).
  { apply (dedup_rel_set _ _ _ _ _ _ _ Hrel Hrel' Hm'). intros d Hd. rewrite cidrsOf_insert. naive_solver. }
  destruct b.
  - do 3 eexists. split_and!; [done..|]. left. by split_and!; [apply Hb|..].
  - destruct (ClosestDescendants_ok _ _ _ Hrel' c Hc Hv) as (r&->&Hnd&Hr); [cbn [map_step]; rewrite lookup_insert_eq; eauto|].
    cbn [obind]. do 3 eexists. split_and!; [done..|]. right. split_and!; [intros ?%Hb; done|done..|].
    intros d. rewrite Hr. by apply holds_inside with (1 := Hm').
Qed.

Lemma dedup_Remove_spec X' :
  cidrsOf X c → X' = X ∖ {[MakeCIDROrIPOnly c]} →
  ∃ t' rem adds, dedup_Remove t id c = Ret (t', rem, adds) ∧ dedup_rel t' (<[id := X']> M) ∧
    ((covered (cidrsOf X') c ∧ rem = None ∧ adds = []) ∨
     (¬ covered (cidrsOf X') c ∧ rem = Some c ∧ NoDup adds ∧ ∀ d, d ∈ adds ↔ inside (cidrsOf X) c d)).
Proof using Hrel Hc Hprint.
  intros Hin ->. pose proof printed_version as Hv. destruct (Hrel id (printsColon c)) as (m&Htr&Hm). unfold dedup_Remove.
  destruct (ClosestDescendants_ok _ _ _ Htr c Hc Hv) as (r&->&Hnd&Hr); [by apply (holds_is_Some _ _ _ _ Hm)|]. cbn [obind].
  destruct (trie_step_ok _ _ _ (TrieDelete c) Htr Hc Hv) as (tr&Htr'&Hrel'). cbn [trie_step] in Htr'. rewrite Htr'. cbn [obind].
  pose proof (holds_delete _ _ _ _ Hm Hv) as Hm'.
  assert (Hnext : dedup_rel (setTrie t id (printsColon c) tr) (<[id := X ∖ {[MakeCIDROrIPOnly c]}]> M)).
  { apply (dedup_rel_set _ _ _ _ _ _ _ Hrel Hrel' Hm'). intros d Hd. rewrite cidrsOf_delete. naive_solver. }
  destruct (Covers_ok _ _ _ Hrel' c Hc Hv) as (b&->&Hb). cbn [map_step] in Hb. rewrite (holds_covered _ _ _ _ Hm' Hv) in Hb. cbn [obind].
  destruct b; do 3 eexists; (split_and!; [done..|]).
  - left. by split_and!; [apply Hb|..].
  - right. split_and!; [intros ?%Hb; done|done..|]. intros d. rewrite Hr. by apply holds_inside with (1 := Hm).
Qed.
End step.

(** ** The members shown, when a CIDR is added: [X'] is [X] with it *)
Section shown.
Context (X X' : gset IPSetMember) (c : CIDR) (masked : list CIDR).
Context (HX : set_ok X') (Hnew : MakeCIDROrIPOnly c ∉ X) (HX' : X' = {[MakeCIDROrIPOnly c]} ∪ X).
Abbreviation m := (MakeCIDROrIPOnly c).
Abbreviation masks := (MakeCIDROrIPOnly <$> masked).

Lemma set_ok_sub : set_ok X.
Proof using HX HX'. clear Hnew. intros n Hn. apply HX. rewrite HX'. set_solver. Qed.

Lemma added_cidr_ok : cidr_ok c.
Proof using HX HX'. clear Hnew. apply (cidrsOf_ok X'); [done|]. unfold cidrsOf. rewrite HX'. set_solver. Qed.

Lemma added_cidrs d : cidrsOf X' d ↔ d = c ∨ cidrsOf X d.
Proof using HX'. rewrite HX'. apply cidrsOf_insert. Qed.

Lemma added_port n : memberCIDR n = None → n ∈ X' ↔ n ∈ X.
Proof using HX'. clear HX Hnew. intros Hn. rewrite HX'. assert (n ≠ m); [|set_solver]. intros ->. by rewrite memberCIDR_Make in Hn. Qed.

Lemma shown_covered n : covered (cidrsOf X) c → shown X' n ↔ shown X n.
Proof using HX Hnew HX'.
  intros Hcov. destruct (memberCIDR n) as [d|] eqn:Hd; [|by rewrite !shown_port, added_port].
  destruct (decide (n ∈ X')) as [Hin|Hout].
  - destruct (HX n Hin d Hd) as (->&_). rewrite !shown_cidr by (apply set_ok_sub || done).
    apply outermost_covered with (c := c); [intros ?; apply cidrsOf_ok, set_ok_sub|apply added_cidr_ok|done|apply added_cidrs|done].
  - split; intros [Hin _]; destruct Hout; [done|]. rewrite HX'. set_solver.
Qed.

Context (Huncov : ¬ covered (cidrsOf X) c) (Hmasked : ∀ d, d ∈ masked ↔ inside (cidrsOf X') c d).

Lemma masks_shown n : n ∈ masks → shown X n.
Proof using HX Hnew HX' Huncov Hmasked.
  intros (d&->&Hd)%list_elem_of_fmap. apply shown_cidr; [apply set_ok_sub|].
  apply (outermost_inside (cidrsOf X) (cidrsOf X') c); [intros ?; apply cidrsOf_ok, set_ok_sub|apply added_cidr_ok|done|apply added_cidrs|done|by apply Hmasked].
Qed.

Lemma shown_uncovered n : shown X' n ↔ n = m ∨ shown X n ∧ n ∉ masks.
Proof using HX Hnew HX' Huncov Hmasked.
  destruct (memberCIDR n) as [d|] eqn:Hd.
  - destruct (decide (n ∈ X')) as [Hin|Hout].
    + destruct (HX n Hin d Hd) as (->&_). rewrite !shown_cidr by (apply set_ok_sub || done).
      rewrite (outermost_uncovered (cidrsOf X) (cidrsOf X') c)
        by (first [done | apply added_cidr_ok | apply added_cidrs | intros ?; apply cidrsOf_ok, set_ok_sub]).
      rewrite <- Hmasked, list_elem_of_fmap_inj by apply _. split; (intros [Heq|?]; [left|by right]); [by subst|by apply (inj MakeCIDROrIPOnly)].
    + split; [by intros [? _]|]. rewrite HX' in Hout. intros [->|[[? _] _]]; set_solver.
  - rewrite !shown_port, added_port by done. assert (n ≠ m) by (intros ->; by rewrite memberCIDR_Make in Hd).
    assert (n ∉ masks); [|naive_solver]. intros (?&->&_)%list_elem_of_fmap. by rewrite memberCIDR_Make in Hd.
Qed.
End shown.

(** ** Histories *)
Inductive SetOp :=
  | AddMember (id : string) (m : IPSetMember)
  | RemoveMember (id : string) (m : IPSetMember)
  | DropIPSet (id : string).

(** The suppressor and the client side by side; when the index deletes an IP set, so does the
    client. *)
Definition set_step (op : SetOp) (s : OverlapSuppressor) (P : Sets) : outcome Empty_set (OverlapSuppressor * Sets) :=
  match op with
  | AddMember id m => let! (s', es) := onMemberAdded id m s in let! P' := replay es P in Ret (s', P')
  | RemoveMember id m => let! (s', es) := onMemberRemoved id m s in let! P' := replay es P in Ret (s', P')
  | DropIPSet id => Ret (suppressor_DeleteIPSet s id, delete id P)
  end.

Fixpoint set_run (ops : list SetOp) (s : OverlapSuppressor) (P : Sets) : outcome Empty_set (OverlapSuppressor * Sets) :=
  match ops with [] => Ret (s, P) | op :: ops' => let! (s', P') := set_step op s P in set_run ops' s' P' end.

Definition members_step (M : Sets) (op : SetOp) : Sets :=
  match op with
  | AddMember id m => <[id := {[m]} ∪ M !!! id]> M
  | RemoveMember id m => <[id := M !!! id ∖ {[m]}]> M
  | DropIPSet id => delete id M
  end.

(** The index counts references: it adds members that are not there, and removes members that
    are. *)
Definition op_ok (M : Sets) (op : SetOp) : Prop :=
  match op with
  | AddMember id m => member_ok m ∧ m ∉ M !!! id
  | RemoveMember id m => m ∈ M !!! id
  | DropIPSet _ => True
  end.

Fixpoint history_ok (M : Sets) (ops : list SetOp) : Prop :=
  match ops with [] => True | op :: ops' => op_ok M op ∧ history_ok (members_step M op) ops' end.

Definition visible (s : OverlapSuppressor) (X : gset IPSetMember) (m : IPSetMember) : Prop :=
  match s with noopMemberDeduplicator => m ∈ X | Dedup _ => shown X m end.

Record sets_inv (s : OverlapSuppressor) (M P : Sets) : Prop := {
  si_tries : match s with noopMemberDeduplicator => True | Dedup t => dedup_rel t M end;
  si_ok id : set_ok (M !!! id);
  si_client id m : m ∈ P !!! id ↔ visible s (M !!! id) m
}.

(** A step on the set [id]: the others stay as they are. *)
Lemma sets_inv_insert s s' M P P' id X' :
  sets_inv s M P → match s' with noopMemberDeduplicator => True | Dedup t => dedup_rel t (<[id := X']> M) end →
  (s = noopMemberDeduplicator ↔ s' = noopMemberDeduplicator) → set_ok X' →
  (∀ i n, n ∈ P' !!! i ↔ if decide (i = id) then visible s' X' n else n ∈ P !!! i) → sets_inv s' (<[id := X']> M) P'.
Proof.
  intros [_ Hok Hcl] Ht Hkind HX' HP'. split; [done| |].
  - intros i. destruct (decide (i = id)) as [->|Hne]; [by rewrite lookup_total_insert_eq|by rewrite lookup_total_insert_ne].
  - intros i n. rewrite HP'. case_decide as Hi; [subst; by rewrite lookup_total_insert_eq|]. rewrite lookup_total_insert_ne, Hcl by done.
    destruct s, s'; naive_solver.
Qed.

Lemma set_ok_insert X m : set_ok X → member_ok m → set_ok ({[m]} ∪ X).
Proof. intros HX Hm n. rewrite elem_of_union, elem_of_singleton. intros [->|]; auto. Qed.

Lemma set_ok_delete X m : set_ok X → set_ok (X ∖ {[m]}).
Proof. intros HX n. rewrite elem_of_difference. intros [? _]. auto. Qed.

(** A member shown as it is: port members, and every member without suppression. *)
Lemma add_plain s M P id m :
  sets_inv s M P → member_ok m → m ∉ M !!! id → (s = noopMemberDeduplicator ∨ memberCIDR m = None) →
  ∃ P', replay [OnMemberAdded id m] P = Ret P' ∧ sets_inv s (<[id := {[m]} ∪ M !!! id]> M) P'.
Proof.
  intros Hinv Hm Hnew Hplain. pose proof (si_client _ _ _ Hinv id) as Hcl.
  destruct (replay_adds id [m] P) as (P'&HP'&Hset); [apply NoDup_singleton| |].
  { intros n ->%list_elem_of_singleton. rewrite Hcl. destruct s; cbn; [done|]. by intros [? _]. }
  exists P'. split; [done|]. eapply sets_inv_insert; [done| |done|by apply set_ok_insert; [apply Hinv|]|].
  - destruct s; [done|]. apply dedup_rel_port; [apply Hinv|]. intros c. unfold cidrsOf. rewrite elem_of_union, elem_of_singleton.
    destruct Hplain as [|Hn]; [done|]. split; [|auto]. intros [<-|]; [by rewrite memberCIDR_Make in Hn|done].
  - intros i n. rewrite (Hset i n), list_elem_of_singleton. case_decide as Hi; [subst i|naive_solver]. rewrite Hcl.
    destruct s; cbn; [set_solver|]. destruct Hplain as [|Hn]; [done|].
    destruct (decide (n = m)) as [->|Hne]; [rewrite (shown_port (_ ∪ _)) by done; set_solver|].
    transitivity (shown (M !!! id) n); [naive_solver|]. unfold shown. setoid_rewrite elem_of_union. setoid_rewrite elem_of_singleton.
    split; [intros [? Hmin]|intros [[|] Hmin]]; try done; (split; [by auto|]); [|by eauto].
    intros c m' c' Hc [->|Hin] Hc'; [congruence|by eapply Hmin].
Qed.

Lemma remove_plain s M P id m :
  sets_inv s M P → m ∈ M !!! id → (s = noopMemberDeduplicator ∨ memberCIDR m = None) →
  ∃ P', replay [OnMemberRemoved id m] P = Ret P' ∧ sets_inv s (<[id := M !!! id ∖ {[m]}]> M) P'.
Proof.
  intros Hinv Hin Hplain. pose proof (si_client _ _ _ Hinv id) as Hcl.
  destruct (replay_removes id [m] P) as (P'&HP'&Hset); [apply NoDup_singleton| |].
  { intros n ->%list_elem_of_singleton. rewrite Hcl. destruct s; cbn; [done|]. destruct Hplain; [done|]. by apply shown_port. }
  exists P'. split; [done|]. eapply sets_inv_insert; [done| |done|by apply set_ok_delete, Hinv|].
  - destruct s; [done|]. apply dedup_rel_port; [apply Hinv|]. intros c. unfold cidrsOf. rewrite elem_of_difference, elem_of_singleton.
    destruct Hplain as [|Hn]; [done|]. split; [naive_solver|]. intros Hc. split; [done|]. intros <-. by rewrite memberCIDR_Make in Hn.
  - intros i n. rewrite (Hset i n), list_elem_of_singleton. case_decide as Hi; [subst i|naive_solver]. rewrite Hcl.
    destruct s; cbn; [set_solver|]. destruct Hplain as [|Hn]; [done|].
    destruct (decide (n = m)) as [->|Hne]; [rewrite (shown_port (_ ∖ _)) by done; set_solver|].
    transitivity (shown (M !!! id) n); [naive_solver|]. unfold shown. setoid_rewrite elem_of_difference. setoid_rewrite elem_of_singleton.
    split; intros [Hn' Hmin]; (split; [by (apply Hn' || split)|]); [naive_solver|].
    intros c m' c' Hc Hin' Hc'. eapply Hmin; [done| |done]. split; [done|]. intros ->. congruence.
Qed.

(** A CIDR member, with suppression. *)
Lemma add_cidr t M P id c :
  sets_inv (Dedup t) M P → member_ok (MakeCIDROrIPOnly c) → MakeCIDROrIPOnly c ∉ M !!! id →
  ∃ s' P', set_step (AddMember id (MakeCIDROrIPOnly c)) (Dedup t) P = Ret (s', P') ∧
           sets_inv s' (members_step M (AddMember id (MakeCIDROrIPOnly c))) P'.
Proof.
  intros Hinv Hm Hnew. destruct (Hm c (memberCIDR_Make c)) as (_&Hc&Hprint). pose proof (si_client _ _ _ Hinv id) as Hcl. cbn in Hcl.
  pose proof (set_ok_insert _ _ (si_ok _ _ _ Hinv id) Hm) as HX. cbn [set_step members_step]. unfold onMemberAdded.
  rewrite memberCIDR_Make. cbn [suppressor_Add].
  destruct (dedup_Add_spec t M id c (si_tries _ _ _ Hinv) Hc Hprint _ eq_refl) as (t'&add&removes&->&Hrel'&Hcase). cbn [obind].
  destruct Hcase as [(Hcov&->&->)|(Hcov&->&Hnd&Hrem)].
  - exists (Dedup t'), P. split; [done|]. eapply sets_inv_insert; [done..|]. intros i n. destruct (decide (i = id)) as [->|Hi]; [|done].
    rewrite Hcl. cbn [visible]. symmetry. by apply shown_covered with (c := c).
  - rewrite replay_events_app. destruct (replay_adds id [MakeCIDROrIPOnly c] P) as (P1&HP1&Hset1); [apply NoDup_singleton| |].
    { intros n ->%list_elem_of_singleton. rewrite Hcl. by intros [? _]. }
    cbn [fmap list_fmap] in HP1. rewrite HP1. cbn [obind].
    pose proof (shown_uncovered _ _ c removes HX Hnew eq_refl Hcov Hrem) as Hun.
    pose proof (masks_shown _ _ c removes HX Hnew eq_refl Hcov Hrem) as Hshown.
    destruct (replay_removes id (MakeCIDROrIPOnly <$> removes) P1) as (P2&HP2&Hset2); [by apply NoDup_fmap_2; [apply _|]| |].
    { intros n Hn. apply Hset1. left. by apply Hcl, Hshown. }
    rewrite <- list_fmap_compose in HP2. unfold compose in HP2. rewrite HP2. cbn [obind]. exists (Dedup t'), P2. split; [done|].
    eapply sets_inv_insert; [done..|]. intros i n. rewrite (Hset2 i n), (Hset1 i n), list_elem_of_singleton.
    destruct (decide (i = id)) as [->|Hi]; [|naive_solver]. cbn [visible]. rewrite Hcl, Hun.
    assert (n = MakeCIDROrIPOnly c → n ∉ MakeCIDROrIPOnly <$> removes) by (intros -> Hn%Hshown; by destruct Hn). naive_solver.
Qed.

Lemma remove_cidr t M P id c :
  sets_inv (Dedup t) M P → MakeCIDROrIPOnly c ∈ M !!! id →
  ∃ s' P', set_step (RemoveMember id (MakeCIDROrIPOnly c)) (Dedup t) P = Ret (s', P') ∧
           sets_inv s' (members_step M (RemoveMember id (MakeCIDROrIPOnly c))) P'.
Proof.
  intros Hinv Hin. pose proof (si_ok _ _ _ Hinv id) as HX. destruct (HX _ Hin c (memberCIDR_Make c)) as (_&Hc&Hprint).
  pose proof (si_client _ _ _ Hinv id) as Hcl. cbn in Hcl. pose proof (set_ok_delete _ (MakeCIDROrIPOnly c) HX) as HX'.
  set (X := M !!! id) in *. set (m := MakeCIDROrIPOnly c) in *.
  assert (HXX : X = {[m]} ∪ X ∖ {[m]}) by (by apply union_difference_L, singleton_subseteq_l).
  assert (Hnew : m ∉ X ∖ {[m]}) by set_solver. cbn [set_step members_step]. unfold onMemberRemoved. unfold m at 1.
  rewrite memberCIDR_Make. cbn [suppressor_Remove].
  destruct (dedup_Remove_spec t M id c (si_tries _ _ _ Hinv) Hc Hprint _ Hin eq_refl) as (t'&rem&adds&->&Hrel'&Hcase). cbn [obind].
  fold X m in Hrel', Hcase |- *. destruct Hcase as [(Hcov&->&->)|(Hcov&->&Hnd&Hadd)].
  - exists (Dedup t'), P. split; [done|]. eapply sets_inv_insert; [done..|]. intros i n. destruct (decide (i = id)) as [->|Hi]; [|done].
    fold X. rewrite Hcl. cbn [visible]. by apply shown_covered with (c := c).
  - pose proof (shown_uncovered _ _ c adds HX Hnew HXX Hcov Hadd) as Hun. pose proof (masks_shown _ _ c adds HX Hnew HXX Hcov Hadd) as Hshown.
    rewrite replay_events_app. destruct (replay_removes id [m] P) as (P1&HP1&Hset1); [apply NoDup_singleton| |].
    { intros n ->%list_elem_of_singleton. fold X. rewrite Hcl, Hun. by left. }
    cbn [fmap list_fmap] in HP1. rewrite HP1. cbn [obind].
    destruct (replay_adds id (MakeCIDROrIPOnly <$> adds) P1) as (P2&HP2&Hset2); [by apply NoDup_fmap_2; [apply _|]| |].
    { intros n Hn. rewrite Hset1. fold X. rewrite Hcl, Hun, list_elem_of_singleton. naive_solver. }
    rewrite <- list_fmap_compose in HP2. unfold compose in HP2. rewrite HP2. cbn [obind]. exists (Dedup t'), P2. split; [done|].
    eapply sets_inv_insert; [done..|]. intros i n. rewrite (Hset2 i n), (Hset1 i n), list_elem_of_singleton.
    destruct (decide (i = id)) as [->|Hi]; [|naive_solver]. cbn [visible]. fold X. rewrite Hcl, Hun. fold m.
    assert (n = m → ¬ shown (X ∖ {[m]}) n) by (intros -> [? _]; done). pose proof (Hshown n).
    destruct (decide (n ∈ MakeCIDROrIPOnly <$> adds)); naive_solver.
Qed.

Lemma drop_set s M P id : sets_inv s M P → sets_inv (suppressor_DeleteIPSet s id) (delete id M) (delete id P).
Proof.
  intros [Ht Hok Hcl].
  assert (Hempty : ∀ i, delete id M !!! i = if decide (i = id) then ∅ else M !!! i).
  { intros i. case_decide; [subst; by rewrite lookup_total_delete_eq|by rewrite lookup_total_delete_ne]. }
  split.
  - destruct s as [|t]; [done|]. cbn. intros i v6. rewrite Hempty. unfold getTrie. cbn. case_decide as Hi.
    + subst i. exists ∅. destruct v6; rewrite lookup_delete_eq; (split; [apply trie_rel_empty|]); intros c x; rewrite lookup_empty;
        (split; [done|]); intros (_&_&Hc); unfold cidrsOf in Hc; set_solver.
    + destruct (Ht i v6) as (m&Htr&Hm). exists m. split; [|done]. unfold getTrie in Htr. destruct v6; by rewrite lookup_delete_ne.
  - intros i. rewrite Hempty. case_decide; [|done]. intros m Hm. set_solver.
  - intros i m. rewrite Hempty. case_decide as Hi.
    + subst i. rewrite lookup_total_delete_eq. destruct s; cbn; unfold shown; set_solver.
    + rewrite lookup_total_delete_ne, Hcl by done. by destruct s.
Qed.

Lemma set_step_ok op s M P :
  sets_inv s M P → op_ok M op → ∃ s' P', set_step op s P = Ret (s', P') ∧ sets_inv s' (members_step M op) P'.
Proof.
  intros Hinv Hop. destruct op as [id m|id m|id]; cbn in Hop.
  - destruct Hop as [Hm Hnew]. destruct s as [|t].
    + destruct (add_plain _ _ _ _ _ Hinv Hm Hnew (or_introl eq_refl)) as (P'&HP'&Hinv'). exists noopMemberDeduplicator, P'.
      cbn [set_step]. unfold onMemberAdded. destruct (memberCIDR m); cbn [suppressor_Add obind fmap list_fmap app]; by rewrite HP'.
    + destruct (memberCIDR m) as [c|] eqn:Hc; [destruct (Hm c Hc) as (->&_); by apply add_cidr|].
      destruct (add_plain _ _ _ _ _ Hinv Hm Hnew (or_intror Hc)) as (P'&HP'&Hinv'). exists (Dedup t), P'.
      cbn [set_step]. unfold onMemberAdded. rewrite Hc. cbn [obind]. by rewrite HP'.
  - destruct s as [|t].
    + destruct (remove_plain _ _ _ _ _ Hinv Hop (or_introl eq_refl)) as (P'&HP'&Hinv'). exists noopMemberDeduplicator, P'.
      cbn [set_step]. unfold onMemberRemoved. destruct (memberCIDR m); cbn [suppressor_Remove obind fmap list_fmap app]; by rewrite HP'.
    + destruct (memberCIDR m) as [c|] eqn:Hc; [destruct (si_ok _ _ _ Hinv id m Hop c Hc) as (->&_); by apply remove_cidr|].
      destruct (remove_plain _ _ _ _ _ Hinv Hop (or_intror Hc)) as (P'&HP'&Hinv'). exists (Dedup t), P'.
      cbn [set_step]. unfold onMemberRemoved. rewrite Hc. cbn [obind]. by rewrite HP'.
  - do 2 eexists. split; [done|]. by apply drop_set.
Qed.

Lemma set_run_ok ops s M P :
  sets_inv s M P → history_ok M ops → ∃ s' P', set_run ops s P = Ret (s', P') ∧ sets_inv s' (foldl members_step M ops) P'.
Proof.
  revert s M P. induction ops as [|op ops IH]; intros s M P Hinv Hops; [by exists s, P|]. destruct Hops as [Hop Hops].
  destruct (set_step_ok op s M P Hinv Hop) as (s'&P'&Hstep&Hinv'). cbn [set_run foldl]. rewrite Hstep. cbn [obind]. by apply IH.
Qed.

Lemma sets_inv_empty s : s = NewMemberOverlapSuppressor ∨ s = NewNoopMemberOverlapSuppressor → sets_inv s ∅ ∅.
Proof.
  intros Hs. split.
  - destruct Hs as [->| ->]; [|done]. intros id v6. exists ∅. split; [|by intros c x; split; [|intros (_&_&?)]].
    unfold getTrie. cbn. destruct v6; rewrite lookup_empty; apply trie_rel_empty.
  - intros id m Hm. rewrite lookup_total_empty in Hm. set_solver.
  - intros id m. rewrite !lookup_total_empty. destruct Hs as [->| ->]; cbn; unfold shown; set_solver.
Qed.

Definition suppresses (s : OverlapSuppressor) : bool := match s with noopMemberDeduplicator => false | Dedup _ => true end.

Lemma suppressor_Add_suppresses s id c s' a r : suppressor_Add s id c = Ret (s', a, r) → suppresses s' = suppresses s.
Proof. destruct s as [|t]; cbn [suppressor_Add]; [by intros [= <-]|]. destruct (dedup_Add t id c) as [[[]]| | |]; cbn [obind]; by intros [= <-]. Qed.

Lemma suppressor_Remove_suppresses s id c s' a r : suppressor_Remove s id c = Ret (s', a, r) → suppresses s' = suppresses s.
Proof. destruct s as [|t]; cbn [suppressor_Remove]; [by intros [= <-]|]. destruct (dedup_Remove t id c) as [[[]]| | |]; cbn [obind]; by intros [= <-]. Qed.

Lemma set_step_suppresses op s P s' P' : set_step op s P = Ret (s', P') → suppresses s' = suppresses s.
Proof.
  destruct op as [id m|id m|id]; cbn [set_step]; [| |by destruct s; intros [= <- _]].
  - intros ([s1 es]&Hadd&Hrest)%obind_Ret. apply obind_Ret in Hrest as (P1&_&[= <- _]). unfold onMemberAdded in Hadd.
    destruct (memberCIDR m); [|by injection Hadd as <-]. apply obind_Ret in Hadd as ([[s2 a] r]&Hsup&[= <- _]).
    by apply suppressor_Add_suppresses in Hsup.
  - intros ([s1 es]&Hrem&Hrest)%obind_Ret. apply obind_Ret in Hrest as (P1&_&[= <- _]). unfold onMemberRemoved in Hrem.
    destruct (memberCIDR m); [|by injection Hrem as <-]. apply obind_Ret in Hrem as ([[s2 a] r]&Hsup&[= <- _]).
    by apply suppressor_Remove_suppresses in Hsup.
Qed.

Lemma set_run_suppresses ops s P s' P' : set_run ops s P = Ret (s', P') → suppresses s' = suppresses s.
Proof.
  revert s P. induction ops as [|op ops IH]; intros s P Hrun; [by injection Hrun as <- _|].
  apply obind_Ret in Hrun as ([s1 P1]&Hstep&Hrun). rewrite (IH _ _ Hrun). by apply (set_step_suppresses op _ P _ P1).
Qed.

(** C22: let the index add and remove members of IP sets, and delete sets, in any order, adding
    only members that are not there and removing only members that are.  The callbacks never
    add a member that the client has nor remove one that it has not.  With overlap suppression
    the client ends with exactly the members that no other member of their set covers, however
    CIDRs nest and in whichever order they come and go, while members with a port are all
    there; without it, it ends with every member. *)
Theorem suppressor_shows_uncovered (ops : list SetOp) :
  history_ok ∅ ops →
  let M := foldl members_step ∅ ops in
  (∃ s P, set_run ops NewMemberOverlapSuppressor ∅ = Ret (s, P) ∧ ∀ id m, m ∈ P !!! id ↔ shown (M !!! id) m) ∧
  (∃ s P, set_run ops NewNoopMemberOverlapSuppressor ∅ = Ret (s, P) ∧ ∀ id m, m ∈ P !!! id ↔ m ∈ M !!! id).
Proof.
  intros Hops M. split.
  - destruct (set_run_ok ops NewMemberOverlapSuppressor ∅ ∅ (sets_inv_empty _ (or_introl eq_refl)) Hops) as (s&P&Hrun&Hinv).
    exists s, P. split; [done|]. intros id m. rewrite (si_client _ _ _ Hinv). apply set_run_suppresses in Hrun. by destruct s.
  - destruct (set_run_ok ops NewNoopMemberOverlapSuppressor ∅ ∅ (sets_inv_empty _ (or_intror eq_refl)) Hops) as (s&P&Hrun&Hinv).
    exists s, P. split; [done|]. intros id m. rewrite (si_client _ _ _ Hinv). apply set_run_suppresses in Hrun. by destruct s.
Qed.

(** 10.1.2.3, then 10.0.0.0/8 over it, then 10.1.0.0/16 in between; then the widest goes. *)
Definition dedupExample : list SetOp :=
  [AddMember "s" (MakeCIDROrIPOnly host10); AddMember "s" (MakeCIDROrIPOnly net10);
   AddMember "s" (MakeCIDROrIPOnly net10_1); RemoveMember "s" (MakeCIDROrIPOnly net10)].

Lemma dedupExample_ok : history_ok ∅ dedupExample.
Proof.
  destruct example_cidrs_ok as (H8&H16&_&Hh).
  assert (Hok : ∀ c, cidr_ok c → Version c = 4%Z → member_ok (MakeCIDROrIPOnly c)).
  { intros c Hc Hv c'. rewrite memberCIDR_Make. intros [= <-]. split_and!; [done..|]. by destruct c. }
  cbn [history_ok op_ok dedupExample]. split_and!; try (by apply Hok); by apply (bool_decide_unpack _); vm_compute.
Qed.

Lemma suppressor_shows_uncovered_witness :
  ∃ s P, set_run dedupExample NewMemberOverlapSuppressor ∅ = Ret (s, P) ∧ P !!! "s" = {[MakeCIDROrIPOnly net10_1]} ∧
         ¬ shown (foldl members_step ∅ dedupExample !!! "s") (MakeCIDROrIPOnly host10).
Proof.
  pose proof (suppressor_shows_uncovered dedupExample dedupExample_ok) as Hshows. cbv zeta in Hshows.
  destruct Hshows as [(s&P&Hrun&Hshown) _]. exists s, P.
  assert (HP : match set_run dedupExample NewMemberOverlapSuppressor ∅ with
               | Ret (_, P) => bool_decide (P !!! "s" = {[MakeCIDROrIPOnly net10_1]}) | _ => false end = true) by (vm_compute; reflexivity).
  rewrite Hrun in HP. apply bool_decide_eq_true in HP.
  split_and!; [done..|]. rewrite <- Hshown, HP. by rewrite elem_of_singleton.
Defined.
