(* ===== verification/NamedPortIndex.v ===== *)
(** * The selector and named port index: [felix/labelindex/named_port_index.go]

    The index computes the members of IP sets: the CIDRs, or the addresses with a named port,
    of the endpoints and network sets that a selector matches, by their own labels and those
    inherited from their profiles.  Members are counted by reference, since endpoints may share
    them; the overlap suppressor stands between the counts and the callbacks.

    Endpoint and parent data are shared objects: the two label indexes hold addresses in the
    heaps [endpointObjects] and [parentObjects].  The calls of [OnMemberAdded] and
    [OnMemberRemoved] are recorded in order in [events].  The orders in which Go ranges over
    maps are the fields of [GoOrders].  Logging, gauges and liveness reports are left out. *)
From S2P Require Import Prelude ModelRule SelectorAST UniqueLabels AdaptiveSet GoSet.
From S2P Require Import RestrictionIndex NameValueIndex.
From S2P Require Import CIDR CIDRTrie MemberDedup.
From stdpp Require Import base list gmap numbers strings sorting.
From stdpp Require Import options.

(** ** Protocols of named ports: [ipset_port_protocol.go] *)
(** [strings.ToLower]; no letter outside ASCII has a lower case among the letters of the
    protocol names it is compared with. *)
Definition toLowerAscii (c : Ascii.ascii) : Ascii.ascii :=
  let n := Ascii.nat_of_ascii c in if ((65 <=? n) && (n <=? 90))%nat then Ascii.ascii_of_nat (n + 32) else c.

Fixpoint ToLower (s : string) : string :=
  match s with EmptyString => EmptyString | String c s' => String (toLowerAscii c) (ToLower s') end.

Definition MatchesModelProtocol (p : Protocol) (protocol : ModelProtocol) : outcome Empty_set bool :=
  if decide (Type_ protocol = NumOrStringNum) then
    if decide (NumVal protocol = 0)%Z then Ret (bool_decide (p = ProtocolAny)) else Ret (bool_decide (NumVal protocol = p))
  else if decide (p = ProtocolTCP) then Ret (bool_decide (ToLower (StrVal protocol) = "tcp"))
  else if decide (p = ProtocolUDP) then Ret (bool_decide (ToLower (StrVal protocol) = "udp"))
  else if decide (p = ProtocolSCTP) then Ret (bool_decide (ToLower (StrVal protocol) = "sctp"))
  else if decide (p = ProtocolAny) then Ret true
  else Panic.

Definition ProtocolFrom (p : ModelProtocol) : outcome Empty_set Protocol :=
  let! udp := MatchesModelProtocol ProtocolUDP p in
  if (udp : bool) then Ret ProtocolUDP
  else
    let! sctp := MatchesModelProtocol ProtocolSCTP p in
    if (sctp : bool) then Ret ProtocolSCTP else Ret ProtocolTCP.

Record EndpointPort := MkEndpointPort { ep_Name : string; ep_Protocol : ModelProtocol; ep_Port : Z }.

#[global] Instance EndpointPort_eq_dec : EqDecision EndpointPort.
Proof. solve_decision. Defined.

(** ** Data *)
Definition parentAddr := nat.
Definition endpointAddr := nat.

Record endpointData := MkEndpointData {
  ed_labels : uniquelabels.Map;
  ed_nets : list CIDR;
  ed_ports : list EndpointPort;
  ed_parents : list parentAddr;
  cachedMatchingIPSetIDs : Adaptive (T := string)
}.

Record ipSetData := MkIPSetData {
  is_selector : Selector;
  namedPortProtocol : Protocol;
  namedPort : string;
  memberToRefCount : gmap IPSetMember Z
}.

Record namedPortContribution := MkContribution { npc_protocol : Protocol; npc_port : Z }.

Fixpoint lookupPorts (ports : list EndpointPort) (name : string) (proto : Protocol) : outcome Empty_set (list namedPortContribution) :=
  match ports with
  | [] => Ret []
  | p :: ports' =>
      let! matches := (if decide (ep_Name p = name) then MatchesModelProtocol proto (ep_Protocol p) else Ret false) in
      if (matches : bool) then
        let! protocol := ProtocolFrom (ep_Protocol p) in
        let! rest := lookupPorts ports' name proto in
        Ret (MkContribution protocol (ep_Port p) :: rest)
      else lookupPorts ports' name proto
  end.

Definition LookupNamedPorts (d : endpointData) (name : string) (proto : Protocol) : outcome Empty_set (list namedPortContribution) :=
  lookupPorts (ed_ports d) name proto.

(** The cross product of the matching named ports and the addresses, or the CIDRs. *)
Definition CalculateEndpointContribution (d : endpointData) (s : ipSetData) : outcome Empty_set (list IPSetMember) :=
  if decide (namedPortProtocol s ≠ ProtocolNone) then
    let! members := LookupNamedPorts d (namedPort s) (namedPortProtocol s) in
    Ret (members ≫= λ member, (λ cidr, MakeIPPortProto (AddrOf cidr) (npc_port member) (npc_protocol member)) <$> ed_nets d)
  else Ret (MakeCIDROrIPOnly <$> ed_nets d).

Definition uint64 : Z → Z := uintN 64.

(** The orders in which Go ranges over maps (of the argument), and [sort.Slice]. *)
Record GoOrders (EpID : Type) `{Countable EpID} := MkGoOrders {
  rangeIDs : gset EpID → list EpID;
  rangeStrings : gset string → list string;
  rangeLabels : gmap string string → list (string * string);
  rangeRestrictions : restrictions → list (string * LabelRestriction);
  rangeEndpoints : gmap EpID endpointAddr → list EpID;
  rangeParents : gmap string parentAddr → list string;
  rangeEndpointValues : gmap string (Adaptive (T := EpID)) → list (string * Adaptive (T := EpID));
  rangeParentValues : gmap string (Adaptive (T := string)) → list (string * Adaptive (T := string));
  rangeMembers : gmap IPSetMember Z → list IPSetMember;
  rangeContributions : gmap string (list IPSetMember) → list (string * list IPSetMember);
  sortIDSets : (Adaptive (T := EpID) → Adaptive (T := EpID) → bool) → list (Adaptive (T := EpID)) → list (Adaptive (T := EpID));
  sortStringSets : (Adaptive (T := string) → Adaptive (T := string) → bool) → list (Adaptive (T := string)) → list (Adaptive (T := string))
}.
Arguments rangeIDs {_ _ _} _ _ : assert.
Arguments rangeStrings {_ _ _} _ _ : assert.
Arguments rangeLabels {_ _ _} _ _ : assert.
Arguments rangeRestrictions {_ _ _} _ _ : assert.
Arguments rangeEndpoints {_ _ _} _ _ : assert.
Arguments rangeParents {_ _ _} _ _ : assert.
Arguments rangeEndpointValues {_ _ _} _ _ : assert.
Arguments rangeParentValues {_ _ _} _ _ : assert.
Arguments rangeMembers {_ _ _} _ _ : assert.
Arguments rangeContributions {_ _ _} _ _ : assert.
Arguments sortIDSets {_ _ _} _ _ _ : assert.
Arguments sortStringSets {_ _ _} _ _ _ : assert.

Section index.
Context `{Countable EpID} (zeroID : EpID) (go : GoOrders EpID).

(** [endpointIDs] is [None] when the set is nil. *)
Record npParentData := MkParentData {
  pd_id : string;
  pd_labels : uniquelabels.Map;
  pd_endpointIDs : option (gset EpID)
}.

Abbreviation EndpointIndex := (LabelNameValueIndex (ItemID := EpID) (Item := endpointAddr)).
Abbreviation ParentIndex := (LabelNameValueIndex (ItemID := string) (Item := parentAddr)).

Record SelectorAndNamedPortIndex := MkNPIndex {
  endpointKVIdx : EndpointIndex;
  parentKVIdx : ParentIndex;
  ipSetDataByID : gmap string ipSetData;
  selectorCandidatesIdx : LabelRestrictionIndex (SelID := string);
  suppressor : OverlapSuppressor;
  endpointObjects : list endpointData;
  parentObjects : list npParentData;
  events : list MemberEvent
}.

Definition NewSelectorAndNamedPortIndex (suppressOverlaps : bool) : SelectorAndNamedPortIndex :=
  MkNPIndex NameValueIndex.New NameValueIndex.New ∅ RestrictionIndex.New
    (if suppressOverlaps then NewMemberOverlapSuppressor else NewNoopMemberOverlapSuppressor) [] [] [].

Implicit Types idx : SelectorAndNamedPortIndex.

Definition set_endpoints e idx :=
  MkNPIndex e (parentKVIdx idx) (ipSetDataByID idx) (selectorCandidatesIdx idx) (suppressor idx) (endpointObjects idx) (parentObjects idx) (events idx).
Definition set_parents p idx :=
  MkNPIndex (endpointKVIdx idx) p (ipSetDataByID idx) (selectorCandidatesIdx idx) (suppressor idx) (endpointObjects idx) (parentObjects idx) (events idx).
Definition set_ipSets f idx :=
  MkNPIndex (endpointKVIdx idx) (parentKVIdx idx) (f (ipSetDataByID idx)) (selectorCandidatesIdx idx) (suppressor idx) (endpointObjects idx) (parentObjects idx) (events idx).
Definition set_candidates c idx :=
  MkNPIndex (endpointKVIdx idx) (parentKVIdx idx) (ipSetDataByID idx) c (suppressor idx) (endpointObjects idx) (parentObjects idx) (events idx).
Definition set_suppressor s es idx :=
  MkNPIndex (endpointKVIdx idx) (parentKVIdx idx) (ipSetDataByID idx) (selectorCandidatesIdx idx) s (endpointObjects idx) (parentObjects idx) (events idx ++ es).
Definition set_endpointObjects f idx :=
  MkNPIndex (endpointKVIdx idx) (parentKVIdx idx) (ipSetDataByID idx) (selectorCandidatesIdx idx) (suppressor idx) (f (endpointObjects idx)) (parentObjects idx) (events idx).
Definition set_parentObjects f idx :=
  MkNPIndex (endpointKVIdx idx) (parentKVIdx idx) (ipSetDataByID idx) (selectorCandidatesIdx idx) (suppressor idx) (endpointObjects idx) (f (parentObjects idx)) (events idx).
(** Forget the calls that were made: the caller has run the callbacks. *)
Definition clear_events idx :=
  MkNPIndex (endpointKVIdx idx) (parentKVIdx idx) (ipSetDataByID idx) (selectorCandidatesIdx idx) (suppressor idx) (endpointObjects idx) (parentObjects idx) [].

(** ** Objects *)
Definition endpointAt idx (a : endpointAddr) : endpointData :=
  default (MkEndpointData uniquelabels.Nil [] [] [] NewAdaptive) (endpointObjects idx !! a).

Definition deref (h : list npParentData) (a : parentAddr) : npParentData := default (MkParentData "" uniquelabels.Nil None) (h !! a).

Definition set_cached (a : endpointAddr) (c : Adaptive) idx :=
  set_endpointObjects (λ h, <[a := let d := endpointAt idx a in MkEndpointData (ed_labels d) (ed_nets d) (ed_ports d) (ed_parents d) c]> h) idx.

Definition AddMatchingIPSetID (a : endpointAddr) (id : string) idx : outcome Empty_set SelectorAndNamedPortIndex :=
  let! c := AdaptiveSet.Add "" id (cachedMatchingIPSetIDs (endpointAt idx a)) in Ret (set_cached a c idx).

Definition RemoveMatchingIPSetID (a : endpointAddr) (id : string) idx : outcome Empty_set SelectorAndNamedPortIndex :=
  let! c := AdaptiveSet.Discard "" (rangeStrings go) id (cachedMatchingIPSetIDs (endpointAt idx a)) in Ret (set_cached a c idx).

(** [endpointData.GetHandle]: own labels first, then those of the parents in order. *)
Fixpoint inheritedHandle (h : list npParentData) (ps : list parentAddr) (labelName : string) : option string :=
  match ps with
  | [] => None
  | a :: ps' =>
      match uniquelabels.Map_GetHandle (pd_labels (deref h a)) labelName with
      | Some handle => Some handle
      | None => inheritedHandle h ps' labelName
      end
  end.

Definition endpointGetHandle (d : list npParentData * endpointData) (labelName : string) : option string :=
  match uniquelabels.Map_GetHandle (ed_labels d.2) labelName with
  | Some handle => Some handle
  | None => inheritedHandle d.1 (ed_parents d.2) labelName
  end.

#[global] Instance endpointData_Labels : Labels (list npParentData * endpointData) := endpointGetHandle.

Definition labelHandles (m : uniquelabels.Map) : list (string * string) := rangeLabels go (uniquelabels.entries m).

(** The labels of one parent that are not shadowed. *)
Fixpoint unshadowed (seenKeys : gset string) (kvs : list (string * string)) : gset string * list (string * string) :=
  match kvs with
  | [] => (seenKeys, [])
  | (k, v) :: kvs' =>
      if decide (k ∈ seenKeys) then unshadowed seenKeys kvs'
      else let '(seen, rest) := unshadowed ({[k]} ∪ seenKeys) kvs' in (seen, (k, v) :: rest)
  end.

Fixpoint parentLabelHandles (h : list npParentData) (seenKeys : gset string) (ps : list parentAddr) : list (string * string) :=
  match ps with
  | [] => []
  | a :: ps' =>
      let '(seen, kvs) := unshadowed seenKeys (labelHandles (pd_labels (deref h a))) in
      kvs ++ parentLabelHandles h seen ps'
  end.

Definition AllOwnAndParentLabelHandles (h : list npParentData) (d : endpointData) : list (string * string) :=
  let own := labelHandles (ed_labels d) in
  own ++ parentLabelHandles h (list_to_set own.*1) (ed_parents d).

Definition endpoint_Equals (d other : endpointData) : bool :=
  if negb (uniquelabels.Equals (ed_labels d) (ed_labels other)) then false
  else if decide (length (ed_ports d) ≠ length (ed_ports other)) then false
  else if decide (length (ed_nets d) ≠ length (ed_nets other)) then false
  else if decide (length (ed_parents d) ≠ length (ed_parents other)) then false
  else bool_decide (ed_ports d = ed_ports other) && bool_decide (ed_nets d = ed_nets other) && bool_decide (ed_parents d = ed_parents other).

Definition set_endpointIDs (a : parentAddr) (ids : option (gset EpID)) idx :=
  set_parentObjects (λ h, <[a := let p := deref h a in MkParentData (pd_id p) (pd_labels p) ids]> h) idx.
Definition set_parentLabels (a : parentAddr) (l : uniquelabels.Map) idx :=
  set_parentObjects (λ h, <[a := let p := deref h a in MkParentData (pd_id p) l (pd_endpointIDs p)]> h) idx.

Definition DiscardEndpointID (a : parentAddr) (id : EpID) idx : outcome Empty_set SelectorAndNamedPortIndex :=
  match pd_endpointIDs (deref (parentObjects idx) a) with
  | None => Panic
  | Some ids =>
      let ids' := Typed_Discard id ids in
      Ret (set_endpointIDs a (if decide (Typed_Len ids' = 0)%Z then None else Some ids') idx)
  end.

Definition AddEndpointID (a : parentAddr) (id : EpID) idx : SelectorAndNamedPortIndex :=
  set_endpointIDs a (Some (Typed_Add id (default ∅ (pd_endpointIDs (deref (parentObjects idx) a))))) idx.

(** ** Parents in the index *)
Definition getOrCreateParent (id : string) idx : outcome Empty_set (SelectorAndNamedPortIndex * parentAddr) :=
  match NameValueIndex.Get id (parentKVIdx idx) with
  | Some parent => Ret (idx, parent)
  | None =>
      let parent : parentAddr := length (parentObjects idx) in
      let idx1 := set_parentObjects (λ h, h ++ [MkParentData id uniquelabels.Nil None]) idx in
      let! ps := NameValueIndex.Add "" (labelHandles uniquelabels.Nil) id parent (parentKVIdx idx1) in
      Ret (set_parents ps idx1, parent)
  end.

Fixpoint getOrCreateParents (ids : list string) idx : outcome Empty_set (SelectorAndNamedPortIndex * list parentAddr) :=
  match ids with
  | [] => Ret (idx, [])
  | pID :: ids' =>
      let! (idx1, parent) := getOrCreateParent pID idx in
      let! (idx2, rest) := getOrCreateParents ids' idx1 in
      Ret (idx2, parent :: rest)
  end.

(** [parentKVIdx.Remove], which asks the stored parent for its labels. *)
Definition removeParent (id : string) (parent : parentAddr) idx : outcome Empty_set SelectorAndNamedPortIndex :=
  let! ps := NameValueIndex.Remove "" (rangeStrings go) (labelHandles (pd_labels (deref (parentObjects idx) parent))) id (parentKVIdx idx) in
  Ret (set_parents ps idx).

Definition discardParentIfEmpty (id : string) idx : outcome Empty_set SelectorAndNamedPortIndex :=
  match NameValueIndex.Get id (parentKVIdx idx) with
  | None => Ret idx
  | Some parent =>
      let p := deref (parentObjects idx) parent in
      match pd_endpointIDs p with
      | None => if uniquelabels.IsNil (pd_labels p) then removeParent id parent idx else Ret idx
      | Some _ => Ret idx
      end
  end.

(** ** Counting references to members *)
Definition memberAdded (ipSetID : string) (member : IPSetMember) idx : outcome Empty_set SelectorAndNamedPortIndex :=
  let! (s, es) := onMemberAdded ipSetID member (suppressor idx) in Ret (set_suppressor s es idx).

Definition memberRemoved (ipSetID : string) (member : IPSetMember) idx : outcome Empty_set SelectorAndNamedPortIndex :=
  let! (s, es) := onMemberRemoved ipSetID member (suppressor idx) in Ret (set_suppressor s es idx).

Definition set_refCounts (f : gmap IPSetMember Z → gmap IPSetMember Z) (d : ipSetData) : ipSetData :=
  MkIPSetData (is_selector d) (namedPortProtocol d) (namedPort d) (f (memberToRefCount d)).

(** [memberToRefCount] of an IP set, a nil dereference when there is no such set. *)
Definition refCount (ipSetID : string) (member : IPSetMember) idx : outcome Empty_set Z :=
  match ipSetDataByID idx !! ipSetID with
  | None => Panic
  | Some d => Ret (default 0%Z (memberToRefCount d !! member))
  end.

Definition storeRefCount (ipSetID : string) (f : gmap IPSetMember Z → gmap IPSetMember Z) idx :=
  set_ipSets (alter (set_refCounts f) ipSetID) idx.

(** The increment of [scanEndpointAgainstIPSets]. *)
Definition increfMember (ipSetID : string) (newMember : IPSetMember) idx : outcome Empty_set SelectorAndNamedPortIndex :=
  let! n := refCount ipSetID newMember idx in
  let newRefCount := uint64 (n + 1) in
  let! idx1 := (if decide (newRefCount = 1)%Z then memberAdded ipSetID newMember idx else Ret idx) in
  Ret (storeRefCount ipSetID <[newMember := newRefCount]> idx1).

(** The increment of [UpdateIPSet]. *)
Definition addNewMember (ipSetID : string) (member : IPSetMember) idx : outcome Empty_set SelectorAndNamedPortIndex :=
  let! n := refCount ipSetID member idx in
  let! idx1 := (if decide (n = 0)%Z then memberAdded ipSetID member idx else Ret idx) in
  Ret (storeRefCount ipSetID <[member := uint64 (n + 1)]> idx1).

Definition decrefMember (ipSetID : string) (oldMember : IPSetMember) idx : outcome Empty_set SelectorAndNamedPortIndex :=
  let! n := refCount ipSetID oldMember idx in
  let newRefCount := uint64 (n - 1) in
  if decide (newRefCount = 0)%Z then
    let! idx1 := memberRemoved ipSetID oldMember idx in Ret (storeRefCount ipSetID (delete oldMember) idx1)
  else Ret (storeRefCount ipSetID <[oldMember := newRefCount]> idx).

(** A loop whose body may panic. *)
Fixpoint forEach {A} (body : A → SelectorAndNamedPortIndex → outcome Empty_set SelectorAndNamedPortIndex) (l : list A) idx
    : outcome Empty_set SelectorAndNamedPortIndex :=
  match l with [] => Ret idx | x :: l' => let! idx' := body x idx in forEach body l' idx' end.

Fixpoint contributionsOf (d : endpointData) (ids : list string) idx (contrib : gmap string (list IPSetMember))
    : outcome Empty_set (gmap string (list IPSetMember)) :=
  match ids with
  | [] => Ret contrib
  | ipSetID :: ids' =>
      match ipSetDataByID idx !! ipSetID with
      | None => Panic
      | Some s => let! c := CalculateEndpointContribution d s in contributionsOf d ids' idx (<[ipSetID := c]> contrib)
      end
  end.

Definition RecalcCachedContributions (d : endpointData) idx : outcome Empty_set (gmap string (list IPSetMember)) :=
  let! n := Len (cachedMatchingIPSetIDs d) in
  if decide (n = 0)%Z then Ret ∅
  else let! ids := All (rangeStrings go) (cachedMatchingIPSetIDs d) in contributionsOf d ids idx ∅.

(** One candidate IP set in the loop of [scanEndpointAgainstIPSets]. *)
Definition scanIPSet (a : endpointAddr) (ipSetID : string) idx : outcome Empty_set SelectorAndNamedPortIndex :=
  match ipSetDataByID idx !! ipSetID with
  | None => Panic
  | Some s =>
      let d := endpointAt idx a in
      if Evaluate (root (is_selector s)) (parentObjects idx, d) then
        let! idx1 := AddMatchingIPSetID a ipSetID idx in
        let! newIPSetContribution := CalculateEndpointContribution d s in
        forEach (increfMember ipSetID) newIPSetContribution idx1
      else Ret idx
  end.

Definition decrefContributions (contributions : gmap string (list IPSetMember)) idx : outcome Empty_set SelectorAndNamedPortIndex :=
  forEach (λ '(ipSetID, oldMembers), forEach (decrefMember ipSetID) oldMembers) (rangeContributions go contributions) idx.

Definition scanEndpointAgainstIPSets (a : endpointAddr) (oldIPSetContributions : gmap string (list IPSetMember)) idx
    : outcome Empty_set SelectorAndNamedPortIndex :=
  let idx0 := set_cached a (Clear (cachedMatchingIPSetIDs (endpointAt idx a))) idx in
  let labels := AllOwnAndParentLabelHandles (parentObjects idx0) (endpointAt idx0 a) in
  let! idx1 := forEach (scanIPSet a) (AllPotentialMatches (rangeStrings go) labels (selectorCandidatesIdx idx0)).*1 idx0 in
  decrefContributions oldIPSetContributions idx1.

(** ** Endpoints *)
Definition removeEndpoint (id : EpID) (a : endpointAddr) idx : outcome Empty_set SelectorAndNamedPortIndex :=
  let! es := NameValueIndex.Remove zeroID (rangeIDs go) (labelHandles (ed_labels (endpointAt idx a))) id (endpointKVIdx idx) in
  Ret (set_endpoints es idx).

Definition addEndpoint (id : EpID) (a : endpointAddr) idx : outcome Empty_set SelectorAndNamedPortIndex :=
  let! es := NameValueIndex.Add zeroID (labelHandles (ed_labels (endpointAt idx a))) id a (endpointKVIdx idx) in
  Ret (set_endpoints es idx).

(** The end of [DeleteEndpoint] for one parent. *)
Definition leaveParent (id : EpID) (parent : parentAddr) idx : outcome Empty_set SelectorAndNamedPortIndex :=
  let! idx1 := DiscardEndpointID parent id idx in
  discardParentIfEmpty (pd_id (deref (parentObjects idx1) parent)) idx1.

(** The end of [UpdateEndpointOrSet] for one of the old parents. *)
Definition leaveOldParent (id : EpID) (newParentIDs : gset string) (parent : parentAddr) idx : outcome Empty_set SelectorAndNamedPortIndex :=
  if decide (pd_id (deref (parentObjects idx) parent) ∈ newParentIDs) then Ret idx else leaveParent id parent idx.

Definition UpdateEndpointOrSet (id : EpID) (labels : uniquelabels.Map) (nets : list CIDR) (ports : list EndpointPort) (parentIDs : list string) idx0
    : outcome Empty_set SelectorAndNamedPortIndex :=
  let! (idx, parents) := getOrCreateParents parentIDs idx0 in
  let newEndpointData :=
    MkEndpointData (if (0 <? uniquelabels.Len labels)%nat then labels else uniquelabels.Nil) nets ports parents NewAdaptive in
  let oldAddr := NameValueIndex.Get id (endpointKVIdx idx) in
  let oldParents := match oldAddr with Some a => ed_parents (endpointAt idx a) | None => [] end in
  if match oldAddr with Some a => endpoint_Equals (endpointAt idx a) newEndpointData | None => false end then Ret idx
  else
    let! (oldIPSetContributions, idx1) :=
      match oldAddr with
      | None => Ret (∅, idx)
      | Some old =>
          let! contrib := RecalcCachedContributions (endpointAt idx old) idx in
          let! idx1 := removeEndpoint id old idx in
          Ret (contrib, idx1)
      end in
    let a : endpointAddr := length (endpointObjects idx1) in
    let idx2 := set_endpointObjects (λ h, h ++ [newEndpointData]) idx1 in
    let! idx3 := scanEndpointAgainstIPSets a oldIPSetContributions idx2 in
    let! idx4 := addEndpoint id a idx3 in
    let idx5 := foldl (λ idx parent, AddEndpointID parent id idx) idx4 parents in
    let newParentIDs := list_to_set ((λ parent, pd_id (deref (parentObjects idx5) parent)) <$> parents) in
    forEach (leaveOldParent id newParentIDs) oldParents idx5.

Definition DeleteEndpoint (id : EpID) idx : outcome Empty_set SelectorAndNamedPortIndex :=
  match NameValueIndex.Get id (endpointKVIdx idx) with
  | None => Ret idx
  | Some old =>
      let! oldIPSetContributions := RecalcCachedContributions (endpointAt idx old) idx in
      let! idx1 := decrefContributions oldIPSetContributions idx in
      let! idx2 := removeEndpoint id old idx1 in
      forEach (leaveParent id) (ed_parents (endpointAt idx2 old)) idx2
  end.

(** ** Parents *)
(** One endpoint of the loop of [updateParent]; an endpoint that is not in the index would be
    a nil dereference. *)
Definition updateParentEndpoint (parent : parentAddr) (oldLabels labels : uniquelabels.Map) (id : EpID) idx
    : outcome Empty_set SelectorAndNamedPortIndex :=
  match NameValueIndex.Get id (endpointKVIdx idx) with
  | None => Panic
  | Some a =>
      let idx1 := set_parentLabels parent oldLabels idx in
      let! oldIPSetContributions := RecalcCachedContributions (endpointAt idx1 a) idx1 in
      scanEndpointAgainstIPSets a oldIPSetContributions (set_parentLabels parent labels idx1)
  end.

Definition updateParent (parent : parentAddr) (oldLabels labels : uniquelabels.Map) idx : outcome Empty_set SelectorAndNamedPortIndex :=
  let ids := match pd_endpointIDs (deref (parentObjects idx) parent) with Some ids => Typed_All (rangeIDs go) ids | None => [] end in
  let! idx1 := forEach (updateParentEndpoint parent oldLabels labels) ids idx in
  Ret (set_parentLabels parent labels idx1).

(** [uniquelabels.Make] returns its argument (see [UniqueLabels.v]). *)
Definition UpdateParentLabels (parentID : string) (labels : option (gmap string string)) idx0 : outcome Empty_set SelectorAndNamedPortIndex :=
  let! (idx, parent) := getOrCreateParent parentID idx0 in
  let oldLabels := pd_labels (deref (parentObjects idx) parent) in
  if uniquelabels.Equals oldLabels labels then Ret idx
  else
    let! idx1 := removeParent parentID parent idx in
    let! idx2 := updateParent parent oldLabels labels idx1 in
    let! ps := NameValueIndex.Add "" (labelHandles (pd_labels (deref (parentObjects idx2) parent))) parentID parent (parentKVIdx idx2) in
    Ret (set_parents ps idx2).

Definition DeleteParentLabels (parentID : string) idx : outcome Empty_set SelectorAndNamedPortIndex :=
  let! idx1 := UpdateParentLabels parentID None idx in discardParentIfEmpty parentID idx1.

(** ** Candidates for an IP set *)
Abbreviation EndpointStrategy := (ScanStrategy (ItemID := EpID) (Item := endpointAddr)).
Abbreviation ParentStrategy := (ScanStrategy (ItemID := string) (Item := parentAddr)).

Definition scanEndpoints {A} (f : A → EpID → A * bool) (s : EndpointStrategy) (acc : A) : outcome Empty_set A :=
  Scan (rangeIDs go) (sortIDSets go) (rangeEndpoints go) (rangeEndpointValues go) f s acc.

Definition scanParents {A} (f : A → string → A * bool) (s : ParentStrategy) (acc : A) : outcome Empty_set A :=
  Scan (rangeStrings go) (sortStringSets go) (rangeParents go) (rangeParentValues go) f s acc.

Definition maxNumToScan : Z := 10.
Definition MaxInt : Z := 2 ^ 63 - 1.

(** The callback of the estimate: the number of parents scanned, and of their endpoints. *)
Definition countParent idx (acc : outcome Empty_set (Z * Z)) (id : string) : outcome Empty_set (Z * Z) * bool :=
  match acc, NameValueIndex.Get id (parentKVIdx idx) with
  | Ret (numScanned, total), Some parent =>
      let total' := match pd_endpointIDs (deref (parentObjects idx) parent) with
                    | Some ids => total + Typed_Len ids | None => total end%Z in
      (Ret (numScanned + 1, total')%Z, (numScanned + 1 <? maxNumToScan)%Z)
  | _, _ => (Panic, false)
  end.

Definition estimateParentEndpointScanCount (s : ParentStrategy) idx : outcome Empty_set Z :=
  let! acc := scanParents (countParent idx) s (Ret (0, 0)%Z) in
  let! (numScanned, total) := acc in
  if (numScanned <=? maxNumToScan)%Z then Ret total
  else let! n := EstimatedItemsToScan s in Ret (Z.quot (total * n + maxNumToScan - 1) maxNumToScan).

(** The best strategies so far; [None] when a restriction rules out every match. *)
Record Best := MkBest { bestEPStrategy : EndpointStrategy; bestParentStrategy : option ParentStrategy; bestParentEndpointEstimate : Z }.

Definition considerRestriction idx (kr : string * LabelRestriction) (best : Best) : outcome Empty_set (option Best) :=
  let epStrat := StrategyFor kr.1 kr.2 (endpointKVIdx idx) in
  let parentStrat := StrategyFor kr.1 kr.2 (parentKVIdx idx) in
  let! epsToScan := EstimatedItemsToScan epStrat in
  let! parentsToScan := EstimatedItemsToScan parentStrat in
  if ((0 <? epsToScan) && (parentsToScan =? 0))%Z then
    let! bestEstimate := EstimatedItemsToScan (bestEPStrategy best) in
    Ret (Some (if (epsToScan <? bestEstimate)%Z
               then MkBest epStrat (bestParentStrategy best) (bestParentEndpointEstimate best) else best))
  else if ((epsToScan =? 0) && (0 <? parentsToScan))%Z then
    let! parentEstimate := estimateParentEndpointScanCount parentStrat idx in
    Ret (Some (if (match bestParentStrategy best with None => true | Some _ => false end) || (parentEstimate <? bestParentEndpointEstimate best)%Z
               then MkBest (bestEPStrategy best) (Some parentStrat) parentEstimate else best))
  else if ((0 <? parentsToScan) && (0 <? epsToScan))%Z then Ret (Some best)
  else Ret None.

Fixpoint considerRestrictions idx (rs : list (string * LabelRestriction)) (best : Best) : outcome Empty_set (option Best) :=
  match rs with
  | [] => Ret (Some best)
  | kr :: rs' =>
      let! best' := considerRestriction idx kr best in
      match best' with None => Ret None | Some b => considerRestrictions idx rs' b end
  end.

(** The callback on an endpoint, as a callback of a scan: the accumulator is the index, or the
    panic that ended the scan. *)
Definition visitEndpoint (f : endpointAddr → SelectorAndNamedPortIndex → outcome Empty_set SelectorAndNamedPortIndex)
    (acc : outcome Empty_set SelectorAndNamedPortIndex) (id : EpID) : outcome Empty_set SelectorAndNamedPortIndex :=
  let! idx := acc in match NameValueIndex.Get id (endpointKVIdx idx) with None => Panic | Some a => f a idx end.

Definition visitUnseen f (acc : gset EpID * outcome Empty_set SelectorAndNamedPortIndex) (id : EpID) : gset EpID * outcome Empty_set SelectorAndNamedPortIndex :=
  let '(seenEPIDs, res) := acc in
  if Typed_Contains id seenEPIDs then (seenEPIDs, res) else (Typed_Add id seenEPIDs, visitEndpoint f res id).

Definition visitParent f (acc : gset EpID * outcome Empty_set SelectorAndNamedPortIndex) (parentID : string)
    : (gset EpID * outcome Empty_set SelectorAndNamedPortIndex) * bool :=
  match acc.2 with
  | Ret idx =>
      match NameValueIndex.Get parentID (parentKVIdx idx) with
      | None => ((acc.1, Panic), false)
      | Some parent =>
          let ids := match pd_endpointIDs (deref (parentObjects idx) parent) with Some ids => Typed_All (rangeIDs go) ids | None => [] end in
          (foldl (visitUnseen f) acc ids, true)
      end
  | _ => (acc, false)
  end.

Definition iterEndpointCandidates (ipsetID : string) (f : endpointAddr → SelectorAndNamedPortIndex → outcome Empty_set SelectorAndNamedPortIndex) idx
    : outcome Empty_set SelectorAndNamedPortIndex :=
  match ipSetDataByID idx !! ipsetID with
  | None => Panic
  | Some s =>
      match Node_LabelRestrictions (root (is_selector s)) with
      | None => Panic
      | Some lrs =>
          let! best := considerRestrictions idx (rangeRestrictions go lrs) (MkBest (FullScanStrategy (allItems (endpointKVIdx idx))) None MaxInt) in
          match best with
          | None => Ret idx
          | Some b =>
              let! epEstimate := EstimatedItemsToScan (bestEPStrategy b) in
              if (epEstimate <=? bestParentEndpointEstimate b)%Z then
                let! res := scanEndpoints (λ acc id, (visitEndpoint f acc id, true)) (bestEPStrategy b) (Ret idx) in res
              else
                match bestParentStrategy b with
                | None => Panic
                | Some strat => let! res := scanParents (visitParent f) strat (∅, Ret idx) in res.2
                end
          end
      end
  end.

(** ** IP sets *)
Definition DeleteIPSet (setID : string) idx : outcome Empty_set SelectorAndNamedPortIndex :=
  match ipSetDataByID idx !! setID with
  | None => Ret idx
  | Some _ =>
      let! idx1 := iterEndpointCandidates setID (λ a, RemoveMatchingIPSetID a setID) idx in
      let idx2 := set_ipSets (delete setID) idx1 in
      let! c := RestrictionIndex.DeleteSelector (rangeRestrictions go) setID (selectorCandidatesIdx idx2) in
      Ret (set_suppressor (suppressor_DeleteIPSet (suppressor idx2) setID) [] (set_candidates c idx2))
  end.

(** The callback of [UpdateIPSet]. *)
Definition contributeEndpoint (ipSetID : string) (sel : Selector) (a : endpointAddr) idx : outcome Empty_set SelectorAndNamedPortIndex :=
  let d := endpointAt idx a in
  if negb (Evaluate (root sel) (parentObjects idx, d)) then Ret idx
  else
    match ipSetDataByID idx !! ipSetID with
    | None => Panic
    | Some s =>
        let! contrib := CalculateEndpointContribution d s in
        match contrib with
        | [] => Ret idx
        | _ => let! idx1 := AddMatchingIPSetID a ipSetID idx in forEach (addNewMember ipSetID) contrib idx1
        end
    end.

Definition UpdateIPSet (ipSetID : string) (sel : option Selector) (protocol : Protocol) (port : string) idx0
    : outcome Empty_set SelectorAndNamedPortIndex :=
  match sel with
  | None => Panic
  | Some sel =>
      let create idx :=
        let idx1 := set_ipSets <[ipSetID := MkIPSetData sel protocol port ∅]> idx in
        let! c := RestrictionIndex.AddSelector (rangeRestrictions go) (rangeRestrictions go) ipSetID sel (selectorCandidatesIdx idx1) in
        iterEndpointCandidates ipSetID (contributeEndpoint ipSetID sel) (set_candidates c idx1) in
      match ipSetDataByID idx0 !! ipSetID with
      | None => create idx0
      | Some old =>
          if bool_decide (hash sel = hash (is_selector old)) && bool_decide (namedPortProtocol old = protocol) && bool_decide (namedPort old = port)
          then Ret idx0
          else
            let! idx1 := forEach (memberRemoved ipSetID) (rangeMembers go (memberToRefCount old)) idx0 in
            let! idx2 := DeleteIPSet ipSetID idx1 in
            create idx2
      end
  end.
End index.
