(* ===== verification/NamedPortMembers.v ===== *)
(** * The named port index: references to members

    What the loops over members do to the counts, to the overlap suppressor and to a client
    that replays the callbacks.  A [bag] gives, for every IP set, the list of the references
    to its members; the counts of the index are the numbers of occurrences in it. *)
From S2P Require Import Prelude ModelRule SelectorAST UniqueLabels AdaptiveSet GoSet.
From S2P Require Import RestrictionIndex NameValueIndex.
From S2P Require Import CIDR CIDRTrie CIDRTrieCorrect MemberDedup MemberDedupSpec NamedPortIndex.
From stdpp Require Import base list gmap numbers strings sorting.
From stdpp Require Import options.

(** ** Occurrences *)
Definition occ (m : IPSetMember) (l : list IPSetMember) : nat := length (filter (λ x, x = m) l).

Lemma occ_perm m l1 l2 : l1 ≡ₚ l2 → occ m l1 = occ m l2.
Proof. intros Hp. unfold occ. by rewrite Hp. Qed.

Lemma occ_cons m x l : occ m (x :: l) = (if decide (x = m) then 1 else 0) + occ m l.
Proof. unfold occ. rewrite filter_cons. by case_decide. Qed.

Lemma occ_zero m l : occ m l = 0 ↔ m ∉ l.
Proof.
  induction l as [|x l IH]; [set_solver|]. rewrite occ_cons, elem_of_cons. case_decide; subst; [|naive_solver lia].
  split; [lia|]. intros Hn. destruct Hn. by left.
Qed.

Lemma occ_le m l : occ m l ≤ length l.
Proof. apply length_filter. Qed.

(** A Go map of counts holds no zeros: members whose count drops to zero are deleted. *)
Definition counts_ok (cnt : gmap IPSetMember Z) (l : list IPSetMember) : Prop :=
  ∀ m, cnt !! m = if decide (occ m l = 0) then None else Some (Z.of_nat (occ m l)).

Lemma counts_default cnt l m : counts_ok cnt l → default 0%Z (cnt !! m) = Z.of_nat (occ m l).
Proof. intros Hc. rewrite Hc. case_decide as Hz; cbn; [by rewrite Hz|done]. Qed.

Lemma counts_perm cnt l1 l2 : l1 ≡ₚ l2 → counts_ok cnt l1 → counts_ok cnt l2.
Proof. intros Hp Hc m. by rewrite Hc, (occ_perm m l1 l2). Qed.

Lemma counts_cons cnt l m : counts_ok cnt l → counts_ok (<[m := (Z.of_nat (occ m l) + 1)%Z]> cnt) (m :: l).
Proof.
  intros Hc x. rewrite occ_cons. destruct (decide (m = x)) as [->|Hne].
  - rewrite lookup_insert_eq, decide_False by lia. f_equal. lia.
  - rewrite lookup_insert_ne, Hc by done. done.
Qed.

Lemma counts_uncons cnt l m : counts_ok cnt (m :: l) → counts_ok (if decide (occ m l = 0) then delete m cnt else <[m := Z.of_nat (occ m l)]> cnt) l.
Proof.
  intros Hc x. specialize (Hc x). rewrite occ_cons in Hc. destruct (decide (m = x)) as [->|Hne].
  - destruct (decide (occ x l = 0)); [by rewrite lookup_delete_eq|by rewrite lookup_insert_eq].
  - destruct (decide (occ m l = 0)); [rewrite lookup_delete_ne by done|rewrite lookup_insert_ne by done]; by rewrite Hc.
Qed.

Lemma uint64_small n : (0 <= n < 2 ^ 64)%Z → uint64 n = n.
Proof. intros Hn. unfold uint64, uintN. by apply Z.mod_small. Qed.

(** ** Bags *)
Definition Bag := string → list IPSetMember.
Definition bag_set (id : string) (l : list IPSetMember) (bag : Bag) : Bag := λ i, if decide (i = id) then l else bag i.

Lemma bag_set_eq id l bag : bag_set id l bag id = l.
Proof. unfold bag_set. by rewrite decide_True. Qed.

Lemma bag_set_ne id l bag i : i ≠ id → bag_set id l bag i = bag i.
Proof. intros. unfold bag_set. by rewrite decide_False. Qed.

Section members.
Context `{Countable EpID}.
Abbreviation Index := (SelectorAndNamedPortIndex (EpID := EpID)).
Implicit Types idx : Index.

(** What identifies an IP set, without its counts. *)
Definition meta (s : ipSetData) : ipSetData := set_refCounts (λ _, ∅) s.

(** Only counts, suppressor and events change. *)
Record frame idx idx' : Prop := {
  fr_endpoints : endpointKVIdx idx' = endpointKVIdx idx;
  fr_parents : parentKVIdx idx' = parentKVIdx idx;
  fr_sets : meta <$> ipSetDataByID idx' = meta <$> ipSetDataByID idx;
  fr_candidates : selectorCandidatesIdx idx' = selectorCandidatesIdx idx;
  fr_endpointObjects : endpointObjects idx' = endpointObjects idx;
  fr_parentObjects : parentObjects idx' = parentObjects idx
}.

#[global] Instance frame_refl : Reflexive frame.
Proof. by split. Qed.

#[global] Instance frame_trans : Transitive frame.
Proof. intros i1 i2 i3 [] []. split; congruence. Qed.

Lemma frame_is_Some idx idx' id : frame idx idx' → is_Some (ipSetDataByID idx !! id) → is_Some (ipSetDataByID idx' !! id).
Proof.
  intros Hf [s Hs]. pose proof (f_equal (lookup id) (fr_sets _ _ Hf)) as Heq. rewrite !lookup_fmap, Hs in Heq.
  destruct (ipSetDataByID idx' !! id); [eauto|done].
Qed.

(** Whether the index suppresses overlaps, and what the client starts from. *)
Definition Client : Type := bool * Sets.

(** The client has replayed the events, starting from [P0], and is where the suppressor
    expects it to be for the sets [M]. *)
Definition client_ok (P0 : Client) idx (M : Sets) : Prop :=
  ∃ P, replay (events idx) P0.2 = Ret P ∧ sets_inv (suppressor idx) M P ∧ suppresses (suppressor idx) = P0.1.

Definition bag_sets (M : Sets) (bag : Bag) : Prop := ∀ id, M !!! id = list_to_set (bag id).

Record members_ok (P0 : Client) idx (bag : Bag) : Prop := {
  mo_client : ∃ M, client_ok P0 idx M ∧ bag_sets M bag;
  mo_counts id s : ipSetDataByID idx !! id = Some s → counts_ok (memberToRefCount s) (bag id);
  mo_absent id : ipSetDataByID idx !! id = None → bag id = []
}.

Lemma members_ok_perm P0 idx bag bag' : (∀ id, bag id ≡ₚ bag' id) → members_ok P0 idx bag → members_ok P0 idx bag'.
Proof.
  intros Hp [(M&HM&Hb) Hcnt Habs]. split.
  - exists M. split; [done|]. intros id. rewrite Hb. by apply list_to_set_perm_L.
  - intros id s Hs. apply (counts_perm _ (bag id)); [done|]. by apply Hcnt.
  - intros id Hn. specialize (Hp id). rewrite Habs in Hp by done. by apply Permutation_nil_l in Hp.
Qed.

(** The members are seen through the suppressor, the counts and the events only. *)
Lemma members_ok_ext P0 idx idx' bag :
  ipSetDataByID idx' = ipSetDataByID idx → suppressor idx' = suppressor idx → events idx' = events idx →
  members_ok P0 idx bag → members_ok P0 idx' bag.
Proof. intros Hi Hs He [Hc Hcnt Habs]. split; unfold client_ok; rewrite ?Hi, ?Hs, ?He; done. Qed.

Lemma memberAdded_ok P0 idx M id m :
  client_ok P0 idx M → member_ok m → m ∉ M !!! id →
  ∃ idx', memberAdded id m idx = Ret idx' ∧ client_ok P0 idx' (<[id := {[m]} ∪ M !!! id]> M) ∧
    frame idx idx' ∧ ipSetDataByID idx' = ipSetDataByID idx.
Proof.
  intros (P&HP&Hinv&Hk) Hm Hnew. destruct (set_step_ok (AddMember id m) _ _ _ Hinv (conj Hm Hnew)) as (s'&P'&Hstep&Hinv').
  pose proof (set_step_suppresses _ _ _ _ _ Hstep) as Hk'.
  cbn [set_step] in Hstep. apply obind_Ret in Hstep as ([s es]&Hadd&Hrest). apply obind_Ret in Hrest as (P1&HP1&[= <- <-]).
  unfold memberAdded. rewrite Hadd. cbn [obind]. eexists. split_and!; [done| |by split|done].
  exists P1. split_and!; [|done|cbn; congruence]. cbn [events set_suppressor]. rewrite replay_events_app, HP. done.
Qed.

Lemma memberRemoved_ok P0 idx M id m :
  client_ok P0 idx M → m ∈ M !!! id →
  ∃ idx', memberRemoved id m idx = Ret idx' ∧ client_ok P0 idx' (<[id := M !!! id ∖ {[m]}]> M) ∧
    frame idx idx' ∧ ipSetDataByID idx' = ipSetDataByID idx.
Proof.
  intros (P&HP&Hinv&Hk) Hin. destruct (set_step_ok (RemoveMember id m) _ _ _ Hinv Hin) as (s'&P'&Hstep&Hinv').
  pose proof (set_step_suppresses _ _ _ _ _ Hstep) as Hk'.
  cbn [set_step] in Hstep. apply obind_Ret in Hstep as ([s es]&Hrem&Hrest). apply obind_Ret in Hrest as (P1&HP1&[= <- <-]).
  unfold memberRemoved. rewrite Hrem. cbn [obind]. eexists. split_and!; [done| |by split|done].
  exists P1. split_and!; [|done|cbn; congruence]. cbn [events set_suppressor]. rewrite replay_events_app, HP. done.
Qed.

(** Storing the counts of one set. *)
Lemma frame_store idx id f : frame idx (storeRefCount id f idx).
Proof.
  split; try done. unfold storeRefCount. cbn. apply map_eq. intros i. rewrite !lookup_fmap.
  destruct (decide (i = id)) as [->|Hne]; [rewrite lookup_alter_eq|by rewrite lookup_alter_ne].
  by destruct (ipSetDataByID idx !! id).
Qed.

Lemma store_ok P0 idx M bag id s f l :
  ipSetDataByID idx !! id = Some s → client_ok P0 idx M → bag_sets M (bag_set id l bag) →
  (∀ i s', i ≠ id → ipSetDataByID idx !! i = Some s' → counts_ok (memberToRefCount s') (bag i)) →
  (∀ i, ipSetDataByID idx !! i = None → bag i = []) → counts_ok (f (memberToRefCount s)) l →
  members_ok P0 (storeRefCount id f idx) (bag_set id l bag).
Proof.
  intros Hs Hcl HM Hcnt Habs Hl. split.
  - by exists M.
  - intros i s' Hi. cbn in Hi. destruct (decide (i = id)) as [->|Hne].
    + rewrite lookup_alter_eq, Hs in Hi. injection Hi as <-. by rewrite bag_set_eq.
    + rewrite lookup_alter_ne in Hi by done. rewrite bag_set_ne by done. by apply Hcnt.
  - intros i Hi. cbn in Hi. destruct (decide (i = id)) as [->|Hne]; [by rewrite lookup_alter_eq, Hs in Hi|].
    rewrite lookup_alter_ne in Hi by done. rewrite bag_set_ne by done. by apply Habs.
Qed.

Lemma bag_sets_insert M bag id X l : bag_sets M bag → X = list_to_set l → bag_sets (<[id := X]> M) (bag_set id l bag).
Proof.
  intros HM -> i. destruct (decide (i = id)) as [->|Hne]; [by rewrite lookup_total_insert_eq, bag_set_eq|].
  by rewrite lookup_total_insert_ne, bag_set_ne by done.
Qed.

Lemma bag_sets_same M bag id l : bag_sets M bag → M !!! id = list_to_set l → bag_sets M (bag_set id l bag).
Proof. intros HM Hid i. destruct (decide (i = id)) as [->|Hne]; [by rewrite bag_set_eq|by rewrite bag_set_ne]. Qed.

Section step.
Context (P0 : Client) idx (bag : Bag) (id : string) (m : IPSetMember) (Hok : members_ok P0 idx bag) (Hset : is_Some (ipSetDataByID idx !! id)).
Context (Hbound : (Z.of_nat (occ m (bag id)) + 1 < 2 ^ 64)%Z).

Lemma refCount_ok : refCount id m idx = Ret (Z.of_nat (occ m (bag id))).
Proof using Hok Hset.
  unfold refCount. destruct Hset as [s Hs]. rewrite Hs. f_equal. apply counts_default. by apply (mo_counts _ _ _ Hok).
Qed.

Lemma increfMember_ok :
  member_ok m → ∃ idx', increfMember id m idx = Ret idx' ∧ members_ok P0 idx' (bag_set id (m :: bag id) bag) ∧ frame idx idx'.
Proof using Hok Hset Hbound.
  intros Hm. unfold increfMember. rewrite refCount_ok. cbn [obind]. rewrite uint64_small by lia.
  destruct Hset as [s Hs]. destruct (mo_client _ _ _ Hok) as (M&Hcl&HM). pose proof (mo_counts _ _ _ Hok id s Hs) as Hcnt.
  assert (Hothers : ∀ i s', i ≠ id → ipSetDataByID idx !! i = Some s' → counts_ok (memberToRefCount s') (bag i)) by (intros; by apply (mo_counts _ _ _ Hok)).
  case_decide as Hone.
  - assert (Hnew : m ∉ bag id) by (apply occ_zero; lia).
    destruct (memberAdded_ok P0 idx M id m Hcl Hm) as (idx1&->&Hcl1&Hfr&Hsets); [rewrite HM; by rewrite elem_of_list_to_set|]. cbn [obind].
    eexists. split_and!; [done| |by etrans; [|apply frame_store]]. eapply store_ok; rewrite ?Hsets; try done.
    + apply bag_sets_insert; [done|]. by rewrite HM.
    + apply (mo_absent _ _ _ Hok).
    + by apply counts_cons.
  - assert (Hold : m ∈ bag id). { destruct (decide (m ∈ bag id)) as [|Hn%occ_zero]; [done|]. lia. }
    cbn [obind]. eexists. split_and!; [done| |apply frame_store]. eapply store_ok; try done.
    + apply bag_sets_same; [done|]. rewrite HM. set_solver.
    + apply (mo_absent _ _ _ Hok).
    + by apply counts_cons.
Qed.

(** The two ways to count up agree. *)
Lemma addNewMember_incref : addNewMember id m idx = increfMember id m idx.
Proof using Hok Hset Hbound.
  unfold addNewMember, increfMember. rewrite refCount_ok. cbn [obind]. rewrite uint64_small by lia.
  destruct (decide (Z.of_nat (occ m (bag id)) = 0)%Z), (decide (Z.of_nat (occ m (bag id)) + 1 = 1)%Z); done || lia.
Qed.
End step.

Lemma decrefMember_ok P0 idx bag id m l :
  members_ok P0 idx bag → is_Some (ipSetDataByID idx !! id) → bag id ≡ₚ m :: l → (Z.of_nat (occ m (bag id)) < 2 ^ 64)%Z →
  ∃ idx', decrefMember id m idx = Ret idx' ∧ members_ok P0 idx' (bag_set id l bag) ∧ frame idx idx'.
Proof.
  intros Hok Hset Hbag Hbound. unfold decrefMember. rewrite (refCount_ok P0 idx bag id m Hok Hset). cbn [obind].
  assert (Hocc : occ m (bag id) = S (occ m l)) by (rewrite (occ_perm m _ _ Hbag), occ_cons, decide_True by done; lia).
  rewrite Hocc in Hbound |- *. rewrite uint64_small by lia.
  destruct Hset as [s Hs]. destruct (mo_client _ _ _ Hok) as (M&Hcl&HM).
  pose proof (counts_perm _ _ _ Hbag (mo_counts _ _ _ Hok id s Hs)) as Hcnt. apply counts_uncons in Hcnt.
  assert (Hothers : ∀ i s', i ≠ id → ipSetDataByID idx !! i = Some s' → counts_ok (memberToRefCount s') (bag i)) by (intros; by apply (mo_counts _ _ _ Hok)).
  assert (HMid : M !!! id = {[m]} ∪ list_to_set l) by (rewrite HM; by rewrite (list_to_set_perm_L _ _ Hbag)).
  destruct (decide (Z.of_nat (S (occ m l)) - 1 = 0)%Z) as [Hz|Hz].
  - assert (Hgone : m ∉ l) by (apply occ_zero; lia). rewrite decide_True in Hcnt by lia.
    destruct (memberRemoved_ok P0 idx M id m Hcl) as (idx1&->&Hcl1&Hfr&Hsets); [rewrite HMid; set_solver|]. cbn [obind].
    eexists. split_and!; [done| |by etrans; [|apply frame_store]]. eapply store_ok; rewrite ?Hsets; try done.
    + apply bag_sets_insert; [done|]. rewrite HMid. set_solver.
    + apply (mo_absent _ _ _ Hok).
  - rewrite decide_False in Hcnt by lia. eexists. split_and!; [done| |apply frame_store]. eapply store_ok; try done.
    + apply bag_sets_same; [done|]. rewrite HMid. assert (m ∈ l); [|set_solver].
      destruct (decide (m ∈ l)) as [|Hn%occ_zero]; [done|]. lia.
    + apply (mo_absent _ _ _ Hok).
    + by replace (Z.of_nat (S (occ m l)) - 1)%Z with (Z.of_nat (occ m l)) by lia.
Qed.

(** ** Loops *)
Lemma increfs_ok P0 ms : ∀ idx bag id,
  members_ok P0 idx bag → is_Some (ipSetDataByID idx !! id) → Forall member_ok ms → (Z.of_nat (length (bag id) + length ms) < 2 ^ 64)%Z →
  ∃ idx', forEach (increfMember id) ms idx = Ret idx' ∧ forEach (addNewMember id) ms idx = Ret idx' ∧
    members_ok P0 idx' (bag_set id (ms ++ bag id) bag) ∧ frame idx idx'.
Proof.
  induction ms as [|m ms IH]; intros idx bag id Hok Hset Hms Hbound; cbn [forEach].
  { exists idx. split_and!; [done..| |done]. apply (members_ok_perm _ _ bag); [|done]. intros i. unfold bag_set. case_decide; by subst. }
  apply list.Forall_cons in Hms as [Hm Hms]. cbn [length] in Hbound. pose proof (occ_le m (bag id)).
  rewrite (addNewMember_incref P0 idx bag id m Hok Hset) by lia.
  destruct (increfMember_ok P0 idx bag id m Hok Hset) as (idx1&->&Hok1&Hfr1); [lia|done|]. cbn [obind].
  destruct (IH idx1 _ id Hok1) as (idx'&Hloop1&Hloop2&Hok'&Hfr); [by eapply frame_is_Some|done|rewrite bag_set_eq; cbn; lia|].
  exists idx'. split_and!; [done..| |by etrans]. eapply members_ok_perm; [|exact Hok']. intros i. rewrite bag_set_eq. unfold bag_set.
  case_decide; [|done]. by rewrite <- Permutation_middle.
Qed.

Lemma decrefs_ok P0 ms : ∀ idx bag id l,
  members_ok P0 idx bag → is_Some (ipSetDataByID idx !! id) → bag id ≡ₚ ms ++ l → (Z.of_nat (length (bag id)) < 2 ^ 64)%Z →
  ∃ idx', forEach (decrefMember id) ms idx = Ret idx' ∧ members_ok P0 idx' (bag_set id l bag) ∧ frame idx idx'.
Proof.
  induction ms as [|m ms IH]; intros idx bag id l Hok Hset Hbag Hbound; cbn [forEach].
  { exists idx. split_and!; [done| |done]. apply (members_ok_perm _ _ bag); [|done]. intros i. unfold bag_set. case_decide; by subst. }
  pose proof (occ_le m (bag id)). destruct (decrefMember_ok P0 idx bag id m (ms ++ l) Hok Hset Hbag) as (idx1&->&Hok1&Hfr1); [lia|]. cbn [obind].
  destruct (IH idx1 _ id l Hok1) as (idx'&Hloop&Hok'&Hfr); [by eapply frame_is_Some|by rewrite bag_set_eq| |].
  { rewrite bag_set_eq. rewrite Hbag in Hbound. cbn in Hbound. lia. }
  exists idx'. split_and!; [done| |by etrans]. eapply members_ok_perm; [|exact Hok']. intros i. unfold bag_set. by case_decide.
Qed.

(** The references of a map of contributions go, [R] stays. *)
Lemma decref_all_ok P0 (R : Bag) l : ∀ idx bag,
  members_ok P0 idx bag → NoDup l.*1 → (∀ id ms, (id, ms) ∈ l → is_Some (ipSetDataByID idx !! id) ∧ bag id ≡ₚ ms ++ R id) →
  (∀ id, id ∉ l.*1 → bag id ≡ₚ R id) → (∀ id, (Z.of_nat (length (bag id)) < 2 ^ 64)%Z) →
  ∃ idx', forEach (λ '(ipSetID, oldMembers), forEach (decrefMember ipSetID) oldMembers) l idx = Ret idx' ∧ members_ok P0 idx' R ∧ frame idx idx'.
Proof.
  induction l as [|[id ms] l IH]; intros idx bag Hok Hnd Hin Hout Hbound; cbn [forEach].
  { exists idx. split_and!; [done| |done]. apply (members_ok_perm _ _ bag); [|done]. intros id. apply Hout. apply not_elem_of_nil. }
  cbn in Hnd. apply list.NoDup_cons in Hnd as [Hid Hnd]. destruct (Hin id ms) as [Hset Hbag]; [apply list_elem_of_here|].
  destruct (decrefs_ok P0 ms idx bag id (R id) Hok Hset Hbag (Hbound id)) as (idx1&->&Hok1&Hfr1). cbn [obind].
  destruct (IH idx1 _ Hok1 Hnd) as (idx'&Hloop&Hok'&Hfr).
  - intros i ms' Hi. destruct (Hin i ms') as [Hs Hb]; [by apply list_elem_of_further|]. split; [by eapply frame_is_Some|].
    rewrite bag_set_ne; [done|]. intros ->. apply Hid. apply list_elem_of_fmap. by exists (id, ms').
  - intros i Hi. destruct (decide (i = id)) as [->|Hne]; [by rewrite bag_set_eq|]. rewrite bag_set_ne by done. apply Hout.
    cbn. apply not_elem_of_cons. done.
  - intros i. specialize (Hbound i). destruct (decide (i = id)) as [->|Hne]; [|by rewrite bag_set_ne]. rewrite bag_set_eq.
    rewrite Hbag, length_app in Hbound. lia.
  - exists idx'. split_and!; [done|done|by etrans].
Qed.

(** Every member of a set is withdrawn; the counts stay, for the set is about to be deleted. *)
Lemma removeMembers_ok P0 id ms : ∀ idx M,
  client_ok P0 idx M → NoDup ms → (∀ m, m ∈ ms ↔ m ∈ M !!! id) →
  ∃ idx' M', forEach (memberRemoved id) ms idx = Ret idx' ∧ client_ok P0 idx' M' ∧ (∀ i, M' !!! i = if decide (i = id) then ∅ else M !!! i) ∧
    frame idx idx' ∧ ipSetDataByID idx' = ipSetDataByID idx.
Proof.
  induction ms as [|m ms IH]; intros idx M Hcl Hnd Hms; cbn [forEach].
  { exists idx, M. split_and!; [done..| |done|done]. intros i. case_decide; [subst|done]. apply set_eq. set_solver. }
  apply list.NoDup_cons in Hnd as [Hm Hnd].
  destruct (memberRemoved_ok P0 idx M id m Hcl) as (idx1&->&Hcl1&Hfr1&Hs1); [apply Hms, list_elem_of_here|]. cbn [obind].
  destruct (IH idx1 _ Hcl1 Hnd) as (idx'&M'&Hloop&Hcl'&HM'&Hfr&Hs).
  { intros x. rewrite lookup_total_insert_eq, elem_of_difference, elem_of_singleton, <- Hms, elem_of_cons. naive_solver. }
  exists idx', M'. split_and!; [done..| |by etrans|congruence]. intros i. rewrite HM'. case_decide; [done|]. by rewrite lookup_total_insert_ne.
Qed.
End members.
