(* ===== verification/NamedPortCandidates.v ===== *)
(** * The named port index: contributions, inherited labels and the choice of candidates

    The contribution of an endpoint is well defined and made of well-formed members; its own
    and inherited labels are those of one map; and [iterEndpointCandidates] runs its callback
    once on every endpoint that the selector matches. *)
From S2P Require Import Prelude ModelRule SelectorAST UniqueLabels AdaptiveSet GoSet.
From S2P Require Import InheritIndexSpec RestrictionIndex RestrictionIndexSpec NameValueIndex NameValueIndexSpec.
From S2P Require Import CIDR CIDRTrie CIDRTrieCorrect MemberDedup MemberDedupSpec NamedPortIndex NamedPortMembers.
From stdpp Require Import base list gmap numbers strings sorting.
From stdpp Require Import options.

(** ** Contributions *)
(** The protocols of IP sets. *)
Definition port_protocol (p : Protocol) : Prop := p = ProtocolTCP ∨ p = ProtocolUDP ∨ p = ProtocolSCTP ∨ p = ProtocolAny.
Definition protocol_ok (p : Protocol) : Prop := p = ProtocolNone ∨ port_protocol p.

Lemma MatchesModelProtocol_ok p mp : port_protocol p → ∃ b, MatchesModelProtocol p mp = Ret b.
Proof.
  unfold MatchesModelProtocol. intros [->|[->|[->| ->]]]; repeat case_decide; eauto; naive_solver.
Qed.

Lemma ProtocolFrom_ok mp : ∃ p, ProtocolFrom mp = Ret p ∧ p ≠ ProtocolNone.
Proof.
  unfold ProtocolFrom. destruct (MatchesModelProtocol_ok ProtocolUDP mp) as [[] ->]; [unfold port_protocol; tauto|by eexists|].
  cbn [obind]. destruct (MatchesModelProtocol_ok ProtocolSCTP mp) as [[] ->]; [unfold port_protocol; tauto|by eexists|by eexists].
Qed.

Lemma lookupPorts_ok ports name p :
  port_protocol p → ∃ l, lookupPorts ports name p = Ret l ∧ Forall (λ c, npc_protocol c ≠ ProtocolNone) l ∧ length l ≤ length ports.
Proof.
  intros Hp. induction ports as [|x ports (l&Hl&Hf&Hlen)]; cbn [lookupPorts]; [by exists []; split_and!; [|constructor|]|].
  assert (∃ b, (if decide (ep_Name x = name) then MatchesModelProtocol p (ep_Protocol x) else Ret false) = Ret b) as [b ->]
    by (case_decide; [by apply MatchesModelProtocol_ok|by exists false]).
  cbn [obind]. rewrite Hl. destruct b.
  - destruct (ProtocolFrom_ok (ep_Protocol x)) as (pr&->&Hpr). cbn [obind]. eexists. split_and!; [done|by constructor|cbn; lia].
  - exists l. split_and!; [done..|cbn; lia].
Qed.

Definition contrib (d : endpointData) (s : ipSetData) : list IPSetMember :=
  match CalculateEndpointContribution d s with Ret l => l | _ => [] end.

Definition net_ok (c : CIDR) : Prop := cidr_ok c ∧ printsColon c = bool_decide (Version c = 6%Z).

(** At most so many references can an endpoint add to one set. *)
Definition weight (nets : list CIDR) (ports : list EndpointPort) : nat := length nets * S (length ports).

Lemma contrib_cases d s :
  protocol_ok (namedPortProtocol s) →
  CalculateEndpointContribution d s = Ret (contrib d s) ∧ length (contrib d s) ≤ weight (ed_nets d) (ed_ports d) ∧
  (Forall net_ok (ed_nets d) → Forall member_ok (contrib d s)).
Proof.
  intros Hp. unfold contrib, CalculateEndpointContribution, weight. case_decide as Hnone.
  - destruct Hp as [|Hp]; [done|]. unfold LookupNamedPorts.
    destruct (lookupPorts_ok (ed_ports d) (namedPort s) (namedPortProtocol s) Hp) as (l&->&Hf&Hlen). cbn [obind]. split_and!; [done| |].
    + assert (length (l ≫= λ member, (λ cidr, MakeIPPortProto (AddrOf cidr) (npc_port member) (npc_protocol member)) <$> ed_nets d)
        = length l * length (ed_nets d)) as ->; [|nia]. clear. induction l as [|x l IH]; [done|]. rewrite bind_cons, length_app, length_fmap, IH. cbn. lia.
    + intros _. apply list.Forall_forall. intros m (c&Hm&Hc)%list_elem_of_bind. apply list_elem_of_fmap in Hm as (cidr&->&_).
      rewrite list.Forall_forall in Hf. unfold MakeIPPortProto. rewrite decide_False by (pose proof (Hf c Hc); tauto). by intros ?.
  - split_and!; [done|rewrite length_fmap; nia|]. intros Hnets. apply list.Forall_forall. intros m (c&->&Hc)%list_elem_of_fmap.
    rewrite list.Forall_forall in Hnets. destruct (Hnets c Hc). intros c'. rewrite memberCIDR_Make. by intros [= <-].
Qed.

Lemma contrib_meta d s : contrib d (meta s) = contrib d s.
Proof. done. Qed.

Lemma contrib_data d d' s : ed_nets d' = ed_nets d → ed_ports d' = ed_ports d → contrib d' s = contrib d s.
Proof. intros Hn Hp. unfold contrib, CalculateEndpointContribution, LookupNamedPorts. by rewrite Hn, Hp. Qed.

(** ** The orders of maps are permutations *)
Class GoOrdersLaws `{Countable EpID} (go : GoOrders EpID) : Prop := {
  law_IDs x : rangeIDs go x ≡ₚ elements x;
  law_Strings x : rangeStrings go x ≡ₚ elements x;
  law_Labels m : rangeLabels go m ≡ₚ map_to_list m;
  law_Restrictions m : rangeRestrictions go m ≡ₚ map_to_list m;
  law_Endpoints m : rangeEndpoints go m ≡ₚ (map_to_list m).*1;
  law_Parents m : rangeParents go m ≡ₚ (map_to_list m).*1;
  law_EndpointValues m : rangeEndpointValues go m ≡ₚ map_to_list m;
  law_ParentValues m : rangeParentValues go m ≡ₚ map_to_list m;
  law_Members m : rangeMembers go m ≡ₚ (map_to_list m).*1;
  law_Contributions m : rangeContributions go m ≡ₚ map_to_list m;
  law_sortIDSets lt l : sortIDSets go lt l ≡ₚ l;
  law_sortStringSets lt l : sortStringSets go lt l ≡ₚ l
}.

Section labels.
Context `{Countable EpID} (go : GoOrders EpID) `{!GoOrdersLaws go}.
Abbreviation Heap := (list (npParentData (EpID := EpID))).
Implicit Types h : Heap.

(** ** The labels of an endpoint, as one map *)
Definition parentLabels h (a : parentAddr) : gmap string string := uniquelabels.entries (pd_labels (deref h a)).

Definition inheritedLabels h (ps : list parentAddr) : gmap string string := foldr (λ a m, parentLabels h a ∪ m) ∅ ps.

Definition effectiveLabels h (d : endpointData) : gmap string string := uniquelabels.entries (ed_labels d) ∪ inheritedLabels h (ed_parents d).

Lemma inheritedLabels_handle h ps n : inheritedLabels h ps !! n = inheritedHandle h ps n.
Proof.
  clear. induction ps as [|a ps IH]; cbn; [apply lookup_empty|]. fold (inheritedLabels h ps). rewrite lookup_union, IH. unfold uniquelabels.Map_GetHandle, parentLabels.
  destruct (uniquelabels.entries (pd_labels (deref h a)) !! n); [by destruct (inheritedHandle h ps n)|]. by rewrite (left_id None _).
Qed.

Lemma effectiveLabels_handle h d n : effectiveLabels h d !! n = GetHandle (h, d) n.
Proof.
  clear. unfold effectiveLabels, GetHandle, endpointData_Labels, endpointGetHandle. cbn. rewrite lookup_union, inheritedLabels_handle.
  unfold uniquelabels.Map_GetHandle. destruct (uniquelabels.entries (ed_labels d) !! n); [by destruct (inheritedHandle _ _ _)|].
  by rewrite (left_id None _).
Qed.

Lemma effective_Evaluate h d node : Evaluate node (effectiveLabels h d) = Evaluate node (h, d).
Proof. clear. apply Evaluate_ext. intros n. apply effectiveLabels_handle. Qed.

Lemma unshadowed_spec kvs : ∀ seen, NoDup kvs.*1 → unshadowed seen kvs = (list_to_set kvs.*1 ∪ seen, filter (λ kv, kv.1 ∉ seen) kvs).
Proof.
  clear. induction kvs as [|[k v] kvs IH]; intros seen Hnd; cbn [unshadowed]; [f_equal; set_solver|].
  cbn in Hnd. apply list.NoDup_cons in Hnd as [Hk Hnd]. case_decide as Hin.
  - rewrite IH, filter_cons_False by (done || naive_solver). cbn. f_equal. set_solver.
  - rewrite IH, filter_cons_True by done. cbn. f_equal; [set_solver|]. f_equal. clear IH Hnd. induction kvs as [|[k' v'] kvs IHk]; [done|].
    cbn in Hk. apply not_elem_of_cons in Hk as [Hne Hk]. rewrite !filter_cons, IHk by done. cbn.
    destruct (decide (k' ∉ {[k]} ∪ seen)), (decide (k' ∉ seen)); done || set_solver.
Qed.

(** A list of pairs without repeated keys that holds a map. *)
Definition lists_map (l : list (string * string)) (m : string → option string) : Prop := NoDup l.*1 ∧ ∀ k v, (k, v) ∈ l ↔ m k = Some v.

Lemma lists_map_perm l (m : gmap string string) : lists_map l (λ k, m !! k) → l ≡ₚ map_to_list m.
Proof.
  clear. intros [Hnd Hin]. apply NoDup_Permutation; [by apply (NoDup_fmap_1 fst)|apply NoDup_map_to_list|]. intros [k v].
  by rewrite Hin, elem_of_map_to_list.
Qed.

Lemma NoDup_fst_filter (P : string * string → Prop) `{!∀ x, Decision (P x)} (l : list (string * string)) : NoDup l.*1 → NoDup (filter P l).*1.
Proof.
  clear. induction l as [|[k v] l IH]; intros Hl; [constructor|]. cbn in Hl. apply list.NoDup_cons in Hl as [Hk Hl].
  rewrite filter_cons. case_decide; [|by apply IH]. cbn. apply list.NoDup_cons. split; [|by apply IH].
  intros ([k' v']&Heq&[_ Hkv]%list_elem_of_filter)%list_elem_of_fmap. apply Hk, list_elem_of_fmap. by exists (k', v').
Qed.

Lemma labelHandles_map m : lists_map (labelHandles go m) (λ k, uniquelabels.entries m !! k).
Proof using GoOrdersLaws0.
  unfold labelHandles. split; [rewrite law_Labels; apply NoDup_fst_map_to_list|]. intros k v. by rewrite law_Labels, elem_of_map_to_list.
Qed.

Lemma lists_map_key l m k : lists_map l m → k ∈ l.*1 ↔ is_Some (m k).
Proof.
  clear. intros [_ Hin]. rewrite list_elem_of_fmap. split.
  - intros ([k' v]&->&Hkv%Hin). cbn. eauto.
  - intros [v Hv%Hin]. by exists (k, v).
Qed.

Lemma parentLabelHandles_map h ps : ∀ seen,
  lists_map (parentLabelHandles go h seen ps) (λ k, if decide (k ∈ seen) then None else inheritedHandle h ps k).
Proof using GoOrdersLaws0.
  induction ps as [|a ps IH]; intros seen; cbn [parentLabelHandles].
  { split; [constructor|]. intros k v. case_decide; set_solver. }
  pose proof (labelHandles_map (pd_labels (deref h a))) as Hown. rewrite unshadowed_spec by apply Hown.
  set (own := labelHandles go (pd_labels (deref h a))) in *. set (seen' := list_to_set own.*1 ∪ seen).
  destruct (IH seen') as [Hnd Hin]. cbn [inheritedHandle]. unfold uniquelabels.Map_GetHandle. clear IH.
  pose proof (λ k, lists_map_key own _ k Hown) as Hkey. cbn in Hkey.
  destruct Hown as [Hnd0 Hin0]. split.
  - rewrite fmap_app. apply list.NoDup_app. split_and!; [| |done].
    + by apply NoDup_fst_filter.
    + intros k ([k1 v1]&->&[Hk1 Hk2]%list_elem_of_filter)%list_elem_of_fmap ([k2 v2]&Heq&Hk3%Hin)%list_elem_of_fmap. cbn in *. subst k2.
      rewrite decide_True in Hk3; [done|]. apply elem_of_union_l, elem_of_list_to_set, list_elem_of_fmap. by exists (k1, v1).
  - intros k v. rewrite elem_of_app, list_elem_of_filter, Hin, Hin0. cbn. unfold seen'. specialize (Hkey k).
    destruct (decide (k ∈ seen)) as [Hs|Hs].
    + rewrite decide_True by set_solver. naive_solver.
    + destruct (uniquelabels.entries (pd_labels (deref h a)) !! k) as [w|] eqn:Hw.
      * rewrite decide_True by (apply elem_of_union_l, elem_of_list_to_set, Hkey; eauto). naive_solver.
      * rewrite decide_False; [naive_solver|]. rewrite elem_of_union, elem_of_list_to_set, Hkey. intros [[? ?]|]; done.
Qed.

Lemma AllOwnAndParentLabelHandles_perm h d : AllOwnAndParentLabelHandles go h d ≡ₚ map_to_list (effectiveLabels h d).
Proof using GoOrdersLaws0.
  apply lists_map_perm. unfold AllOwnAndParentLabelHandles. pose proof (labelHandles_map (ed_labels d)) as Hown.
  set (own := labelHandles go (ed_labels d)) in *. pose proof (λ k, lists_map_key own _ k Hown) as Hkey. cbn in Hkey.
  destruct (parentLabelHandles_map h (ed_parents d) (list_to_set own.*1)) as [Hnd Hin]. destruct Hown as [Hnd0 Hin0]. split.
  - rewrite fmap_app. apply list.NoDup_app. split_and!; [done| |done].
    intros k Hk ([k2 v2]&->&Hk3%Hin)%list_elem_of_fmap. cbn in *. by rewrite decide_True in Hk3 by (by apply elem_of_list_to_set).
  - intros k v. rewrite elem_of_app, Hin, Hin0, effectiveLabels_handle. unfold GetHandle, endpointData_Labels, endpointGetHandle, uniquelabels.Map_GetHandle. cbn.
    specialize (Hkey k). destruct (uniquelabels.entries (ed_labels d) !! k) as [w|] eqn:Hw.
    + rewrite decide_True by (apply elem_of_list_to_set, Hkey; eauto). naive_solver.
    + rewrite decide_False; [naive_solver|]. rewrite elem_of_list_to_set, Hkey. by intros [? ?].
Qed.
End labels.

Section candidates.
Context `{Countable EpID} (zeroID : EpID) (go : GoOrders EpID) `{!GoOrdersLaws go}.
Abbreviation Index := (SelectorAndNamedPortIndex (EpID := EpID)).
Implicit Types idx : Index.

(** ** Endpoints and their parents *)
Definition endpointLabels idx (a : endpointAddr) : gmap string string := uniquelabels.entries (ed_labels (endpointAt idx a)).
Abbreviation eps idx := (allItems (endpointKVIdx idx)).
Abbreviation pars idx := (allItems (parentKVIdx idx)).
Abbreviation parentAt idx p := (deref (parentObjects idx) p).

(** Both label indexes are right, the objects they point to exist, and endpoints and parents
    know each other. *)
Record graph_ok idx : Prop := {
  gr_endpoints : NameValueIndexSpec.index_ok zeroID (endpointLabels idx) (endpointKVIdx idx);
  gr_parents : NameValueIndexSpec.index_ok "" (parentLabels (parentObjects idx)) (parentKVIdx idx);
  gr_endpoint_addr id a : eps idx !! id = Some a → a < length (endpointObjects idx);
  gr_endpoint_inj id id' a : eps idx !! id = Some a → eps idx !! id' = Some a → id = id';
  gr_parent_addr pid p : pars idx !! pid = Some p → p < length (parentObjects idx) ∧ pd_id (parentAt idx p) = pid;
  gr_child id a p : eps idx !! id = Some a → p ∈ ed_parents (endpointAt idx a) →
    pars idx !! pd_id (parentAt idx p) = Some p ∧ id ∈ default ∅ (pd_endpointIDs (parentAt idx p));
  gr_members pid p ids : pars idx !! pid = Some p → pd_endpointIDs (parentAt idx p) = Some ids →
    ids ≠ ∅ ∧ ∀ id, id ∈ ids → ∃ a, eps idx !! id = Some a ∧ p ∈ ed_parents (endpointAt idx a);
  gr_nodup id a : eps idx !! id = Some a → NoDup (ed_parents (endpointAt idx a))
}.

Section search.
Context idx (Hgr : graph_ok idx) (node : SelectorAST.Node).

Definition matches_ep (id : EpID) : Prop := ∃ a, eps idx !! id = Some a ∧ Evaluate node (parentObjects idx, endpointAt idx a) = true.

Definition good_endpoints (s : ScanStrategy (ItemID := EpID) (Item := endpointAddr)) : Prop :=
  ∀ A (f : A → EpID → A * bool) acc, ∃ l, scanEndpoints go f s acc = Ret (iterWhile f l acc).1 ∧ NoDup l ∧
    (∀ id, id ∈ l → is_Some (eps idx !! id)) ∧ (∀ id, matches_ep id → id ∈ l).

Definition good_parents (s : ScanStrategy (ItemID := string) (Item := parentAddr)) : Prop :=
  ∀ A (f : A → string → A * bool) acc, ∃ l, scanParents go f s acc = Ret (iterWhile f l acc).1 ∧
    (∀ pid, pid ∈ l → is_Some (pars idx !! pid)) ∧
    (∀ id a, eps idx !! id = Some a → matches_ep id → ∃ p, p ∈ ed_parents (endpointAt idx a) ∧ pd_id (parentAt idx p) ∈ l).

Lemma endpoint_scan k r A (f : A → EpID → A * bool) acc :
  ∃ l n, scanEndpoints go f (StrategyFor k r (endpointKVIdx idx)) acc = Ret (iterWhile f l acc).1 ∧ NoDup l ∧
    (∀ id, id ∈ l ↔ ∃ a, eps idx !! id = Some a ∧ scanMatches r (endpointLabels idx a !! k)) ∧
    EstimatedItemsToScan (StrategyFor k r (endpointKVIdx idx)) = Ret n ∧ (Z.of_nat (length l) <= n)%Z.
Proof using GoOrdersLaws0 Hgr.
  destruct (StrategyFor_good zeroID (rangeIDs go) law_IDs (endpointLabels idx) (sortIDSets go) law_sortIDSets (rangeEndpoints go) law_Endpoints
    (rangeEndpointValues go) law_EndpointValues f acc (endpointKVIdx idx) (gr_endpoints _ Hgr) k r) as (l&n&Hscan&[Hnd Hin]&Hest&Hle&_).
  by exists l, n.
Qed.

Lemma parent_scan k r A (f : A → string → A * bool) acc :
  ∃ l n, scanParents go f (StrategyFor k r (parentKVIdx idx)) acc = Ret (iterWhile f l acc).1 ∧ NoDup l ∧
    (∀ pid, pid ∈ l ↔ ∃ p, pars idx !! pid = Some p ∧ scanMatches r (parentLabels (parentObjects idx) p !! k)) ∧
    EstimatedItemsToScan (StrategyFor k r (parentKVIdx idx)) = Ret n ∧ (Z.of_nat (length l) <= n)%Z.
Proof using GoOrdersLaws0 Hgr.
  destruct (StrategyFor_good "" (rangeStrings go) law_Strings (parentLabels (parentObjects idx)) (sortStringSets go) law_sortStringSets (rangeParents go) law_Parents
    (rangeParentValues go) law_ParentValues f acc (parentKVIdx idx) (gr_parents _ Hgr) k r) as (l&n&Hscan&[Hnd Hin]&Hest&Hle&_).
  by exists l, n.
Qed.

(** An endpoint that satisfies a restriction has a label that does, or inherits it. *)
Lemma inherited_from h ps k v : inheritedHandle h ps k = Some v → ∃ p, p ∈ ps ∧ parentLabels (EpID := EpID) h p !! k = Some v.
Proof using Type.
  clear. induction ps as [|p ps IH]; [done|]. cbn. unfold uniquelabels.Map_GetHandle.
  destruct (uniquelabels.entries (pd_labels (deref h p)) !! k) as [w|] eqn:Hw; intros Hv.
  - exists p. split; [apply list_elem_of_here|]. unfold parentLabels. congruence.
  - destruct (IH Hv) as (q&Hq&Hqv). exists q. split; [by apply list_elem_of_further|done].
Qed.

Lemma restriction_holder k r a :
  scanMatches r (GetHandle (parentObjects idx, endpointAt idx a) k) → MustBePresent r = true →
  scanMatches r (endpointLabels idx a !! k) ∨ ∃ p, p ∈ ed_parents (endpointAt idx a) ∧ scanMatches r (parentLabels (parentObjects idx) p !! k).
Proof using Type.
  intros Hm Hr. pose proof (Hm Hr) as [[v Hv] _]. rewrite Hv in Hm. unfold GetHandle, endpointData_Labels, endpointGetHandle in Hv. cbn in Hv.
  unfold endpointLabels. unfold uniquelabels.Map_GetHandle in Hv. destruct (uniquelabels.entries _ !! k) as [w|]; [left; by rewrite Hv|right].
  destruct (inherited_from _ _ _ _ Hv) as (p&Hp&Hpv). exists p. by rewrite Hpv.
Qed.

Section restriction.
Context (k : string) (r : LabelRestriction).
Context (Hr : ∀ a, Evaluate node (parentObjects idx, endpointAt idx a) = true → scanMatches r (GetHandle (parentObjects idx, endpointAt idx a) k)).
Abbreviation epStrat := (StrategyFor k r (endpointKVIdx idx)).
Abbreviation parentStrat := (StrategyFor k r (parentKVIdx idx)).

Definition rulesOutEndpoints : Prop := ∀ id a, eps idx !! id = Some a → ¬ scanMatches r (endpointLabels idx a !! k).
Definition rulesOutParents : Prop := ∀ pid p, pars idx !! pid = Some p → ¬ scanMatches r (parentLabels (parentObjects idx) p !! k).

Lemma endpoint_estimate : ∃ n, EstimatedItemsToScan epStrat = Ret n ∧ (0 <= n)%Z ∧ (n = 0%Z → rulesOutEndpoints).
Proof using GoOrdersLaws0 Hgr.
  destruct (endpoint_scan k r () (λ acc _, (acc, true)) ()) as (l&n&_&_&Hin&Hest&Hle). exists n. split_and!; [done|lia|].
  intros ->. destruct l; [|cbn in Hle; lia]. intros id a Ha Hm. assert (Hi : id ∈ []) by (apply Hin; eauto). by apply elem_of_nil in Hi.
Qed.

Lemma parent_estimate : ∃ n, EstimatedItemsToScan parentStrat = Ret n ∧ (0 <= n)%Z ∧ (n = 0%Z → rulesOutParents).
Proof using GoOrdersLaws0 Hgr.
  destruct (parent_scan k r () (λ acc _, (acc, true)) ()) as (l&n&_&_&Hin&Hest&Hle). exists n. split_and!; [done|lia|].
  intros ->. destruct l; [|cbn in Hle; lia]. intros id a Ha Hm. assert (Hi : id ∈ []) by (apply Hin; eauto). by apply elem_of_nil in Hi.
Qed.

Lemma matching_holder id a :
  eps idx !! id = Some a → Evaluate node (parentObjects idx, endpointAt idx a) = true →
  scanMatches r (endpointLabels idx a !! k) ∨
  ∃ p, p ∈ ed_parents (endpointAt idx a) ∧ pars idx !! pd_id (parentAt idx p) = Some p ∧ scanMatches r (parentLabels (parentObjects idx) p !! k).
Proof using Hgr Hr.
  intros Ha Hev. destruct (MustBePresent r) eqn:Hp; [|left; unfold scanMatches; by rewrite Hp].
  destruct (restriction_holder k r a (Hr a Hev) Hp) as [|(p&Hin&Hm)]; [by left|right]. exists p. split_and!; [done| |done].
  by apply (gr_child _ Hgr id a).
Qed.

Lemma endpoints_only : rulesOutParents → good_endpoints epStrat.
Proof using GoOrdersLaws0 Hgr Hr.
  intros Hno A f acc. destruct (endpoint_scan k r A f acc) as (l&n&Hscan&Hnd&Hin&_). exists l. split_and!; [done|done| |].
  - intros id (a&Ha&_)%Hin. eauto.
  - intros id (a&Ha&Hev). apply Hin. exists a. split; [done|]. destruct (matching_holder id a Ha Hev) as [|(p&_&Hp&Hm)]; [done|].
    by destruct (Hno _ _ Hp).
Qed.

Lemma parents_only : rulesOutEndpoints → good_parents parentStrat.
Proof using GoOrdersLaws0 Hgr Hr.
  intros Hno A f acc. destruct (parent_scan k r A f acc) as (l&n&Hscan&Hnd&Hin&_). exists l. split_and!; [done| |].
  - intros pid (p&Hp&_)%Hin. eauto.
  - intros id a Ha (a'&Ha'&Hev). rewrite Ha in Ha'. injection Ha' as <-.
    destruct (matching_holder id a Ha Hev) as [Hm|(p&Hpa&Hp&Hm)]; [by destruct (Hno _ _ Ha)|]. exists p. split; [done|]. apply Hin. eauto.
Qed.

Lemma no_match : rulesOutEndpoints → rulesOutParents → ∀ id, ¬ matches_ep id.
Proof using Hgr Hr.
  intros Hne Hnp id (a&Ha&Hev). destruct (matching_holder id a Ha Hev) as [Hm|(p&_&Hp&Hm)]; [by destruct (Hne _ _ Ha)|by destruct (Hnp _ _ Hp)].
Qed.
End restriction.

(** ** The estimate does not panic *)
Lemma countParents_ok l : ∀ n t, (∀ pid, pid ∈ l → is_Some (pars idx !! pid)) → ∃ n' t', (iterWhile (countParent idx) l (Ret (n, t))).1 = Ret (n', t').
Proof using Type.
  clear Hgr. induction l as [|pid l IH]; intros n t Hin; [by exists n, t|]. cbn [iterWhile countParent].
  destruct (Hin pid) as [p Hp]; [apply list_elem_of_here|]. unfold NameValueIndex.Get. rewrite Hp.
  destruct (_ <? maxNumToScan)%Z; [|by eauto]. apply IH. intros pid' Hpid'. apply Hin. by apply list_elem_of_further.
Qed.

Lemma estimate_ok k r :
  ∃ n, estimateParentEndpointScanCount go (StrategyFor k r (parentKVIdx idx)) idx = Ret n.
Proof using GoOrdersLaws0 Hgr.
  unfold estimateParentEndpointScanCount. destruct (parent_scan k r _ (countParent idx) (Ret (0, 0)%Z)) as (l&n&->&_&Hin&Hest&_). cbn [obind].
  destruct (countParents_ok l 0 0) as (n'&t'&->); [intros pid (p&Hp&_)%Hin; eauto|]. cbn [obind]. rewrite Hest. case_match; eexists; done.
Qed.

(** ** The best strategies stay good *)
Definition best_ok (b : Best) : Prop :=
  good_endpoints (bestEPStrategy b) ∧ (∃ n, EstimatedItemsToScan (bestEPStrategy b) = Ret n ∧ (n <= Z.of_nat (size (eps idx)))%Z) ∧
  match bestParentStrategy b with None => bestParentEndpointEstimate b = MaxInt | Some s => good_parents s end.

Lemma full_scan_good : best_ok (MkBest (FullScanStrategy (eps idx)) None MaxInt).
Proof using GoOrdersLaws0.
  split_and!; [|by eexists|done]. intros A f acc. exists (rangeEndpoints go (eps idx)).
  assert (Hin : ∀ id, id ∈ rangeEndpoints go (eps idx) ↔ is_Some (eps idx !! id)).
  { intros id. rewrite law_Endpoints, list_elem_of_fmap. split.
    - intros ([id' a]&->&Ha%elem_of_map_to_list). eauto.
    - intros [a Ha]. exists (id, a). split; [done|]. by apply elem_of_map_to_list. }
  split_and!; [done|rewrite law_Endpoints; apply NoDup_fst_map_to_list|apply Hin|]. intros id (a&Ha&_). apply Hin. eauto.
Qed.

Definition restricted (kr : string * LabelRestriction) : Prop :=
  ∀ a, Evaluate node (parentObjects idx, endpointAt idx a) = true → scanMatches kr.2 (GetHandle (parentObjects idx, endpointAt idx a) kr.1).

Lemma considerRestriction_ok kr b :
  best_ok b → restricted kr →
  ∃ ob, considerRestriction go idx kr b = Ret ob ∧ match ob with None => ∀ id, ¬ matches_ep id | Some b' => best_ok b' end.
Proof using GoOrdersLaws0 Hgr.
  intros Hb Hkr. pose proof Hb as (Hep&(nb&Hnb&Hsize)&Hpar). destruct kr as [k r]. unfold considerRestriction. cbn [fst snd].
  destruct (endpoint_estimate k r) as (ne&Hne&Hpos&Hze). destruct (parent_estimate k r) as (np&Hnp&Hposp&Hzp). rewrite Hne, Hnp. cbn [obind].
  destruct (Z.ltb_spec 0 ne) as [Hlt|Hge], (Z.eqb_spec np 0) as [Hp0|Hp0]; cbn [andb].
  - rewrite Hnb. cbn [obind]. eexists. split; [done|]. cbn. destruct (Z.ltb_spec ne nb); [|done]. split_and!; [|by exists ne; split; [|lia]|done].
    apply endpoints_only; [done|]. by apply Hzp.
  - destruct (Z.eqb_spec ne 0); [lia|]. cbn [andb]. destruct (Z.ltb_spec 0 np); [|lia]. cbn [andb]. by eexists.
  - destruct (Z.eqb_spec ne 0) as [He0|]; [|lia]. destruct (Z.ltb_spec 0 np); [lia|]. cbn [andb]. eexists. split; [done|].
    cbn. apply (no_match k r Hkr); [by apply Hze|by apply Hzp].
  - destruct (Z.eqb_spec ne 0) as [He0|]; [|lia]. destruct (Z.ltb_spec 0 np); [|lia]. cbn [andb].
    destruct (estimate_ok k r) as (e&->). cbn [obind]. eexists. split; [done|]. cbn. destruct (orb _ _); [|done]. split_and!; [done|by exists nb|].
    apply parents_only; [done|]. by apply Hze.
Qed.

Lemma considerRestrictions_ok rs : ∀ b,
  best_ok b → (∀ kr, kr ∈ rs → restricted kr) →
  ∃ ob, considerRestrictions go idx rs b = Ret ob ∧ match ob with None => ∀ id, ¬ matches_ep id | Some b' => best_ok b' end.
Proof using GoOrdersLaws0 Hgr.
  induction rs as [|kr rs IH]; intros b Hb Hrs; cbn [considerRestrictions]; [by exists (Some b)|].
  destruct (considerRestriction_ok kr b Hb) as (ob&->&Hob); [apply Hrs, list_elem_of_here|]. cbn [obind].
  destruct ob as [b'|]; [|by exists None]. apply IH; [done|]. intros kr' Hkr'. apply Hrs. by apply list_elem_of_further.
Qed.

(** ** Running the callback *)
Context (f : endpointAddr → Index → outcome Empty_set Index).

Definition keeps_graph : Prop :=
  ∀ a i i', f a i = Ret i' → endpointKVIdx i' = endpointKVIdx i ∧ parentKVIdx i' = parentKVIdx i ∧ parentObjects i' = parentObjects i.

Lemma iterWhile_visit l acc : (iterWhile (λ acc id, (visitEndpoint f acc id, true)) l acc).1 = foldl (visitEndpoint f) acc l.
Proof using Type. clear. revert acc. induction l as [|id l IH]; intros acc; [done|]. apply IH. Qed.

Lemma visit_absorb res l : (∀ i, res ≠ Ret i) → foldl (visitEndpoint f) res l = res.
Proof using Type.
  clear. intros Hres. induction l as [|id l IH]; [done|]. cbn. rewrite <- IH at 2. f_equal. destruct res; [by destruct (Hres a)|done..].
Qed.

Lemma visitUnseen_spec ids : ∀ seen res,
  NoDup ids → foldl (visitUnseen f) (seen, res) ids = (list_to_set ids ∪ seen, foldl (visitEndpoint f) res (filter (λ id, id ∉ seen) ids)).
Proof using Type.
  clear. induction ids as [|id ids IH]; intros seen res Hnd; [cbn; f_equal; set_solver|]. apply list.NoDup_cons in Hnd as [Hid Hnd].
  cbn [foldl visitUnseen]. unfold Typed_Contains, Typed_Add. case_bool_decide as Hin.
  - rewrite IH, filter_cons_False by (done || naive_solver). f_equal. set_solver.
  - rewrite IH, filter_cons_True by done. cbn [foldl]. f_equal; [set_solver|]. f_equal. by apply filter_not_seen_add.
Qed.

Lemma visit_keeps l : ∀ i, keeps_graph → foldl (visitEndpoint f) (Ret idx) l = Ret i →
  endpointKVIdx i = endpointKVIdx idx ∧ parentKVIdx i = parentKVIdx idx ∧ parentObjects i = parentObjects idx.
Proof using Type.
  clear Hgr. induction l as [|id l IH] using rev_ind; intros i Hf; [by intros [= <-]|]. rewrite foldl_app. cbn.
  destruct (foldl (visitEndpoint f) (Ret idx) l) as [i1| | |] eqn:Hl; cbn [visitEndpoint obind]; try done.
  destruct (IH i1 Hf eq_refl) as (H1&H2&H3). destruct (NameValueIndex.Get id (endpointKVIdx i1)) as [a|]; [|done].
  intros Hi. destruct (Hf a i1 i Hi) as (?&?&?). split_and!; congruence.
Qed.

Definition parentEndpoints (p : parentAddr) : gset EpID := default ∅ (pd_endpointIDs (parentAt idx p)).

(** The walk over parents visits their endpoints, each once. *)
Lemma visitParents_ok lp : ∀ done,
  keeps_graph → (∀ pid, pid ∈ lp → is_Some (pars idx !! pid)) → NoDup done →
  ∃ rest, (iterWhile (visitParent go f) lp (list_to_set done, foldl (visitEndpoint f) (Ret idx) done)).1.2 = foldl (visitEndpoint f) (Ret idx) (done ++ rest) ∧
    NoDup (done ++ rest) ∧ ∀ id, id ∈ done ++ rest ↔ id ∈ done ∨ ∃ pid p, pid ∈ lp ∧ pars idx !! pid = Some p ∧ id ∈ parentEndpoints p.
Proof using GoOrdersLaws0.
  clear Hgr. induction lp as [|pid lp IH]; intros done Hf Hlp Hnd.
  { exists []. rewrite app_nil_r. split_and!; [done|done|]. set_solver. }
  destruct (Hlp pid) as [p Hp]; [apply list_elem_of_here|].
  assert (Hlp' : ∀ pid, pid ∈ lp → is_Some (pars idx !! pid)) by (intros x Hx; apply Hlp; by apply list_elem_of_further).
  set (ids := match pd_endpointIDs (parentAt idx p) with Some ids => Typed_All (rangeIDs go) ids | None => [] end).
  assert (Hids : ids ≡ₚ elements (parentEndpoints p)).
  { unfold ids, parentEndpoints. destruct (pd_endpointIDs (parentAt idx p)); cbn; [apply law_IDs|by rewrite elements_empty]. }
  set (new' := filter (λ id, id ∉ (list_to_set done : gset EpID)) ids).
  assert (Hnew : ∀ id, id ∈ new' ↔ id ∉ done ∧ id ∈ parentEndpoints p).
  { intros id. unfold new'. rewrite list_elem_of_filter, elem_of_list_to_set, Hids, elem_of_elements. done. }
  assert (Hnd' : NoDup (done ++ new')).
  { apply list.NoDup_app. split_and!; [done| |apply NoDup_filter; rewrite Hids; apply NoDup_elements]. intros id Hid (Hn&_)%Hnew. done. }
  destruct (IH (done ++ new') Hf Hlp' Hnd') as (rest&Hl&Hndl&Hin). exists (new' ++ rest). rewrite (assoc_L (++)).
  assert (Hres : ∀ id, id ∈ ((done ++ new') ++ rest) ↔ id ∈ done ∨ ∃ pid0 p0, pid0 ∈ pid :: lp ∧ pars idx !! pid0 = Some p0 ∧ id ∈ parentEndpoints p0).
  { intros id. rewrite Hin, (elem_of_app done), Hnew. split.
    - intros [[?|[_ ?]]|(pid0&p0&?&?&?)]; [by left|right; exists pid, p; split_and!; [apply list_elem_of_here|done..]|].
      right. exists pid0, p0. split_and!; [by apply list_elem_of_further|done..].
    - intros [?|(pid0&p0&Hpid0&Hp0&Hid)]; [by auto|]. apply elem_of_cons in Hpid0 as [->|?]; [|by eauto 10].
      rewrite Hp in Hp0. injection Hp0 as <-. destruct (decide (id ∈ done)); auto. }
  split_and!; [|done|done].
  destruct (foldl (visitEndpoint f) (Ret idx) done) as [i| | |] eqn:Hfold; cbn [iterWhile]; unfold visitParent at 1; cbn [fst snd].
  - destruct (visit_keeps done i Hf Hfold) as (He&Hpi&Hpo). unfold NameValueIndex.Get. rewrite Hpi, Hp, Hpo. fold ids.
    rewrite visitUnseen_spec by (rewrite Hids; apply NoDup_elements). rewrite foldl_app, Hfold in Hl.
    replace (list_to_set ids ∪ list_to_set done : gset EpID) with (list_to_set (done ++ new') : gset EpID); [exact Hl|].
    apply set_eq. intros x. rewrite elem_of_union, !elem_of_list_to_set, elem_of_app. unfold new'. rewrite list_elem_of_filter, elem_of_list_to_set.
    destruct (decide (x ∈ done)); naive_solver.
  - destruct e.
  - cbn. by rewrite <- (assoc_L (++)), foldl_app, Hfold, visit_absorb.
  - cbn. by rewrite <- (assoc_L (++)), foldl_app, Hfold, visit_absorb.
Qed.

(** The callback runs once on each of a list of endpoints among which are all that the selector
    matches, by own or by inherited labels, whichever strategy is taken. *)
Lemma iterEndpointCandidates_ok ipsetID s :
  ipSetDataByID idx !! ipsetID = Some s → root (is_selector s) = node → is_Some (Node_LabelRestrictions node) →
  (Z.of_nat (size (eps idx)) <= MaxInt)%Z → keeps_graph →
  ∃ l, iterEndpointCandidates go ipsetID f idx = foldl (visitEndpoint f) (Ret idx) l ∧ NoDup l ∧
    (∀ id, id ∈ l → is_Some (eps idx !! id)) ∧ ∀ id, matches_ep id → id ∈ l.
Proof using GoOrdersLaws0 Hgr.
  intros Hs Hroot [lrs Hlrs] Hsize Hf. unfold iterEndpointCandidates. rewrite Hs, Hroot, Hlrs.
  destruct (considerRestrictions_ok (rangeRestrictions go lrs) _ full_scan_good) as (ob&->&Hob).
  { intros [k r] Hkr. rewrite law_Restrictions, elem_of_map_to_list in Hkr. intros a Hev.
    destruct (LabelRestrictions_hold _ node lrs Hlrs Hev k r Hkr) as (Hp&_&Hvals). intros ?. split; [by apply Hp|apply Hvals]. }
  cbn [obind]. destruct ob as [b|].
  - destruct Hob as (Hep&(n&Hn&Hle)&Hpar). rewrite Hn. cbn [obind]. destruct (Z.leb_spec n (bestParentEndpointEstimate b)) as [Hlt|Hgt].
    + destruct (Hep _ (λ acc id, (visitEndpoint f acc id, true)) (Ret idx)) as (l&->&Hnd&Hin&Hall). cbn [obind].
      exists l. by rewrite iterWhile_visit.
    + destruct (bestParentStrategy b) as [strat|]; [|lia].
      destruct (Hpar _ (visitParent go f) (∅, Ret idx)) as (lp&->&Hlp&Hall). cbn [obind].
      destruct (visitParents_ok lp [] Hf Hlp (NoDup_nil_2)) as (l&Hl&Hnd&Hin). exists l. split_and!; [done|done| |].
      * intros id Hid. apply Hin in Hid as [?%elem_of_nil|(pid&p&_&Hp&Hid)]; [done|]. unfold parentEndpoints in Hid.
        destruct (pd_endpointIDs (parentAt idx p)) as [ids|] eqn:Hids; [|by apply not_elem_of_empty in Hid].
        destruct (gr_members _ Hgr pid p ids Hp Hids) as [_ Hm]. destruct (Hm id Hid) as (a&Ha&_). eauto.
      * intros id Hm. pose proof Hm as (a&Ha&_). destruct (Hall id a Ha Hm) as (p&Hpa&Hpid). apply Hin. right.
        destruct (gr_child _ Hgr id a p Ha Hpa) as [Hp Hid]. by exists (pd_id (parentAt idx p)), p.
  - exists []. split_and!; [done|constructor|by intros id ?%elem_of_nil|]. intros id Hm. by destruct (Hob id).
Qed.
End search.
End candidates.
