(* ===== verification/NamedPortScan.v ===== *)
(** * The named port index: scanning an endpoint against the IP sets

    What [RecalcCachedContributions] and [scanEndpointAgainstIPSets] do: the references of the
    old contributions are replaced by those of the new ones, and the cache of the endpoint is
    the set of the IP sets that match it. *)
From S2P Require Import Prelude ModelRule SelectorAST UniqueLabels AdaptiveSet GoSet.
From S2P Require Import InheritIndexSpec RestrictionIndex RestrictionIndexSpec NameValueIndex NameValueIndexSpec.
From S2P Require Import CIDR CIDRTrie CIDRTrieCorrect MemberDedup MemberDedupSpec NamedPortIndex NamedPortMembers NamedPortCandidates.
From stdpp Require Import base list gmap numbers strings sorting.
From stdpp Require Import options.

(** An endpoint without its cache. *)
Definition strip (d : endpointData) : endpointData := MkEndpointData (ed_labels d) (ed_nets d) (ed_ports d) (ed_parents d) NewAdaptive.

Lemma strip_contrib d d' s : strip d' = strip d → contrib d' s = contrib d s.
Proof. intros [= _ Hn Hp _]. by apply contrib_data. Qed.

Section scan.
Context `{Countable EpID} (go : GoOrders EpID) `{!GoOrdersLaws go}.
Abbreviation Index := (SelectorAndNamedPortIndex (EpID := EpID)).
Implicit Types idx : Index.

Lemma strip_Evaluate (h : list (npParentData (EpID := EpID))) d d' node : strip d' = strip d → Evaluate node (h, d') = Evaluate node (h, d).
Proof. intros [= Hl _ _ Hp]. apply Evaluate_ext. intros n. unfold GetHandle, endpointData_Labels, endpointGetHandle. cbn. by rewrite Hl, Hp. Qed.

(** Only counts, suppressor, events and the cache of the endpoint at [a] change. *)
Record scan_frame (a : endpointAddr) idx idx' : Prop := {
  sf_endpoints : endpointKVIdx idx' = endpointKVIdx idx;
  sf_parents : parentKVIdx idx' = parentKVIdx idx;
  sf_sets : meta <$> ipSetDataByID idx' = meta <$> ipSetDataByID idx;
  sf_candidates : selectorCandidatesIdx idx' = selectorCandidatesIdx idx;
  sf_parentObjects : parentObjects idx' = parentObjects idx;
  sf_length : length (endpointObjects idx') = length (endpointObjects idx);
  sf_others b : b ≠ a → endpointAt idx' b = endpointAt idx b;
  sf_strip : strip (endpointAt idx' a) = strip (endpointAt idx a)
}.

#[global] Instance scan_frame_refl a : Reflexive (scan_frame a).
Proof. by split. Qed.

#[global] Instance scan_frame_trans a : Transitive (scan_frame a).
Proof. intros i1 i2 i3 [] []. split; try congruence. intros b Hb. rewrite sf_others1, sf_others0; done. Qed.

Lemma frame_scan a idx idx' : frame idx idx' → scan_frame a idx idx'.
Proof. intros []. split; try done; unfold endpointAt; by rewrite fr_endpointObjects. Qed.

Lemma set_cached_frame a c idx : a < length (endpointObjects idx) → scan_frame a idx (set_cached a c idx).
Proof.
  intros Ha. split; try done; unfold endpointAt; cbn; [by rewrite length_insert|intros b Hb; by rewrite list_lookup_insert_ne|].
  by rewrite list_lookup_insert_eq.
Qed.

Lemma set_cached_at a c idx : a < length (endpointObjects idx) → cachedMatchingIPSetIDs (endpointAt (set_cached a c idx) a) = c.
Proof. intros Ha. unfold endpointAt. cbn. by rewrite list_lookup_insert_eq. Qed.

Definition cached_ok idx (a : endpointAddr) : Prop := adaptive_ok "" (cachedMatchingIPSetIDs (endpointAt idx a)).
Definition cached idx (a : endpointAddr) : gset string := elems (cachedMatchingIPSetIDs (endpointAt idx a)).

Lemma AddMatching_ok a id idx :
  a < length (endpointObjects idx) → cached_ok idx a →
  ∃ idx', AddMatchingIPSetID a id idx = Ret idx' ∧ scan_frame a idx idx' ∧ cached_ok idx' a ∧ cached idx' a = {[id]} ∪ cached idx a ∧
    ipSetDataByID idx' = ipSetDataByID idx ∧ suppressor idx' = suppressor idx ∧ events idx' = events idx.
Proof.
  intros Ha Hok. unfold AddMatchingIPSetID, cached_ok, cached in *. destruct (Add_ok "" id _ Hok) as (c&->&Hc&Helems). cbn [obind].
  eexists. split_and!; [done|by apply set_cached_frame|by rewrite set_cached_at|by rewrite set_cached_at|done..].
Qed.

Lemma RemoveMatching_ok a id idx :
  a < length (endpointObjects idx) → cached_ok idx a →
  ∃ idx', RemoveMatchingIPSetID go a id idx = Ret idx' ∧ scan_frame a idx idx' ∧ cached_ok idx' a ∧ cached idx' a = cached idx a ∖ {[id]} ∧
    ipSetDataByID idx' = ipSetDataByID idx ∧ suppressor idx' = suppressor idx ∧ events idx' = events idx.
Proof using GoOrdersLaws0.
  intros Ha Hok. unfold RemoveMatchingIPSetID, cached_ok, cached in *.
  destruct (Discard_ok "" (rangeStrings go) law_Strings id _ Hok) as (c&->&Hc&Helems). cbn [obind].
  eexists. split_and!; [done|by apply set_cached_frame|by rewrite set_cached_at|by rewrite set_cached_at|done..].
Qed.

(** ** IP sets and their selectors *)
Record sets_ok idx : Prop := {
  so_index : RestrictionIndexSpec.index_ok (selectorCandidatesIdx idx);
  so_selectors : selectorsByID (selectorCandidatesIdx idx) = is_selector <$> ipSetDataByID idx;
  so_protocol id s : ipSetDataByID idx !! id = Some s → protocol_ok (namedPortProtocol s)
}.

Lemma meta_lookup idx idx' id s' :
  meta <$> ipSetDataByID idx' = meta <$> ipSetDataByID idx → ipSetDataByID idx' !! id = Some s' →
  ∃ s, ipSetDataByID idx !! id = Some s ∧ meta s = meta s'.
Proof.
  intros Hm Hs. pose proof (f_equal (lookup id) Hm) as Heq. rewrite !lookup_fmap, Hs in Heq.
  destruct (ipSetDataByID idx !! id) as [s|]; [|done]. exists s. split; [done|]. cbn in Heq. congruence.
Qed.

Lemma meta_selectors idx idx' : meta <$> ipSetDataByID idx' = meta <$> ipSetDataByID idx → is_selector <$> ipSetDataByID idx' = is_selector <$> ipSetDataByID idx.
Proof.
  intros Hm. apply (f_equal (fmap is_selector)) in Hm. rewrite <- !map_fmap_compose in Hm. exact Hm.
Qed.

Lemma sets_ok_frame idx idx' :
  meta <$> ipSetDataByID idx' = meta <$> ipSetDataByID idx → selectorCandidatesIdx idx' = selectorCandidatesIdx idx → sets_ok idx → sets_ok idx'.
Proof.
  intros Hm Hc [Hi Hs Hp]. split; [by rewrite Hc|rewrite Hc, Hs; symmetry; by apply meta_selectors|].
  intros id s' Hs'. destruct (meta_lookup idx idx' id s' Hm Hs') as (s&Hs0&Hmeta). apply Hp in Hs0. by injection Hmeta as _ <- _.
Qed.

(** What the endpoint [d] adds to a set, when its parents have the labels in [h]. *)
Definition contribution (sets : gmap string ipSetData) (h : list (npParentData (EpID := EpID))) (d : endpointData) (id : string) : list IPSetMember :=
  match sets !! id with
  | Some s => if Evaluate (root (is_selector s)) (h, d) then contrib d s else []
  | None => []
  end.

Definition matches_set (sets : gmap string ipSetData) (h : list (npParentData (EpID := EpID))) (d : endpointData) (id : string) : Prop :=
  ∃ s, sets !! id = Some s ∧ Evaluate (root (is_selector s)) (h, d) = true.

Lemma contribution_ext sets sets' h d d' id : meta <$> sets' = meta <$> sets → strip d' = strip d → contribution sets' h d' id = contribution sets h d id.
Proof.
  intros Hm Hd. pose proof (f_equal (lookup id) Hm) as Heq. rewrite !lookup_fmap in Heq. unfold contribution.
  destruct (sets' !! id) as [s'|], (sets !! id) as [s|]; try done. injection Heq as Hsel Hpr Hp. rewrite Hsel, (strip_Evaluate h d d') by done.
  rewrite (strip_contrib d d') by done. case_match; [|done]. unfold contrib, CalculateEndpointContribution. by rewrite Hpr, Hp.
Qed.

Lemma matches_set_ext sets sets' h d d' id : meta <$> sets' = meta <$> sets → strip d' = strip d → matches_set sets' h d' id ↔ matches_set sets h d id.
Proof.
  intros Hm Hd. pose proof (f_equal (lookup id) Hm) as Heq. rewrite !lookup_fmap in Heq. unfold matches_set.
  destruct (sets' !! id) as [s'|], (sets !! id) as [s|]; try done; [|naive_solver]. injection Heq as Hsel _ _.
  split; intros (x&[= <-]&Hev); eexists; (split; [done|]); [rewrite <- Hsel, <- (strip_Evaluate h d d') by done|rewrite Hsel, (strip_Evaluate h d d') by done]; done.
Qed.

(** ** The cached contributions *)
Definition cachedContribution (sets : gmap string ipSetData) (d : endpointData) (id : string) : list IPSetMember :=
  if decide (id ∈ elems (cachedMatchingIPSetIDs d)) then match sets !! id with Some s => contrib d s | None => [] end else [].

Lemma contributionsOf_ok idx d ids : ∀ acc,
  sets_ok idx → (∀ id, id ∈ ids → is_Some (ipSetDataByID idx !! id)) →
  ∃ m, contributionsOf d ids idx acc = Ret m ∧
    ∀ id, m !! id = if decide (id ∈ ids) then contrib d <$> ipSetDataByID idx !! id else acc !! id.
Proof.
  induction ids as [|x ids IH]; intros acc Hok Hids; cbn [contributionsOf].
  { exists acc. split; [done|]. intros id. by rewrite decide_False by apply not_elem_of_nil. }
  destruct (Hids x) as [s Hs]; [apply list_elem_of_here|]. rewrite Hs. destruct (contrib_cases d s (so_protocol _ Hok x s Hs)) as (->&_). cbn [obind].
  destruct (IH (<[x := contrib d s]> acc) Hok) as (m&->&Hm); [intros id Hid; apply Hids; by apply list_elem_of_further|]. exists m. split; [done|].
  intros id. rewrite Hm. destruct (decide (id ∈ ids)) as [Hin|Hin].
  - by rewrite decide_True by (by apply list_elem_of_further).
  - destruct (decide (id = x)) as [->|Hne].
    + by rewrite lookup_insert_eq, decide_True, Hs by apply list_elem_of_here.
    + rewrite lookup_insert_ne, decide_False; [done|by apply not_elem_of_cons|done].
Qed.

Lemma Recalc_ok idx a :
  sets_ok idx → cached_ok idx a → (∀ id, id ∈ cached idx a → is_Some (ipSetDataByID idx !! id)) →
  ∃ m, RecalcCachedContributions go (endpointAt idx a) idx = Ret m ∧
    (∀ id, default [] (m !! id) = cachedContribution (ipSetDataByID idx) (endpointAt idx a) id) ∧
    (∀ id, is_Some (m !! id) → is_Some (ipSetDataByID idx !! id)).
Proof using GoOrdersLaws0.
  intros Hok Hc Hin. unfold RecalcCachedContributions, cachedContribution, cached, cached_ok in *. rewrite (Len_ok "") by done. cbn [obind]. case_decide as Hz.
  - exists ∅. split_and!; [done| |by intros id [? ?]]. intros id. rewrite lookup_empty. cbn. rewrite decide_False; [done|].
    intros Hid. assert (size (elems (cachedMatchingIPSetIDs (endpointAt idx a))) = 0) as He%size_empty_inv by lia. set_solver.
  - destruct (All_ok "" (rangeStrings go) law_Strings _ Hc) as (ids&->&_&Hset). cbn [obind].
    assert (Hids : ∀ id, id ∈ ids ↔ id ∈ elems (cachedMatchingIPSetIDs (endpointAt idx a))) by (intros id; by rewrite <- Hset, elem_of_list_to_set).
    destruct (contributionsOf_ok idx (endpointAt idx a) ids ∅ Hok) as (m&->&Hm); [intros id ?%Hids; by apply Hin|].
    exists m. split_and!; [done| |].
    + intros id. rewrite Hm. destruct (decide (id ∈ ids)) as [Hi|Hi]; pose proof Hi as Hi'; rewrite Hids in Hi'.
      * rewrite decide_True by done. by destruct (ipSetDataByID idx !! id).
      * rewrite decide_False by done. done.
    + intros id [x Hx]. rewrite Hm in Hx. case_decide; [|done]. by destruct (ipSetDataByID idx !! id).
Qed.

(** ** The candidates of an endpoint *)
Section endpoint.
Context (P0 : Client) (a : endpointAddr).

Lemma contribution_length idx d id : sets_ok idx → length (contribution (ipSetDataByID idx) (parentObjects idx) d id) ≤ weight (ed_nets d) (ed_ports d).
Proof.
  intros Hok. unfold contribution. destruct (ipSetDataByID idx !! id) as [s|] eqn:Hs; [|cbn; lia].
  case_match; [|cbn; lia]. by destruct (contrib_cases d s (so_protocol _ Hok id s Hs)) as (_&?&_).
Qed.

Lemma scanIPSet_ok idx bag id :
  members_ok P0 idx bag → sets_ok idx → a < length (endpointObjects idx) → cached_ok idx a → is_Some (ipSetDataByID idx !! id) →
  Forall net_ok (ed_nets (endpointAt idx a)) → (Z.of_nat (length (bag id) + weight (ed_nets (endpointAt idx a)) (ed_ports (endpointAt idx a))) < 2 ^ 64)%Z →
  ∃ idx', scanIPSet a id idx = Ret idx' ∧
    members_ok P0 idx' (bag_set id (contribution (ipSetDataByID idx) (parentObjects idx) (endpointAt idx a) id ++ bag id) bag) ∧
    scan_frame a idx idx' ∧ cached_ok idx' a ∧
    ∀ i, i ∈ cached idx' a ↔ i ∈ cached idx a ∨ i = id ∧ matches_set (ipSetDataByID idx) (parentObjects idx) (endpointAt idx a) id.
Proof.
  intros Hmem Hok Ha Hc [s Hs] Hnets Hbound. unfold scanIPSet, contribution, matches_set. rewrite Hs.
  destruct (contrib_cases (endpointAt idx a) s (so_protocol _ Hok id s Hs)) as (Hcec&Hlen&Hms).
  destruct (Evaluate (root (is_selector s)) (parentObjects idx, endpointAt idx a)) eqn:Hev.
  - destruct (AddMatching_ok a id idx Ha Hc) as (idx1&->&Hfr1&Hc1&Hel&Hsets&Hsup&Hevs). cbn [obind]. rewrite Hcec. cbn [obind].
    destruct (increfs_ok P0 (contrib (endpointAt idx a) s) idx1 bag id) as (idx'&Hloop&_&Hmem'&Hfr').
    { by apply (members_ok_ext P0 idx). } { rewrite Hsets. eauto. } { by apply Hms. } { lia. }
    exists idx'. pose proof (frame_scan a _ _ Hfr') as Hfr2. split_and!; [done|done|by etrans| |].
    + unfold cached_ok in *. unfold endpointAt in *. by rewrite (fr_endpointObjects _ _ Hfr').
    + intros i. assert (cached idx' a = cached idx1 a) as -> by (unfold cached, endpointAt; by rewrite (fr_endpointObjects _ _ Hfr')).
      rewrite Hel, elem_of_union, elem_of_singleton. naive_solver.
  - exists idx. split_and!; [done| |done|done|].
    + eapply members_ok_perm; [|done]. intros i. unfold bag_set. case_decide; by subst.
    + intros i. split; [by left|]. intros [?|(_&?&[= <-]&?)]; [done|congruence].
Qed.

Lemma scanIPSets_ok ids : ∀ idx bag,
  members_ok P0 idx bag → sets_ok idx → a < length (endpointObjects idx) → cached_ok idx a → NoDup ids →
  (∀ id, id ∈ ids → is_Some (ipSetDataByID idx !! id)) → Forall net_ok (ed_nets (endpointAt idx a)) →
  (∀ id, id ∈ ids → (Z.of_nat (length (bag id) + weight (ed_nets (endpointAt idx a)) (ed_ports (endpointAt idx a))) < 2 ^ 64)%Z) →
  ∃ idx', forEach (scanIPSet a) ids idx = Ret idx' ∧
    members_ok P0 idx' (λ i, (if decide (i ∈ ids) then contribution (ipSetDataByID idx) (parentObjects idx) (endpointAt idx a) i else []) ++ bag i) ∧
    scan_frame a idx idx' ∧ cached_ok idx' a ∧
    ∀ i, i ∈ cached idx' a ↔ i ∈ cached idx a ∨ i ∈ ids ∧ matches_set (ipSetDataByID idx) (parentObjects idx) (endpointAt idx a) i.
Proof using Type.
  clear GoOrdersLaws0 go. induction ids as [|id ids IH]; intros idx bag Hmem Hok Ha Hc Hnd Hids Hnets Hbound; cbn [forEach].
  { exists idx. split_and!; [done| |done|done|set_solver]. eapply members_ok_perm; [|done]. intros i. by rewrite decide_False by apply not_elem_of_nil. }
  apply list.NoDup_cons in Hnd as [Hid Hnd].
  destruct (scanIPSet_ok idx bag id Hmem Hok Ha Hc) as (idx1&->&Hmem1&Hfr1&Hc1&Hel1); [apply Hids, list_elem_of_here|done|apply Hbound, list_elem_of_here|].
  cbn [obind]. pose proof (sf_strip _ _ _ Hfr1) as Hst. pose proof Hst as [= _ Hn Hp _].
  destruct (IH idx1 _ Hmem1) as (idx'&Hloop&Hmem'&Hfr'&Hc'&Hel').
  - eapply sets_ok_frame; [apply Hfr1|apply Hfr1|done].
  - by rewrite (sf_length _ _ _ Hfr1).
  - done.
  - done.
  - intros i Hi. destruct (Hids i) as [s Hs]; [by apply list_elem_of_further|].
    pose proof (f_equal (lookup i) (sf_sets _ _ _ Hfr1)) as Heq. rewrite !lookup_fmap, Hs in Heq. destruct (ipSetDataByID idx1 !! i); [eauto|done].
  - by rewrite Hn.
  - intros i Hi. rewrite Hn, Hp, bag_set_ne by (by intros ->). apply Hbound. by apply list_elem_of_further.
  - exists idx'. split_and!; [done| |by etrans|done|].
    + eapply members_ok_perm; [|exact Hmem']. intros i. cbn. rewrite (sf_parentObjects _ _ _ Hfr1).
      rewrite (contribution_ext (ipSetDataByID idx) (ipSetDataByID idx1) _ (endpointAt idx a)) by (done || apply Hfr1).
      destruct (decide (i = id)) as [->|Hne].
      * rewrite bag_set_eq, decide_False by done. by rewrite decide_True by apply list_elem_of_here.
      * rewrite bag_set_ne by done. destruct (decide (i ∈ ids)); [by rewrite decide_True by (by apply list_elem_of_further)|].
        by rewrite decide_False by (by apply not_elem_of_cons).
    + intros i. rewrite Hel', Hel1, elem_of_cons, (sf_parentObjects _ _ _ Hfr1).
      rewrite (matches_set_ext (ipSetDataByID idx) (ipSetDataByID idx1) _ (endpointAt idx a)) by (done || apply Hfr1). naive_solver.
Qed.

(** ** The whole scan *)
Lemma decrefContributions_ok idx bag (R : Bag) old :
  members_ok P0 idx bag → (∀ id, bag id ≡ₚ default [] (old !! id) ++ R id) → (∀ id, is_Some (old !! id) → is_Some (ipSetDataByID idx !! id)) →
  (∀ id, (Z.of_nat (length (bag id)) < 2 ^ 64)%Z) → ∃ idx', decrefContributions go old idx = Ret idx' ∧ members_ok P0 idx' R ∧ frame idx idx'.
Proof using GoOrdersLaws0.
  intros Hmem Hbag Hold Hbound. unfold decrefContributions. eapply decref_all_ok; [done| | | |done].
  - rewrite law_Contributions. apply NoDup_fst_map_to_list.
  - intros id ms Hin. rewrite law_Contributions, elem_of_map_to_list in Hin. split; [apply Hold; eauto|]. by rewrite (Hbag id), Hin.
  - intros id Hout. rewrite Hbag. destruct (old !! id) as [ms|] eqn:Hid; [|done]. destruct Hout. apply list_elem_of_fmap.
    exists (id, ms). split; [done|]. by rewrite law_Contributions, elem_of_map_to_list.
Qed.

Lemma scanEndpoint_ok idx bag (R : Bag) old :
  let d := endpointAt idx a in
  members_ok P0 idx bag → sets_ok idx → a < length (endpointObjects idx) → Forall net_ok (ed_nets d) →
  (∀ id, bag id ≡ₚ default [] (old !! id) ++ R id) → (∀ id, is_Some (old !! id) → is_Some (ipSetDataByID idx !! id)) →
  (∀ id, (Z.of_nat (length (bag id) + weight (ed_nets d) (ed_ports d)) < 2 ^ 64)%Z) →
  ∃ idx', scanEndpointAgainstIPSets go a old idx = Ret idx' ∧
    members_ok P0 idx' (λ i, contribution (ipSetDataByID idx) (parentObjects idx) d i ++ R i) ∧ scan_frame a idx idx' ∧ cached_ok idx' a ∧
    ∀ i, i ∈ cached idx' a ↔ matches_set (ipSetDataByID idx) (parentObjects idx) d i.
Proof using GoOrdersLaws0.
  intros d Hmem Hok Ha Hnets Hbag Hold Hbound. unfold scanEndpointAgainstIPSets.
  set (idx0 := set_cached a (Clear (cachedMatchingIPSetIDs (endpointAt idx a))) idx).
  pose proof (set_cached_frame a (Clear (cachedMatchingIPSetIDs (endpointAt idx a))) idx Ha) as Hfr0. fold idx0 in Hfr0.
  pose proof (sf_strip _ _ _ Hfr0) as Hst. pose proof Hst as [= Hl Hn Hp Hps].
  assert (Hc0 : cachedMatchingIPSetIDs (endpointAt idx0 a) = MkAdaptive 0 NilPtr) by (by apply set_cached_at).
  assert (Hcand : AllPotentialMatches (rangeStrings go) (AllOwnAndParentLabelHandles go (parentObjects idx0) (endpointAt idx0 a)) (selectorCandidatesIdx idx0)
    = map (λ id, (id, selectorsByID (selectorCandidatesIdx idx) !! id)) (potentialIDs (rangeStrings go) (AllOwnAndParentLabelHandles go (parentObjects idx) d) (selectorCandidatesIdx idx))).
  { change (selectorCandidatesIdx idx0) with (selectorCandidatesIdx idx). change (parentObjects idx0) with (parentObjects idx).
    unfold AllOwnAndParentLabelHandles. rewrite Hl, Hps. apply AllPotentialMatches_ids, law_Strings. }
  rewrite Hcand. clear Hcand. change (map ?g ?l) with (g <$> l). rewrite <- list_fmap_compose. unfold compose. cbn [fst]. rewrite list_fmap_id.
  pose proof (AllOwnAndParentLabelHandles_perm go (parentObjects idx) d) as Hlabels.
  set (ids := potentialIDs (rangeStrings go) (AllOwnAndParentLabelHandles go (parentObjects idx) d) (selectorCandidatesIdx idx)).
  assert (Hknown : ∀ id, id ∈ ids → is_Some (ipSetDataByID idx !! id)).
  { intros id Hid. apply (potentialIDs_known _ law_Strings _ _ _ (so_index _ Hok)) in Hid. rewrite (so_selectors _ Hok), lookup_fmap in Hid.
    by apply fmap_is_Some in Hid. }
  assert (Hcomplete : ∀ id, matches_set (ipSetDataByID idx) (parentObjects idx) d id → id ∈ ids).
  { intros id (s&Hs&Hev). eapply (potentialIDs_complete _ law_Strings _ (effectiveLabels (parentObjects idx) d) _ _ (is_selector s)); [apply Hok|done| |].
    - by rewrite (so_selectors _ Hok), lookup_fmap, Hs.
    - by rewrite effective_Evaluate. }
  destruct (scanIPSets_ok ids idx0 bag) as (idx1&->&Hmem1&Hfr1&Hc1&Hel1).
  { by apply (members_ok_ext P0 idx). } { by eapply sets_ok_frame; [..|done]. } { by rewrite (sf_length _ _ _ Hfr0). }
  { unfold cached_ok. rewrite Hc0. done. } { eapply potentialIDs_NoDup; [apply law_Strings|apply Hok|done]. } { done. } { by rewrite Hn. }
  { intros id _. rewrite Hn, Hp. apply Hbound. }
  cbn [obind]. change (ipSetDataByID idx0) with (ipSetDataByID idx) in *. change (parentObjects idx0) with (parentObjects idx) in *.
  destruct (decrefContributions_ok idx1 _ (λ i, contribution (ipSetDataByID idx) (parentObjects idx) d i ++ R i) old Hmem1) as (idx'&Hdec&Hmem'&Hfr').
  - intros i. cbn. rewrite (contribution_ext (ipSetDataByID idx) (ipSetDataByID idx) _ d) by done. rewrite (Hbag i).
    destruct (decide (i ∈ ids)) as [Hi|Hi]; [by rewrite !(assoc_L (++)), (Permutation_app_comm (contribution _ _ _ _))|].
    assert (contribution (ipSetDataByID idx) (parentObjects idx) d i = []) as ->; [|done].
    unfold contribution. destruct (ipSetDataByID idx !! i) as [s|] eqn:Hs; [|done]. case_match eqn:Hev; [|done]. destruct Hi. apply Hcomplete. by exists s.
  - intros id Hid. destruct (Hold id Hid) as [s Hs]. pose proof (f_equal (lookup id) (sf_sets _ _ _ Hfr1)) as Heq. rewrite !lookup_fmap in Heq.
    change (ipSetDataByID idx0) with (ipSetDataByID idx) in Heq. rewrite Hs in Heq. destruct (ipSetDataByID idx1 !! id); [eauto|done].
  - intros id. cbn. specialize (Hbound id). rewrite length_app. case_decide; [|cbn; lia].
    pose proof (contribution_length idx (endpointAt idx0 a) id Hok) as Hle. rewrite Hn, Hp in Hle. fold d in Hle. lia.
  - exists idx'. split_and!; [done|done| | |].
    + etrans; [exact Hfr0|]. etrans; [exact Hfr1|]. by apply frame_scan.
    + unfold cached_ok, endpointAt in *. by rewrite (fr_endpointObjects _ _ Hfr').
    + intros i. assert (cached idx' a = cached idx1 a) as -> by (unfold cached, endpointAt; by rewrite (fr_endpointObjects _ _ Hfr')).
      rewrite Hel1. unfold cached at 1. rewrite Hc0.
      rewrite (matches_set_ext (ipSetDataByID idx) (ipSetDataByID idx) _ d) by done. split; [|by auto]. intros [Hin|[_ ?]]; [|done].
      by apply not_elem_of_empty in Hin.
Qed.
End endpoint.
End scan.
