(* ===== verification/NamedPortGraph.v ===== *)
(** * The named port index: endpoints and parents know each other

    The two label indexes and the links between endpoints and parents, while endpoints join
    and leave parents and parents come and go. *)
From S2P Require Import Prelude ModelRule SelectorAST UniqueLabels AdaptiveSet GoSet.
From S2P Require Import InheritIndexSpec RestrictionIndex RestrictionIndexSpec NameValueIndex NameValueIndexSpec.
From S2P Require Import CIDR CIDRTrie CIDRTrieCorrect MemberDedup MemberDedupSpec NamedPortIndex NamedPortMembers NamedPortCandidates NamedPortScan.
From stdpp Require Import base list gmap numbers strings sorting.
From stdpp Require Import options.

(** The label index only looks at the labels of the items it holds. *)
Lemma index_ok_ext `{Countable ItemID} {Item} (zero : ItemID) (labelsOf labelsOf' : Item → gmap string string) (i : LabelNameValueIndex) :
  (∀ id item, allItems i !! id = Some item → labelsOf' item = labelsOf item) →
  NameValueIndexSpec.index_ok zero labelsOf i → NameValueIndexSpec.index_ok zero labelsOf' i.
Proof.
  intros Heq. unfold NameValueIndexSpec.index_ok. assert (factsOf labelsOf' (allItems i) = factsOf labelsOf (allItems i)) as ->; [|done].
  apply set_eq. intros [[id k] v]. rewrite !elem_of_factsOf. split; intros (item&Hi&Hk); exists item; (split; [done|]);
    [rewrite <- (Heq id)|rewrite (Heq id)]; done.
Qed.

Section graph.
Context `{Countable EpID} (zeroID : EpID).
Abbreviation Index := (SelectorAndNamedPortIndex (EpID := EpID)).
Implicit Types idx : Index.
Abbreviation eps idx := (allItems (endpointKVIdx idx)).
Abbreviation pars idx := (allItems (parentKVIdx idx)).
Abbreviation parentAt idx p := (deref (parentObjects idx) p).

Record base_ok idx : Prop := {
  ba_endpoints : NameValueIndexSpec.index_ok zeroID (endpointLabels idx) (endpointKVIdx idx);
  ba_parents : NameValueIndexSpec.index_ok "" (parentLabels (parentObjects idx)) (parentKVIdx idx);
  ba_endpoint_addr id a : eps idx !! id = Some a → a < length (endpointObjects idx);
  ba_endpoint_inj id id' a : eps idx !! id = Some a → eps idx !! id' = Some a → id = id';
  ba_parent_addr pid p : pars idx !! pid = Some p → p < length (parentObjects idx) ∧ pd_id (parentAt idx p) = pid
}.

(** The parents in the index know exactly the endpoints that [K] relates to them. *)
Record knows_ok idx (K : EpID → parentAddr → Prop) : Prop := {
  kn_child id p : K id p → pars idx !! pd_id (parentAt idx p) = Some p ∧ id ∈ default ∅ (pd_endpointIDs (parentAt idx p));
  kn_members pid p ids : pars idx !! pid = Some p → pd_endpointIDs (parentAt idx p) = Some ids → ids ≠ ∅ ∧ ∀ id, id ∈ ids → K id p
}.

Definition childOf idx (id : EpID) (p : parentAddr) : Prop := ∃ a, eps idx !! id = Some a ∧ p ∈ ed_parents (endpointAt idx a).

Lemma graph_split idx :
  graph_ok zeroID idx ↔ base_ok idx ∧ knows_ok idx (childOf idx) ∧ ∀ id a, eps idx !! id = Some a → NoDup (ed_parents (endpointAt idx a)).
Proof.
  split.
  - intros []. split_and!; [by split| |done]. split; [|done]. intros id p (a&Ha&Hp). by apply (gr_child id a).
  - intros ([]&[Hch Hme]&Hnd). split; try done. intros id a p Ha Hp. apply Hch. by exists a.
Qed.

Lemma knows_ext idx K K' : (∀ id p, K id p ↔ K' id p) → knows_ok idx K → knows_ok idx K'.
Proof.
  intros HK [Hch Hme]. split; [intros id p Hk; by apply Hch, HK|]. intros pid p ids Hp Hids. destruct (Hme pid p ids Hp Hids) as [He Hin].
  split; [done|]. intros id Hid. by apply HK, Hin.
Qed.

(** ** Changes to parents only *)
(** The labels that the index has for a parent, by its identifier. *)
Definition labelsByID idx (pid : string) : gmap string string :=
  match pars idx !! pid with Some p => parentLabels (parentObjects idx) p | None => ∅ end.

Record parents_frame idx idx' : Prop := {
  pf_endpoints : endpointKVIdx idx' = endpointKVIdx idx;
  pf_sets : ipSetDataByID idx' = ipSetDataByID idx;
  pf_candidates : selectorCandidatesIdx idx' = selectorCandidatesIdx idx;
  pf_suppressor : suppressor idx' = suppressor idx;
  pf_endpointObjects : endpointObjects idx' = endpointObjects idx;
  pf_events : events idx' = events idx;
  pf_length : length (parentObjects idx) ≤ length (parentObjects idx');
  pf_objects p : p < length (parentObjects idx) → pd_id (parentAt idx' p) = pd_id (parentAt idx p) ∧ pd_labels (parentAt idx' p) = pd_labels (parentAt idx p);
  pf_labels pid : labelsByID idx' pid = labelsByID idx pid
}.

#[global] Instance parents_frame_refl : Reflexive parents_frame.
Proof. by split. Qed.

#[global] Instance parents_frame_trans : Transitive parents_frame.
Proof.
  intros i1 i2 i3 [] []. split; try congruence; try lia. intros p Hp. destruct (pf_objects0 p Hp). destruct (pf_objects1 p); [lia|].
  split; congruence.
Qed.

Lemma deref_insert (h : list (npParentData (EpID := EpID))) p q x : p < length h → deref (<[p := x]> h) q = if decide (q = p) then x else deref h q.
Proof. intros Hp. unfold deref. case_decide; [subst; by rewrite list_lookup_insert_eq|by rewrite list_lookup_insert_ne]. Qed.

Lemma set_endpointIDs_frame p ids idx : p < length (parentObjects idx) → parents_frame idx (set_endpointIDs p ids idx).
Proof.
  intros Hp. split; try done; cbn; [by rewrite length_insert| |].
  - intros q _. rewrite deref_insert by done. case_decide; by subst.
  - intros pid. unfold labelsByID, parentLabels. cbn. destruct (pars idx !! pid) as [q|]; [|done]. rewrite deref_insert by done. case_decide; by subst.
Qed.

Lemma set_endpointIDs_base p ids idx : p < length (parentObjects idx) → base_ok idx → base_ok (set_endpointIDs p ids idx).
Proof.
  intros Hp [He Hpa Ha Hi Hpp]. split; try done; cbn.
  - eapply index_ok_ext; [|exact Hpa]. intros pid q _. unfold parentLabels. rewrite deref_insert by done. case_decide; by subst.
  - intros pid q Hq. rewrite length_insert, deref_insert by done. destruct (Hpp pid q Hq). case_decide; by subst.
Qed.

Lemma AddEndpointID_ok p id idx K :
  base_ok idx → knows_ok idx K → pars idx !! pd_id (parentAt idx p) = Some p →
  base_ok (AddEndpointID p id idx) ∧ parents_frame idx (AddEndpointID p id idx) ∧ parentKVIdx (AddEndpointID p id idx) = parentKVIdx idx ∧
  knows_ok (AddEndpointID p id idx) (λ e q, K e q ∨ e = id ∧ q = p).
Proof.
  intros Hb [Hch Hme] Hp. destruct (ba_parent_addr _ Hb _ _ Hp) as [Hlt _]. unfold AddEndpointID.
  split_and!; [by apply set_endpointIDs_base|by apply set_endpointIDs_frame|done|]. unfold Typed_Add. split; cbn.
  - intros e q. rewrite deref_insert by done. case_decide as Hq.
    + subst q. cbn. intros [Hk|[-> _]]; (split; [done|]); [|set_solver]. destruct (Hch e p Hk). set_solver.
    + intros [Hk|[_ ?]]; [|done]. by apply Hch.
  - intros pid q ids Hq. rewrite deref_insert by done. case_decide as Hqp.
    + subst q. cbn. intros [= <-]. split; [set_solver|]. intros e. rewrite elem_of_union, elem_of_singleton. intros [->|He]; [by right|left].
      destruct (pd_endpointIDs (parentAt idx p)) as [ids|] eqn:Hids; [|set_solver]. by apply (Hme pid p ids).
    + intros Hids. destruct (Hme pid q ids Hq Hids) as [He Hin]. split; [done|]. intros e Hein. left. by apply Hin.
Qed.

(** An endpoint joins its parents. *)
Lemma AddEndpointIDs_ok id ps : ∀ idx K,
  base_ok idx → knows_ok idx K → (∀ p, p ∈ ps → pars idx !! pd_id (parentAt idx p) = Some p) →
  let idx' := foldl (λ idx p, AddEndpointID p id idx) idx ps in
  base_ok idx' ∧ parents_frame idx idx' ∧ parentKVIdx idx' = parentKVIdx idx ∧ knows_ok idx' (λ e q, K e q ∨ e = id ∧ q ∈ ps).
Proof.
  induction ps as [|p ps IH]; intros idx K Hb Hk Hps; cbn [foldl].
  { split_and!; [done|done|done|]. eapply knows_ext; [|done]. intros e q. rewrite elem_of_nil. tauto. }
  assert (Hp : pars idx !! pd_id (parentAt idx p) = Some p) by (apply Hps, list_elem_of_here).
  destruct (AddEndpointID_ok p id idx K Hb Hk Hp) as (Hb1&Hf1&Hkv1&Hk1). destruct (IH (AddEndpointID p id idx) _ Hb1 Hk1) as (Hb'&Hf'&Hkv'&Hk').
  - intros q Hq. assert (Hq' : pars idx !! pd_id (parentAt idx q) = Some q) by (apply Hps; by apply list_elem_of_further).
    destruct (ba_parent_addr _ Hb _ _ Hq') as [Hlt _]. destruct (pf_objects _ _ Hf1 q Hlt) as [-> _]. by rewrite Hkv1.
  - split_and!; [done|by etrans|congruence|]. eapply knows_ext; [|exact Hk']. intros e q. rewrite elem_of_cons. tauto.
Qed.

(** ** Creating parents *)
Context (go : GoOrders EpID) `{!GoOrdersLaws go}.

Lemma deref_app (h : list (npParentData (EpID := EpID))) x q : q < length h → deref (h ++ [x]) q = deref h q.
Proof. intros Hq. unfold deref. by rewrite lookup_app_l. Qed.

Lemma np_getOrCreateParent_ok pid idx K :
  base_ok idx → knows_ok idx K →
  ∃ idx' p, getOrCreateParent go pid idx = Ret (idx', p) ∧ base_ok idx' ∧ parents_frame idx idx' ∧ knows_ok idx' K ∧
    pars idx' !! pid = Some p ∧ pars idx ⊆ pars idx'.
Proof using GoOrdersLaws0.
  intros Hb Hk. unfold getOrCreateParent, NameValueIndex.Get. destruct (pars idx !! pid) as [p|] eqn:Hp; [by exists idx, p|]. cbv zeta.
  set (new := length (parentObjects idx) : parentAddr). set (idx1 := set_parentObjects (λ h, h ++ [MkParentData pid uniquelabels.Nil None]) idx).
  destruct Hb as [He Hpa Ha Hi Hpp]. destruct Hk as [Hch Hme].
  assert (Hnew : deref (parentObjects idx1) new = MkParentData pid uniquelabels.Nil None).
  { unfold idx1, new, deref. cbn. by rewrite lookup_app_r, Nat.sub_diag. }
  destruct (Add_index_ok "" (parentLabels (parentObjects idx1)) (labelHandles go uniquelabels.Nil) pid new (parentKVIdx idx1))
    as (ps&->&Hps&Hall); [|done|unfold labelHandles, parentLabels; rewrite Hnew; apply law_Labels|].
  { eapply index_ok_ext; [|exact Hpa]. intros q x Hq. unfold parentLabels, idx1. cbn. rewrite deref_app; [done|]. by apply Hpp in Hq as [? _]. }
  cbn [obind]. pose proof Hnew as Hnew'. unfold idx1 in Hnew'. cbn in Hnew'. exists (set_parents ps idx1), new. change (pars idx1) with (pars idx) in Hall.
  assert (Hold : ∀ q x, pars idx !! q = Some x → x < new ∧ pd_id (parentAt idx1 x) = q).
  { intros q x Hq. destruct (Hpp q x Hq) as [Hlt Hid]. split; [done|]. unfold idx1. cbn. by rewrite deref_app. }
  split_and!; [done| | | |cbn; by rewrite Hall, lookup_insert_eq|cbn; rewrite Hall; by apply insert_subseteq].
  - split; try done. intros q x. cbn. rewrite Hall, length_app. intros [[<- <-]|[_ Hq]]%lookup_insert_Some.
    + split; [cbn; unfold new; lia|]. by rewrite Hnew'.
    + destruct (Hold q x Hq). split; [unfold new in *; lia|done].
  - split; try done; cbn.
    + rewrite length_app. lia.
    + intros q Hq. by rewrite deref_app.
    + intros q. unfold labelsByID. cbn. rewrite Hall. destruct (decide (q = pid)) as [->|Hne].
      * rewrite lookup_insert_eq, Hp. unfold parentLabels. by rewrite Hnew'.
      * rewrite lookup_insert_ne by done. destruct (pars idx !! q) as [x|] eqn:Hq; [|done]. unfold parentLabels. destruct (Hold q x Hq). by rewrite deref_app.
  - split; cbn; rewrite Hall.
    + intros e q Hkq. destruct (Hch e q Hkq) as [Hq Hin]. destruct (Hold _ _ Hq) as [Hlt _]. rewrite deref_app by done. split; [|done].
      rewrite lookup_insert_ne; [done|]. intros Heq. by rewrite <- Heq, Hp in Hq.
    + intros q x ids [[<- <-]|[_ Hq]]%lookup_insert_Some; [by rewrite Hnew'|]. destruct (Hold q x Hq). rewrite deref_app by done. by apply (Hme q).
Qed.

Lemma np_getOrCreateParents_ok pids : ∀ idx K,
  base_ok idx → knows_ok idx K →
  ∃ idx' ps, getOrCreateParents go pids idx = Ret (idx', ps) ∧ base_ok idx' ∧ parents_frame idx idx' ∧ knows_ok idx' K ∧
    (λ p, pd_id (parentAt idx' p)) <$> ps = pids ∧ (∀ p, p ∈ ps → pars idx' !! pd_id (parentAt idx' p) = Some p) ∧ pars idx ⊆ pars idx'.
Proof using GoOrdersLaws0.
  induction pids as [|pid pids IH]; intros idx K Hb Hk; cbn [getOrCreateParents].
  { exists idx, []. split_and!; try done. by intros p ?%elem_of_nil. }
  destruct (np_getOrCreateParent_ok pid idx K Hb Hk) as (idx1&p&->&Hb1&Hf1&Hk1&Hp1&Hsub1). cbn [obind].
  destruct (IH idx1 K Hb1 Hk1) as (idx'&ps&->&Hb'&Hf'&Hk'&Hids&Hps&Hsub'). cbn [obind]. exists idx', (p :: ps).
  assert (Hp' : pars idx' !! pid = Some p) by (by eapply lookup_weaken). destruct (ba_parent_addr _ Hb' _ _ Hp') as [_ Hid].
  split_and!; [done|done|by etrans|done|cbn; by rewrite Hid, Hids| |by etrans].
  intros q [->|Hq]%elem_of_cons; [by rewrite Hid|by apply Hps].
Qed.

(** ** Leaving a parent *)
Lemma np_discardParentIfEmpty_ok pid idx K :
  base_ok idx → knows_ok idx K → (∀ e p, K e p → pars idx !! pid = Some p → is_Some (pd_endpointIDs (parentAt idx p))) →
  ∃ idx', discardParentIfEmpty go pid idx = Ret idx' ∧ base_ok idx' ∧ parents_frame idx idx' ∧ knows_ok idx' K ∧
    parentObjects idx' = parentObjects idx ∧ (pars idx' = pars idx ∨ pars idx' = delete pid (pars idx)).
Proof using GoOrdersLaws0.
  intros Hb Hk Huse. unfold discardParentIfEmpty, NameValueIndex.Get. destruct (pars idx !! pid) as [p|] eqn:Hp; [|exists idx; split_and!; try done; by left].
  destruct (pd_endpointIDs (parentAt idx p)) as [ids|] eqn:Hids; [exists idx; split_and!; try done; by left|].
  destruct (uniquelabels.IsNil (pd_labels (parentAt idx p))) eqn:Hnil; [|exists idx; split_and!; try done; by left]. unfold removeParent.
  destruct (Remove_index_ok "" (rangeStrings go) law_Strings (parentLabels (parentObjects idx)) (labelHandles go (pd_labels (parentAt idx p))) pid p (parentKVIdx idx))
    as (ps&->&Hps&Hall); [apply Hb|done|unfold labelHandles, parentLabels; apply law_Labels|]. cbn [obind]. exists (set_parents ps idx).
  destruct Hb as [He Hpa Ha Hi Hpp]. destruct Hk as [Hch Hme].
  assert (Hsub : ∀ q x, pars (set_parents ps idx) !! q = Some x → pars idx !! q = Some x) by (intros q x; cbn; rewrite Hall; intros Hq%lookup_delete_Some; tauto).
  split_and!; [done| | | |done|by right].
  - split; try done. intros q x Hq%Hsub. by apply Hpp.
  - split; try done. intros q. unfold labelsByID. cbn. rewrite Hall. destruct (decide (q = pid)) as [->|Hne]; [|by rewrite lookup_delete_ne].
    rewrite lookup_delete_eq, Hp. unfold parentLabels. by destruct (pd_labels (parentAt idx p)).
  - split; cbn; rewrite Hall.
    + intros e q Hkq. destruct (Hch e q Hkq) as [Hq Hin]. split; [|done]. rewrite lookup_delete_ne; [done|]. intros ->.
      assert (p = q) as <- by congruence. rewrite Hids in Hin. set_solver.
    + intros q x ids [_ Hq]%lookup_delete_Some. by apply (Hme q x ids).
Qed.

Lemma leaveParent_ok p id idx K :
  base_ok idx → knows_ok idx K → K id p →
  ∃ idx', leaveParent go id p idx = Ret idx' ∧ base_ok idx' ∧ parents_frame idx idx' ∧ knows_ok idx' (λ e q, K e q ∧ ¬ (e = id ∧ q = p)).
Proof using GoOrdersLaws0.
  intros Hb Hk Hkp. destruct (kn_child _ _ Hk id p Hkp) as [Hp Hin]. destruct (ba_parent_addr _ Hb _ _ Hp) as [Hlt _].
  unfold leaveParent, DiscardEndpointID. destruct (pd_endpointIDs (parentAt idx p)) as [ids|] eqn:Hids; [|set_solver]. cbn in Hin. cbn [obind].
  set (ids' := if decide (Typed_Len (Typed_Discard id ids) = 0)%Z then None else Some (Typed_Discard id ids)).
  set (idx1 := set_endpointIDs p ids' idx). assert (Hids' : ∀ e, e ∈ (default ∅ ids' : gset EpID) ↔ e ∈ ids ∧ e ≠ id).
  { intros e. unfold ids', Typed_Len, Typed_Discard. case_decide as Hz; cbn; [|set_solver].
    assert (size (ids ∖ {[id]}) = 0) as Hemp%size_empty_inv by lia. set_solver. }
  assert (Hne : ∀ s, ids' = Some s → s ≠ ∅).
  { intros s. unfold ids', Typed_Len. case_decide as Hz; [done|]. intros [= <-] Hs. rewrite Hs, size_empty in Hz. done. }
  assert (Hk1 : knows_ok idx1 (λ e q, K e q ∧ ¬ (e = id ∧ q = p))).
  { destruct Hk as [Hch Hme]. split; unfold idx1; cbn.
    - intros e q [Hkq Hnot]. destruct (Hch e q Hkq) as [Hq He]. rewrite deref_insert by done. case_decide; [subst q|done]. cbn. split; [done|].
      apply Hids'. rewrite Hids in He. naive_solver.
    - intros pid q s Hq. rewrite deref_insert by done. case_decide as Hqp.
      + subst q. cbn. intros Hs. split; [by apply Hne|]. intros e He. assert (He' : e ∈ (default ∅ ids' : gset EpID)) by (by rewrite Hs).
        apply Hids' in He' as [Hin' Hnot]. split; [by apply (Hme pid p ids)|naive_solver].
      + intros Hs. destruct (Hme pid q s Hq Hs) as [Hse Hall]. split; [done|]. intros e He. split; [by apply Hall|naive_solver]. }
  destruct (np_discardParentIfEmpty_ok (pd_id (parentAt idx1 p)) idx1 _ (set_endpointIDs_base p ids' idx Hlt Hb) Hk1) as (idx'&Hdis&Hb'&Hf'&Hk'&_).
  { intros e q [Hkq Hnot] Hq. destruct (kn_child _ _ Hk1 e q (conj Hkq Hnot)) as [_ Hin1].
    destruct (pd_endpointIDs (parentAt idx1 q)); [eauto|set_solver]. }
  exists idx'. split_and!; [done|done| |done]. etrans; [|exact Hf']. by apply set_endpointIDs_frame.
Qed.

Lemma leaveOldParents_ok id (keep : gset string) ps : ∀ idx K,
  base_ok idx → knows_ok idx K → NoDup ps → (∀ p, p ∈ ps → K id p) →
  ∃ idx', forEach (leaveOldParent go id keep) ps idx = Ret idx' ∧ base_ok idx' ∧ parents_frame idx idx' ∧
    knows_ok idx' (λ e q, K e q ∧ ¬ (e = id ∧ q ∈ ps ∧ pd_id (parentAt idx q) ∉ keep)).
Proof using GoOrdersLaws0.
  induction ps as [|p ps IH]; intros idx K Hb Hk Hnd Hps; cbn [forEach].
  { exists idx. split_and!; try done. eapply knows_ext; [|done]. intros e q. rewrite elem_of_nil. tauto. }
  apply list.NoDup_cons in Hnd as [Hp Hnd]. assert (Hkp : K id p) by (apply Hps, list_elem_of_here).
  assert (Hps' : ∀ q, q ∈ ps → K id q) by (intros q Hq; apply Hps; by apply list_elem_of_further).
  assert (Hlt : ∀ q, K id q → q < length (parentObjects idx)) by (intros q [Hq _]%(kn_child _ _ Hk); by apply (ba_parent_addr _ Hb) in Hq as [? _]).
  unfold leaveOldParent at 1. case_decide as Hkeep; cbn [obind].
  - destruct (IH idx K Hb Hk Hnd Hps') as (idx'&Hloop&Hb'&Hf'&Hk'). exists idx'. split_and!; [done..|].
    eapply knows_ext; [|exact Hk']. intros e q. rewrite elem_of_cons. split; [|tauto]. intros [? Hnot]. split; [done|].
    intros (->&[->|Hq]&Hq'); [done|]. by apply Hnot.
  - destruct (leaveParent_ok p id idx K Hb Hk Hkp) as (idx1&->&Hb1&Hf1&Hk1). cbn [obind].
    destruct (IH idx1 _ Hb1 Hk1 Hnd) as (idx'&Hloop&Hb'&Hf'&Hk'); [intros q Hq; split; [by apply Hps'|]; intros [_ ->]; done|].
    exists idx'. split_and!; [done|done|by etrans|]. eapply knows_ext; [|exact Hk']. intros e q. cbn. rewrite elem_of_cons. split.
    + intros [[Hkq Hn1] Hn2]. split; [done|]. intros (->&[->|Hq]&Hq'); [by apply Hn1|]. apply Hn2. split_and!; [done|done|].
      by destruct (pf_objects _ _ Hf1 q (Hlt q (Hps' q Hq))) as [-> _].
    + intros [Hkq Hn]. split; [split; [done|]; intros [-> ->]; apply Hn; auto|]. intros (->&Hq&Hq'). apply Hn. split_and!; [done|by right|].
      by destruct (pf_objects _ _ Hf1 q (Hlt q (Hps' q Hq))) as [<- _].
Qed.

Lemma leaveParents_old id ps : ∀ idx, forEach (leaveParent go id) ps idx = forEach (leaveOldParent go id ∅) ps idx.
Proof using Type.
  clear. induction ps as [|p ps IH]; intros idx; [done|]. cbn [forEach]. unfold leaveOldParent at 1. rewrite decide_False by set_solver.
  destruct (leaveParent go id p idx); cbn [obind]; done.
Qed.
End graph.
