(* ===== verification/NamedPortInv.v ===== *)
(** * The named port index: the invariant, and the operations on endpoints *)
From S2P Require Import Prelude ModelRule SelectorAST UniqueLabels AdaptiveSet GoSet.
From S2P Require Import InheritIndexSpec RestrictionIndex RestrictionIndexSpec NameValueIndex NameValueIndexSpec.
From S2P Require Import CIDR CIDRTrie CIDRTrieCorrect MemberDedup MemberDedupSpec NamedPortIndex NamedPortMembers NamedPortCandidates NamedPortScan NamedPortGraph.
From stdpp Require Import base list gmap numbers strings sorting.
From stdpp Require Import options.

Section inv.
Context `{Countable EpID} (zeroID : EpID).
Abbreviation Index := (SelectorAndNamedPortIndex (EpID := EpID)).
Abbreviation Heap := (list (npParentData (EpID := EpID))).
Implicit Types (idx : Index) (h : Heap).
Abbreviation eps idx := (allItems (endpointKVIdx idx)).
Abbreviation pars idx := (allItems (parentKVIdx idx)).
Abbreviation parentAt idx p := (deref (parentObjects idx) p).

(** ** One endpoint *)
(** The cache holds matching sets only, and all those that the endpoint contributes to. *)
Record ep_ok (sets : gmap string ipSetData) h (d : endpointData) : Prop := {
  eo_cached : adaptive_ok "" (cachedMatchingIPSetIDs d);
  eo_sound s : s ∈ elems (cachedMatchingIPSetIDs d) → matches_set sets h d s;
  eo_complete s : contribution sets h d s ≠ [] → s ∈ elems (cachedMatchingIPSetIDs d);
  eo_nets : Forall net_ok (ed_nets d)
}.

Lemma cached_contribution sets h d s : ep_ok sets h d → cachedContribution sets d s = contribution sets h d s.
Proof.
  intros Hok. unfold cachedContribution. case_decide as Hin.
  - destruct (eo_sound _ _ _ Hok s Hin) as (sd&Hs&Hev). unfold contribution. by rewrite Hs, Hev.
  - destruct (contribution sets h d s) as [|m l] eqn:Hc; [done|]. destruct Hin. apply (eo_complete _ _ _ Hok). by rewrite Hc.
Qed.

Lemma Evaluate_heap h h' d node :
  (∀ p, p ∈ ed_parents d → pd_labels (deref h' p) = pd_labels (deref h p)) → Evaluate node (h', d) = Evaluate node (h, d).
Proof.
  intros Hp. apply Evaluate_ext. intros n. unfold GetHandle, endpointData_Labels, endpointGetHandle. cbn. case_match; [done|].
  induction (ed_parents d) as [|p ps IH]; [done|]. cbn. rewrite Hp by apply list_elem_of_here. case_match; [done|].
  apply IH. intros q Hq. apply Hp. by apply list_elem_of_further.
Qed.

(** A set matters only through its selector and its port, a parent through its labels. *)
Lemma contribution_same sets sets' h h' d s :
  meta <$> sets' !! s = meta <$> sets !! s → (∀ p, p ∈ ed_parents d → pd_labels (deref h' p) = pd_labels (deref h p)) →
  contribution sets' h' d s = contribution sets h d s.
Proof.
  intros Hm Hp. unfold contribution. destruct (sets' !! s) as [s'|], (sets !! s) as [s0|]; try done. injection Hm as Hsel Hpr Hpo.
  rewrite Hsel, (Evaluate_heap h h' d) by done. case_match; [|done]. unfold contrib, CalculateEndpointContribution. by rewrite Hpr, Hpo.
Qed.

Lemma matches_same sets sets' h h' d s :
  meta <$> sets' !! s = meta <$> sets !! s → (∀ p, p ∈ ed_parents d → pd_labels (deref h' p) = pd_labels (deref h p)) →
  matches_set sets' h' d s ↔ matches_set sets h d s.
Proof.
  intros Hm Hp. unfold matches_set. destruct (sets' !! s) as [s'|], (sets !! s) as [s0|]; try done; [|naive_solver]. injection Hm as Hsel _ _.
  split; intros (x&[= <-]&Hev); eexists; (split; [done|]); [rewrite <- Hsel, <- (Evaluate_heap h h' d) by done|rewrite Hsel, (Evaluate_heap h h' d) by done]; done.
Qed.

Lemma ep_ok_same sets sets' h h' d :
  meta <$> sets' = meta <$> sets → (∀ p, p ∈ ed_parents d → pd_labels (deref h' p) = pd_labels (deref h p)) → ep_ok sets h d → ep_ok sets' h' d.
Proof.
  intros Hm Hp [Hc Hs Hcomp Hn].
  assert (Hms : ∀ s, meta <$> sets' !! s = meta <$> sets !! s) by (intros s; rewrite <- !lookup_fmap; by rewrite Hm).
  split; [done| | |done].
  - intros s Hin. apply (matches_same sets sets' h h'); auto.
  - intros s. rewrite (contribution_same sets sets' h h') by auto. apply Hcomp.
Qed.

Lemma cachedContribution_meta sets sets' d s : meta <$> sets' = meta <$> sets → cachedContribution sets' d s = cachedContribution sets d s.
Proof.
  intros Hm. unfold cachedContribution. case_decide; [|done]. pose proof (f_equal (lookup s) Hm) as Heq. rewrite !lookup_fmap in Heq.
  destruct (sets' !! s), (sets !! s); try done. injection Heq as _ Hpr Hpo. unfold contrib, CalculateEndpointContribution. by rewrite Hpr, Hpo.
Qed.

(** ** All references *)
Definition endpointRefs idx (items : gmap EpID endpointAddr) (s : string) : list IPSetMember :=
  map_to_list items ≫= λ '(_, a), cachedContribution (ipSetDataByID idx) (endpointAt idx a) s.

Definition epWeight idx (a : endpointAddr) : nat := S (weight (ed_nets (endpointAt idx a)) (ed_ports (endpointAt idx a))).
Definition total idx (items : gmap EpID endpointAddr) : nat := sum_list_with (λ '(_, a), epWeight idx a) (map_to_list items).

Lemma endpointRefs_insert idx items e a s :
  items !! e = None → endpointRefs idx (<[e := a]> items) s ≡ₚ cachedContribution (ipSetDataByID idx) (endpointAt idx a) s ++ endpointRefs idx items s.
Proof. intros He. unfold endpointRefs. rewrite map_to_list_insert by done. by rewrite bind_cons. Qed.

Lemma endpointRefs_delete idx items e a s :
  items !! e = Some a → endpointRefs idx items s ≡ₚ cachedContribution (ipSetDataByID idx) (endpointAt idx a) s ++ endpointRefs idx (delete e items) s.
Proof. intros He. rewrite <- (endpointRefs_insert idx (delete e items) e a s) by apply lookup_delete_eq. by rewrite insert_delete_id. Qed.

Lemma total_insert idx items e a : items !! e = None → total idx (<[e := a]> items) = epWeight idx a + total idx items.
Proof. intros He. unfold total. by rewrite map_to_list_insert. Qed.

Lemma total_delete idx items e a : items !! e = Some a → total idx items = epWeight idx a + total idx (delete e items).
Proof. intros He. rewrite <- (total_insert idx (delete e items) e a) by apply lookup_delete_eq. by rewrite insert_delete_id. Qed.

Lemma endpointRefs_ext idx idx' items s :
  (∀ e a, items !! e = Some a → cachedContribution (ipSetDataByID idx') (endpointAt idx' a) s = cachedContribution (ipSetDataByID idx) (endpointAt idx a) s) →
  endpointRefs idx' items s = endpointRefs idx items s.
Proof.
  intros Heq. unfold endpointRefs. assert (Hin : ∀ e a, (e, a) ∈ map_to_list items → items !! e = Some a) by (intros e a; apply elem_of_map_to_list).
  induction (map_to_list items) as [|[e a] l IH]; [done|]. rewrite !bind_cons, IH; [|intros e' a' ?; apply Hin; by apply list_elem_of_further].
  f_equal. apply (Heq e), Hin, list_elem_of_here.
Qed.

Lemma total_ext idx idx' items : (∀ e a, items !! e = Some a → epWeight idx' a = epWeight idx a) → total idx' items = total idx items.
Proof.
  intros Heq. unfold total. assert (Hin : ∀ e a, (e, a) ∈ map_to_list items → items !! e = Some a) by (intros e a; apply elem_of_map_to_list).
  induction (map_to_list items) as [|[e a] l IH]; [done|]. cbn [sum_list_with]. rewrite IH; [|intros e' a' ?; apply Hin; by apply list_elem_of_further].
  by rewrite (Heq e a) by (apply Hin, list_elem_of_here).
Qed.

Lemma cachedContribution_length idx d s : sets_ok idx → length (cachedContribution (ipSetDataByID idx) d s) ≤ weight (ed_nets d) (ed_ports d).
Proof.
  intros Hok. unfold cachedContribution. case_decide; [|cbn; lia]. destruct (ipSetDataByID idx !! s) as [sd|] eqn:Hs; [|cbn; lia].
  by destruct (contrib_cases d sd (so_protocol _ Hok s sd Hs)) as (_&?&_).
Qed.

Lemma endpointRefs_length idx items s : sets_ok idx → length (endpointRefs idx items s) + size items ≤ total idx items.
Proof.
  intros Hok. unfold endpointRefs, total. rewrite <- length_map_to_list. induction (map_to_list items) as [|[e a] l IH]; [done|].
  rewrite bind_cons, length_app. cbn [sum_list_with length]. pose proof (cachedContribution_length idx (endpointAt idx a) s Hok).
  unfold epWeight at 1. lia.
Qed.

(** ** The invariant *)
Record np_inv (P0 : Client) (B : nat) idx : Prop := {
  ni_graph : graph_ok zeroID idx;
  ni_sets : sets_ok idx;
  ni_ep e a : eps idx !! e = Some a → ep_ok (ipSetDataByID idx) (parentObjects idx) (endpointAt idx a);
  ni_members : members_ok P0 idx (endpointRefs idx (eps idx));
  ni_bound : total idx (eps idx) ≤ B
}.

(** Counts cannot overflow, nor the numbers of endpoints, when there are less than [2^62]
    potential references. *)
Definition small (B : nat) : Prop := (Z.of_nat B < 2 ^ 62)%Z.

Lemma child_length idx e a p : graph_ok zeroID idx → eps idx !! e = Some a → p ∈ ed_parents (endpointAt idx a) → p < length (parentObjects idx).
Proof. intros Hg Ha Hp. destruct (gr_child _ _ Hg e a p Ha Hp) as [Hpar _]. by apply (gr_parent_addr _ _ Hg) in Hpar as [? _]. Qed.

(** Putting the parts together after the parents have changed. *)
Lemma np_inv_assemble P0 B idx idx' :
  parents_frame idx idx' → base_ok zeroID idx' → knows_ok idx' (childOf idx') → (∀ e a, eps idx !! e = Some a → NoDup (ed_parents (endpointAt idx a))) →
  sets_ok idx → (∀ e a, eps idx !! e = Some a → ep_ok (ipSetDataByID idx) (parentObjects idx) (endpointAt idx a)) →
  (∀ e a p, eps idx !! e = Some a → p ∈ ed_parents (endpointAt idx a) → p < length (parentObjects idx)) →
  members_ok P0 idx (endpointRefs idx (eps idx)) → total idx (eps idx) ≤ B → np_inv P0 B idx'.
Proof.
  intros Hf Hb Hk Hnd Hsets Hep Hlen Hmem Htot. pose proof Hf as [Hfe Hfs Hfc Hfsu Hfo Hfev _ Hfp _].
  assert (Hat : ∀ a, endpointAt idx' a = endpointAt idx a) by (intros a; unfold endpointAt; by rewrite Hfo).
  assert (Hrefs : ∀ s, endpointRefs idx' (eps idx') s = endpointRefs idx (eps idx) s).
  { intros s. rewrite Hfe. apply endpointRefs_ext. intros e a _. by rewrite Hfs, Hat. }
  split.
  - apply graph_split. split_and!; [done|done|]. intros e a. rewrite Hfe, Hat. apply Hnd.
  - eapply sets_ok_frame; [by rewrite Hfs|done|done].
  - intros e a. rewrite Hfe, Hat. intros Ha. apply (ep_ok_same (ipSetDataByID idx) _ (parentObjects idx)); [by rewrite Hfs| |by apply (Hep e)].
    intros p Hp. by destruct (Hfp p (Hlen e a p Ha Hp)).
  - apply (members_ok_perm P0 idx' (endpointRefs idx (eps idx))); [intros s; by rewrite Hrefs|]. by apply (members_ok_ext P0 idx).
  - rewrite Hfe. erewrite total_ext; [exact Htot|]. intros e a _. unfold epWeight. by rewrite Hat.
Qed.

Lemma np_inv_parents P0 B idx idx' : np_inv P0 B idx → parents_frame idx idx' → base_ok zeroID idx' → knows_ok idx' (childOf idx) → np_inv P0 B idx'.
Proof.
  intros [Hg Hs He Hm Hb] Hf Hba Hk. apply (np_inv_assemble P0 B idx); try done.
  - eapply knows_ext; [|exact Hk]. intros e q. unfold childOf, endpointAt. by rewrite (pf_endpoints _ _ Hf), (pf_endpointObjects _ _ Hf).
  - intros e a Ha. by apply (gr_nodup _ _ Hg e).
  - intros e a p Ha Hp. by apply (child_length idx e a).
Qed.

(** ** What the index knows about an endpoint *)
Definition EndpointInfo : Type := gmap string string * list CIDR * list EndpointPort * list string.

Definition describeAt idx (a : endpointAddr) : EndpointInfo :=
  (uniquelabels.entries (ed_labels (endpointAt idx a)), ed_nets (endpointAt idx a), ed_ports (endpointAt idx a),
   (λ p, pd_id (parentAt idx p)) <$> ed_parents (endpointAt idx a)).

Definition describe idx (e : EpID) : option EndpointInfo := describeAt idx <$> eps idx !! e.

Lemma describeAt_strip idx idx' a :
  strip (endpointAt idx' a) = strip (endpointAt idx a) →
  (∀ p, p ∈ ed_parents (endpointAt idx a) → pd_id (parentAt idx' p) = pd_id (parentAt idx p)) → describeAt idx' a = describeAt idx a.
Proof.
  intros [= Hl Hn Hp Hps] Hids. unfold describeAt. rewrite Hl, Hn, Hp, Hps. f_equal. apply list_fmap_ext. intros i p Hi. apply Hids. by eapply list_elem_of_lookup_2.
Qed.

Lemma describe_parents idx idx' e : graph_ok zeroID idx → parents_frame idx idx' → describe idx' e = describe idx e.
Proof.
  intros Hg Hf. unfold describe. rewrite (pf_endpoints _ _ Hf). destruct (eps idx !! e) as [a|] eqn:Ha; [|done]. cbn. f_equal.
  apply describeAt_strip; [unfold endpointAt; by rewrite (pf_endpointObjects _ _ Hf)|]. intros p Hp.
  by destruct (pf_objects _ _ Hf p (child_length idx e a p Hg Ha Hp)).
Qed.

Context (go : GoOrders EpID) `{!GoOrdersLaws go}.

Lemma labelHandles_entries m : labelHandles go m ≡ₚ map_to_list (uniquelabels.entries m).
Proof using GoOrdersLaws0. apply law_Labels. Qed.

(** ** Taking an endpoint out *)
Lemma removeEndpoint_ok idx id a :
  base_ok zeroID idx → eps idx !! id = Some a →
  ∃ es, removeEndpoint zeroID go id a idx = Ret (set_endpoints es idx) ∧ allItems es = delete id (eps idx) ∧ NameValueIndexSpec.index_ok zeroID (endpointLabels idx) es.
Proof using GoOrdersLaws0.
  intros Hb Ha. unfold removeEndpoint.
  destruct (Remove_index_ok zeroID (rangeIDs go) law_IDs (endpointLabels idx) (labelHandles go (ed_labels (endpointAt idx a))) id a (endpointKVIdx idx)
    (ba_endpoints _ _ Hb) Ha (labelHandles_entries _)) as (es&->&Hes&Hall). by exists es.
Qed.

Lemma takeOut_ok P0 B idx id :
  np_inv P0 B idx →
  ∃ contribs es,
    match eps idx !! id with
    | None => Ret (∅, idx)
    | Some old => let! contrib := RecalcCachedContributions go (endpointAt idx old) idx in let! idx1 := removeEndpoint zeroID go id old idx in Ret (contrib, idx1)
    end = Ret (contribs, set_endpoints es idx) ∧ allItems es = delete id (eps idx) ∧ NameValueIndexSpec.index_ok zeroID (endpointLabels idx) es ∧
    (∀ s, endpointRefs idx (eps idx) s ≡ₚ default [] (contribs !! s) ++ endpointRefs idx (delete id (eps idx)) s) ∧
    (∀ s, is_Some (contribs !! s) → is_Some (ipSetDataByID idx !! s)).
Proof using GoOrdersLaws0.
  intros Hinv. pose proof (ni_graph _ _ _ Hinv) as Hg. apply graph_split in Hg as (Hb&_&_). destruct (eps idx !! id) as [old|] eqn:Hold.
  - pose proof (ni_ep _ _ _ Hinv id old Hold) as Hep.
    destruct (Recalc_ok go idx old (ni_sets _ _ _ Hinv) (eo_cached _ _ _ Hep)) as (m&->&Hm&Hkeys).
    { intros s Hs. apply (eo_sound _ _ _ Hep) in Hs as (sd&Hsd&_). eauto. }
    cbn [obind]. destruct (removeEndpoint_ok idx id old Hb Hold) as (es&->&Hall&Hes). cbn [obind]. exists m, es. split_and!; [done..| |done].
    intros s. by rewrite Hm, (endpointRefs_delete idx (eps idx) id old s) by done.
  - exists ∅, (endpointKVIdx idx). rewrite delete_id by done. split_and!; [by destruct idx|done|apply Hb| |by intros s [? ?]].
    intros s. by rewrite lookup_empty.
Qed.

(** ** Putting the new data in *)
Record replaced idx (id : EpID) (d : endpointData) idx' : Prop := {
  rp_eps : eps idx' = <[id := length (endpointObjects idx)]> (eps idx);
  rp_index : NameValueIndexSpec.index_ok zeroID (endpointLabels idx') (endpointKVIdx idx');
  rp_parents : parentKVIdx idx' = parentKVIdx idx;
  rp_parentObjects : parentObjects idx' = parentObjects idx;
  rp_sets : meta <$> ipSetDataByID idx' = meta <$> ipSetDataByID idx;
  rp_candidates : selectorCandidatesIdx idx' = selectorCandidatesIdx idx;
  rp_length : length (endpointObjects idx') = S (length (endpointObjects idx));
  rp_old b : b < length (endpointObjects idx) → endpointAt idx' b = endpointAt idx b;
  rp_new : strip (endpointAt idx' (length (endpointObjects idx))) = strip d;
  rp_cached : cached_ok idx' (length (endpointObjects idx));
  rp_matches s : s ∈ cached idx' (length (endpointObjects idx)) ↔ matches_set (ipSetDataByID idx) (parentObjects idx) d s
}.

Lemma endpointAt_app idx d b : b < length (endpointObjects idx) → endpointAt (set_endpointObjects (λ o, o ++ [d]) idx) b = endpointAt idx b.
Proof. intros Hb. unfold endpointAt. cbn. by rewrite lookup_app_l. Qed.

Lemma endpointAt_new idx d : endpointAt (set_endpointObjects (λ o, o ++ [d]) idx) (length (endpointObjects idx)) = d.
Proof. unfold endpointAt. cbn. by rewrite lookup_app_r, Nat.sub_diag. Qed.

Lemma putIn_ok P0 B idx id d contribs es :
  np_inv P0 B idx → Forall net_ok (ed_nets d) → small (B + S (weight (ed_nets d) (ed_ports d))) →
  allItems es = delete id (eps idx) → NameValueIndexSpec.index_ok zeroID (endpointLabels idx) es →
  (∀ s, endpointRefs idx (eps idx) s ≡ₚ default [] (contribs !! s) ++ endpointRefs idx (delete id (eps idx)) s) →
  (∀ s, is_Some (contribs !! s) → is_Some (ipSetDataByID idx !! s)) →
  let a := length (endpointObjects idx) in
  ∃ idx3 idx', scanEndpointAgainstIPSets go a contribs (set_endpointObjects (λ o, o ++ [d]) (set_endpoints es idx)) = Ret idx3 ∧
    addEndpoint zeroID go id a idx3 = Ret idx' ∧ replaced idx id d idx' ∧
    members_ok P0 idx' (λ s, contribution (ipSetDataByID idx) (parentObjects idx) d s ++ endpointRefs idx (delete id (eps idx)) s).
Proof using GoOrdersLaws0.
  intros Hinv Hnets Hsmall Hall Hes Hbag Hkeys a. set (idx2 := set_endpointObjects (λ o, o ++ [d]) (set_endpoints es idx)).
  pose proof (ni_sets _ _ _ Hinv) as Hso. pose proof (ni_bound _ _ _ Hinv) as Hb.
  assert (Hd : endpointAt idx2 a = d) by apply (endpointAt_new (set_endpoints es idx)).
  destruct (scanEndpoint_ok go P0 a idx2 (endpointRefs idx (eps idx)) (endpointRefs idx (delete id (eps idx))) contribs) as (idx3&Hscan&Hmem3&Hfr3&Hc3&Hel3).
  { apply (members_ok_ext P0 idx); try done. apply Hinv. } { by eapply sets_ok_frame; [..|exact Hso]. } { unfold idx2, a. cbn. rewrite length_app. cbn. lia. }
  { by rewrite Hd. } { done. } { done. }
  { intros s. rewrite Hd. pose proof (endpointRefs_length idx (eps idx) s Hso). unfold small in Hsmall. lia. }
  rewrite Hd in Hmem3, Hel3. change (ipSetDataByID idx2) with (ipSetDataByID idx) in *. change (parentObjects idx2) with (parentObjects idx) in *.
  assert (Hout : ∀ b, b < a → endpointAt idx3 b = endpointAt idx b).
  { intros b Hlt. rewrite (sf_others _ _ _ Hfr3 b) by lia. by apply (endpointAt_app (set_endpoints es idx)). }
  assert (Hdel : ∀ e b, delete id (eps idx) !! e = Some b → b < a).
  { intros e b [_ Hbe]%lookup_delete_Some. by apply (gr_endpoint_addr _ _ (ni_graph _ _ _ Hinv) e). }
  assert (Hidx : NameValueIndexSpec.index_ok zeroID (endpointLabels idx3) (endpointKVIdx idx3)).
  { rewrite (sf_endpoints _ _ _ Hfr3). eapply index_ok_ext; [|exact Hes]. intros e b He. cbn in He. rewrite Hall in He. unfold endpointLabels.
    by rewrite Hout by (by apply (Hdel e)). }
  destruct (Add_index_ok zeroID (endpointLabels idx3) (labelHandles go (ed_labels (endpointAt idx3 a))) id a (endpointKVIdx idx3) Hidx) as (es'&Hadd&Hes'&Hall').
  { rewrite (sf_endpoints _ _ _ Hfr3). cbn. rewrite Hall. apply lookup_delete_eq. } { apply labelHandles_entries. }
  exists idx3, (set_endpoints es' idx3). unfold addEndpoint. rewrite Hadd. cbn [obind]. split_and!; [done|done| |].
  - pose proof Hfr3 as [Hfe Hfp Hfs Hfc Hfo Hfl _ Hfst]. split; try done.
    + cbn. rewrite Hall', Hfe. cbn. by rewrite Hall, insert_delete_eq.
    + cbn. rewrite Hfl. unfold idx2. cbn. rewrite length_app. cbn. lia.
    + by rewrite <- Hd.
  - by apply (members_ok_ext P0 idx3).
Qed.

Section replaced.
Context P0 B idx id d idx' (Hinv : np_inv P0 B idx) (Hrep : replaced idx id d idx') (Hnets : Forall net_ok (ed_nets d)).
Abbreviation new := (length (endpointObjects idx)).

Lemma replaced_lookup e a : eps idx' !! e = Some a → e = id ∧ a = new ∨ e ≠ id ∧ eps idx !! e = Some a ∧ a < new.
Proof using Hinv Hrep.
  rewrite (rp_eps _ _ _ _ Hrep). intros [[<- <-]|[Hne Ha]]%lookup_insert_Some; [by left|right]. split_and!; [done|done|].
  by apply (gr_endpoint_addr _ _ (ni_graph _ _ _ Hinv) e).
Qed.

Lemma replaced_sets : sets_ok idx'.
Proof using Hinv Hrep. eapply sets_ok_frame; [apply Hrep|apply Hrep|apply Hinv]. Qed.

Lemma replaced_new_ok : ep_ok (ipSetDataByID idx') (parentObjects idx') (endpointAt idx' new).
Proof using Hrep Hnets.
  pose proof (rp_new _ _ _ _ Hrep) as Hst. rewrite (rp_parentObjects _ _ _ _ Hrep). split.
  - apply Hrep.
  - intros s Hs. apply (matches_set_ext (ipSetDataByID idx) _ _ d); [apply Hrep|done|]. by apply (rp_matches _ _ _ _ Hrep).
  - intros s. rewrite (contribution_ext (ipSetDataByID idx) _ _ d) by (done || apply Hrep). intros Hne. apply (rp_matches _ _ _ _ Hrep).
    unfold contribution in Hne. unfold matches_set. destruct (ipSetDataByID idx !! s) as [sd|]; [|done]. exists sd. split; [done|]. by case_match.
  - by injection Hst as _ -> _ _.
Qed.

Lemma replaced_ok e a : eps idx' !! e = Some a → ep_ok (ipSetDataByID idx') (parentObjects idx') (endpointAt idx' a).
Proof using Hinv Hrep Hnets.
  intros [[-> ->]|(_&Ha&Hlt)]%replaced_lookup; [apply replaced_new_ok|]. rewrite (rp_old _ _ _ _ Hrep) by done.
  apply (ep_ok_same (ipSetDataByID idx) _ (parentObjects idx)); [apply Hrep|intros p _; by rewrite (rp_parentObjects _ _ _ _ Hrep)|].
  by apply (ni_ep _ _ _ Hinv e).
Qed.

Lemma replaced_delete : delete id (eps idx') = delete id (eps idx).
Proof using Hrep. by rewrite (rp_eps _ _ _ _ Hrep), delete_insert_eq. Qed.

Lemma replaced_rest s : endpointRefs idx' (delete id (eps idx)) s = endpointRefs idx (delete id (eps idx)) s.
Proof using Hinv Hrep.
  apply endpointRefs_ext. intros e a [_ Ha]%lookup_delete_Some. pose proof (gr_endpoint_addr _ _ (ni_graph _ _ _ Hinv) e a Ha) as Hlt.
  rewrite (rp_old _ _ _ _ Hrep) by done. apply cachedContribution_meta, Hrep.
Qed.

Lemma replaced_members :
  members_ok P0 idx' (λ s, contribution (ipSetDataByID idx) (parentObjects idx) d s ++ endpointRefs idx (delete id (eps idx)) s) →
  members_ok P0 idx' (endpointRefs idx' (eps idx')).
Proof using Hinv Hrep Hnets.
  apply members_ok_perm. intros s. assert (Hid : eps idx' !! id = Some new) by (rewrite (rp_eps _ _ _ _ Hrep); apply lookup_insert_eq).
  rewrite (endpointRefs_delete idx' (eps idx') id new s Hid), replaced_delete, replaced_rest, (cached_contribution _ _ _ s replaced_new_ok).
  rewrite (rp_parentObjects _ _ _ _ Hrep), (contribution_ext (ipSetDataByID idx) (ipSetDataByID idx') _ d (endpointAt idx' new)); [done|apply Hrep|apply Hrep].
Qed.

Lemma replaced_total : total idx' (eps idx') ≤ B + S (weight (ed_nets d) (ed_ports d)).
Proof using Hinv Hrep.
  assert (Hid : eps idx' !! id = Some new) by (rewrite (rp_eps _ _ _ _ Hrep); apply lookup_insert_eq).
  rewrite (total_delete idx' _ id new Hid), replaced_delete. pose proof (rp_new _ _ _ _ Hrep) as [= _ Hn Hp _]. unfold epWeight. rewrite Hn, Hp.
  rewrite (total_ext idx).
  - pose proof (ni_bound _ _ _ Hinv). destruct (eps idx !! id) as [old|] eqn:Hold; [rewrite (total_delete idx _ id old Hold) in *; lia|].
    rewrite delete_id by done. lia.
  - intros e a [_ Ha]%lookup_delete_Some. unfold epWeight. rewrite (rp_old _ _ _ _ Hrep); [done|]. by apply (gr_endpoint_addr _ _ (ni_graph _ _ _ Hinv) e).
Qed.

Lemma replaced_base : base_ok zeroID idx'.
Proof using Hinv Hrep.
  pose proof (ni_graph _ _ _ Hinv) as Hg. split.
  - apply Hrep.
  - rewrite (rp_parents _ _ _ _ Hrep), (rp_parentObjects _ _ _ _ Hrep). apply Hg.
  - intros e a Ha%replaced_lookup. rewrite (rp_length _ _ _ _ Hrep). destruct Ha as [[_ ->]|(_&_&?)]; lia.
  - intros e e' a Ha%replaced_lookup Ha'%replaced_lookup. destruct Ha as [[-> ->]|(_&Ha&Hlt)], Ha' as [[-> Heq]|(_&Ha'&Hlt')]; [done|lia|lia|].
    by apply (gr_endpoint_inj _ _ Hg e e' a).
  - rewrite (rp_parents _ _ _ _ Hrep), (rp_parentObjects _ _ _ _ Hrep). apply Hg.
Qed.

Lemma replaced_knows : knows_ok idx' (childOf idx).
Proof using Hinv Hrep.
  pose proof (ni_graph _ _ _ Hinv) as Hg. apply graph_split in Hg as (_&[Hch Hme]&_).
  split; rewrite (rp_parents _ _ _ _ Hrep), (rp_parentObjects _ _ _ _ Hrep); done.
Qed.
End replaced.
End inv.
