(* ===== verification/NamedPortOps.v ===== *)
(** * The named port index: every operation keeps the invariant *)
From S2P Require Import Prelude ModelRule SelectorAST UniqueLabels AdaptiveSet GoSet.
From S2P Require Import InheritIndexSpec RestrictionIndex RestrictionIndexSpec NameValueIndex NameValueIndexSpec.
From S2P Require Import CIDR CIDRTrie CIDRTrieCorrect MemberDedup MemberDedupSpec.
From S2P Require Import NamedPortIndex NamedPortMembers NamedPortCandidates NamedPortScan NamedPortGraph NamedPortInv.
From stdpp Require Import base list gmap numbers strings sorting.
From stdpp Require Import options.

Section ops.
Context `{Countable EpID} (zeroID : EpID) (go : GoOrders EpID) `{!GoOrdersLaws go}.
Abbreviation Index := (SelectorAndNamedPortIndex (EpID := EpID)).
Implicit Types (idx : Index).
Abbreviation eps idx := (allItems (endpointKVIdx idx)).
Abbreviation pars idx := (allItems (parentKVIdx idx)).
Abbreviation parentAt idx p := (deref (parentObjects idx) p).
Abbreviation sets_same idx idx' := (meta <$> ipSetDataByID idx' = meta <$> ipSetDataByID idx).

Lemma nonempty_entries (labels : uniquelabels.Map) :
  uniquelabels.entries (if (0 <? uniquelabels.Len labels)%nat then labels else uniquelabels.Nil) = uniquelabels.entries labels.
Proof.
  destruct (Nat.ltb_spec 0 (uniquelabels.Len labels)) as [|Hz]; [done|]. unfold uniquelabels.Len in Hz. cbn. symmetry. apply map_size_empty_inv. lia.
Qed.

Lemma endpoint_Equals_spec d d' :
  endpoint_Equals d d' = true →
  uniquelabels.entries (ed_labels d) = uniquelabels.entries (ed_labels d') ∧ ed_nets d = ed_nets d' ∧ ed_ports d = ed_ports d' ∧ ed_parents d = ed_parents d'.
Proof.
  unfold endpoint_Equals. destruct (uniquelabels.Equals (ed_labels d) (ed_labels d')) eqn:Hl; [|done]. cbn [negb]. apply uniquelabels.Equals_spec in Hl.
  repeat case_decide; done.
Qed.

(** The identifiers of parents in the index tell them apart. *)
Lemma parent_id_inj idx p q :
  pars idx !! pd_id (parentAt idx p) = Some p → pars idx !! pd_id (parentAt idx q) = Some q → pd_id (parentAt idx p) = pd_id (parentAt idx q) → p = q.
Proof. intros Hp Hq Heq. rewrite Heq in Hp. congruence. Qed.

Lemma UpdateEndpointOrSet_ok P0 B idx id labels nets ports pids :
  np_inv zeroID P0 B idx → Forall net_ok nets → NoDup pids → small (B + S (weight nets ports)) →
  ∃ idx', UpdateEndpointOrSet zeroID go id labels nets ports pids idx = Ret idx' ∧ np_inv zeroID P0 (B + S (weight nets ports)) idx' ∧
    sets_same idx idx' ∧ (∀ pid, labelsByID idx' pid = labelsByID idx pid) ∧
    ∀ e, describe idx' e = if decide (e = id) then Some (uniquelabels.entries labels, nets, ports, pids) else describe idx e.
Proof using GoOrdersLaws0.
  intros Hinv Hnets Hnd Hsmall. unfold UpdateEndpointOrSet. pose proof (ni_graph _ _ _ _ Hinv) as Hg. pose proof Hg as (Hb&Hk&_)%graph_split.
  destruct (np_getOrCreateParents_ok zeroID go pids idx (childOf idx) Hb Hk) as (idx1&ps&->&Hb1&Hf1&Hk1&Hids&Hps&_). cbn [obind].
  pose proof (np_inv_parents zeroID P0 B idx idx1 Hinv Hf1 Hb1 Hk1) as Hinv1. pose proof (ni_graph _ _ _ _ Hinv1) as Hg1.
  assert (Hdesc1 : ∀ e, describe idx1 e = describe idx e) by (intros e; by apply (describe_parents zeroID)).
  assert (HndP : NoDup ps) by (apply (NoDup_fmap_1 (λ p, pd_id (parentAt idx1 p))); by rewrite Hids).
  set (d := MkEndpointData (if (0 <? uniquelabels.Len labels)%nat then labels else uniquelabels.Nil) nets ports ps NewAdaptive).
  unfold NameValueIndex.Get. destruct (match eps idx1 !! id with Some a => endpoint_Equals (endpointAt idx1 a) d | None => false end) eqn:Heq.
  { destruct (eps idx1 !! id) as [a|] eqn:Ha; [|done]. exists idx1. split_and!; [done| |by rewrite (pf_sets _ _ Hf1)|apply Hf1|].
    - destruct Hinv1. split; try done. lia.
    - intros e. case_decide as He; [|done]. subst e. unfold describe, describeAt. rewrite Ha. cbn.
      apply endpoint_Equals_spec in Heq as (->&->&->&->). unfold d. cbn [ed_labels ed_nets ed_ports ed_parents]. by rewrite nonempty_entries, Hids. }
  clear Heq. destruct (takeOut_ok zeroID go P0 B idx1 id Hinv1) as (contribs&es&->&Hall&Hes&Hbag&Hkeys). cbn [obind endpointObjects set_endpoints].
  destruct (putIn_ok zeroID go P0 B idx1 id d contribs es Hinv1 Hnets Hsmall Hall Hes Hbag Hkeys) as (idx3&idx4&->&Hadd&Hrep&Hmem4).
  cbn [obind]. rewrite Hadd. cbn [obind]. set (new := length (endpointObjects idx1)) in *.
  pose proof (replaced_base zeroID P0 B idx1 id d idx4 Hinv1 Hrep) as Hb4. pose proof (replaced_knows zeroID P0 B idx1 id d idx4 Hinv1 Hrep) as Hk4.
  assert (Hps4 : ∀ p, p ∈ ps → pars idx4 !! pd_id (parentAt idx4 p) = Some p) by (by rewrite (rp_parents _ _ _ _ _ Hrep), (rp_parentObjects _ _ _ _ _ Hrep)).
  pose proof (AddEndpointIDs_ok zeroID id ps idx4 _ Hb4 Hk4 Hps4) as (Hb5&Hf5&Hkv5&Hk5). set (idx5 := foldl _ idx4 ps) in *.
  set (oldParents := match eps idx1 !! id with Some a => ed_parents (endpointAt idx1 a) | None => [] end).
  assert (Hold : ∀ p, p ∈ oldParents ↔ childOf idx1 id p).
  { intros p. unfold oldParents, childOf. destruct (eps idx1 !! id) as [a|]; [|set_solver]. split; [by eauto|]. intros (?&[= <-]&?). done. }
  set (keep := list_to_set ((λ p, pd_id (parentAt idx5 p)) <$> ps) : gset string).
  destruct (leaveOldParents_ok zeroID go id keep oldParents idx5 _ Hb5 Hk5) as (idx6&->&Hb6&Hf6&Hk6).
  { unfold oldParents. destruct (eps idx1 !! id) as [a|] eqn:Ha; [by apply (gr_nodup _ _ Hg1 id)|constructor]. } { intros p Hp. left. by apply Hold. }
  assert (Hf46 : parents_frame idx4 idx6) by (by etrans).
  pose proof (rp_new _ _ _ _ _ Hrep) as [= Hnl Hnn Hnp Hnps]. fold new in Hnl, Hnn, Hnp, Hnps.
  assert (Hat6 : ∀ a, endpointAt idx6 a = endpointAt idx4 a) by (intros a; unfold endpointAt; by rewrite (pf_endpointObjects _ _ Hf46)).
  assert (Hkeep : ∀ p, childOf idx1 id p ∨ p ∈ ps → pd_id (parentAt idx5 p) ∈ keep ↔ p ∈ ps).
  { intros p Hp. assert (Hp5 : ∀ q, childOf idx1 id q ∨ q ∈ ps → pars idx5 !! pd_id (parentAt idx5 q) = Some q).
    { intros q Hq. apply (kn_child _ _ Hk5 id q). tauto. }
    unfold keep. rewrite elem_of_list_to_set, list_elem_of_fmap. split; [|by eauto]. intros (q&Heq&Hq).
    by rewrite (parent_id_inj idx5 p q (Hp5 p Hp) (Hp5 q (or_intror Hq)) Heq). }
  assert (Hchild6 : ∀ e p, childOf idx6 e p ↔ if decide (e = id) then p ∈ ps else childOf idx1 e p).
  { intros e p. unfold childOf. rewrite (pf_endpoints _ _ Hf46), (rp_eps _ _ _ _ _ Hrep). setoid_rewrite Hat6. case_decide as He.
    - subst e. rewrite lookup_insert_eq. split; [intros (a&[= <-]&Hp); by rewrite <- Hnps|]. intros Hp. exists new. split; [done|by rewrite Hnps].
    - rewrite lookup_insert_ne by done. split; intros (a&Ha&Hp); exists a; (split; [done|]); pose proof (gr_endpoint_addr _ _ Hg1 e a Ha) as Hlt;
        [rewrite <- (rp_old _ _ _ _ _ Hrep a Hlt)|rewrite (rp_old _ _ _ _ _ Hrep a Hlt)]; done. }
  exists idx6. split_and!; [done| | | |].
  - apply (np_inv_assemble zeroID P0 _ idx4); [done|done| | |by eapply replaced_sets|by eapply replaced_ok| | |by eapply (replaced_total zeroID P0 B idx1 id d)].
    + eapply knows_ext; [|exact Hk6]. intros e p. rewrite Hchild6. case_decide as He; [subst e|naive_solver]. rewrite Hold.
      destruct (decide (p ∈ ps)) as [Hp|Hp]; [|naive_solver]. pose proof (proj2 (Hkeep p (or_intror Hp)) Hp). tauto.
    + intros e a Ha. apply (replaced_lookup zeroID P0 B idx1 id d idx4 Hinv1 Hrep) in Ha as [[_ ->]|(_&Ha&Hlt)]; [fold new; by rewrite Hnps|].
      rewrite (rp_old _ _ _ _ _ Hrep a Hlt). by apply (gr_nodup _ _ Hg1 e).
    + intros e a p Ha Hp. rewrite (rp_parentObjects _ _ _ _ _ Hrep). apply (replaced_lookup zeroID P0 B idx1 id d idx4 Hinv1 Hrep) in Ha as [[_ ->]|(_&Ha&Hlt)].
      * fold new in Hp. rewrite Hnps in Hp. by apply Hps, (ba_parent_addr _ _ Hb1) in Hp as [? _].
      * rewrite (rp_old _ _ _ _ _ Hrep a Hlt) in Hp. by apply (child_length zeroID idx1 e a).
    + by eapply replaced_members.
  - rewrite (pf_sets _ _ Hf46), (rp_sets _ _ _ _ _ Hrep). by rewrite (pf_sets _ _ Hf1).
  - intros pid. rewrite (pf_labels _ _ Hf46), <- (pf_labels _ _ Hf1). unfold labelsByID. by rewrite (rp_parents _ _ _ _ _ Hrep), (rp_parentObjects _ _ _ _ _ Hrep).
  - intros e. rewrite <- Hdesc1. unfold describe. rewrite (pf_endpoints _ _ Hf46), (rp_eps _ _ _ _ _ Hrep). case_decide as He.
    + subst e. rewrite lookup_insert_eq. cbn. unfold describeAt. fold new. rewrite Hat6, Hnl, Hnn, Hnp, Hnps. unfold d. cbn [ed_labels ed_nets ed_ports ed_parents]. rewrite nonempty_entries. f_equal. f_equal.
      rewrite <- Hids. apply list_fmap_ext. intros i p Hi%list_elem_of_lookup_2. pose proof (Hps p Hi) as [Hlt _]%(ba_parent_addr _ _ Hb1).
      rewrite <- (rp_parentObjects _ _ _ _ _ Hrep) in Hlt |- *. by destruct (pf_objects _ _ Hf46 p Hlt).
    + rewrite lookup_insert_ne by done. destruct (eps idx1 !! e) as [a|] eqn:Ha; [|done]. cbn. f_equal. pose proof (gr_endpoint_addr _ _ Hg1 e a Ha) as Hlt.
      apply describeAt_strip; [by rewrite Hat6, (rp_old _ _ _ _ _ Hrep a Hlt)|]. intros p Hp. pose proof (child_length zeroID idx1 e a p Hg1 Ha Hp) as Hpl.
      rewrite <- (rp_parentObjects _ _ _ _ _ Hrep) in Hpl |- *. by destruct (pf_objects _ _ Hf46 p Hpl).
Qed.

(** ** Deleting an endpoint *)
Lemma frame_base idx idx' : frame idx idx' → base_ok zeroID idx → base_ok zeroID idx'.
Proof.
  intros [He Hp _ _ Ho Hpo] [Hi Hpi Ha Hinj Hpa].
  split; rewrite ?He, ?Hp, ?Ho, ?Hpo; try done. unfold endpointLabels, endpointAt. by rewrite Ho.
Qed.

Lemma frame_knows idx idx' K : frame idx idx' → knows_ok idx K → knows_ok idx' K.
Proof. intros [_ Hp _ _ _ Hpo] [Hc Hm]. split; rewrite ?Hp, ?Hpo; done. Qed.

Lemma DeleteEndpoint_ok P0 B idx id :
  np_inv zeroID P0 B idx → small B →
  ∃ idx', DeleteEndpoint zeroID go id idx = Ret idx' ∧ np_inv zeroID P0 B idx' ∧ sets_same idx idx' ∧
    (∀ pid, labelsByID idx' pid = labelsByID idx pid) ∧ ∀ e, describe idx' e = if decide (e = id) then None else describe idx e.
Proof using GoOrdersLaws0.
  intros Hinv Hsmall. unfold DeleteEndpoint, NameValueIndex.Get. pose proof (ni_graph _ _ _ _ Hinv) as Hg. pose proof Hg as (Hb&Hk&_)%graph_split.
  destruct (eps idx !! id) as [old|] eqn:Hold.
  2:{ exists idx. split_and!; [done..|]. intros e. case_decide; [subst|done]. unfold describe. by rewrite Hold. }
  pose proof (ni_ep _ _ _ _ Hinv id old Hold) as Hep. pose proof (ni_sets _ _ _ _ Hinv) as Hso. pose proof (ni_bound _ _ _ _ Hinv) as Hbound.
  destruct (Recalc_ok go idx old Hso (eo_cached _ _ _ Hep)) as (m&->&Hm&Hkeys); [intros s (sd&Hsd&_)%(eo_sound _ _ _ Hep); eauto|]. cbn [obind].
  destruct (decrefContributions_ok go P0 idx (endpointRefs idx (eps idx)) (endpointRefs idx (delete id (eps idx))) m) as (idx1&->&Hmem1&Hfr1).
  { apply Hinv. } { intros s. by rewrite Hm, (endpointRefs_delete idx (eps idx) id old s). } { done. }
  { intros s. pose proof (endpointRefs_length idx (eps idx) s Hso). unfold small in Hsmall. lia. }
  cbn [obind]. pose proof (frame_base _ _ Hfr1 Hb) as Hb1. pose proof (frame_knows _ _ _ Hfr1 Hk) as Hk1.
  pose proof Hfr1 as [He1 Hp1 Hs1 Hc1 Ho1 Hpo1]. destruct (removeEndpoint_ok zeroID go idx1 id old Hb1) as (es&->&Hall&Hes); [by rewrite He1|]. cbn [obind].
  rewrite He1 in Hall. set (idx2 := set_endpoints es idx1).
  assert (Hat2 : ∀ a, endpointAt idx2 a = endpointAt idx a) by (intros a; unfold endpointAt; cbn; by rewrite Ho1).
  assert (Hb2 : base_ok zeroID idx2).
  { destruct Hb1 as [_ Hpi Ha Hinj Hpa]. split; cbn; rewrite ?Hall; try done.
    - intros e a [_ He]%lookup_delete_Some. apply (Ha e). by rewrite He1.
    - intros e e' a [_ He]%lookup_delete_Some [_ He']%lookup_delete_Some. apply (Hinj e e' a); by rewrite He1. }
  assert (Hk2 : knows_ok idx2 (childOf idx)) by (destruct Hk1; by split).
  rewrite leaveParents_old, Hat2. destruct (leaveOldParents_ok zeroID go id ∅ (ed_parents (endpointAt idx old)) idx2 _ Hb2 Hk2) as (idx'&->&Hb'&Hf'&Hk').
  { by apply (gr_nodup _ _ Hg id). } { intros p Hp. by exists old. }
  assert (Hdel : ∀ e a, eps idx2 !! e = Some a ↔ e ≠ id ∧ eps idx !! e = Some a) by (intros e a; cbn; rewrite Hall, lookup_delete_Some; naive_solver).
  exists idx'. split_and!; [done| | | |].
  - apply (np_inv_assemble zeroID P0 B idx2); [done|done| | | | | | |].
    + eapply knows_ext; [|exact Hk']. intros e p. unfold childOf. rewrite (pf_endpoints _ _ Hf'). setoid_rewrite Hdel.
      assert (∀ a, endpointAt idx' a = endpointAt idx a) as Hat' by (intros a; rewrite <- Hat2; unfold endpointAt; by rewrite (pf_endpointObjects _ _ Hf')).
      setoid_rewrite Hat'. split.
      * intros [(a&Ha&Hp) Hn]. exists a. split_and!; [|done|done]. intros ->. assert (a = old) as -> by congruence. apply Hn. split_and!; [done|done|set_solver].
      * intros (a&[Hne Ha]&Hp). split; [by eauto|]. naive_solver.
    + intros e a [_ Ha]%Hdel. rewrite Hat2. by apply (gr_nodup _ _ Hg e).
    + by eapply (sets_ok_frame idx); [..|done].
    + intros e a [_ Ha]%Hdel. rewrite Hat2. apply (ep_ok_same (ipSetDataByID idx) _ (parentObjects idx)); [done|intros p _; cbn; by rewrite Hpo1|].
      by apply (ni_ep _ _ _ _ Hinv e).
    + intros e a p [_ Ha]%Hdel. rewrite Hat2. intros Hp. cbn. rewrite Hpo1. by apply (child_length zeroID idx e a).
    + apply (members_ok_perm P0 _ (endpointRefs idx (delete id (eps idx)))); [|by apply (members_ok_ext P0 idx1)]. intros s. cbn. rewrite Hall.
      rewrite (endpointRefs_ext idx idx2); [done|]. intros e a _. rewrite Hat2. by apply cachedContribution_meta.
    + cbn. rewrite Hall, (total_ext idx idx2) by (intros e a _; unfold epWeight; by rewrite Hat2). rewrite (total_delete idx (eps idx) id old Hold) in Hbound. lia.
  - rewrite (pf_sets _ _ Hf'). done.
  - intros pid. rewrite (pf_labels _ _ Hf'). unfold labelsByID, idx2. cbn. by rewrite Hp1, Hpo1.
  - intros e. unfold describe. rewrite (pf_endpoints _ _ Hf'). cbn. rewrite Hall. case_decide as He; [subst; by rewrite lookup_delete_eq|].
    rewrite lookup_delete_ne by done. destruct (eps idx !! e) as [a|] eqn:Ha; [|done]. cbn. f_equal. apply describeAt_strip.
    + f_equal. rewrite <- Hat2. unfold endpointAt. by rewrite (pf_endpointObjects _ _ Hf').
    + intros p Hp. pose proof (child_length zeroID idx e a p Hg Ha Hp) as Hpl. rewrite <- Hpo1 in Hpl |- *. by destruct (pf_objects _ _ Hf' p Hpl).
Qed.
End ops.
