(* ===== verification/NamedPortParents.v ===== *)
(** * The named port index: a change of the labels of a parent *)
From S2P Require Import Prelude ModelRule SelectorAST UniqueLabels AdaptiveSet GoSet.
From S2P Require Import InheritIndexSpec RestrictionIndex RestrictionIndexSpec NameValueIndex NameValueIndexSpec.
From S2P Require Import CIDR CIDRTrie CIDRTrieCorrect MemberDedup MemberDedupSpec.
From S2P Require Import NamedPortIndex NamedPortMembers NamedPortCandidates NamedPortScan NamedPortGraph NamedPortInv NamedPortOps.
From stdpp Require Import base list gmap numbers strings sorting.
From stdpp Require Import options.

Section parents.
Context `{Countable EpID} (zeroID : EpID) (go : GoOrders EpID) `{!GoOrdersLaws go}.
Abbreviation Index := (SelectorAndNamedPortIndex (EpID := EpID)).
Abbreviation Heap := (list (npParentData (EpID := EpID))).
Implicit Types (idx i : Index).
Abbreviation eps idx := (allItems (endpointKVIdx idx)).
Abbreviation pars idx := (allItems (parentKVIdx idx)).
Abbreviation parentAt idx p := (deref (parentObjects idx) p).

(** The heap with the labels [l] at [p]. *)
Definition relabel (p : parentAddr) (l : uniquelabels.Map) (h : Heap) : Heap :=
  <[p := MkParentData (pd_id (deref h p)) l (pd_endpointIDs (deref h p))]> h.

Lemma relabel_relabel p l l' h : p < length h → relabel p l (relabel p l' h) = relabel p l h.
Proof. intros Hp. unfold relabel. rewrite !deref_insert by done. rewrite decide_True by done. by rewrite list_insert_insert_eq. Qed.

Lemma relabel_id p h : p < length h → relabel p (pd_labels (deref h p)) h = h.
Proof.
  intros Hp. destruct (lookup_lt_is_Some_2 h p Hp) as [x Hx]. assert (Hd : deref h p = x) by exact (f_equal (default _) Hx).
  unfold relabel. rewrite Hd. apply list_insert_id. by destruct x.
Qed.

Lemma relabel_at p l h q : p < length h →
  pd_id (deref (relabel p l h) q) = pd_id (deref h q) ∧ pd_endpointIDs (deref (relabel p l h) q) = pd_endpointIDs (deref h q) ∧
  pd_labels (deref (relabel p l h) q) = if decide (q = p) then l else pd_labels (deref h q).
Proof. intros Hp. unfold relabel. rewrite deref_insert by done. by case_decide; subst. Qed.

Lemma set_parentLabels_heap p l i : parentObjects (set_parentLabels p l i) = relabel p l (parentObjects i).
Proof. done. Qed.

Section loop.
Context (P0 : Client) (B : nat) idx (Hinv : np_inv zeroID P0 B idx) (Hsmall : small B).
Context (p : parentAddr) (labels : uniquelabels.Map) (ps : LabelNameValueIndex (ItemID := string) (Item := parentAddr)) (Hp : p < length (parentObjects idx)).
Abbreviation oldLabels := (pd_labels (parentAt idx p)).
Abbreviation heap l := (relabel p l (parentObjects idx)).

(** Half way through: the endpoints in [seen] have been scanned with the new labels. *)
Record half_way (seen : gset EpID) i : Prop := {
  hw_endpoints : endpointKVIdx i = endpointKVIdx idx;
  hw_parents : parentKVIdx i = ps;
  hw_heap : ∃ l, parentObjects i = heap l;
  hw_sets : meta <$> ipSetDataByID i = meta <$> ipSetDataByID idx;
  hw_candidates : selectorCandidatesIdx i = selectorCandidatesIdx idx;
  hw_length : length (endpointObjects i) = length (endpointObjects idx);
  hw_strip a : strip (endpointAt i a) = strip (endpointAt idx a);
  hw_ep e a : eps idx !! e = Some a → ep_ok (ipSetDataByID i) (heap (if decide (e ∈ seen) then labels else oldLabels)) (endpointAt i a);
  hw_members : members_ok P0 i (endpointRefs i (eps idx))
}.

Lemma half_way_start : half_way ∅ (set_parents ps idx).
Proof using Hinv Hp.
  split; try done.
  - exists oldLabels. by rewrite relabel_id.
  - intros e a Ha. rewrite decide_False by apply not_elem_of_empty. rewrite relabel_id by done. by apply (ni_ep _ _ _ _ Hinv e).
  - apply (members_ok_ext P0 idx); try done. apply (ni_members _ _ _ _ Hinv).
Qed.

Lemma updateParentEndpoint_ok seen i e a :
  half_way seen i → eps idx !! e = Some a → e ∉ seen →
  ∃ i', updateParentEndpoint go p oldLabels labels e i = Ret i' ∧ half_way ({[e]} ∪ seen) i'.
Proof using GoOrdersLaws0 Hinv Hp Hsmall.
  intros Hw Ha Hseen. pose proof Hw as [Hie Hip [l0 Hih] His Hic Hil Hist Hep Hmem]. unfold updateParentEndpoint, NameValueIndex.Get. rewrite Hie, Ha.
  set (i1 := set_parentLabels p oldLabels i). set (i2 := set_parentLabels p labels i1).
  assert (Hh1 : parentObjects i1 = heap oldLabels) by (unfold i1; rewrite set_parentLabels_heap, Hih; by apply relabel_relabel).
  assert (Hh2 : parentObjects i2 = heap labels).
  { unfold i2. rewrite set_parentLabels_heap, Hh1. by apply relabel_relabel. }
  assert (Hso : sets_ok i) by (eapply sets_ok_frame; [exact His|exact Hic|apply Hinv]).
  assert (Hso1 : sets_ok i1) by (eapply sets_ok_frame; [..|exact Hso]; done). assert (Hso2 : sets_ok i2) by (eapply sets_ok_frame; [..|exact Hso]; done).
  pose proof (Hep e a Ha) as Hepa. rewrite decide_False in Hepa by done.
  destruct (Recalc_ok go i1 a Hso1 (eo_cached _ _ _ Hepa)) as (m&->&Hm&Hkeys); [intros s (sd&Hsd&_)%(eo_sound _ _ _ Hepa); by exists sd|]. cbn [obind].
  assert (Hlen : a < length (endpointObjects i2)) by (cbn; rewrite Hil; by apply (gr_endpoint_addr _ _ (ni_graph _ _ _ _ Hinv) e)).
  assert (Htotal : NamedPortInv.total i (eps idx) ≤ B).
  { rewrite (NamedPortInv.total_ext idx i); [apply Hinv|]. intros e' a' _. unfold epWeight. pose proof (Hist a') as [= _ -> -> _]. done. }
  destruct (scanEndpoint_ok go P0 a i2 (endpointRefs i (eps idx)) (endpointRefs i (delete e (eps idx))) m) as (i'&Hscan&Hmem'&Hfr&Hc'&Hel').
  { by apply (members_ok_ext P0 i). } { done. } { done. } { exact (eo_nets _ _ _ Hepa). }
  { intros s. by rewrite Hm, (endpointRefs_delete i (eps idx) e a s). } { done. }
  { intros s. pose proof (endpointRefs_length i (eps idx) s Hso). rewrite (total_delete i (eps idx) e a Ha) in *. unfold epWeight, small in *.
    change (endpointAt i2 a) with (endpointAt i a). lia. }
  change (endpointAt i2 a) with (endpointAt i a) in *. change (ipSetDataByID i2) with (ipSetDataByID i) in *. rewrite Hh2 in *.
  exists i'. split; [done|]. pose proof Hfr as [Hfe Hfp Hfs Hfc Hfo Hfl Hfot Hfst].
  assert (Hother : ∀ e' a', e' ≠ e → eps idx !! e' = Some a' → endpointAt i' a' = endpointAt i a').
  { intros e' a' Hne Ha'. apply Hfot. intros ->. apply Hne. by apply (gr_endpoint_inj _ _ (ni_graph _ _ _ _ Hinv) e' e a). }
  assert (Hepn : ep_ok (ipSetDataByID i') (heap labels) (endpointAt i' a)).
  { split.
    - exact Hc'.
    - intros s Hs. apply (matches_set_ext (ipSetDataByID i) _ _ (endpointAt i a)); [done|exact Hfst|]. by apply Hel'.
    - intros s. rewrite (contribution_ext (ipSetDataByID i) _ _ (endpointAt i a)) by done. intros Hne. apply Hel'. unfold contribution in Hne.
      unfold matches_set. destruct (ipSetDataByID i !! s) as [sd|]; [|done]. exists sd. split; [done|]. by case_match.
    - injection Hfst as _ -> _ _. apply Hepa. }
  split.
  - by rewrite Hfe.
  - by rewrite Hfp.
  - exists labels. by rewrite Hfo.
  - by rewrite Hfs.
  - by rewrite Hfc.
  - by rewrite Hfl.
  - intros b. rewrite <- Hist. destruct (decide (b = a)) as [->|Hne]; [exact Hfst|]. by rewrite Hfot.
  - intros e' a' Ha'. destruct (decide (e' = e)) as [->|Hne].
    + rewrite decide_True by set_solver. assert (a' = a) as -> by congruence. done.
    + rewrite (Hother e' a') by done. replace (decide (e' ∈ {[e]} ∪ seen)) with (decide (e' ∈ {[e]} ∪ seen)) by done.
      apply (ep_ok_same (ipSetDataByID i) _ (heap (if decide (e' ∈ seen) then labels else oldLabels))); [done| |by apply Hep].
      intros q _. destruct (decide (e' ∈ {[e]} ∪ seen)), (decide (e' ∈ seen)); try done; set_solver.
  - eapply members_ok_perm; [|exact Hmem']. intros s. cbn. rewrite (endpointRefs_delete i' (eps idx) e a s Ha), (cached_contribution _ _ _ s Hepn).
    rewrite (contribution_ext (ipSetDataByID i) (ipSetDataByID i') _ (endpointAt i a) (endpointAt i' a)) by done.
    rewrite (endpointRefs_ext i i'); [done|]. intros e' a' [Hne Ha']%lookup_delete_Some. rewrite (Hother e' a') by done. by apply cachedContribution_meta.
Qed.

Lemma updateParentEndpoints_ok ids : ∀ seen i,
  half_way seen i → NoDup ids → (∀ e, e ∈ ids → is_Some (eps idx !! e) ∧ e ∉ seen) →
  ∃ i', forEach (updateParentEndpoint go p oldLabels labels) ids i = Ret i' ∧ half_way (list_to_set ids ∪ seen) i'.
Proof using GoOrdersLaws0 Hinv Hp Hsmall.
  induction ids as [|e ids IH]; intros seen i Hw Hnd Hids; cbn [forEach].
  { exists i. split; [done|]. by replace (list_to_set [] ∪ seen) with seen by set_solver. }
  apply list.NoDup_cons in Hnd as [He Hnd]. destruct (Hids e) as [[a Ha] Hn]; [apply list_elem_of_here|].
  destruct (updateParentEndpoint_ok seen i e a Hw Ha Hn) as (i1&->&Hw1). cbn [obind]. destruct (IH _ i1 Hw1 Hnd) as (i'&Hloop&Hw').
  { intros e' He'. destruct (Hids e') as [Hs Hn']; [by apply list_elem_of_further|]. split; [done|]. rewrite elem_of_union, elem_of_singleton.
    intros [->|]; done. }
  exists i'. split; [done|]. by replace (list_to_set (e :: ids) ∪ seen) with (list_to_set ids ∪ ({[e]} ∪ seen)) by set_solver.
Qed.
End loop.

(** All the endpoints of the parent have been scanned, and the parent is back in the index. *)
Lemma relabelled_inv P0 B idx p pid labels ps ps' i (ids : list EpID) :
  np_inv zeroID P0 B idx → pars idx !! pid = Some p → half_way P0 idx p labels ps (list_to_set ids) i →
  (∀ e, childOf idx e p → e ∈ ids) → allItems ps' = pars idx →
  NameValueIndexSpec.index_ok "" (parentLabels (relabel p labels (parentObjects idx))) ps' →
  let idx' := set_parents ps' (set_parentLabels p labels i) in
  np_inv zeroID P0 B idx' ∧ (∀ e, describe idx' e = describe idx e) ∧
  ∀ q, labelsByID idx' q = if decide (q = pid) then uniquelabels.entries labels else labelsByID idx q.
Proof using Type.
  intros Hinv Hp [Hie Hip [l0 Hih] His Hic Hil Hist Hep Hmem] Hids Hall Hps'. pose proof (ni_graph _ _ _ _ Hinv) as Hg.
  pose proof (gr_parent_addr _ _ Hg pid p Hp) as [Hlt Hpid]. set (heap' := relabel p labels (parentObjects idx)).
  assert (Hh : parentObjects (set_parentLabels p labels i) = heap') by (rewrite set_parentLabels_heap, Hih; by apply relabel_relabel).
  intros idx'. assert (Hh' : parentObjects idx' = heap') by exact Hh.
  assert (Hat : ∀ a, endpointAt idx' a = endpointAt i a) by done.
  assert (Hstrip : ∀ a, strip (endpointAt idx' a) = strip (endpointAt idx a)) by (intros a; by rewrite Hat).
  assert (Hpars : ∀ a, ed_parents (endpointAt idx' a) = ed_parents (endpointAt idx a)) by (intros a; by injection (Hstrip a)).
  assert (Hobj : ∀ q, pd_id (deref heap' q) = pd_id (parentAt idx q) ∧ pd_endpointIDs (deref heap' q) = pd_endpointIDs (parentAt idx q)).
  { intros q. destruct (relabel_at p labels (parentObjects idx) q Hlt) as (?&?&_). done. }
  assert (Hlen : length heap' = length (parentObjects idx)) by apply length_insert.
  assert (Heps : eps idx' = eps idx) by (cbn; by rewrite Hie). assert (Hparsm : pars idx' = pars idx) by exact Hall.
  assert (Hpids : ∀ q, pd_id (deref heap' q) = pd_id (parentAt idx q)) by (intros q; apply Hobj).
  assert (Hown : ∀ a, endpointLabels idx' a = endpointLabels idx a) by (intros a; unfold endpointLabels; by injection (Hstrip a) as -> _ _ _).
  split_and!.
  - split.
    + split; try rewrite !Heps; try rewrite !Hparsm; rewrite ?Hh'.
      * cbn. rewrite Hie. eapply index_ok_ext; [|apply Hg]. intros e a _. apply Hown.
      * done.
      * cbn. rewrite Hil. apply Hg.
      * apply Hg.
      * intros q x Hq. rewrite Hlen, Hpids. by apply (gr_parent_addr _ _ Hg).
      * intros e a q. rewrite Hpars, Hpids, (proj2 (Hobj q)). apply (gr_child _ _ Hg).
      * intros q x s. rewrite (proj2 (Hobj x)). setoid_rewrite Hpars. apply (gr_members _ _ Hg).
      * intros e a. rewrite Hpars. apply (gr_nodup _ _ Hg).
    + eapply sets_ok_frame; [exact His|exact Hic|apply Hinv].
    + intros e a. rewrite Heps, Hat, Hh'. intros Ha. apply (ep_ok_same (ipSetDataByID i) _ (relabel p (if decide (e ∈@{gset EpID} list_to_set ids) then labels else pd_labels (parentAt idx p)) (parentObjects idx))); [done| |by apply Hep].
      intros q Hq. unfold heap'. destruct (decide (e ∈@{gset EpID} list_to_set ids)) as [|Hn]; [done|].
      rewrite (proj2 (proj2 (relabel_at p labels _ q Hlt))), (proj2 (proj2 (relabel_at p (pd_labels (parentAt idx p)) _ q Hlt))).
      case_decide; [subst q|done]. destruct Hn. apply elem_of_list_to_set, Hids. exists a. split; [done|]. by rewrite <- Hpars.
    + rewrite Heps. by apply (members_ok_ext P0 i).
    + rewrite Heps. rewrite (NamedPortInv.total_ext idx); [apply Hinv|]. intros e a _. unfold epWeight. by injection (Hstrip a) as _ -> -> _.
  - intros e. unfold describe. rewrite Heps. destruct (eps idx !! e) as [a|]; [|done]. cbn. f_equal. apply describeAt_strip; [done|].
    intros q _. rewrite Hh'. apply Hpids.
  - intros q. unfold labelsByID. rewrite Hparsm, Hh'. unfold parentLabels. case_decide as Hq.
    + subst q. rewrite Hp. unfold heap'. by rewrite (proj2 (proj2 (relabel_at p labels _ p Hlt))), decide_True.
    + destruct (pars idx !! q) as [x|] eqn:Hx; [|done]. unfold heap'. rewrite (proj2 (proj2 (relabel_at p labels _ x Hlt))), decide_False; [done|].
      intros ->. apply (gr_parent_addr _ _ Hg) in Hx as [_ Hx]. congruence.
Qed.

Lemma UpdateParentLabels_ok P0 B idx0 pid labels :
  np_inv zeroID P0 B idx0 → small B →
  ∃ idx', UpdateParentLabels go pid labels idx0 = Ret idx' ∧ np_inv zeroID P0 B idx' ∧ meta <$> ipSetDataByID idx' = meta <$> ipSetDataByID idx0 ∧
    (∀ q, labelsByID idx' q = if decide (q = pid) then uniquelabels.entries labels else labelsByID idx0 q) ∧ ∀ e, describe idx' e = describe idx0 e.
Proof using GoOrdersLaws0.
  intros Hinv0 Hsmall. unfold UpdateParentLabels. pose proof (ni_graph _ _ _ _ Hinv0) as Hg0. pose proof Hg0 as (Hb0&Hk0&_)%graph_split.
  destruct (np_getOrCreateParent_ok zeroID go pid idx0 _ Hb0 Hk0) as (idx&p&->&Hb&Hf&Hk&Hp&_). cbn [obind].
  pose proof (np_inv_parents zeroID P0 B idx0 idx Hinv0 Hf Hb Hk) as Hinv. pose proof (ni_graph _ _ _ _ Hinv) as Hg.
  assert (Hdesc : ∀ e, describe idx e = describe idx0 e) by (intros e; by apply (describe_parents zeroID)).
  destruct (uniquelabels.Equals (pd_labels (parentAt idx p)) labels) eqn:Heq.
  { exists idx. split_and!; [done|done|by rewrite (pf_sets _ _ Hf)| |done]. intros q. rewrite <- (pf_labels _ _ Hf). case_decide; [subst q|done].
    unfold labelsByID, parentLabels. rewrite Hp. by apply uniquelabels.Equals_spec. }
  clear Heq. pose proof (gr_parent_addr _ _ Hg pid p Hp) as [Hlt Hpid]. unfold removeParent.
  destruct (Remove_index_ok "" (rangeStrings go) law_Strings (parentLabels (parentObjects idx)) (labelHandles go (pd_labels (parentAt idx p))) pid p (parentKVIdx idx))
    as (ps&->&Hps&Hall); [apply Hg|done|unfold labelHandles, parentLabels; apply law_Labels|]. cbn [obind].
  unfold updateParent. cbn [parentObjects set_parents].
  set (ids := match pd_endpointIDs (parentAt idx p) with Some ids => Typed_All (rangeIDs go) ids | None => [] end).
  assert (Hids : NoDup ids ∧ ∀ e, e ∈ ids ↔ e ∈ default ∅ (pd_endpointIDs (parentAt idx p))).
  { unfold ids. destruct (pd_endpointIDs (parentAt idx p)) as [s|]; [|split; [constructor|set_solver]]. unfold Typed_All.
    split; [rewrite law_IDs; apply NoDup_elements|]. intros e. rewrite law_IDs. apply elem_of_elements. }
  destruct Hids as [Hnd Hids].
  destruct (updateParentEndpoints_ok P0 B idx Hinv Hsmall p labels ps Hlt ids ∅ _ (half_way_start P0 B idx Hinv p labels ps Hlt) Hnd) as (i&Hloop&Hw).
  { intros e He. split; [|set_solver]. apply Hids in He. destruct (pd_endpointIDs (parentAt idx p)) as [s|] eqn:Hs; [|set_solver].
    destruct (gr_members _ _ Hg pid p s Hp Hs) as [_ Hin]. destruct (Hin e He) as (a&Ha&_). eauto. }
  replace (list_to_set ids ∪ ∅) with (list_to_set ids : gset EpID) in Hw by set_solver. rewrite Hloop. cbn [obind].
  assert (Hheap : parentObjects (set_parentLabels p labels i) = relabel p labels (parentObjects idx)).
  { destruct (hw_heap _ _ _ _ _ _ _ Hw) as [l0 Hl0]. rewrite set_parentLabels_heap, Hl0. by apply relabel_relabel. }
  assert (Hpi : parentKVIdx (set_parentLabels p labels i) = ps) by apply Hw. rewrite Hheap, Hpi.
  destruct (Add_index_ok "" (parentLabels (relabel p labels (parentObjects idx))) (labelHandles go (pd_labels (deref (relabel p labels (parentObjects idx)) p))) pid p ps)
    as (ps'&->&Hps'&Hall'); [|rewrite Hall; apply lookup_delete_eq|unfold labelHandles, parentLabels; apply law_Labels|].
  { eapply index_ok_ext; [|exact Hps]. intros q x Hq. rewrite Hall in Hq. apply lookup_delete_Some in Hq as [Hne Hq]. unfold parentLabels.
    rewrite (proj2 (proj2 (relabel_at p labels _ x Hlt))), decide_False; [done|]. intros ->. apply (gr_parent_addr _ _ Hg) in Hq as [_ Hq]. congruence. }
  cbn [obind]. destruct (relabelled_inv P0 B idx p pid labels ps ps' i ids Hinv Hp Hw) as (Hinv'&Hdesc'&Hlab').
  { intros e (a&Ha&Hpa). apply Hids. by apply (gr_child _ _ Hg e a p). } { rewrite Hall', Hall. by rewrite insert_delete_id. } { done. }
  eexists. split_and!; [done|done| | |].
  - cbn. rewrite (hw_sets _ _ _ _ _ _ _ Hw). by rewrite (pf_sets _ _ Hf).
  - intros q. rewrite Hlab', (pf_labels _ _ Hf). done.
  - intros e. by rewrite Hdesc', Hdesc.
Qed.

Lemma DeleteParentLabels_ok P0 B idx0 pid :
  np_inv zeroID P0 B idx0 → small B →
  ∃ idx', DeleteParentLabels go pid idx0 = Ret idx' ∧ np_inv zeroID P0 B idx' ∧ meta <$> ipSetDataByID idx' = meta <$> ipSetDataByID idx0 ∧
    (∀ q, labelsByID idx' q = if decide (q = pid) then ∅ else labelsByID idx0 q) ∧ ∀ e, describe idx' e = describe idx0 e.
Proof using GoOrdersLaws0.
  intros Hinv0 Hsmall. unfold DeleteParentLabels. destruct (UpdateParentLabels_ok P0 B idx0 pid None Hinv0 Hsmall) as (idx&->&Hinv&Hsets&Hlab&Hdesc).
  cbn [obind]. pose proof (ni_graph _ _ _ _ Hinv) as Hg. pose proof Hg as (Hb&Hk&_)%graph_split.
  destruct (np_discardParentIfEmpty_ok zeroID go pid idx _ Hb Hk) as (idx'&Hdis&Hb'&Hf'&Hk'&_).
  { intros e p (a&Ha&Hpa) Hp. destruct (gr_child _ _ Hg e a p Ha Hpa) as [_ Hin]. destruct (pd_endpointIDs (parentAt idx p)); [eauto|set_solver]. }
  exists idx'. split_and!; [done|by apply (np_inv_parents zeroID P0 B idx)|by rewrite (pf_sets _ _ Hf')| |].
  - intros q. rewrite (pf_labels _ _ Hf'). apply Hlab.
  - intros e. rewrite (describe_parents zeroID idx idx' e Hg Hf'). apply Hdesc.
Qed.
End parents.
