(* ===== verification/NamedPortSets.v ===== *)
(** * The named port index: IP sets come and go *)
From S2P Require Import Prelude ModelRule SelectorAST UniqueLabels AdaptiveSet GoSet.
From S2P Require Import InheritIndexSpec RestrictionIndex RestrictionIndexSpec NameValueIndex NameValueIndexSpec.
From S2P Require Import CIDR CIDRTrie CIDRTrieCorrect MemberDedup MemberDedupSpec.
From stdpp Require Import base list gmap numbers strings sorting.
From S2P Require Import NamedPortIndex NamedPortMembers NamedPortCandidates NamedPortScan NamedPortGraph NamedPortInv NamedPortOps.
From stdpp Require Import options.

Section sets.
Context `{Countable EpID} (zeroID : EpID) (go : GoOrders EpID) `{!GoOrdersLaws go}.
Abbreviation Index := (SelectorAndNamedPortIndex (EpID := EpID)).
Implicit Types (idx i : Index).
Abbreviation eps idx := (allItems (endpointKVIdx idx)).
Abbreviation pars idx := (allItems (parentKVIdx idx)).
Abbreviation parentAt idx p := (deref (parentObjects idx) p).

(** ** The invariant without the members *)
Record core_ok (B : nat) idx : Prop := {
  co_graph : graph_ok zeroID idx;
  co_sets : sets_ok idx;
  co_ep e a : eps idx !! e = Some a → ep_ok (ipSetDataByID idx) (parentObjects idx) (endpointAt idx a);
  co_bound : total idx (eps idx) ≤ B
}.

Lemma np_inv_split P0 B idx : np_inv zeroID P0 B idx ↔ core_ok B idx ∧ members_ok P0 idx (endpointRefs idx (eps idx)).
Proof. split; [intros []; by split|intros [[] ?]; by split]. Qed.

(** Only the caches of endpoints change, and what the scans of endpoints change. *)
Record visit_frame idx i : Prop := {
  vf_endpoints : endpointKVIdx i = endpointKVIdx idx;
  vf_parents : parentKVIdx i = parentKVIdx idx;
  vf_sets : meta <$> ipSetDataByID i = meta <$> ipSetDataByID idx;
  vf_candidates : selectorCandidatesIdx i = selectorCandidatesIdx idx;
  vf_parentObjects : parentObjects i = parentObjects idx;
  vf_length : length (endpointObjects i) = length (endpointObjects idx);
  vf_strip a : strip (endpointAt i a) = strip (endpointAt idx a)
}.

#[global] Instance visit_frame_refl : Reflexive visit_frame.
Proof. by split. Qed.

#[global] Instance visit_frame_trans : Transitive visit_frame.
Proof. intros i1 i2 i3 [] []. split; congruence. Qed.

Lemma scan_visit a idx i : scan_frame a idx i → visit_frame idx i.
Proof.
  intros []. split; try done. intros b. destruct (decide (b = a)) as [->|Hne]; [done|]. by rewrite sf_others.
Qed.

Section framed.
Context idx i (Hf : visit_frame idx i).

Lemma visit_ed_parents a : ed_parents (endpointAt i a) = ed_parents (endpointAt idx a).
Proof using Hf. by injection (vf_strip _ _ Hf a). Qed.

Lemma visit_graph : graph_ok zeroID idx → graph_ok zeroID i.
Proof using Hf.
  intros [He Hp Ha Hinj Hpa Hch Hme Hnd]. pose proof Hf as [Hfe Hfp _ _ Hfo Hfl Hfs].
  split; rewrite ?Hfe, ?Hfp, ?Hfo, ?Hfl; try done.
  - eapply index_ok_ext; [|exact He]. intros e a _. unfold endpointLabels. by injection (Hfs a) as -> _ _ _.
  - intros e a p. rewrite visit_ed_parents. apply Hch.
  - intros pid p ids. setoid_rewrite visit_ed_parents. apply Hme.
  - intros e a. rewrite visit_ed_parents. apply Hnd.
Qed.

Lemma visit_total : total i (eps idx) = total idx (eps idx).
Proof using Hf. apply total_ext. intros e a _. unfold epWeight. by injection (vf_strip _ _ Hf a) as _ -> -> _. Qed.

Lemma visit_describe e : describe i e = describe idx e.
Proof using Hf.
  unfold describe. rewrite (vf_endpoints _ _ Hf). destruct (eps idx !! e) as [a|]; [|done]. cbn. f_equal.
  apply describeAt_strip; [apply Hf|]. intros p _. by rewrite (vf_parentObjects _ _ Hf).
Qed.

Lemma visit_labels pid : labelsByID i pid = labelsByID idx pid.
Proof using Hf. unfold labelsByID. by rewrite (vf_parents _ _ Hf), (vf_parentObjects _ _ Hf). Qed.
End framed.

(** ** A loop over candidates *)
Lemma visit_loop (f : endpointAddr → Index → outcome Empty_set Index) idx (Inv : gset EpID → Index → Prop) l : ∀ seen i,
  (∀ seen i, Inv seen i → endpointKVIdx i = endpointKVIdx idx) →
  (∀ seen i e a, Inv seen i → eps idx !! e = Some a → e ∉ seen → ∃ i', f a i = Ret i' ∧ Inv ({[e]} ∪ seen) i') →
  NoDup l → (∀ e, e ∈ l → is_Some (eps idx !! e) ∧ e ∉ seen) → Inv seen i →
  ∃ i', foldl (visitEndpoint f) (Ret i) l = Ret i' ∧ Inv (list_to_set l ∪ seen) i'.
Proof using Type.
  induction l as [|e l IH]; intros seen i Hkv Hstep Hnd Hl Hi; cbn [foldl].
  { exists i. split; [done|]. by replace (list_to_set [] ∪ seen) with seen by (clear; set_solver). }
  apply list.NoDup_cons in Hnd as [He Hnd]. destruct (Hl e) as [[a Ha] Hn]; [apply list_elem_of_here|].
  destruct (Hstep seen i e a Hi Ha Hn) as (i1&Hf1&Hi1). cbn [visitEndpoint obind]. unfold NameValueIndex.Get. rewrite (Hkv _ _ Hi), Ha, Hf1.
  destruct (IH ({[e]} ∪ seen) i1 Hkv Hstep Hnd) as (i'&Hloop&Hi'); [|done|].
  - intros e' He'. destruct (Hl e') as [Hs Hn']; [by apply list_elem_of_further|]. split; [done|]. rewrite elem_of_union, elem_of_singleton. by intros [->|].
  - exists i'. split; [done|]. by replace (list_to_set (e :: l) ∪ seen) with (list_to_set l ∪ ({[e]} ∪ seen)) by (clear; set_solver).
Qed.

Lemma few_endpoints B idx : core_ok B idx → small B → (Z.of_nat (size (eps idx)) <= MaxInt)%Z.
Proof using Type.
  intros Hinv Hsmall. pose proof (endpointRefs_length idx (eps idx) "" (co_sets _ _ Hinv)). pose proof (co_bound _ _ Hinv). unfold small, MaxInt in *. lia.
Qed.

Lemma endpointRefs_nil idx items t :
  (∀ e a, items !! e = Some a → cachedContribution (ipSetDataByID idx) (endpointAt idx a) t = []) → endpointRefs idx items t = [].
Proof using Type.
  intros Hnil. unfold endpointRefs. assert (Hin : ∀ e a, (e, a) ∈ map_to_list items → items !! e = Some a) by (intros e a; apply elem_of_map_to_list).
  induction (map_to_list items) as [|[e a] l IH]; [done|]. rewrite bind_cons, IH by (intros e' a' ?; apply Hin; by apply list_elem_of_further).
  rewrite app_nil_r. apply (Hnil e), Hin, list_elem_of_here.
Qed.

(** ** Deleting a set *)
Section delete.
Context (B : nat) idx (Hinv : core_ok B idx) (Hsmall : small B) (s : string) (sd : ipSetData) (Hsd : ipSetDataByID idx !! s = Some sd).

(** The endpoints in [seen] have forgotten the set. *)
Record forgetting (seen : gset EpID) i : Prop := {
  fo_frame : visit_frame idx i;
  fo_sets : ipSetDataByID i = ipSetDataByID idx;
  fo_suppressor : suppressor i = suppressor idx;
  fo_events : events i = events idx;
  fo_cached e a : eps idx !! e = Some a → cached_ok i a ∧ cached i a = if decide (e ∈ seen) then cached idx a ∖ {[s]} else cached idx a
}.

Lemma forget_step seen i e a :
  forgetting seen i → eps idx !! e = Some a → e ∉ seen → ∃ i', RemoveMatchingIPSetID go a s i = Ret i' ∧ forgetting ({[e]} ∪ seen) i'.
Proof using GoOrdersLaws0 Hinv.
  intros [Hf Hs Hsu Hev Hc] Ha Hn. destruct (Hc e a Ha) as [Hca Hea]. rewrite decide_False in Hea by done.
  destruct (RemoveMatching_ok go a s i) as (i'&->&Hfr&Hca'&Hea'&Hs'&Hsu'&Hev'); [|done|].
  { rewrite (vf_length _ _ Hf). by apply (gr_endpoint_addr _ _ (co_graph _ _ Hinv) e). }
  exists i'. split; [done|]. split; [etrans; [exact Hf|by eapply scan_visit]|congruence..|].
  intros e' a' Ha'. destruct (decide (e' = e)) as [->|Hne].
  - assert (a' = a) as -> by congruence. rewrite decide_True by (clear; set_solver). split; [done|]. by rewrite Hea', Hea.
  - assert (a' ≠ a) by (intros ->; apply Hne; by apply (gr_endpoint_inj _ _ (co_graph _ _ Hinv) e' e a)).
    unfold cached_ok, cached in *. rewrite (sf_others _ _ _ Hfr) by done. destruct (Hc e' a' Ha') as [? ->]. split; [done|].
    destruct (decide (e' ∈ {[e]} ∪ seen)) as [Hin|Hin], (decide (e' ∈ seen)); try done; rewrite elem_of_union, elem_of_singleton in Hin; naive_solver.
Qed.

Lemma forgetting_start : forgetting ∅ idx.
Proof using Hinv.
  split; [done..|]. intros e a Ha. rewrite decide_False by apply not_elem_of_empty. split; [|done]. apply (co_ep _ _ Hinv e a Ha).
Qed.

Lemma cached_after l i e a :
  forgetting (list_to_set l ∪ ∅) i → (∀ e, matches_ep idx (root (is_selector sd)) e → e ∈ l) → eps idx !! e = Some a →
  cached i a = cached idx a ∖ {[s]}.
Proof using Hinv Hsd.
  intros Hfo Hl Ha. destruct (fo_cached _ _ Hfo e a Ha) as [_ ->]. case_decide as Hin; [done|].
  assert (Hout : s ∉ cached idx a); [|clear -Hout; set_solver]. intros Hs. apply (eo_sound _ _ _ (co_ep _ _ Hinv e a Ha)) in Hs as (sd'&Hsd'&Hev).
  assert (sd' = sd) as -> by congruence. apply Hin. rewrite elem_of_union, elem_of_list_to_set. left. apply Hl. by exists a.
Qed.

Lemma selector_restrictions : is_Some (Node_LabelRestrictions (root (is_selector sd))).
Proof using Hinv Hsd.
  destruct (co_sets _ _ Hinv) as [Hi Hs _]. apply (io_restrictions _ Hi s). by rewrite Hs, lookup_fmap, Hsd.
Qed.

Lemma Remove_keeps : keeps_graph (λ a, RemoveMatchingIPSetID (EpID := EpID) go a s).
Proof using Type. clear. intros a i i' (c&_&[= <-])%obind_Ret. done. Qed.

Lemma forget_all : ∃ i, iterEndpointCandidates go s (λ a, RemoveMatchingIPSetID go a s) idx = Ret i ∧ visit_frame idx i ∧
  ipSetDataByID i = ipSetDataByID idx ∧ suppressor i = suppressor idx ∧ events i = events idx ∧
  ∀ e a, eps idx !! e = Some a → cached_ok i a ∧ cached i a = cached idx a ∖ {[s]}.
Proof using GoOrdersLaws0 Hinv Hsmall Hsd.
  destruct (iterEndpointCandidates_ok zeroID go idx (co_graph _ _ Hinv) (root (is_selector sd)) (λ a, RemoveMatchingIPSetID go a s) s sd Hsd eq_refl
    selector_restrictions (few_endpoints B idx Hinv Hsmall) Remove_keeps) as (l&->&Hnd&Hl&Hall).
  destruct (visit_loop (λ a, RemoveMatchingIPSetID go a s) idx forgetting l ∅ idx) as (i&->&Hi).
  { intros seen i Hi. apply Hi. } { apply forget_step. } { done. } { intros e He. split; [by apply Hl|apply not_elem_of_empty]. } { apply forgetting_start. }
  exists i. pose proof Hi as [Hf Hs Hsu Hev _]. split_and!; try done. intros e a Ha. split; [by apply (fo_cached _ _ Hi e)|]. by apply (cached_after l i e).
Qed.

Lemma DeleteIPSet_present : ∃ i, DeleteIPSet go s idx = Ret i ∧ core_ok B i ∧ ipSetDataByID i = delete s (ipSetDataByID idx) ∧
  events i = events idx ∧ suppressor i = suppressor_DeleteIPSet (suppressor idx) s ∧
  (∀ t, endpointRefs i (eps i) t = if decide (t = s) then [] else endpointRefs idx (eps idx) t) ∧
  (∀ pid, labelsByID i pid = labelsByID idx pid) ∧ ∀ e, describe i e = describe idx e.
Proof using GoOrdersLaws0 Hinv Hsmall Hsd.
  unfold DeleteIPSet. rewrite Hsd. destruct forget_all as (i1&->&Hf&Hs&Hsu&Hev&Hc). cbn [obind]. destruct (co_sets _ _ Hinv) as [Hi Hsel Hpr].
  destruct (RestrictionIndexSpec.DeleteSelector_ok (rangeRestrictions go) s (selectorCandidatesIdx (set_ipSets (delete s) i1))) as (c&->&Hci&Hcs).
  { intros x. apply law_Restrictions. } { cbn. by rewrite (vf_candidates _ _ Hf). }
  cbn [obind]. cbn in Hcs. rewrite (vf_candidates _ _ Hf), Hsel in Hcs. set (i := set_suppressor _ _ _).
  assert (His : ipSetDataByID i = delete s (ipSetDataByID idx)) by (cbn; by rewrite Hs).
  assert (Hcache : ∀ e a, eps idx !! e = Some a → cached i a = cached idx a ∖ {[s]}) by (intros e a Ha; by apply (Hc e)).
  assert (Hstrip : ∀ a, strip (endpointAt i a) = strip (endpointAt idx a)) by apply Hf.
  assert (Hdata : ∀ a t sd', contrib (endpointAt i a) sd' = contrib (endpointAt idx a) sd' ∧ contribution (ipSetDataByID i) (parentObjects i) (endpointAt i a) t
    = if decide (t = s) then [] else contribution (ipSetDataByID idx) (parentObjects idx) (endpointAt idx a) t).
  { intros a t sd'. split; [by apply strip_contrib|]. unfold contribution. rewrite His. case_decide as Ht.
    - subst t. by rewrite lookup_delete_eq.
    - rewrite lookup_delete_ne by done. destruct (ipSetDataByID idx !! t) as [x|]; [|done]. change (parentObjects i) with (parentObjects i1).
      rewrite (vf_parentObjects _ _ Hf), (strip_Evaluate _ (endpointAt idx a)), (strip_contrib (endpointAt idx a)) by done. done. }
  exists i. split_and!; [done| |done|by cbn; rewrite app_nil_r|cbn; by rewrite Hsu| |by apply (visit_labels idx i1)|by apply (visit_describe idx i1)].
  - split.
    + destruct (visit_graph idx i1 Hf (co_graph _ _ Hinv)). by split.
    + split; [done|by rewrite His, fmap_delete|]. intros t x. rewrite His. intros [_ Ht]%lookup_delete_Some. by apply (Hpr t).
    + intros e a. change (eps i) with (eps i1). rewrite (vf_endpoints _ _ Hf). intros Ha. pose proof (co_ep _ _ Hinv e a Ha) as [_ Hso Hco Hn].
      pose proof (Hcache e a Ha) as Hce. unfold cached in Hce. split.
      * by apply (Hc e).
      * intros t. rewrite Hce, elem_of_difference, elem_of_singleton. intros [Ht Hne]. destruct (Hso t Ht) as (x&Hx&Hev'). exists x.
        rewrite His, lookup_delete_ne by done. split; [done|]. change (parentObjects i) with (parentObjects i1).
        by rewrite (vf_parentObjects _ _ Hf), (strip_Evaluate _ (endpointAt idx a)).
      * intros t. rewrite (proj2 (Hdata a t sd)). case_decide as Ht; [done|]. intros Hne. rewrite Hce, elem_of_difference, elem_of_singleton. split; [by apply Hco|done].
      * by injection (Hstrip a) as _ -> _ _.
    + change (eps i) with (eps i1). rewrite (vf_endpoints _ _ Hf). change (total i) with (total i1). rewrite (visit_total idx i1 Hf). apply Hinv.
  - intros t. change (eps i) with (eps i1). rewrite (vf_endpoints _ _ Hf).
    assert (Hcc : ∀ e a, eps idx !! e = Some a → cachedContribution (ipSetDataByID i) (endpointAt i a) t =
      if decide (t = s) then [] else cachedContribution (ipSetDataByID idx) (endpointAt idx a) t).
    { intros e a Ha. pose proof (Hcache e a Ha) as Hce. unfold cached in Hce. unfold cachedContribution. rewrite Hce, His. destruct (decide (t = s)) as [->|Hne].
      - rewrite decide_False; [done|]. clear; set_solver.
      - rewrite lookup_delete_ne by done. destruct (decide (t ∈ elems (cachedMatchingIPSetIDs (endpointAt idx a)))) as [Hin|Hin].
        + rewrite decide_True by (clear -Hin Hne; set_solver). destruct (ipSetDataByID idx !! t) as [x|]; [|done]. apply (Hdata a t x).
        + rewrite decide_False; [done|]. clear -Hin; set_solver. }
    destruct (decide (t = s)); [by apply endpointRefs_nil|by apply endpointRefs_ext].
Qed.
End delete.

(** ** Creating a set *)
Section create.
Context (P0 : Client) (B : nat) idx (Hinv : np_inv zeroID P0 B idx) (Hsmall : small B).
Context (s : string) (sel : Selector) (proto : Protocol) (port : string) (Hnone : ipSetDataByID idx !! s = None) (Hproto : protocol_ok proto).
Context (c : LabelRestrictionIndex (SelID := string)) (Hci : RestrictionIndexSpec.index_ok c) (Hcs : selectorsByID c = <[s := sel]> (selectorsByID (selectorCandidatesIdx idx))).
Abbreviation sd := (MkIPSetData sel proto port ∅).
Abbreviation sets' := (<[s := sd]> (ipSetDataByID idx)).
Abbreviation idx2 := (set_candidates c (set_ipSets <[s := sd]> idx)).

Lemma create_sets_ok : sets_ok idx2.
Proof using Hinv Hproto Hci Hcs.
  destruct (ni_sets _ _ _ _ Hinv) as [_ Hsel Hpr]. split; [done|cbn; by rewrite Hcs, Hsel, fmap_insert|].
  intros t x. cbn. intros [[<- <-]|[_ Ht]]%lookup_insert_Some; [done|by apply (Hpr t)].
Qed.

Lemma create_fresh e a : eps idx !! e = Some a → s ∉ cached idx a.
Proof using Hinv Hnone. intros Ha (x&Hx&_)%(eo_sound _ _ _ (ni_ep _ _ _ _ Hinv e a Ha)). by rewrite Hnone in Hx. Qed.

Lemma create_contribution h d t : t ≠ s → contribution (EpID := EpID) sets' h d t = contribution (ipSetDataByID idx) h d t.
Proof using Type. intros Hne. unfold contribution. by rewrite lookup_insert_ne. Qed.

(** The endpoints in [seen] have been offered the set. *)
Record joining (seen : gset EpID) i : Prop := {
  jo_frame : visit_frame idx2 i;
  jo_cached e a : eps idx !! e = Some a → cached_ok i a;
  jo_sound e a t : eps idx !! e = Some a → t ∈ cached i a → matches_set sets' (parentObjects idx) (endpointAt idx a) t;
  jo_complete e a t : eps idx !! e = Some a → contribution sets' (parentObjects idx) (endpointAt idx a) t ≠ [] → t ∈ cached i a ∨ t = s ∧ e ∉ seen;
  jo_fresh e a : eps idx !! e = Some a → e ∉ seen → s ∉ cached i a;
  jo_members : members_ok P0 i (endpointRefs i (eps idx))
}.

Lemma create_refs t : endpointRefs idx2 (eps idx) t = endpointRefs idx (eps idx) t.
Proof using Hinv Hnone.
  apply endpointRefs_ext. intros e a Ha. pose proof (create_fresh e a Ha) as Hn. unfold cached in Hn. unfold cachedContribution. cbn.
  change (endpointAt idx2 a) with (endpointAt idx a). case_decide as Hin; [|done]. rewrite lookup_insert_ne; [done|]. by intros <-.
Qed.

Lemma joining_start : joining ∅ idx2.
Proof using Hinv Hnone.
  split.
  - done.
  - intros e a Ha. apply (ni_ep _ _ _ _ Hinv e a Ha).
  - intros e a t Ha Ht. pose proof (create_fresh e a Ha) as Hn. destruct (eo_sound _ _ _ (ni_ep _ _ _ _ Hinv e a Ha) t Ht) as (x&Hx&Hev).
    exists x. rewrite lookup_insert_ne; [done|]. by intros <-.
  - intros e a t Ha Hne. destruct (decide (t = s)) as [->|Hts]; [right; split; [done|apply not_elem_of_empty]|left].
    rewrite create_contribution in Hne by done. by apply (eo_complete _ _ _ (ni_ep _ _ _ _ Hinv e a Ha)).
  - intros e a Ha _. by apply (create_fresh e).
  - destruct (ni_members _ _ _ _ Hinv) as [Hcl Hcnt Habs]. apply (members_ok_perm P0 _ (endpointRefs idx (eps idx))); [intros t; by rewrite create_refs|].
    split; [done| |].
    + intros t x. cbn. intros [[<- <-]|[_ Ht]]%lookup_insert_Some; [|by apply Hcnt]. rewrite Habs by done. intros m. done.
    + intros t. cbn. intros [Ht _]%lookup_insert_None. by apply Habs.
Qed.

Lemma joining_skip seen i e a :
  joining seen i → eps idx !! e = Some a → contribution sets' (parentObjects idx) (endpointAt idx a) s = [] → joining ({[e]} ∪ seen) i.
Proof using Type.
  intros [Hf Hc Hs Hco Hfr Hm] Ha Hnil. split; try done.
  - intros e' a' t Ha' Hne. destruct (Hco e' a' t Ha' Hne) as [|[-> Hn]]; [by left|right]. split; [done|]. rewrite elem_of_union, elem_of_singleton.
    intros [->|]; [|done]. assert (a' = a) as -> by congruence. done.
  - intros e' a' Ha' Hn. apply (Hfr e' a'); [done|]. rewrite elem_of_union in Hn. tauto.
Qed.

Lemma created_lookup i : visit_frame idx2 i → ∃ s', ipSetDataByID i !! s = Some s' ∧ meta s' = sd.
Proof using Type.
  intros Hf. pose proof (f_equal (lookup s) (vf_sets _ _ Hf)) as Heq. cbn in Heq. rewrite !lookup_fmap, lookup_insert_eq in Heq. cbn in Heq.
  destruct (ipSetDataByID i !! s) as [s'|]; [|done]. exists s'. split; [done|]. by apply (inj Some) in Heq.
Qed.

Lemma joining_refs_length seen i t : joining seen i → length (endpointRefs i (eps idx) t) ≤ B.
Proof using Hinv Hproto Hci Hcs.
  intros Hj. pose proof (jo_frame _ _ Hj) as Hf. assert (Hso : sets_ok i) by (eapply sets_ok_frame; [apply Hf|apply Hf|apply create_sets_ok]).
  pose proof (endpointRefs_length i (eps idx) t Hso). pose proof (visit_total idx2 i Hf : total i (eps idx) = total idx (eps idx)). pose proof (ni_bound _ _ _ _ Hinv). lia.
Qed.

Lemma join_step seen i e a :
  joining seen i → eps idx !! e = Some a → e ∉ seen → ∃ i', contributeEndpoint s sel a i = Ret i' ∧ joining ({[e]} ∪ seen) i'.
Proof using Hinv Hsmall Hnone Hproto Hci Hcs.
  intros Hj Ha Hseen. pose proof (jo_frame _ _ Hj) as Hf. pose proof (vf_strip _ _ Hf) as Hst. change (endpointAt idx2) with (endpointAt idx) in Hst.
  unfold contributeEndpoint. rewrite (vf_parentObjects _ _ Hf), (strip_Evaluate _ (endpointAt idx a)) by done. cbn [parentObjects set_candidates set_ipSets].
  assert (Hcs' : contribution sets' (parentObjects idx) (endpointAt idx a) s = if Evaluate (root sel) (parentObjects idx, endpointAt idx a) then contrib (endpointAt idx a) sd else []).
  { unfold contribution. by rewrite lookup_insert_eq. }
  destruct (Evaluate (root sel) (parentObjects idx, endpointAt idx a)) eqn:Hev; cbn [negb]; [|exists i; split; [done|by apply (joining_skip seen i e a)]].
  destruct (created_lookup i Hf) as (s'&Hs'&Hmeta). rewrite Hs'. pose proof Hmeta as [= Hsel' Hpr' Hpo'].
  assert (Hms : contrib (endpointAt i a) s' = contrib (endpointAt idx a) sd) by (rewrite <- contrib_meta, Hmeta; by apply strip_contrib).
  destruct (contrib_cases (endpointAt i a) s') as (->&Hlen&Hok); [by rewrite Hpr'|]. cbn [obind]. rewrite Hms in *.
  destruct (contrib (endpointAt idx a) sd) as [|m0 ms0] eqn:Hcon; [exists i; split; [done|by apply (joining_skip seen i e a)]|]. set (ms := m0 :: ms0) in *.
  destruct (AddMatching_ok a s i) as (i1&->&Hfr1&Hc1&He1&Hs1&Hsu1&Hev1).
  { rewrite (vf_length _ _ Hf). by apply (gr_endpoint_addr _ _ (ni_graph _ _ _ _ Hinv) e). } { by apply (jo_cached _ _ Hj e). }
  cbn [obind]. assert (Hw : weight (ed_nets (endpointAt i a)) (ed_ports (endpointAt i a)) ≤ B).
  { injection (Hst a) as _ -> -> _. pose proof (ni_bound _ _ _ _ Hinv) as Hb. rewrite (total_delete idx (eps idx) e a Ha) in Hb. unfold epWeight in Hb. lia. }
  pose proof (joining_refs_length seen i s Hj) as Hrl.
  destruct (increfs_ok P0 ms i1 (endpointRefs i (eps idx)) s) as (i'&_&->&Hmem'&Hfr').
  { by apply (members_ok_ext P0 i); [..|apply Hj]. } { rewrite Hs1. eauto. }
  { apply Hok. injection (Hst a) as _ -> _ _. apply (ni_ep _ _ _ _ Hinv e a Ha). } { unfold small in Hsmall. unfold ms in *. lia. }
  exists i'. split; [done|]. assert (Hf' : visit_frame i i') by (etrans; [by eapply scan_visit|by apply (scan_visit a), frame_scan]).
  assert (Hcache : ∀ b, endpointAt i' b = endpointAt i1 b) by (intros b; unfold endpointAt; by rewrite (fr_endpointObjects _ _ Hfr')).
  assert (Hca : cached i' a = {[s]} ∪ cached i a) by (unfold cached in *; by rewrite Hcache).
  assert (Hothers : ∀ e' a', e' ≠ e → eps idx !! e' = Some a' → endpointAt i' a' = endpointAt i a').
  { intros e' a' Hne Ha'. rewrite Hcache. apply (sf_others _ _ _ Hfr1). intros ->. apply Hne. by apply (gr_endpoint_inj _ _ (ni_graph _ _ _ _ Hinv) e' e a). }
  assert (Hcc : ∀ t, cachedContribution (ipSetDataByID i') (endpointAt i' a) t =
    if decide (t = s) then ms else cachedContribution (ipSetDataByID i) (endpointAt i a) t).
  { intros t. rewrite (cachedContribution_meta (ipSetDataByID i)) by apply Hf'. unfold cachedContribution. unfold cached in Hca. rewrite Hca.
    assert (Hdat : ∀ x, contrib (endpointAt i' a) x = contrib (endpointAt i a) x) by (intros x; apply strip_contrib, Hf'). destruct (decide (t = s)) as [->|Hne].
    - rewrite decide_True by (clear; set_solver). by rewrite Hs', Hdat, Hms.
    - destruct (decide (t ∈ elems (cachedMatchingIPSetIDs (endpointAt i a)))) as [Hin|Hin].
      + rewrite decide_True by (clear -Hin; set_solver). destruct (ipSetDataByID i !! t); [apply Hdat|done].
      + rewrite decide_False; [done|]. clear -Hin Hne. set_solver. }
  split.
  - by etrans.
  - intros e' a' Ha'. unfold cached_ok. destruct (decide (e' = e)) as [->|Hne].
    + assert (a' = a) as -> by congruence. by rewrite Hcache.
    + rewrite (Hothers e' a') by done. by apply (jo_cached _ _ Hj e').
  - intros e' a' t Ha'. destruct (decide (e' = e)) as [->|Hne].
    + assert (a' = a) as -> by congruence. rewrite Hca, elem_of_union, elem_of_singleton. intros [->|Ht]; [|by apply (jo_sound _ _ Hj e a)].
      exists sd. by rewrite lookup_insert_eq.
    + unfold cached. rewrite (Hothers e' a') by done. by apply (jo_sound _ _ Hj e').
  - intros e' a' t Ha' Hne'. destruct (jo_complete _ _ Hj e' a' t Ha' Hne') as [Ht|[-> Hn]].
    + left. destruct (decide (e' = e)) as [->|Hne]; [|unfold cached; by rewrite (Hothers e' a')]. assert (a' = a) as -> by congruence. rewrite Hca. clear -Ht. set_solver.
    + destruct (decide (e' = e)) as [->|Hne]; [left|right; split; [done|]; rewrite elem_of_union, elem_of_singleton; tauto].
      assert (a' = a) as -> by congruence. rewrite Hca. clear. set_solver.
  - intros e' a' Ha' Hn. rewrite elem_of_union, elem_of_singleton in Hn. assert (e' ≠ e) by tauto. unfold cached. rewrite (Hothers e' a') by done.
    apply (jo_fresh _ _ Hj e' a'); [done|tauto].
  - eapply members_ok_perm; [|exact Hmem']. intros t. cbn. rewrite (endpointRefs_delete i' (eps idx) e a t Ha), Hcc.
    rewrite (endpointRefs_ext i i'). 2:{ intros e' a' [Hne Ha']%lookup_delete_Some. rewrite (Hothers e' a') by done. apply cachedContribution_meta, Hf'. }
    unfold bag_set. destruct (decide (t = s)) as [->|Hne]; [|by rewrite (endpointRefs_delete i (eps idx) e a t Ha)].
    rewrite (endpointRefs_delete i (eps idx) e a s Ha). assert (cachedContribution (ipSetDataByID i) (endpointAt i a) s = []) as ->; [|done].
    unfold cachedContribution. rewrite decide_False; [done|]. by apply (jo_fresh _ _ Hj e a).
Qed.

Lemma joined_inv l i :
  joining (list_to_set l ∪ ∅) i → (∀ e, matches_ep idx2 (root sel) e → e ∈ l) → np_inv zeroID P0 B i.
Proof using Hinv Hproto Hci Hcs.
  intros Hj Hl. pose proof (jo_frame _ _ Hj) as Hf. pose proof (vf_strip _ _ Hf) as Hst. change (endpointAt idx2) with (endpointAt idx) in Hst.
  assert (Heps : eps i = eps idx) by (by rewrite (vf_endpoints _ _ Hf)).
  assert (Hm : meta <$> ipSetDataByID i = meta <$> sets') by apply Hf. split.
  - apply (visit_graph idx2 i Hf). destruct (ni_graph _ _ _ _ Hinv). by split.
  - eapply sets_ok_frame; [apply Hf|apply Hf|apply create_sets_ok].
  - intros e a. rewrite Heps, (vf_parentObjects _ _ Hf). cbn [parentObjects set_candidates set_ipSets]. intros Ha. split.
    + by apply (jo_cached _ _ Hj e).
    + intros t Ht. apply (matches_set_ext sets' _ _ (endpointAt idx a)); [done..|]. by apply (jo_sound _ _ Hj e).
    + intros t. rewrite (contribution_ext sets' _ _ (endpointAt idx a)) by done. intros Hne.
      destruct (jo_complete _ _ Hj e a t Ha Hne) as [|[-> Hn]]; [done|]. destruct Hn. apply elem_of_union_l, elem_of_list_to_set, Hl. exists a. split; [done|].
      unfold contribution in Hne. rewrite lookup_insert_eq in Hne. cbn in Hne. by case_match.
    + injection (Hst a) as _ -> _ _. apply (ni_ep _ _ _ _ Hinv e a Ha).
  - rewrite Heps. apply Hj.
  - rewrite Heps. pose proof (visit_total idx2 i Hf : total i (eps idx) = total idx (eps idx)) as ->. apply Hinv.
Qed.
End create.

(** The callback does not touch the graph. *)
Definition same_graph i i' : Prop := endpointKVIdx i' = endpointKVIdx i ∧ parentKVIdx i' = parentKVIdx i ∧ parentObjects i' = parentObjects i.

Lemma forEach_same_graph {A} (f : A → Index → outcome Empty_set Index) l : ∀ i i',
  (∀ x i i', f x i = Ret i' → same_graph i i') → forEach f l i = Ret i' → same_graph i i'.
Proof using Type.
  clear. induction l as [|x l IH]; intros i i' Hf; cbn [forEach]; [by intros [= <-]|]. intros (i1&H1%Hf&H2)%obind_Ret. apply IH in H2; [|done].
  unfold same_graph in *. naive_solver congruence.
Qed.

Lemma addNewMember_same_graph s m i i' : addNewMember s m i = Ret i' → same_graph i i'.
Proof using Type.
  clear. unfold addNewMember. intros (n&_&(i1&H1&[= <-])%obind_Ret)%obind_Ret. destruct (decide _).
  - unfold memberAdded in H1. apply obind_Ret in H1 as ([su es]&_&[= <-]). done.
  - by injection H1 as <-.
Qed.

Lemma contribute_keeps s sel : keeps_graph (EpID := EpID) (contributeEndpoint s sel).
Proof using Type.
  clear. intros a i i'. unfold contributeEndpoint. destruct (negb _); [by intros [= <-]|]. destruct (ipSetDataByID i !! s) as [sd|]; [|done].
  intros ([|m ms]&_&Hc)%obind_Ret; [by injection Hc as <-|]. apply obind_Ret in Hc as (i1&(c&_&[= <-])%obind_Ret&Hc).
  apply forEach_same_graph in Hc; [done|]. intros x j j'. apply addNewMember_same_graph.
Qed.

(** ** The operations *)
(** A client that is up to date may start afresh. *)
Lemma np_inv_clear P0 B idx : np_inv zeroID P0 B idx → ∃ P, replay (events idx) P0.2 = Ret P ∧ np_inv zeroID (P0.1, P) B (clear_events idx).
Proof using Type.
  intros [Hg Hs He [(M&(P&HP&Hinv&Hk)&HM) Hcnt Habs] Hb]. exists P. split; [done|]. split; try done; [by destruct Hg|by destruct Hs|].
  split; [|done..]. exists M. split; [|done]. by exists P.
Qed.

Lemma create_ok P0 B idx s sel proto port :
  np_inv zeroID P0 B idx → small B → ipSetDataByID idx !! s = None → is_Some (Node_LabelRestrictions (root sel)) → protocol_ok proto →
  ∃ i, (let idx1 := set_ipSets <[s := MkIPSetData sel proto port ∅]> idx in
        let! c := RestrictionIndex.AddSelector (rangeRestrictions go) (rangeRestrictions go) s sel (selectorCandidatesIdx idx1) in
        iterEndpointCandidates go s (contributeEndpoint s sel) (set_candidates c idx1)) = Ret i ∧ np_inv zeroID P0 B i ∧
    meta <$> ipSetDataByID i = <[s := MkIPSetData sel proto port ∅]> (meta <$> ipSetDataByID idx) ∧
    (∀ pid, labelsByID i pid = labelsByID idx pid) ∧ ∀ e, describe i e = describe idx e.
Proof using GoOrdersLaws0.
  intros Hinv Hsmall Hnone Hres Hpr. cbv zeta. destruct (RestrictionIndexSpec.AddSelector_ok (rangeRestrictions go) (rangeRestrictions go) s sel (selectorCandidatesIdx idx))
    as (c&Hc&Hci&Hcs); [intros x; apply law_Restrictions..|done|apply Hinv|]. cbn [selectorCandidatesIdx set_ipSets]. rewrite Hc. cbn [obind]. set (idx2 := set_candidates c _).
  assert (Hg2 : graph_ok zeroID idx2) by (destruct (ni_graph _ _ _ _ Hinv); by split).
  assert (Hcore : core_ok B idx) by (by apply np_inv_split in Hinv as [? _]).
  destruct (iterEndpointCandidates_ok zeroID go idx2 Hg2 (root sel) (contributeEndpoint s sel) s (MkIPSetData sel proto port ∅)) as (l&->&Hnd&Hl&Hall);
    [apply lookup_insert_eq|done|done|by apply (few_endpoints B idx)|apply contribute_keeps|].
  destruct (visit_loop (contributeEndpoint s sel) idx (joining P0 idx s sel proto port c) l ∅ idx2) as (i&->&Hi).
  { intros seen i Hi. apply (jo_frame _ _ _ _ _ _ _ _ _ Hi). } { intros seen i e a. by apply (join_step P0 B). } { done. }
  { intros e He. split; [by apply Hl|apply not_elem_of_empty]. } { by apply (joining_start P0 B). }
  exists i. pose proof (jo_frame _ _ _ _ _ _ _ _ _ Hi) as Hf. split_and!; [done| | |by apply (visit_labels idx2 i)|by apply (visit_describe idx2 i)].
  - by apply (joined_inv P0 B idx Hinv s sel proto port Hpr c Hci Hcs l i).
  - rewrite (vf_sets _ _ Hf). cbn. by rewrite fmap_insert.
Qed.

Lemma client_drop_empty P0 idx idx' M s :
  client_ok P0 idx M → M !!! s = ∅ → suppressor idx' = suppressor_DeleteIPSet (suppressor idx) s → events idx' = events idx →
  client_ok P0 idx' (delete s M).
Proof using Type.
  intros (P&HP&Hinv&Hk) Hempty Hsu Hev. exists P. rewrite Hev, Hsu. split; [done|]. split; [|rewrite <- Hk; by destruct (suppressor idx)]. destruct (drop_set _ _ _ s Hinv) as [Ht Hok Hcl]. split; [done|done|].
  intros i m. rewrite <- Hcl. destruct (decide (i = s)) as [->|Hne]; [|by rewrite lookup_total_delete_ne]. rewrite lookup_total_delete_eq.
  rewrite (si_client _ _ _ Hinv s m), Hempty. destruct (suppressor idx); cbn; unfold shown; clear; set_solver.
Qed.

Lemma bag_delete_sets M (bag bag' : Bag) s : bag_sets M bag → bag' s = [] → (∀ t, t ≠ s → bag' t = bag t) → bag_sets (delete s M) bag'.
Proof using Type.
  clear. intros HM Hs Ho t. destruct (decide (t = s)) as [->|Hne]; [by rewrite lookup_total_delete_eq, Hs|]. by rewrite lookup_total_delete_ne, Ho.
Qed.

(** A client that drops the set follows the deletion. *)
Lemma DeleteIPSet_ok P0 B idx s :
  np_inv zeroID P0 B idx → small B →
  ∃ i P, DeleteIPSet go s idx = Ret i ∧ replay (events i) P0.2 = Ret P ∧ np_inv zeroID (P0.1, delete s P) B (clear_events i) ∧
    meta <$> ipSetDataByID i = delete s (meta <$> ipSetDataByID idx) ∧ (∀ pid, labelsByID i pid = labelsByID idx pid) ∧ ∀ e, describe i e = describe idx e.
Proof using GoOrdersLaws0.
  intros Hinv Hsmall. pose proof Hinv as [Hcore [(M&(P&HP&Hsi&Hk)&HM) Hcnt Habs]]%np_inv_split. destruct (ipSetDataByID idx !! s) as [sd|] eqn:Hsd.
  - destruct (DeleteIPSet_present B idx Hcore Hsmall s sd Hsd) as (i&->&[Hg Hs He Hb]&Hsets&Hev&Hsu&Hrefs&Hlab&Hdesc). exists i, P.
    split_and!; [done|by rewrite Hev| |by rewrite Hsets, fmap_delete|done|done]. split; try done; [by destruct Hg|by destruct Hs|]. split.
    + exists (delete s M). split.
      * exists (delete s P). split; [done|]. cbn. rewrite Hsu. split; [by apply drop_set|]. rewrite <- Hk. by destruct (suppressor idx).
      * apply (bag_delete_sets M (endpointRefs idx (eps idx))); [done|by apply (eq_trans (Hrefs s)); rewrite decide_True|].
        intros t Hne. apply (eq_trans (Hrefs t)). by rewrite decide_False.
    + intros t x. cbn. rewrite Hsets. intros [Hne Ht]%lookup_delete_Some. apply (eq_ind_r (counts_ok _)  (Hcnt t x Ht)). apply (eq_trans (Hrefs t)). by rewrite decide_False.
    + intros t. cbn. rewrite Hsets. intros Ht%lookup_delete_None. apply (eq_trans (Hrefs t)). destruct Ht as [->|Ht]; [by rewrite decide_True|]. case_decide; [done|by apply Habs].
  - exists idx, P. unfold DeleteIPSet. rewrite Hsd. split_and!; [done|done| |by rewrite delete_id by (by rewrite lookup_fmap, Hsd)|done|done].
    destruct (np_inv_clear P0 B idx Hinv) as (P'&HP'&Hinv'). assert (P' = P) as -> by congruence. apply np_inv_split. apply np_inv_split in Hinv' as [Hc' _]. split; [done|].
    split; [|done..]. exists M. split; [|done]. exists (delete s P). split; [done|]. split; [|done]. cbn. destruct Hsi as [Ht Hok Hcl]. split; [done|done|]. intros t m.
    rewrite <- Hcl. destruct (decide (t = s)) as [->|Hne]; [|by rewrite lookup_total_delete_ne]. rewrite lookup_total_delete_eq, Hcl, HM, Habs by done.
    destruct (suppressor idx); cbn; unfold shown; clear; set_solver.
Qed.

Lemma frame_core B idx i : frame idx i → ipSetDataByID i = ipSetDataByID idx → core_ok B idx → core_ok B i.
Proof using Type.
  intros Hfr Hs [Hg Hso He Hb]. assert (Hf : visit_frame idx i) by (by apply (scan_visit 0), frame_scan).
  assert (Hat : ∀ a, endpointAt i a = endpointAt idx a) by (intros a; unfold endpointAt; by rewrite (fr_endpointObjects _ _ Hfr)). split.
  - by apply (visit_graph idx).
  - eapply sets_ok_frame; [apply Hf|apply Hf|done].
  - intros e a. rewrite (vf_endpoints _ _ Hf), Hat, Hs, (vf_parentObjects _ _ Hf). apply He.
  - rewrite (vf_endpoints _ _ Hf), (visit_total idx i Hf). done.
Qed.

(** Before a set is replaced its members are withdrawn, and the old set is deleted. *)
Lemma withdraw_ok P0 B idx s old :
  np_inv zeroID P0 B idx → small B → ipSetDataByID idx !! s = Some old →
  ∃ i1 i, forEach (memberRemoved s) (rangeMembers go (memberToRefCount old)) idx = Ret i1 ∧ DeleteIPSet go s i1 = Ret i ∧ np_inv zeroID P0 B i ∧
    ipSetDataByID i = delete s (ipSetDataByID idx) ∧ (∀ pid, labelsByID i pid = labelsByID idx pid) ∧ ∀ e, describe i e = describe idx e.
Proof using GoOrdersLaws0.
  intros Hinv Hsmall Hold. pose proof Hinv as [Hcore [(M&Hcl&HM) Hcnt Habs]]%np_inv_split.
  destruct (removeMembers_ok P0 s (rangeMembers go (memberToRefCount old)) idx M Hcl) as (i1&M'&Hrem&Hcl1&HM'&Hfr1&Hs1).
  { rewrite law_Members. apply NoDup_fst_map_to_list. }
  { intros m. rewrite law_Members, HM, elem_of_list_to_set, list_elem_of_fmap. pose proof (Hcnt s old Hold m) as Hm. split.
    - intros ([m' n]&->&Hn%elem_of_map_to_list). cbn [fst] in *. rewrite Hn in Hm. case_decide as Hz; [done|]. apply dec_stable. by rewrite <- occ_zero.
    - intros Hin. exists (m, Z.of_nat (occ m (endpointRefs idx (eps idx) s))). split; [done|]. rewrite elem_of_map_to_list, Hm, decide_False; [done|]. rewrite occ_zero. by intros Hn. }
  pose proof (frame_core B idx i1 Hfr1 Hs1 Hcore) as Hcore1. destruct (DeleteIPSet_present B i1 Hcore1 Hsmall s old) as (i&Hdel&Hcore'&Hsets&Hev&Hsu&Hrefs&Hlab&Hdesc); [by rewrite Hs1|].
  assert (Hf1 : visit_frame idx i1) by (by apply (scan_visit 0), frame_scan).
  assert (Hrefs1 : ∀ t, endpointRefs i1 (eps i1) t = endpointRefs idx (eps idx) t).
  { intros t. rewrite (vf_endpoints _ _ Hf1). apply endpointRefs_ext. intros e a _. unfold endpointAt. by rewrite Hs1, (fr_endpointObjects _ _ Hfr1). }
  exists i1, i. rewrite Hs1 in Hsets. split_and!; [done|done| |done| |].
  - apply np_inv_split. split; [done|]. split.
    + exists (delete s M'). split; [apply (client_drop_empty P0 i1); try done; by rewrite HM', decide_True|]. intros t. destruct (decide (t = s)) as [->|Hne].
      * by rewrite lookup_total_delete_eq, Hrefs, decide_True.
      * by rewrite lookup_total_delete_ne, HM', Hrefs, Hrefs1, !decide_False.
    + intros t x. rewrite Hsets. intros [Hne Ht]%lookup_delete_Some. rewrite Hrefs, Hrefs1, decide_False by done. by apply Hcnt.
    + intros t. rewrite Hsets, Hrefs, Hrefs1. intros Ht%lookup_delete_None. case_decide; [done|]. destruct Ht as [->|Ht]; [done|by apply Habs].
  - intros pid. rewrite Hlab. by apply visit_labels.
  - intros e. rewrite Hdesc. by apply visit_describe.
Qed.

(** The index keeps the old set when the new one has the same selector, by hash, and port. *)
Definition unchanged_set (old : option ipSetData) (sel : Selector) (proto : Protocol) (port : string) : bool :=
  match old with
  | Some old => bool_decide (hash sel = hash (is_selector old)) && bool_decide (namedPortProtocol old = proto) && bool_decide (namedPort old = port)
  | None => false
  end.

Lemma UpdateIPSet_ok P0 B idx s sel proto port :
  np_inv zeroID P0 B idx → small B → is_Some (Node_LabelRestrictions (root sel)) → protocol_ok proto →
  ∃ i, UpdateIPSet go s (Some sel) proto port idx = Ret i ∧ np_inv zeroID P0 B i ∧
    meta <$> ipSetDataByID i = (if unchanged_set (ipSetDataByID idx !! s) sel proto port then meta <$> ipSetDataByID idx
      else <[s := MkIPSetData sel proto port ∅]> (meta <$> ipSetDataByID idx)) ∧
    (∀ pid, labelsByID i pid = labelsByID idx pid) ∧ ∀ e, describe i e = describe idx e.
Proof using GoOrdersLaws0.
  intros Hinv Hsmall Hres Hpr. unfold UpdateIPSet. destruct (ipSetDataByID idx !! s) as [old|] eqn:Hold; cbn [unchanged_set]; [|by apply create_ok].
  destruct (_ && _) eqn:Hsame; [by exists idx|]. destruct (withdraw_ok P0 B idx s old Hinv Hsmall Hold) as (i1&i2&->&Hdel&Hinv2&Hs2&Hlab2&Hdesc2).
  cbn [obind]. rewrite Hdel. cbn [obind].
  destruct (create_ok P0 B i2 s sel proto port Hinv2 Hsmall) as (i&Hcreate&Hi&Hs&Hlab&Hdesc); [rewrite Hs2; apply lookup_delete_eq|done|done|].
  exists i. split_and!; [exact Hcreate|done| | |].
  - rewrite Hs, Hs2, fmap_delete. apply insert_delete_eq.
  - intros pid. by rewrite Hlab.
  - intros e. by rewrite Hdesc.
Qed.
End sets.
