(* ===== verification/NamedPortCorrect.v ===== *)
(** * The named port index computes the members of IP sets

    The index and a client of its callbacks, side by side, over any history of updates; what
    the client holds in the end is a function of the endpoints, the profiles and the IP sets
    that the history leaves. *)
From S2P Require Import Prelude ModelRule SelectorAST SelectorParser UniqueLabels AdaptiveSet GoSet.
From S2P Require Import InheritIndexSpec InheritIndexCorrect RestrictionIndex RestrictionIndexSpec NameValueIndex NameValueIndexSpec.
From S2P Require Import CIDR CIDRTrie CIDRTrieSpec CIDRTrieCorrect MemberDedup MemberDedupSpec.
From stdpp Require Import base list gmap numbers strings sorting.
From S2P Require Import NamedPortIndex NamedPortMembers NamedPortCandidates NamedPortScan NamedPortGraph NamedPortInv NamedPortOps NamedPortParents NamedPortSets.
From stdpp Require Import options.

(** ** The specification *)
(** What the endpoint [nets], [ports] offers to a set. *)
Definition offers (proto : Protocol) (port : string) (nets : list CIDR) (ports : list EndpointPort) (m : IPSetMember) : Prop :=
  if decide (proto = ProtocolNone) then ∃ c, c ∈ nets ∧ m = MakeCIDROrIPOnly c
  else ∃ c p pr, c ∈ nets ∧ p ∈ ports ∧ ep_Name p = port ∧ MatchesModelProtocol proto (ep_Protocol p) = Ret true ∧
         ProtocolFrom (ep_Protocol p) = Ret pr ∧ m = MakeIPPortProto (AddrOf c) (ep_Port p) pr.

Lemma elem_of_lookupPorts ports name proto l x :
  lookupPorts ports name proto = Ret l →
  x ∈ l ↔ ∃ p pr, p ∈ ports ∧ ep_Name p = name ∧ MatchesModelProtocol proto (ep_Protocol p) = Ret true ∧ ProtocolFrom (ep_Protocol p) = Ret pr ∧
                  x = MkContribution pr (ep_Port p).
Proof.
  revert l. induction ports as [|q ports IH]; intros l; cbn [lookupPorts].
  { intros [= <-]. setoid_rewrite elem_of_nil. naive_solver. }
  intros (b&Hb&Hl)%obind_Ret. setoid_rewrite elem_of_cons. destruct b.
  - apply obind_Ret in Hl as (pr&Hpr&(rest&Hrest&[= <-])%obind_Ret). rewrite elem_of_cons, (IH rest Hrest).
    destruct (decide (ep_Name q = name)) as [Hname|]; [|done]. split.
    + intros [->|(p&pr'&Hp&Hrest')]; [exists q, pr; auto|exists p, pr'; auto].
    + intros (p&pr'&[->|Hp]&Hn&Hm&Hpr'&->); [left; congruence|right; eauto 10].
  - rewrite (IH l Hl). split.
    + intros (p&pr'&Hp&Hrest'). exists p, pr'. auto.
    + intros (p&pr'&[->|Hp]&Hn&Hm&Hrest'); [|eauto 10]. rewrite decide_True in Hb by done. congruence.
Qed.

Lemma elem_of_contrib d s m :
  protocol_ok (namedPortProtocol s) → m ∈ contrib d s ↔ offers (namedPortProtocol s) (namedPort s) (ed_nets d) (ed_ports d) m.
Proof.
  intros Hp. destruct (contrib_cases d s Hp) as (Hc&_). unfold CalculateEndpointContribution in Hc. unfold offers.
  destruct (decide (namedPortProtocol s = ProtocolNone)) as [Hn|Hn].
  - rewrite decide_False in Hc by tauto. injection Hc as <-. rewrite list_elem_of_fmap. naive_solver.
  - rewrite decide_True in Hc by done. apply obind_Ret in Hc as (l&Hl&[= Heq]). rewrite <- Heq, list_elem_of_bind.
    unfold LookupNamedPorts in Hl. split.
    + intros (x&(c&->&Hc)%list_elem_of_fmap&(p&pr&Hp'&Hn'&Hm&Hpr&->)%(elem_of_lookupPorts _ _ _ l _ Hl)). exists c, p, pr. by split_and!.
    + intros (c&p&pr&Hc&Hp'&Hn'&Hm&Hpr&->). exists (MkContribution pr (ep_Port p)). split; [apply list_elem_of_fmap; by exists c|].
      apply (elem_of_lookupPorts _ _ _ l _ Hl). exists p, pr. by split_and!.
Qed.

Section correct.
Context `{Countable EpID}.

(** What the updates so far have said. *)
Record World := MkWorld {
  w_endpoints : gmap EpID EndpointInfo;
  w_parents : gmap string (gmap string string);
  w_sets : gmap string (Selector * Protocol * string)
}.

Inductive NPOp :=
  | OpUpdateEndpoint (id : EpID) (labels : uniquelabels.Map) (nets : list CIDR) (ports : list EndpointPort) (parentIDs : list string)
  | OpDeleteEndpoint (id : EpID)
  | OpUpdateParent (id : string) (labels : uniquelabels.Map)
  | OpDeleteParent (id : string)
  | OpUpdateIPSet (id : string) (sel : Selector) (protocol : Protocol) (port : string)
  | OpDeleteIPSet (id : string).

Definition emptyWorld : World := MkWorld ∅ ∅ ∅.

Definition world_step (w : World) (op : NPOp) : World :=
  match op with
  | OpUpdateEndpoint id labels nets ports pids => MkWorld (<[id := (uniquelabels.entries labels, nets, ports, pids)]> (w_endpoints w)) (w_parents w) (w_sets w)
  | OpDeleteEndpoint id => MkWorld (delete id (w_endpoints w)) (w_parents w) (w_sets w)
  | OpUpdateParent id labels => MkWorld (w_endpoints w) (<[id := uniquelabels.entries labels]> (w_parents w)) (w_sets w)
  | OpDeleteParent id => MkWorld (w_endpoints w) (delete id (w_parents w)) (w_sets w)
  | OpUpdateIPSet id sel protocol port => MkWorld (w_endpoints w) (w_parents w) (<[id := (sel, protocol, port)]> (w_sets w))
  | OpDeleteIPSet id => MkWorld (w_endpoints w) (w_parents w) (delete id (w_sets w))
  end.

Definition profileLabels (w : World) (pid : string) : gmap string string := default ∅ (w_parents w !! pid).

(** Own labels first, then those of the profiles in their order. *)
Definition worldLabels (w : World) (own : gmap string string) (pids : list string) : gmap string string :=
  own ∪ foldr (λ pid m, profileLabels w pid ∪ m) ∅ pids.

Definition wanted (w : World) (s : string) (m : IPSetMember) : Prop :=
  ∃ sel proto port e own nets ports pids,
    w_sets w !! s = Some (sel, proto, port) ∧ w_endpoints w !! e = Some (own, nets, ports, pids) ∧
    Evaluate (root sel) (worldLabels w own pids) = true ∧ offers proto port nets ports m.

(** ** Index and client side by side *)
Context (zeroID : EpID) (go : GoOrders EpID) `{!GoOrdersLaws go}.
Abbreviation Index := (SelectorAndNamedPortIndex (EpID := EpID)).
Implicit Types (idx i : Index) (w : World).

Definition np_op (op : NPOp) idx : outcome Empty_set Index :=
  match op with
  | OpUpdateEndpoint id labels nets ports pids => UpdateEndpointOrSet zeroID go id labels nets ports pids idx
  | OpDeleteEndpoint id => DeleteEndpoint zeroID go id idx
  | OpUpdateParent id labels => UpdateParentLabels go id labels idx
  | OpDeleteParent id => DeleteParentLabels go id idx
  | OpUpdateIPSet id sel protocol port => UpdateIPSet go id (Some sel) protocol port idx
  | OpDeleteIPSet id => DeleteIPSet go id idx
  end.

(** The client replays the callbacks of the operation, and drops a set that is deleted. *)
Definition np_step (op : NPOp) (st : Index * Sets) : outcome Empty_set (Index * Sets) :=
  let! idx := np_op op (clear_events st.1) in
  let! P := replay (events idx) st.2 in
  Ret (clear_events idx, match op with OpDeleteIPSet id => delete id P | _ => P end).

Fixpoint np_run (ops : list NPOp) (st : Index * Sets) : outcome Empty_set (Index * Sets) :=
  match ops with [] => Ret st | op :: ops' => let! st' := np_step op st in np_run ops' st' end.

Context (MakeUniqueID : string → string → string).

Definition np_op_ok (op : NPOp) : Prop :=
  match op with
  | OpUpdateEndpoint _ _ nets _ pids => Forall net_ok nets ∧ NoDup pids
  | OpUpdateIPSet _ sel proto _ => parsed MakeUniqueID sel ∧ protocol_ok proto
  | _ => True
  end.

Definition opWeight (op : NPOp) : nat := match op with OpUpdateEndpoint _ _ nets ports _ => S (weight nets ports) | _ => 0 end.

(** ** Index and world *)
Definition set_rel (sd : option ipSetData) (spec : option (Selector * Protocol * string)) : Prop :=
  match sd, spec with
  | Some sd, Some (sel, proto, port) =>
      parsed MakeUniqueID (is_selector sd) ∧ parsed MakeUniqueID sel ∧ hash (is_selector sd) = hash sel ∧ namedPortProtocol sd = proto ∧ namedPort sd = port
  | None, None => True
  | _, _ => False
  end.

Record world_rel idx w : Prop := {
  wr_endpoints e : describe idx e = w_endpoints w !! e;
  wr_parents pid : labelsByID idx pid = profileLabels w pid;
  wr_sets s : set_rel (meta <$> ipSetDataByID idx !! s) (w_sets w !! s)
}.

Lemma world_rel_empty b : world_rel (NewSelectorAndNamedPortIndex b) emptyWorld.
Proof using Type. by split. Qed.

(** ** The members that are wanted are those that are referred to *)
Context (Hhash : ∀ c1 c2, MakeUniqueID "s" c1 = MakeUniqueID "s" c2 → c1 = c2).
Abbreviation eps idx := (allItems (endpointKVIdx idx)).

Lemma worldLabels_effective idx w e a :
  graph_ok zeroID idx → world_rel idx w → eps idx !! e = Some a →
  effectiveLabels (parentObjects idx) (endpointAt idx a) =
    worldLabels w (uniquelabels.entries (ed_labels (endpointAt idx a))) ((λ p, pd_id (deref (parentObjects idx) p)) <$> ed_parents (endpointAt idx a)).
Proof using Type.
  intros Hg [_ Hp _] Ha. unfold effectiveLabels, worldLabels, inheritedLabels. f_equal.
  assert (Hps : ∀ p, p ∈ ed_parents (endpointAt idx a) → parentLabels (parentObjects idx) p = profileLabels w (pd_id (deref (parentObjects idx) p))).
  { intros p Hin. rewrite <- Hp. unfold labelsByID. destruct (gr_child _ _ Hg e a p Ha Hin) as [-> _]. done. }
  induction (ed_parents (endpointAt idx a)) as [|p ps IH]; [done|]. cbn. rewrite Hps by apply list_elem_of_here. f_equal. apply IH.
  intros q Hq. apply Hps. by apply list_elem_of_further.
Qed.

Lemma elem_of_endpointRefs idx items s m :
  m ∈ endpointRefs idx items s ↔ ∃ e a, items !! e = Some a ∧ m ∈ cachedContribution (ipSetDataByID idx) (endpointAt idx a) s.
Proof using Type.
  unfold endpointRefs. rewrite list_elem_of_bind. split.
  - intros ([e a]&Hm&Hea%elem_of_map_to_list). eauto.
  - intros (e&a&Ha&Hm). exists (e, a). by rewrite elem_of_map_to_list.
Qed.

Lemma wanted_refs P0 B idx w s m :
  np_inv zeroID P0 B idx → world_rel idx w → m ∈ endpointRefs idx (eps idx) s ↔ wanted w s m.
Proof using Hhash.
  clear GoOrdersLaws0 go. intros Hinv Hw. pose proof (ni_graph _ _ _ _ Hinv) as Hg. rewrite elem_of_endpointRefs. unfold wanted. pose proof (wr_sets _ _ Hw s) as Hs.
  assert (Hep : ∀ e a, eps idx !! e = Some a → cachedContribution (ipSetDataByID idx) (endpointAt idx a) s
    = contribution (ipSetDataByID idx) (parentObjects idx) (endpointAt idx a) s) by (intros e a Ha; by apply cached_contribution, (ni_ep _ _ _ _ Hinv e)).
  assert (Hdesc : ∀ e, describeAt idx <$> eps idx !! e = w_endpoints w !! e) by apply Hw.
  destruct (ipSetDataByID idx !! s) as [sd|] eqn:Hsd; cbn in Hs.
  - destruct (w_sets w !! s) as [[[sel proto] port]|]; [|done]. destruct Hs as (Hp1&Hp2&Hh&Hpr&Hpo). cbn in Hh, Hpr, Hpo.
    pose proof (so_protocol _ (ni_sets _ _ _ _ Hinv) s sd Hsd) as Hproto.
    assert (Hm : ∀ e a, eps idx !! e = Some a → m ∈ contribution (ipSetDataByID idx) (parentObjects idx) (endpointAt idx a) s ↔
      Evaluate (root sel) (worldLabels w (uniquelabels.entries (ed_labels (endpointAt idx a))) ((λ p, pd_id (deref (parentObjects idx) p)) <$> ed_parents (endpointAt idx a))) = true
      ∧ offers proto port (ed_nets (endpointAt idx a)) (ed_ports (endpointAt idx a)) m).
    { intros e a Ha. unfold contribution. rewrite Hsd, <- (worldLabels_effective idx w e a Hg Hw Ha), effective_Evaluate.
      rewrite (same_hash_Evaluate MakeUniqueID Hhash (is_selector sd) sel) by done. destruct (Evaluate (root sel) _); [|set_solver].
      rewrite elem_of_contrib by done. rewrite Hpr, Hpo. naive_solver. }
    split.
    + intros (e&a&Ha&Hin). rewrite (Hep e a Ha), (Hm e a Ha) in Hin. destruct Hin as [Hev Hof]. specialize (Hdesc e). rewrite Ha in Hdesc.
      exists sel, proto, port, e. do 4 eexists. split_and!; [done|exact (eq_sym Hdesc)|done|done].
    + intros (sel'&proto'&port'&e&own&nets&ports&pids&[= <- <- <-]&He&Hev&Hof). rewrite <- Hdesc in He. destruct (eps idx !! e) as [a|] eqn:Ha; [|done].
      injection He as <- <- <- <-. exists e, a. split; [done|]. by rewrite (Hep e a Ha), (Hm e a Ha).
  - destruct (w_sets w !! s) as [|]; [done|]. split; [|naive_solver]. intros (e&a&Ha&Hin). rewrite (Hep e a Ha) in Hin. unfold contribution in Hin.
    rewrite Hsd in Hin. set_solver.
Qed.

(** ** One step *)
Lemma parsed_restrictions sel : parsed MakeUniqueID sel → is_Some (Node_LabelRestrictions (root sel)).
Proof using Type. intros [Hwf _]%parsed_hash. by apply Node_LabelRestrictions_wf. Qed.

Lemma set_rel_meta idx i w s : meta <$> ipSetDataByID i = meta <$> ipSetDataByID idx → world_rel idx w → set_rel (meta <$> ipSetDataByID i !! s) (w_sets w !! s).
Proof using Type. intros Hm Hw. rewrite <- lookup_fmap, Hm, lookup_fmap. apply Hw. Qed.

Lemma updated_sets idx i w id sel proto port s :
  world_rel idx w → parsed MakeUniqueID sel →
  meta <$> ipSetDataByID i = (if unchanged_set (ipSetDataByID idx !! id) sel proto port then meta <$> ipSetDataByID idx
    else <[id := MkIPSetData sel proto port ∅]> (meta <$> ipSetDataByID idx)) →
  set_rel (meta <$> ipSetDataByID i !! s) (<[id := (sel, proto, port)]> (w_sets w) !! s).
Proof using Type.
  intros Hw Hsel Hm. rewrite <- lookup_fmap, Hm. pose proof (wr_sets _ _ Hw s) as Hs. destruct (decide (s = id)) as [->|Hne].
  - rewrite lookup_insert_eq. destruct (unchanged_set _ _ _ _) eqn:Hun; [|by rewrite lookup_insert_eq]. rewrite lookup_fmap.
    destruct (ipSetDataByID idx !! id) as [sd|]; [|done]. cbn in Hun, Hs |- *. apply andb_true_iff in Hun as [[Hh Hp]%andb_true_iff Hpo].
    apply bool_decide_eq_true in Hh, Hp, Hpo. destruct (w_sets w !! id) as [[[sel' proto'] port']|]; [|done]. destruct Hs as (?&_&_&_&_). by split_and!.
  - rewrite lookup_insert_ne by done. destruct (unchanged_set _ _ _ _); rewrite ?lookup_insert_ne, lookup_fmap by done; done.
Qed.

Lemma np_step_ok P0 b B w idx op :
  np_inv zeroID (b, P0) B (clear_events idx) → world_rel (clear_events idx) w → small (B + opWeight op) → np_op_ok op →
  ∃ idx' P, np_step op (idx, P0) = Ret (idx', P) ∧ np_inv zeroID (b, P) (B + opWeight op) (clear_events idx') ∧ world_rel (clear_events idx') (world_step w op).
Proof using GoOrdersLaws0.
  intros Hinv Hw Hsmall Hop. assert (HsmallB : small B) by (unfold small in *; lia). unfold np_step. cbn [fst snd]. pose proof Hw as [He Hp Hs].
  assert (Hkeep : ∀ i w' B', np_op op (clear_events idx) = Ret i → np_inv zeroID (b, P0) B' i → world_rel i w' →
    ∃ P, (let! i' := np_op op (clear_events idx) in let! P := replay (events i') P0 in Ret (clear_events i', P)) = Ret (clear_events i, P) ∧
      np_inv zeroID (b, P) B' (clear_events i) ∧ world_rel (clear_events i) w').
  { intros i w' B' Hi Hni [H1 H2 H3]. destruct (np_inv_clear zeroID (b, P0) B' i Hni) as (P&HP&Hni'). cbn in HP. exists P. rewrite Hi. cbn [obind]. by rewrite HP. }
  destruct op as [id labels nets ports pids|id|id labels|id|id sel proto port|id]; cbn [np_op opWeight np_op_ok world_step] in *; rewrite ?Nat.add_0_r.
  - destruct Hop as [Hn Hnd]. destruct (UpdateEndpointOrSet_ok zeroID go (b, P0) B _ id labels nets ports pids Hinv Hn Hnd Hsmall) as (i&Hi&Hni&Hm&Hl&Hd).
    destruct (Hkeep i (MkWorld (<[id := (uniquelabels.entries labels, nets, ports, pids)]> (w_endpoints w)) (w_parents w) (w_sets w)) _ Hi Hni) as (P&Hrun&Hni'&Hw'); [|by eauto].
    split; [|intros pid; rewrite Hl; apply Hp|intros s; exact (set_rel_meta (clear_events idx) i w s Hm Hw)]. intros e. rewrite Hd. cbn.
    destruct (decide (e = id)) as [->|]; [by rewrite lookup_insert_eq|rewrite lookup_insert_ne by done; apply He].
  - destruct (DeleteEndpoint_ok zeroID go (b, P0) B _ id Hinv HsmallB) as (i&Hi&Hni&Hm&Hl&Hd).
    destruct (Hkeep i (MkWorld (delete id (w_endpoints w)) (w_parents w) (w_sets w)) _ Hi Hni) as (P&Hrun&Hni'&Hw'); [|by eauto].
    split; [|intros pid; rewrite Hl; apply Hp|intros s; exact (set_rel_meta (clear_events idx) i w s Hm Hw)]. intros e. rewrite Hd. cbn.
    destruct (decide (e = id)) as [->|]; [by rewrite lookup_delete_eq|rewrite lookup_delete_ne by done; apply He].
  - destruct (UpdateParentLabels_ok zeroID go (b, P0) B _ id labels Hinv HsmallB) as (i&Hi&Hni&Hm&Hl&Hd).
    destruct (Hkeep i (MkWorld (w_endpoints w) (<[id := uniquelabels.entries labels]> (w_parents w)) (w_sets w)) _ Hi Hni) as (P&Hrun&Hni'&Hw'); [|by eauto].
    split; [intros e; rewrite Hd; apply He| |intros s; exact (set_rel_meta (clear_events idx) i w s Hm Hw)]. intros pid. rewrite Hl. unfold profileLabels. cbn.
    destruct (decide (pid = id)) as [->|]; [by rewrite lookup_insert_eq|rewrite lookup_insert_ne by done; apply Hp].
  - destruct (DeleteParentLabels_ok zeroID go (b, P0) B _ id Hinv HsmallB) as (i&Hi&Hni&Hm&Hl&Hd).
    destruct (Hkeep i (MkWorld (w_endpoints w) (delete id (w_parents w)) (w_sets w)) _ Hi Hni) as (P&Hrun&Hni'&Hw'); [|by eauto].
    split; [intros e; rewrite Hd; apply He| |intros s; exact (set_rel_meta (clear_events idx) i w s Hm Hw)]. intros pid. rewrite Hl. unfold profileLabels. cbn.
    destruct (decide (pid = id)) as [->|]; [by rewrite lookup_delete_eq|rewrite lookup_delete_ne by done; apply Hp].
  - destruct Hop as [Hsel Hpr]. destruct (UpdateIPSet_ok zeroID go (b, P0) B _ id sel proto port Hinv HsmallB (parsed_restrictions sel Hsel) Hpr) as (i&Hi&Hni&Hm&Hl&Hd).
    destruct (Hkeep i (MkWorld (w_endpoints w) (w_parents w) (<[id := (sel, proto, port)]> (w_sets w))) _ Hi Hni) as (P&Hrun&Hni'&Hw'); [|by eauto].
    split; [intros e; rewrite Hd; apply He|intros pid; rewrite Hl; apply Hp|]. intros s. exact (updated_sets (clear_events idx) i w id sel proto port s Hw Hsel Hm).
  - destruct (DeleteIPSet_ok zeroID go (b, P0) B _ id Hinv HsmallB) as (i&P&Hi&HP&Hni&Hm&Hl&Hd). rewrite Hi. cbn [obind]. cbn in HP. rewrite HP. cbn [obind].
    do 2 eexists. split_and!; [done|done|]. split; cbn.
    + intros e. apply (eq_trans (Hd e)), He.
    + intros pid. apply (eq_trans (Hl pid)), Hp.
    + intros s. rewrite <- lookup_fmap, Hm. destruct (decide (s = id)) as [->|Hne]; [by rewrite !lookup_delete_eq|].
      rewrite !lookup_delete_ne, lookup_fmap by done. apply Hs.
Qed.

Lemma np_run_ok ops : ∀ P0 b B w idx,
  np_inv zeroID (b, P0) B (clear_events idx) → world_rel (clear_events idx) w → small (B + sum_list_with opWeight ops) → Forall np_op_ok ops →
  ∃ idx' P, np_run ops (idx, P0) = Ret (idx', P) ∧ np_inv zeroID (b, P) (B + sum_list_with opWeight ops) (clear_events idx') ∧
    world_rel (clear_events idx') (foldl world_step w ops).
Proof using GoOrdersLaws0.
  induction ops as [|op ops IH]; intros P0 b B w idx Hinv Hw Hsmall Hops; cbn [np_run foldl sum_list_with].
  { exists idx, P0. by rewrite Nat.add_0_r. }
  apply list.Forall_cons in Hops as [Hop Hops]. cbn [sum_list_with] in Hsmall.
  destruct (np_step_ok P0 b B w idx op Hinv Hw) as (idx1&P1&->&Hinv1&Hw1); [unfold small in *; lia|done|]. cbn [obind]. rewrite Nat.add_assoc in Hsmall |- *.
  by apply IH.
Qed.

Lemma np_inv_New b : np_inv zeroID (b, ∅) 0 (clear_events (NewSelectorAndNamedPortIndex b)).
Proof using Type.
  split; try done.
  - split; [apply RestrictionIndexSpec.index_ok_New|done|done].
  - split; [|done|done]. exists ∅. split.
    + exists ∅. split_and!; [done| |by destruct b]. apply sets_inv_empty. destruct b; [by left|by right].
    + intros s. by rewrite lookup_total_empty.
Qed.

(** What the client of an index holds. *)
Lemma np_members b B P idx w s :
  np_inv zeroID (b, P) B (clear_events idx) → world_rel (clear_events idx) w →
  ∃ X, (∀ m, m ∈ X ↔ wanted w s m) ∧ ∀ m, m ∈ P !!! s ↔ if b then shown X m else m ∈ X.
Proof using Hhash.
  intros Hinv Hw. destruct (mo_client _ _ _ (ni_members _ _ _ _ Hinv)) as (M&(P'&HP'&Hsi&Hk)&HM). injection HP' as ->. cbn in Hk. exists (M !!! s). split.
  - intros m. rewrite HM, elem_of_list_to_set. exact (wanted_refs _ _ (clear_events idx) _ s m Hinv Hw).
  - intros m. rewrite (si_client _ _ _ Hsi). cbn. rewrite <- Hk. by destruct (suppressor idx).
Qed.

(** C8: let endpoints and network sets, profiles and IP sets be updated and deleted in any order
    (profiles of an endpoint without duplicates, selectors from the parser, protocols that name
    TCP, UDP, SCTP, any or none, less than [2^62] addresses times ports in all).  The index does
    not panic, whatever the orders in which Go ranges over maps, and the callbacks never add a
    member that the client has nor remove one that it has not.  In the end the client holds, for
    each IP set, exactly what the endpoints that match its selector, by their own labels and
    those of their profiles, offer to it: their addresses with the named port, or their CIDRs;
    with overlap suppression, those of them that no other member covers. *)
Theorem named_port_index_correct (suppressOverlaps : bool) (ops : list NPOp) :
  Forall np_op_ok ops → small (sum_list_with opWeight ops) →
  ∃ idx P, np_run ops (NewSelectorAndNamedPortIndex suppressOverlaps, ∅) = Ret (idx, P) ∧
    ∀ s, ∃ X, (∀ m, m ∈ X ↔ wanted (foldl world_step emptyWorld ops) s m) ∧
      ∀ m, m ∈ P !!! s ↔ if suppressOverlaps then shown X m else m ∈ X.
Proof using GoOrdersLaws0 Hhash.
  intros Hops Hsmall. destruct (np_run_ok ops ∅ suppressOverlaps 0 emptyWorld _ (np_inv_New suppressOverlaps)) as (idx&P&Hrun&Hinv&Hw); [by apply world_rel_empty|done|done|].
  exists idx, P. split; [done|]. intros s. by eapply np_members.
Qed.
End correct.

(** ** Examples *)
Definition exampleOrders : GoOrders nat :=
  MkGoOrders _ _ _ elements elements map_to_list map_to_list (λ m, (map_to_list m).*1) (λ m, (map_to_list m).*1) map_to_list map_to_list
    (λ m, (map_to_list m).*1) map_to_list (λ _ l, l) (λ _ l, l).

#[global] Instance exampleOrders_laws : GoOrdersLaws exampleOrders.
Proof. by split. Qed.

Definition tcpPort : EndpointPort := MkEndpointPort "http" (MkModelProtocol NumOrStringString 0 "TCP") 80.

(** Two endpoints inherit [b] from a profile that comes after them; the second then gives up one
    of its CIDRs, and the other covers the address of the first. *)
Definition namedPortExample : list (NPOp (EpID := nat)) :=
  [OpUpdateIPSet "all" exampleSelector ProtocolNone ""; OpUpdateIPSet "web" exampleSelector ProtocolTCP "http";
   OpUpdateEndpoint 1 uniquelabels.Nil [host10] [tcpPort] ["prof"]; OpUpdateEndpoint 2 uniquelabels.Nil [net10_1; net10_2] [] ["prof"];
   OpUpdateParent "prof" (Some {["b" := "2"]}); OpUpdateEndpoint 2 uniquelabels.Nil [net10_1] [] ["prof"]].

Lemma namedPortExample_ok : Forall (np_op_ok exampleHash) namedPortExample.
Proof.
  destruct example_cidrs_ok as (?&?&?&?). pose proof exampleSelector_parsed. unfold namedPortExample.
  repeat apply List.Forall_cons; try apply List.Forall_nil; cbn [np_op_ok]; try done; split; try done;
    try (by left); try (by right; left); try apply NoDup_singleton; repeat constructor; done.
Qed.

Lemma named_port_index_correct_witness :
  ∃ idx P, np_run 0 exampleOrders namedPortExample (NewSelectorAndNamedPortIndex true, ∅) = Ret (idx, P) ∧
    P !!! "web" = {[MakeIPPortProto (AddrOf host10) 80 ProtocolTCP]} ∧ P !!! "all" = {[MakeCIDROrIPOnly net10_1]}.
Proof.
  assert (Hsmall : small (sum_list_with opWeight namedPortExample)) by (unfold small; cbn; lia).
  destruct (named_port_index_correct 0 exampleOrders exampleHash exampleHash_inj true namedPortExample namedPortExample_ok Hsmall) as (idx&P&Hrun&_).
  exists idx, P. split; [done|].
  assert (HP : match np_run 0 exampleOrders namedPortExample (NewSelectorAndNamedPortIndex true, ∅) with
               | Ret (_, P) => bool_decide (P !!! "web" = {[MakeIPPortProto (AddrOf host10) 80 ProtocolTCP]} ∧ P !!! "all" = {[MakeCIDROrIPOnly net10_1]})
               | _ => false end = true) by (vm_compute; reflexivity).
  rewrite Hrun in HP. by apply bool_decide_eq_true in HP.
Defined.

(** An endpoint that names a profile twice is accepted, and its deletion panics: the profile
    has forgotten the endpoint when it is asked to a second time. *)
Theorem duplicate_profile_panics :
  ∃ idx, UpdateEndpointOrSet 0 exampleOrders 1 uniquelabels.Nil [] [] ["prof"; "prof"] (NewSelectorAndNamedPortIndex true) = Ret idx ∧
         DeleteEndpoint 0 exampleOrders 1 idx = Panic.
Proof.
  set (before := UpdateEndpointOrSet 0 exampleOrders 1 uniquelabels.Nil [] [] ["prof"; "prof"] (NewSelectorAndNamedPortIndex true)).
  assert (Hp : match before with Ret idx => match DeleteEndpoint 0 exampleOrders 1 idx with Panic => true | _ => false end | _ => false end = true)
    by (vm_compute; reflexivity).
  destruct before as [idx| | |]; try done. exists idx. split; [done|]. by destruct (DeleteEndpoint 0 exampleOrders 1 idx).
Qed.

(** A profile whose labels became an empty map stays in the index when it is deleted; one whose
    labels were never set, or not empty, goes. *)
Theorem empty_labels_leak :
  ∃ idx1 idx2,
    (let! a := UpdateParentLabels exampleOrders "prof" (Some {["b" := "2"]}) (NewSelectorAndNamedPortIndex (EpID := nat) true) in
     let! b := UpdateParentLabels exampleOrders "prof" (Some ∅) a in DeleteParentLabels exampleOrders "prof" b) = Ret idx1 ∧
    (let! a := UpdateParentLabels exampleOrders "prof" (Some {["b" := "2"]}) (NewSelectorAndNamedPortIndex (EpID := nat) true) in
     DeleteParentLabels exampleOrders "prof" a) = Ret idx2 ∧
    NameValueIndex.Get "prof" (parentKVIdx idx1) = Some 0 ∧ NameValueIndex.Get "prof" (parentKVIdx idx2) = None.
Proof.
  set (r1 := obind _ _). set (r2 := obind _ (λ a, DeleteParentLabels exampleOrders "prof" a)).
  assert (Hp : match r1, r2 with Ret i1, Ret i2 => bool_decide (NameValueIndex.Get "prof" (parentKVIdx i1) = Some 0 ∧ NameValueIndex.Get "prof" (parentKVIdx i2) = None) | _, _ => false end = true)
    by (vm_compute; reflexivity).
  destruct r1 as [idx1| | |], r2 as [idx2| | |]; try done. exists idx1, idx2. apply bool_decide_eq_true in Hp as [? ?]. done.
Qed.
