(* ===== verification/NetIP.v ===== *)
(** * Addresses of the [net] package, and their conversion: [felix/ip/ip_addr.go]

    A [net.IP] is a slice of bytes, four for IPv4, sixteen for IPv6, where IPv4 may also be
    mapped into the sixteen; a [net.IPNet] adds a mask.  The first part of the file is what the
    conversions use of the [net] package; the second part proves that they give canonical CIDRs,
    and where they do not. *)
From S2P Require Import Prelude ModelRule CIDR MemberDedup CIDRTrieSpec NamedPortCandidates.
From stdpp Require Import base list gmap numbers.
From stdpp Require Import options.
#[local] Open Scope Z_scope.

(** ** The [net] package *)
Definition v4InV6Prefix : list Z := replicate 10 0 ++ [255; 255].

Definition isMapped (ip : NetIP) : bool := bool_decide (length ip = 16%nat ∧ take 12 ip = v4InV6Prefix).

Definition To4 (ip : NetIP) : option NetIP :=
  if decide (length ip = 4%nat) then Some ip else if isMapped ip then Some (drop 12 ip) else None.

Definition To16 (ip : NetIP) : option NetIP :=
  if decide (length ip = 4%nat) then Some (v4InV6Prefix ++ ip) else if decide (length ip = 16%nat) then Some ip else None.

Definition allFF (b : list Z) : bool := forallb (Z.eqb 255) b.

(** [IP.Mask]: an IPv6 mask of an IPv4 address and the other way round are adapted first. *)
Definition Mask (ip : NetIP) (mask : IPMask) : option NetIP :=
  let mask' := if bool_decide (length mask = 16%nat) && bool_decide (length ip = 4%nat) && allFF (take 12 mask) then drop 12 mask else mask in
  let ip' := if bool_decide (length mask' = 4%nat) && isMapped ip then drop 12 ip else ip in
  if decide (length ip' = length mask') then Some (zip_with Z.land ip' mask') else None.

(** The leading ones of a byte, and whether only zeros follow. *)
Fixpoint leadingOnes (fuel : nat) (v : Z) : nat * Z :=
  match fuel with
  | O => (0%nat, v)
  | S fuel' => if Z.land v 128 =? 0 then (0%nat, v) else let '(n, v') := leadingOnes fuel' (uint8 (Z.shiftl v 1)) in (S n, v')
  end.

Fixpoint simpleMaskLength (mask : IPMask) : option nat :=
  match mask with
  | [] => Some 0%nat
  | v :: mask' =>
      if v =? 255 then (λ n, (8 + n)%nat) <$> simpleMaskLength mask'
      else
        let '(n, v') := leadingOnes 8 v in
        if negb (v' =? 0) then None else if forallb (Z.eqb 0) mask' then Some n else None
  end.

(** The number of ones of a mask; zero when it is not a prefix. *)
Definition Mask_Size (mask : IPMask) : Z := Z.of_nat (default 0%nat (simpleMaskLength mask)).

Fixpoint maskBytes (l : nat) (n : nat) : IPMask :=
  match l with
  | O => []
  | S l' => if (8 <=? n)%nat then 255 :: maskBytes l' (n - 8) else (255 - Z.shiftr 255 (Z.of_nat n)) :: maskBytes l' 0
  end.

Definition CIDRMask (ones bits : Z) : IPMask :=
  if decide (bits ≠ 32 ∧ bits ≠ 128) then []
  else if decide (ones < 0 ∨ bits < ones) then [] else maskBytes (Z.to_nat (bits / 8)) (Z.to_nat ones).

(** ** The conversions *)
(** [binary.BigEndian]. *)
Fixpoint be (bs : list Z) : Z := match bs with [] => 0 | b :: bs' => b * 2 ^ (8 * Z.of_nat (length bs')) + be bs' end.

Fixpoint beBytes (n : nat) (x : Z) : list Z :=
  match n with O => [] | S n' => uint8 (Z.shiftr x (8 * Z.of_nat n')) :: beBytes n' x end.

Definition AsNetIP (a : Addr) : NetIP := match a with V4Addr a => beBytes 4 a | V6Addr h l => beBytes 8 h ++ beBytes 8 l end.

(** [copy] into an array of the right size: the slices that [To4] and [To16] return have it. *)
Definition FromNetIP (netIP : NetIP) : option Addr :=
  match To4 netIP with
  | Some v4 => Some (V4Addr (be v4))
  | None => match To16 netIP with Some v6 => Some (V6Addr (be (take 8 v6)) (be (drop 8 v6))) | None => None end
  end.

(** A method of a nil interface panics. *)
Definition CIDRFromNetIP (netIP : NetIP) : outcome Empty_set CIDR :=
  match FromNetIP netIP with Some a => Ret (AsCIDR a) | None => Panic end.

Definition CIDRFromIPNet (ipNet : IPNet_) : outcome Empty_set CIDR :=
  let ones := Mask_Size (net_Mask ipNet) in
  match FromNetIP (default [] (Mask (net_IP ipNet) (net_Mask ipNet))) with
  | None => Panic
  | Some (V4Addr a) => Ret (V4CIDR a (uint8 ones))
  | Some (V6Addr h l) => Ret (V6CIDR h l (uint8 ones))
  end.

Definition CIDRFromCalicoNet (ipNet : IPNet_) : outcome Empty_set CIDR := CIDRFromIPNet ipNet.

Definition CIDRFromAddrAndPrefix (addr : Addr) (prefixLen : Z) : outcome Empty_set CIDR :=
  let netIP := AsNetIP addr in
  CIDRFromIPNet (MkIPNet netIP (CIDRMask prefixLen (Z.of_nat (length netIP) * 8))).

(** ** Bytes as strings of bits *)
Definition bytes_ok (bs : list Z) : Prop := Forall (word_ok 8) bs.
Definition bytesBits (bs : list Z) : list bool := bs ≫= wordBits 8.

Lemma bytesBits_length bs : length (bytesBits bs) = (8 * length bs)%nat.
Proof. induction bs as [|b bs IH]; [done|]. unfold bytesBits. rewrite bind_cons, length_app, wordBits_length. fold (bytesBits bs). rewrite IH. cbn. lia. Qed.

Lemma be_bound bs : bytes_ok bs → word_ok (8 * Z.of_nat (length bs)) (be bs).
Proof.
  induction bs as [|b bs IH]; [by split|]. intros [[Hb0 Hb] Hbs]%list.Forall_cons. destruct (IH Hbs) as [H0 Hlt]. cbn [be length].
  split; [nia|]. replace (8 * Z.of_nat (S (length bs))) with (8 + 8 * Z.of_nat (length bs)) by lia. rewrite Z.pow_add_r by lia. nia.
Qed.

Lemma testbit_concat n x y j : 0 <= n → 0 <= y < 2 ^ n → 0 <= j → Z.testbit (x * 2 ^ n + y) j = if j <? n then Z.testbit y j else Z.testbit x (j - n).
Proof.
  intros Hn Hy Hj. destruct (Z.ltb_spec j n).
  - rewrite <- (Z.mod_pow2_bits_low _ n) by lia. rewrite Z.add_comm, Z.mod_add, Z.mod_small by lia. done.
  - replace j with (j - n + n) at 1 by lia. rewrite <- Z.div_pow2_bits by lia. rewrite Z.add_comm, Z.div_add, Z.div_small by lia. done.
Qed.

Lemma wordBits_concat m n x y : 0 <= y < 2 ^ Z.of_nat n → wordBits (m + n) (x * 2 ^ Z.of_nat n + y) = wordBits m x ++ wordBits n y.
Proof.
  intros Hy. apply list_eq_same_length with (n := (m + n)%nat); [by rewrite length_app, !wordBits_length|by rewrite wordBits_length|].
  intros i b1 b2 Hi. rewrite wordBits_lookup by done. intros [= <-]. rewrite testbit_concat by lia. destruct (decide (i < m)%nat).
  - rewrite lookup_app_l by (by rewrite wordBits_length). rewrite wordBits_lookup by done. intros [= <-].
    destruct (Z.ltb_spec (Z.of_nat (m + n) - 1 - Z.of_nat i) (Z.of_nat n)); [lia|]. f_equal. lia.
  - rewrite lookup_app_r, wordBits_length by (rewrite wordBits_length; lia). rewrite wordBits_lookup by lia. intros [= <-].
    destruct (Z.ltb_spec (Z.of_nat (m + n) - 1 - Z.of_nat i) (Z.of_nat n)); [|lia]. f_equal. lia.
Qed.

Lemma wordBits_be bs : bytes_ok bs → wordBits (8 * length bs) (be bs) = bytesBits bs.
Proof.
  induction bs as [|b bs IH]; [done|]. intros [Hb Hbs]%list.Forall_cons. cbn [be length]. replace (8 * S (length bs))%nat with (8 + 8 * length bs)%nat by lia.
  replace (8 * Z.of_nat (length bs)) with (Z.of_nat (8 * length bs)) by lia. rewrite wordBits_concat, IH; [done|done|].
  pose proof (be_bound bs Hbs) as Hw. unfold word_ok in Hw. by replace (Z.of_nat (8 * length bs)) with (8 * Z.of_nat (length bs)) by lia.
Qed.

(** ** Masks *)
Lemma byte_mask_bits n : (n <= 8)%nat → wordBits 8 (255 - Z.shiftr 255 (Z.of_nat n)) = replicate n true ++ replicate (8 - n) false.
Proof. intros Hn. do 9 (destruct n as [|n]; [by vm_compute|]). lia. Qed.

Lemma maskBytes_length l : ∀ n, length (maskBytes l n) = l.
Proof. induction l as [|l IH]; intros n; cbn [maskBytes]; [done|]. case_match; cbn; by rewrite IH. Qed.

Lemma maskBytes_zero l : maskBytes l 0 = replicate l 0.
Proof. induction l as [|l IH]; [done|]. cbn [maskBytes replicate]. rewrite IH. done. Qed.

Lemma mask_byte_ok n : (n < 8)%nat → word_ok 8 (255 - Z.shiftr 255 (Z.of_nat n)) ∧ 255 - Z.shiftr 255 (Z.of_nat n) ≠ 255.
Proof. intros Hn. unfold word_ok. do 8 (destruct n as [|n]; [by vm_compute|]). lia. Qed.

Lemma maskBytes_ok l : ∀ n, bytes_ok (maskBytes l n).
Proof.
  induction l as [|l IH]; intros n; cbn [maskBytes]; [constructor|]. destruct (Nat.leb_spec 8 n); apply list.Forall_cons; (split; [|apply IH]).
  - unfold word_ok. lia.
  - by apply mask_byte_ok.
Qed.

Lemma maskBytes_bits l : ∀ n, (n <= 8 * l)%nat → bytesBits (maskBytes l n) = replicate n true ++ replicate (8 * l - n) false.
Proof.
  induction l as [|l IH]; intros n Hn; cbn [maskBytes].
  { by replace n with 0%nat by lia. }
  destruct (Nat.leb_spec 8 n) as [Hge|Hlt]; unfold bytesBits; rewrite bind_cons; fold (bytesBits (maskBytes l (n - 8))); fold (bytesBits (maskBytes l 0)); rewrite IH by lia.
  - change (wordBits 8 255) with (replicate 8 true). rewrite app_assoc, <- replicate_add. f_equal; f_equal; lia.
  - rewrite byte_mask_bits by lia. cbn [replicate app]. rewrite <- app_assoc, <- replicate_add. f_equal; f_equal; lia.
Qed.

(** Byte [i] of the mask is all ones when the prefix covers it. *)
Lemma maskBytes_full l : ∀ n i, maskBytes l n !! i = Some 255 → (8 * (i + 1) <= n)%nat ∧ ∀ j, (j <= i)%nat → maskBytes l n !! j = Some 255.
Proof.
  induction l as [|l IH]; intros n i; cbn [maskBytes]; [done|]. destruct (Nat.leb_spec 8 n) as [Hge|Hlt].
  - destruct i as [|i]; cbn [lookup list_lookup].
    + intros _. split; [lia|]. intros j Hj. by replace j with 0%nat by lia.
    + intros [Hn Hj]%IH. split; [lia|]. intros [|j] Hle; [done|]. apply Hj. lia.
  - destruct (mask_byte_ok n Hlt) as [_ Hne]. destruct i as [|i]; cbn [lookup list_lookup]; [intros Heq; congruence|].
    rewrite maskBytes_zero. intros [? _]%lookup_replicate. done.
Qed.

Lemma leadingOnes_mask n : (n < 8)%nat → leadingOnes 8 (255 - Z.shiftr 255 (Z.of_nat n)) = (n, 0).
Proof. intros Hn. do 8 (destruct n as [|n]; [by vm_compute|]). lia. Qed.

Lemma simpleMaskLength_mask l : ∀ n, (n <= 8 * l)%nat → simpleMaskLength (maskBytes l n) = Some n.
Proof.
  induction l as [|l IH]; intros n Hn; cbn [maskBytes simpleMaskLength]; [f_equal; lia|]. destruct (Nat.leb_spec 8 n) as [Hge|Hlt].
  - cbn [simpleMaskLength]. rewrite Z.eqb_refl, IH by lia. cbn. f_equal. lia.
  - destruct (mask_byte_ok n Hlt) as [_ Hne]. cbn [simpleMaskLength]. destruct (Z.eqb_spec (255 - Z.shiftr 255 (Z.of_nat n)) 255); [done|].
    rewrite leadingOnes_mask by done. cbn [negb Z.eqb]. rewrite maskBytes_zero.
    assert (forallb (Z.eqb 0) (replicate l 0) = true) as ->; [|done]. clear. by induction l.
Qed.

Lemma Mask_Size_mask l n : (n <= 8 * l)%nat → Mask_Size (maskBytes l n) = Z.of_nat n.
Proof. intros Hn. unfold Mask_Size. by rewrite simpleMaskLength_mask. Qed.

(** ** Masking *)
Lemma wordBits_land w x y : wordBits w (Z.land x y) = zip_with andb (wordBits w x) (wordBits w y).
Proof.
  apply list_eq_same_length with (n := w); [rewrite length_zip_with, !wordBits_length; lia|by rewrite wordBits_length|].
  intros i b1 b2 Hi. rewrite lookup_zip_with, !wordBits_lookup by done. cbn. intros [= <-] [= <-]. apply Z.land_spec.
Qed.

Lemma bytesBits_land bs ms : length bs = length ms → bytesBits (zip_with Z.land bs ms) = zip_with andb (bytesBits bs) (bytesBits ms).
Proof.
  revert ms. induction bs as [|b bs IH]; intros [|m ms] Hl; try done. cbn [zip_with]. unfold bytesBits. rewrite !bind_cons.
  rewrite zip_with_app by (by rewrite !wordBits_length). rewrite wordBits_land. f_equal. apply IH. by injection Hl.
Qed.

Lemma zip_with_ones bits n k : (n + k = length bits)%nat → zip_with andb bits (replicate n true ++ replicate k false) = take n bits ++ replicate k false.
Proof.
  intros Hl. assert (Hlen : length (take n bits) = n) by (rewrite length_take; lia). rewrite <- (take_drop n bits) at 1.
  rewrite zip_with_app by (by rewrite Hlen, length_replicate). f_equal.
  - clear Hl. revert Hlen. generalize (take n bits). intros l <-. induction l as [|b l IH]; [done|]. cbn. by rewrite IH, andb_true_r.
  - assert (length (drop n bits) = k) as <- by (rewrite length_drop; lia). clear. generalize (drop n bits). intros l. induction l as [|b l IH]; [done|].
    cbn. by rewrite IH, andb_false_r.
Qed.

Lemma masked_bytes ip n : (n <= 8 * length ip)%nat →
  bytesBits (zip_with Z.land ip (maskBytes (length ip) n)) = take n (bytesBits ip) ++ replicate (8 * length ip - n) false.
Proof.
  intros Hn. rewrite bytesBits_land, maskBytes_bits by (rewrite ?maskBytes_length; done). apply zip_with_ones. rewrite bytesBits_length. lia.
Qed.

Lemma zip_land_ok ip ms : bytes_ok ip → bytes_ok ms → bytes_ok (zip_with Z.land ip ms).
Proof.
  intros Hip. revert ms. induction Hip as [|b bs Hb Hbs IH]; intros [|m ms] Hms; try constructor.
  - rewrite Z.land_comm. apply word_land; [lia|done|]. apply list.Forall_cons in Hms as [[? _] _]. done.
  - apply IH. by apply list.Forall_cons in Hms as [_ ?].
Qed.

(** ** Addresses *)
Definition bytesAddr (ip : NetIP) : Addr := if decide (length ip = 4%nat) then V4Addr (be ip) else V6Addr (be (take 8 ip)) (be (drop 8 ip)).

Lemma bytesAddr_ok ip : bytes_ok ip → length ip = 4%nat ∨ length ip = 16%nat →
  addr_ok (bytesAddr ip) ∧ addrBits (bytesAddr ip) = bytesBits ip ∧ addrWidth (bytesAddr ip) = (8 * length ip)%nat.
Proof.
  intros Hok Hl. unfold bytesAddr. case_decide as H4.
  - pose proof (be_bound ip Hok) as Hb. pose proof (wordBits_be ip Hok) as Hw. rewrite H4 in *. cbn in Hb, Hw |- *. by split_and!.
  - destruct Hl as [|Hl]; [done|]. assert (Hok8 : bytes_ok (take 8 ip) ∧ bytes_ok (drop 8 ip)) by (split; [by apply Forall_take|by apply Forall_drop]).
    destruct Hok8 as [Hok1 Hok2]. assert (Hl1 : length (take 8 ip) = 8%nat) by (rewrite length_take; lia). assert (Hl2 : length (drop 8 ip) = 8%nat) by (rewrite length_drop; lia).
    pose proof (be_bound _ Hok1) as Hb1. pose proof (be_bound _ Hok2) as Hb2. pose proof (wordBits_be _ Hok1) as Hw1. pose proof (wordBits_be _ Hok2) as Hw2.
    rewrite Hl1 in Hb1, Hw1. rewrite Hl2 in Hb2, Hw2. split_and!; [by split| |cbn; lia]. cbn [addrBits]. change 64%nat with (8 * 8)%nat. rewrite Hw1, Hw2.
    unfold bytesBits. by rewrite <- bind_app, take_drop.
Qed.

Lemma FromNetIP_unmapped ip : length ip = 4%nat ∨ length ip = 16%nat ∧ isMapped ip = false → FromNetIP ip = Some (bytesAddr ip).
Proof.
  unfold FromNetIP, To4, To16, bytesAddr. intros [Hl|[Hl Hm]].
  - by destruct (decide (length ip = 4%nat)).
  - destruct (decide (length ip = 4%nat)); [lia|]. rewrite Hm. by destruct (decide (length ip = 16%nat)).
Qed.

Lemma FromNetIP_mapped ip : length ip = 16%nat → isMapped ip = true → FromNetIP ip = Some (V4Addr (be (drop 12 ip))).
Proof. unfold FromNetIP, To4. intros Hl ->. by rewrite decide_False by lia. Qed.

(** An address of sixteen bytes that does not map an IPv4 address is printed with colons. *)
Lemma unmapped_colon ip p : bytes_ok ip → length ip = 16%nat → isMapped ip = false → printsColon (V6CIDR (be (take 8 ip)) (be (drop 8 ip)) p) = true.
Proof.
  intros Hok Hl Hm. unfold printsColon. apply negb_true_iff. apply not_true_iff_false. intros [Hh Hlo]%andb_true_iff. apply Z.eqb_eq in Hh, Hlo.
  unfold isMapped in Hm. apply bool_decide_eq_false in Hm. apply Hm. split; [done|]. rewrite Z.shiftr_div_pow2 in Hlo by lia.
  do 16 (destruct ip as [|? ip]; [done|]). destruct ip; [|done]. unfold bytes_ok in Hok.
  repeat match goal with H : Forall _ (_ :: _) |- _ => apply list.Forall_cons in H as [[? ?] H] end.
  cbn in Hh, Hlo |- *. unfold v4InV6Prefix. cbn. repeat f_equal; Z.to_euclidean_division_equations; lia.
Qed.

(** A masked address maps an IPv4 address only if it did before, and the mask keeps the last 32 bits at most. *)
Lemma mapped_masked ip n : bytes_ok ip → length ip = 16%nat → isMapped (zip_with Z.land ip (maskBytes 16 n)) = true → isMapped ip = true ∧ (96 <= n)%nat.
Proof.
  intros Hok Hl [_ Hm]%bool_decide_eq_true. assert (Hb : ∀ i, (i < 12)%nat → zip_with Z.land ip (maskBytes 16 n) !! i = v4InV6Prefix !! i).
  { intros i Hi. rewrite <- Hm. by rewrite lookup_take_lt. }
  assert (Hm11 : maskBytes 16 n !! 11%nat = Some 255).
  { pose proof (Hb 11%nat ltac:(lia) : _ = Some 255) as H11. rewrite lookup_zip_with in H11. destruct (ip !! 11%nat) as [b|] eqn:Hb11; [|done]. cbn [mbind option_bind] in H11.
    destruct (maskBytes 16 n !! 11%nat) as [m|] eqn:Hmm; [|done]. injection H11 as H11.
    pose proof (maskBytes_ok 16 n) as Hmok. unfold bytes_ok in Hmok. rewrite Forall_lookup in Hmok. destruct (Hmok _ _ Hmm) as [? Hlt].
    f_equal. assert (m >= 255); [|lia]. assert (Hle : Z.ldiff 255 m = 0); [|].
    { rewrite <- H11. apply Z.bits_inj'. intros j Hj. rewrite Z.ldiff_spec, Z.land_spec, Z.testbit_0_l. by destruct (Z.testbit b j), (Z.testbit m j). }
    apply Z.ldiff_le in Hle; lia. }
  destruct (maskBytes_full 16 n 11 Hm11) as [Hn Hfull]. split; [|lia]. unfold isMapped. apply bool_decide_eq_true. split; [done|]. rewrite <- Hm.
  apply list_eq. intros i. destruct (decide (i < 12)%nat) as [Hi|Hi]; [|by rewrite !lookup_take_ge by lia]. rewrite !lookup_take_lt by done.
  rewrite lookup_zip_with, Hfull by lia. destruct (ip !! i) as [b|] eqn:Hbi; [|done]. cbn. f_equal.
  unfold bytes_ok in Hok. rewrite Forall_lookup in Hok. destruct (Hok _ _ Hbi). change 255 with (Z.ones 8). rewrite Z.land_ones, Z.mod_small by lia. done.
Qed.

(** ** [CIDRFromIPNet] *)
(** What the parsers of the [net] package give: a mask with [n] ones as long as the address, or
    a short mask of a mapped address. *)
Definition ipnet_ok (ipNet : IPNet_) (n : nat) : Prop :=
  let ip := net_IP ipNet in let l := length (net_Mask ipNet) in
  bytes_ok ip ∧ net_Mask ipNet = maskBytes l n ∧ (n <= 8 * l)%nat ∧
  (length ip = 4%nat ∧ l = 4%nat ∨ length ip = 16%nat ∧ l = 4%nat ∧ isMapped ip = true ∨ length ip = 16%nat ∧ l = 16%nat ∧ (isMapped ip = true → n < 96)%nat).

(** The bytes of the address that the mask is for. *)
Definition netBytes (ipNet : IPNet_) : NetIP := if decide (length (net_Mask ipNet) = length (net_IP ipNet)) then net_IP ipNet else drop 12 (net_IP ipNet).

Lemma Mask_netBytes ipNet n : ipnet_ok ipNet n → Mask (net_IP ipNet) (net_Mask ipNet) = Some (zip_with Z.land (netBytes ipNet) (net_Mask ipNet)).
Proof.
  destruct ipNet as [ip mask]. unfold ipnet_ok, netBytes, Mask. cbn [net_IP net_Mask]. intros (_&_&_&Hcases).
  assert (Hmap : isMapped ip = true → length ip = 16%nat) by (unfold isMapped; intros [? _]%bool_decide_eq_true; done).
  assert (Hlong : bool_decide (length mask = 16%nat) && bool_decide (length ip = 4%nat) = false) by (repeat case_bool_decide; done || lia).
  rewrite Hlong. cbn [andb]. destruct Hcases as [[Hl Hm]|[(Hl&Hm&Hmp)|(Hl&Hm&_)]].
  - assert (isMapped ip = false) as -> by (destruct (isMapped ip); [exfalso; specialize (Hmap eq_refl); lia|done]). rewrite andb_false_r, Hl, Hm. done.
  - rewrite Hmp, bool_decide_eq_true_2 by done. cbn [andb]. rewrite length_drop, Hl, Hm. cbn. done.
  - rewrite bool_decide_eq_false_2 by lia. cbn [andb]. rewrite Hl, Hm. done.
Qed.

Lemma netBytes_ok ipNet n : ipnet_ok ipNet n →
  bytes_ok (netBytes ipNet) ∧ length (netBytes ipNet) = length (net_Mask ipNet) ∧ net_Mask ipNet = maskBytes (length (netBytes ipNet)) n ∧
  (length (netBytes ipNet) = 4%nat ∨ length (netBytes ipNet) = 16%nat ∧ (isMapped (netBytes ipNet) = true → n < 96)%nat) ∧ (n <= 8 * length (netBytes ipNet))%nat.
Proof.
  destruct ipNet as [ip mask]. unfold ipnet_ok, netBytes. cbn [net_IP net_Mask]. intros (Hok&Hmask&Hn&Hcases).
  destruct Hcases as [[Hl Hm]|[(Hl&Hm&Hmp)|(Hl&Hm&Hmp)]].
  - rewrite Hl, Hm in *. rewrite decide_True by done. rewrite Hl. split_and!; auto.
  - rewrite Hl, Hm in *. rewrite decide_False, length_drop, Hl by done. split_and!; [by apply Forall_drop|done|done|by left|done].
  - rewrite Hl, Hm in *. rewrite decide_True by done. rewrite Hl. split_and!; auto.
Qed.

Lemma CIDRFromIPNet_ok ipNet n : ipnet_ok ipNet n →
  ∃ c, CIDRFromIPNet ipNet = Ret c ∧ net_ok c ∧ Version c = Addr_Version (bytesAddr (netBytes ipNet)) ∧ Prefix c = Z.of_nat n ∧
       bitsOf c = take n (bytesBits (netBytes ipNet)).
Proof.
  intros Hok. unfold CIDRFromIPNet. rewrite (Mask_netBytes ipNet n Hok). cbn [from_option id].
  destruct (netBytes_ok ipNet n Hok) as (Hb&_&Hmask&Hcases&Hn). rewrite Hmask. set (ip := netBytes ipNet) in *. set (masked := zip_with Z.land ip (maskBytes (length ip) n)).
  assert (Hl : length masked = length ip) by (unfold masked; rewrite length_zip_with, maskBytes_length; lia).
  assert (Hbm : bytes_ok masked) by (apply zip_land_ok; [done|apply maskBytes_ok]). rewrite Mask_Size_mask by lia.
  assert (Hum : length masked = 4%nat ∨ length masked = 16%nat ∧ isMapped masked = false).
  { rewrite Hl. destruct Hcases as [|[H16 Hmp]]; [by left|right]. split; [done|]. destruct (isMapped masked) eqn:Hm; [|done].
    unfold masked in Hm. rewrite H16 in Hm. destruct (mapped_masked ip n Hb H16 Hm) as [Hi Hge]. specialize (Hmp Hi). lia. }
  rewrite (FromNetIP_unmapped masked Hum). assert (Hlen : length ip = 4%nat ∨ length ip = 16%nat) by tauto.
  destruct (bytesAddr_ok masked Hbm) as (Ha&Hbits&_); [by rewrite Hl|]. destruct (bytesAddr_ok ip Hb Hlen) as (_&Hbits0&Hw0).
  assert (Hsame : Addr_Version (bytesAddr masked) = Addr_Version (bytesAddr ip)) by (unfold bytesAddr; rewrite Hl; by case_decide).
  assert (H8 : uint8 (Z.of_nat n) = Z.of_nat n) by (apply uint8_small; lia).
  set (c := match bytesAddr masked with V4Addr a => V4CIDR a (Z.of_nat n) | V6Addr h l => V6CIDR h l (Z.of_nat n) end).
  assert (Hc : AddrOf c = bytesAddr masked ∧ Prefix c = Z.of_nat n ∧ Version c = Addr_Version (bytesAddr ip)).
  { rewrite <- Hsame. unfold c. by destruct (bytesAddr masked). }
  destruct Hc as (HcA&HcP&HcV). destruct (padded_cidr c (bytesAddr ip) n HcP HcV) as [Hcok Hcb]; [rewrite Hw0; lia|by rewrite HcA| |].
  { rewrite HcA, Hbits, Hbits0, Hw0. by apply masked_bytes. }
  rewrite Hbits0 in Hcb. exists c. split_and!; [rewrite H8; unfold c; by destruct (bytesAddr masked)|split; [done|]|done|done|done].
  destruct Hum as [H4|[H16 Hm]].
  - unfold c, bytesAddr. rewrite decide_True by done. done.
  - unfold c, bytesAddr. rewrite decide_False by lia. rewrite unmapped_colon by done. done.
Qed.

(** A mask of 96 ones or more of an IPv4 address in IPv6 form gives an IPv4 CIDR with that prefix,
    which is out of range. *)
Theorem mapped_prefix_out_of_range :
  CIDRFromIPNet (MkIPNet (v4InV6Prefix ++ [10; 0; 0; 0]) (CIDRMask 104 128)) = Ret (V4CIDR 167772160 104) ∧ ¬ cidr_ok (V4CIDR 167772160 104).
Proof. split; [by vm_compute|]. intros [_ Hp _]. cbn in Hp. lia. Qed.

(** ** Addresses there and back *)
Lemma beBytes_length n x : length (beBytes n x) = n.
Proof. induction n as [|n IH]; cbn; [done|by rewrite IH]. Qed.

Lemma beBytes_ok n x : bytes_ok (beBytes n x).
Proof. induction n as [|n IH]; cbn [beBytes]; constructor; [|done]. unfold word_ok, uint8, uintN. apply Z.mod_pos_bound. lia. Qed.

Lemma be_beBytes n x : 0 <= x → be (beBytes n x) = x mod 2 ^ (8 * Z.of_nat n).
Proof.
  intros Hx. induction n as [|n IH]; cbn [beBytes be]; [by rewrite Z.mod_1_r|]. rewrite beBytes_length, IH. unfold uint8, uintN.
  rewrite Z.shiftr_div_pow2 by lia. replace (8 * Z.of_nat (S n)) with (8 * Z.of_nat n + 8) by lia. rewrite Z.pow_add_r, Z.rem_mul_r by lia. lia.
Qed.

Lemma beBytes_word n x : word_ok (8 * Z.of_nat n) x → be (beBytes n x) = x.
Proof. intros [H0 Hx]. rewrite be_beBytes by done. by apply Z.mod_small. Qed.

Lemma bytesAddr_AsNetIP a : addr_ok a → bytesAddr (AsNetIP a) = a.
Proof.
  unfold bytesAddr. destruct a as [a|h l]; cbn [AsNetIP addr_ok].
  - intros Ha. rewrite decide_True by (by rewrite beBytes_length). by rewrite (beBytes_word 4).
  - intros [Hh Hlo]. rewrite decide_False by (rewrite length_app, !beBytes_length; lia).
    rewrite take_app_length', drop_app_length' by (by rewrite beBytes_length). by rewrite !(beBytes_word 8).
Qed.

Lemma AsNetIP_ok a : bytes_ok (AsNetIP a) ∧ (length (AsNetIP a) * 8)%nat = addrWidth a.
Proof.
  destruct a as [a|h l]; cbn [AsNetIP addrWidth]; rewrite ?length_app, !beBytes_length; (split; [|done]); [apply beBytes_ok|].
  apply Forall_app. split; apply beBytes_ok.
Qed.
