(* ===== verification/NamedPortUpdates.v ===== *)
(** * The named port index: updates of the datastore

    [OnUpdate] of [named_port_index.go] and the extraction of CIDRs from endpoints and network
    sets: each update becomes one operation of the index, on CIDRs that hold exactly the
    addresses that the update names. *)
From S2P Require Import Prelude ModelRule SelectorAST UniqueLabels AdaptiveSet GoSet.
From S2P Require Import RestrictionIndex NameValueIndex InheritIndexCorrect.
From S2P Require Import CIDR CIDRTrie CIDRTrieSpec CIDRTrieCorrect MemberDedup MemberDedupSpec.
From stdpp Require Import base list gmap numbers strings sorting.
From S2P Require Import NamedPortIndex NamedPortCandidates NetIP NamedPortCorrect.
From stdpp Require Import options.

(** ** Data *)
Record WorkloadEndpoint := MkWorkloadEndpoint {
  we_ProfileIDs : list string;
  we_IPv4Nets : list IPNet_;
  we_IPv6Nets : list IPNet_;
  we_Labels : uniquelabels.Map;
  we_Ports : list EndpointPort
}.

Record HostEndpoint := MkHostEndpoint {
  ExpectedIPv4Addrs : list NetIP;
  ExpectedIPv6Addrs : list NetIP;
  he_Labels : uniquelabels.Map;
  he_ProfileIDs : list string;
  he_Ports : list EndpointPort
}.

Record NetworkSet := MkNetworkSet { ns_Nets : list IPNet_; ns_Labels : uniquelabels.Map; ns_ProfileIDs : list string }.

(** An update of the datastore; the value is nil for a deletion. *)
Inductive NPUpdate {EpID : Type} :=
  | WorkloadEndpointUpdate (key : EpID) (value : option WorkloadEndpoint)
  | HostEndpointUpdate (key : EpID) (value : option HostEndpoint)
  | NetworkSetUpdate (key : EpID) (value : option NetworkSet)
  | ResourceUpdate (Kind Name : string) (LabelsToApply : option (option (gmap string string))).
Arguments NPUpdate : clear implicits.

(** ** The extraction of CIDRs *)
Definition extractCIDRsFromHostEndpoint (endpoint : HostEndpoint) : outcome Empty_set (list CIDR) :=
  let! v4 := mapOut CIDRFromNetIP (ExpectedIPv4Addrs endpoint) in
  let! v6 := mapOut CIDRFromNetIP (ExpectedIPv6Addrs endpoint) in
  Ret (v4 ++ v6).

Definition extractCIDRsFromWorkloadEndpoint (endpoint : WorkloadEndpoint) : outcome Empty_set (list CIDR) :=
  let! v4 := mapOut (λ addr, CIDRFromNetIP (net_IP addr)) (we_IPv4Nets endpoint) in
  let! v6 := mapOut (λ addr, CIDRFromNetIP (net_IP addr)) (we_IPv6Nets endpoint) in
  Ret (v4 ++ v6).

(** 0.0.0.0/1 and 128.0.0.0/1, or ::/1 and 8000::/1. *)
Definition splitZero (cidr : CIDR) : list CIDR :=
  if decide (Prefix cidr = 0%Z) then
    match cidr with
    | V4CIDR _ _ => [V4CIDR 0 1; V4CIDR (2 ^ 31) 1]
    | V6CIDR _ _ _ => [V6CIDR 0 0 1; V6CIDR (2 ^ 63) 0 1]
    end
  else [cidr].

Definition extractCIDRsFromNetworkSet (netSet : NetworkSet) : outcome Empty_set (list CIDR) :=
  let! cidrs := mapOut CIDRFromCalicoNet (ns_Nets netSet) in Ret (cidrs ≫= splitZero).

Section updates.
Context `{Countable EpID} (zeroID : EpID) (go : GoOrders EpID).

Definition OnUpdate (update : NPUpdate EpID) (idx : SelectorAndNamedPortIndex (EpID := EpID)) : outcome Empty_set SelectorAndNamedPortIndex :=
  match update with
  | WorkloadEndpointUpdate key (Some endpoint) =>
      let! cidrs := extractCIDRsFromWorkloadEndpoint endpoint in
      UpdateEndpointOrSet zeroID go key (we_Labels endpoint) cidrs (we_Ports endpoint) (we_ProfileIDs endpoint) idx
  | HostEndpointUpdate key (Some endpoint) =>
      let! cidrs := extractCIDRsFromHostEndpoint endpoint in
      UpdateEndpointOrSet zeroID go key (he_Labels endpoint) cidrs (he_Ports endpoint) (he_ProfileIDs endpoint) idx
  | NetworkSetUpdate key (Some netSet) =>
      let! cidrs := extractCIDRsFromNetworkSet netSet in
      UpdateEndpointOrSet zeroID go key (ns_Labels netSet) cidrs [] (ns_ProfileIDs netSet) idx
  | WorkloadEndpointUpdate key None | HostEndpointUpdate key None | NetworkSetUpdate key None => DeleteEndpoint zeroID go key idx
  | ResourceUpdate Kind Name value =>
      if decide (Kind ≠ "Profile") then Ret idx
      else match value with Some labels => UpdateParentLabels go Name labels idx | None => DeleteParentLabels go Name idx end
  end.
End updates.

(** ** What an update names *)
Definition netip_ok (ip : NetIP) : Prop := bytes_ok ip ∧ (length ip = 4 ∨ length ip = 16).

(** The addresses of an endpoint; those of a network set. *)
Definition oneOf (ips : list NetIP) (a : Addr) : Prop := ∃ ip, ip ∈ ips ∧ FromNetIP ip = Some a.

Definition inNet (ipNet : IPNet_) (a : Addr) : Prop :=
  ∃ n, ipnet_ok ipNet n ∧ Addr_Version a = Addr_Version (bytesAddr (netBytes ipNet)) ∧ take n (addrBits a) = take n (bytesBits (netBytes ipNet)).

(** CIDRs that hold exactly the addresses in [S], canonical and none of them of length zero. *)
Definition nets_for (S : Addr → Prop) (nets : list CIDR) : Prop :=
  Forall (λ c, net_ok c ∧ Prefix c ≠ 0%Z) nets ∧ ∀ a, addr_ok a → (∃ c, c ∈ nets ∧ CIDR_Contains c a = true) ↔ S a.

Lemma AsCIDR_ok a : addr_ok a → cidr_ok (AsCIDR a).
Proof.
  intros Ha. split; [by destruct a|by destruct a|]. assert (AddrOf (AsCIDR a) = a ∧ Z.to_nat (Prefix (AsCIDR a)) = addrWidth a) as [-> ->] by (by destruct a).
  rewrite <- addrBits_length, drop_all, Nat.sub_diag. done.
Qed.

Lemma Contains_AsCIDR a b : addr_ok a → addr_ok b → CIDR_Contains (AsCIDR a) b = true ↔ a = b.
Proof.
  intros Ha Hb. assert (HA : AddrOf (AsCIDR a) = a ∧ Z.to_nat (Prefix (AsCIDR a)) = addrWidth a) by (by destruct a). destruct HA as [HA HP].
  destruct (decide (Addr_Version a = Addr_Version b)) as [Hv|Hv].
  2:{ split; [|by intros ->]. intros Hc. by destruct a, b. }
  rewrite CIDR_Contains_spec by (try apply AsCIDR_ok; try done; by rewrite <- Version_AddrOf, HA). unfold bitsOf. rewrite HA, HP, <- addrBits_length, firstn_all.
  split; [|by intros ->]. intros Hp. apply addrBits_inj; [done..|]. destruct Hp as [k Hk]. rewrite Hk. destruct k as [|x k]; [by rewrite app_nil_r|].
  apply (f_equal length) in Hk. rewrite length_app, !addrBits_length, (addrWidth_Version a b Hv) in Hk. cbn in Hk. lia.
Qed.

Lemma FromNetIP_ok ip : netip_ok ip → ∃ a, FromNetIP ip = Some a ∧ addr_ok a ∧ net_ok (AsCIDR a).
Proof.
  intros [Hok Hl]. destruct (isMapped ip) eqn:Hm.
  - assert (H16 : length ip = 16) by (by apply bool_decide_eq_true in Hm as [? _]). exists (V4Addr (be (drop 12 ip))). split; [by apply FromNetIP_mapped|].
    assert (Ha : addr_ok (V4Addr (be (drop 12 ip)))).
    { pose proof (be_bound (drop 12 ip) (Forall_drop _ _ _ Hok)) as Hb. by rewrite length_drop, H16 in Hb. }
    split; [done|]. split; [by apply AsCIDR_ok|done].
  - exists (bytesAddr ip). destruct (bytesAddr_ok ip Hok Hl) as [Ha _]. split_and!; [apply FromNetIP_unmapped; tauto|done|]. split; [by apply AsCIDR_ok|].
    unfold bytesAddr. case_decide as H4; [done|]. destruct Hl as [|H16]; [done|]. cbn [AsCIDR]. by rewrite unmapped_colon.
Qed.

Lemma nets_for_app S1 S2 l1 l2 : nets_for S1 l1 → nets_for S2 l2 → nets_for (λ a, S1 a ∨ S2 a) (l1 ++ l2).
Proof.
  intros [Hf1 H1] [Hf2 H2]. split; [by apply Forall_app|]. intros a Ha. rewrite <- H1, <- H2 by done. setoid_rewrite elem_of_app. naive_solver.
Qed.

Lemma nets_for_ext S1 S2 l : (∀ a, S1 a ↔ S2 a) → nets_for S1 l → nets_for S2 l.
Proof. intros HS [Hf H1]. split; [done|]. intros a Ha. rewrite <- HS. by apply H1. Qed.

Lemma addresses_ok {A} (f : A → NetIP) l :
  Forall (λ x, netip_ok (f x)) l → ∃ nets, mapOut (λ x, CIDRFromNetIP (f x)) l = Ret nets ∧ nets_for (oneOf (f <$> l)) nets.
Proof.
  induction 1 as [|x l Hx _ (nets&Hnets&Hf)]; cbn [mapOut].
  { exists []. split; [done|]. split; [constructor|]. intros a _. split; [set_solver|]. by intros (ip&?%elem_of_nil&_). }
  destruct (FromNetIP_ok (f x) Hx) as (a&Ha&Hok&Hn). exists (AsCIDR a :: nets). unfold CIDRFromNetIP at 1. rewrite Ha. cbn [obind]. rewrite Hnets. split; [done|].
  apply (nets_for_ext (λ b, b = a ∨ oneOf (f <$> l) b)).
  - intros b. unfold oneOf. cbn. setoid_rewrite elem_of_cons. split.
    + intros [->|(ip&Hip&Hb)]; eauto.
    + intros (ip&[->|Hip]&Hb); [left; congruence|right; eauto].
  - apply (nets_for_app _ _ [AsCIDR a]); [|done]. split.
    + apply list.Forall_singleton. split; [done|]. by destruct a.
    + intros b Hb. setoid_rewrite list_elem_of_singleton. split.
      * intros (c&->&Hc). by apply Contains_AsCIDR in Hc as ->.
      * intros ->. exists (AsCIDR a). split; [done|]. by apply Contains_AsCIDR.
Qed.

(** ** Network sets *)
Lemma splitZero_ok c a : net_ok c → addr_ok a →
  Forall (λ c, net_ok c ∧ Prefix c ≠ 0%Z) (splitZero c) ∧ ((∃ d, d ∈ splitZero c ∧ CIDR_Contains d a = true) ↔ CIDR_Contains c a = true).
Proof.
  intros Hc Ha. unfold splitZero. case_decide as Hp; [|split; [by apply list.Forall_singleton|set_solver]].
  assert (Hhalves : ∀ d e, Version d = Version c → Version e = Version c → cidr_ok d → cidr_ok e → bitsOf d = [false] → bitsOf e = [true] →
    (∃ x, x ∈ [d; e] ∧ CIDR_Contains x a = true) ↔ CIDR_Contains c a = true).
  { intros d e Hd He Hdo Heo Hbd Hbe. destruct Hc as [Hco _]. destruct (decide (Addr_Version a = Version c)) as [Hv|Hv].
    - assert (Hcov : CIDR_Contains c a = true) by (apply CIDR_Contains_spec; [done..|]; unfold bitsOf; rewrite Hp; apply prefix_nil).
      split; [done|]. intros _. pose proof (addrBits_length a) as Hl. destruct (addrBits a) as [|b bits] eqn:Hb; [by destruct a|].
      destruct b; [exists e|exists d]; (split; [set_solver|]); (apply CIDR_Contains_spec; [congruence|done|done|]); rewrite Hb, ?Hbd, ?Hbe; by exists bits.
    - assert (Hno : ∀ x, Version x = Version c → CIDR_Contains x a = false) by (intros [] Hx; destruct a, c; cbn in *; done).
      rewrite Hno by done. split; [|done]. intros (x&Hx&Hxa). rewrite Hno in Hxa; [done|]. set_solver. }
  assert (Hok : ∀ d, Prefix d = 1%Z → addr_ok (AddrOf d) → drop 1 (addrBits (AddrOf d)) = replicate (addrWidth (AddrOf d) - 1) false → cidr_ok d).
  { intros d Hd Hda Hz. split; [done|rewrite Hd; destruct d; cbn; lia|by rewrite Hd]. }
  assert (Hfour : cidr_ok (V4CIDR 0 1) ∧ cidr_ok (V4CIDR (2 ^ 31) 1) ∧ cidr_ok (V6CIDR 0 0 1) ∧ cidr_ok (V6CIDR (2 ^ 63) 0 1)).
  { split_and!; (apply Hok; [done|cbn; unfold word_ok; lia|by vm_compute]). }
  destruct Hfour as (H1&H2&H3&H4).
  destruct c as [c4 p|h l p]; (split; [repeat apply List.Forall_cons; try apply List.Forall_nil; (split; [by split|done])|]); apply Hhalves; done || by vm_compute.
Qed.

Lemma network_sets_ok l :
  Forall (λ net, ∃ n, ipnet_ok net n) l → ∃ cidrs, mapOut CIDRFromCalicoNet l = Ret cidrs ∧ nets_for (λ a, ∃ net, net ∈ l ∧ inNet net a) (cidrs ≫= splitZero).
Proof.
  induction 1 as [|net l [n Hn] _ (cidrs&Hcidrs&Hf)]; cbn [mapOut].
  { exists []. split; [done|]. split; [constructor|]. intros a _. split; [set_solver|]. by intros (net&?%elem_of_nil&_). }
  destruct (CIDRFromIPNet_ok net n Hn) as (c&Hc&Hok&Hv&Hp&Hb). exists (c :: cidrs). unfold CIDRFromCalicoNet at 1. rewrite Hc. cbn [obind]. rewrite Hcidrs. split; [done|].
  rewrite bind_cons. apply (nets_for_ext (λ a, inNet net a ∨ ∃ net, net ∈ l ∧ inNet net a)).
  { intros a. setoid_rewrite elem_of_cons. naive_solver. }
  apply nets_for_app; [|done]. split.
  - destruct (splitZero_ok c (V4Addr 0) Hok) as [Hs _]; [by cbn; unfold word_ok|done].
  - intros a Ha. destruct (splitZero_ok c a Hok Ha) as [_ ->]. destruct Hok as [Hcok _]. unfold inNet.
    assert (Hcont : Addr_Version a = Version c → CIDR_Contains c a = true ↔ take n (addrBits a) = take n (bytesBits (netBytes net))).
    { intros Hva. rewrite CIDR_Contains_spec by done. rewrite Hb. destruct (netBytes_ok net n Hn) as (_&_&_&_&Hle).
      assert (Hlen : length (take n (bytesBits (netBytes net))) = n) by (rewrite length_take, bytesBits_length; lia). split.
      - intros [k Hk]. rewrite Hk, take_app_length' by done. done.
      - intros <-. exists (drop n (addrBits a)). by rewrite take_drop. }
    split.
    + intros Hca. assert (Hva : Addr_Version a = Version c) by (by destruct c, a). exists n. split_and!; [done|congruence|]. by apply Hcont.
    + intros (n'&Hn'&Hva&Hbits). assert (n' = n) as ->.
      { destruct (netBytes_ok net n Hn) as (_&_&Hm&_&Hle). destruct (netBytes_ok net n' Hn') as (_&_&Hm'&_&Hle').
        pose proof (Mask_Size_mask _ _ Hle) as H1. pose proof (Mask_Size_mask _ _ Hle') as H2. rewrite <- Hm in H1. rewrite <- Hm' in H2. lia. }
      apply Hcont; [congruence|done].
Qed.

(** ** An update is an operation of the index *)
Section faithful.
Context `{Countable EpID} (zeroID : EpID) (go : GoOrders EpID) (MakeUniqueID : string → string → string).

Definition update_ok (u : NPUpdate EpID) : Prop :=
  match u with
  | WorkloadEndpointUpdate _ (Some ep) => Forall (λ net, netip_ok (net_IP net)) (we_IPv4Nets ep ++ we_IPv6Nets ep) ∧ NoDup (we_ProfileIDs ep)
  | HostEndpointUpdate _ (Some ep) => Forall netip_ok (ExpectedIPv4Addrs ep ++ ExpectedIPv6Addrs ep) ∧ NoDup (he_ProfileIDs ep)
  | NetworkSetUpdate _ (Some ns) => Forall (λ net, ∃ n, ipnet_ok net n) (ns_Nets ns) ∧ NoDup (ns_ProfileIDs ns)
  | _ => True
  end.

(** The operation that the update stands for. *)
Definition stands_for (u : NPUpdate EpID) (op : option (NPOp (EpID := EpID))) : Prop :=
  match u with
  | WorkloadEndpointUpdate key (Some ep) =>
      ∃ nets, op = Some (OpUpdateEndpoint key (we_Labels ep) nets (we_Ports ep) (we_ProfileIDs ep)) ∧ nets_for (oneOf (net_IP <$> we_IPv4Nets ep ++ we_IPv6Nets ep)) nets
  | HostEndpointUpdate key (Some ep) =>
      ∃ nets, op = Some (OpUpdateEndpoint key (he_Labels ep) nets (he_Ports ep) (he_ProfileIDs ep)) ∧ nets_for (oneOf (ExpectedIPv4Addrs ep ++ ExpectedIPv6Addrs ep)) nets
  | NetworkSetUpdate key (Some ns) =>
      ∃ nets, op = Some (OpUpdateEndpoint key (ns_Labels ns) nets [] (ns_ProfileIDs ns)) ∧ nets_for (λ a, ∃ net, net ∈ ns_Nets ns ∧ inNet net a) nets
  | WorkloadEndpointUpdate key None | HostEndpointUpdate key None | NetworkSetUpdate key None => op = Some (OpDeleteEndpoint key)
  | ResourceUpdate Kind Name (Some labels) => op = if decide (Kind = "Profile") then Some (OpUpdateParent Name labels) else None
  | ResourceUpdate Kind Name None => op = if decide (Kind = "Profile") then Some (OpDeleteParent Name) else None
  end.

Lemma oneOf_app l1 l2 a : oneOf (l1 ++ l2) a ↔ oneOf l1 a ∨ oneOf l2 a.
Proof. unfold oneOf. setoid_rewrite elem_of_app. naive_solver. Qed.

Lemma nets_for_ok S nets : nets_for S nets → Forall net_ok nets.
Proof. intros [Hf _]. eapply Forall_impl; [exact Hf|]. by intros c [? _]. Qed.

(** An update of the datastore is one operation of the index, or none: endpoints and network
    sets become updates or deletions under their key, profiles updates or deletions of the labels
    that they pass on, and other resources are ignored.  The CIDRs are canonical, none of them has
    a prefix of length zero (which the Linux dataplane cannot handle), and together they hold
    exactly the addresses of the endpoint, whatever the prefix lengths of its networks, or the
    addresses of the networks of the set; addresses may come as four bytes or as sixteen, IPv4
    addresses mapped into sixteen included.  A network that maps IPv4 into IPv6 with a mask of 96
    ones or more is not among the assumptions: see [mapped_prefix_out_of_range]. *)
Theorem OnUpdate_faithful (u : NPUpdate EpID) :
  update_ok u →
  ∃ op, stands_for u op ∧ (∀ idx, OnUpdate zeroID go u idx = match op with Some op => np_op zeroID go op idx | None => Ret idx end) ∧
        match op with Some op => np_op_ok MakeUniqueID op | None => True end.
Proof.
  destruct u as [key [ep|]|key [ep|]|key [ns|]|Kind Name value]; cbn [update_ok stands_for OnUpdate]; intros Hok; try (eexists; by split_and!).
  - destruct Hok as [[H4 H6]%Forall_app Hnd]. destruct (addresses_ok net_IP _ H4) as (n4&E4&F4). destruct (addresses_ok net_IP _ H6) as (n6&E6&F6).
    eexists. split_and!; [exists (n4 ++ n6); split; [done|]|intros idx; unfold extractCIDRsFromWorkloadEndpoint; rewrite E4; cbn [obind]; rewrite E6; done|].
    + eapply nets_for_ext; [|by apply nets_for_app]. intros a. cbn. by rewrite fmap_app, oneOf_app.
    + cbn. split; [|done]. apply Forall_app. split; by eapply nets_for_ok.
  - destruct Hok as [[H4 H6]%Forall_app Hnd]. destruct (addresses_ok id _ H4) as (n4&E4&F4). destruct (addresses_ok id _ H6) as (n6&E6&F6). rewrite list_fmap_id in F4, F6.
    change (mapOut CIDRFromNetIP (ExpectedIPv4Addrs ep) = Ret n4) in E4. change (mapOut CIDRFromNetIP (ExpectedIPv6Addrs ep) = Ret n6) in E6.
    eexists. split_and!; [exists (n4 ++ n6); split; [done|]|intros idx; unfold extractCIDRsFromHostEndpoint; rewrite E4; cbn [obind]; rewrite E6; done|].
    + eapply nets_for_ext; [|by apply nets_for_app]. intros a. cbn. by rewrite oneOf_app.
    + cbn. split; [|done]. apply Forall_app. split; by eapply nets_for_ok.
  - destruct Hok as [Hn Hnd]. destruct (network_sets_ok _ Hn) as (cs&Ecs&Fcs).
    eexists. split_and!; [by eexists|intros idx; unfold extractCIDRsFromNetworkSet; rewrite Ecs; done|]. cbn. split; [by eapply nets_for_ok|done].
  - exists (if decide (Kind = "Profile") then Some (match value with Some labels => OpUpdateParent Name labels | None => OpDeleteParent Name end) else None).
    destruct (decide (Kind = "Profile")), (decide (Kind ≠ "Profile")); try done; by destruct value.
Qed.
End faithful.

(** A network set with 0.0.0.0/0 and 10.1.0.0/16. *)
Definition exampleNetworkSet : NetworkSet :=
  MkNetworkSet [MkIPNet [0; 0; 0; 0] (CIDRMask 0 32); MkIPNet [10; 1; 0; 0] (CIDRMask 16 32)]%Z uniquelabels.Nil ["prof"].

Lemma OnUpdate_faithful_witness :
  ∃ op, stands_for (NetworkSetUpdate 1 (Some exampleNetworkSet)) op ∧
    OnUpdate 0 exampleOrders (NetworkSetUpdate 1 (Some exampleNetworkSet)) (NewSelectorAndNamedPortIndex true) =
      UpdateEndpointOrSet 0 exampleOrders 1 uniquelabels.Nil [V4CIDR 0 1; V4CIDR (2 ^ 31) 1; net10_1] [] ["prof"] (NewSelectorAndNamedPortIndex true).
Proof.
  assert (Hok : update_ok (NetworkSetUpdate 1 (Some exampleNetworkSet))).
  { split; [|apply NoDup_singleton]. apply List.Forall_cons; [exists 0|apply List.Forall_cons; [exists 16|apply List.Forall_nil]];
      (split_and!; [unfold bytes_ok, word_ok; cbn; repeat (apply List.Forall_cons; [lia|]); apply List.Forall_nil|done|by apply Nat.leb_le; vm_compute|by left]). }
  destruct (OnUpdate_faithful 0 exampleOrders exampleHash _ Hok) as (op&Hop&_). exists op. split; [done|]. vm_compute (extractCIDRsFromNetworkSet _). reflexivity.
Defined.
