(* ===== verification/RuleScanner.v ===== *)
(** * The rule scanner: [felix/calc/rule_scanner.go]

    The rule scanner turns the rules of active policies and profiles into parsed rules, in which
    selectors, named ports and services are replaced by the identifiers of IP sets, and it tells
    the indexes of IP set members which IP sets are in use.

    The calls of [OnIPSetActive] and [OnIPSetInactive] and of the rules update callbacks are
    recorded in order in [events].  [cachedUID], which holds the result of [UniqueID], is left
    out.  The order in which Go ranges over a set of identifiers is a parameter; that of
    [currentUIDToIPSet] does not matter, since the loop over it only builds a set. *)
From S2P Require Import Prelude ModelRule Tokenizer SelectorAST SelectorParser Multidict PolicySorter.
From S2P Require Import CIDR MemberDedup NamedPortIndex.
From stdpp Require Import base list gmap numbers strings.
From stdpp Require Import options.

(** ** [strings.TrimSpace] and [selector.Normalise] *)
(** White space in UTF-8: the ASCII characters, U+0085, U+00A0, U+1680, U+2000 to U+200A, U+2028,
    U+2029, U+202F, U+205F and U+3000. *)
Definition bytesString (l : list nat) : string := foldr (λ n s, String (Ascii.ascii_of_nat n) s) "" l.
Definition whiteSpace : list string :=
  bytesString <$> (((λ n, [n]) <$> [9; 10; 11; 12; 13; 32]) ++ [[194; 133]; [194; 160]; [225; 154; 128]] ++
    ((λ n, [226; 128; n]) <$> (seq 128 11 ++ [168; 169; 175])) ++ [[226; 129; 159]; [227; 128; 128]]).

Fixpoint cutAny (s : string) (prefixes : list string) : option string :=
  match prefixes with
  | [] => None
  | p :: ps => match CutPrefix s p with Some r => Some r | None => cutAny s ps end
  end.

Fixpoint cutAll (fuel : nat) (prefixes : list string) (s : string) : string :=
  match fuel with
  | O => s
  | S fuel' => match cutAny s prefixes with Some r => cutAll fuel' prefixes r | None => s end
  end.

Fixpoint revString (s : string) : string := match s with "" => "" | String c s' => revString s' +:+ String c "" end.

Definition TrimSpace (s : string) : string :=
  let s1 := cutAll (String.length s) whiteSpace s in
  revString (cutAll (String.length s1) (revString <$> whiteSpace) (revString s1)).

(** ** Data *)
Record IPSetData := MkIPSetData_ {
  ips_Selector : option Selector;
  ips_NamedPortProtocol : Protocol;
  ips_NamedPort : string;
  ips_Service : string;
  ips_ServiceIncludePorts : bool
}.

Record ParsedRule := MkParsedRule {
  parsed_Action : string;
  parsed_IPVersion : option Z;
  parsed_Protocol : option ModelProtocol;
  parsed_SrcNets : list IPNet_;
  parsed_SrcPorts : list Port;
  parsed_SrcNamedPortIPSetIDs : list string;
  parsed_DstNets : list IPNet_;
  parsed_DstPorts : list Port;
  parsed_DstNamedPortIPSetIDs : list string;
  parsed_ICMPType : option Z;
  parsed_ICMPCode : option Z;
  parsed_SrcIPSetIDs : list string;
  parsed_DstIPSetIDs : list string;
  parsed_DstIPPortSetIDs : list string;
  parsed_NotProtocol : option ModelProtocol;
  parsed_NotSrcNets : list IPNet_;
  parsed_NotSrcPorts : list Port;
  parsed_NotSrcNamedPortIPSetIDs : list string;
  parsed_NotDstNets : list IPNet_;
  parsed_NotDstPorts : list Port;
  parsed_NotDstNamedPortIPSetIDs : list string;
  parsed_NotICMPType : option Z;
  parsed_NotICMPCode : option Z;
  parsed_NotSrcIPSetIDs : list string;
  parsed_NotDstIPSetIDs : list string;
  parsed_OriginalSrcSelector : string;
  parsed_OriginalSrcNamespaceSelector : string;
  parsed_OriginalDstSelector : string;
  parsed_OriginalDstNamespaceSelector : string;
  parsed_OriginalNotSrcSelector : string;
  parsed_OriginalNotDstSelector : string;
  parsed_OriginalSrcServiceAccountNames : list string;
  parsed_OriginalSrcServiceAccountSelector : string;
  parsed_OriginalDstServiceAccountNames : list string;
  parsed_OriginalDstServiceAccountSelector : string;
  parsed_OriginalSrcService : string;
  parsed_OriginalSrcServiceNamespace : string;
  parsed_OriginalDstService : string;
  parsed_OriginalDstServiceNamespace : string;
  parsed_HTTPMatch : option HTTPMatch;
  parsed_Metadata : option RuleMetadata
}.

Record ParsedRules := MkParsedRules {
  prs_Namespace : string;
  prs_InboundRules : list ParsedRule;
  prs_OutboundRules : list ParsedRule;
  prs_Untracked : bool;
  prs_PreDNAT : bool;
  prs_Tier : string;
  prs_OriginalSelector : string;
  prs_PerformanceHints : list string
}.

(** A policy, or the rules of a profile. *)
Abbreviation RulesKey := (PolicyKey + string)%type.

Inductive RSEvent :=
  | OnIPSetActive (ipSet : IPSetData)
  | OnIPSetInactive (ipSet : IPSetData)
  | OnRulesActive (key : RulesKey) (rules : ParsedRules)
  | OnRulesInactive (key : RulesKey).

Record RuleScanner := MkRuleScanner {
  ipSetsByUID : gmap string IPSetData;
  rulesIDToUIDs : gmap RulesKey (gset string);
  uidsToRulesIDs : gmap string (gset RulesKey);
  rs_events : list RSEvent
}.

Definition NewRuleScanner : RuleScanner := MkRuleScanner ∅ ∅ ∅ [].

Definition emitRS (e : RSEvent) (rs : RuleScanner) : RuleScanner :=
  MkRuleScanner (ipSetsByUID rs) (rulesIDToUIDs rs) (uidsToRulesIDs rs) (rs_events rs ++ [e]).

(** ** From rules to parsed rules *)
Definition Protocol_String (p : Protocol) : string :=
  if decide (p = ProtocolTCP) then "tcp" else if decide (p = ProtocolUDP) then "udp" else if decide (p = ProtocolSCTP) then "sctp"
  else if decide (p = ProtocolAny) then "any" else if decide (p = ProtocolNone) then "none" else "unknown".

Inductive IPSetType := IPSetUpdate_IP | IPSetUpdate_IP_AND_PORT | IPSetUpdate_NET.

Definition DataplaneProtocolType (d : IPSetData) : IPSetType :=
  if decide (ips_NamedPortProtocol d ≠ ProtocolNone) then IPSetUpdate_IP_AND_PORT
  else if bool_decide (ips_Service d ≠ "") && ips_ServiceIncludePorts d then IPSetUpdate_IP_AND_PORT
  else IPSetUpdate_NET.

Fixpoint splitNamedAndNumericPorts (ports : list Port) : list Port * list string :=
  match ports with
  | [] => ([], [])
  | p :: ports' =>
      let '(numericPorts, namedPorts) := splitNamedAndNumericPorts ports' in
      if decide (PortName p ≠ "") then (numericPorts, PortName p :: namedPorts) else (p :: numericPorts, namedPorts)
  end.

Definition combineMatchesIfPossible (positiveSel negatedSel : string) : string * string :=
  if decide (positiveSel = "") then (positiveSel, negatedSel)
  else if decide (negatedSel ≠ "") then ("(" +:+ positiveSel +:+ ") && (!(" +:+ negatedSel +:+ "))", "")
  else (positiveSel, negatedSel).

Definition selectorsToIPSets (selectors : list Selector) : list IPSetData :=
  (λ s, MkIPSetData_ (Some s) ProtocolNone "" "" false) <$> selectors.

Section rules.
Context (MakeUniqueID : string → string → string).

Definition Normalise (selector : string) : string :=
  let selector := TrimSpace selector in
  match Parse MakeUniqueID selector with Ret (Some sel) => stringRep sel | _ => selector end.

(** [selector.All], parsed when the program starts. *)
Definition All : outcome Empty_set Selector :=
  match Parse MakeUniqueID "all()" with Ret (Some sel) => Ret sel | _ => Panic end.

Definition UniqueID (d : IPSetData) : outcome Empty_set string :=
  if decide (ips_Service d ≠ "") then
    Ret (if ips_ServiceIncludePorts d then MakeUniqueID "svc" (ips_Service d) else MakeUniqueID "svcnoport" (ips_Service d))
  else
    match ips_Selector d with
    | None => Panic
    | Some sel =>
        let selID := hash sel in
        if decide (ips_NamedPortProtocol d = ProtocolNone) then Ret selID
        else Ret (MakeUniqueID "n" (selID +:+ "," +:+ Protocol_String (ips_NamedPortProtocol d) +:+ "," +:+ ips_NamedPort d))
    end.

Definition ipSetsToUIDs (ipSets : list IPSetData) : outcome Empty_set (list string) := mapOut UniqueID ipSets.

Definition parseAndAppendSelectorIfNonZero (slice : list Selector) (rawSelector : string) : outcome Empty_set (list Selector) :=
  if decide (rawSelector = "") then Ret slice
  else match Parse MakeUniqueID rawSelector with Ret (Some sel) => Ret (slice ++ [sel]) | _ => Panic end.

Definition extractSelectors (rule : Rule) : outcome Empty_set (list Selector * list Selector * list Selector * list Selector) :=
  let '(srcRawSel, notSrcSel) := combineMatchesIfPossible (rule_SrcSelector rule) (rule_NotSrcSelector rule) in
  let '(dstRawSel, notDstSel) := combineMatchesIfPossible (rule_DstSelector rule) (rule_NotDstSelector rule) in
  let! src := parseAndAppendSelectorIfNonZero [] srcRawSel in
  let! dst := parseAndAppendSelectorIfNonZero [] dstRawSel in
  let! notSrc := parseAndAppendSelectorIfNonZero [] notSrcSel in
  let! notDst := parseAndAppendSelectorIfNonZero [] notDstSel in
  Ret (src, dst, notSrc, notDst).

Definition namedPortsToIPSets (namedPorts : list string) (positiveSelectors : list Selector) (proto : Protocol) : outcome Empty_set (list IPSetData) :=
  if decide (1 < length positiveSelectors) then Panic
  else
    let! sel := match positiveSelectors with sel :: _ => Ret sel | [] => All end in
    Ret ((λ namedPort, MkIPSetData_ (Some sel) proto namedPort "" false) <$> namedPorts).

(** The IP set of a service, when the rule names one. *)
Definition serviceIPSets (namespace service : string) (includePorts : bool) : list IPSetData :=
  if decide (service ≠ "") then [MkIPSetData_ None ProtocolNone "" (namespace +:+ "/" +:+ service) includePorts] else [].

Definition ruleToParsedRule (rule : Rule) : outcome Empty_set (ParsedRule * list IPSetData) :=
  let! (srcSel, dstSel, notSrcSels, notDstSels) := extractSelectors rule in
  let '(srcNumericPorts, srcNamedPorts) := splitNamedAndNumericPorts (rule_SrcPorts rule) in
  let '(dstNumericPorts, dstNamedPorts) := splitNamedAndNumericPorts (rule_DstPorts rule) in
  let '(notSrcNumericPorts, notSrcNamedPorts) := splitNamedAndNumericPorts (rule_NotSrcPorts rule) in
  let '(notDstNumericPorts, notDstNamedPorts) := splitNamedAndNumericPorts (rule_NotDstPorts rule) in
  let! namedPortProto := match rule_Protocol rule with Some p => ProtocolFrom p | None => Ret ProtocolAny end in
  let! srcNamedPortIPSets := namedPortsToIPSets srcNamedPorts srcSel namedPortProto in
  let! dstNamedPortIPSets := namedPortsToIPSets dstNamedPorts dstSel namedPortProto in
  let! notSrcNamedPortIPSets := namedPortsToIPSets notSrcNamedPorts srcSel namedPortProto in
  let! notDstNamedPortIPSets := namedPortsToIPSets notDstNamedPorts dstSel namedPortProto in
  let srcSelIPSets := if decide (0 < length srcNumericPorts ∨ length srcNamedPorts = 0) then selectorsToIPSets srcSel else [] in
  let dstSelIPSets := if decide (0 < length dstNumericPorts ∨ length dstNamedPorts = 0) then selectorsToIPSets dstSel else [] in
  let notSrcSelIPSets := selectorsToIPSets notSrcSels in
  let notDstSelIPSets := selectorsToIPSets notDstSels in
  let dstIPPortSets := serviceIPSets (rule_DstServiceNamespace rule) (rule_DstService rule) true in
  let srcSelIPSets := srcSelIPSets ++ serviceIPSets (rule_SrcServiceNamespace rule) (rule_SrcService rule) false in
  let! srcNamedPortIDs := ipSetsToUIDs srcNamedPortIPSets in
  let! srcSelIDs := ipSetsToUIDs srcSelIPSets in
  let! dstNamedPortIDs := ipSetsToUIDs dstNamedPortIPSets in
  let! dstSelIDs := ipSetsToUIDs dstSelIPSets in
  let! dstIPPortIDs := ipSetsToUIDs dstIPPortSets in
  let! notSrcNamedPortIDs := ipSetsToUIDs notSrcNamedPortIPSets in
  let! notSrcSelIDs := ipSetsToUIDs notSrcSelIPSets in
  let! notDstNamedPortIDs := ipSetsToUIDs notDstNamedPortIPSets in
  let! notDstSelIDs := ipSetsToUIDs notDstSelIPSets in
  Ret (MkParsedRule (rule_Action rule) (rule_IPVersion rule) (rule_Protocol rule)
         (AllSrcNets rule) srcNumericPorts srcNamedPortIDs
         (AllDstNets rule) dstNumericPorts dstNamedPortIDs
         (rule_ICMPType rule) (rule_ICMPCode rule) srcSelIDs dstSelIDs dstIPPortIDs
         (rule_NotProtocol rule)
         (AllNotSrcNets rule) notSrcNumericPorts notSrcNamedPortIDs
         (AllNotDstNets rule) notDstNumericPorts notDstNamedPortIDs
         (rule_NotICMPType rule) (rule_NotICMPCode rule) notSrcSelIDs notDstSelIDs
         (rule_OriginalSrcSelector rule) (rule_OriginalSrcNamespaceSelector rule)
         (rule_OriginalDstSelector rule) (rule_OriginalDstNamespaceSelector rule)
         (rule_OriginalNotSrcSelector rule) (rule_OriginalNotDstSelector rule)
         (rule_OriginalSrcServiceAccountNames rule) (rule_OriginalSrcServiceAccountSelector rule)
         (rule_OriginalDstServiceAccountNames rule) (rule_OriginalDstServiceAccountSelector rule)
         (rule_SrcService rule) (rule_SrcServiceNamespace rule) (rule_DstService rule) (rule_DstServiceNamespace rule)
         (rule_HTTPMatch rule) (rule_Metadata rule),
       srcNamedPortIPSets ++ dstNamedPortIPSets ++ notSrcNamedPortIPSets ++ notDstNamedPortIPSets ++
       srcSelIPSets ++ dstSelIPSets ++ dstIPPortSets ++ notSrcSelIPSets ++ notDstSelIPSets).

(** ** Tracking of IP sets *)
Context (enumUIDs : gset string → list string).

(** [currentUIDToIPSet[ipSet.UniqueID()] = ipSet] for each IP set. *)
Fixpoint storeIPSets (ipSets : list IPSetData) (currentUIDToIPSet : gmap string IPSetData) : outcome Empty_set (gmap string IPSetData) :=
  match ipSets with
  | [] => Ret currentUIDToIPSet
  | ipSet :: ipSets' => let! uid := UniqueID ipSet in storeIPSets ipSets' (<[uid := ipSet]> currentUIDToIPSet)
  end.

Fixpoint scanRules (rules : list Rule) (currentUIDToIPSet : gmap string IPSetData) : outcome Empty_set (list ParsedRule * gmap string IPSetData) :=
  match rules with
  | [] => Ret ([], currentUIDToIPSet)
  | rule :: rules' =>
      let! (parsed, allIPSets) := ruleToParsedRule rule in
      let! m := storeIPSets allIPSets currentUIDToIPSet in
      let! (parsedRules, m') := scanRules rules' m in
      Ret (parsed :: parsedRules, m')
  end.

(** One iteration of the loop over [addedUids]. *)
Definition addUID (key : RulesKey) (currentUIDToIPSet : gmap string IPSetData) (uid : string) (rs : RuleScanner) : outcome Empty_set RuleScanner :=
  let rulesIDs := Multidict.Put key uid (rulesIDToUIDs rs) in
  let uids := Multidict.Put uid key (uidsToRulesIDs rs) in
  if Multidict.ContainsKey (uidsToRulesIDs rs) uid then Ret (MkRuleScanner (ipSetsByUID rs) rulesIDs uids (rs_events rs))
  else
    match currentUIDToIPSet !! uid with
    | Some ipSet => Ret (MkRuleScanner (<[uid := ipSet]> (ipSetsByUID rs)) rulesIDs uids (rs_events rs ++ [OnIPSetActive ipSet]))
    | None => Panic
    end.

(** One iteration of the loop over [removedUids]. *)
Definition removeUID (key : RulesKey) (uid : string) (rs : RuleScanner) : outcome Empty_set RuleScanner :=
  let rulesIDs := Multidict.Discard key uid (rulesIDToUIDs rs) in
  let uids := Multidict.Discard uid key (uidsToRulesIDs rs) in
  if Multidict.ContainsKey uids uid then Ret (MkRuleScanner (ipSetsByUID rs) rulesIDs uids (rs_events rs))
  else
    match ipSetsByUID rs !! uid with
    | Some ipSetData => Ret (MkRuleScanner (delete uid (ipSetsByUID rs)) rulesIDs uids (rs_events rs ++ [OnIPSetInactive ipSetData]))
    | None => Panic
    end.

Fixpoint forUIDs (f : string → RuleScanner → outcome Empty_set RuleScanner) (uids : list string) (rs : RuleScanner) : outcome Empty_set RuleScanner :=
  match uids with [] => Ret rs | uid :: uids' => let! rs' := f uid rs in forUIDs f uids' rs' end.

Definition updateRules (key : RulesKey) (inbound outbound : list Rule) (untracked preDNAT : bool) (origNamespace origSelector tier : string)
    (perfHints : list string) (rs : RuleScanner) : outcome Empty_set (RuleScanner * ParsedRules) :=
  let! (parsedInbound, m) := scanRules inbound ∅ in
  let! (parsedOutbound, currentUIDToIPSet) := scanRules outbound m in
  let parsedRules := MkParsedRules origNamespace parsedInbound parsedOutbound untracked preDNAT tier origSelector perfHints in
  let addedUids := filter (λ uid, Multidict.Contains (rulesIDToUIDs rs) key uid = false) (dom currentUIDToIPSet) in
  let removedUids := filter (λ uid, currentUIDToIPSet !! uid = None) (Multidict.Iter (rulesIDToUIDs rs) key) in
  let! rs1 := forUIDs (addUID key currentUIDToIPSet) (enumUIDs addedUids) rs in
  let! rs2 := forUIDs (removeUID key) (enumUIDs removedUids) rs1 in
  Ret (rs2, parsedRules).

(** ** Inputs *)
Definition OnProfileActive (name : string) (profile : ProfileRules) (rs : RuleScanner) : outcome Empty_set RuleScanner :=
  let! (rs', parsedRules) := updateRules (inr name) (pr_InboundRules profile) (pr_OutboundRules profile) false false "" "" "" [] rs in
  Ret (emitRS (OnRulesActive (inr name) parsedRules) rs').

Definition OnProfileInactive (name : string) (rs : RuleScanner) : outcome Empty_set RuleScanner :=
  let! (rs', _) := updateRules (inr name) [] [] false false "" "" "" [] rs in
  Ret (emitRS (OnRulesInactive (inr name)) rs').

Definition OnPolicyActive (key : PolicyKey) (policy : Policy) (rs : RuleScanner) : outcome Empty_set RuleScanner :=
  let! (rs', parsedRules) := updateRules (inl key) (pol_InboundRules policy) (pol_OutboundRules policy) (pol_DoNotTrack policy) (pol_PreDNAT policy)
    (pol_Namespace policy) (Normalise (pol_Selector policy)) (pol_Tier policy) (pol_PerformanceHints policy) rs in
  Ret (emitRS (OnRulesActive (inl key) parsedRules) rs').

Definition OnPolicyInactive (key : PolicyKey) (rs : RuleScanner) : outcome Empty_set RuleScanner :=
  let! (rs', _) := updateRules (inl key) [] [] false false "" "" "" [] rs in
  Ret (emitRS (OnRulesInactive (inl key)) rs').
End rules.
