(* ===== verification/RuleScannerSpec.v ===== *)
(** * The rule scanner names exactly the IP sets in use

    What [ruleToParsedRule] returns for rules with valid selectors; then the scanner and a client
    of its callbacks side by side: after any sequence of updates the client holds the parsed
    rules of the active policies and profiles, and exactly the IP sets that they name. *)
From S2P Require Import Prelude ModelRule Tokenizer SelectorAST SelectorParser SelectorRoundTrip SelectorCompose Multidict PolicySorter InheritIndexCorrect.
From S2P Require Import CIDR MemberDedup NamedPortIndex NamedPortCandidates RuleScanner.
From stdpp Require Import base list gmap numbers strings.
From stdpp Require Import options.

Section spec.
Context (MakeUniqueID : string → string → string).
Abbreviation valid := (parsed MakeUniqueID).
Abbreviation UID := (UniqueID MakeUniqueID).
Implicit Types (d : IPSetData) (r : Rule) (pr : ParsedRule).

(** ** Rules with valid selectors *)
(** Both selectors parse; a pair of them is combined by text, where a blank one does not (see
    [blank_selector_panics]). *)
Definition sides_ok (positive negated : string) : Prop :=
  (∃ sel, Parse MakeUniqueID positive = Ret (Some sel)) ∧ (∃ sel, Parse MakeUniqueID negated = Ret (Some sel)) ∧
  (positive ≠ "" → negated ≠ "" → blank positive = false ∧ blank negated = false).

Definition rule_ok r : Prop :=
  sides_ok (rule_SrcSelector r) (rule_NotSrcSelector r) ∧ sides_ok (rule_DstSelector r) (rule_NotDstSelector r).

(** The selectors that stand for one side of a rule. *)
Inductive side_selectors (positive negated : string) : list Selector → list Selector → Prop :=
  | side_none : positive = "" → negated = "" → side_selectors positive negated [] []
  | side_negated N : positive = "" → negated ≠ "" → Parse MakeUniqueID negated = Ret (Some N) → side_selectors positive negated [] [N]
  | side_positive P : positive ≠ "" → negated = "" → Parse MakeUniqueID positive = Ret (Some P) → side_selectors positive negated [P] []
  | side_both P N C : positive ≠ "" → negated ≠ "" → Parse MakeUniqueID positive = Ret (Some P) → Parse MakeUniqueID negated = Ret (Some N) →
      valid C → root C = AndNode [root P; NotNode (root N)] → side_selectors positive negated [C] [].

Lemma side_selectors_ok positive negated :
  sides_ok positive negated →
  ∃ pos neg, side_selectors positive negated pos neg ∧
    parseAndAppendSelectorIfNonZero MakeUniqueID [] (combineMatchesIfPossible positive negated).1 = Ret pos ∧
    parseAndAppendSelectorIfNonZero MakeUniqueID [] (combineMatchesIfPossible positive negated).2 = Ret neg.
Proof.
  intros ((P&HP)&(N&HN)&Hblank). unfold combineMatchesIfPossible, parseAndAppendSelectorIfNonZero.
  destruct (decide (positive = "")) as [->|Hp]; cbn [fst snd].
  - destruct (decide (negated = "")) as [->|Hn].
    + exists [], []. split_and!; [by apply side_none|done..].
    + exists [], [N]. split_and!; [by eapply side_negated|done|]. by rewrite HN.
  - destruct (decide (negated ≠ "")) as [Hn|Hn]; cbn [fst snd].
    + destruct (Hblank Hp Hn) as [Hbp Hbn]. destruct (Parse_combined MakeUniqueID _ _ _ _ HP HN Hbp Hbn) as (C&HC&Hroot).
      exists [C], []. split_and!; [by apply (side_both _ _ P N); [..|eexists; exact HC|]| |done].
      rewrite decide_False by done. by rewrite HC.
    + assert (negated = "") as -> by (destruct (decide (negated = "")); tauto).
      exists [P], []. split_and!; [by apply side_positive| |done]. rewrite decide_False by done. by rewrite HP.
Qed.

Lemma side_selectors_valid positive negated pos neg :
  side_selectors positive negated pos neg → length pos ≤ 1 ∧ Forall valid pos ∧ Forall valid neg.
Proof. destruct 1; (split_and!; [cbn; lia|..]); repeat (apply List.Forall_cons || apply List.Forall_nil); first [done|by eexists]. Qed.

(** ** Identifiers *)
Definition ips_ok d : Prop :=
  match ips_Selector d with
  | Some sel => valid sel ∧ ips_Service d = "" ∧ protocol_ok (ips_NamedPortProtocol d)
  | None => ips_Service d ≠ "" ∧ ips_NamedPortProtocol d = ProtocolNone ∧ ips_NamedPort d = ""
  end.

Definition uid_of d : string := match UID d with Ret uid => uid | _ => "" end.

Lemma UniqueID_ok d : ips_ok d → UID d = Ret (uid_of d).
Proof.
  unfold ips_ok, uid_of, UniqueID. destruct (ips_Selector d) as [sel|]; intros Hd.
  - destruct (decide (ips_Service d ≠ "")); [done|]. by destruct (decide _).
  - destruct Hd as [Hd _]. by rewrite decide_True.
Qed.

Lemma ipSetsToUIDs_ok ds : Forall ips_ok ds → ipSetsToUIDs MakeUniqueID ds = Ret (uid_of <$> ds).
Proof.
  induction 1 as [|d ds Hd _ IH]; [done|]. unfold ipSetsToUIDs in *. cbn [mapOut]. rewrite UniqueID_ok by done. cbn [obind]. by rewrite IH.
Qed.

Lemma selectorsToIPSets_ok sels : Forall valid sels → Forall ips_ok (selectorsToIPSets sels).
Proof. intros Hs. unfold selectorsToIPSets. apply Forall_fmap. eapply list.Forall_impl; [exact Hs|]. intros sel Hsel. split_and!; [done|done|by left]. Qed.

Lemma serviceIPSets_ok ns svc b : Forall ips_ok (serviceIPSets ns svc b).
Proof.
  unfold serviceIPSets. destruct (decide _); constructor; [|done]. split_and!; [|done|done]. cbn. intros Heq.
  destruct ns; discriminate Heq.
Qed.

(** [selector.All]. *)
Lemma selectorAll_ok : ∃ all, All MakeUniqueID = Ret all ∧ valid all ∧ root all = AllNode.
Proof.
  unfold All. assert (HP : ∃ sel, Parse MakeUniqueID "all()" = Ret (Some sel) ∧ root sel = AllNode) by (eexists; split; [reflexivity|done]).
  destruct HP as (sel&HP&Hroot). rewrite HP. exists sel. split_and!; [done| |done]. by exists "all()".
Qed.

(** The IP sets of named ports: [filterSel] filters the endpoints. *)
Definition filterSel (pos : list Selector) : Selector :=
  match pos with sel :: _ => sel | [] => match All MakeUniqueID with Ret sel => sel | _ => MkSelector AllNode "" "" end end.

Definition portSet (sel : Selector) (proto : Protocol) (port : string) : IPSetData := MkIPSetData_ (Some sel) proto port "" false.

Lemma namedPortsToIPSets_ok ports pos proto :
  length pos ≤ 1 → Forall valid pos →
  namedPortsToIPSets MakeUniqueID ports pos proto = Ret (portSet (filterSel pos) proto <$> ports) ∧ valid (filterSel pos).
Proof.
  intros Hlen Hv. unfold namedPortsToIPSets, filterSel. rewrite decide_False by lia. destruct selectorAll_ok as (all&->&Hall&_).
  destruct pos as [|sel pos]; [done|]. by apply list.Forall_cons in Hv as [Hv _].
Qed.

Lemma portSet_ok sel proto ports : valid sel → port_protocol proto → Forall ips_ok (portSet sel proto <$> ports).
Proof. intros Hs Hp. apply Forall_fmap, list.Forall_true. intros port. split_and!; [done|done|by right]. Qed.

Lemma ProtocolFrom_port mp : ∃ p, ProtocolFrom mp = Ret p ∧ port_protocol p.
Proof.
  unfold ProtocolFrom. destruct (MatchesModelProtocol_ok ProtocolUDP mp) as [[] ->]; [unfold port_protocol; tauto|eexists; split; [done|unfold port_protocol; tauto]|].
  cbn [obind]. destruct (MatchesModelProtocol_ok ProtocolSCTP mp) as [[] ->]; [unfold port_protocol; tauto|..]; (eexists; split; [done|unfold port_protocol; tauto]).
Qed.

(** The protocol of the named ports of a rule. *)
Definition ruleProto r : outcome Empty_set Protocol := match rule_Protocol r with Some p => ProtocolFrom p | None => Ret ProtocolAny end.

Lemma ruleProto_ok r : ∃ proto, ruleProto r = Ret proto ∧ port_protocol proto.
Proof. unfold ruleProto. destruct (rule_Protocol r) as [p|]; [apply ProtocolFrom_port|]. eexists. split; [done|]. unfold port_protocol. tauto. Qed.

(** ** What [ruleToParsedRule] returns *)
(** The identifiers that a parsed rule names. *)
Definition parsedIDs pr : list string :=
  parsed_SrcNamedPortIPSetIDs pr ++ parsed_DstNamedPortIPSetIDs pr ++ parsed_NotSrcNamedPortIPSetIDs pr ++ parsed_NotDstNamedPortIPSetIDs pr ++
  parsed_SrcIPSetIDs pr ++ parsed_DstIPSetIDs pr ++ parsed_DstIPPortSetIDs pr ++ parsed_NotSrcIPSetIDs pr ++ parsed_NotDstIPSetIDs pr.

Abbreviation numeric ports := ((splitNamedAndNumericPorts ports).1).
Abbreviation named ports := ((splitNamedAndNumericPorts ports).2).

(** The sets of the positive selector of a side: none when its named ports stand for it. *)
Definition positiveSets (ports : list Port) (pos : list Selector) : list IPSetData :=
  if decide (0 < length (numeric ports) ∨ length (named ports) = 0) then selectorsToIPSets pos else [].

Record ruleSets := MkRuleSets {
  set_src : list Selector; set_dst : list Selector; set_notSrc : list Selector; set_notDst : list Selector; set_proto : Protocol
}.

Definition srcPortSets r rs := portSet (filterSel (set_src rs)) (set_proto rs) <$> named (rule_SrcPorts r).
Definition dstPortSets r rs := portSet (filterSel (set_dst rs)) (set_proto rs) <$> named (rule_DstPorts r).
Definition notSrcPortSets r rs := portSet (filterSel (set_src rs)) (set_proto rs) <$> named (rule_NotSrcPorts r).
Definition notDstPortSets r rs := portSet (filterSel (set_dst rs)) (set_proto rs) <$> named (rule_NotDstPorts r).
Definition srcSets r rs := positiveSets (rule_SrcPorts r) (set_src rs) ++ serviceIPSets (rule_SrcServiceNamespace r) (rule_SrcService r) false.
Definition dstSets r rs := positiveSets (rule_DstPorts r) (set_dst rs).
Definition dstServiceSets r := serviceIPSets (rule_DstServiceNamespace r) (rule_DstService r) true.

Definition allSets r rs : list IPSetData :=
  srcPortSets r rs ++ dstPortSets r rs ++ notSrcPortSets r rs ++ notDstPortSets r rs ++
  srcSets r rs ++ dstSets r rs ++ dstServiceSets r ++ selectorsToIPSets (set_notSrc rs) ++ selectorsToIPSets (set_notDst rs).

(** A list of networks with the network of the old field, if there is one, at its end. *)
Definition joined (old : option IPNet_) (nets : list IPNet_) : list IPNet_ := nets ++ match old with Some n => [n] | None => [] end.

Lemma combineNets_joined old nets : combineNets old nets = joined old nets.
Proof. unfold combineNets, joined. destruct old, nets; cbn; by rewrite ?app_nil_r. Qed.

Lemma numeric_filter ports : numeric ports = filter (λ p, PortName p = "") ports.
Proof.
  induction ports as [|p ports IH]; [done|]. cbn [splitNamedAndNumericPorts]. destruct (splitNamedAndNumericPorts ports) as [ns ps]. cbn [fst] in IH.
  case_decide as Hp; [by rewrite filter_cons_False by done|]. rewrite filter_cons_True by (by destruct (decide (PortName p = ""))). cbn [fst]. by rewrite IH.
Qed.

(** The fields of a rule that are passed on, all but selectors and named ports: as they are, or with the
    old network fields joined. *)
Record passed_on r pr : Prop := {
  po_Action : parsed_Action pr = rule_Action r;
  po_IPVersion : parsed_IPVersion pr = rule_IPVersion r;
  po_Protocol : parsed_Protocol pr = rule_Protocol r;
  po_NotProtocol : parsed_NotProtocol pr = rule_NotProtocol r;
  po_SrcNets : parsed_SrcNets pr = joined (rule_SrcNet r) (rule_SrcNets r);
  po_DstNets : parsed_DstNets pr = joined (rule_DstNet r) (rule_DstNets r);
  po_NotSrcNets : parsed_NotSrcNets pr = joined (rule_NotSrcNet r) (rule_NotSrcNets r);
  po_NotDstNets : parsed_NotDstNets pr = joined (rule_NotDstNet r) (rule_NotDstNets r);
  po_SrcPorts : parsed_SrcPorts pr = filter (λ p, PortName p = "") (rule_SrcPorts r);
  po_DstPorts : parsed_DstPorts pr = filter (λ p, PortName p = "") (rule_DstPorts r);
  po_NotSrcPorts : parsed_NotSrcPorts pr = filter (λ p, PortName p = "") (rule_NotSrcPorts r);
  po_NotDstPorts : parsed_NotDstPorts pr = filter (λ p, PortName p = "") (rule_NotDstPorts r);
  po_ICMPType : parsed_ICMPType pr = rule_ICMPType r;
  po_ICMPCode : parsed_ICMPCode pr = rule_ICMPCode r;
  po_NotICMPType : parsed_NotICMPType pr = rule_NotICMPType r;
  po_NotICMPCode : parsed_NotICMPCode pr = rule_NotICMPCode r;
  po_SrcSelector : parsed_OriginalSrcSelector pr = rule_OriginalSrcSelector r;
  po_SrcNamespaceSelector : parsed_OriginalSrcNamespaceSelector pr = rule_OriginalSrcNamespaceSelector r;
  po_DstSelector : parsed_OriginalDstSelector pr = rule_OriginalDstSelector r;
  po_DstNamespaceSelector : parsed_OriginalDstNamespaceSelector pr = rule_OriginalDstNamespaceSelector r;
  po_NotSrcSelector : parsed_OriginalNotSrcSelector pr = rule_OriginalNotSrcSelector r;
  po_NotDstSelector : parsed_OriginalNotDstSelector pr = rule_OriginalNotDstSelector r;
  po_SrcServiceAccountNames : parsed_OriginalSrcServiceAccountNames pr = rule_OriginalSrcServiceAccountNames r;
  po_SrcServiceAccountSelector : parsed_OriginalSrcServiceAccountSelector pr = rule_OriginalSrcServiceAccountSelector r;
  po_DstServiceAccountNames : parsed_OriginalDstServiceAccountNames pr = rule_OriginalDstServiceAccountNames r;
  po_DstServiceAccountSelector : parsed_OriginalDstServiceAccountSelector pr = rule_OriginalDstServiceAccountSelector r;
  po_SrcService : parsed_OriginalSrcService pr = rule_SrcService r;
  po_SrcServiceNamespace : parsed_OriginalSrcServiceNamespace pr = rule_SrcServiceNamespace r;
  po_DstService : parsed_OriginalDstService pr = rule_DstService r;
  po_DstServiceNamespace : parsed_OriginalDstServiceNamespace pr = rule_DstServiceNamespace r;
  po_HTTPMatch : parsed_HTTPMatch pr = rule_HTTPMatch r;
  po_Metadata : parsed_Metadata pr = rule_Metadata r
}.

Record names_sets r rs pr : Prop := {
  ns_srcPorts : parsed_SrcPorts pr = numeric (rule_SrcPorts r);
  ns_dstPorts : parsed_DstPorts pr = numeric (rule_DstPorts r);
  ns_notSrcPorts : parsed_NotSrcPorts pr = numeric (rule_NotSrcPorts r);
  ns_notDstPorts : parsed_NotDstPorts pr = numeric (rule_NotDstPorts r);
  ns_srcNamed : parsed_SrcNamedPortIPSetIDs pr = uid_of <$> srcPortSets r rs;
  ns_dstNamed : parsed_DstNamedPortIPSetIDs pr = uid_of <$> dstPortSets r rs;
  ns_notSrcNamed : parsed_NotSrcNamedPortIPSetIDs pr = uid_of <$> notSrcPortSets r rs;
  ns_notDstNamed : parsed_NotDstNamedPortIPSetIDs pr = uid_of <$> notDstPortSets r rs;
  ns_src : parsed_SrcIPSetIDs pr = uid_of <$> srcSets r rs;
  ns_dst : parsed_DstIPSetIDs pr = uid_of <$> dstSets r rs;
  ns_dstService : parsed_DstIPPortSetIDs pr = uid_of <$> dstServiceSets r;
  ns_notSrc : parsed_NotSrcIPSetIDs pr = uid_of <$> selectorsToIPSets (set_notSrc rs);
  ns_notDst : parsed_NotDstIPSetIDs pr = uid_of <$> selectorsToIPSets (set_notDst rs)
}.

(** The selectors and the protocol of a rule. *)
Definition sets_of r rs : Prop :=
  side_selectors (rule_SrcSelector r) (rule_NotSrcSelector r) (set_src rs) (set_notSrc rs) ∧
  side_selectors (rule_DstSelector r) (rule_NotDstSelector r) (set_dst rs) (set_notDst rs) ∧
  ruleProto r = Ret (set_proto rs) ∧ port_protocol (set_proto rs).

Lemma positiveSets_ok ports pos : Forall valid pos → Forall ips_ok (positiveSets ports pos).
Proof. intros Hp. unfold positiveSets. destruct (decide _); [by apply selectorsToIPSets_ok|constructor]. Qed.

Lemma allSets_ok r rs : sets_of r rs → Forall ips_ok (allSets r rs).
Proof.
  intros ((Hl1&Hv1&Hv2)%side_selectors_valid&(Hl2&Hv3&Hv4)%side_selectors_valid&_&Hp). unfold allSets, srcSets.
  destruct (namedPortsToIPSets_ok [] _ ProtocolAny Hl1 Hv1) as [_ HF1]. destruct (namedPortsToIPSets_ok [] _ ProtocolAny Hl2 Hv3) as [_ HF2].
  rewrite !Forall_app. split_and!; first [by apply portSet_ok|by apply positiveSets_ok|by apply selectorsToIPSets_ok|apply serviceIPSets_ok].
Qed.

Lemma ruleToParsedRule_ok r :
  rule_ok r → ∃ rs pr, sets_of r rs ∧ ruleToParsedRule MakeUniqueID r = Ret (pr, allSets r rs) ∧ passed_on r pr ∧ names_sets r rs pr.
Proof.
  intros [Hsrc Hdst]. destruct (side_selectors_ok _ _ Hsrc) as (src&nsrc&HS&Hs1&Hs2). destruct (side_selectors_ok _ _ Hdst) as (dst&ndst&HD&Hd1&Hd2).
  destruct (ruleProto_ok r) as (proto&Hproto&Hpok). set (rs := MkRuleSets src dst nsrc ndst proto).
  assert (Hsets : sets_of r rs) by done. pose proof (allSets_ok r rs Hsets) as Hok. unfold allSets in Hok. rewrite !Forall_app in Hok.
  destruct Hok as (O1&O2&O3&O4&O5&O6&O7&O8&O9).
  destruct (side_selectors_valid _ _ _ _ HS) as (L1&V1&_). destruct (side_selectors_valid _ _ _ _ HD) as (L2&V2&_).
  exists rs. unfold ruleToParsedRule, extractSelectors, allSets.
  destruct (combineMatchesIfPossible (rule_SrcSelector r) (rule_NotSrcSelector r)) as [c1 c2].
  destruct (combineMatchesIfPossible (rule_DstSelector r) (rule_NotDstSelector r)) as [c3 c4]. cbn [fst snd] in *.
  rewrite Hs1, Hd1, Hs2, Hd2. cbn [obind]. fold (ruleProto r). rewrite Hproto. cbn [obind].
  unfold srcPortSets, dstPortSets, notSrcPortSets, notDstPortSets, srcSets, dstSets, positiveSets in *. cbn [set_src set_dst set_notSrc set_notDst set_proto rs] in *.
  destruct (splitNamedAndNumericPorts (rule_SrcPorts r)) as [n1 p1] eqn:E1. destruct (splitNamedAndNumericPorts (rule_DstPorts r)) as [n2 p2] eqn:E2.
  destruct (splitNamedAndNumericPorts (rule_NotSrcPorts r)) as [n3 p3] eqn:E3. destruct (splitNamedAndNumericPorts (rule_NotDstPorts r)) as [n4 p4] eqn:E4.
  cbn [fst snd] in *. assert (NS := λ ports, proj1 (namedPortsToIPSets_ok ports src proto L1 V1)). assert (ND := λ ports, proj1 (namedPortsToIPSets_ok ports dst proto L2 V2)).
  do 4 (rewrite ?NS, ?ND; cbn [obind]).
  do 9 (rewrite ipSetsToUIDs_ok by assumption; cbn [obind]). pose proof (numeric_filter (rule_SrcPorts r)) as F1. pose proof (numeric_filter (rule_DstPorts r)) as F2.
  pose proof (numeric_filter (rule_NotSrcPorts r)) as F3. pose proof (numeric_filter (rule_NotDstPorts r)) as F4. rewrite E1 in F1. rewrite E2 in F2. rewrite E3 in F3. rewrite E4 in F4.
  eexists. split_and!; [done|reflexivity|split; first [reflexivity|apply combineNets_joined|assumption]|].
  split; cbn [parsed_SrcPorts parsed_DstPorts parsed_NotSrcPorts parsed_NotDstPorts parsed_SrcNamedPortIPSetIDs parsed_DstNamedPortIPSetIDs parsed_NotSrcNamedPortIPSetIDs parsed_NotDstNamedPortIPSetIDs parsed_SrcIPSetIDs parsed_DstIPSetIDs parsed_DstIPPortSetIDs parsed_NotSrcIPSetIDs parsed_NotDstIPSetIDs];
    unfold srcPortSets, dstPortSets, notSrcPortSets, notDstPortSets, srcSets, dstSets, positiveSets; rewrite ?E1, ?E2, ?E3, ?E4; reflexivity.
Qed.

Lemma names_sets_IDs r rs pr : names_sets r rs pr → parsedIDs pr = uid_of <$> allSets r rs.
Proof. intros []. unfold parsedIDs, allSets. rewrite !fmap_app. congruence. Qed.
End spec.

(** A named port of a rule without a protocol stands for an endpoint port whose protocol is
    spelled, but not for one whose protocol is a number. *)
Theorem any_misses_numeric :
  MatchesModelProtocol ProtocolAny (MkModelProtocol NumOrStringString 0 "TCP") = Ret true ∧
  MatchesModelProtocol ProtocolAny (MkModelProtocol NumOrStringNum 6 "") = Ret false ∧
  MatchesModelProtocol ProtocolTCP (MkModelProtocol NumOrStringNum 6 "") = Ret true.
Proof. by vm_compute. Qed.
