(* ===== verification/RuleScannerTrack.v ===== *)
(** * The rule scanner and its client

    A client that follows the callbacks of the scanner: it holds IP sets and the parsed rules of
    policies and profiles.  It is strict: it refuses to add an IP set it has and to remove one
    that it does not have. *)
From S2P Require Import Prelude ModelRule Tokenizer SelectorAST SelectorParser Multidict PolicySorter InheritIndexCorrect.
From S2P Require Import CIDR MemberDedup NamedPortIndex NamedPortCandidates RuleScanner RuleScannerSpec.
From stdpp Require Import base list gmap numbers strings.
From stdpp Require Import options.

Record Dataplane := MkDataplane { dp_sets : gmap string IPSetData; dp_rules : gmap RulesKey ParsedRules }.

Section track.
Context (MakeUniqueID : string → string → string).
Context (enumUIDs : gset string → list string) (HenumUIDs : ∀ s, enumUIDs s ≡ₚ elements s).
Abbreviation UID := (UniqueID MakeUniqueID).
Abbreviation okay := (ips_ok MakeUniqueID).
Implicit Types (d : IPSetData) (r : Rule) (pr : ParsedRule) (prs : ParsedRules) (rs : RuleScanner) (dp : Dataplane) (k key : RulesKey) (u uid : string).

(** ** The client *)
Definition hear (dp : Dataplane) (e : RSEvent) : option Dataplane :=
  match e with
  | OnIPSetActive d =>
      match UID d with
      | Ret uid => if decide (dp_sets dp !! uid = None) then Some (MkDataplane (<[uid := d]> (dp_sets dp)) (dp_rules dp)) else None
      | _ => None
      end
  | OnIPSetInactive d =>
      match UID d with
      | Ret uid => if decide (dp_sets dp !! uid = None) then None else Some (MkDataplane (delete uid (dp_sets dp)) (dp_rules dp))
      | _ => None
      end
  | OnRulesActive key rules => Some (MkDataplane (dp_sets dp) (<[key := rules]> (dp_rules dp)))
  | OnRulesInactive key => Some (MkDataplane (dp_sets dp) (delete key (dp_rules dp)))
  end.

Fixpoint hearAll (es : list RSEvent) (dp : Dataplane) : option Dataplane :=
  match es with [] => Some dp | e :: es' => match hear dp e with Some dp' => hearAll es' dp' | None => None end end.

Lemma hearAll_app es1 : ∀ es2 dp, hearAll (es1 ++ es2) dp = match hearAll es1 dp with Some dp' => hearAll es2 dp' | None => None end.
Proof using Type. induction es1 as [|e es1 IH]; intros es2 dp; [done|]. cbn [hearAll app]. destruct (hear dp e); [apply IH|done]. Qed.

(** ** The inputs *)
Inductive RsOp :=
  | RsPolicy (key : PolicyKey) (policy : option Policy)
  | RsProfile (name : string) (profile : option ProfileRules).

Definition rs_step (op : RsOp) (rs : RuleScanner) : outcome Empty_set RuleScanner :=
  match op with
  | RsPolicy key (Some policy) => OnPolicyActive MakeUniqueID enumUIDs key policy rs
  | RsPolicy key None => OnPolicyInactive MakeUniqueID enumUIDs key rs
  | RsProfile name (Some profile) => OnProfileActive MakeUniqueID enumUIDs name profile rs
  | RsProfile name None => OnProfileInactive MakeUniqueID enumUIDs name rs
  end.

Fixpoint rs_run (ops : list RsOp) (rs : RuleScanner) : outcome Empty_set RuleScanner :=
  match ops with [] => Ret rs | op :: ops' => let! rs' := rs_step op rs in rs_run ops' rs' end.

(** ** The active policies and profiles *)
Abbreviation Active := (gmap RulesKey (Policy + ProfileRules)).

Definition active_step (a : Active) (op : RsOp) : Active :=
  match op with
  | RsPolicy key policy => partial_alter (λ _, inl <$> policy) (inl key) a
  | RsProfile name profile => partial_alter (λ _, inr <$> profile) (inr name) a
  end.

Definition rs_op_ok (op : RsOp) : Prop :=
  match op with
  | RsPolicy _ (Some p) => Forall (rule_ok MakeUniqueID) (pol_InboundRules p) ∧ Forall (rule_ok MakeUniqueID) (pol_OutboundRules p)
  | RsProfile _ (Some p) => Forall (rule_ok MakeUniqueID) (pr_InboundRules p) ∧ Forall (rule_ok MakeUniqueID) (pr_OutboundRules p)
  | _ => True
  end.

(** The parsed rules of a list of rules; of a policy or profile. *)
Definition parses_as (rules : list Rule) (parsed : list ParsedRule) : Prop :=
  Forall2 (λ r pr, ∃ sets, ruleToParsedRule MakeUniqueID r = Ret (pr, sets)) rules parsed.

Definition content_parsed (c : Policy + ProfileRules) prs : Prop :=
  match c with
  | inl p => parses_as (pol_InboundRules p) (prs_InboundRules prs) ∧ parses_as (pol_OutboundRules p) (prs_OutboundRules prs) ∧
      prs_Namespace prs = pol_Namespace p ∧ prs_Tier prs = pol_Tier p ∧ prs_Untracked prs = pol_DoNotTrack p ∧ prs_PreDNAT prs = pol_PreDNAT p ∧
      prs_OriginalSelector prs = Normalise MakeUniqueID (pol_Selector p) ∧ prs_PerformanceHints prs = pol_PerformanceHints p
  | inr p => parses_as (pr_InboundRules p) (prs_InboundRules prs) ∧ parses_as (pr_OutboundRules p) (prs_OutboundRules prs)
  end.

(** The identifiers that parsed rules name. *)
Definition namedBy prs uid : Prop := ∃ pr, pr ∈ prs_InboundRules prs ++ prs_OutboundRules prs ∧ uid ∈ parsedIDs pr.

(** ** The scan of rules *)
Definition sets_ok (m : gmap string IPSetData) : Prop := ∀ uid d, m !! uid = Some d → UID d = Ret uid ∧ okay d.

Lemma storeIPSets_ok ds : ∀ m, Forall okay ds → sets_ok m →
  ∃ m', storeIPSets MakeUniqueID ds m = Ret m' ∧ sets_ok m' ∧ ∀ uid, is_Some (m' !! uid) ↔ is_Some (m !! uid) ∨ uid ∈ uid_of MakeUniqueID <$> ds.
Proof using Type.
  induction ds as [|d ds IH]; intros m Hds Hm; cbn [storeIPSets].
  { exists m. split_and!; [done|done|]. intros uid. cbn. rewrite elem_of_nil. tauto. }
  apply list.Forall_cons in Hds as [Hd Hds]. pose proof (UniqueID_ok _ _ Hd) as Huid. rewrite Huid. cbn [obind].
  destruct (IH (<[uid_of MakeUniqueID d := d]> m) Hds) as (m'&->&Hm'&Hdom).
  { intros uid d' [[<- <-]|[_ Hl]]%lookup_insert_Some; [done|by apply Hm]. }
  exists m'. split_and!; [done|done|]. intros uid. rewrite Hdom, lookup_insert_is_Some'. cbn. rewrite elem_of_cons. naive_solver.
Qed.

Lemma scanRules_ok rules : ∀ m, Forall (rule_ok MakeUniqueID) rules → sets_ok m →
  ∃ prl m', scanRules MakeUniqueID rules m = Ret (prl, m') ∧ parses_as rules prl ∧ sets_ok m' ∧
    ∀ uid, is_Some (m' !! uid) ↔ is_Some (m !! uid) ∨ ∃ pr, pr ∈ prl ∧ uid ∈ parsedIDs pr.
Proof using Type.
  induction rules as [|r rules IH]; intros m Hrules Hm; cbn [scanRules].
  { exists [], m. split_and!; [done|constructor|done|]. intros uid. setoid_rewrite elem_of_nil. naive_solver. }
  apply list.Forall_cons in Hrules as [Hr Hrules]. destruct (ruleToParsedRule_ok _ r Hr) as (sets&pr&Hsets&Hpr&_&Hnames). rewrite Hpr. cbn [obind].
  destruct (storeIPSets_ok _ m (allSets_ok _ r sets Hsets) Hm) as (m1&->&Hm1&Hdom1). cbn [obind].
  destruct (IH m1 Hrules Hm1) as (prl&m2&->&Hprl&Hm2&Hdom2). exists (pr :: prl), m2. split_and!; [done| |done|].
  - constructor; [by eexists|done].
  - intros uid. rewrite Hdom2, Hdom1, <- (names_sets_IDs _ _ _ _ Hnames). setoid_rewrite elem_of_cons. naive_solver.
Qed.

(** ** The loops over identifiers *)
Record rs_inv rs dp : Prop := {
  ri_ok1 : md_ok (rulesIDToUIDs rs);
  ri_ok2 : md_ok (uidsToRulesIDs rs);
  ri_inverse k u : md_in (rulesIDToUIDs rs) k u ↔ md_in (uidsToRulesIDs rs) u k;
  ri_live u : is_Some (ipSetsByUID rs !! u) ↔ ∃ k, md_in (uidsToRulesIDs rs) u k;
  ri_sets : sets_ok (ipSetsByUID rs);
  ri_client : dp_sets dp = ipSetsByUID rs
}.

(** Events are about IP sets that the indexes can handle. *)
Definition event_ok (e : RSEvent) : Prop := match e with OnIPSetActive d | OnIPSetInactive d => okay d | _ => True end.

(** [rs] has become [rs'], with some more events, and the client has followed. *)
Definition follows rs dp rs' dp' : Prop :=
  ∃ es, rs_events rs' = rs_events rs ++ es ∧ Forall event_ok es ∧ hearAll es dp = Some dp'.
Definition same_rules dp dp' : Prop := dp_rules dp' = dp_rules dp.

Lemma follows_refl rs dp : follows rs dp rs dp.
Proof using Type. exists []. by rewrite app_nil_r. Qed.

Lemma follows_trans rs1 dp1 rs2 dp2 rs3 dp3 : follows rs1 dp1 rs2 dp2 → follows rs2 dp2 rs3 dp3 → follows rs1 dp1 rs3 dp3.
Proof using Type.
  intros (es1&He1&Ho1&Hl1) (es2&He2&Ho2&Hl2). exists (es1 ++ es2). rewrite He2, He1, app_assoc.
  split_and!; [done|by apply Forall_app|]. by rewrite hearAll_app, Hl1.
Qed.

Lemma addUID_ok key m uid rs dp :
  rs_inv rs dp → sets_ok m → is_Some (m !! uid) →
  ∃ rs' dp', addUID key m uid rs = Ret rs' ∧ rs_inv rs' dp' ∧ follows rs dp rs' dp' ∧ same_rules dp dp' ∧
    ∀ k u, md_in (rulesIDToUIDs rs') k u ↔ (k = key ∧ u = uid) ∨ md_in (rulesIDToUIDs rs) k u.
Proof using Type.
  intros [O1 O2 Hinv Hlive Hsets Hcl] Hm [d Hd]. unfold addUID. destruct (Multidict.ContainsKey (uidsToRulesIDs rs) uid) eqn:Hck.
  - apply md_ContainsKey, md_key in Hck; [|done]. eexists _, dp. split_and!; [done| |by exists []; rewrite app_nil_r|done|intros; apply md_Put_in].
    split; cbn; [by apply md_Put_ok..| | |done|done].
    + intros k u. rewrite !md_Put_in, Hinv. tauto.
    + intros u. rewrite Hlive. setoid_rewrite md_Put_in. naive_solver.
  - assert (Hno : ¬ ∃ k, md_in (uidsToRulesIDs rs) uid k) by (rewrite <- md_key, <- md_ContainsKey, Hck by done; done).
    rewrite Hd. destruct (Hm uid d Hd) as [Huid Hok]. assert (Hnone : ipSetsByUID rs !! uid = None) by (apply eq_None_not_Some; by rewrite Hlive).
    eexists _, (MkDataplane (<[uid := d]> (dp_sets dp)) (dp_rules dp)). split_and!; [done| | |done|intros; apply md_Put_in].
    + split; cbn; [by apply md_Put_ok..| | | |by rewrite Hcl].
      * intros k u. rewrite !md_Put_in, Hinv. tauto.
      * intros u. rewrite lookup_insert_is_Some', Hlive. setoid_rewrite md_Put_in. naive_solver.
      * intros u d' [[<- <-]|[_ Hl]]%lookup_insert_Some; [done|by apply Hsets].
    + exists [OnIPSetActive d]. split_and!; [done|by constructor|]. cbn [hearAll hear]. by rewrite Huid, Hcl, Hnone, decide_True.
Qed.

Lemma removeUID_ok key uid rs dp :
  rs_inv rs dp → md_in (rulesIDToUIDs rs) key uid →
  ∃ rs' dp', removeUID key uid rs = Ret rs' ∧ rs_inv rs' dp' ∧ follows rs dp rs' dp' ∧ same_rules dp dp' ∧
    ∀ k u, md_in (rulesIDToUIDs rs') k u ↔ md_in (rulesIDToUIDs rs) k u ∧ ¬ (k = key ∧ u = uid).
Proof using Type.
  intros [O1 O2 Hinv Hlive Hsets Hcl] Hin. unfold removeUID.
  assert (O2' : md_ok (Multidict.Discard uid key (uidsToRulesIDs rs))) by (by apply md_Discard_ok).
  destruct (Multidict.ContainsKey _ uid) eqn:Hck.
  - apply md_ContainsKey, md_key in Hck; [|done]. destruct Hck as [k0 Hk0]. rewrite md_Discard_in in Hk0.
    eexists _, dp. split_and!; [done| |by exists []; rewrite app_nil_r|done|intros; apply md_Discard_in].
    split; cbn; [by apply md_Discard_ok|done| | |done|done].
    + intros k u. rewrite !md_Discard_in, Hinv. tauto.
    + intros u. rewrite Hlive. setoid_rewrite md_Discard_in. split; [|naive_solver]. intros [k Hk].
      destruct (decide (u = uid)) as [->|]; [exists k0; tauto|exists k; tauto].
  - assert (Hno : ¬ ∃ k, md_in (Multidict.Discard uid key (uidsToRulesIDs rs)) uid k) by (rewrite <- md_key, <- md_ContainsKey, Hck by done; done).
    assert (Hd : is_Some (ipSetsByUID rs !! uid)) by (rewrite Hlive; exists key; by apply Hinv). destruct Hd as [d Hd]. rewrite Hd.
    destruct (Hsets uid d Hd) as [Huid Hok].
    eexists _, (MkDataplane (delete uid (dp_sets dp)) (dp_rules dp)). split_and!; [done| | |done|intros; apply md_Discard_in].
    + split; cbn; [by apply md_Discard_ok|done| | | |by rewrite Hcl].
      * intros k u. rewrite !md_Discard_in, Hinv. tauto.
      * intros u. rewrite lookup_delete_is_Some, Hlive. split.
        -- intros [Hne [k Hk]]. exists k. rewrite md_Discard_in. naive_solver.
        -- intros [k Hk]. split; [intros <-; by apply Hno; exists k|]. rewrite md_Discard_in in Hk. exists k. tauto.
      * intros u d' [_ Hl]%lookup_delete_Some. by apply Hsets.
    + exists [OnIPSetInactive d]. split_and!; [done|by constructor|]. cbn [hearAll hear]. by rewrite Huid, Hcl, Hd, decide_False.
Qed.

Lemma addUIDs_ok key m uids : ∀ rs dp,
  rs_inv rs dp → sets_ok m → (∀ u, u ∈ uids → is_Some (m !! u)) →
  ∃ rs' dp', forUIDs (addUID key m) uids rs = Ret rs' ∧ rs_inv rs' dp' ∧ follows rs dp rs' dp' ∧ same_rules dp dp' ∧
    ∀ k u, md_in (rulesIDToUIDs rs') k u ↔ (k = key ∧ u ∈ uids) ∨ md_in (rulesIDToUIDs rs) k u.
Proof using Type.
  induction uids as [|uid uids IH]; intros rs dp Hinv Hm Hin; cbn [forUIDs].
  { exists rs, dp. split_and!; [done|done|apply follows_refl|done|]. intros k u. rewrite elem_of_nil. tauto. }
  destruct (addUID_ok key m uid rs dp Hinv Hm) as (rs1&dp1&->&Hinv1&Hf1&Hs1&Hmd1); [apply Hin, list_elem_of_here|]. cbn [obind].
  destruct (IH rs1 dp1 Hinv1 Hm) as (rs2&dp2&->&Hinv2&Hf2&Hs2&Hmd2); [intros u Hu; by apply Hin, list_elem_of_further|].
  exists rs2, dp2. split_and!; [done|done|by eapply follows_trans|by unfold same_rules in *; congruence|]. intros k u. rewrite Hmd2, Hmd1, elem_of_cons. naive_solver.
Qed.

Lemma removeUIDs_ok key uids : ∀ rs dp,
  rs_inv rs dp → NoDup uids → (∀ u, u ∈ uids → md_in (rulesIDToUIDs rs) key u) →
  ∃ rs' dp', forUIDs (removeUID key) uids rs = Ret rs' ∧ rs_inv rs' dp' ∧ follows rs dp rs' dp' ∧ same_rules dp dp' ∧
    ∀ k u, md_in (rulesIDToUIDs rs') k u ↔ md_in (rulesIDToUIDs rs) k u ∧ ¬ (k = key ∧ u ∈ uids).
Proof using Type.
  induction uids as [|uid uids IH]; intros rs dp Hinv Hnd Hin; cbn [forUIDs].
  { exists rs, dp. split_and!; [done|done|apply follows_refl|done|]. intros k u. rewrite elem_of_nil. tauto. }
  apply list.NoDup_cons in Hnd as [Hni Hnd].
  destruct (removeUID_ok key uid rs dp Hinv) as (rs1&dp1&->&Hinv1&Hf1&Hs1&Hmd1); [apply Hin, list_elem_of_here|]. cbn [obind].
  destruct (IH rs1 dp1 Hinv1 Hnd) as (rs2&dp2&->&Hinv2&Hf2&Hs2&Hmd2).
  { intros u Hu. apply Hmd1. split; [by apply Hin, list_elem_of_further|]. by intros [_ ->]. }
  exists rs2, dp2. split_and!; [done|done|by eapply follows_trans|by unfold same_rules in *; congruence|]. intros k u. rewrite Hmd2, Hmd1, elem_of_cons. naive_solver.
Qed.

(** ** [updateRules] *)
Lemma updateRules_ok key inbound outbound untracked preDNAT ns sel tier hints rs dp :
  rs_inv rs dp → Forall (rule_ok MakeUniqueID) inbound → Forall (rule_ok MakeUniqueID) outbound →
  ∃ rs' dp' prl1 prl2,
    updateRules MakeUniqueID enumUIDs key inbound outbound untracked preDNAT ns sel tier hints rs =
      Ret (rs', MkParsedRules ns prl1 prl2 untracked preDNAT tier sel hints) ∧
    parses_as inbound prl1 ∧ parses_as outbound prl2 ∧ rs_inv rs' dp' ∧ follows rs dp rs' dp' ∧ same_rules dp dp' ∧
    ∀ k u, md_in (rulesIDToUIDs rs') k u ↔
      if decide (k = key) then namedBy (MkParsedRules ns prl1 prl2 untracked preDNAT tier sel hints) u else md_in (rulesIDToUIDs rs) k u.
Proof using HenumUIDs.
  intros Hinv Hin Hout. unfold updateRules.
  destruct (scanRules_ok inbound ∅ Hin) as (prl1&m1&->&Hp1&Hm1&Hd1); [done|]. cbn [obind].
  destruct (scanRules_ok outbound m1 Hout Hm1) as (prl2&m&->&Hp2&Hm&Hd2). cbn [obind].
  assert (Hdom : ∀ u, is_Some (m !! u) ↔ ∃ pr, pr ∈ prl1 ++ prl2 ∧ u ∈ parsedIDs pr).
  { intros u. rewrite Hd2, Hd1. setoid_rewrite elem_of_app. rewrite lookup_empty. unfold is_Some. naive_solver. }
  set (added := filter _ (dom m)). set (removed := filter _ (Multidict.Iter _ key)).
  assert (Hadded : ∀ u, u ∈ enumUIDs added ↔ is_Some (m !! u) ∧ ¬ md_in (rulesIDToUIDs rs) key u).
  { intros u. rewrite (HenumUIDs added), elem_of_elements. unfold added. rewrite elem_of_filter, elem_of_dom. unfold md_in.
    destruct (Multidict.Contains _ key u); naive_solver. }
  assert (Hremoved : ∀ u, u ∈ enumUIDs removed ↔ m !! u = None ∧ md_in (rulesIDToUIDs rs) key u).
  { intros u. rewrite (HenumUIDs removed), elem_of_elements. unfold removed. rewrite elem_of_filter, md_in_lookup. done. }
  destruct (addUIDs_ok key m (enumUIDs added) rs dp Hinv Hm) as (rs1&dp1&->&Hinv1&Hf1&Hs1&Hmd1); [naive_solver|]. cbn [obind].
  destruct (removeUIDs_ok key (enumUIDs removed) rs1 dp1 Hinv1) as (rs2&dp2&->&Hinv2&Hf2&Hs2&Hmd2).
  { rewrite (HenumUIDs removed). apply NoDup_elements. }
  { intros u Hu. apply Hremoved in Hu as [_ Hu]. apply Hmd1. by right. }
  exists rs2, dp2, prl1, prl2. split_and!; [done|done|done|done|by eapply follows_trans|by unfold same_rules in *; congruence|].
  intros k u. rewrite Hmd2, Hmd1. destruct (decide (k = key)) as [->|Hne]; [|naive_solver].
  unfold namedBy. cbn [prs_InboundRules prs_OutboundRules]. rewrite <- Hdom, Hadded, Hremoved. destruct (m !! u) as [d|] eqn:Hmu.
  - split; [done|]. intros _. split; [|naive_solver]. destruct (decide (Multidict.Contains (rulesIDToUIDs rs) key u = true)); [by right|by left].
  - split; [naive_solver|by intros [? ?]].
Qed.

(** ** One input *)
(** The client's rules are those of the active policies and profiles, and name exactly what the
    scanner has recorded. *)
Record tracks rs dp (a : Active) : Prop := {
  tr_inv : rs_inv rs dp;
  tr_active k : match a !! k, dp_rules dp !! k with Some c, Some prs => content_parsed c prs | None, None => True | _, _ => False end;
  tr_named k u : md_in (rulesIDToUIDs rs) k u ↔ ∃ prs, dp_rules dp !! k = Some prs ∧ namedBy prs u
}.

Definition op_key (op : RsOp) : RulesKey := match op with RsPolicy key _ => inl key | RsProfile name _ => inr name end.
Definition op_content (op : RsOp) : option (Policy + ProfileRules) :=
  match op with RsPolicy _ policy => inl <$> policy | RsProfile _ profile => inr <$> profile end.

Lemma active_step_lookup a op k : active_step a op !! k = if decide (k = op_key op) then op_content op else a !! k.
Proof using Type.
  destruct op; cbn; (destruct (decide (k = _)) as [->|Hne]; [by rewrite lookup_partial_alter_eq|by rewrite lookup_partial_alter_ne]).
Qed.

(** After [updateRules] the callback for the rules comes last. *)
Lemma finish_op rs dp a op rs1 dp1 prs (e : RSEvent) :
  tracks rs dp a → rs_inv rs1 dp1 → follows rs dp rs1 dp1 → same_rules dp dp1 →
  (∀ k u, md_in (rulesIDToUIDs rs1) k u ↔ if decide (k = op_key op) then namedBy prs u else md_in (rulesIDToUIDs rs) k u) →
  match op_content op with
  | Some c => e = OnRulesActive (op_key op) prs ∧ content_parsed c prs
  | None => e = OnRulesInactive (op_key op) ∧ ∀ u, ¬ namedBy prs u
  end →
  ∃ dp', follows rs dp (emitRS e rs1) dp' ∧ tracks (emitRS e rs1) dp' (active_step a op).
Proof using Type.
  intros [Hinv Ha Hn] [H1 H2 H3 H4 H5 H6] (es&Hes&Heok&Hl) Hr Hmd He.
  exists (MkDataplane (dp_sets dp1) (partial_alter (λ _, match op_content op with Some _ => Some prs | None => None end) (op_key op) (dp_rules dp1))).
  assert (Hlook : ∀ k, partial_alter (λ _, match op_content op with Some _ => Some prs | None => None end) (op_key op) (dp_rules dp1) !! k =
    if decide (k = op_key op) then match op_content op with Some _ => Some prs | None => None end else dp_rules dp !! k).
  { intros k. destruct (decide (k = op_key op)) as [->|Hne]; [by rewrite lookup_partial_alter_eq|by rewrite lookup_partial_alter_ne, Hr]. }
  split.
  - exists (es ++ [e]). cbn [rs_events emitRS]. rewrite Hes, app_assoc, hearAll_app, Hl. destruct (op_content op); destruct He as [-> _]; (split_and!; [done|apply Forall_app; split; [done|by constructor]|done]).
  - split; cbn [dp_rules emitRS rulesIDToUIDs].
    + by split.
    + intros k. rewrite active_step_lookup, Hlook. destruct (decide (k = op_key op)); [|apply Ha]. destruct (op_content op); [by destruct He|done].
    + intros k u. rewrite Hmd, Hlook. destruct (decide (k = op_key op)); [|apply Hn]. destruct (op_content op); [naive_solver|].
      destruct He as [_ He]. specialize (He u). naive_solver.
Qed.

Abbreviation silent := (MkDataplane ∅ ∅).

Lemma op_ok rs dp a op inbound outbound untracked preDNAT ns sel tier hints :
  tracks rs dp a → Forall (rule_ok MakeUniqueID) inbound → Forall (rule_ok MakeUniqueID) outbound →
  match op_content op with
  | Some c => ∀ p q, parses_as inbound p → parses_as outbound q → content_parsed c (MkParsedRules ns p q untracked preDNAT tier sel hints)
  | None => inbound = [] ∧ outbound = []
  end →
  ∃ rs' dp', (let! (rs', prs) := updateRules MakeUniqueID enumUIDs (op_key op) inbound outbound untracked preDNAT ns sel tier hints rs in
      Ret (emitRS (match op_content op with Some _ => OnRulesActive (op_key op) prs | None => OnRulesInactive (op_key op) end) rs')) = Ret rs' ∧
    follows rs dp rs' dp' ∧ tracks rs' dp' (active_step a op).
Proof using HenumUIDs.
  intros Ht Hin Hout Hc.
  destruct (updateRules_ok (op_key op) _ _ untracked preDNAT ns sel tier hints rs dp (tr_inv _ _ _ Ht) Hin Hout) as (rs1&dp1&prl1&prl2&->&Hp1&Hp2&Hinv1&Hf&Hs&Hmd).
  cbn [obind]. match goal with |- context [emitRS ?e rs1] => destruct (finish_op rs dp a op rs1 dp1 _ e Ht Hinv1 Hf Hs Hmd) as (dp'&Hd) end;
    [|by eexists _, dp'].
  destruct (op_content op) as [c|]; (split; [done|]); [by apply Hc|]. destruct Hc as [-> ->].
  apply Forall2_nil_inv_l in Hp1, Hp2. subst. intros u (pr&Hpr&_). by apply elem_of_nil in Hpr.
Qed.

Lemma rs_step_ok rs dp a op :
  tracks rs dp a → rs_op_ok op →
  ∃ rs' dp', rs_step op rs = Ret rs' ∧ follows rs dp rs' dp' ∧ tracks rs' dp' (active_step a op).
Proof using HenumUIDs.
  intros Ht Hop. destruct op as [key [p|]|name [p|]]; cbn [rs_step rs_op_ok] in *.
  - destruct Hop. by apply (op_ok rs dp a (RsPolicy key (Some p))).
  - by apply (op_ok rs dp a (RsPolicy key None)).
  - destruct Hop. by apply (op_ok rs dp a (RsProfile name (Some p))).
  - by apply (op_ok rs dp a (RsProfile name None)).
Qed.

Lemma rs_run_ok ops : ∀ rs dp a,
  tracks rs dp a → Forall rs_op_ok ops →
  ∃ rs' dp', rs_run ops rs = Ret rs' ∧ follows rs dp rs' dp' ∧ tracks rs' dp' (foldl active_step a ops).
Proof using HenumUIDs.
  induction ops as [|op ops IH]; intros rs dp a Ht Hops; cbn [rs_run foldl]; [exists rs, dp; split_and!; [done|apply follows_refl|done]|].
  apply list.Forall_cons in Hops as [Hop Hops]. destruct (rs_step_ok rs dp a op Ht Hop) as (rs1&dp1&->&Hl1&Ht1).
  destruct (IH rs1 dp1 _ Ht1 Hops) as (rs2&dp2&Hr2&Hl2&Ht2). exists rs2, dp2. split_and!; [done|by eapply follows_trans|done].
Qed.

Lemma tracks_init : tracks NewRuleScanner silent ∅.
Proof using Type.
  split; [|intros k; by rewrite !lookup_empty|].
  - split; cbn; try done. intros u. rewrite lookup_empty. unfold md_in, Multidict.Contains. split; [by intros [? ?]|]. intros [k Hk]. by rewrite lookup_empty in Hk.
  - intros k u. unfold md_in, Multidict.Contains. cbn. setoid_rewrite lookup_empty. naive_solver.
Qed.

(** What the client of a scanner knows after a history of inputs. *)
Definition scanned (a : Active) dp : Prop :=
  (∀ k, match a !! k, dp_rules dp !! k with Some c, Some prs => content_parsed c prs | None, None => True | _, _ => False end) ∧
  (∀ u, is_Some (dp_sets dp !! u) ↔ ∃ k prs, dp_rules dp !! k = Some prs ∧ namedBy prs u) ∧
  (∀ u d, dp_sets dp !! u = Some d → UID d = Ret u ∧ okay d).

Lemma tracks_scanned rs dp a : tracks rs dp a → scanned a dp.
Proof using Type.
  intros [[_ _ Hinv Hlive Hsets Hcl] Ha Hn]. split_and!; [done| |].
  - intros u. rewrite Hcl, Hlive. setoid_rewrite <- Hinv. setoid_rewrite Hn. done.
  - intros u d. rewrite Hcl. apply Hsets.
Qed.

(** C11: for any sequence of policies and profiles that become active, change and become inactive,
    with rules whose selectors are valid and not blank where a side of the rule has both a selector and a
    negated one (blank ones panic there), the rule scanner does not panic, and a strict client of
    its callbacks (one that never sees an IP set added twice, nor one removed that it does not
    have) ends up with the parsed rules of exactly the active policies and profiles, in order and
    with their metadata, and with exactly the IP sets that those parsed rules name, each under
    its identifier. *)
Theorem rule_scanner_tracks ops :
  Forall rs_op_ok ops →
  ∃ rs dp, rs_run ops NewRuleScanner = Ret rs ∧ hearAll (rs_events rs) silent = Some dp ∧ scanned (foldl active_step ∅ ops) dp.
Proof using HenumUIDs.
  intros Hops. destruct (rs_run_ok ops _ _ _ tracks_init Hops) as (rs&dp&Hr&(es&Hes&_&Hl)&Ht). cbn in Hes. exists rs, dp. split_and!; [done|by rewrite Hes|]. by eapply tracks_scanned.
Qed.
End track.

(** ** Example *)
Definition trackRule (selector : string) : Rule :=
  MkRule "allow" None None None None None None None "" None [] selector [MkPort 0 0 "http"; MkPort 80 80 ""] "" "" "" "" None [] [] "" ""
    "" None [] "" [] "" "" None [] [] "" "" "" "" "" "" [] "" [] "" None None.

Lemma trackRule_ok s : (∃ sel, Parse exampleHash s = Ret (Some sel)) → rule_ok exampleHash (trackRule s).
Proof.
  intros Hs. assert (He : ∃ sel, Parse exampleHash "" = Ret (Some sel)) by (eexists; vm_compute; reflexivity).
  split; (split_and!; [done|done|]); by intros ? Hne.
Qed.

(** A policy and a profile share a selector; then the policy becomes inactive and the profile
    changes. *)
Definition trackExample : list RsOp :=
  [RsPolicy (MkPolicyKey "p" "" "") (Some (MkPolicy "" "default" None false false false [] "all()" [] [trackRule "has(b)"] [trackRule "has(c)"]));
   RsProfile "prof" (Some (MkProfileRules [trackRule "has(b)"] []));
   RsPolicy (MkPolicyKey "p" "" "") None;
   RsProfile "prof" (Some (MkProfileRules [trackRule "has(b)"] [trackRule "has(d)"]))].

Lemma rule_scanner_tracks_witness :
  ∃ rs dp, rs_run exampleHash elements trackExample NewRuleScanner = Ret rs ∧ hearAll exampleHash (rs_events rs) (MkDataplane ∅ ∅) = Some dp ∧
    scanned exampleHash (foldl active_step ∅ trackExample) dp ∧
    dom (dp_sets dp) = {["s:has(b)"; "s:has(d)"; "n:s:has(b),any,http"; "n:s:has(d),any,http"]}.
Proof.
  destruct (rule_scanner_tracks exampleHash elements (λ _, reflexivity _) trackExample) as (rs&dp&Hrun&Hl&Hs).
  - repeat (apply List.Forall_cons || apply List.Forall_nil); cbn; try done; (split; repeat (apply List.Forall_cons || apply List.Forall_nil));
      apply trackRule_ok; eexists; vm_compute; reflexivity.
  - exists rs, dp. split; [exact Hrun|]. split; [exact Hl|]. split; [exact Hs|].
    assert (Hd : match rs_run exampleHash elements trackExample NewRuleScanner with
                 | Ret rs => match hearAll exampleHash (rs_events rs) (MkDataplane ∅ ∅) with
                   | Some dp => bool_decide (dom (dp_sets dp) = {["s:has(b)"; "s:has(d)"; "n:s:has(b),any,http"; "n:s:has(d),any,http"]}) | None => false end
                 | _ => false end = true) by (vm_compute; reflexivity).
    rewrite Hrun, Hl in Hd. by apply bool_decide_eq_true in Hd.
Defined.
