(* ===== verification/RuleMatch.v ===== *)
(** * Parsed rules match what rules match

    A rule speaks of endpoints: their labels, their named ports.  A parsed rule speaks of IP
    sets: addresses, and addresses with a port.  The rule scanner merges a negated selector into
    the positive one, filters named ports by the selector, and drops the set of the selector
    when named ports stand for it.  This file shows that the parsed rule, read with the contents
    that the IP sets should have, matches the packets that the rule matches, as long as no two
    endpoints share an address; and that it may not when they do. *)
From S2P Require Import Prelude ModelRule Tokenizer SelectorAST SelectorParser SelectorRoundTrip SelectorCompose UniqueLabels InheritIndexCorrect.
From S2P Require Import CIDR CIDRTrieSpec CIDRTrieCorrect MemberDedup MemberDedupSpec PolicySorter.
From stdpp Require Import base list gmap numbers strings.
From S2P Require Import NamedPortIndex NamedPortCandidates NamedPortInv NamedPortCorrect NetIP NamedPortUpdates RuleScanner RuleScannerSpec.
From stdpp Require Import options.

(** ** Packets *)
Record Packet := MkPacket { pk_protocol : Protocol; pk_src : Addr; pk_srcPort : Z; pk_dst : Addr; pk_dstPort : Z }.

(** An address, a protocol and a port: one end of a packet. *)
Record PacketEnd := MkEnd { end_addr : Addr; end_protocol : Protocol; end_port : Z }.
Definition srcEnd (pk : Packet) : PacketEnd := MkEnd (pk_src pk) (pk_protocol pk) (pk_srcPort pk).
Definition dstEnd (pk : Packet) : PacketEnd := MkEnd (pk_dst pk) (pk_protocol pk) (pk_dstPort pk).

Definition inRange (p : Port) (port : Z) : Prop := (MinPort p <= port <= MaxPort p)%Z.

(** ** Ports *)
Lemma elem_of_numeric p ports : p ∈ (splitNamedAndNumericPorts ports).1 ↔ p ∈ ports ∧ PortName p = "".
Proof.
  induction ports as [|q ports IH]; cbn [splitNamedAndNumericPorts]; [cbn; rewrite elem_of_nil; tauto|]. rewrite elem_of_cons.
  destruct (splitNamedAndNumericPorts ports) as [ns ps]. cbn [fst snd] in IH. destruct (decide (PortName q ≠ "")) as [Hq|Hq]; cbn [fst].
  - rewrite IH. naive_solver.
  - rewrite elem_of_cons, IH. destruct (decide (PortName q = "")); naive_solver.
Qed.

Lemma elem_of_named n ports : n ∈ (splitNamedAndNumericPorts ports).2 ↔ n ≠ "" ∧ ∃ p, p ∈ ports ∧ PortName p = n.
Proof.
  induction ports as [|q ports IH]; cbn [splitNamedAndNumericPorts]; [cbn; setoid_rewrite elem_of_nil; naive_solver|]. setoid_rewrite elem_of_cons.
  destruct (splitNamedAndNumericPorts ports) as [ns ps]. cbn [fst snd] in IH. destruct (decide (PortName q ≠ "")) as [Hq|Hq]; cbn [snd].
  - rewrite elem_of_cons, IH. naive_solver.
  - rewrite IH. destruct (decide (PortName q = "")); naive_solver.
Qed.

Lemma split_nonempty ports : ports ≠ [] ↔ (splitNamedAndNumericPorts ports).1 ≠ [] ∨ (splitNamedAndNumericPorts ports).2 ≠ [].
Proof.
  destruct ports as [|q ports]; [naive_solver|]. split; [intros _|done]. cbn [splitNamedAndNumericPorts].
  destruct (splitNamedAndNumericPorts ports). destruct (decide _); [by right|by left].
Qed.

Lemma serviceIPSets_elem ns svc b d : d ∈ serviceIPSets ns svc b ↔ svc ≠ "" ∧ d = MkIPSetData_ None ProtocolNone "" (ns +:+ "/" +:+ svc) b.
Proof.
  unfold serviceIPSets. destruct (decide (svc ≠ "")) as [Hs|Hs]; [rewrite list_elem_of_singleton; tauto|]. split; [by intros ?%elem_of_nil|tauto].
Qed.

Section match_.
Context (MakeUniqueID : string → string → string).
Context `{Countable EpID}.
Implicit Types (w : World (EpID := EpID)) (x : PacketEnd) (r : Rule) (pr : ParsedRule) (d : IPSetData) (sel : Selector).

(** What a service offers, without and with ports; computed by the service index. *)
Context (services : string → bool → IPSetMember → Prop).

(** ** Rules *)
(** An endpoint or network set that has the address, with its labels and ports. *)
Definition hasAddr w (a : Addr) (labels : gmap string string) (ports : list EndpointPort) : Prop :=
  ∃ e own nets pids, w_endpoints w !! e = Some (own, nets, ports, pids) ∧ labels = worldLabels w own pids ∧ ∃ c, c ∈ nets ∧ CIDR_Contains c a = true.

Definition selects w sel (a : Addr) : Prop := ∃ labels ports, hasAddr w a labels ports ∧ Evaluate (root sel) labels = true.

(** An endpoint port that a named port of a rule with the protocol [proto] stands for. *)
Definition isNamedPort (proto : Protocol) (name : string) (p : EndpointPort) x : Prop :=
  ep_Name p = name ∧ MatchesModelProtocol proto (ep_Protocol p) = Ret true ∧ ProtocolFrom (ep_Protocol p) = Ret (end_protocol x) ∧ ep_Port p = end_port x.

Definition namedPortMatches w proto (name : string) x : Prop :=
  ∃ labels ports p, hasAddr w (end_addr x) labels ports ∧ p ∈ ports ∧ isNamedPort proto name p x.

Definition portMatches w r (p : Port) x : Prop :=
  if decide (PortName p = "") then inRange p (end_port x) else ∃ proto, ruleProto r = Ret proto ∧ namedPortMatches w proto (PortName p) x.

(** One side of a rule: selector, negated selector, ports, negated ports. *)
Definition sideMatches w r (positive negated : string) (ports notPorts : list Port) x : Prop :=
  (positive ≠ "" → ∃ sel, Parse MakeUniqueID positive = Ret (Some sel) ∧ selects w sel (end_addr x)) ∧
  (negated ≠ "" → ∃ sel, Parse MakeUniqueID negated = Ret (Some sel) ∧ ¬ selects w sel (end_addr x)) ∧
  (ports ≠ [] → ∃ p, p ∈ ports ∧ portMatches w r p x) ∧
  (∀ p, p ∈ notPorts → ¬ portMatches w r p x).

Definition inService (svc : string) (a : Addr) : Prop := ∃ m c, services svc false m ∧ memberCIDR m = Some c ∧ CIDR_Contains c a = true.

Definition ruleMatches w r (pk : Packet) : Prop :=
  sideMatches w r (rule_SrcSelector r) (rule_NotSrcSelector r) (rule_SrcPorts r) (rule_NotSrcPorts r) (srcEnd pk) ∧
  sideMatches w r (rule_DstSelector r) (rule_NotDstSelector r) (rule_DstPorts r) (rule_NotDstPorts r) (dstEnd pk) ∧
  (rule_SrcService r ≠ "" → inService (rule_SrcServiceNamespace r +:+ "/" +:+ rule_SrcService r) (pk_src pk)) ∧
  (rule_DstService r ≠ "" → services (rule_DstServiceNamespace r +:+ "/" +:+ rule_DstService r) true (MakeIPPortProto (pk_dst pk) (pk_dstPort pk) (pk_protocol pk))).

(** ** Parsed rules, over the contents of IP sets *)
Abbreviation Contents := (string → IPSetMember → Prop).
Implicit Types (C : Contents).

Definition inSet C uid (a : Addr) : Prop := ∃ m c, C uid m ∧ memberCIDR m = Some c ∧ CIDR_Contains c a = true.
Definition inPortSet C uid x : Prop := C uid (MakeIPPortProto (end_addr x) (end_port x) (end_protocol x)).

Definition parsedSideMatches C (sets : list string) (ports : list Port) (namedPorts notSets : list string) (notPorts : list Port) (notNamedPorts : list string) x : Prop :=
  (∀ uid, uid ∈ sets → inSet C uid (end_addr x)) ∧
  (ports ≠ [] ∨ namedPorts ≠ [] → (∃ p, p ∈ ports ∧ inRange p (end_port x)) ∨ ∃ uid, uid ∈ namedPorts ∧ inPortSet C uid x) ∧
  (∀ uid, uid ∈ notSets → ¬ inSet C uid (end_addr x)) ∧
  (∀ p, p ∈ notPorts → ¬ inRange p (end_port x)) ∧
  (∀ uid, uid ∈ notNamedPorts → ¬ inPortSet C uid x).

Definition parsedRuleMatches C pr (pk : Packet) : Prop :=
  parsedSideMatches C (parsed_SrcIPSetIDs pr) (parsed_SrcPorts pr) (parsed_SrcNamedPortIPSetIDs pr)
    (parsed_NotSrcIPSetIDs pr) (parsed_NotSrcPorts pr) (parsed_NotSrcNamedPortIPSetIDs pr) (srcEnd pk) ∧
  parsedSideMatches C (parsed_DstIPSetIDs pr) (parsed_DstPorts pr) (parsed_DstNamedPortIPSetIDs pr)
    (parsed_NotDstIPSetIDs pr) (parsed_NotDstPorts pr) (parsed_NotDstNamedPortIPSetIDs pr) (dstEnd pk) ∧
  ∀ uid, uid ∈ parsed_DstIPPortSetIDs pr → inPortSet C uid (dstEnd pk).

(** ** What an IP set should contain *)
Definition setMember w d (m : IPSetMember) : Prop :=
  match ips_Selector d with
  | Some sel => ∃ e own nets ports pids, w_endpoints w !! e = Some (own, nets, ports, pids) ∧ Evaluate (root sel) (worldLabels w own pids) = true ∧
      offers (ips_NamedPortProtocol d) (ips_NamedPort d) nets ports m
  | None => services (ips_Service d) (ips_ServiceIncludePorts d) m
  end.

(** Endpoints with ports have single addresses (network sets have no ports). *)
Definition single_addresses w : Prop :=
  ∀ e own nets ports pids, w_endpoints w !! e = Some (own, nets, ports, pids) → Forall cidr_ok nets ∧ (ports ≠ [] → Forall (λ c, c = AsCIDR (AddrOf c)) nets).

(** No address has two endpoints that differ. *)
Definition unshared w : Prop := ∀ a l1 p1 l2 p2, addr_ok a → hasAddr w a l1 p1 → hasAddr w a l2 p2 → l1 = l2 ∧ p1 = p2.

Lemma inSet_selector w C sel a :
  (∀ m, C (uid_of MakeUniqueID (MkIPSetData_ (Some sel) ProtocolNone "" "" false)) m ↔ setMember w (MkIPSetData_ (Some sel) ProtocolNone "" "" false) m) →
  inSet C (uid_of MakeUniqueID (MkIPSetData_ (Some sel) ProtocolNone "" "" false)) a ↔ selects w sel a.
Proof using Type.
  intros HC. unfold inSet. setoid_rewrite HC. unfold setMember, selects, hasAddr. cbn [ips_Selector ips_NamedPortProtocol ips_NamedPort]. split.
  - intros (m&c&(e&own&nets&ports&pids&He&Hev&(c'&Hc'&->))&Hmc&Hin). rewrite memberCIDR_Make in Hmc. injection Hmc as ->.
    exists (worldLabels w own pids), ports. split; [|done]. exists e, own, nets, pids. split_and!; [done|done|by exists c].
  - intros (labels&ports&(e&own&nets&pids&He&->&c&Hc&Hin)&Hev). exists (MakeCIDROrIPOnly c), c. split_and!; [|apply memberCIDR_Make|done].
    exists e, own, nets, ports, pids. split_and!; [done|done|]. by exists c.
Qed.

Lemma MakeIPPortProto_ports a port proto : proto ≠ ProtocolNone → MakeIPPortProto a port proto = ipPortProtoIPSetMember a port proto.
Proof using Type. intros Hp. unfold MakeIPPortProto. by rewrite decide_False by tauto. Qed.

Lemma inPortSet_named w C sel proto name x :
  single_addresses w → port_protocol proto → addr_ok (end_addr x) →
  (∀ m, C (uid_of MakeUniqueID (portSet sel proto name)) m ↔ setMember w (portSet sel proto name) m) →
  inPortSet C (uid_of MakeUniqueID (portSet sel proto name)) x ↔
    ∃ labels ports p, hasAddr w (end_addr x) labels ports ∧ Evaluate (root sel) labels = true ∧ p ∈ ports ∧ isNamedPort proto name p x.
Proof using Type.
  intros Hsingle Hproto Haddr HC. unfold inPortSet. rewrite HC. unfold setMember, offers, isNamedPort. cbn [ips_Selector ips_NamedPortProtocol ips_NamedPort portSet].
  assert (Hnone : proto ≠ ProtocolNone) by (by destruct Hproto as [->|[->|[->| ->]]]). destruct (decide (proto = ProtocolNone)) as [|_]; [done|]. split.
  - intros (e&own&nets&ports&pids&He&Hev&c&p&pr&Hc&Hp&Hn&Hm&Hpr&Heq). destruct (ProtocolFrom_ok (ep_Protocol p)) as (pr'&Hpr'&Hpn). assert (pr' = pr) as -> by congruence.
    rewrite (MakeIPPortProto_ports _ _ pr) in Heq by done.
    assert (Hx : end_protocol x ≠ ProtocolNone).
    { intros Hx. unfold MakeIPPortProto in Heq. rewrite Hx in Heq. destruct (decide _) as [[H0 _]|]; [|congruence]. unfold MakeCIDROrIPOnly in Heq. by destruct (IsSingleAddress _). }
    rewrite MakeIPPortProto_ports in Heq by done. injection Heq as Ha Hpo Hpro.
    exists (worldLabels w own pids), ports, p. split_and!; [|done|done|done|done|by rewrite Hpro|done].
    exists e, own, nets, pids. split_and!; [done|done|]. exists c. split; [done|]. destruct (Hsingle e own nets ports pids He) as [Hok Hs].
    rewrite list.Forall_forall in Hs, Hok. assert (Hcs : c = AsCIDR (AddrOf c)) by (apply Hs; [intros ->; by apply elem_of_nil in Hp|done]).
    rewrite Hcs, <- Ha. by apply Contains_AsCIDR.
  - intros (labels&ports&p&(e&own&nets&pids&He&->&c&Hc&Hin)&Hev&Hp&Hn&Hm&Hpr&Hpo). destruct (Hsingle e own nets ports pids He) as [Hok Hs].
    rewrite list.Forall_forall in Hs, Hok. assert (Hcs : c = AsCIDR (AddrOf c)) by (apply Hs; [intros ->; by apply elem_of_nil in Hp|done]).
    exists e, own, nets, ports, pids. split_and!; [done|done|]. exists c, p, (end_protocol x). split_and!; [done..|].
    rewrite Hcs in Hin. apply Contains_AsCIDR in Hin; [|apply (Hok c Hc)|done]. by rewrite Hin, Hpo.
Qed.

(** ** Selectors of a side *)
Section side.
Context (w : World (EpID := EpID)) (Hsingle : single_addresses w) (Hun : unshared w).
Context (x : PacketEnd) (Haddr : addr_ok (end_addr x)).
Context (positive negated : string) (pos neg : list Selector) (Hside : side_selectors MakeUniqueID positive negated pos neg).
Abbreviation a := (end_addr x).
Abbreviation F := (filterSel MakeUniqueID pos).

Lemma selects_combined P N Q : root Q = AndNode [root P; NotNode (root N)] → selects w Q a ↔ selects w P a ∧ ¬ selects w N a.
Proof using Hun Haddr.
  intros HQ. unfold selects. rewrite HQ. setoid_rewrite Evaluate_combined. split.
  - intros (labels&ports&Ha&[HP HN%negb_true_iff]%andb_true_iff). split; [by exists labels, ports|].
    intros (labels'&ports'&Ha'&HN'). destruct (Hun a _ _ _ _ Haddr Ha Ha') as [-> _]. congruence.
  - intros [(labels&ports&Ha&HP) HN]. exists labels, ports. split; [done|]. rewrite HP. cbn. destruct (Evaluate (root N) labels) eqn:E; [|done]. destruct HN. by exists labels, ports.
Qed.

Lemma side_selects :
  ((positive ≠ "" → ∃ sel, Parse MakeUniqueID positive = Ret (Some sel) ∧ selects w sel a) ∧
   (negated ≠ "" → ∃ sel, Parse MakeUniqueID negated = Ret (Some sel) ∧ ¬ selects w sel a)) ↔
  (∀ sel, sel ∈ pos → selects w sel a) ∧ (∀ sel, sel ∈ neg → ¬ selects w sel a).
Proof using Hside Hun Haddr.
  destruct Hside as [Hp Hn|N Hp Hn HN|P Hp Hn HP|P N Q Hp Hn HP HN HQ Hroot].
  - split; intros _; split; try done; by intros sel ?%elem_of_nil.
  - split.
    + intros [_ Hno]. destruct (Hno Hn) as (sel&Hs&Hns). split; [by intros sel' ?%elem_of_nil|]. intros sel' ->%list_elem_of_singleton. congruence.
    + intros [_ Hno]. split; [done|]. intros _. exists N. split; [done|]. apply Hno, list_elem_of_here.
  - split.
    + intros [Hyes _]. destruct (Hyes Hp) as (sel&Hs&Hns). split; [|by intros sel' ?%elem_of_nil]. intros sel' ->%list_elem_of_singleton. congruence.
    + intros [Hyes _]. split; [|done]. intros _. exists P. split; [done|]. apply Hyes, list_elem_of_here.
  - pose proof (selects_combined P N Q Hroot) as Hsel. split.
    + intros [(sel&Hs&Hyes) (sel'&Hs'&Hno)]; [done|done|]. rewrite HP in Hs. rewrite HN in Hs'. injection Hs as <-. injection Hs' as <-.
      split; [|by intros sel ?%elem_of_nil]. intros sel ->%list_elem_of_singleton. by apply Hsel.
    + intros [Hyes _]. destruct (proj1 Hsel (Hyes Q (list_elem_of_here _ _))). split; intros _; [by exists P|by exists N].
Qed.

(** Named ports are filtered by [F]: nothing is lost when the positive selector holds, and it
    holds when something is found. *)
Lemma filter_holds labels ports : (∀ sel, sel ∈ pos → selects w sel a) → hasAddr w a labels ports → Evaluate (root F) labels = true.
Proof using Hside Hun Haddr.
  intros Hpos Ha. pose proof (side_selectors_valid _ _ _ _ _ Hside) as (Hlen&_). destruct pos as [|sel [|]]; cbn in Hlen; [|clear Hlen|lia].
  - cbn [filterSel]. destruct (selectorAll_ok MakeUniqueID) as (all&->&_&->). done.
  - destruct (Hpos sel) as (labels'&ports'&Ha'&Hev); [apply list_elem_of_here|]. cbn [filterSel]. by destruct (Hun a _ _ _ _ Haddr Ha Ha') as [-> _].
Qed.

Lemma filter_selects labels ports : hasAddr w a labels ports → Evaluate (root F) labels = true → ∀ sel, sel ∈ pos → selects w sel a.
Proof using Hside.
  intros Ha Hev sel Hsel. pose proof (side_selectors_valid _ _ _ _ _ Hside) as (Hlen&_). destruct pos as [|sel' [|]]; cbn in Hlen; [|clear Hlen|lia].
  - by apply elem_of_nil in Hsel.
  - apply list_elem_of_singleton in Hsel as ->. by exists labels, ports.
Qed.

(** ** One side *)
Context (C : Contents) (r : Rule) (proto : Protocol) (Hproto : ruleProto r = Ret proto) (Hpp : port_protocol proto) (ports notPorts : list Port).
Abbreviation uid := (uid_of MakeUniqueID).
Context (HC : ∀ d m, d ∈ positiveSets ports pos ++ (portSet F proto <$> (splitNamedAndNumericPorts ports).2) ++ selectorsToIPSets neg ++
  (portSet F proto <$> (splitNamedAndNumericPorts notPorts).2) → C (uid d) m ↔ setMember w d m).

Lemma named_sets (ps : list Port) :
  (∀ d m, d ∈ portSet F proto <$> (splitNamedAndNumericPorts ps).2 → C (uid d) m ↔ setMember w d m) →
  (∃ id, id ∈ uid <$> (portSet F proto <$> (splitNamedAndNumericPorts ps).2) ∧ inPortSet C id x) ↔
  ∃ p labels eps q, p ∈ ps ∧ PortName p ≠ "" ∧ hasAddr w a labels eps ∧ Evaluate (root F) labels = true ∧ q ∈ eps ∧ isNamedPort proto (PortName p) q x.
Proof using Hsingle Haddr Hpp.
  clear HC. intros HC. split.
  - intros (id&(d&->&Hd)%list_elem_of_fmap&Hin). pose proof (HC d) as HCd. apply list_elem_of_fmap in Hd as Hd'. destruct Hd' as (n&->&Hn).
    apply elem_of_named in Hn as (Hne&p&Hp&<-). apply (inPortSet_named w C F proto (PortName p) x Hsingle Hpp Haddr) in Hin; [|intros m; by apply HCd].
    destruct Hin as (labels&eps&q&?&?&?&?). by exists p, labels, eps, q.
  - intros (p&labels&eps&q&Hp&Hne&Ha&Hev&Hq&Hnp). assert (Hd : portSet F proto (PortName p) ∈ portSet F proto <$> (splitNamedAndNumericPorts ps).2).
    { apply list_elem_of_fmap_2, elem_of_named. eauto. }
    exists (uid (portSet F proto (PortName p))). split; [by apply list_elem_of_fmap_2|].
    apply (inPortSet_named w C F proto (PortName p) x Hsingle Hpp Haddr); [intros m; by apply HC|]. by exists labels, eps, q.
Qed.

Lemma all_selector_sets (Q : Prop → Prop) sels :
  (∀ A B : Prop, (A ↔ B) → Q A ↔ Q B) → (∀ d m, d ∈ selectorsToIPSets sels → C (uid d) m ↔ setMember w d m) →
  (∀ id, id ∈ uid <$> selectorsToIPSets sels → Q (inSet C id a)) ↔ ∀ sel, sel ∈ sels → Q (selects w sel a).
Proof using Type.
  clear HC. intros HQ HC. unfold selectorsToIPSets in *. set (f := λ s, MkIPSetData_ (Some s) ProtocolNone "" "" false) in *.
  assert (Hsel : ∀ sel, sel ∈ sels → inSet C (uid (f sel)) a ↔ selects w sel a).
  { intros sel Hs. apply inSet_selector. intros m. by apply HC, (list_elem_of_fmap_2 f). }
  split.
  - intros Hall sel Hs. apply (HQ _ _ (Hsel sel Hs)), Hall, list_elem_of_fmap_2. by apply list_elem_of_fmap_2.
  - intros Hall id (d&->&(sel&->&Hs)%list_elem_of_fmap)%list_elem_of_fmap. by apply (HQ _ _ (Hsel sel Hs)), Hall.
Qed.

Lemma fmap_nonempty {A B} (f : A → B) l : f <$> l ≠ [] ↔ l ≠ [].
Proof using Type. by destruct l. Qed.

(** Numeric and named ports together, when the positive selector holds. *)
Lemma ports_equiv (ps : list Port) :
  (∀ d m, d ∈ portSet F proto <$> (splitNamedAndNumericPorts ps).2 → C (uid d) m ↔ setMember w d m) →
  (∀ sel, sel ∈ pos → selects w sel a) →
  ((∃ p, p ∈ (splitNamedAndNumericPorts ps).1 ∧ inRange p (end_port x)) ∨
    ∃ id, id ∈ uid <$> (portSet F proto <$> (splitNamedAndNumericPorts ps).2) ∧ inPortSet C id x) ↔ ∃ p, p ∈ ps ∧ portMatches w r p x.
Proof using Hsingle Hun Haddr Hside Hproto Hpp.
  clear HC. intros HC Hpos. rewrite named_sets by done. unfold portMatches, namedPortMatches. split.
  - intros [(p&[Hp Hn]%elem_of_numeric&Hr)|(p&labels&eps&q&Hp&Hne&Ha&Hev&Hq&Hnp)]; exists p; (split; [done|]).
    + by rewrite decide_True.
    + rewrite decide_False by done. exists proto. split; [done|]. by exists labels, eps, q.
  - intros (p&Hp&Hm). destruct (decide (PortName p = "")) as [Hn|Hn].
    + left. exists p. by rewrite elem_of_numeric.
    + right. destruct Hm as (proto'&Heq&labels&eps&q&Ha&Hq&Hnp). assert (proto' = proto) as -> by congruence.
      exists p, labels, eps, q. split_and!; try done. by eapply filter_holds.
Qed.

(** The positive selector holds: its set says so, or the named ports that stand for it do. *)
Lemma positive_holds :
  (∀ id, id ∈ uid <$> positiveSets ports pos → inSet C id a) →
  ((splitNamedAndNumericPorts ports).1 ≠ [] ∨ (splitNamedAndNumericPorts ports).2 ≠ [] →
    (∃ p, p ∈ (splitNamedAndNumericPorts ports).1 ∧ inRange p (end_port x)) ∨
    ∃ id, id ∈ uid <$> (portSet F proto <$> (splitNamedAndNumericPorts ports).2) ∧ inPortSet C id x) →
  ∀ sel, sel ∈ pos → selects w sel a.
Proof using Hsingle Haddr Hside Hpp HC.
  intros Hsets Hports. unfold positiveSets in *. destruct (decide _) as [Hd|Hd].
  - apply (all_selector_sets (λ P, P) pos); [done| |done]. intros d m Hdin. apply HC. rewrite !elem_of_app. tauto.
  - destruct (splitNamedAndNumericPorts ports).1 as [|p l] eqn:Hnum; [|destruct Hd; left; cbn; lia].
    destruct Hports as [(p&Hp%elem_of_nil&_)|Hid]; [right; intros Hn; apply Hd; right; by rewrite Hn|done|].
    apply named_sets in Hid as (p&labels&eps&q&_&_&Ha&Hev&_); [by eapply filter_selects|]. intros d m Hdin. apply HC. rewrite !elem_of_app. tauto.
Qed.

Lemma side_equiv :
  parsedSideMatches C (uid <$> positiveSets ports pos) (splitNamedAndNumericPorts ports).1 (uid <$> (portSet F proto <$> (splitNamedAndNumericPorts ports).2))
    (uid <$> selectorsToIPSets neg) (splitNamedAndNumericPorts notPorts).1 (uid <$> (portSet F proto <$> (splitNamedAndNumericPorts notPorts).2)) x ↔
  sideMatches w r positive negated ports notPorts x.
Proof using All.
  unfold parsedSideMatches, sideMatches. rewrite !fmap_nonempty.
  rewrite (assoc _ (_ → ∃ sel, _ ∧ selects w sel a)), side_selects.
  assert (HCp : ∀ d m, d ∈ portSet F proto <$> (splitNamedAndNumericPorts ports).2 → C (uid d) m ↔ setMember w d m) by (intros; apply HC; rewrite !elem_of_app; tauto).
  assert (HCn : ∀ d m, d ∈ portSet F proto <$> (splitNamedAndNumericPorts notPorts).2 → C (uid d) m ↔ setMember w d m) by (intros; apply HC; rewrite !elem_of_app; tauto).
  rewrite (all_selector_sets not neg) by first [tauto|intros; apply HC; rewrite !elem_of_app; tauto].
  split.
  - intros (Hsets&Hports&Hneg&Hnp&Hnn). pose proof (positive_holds Hsets Hports) as Hpos.
    split_and!; [done|done|rewrite split_nonempty; by rewrite <- ports_equiv|]. intros p Hp Hm.
    destruct (proj2 (ports_equiv notPorts HCn Hpos)) as [(q&Hq&Hr)|(id&Hid&Hin)]; [by exists p|by apply (Hnp q)|by apply (Hnn id)].
  - intros ([Hpos Hneg]&Hports&Hnot). rewrite split_nonempty, <- ports_equiv in Hports by done.
    assert (Hno : ¬ ∃ p, p ∈ notPorts ∧ portMatches w r p x) by naive_solver. rewrite <- ports_equiv in Hno by done.
    split_and!; [|done|done|naive_solver|naive_solver]. unfold positiveSets. destruct (decide _) as [Hd|]; [|by intros id ?%elem_of_nil].
    apply (all_selector_sets (λ P, P) pos); [done| |done]. intros d m Hdin. apply HC. unfold positiveSets. rewrite decide_True by done. rewrite !elem_of_app. tauto.
Qed.
End side.

(** ** Services *)
Lemma service_sets (Q : string → Prop) ns svc b :
  (∀ id, id ∈ uid_of MakeUniqueID <$> serviceIPSets ns svc b → Q id) ↔ (svc ≠ "" → Q (uid_of MakeUniqueID (MkIPSetData_ None ProtocolNone "" (ns +:+ "/" +:+ svc) b))).
Proof using Type.
  split.
  - intros Hall Hs. apply Hall, list_elem_of_fmap_2. by apply serviceIPSets_elem.
  - intros Hs id (d&->&[Hne ->]%serviceIPSets_elem)%list_elem_of_fmap. by apply Hs.
Qed.

(** ** The whole rule *)
Lemma parsedSideMatches_sets C sets more ports named notSets notPorts notNamed x :
  parsedSideMatches C (sets ++ more) ports named notSets notPorts notNamed x ↔
  parsedSideMatches C sets ports named notSets notPorts notNamed x ∧ ∀ id, id ∈ more → inSet C id (end_addr x).
Proof using Type.
  unfold parsedSideMatches. assert (Happ : (∀ id, id ∈ sets ++ more → inSet C id (end_addr x)) ↔ (∀ id, id ∈ sets → inSet C id (end_addr x)) ∧ (∀ id, id ∈ more → inSet C id (end_addr x))).
  { setoid_rewrite elem_of_app. clear. firstorder. }
  rewrite Happ. tauto.
Qed.

Lemma parsed_rule_semantics w r pr sets (C : Contents) (pk : Packet) :
  rule_ok MakeUniqueID r → single_addresses w → unshared w → addr_ok (pk_src pk) → addr_ok (pk_dst pk) →
  ruleToParsedRule MakeUniqueID r = Ret (pr, sets) →
  (∀ d m, d ∈ sets → C (uid_of MakeUniqueID d) m ↔ setMember w d m) →
  passed_on r pr ∧ (parsedRuleMatches C pr pk ↔ ruleMatches w r pk).
Proof using Type.
  intros Hr Hsingle Hun Hsrc Hdst Hrun HC. destruct (ruleToParsedRule_ok _ r Hr) as (rs&pr'&(HS&HD&Hproto&Hpp)&Hrun'&Hpass&Hnames).
  rewrite Hrun in Hrun'. injection Hrun' as <- ->. split; [done|]. destruct Hnames. unfold parsedRuleMatches, ruleMatches, inService.
  rewrite ns_srcPorts, ns_dstPorts, ns_notSrcPorts, ns_notDstPorts, ns_srcNamed, ns_dstNamed, ns_notSrcNamed, ns_notDstNamed, ns_src, ns_dst, ns_dstService, ns_notSrc, ns_notDst.
  unfold allSets, srcSets, dstSets, dstServiceSets, srcPortSets, dstPortSets, notSrcPortSets, notDstPortSets in *.
  rewrite fmap_app, parsedSideMatches_sets, !service_sets.
  rewrite (side_equiv w Hsingle Hun (srcEnd pk) Hsrc _ _ _ _ HS C r _ Hproto Hpp) by (intros d m Hd; apply HC; rewrite !elem_of_app in *; tauto).
  rewrite (side_equiv w Hsingle Hun (dstEnd pk) Hdst _ _ _ _ HD C r _ Hproto Hpp) by (intros d m Hd; apply HC; rewrite !elem_of_app in *; tauto).
  assert (Hsvc : ∀ d, d ∈ serviceIPSets (rule_SrcServiceNamespace r) (rule_SrcService r) false ++ serviceIPSets (rule_DstServiceNamespace r) (rule_DstService r) true →
    ∀ m, C (uid_of MakeUniqueID d) m ↔ setMember w d m) by (intros d Hd m; apply HC; rewrite !elem_of_app in *; tauto).
  assert (H1 : rule_SrcService r ≠ "" → inSet C (uid_of MakeUniqueID (MkIPSetData_ None ProtocolNone "" (rule_SrcServiceNamespace r +:+ "/" +:+ rule_SrcService r) false)) (end_addr (srcEnd pk)) ↔
    ∃ m c, services (rule_SrcServiceNamespace r +:+ "/" +:+ rule_SrcService r) false m ∧ memberCIDR m = Some c ∧ CIDR_Contains c (pk_src pk) = true).
  { intros Hs. unfold inSet. setoid_rewrite Hsvc; [done|]. apply elem_of_app. left. by apply serviceIPSets_elem. }
  assert (H2 : rule_DstService r ≠ "" → inPortSet C (uid_of MakeUniqueID (MkIPSetData_ None ProtocolNone "" (rule_DstServiceNamespace r +:+ "/" +:+ rule_DstService r) true)) (dstEnd pk) ↔
    services (rule_DstServiceNamespace r +:+ "/" +:+ rule_DstService r) true (MakeIPPortProto (pk_dst pk) (pk_dstPort pk) (pk_protocol pk))).
  { intros Hs. unfold inPortSet. rewrite Hsvc; [done|]. apply elem_of_app. right. by apply serviceIPSets_elem. }
  tauto.
Qed.

(** C10: take a rule with valid selectors (neither of them blank on a side that has both), endpoints and network sets that do not share addresses
    (where those that do have the same labels and ports), and IP sets with the contents that
    they stand for.  The parsed rule matches a packet exactly when the rule does: the source and
    destination match the selectors and not the negated ones, the port is one of the numeric or
    named ports and none of the negated ones, and the services match.  All other fields (action, protocols, networks, ICMP, HTTP, metadata, and the
    original selectors, service accounts and services) are passed on.  So merging a negated selector into the positive one, filtering even the negated
    named ports by the positive selector, and leaving out the set of a selector that named ports
    stand for, do not change what a rule matches. *)
Theorem parsed_rule_matches w r pr sets (C : Contents) (pk : Packet) :
  rule_ok MakeUniqueID r → single_addresses w → unshared w → addr_ok (pk_src pk) → addr_ok (pk_dst pk) →
  ruleToParsedRule MakeUniqueID r = Ret (pr, sets) →
  (∀ d m, d ∈ sets → C (uid_of MakeUniqueID d) m ↔ setMember w d m) →
  passed_on r pr ∧ (parsedRuleMatches C pr pk ↔ ruleMatches w r pk).
Proof using Type. apply parsed_rule_semantics. Qed.
End match_.

(** ** Examples *)
(** A rule whose source has the label [a], not the label [b], and (when [named]) the port http. *)
Definition matchRule (named : bool) : Rule :=
  MkRule "allow" None None None None None None None "" None [] "has(a)" (if named then [MkPort 0 0 "http"] else []) "" "" "" "" None [] [] "" ""
    "" None [] "has(b)" [] "" "" None [] [] "" "" "" "" "" "" [] "" [] "" None None.

Definition host11 : CIDR := V4CIDR 167838212 32.

Definition matchWorld (nets2 : list CIDR) (labels2 : gmap string string) : World (EpID := nat) :=
  MkWorld (<[1 := ({["a" := "1"]}, [host10], [tcpPort], [])]> {[2 := (labels2, nets2, [], [])]}) ∅ ∅.

Definition matchPacket : Packet := MkPacket ProtocolTCP (AddrOf host10) 80 (AddrOf host11) 1000.

Lemma matchWorld_lookup nets2 labels2 e own nets ports pids :
  w_endpoints (matchWorld nets2 labels2) !! e = Some (own, nets, ports, pids) →
  (own = {["a" := "1"]} ∧ nets = [host10] ∧ ports = [tcpPort] ∧ pids = []) ∨ (own = labels2 ∧ nets = nets2 ∧ ports = [] ∧ pids = []).
Proof. cbn. intros [[_ [= <- <- <- <-]]|[_ [_ [= <- <- <- <-]]%lookup_singleton_Some]]%lookup_insert_Some; auto. Qed.

Lemma match_addrs : addr_ok (AddrOf host10) ∧ addr_ok (AddrOf host11).
Proof. split; cbn; unfold word_ok; lia. Qed.

Lemma matchRule_ok M b : rule_ok M (matchRule b).
Proof.
  assert (Hp : ∀ s, (∃ sel, Parse M s = Ret (Some sel)) ↔ match Parse M s with Ret (Some _) => true | _ => false end = true).
  { intros s. destruct (Parse M s) as [[sel|]| | |]; naive_solver. }
  split; (split_and!; [apply Hp; by destruct b|apply Hp; by destruct b|]); intros Hpos; [intros _|by destruct Hpos].
  split; by vm_compute.
Qed.

(** A world without shared addresses. *)
Definition apartWorld : World (EpID := nat) := matchWorld [host11] {["a" := "1"; "b" := "1"]}.

Lemma apart_owner a l p : addr_ok a → hasAddr apartWorld a l p →
  (a = AddrOf host10 ∧ l = {["a" := "1"]} ∧ p = [tcpPort]) ∨ (a = AddrOf host11 ∧ l = {["a" := "1"; "b" := "1"]} ∧ p = []).
Proof.
  intros Ha (e&own&nets&pids&He&->&c&Hc&Hin). destruct match_addrs as [H10 H11].
  apply matchWorld_lookup in He as [(->&->&->&->)|(->&->&->&->)]; apply list_elem_of_singleton in Hc as ->.
  - left. split; [|done]. symmetry. by apply (Contains_AsCIDR (AddrOf host10)).
  - right. split; [|done]. symmetry. by apply (Contains_AsCIDR (AddrOf host11)).
Qed.

Lemma apart_ok : single_addresses apartWorld ∧ unshared apartWorld.
Proof.
  destruct match_addrs as [H10 H11]. destruct example_cidrs_ok as (_&_&_&Hok10). split.
  - intros e own nets ports pids [(->&->&->&->)|(->&->&->&->)]%matchWorld_lookup; (split; [|done || by constructor]); constructor; try done; by constructor.
  - intros a l1 p1 l2 p2 Ha H1 H2. apply apart_owner in H1, H2; [|done..]. destruct H1 as [(->&->&->)|(->&->&->)], H2 as [(H2&->&->)|(H2&->&->)]; done.
Qed.

Lemma apart_matches M services : ruleMatches M services apartWorld (matchRule true) matchPacket.
Proof.
  destruct match_addrs as [H10 H11]. split_and!; [|split_and!; [done|done|done|by intros p ?%elem_of_nil]|done|done].
  assert (Ha : hasAddr apartWorld (AddrOf host10) {["a" := "1"]} [tcpPort]).
  { exists 1, {["a" := "1"]}, [host10], []. split_and!; [done|done|]. exists host10. split; [apply list_elem_of_here|by vm_compute]. }
  split_and!.
  - intros _. eexists. split; [vm_compute; reflexivity|]. by exists {["a" := "1"]}, [tcpPort].
  - intros _. eexists. split; [vm_compute; reflexivity|]. intros (l&p&Hl&Hev). apply apart_owner in Hl as [(_&->&->)|(Hx&_)]; [by vm_compute in Hev|done|done].
  - intros _. exists (MkPort 0 0 "http"). split; [apply list_elem_of_here|]. exists ProtocolAny. split; [done|].
    exists {["a" := "1"]}, [tcpPort], tcpPort. split_and!; [done|apply list_elem_of_here|by vm_compute..].
  - by intros p ?%elem_of_nil.
Qed.

(** The only IP set of the rule, and its contents. *)
Definition matchContents (b : bool) (w : World (EpID := nat)) (uid : string) (m : IPSetMember) : Prop :=
  match ruleToParsedRule exampleHash (matchRule b) with Ret (_, [d]) => setMember (λ _ _ _, False) w d m | _ => False end.

Lemma matchContents_ok b w : ∃ pr d, ruleToParsedRule exampleHash (matchRule b) = Ret (pr, [d]) ∧ ∀ uid m, matchContents b w uid m ↔ setMember (λ _ _ _, False) w d m.
Proof. unfold matchContents. destruct b; (eexists _, _; split; [vm_compute; reflexivity|]); cbn; done. Qed.

Lemma parsed_rule_matches_witness :
  ∃ pr d, ruleToParsedRule exampleHash (matchRule true) = Ret (pr, [d]) ∧ passed_on (matchRule true) pr ∧ parsedRuleMatches (matchContents true apartWorld) pr matchPacket.
Proof.
  destruct (matchContents_ok true apartWorld) as (pr&d&Hrun&HC). exists pr, d. split; [exact Hrun|]. destruct match_addrs as [H10 H11]. destruct apart_ok as [Hsingle Hun].
  destruct (parsed_rule_matches exampleHash (λ _ _ _, False) apartWorld (matchRule true) pr [d] (matchContents true apartWorld) matchPacket
    (matchRule_ok exampleHash true) Hsingle Hun H10 H11 Hrun) as [Hpass Hm].
  - intros d' m ->%list_elem_of_singleton. apply HC.
  - split; [exact Hpass|]. apply Hm, apart_matches.
Defined.

(** Where an endpoint and a network set share an address, the rule scanner's parsed rule differs
    from the rule: the endpoint has the label [a], the network set around it the label [b], so the
    address is one of [has(a)] and one of [has(b)], and the rule, which asks for the first and not
    the second, does not match; but the endpoint is in the set of
    [(has(a)) && (!(has(b)))]. *)
Theorem shared_address_differs :
  ∃ w pr d, ruleToParsedRule exampleHash (matchRule false) = Ret (pr, [d]) ∧
    parsedRuleMatches (λ _ m, setMember (EpID := nat) (λ _ _ _, False) w d m) pr matchPacket ∧ ¬ ruleMatches exampleHash (λ _ _ _, False) w (matchRule false) matchPacket.
Proof.
  set (w := matchWorld [net10_1] {["b" := "1"]}). exists w. destruct (matchContents_ok false w) as (pr&d&Hrun&HC). exists pr, d. split; [done|]. split.
  - vm_compute in Hrun. injection Hrun as <- <-. split_and!; [split_and!|split_and!|].
    + intros uid ->%list_elem_of_singleton. exists (MakeCIDROrIPOnly host10), host10. split_and!; [|apply memberCIDR_Make|by vm_compute].
      exists 1, {["a" := "1"]}, [host10], [tcpPort], []. split_and!; [done|by vm_compute|]. exists host10. split; [apply list_elem_of_here|done].
    + cbn. naive_solver.
    + by intros uid ?%elem_of_nil.
    + by intros p ?%elem_of_nil.
    + by intros uid ?%elem_of_nil.
    + by intros uid ?%elem_of_nil.
    + cbn. naive_solver.
    + by intros uid ?%elem_of_nil.
    + by intros p ?%elem_of_nil.
    + by intros uid ?%elem_of_nil.
    + by intros uid ?%elem_of_nil.
  - intros ((_&Hneg&_)&_). destruct Hneg as (sel&Hsel&Hno); [done|]. vm_compute in Hsel. injection Hsel as <-. apply Hno.
    exists {["b" := "1"]}, []. split; [|by vm_compute]. exists 2, {["b" := "1"]}, [net10_1], []. split_and!; [done|done|].
    exists net10_1. split; [apply list_elem_of_here|by vm_compute].
Qed.

(** A selector of white space is valid, and matches everything; but a rule with such a selector
    and a negated one makes the rule scanner panic. *)
Theorem blank_selector_panics :
  Validate exampleHash " " = Ret () ∧ Validate exampleHash "has(b)" = Ret () ∧
  ruleToParsedRule exampleHash
    (MkRule "allow" None None None None None None None "" None [] " " [] "" "" "" "" None [] [] "" "" "" None [] "has(b)" [] "" "" None [] []
       "" "" "" "" "" "" [] "" [] "" None None) = Panic.
Proof. split_and!; by vm_compute. Qed.
