(* ===== verification/RuleGraph.v ===== *)
(** * From active rules to IP sets in the dataplane: [felix/calc/calc_graph.go]

    [NewCalculationGraph] wires the rule scanner to the index of IP set members: an IP set that
    becomes active is added to the service index or to the named port index, one that becomes
    inactive is deleted there, and the members that the indexes report go to the dataplane, next
    to the parsed rules.  [rg_step] is one input of either of them.  The theorem composes the
    theorems about the parts: the rules that the dataplane holds, read with the IP sets that it
    holds, match what the active policies and profiles say.

    The service index is a parameter: [services] is what it computes. *)
From S2P Require Import Prelude ModelRule Tokenizer SelectorAST SelectorParser SelectorRoundTrip SelectorCompose UniqueLabels InheritIndexCorrect Multidict.
From S2P Require Import CIDR CIDRTrieSpec CIDRTrieCorrect MemberDedup MemberDedupSpec PolicySorter.
From Stdlib Require Import Ascii.
From stdpp Require Import base list gmap numbers strings.
From S2P Require Import NamedPortIndex NamedPortCandidates NamedPortInv NamedPortCorrect NetIP NamedPortUpdates RuleScanner RuleScannerSpec RuleScannerTrack RuleMatch.
From stdpp Require Import options.

(** ** Identifiers of IP sets have no collisions *)
(** The prefixes that [MakeUniqueID] is called with. *)
Definition idPrefixes : list string := ["s"; "n"; "svc"; "svcnoport"].

(** [MakeUniqueID] is a secure hash in base 64, after its prefix. *)
Record collision_free (MakeUniqueID : string → string → string) : Prop := {
  cf_inj p1 p2 c1 c2 : p1 ∈ idPrefixes → p2 ∈ idPrefixes → MakeUniqueID p1 c1 = MakeUniqueID p2 c2 → p1 = p2 ∧ c1 = c2;
  cf_comma c : lacks ","%char (MakeUniqueID "s" c) = true
}.

Lemma split_comma s1 r1 s2 r2 : lacks ","%char s1 = true → lacks ","%char s2 = true → s1 +:+ "," +:+ r1 = s2 +:+ "," +:+ r2 → s1 = s2 ∧ r1 = r2.
Proof.
  intros H1 H2 Heq. assert (E1 : splitAtByte ","%char (s1 +:+ "," +:+ r1) = Some (s1, r1)) by (by apply splitAtByte_spec).
  assert (E2 : splitAtByte ","%char (s2 +:+ "," +:+ r2) = Some (s2, r2)) by (by apply splitAtByte_spec). rewrite Heq in E1. split; congruence.
Qed.

Lemma Protocol_String_inj p q : port_protocol p → port_protocol q → Protocol_String p = Protocol_String q → p = q.
Proof. intros [->|[->|[->| ->]]] [->|[->|[->| ->]]]; by vm_compute. Qed.

Lemma Protocol_String_comma p : port_protocol p → lacks ","%char (Protocol_String p) = true.
Proof. by intros [->|[->|[->| ->]]]; vm_compute. Qed.

Section ids.
Context (MakeUniqueID : string → string → string) (Hcf : collision_free MakeUniqueID).
Context `{Countable EpID} (services : string → bool → IPSetMember → Prop).

Lemma cf_hash c1 c2 : MakeUniqueID "s" c1 = MakeUniqueID "s" c2 → c1 = c2.
Proof using Hcf. intros Heq. apply (cf_inj _ Hcf) in Heq as [_ ?]; [done|by left..]. Qed.

(** What the identifier of an IP set is made of. *)
Lemma uid_shape d : ips_ok MakeUniqueID d →
  match ips_Selector d with
  | Some sel => (ips_NamedPortProtocol d = ProtocolNone ∧ uid_of MakeUniqueID d = MakeUniqueID "s" (print (root sel))) ∨
      (port_protocol (ips_NamedPortProtocol d) ∧ uid_of MakeUniqueID d =
        MakeUniqueID "n" (MakeUniqueID "s" (print (root sel)) +:+ "," +:+ Protocol_String (ips_NamedPortProtocol d) +:+ "," +:+ ips_NamedPort d))
  | None => uid_of MakeUniqueID d = MakeUniqueID (if ips_ServiceIncludePorts d then "svc" else "svcnoport") (ips_Service d)
  end.
Proof using Type.
  unfold ips_ok, uid_of, UniqueID. destruct (ips_Selector d) as [sel|].
  - intros (Hv&Hs&Hp). rewrite decide_False by (rewrite Hs; tauto). destruct (parsed_hash MakeUniqueID sel Hv) as [_ ->]. destruct Hp as [Hp|Hp].
    + left. by rewrite decide_True.
    + right. rewrite decide_False by (by destruct Hp as [->|[->|[->| ->]]]). done.
  - intros [Hs _]. rewrite decide_True by done. by destruct (ips_ServiceIncludePorts d).
Qed.

Lemma same_uid_members (w : World (EpID := EpID)) d1 d2 m :
  ips_ok MakeUniqueID d1 → ips_ok MakeUniqueID d2 → uid_of MakeUniqueID d1 = uid_of MakeUniqueID d2 →
  setMember services w d1 m ↔ setMember services w d2 m.
Proof using Hcf.
  intros H1 H2 Heq. pose proof (uid_shape d1 H1) as U1. pose proof (uid_shape d2 H2) as U2. unfold setMember, ips_ok in *.
  assert (Hpre : ∀ p c1 q c2, MakeUniqueID p c1 = MakeUniqueID q c2 → p ∈ idPrefixes → q ∈ idPrefixes → p = q ∧ c1 = c2) by (intros; by apply (cf_inj _ Hcf)).
  assert (Hin : ∀ p, p ∈ idPrefixes ↔ p = "s" ∨ p = "n" ∨ p = "svc" ∨ p = "svcnoport") by (intros p; unfold idPrefixes; rewrite !elem_of_cons, elem_of_nil; tauto).
  setoid_rewrite Hin in Hpre. clear Hin.
  destruct (ips_Selector d1) as [sel1|] eqn:E1, (ips_Selector d2) as [sel2|] eqn:E2.
  - destruct H1 as (V1&_&P1), H2 as (V2&_&P2).
    assert (Hsame : print (root sel1) = print (root sel2) → ∀ labels : gmap string string, Evaluate (root sel1) labels = Evaluate (root sel2) labels).
    { intros Hp labels. apply (same_hash_Evaluate MakeUniqueID cf_hash); [done|done|]. destruct (parsed_hash _ _ V1) as [_ ->], (parsed_hash _ _ V2) as [_ ->]. by rewrite Hp. }
    destruct U1 as [[N1 U1]|[N1 U1]], U2 as [[N2 U2]|[N2 U2]]; rewrite U1, U2 in Heq; apply Hpre in Heq as [Hp Hc]; try tauto; try discriminate Hp.
    + rewrite N1, N2. unfold offers. destruct (decide (ProtocolNone = ProtocolNone)) as [_|]; [|done]. setoid_rewrite (Hsame Hc). done.
    + apply split_comma in Hc as [Hh Hc]; [|apply (cf_comma _ Hcf)..]. apply split_comma in Hc as [Hs Hn]; [|by apply Protocol_String_comma..].
      apply Protocol_String_inj in Hs; [|done..]. apply cf_hash in Hh. rewrite Hs, Hn. setoid_rewrite (Hsame Hh). done.
  - destruct U1 as [[_ U1]|[_ U1]]; rewrite U1, U2 in Heq; destruct (ips_ServiceIncludePorts d2); apply Hpre in Heq as [Hp _]; first [discriminate Hp|tauto].
  - destruct U2 as [[_ U2]|[_ U2]]; rewrite U1, U2 in Heq; destruct (ips_ServiceIncludePorts d1); apply Hpre in Heq as [Hp _]; first [discriminate Hp|tauto].
  - rewrite U1, U2 in Heq. destruct (ips_ServiceIncludePorts d1), (ips_ServiceIncludePorts d2); apply Hpre in Heq as [Hp Hc];
      try discriminate Hp; try tauto; by rewrite Hc.
Qed.
End ids.

(** ** With overlaps suppressed, the addresses of a set are the same *)
Section suppressed.
Implicit Types (X : gset IPSetMember) (m : IPSetMember) (c : CIDR) (a : Addr).

Lemma within_Contains c1 c2 a : cidr_ok c1 → cidr_ok c2 → addr_ok a → within c1 c2 → CIDR_Contains c2 a = true → CIDR_Contains c1 a = true.
Proof.
  intros H1 H2 Ha Hw Hin. pose proof (within_version _ _ Hw) as Hv. assert (Hva : Version c2 = Addr_Version a) by (by destruct c2, a).
  apply within_bits in Hw; [|done..]. rewrite CIDR_Contains_spec in * by (done || congruence). by etrans.
Qed.

Definition coveredBy c m' : Prop := match memberCIDR m' with Some c' => within c' c | None => False end.

#[local] Instance coveredBy_dec c m' : Decision (coveredBy c m').
Proof. unfold coveredBy, within. destruct (memberCIDR m'); apply _. Defined.

(** Every address of a set is one of a member that is shown. *)
Lemma shown_covers X a : set_ok X → addr_ok a →
  (∃ m c, shown X m ∧ memberCIDR m = Some c ∧ CIDR_Contains c a = true) ↔ ∃ m c, m ∈ X ∧ memberCIDR m = Some c ∧ CIDR_Contains c a = true.
Proof.
  intros HX Ha. split; [intros (m&c&[Hm _]&?); eauto|]. intros (m&c&Hm&Hc&Hin).
  remember (length (bitsOf c)) as n eqn:Hn. revert m c Hm Hc Hin Hn. induction n as [n IH] using lt_wf_ind. intros m c Hm Hc Hin ->.
  destruct (HX m Hm c Hc) as (Hmc&Hok&_). destruct (decide (set_Exists (λ m', m' ≠ m ∧ coveredBy c m') X)) as [(m'&Hm'&Hne&Hcov)|Hno].
  - unfold coveredBy in Hcov. destruct (memberCIDR m') as [c'|] eqn:Hc'; [|done]. destruct (HX m' Hm' c' Hc') as (Hmc'&Hok'&_).
    assert (Hlt : length (bitsOf c') < length (bitsOf c)).
    { pose proof (within_version _ _ Hcov) as Hv. pose proof Hcov as Hb. apply within_bits in Hb; [|done..]. destruct Hb as [k Hk].
      destruct k as [|x k]; [|rewrite Hk, length_app; cbn; lia]. rewrite app_nil_r in Hk. destruct Hne. rewrite Hmc, Hmc'. f_equal. by apply bitsOf_inj. }
    apply (IH _ Hlt m' c' Hm' Hc'); [|done]. exact (within_Contains c' c a Hok' Hok Ha Hcov Hin).
  - exists m, c. split_and!; [|done|done]. split; [done|]. intros d m' c' Hd Hm' Hc' Hw. rewrite Hc in Hd. injection Hd as <-.
    destruct (decide (m' = m)) as [|Hne]; [done|]. destruct Hno. exists m'. split; [done|]. split; [done|]. unfold coveredBy. by rewrite Hc'.
Qed.
End suppressed.

(** ** The graph *)
Section graph.
Context (MakeUniqueID : string → string → string) (Hcf : collision_free MakeUniqueID).
Context (enumUIDs : gset string → list string) (HenumUIDs : ∀ s, enumUIDs s ≡ₚ elements s).
Context `{Countable EpID} (zeroID : EpID) (go : GoOrders EpID) `{!GoOrdersLaws go}.
Context (services : string → bool → IPSetMember → Prop).
Abbreviation Index := (SelectorAndNamedPortIndex (EpID := EpID)).
Abbreviation NOp := (NPOp (EpID := EpID)).
Abbreviation okay := (ips_ok MakeUniqueID).
Abbreviation hashOk := (cf_hash MakeUniqueID Hcf).

Record RuleGraph := MkRuleGraph { rg_scanner : RuleScanner; rg_index : Index; rg_members : Sets; rg_dataplane : Dataplane }.
Implicit Types (g : RuleGraph) (w : World (EpID := EpID)) (dp : Dataplane) (d : IPSetData).

(** [OnIPSetActive] and [OnIPSetInactive]: the call of the named port index, if there is one. *)
Definition setOp (e : RSEvent) : outcome Empty_set (option NOp) :=
  match e with
  | OnIPSetActive d =>
      let! uid := UniqueID MakeUniqueID d in
      if decide (ips_Service d ≠ "") then Ret None
      else match ips_Selector d with Some sel => Ret (Some (OpUpdateIPSet uid sel (ips_NamedPortProtocol d) (ips_NamedPort d))) | None => Panic end
  | OnIPSetInactive d => let! uid := UniqueID MakeUniqueID d in if decide (ips_Service d ≠ "") then Ret None else Ret (Some (OpDeleteIPSet uid))
  | _ => Ret None
  end.

Fixpoint deliver (es : list RSEvent) (st : Index * Sets) : outcome Empty_set (Index * Sets) :=
  match es with
  | [] => Ret st
  | e :: es' =>
      let! op := setOp e in
      let! st' := match op with Some op => np_step zeroID go op st | None => Ret st end in
      deliver es' st'
  end.

(** An input of the rule scanner, or an update of endpoints, network sets and profiles. *)
Inductive RgOp :=
  | RgRules (op : RsOp)
  | RgUpdate (op : NOp).

Definition rg_step (op : RgOp) g : outcome Empty_set RuleGraph :=
  match op with
  | RgRules op =>
      let! rs' := rs_step MakeUniqueID enumUIDs op (rg_scanner g) in
      let new := drop (length (rs_events (rg_scanner g))) (rs_events rs') in
      let! (idx', members) := deliver new (rg_index g, rg_members g) in
      match hearAll MakeUniqueID new (rg_dataplane g) with Some dp' => Ret (MkRuleGraph rs' idx' members dp') | None => Panic end
  | RgUpdate op =>
      let! (idx', members) := np_step zeroID go op (rg_index g, rg_members g) in
      Ret (MkRuleGraph (rg_scanner g) idx' members (rg_dataplane g))
  end.

Fixpoint rg_run (ops : list RgOp) g : outcome Empty_set RuleGraph :=
  match ops with [] => Ret g | op :: ops' => let! g' := rg_step op g in rg_run ops' g' end.

Definition NewRuleGraph (suppressOverlaps : bool) : RuleGraph :=
  MkRuleGraph NewRuleScanner (NewSelectorAndNamedPortIndex suppressOverlaps) ∅ (MkDataplane ∅ ∅).

(** What the IP sets of the dataplane contain. *)
Definition contents g (uid : string) (m : IPSetMember) : Prop :=
  match dp_sets (rg_dataplane g) !! uid with
  | Some d => if decide (ips_Service d ≠ "") then services (ips_Service d) (ips_ServiceIncludePorts d) m else m ∈ rg_members g !!! uid
  | None => False
  end.

(** ** The specification *)
Definition rg_op_ok (op : RgOp) : Prop :=
  match op with
  | RgRules op => rs_op_ok MakeUniqueID op
  | RgUpdate op => np_op_ok MakeUniqueID op ∧ match op with OpUpdateIPSet _ _ _ _ | OpDeleteIPSet _ => False | _ => True end
  end.

Definition rg_weight (op : RgOp) : nat := match op with RgRules _ => 0 | RgUpdate op => opWeight op end.

(** The active rules, and the endpoints, network sets and profiles, that a history leaves. *)
Definition rg_active (a : gmap RulesKey (Policy + ProfileRules)) (op : RgOp) : gmap RulesKey (Policy + ProfileRules) :=
  match op with RgRules op => active_step a op | RgUpdate _ => a end.
Definition rg_world w (op : RgOp) : World (EpID := EpID) := match op with RgRules _ => w | RgUpdate op => world_step w op end.

Definition packet_ok (pk : Packet) : Prop := addr_ok (pk_src pk) ∧ addr_ok (pk_dst pk) ∧ pk_protocol pk ≠ ProtocolNone.

(** A parsed rule, over what the dataplane has, does what the rule says. *)
Definition implements g w (r : Rule) (pr : ParsedRule) : Prop :=
  passed_on r pr ∧ ∀ pk, packet_ok pk → parsedRuleMatches (contents g) pr pk ↔ ruleMatches MakeUniqueID services w r pk.

Definition content_rules (c : Policy + ProfileRules) : list Rule * list Rule :=
  match c with inl p => (pol_InboundRules p, pol_OutboundRules p) | inr p => (pr_InboundRules p, pr_OutboundRules p) end.

(** ** The index has the IP sets of the dataplane *)
Definition setSpec d : option (Selector * Protocol * string) :=
  if decide (ips_Service d ≠ "") then None else (λ sel, (sel, ips_NamedPortProtocol d, ips_NamedPort d)) <$> ips_Selector d.

Definition sets_match w dp : Prop := ∀ uid, w_sets w !! uid = dp_sets dp !! uid ≫= setSpec.

(** Two worlds that differ in their IP sets only. *)
Definition same_endpoints w w' : Prop := w_endpoints w' = w_endpoints w ∧ w_parents w' = w_parents w.

Lemma service_prefix (b : bool) c1 c2 :
  MakeUniqueID (if b then "svc" else "svcnoport") c1 ≠ MakeUniqueID "s" c2 ∧ MakeUniqueID (if b then "svc" else "svcnoport") c1 ≠ MakeUniqueID "n" c2.
Proof using Hcf.
  clear HenumUIDs GoOrdersLaws0 go zeroID services enumUIDs. assert (Hin : ∀ p, p = "s" ∨ p = "n" ∨ p = "svc" ∨ p = "svcnoport" → p ∈ idPrefixes) by (intros p; unfold idPrefixes; rewrite !elem_of_cons; tauto).
  split; intros Heq; (apply (cf_inj _ Hcf) in Heq as [Heq _]; [|destruct b; apply Hin; tauto|apply Hin; tauto]); by destruct b.
Qed.

Lemma service_kind d1 d2 : okay d1 → okay d2 → uid_of MakeUniqueID d1 = uid_of MakeUniqueID d2 → ips_Service d1 = "" ↔ ips_Service d2 = "".
Proof using Hcf.
  clear HenumUIDs GoOrdersLaws0 go zeroID services enumUIDs. intros H1 H2 Heq. pose proof (uid_shape _ d1 H1) as U1. pose proof (uid_shape _ d2 H2) as U2. unfold ips_ok in *.
  destruct (ips_Selector d1), (ips_Selector d2); [tauto| | |tauto].
  - destruct U1 as [[_ U1]|[_ U1]]; rewrite U1, U2 in Heq; symmetry in Heq; by apply service_prefix in Heq.
  - destruct U2 as [[_ U2]|[_ U2]]; rewrite U1, U2 in Heq; by apply service_prefix in Heq.
Qed.

Lemma hear_ok dp e dp' : sets_ok MakeUniqueID (dp_sets dp) → event_ok MakeUniqueID e → hear MakeUniqueID dp e = Some dp' → sets_ok MakeUniqueID (dp_sets dp').
Proof using Type.
  intros Hs He. destruct e as [d|d|k prs|k]; cbn [hear event_ok] in *; [| |by intros [= <-]..]; rewrite (UniqueID_ok _ d He); destruct (decide _); try done; intros [= <-] uid d'; cbn.
  - intros [[<- <-]|[_ Hl]]%lookup_insert_Some; [split; [by apply UniqueID_ok|done]|by apply Hs].
  - intros [_ Hl]%lookup_delete_Some. by apply Hs.
Qed.

(** One event: the dataplane and the index stay in step. *)
Lemma setOp_ok dp e dp' w :
  sets_ok MakeUniqueID (dp_sets dp) → event_ok MakeUniqueID e → hear MakeUniqueID dp e = Some dp' → sets_match w dp →
  ∃ op, setOp e = Ret op ∧
    match op with
    | Some op => np_op_ok MakeUniqueID op ∧ opWeight op = 0 ∧ sets_match (world_step w op) dp' ∧ same_endpoints w (world_step w op)
    | None => sets_match w dp'
    end.
Proof using Hcf.
  clear HenumUIDs GoOrdersLaws0 go zeroID services enumUIDs. intros Hs He Hh Hm.
  destruct e as [d|d|k prs|k]; cbn [hear event_ok setOp] in *; [| |exists None; injection Hh as <-; done..].
  - rewrite (UniqueID_ok _ d He) in *. cbn [obind]. set (uid := uid_of MakeUniqueID d) in *. destruct (decide (dp_sets dp !! uid = None)) as [Hnone|]; [|done]. injection Hh as <-.
    unfold sets_match, setSpec in *. cbn. unfold ips_ok in He. destruct (decide (ips_Service d ≠ "")) as [Hsvc|Hsvc].
    + exists None. split; [done|]. intros u. rewrite Hm. destruct (decide (u = uid)) as [->|Hne]; [|by rewrite lookup_insert_ne].
      rewrite Hnone, lookup_insert_eq. cbn. by rewrite decide_True.
    + destruct (ips_Selector d) as [sel|] eqn:Hsel; [|tauto]. destruct He as (Hv&_&Hp). eexists. split; [done|]. cbn. split_and!; [done|done|done| |done].
      intros u. destruct (decide (u = uid)) as [->|Hne]; [|by rewrite !lookup_insert_ne]. rewrite !lookup_insert_eq. cbn. rewrite decide_False by done. by rewrite Hsel.
  - rewrite (UniqueID_ok _ d He) in *. cbn [obind]. set (uid := uid_of MakeUniqueID d) in *. destruct (decide (dp_sets dp !! uid = None)) as [|Hsome]; [done|]. injection Hh as <-.
    destruct (dp_sets dp !! uid) as [d'|] eqn:Hd'; [|done]. destruct (Hs uid d' Hd') as [Hu Ho]. rewrite (UniqueID_ok _ d' Ho) in Hu. injection Hu as Hu.
    pose proof (service_kind d d' He Ho (eq_sym Hu)) as Hk. unfold sets_match, setSpec in *. cbn. destruct (decide (ips_Service d ≠ "")) as [Hsvc|Hsvc].
    + exists None. split; [done|]. intros u. rewrite Hm. destruct (decide (u = uid)) as [->|Hne]; [|by rewrite lookup_delete_ne].
      rewrite Hd', lookup_delete_eq. cbn. rewrite decide_True by tauto. done.
    + eexists. split; [done|]. cbn. split_and!; [done|done| |done].
      intros u. destruct (decide (u = uid)) as [->|Hne]; [by rewrite !lookup_delete_eq|by rewrite !lookup_delete_ne].
Qed.

Lemma deliver_ok es : ∀ dp dp' b B P idx w,
  sets_ok MakeUniqueID (dp_sets dp) → Forall (event_ok MakeUniqueID) es → hearAll MakeUniqueID es dp = Some dp' → sets_match w dp →
  np_inv zeroID (b, P) B (clear_events idx) → world_rel MakeUniqueID (clear_events idx) w → small B →
  ∃ idx' P' w', deliver es (idx, P) = Ret (idx', P') ∧ np_inv zeroID (b, P') B (clear_events idx') ∧ world_rel MakeUniqueID (clear_events idx') w' ∧
    sets_match w' dp' ∧ same_endpoints w w'.
Proof using Hcf GoOrdersLaws0.
  induction es as [|e es IH]; intros dp dp' b B P idx w Hs He Hh Hm Hinv Hw HB; cbn [hearAll deliver] in *.
  { injection Hh as <-. by exists idx, P, w. }
  apply list.Forall_cons in He as [He Hes]. destruct (hear MakeUniqueID dp e) as [dp1|] eqn:Hhear; [|done].
  destruct (setOp_ok dp e dp1 w Hs He Hhear Hm) as (op&->&Hop). cbn [obind]. pose proof (hear_ok dp e dp1 Hs He Hhear) as Hs1. destruct op as [op|].
  - destruct Hop as (Hok&Hwt&Hm1&[Hep Hpa]). destruct (np_step_ok zeroID go MakeUniqueID P b B w idx op Hinv Hw) as (idx1&P1&->&Hinv1&Hw1); [by rewrite Hwt, Nat.add_0_r|done|].
    rewrite Hwt, Nat.add_0_r in Hinv1. cbn [obind]. destruct (IH dp1 dp' b B P1 idx1 _ Hs1 Hes Hh Hm1 Hinv1 Hw1 HB) as (idx2&P2&w2&Hr&Hi2&Hw2&Hm2&He2&Hp2).
    exists idx2, P2, w2. split_and!; [done..|]. split; congruence.
  - cbn [obind]. by apply (IH dp1 dp' b B P idx w).
Qed.

(** ** The invariant of the graph *)
Definition nets_okay w : Prop := ∀ e own nets ports pids, w_endpoints w !! e = Some (own, nets, ports, pids) → Forall net_ok nets.

(** [w] is the world without its IP sets. *)
Definition rg_inv (b : bool) (B : nat) g w (a : gmap RulesKey (Policy + ProfileRules)) : Prop :=
  tracks MakeUniqueID (rg_scanner g) (rg_dataplane g) a ∧ nets_okay w ∧
  ∃ w', same_endpoints w w' ∧ sets_match w' (rg_dataplane g) ∧ np_inv zeroID (b, rg_members g) B (clear_events (rg_index g)) ∧
    world_rel MakeUniqueID (clear_events (rg_index g)) w'.

Lemma tracks_sets rs dp a : tracks MakeUniqueID rs dp a → sets_ok MakeUniqueID (dp_sets dp).
Proof using Type. intros [[_ _ _ _ Hsets Hcl] _ _]. by rewrite Hcl. Qed.

Lemma nets_okay_step w op : nets_okay w → np_op_ok MakeUniqueID op → nets_okay (world_step w op).
Proof using Type.
  intros Hn Hop. destruct op; try exact Hn; intros e own nets' ports' pids; cbn.
  - intros [[<- [= <- <- <- <-]]|[_ Hl]]%lookup_insert_Some; [by destruct Hop|by eapply Hn].
  - intros [_ Hl]%lookup_delete_Some. by eapply Hn.
Qed.

Lemma rg_step_ok b B g w a op :
  rg_inv b B g w a → rg_op_ok op → small (B + rg_weight op) →
  ∃ g', rg_step op g = Ret g' ∧ rg_inv b (B + rg_weight op) g' (rg_world w op) (rg_active a op).
Proof using Hcf HenumUIDs GoOrdersLaws0.
  intros (Ht&Hn&w'&Hsame&Hm&Hinv&Hw) Hop HB. destruct op as [op|op]; cbn [rg_step rg_op_ok rg_weight rg_world rg_active] in *.
  - rewrite Nat.add_0_r in *. destruct (rs_step_ok MakeUniqueID enumUIDs HenumUIDs _ _ a op Ht Hop) as (rs'&dp'&->&(es&Hes&Heok&Hhear)&Ht'). cbn [obind].
    rewrite Hes, drop_app_length. destruct (deliver_ok es _ _ b B _ _ w' (tracks_sets _ _ _ Ht) Heok Hhear Hm Hinv Hw HB) as (idx'&P'&w2&->&Hinv2&Hw2&Hm2&Hsame2).
    cbn [obind]. rewrite Hhear. eexists. split; [done|]. split_and!; [done|done|]. exists w2. split_and!; [|done|done|done]. destruct Hsame, Hsame2. split; congruence.
  - destruct Hop as [Hop Hkind]. destruct (np_step_ok zeroID go MakeUniqueID _ b B w' _ op Hinv Hw HB Hop) as (idx'&P'&->&Hinv'&Hw'). cbn [obind].
    eexists. split; [done|]. split_and!; [done|by apply nets_okay_step|]. exists (world_step w' op). destruct Hsame as [He Hp].
    destruct op; try done; (split_and!; [split; cbn; congruence| |done|done]); intros uid; apply Hm.
Qed.

Lemma rg_run_ok b ops : ∀ B g w a,
  rg_inv b B g w a → Forall rg_op_ok ops → small (B + sum_list_with rg_weight ops) →
  ∃ g', rg_run ops g = Ret g' ∧ rg_inv b (B + sum_list_with rg_weight ops) g' (foldl rg_world w ops) (foldl rg_active a ops).
Proof using Hcf HenumUIDs GoOrdersLaws0.
  induction ops as [|op ops IH]; intros B g w a Hinv Hops HB; cbn [rg_run foldl sum_list_with] in *; [rewrite Nat.add_0_r; by eexists|].
  apply list.Forall_cons in Hops as [Hop Hops]. destruct (rg_step_ok b B g w a op Hinv Hop) as (g1&->&Hinv1); [unfold small in *; lia|]. cbn [obind].
  rewrite Nat.add_assoc in *. by apply IH.
Qed.

Lemma rg_inv_New b : rg_inv b 0 (NewRuleGraph b) emptyWorld ∅.
Proof using Type.
  split; [apply tracks_init|]. split; [intros e own nets ports pids; cbn; by rewrite lookup_empty|]. exists emptyWorld.
  split_and!; [done| |apply np_inv_New|apply world_rel_empty]. intros uid. cbn. by rewrite !lookup_empty.
Qed.

(** ** What the IP sets contain *)
Lemma setMember_ok w d m : nets_okay w → okay d → ips_Service d = "" → setMember services w d m → member_ok m.
Proof using Type.
  intros Hn Hd Hs. unfold setMember, ips_ok in *. destruct (ips_Selector d) as [sel|]; [|tauto].
  intros (e&own&nets&ports&pids&He&_&Ho). specialize (Hn e own nets ports pids He). rewrite list.Forall_forall in Hn. unfold offers in Ho. intros c Hc.
  destruct (decide (ips_NamedPortProtocol d = ProtocolNone)).
  - destruct Ho as (c'&Hc'&->). rewrite memberCIDR_Make in Hc. injection Hc as ->. split; [done|]. destruct (Hn c Hc'). done.
  - destruct Ho as (c'&p&pr&_&_&_&_&Hpr&->). destruct (ProtocolFrom_ok (ep_Protocol p)) as (pr'&Hpr'&Hne). assert (pr' = pr) as -> by congruence.
    rewrite MakeIPPortProto_ports in Hc by done. done.
Qed.

Lemma setMember_endpoints w w' d m : same_endpoints w w' → setMember services w' d m ↔ setMember services w d m.
Proof using Type. intros [He Hp]. unfold setMember, worldLabels, profileLabels. by rewrite He, Hp. Qed.

(** The members of a set that is not a service's, as wanted and as shown. *)
Lemma graph_members b B g w a uid d :
  rg_inv b B g w a → dp_sets (rg_dataplane g) !! uid = Some d → ips_Service d = "" →
  ∃ X, set_ok X ∧ (∀ m, m ∈ X ↔ setMember services w d m) ∧ ∀ m, m ∈ rg_members g !!! uid ↔ if b then shown X m else m ∈ X.
Proof using Hcf.
  intros (Ht&Hn&w'&Hsame&Hm&Hinv&Hw) Hd Hs. destruct (tracks_sets _ _ _ Ht uid d Hd) as [_ Hok].
  destruct (np_members zeroID MakeUniqueID hashOk b B _ _ w' uid Hinv Hw) as (X&HX&HP). exists X.
  assert (HXm : ∀ m, m ∈ X ↔ setMember services w d m).
  { intros m. rewrite HX, <- (setMember_endpoints w w' d m Hsame). unfold wanted, setMember. specialize (Hm uid). rewrite Hd in Hm. cbn in Hm. unfold setSpec in Hm.
    rewrite decide_False in Hm by tauto. unfold ips_ok in Hok. destruct (ips_Selector d) as [sel|]; [|tauto]. cbn in Hm. rewrite Hm. split.
    - intros (sel'&proto&port&e&own&nets&ports&pids&[= <- <- <-]&He&Hev&Ho). by exists e, own, nets, ports, pids.
    - intros (e&own&nets&ports&pids&He&Hev&Ho). by exists sel, (ips_NamedPortProtocol d), (ips_NamedPort d), e, own, nets, ports, pids. }
  split_and!; [|done|done]. intros m Hin%HXm. by eapply setMember_ok.
Qed.

(** The contents that the IP sets should have. *)
Definition idealContents g w (uid : string) (m : IPSetMember) : Prop :=
  match dp_sets (rg_dataplane g) !! uid with Some d => setMember services w d m | None => False end.

Lemma contents_ideal b B g w a uid :
  rg_inv b B g w a →
  (∀ addr, addr_ok addr → inSet (contents g) uid addr ↔ inSet (idealContents g w) uid addr) ∧
  (∀ x, end_protocol x ≠ ProtocolNone → inPortSet (contents g) uid x ↔ inPortSet (idealContents g w) uid x).
Proof using Hcf.
  intros Hinv. pose proof (tracks_sets _ _ _ (proj1 Hinv) uid) as Hok. unfold inSet, inPortSet, contents, idealContents.
  destruct (dp_sets (rg_dataplane g) !! uid) as [d|] eqn:Hd; [|done]. destruct (Hok d eq_refl) as [_ Hd']. destruct (decide (ips_Service d ≠ "")) as [Hs|Hs].
  - unfold setMember, ips_ok in *. destruct (ips_Selector d); [tauto|done].
  - destruct (graph_members b B g w a uid d Hinv Hd) as (X&HXok&HX&HP); [destruct (decide (ips_Service d = "")); tauto|]. setoid_rewrite <- HX. setoid_rewrite HP. destruct b; [|done]. split.
    + intros addr Ha. by apply shown_covers.
    + intros x Hx. rewrite MakeIPPortProto_ports by done. by apply shown_port.
Qed.

Lemma parsedSideMatches_ext (C1 C2 : string → IPSetMember → Prop) sets ports named notSets notPorts notNamed x :
  (∀ uid, inSet C1 uid (end_addr x) ↔ inSet C2 uid (end_addr x)) → (∀ uid, inPortSet C1 uid x ↔ inPortSet C2 uid x) →
  parsedSideMatches C1 sets ports named notSets notPorts notNamed x ↔ parsedSideMatches C2 sets ports named notSets notPorts notNamed x.
Proof using Type. intros H1 H2. unfold parsedSideMatches. setoid_rewrite H1. setoid_rewrite H2. done. Qed.

Lemma contents_rule b B g w a pr pk :
  rg_inv b B g w a → packet_ok pk → parsedRuleMatches (contents g) pr pk ↔ parsedRuleMatches (idealContents g w) pr pk.
Proof using Hcf.
  intros Hinv (Hs&Hd&Hp). unfold parsedRuleMatches.
  rewrite (parsedSideMatches_ext (contents g) (idealContents g w) _ _ _ _ _ _ (srcEnd pk)) by (intros uid; by apply (contents_ideal b B g w a uid Hinv)).
  rewrite (parsedSideMatches_ext (contents g) (idealContents g w) _ _ _ _ _ _ (dstEnd pk)) by (intros uid; by apply (contents_ideal b B g w a uid Hinv)).
  assert (Hport : ∀ uid, inPortSet (contents g) uid (dstEnd pk) ↔ inPortSet (idealContents g w) uid (dstEnd pk)) by (intros uid; by apply (contents_ideal b B g w a uid Hinv)).
  by setoid_rewrite Hport.
Qed.

(** The parsed rules of a policy or profile are all in force. *)
Lemma parses_implements b B g w a k prs rules prl :
  rg_inv b B g w a → single_addresses w → unshared w → dp_rules (rg_dataplane g) !! k = Some prs →
  parses_as MakeUniqueID rules prl → Forall (rule_ok MakeUniqueID) rules → (∀ pr, pr ∈ prl → pr ∈ prs_InboundRules prs ++ prs_OutboundRules prs) →
  Forall2 (implements g w) rules prl.
Proof using Hcf.
  intros Hinv Hsingle Hun Hk Hparse Hrules Hin. unfold parses_as in Hparse. revert Hin. induction Hparse as [|r pr rules prl (sets&Hr) _ IH]; intros Hin; [constructor|].
  apply list.Forall_cons in Hrules as [Hrok Hrules]. constructor; [|apply IH; [done|]; intros pr' Hpr'; by apply Hin, list_elem_of_further].
  destruct (ruleToParsedRule_ok _ r Hrok) as (rs&pr'&Hsets&Hr'&Hpass&Hnames). rewrite Hr in Hr'. injection Hr' as <- ->.
  split; [done|]. intros pk Hpk. rewrite (contents_rule b B g w a pr pk Hinv Hpk).
  pose proof (allSets_ok _ r rs Hsets) as Hall. rewrite list.Forall_forall in Hall.
  assert (HC : ∀ d m, d ∈ allSets MakeUniqueID r rs → idealContents g w (uid_of MakeUniqueID d) m ↔ setMember services w d m).
  { intros d m Hdin. unfold idealContents. destruct (proj1 Hinv) as [Hri _ Hnamed].
    assert (Hlive : is_Some (dp_sets (rg_dataplane g) !! uid_of MakeUniqueID d)).
    { rewrite (ri_client _ _ _ Hri), (ri_live _ _ _ Hri). exists k. apply (ri_inverse _ _ _ Hri), Hnamed. exists prs. split; [done|].
      exists pr. split; [apply Hin, list_elem_of_here|]. rewrite (names_sets_IDs _ _ _ _ Hnames). by apply list_elem_of_fmap_2. }
    destruct Hlive as [d' Hd']. rewrite Hd'. destruct (tracks_sets _ _ _ (proj1 Hinv) _ _ Hd') as [Hu Ho]. rewrite (UniqueID_ok _ d' Ho) in Hu. injection Hu as Hu.
    by apply (same_uid_members MakeUniqueID Hcf); [|apply Hall|]. }
  exact (proj2 (parsed_rule_semantics MakeUniqueID services w r pr _ _ pk Hrok Hsingle Hun (proj1 Hpk) (proj1 (proj2 Hpk)) Hr HC)).
Qed.

(** What holds of all rules of the inputs holds of those of the active policies and profiles. *)
Definition all_rules (P : Rule → Prop) (c : Policy + ProfileRules) : Prop := Forall P (content_rules c).1 ∧ Forall P (content_rules c).2.
Definition op_rules (P : Rule → Prop) (op : RgOp) : Prop := match op with RgRules op => ∀ c, op_content op = Some c → all_rules P c | RgUpdate _ => True end.

Lemma active_all_rules P ops : ∀ a, (∀ k c, a !! k = Some c → all_rules P c) → Forall (op_rules P) ops → ∀ k c, foldl rg_active a ops !! k = Some c → all_rules P c.
Proof using Type.
  induction ops as [|op ops IH]; intros a Ha Hops; [done|]. apply list.Forall_cons in Hops as [Hop Hops]. cbn [foldl]. apply IH; [|done].
  destruct op as [op|op]; [|done]. cbn [rg_active op_rules] in *. intros k c. rewrite active_step_lookup. destruct (decide (k = op_key op)); [apply Hop|apply Ha].
Qed.

Lemma op_rules_ok op : rg_op_ok op → op_rules (rule_ok MakeUniqueID) op.
Proof using Type. destruct op as [[key [p|]|name [p|]]|op]; [..|done]; intros Hop c [= <-]; exact Hop. Qed.

(** The graph has parsed rules for the active policies and profiles, and all are in force. *)
Lemma inv_enforced b B g w ops :
  rg_inv b B g w (foldl rg_active ∅ ops) → Forall rg_op_ok ops → single_addresses w → unshared w →
  ∀ k, match foldl rg_active ∅ ops !! k, dp_rules (rg_dataplane g) !! k with
       | Some c, Some prs =>
           Forall2 (implements g w) (content_rules c).1 (prs_InboundRules prs) ∧ Forall2 (implements g w) (content_rules c).2 (prs_OutboundRules prs)
       | None, None => True
       | _, _ => False
       end.
Proof using Hcf.
  intros Hinv Hops Hsingle Hun k. pose proof (tr_active _ _ _ _ (proj1 Hinv) k) as Hk.
  destruct (foldl rg_active ∅ ops !! k) as [c|] eqn:Hc, (dp_rules (rg_dataplane g) !! k) as [prs|] eqn:Hp; try done.
  destruct (active_all_rules (rule_ok MakeUniqueID) ops ∅ ltac:(intros k' c'; by rewrite lookup_empty) (Forall_impl _ _ _ Hops op_rules_ok) k c Hc) as [Hin Hout].
  destruct c as [p|p]; cbn in Hk; destruct Hk as (Hi&Ho&_) || destruct Hk as (Hi&Ho); split;
    (eapply parses_implements; [done..|]; intros pr Hpr; apply elem_of_app; tauto).
Qed.

End graph.

(** ** Example *)
(** A hash without collisions: the content in base 16. *)
Definition nibbles (c : ascii) : ascii * ascii := (ascii_of_nat (97 + nat_of_ascii c / 16), ascii_of_nat (97 + nat_of_ascii c mod 16)).
Fixpoint hexString (s : string) : string :=
  match s with "" => "" | String c s' => String (nibbles c).1 (String (nibbles c).2 (hexString s')) end.
Definition hexHash (prefix content : string) : string := prefix +:+ ":" +:+ hexString content.

Lemma nibbles_inj c d : nibbles c = nibbles d → c = d.
Proof.
  assert (Hinv : ∀ c, ascii_of_nat ((nat_of_ascii (nibbles c).1 - 97) * 16 + (nat_of_ascii (nibbles c).2 - 97)) = c) by (by intros [[] [] [] [] [] [] [] []]; vm_compute).
  intros Heq. rewrite <- (Hinv c), <- (Hinv d). by rewrite Heq.
Qed.

#[local] Opaque nibbles.
Lemma hexString_inj s t : hexString s = hexString t → s = t.
Proof.
  revert t. induction s as [|c s IH]; intros [|d t]; cbn [hexString]; intros Heq; try done. injection Heq as H1 H2 Heq. apply IH in Heq as ->. f_equal.
  apply nibbles_inj. by rewrite (surjective_pairing (nibbles c)), (surjective_pairing (nibbles d)), H1, H2.
Qed.

#[local] Transparent nibbles.
Lemma hexString_comma s : lacks ","%char (hexString s) = true.
Proof.
  induction s as [|c s IH]; [done|]. unfold lacks in *. cbn [hexString string_forallb]. rewrite IH, !andb_true_r. by destruct c as [[] [] [] [] [] [] [] []]; vm_compute.
Qed.

Lemma hexHash_ok : collision_free hexHash.
Proof.
  split.
  - intros p1 p2 c1 c2 H1 H2 Heq. unfold idPrefixes in *. rewrite !elem_of_cons, elem_of_nil in H1, H2. unfold hexHash in Heq.
    assert (Hc : p1 = p2 ∧ hexString c1 = hexString c2).
    { destruct H1 as [->|[->|[->|[->|[]]]]], H2 as [->|[->|[->|[->|[]]]]]; cbn in Heq; simplify_eq; try done; split; done || congruence. }
    destruct Hc as [-> ?%hexString_inj]. done.
  - intros c. unfold hexHash, lacks. rewrite !string_forallb_app. apply hexString_comma.
Qed.

Definition enforcedKey : PolicyKey := MkPolicyKey "p" "" "".
Definition enforcedPolicy : Policy := MkPolicy "" "default" None false false false [] "all()" [] [matchRule true] [].

Definition enforcedExample : list (RgOp (EpID := nat)) :=
  [RgUpdate (OpUpdateEndpoint 2 (Some {["a" := "1"; "b" := "1"]}) [host11] [] []);
   RgRules (RsPolicy enforcedKey (Some enforcedPolicy));
   RgUpdate (OpUpdateEndpoint 1 (Some {["a" := "1"]}) [host10] [tcpPort] [])].

Lemma enforcedExample_ok : Forall (rg_op_ok hexHash) enforcedExample.
Proof.
  destruct example_cidrs_ok as (_&_&_&H10). destruct match_addrs as [_ H11].
  assert (Hn : net_ok host10 ∧ net_ok host11) by (split; (split; [|done]); [done|by apply (AsCIDR_ok (AddrOf host11))]).
  apply List.Forall_cons; [|apply List.Forall_cons; [|apply List.Forall_cons; [|apply List.Forall_nil]]].
  - split; [|exact I]. split; [|apply NoDup_nil_2]. apply List.Forall_cons; [apply Hn|apply List.Forall_nil].
  - split; [apply List.Forall_cons; [apply matchRule_ok|apply List.Forall_nil]|apply List.Forall_nil].
  - split; [|exact I]. split; [|apply NoDup_nil_2]. apply List.Forall_cons; [apply Hn|apply List.Forall_nil].
Qed.

