(* ===== verification/NetString.v ===== *)
(** * How addresses are printed: the [net] package, and [String] of [felix/ip/ip_addr.go]

    What is sent to the dataplane is text: members of IP sets, networks of rules and
    endpoints, identifiers of pools.  The first part of the file is what the code uses of the
    formatting of the [net] and [netip] packages; the second shows that nothing is lost: an
    address can be read back from its text. *)
From S2P Require Import Prelude ModelRule Tokenizer CIDR MemberDedup CIDRTrieSpec NamedPortCandidates NetIP NamedPortUpdates.
From Stdlib Require Import Ascii.
From stdpp Require Import base list gmap numbers strings pretty.
From stdpp Require Import options.
#[local] Open Scope Z_scope.

(** ** Numbers *)
(** ["0123456789abcdef"[d]], for a digit. *)
Definition digit (d : Z) : ascii := ascii_of_nat (Z.to_nat (if d <? 10 then 48 + d else 87 + d)).

(** [appendDecimal] and [appendHex] of [netip]: no leading zeros. *)
Definition decimal (x : Z) : string :=
  (if 100 <=? x then String (digit (x / 100)) "" else "") +:+
  (if 10 <=? x then String (digit (x / 10 mod 10)) "" else "") +:+ String (digit (x mod 10)) "".

Definition hex (x : Z) : string :=
  (if 4096 <=? x then String (digit (Z.shiftr x 12)) "" else "") +:+
  (if 256 <=? x then String (digit (Z.land (Z.shiftr x 8) 15)) "" else "") +:+
  (if 16 <=? x then String (digit (Z.land (Z.shiftr x 4) 15)) "" else "") +:+ String (digit (Z.land x 15)) "".

(** ** Addresses of four and of sixteen bytes *)
Definition sepBy (sep : string) (l : list string) : string :=
  match l with [] => "" | s :: l' => s +:+ concat_strings ((λ t, sep +:+ t) <$> l') end.

Definition string4 (ip : NetIP) : string := sepBy "." (decimal <$> ip).

(** The groups of sixteen bits. *)
Fixpoint groups (ip : NetIP) : list Z :=
  match ip with a :: b :: ip' => Z.lor (Z.shiftl a 8) b :: groups ip' | _ => [] end.

(** The number of zeros that a list of groups starts with. *)
Fixpoint leadingZeros (gs : list Z) : nat :=
  match gs with g :: gs' => if g =? 0 then S (leadingZeros gs') else 0%nat | [] => 0%nat end.

(** The first of the longest runs of at least two zeros, as its start and its end. *)
Fixpoint zeroRun (i : nat) (gs : list Z) (best : option (nat * nat)) : option (nat * nat) :=
  match gs with
  | [] => best
  | _ :: gs' =>
      let l := leadingZeros gs in
      let longer := match best with Some (s, e) => (e - s <? l)%nat | None => true end in
      zeroRun (S i) gs' (if (2 <=? l)%nat && longer then Some (i, (i + l)%nat) else best)
  end.

Definition stringGroups (gs : list Z) : string :=
  match zeroRun 0 gs None with
  | None => sepBy ":" (hex <$> gs)
  | Some (s, e) => sepBy ":" (hex <$> take s gs) +:+ "::" +:+ sepBy ":" (hex <$> drop e gs)
  end.

Fixpoint hexBytes (bs : list Z) : string :=
  match bs with [] => "" | b :: bs' => String (digit (Z.shiftr b 4)) (String (digit (Z.land b 15)) (hexBytes bs')) end.

(** [net.IP.String]: an IPv4 address in sixteen bytes is printed as the four. *)
Definition NetIP_String (ip : NetIP) : string :=
  match To4 ip with
  | Some ip4 => string4 ip4
  | None =>
      if decide (ip = []) then "<nil>"
      else if decide (length ip = 16%nat) then stringGroups (groups ip) else "?" +:+ hexBytes ip
  end.

(** [networkNumberAndMask] and [net.IPNet.String]. *)
Definition networkNumberAndMask (n : IPNet_) : option (NetIP * IPMask) :=
  match (match To4 (net_IP n) with Some ip => Some ip | None => if decide (length (net_IP n) = 16%nat) then Some (net_IP n) else None end) with
  | None => None
  | Some ip =>
      if decide (length (net_Mask n) = 4%nat) then if decide (length ip = 4%nat) then Some (ip, net_Mask n) else None
      else if decide (length (net_Mask n) = 16%nat) then
        Some (ip, if decide (length ip = 4%nat) then drop 12 (net_Mask n) else net_Mask n)
      else None
  end.

Definition NetMask_String (m : IPMask) : string := if decide (m = []) then "<nil>" else hexBytes m.

Definition IPNet_String (n : IPNet_) : string :=
  match networkNumberAndMask n with
  | None => "<nil>"
  | Some (nn, m) =>
      match simpleMaskLength m with
      | None => NetIP_String nn +:+ "/" +:+ NetMask_String m
      | Some l => NetIP_String nn +:+ "/" +:+ pretty (N.of_nat l)
      end
  end.

(** ** [felix/ip] *)
Definition Addr_String (a : Addr) : string := NetIP_String (AsNetIP a).

Definition CIDR_String (c : CIDR) : string := Addr_String (AddrOf c) +:+ "/" +:+ pretty (Z.to_N (Prefix c)).

(** ** Members of IP sets: [felix/labelindex/ipsetmember] *)
Definition ToProtobufFormat (m : IPSetMember) : outcome Empty_set string :=
  match m with
  | ipPortProtoIPSetMember addr port proto =>
      let format name := Ret (Addr_String (AddrOf (AsCIDR addr)) +:+ "," +:+ name +:+ ":" +:+ pretty (Z.to_N port)) in
      if decide (proto = ProtocolTCP) then format "tcp"
      else if decide (proto = ProtocolUDP) then format "udp"
      else if decide (proto = ProtocolSCTP) then format "sctp"
      else Panic
  | cidrIPSetMember cidr => Ret (CIDR_String cidr)
  | ipAddrIPSetMember addr => Ret (CIDR_String (AsCIDR addr))
  end.

Example string_v4 : CIDR_String (V4CIDR 167838211 32) = "10.1.2.3/32".
Proof. reflexivity. Qed.
Example string_v6 : Addr_String (V6Addr 2306139568115548160 1) = "2001:db8::1" ∧ Addr_String (V6Addr 0 0) = "::" ∧
  Addr_String (V6Addr 281474976710656 0) = "1::" ∧ Addr_String (V6Addr 281474976710656 65537) = "1::1:1" ∧
  Addr_String (V6Addr 4294967297 4294967297) = "0:1:0:1:0:1:0:1".
Proof. vm_compute. done. Qed.

(** ** Reading back *)
(** The text between the separators. *)
Fixpoint splitAll (q : ascii) (s : string) : list string :=
  match s with
  | "" => [""]
  | String c s' =>
      if decide (c = q) then "" :: splitAll q s'
      else match splitAll q s' with p :: ps => String c p :: ps | [] => [String c ""] end
  end.

Lemma splitAll_ne q s : splitAll q s ≠ [].
Proof. destruct s as [|c s]; [done|]. cbn [splitAll]. destruct (decide (c = q)); [done|]. by destruct (splitAll q s). Qed.

Lemma splitAll_app q s1 s2 : splitAll q (s1 +:+ String q s2) = splitAll q s1 ++ splitAll q s2.
Proof.
  induction s1 as [|c s1 IH]; [rewrite string_app_nil_l; cbn [splitAll]; by rewrite decide_True|]. rewrite string_app_cons. cbn [splitAll]. rewrite IH.
  destruct (decide (c = q)); [done|]. pose proof (splitAll_ne q s1). by destruct (splitAll q s1).
Qed.

Lemma splitAll_sep q s : splitAll q (String q s) = "" :: splitAll q s.
Proof. exact (splitAll_app q "" s). Qed.

Lemma splitAll_lacks q s : lacks q s = true → splitAll q s = [s].
Proof.
  unfold lacks. induction s as [|c s IH]; [done|]. cbn [string_forallb splitAll]. intros [Hc Hs]%andb_true_iff. apply bool_decide_eq_true in Hc.
  rewrite decide_False by done. by rewrite IH.
Qed.

Lemma sepBy_cons q s l : sepBy (String q "") (s :: l) = match l with [] => s | _ => s +:+ String q (sepBy (String q "") l) end.
Proof. destruct l as [|t l]; cbn; [by rewrite string_app_nil_r|]. done. Qed.

Lemma splitAll_sepBy q l : l ≠ [] → Forall (λ s, lacks q s = true) l → splitAll q (sepBy (String q "") l) = l.
Proof.
  induction l as [|s l IH]; [done|]. intros _ [Hs Hl]%list.Forall_cons. rewrite sepBy_cons. destruct l as [|t l]; [by apply splitAll_lacks|].
  rewrite splitAll_app, splitAll_lacks by done. by rewrite IH.
Qed.

(** The value of a number in a base. *)
Definition digitValue (c : ascii) : Z := let n := Z.of_nat (nat_of_ascii c) in if n <? 58 then n - 48 else n - 87.
Fixpoint readNum (base acc : Z) (s : string) : Z := match s with "" => acc | String c s' => readNum base (acc * base + digitValue c) s' end.

(** Text of digits: not empty, and without the characters that separate. *)
Definition isDigit (c : ascii) : bool := let n := N_of_ascii c in ((48 <=? n) && (n <=? 57) || (97 <=? n) && (n <=? 102))%N.
Definition numeral (s : string) : bool := negb (bool_decide (s = "")) && string_forallb isDigit s.

Lemma string_forallb_impl (f g : ascii → bool) s : (∀ c, f c = true → g c = true) → string_forallb f s = true → string_forallb g s = true.
Proof. intros Hfg. induction s as [|c s IH]; [done|]. cbn. rewrite !andb_true_iff. intros [? ?]. auto. Qed.

Lemma numeral_lacks q s : isDigit q = false → numeral s = true → lacks q s = true.
Proof.
  unfold numeral. intros Hq [_ Hs]%andb_true_iff. revert Hs. apply string_forallb_impl. intros c Hc. apply bool_decide_eq_true. by intros ->; rewrite Hq in Hc.
Qed.

Lemma numeral_ne s : numeral s = true → s ≠ "".
Proof. unfold numeral. by intros [H%negb_true_iff%bool_decide_eq_false _]%andb_true_iff. Qed.

Lemma pretty_N_go_chars (f : ascii → bool) x s : (∀ d, f (pretty_N_char d) = true) → string_forallb f s = true → string_forallb f (pretty_N_go x s) = true.
Proof.
  intros Hf. revert s. induction (N.lt_wf_0 x) as [x _ IH]. intros s Hs. destruct (decide (0 < x)%N) as [Hx|Hx].
  - rewrite pretty_N_go_step by done. apply IH; [by apply N.div_lt|]. cbn. by rewrite Hf.
  - replace x with 0%N by lia. by rewrite pretty_N_go_0.
Qed.

Lemma pretty_lacks q (n : N) : isDigit q = false → lacks q (pretty n) = true.
Proof.
  intros Hq. assert (Hd : ∀ d, bool_decide (pretty_N_char d ≠ q) = true).
  { intros d. apply bool_decide_eq_true. intros <-. revert Hq. unfold pretty_N_char. by repeat case_match. }
  unfold lacks, pretty, pretty_N. destruct (decide (n = 0%N)); [|by apply pretty_N_go_chars]. apply andb_true_iff. split; [exact (Hd 0%N)|done].
Qed.

Definition allBelow (n : nat) (f : Z → bool) : bool := forallb f (seqZ 0 (Z.of_nat n)).

Lemma allBelow_spec n f x : allBelow n f = true → 0 <= x < Z.of_nat n → f x = true.
Proof. unfold allBelow. rewrite forallb_forall. intros Hf Hx. apply Hf, list_elem_of_In, elem_of_seqZ. lia. Qed.

Lemma decimal_ok x : word_ok 8 x → numeral (decimal x) = true ∧ readNum 10 0 (decimal x) = x.
Proof.
  intros Hx. assert (Hb : allBelow 256 (λ x, numeral (decimal x) && (readNum 10 0 (decimal x) =? x)) = true) by (vm_compute; reflexivity).
  apply (allBelow_spec _ _ x) in Hb; [|unfold word_ok in Hx; lia]. by apply andb_true_iff in Hb as [? ?%Z.eqb_eq].
Qed.

Lemma hex_ok x : word_ok 16 x → numeral (hex x) = true ∧ readNum 16 0 (hex x) = x.
Proof.
  intros [Hx0 Hx]. assert (Hb : allBelow 256 (λ a, allBelow 256 (λ b, let x := 256 * a + b in numeral (hex x) && (readNum 16 0 (hex x) =? x))) = true) by (vm_compute; reflexivity).
  pose proof (Z.div_mod x 256 ltac:(lia)) as Hd. pose proof (Z.mod_pos_bound x 256 ltac:(lia)) as Hm.
  assert (Hq : 0 <= x / 256 < 256) by (split; [by apply Z.div_pos|apply Z.div_lt_upper_bound; [lia|exact Hx]]).
  apply (allBelow_spec _ _ (x / 256)) in Hb; [|exact Hq]. apply (allBelow_spec _ _ (x mod 256)) in Hb; [|exact Hm]. cbv beta zeta in Hb.
  rewrite <- Hd in Hb. by apply andb_true_iff in Hb as [? ?%Z.eqb_eq].
Qed.

Lemma map_readNum base (f : Z → string) (P : Z → Prop) l :
  (∀ x, P x → readNum base 0 (f x) = x) → Forall P l → readNum base 0 <$> (f <$> l) = l.
Proof.
  intros Hf. induction l as [|x l IH]; [done|]. intros [Hx Hl]%list.Forall_cons. rewrite !fmap_cons, Hf by done. by rewrite IH.
Qed.

Lemma map_lacks q (f : Z → string) (P : Z → Prop) l : isDigit q = false →
  (∀ x, P x → numeral (f x) = true) → Forall P l → Forall (λ s, lacks q s = true) (f <$> l).
Proof. intros Hq Hf Hl. apply Forall_fmap. eapply Forall_impl; [exact Hl|]. intros x Hx. by apply numeral_lacks, Hf. Qed.

(** *** Four bytes *)
Definition read4 (s : string) : NetIP := readNum 10 0 <$> splitAll "." s.

Lemma read_string4 ip : ip ≠ [] → bytes_ok ip → read4 (string4 ip) = ip.
Proof.
  intros Hne Hip. unfold read4, string4. rewrite splitAll_sepBy; [|by destruct ip|].
  - apply (map_readNum 10 decimal (word_ok 8)); [|done]. apply decimal_ok.
  - apply (map_lacks _ decimal (word_ok 8)); [done| |done]. intros x Hx. by apply decimal_ok.
Qed.

(** *** Sixteen bytes *)
(** The groups before the gap, those after it, and zeros in between. *)
Fixpoint beforeGap (l : list string) : list string := match l with s :: l' => if decide (s = "") then [] else s :: beforeGap l' | [] => [] end.

Definition readGroups (s : string) : list Z :=
  let parts := splitAll ":" s in
  let pre := readNum 16 0 <$> beforeGap parts in
  if decide (length pre = length parts) then pre
  else let post := readNum 16 0 <$> reverse (beforeGap (reverse parts)) in pre ++ replicate (8 - length pre - length post) 0 ++ post.

Lemma beforeGap_app l l' : Forall (.≠ "") l → beforeGap (l ++ "" :: l') = l.
Proof. induction l as [|s l IH]; [done|]. intros [Hs Hl]%list.Forall_cons. cbn [app beforeGap]. rewrite decide_False by done. by rewrite IH. Qed.

Lemma beforeGap_all l : Forall (.≠ "") l → beforeGap l = l.
Proof. induction l as [|s l IH]; [done|]. intros [Hs Hl]%list.Forall_cons. cbn [beforeGap]. rewrite decide_False by done. by rewrite IH. Qed.

Definition zeros_at (gs : list Z) (s e : nat) : Prop := (s <= e <= length gs)%nat ∧ ∀ i, (s <= i < e)%nat → gs !! i = Some 0.

Lemma leadingZeros_spec gs : zeros_at gs 0 (leadingZeros gs).
Proof.
  induction gs as [|g gs [Hl IH]]; [split; [cbn; lia|intros i Hi; cbn in Hi; lia]|]. cbn [leadingZeros]. destruct (Z.eqb_spec g 0) as [->|]; [|split; [cbn; lia|intros; lia]].
  split; [cbn; lia|]. intros [|i] Hi; [done|]. apply IH. lia.
Qed.

Lemma zeroRun_spec all gs : ∀ i best, drop i all = gs → (∀ s e, best = Some (s, e) → zeros_at all s e) →
  ∀ s e, zeroRun i gs best = Some (s, e) → zeros_at all s e.
Proof.
  induction gs as [|g gs IH]; intros i best Hd Hbest s e; cbn [zeroRun]; [apply Hbest|]. apply (IH (S i)).
  - replace (S i) with (i + 1)%nat by lia. by rewrite <- drop_drop, Hd.
  - destruct (leadingZeros_spec (g :: gs)) as [Hl Hz]. intros s' e'. destruct (_ && _); [|apply Hbest]. intros [= <- <-].
    assert (Hlen : length (drop i all) = S (length gs)) by (by rewrite Hd). rewrite length_drop in Hlen. unfold zeros_at.
    change (if g =? 0 then S (leadingZeros gs) else 0%nat) with (leadingZeros (g :: gs)). split; [cbn [length] in Hl; lia|]. intros j Hj. replace j with (i + (j - i))%nat by lia. rewrite <- lookup_drop, Hd. apply Hz. lia.
Qed.

Lemma zeros_split gs s e : zeros_at gs s e → gs = take s gs ++ replicate (e - s) 0 ++ drop e gs.
Proof.
  intros [Hl Hz]. rewrite <- (take_drop s gs) at 1. f_equal. rewrite <- (take_drop (e - s) (drop s gs)), drop_drop. replace (s + (e - s))%nat with e by lia.
  f_equal. apply list_eq. intros i. destruct (decide (i < e - s)%nat).
  - rewrite lookup_take_lt, lookup_drop, Hz, lookup_replicate_2 by lia. done.
  - rewrite !lookup_ge_None_2; [done| |]; rewrite ?length_replicate, ?length_take; lia.
Qed.

Lemma hexes_ne gs : Forall (word_ok 16) gs → Forall (.≠ "") (hex <$> gs).
Proof. intros Hg. apply Forall_fmap. eapply Forall_impl; [exact Hg|]. intros x Hx. by apply numeral_ne, hex_ok. Qed.

(** What [splitAll] makes of one side of the gap. *)
Lemma split_side gs : Forall (word_ok 16) gs → splitAll ":" (sepBy ":" (hex <$> gs)) = if decide (gs = []) then [""] else hex <$> gs.
Proof.
  intros Hg. destruct (decide (gs = [])) as [->|Hne]; [done|]. apply splitAll_sepBy; [by destruct gs|].
  apply (map_lacks _ hex (word_ok 16)); [done| |done]. intros x Hx. by apply hex_ok.
Qed.

Lemma read_stringGroups gs : length gs = 8%nat → Forall (word_ok 16) gs → readGroups (stringGroups gs) = gs.
Proof.
  intros Hlen Hgs. unfold stringGroups, readGroups. destruct (zeroRun 0 gs None) as [[s e]|] eqn:Hrun.
  - assert (Hz : zeros_at gs s e) by (eapply (zeroRun_spec gs gs 0%nat None); [done|done|exact Hrun]). pose proof (zeros_split _ _ _ Hz) as Hsplit. destruct Hz as [Hl _].
    assert (Hpre : Forall (word_ok 16) (take s gs)) by (by apply Forall_take). assert (Hpost : Forall (word_ok 16) (drop e gs)) by (by apply Forall_drop).
    rewrite !string_app_cons, string_app_nil_l, splitAll_app.
    rewrite splitAll_sep, !split_side by done.
    set (A := if decide (take s gs = []) then [""] else hex <$> take s gs). set (B := if decide (drop e gs = []) then [""] else hex <$> drop e gs).
    assert (HA : beforeGap (A ++ "" :: B) = hex <$> take s gs).
    { subst A. destruct (decide (take s gs = [])) as [->|]; [done|]. by apply beforeGap_app, hexes_ne. }
    assert (HB : beforeGap (reverse (A ++ "" :: B)) = reverse (hex <$> drop e gs)).
    { rewrite reverse_app, reverse_cons, <- (assoc_L (++)). subst B. destruct (decide (drop e gs = [])) as [->|]; [done|]. apply beforeGap_app, Forall_reverse, hexes_ne. done. }
    rewrite HA, HB, reverse_involutive. rewrite !(map_readNum 16 hex (word_ok 16)) by (done || apply hex_ok).
    rewrite decide_False.
    + rewrite length_take, length_drop. replace (8 - s `min` length gs - (length gs - e))%nat with (e - s)%nat by lia. done.
    + rewrite length_app, length_take. cbn [length]. subst A B. rewrite Hlen. destruct (decide (take s gs = [])) as [Hn|]; [|rewrite length_fmap, length_take; lia].
      apply (f_equal length) in Hn. rewrite length_take in Hn. cbn in *. lia.
  - rewrite split_side by done. rewrite (decide_False (P := gs = [])) by (by destruct gs). rewrite beforeGap_all by (by apply hexes_ne).
    rewrite (map_readNum 16 hex (word_ok 16)) by (done || apply hex_ok). rewrite decide_True; [done|]. by rewrite length_fmap.
Qed.

(** *** Addresses *)
Definition ungroup (gs : list Z) : NetIP := gs ≫= λ g, [g / 256; g mod 256].

Lemma group_bytes a b : word_ok 8 a → word_ok 8 b → Z.lor (Z.shiftl a 8) b = a * 256 + b ∧ word_ok 16 (a * 256 + b).
Proof.
  intros [Ha0 Ha] [Hb0 Hb]. split; [|split; [lia|change (2 ^ 16) with (256 * 256); lia]].
  rewrite Z.shiftl_mul_pow2 by lia. change (2 ^ 8) with 256. symmetry. rewrite <- Z.add_lor_land.
  assert (Hz : Z.land (a * 256) b = 0); [|lia]. apply Z.bits_inj'. intros j Hj. rewrite Z.land_spec, Z.bits_0. destruct (Z.ltb_spec j 8).
  - change 256 with (2 ^ 8). by rewrite Z.mul_pow2_bits_low.
  - assert (Hlog : Z.log2 b < j) by (destruct (decide (b = 0)) as [->|]; [cbn; lia|]; apply Z.lt_le_trans with 8; [apply Z.log2_lt_pow2; lia|lia]).
    rewrite (Z.bits_above_log2 b) by done. by rewrite andb_false_r.
Qed.

Lemma groups_ok ip : bytes_ok ip → Nat.Even (length ip) → Forall (word_ok 16) (groups ip) ∧ ungroup (groups ip) = ip ∧ length (groups ip) = (length ip / 2)%nat.
Proof.
  intros Hip Heven. remember (length ip) as n eqn:Hn. revert ip Hip Hn. induction (lt_wf n) as [n _ IH]. intros ip Hip Hn.
  destruct ip as [|a [|b ip]]; [subst n; done|subst n; by destruct Heven as [[|k] Hk]; cbn in Hk; lia|]. cbn [length groups] in *.
  apply list.Forall_cons in Hip as [Ha Hip]. apply list.Forall_cons in Hip as [Hb Hip]. destruct (group_bytes a b Ha Hb) as [-> Hg].
  destruct (IH (length ip)) with (ip := ip) as (Hf&Hu&Hl); [lia|by destruct Heven as [k Hk]; exists (k - 1)%nat; lia|done|done|]. split_and!.
  - by constructor.
  - cbn. f_equal; [rewrite Z.div_add_l by lia; rewrite Z.div_small by (unfold word_ok in Hb; lia); lia|]. f_equal; [|exact Hu].
    rewrite Z.add_comm, Z.mod_add by lia. apply Z.mod_small. unfold word_ok in Hb; lia.
  - rewrite Hl, Hn. replace (S (S (length ip))) with (length ip + 1 * 2)%nat by lia. rewrite Nat.div_add by lia. lia.
Qed.

Lemma sepBy_chars (f : ascii → bool) sep l : string_forallb f sep = true → Forall (λ s, string_forallb f s = true) l → string_forallb f (sepBy sep l) = true.
Proof.
  intros Hsep Hl. destruct Hl as [|s l Hs Hl]; [done|]. cbn. rewrite string_forallb_app, Hs. cbn. induction Hl as [|t l Ht _ IH]; [done|].
  cbn. by rewrite !string_forallb_app, Hsep, Ht.
Qed.

(** The characters of addresses. *)
Definition addrChar (c : ascii) : bool := isDigit c || bool_decide (c = "."%char) || bool_decide (c = ":"%char).

Lemma numeral_chars s : numeral s = true → string_forallb addrChar s = true.
Proof. unfold numeral. intros [_ Hs]%andb_true_iff. revert Hs. apply string_forallb_impl. unfold addrChar. by intros c ->. Qed.

Lemma hexes_chars gs : Forall (word_ok 16) gs → string_forallb addrChar (sepBy ":" (hex <$> gs)) = true.
Proof. intros Hg. apply sepBy_chars; [done|]. apply Forall_fmap. eapply Forall_impl; [exact Hg|]. intros x Hx. by apply numeral_chars, hex_ok. Qed.

Lemma stringGroups_chars gs : Forall (word_ok 16) gs → string_forallb addrChar (stringGroups gs) = true.
Proof.
  intros Hg. unfold stringGroups. destruct (zeroRun 0 gs None) as [[s e]|]; [|by apply hexes_chars].
  rewrite !string_forallb_app, !hexes_chars; [done|by apply Forall_drop|by apply Forall_take].
Qed.

Lemma string4_chars ip : bytes_ok ip → string_forallb addrChar (string4 ip) = true ∧ lacks ":" (string4 ip) = true.
Proof.
  intros Hip. split; (apply sepBy_chars; [done|]); apply Forall_fmap; (eapply Forall_impl; [exact Hip|]); intros x Hx; destruct (decimal_ok x Hx) as [Hn _].
  - by apply numeral_chars.
  - by apply (numeral_lacks ":").
Qed.

Lemma lacks_app q s1 s2 : lacks q (s1 +:+ s2) = lacks q s1 && lacks q s2.
Proof. apply string_forallb_app. Qed.

Lemma lacks_self q s : lacks q (String q s) = false.
Proof. unfold lacks. cbn. by rewrite bool_decide_false by (intros []; done). Qed.

Lemma stringGroups_colon gs : (2 <= length gs)%nat → lacks ":" (stringGroups gs) = false.
Proof.
  intros Hl. unfold stringGroups. destruct (zeroRun 0 gs None) as [[s e]|].
  - rewrite lacks_app, string_app_cons, lacks_self. apply andb_false_r.
  - destruct gs as [|g [|g' gs]]; [cbn in Hl; lia..|]. rewrite !fmap_cons, sepBy_cons, lacks_app, lacks_self. apply andb_false_r.
Qed.

(** An IPv6 address that is not an IPv4 address in disguise. *)
Definition unmapped (a : Addr) : Prop := printsColon (AsCIDR a) = bool_decide (Addr_Version a = 6).

Lemma AsNetIP_length a : length (AsNetIP a) = match a with V4Addr _ => 4%nat | V6Addr _ _ => 16%nat end.
Proof. destruct a; cbn [AsNetIP]; by rewrite ?length_app, !beBytes_length. Qed.

Lemma isMapped_AsNetIP h l : addr_ok (V6Addr h l) → isMapped (AsNetIP (V6Addr h l)) = negb (printsColon (V6CIDR h l 128)).
Proof.
  intros Ha. pose proof (bytesAddr_AsNetIP _ Ha) as Hb. pose proof (AsNetIP_ok (V6Addr h l)) as [Hok _]. pose proof (AsNetIP_length (V6Addr h l)) as Hlen.
  unfold bytesAddr in Hb. rewrite decide_False in Hb by (by rewrite Hlen).
  assert (Hi : ∀ a b c d, V6Addr a b = V6Addr c d → a = c ∧ b = d) by (by intros ? ? ? ? [= -> ->]). apply Hi in Hb as [Hh Hl].
  destruct (isMapped (AsNetIP (V6Addr h l))) eqn:Hm.
  - unfold isMapped in Hm. apply bool_decide_eq_true in Hm as [_ Ht]. symmetry. apply negb_true_iff. cbn [printsColon]. apply negb_false_iff, andb_true_iff.
    assert (Hh' : take 8 (AsNetIP (V6Addr h l)) = replicate 8 0) by (change 8%nat with (8 `min` 12)%nat at 1; rewrite <- take_take; by rewrite Ht).
    rewrite Hh' in Hh. change (be (replicate 8 0)) with 0 in Hh. subst h. split; [done|]. apply Z.eqb_eq.
    assert (Hd : drop 8 (AsNetIP (V6Addr 0 l)) = [0; 0; 255; 255] ++ drop 12 (AsNetIP (V6Addr 0 l))).
    { rewrite <- (take_drop 4 (drop 8 (AsNetIP (V6Addr 0 l)))) at 1. rewrite drop_drop. f_equal. rewrite take_drop_commute. cbn [Nat.add]. by rewrite Ht. }
    rewrite Hd in Hl. assert (Hlow : word_ok 32 (be (drop 12 (AsNetIP (V6Addr 0 l))))).
    { pose proof (be_bound (drop 12 (AsNetIP (V6Addr 0 l))) (Forall_drop _ _ _ Hok)) as Hbd. rewrite length_drop, Hlen in Hbd. exact Hbd. }
    rewrite <- Hl. cbn [app be length]. rewrite length_drop, Hlen. cbn [Nat.sub Z.of_nat]. rewrite Z.shiftr_div_pow2 by lia.
    unfold word_ok in Hlow. change (be [0; 0; 255; 255]) with 65535. symmetry. apply (Z.div_unique _ _ _ (be (drop 12 (AsNetIP (V6Addr 0 l))))); [left; exact Hlow|]. cbn. lia.
  - pose proof (unmapped_colon _ 128 Hok Hlen Hm) as Hc. rewrite Hh, Hl in Hc. by rewrite Hc.
Qed.

(** What is printed. *)
Lemma Addr_String_cases a : addr_ok a → unmapped a →
  match a with V4Addr _ => Addr_String a = string4 (AsNetIP a) | V6Addr _ _ => Addr_String a = stringGroups (groups (AsNetIP a)) end.
Proof.
  intros Ha Hu. pose proof (AsNetIP_length a) as Hl. unfold Addr_String, NetIP_String, To4. destruct a as [a|h l].
  - by rewrite decide_True.
  - rewrite decide_False by (by rewrite Hl). rewrite isMapped_AsNetIP by done. unfold unmapped in Hu. cbn [AsCIDR Addr_Version] in Hu. rewrite Hu. cbn [bool_decide negb].
    rewrite (decide_False (P := AsNetIP (V6Addr h l) = [])) by (intros Hn; by rewrite Hn in Hl). by rewrite decide_True.
Qed.

Lemma Addr_String_chars a : addr_ok a → unmapped a → string_forallb addrChar (Addr_String a) = true.
Proof.
  intros Ha Hu. pose proof (Addr_String_cases a Ha Hu) as Hs. destruct (AsNetIP_ok a) as [Hok _]. destruct a as [a|h l]; rewrite Hs.
  - by apply string4_chars.
  - apply stringGroups_chars, groups_ok; [done|]. rewrite AsNetIP_length. by exists 8%nat.
Qed.

Lemma chars_lacks q s : addrChar q = false → string_forallb addrChar s = true → lacks q s = true.
Proof. intros Hq. apply string_forallb_impl. intros c Hc. apply bool_decide_eq_true. intros ->. by rewrite Hq in Hc. Qed.

Lemma Addr_String_inj a b : addr_ok a → addr_ok b → unmapped a → unmapped b → Addr_String a = Addr_String b → a = b.
Proof.
  intros Ha Hb Hua Hub Heq. pose proof (Addr_String_cases a Ha Hua) as Sa. pose proof (Addr_String_cases b Hb Hub) as Sb.
  destruct (AsNetIP_ok a) as [Oka _], (AsNetIP_ok b) as [Okb _]. pose proof (AsNetIP_length a) as La. pose proof (AsNetIP_length b) as Lb.
  rewrite <- (bytesAddr_AsNetIP a), <- (bytesAddr_AsNetIP b) by done. f_equal.
  assert (Hg : ∀ h l, Forall (word_ok 16) (groups (AsNetIP (V6Addr h l))) ∧ ungroup (groups (AsNetIP (V6Addr h l))) = AsNetIP (V6Addr h l) ∧ length (groups (AsNetIP (V6Addr h l))) = 8%nat).
  { intros h l. destruct (groups_ok (AsNetIP (V6Addr h l))) as (?&?&Hn); [apply AsNetIP_ok|rewrite AsNetIP_length; by exists 8%nat|]. rewrite AsNetIP_length in Hn. done. }
  destruct a as [a|h l], b as [b|h' l']; rewrite Sa, Sb in Heq.
  - rewrite <- (read_string4 (AsNetIP (V4Addr a))), <- (read_string4 (AsNetIP (V4Addr b))) by (done || (intros Hn; by rewrite Hn in * )). by rewrite Heq.
  - exfalso. destruct (Hg h' l') as (_&_&Hn). pose proof (stringGroups_colon (groups (AsNetIP (V6Addr h' l'))) ltac:(lia)) as Hc. rewrite <- Heq in Hc.
    destruct (string4_chars _ Oka) as [_ Hl]. by rewrite Hl in Hc.
  - exfalso. destruct (Hg h l) as (_&_&Hn). pose proof (stringGroups_colon (groups (AsNetIP (V6Addr h l))) ltac:(lia)) as Hc. rewrite Heq in Hc.
    destruct (string4_chars _ Okb) as [_ Hl]. by rewrite Hl in Hc.
  - destruct (Hg h l) as (F1&U1&N1), (Hg h' l') as (F2&U2&N2). rewrite <- U1, <- U2. f_equal.
    rewrite <- (read_stringGroups _ N1 F1), <- (read_stringGroups _ N2 F2). by rewrite Heq.
Qed.

Lemma split_unique q s1 r1 s2 r2 : lacks q s1 = true → lacks q s2 = true → s1 +:+ String q r1 = s2 +:+ String q r2 → s1 = s2 ∧ r1 = r2.
Proof.
  intros H1 H2 Heq. assert (E1 : splitAtByte q (s1 +:+ String q r1) = Some (s1, r1)) by (by apply splitAtByte_spec).
  assert (E2 : splitAtByte q (s2 +:+ String q r2) = Some (s2, r2)) by (by apply splitAtByte_spec). rewrite Heq in E1. split; congruence.
Qed.

Lemma net_ok_unmapped c : net_ok c → addr_ok (AddrOf c) ∧ unmapped (AddrOf c) ∧ 0 <= Prefix c.
Proof. intros [[Ha Hp _] Hc]. split_and!; [done| |lia]. unfold unmapped. by destruct c. Qed.

Lemma CIDR_String_inj c d : net_ok c → net_ok d → CIDR_String c = CIDR_String d → c = d.
Proof.
  intros Hc Hd Heq. destruct (net_ok_unmapped c Hc) as (Ac&Uc&Pc), (net_ok_unmapped d Hd) as (Ad&Ud&Pd). unfold CIDR_String in Heq.
  apply (split_unique "/") in Heq as [Hs Hp]; [|by apply chars_lacks, Addr_String_chars..]. apply Addr_String_inj in Hs; [|done..].
  apply (inj pretty) in Hp. assert (Hpre : Prefix c = Prefix d) by lia. destruct c, d; cbn in *; simplify_eq; done.
Qed.

(** [strings.Contains(cidr.String(), ":")] tells IPv6 from IPv4, in [getTrie]. *)
Lemma printsColon_String c : net_ok c → printsColon c = negb (lacks ":" (CIDR_String c)).
Proof.
  intros Hc. destruct (net_ok_unmapped c Hc) as (Ha&Hu&_). destruct Hc as [_ Hv]. unfold CIDR_String. rewrite lacks_app.
  assert (Hp : lacks ":" ("/" +:+ pretty (Z.to_N (Prefix c))) = true).
  { rewrite lacks_app. by apply pretty_lacks. }
  rewrite Hp, andb_true_r, Hv. pose proof (Addr_String_cases _ Ha Hu) as Hs. destruct (AsNetIP_ok (AddrOf c)) as [Hok _]. destruct c as [a p|h l p]; cbn [AddrOf] in *; rewrite Hs.
  - destruct (string4_chars _ Hok) as [_ ->]. done.
  - destruct (groups_ok (AsNetIP (V6Addr h l))) as (_&_&Hn); [done|rewrite AsNetIP_length; by exists 8%nat|]. rewrite AsNetIP_length in Hn. rewrite stringGroups_colon; [done|]. rewrite Hn. cbn. lia.
Qed.

(** ** Members *)
(** Members as the indexes make them: a single address is never a CIDR, a port has a protocol. *)
Definition member_ok (m : IPSetMember) : Prop :=
  match m with
  | ipPortProtoIPSetMember addr port proto => addr_ok addr ∧ unmapped addr ∧ 0 <= port ∧ (proto = ProtocolTCP ∨ proto = ProtocolUDP ∨ proto = ProtocolSCTP)
  | cidrIPSetMember cidr => net_ok cidr ∧ IsSingleAddress cidr = false
  | ipAddrIPSetMember addr => addr_ok addr ∧ unmapped addr
  end.

Lemma AsCIDR_net_ok a : addr_ok a → unmapped a → net_ok (AsCIDR a).
Proof. intros Ha Hu. split; [by apply AsCIDR_ok|]. unfold unmapped in Hu. by destruct a. Qed.

(** The protocols, as they are printed. *)
Definition protoName (proto : Protocol) : string :=
  if decide (proto = ProtocolTCP) then "tcp" else if decide (proto = ProtocolUDP) then "udp" else "sctp".

Lemma ToProtobufFormat_port addr port proto : proto = ProtocolTCP ∨ proto = ProtocolUDP ∨ proto = ProtocolSCTP →
  ToProtobufFormat (ipPortProtoIPSetMember addr port proto) = Ret (Addr_String addr +:+ String "," (protoName proto +:+ String ":" (pretty (Z.to_N port)))).
Proof. unfold ToProtobufFormat. assert (Ha : AddrOf (AsCIDR addr) = addr) by (by destruct addr). rewrite Ha. by intros [->|[->| ->]]. Qed.

(** The text of a member, when it has one. *)
Definition memberText (m : IPSetMember) : string := match ToProtobufFormat m with Ret s => s | _ => "" end.

Lemma ToProtobufFormat_ok m : member_ok m → ToProtobufFormat m = Ret (memberText m).
Proof. unfold memberText. destruct m as [addr port proto|c|a]; [|done..]. intros (_&_&_&Hp). by rewrite ToProtobufFormat_port. Qed.

Lemma CIDR_String_comma c : net_ok c → lacks "," (CIDR_String c) = true.
Proof.
  intros Hc. destruct (net_ok_unmapped c Hc) as (Ha&Hu&_). unfold CIDR_String. rewrite !lacks_app. rewrite (chars_lacks ",") by (done || by apply Addr_String_chars).
  by rewrite pretty_lacks.
Qed.

Lemma port_text_comma addr port proto : proto = ProtocolTCP ∨ proto = ProtocolUDP ∨ proto = ProtocolSCTP →
  lacks "," (memberText (ipPortProtoIPSetMember addr port proto)) = false.
Proof. intros Hp. unfold memberText. rewrite ToProtobufFormat_port by done. rewrite lacks_app, lacks_self. apply andb_false_r. Qed.

Lemma member_text_net m : member_ok m → match m with ipPortProtoIPSetMember _ _ _ => True | _ => lacks "," (memberText m) = true end.
Proof. destruct m as [|c|a]; [done| |]; intros [H1 H2]; apply CIDR_String_comma; [done|by apply AsCIDR_net_ok]. Qed.

Lemma protoName_inj p q : p = ProtocolTCP ∨ p = ProtocolUDP ∨ p = ProtocolSCTP → q = ProtocolTCP ∨ q = ProtocolUDP ∨ q = ProtocolSCTP →
  protoName p = protoName q → p = q.
Proof. intros [->|[->| ->]] [->|[->| ->]]; by vm_compute. Qed.

Lemma protoName_lacks p : p = ProtocolTCP ∨ p = ProtocolUDP ∨ p = ProtocolSCTP → lacks ":" (protoName p) = true.
Proof. intros [->|[->| ->]]; by vm_compute. Qed.

(** No two members of an IP set have the same text. *)
Lemma memberText_inj m1 m2 : member_ok m1 → member_ok m2 → memberText m1 = memberText m2 → m1 = m2.
Proof.
  intros H1 H2 Heq. pose proof (member_text_net m1 H1) as C1. pose proof (member_text_net m2 H2) as C2.
  destruct m1 as [a1 p1 q1|c1|a1], m2 as [a2 p2 q2|c2|a2]; cbn [member_ok] in *.
  - destruct H1 as (A1&U1&P1&Q1), H2 as (A2&U2&P2&Q2). unfold memberText in Heq. rewrite !ToProtobufFormat_port in Heq by done.
    apply (split_unique ",") in Heq as [Ha Heq]; [|by apply chars_lacks, Addr_String_chars..]. apply Addr_String_inj in Ha as ->; [|done..].
    apply (split_unique ":") in Heq as [Hp Heq]; [|by apply protoName_lacks..]. apply protoName_inj in Hp as ->; [|done..]. apply (inj pretty) in Heq.
    by replace p1 with p2 by lia.
  - destruct H1 as (_&_&_&Q1). rewrite <- Heq, port_text_comma in C2; done.
  - destruct H1 as (_&_&_&Q1). rewrite <- Heq, port_text_comma in C2; done.
  - destruct H2 as (_&_&_&Q1). rewrite Heq, port_text_comma in C1; done.
  - destruct H1, H2. f_equal. by apply CIDR_String_inj.
  - exfalso. destruct H1 as [H1 Hs], H2. apply CIDR_String_inj in Heq as ->; [|done|by apply AsCIDR_net_ok]. by destruct a2.
  - destruct H2 as (_&_&_&Q1). rewrite Heq, port_text_comma in C1; done.
  - exfalso. destruct H2 as [H2 Hs], H1. apply CIDR_String_inj in Heq; [|by apply AsCIDR_net_ok|done]. subst c2. by destruct a1.
  - destruct H1, H2. apply CIDR_String_inj in Heq; [|by apply AsCIDR_net_ok..]. f_equal. by destruct a1, a2; simplify_eq/=.
Qed.

(** Two addresses that differ, but not in text: the reason for [unmapped]. *)
Example mapped_collision : memberText (ipPortProtoIPSetMember (V4Addr 16909060) 80 ProtocolTCP) = "1.2.3.4,tcp:80" ∧
  memberText (ipPortProtoIPSetMember (V6Addr 0 (65535 * 2 ^ 32 + 16909060)) 80 ProtocolTCP) = "1.2.3.4,tcp:80".
Proof. vm_compute. done. Qed.
