(* ===== verification/NetParse.v ===== *)
(** * How addresses are parsed: the [net] package, and the parsers of [felix/ip/ip_addr.go]

    [net.ParseIP] and [net.ParseCIDR], with [netip.ParseAddr] behind them, as they go through the
    text; then [FromString], [ParseCIDROrIP] and the like.  What they return is always in order,
    and what [String] prints is parsed back to the same address or CIDR. *)
From S2P Require Import Prelude ModelRule Tokenizer CIDR MemberDedup CIDRTrieSpec NamedPortCandidates NetIP NamedPortUpdates NetString.
From Stdlib Require Import Ascii.
From stdpp Require Import base list gmap numbers strings pretty.
From stdpp Require Import options.
#[local] Open Scope Z_scope.

(** ** [netip.ParseAddr] *)
Definition decDigit (c : ascii) : option Z := let n := Z.of_nat (nat_of_ascii c) in if (48 <=? n) && (n <=? 57) then Some (n - 48) else None.

Definition hexDigit (c : ascii) : option Z :=
  let n := Z.of_nat (nat_of_ascii c) in
  if (48 <=? n) && (n <=? 57) then Some (n - 48)
  else if (97 <=? n) && (n <=? 102) then Some (n - 87)
  else if (65 <=? n) && (n <=? 70) then Some (n - 55) else None.

(** The loop of [parseIPv4Fields]; [start] is set at the first character and after a dot. *)
Fixpoint ipv4Loop (s : string) (start : bool) (val : Z) (digLen : nat) (fields : list Z) : option (list Z) :=
  match s with
  | "" => if (length fields <? 3)%nat then None else Some (fields ++ [val])
  | String c s' =>
      match decDigit c with
      | Some d =>
          if (digLen =? 1)%nat && (val =? 0) then None
          else if 255 <? val * 10 + d then None else ipv4Loop s' false (val * 10 + d) (S digLen) fields
      | None =>
          if decide (c = "."%char) then
            if start || bool_decide (s' = "") then None
            else if (length fields =? 3)%nat then None else ipv4Loop s' true 0 0 (fields ++ [val])
          else None
      end
  end.

Definition parseIPv4 (s : string) : option NetIP := ipv4Loop s true 0 0 [].

(** The digits of one group: how many, their value, and what follows. *)
Fixpoint hexRun (s : string) (off : nat) (acc : Z) : option (nat * Z * string) :=
  match s with
  | "" => Some (off, acc, s)
  | String c s' =>
      match hexDigit c with
      | Some d => if (3 <? off)%nat then None else if 65535 <? acc * 16 + d then None else hexRun s' (S off) (acc * 16 + d)
      | None => Some (off, acc, s)
      end
  end.

(** The loop of [parseIPv6]: [n] more groups fit into the address. *)
Fixpoint ipv6Loop (n : nat) (s : string) (ip : NetIP) (ellipsis : option nat) : option (string * NetIP * option nat) :=
  match n with
  | O => Some (s, ip, ellipsis)
  | S n' =>
      match hexRun s 0 0 with
      | None | Some (O, _, _) => None
      | Some (_, acc, rest) =>
          let ip' := ip ++ [acc / 256; acc mod 256] in
          match rest with
          | "" => Some ("", ip', ellipsis)
          | String c rest' =>
              if decide (c = "."%char) then
                if bool_decide (ellipsis = None) && negb (length ip =? 12)%nat then None
                else if (16 <? length ip + 4)%nat then None
                else match parseIPv4 s with Some fields => Some ("", ip ++ fields, ellipsis) | None => None end
              else if decide (c = ":"%char) then
                match rest' with
                | "" => None
                | String d rest'' =>
                    if decide (d = ":"%char) then
                      match ellipsis with
                      | Some _ => None
                      | None => if decide (rest'' = "") then Some ("", ip', Some (length ip')) else ipv6Loop n' rest'' ip' (Some (length ip'))
                      end
                    else ipv6Loop n' rest' ip' ellipsis
                end
              else None
          end
      end
  end.

(** A zone makes [net.ParseIP] and [net.ParseCIDR] fail. *)
Definition parseIPv6 (s : string) : option NetIP :=
  if negb (lacks "%"%char s) then None else
  let '(s, ellipsis) := match s with String c (String d s') => if decide (c = ":"%char ∧ d = ":"%char) then (s', Some 0%nat) else (s, None) | _ => (s, None) end in
  if decide (s = "" ∧ ellipsis = Some 0%nat) then Some (replicate 16 0) else
  match ipv6Loop 8 s [] ellipsis with
  | None => None
  | Some (rest, ip, ellipsis) =>
      if decide (rest ≠ "") then None
      else if (length ip <? 16)%nat then
        match ellipsis with None => None | Some e => Some (take e ip ++ replicate (16 - length ip) 0 ++ drop e ip) end
      else match ellipsis with None => Some ip | Some _ => None end
  end.

(** An IPv4 address is four bytes, an IPv6 address sixteen. *)
Fixpoint parseAddrLoop (t s : string) : option NetIP :=
  match t with
  | "" => None
  | String c t' =>
      if decide (c = "."%char) then parseIPv4 s
      else if decide (c = ":"%char) then parseIPv6 s
      else if decide (c = "%"%char) then None else parseAddrLoop t' s
  end.

Definition ParseAddr (s : string) : option NetIP := parseAddrLoop s s.

Definition As16 (ip : NetIP) : NetIP := if decide (length ip = 4%nat) then v4InV6Prefix ++ ip else ip.

(** ** [net] *)
Definition ParseIP (s : string) : option NetIP := As16 <$> ParseAddr s.

(** [dtoi], of all of the text. *)
Fixpoint dtoi (s : string) (n : Z) : option Z :=
  match s with
  | "" => Some n
  | String c s' => match decDigit c with Some d => if 16777215 <=? n * 10 + d then None else dtoi s' (n * 10 + d) | None => None end
  end.

(** The network of the CIDR. *)
Definition ParseCIDR (s : string) : option IPNet_ :=
  match splitAtByte "/"%char s with
  | None => None
  | Some (addr, mask) =>
      match ParseAddr addr with
      | None => None
      | Some ip =>
          let bitLen := 8 * Z.of_nat (length ip) in
          match (if decide (mask = "") then None else dtoi mask 0) with
          | None => None
          | Some n =>
              if bitLen <? n then None
              else let m := CIDRMask n bitLen in Some (MkIPNet (default [] (Mask (As16 ip) m)) m)
          end
      end
  end.

(** ** [felix/ip] *)
Definition FromString (s : string) : option Addr := FromNetIP (default [] (ParseIP s)).

Definition FromIPOrCIDRString (s : string) : option Addr :=
  FromNetIP (default [] (ParseIP (match splitAtByte "/"%char s with Some (s1, _) => s1 | None => s end))).

(** [Fail] is an error that is returned. *)
Definition infallible {A} (o : outcome Empty_set A) : outcome () A := match o with Ret a => Ret a | Fail e => match e with end | Panic => Panic | OutOfFuel => OutOfFuel end.

Definition CIDRFromString (s : string) : outcome () CIDR :=
  match ParseCIDR s with None => Fail () | Some net => infallible (CIDRFromIPNet net) end.

Definition ParseCIDROrIP (s : string) : outcome () CIDR :=
  if lacks "/"%char s then match ParseIP s with None => Fail () | Some ip => infallible (CIDRFromNetIP ip) end
  else CIDRFromString s.

Example parse_examples :
  FromString "10.1.2.3" = Some (V4Addr 167838211) ∧ FromString "::ffff:10.1.2.3" = Some (V4Addr 167838211) ∧ FromString "2001:DB8::1" = Some (V6Addr 2306139568115548160 1) ∧
  FromString "1:2:3:4:5:6:7:8" = Some (V6Addr 281483566841860 1407400653815816) ∧ FromString "::" = Some (V6Addr 0 0) ∧ FromString "1::" = Some (V6Addr 281474976710656 0) ∧
  ParseCIDROrIP "10.1.2.3/24" = Ret (V4CIDR 167838208 24) ∧ ParseCIDROrIP "10.1.2.3" = Ret (V4CIDR 167838211 32) ∧ ParseCIDROrIP "2001:db8::1/32" = Ret (V6CIDR 2306139568115548160 0 32).
Proof. vm_compute. done. Qed.

Example parse_errors :
  forallb (λ s, bool_decide (FromString s = None))
    [""; "1.2.3"; "1.2.3.4.5"; "01.2.3.4"; "256.1.1.1"; "1..2.3"; ".1.2.3"; "1.2.3."; "example.com"; "1:2:3:4:5:6:7"; "1:2:3:4:5:6:7:8:9"; "1::2::3"; ":1::"; "12345::"; "fe80::1%eth0"; "1:2:3:4:5:6:7::8"; "1:"; "::1.2.3"] = true ∧
  forallb (λ s, match ParseCIDROrIP s with Fail _ => true | _ => false end) ["10.0.0.0/33"; "10.0.0.0/"; "10.0.0.0/a"; "::/129"; "/8"; "host/8"] = true.
Proof. split; vm_compute; reflexivity. Qed.

(** ** What is parsed is in order *)
Lemma decDigit_ok c d : decDigit c = Some d → 0 <= d <= 9.
Proof. unfold decDigit. destruct ((48 <=? _) && _) eqn:Hb; [|done]. apply andb_true_iff in Hb as [?%Z.leb_le ?%Z.leb_le]. intros [= <-]. lia. Qed.

Lemma hexDigit_ok c d : hexDigit c = Some d → 0 <= d <= 15.
Proof.
  unfold hexDigit. destruct ((48 <=? _) && _) eqn:H1; [|destruct ((97 <=? _) && _) eqn:H2; [|destruct ((65 <=? _) && _) eqn:H3; [|done]]];
    intros [= <-]; repeat match goal with H : _ && _ = true |- _ => apply andb_true_iff in H as [?%Z.leb_le ?%Z.leb_le] end; lia.
Qed.

Lemma ipv4Loop_ok s : ∀ start val digLen fields r, ipv4Loop s start val digLen fields = Some r → 0 <= val <= 255 → bytes_ok fields → (length fields <= 3)%nat →
  bytes_ok r ∧ length r = 4%nat.
Proof.
  induction s as [|c s IH]; intros start val digLen fields r; cbn [ipv4Loop].
  - destruct (Nat.ltb_spec (length fields) 3); [done|]. intros [= <-] Hv Hf Hl. split; [|rewrite length_app; cbn; lia].
    apply Forall_app. split; [done|]. apply list.Forall_cons. split; [unfold word_ok; lia|constructor].
  - destruct (decDigit c) as [d|] eqn:Hd.
    + apply decDigit_ok in Hd. destruct (_ && _); [done|]. destruct (Z.ltb_spec 255 (val * 10 + d)); [done|]. intros Hr Hv. apply (IH _ _ _ _ _ Hr). lia.
    + destruct (decide _); [|done]. destruct (start || _); [done|]. destruct (Nat.eqb_spec (length fields) 3); [done|]. intros Hr Hv Hf Hl. apply (IH _ _ _ _ _ Hr); [lia| |rewrite length_app; cbn; lia].
      apply Forall_app. split; [done|]. apply list.Forall_cons. split; [unfold word_ok; lia|constructor].
Qed.

Lemma hexRun_ok s : ∀ off acc off' acc' rest, hexRun s off acc = Some (off', acc', rest) → 0 <= acc <= 65535 → 0 <= acc' <= 65535.
Proof.
  induction s as [|c s IH]; intros off acc off' acc' rest; cbn [hexRun]; [by intros [= <- <- <-]|]. destruct (hexDigit c) as [d|] eqn:Hd; [|by intros [= <- <- <-]].
  apply hexDigit_ok in Hd. destruct (_ <? off)%nat; [done|]. destruct (Z.ltb_spec 65535 (acc * 16 + d)); [done|]. intros Hr Ha. apply (IH _ _ _ _ _ Hr). lia.
Qed.

Lemma group_ok acc : 0 <= acc <= 65535 → bytes_ok [acc / 256; acc mod 256].
Proof. intros Ha. repeat (apply list.Forall_cons; split); [..|constructor]; unfold word_ok; Z.to_euclidean_division_equations; lia. Qed.

Lemma ipv6Loop_ok n : ∀ s ip e rest ip' e', ipv6Loop n s ip e = Some (rest, ip', e') → bytes_ok ip → (length ip + 2 * n = 16)%nat → bytes_ok ip' ∧ (length ip' <= 16)%nat.
Proof.
  induction n as [|n IH]; intros s ip e rest ip' e'; cbn [ipv6Loop]; [intros [= <- <- <-]; split; [done|lia]|].
  destruct (hexRun s 0 0) as [[[off acc] r]|] eqn:Hh; [|done]. destruct off as [|off]; [done|]. apply hexRun_ok in Hh; [|lia]. intros Hr Hip Hl.
  assert (Hip' : bytes_ok (ip ++ [acc / 256; acc mod 256])) by (apply Forall_app; split; [done|by apply group_ok]).
  assert (Hl' : length (ip ++ [acc / 256; acc mod 256]) = (length ip + 2)%nat) by (by rewrite length_app).
  set (ip1 := ip ++ [acc / 256; acc mod 256]) in *. destruct r as [|c r]; [injection Hr as <- <- <-; split; [done|lia]|]. destruct (decide (c = "."%char)).
  - destruct (_ && _); [done|]. destruct (Nat.ltb_spec 16 (length ip + 4)); [done|]. unfold parseIPv4 in Hr. destruct (ipv4Loop s true 0 0 []) as [fields|] eqn:H4; [|done].
    injection Hr as <- <- <-. apply ipv4Loop_ok in H4 as [Hf Hfl]; [|lia|constructor|cbn; lia]. split; [by apply Forall_app|rewrite length_app; lia].
  - destruct (decide (c = ":"%char)); [|done]. destruct r as [|d r]; [done|]. destruct (decide (d = ":"%char)); [|apply (IH _ _ _ _ _ _ Hr Hip'); lia].
    destruct e; [done|]. destruct (decide (r = "")); [injection Hr as <- <- <-; split; [done|lia]|]. apply (IH _ _ _ _ _ _ Hr Hip'). lia.
Qed.

Lemma zeros_ok n : bytes_ok (replicate n 0).
Proof. apply Forall_replicate. unfold word_ok. lia. Qed.

Lemma parseIPv6_ok s ip : parseIPv6 s = Some ip → bytes_ok ip ∧ length ip = 16%nat.
Proof.
  unfold parseIPv6. destruct (negb _); [done|]. set (st := match s with String _ (String _ _) => _ | _ => _ end). destruct st as [t e]. destruct (decide _).
  { intros [= <-]. split; [exact (zeros_ok 16)|done]. }
  destruct (ipv6Loop 8 t [] e) as [[[rest ip1] e1]|] eqn:Hl; [|done]. apply ipv6Loop_ok in Hl as [Hb Hlen]; [|constructor|done].
  destruct (decide _); [done|]. destruct (Nat.ltb_spec (length ip1) 16) as [Hlt|Hge].
  - destruct e1 as [e1|]; [|done]. intros [= <-]. split; [|rewrite !length_app, length_replicate, length_take, length_drop; lia].
    repeat (apply Forall_app; split); [by apply Forall_take|apply zeros_ok|by apply Forall_drop].
  - destruct e1; [done|]. intros [= <-]. split; [done|lia].
Qed.

Lemma ParseAddr_ok s ip : ParseAddr s = Some ip → bytes_ok ip ∧ (length ip = 4%nat ∨ length ip = 16%nat).
Proof.
  unfold ParseAddr. assert (H : ∀ t, parseAddrLoop t s = Some ip → bytes_ok ip ∧ (length ip = 4%nat ∨ length ip = 16%nat)); [|apply H].
  induction t as [|c t IH]; cbn [parseAddrLoop]; [done|]. destruct (decide (c = "."%char)).
  - intros [? ?]%ipv4Loop_ok; [by auto|lia|constructor|cbn; lia].
  - destruct (decide (c = ":"%char)); [intros [? ?]%parseIPv6_ok; by auto|]. destruct (decide _); [done|apply IH].
Qed.

Lemma As16_ok ip : bytes_ok ip → length ip = 4%nat ∨ length ip = 16%nat → bytes_ok (As16 ip) ∧ length (As16 ip) = 16%nat ∧ (length ip = 4%nat → isMapped (As16 ip) = true).
Proof.
  intros Hb Hl. unfold As16. destruct (decide (length ip = 4%nat)) as [H4|H4].
  - split_and!; [|rewrite length_app, H4; done|]. { apply Forall_app. split; [|done]. unfold v4InV6Prefix. repeat (apply list.Forall_cons; split); try constructor; unfold word_ok; lia. }
    intros _. unfold isMapped. apply bool_decide_eq_true. split; [rewrite length_app, H4; done|]. by rewrite take_app_length'.
  - split_and!; [done|lia|done].
Qed.

Lemma ParseIP_ok s ip : ParseIP s = Some ip → bytes_ok ip ∧ length ip = 16%nat.
Proof. unfold ParseIP. destruct (ParseAddr s) as [ip0|] eqn:Hp; [|done]. intros [= <-]. destruct (ParseAddr_ok s ip0 Hp) as [Hb Hl]. by destruct (As16_ok ip0 Hb Hl) as (?&?&_). Qed.

(** Sixteen bytes make an address that prints as one of its version. *)
Lemma FromNetIP_16 ip : bytes_ok ip → length ip = 16%nat → ∃ a, FromNetIP ip = Some a ∧ addr_ok a ∧ unmapped a.
Proof.
  intros Hb Hl. destruct (isMapped ip) eqn:Hm.
  - rewrite FromNetIP_mapped by done. eexists. split; [done|]. split; [|done]. pose proof (be_bound (drop 12 ip) ltac:(by apply Forall_drop)) as Hbe.
    rewrite length_drop, Hl in Hbe. exact Hbe.
  - rewrite FromNetIP_unmapped by auto. eexists. split; [done|]. destruct (bytesAddr_ok ip Hb) as [Ha _]; [by right|]. split; [done|].
    unfold unmapped, bytesAddr. rewrite decide_False by lia. cbn [AsCIDR Addr_Version]. by rewrite unmapped_colon.
Qed.

Lemma FromString_ok s a : FromString s = Some a → addr_ok a ∧ unmapped a.
Proof.
  unfold FromString. destruct (ParseIP s) as [ip|] eqn:Hp; [|done]. cbn [default from_option id]. apply ParseIP_ok in Hp as [Hb Hl].
  destruct (FromNetIP_16 ip Hb Hl) as (a'&->&Ha&Hu). by intros [= <-].
Qed.

(** Without a slash, [ParseCIDROrIP] is [FromString]. *)
Lemma ParseCIDROrIP_plain s : lacks "/"%char s = true → ParseCIDROrIP s = match FromString s with Some a => Ret (AsCIDR a) | None => Fail () end.
Proof.
  intros Hs. unfold ParseCIDROrIP, FromString, CIDRFromNetIP. rewrite Hs. destruct (ParseIP s) as [ip|] eqn:Hp; [|done]. cbn [default from_option id].
  apply ParseIP_ok in Hp as [Hb Hl]. by destruct (FromNetIP_16 ip Hb Hl) as (a'&->&_).
Qed.

(** ** What is printed is parsed back *)
(** *** IPv4 *)
(** The digits of one field. *)
Fixpoint decScan (s : string) (val : Z) (digLen : nat) : option (Z * nat) :=
  match s with
  | "" => Some (val, digLen)
  | String c s' =>
      match decDigit c with
      | Some d => if (digLen =? 1)%nat && (val =? 0) then None else if 255 <? val * 10 + d then None else decScan s' (val * 10 + d) (S digLen)
      | None => None
      end
  end.

Lemma ipv4Loop_scan s rest fields : ∀ start val dig v d, decScan s val dig = Some (v, d) →
  ipv4Loop (s +:+ rest) start val dig fields = ipv4Loop rest (if decide (s = "") then start else false) v d fields.
Proof.
  induction s as [|c s IH]; intros start val dig v d; cbn [decScan]; [by intros [= <- <-]; rewrite string_app_nil_l|]. rewrite string_app_cons. cbn [ipv4Loop].
  destruct (decDigit c); [|done]. destruct (_ && _); [done|]. destruct (_ <? _); [done|]. intros Hs. rewrite (IH false _ _ v d Hs). by destruct (decide (s = "")).
Qed.

Lemma decimal_scan x : word_ok 8 x → ∃ d, decScan (decimal x) 0 0 = Some (x, d).
Proof.
  intros Hx. assert (Hb : allBelow 256 (λ x, match decScan (decimal x) 0 0 with Some (v, _) => v =? x | None => false end) = true) by (vm_compute; reflexivity).
  apply (allBelow_spec _ _ x) in Hb; [|unfold word_ok in Hx; lia]. cbv beta in Hb. destruct (decScan (decimal x) 0 0) as [[v d]|]; [|done]. apply Z.eqb_eq in Hb as ->. by eexists.
Qed.

Lemma ipv4Loop_field x rest fields : word_ok 8 x → rest ≠ "" → (length fields < 3)%nat →
  ipv4Loop (decimal x +:+ String "." rest) true 0 0 fields = ipv4Loop rest true 0 0 (fields ++ [x]).
Proof.
  intros Hx Hr Hl. destruct (decimal_scan x Hx) as [d Hd]. rewrite (ipv4Loop_scan _ _ _ _ _ _ _ _ Hd). rewrite decide_False by (by apply numeral_ne, decimal_ok).
  cbn [ipv4Loop]. change (decDigit ".") with (@None Z). rewrite decide_True by done. rewrite bool_decide_eq_false_2 by done. cbn [orb].
  by destruct (Nat.eqb_spec (length fields) 3); [lia|].
Qed.

Lemma parse_string4 ip : bytes_ok ip → length ip = 4%nat → parseIPv4 (string4 ip) = Some ip.
Proof.
  intros Hb Hl. destruct ip as [|x1 [|x2 [|x3 [|x4 [|]]]]]; try done. unfold bytes_ok in Hb. rewrite !list.Forall_cons in Hb. destruct Hb as (H1&H2&H3&H4&_).
  unfold parseIPv4, string4. cbn [fmap list_fmap]. rewrite !sepBy_cons. assert (Hne : ∀ s t, s +:+ String "." t ≠ "") by (by intros [|c s] t; rewrite ?string_app_nil_l, ?string_app_cons).
  rewrite !ipv4Loop_field by (done || cbn; lia || (by apply Hne) || (by apply numeral_ne, decimal_ok)).
  destruct (decimal_scan x4 H4) as [d Hd]. rewrite <- (string_app_nil_r (decimal x4)), (ipv4Loop_scan _ _ _ _ _ _ _ _ Hd). done.
Qed.

(** *** IPv6 *)
Fixpoint hexScan (s : string) (off : nat) (acc : Z) : option (nat * Z) :=
  match s with
  | "" => Some (off, acc)
  | String c s' =>
      match hexDigit c with
      | Some d => if (3 <? off)%nat then None else if 65535 <? acc * 16 + d then None else hexScan s' (S off) (acc * 16 + d)
      | None => None
      end
  end.

Lemma hexRun_scan s rest : ∀ off acc off' acc', hexScan s off acc = Some (off', acc') → hexRun (s +:+ rest) off acc = hexRun rest off' acc'.
Proof.
  induction s as [|c s IH]; intros off acc off' acc'; cbn [hexScan]; [by intros [= <- <-]; rewrite string_app_nil_l|]. rewrite string_app_cons. cbn [hexRun].
  destruct (hexDigit c); [|done]. destruct (_ <? _)%nat; [done|]. destruct (_ <? _); [done|]. apply IH.
Qed.

Lemma hex_scan x : word_ok 16 x → ∃ off, hexScan (hex x) 0 0 = Some (S off, x).
Proof.
  intros [Hx0 Hx].
  assert (Hb : allBelow 256 (λ a, allBelow 256 (λ b, let x := 256 * a + b in match hexScan (hex x) 0 0 with Some (S _, v) => v =? x | _ => false end)) = true) by (vm_compute; reflexivity).
  pose proof (Z.div_mod x 256 ltac:(lia)) as Hd. pose proof (Z.mod_pos_bound x 256 ltac:(lia)) as Hm.
  assert (Hq : 0 <= x / 256 < 256) by (split; [by apply Z.div_pos|apply Z.div_lt_upper_bound; [lia|exact Hx]]).
  apply (allBelow_spec _ _ (x / 256)) in Hb; [|exact Hq]. apply (allBelow_spec _ _ (x mod 256)) in Hb; [|exact Hm]. cbv beta zeta in Hb.
  rewrite <- Hd in Hb. destruct (hexScan (hex x) 0 0) as [[[|off] v]|]; [done| |done]. apply Z.eqb_eq in Hb as ->. by eexists.
Qed.

(** One group at the end, before a colon, and before the gap. *)
Lemma ipv6Loop_last n g ip e : word_ok 16 g → ipv6Loop (S n) (hex g) ip e = Some ("", ip ++ [g / 256; g mod 256], e).
Proof.
  intros Hg. destruct (hex_scan g Hg) as [off Hs]. rewrite <- (string_app_nil_r (hex g)). cbn [ipv6Loop]. by rewrite (hexRun_scan _ _ _ _ _ _ Hs).
Qed.

Lemma ipv6Loop_colon n g d r ip e : word_ok 16 g →
  ipv6Loop (S n) (hex g +:+ String ":" (String d r)) ip e =
    if decide (d = ":"%char) then match e with Some _ => None | None =>
      let ip' := ip ++ [g / 256; g mod 256] in if decide (r = "") then Some ("", ip', Some (length ip')) else ipv6Loop n r ip' (Some (length ip')) end
    else ipv6Loop n (String d r) (ip ++ [g / 256; g mod 256]) e.
Proof. intros Hg. destruct (hex_scan g Hg) as [off Hs]. cbn [ipv6Loop]. by rewrite (hexRun_scan _ _ _ _ _ _ Hs). Qed.

Lemma hex_head g : word_ok 16 g → ∃ c s, hex g = String c s ∧ c ≠ ":"%char.
Proof.
  intros Hg. destruct (hex_ok g Hg) as [Hn _]. pose proof (numeral_ne _ Hn) as Hne. pose proof (numeral_lacks ":" _ eq_refl Hn) as Hl. destruct (hex g) as [|c s]; [done|].
  exists c, s. split; [done|]. intros ->. by rewrite lacks_self in Hl.
Qed.

Lemma ungroup_cons g gs : ungroup (g :: gs) = [g / 256; g mod 256] ++ ungroup gs.
Proof. done. Qed.

Lemma ungroup_length gs : length (ungroup gs) = (2 * length gs)%nat.
Proof. induction gs as [|g gs IH]; [done|]. rewrite ungroup_cons, length_app, IH. cbn. lia. Qed.

(** Groups up to the end, or up to the gap. *)
Lemma ipv6Loop_groups gs : gs ≠ [] → Forall (word_ok 16) gs → ∀ n ip e, (length gs <= n)%nat →
  ipv6Loop n (sepBy ":" (hex <$> gs)) ip e = Some ("", ip ++ ungroup gs, e) ∧
  ∀ r, ipv6Loop n (sepBy ":" (hex <$> gs) +:+ "::" +:+ r) ip None =
    let ip' := ip ++ ungroup gs in if decide (r = "") then Some ("", ip', Some (length ip')) else ipv6Loop (n - length gs) r ip' (Some (length ip')).
Proof.
  induction gs as [|g gs IH]; [done|]. intros _ [Hg Hgs]%list.Forall_cons n ip e Hn. destruct n as [|n]; [cbn in Hn; lia|]. cbn [length] in Hn. rewrite fmap_cons, sepBy_cons, ungroup_cons.
  destruct gs as [|g' gs].
  - cbn [fmap list_fmap]. split; [by apply ipv6Loop_last|]. intros r. change ("::" +:+ r) with (String ":" (String ":" r)). rewrite ipv6Loop_colon by done. rewrite decide_True by done.
    cbn [length]. by rewrite Nat.sub_succ, Nat.sub_0_r.
  - pose proof Hgs as [Hg' _]%list.Forall_cons. destruct (hex_head g' Hg') as (c&s&Hc&Hne). set (text := sepBy ":" (hex <$> g' :: gs)) in *.
    assert (Htext : ∃ t, text = String c t) by (unfold text; rewrite fmap_cons, sepBy_cons, Hc; destruct (hex <$> gs); by eexists). destruct Htext as [t Ht].
    rewrite fmap_cons. cbn [length]. rewrite Nat.sub_succ, (assoc_L (++)). destruct (IH ltac:(done) Hgs n (ip ++ [g / 256; g mod 256]) e ltac:(lia)) as [IH1 IH2].
    rewrite Ht in *. split; [by rewrite ipv6Loop_colon, decide_False|]. intros r. rewrite string_app_assoc, (string_app_cons ":"), (string_app_cons c t).
    rewrite ipv6Loop_colon, decide_False by done. rewrite <- (string_app_cons c t). apply IH2.
Qed.

Lemma zeroRun_long gs : ∀ i best, (∀ s e, best = Some (s, e) → (s + 2 <= e)%nat) → ∀ s e, zeroRun i gs best = Some (s, e) → (s + 2 <= e)%nat.
Proof.
  induction gs as [|g gs IH]; intros i best Hbest s e; [apply Hbest|]. change (zeroRun i (g :: gs) best) with (zeroRun (S i) gs (if (2 <=? leadingZeros (g :: gs))%nat &&
    match best with Some (s, e) => (e - s <? leadingZeros (g :: gs))%nat | None => true end then Some (i, (i + leadingZeros (g :: gs))%nat) else best)).
  apply IH. intros s' e'. destruct (Nat.leb_spec 2 (leadingZeros (g :: gs))) as [Hl|Hl]; cbn [andb]; [|apply Hbest]. destruct (match best with Some _ => _ | None => _ end); [|apply Hbest].
  intros [= <- <-]. change (if g =? 0 then S (leadingZeros gs) else 0%nat) with (leadingZeros (g :: gs)). lia.
Qed.

Lemma ungroup_zeros n : ungroup (replicate n 0) = replicate (2 * n) 0.
Proof. induction n as [|n IH]; [done|]. rewrite replicate_S, ungroup_cons, IH. replace (2 * S n)%nat with (2 + 2 * n)%nat by lia. by rewrite replicate_add. Qed.

Lemma ungroup_app l1 l2 : ungroup (l1 ++ l2) = ungroup l1 ++ ungroup l2.
Proof. unfold ungroup. by rewrite bind_app. Qed.

(** Text that starts with a digit does not start with the gap. *)
Lemma sides_head gs t : gs ≠ [] → Forall (word_ok 16) gs → ∃ c s, sepBy ":" (hex <$> gs) +:+ t = String c s ∧ c ≠ ":"%char.
Proof.
  destruct gs as [|g gs]; [done|]. intros _ [Hg _]%list.Forall_cons. destruct (hex_head g Hg) as (c&s&Hc&Hne). rewrite fmap_cons, sepBy_cons, Hc.
  destruct (hex <$> gs); rewrite !string_app_cons; by eexists _, _.
Qed.

Lemma no_gap c t : c ≠ ":"%char →
  match t with "" => (String c t, None) | String d s' => if decide (c = ":"%char ∧ d = ":"%char) then (s', Some 0%nat) else (String c t, None) end = (String c t, None).
Proof. intros Hc. destruct t; [done|]. by rewrite decide_False by tauto. Qed.

Lemma stringGroups_percent gs : Forall (word_ok 16) gs → lacks "%" (stringGroups gs) = true.
Proof. intros Hg. by apply chars_lacks, stringGroups_chars. Qed.

Lemma parse_stringGroups gs : length gs = 8%nat → Forall (word_ok 16) gs → parseIPv6 (stringGroups gs) = Some (ungroup gs).
Proof.
  intros Hlen Hgs. unfold parseIPv6. rewrite stringGroups_percent by done. cbn [negb]. unfold stringGroups. destruct (zeroRun 0 gs None) as [[s e]|] eqn:Hrun.
  - assert (Hz : zeros_at gs s e) by (eapply (zeroRun_spec gs gs 0%nat None); [done|done|exact Hrun]). pose proof (zeros_split _ _ _ Hz) as Hsplit. destruct Hz as [Hl _].
    assert (Hlong : (s + 2 <= e)%nat) by (by eapply (zeroRun_long gs 0 None)).
    assert (Hpre : Forall (word_ok 16) (take s gs)) by (by apply Forall_take). assert (Hpost : Forall (word_ok 16) (drop e gs)) by (by apply Forall_drop).
    assert (L1 : length (take s gs) = s) by (rewrite length_take; lia). assert (L2 : length (drop e gs) = (8 - e)%nat) by (rewrite length_drop; lia).
    assert (Hres : ungroup gs = ungroup (take s gs) ++ replicate (2 * (e - s)) 0 ++ ungroup (drop e gs)) by (rewrite Hsplit at 1; by rewrite !ungroup_app, ungroup_zeros).
    set (pre := take s gs) in *. set (post := drop e gs) in *. rewrite Hres. clear Hres Hsplit Hrun.
    assert (Hdone : ∀ ip, ip = ungroup pre ++ ungroup post → (if (length ip <? 16)%nat then Some (take (2 * s) ip ++ replicate (16 - length ip) 0 ++ drop (2 * s) ip) else None) =
      Some (ungroup pre ++ replicate (2 * (e - s)) 0 ++ ungroup post)).
    { intros ip ->. rewrite length_app, !ungroup_length, L1, L2. destruct (Nat.ltb_spec (2 * s + 2 * (8 - e)) 16); [|lia].
      assert (Hu : length (ungroup pre) = (2 * s)%nat) by (rewrite ungroup_length; lia). rewrite <- Hu, take_app_length, drop_app_length. repeat f_equal. lia. }
    destruct (decide (pre = [])) as [Hp|Hp].
    + rewrite Hp in *. cbn in L1. subst s. cbn [fmap list_fmap sepBy]. rewrite string_app_nil_l, !string_app_cons, string_app_nil_l. rewrite decide_True by done.
      destruct (decide (post = [])) as [Hq|Hq].
      * rewrite Hq in *. cbn in L2. cbn [fmap list_fmap sepBy]. rewrite decide_True by done. cbn [ungroup mbind list_bind app]. rewrite app_nil_r. f_equal. f_equal. lia.
      * destruct (sides_head post "" Hq Hpost) as (c&t&Hc&_). rewrite string_app_nil_r in Hc. rewrite decide_False by (rewrite Hc; by intros []).
        destruct (ipv6Loop_groups post Hq Hpost 8 [] (Some 0%nat)) as [-> _]; [lia|]. rewrite decide_False by tauto. specialize (Hdone (ungroup post) eq_refl).
        rewrite app_nil_l. by destruct (length (ungroup post) <? 16)%nat.
    + destruct (sides_head pre ("::" +:+ sepBy ":" (hex <$> post)) Hp Hpre) as (c&t&Hc&Hne). rewrite Hc, (no_gap c t Hne), <- Hc. rewrite decide_False by (intros [_ ?]; done).
      destruct (ipv6Loop_groups pre Hp Hpre 8 [] None) as [_ ->]; [lia|]. cbn zeta. rewrite app_nil_l, ungroup_length, L1. destruct (decide (post = [])) as [Hq|Hq].
      * rewrite Hq in *. cbn [fmap list_fmap sepBy]. rewrite decide_True by done. rewrite decide_False by tauto. specialize (Hdone (ungroup pre)). rewrite app_nil_r in Hdone.
        specialize (Hdone eq_refl). by destruct (length (ungroup pre) <? 16)%nat.
      * destruct (sides_head post "" Hq Hpost) as (c'&t'&Hc'&_). rewrite string_app_nil_r in Hc'. rewrite decide_False by (by rewrite Hc').
        destruct (ipv6Loop_groups post Hq Hpost (8 - s) (ungroup pre) (Some (2 * s)%nat)) as [-> _]; [lia|]. rewrite decide_False by tauto. specialize (Hdone _ eq_refl).
        by destruct (length (ungroup pre ++ ungroup post) <? 16)%nat.
  - assert (Hne : gs ≠ []) by (by destruct gs). destruct (sides_head gs "" Hne Hgs) as (c&t&Hc&Hcc). rewrite string_app_nil_r in Hc. rewrite Hc, (no_gap c t Hcc), <- Hc. rewrite decide_False by (intros [_ ?]; done). destruct (ipv6Loop_groups gs Hne Hgs 8 [] None) as [-> _]; [lia|]. rewrite decide_False by tauto.
    rewrite app_nil_l, ungroup_length, Hlen. done.
Qed.

(** *** Both *)
(** The first separator decides. *)
Lemma parseAddrLoop_skip s t full : lacks "." s = true → lacks ":" s = true → lacks "%" s = true → parseAddrLoop (s +:+ t) full = parseAddrLoop t full.
Proof.
  induction s as [|c s IH]; [by rewrite string_app_nil_l|]. rewrite string_app_cons. unfold lacks in *. cbn [string_forallb parseAddrLoop].
  rewrite !andb_true_iff, !bool_decide_eq_true. intros [H1 ?] [H2 ?] [H3 ?]. rewrite !decide_False by done. by apply IH.
Qed.

Lemma numeral_skip s t full : numeral s = true → parseAddrLoop (s +:+ t) full = parseAddrLoop t full.
Proof. intros Hn. by apply parseAddrLoop_skip; apply numeral_lacks. Qed.

Lemma ParseAddr_string4 ip : bytes_ok ip → length ip = 4%nat → ParseAddr (string4 ip) = Some ip.
Proof.
  intros Hb Hl. rewrite <- (parse_string4 ip Hb Hl). unfold ParseAddr. generalize (string4 ip) at 2 3. intros full. destruct ip as [|x1 [|x2 ip]]; [done|done|].
  apply list.Forall_cons in Hb as [H1 _]. unfold string4. rewrite !fmap_cons, sepBy_cons. rewrite numeral_skip by (by apply decimal_ok). done.
Qed.

Lemma ParseAddr_stringGroups gs : length gs = 8%nat → Forall (word_ok 16) gs → ParseAddr (stringGroups gs) = Some (ungroup gs).
Proof.
  intros Hl Hgs. rewrite <- (parse_stringGroups gs Hl Hgs). unfold ParseAddr. generalize (stringGroups gs) at 2 3. intros full. unfold stringGroups.
  assert (Hside : ∀ l t, Forall (word_ok 16) l → (2 <= length l)%nat ∨ (∃ r, t = "::" +:+ r) → parseAddrLoop (sepBy ":" (hex <$> l) +:+ t) full = parseIPv6 full).
  { intros l t Hok Hcase. destruct l as [|g l]; [destruct Hcase as [Hn|[r ->]]; [cbn in Hn; lia|done]|]. apply list.Forall_cons in Hok as [Hg _]. rewrite fmap_cons, sepBy_cons.
    destruct l as [|g' l]; [destruct Hcase as [Hn|[r ->]]; [cbn in Hn; lia|]|]; cbn [fmap list_fmap]; rewrite ?string_app_assoc, numeral_skip by (by apply hex_ok); done. }
  destruct (zeroRun 0 gs None) as [[s e]|].
  - apply Hside; [by apply Forall_take|right; by eexists].
  - rewrite <- (string_app_nil_r (sepBy ":" (hex <$> gs))). apply Hside; [done|left; lia].
Qed.

(** The bytes of an address are read back. *)
Lemma ParseAddr_String a : addr_ok a → unmapped a → ParseAddr (Addr_String a) = Some (AsNetIP a).
Proof.
  intros Ha Hu. pose proof (Addr_String_cases a Ha Hu) as Hs. pose proof (AsNetIP_length a) as Hl. destruct (AsNetIP_ok a) as [Hb _]. destruct a as [a|h l]; rewrite Hs.
  - by apply ParseAddr_string4.
  - destruct (groups_ok (AsNetIP (V6Addr h l)) Hb) as (Hg&Hun&Hn); [rewrite Hl; by exists 8%nat|]. rewrite Hl in Hn. rewrite ParseAddr_stringGroups by done. by rewrite Hun.
Qed.

Lemma FromNetIP_As16 a : addr_ok a → unmapped a → FromNetIP (As16 (AsNetIP a)) = Some a.
Proof.
  intros Ha Hu. pose proof (AsNetIP_length a) as Hl. destruct (AsNetIP_ok a) as [Hb _]. pose proof (bytesAddr_AsNetIP a Ha) as Hback. destruct a as [a|h l].
  - destruct (As16_ok (AsNetIP (V4Addr a)) Hb) as (_&Hl16&Hm); [by left|]. rewrite FromNetIP_mapped by auto. unfold bytesAddr in Hback. rewrite decide_True in Hback by done.
    unfold As16. rewrite decide_True by done. rewrite drop_app_length'; [by rewrite Hback|done].
  - unfold As16. rewrite decide_False by (by rewrite Hl). rewrite FromNetIP_unmapped; [by rewrite Hback|].
    right. split; [done|]. rewrite isMapped_AsNetIP by done. unfold unmapped in Hu. cbn [AsCIDR Addr_Version] in Hu. by rewrite Hu.
Qed.

Lemma FromString_String a : addr_ok a → unmapped a → FromString (Addr_String a) = Some a.
Proof. intros Ha Hu. unfold FromString, ParseIP. rewrite ParseAddr_String by done. by apply FromNetIP_As16. Qed.

Lemma dtoi_pretty n : 0 <= n <= 128 → dtoi (pretty (Z.to_N n)) 0 = Some n ∧ pretty (Z.to_N n) ≠ "".
Proof.
  intros Hn. assert (Hb : allBelow 129 (λ n, bool_decide (dtoi (pretty (Z.to_N n)) 0 = Some n) && negb (bool_decide (pretty (Z.to_N n) = ""))) = true) by (vm_compute; reflexivity).
  apply (allBelow_spec _ _ n) in Hb; [|lia]. apply andb_true_iff in Hb as [H1%bool_decide_eq_true H2%negb_true_iff%bool_decide_eq_false]. done.
Qed.

(** Masking the sixteen bytes masks the bytes of the address. *)
Lemma Mask_As16 ip n : bytes_ok ip → length ip = 4%nat ∨ length ip = 16%nat → Mask (As16 ip) (maskBytes (length ip) n) = Some (zip_with Z.land ip (maskBytes (length ip) n)).
Proof.
  intros Hb Hl. destruct (As16_ok ip Hb Hl) as (_&Hl16&Hm). unfold Mask. rewrite (bool_decide_eq_false_2 (length (As16 ip) = 4%nat)) by lia. rewrite andb_false_r. cbn [andb].
  rewrite maskBytes_length. destruct Hl as [H4|H16].
  - rewrite bool_decide_eq_true_2, (Hm H4) by done. cbn [andb]. unfold As16. rewrite (decide_True (P := length ip = 4%nat)) by done. rewrite drop_app_length' by done. by rewrite decide_True by (by rewrite H4).
  - rewrite bool_decide_eq_false_2 by lia. cbn [andb]. unfold As16. rewrite (decide_False (P := length ip = 4%nat)) by lia. by rewrite decide_True by done.
Qed.

Lemma CIDRMask_bytes n l : 0 <= n <= 8 * Z.of_nat l → l = 4%nat ∨ l = 16%nat → CIDRMask n (8 * Z.of_nat l) = maskBytes l (Z.to_nat n).
Proof.
  intros Hn Hl. unfold CIDRMask. rewrite decide_False by (destruct Hl; subst; lia). rewrite decide_False by lia. f_equal. rewrite Z.mul_comm, Z.div_mul by done. lia.
Qed.

Lemma CIDRFromString_String c : net_ok c → CIDRFromString (CIDR_String c) = Ret c.
Proof.
  intros Hc. destruct (net_ok_unmapped c Hc) as (Ha&Hu&Hp0). destruct Hc as [Hok Hcol]. pose proof (co_prefix _ Hok) as Hp. set (a := AddrOf c) in *. set (n := Prefix c) in *.
  destruct (AsNetIP_ok a) as [Hb Hw]. pose proof (AsNetIP_length a) as Hla. assert (Hl : length (AsNetIP a) = 4%nat ∨ length (AsNetIP a) = 16%nat) by (destruct a; auto).
  assert (Hback : bytesAddr (AsNetIP a) = a) by (by apply bytesAddr_AsNetIP). destruct (bytesAddr_ok (AsNetIP a) Hb Hl) as (_&Hbits&Hwid). rewrite Hback in Hbits, Hwid.
  assert (Hn : 0 <= n <= 8 * Z.of_nat (length (AsNetIP a))) by lia.
  unfold CIDRFromString, ParseCIDR. assert (Hsplit : splitAtByte "/" (CIDR_String c) = Some (Addr_String a, pretty (Z.to_N n))).
  { apply splitAtByte_spec. split; [done|]. by apply chars_lacks, Addr_String_chars. }
  rewrite Hsplit, ParseAddr_String by done. destruct (dtoi_pretty n) as [Hd Hne]; [lia|]. rewrite decide_False, Hd by done. destruct (Z.ltb_spec (8 * Z.of_nat (length (AsNetIP a))) n); [lia|].
  rewrite CIDRMask_bytes, Mask_As16 by (done || lia). cbn [default from_option id]. set (ip := AsNetIP a) in *. set (m := maskBytes (length ip) (Z.to_nat n)) in *.
  assert (Hml : length m = length ip) by apply maskBytes_length. assert (Hzl : length (zip_with Z.land ip m) = length ip) by (rewrite length_zip_with; lia).
  assert (Hz : bytesBits (zip_with Z.land ip m) = take (Z.to_nat n) (bytesBits ip) ++ replicate (8 * length ip - Z.to_nat n) false) by (apply masked_bytes; lia).
  destruct (CIDRFromIPNet_ok (MkIPNet (zip_with Z.land ip m) m) (Z.to_nat n)) as (c'&->&Hc'&Hv&Hpre&Hbits').
  { unfold ipnet_ok. cbn [net_IP net_Mask]. rewrite Hml, Hzl. split_and!; [apply zip_land_ok; [done|apply maskBytes_ok]|done|lia|]. destruct Hl as [H4|H16]; [by left|right; right]. split_and!; [done|done|].
    unfold m. rewrite H16. intros Hmap. apply mapped_masked in Hmap as [Hmap _]; [|done|done]. exfalso. unfold ip in Hmap. destruct a as [a0|h l]; [done|]. rewrite isMapped_AsNetIP in Hmap by done.
    unfold unmapped in Hu. cbn [AsCIDR Addr_Version] in Hu. by rewrite Hu in Hmap. }
  cbn [infallible]. f_equal. unfold netBytes in Hv, Hbits'. cbn [net_IP net_Mask] in Hv, Hbits'. rewrite decide_True in Hv, Hbits' by lia. apply bitsOf_inj; [|apply Hc'|done|].
  - rewrite Hv, <- Version_AddrOf. fold a. unfold bytesAddr. rewrite Hzl. rewrite Hla. by destruct a.
  - rewrite Hbits', Hz, <- Hbits. rewrite take_app_le by (rewrite length_take, Hbits, bytesBits_length; lia). by rewrite take_take, Nat.min_id.
Qed.

(** C37: What [String] prints is parsed back: an address (one that is not an IPv4 address in IPv6 form)
    by [FromString] and [ParseCIDROrIP], and a canonical CIDR by [ParseCIDROrIP].  The parsers
    go through the text as [netip] does, with its checks of every field and group. *)
Theorem text_roundtrip (a : Addr) (c : CIDR) : addr_ok a → unmapped a → net_ok c →
  FromString (Addr_String a) = Some a ∧ ParseCIDROrIP (Addr_String a) = Ret (AsCIDR a) ∧ ParseCIDROrIP (CIDR_String c) = Ret c.
Proof.
  intros Ha Hu Hc. pose proof (FromString_String a Ha Hu) as Hf. split_and!; [done| |].
  - rewrite ParseCIDROrIP_plain, Hf; [done|]. by apply chars_lacks, Addr_String_chars.
  - unfold ParseCIDROrIP. unfold CIDR_String at 1. rewrite !lacks_app, lacks_self. rewrite andb_false_r. by apply CIDRFromString_String.
Qed.

Lemma text_roundtrip_witness :
  FromString "2001:db8::1" = Some (V6Addr 2306139568115548160 1) ∧ ParseCIDROrIP "2001:db8::1" = Ret (V6CIDR 2306139568115548160 1 128) ∧ ParseCIDROrIP "10.1.0.0/16" = Ret (V4CIDR 167837696 16).
Proof.
  apply (text_roundtrip (V6Addr 2306139568115548160 1) (V4CIDR 167837696 16)); [split; unfold word_ok; lia|reflexivity|].
  split; [|reflexivity]. split; [cbn; unfold word_ok; lia|cbn; lia|reflexivity].
Defined.
