(* ===== verification/RuleConvert.v ===== *)
(** * Rules as protobuf messages: [felix/calc/rule_convert.go]

    The rules of a policy are sent to the dataplane as [proto.Rule] messages (the types of
    [felixbackend.proto]): networks become text, numbers become [int32], the optional ICMP fields
    become a [oneof].  Each rule gets an identifier, a hash that chains in the identifiers of the
    rules before it.  The hash function and the encoding of a message ([proto.Marshal], which
    fails on text that is not UTF-8) are parameters. *)
From S2P Require Import Prelude ModelRule CIDR MemberDedup NamedPortIndex NetIP NetString PolicySorter RuleScanner.
From Stdlib Require Import Ascii.
From stdpp Require Import base list gmap numbers strings pretty.
From stdpp Require Import options.

(** ** [felixbackend.proto] *)
Inductive IPVersion := IPVersion_ANY | IPVersion_IPV4 | IPVersion_IPV6.
Inductive ProtoProtocol := Protocol_Number (n : Z) | Protocol_Name (name : string).
Record PortRange := MkPortRange { First : Z; Last : Z }.
Inductive ProtoIcmp := IcmpType (t : Z) | IcmpTypeCode (t code : Z).
Record ServiceAccountMatch := MkServiceAccountMatch { sam_Selector : string; sam_Names : list string }.
Inductive PathMatch := PathMatch_Exact (path : string) | PathMatch_Prefix (path : string).
Record ProtoHTTPMatch := MkProtoHTTPMatch { hm_Methods : list string; hm_Paths : list PathMatch }.

Record ProtoRule := MkProtoRule {
  pr_Action : string;
  pr_IpVersion : IPVersion;
  pr_Protocol : option ProtoProtocol;
  pr_SrcNet : list string;
  pr_SrcPorts : list PortRange;
  pr_SrcNamedPortIpSetIds : list string;
  pr_DstNet : list string;
  pr_DstPorts : list PortRange;
  pr_DstNamedPortIpSetIds : list string;
  pr_Icmp : option ProtoIcmp;
  pr_SrcIpSetIds : list string;
  pr_DstIpSetIds : list string;
  pr_DstIpPortSetIds : list string;
  pr_NotProtocol : option ProtoProtocol;
  pr_NotSrcNet : list string;
  pr_NotSrcPorts : list PortRange;
  pr_NotDstNet : list string;
  pr_NotDstPorts : list PortRange;
  pr_NotIcmp : option ProtoIcmp;
  pr_NotSrcIpSetIds : list string;
  pr_NotDstIpSetIds : list string;
  pr_NotSrcNamedPortIpSetIds : list string;
  pr_NotDstNamedPortIpSetIds : list string;
  pr_OriginalSrcSelector : string;
  pr_OriginalDstSelector : string;
  pr_OriginalSrcNamespaceSelector : string;
  pr_OriginalDstNamespaceSelector : string;
  pr_OriginalNotSrcSelector : string;
  pr_OriginalNotDstSelector : string;
  pr_OriginalSrcService : string;
  pr_OriginalSrcServiceNamespace : string;
  pr_OriginalDstService : string;
  pr_OriginalDstServiceNamespace : string;
  pr_SrcServiceAccountMatch : option ServiceAccountMatch;
  pr_DstServiceAccountMatch : option ServiceAccountMatch;
  pr_HttpMatch : option ProtoHTTPMatch;
  pr_Metadata : option (gmap string string);
  pr_RuleId : string
}.

Definition set_RuleId (id : string) (r : ProtoRule) : ProtoRule :=
  MkProtoRule (pr_Action r) (pr_IpVersion r) (pr_Protocol r) (pr_SrcNet r) (pr_SrcPorts r) (pr_SrcNamedPortIpSetIds r)
    (pr_DstNet r) (pr_DstPorts r) (pr_DstNamedPortIpSetIds r) (pr_Icmp r) (pr_SrcIpSetIds r) (pr_DstIpSetIds r) (pr_DstIpPortSetIds r)
    (pr_NotProtocol r) (pr_NotSrcNet r) (pr_NotSrcPorts r) (pr_NotDstNet r) (pr_NotDstPorts r) (pr_NotIcmp r)
    (pr_NotSrcIpSetIds r) (pr_NotDstIpSetIds r) (pr_NotSrcNamedPortIpSetIds r) (pr_NotDstNamedPortIpSetIds r)
    (pr_OriginalSrcSelector r) (pr_OriginalDstSelector r) (pr_OriginalSrcNamespaceSelector r) (pr_OriginalDstNamespaceSelector r)
    (pr_OriginalNotSrcSelector r) (pr_OriginalNotDstSelector r) (pr_OriginalSrcService r) (pr_OriginalSrcServiceNamespace r)
    (pr_OriginalDstService r) (pr_OriginalDstServiceNamespace r) (pr_SrcServiceAccountMatch r) (pr_DstServiceAccountMatch r)
    (pr_HttpMatch r) (pr_Metadata r) id.

(** ** Fields *)
(** The conversion [int32(x)]. *)
Definition int32 (x : Z) : Z := ((x + 2 ^ 31) mod 2 ^ 32 - 2 ^ 31)%Z.

(** [numorstring.Protocol.String]. *)
Definition ModelProtocol_String (p : ModelProtocol) : string :=
  match Type_ p with NumOrStringString => StrVal p | NumOrStringNum => pretty (Z.to_N (NumVal p)) end.

Definition ipVersionToProtoIPVersion (version : option Z) (p : option ModelProtocol) : IPVersion :=
  match version with
  | None =>
      match p with
      | None => IPVersion_ANY
      | Some p =>
          if decide (ModelProtocol_String p = "icmp") then IPVersion_IPV4
          else if decide (ModelProtocol_String p = "icmpv6") then IPVersion_IPV6 else IPVersion_ANY
      end
  | Some v => if decide (v = 4%Z) then IPVersion_IPV4 else if decide (v = 6%Z) then IPVersion_IPV6 else IPVersion_ANY
  end.

Definition protocolToProtoProtocol (p : option ModelProtocol) : option ProtoProtocol :=
  (λ p, match Type_ p with NumOrStringNum => Protocol_Number (int32 (NumVal p)) | NumOrStringString => Protocol_Name (StrVal p) end) <$> p.

Definition ipNetsToProtoStrings (nets : list IPNet_) : list string := IPNet_String <$> nets.

Definition portToProtoPort (p : Port) : PortRange := MkPortRange (int32 (MinPort p)) (int32 (MaxPort p)).
Definition portsToProtoPorts (ports : list Port) : list PortRange := portToProtoPort <$> ports.

(** The code is dropped when there is no type. *)
Definition icmpToProto (type_ code : option Z) : option ProtoIcmp :=
  match type_, code with
  | Some t, Some c => Some (IcmpTypeCode (int32 t) (int32 c))
  | Some t, None => Some (IcmpType (int32 t))
  | None, _ => None
  end.

Definition serviceAccountMatch (names : list string) (sel : string) : option ServiceAccountMatch :=
  if decide (names ≠ [] ∨ sel ≠ "") then Some (MkServiceAccountMatch sel names) else None.

(** A path that is neither exact nor a prefix is ignored. *)
Definition pathToProto (p : HTTPPath) : option PathMatch :=
  if decide (http_Exact p ≠ "") then Some (PathMatch_Exact (http_Exact p))
  else if decide (http_Prefix p ≠ "") then Some (PathMatch_Prefix (http_Prefix p)) else None.

Definition httpMatchToProto (m : HTTPMatch) : ProtoHTTPMatch := MkProtoHTTPMatch (http_Methods m) (omap pathToProto (http_Paths m)).

Definition parsedRuleToProtoRule (r : ParsedRule) : ProtoRule := {|
  pr_Action := parsed_Action r;
  pr_IpVersion := ipVersionToProtoIPVersion (parsed_IPVersion r) (parsed_Protocol r);
  pr_Protocol := protocolToProtoProtocol (parsed_Protocol r);
  pr_SrcNet := ipNetsToProtoStrings (parsed_SrcNets r);
  pr_SrcPorts := portsToProtoPorts (parsed_SrcPorts r);
  pr_SrcNamedPortIpSetIds := parsed_SrcNamedPortIPSetIDs r;
  pr_DstNet := ipNetsToProtoStrings (parsed_DstNets r);
  pr_DstPorts := portsToProtoPorts (parsed_DstPorts r);
  pr_DstNamedPortIpSetIds := parsed_DstNamedPortIPSetIDs r;
  pr_Icmp := icmpToProto (parsed_ICMPType r) (parsed_ICMPCode r);
  pr_SrcIpSetIds := parsed_SrcIPSetIDs r;
  pr_DstIpSetIds := parsed_DstIPSetIDs r;
  pr_DstIpPortSetIds := parsed_DstIPPortSetIDs r;
  pr_NotProtocol := protocolToProtoProtocol (parsed_NotProtocol r);
  pr_NotSrcNet := ipNetsToProtoStrings (parsed_NotSrcNets r);
  pr_NotSrcPorts := portsToProtoPorts (parsed_NotSrcPorts r);
  pr_NotDstNet := ipNetsToProtoStrings (parsed_NotDstNets r);
  pr_NotDstPorts := portsToProtoPorts (parsed_NotDstPorts r);
  pr_NotIcmp := icmpToProto (parsed_NotICMPType r) (parsed_NotICMPCode r);
  pr_NotSrcIpSetIds := parsed_NotSrcIPSetIDs r;
  pr_NotDstIpSetIds := parsed_NotDstIPSetIDs r;
  pr_NotSrcNamedPortIpSetIds := parsed_NotSrcNamedPortIPSetIDs r;
  pr_NotDstNamedPortIpSetIds := parsed_NotDstNamedPortIPSetIDs r;
  pr_OriginalSrcSelector := parsed_OriginalSrcSelector r;
  pr_OriginalDstSelector := parsed_OriginalDstSelector r;
  pr_OriginalSrcNamespaceSelector := parsed_OriginalSrcNamespaceSelector r;
  pr_OriginalDstNamespaceSelector := parsed_OriginalDstNamespaceSelector r;
  pr_OriginalNotSrcSelector := parsed_OriginalNotSrcSelector r;
  pr_OriginalNotDstSelector := parsed_OriginalNotDstSelector r;
  pr_OriginalSrcService := parsed_OriginalSrcService r;
  pr_OriginalSrcServiceNamespace := parsed_OriginalSrcServiceNamespace r;
  pr_OriginalDstService := parsed_OriginalDstService r;
  pr_OriginalDstServiceNamespace := parsed_OriginalDstServiceNamespace r;
  pr_SrcServiceAccountMatch := serviceAccountMatch (parsed_OriginalSrcServiceAccountNames r) (parsed_OriginalSrcServiceAccountSelector r);
  pr_DstServiceAccountMatch := serviceAccountMatch (parsed_OriginalDstServiceAccountNames r) (parsed_OriginalDstServiceAccountSelector r);
  pr_HttpMatch := httpMatchToProto <$> parsed_HTTPMatch r;
  pr_Metadata := parsed_Metadata r ≫= rm_Annotations;
  pr_RuleId := ""
|}.

(** ** Identifiers of rules *)
Definition RuleIDLength : nat := 16.

(** [base64.RawURLEncoding]: six bits a character, no padding. *)
Definition base64Char (n : N) : ascii :=
  (if n <? 26 then ascii_of_N (65 + n) else if n <? 52 then ascii_of_N (71 + n) else if n <? 62 then ascii_of_N (n - 4)
   else if n =? 62 then "-" else "_")%N%char.

Fixpoint base64 (s : string) : string :=
  match s with
  | "" => ""
  | String a "" => let x := (N_of_ascii a * 16)%N in String (base64Char (x / 64)) (String (base64Char (x mod 64)) "")
  | String a (String b "") =>
      let x := ((N_of_ascii a * 256 + N_of_ascii b) * 4)%N in
      String (base64Char (x / 4096)) (String (base64Char (x / 64 mod 64)) (String (base64Char (x mod 64)) ""))
  | String a (String b (String c s')) =>
      let x := ((N_of_ascii a * 256 + N_of_ascii b) * 256 + N_of_ascii c)%N in
      String (base64Char (x / 262144)) (String (base64Char (x / 4096 mod 64)) (String (base64Char (x / 64 mod 64)) (String (base64Char (x mod 64)) (base64 s'))))
  end.

Example base64_hello : base64 "Hello, w" = "SGVsbG8sIHc".
Proof. reflexivity. Qed.

Section ids.
Context (Sum224 : string → string) (Marshal : ProtoRule → option string).

(** Slicing a text that is too short panics. *)
Definition ruleID (hash : string) : outcome Empty_set string :=
  let id := base64 hash in if (RuleIDLength <=? String.length id)%nat then Ret (String.substring 0 RuleIDLength id) else Panic.

(** The loop of [fillInRuleIDs]; each hash chains in the previous one. *)
Fixpoint fillIn (hash : string) (rules : list ProtoRule) : outcome Empty_set (list ProtoRule) :=
  match rules with
  | [] => Ret []
  | rule :: rules' =>
      match Marshal (set_RuleId "" rule) with
      | None => Panic
      | Some data =>
          let hash' := Sum224 (hash +:+ data) in
          let! id := ruleID hash' in
          let! rest := fillIn hash' rules' in
          Ret (set_RuleId id rule :: rest)
      end
  end.

Definition fillInRuleIDs (rules : list ProtoRule) (ruleIDSeed : string) : outcome Empty_set (list ProtoRule) := fillIn (Sum224 ruleIDSeed) rules.

Definition parsedRulesToProtoRules (rules : list ParsedRule) (ruleIDSeed : string) : outcome Empty_set (list ProtoRule) :=
  fillInRuleIDs (parsedRuleToProtoRule <$> rules) ruleIDSeed.
End ids.
