(* ===== verification/ProtoMessages.v ===== *)
(** * Messages to the dataplane: [felix/proto/felixbackend.proto] and [felix/calc/event_sequencer.go]

    The messages that the event sequencer sends, with all their fields, and the conversions from
    the objects of the data model to them: policies, profiles, workload and host endpoints,
    pools, and the tiers of an endpoint, which are split by the kind of their policies. *)
From S2P Require Import Prelude ModelRule UniqueLabels CIDR MemberDedup NetIP NetString PolicySorter RuleScanner RuleConvert.
From Stdlib Require Import Ascii.
From stdpp Require Import base list gmap numbers strings pretty.
From stdpp Require Import options.

(** ** Tiers *)
(** A [proto.PolicyID] has the fields of the key. *)
Record ProtoTierInfo := MkProtoTierInfo {
  pt_Name : string;
  pt_IngressPolicies : list PolicyKey;
  pt_EgressPolicies : list PolicyKey;
  pt_DefaultAction : string
}.

Definition addPolicyToTierInfo (pol : PolKV) (egressAllowed : bool) (t : ProtoTierInfo) : ProtoTierInfo :=
  let t1 := if GovernsIngress pol
            then MkProtoTierInfo (pt_Name t) (pt_IngressPolicies t ++ [kv_Key pol]) (pt_EgressPolicies t) (pt_DefaultAction t) else t in
  if egressAllowed && GovernsEgress pol
  then MkProtoTierInfo (pt_Name t1) (pt_IngressPolicies t1) (pt_EgressPolicies t1 ++ [kv_Key pol]) (pt_DefaultAction t1) else t1.

Section tiers.
Context {PT : Type}.
Abbreviation TierInfo := (TierInfo (PT := PT)).

Record TierSplit (A : Type) := MkTierSplit { ts_normal : A; ts_untracked : A; ts_preDNAT : A; ts_forward : A }.
Arguments MkTierSplit {A}. Arguments ts_normal {A}. Arguments ts_untracked {A}. Arguments ts_preDNAT {A}. Arguments ts_forward {A}.

(** The body of the loop over the policies of a tier. *)
Definition splitPolicy (s : TierSplit ProtoTierInfo) (pol : PolKV) : TierSplit ProtoTierInfo :=
  let '(MkTierSplit normal untracked preDNAT forward) := s in
  if DoNotTrack (Some (kv_Value pol)) then MkTierSplit normal (addPolicyToTierInfo pol true untracked) preDNAT forward
  else if PreDNAT (Some (kv_Value pol)) then MkTierSplit normal untracked (addPolicyToTierInfo pol false preDNAT) forward
  else MkTierSplit (addPolicyToTierInfo pol true normal) untracked preDNAT
         (if ApplyOnForward (Some (kv_Value pol)) then addPolicyToTierInfo pol true forward else forward).

Definition splitTier (ti : TierInfo) : TierSplit ProtoTierInfo :=
  let pass := MkProtoTierInfo (ti_Name ti) [] [] "Pass" in
  let own := MkProtoTierInfo (ti_Name ti) [] [] (ti_DefaultAction ti) in
  foldl splitPolicy (MkTierSplit own pass pass own) (ti_OrderedPolicies ti).

Definition keepTier (t : ProtoTierInfo) : list ProtoTierInfo :=
  if decide (pt_IngressPolicies t ≠ [] ∨ pt_EgressPolicies t ≠ []) then [t] else [].

Definition tierInfoToProtoTierInfo (filteredTiers : list TierInfo) : TierSplit (list ProtoTierInfo) :=
  let splits := splitTier <$> filteredTiers in
  MkTierSplit (splits ≫= λ s, keepTier (ts_normal s)) (splits ≫= λ s, keepTier (ts_untracked s))
    (splits ≫= λ s, keepTier (ts_preDNAT s)) (splits ≫= λ s, keepTier (ts_forward s)).
End tiers.
#[global] Arguments MkTierSplit {A}. #[global] Arguments ts_normal {A}. #[global] Arguments ts_untracked {A}.
#[global] Arguments ts_preDNAT {A}. #[global] Arguments ts_forward {A}.

(** ** Endpoints of the data model *)
Record DSCP := MkDSCP { dscp_Type : NumOrStringType; dscp_NumVal : Z; dscp_StrVal : string }.

Record QoSControls := MkQoSControls {
  qos_IngressBandwidth : Z; qos_IngressBurst : Z; qos_IngressPeakrate : Z; qos_IngressMinburst : Z;
  qos_EgressBandwidth : Z; qos_EgressBurst : Z; qos_EgressPeakrate : Z; qos_EgressMinburst : Z;
  qos_IngressPacketRate : Z; qos_IngressPacketBurst : Z; qos_EgressPacketRate : Z; qos_EgressPacketBurst : Z;
  qos_IngressMaxConnections : Z; qos_EgressMaxConnections : Z;
  qos_DSCP : option DSCP
}.

Record IPNAT := MkIPNAT { nat_IntIP : NetIP; nat_ExtIP : NetIP }.

(** The fields of the endpoints that are sent. *)
Record WorkloadEndpoint := MkWorkloadEndpoint {
  wep_State : string;
  wep_Name : string;
  wep_Mac : option (list Z);
  wep_ProfileIDs : list string;
  wep_IPv4Nets : list IPNet_;
  wep_IPv6Nets : list IPNet_;
  wep_IPv4NAT : list IPNAT;
  wep_IPv6NAT : list IPNAT;
  wep_Labels : uniquelabels.Map;
  wep_AllowSpoofedSourcePrefixes : list IPNet_;
  wep_Annotations : gmap string string;
  wep_QoSControls : option QoSControls
}.

Record HostEndpoint := MkHostEndpoint {
  hep_Name : string;
  hep_ExpectedIPv4Addrs : list NetIP;
  hep_ExpectedIPv6Addrs : list NetIP;
  hep_ProfileIDs : list string;
  hep_QoSControls : option QoSControls
}.

Inductive ModelEndpoint := Workload (ep : WorkloadEndpoint) | Host (ep : HostEndpoint).

Inductive ModelEndpointKey :=
  | WorkloadEndpointKey (Hostname OrchestratorID WorkloadID EndpointID : string)
  | HostEndpointKey (Hostname EndpointID : string).

#[global] Instance ModelEndpointKey_eq_dec : EqDecision ModelEndpointKey.
Proof. solve_decision. Defined.
#[global] Instance ModelEndpointKey_countable : Countable ModelEndpointKey.
Proof.
  refine (inj_countable' (λ k, match k with WorkloadEndpointKey h o w e => inl (h, o, w, e) | HostEndpointKey h e => inr (h, e) end)
            (λ s, match s with inl (h, o, w, e) => WorkloadEndpointKey h o w e | inr (h, e) => HostEndpointKey h e end) _).
  by intros [].
Defined.

(** *** [DSCP.ToUint8] *)
(** [strconv.ParseUint(s, 10, 8)]: decimal digits, at least one, at most 255. *)
Fixpoint parseDigits (acc : N) (s : string) : option N :=
  match s with
  | "" => Some acc
  | String c s' => let d := N_of_ascii c in if ((48 <=? d) && (d <=? 57))%N then parseDigits (acc * 10 + (d - 48)) s' else None
  end.
Definition ParseUint8 (s : string) : option Z :=
  if decide (s = "") then None else match parseDigits 0 s with Some n => if (n <=? 255)%N then Some (Z.of_N n) else None | None => None end.

(** [strings.ToUpper], on text that may be a key of [AllDSCPValues]: ASCII letters, and the long s
    (U+017F, bytes C5 BF), which is the only other character that becomes one of their letters. *)
Definition upperByte (c : ascii) : ascii := if ((97 <=? N_of_ascii c) && (N_of_ascii c <=? 122))%N then ascii_of_N (N_of_ascii c - 32) else c.
Fixpoint ToUpper (s : string) : string :=
  match s with
  | "" => ""
  | String c s' =>
      match s' with
      | String d s'' => if decide (c = "197"%char ∧ d = "191"%char) then String "S" (ToUpper s'') else String (upperByte c) (ToUpper s')
      | "" => String (upperByte c) ""
      end
  end.

Definition AllDSCPValues : gmap string Z :=
  list_to_map [("DF", 0); ("EF", 46); ("AF11", 10); ("AF12", 12); ("AF13", 14); ("AF21", 18); ("AF22", 20); ("AF23", 22); ("AF31", 26);
    ("AF32", 28); ("AF33", 30); ("AF41", 34); ("AF42", 36); ("AF43", 38); ("CS0", 0); ("CS1", 8); ("CS2", 16);
    ("CS3", 24); ("CS4", 32); ("CS5", 40); ("CS6", 48)]%Z.

(** [Uint8OrString.NumValue]; [None] is an error. *)
Definition DSCP_NumValue (d : DSCP) : option Z :=
  match dscp_Type d with NumOrStringString => ParseUint8 (dscp_StrVal d) | NumOrStringNum => Some (dscp_NumVal d) end.

Definition ToUint8 (d : DSCP) : Z :=
  match DSCP_NumValue d with
  | Some v => v
  | None => default 0%Z (AllDSCPValues !! ToUpper (TrimSpace (dscp_StrVal d)))
  end.

(** ** Endpoints as messages *)
Record ProtoQoSControls := MkProtoQoSControls {
  pq_IngressBandwidth : Z; pq_EgressBandwidth : Z; pq_IngressBurst : Z; pq_EgressBurst : Z;
  pq_IngressPeakrate : Z; pq_EgressPeakrate : Z; pq_IngressMinburst : Z; pq_EgressMinburst : Z;
  pq_IngressPacketRate : Z; pq_EgressPacketRate : Z; pq_IngressPacketBurst : Z; pq_EgressPacketBurst : Z;
  pq_IngressMaxConnections : Z; pq_EgressMaxConnections : Z
}.

Record NatInfo := MkNatInfo { ni_ExtIp : string; ni_IntIp : string }.
Record SkipRedir := MkSkipRedir { sr_Ingress : bool; sr_Egress : bool }.
Inductive LiveMigrationRole := NO_ROLE | SOURCE | TARGET.

Record ProtoWorkloadEndpoint := MkProtoWorkloadEndpoint {
  pw_State : string;
  pw_Name : string;
  pw_Mac : string;
  pw_ProfileIds : list string;
  pw_Ipv4Nets : list string;
  pw_Ipv6Nets : list string;
  pw_Tiers : list ProtoTierInfo;
  pw_Ipv4Nat : list NatInfo;
  pw_Ipv6Nat : list NatInfo;
  pw_AllowSpoofedSourcePrefixes : list string;
  pw_Annotations : gmap string string;
  pw_QosControls : option ProtoQoSControls;
  pw_LocalBgpPeer : option string;
  pw_SkipRedir : option SkipRedir;
  pw_QosPolicies : list Z;
  pw_LiveMigrationVmiName : string;
  pw_IsIstioAmbient : bool;
  pw_LiveMigrationRole : LiveMigrationRole;
  pw_LiveMigrationUid : string
}.

Record ProtoHostEndpoint := MkProtoHostEndpoint {
  ph_Name : string;
  ph_ExpectedIpv4Addrs : list string;
  ph_ExpectedIpv6Addrs : list string;
  ph_ProfileIds : list string;
  ph_Tiers : list ProtoTierInfo;
  ph_UntrackedTiers : list ProtoTierInfo;
  ph_PreDnatTiers : list ProtoTierInfo;
  ph_ForwardTiers : list ProtoTierInfo;
  ph_QosPolicies : list Z
}.

(** The implementations of [EndpointComputedData]. *)
Inductive ComputedData := ComputedIstioEndpoint | liveMigrationRole (role : LiveMigrationRole) (uid : string).

Definition ApplyTo (cd : ComputedData) (w : ProtoWorkloadEndpoint) : ProtoWorkloadEndpoint :=
  let '(MkProtoWorkloadEndpoint a b c d e f g h i j k l m n o p ambient role uid) := w in
  match cd with
  | ComputedIstioEndpoint => MkProtoWorkloadEndpoint a b c d e f g h i j k l m n o p true role uid
  | liveMigrationRole role' uid' => MkProtoWorkloadEndpoint a b c d e f g h i j k l m n o p ambient role' uid'
  end.

Definition netsToStrings (nets : list IPNet_) : list string := IPNet_String <$> nets.
Definition ipsToStrings (ips : list NetIP) : list string := NetIP_String <$> ips.
Definition natsToProtoNatInfo (nats : list IPNAT) : list NatInfo := (λ n, MkNatInfo (NetIP_String (nat_ExtIP n)) (NetIP_String (nat_IntIP n))) <$> nats.

Definition isVMWorkload (labels : uniquelabels.Map) : bool := bool_decide (uniquelabels.GetString labels "kubevirt.io" = Some "virt-launcher").

Definition vmiNameFromLabels (labels : uniquelabels.Map) : string :=
  match uniquelabels.GetString labels "vmi.kubevirt.io/id" with
  | Some val => val
  | None => match uniquelabels.GetString labels "vm.kubevirt.io/name" with Some val => val | None => "" end
  end.

(** [net.HardwareAddr.String]. *)
Definition MAC_String (mac : list Z) : string := sepBy ":" ((λ b, hexBytes [b]) <$> mac).

Definition qosControlsToProto (q : QoSControls) : ProtoQoSControls :=
  MkProtoQoSControls (qos_IngressBandwidth q) (qos_EgressBandwidth q) (qos_IngressBurst q) (qos_EgressBurst q)
    (qos_IngressPeakrate q) (qos_EgressPeakrate q) (qos_IngressMinburst q) (qos_EgressMinburst q)
    (qos_IngressPacketRate q) (qos_EgressPacketRate q) (qos_IngressPacketBurst q) (qos_EgressPacketBurst q)
    (qos_IngressMaxConnections q) (qos_EgressMaxConnections q).

Definition qosPolicies (q : option QoSControls) : list Z :=
  match q ≫= qos_DSCP with Some d => [int32 (ToUint8 d)] | None => [] end.

(** The BPF redirect is skipped for virtual machines and for limited bandwidth. *)
Definition skipRedir (labels : uniquelabels.Map) (q : option QoSControls) : option SkipRedir :=
  let limited (bw rate : QoSControls → Z) := from_option (λ q, (0 <? bw q)%Z || (0 <? rate q)%Z) false q in
  let ingress := isVMWorkload labels || limited qos_IngressBandwidth qos_IngressPacketRate in
  let egress := limited qos_EgressBandwidth qos_EgressPacketRate in
  if ingress || egress then Some (MkSkipRedir ingress egress) else None.

Definition ModelWorkloadEndpointToProto (ep : WorkloadEndpoint) (computedData : list ComputedData) (peerData : option string)
    (tiers : list ProtoTierInfo) : ProtoWorkloadEndpoint :=
  let wep := {|
    pw_State := wep_State ep;
    pw_Name := wep_Name ep;
    pw_Mac := from_option MAC_String "" (wep_Mac ep);
    pw_ProfileIds := wep_ProfileIDs ep;
    pw_Ipv4Nets := netsToStrings (wep_IPv4Nets ep);
    pw_Ipv6Nets := netsToStrings (wep_IPv6Nets ep);
    pw_Tiers := tiers;
    pw_Ipv4Nat := natsToProtoNatInfo (wep_IPv4NAT ep);
    pw_Ipv6Nat := natsToProtoNatInfo (wep_IPv6NAT ep);
    pw_AllowSpoofedSourcePrefixes := netsToStrings (wep_AllowSpoofedSourcePrefixes ep);
    pw_Annotations := wep_Annotations ep;
    pw_QosControls := qosControlsToProto <$> wep_QoSControls ep;
    pw_LocalBgpPeer := peerData;
    pw_SkipRedir := skipRedir (wep_Labels ep) (wep_QoSControls ep);
    pw_QosPolicies := qosPolicies (wep_QoSControls ep);
    pw_LiveMigrationVmiName := vmiNameFromLabels (wep_Labels ep);
    pw_IsIstioAmbient := false;
    pw_LiveMigrationRole := NO_ROLE;
    pw_LiveMigrationUid := ""
  |} in
  foldl (λ w cd, ApplyTo cd w) wep computedData.

Definition ModelHostEndpointToProto (ep : HostEndpoint) (tiers untrackedTiers preDNATTiers forwardTiers : list ProtoTierInfo) : ProtoHostEndpoint := {|
  ph_Name := hep_Name ep;
  ph_ExpectedIpv4Addrs := ipsToStrings (hep_ExpectedIPv4Addrs ep);
  ph_ExpectedIpv6Addrs := ipsToStrings (hep_ExpectedIPv6Addrs ep);
  ph_ProfileIds := hep_ProfileIDs ep;
  ph_Tiers := tiers;
  ph_UntrackedTiers := untrackedTiers;
  ph_PreDnatTiers := preDNATTiers;
  ph_ForwardTiers := forwardTiers;
  ph_QosPolicies := qosPolicies (hep_QoSControls ep)
|}.

(** ** Policies and profiles *)
Record ProtoPolicy := MkProtoPolicy {
  pp_Tier : string;
  pp_Namespace : string;
  pp_InboundRules : list ProtoRule;
  pp_OutboundRules : list ProtoRule;
  pp_Untracked : bool;
  pp_PreDnat : bool;
  pp_OriginalSelector : string;
  pp_PerfHints : list string
}.

Record ProtoProfile := MkProtoProfile { pf_InboundRules : list ProtoRule; pf_OutboundRules : list ProtoRule }.

Section rules.
Context (Sum224 : string → string) (Marshal : ProtoRule → option string).

(** The policy of [ParsedRulesToActivePolicyUpdate]. *)
Definition ParsedRulesToActivePolicyUpdate (key : PolicyKey) (rules : ParsedRules) : outcome Empty_set ProtoPolicy :=
  let! inbound := parsedRulesToProtoRules Sum224 Marshal (prs_InboundRules rules) ("pol-in-default/" +:+ pk_Name key) in
  let! outbound := parsedRulesToProtoRules Sum224 Marshal (prs_OutboundRules rules) ("pol-out-default/" +:+ pk_Name key) in
  Ret (MkProtoPolicy (prs_Tier rules) (prs_Namespace rules) inbound outbound (prs_Untracked rules) (prs_PreDNAT rules)
    (prs_OriginalSelector rules) (prs_PerformanceHints rules)).

Definition profileToProto (name : string) (rules : ParsedRules) : outcome Empty_set ProtoProfile :=
  let! inbound := parsedRulesToProtoRules Sum224 Marshal (prs_InboundRules rules) ("prof-in-" +:+ name) in
  let! outbound := parsedRulesToProtoRules Sum224 Marshal (prs_OutboundRules rules) ("prof-out-" +:+ name) in
  Ret (MkProtoProfile inbound outbound).
End rules.

(** ** The other objects *)
Record Encapsulation := MkEncapsulation { IPIPEnabled : bool; VXLANEnabled : bool; VXLANEnabledV6 : bool; NoEncapNeeded : bool }.
Record HostInfo := MkHostInfo { ip4Addr : string; ip6Addr : string; hi_labels : gmap string string; asnumber : string }.

Record IPPool := MkIPPool { pool_CIDR : IPNet_; pool_Masquerade : bool; pool_IPIPMode : string; pool_VXLANMode : string; pool_AllowedUses : list string }.
Record ProtoIPAMPool := MkProtoIPAMPool { pi_Cidr : string; pi_Masquerade : bool; pi_IpipMode : string; pi_VxlanMode : string; pi_AllowedUses : list string }.

Definition poolToProto (p : IPPool) : ProtoIPAMPool :=
  MkProtoIPAMPool (IPNet_String (pool_CIDR p)) (pool_Masquerade p) (pool_IPIPMode p) (pool_VXLANMode p) (pool_AllowedUses p).

(** [strings.Replace(s, "/", "-", 1)]. *)
Fixpoint replaceSlash (s : string) : string :=
  match s with "" => "" | String c s' => if decide (c = "/"%char) then String "-" s' else String c (replaceSlash s') end.
Definition cidrToIPPoolID (cidr : CIDR) : string := replaceSlash (CIDR_String cidr).

(** [netip.Prefix]: the zero address has no value, and an invalid length is -1. *)
Record NetipPrefix := MkNetipPrefix { np_Addr : option Addr; np_Bits : Z }.

Definition maskAddr (a : Addr) (bits : Z) : Addr :=
  (match a with
   | V4Addr a => V4Addr (a - a mod 2 ^ (32 - bits))
   | V6Addr h l => let x := h * 2 ^ 64 + l in let y := x - x mod 2 ^ (128 - bits) in V6Addr (y / 2 ^ 64) (y mod 2 ^ 64)
   end)%Z.

Definition Masked (p : NetipPrefix) : NetipPrefix :=
  match np_Addr p with
  | None => MkNetipPrefix None (-1)
  | Some a =>
      if ((0 <=? np_Bits p) && (np_Bits p <=? Z.of_nat (addrWidth a)))%Z then MkNetipPrefix (Some (maskAddr a (np_Bits p))) (np_Bits p)
      else MkNetipPrefix None (-1)
  end.

Definition CIDRFromPrefix (p : NetipPrefix) : CIDR :=
  let p' := Masked p in
  match np_Addr p' with
  | Some (V4Addr a) => V4CIDR a (uint8 (np_Bits p'))
  | Some (V6Addr h l) => V6CIDR h l (uint8 (np_Bits p'))
  | None => V6CIDR 0 0 (uint8 (np_Bits p'))
  end.

Record Wireguard := MkWireguard { wg_InterfaceIPv4Addr : option NetIP; wg_PublicKey : string; wg_InterfaceIPv6Addr : option NetIP; wg_PublicKeyV6 : string }.

Record ProtoServiceAccountUpdate := MkServiceAccountUpdate { sau_Id : string * string; sau_Labels : gmap string string }.
Record ProtoNamespaceUpdate := MkNamespaceUpdate { nsu_Id : string; nsu_Labels : gmap string string }.

(** [types] is a bitmap of [RouteType]s. *)
Inductive IPPoolType := IPPoolType_NONE | IPPoolType_NO_ENCAP | IPPoolType_VXLAN | IPPoolType_IPIP.
Record TunnelType := MkTunnelType { tt_Ipip : bool; tt_Vxlan : bool; tt_Wireguard : bool }.
Record ProtoRouteUpdate := MkRouteUpdate {
  rt_Types : Z; rt_IpPoolType : IPPoolType; rt_Dst : string; rt_DstNodeName : string; rt_DstNodeIp : string;
  rt_SameSubnet : bool; rt_NatOutgoing : bool; rt_LocalWorkload : bool; rt_TunnelType : option TunnelType; rt_Borrowed : bool
}.

Record ProtoVTEPUpdate := MkVTEPUpdate {
  vt_Node : string; vt_Mac : string; vt_Ipv4Addr : string; vt_ParentDeviceIp : string;
  vt_MacV6 : string; vt_Ipv6Addr : string; vt_ParentDeviceIpv6 : string
}.

Record ServicePort := MkServicePort { sp_Protocol : string; sp_Port : Z; sp_NodePort : Z }.
Record ProtoServiceUpdate := MkServiceUpdate {
  svc_Name : string; svc_Namespace : string; svc_Type : string; svc_ClusterIps : list string; svc_LoadbalancerIp : string;
  svc_ExternalIps : list string; svc_Ports : list ServicePort; svc_LoadbalancerIngressIps : list string
}.

(** The fields of [v3.BGPConfigurationSpec] that are sent. *)
Record BGPConfiguration := MkBGPConfiguration {
  bgp_ServiceClusterIPs : list string; bgp_ServiceExternalIPs : list string; bgp_ServiceLoadBalancerIPs : list string;
  bgp_LocalWorkloadPeeringIPV4 : string; bgp_LocalWorkloadPeeringIPV6 : string
}.

Record ProtoGlobalBGPConfig := MkGlobalBGPConfig {
  gb_ServiceClusterCidrs : list string; gb_ServiceExternalCidrs : list string; gb_ServiceLoadbalancerCidrs : list string;
  gb_LocalWorkloadPeeringIpV4 : string; gb_LocalWorkloadPeeringIpV6 : string
}.

(** ** Messages *)
(** Messages with an identifier and an object; the content of a [ConfigUpdate] is a parameter. *)
Abbreviation WorkloadEndpointID := (string * string * string)%type.

Inductive Msg {ConfigUpdate : Type} :=
  | DatastoreNotReady
  | MsgConfigUpdate (c : ConfigUpdate)
  | IPSetUpdate (id : string) (members : list string) (t : IPSetType)
  | IPSetDeltaUpdate (id : string) (added removed : list string)
  | IPSetRemove (id : string)
  | ActivePolicyUpdate (id : PolicyKey) (p : ProtoPolicy)
  | ActivePolicyRemove (id : PolicyKey)
  | ActiveProfileUpdate (id : string) (p : ProtoProfile)
  | ActiveProfileRemove (id : string)
  | WorkloadEndpointUpdate (id : WorkloadEndpointID) (ep : ProtoWorkloadEndpoint)
  | WorkloadEndpointRemove (id : WorkloadEndpointID)
  | HostEndpointUpdate (id : string) (ep : ProtoHostEndpoint)
  | HostEndpointRemove (id : string)
  | MsgEncapsulation (e : Encapsulation)
  | HostMetadataUpdate (Hostname : string) (info : HostInfo)
  | HostMetadataRemove (Hostname : string)
  | IPAMPoolUpdate (id : string) (p : ProtoIPAMPool)
  | IPAMPoolRemove (id : string)
  | WireguardEndpointUpdate (Hostname PublicKey InterfaceIpv4Addr : string)
  | WireguardEndpointRemove (Hostname : string)
  | WireguardEndpointV6Update (Hostname PublicKeyV6 InterfaceIpv6Addr : string)
  | WireguardEndpointV6Remove (Hostname : string)
  | ServiceAccountUpdate (u : ProtoServiceAccountUpdate)
  | ServiceAccountRemove (id : string * string)
  | NamespaceUpdate (u : ProtoNamespaceUpdate)
  | NamespaceRemove (id : string)
  | VXLANTunnelEndpointUpdate (u : ProtoVTEPUpdate)
  | VXLANTunnelEndpointRemove (Node : string)
  | RouteUpdate (u : ProtoRouteUpdate)
  | RouteRemove (Dst : string)
  | GlobalBGPConfigUpdate (c : ProtoGlobalBGPConfig)
  | ServiceUpdate (u : ProtoServiceUpdate)
  | ServiceRemove (Name Namespace : string).
#[global] Arguments Msg : clear implicits.
