(* ===== verification/EventSequencer.v ===== *)
(** * The event sequencer: [felix/calc/event_sequencer.go]

    The last stage of the calculation graph buffers and coalesces the updates of the components
    and, on [Flush], sends messages to the dataplane in an order that is safe for dependencies.

    The callback is the list of messages that [Flush] returns.  The buffers of one kind of object
    (pending updates, pending deletes, what was sent) are a [Tracked]; IP sets and WireGuard
    keep theirs.  [Flush] takes the order in which it ranges over Go maps and sets, which is any
    permutation, as an argument.  The configuration object is a parameter.  [sentHostIPs] and
    [sentHostIPv6s], which nothing uses, are left out. *)
From S2P Require Import Prelude ModelRule UniqueLabels Multidict CIDR MemberDedup NetIP NetString PolicySorter RuleScanner RuleConvert ProtoMessages.
From stdpp Require Import base list gmap numbers strings.
From stdpp Require Import options.

(** ** Objects with pending updates, pending deletes and what was sent *)
Record Tracked (K V : Type) `{Countable K} := MkTracked { tr_updates : gmap K V; tr_deletes : gset K; tr_sent : gset K }.
Arguments MkTracked {K V _ _}. Arguments tr_updates {K V _ _}. Arguments tr_deletes {K V _ _}. Arguments tr_sent {K V _ _}.

Section tracked.
Context `{Countable K} {V M : Type}.
Implicit Types (t : Tracked K V).

Definition emptyTracked : Tracked K V := MkTracked ∅ ∅ ∅.

Definition queueUpdate (k : K) (v : V) t : Tracked K V := MkTracked (<[k := v]> (tr_updates t)) (tr_deletes t ∖ {[k]}) (tr_sent t).

Definition queueDelete (k : K) t : Tracked K V :=
  MkTracked (delete k (tr_updates t)) (if decide (k ∈ tr_sent t) then {[k]} ∪ tr_deletes t else tr_deletes t) (tr_sent t).

(** Loops that remove each item from the buffer when its message is sent. *)
Fixpoint updatesLoop (msg : K → V → outcome Empty_set M) (l : list (K * V)) t : outcome Empty_set (Tracked K V * list M) :=
  match l with
  | [] => Ret (t, [])
  | (k, v) :: l' =>
      let! m := msg k v in
      let! (t', ms) := updatesLoop msg l' (MkTracked (delete k (tr_updates t)) (tr_deletes t) ({[k]} ∪ tr_sent t)) in
      Ret (t', m :: ms)
  end.

Fixpoint deletesLoop (msg : K → M) (l : list K) t : Tracked K V * list M :=
  match l with
  | [] => (t, [])
  | k :: l' =>
      let '(t', ms) := deletesLoop msg l' (MkTracked (tr_updates t) (tr_deletes t ∖ {[k]}) (tr_sent t ∖ {[k]})) in
      (t', msg k :: ms)
  end.

Definition flushUpdates (r : GoRange) (msg : K → V → outcome Empty_set M) t : outcome Empty_set (Tracked K V * list M) :=
  updatesLoop msg (r _ (map_to_list (tr_updates t))) t.
Definition flushDeletes (r : GoRange) (msg : K → M) t : Tracked K V * list M := deletesLoop msg (r _ (elements (tr_deletes t))) t.

(** Loops that clear the buffer at the end; the update is the message, and has the identifier. *)
Definition flushAdds (r : GoRange) (id : K → V → K) (msg : V → M) t : Tracked K V * list M :=
  let l := r _ (map_to_list (tr_updates t)) in
  (MkTracked ∅ (tr_deletes t) (foldl (λ s kv, {[id kv.1 kv.2]} ∪ s) (tr_sent t) l), (λ kv, msg kv.2) <$> l).
Definition flushRemoves (r : GoRange) (msg : K → M) t : Tracked K V * list M :=
  let l := r _ (elements (tr_deletes t)) in
  (MkTracked (tr_updates t) ∅ (foldl (λ s k, s ∖ {[k]}) (tr_sent t) l), msg <$> l).
End tracked.

(** ** The state *)
Record IPSetBuffer := MkIPSetBuffer {
  pendingAddedIPSets : gmap string IPSetType;
  pendingRemovedIPSets : gset string;
  pendingAddedIPSetMembers : gmap string (gset IPSetMember);
  pendingRemovedIPSetMembers : gmap string (gset IPSetMember);
  sentIPSets : gset string
}.

Record WireguardBuffer := MkWireguardBuffer {
  pendingWireguardUpdates : gmap string Wireguard;
  pendingWireguardDeletes : gset string;
  sentWireguard : gset string;
  sentWireguardV6 : gset string
}.

Section sequencer.
Context {PT : Type}.
Abbreviation TierInfo := (TierInfo (PT := PT)).
Context (Sum224 : string → string) (Marshal : ProtoRule → option string).
(** [configInterface]: [UpdateFrom] gives the new configuration and whether it changed, or an error. *)
Inductive ConfigSource := DatastoreGlobal | DatastorePerSelector | DatastorePerHost.
Context {Config ConfigUpdate : Type}.
Context (UpdateFrom : Config → option (gmap string string) → ConfigSource → option (Config * bool)) (ToConfigUpdate : Config → ConfigUpdate).
Abbreviation Msg := (Msg ConfigUpdate).

Record endpointUpdate := MkEndpointUpdate {
  eu_endpoint : ModelEndpoint;
  eu_computedData : list ComputedData;
  eu_peerData : option string;
  eu_tierInfo : list TierInfo
}.

Record EventSequencer := MkEventSequencer {
  config : Config;
  ipSets : IPSetBuffer;
  policies : Tracked PolicyKey ParsedRules;
  profiles : Tracked string ParsedRules;
  pendingEncapUpdate : option Encapsulation;
  es_endpoints : Tracked ModelEndpointKey endpointUpdate;
  hostMetadata : Tracked string HostInfo;
  ipPools : Tracked CIDR IPPool;
  pendingNotReady : bool;
  pendingGlobalConfig : option (gmap string string);
  pendingSelectorConfig : option (gmap string string);
  pendingHostConfig : option (gmap string string);
  serviceAccounts : Tracked (string * string) ProtoServiceAccountUpdate;
  namespaces : Tracked string ProtoNamespaceUpdate;
  routes : Tracked string ProtoRouteUpdate;
  vteps : Tracked string ProtoVTEPUpdate;
  wireguard : WireguardBuffer;
  pendingGlobalBGPConfig : option ProtoGlobalBGPConfig;
  es_services : Tracked (string * string) ProtoServiceUpdate
}.

Definition NewEventSequencer (conf : Config) : EventSequencer :=
  MkEventSequencer conf (MkIPSetBuffer ∅ ∅ ∅ ∅ ∅) emptyTracked emptyTracked None emptyTracked emptyTracked emptyTracked
    false None None None emptyTracked emptyTracked emptyTracked emptyTracked (MkWireguardBuffer ∅ ∅ ∅ ∅) None emptyTracked.

Implicit Types (buf : EventSequencer).

Definition set_ipSets x buf := let '(MkEventSequencer c _ p q e ep h po n g s ho sa ns ro vt w b sv) := buf in MkEventSequencer c x p q e ep h po n g s ho sa ns ro vt w b sv.
Definition set_policies x buf := let '(MkEventSequencer c i _ q e ep h po n g s ho sa ns ro vt w b sv) := buf in MkEventSequencer c i x q e ep h po n g s ho sa ns ro vt w b sv.
Definition set_profiles x buf := let '(MkEventSequencer c i p _ e ep h po n g s ho sa ns ro vt w b sv) := buf in MkEventSequencer c i p x e ep h po n g s ho sa ns ro vt w b sv.
Definition set_encap x buf := let '(MkEventSequencer c i p q _ ep h po n g s ho sa ns ro vt w b sv) := buf in MkEventSequencer c i p q x ep h po n g s ho sa ns ro vt w b sv.
Definition set_endpoints x buf := let '(MkEventSequencer c i p q e _ h po n g s ho sa ns ro vt w b sv) := buf in MkEventSequencer c i p q e x h po n g s ho sa ns ro vt w b sv.
Definition set_hosts x buf := let '(MkEventSequencer c i p q e ep _ po n g s ho sa ns ro vt w b sv) := buf in MkEventSequencer c i p q e ep x po n g s ho sa ns ro vt w b sv.
Definition set_pools x buf := let '(MkEventSequencer c i p q e ep h _ n g s ho sa ns ro vt w b sv) := buf in MkEventSequencer c i p q e ep h x n g s ho sa ns ro vt w b sv.
Definition set_notReady x buf := let '(MkEventSequencer c i p q e ep h po _ g s ho sa ns ro vt w b sv) := buf in MkEventSequencer c i p q e ep h po x g s ho sa ns ro vt w b sv.
Definition set_configs c g s ho buf := let '(MkEventSequencer _ i p q e ep h po n _ _ _ sa ns ro vt w b sv) := buf in MkEventSequencer c i p q e ep h po n g s ho sa ns ro vt w b sv.
Definition set_serviceAccounts x buf := let '(MkEventSequencer c i p q e ep h po n g s ho _ ns ro vt w b sv) := buf in MkEventSequencer c i p q e ep h po n g s ho x ns ro vt w b sv.
Definition set_namespaces x buf := let '(MkEventSequencer c i p q e ep h po n g s ho sa _ ro vt w b sv) := buf in MkEventSequencer c i p q e ep h po n g s ho sa x ro vt w b sv.
Definition set_routes x buf := let '(MkEventSequencer c i p q e ep h po n g s ho sa ns _ vt w b sv) := buf in MkEventSequencer c i p q e ep h po n g s ho sa ns x vt w b sv.
Definition set_vteps x buf := let '(MkEventSequencer c i p q e ep h po n g s ho sa ns ro _ w b sv) := buf in MkEventSequencer c i p q e ep h po n g s ho sa ns ro x w b sv.
Definition set_wireguard x buf := let '(MkEventSequencer c i p q e ep h po n g s ho sa ns ro vt _ b sv) := buf in MkEventSequencer c i p q e ep h po n g s ho sa ns ro vt x b sv.
Definition set_bgp x buf := let '(MkEventSequencer c i p q e ep h po n g s ho sa ns ro vt w _ sv) := buf in MkEventSequencer c i p q e ep h po n g s ho sa ns ro vt w x sv.
Definition set_services x buf := let '(MkEventSequencer c i p q e ep h po n g s ho sa ns ro vt w b _) := buf in MkEventSequencer c i p q e ep h po n g s ho sa ns ro vt w b x.

(** ** IP sets *)
Implicit Types (s : IPSetBuffer).

Definition OnIPSetAdded (setID : string) (ipSetType : IPSetType) buf : outcome Empty_set EventSequencer :=
  let s := ipSets buf in
  if decide ((setID ∈ sentIPSets s) ∧ (setID ∉ pendingRemovedIPSets s)) then Panic
  else Ret (set_ipSets (MkIPSetBuffer (<[setID := ipSetType]> (pendingAddedIPSets s)) (pendingRemovedIPSets s ∖ {[setID]})
    (Multidict.DiscardKey (pendingAddedIPSetMembers s) setID) (Multidict.DiscardKey (pendingRemovedIPSetMembers s) setID) (sentIPSets s)) buf).

(** Neither sent nor about to be sent. *)
Definition unknownIPSet (setID : string) s : bool := bool_decide ((setID ∉ sentIPSets s) ∧ pendingAddedIPSets s !! setID = None).

Definition OnIPSetRemoved (setID : string) buf : outcome Empty_set EventSequencer :=
  let s := ipSets buf in
  if unknownIPSet setID s then Panic
  else Ret (set_ipSets (MkIPSetBuffer (delete setID (pendingAddedIPSets s))
    (if decide (setID ∈ sentIPSets s) then {[setID]} ∪ pendingRemovedIPSets s else pendingRemovedIPSets s)
    (Multidict.DiscardKey (pendingAddedIPSetMembers s) setID) (Multidict.DiscardKey (pendingRemovedIPSetMembers s) setID) (sentIPSets s)) buf).

Definition OnIPSetMemberAdded (setID : string) (member : IPSetMember) buf : outcome Empty_set EventSequencer :=
  let s := ipSets buf in
  if unknownIPSet setID s then Panic
  else Ret (set_ipSets
    (if Multidict.Contains (pendingRemovedIPSetMembers s) setID member
     then MkIPSetBuffer (pendingAddedIPSets s) (pendingRemovedIPSets s) (pendingAddedIPSetMembers s)
            (Multidict.Discard setID member (pendingRemovedIPSetMembers s)) (sentIPSets s)
     else MkIPSetBuffer (pendingAddedIPSets s) (pendingRemovedIPSets s) (Multidict.Put setID member (pendingAddedIPSetMembers s))
            (pendingRemovedIPSetMembers s) (sentIPSets s)) buf).

Definition OnIPSetMemberRemoved (setID : string) (member : IPSetMember) buf : outcome Empty_set EventSequencer :=
  let s := ipSets buf in
  if unknownIPSet setID s then Panic
  else Ret (set_ipSets
    (if Multidict.Contains (pendingAddedIPSetMembers s) setID member
     then MkIPSetBuffer (pendingAddedIPSets s) (pendingRemovedIPSets s) (Multidict.Discard setID member (pendingAddedIPSetMembers s))
            (pendingRemovedIPSetMembers s) (sentIPSets s)
     else MkIPSetBuffer (pendingAddedIPSets s) (pendingRemovedIPSets s) (pendingAddedIPSetMembers s)
            (Multidict.Put setID member (pendingRemovedIPSetMembers s)) (sentIPSets s)) buf).

(** The members of a set, as text. *)
Definition memberStrings (r : GoRange) (md : gmap string (gset IPSetMember)) (setID : string) : outcome Empty_set (list string) :=
  mapOut ToProtobufFormat (r _ (elements (Multidict.Iter md setID))).

Fixpoint addedLoop (r : GoRange) (l : list (string * IPSetType)) s : outcome Empty_set (IPSetBuffer * list Msg) :=
  match l with
  | [] => Ret (s, [])
  | (setID, setType) :: l' =>
      let! members := memberStrings r (pendingAddedIPSetMembers s) setID in
      let! (s', ms) := addedLoop r l' (MkIPSetBuffer (delete setID (pendingAddedIPSets s)) (pendingRemovedIPSets s)
        (Multidict.DiscardKey (pendingAddedIPSetMembers s) setID) (pendingRemovedIPSetMembers s) ({[setID]} ∪ sentIPSets s)) in
      Ret (s', IPSetUpdate setID members setType :: ms)
  end.

Definition flushAddsOrRemoves (r : GoRange) (setID : string) s : outcome Empty_set (IPSetBuffer * Msg) :=
  let! added := memberStrings r (pendingAddedIPSetMembers s) setID in
  let! removed := memberStrings r (pendingRemovedIPSetMembers s) setID in
  Ret (MkIPSetBuffer (pendingAddedIPSets s) (pendingRemovedIPSets s) (Multidict.DiscardKey (pendingAddedIPSetMembers s) setID)
         (Multidict.DiscardKey (pendingRemovedIPSetMembers s) setID) (sentIPSets s), IPSetDeltaUpdate setID added removed).

Fixpoint deltaLoop (r : GoRange) (l : list string) s : outcome Empty_set (IPSetBuffer * list Msg) :=
  match l with
  | [] => Ret (s, [])
  | setID :: l' =>
      let! (s1, m) := flushAddsOrRemoves r setID s in
      let! (s2, ms) := deltaLoop r l' s1 in
      Ret (s2, m :: ms)
  end.

Definition deltas (r : GoRange) s : outcome Empty_set (IPSetBuffer * list Msg) :=
  let! (s1, ms1) := deltaLoop r (r _ (elements (Multidict.IterKeys (pendingRemovedIPSetMembers s)))) s in
  let! (s2, ms2) := deltaLoop r (r _ (elements (Multidict.IterKeys (pendingAddedIPSetMembers s1)))) s1 in
  Ret (s2, ms1 ++ ms2).

Fixpoint removedLoop (l : list string) s : IPSetBuffer * list Msg :=
  match l with
  | [] => (s, [])
  | setID :: l' =>
      let '(s', ms) := removedLoop l' (MkIPSetBuffer (pendingAddedIPSets s) (pendingRemovedIPSets s ∖ {[setID]})
        (Multidict.DiscardKey (pendingAddedIPSetMembers s) setID) (Multidict.DiscardKey (pendingRemovedIPSetMembers s) setID) (sentIPSets s ∖ {[setID]})) in
      (s', IPSetRemove setID :: ms)
  end.

(** A stage of [Flush]: the new state and the messages that it sends. *)
Abbreviation stage := (EventSequencer → outcome Empty_set (EventSequencer * list Msg)).

Definition onPart {A} (put : A → EventSequencer → EventSequencer) buf (res : outcome Empty_set (A * list Msg)) : outcome Empty_set (EventSequencer * list Msg) :=
  let! (x, ms) := res in Ret (put x buf, ms).

Definition flushAddedIPSets (r : GoRange) : stage := λ buf, onPart set_ipSets buf (addedLoop r (r _ (map_to_list (pendingAddedIPSets (ipSets buf)))) (ipSets buf)).
Definition flushIPSetDeltas (r : GoRange) : stage := λ buf, onPart set_ipSets buf (deltas r (ipSets buf)).
Definition flushRemovedIPSets (r : GoRange) : stage := λ buf, onPart set_ipSets buf (Ret (removedLoop (r _ (elements (pendingRemovedIPSets (ipSets buf)))) (ipSets buf))).

(** ** Status and configuration *)
Definition OnDatastoreNotReady buf : EventSequencer := set_notReady true buf.

Definition flushReadyFlag : stage := λ buf, if negb (pendingNotReady buf) then Ret (buf, []) else Ret (set_notReady false buf, [DatastoreNotReady]).

Definition OnConfigUpdate (globalConfig selectorConfig hostConfig : option (gmap string string)) buf : EventSequencer :=
  set_configs (config buf) globalConfig selectorConfig hostConfig buf.

(** [UpdateFrom], which must not fail. *)
Definition mustUpdate (c : Config) (m : option (gmap string string)) (source : ConfigSource) : outcome Empty_set (Config * bool) :=
  match UpdateFrom c m source with Some res => Ret res | None => Panic end.

Definition flushConfigUpdate : stage := λ buf,
  match pendingGlobalConfig buf with
  | None => Ret (buf, [])
  | Some _ =>
      let! (c1, globalChanged) := mustUpdate (config buf) (pendingGlobalConfig buf) DatastoreGlobal in
      let! (c2, selectorChanged) := mustUpdate c1 (pendingSelectorConfig buf) DatastorePerSelector in
      let! (c3, hostChanged) := mustUpdate c2 (pendingHostConfig buf) DatastorePerHost in
      Ret (set_configs c3 None None None buf, if globalChanged || selectorChanged || hostChanged then [MsgConfigUpdate (ToConfigUpdate c3)] else [])
  end.

(** ** Policies and profiles *)
Definition OnPolicyActive (key : PolicyKey) (rules : ParsedRules) buf : EventSequencer := set_policies (queueUpdate key rules (policies buf)) buf.
Definition OnPolicyInactive (key : PolicyKey) buf : EventSequencer := set_policies (queueDelete key (policies buf)) buf.

Definition policyMsg (key : PolicyKey) (rules : ParsedRules) : outcome Empty_set Msg :=
  let! p := ParsedRulesToActivePolicyUpdate Sum224 Marshal key rules in Ret (ActivePolicyUpdate key p).

Definition flushPolicyUpdates (r : GoRange) : stage := λ buf, onPart set_policies buf (flushUpdates r policyMsg (policies buf)).
Definition flushPolicyDeletes (r : GoRange) : stage := λ buf, onPart set_policies buf (Ret (flushDeletes r ActivePolicyRemove (policies buf))).

Definition OnProfileActive (key : string) (rules : ParsedRules) buf : EventSequencer := set_profiles (queueUpdate key rules (profiles buf)) buf.
Definition OnProfileInactive (key : string) buf : EventSequencer := set_profiles (queueDelete key (profiles buf)) buf.

Definition profileMsg (key : string) (rules : ParsedRules) : outcome Empty_set Msg :=
  let! p := profileToProto Sum224 Marshal key rules in Ret (ActiveProfileUpdate key p).

Definition flushProfileUpdates (r : GoRange) : stage := λ buf, onPart set_profiles buf (flushUpdates r profileMsg (profiles buf)).
Definition flushProfileDeletes (r : GoRange) : stage := λ buf, onPart set_profiles buf (Ret (flushDeletes r ActiveProfileRemove (profiles buf))).

(** ** Endpoints *)
Definition OnEndpointTierUpdate (endpointKey : ModelEndpointKey) (endpoint : option ModelEndpoint) (computedData : list ComputedData)
    (peerData : option string) (filteredTiers : list TierInfo) buf : EventSequencer :=
  match endpoint with
  | None => set_endpoints (queueDelete endpointKey (es_endpoints buf)) buf
  | Some endpoint => set_endpoints (queueUpdate endpointKey (MkEndpointUpdate endpoint computedData peerData filteredTiers) (es_endpoints buf)) buf
  end.

(** The type assertion on the endpoint panics when it has not the type of its key. *)
Definition endpointMsg (key : ModelEndpointKey) (u : endpointUpdate) : outcome Empty_set Msg :=
  let t := tierInfoToProtoTierInfo (eu_tierInfo u) in
  match key, eu_endpoint u with
  | WorkloadEndpointKey _ o w e, Workload wlep =>
      Ret (WorkloadEndpointUpdate (o, w, e) (ModelWorkloadEndpointToProto wlep (eu_computedData u) (eu_peerData u) (ts_normal t)))
  | HostEndpointKey _ e, Host hep =>
      Ret (HostEndpointUpdate e (ModelHostEndpointToProto hep (ts_normal t) (ts_untracked t) (ts_preDNAT t) (ts_forward t)))
  | _, _ => Panic
  end.

Definition endpointRemoveMsg (key : ModelEndpointKey) : Msg :=
  match key with WorkloadEndpointKey _ o w e => WorkloadEndpointRemove (o, w, e) | HostEndpointKey _ e => HostEndpointRemove e end.

Definition flushEndpointTierUpdates (r : GoRange) : stage := λ buf, onPart set_endpoints buf (flushUpdates r endpointMsg (es_endpoints buf)).
Definition flushEndpointTierDeletes (r : GoRange) : stage := λ buf, onPart set_endpoints buf (Ret (flushDeletes r endpointRemoveMsg (es_endpoints buf))).

(** ** Hosts, pools, encapsulation *)
Definition OnEncapUpdate (encap : Encapsulation) buf : EventSequencer := set_encap (Some encap) buf.

Definition flushEncapUpdate : stage := λ buf,
  match pendingEncapUpdate buf with Some e => Ret (set_encap None buf, [MsgEncapsulation e]) | None => Ret (buf, []) end.

Definition OnHostMetadataUpdate (hostname : string) (info : HostInfo) buf : EventSequencer := set_hosts (queueUpdate hostname info (hostMetadata buf)) buf.
Definition OnHostMetadataRemove (hostname : string) buf : EventSequencer := set_hosts (queueDelete hostname (hostMetadata buf)) buf.

Definition flushHostUpdates (r : GoRange) : stage := λ buf, onPart set_hosts buf (flushUpdates r (λ h i, Ret (HostMetadataUpdate h i)) (hostMetadata buf)).
Definition flushHostDeletes (r : GoRange) : stage := λ buf, onPart set_hosts buf (Ret (flushDeletes r HostMetadataRemove (hostMetadata buf))).

Definition OnIPPoolUpdate (key : NetipPrefix) (pool : IPPool) buf : EventSequencer := set_pools (queueUpdate (CIDRFromPrefix key) pool (ipPools buf)) buf.
Definition OnIPPoolRemove (key : NetipPrefix) buf : EventSequencer := set_pools (queueDelete (CIDRFromPrefix key) (ipPools buf)) buf.

Definition flushIPPoolUpdates (r : GoRange) : stage := λ buf,
  onPart set_pools buf (flushUpdates r (λ cidr pool, Ret (IPAMPoolUpdate (cidrToIPPoolID cidr) (poolToProto pool))) (ipPools buf)).
Definition flushIPPoolDeletes (r : GoRange) : stage := λ buf,
  onPart set_pools buf (Ret (flushDeletes r (λ cidr, IPAMPoolRemove (cidrToIPPoolID cidr)) (ipPools buf))).

(** ** WireGuard: one update, two keys *)
Definition OnWireguardUpdate (nodename : string) (wg : Wireguard) buf : EventSequencer :=
  let w := wireguard buf in
  set_wireguard (MkWireguardBuffer (<[nodename := wg]> (pendingWireguardUpdates w)) (pendingWireguardDeletes w ∖ {[nodename]}) (sentWireguard w) (sentWireguardV6 w)) buf.

Definition OnWireguardRemove (nodename : string) buf : EventSequencer :=
  let w := wireguard buf in
  set_wireguard (MkWireguardBuffer (delete nodename (pendingWireguardUpdates w)) ({[nodename]} ∪ pendingWireguardDeletes w) (sentWireguard w) (sentWireguardV6 w)) buf.

(** For one address family: send the key, or take back one that was sent. *)
Definition wgKey (nodename key addr : string) (update : string → string → string → Msg) (remove : string → Msg) (sent : gset string) : gset string * list Msg :=
  if decide (key ≠ "") then ({[nodename]} ∪ sent, [update nodename key addr])
  else if decide (nodename ∈ sent) then (sent ∖ {[nodename]}, [remove nodename]) else (sent, []).

Fixpoint wgUpdatesLoop (l : list (string * Wireguard)) (w : WireguardBuffer) : WireguardBuffer * list Msg :=
  match l with
  | [] => (w, [])
  | (nodename, wg) :: l' =>
      let '(sent4, ms4) := wgKey nodename (wg_PublicKey wg) (from_option NetIP_String "" (wg_InterfaceIPv4Addr wg)) WireguardEndpointUpdate WireguardEndpointRemove (sentWireguard w) in
      let '(sent6, ms6) := wgKey nodename (wg_PublicKeyV6 wg) (from_option NetIP_String "" (wg_InterfaceIPv6Addr wg)) WireguardEndpointV6Update WireguardEndpointV6Remove (sentWireguardV6 w) in
      let '(w', ms) := wgUpdatesLoop l' (MkWireguardBuffer (delete nodename (pendingWireguardUpdates w)) (pendingWireguardDeletes w) sent4 sent6) in
      (w', ms4 ++ ms6 ++ ms)
  end.

Fixpoint wgDeletesLoop (l : list string) (w : WireguardBuffer) : WireguardBuffer * list Msg :=
  match l with
  | [] => (w, [])
  | key :: l' =>
      let '(w', ms) := wgDeletesLoop l' (MkWireguardBuffer (pendingWireguardUpdates w) (pendingWireguardDeletes w ∖ {[key]}) (sentWireguard w ∖ {[key]}) (sentWireguardV6 w ∖ {[key]})) in
      (w', (if decide (key ∈ sentWireguard w) then [WireguardEndpointRemove key] else []) ++
           (if decide (key ∈ sentWireguardV6 w) then [WireguardEndpointV6Remove key] else []) ++ ms)
  end.

Definition flushHostWireguardUpdates (r : GoRange) : stage := λ buf,
  onPart set_wireguard buf (Ret (wgUpdatesLoop (r _ (map_to_list (pendingWireguardUpdates (wireguard buf)))) (wireguard buf))).
Definition flushHostWireguardDeletes (r : GoRange) : stage := λ buf,
  onPart set_wireguard buf (Ret (wgDeletesLoop (r _ (elements (pendingWireguardDeletes (wireguard buf)))) (wireguard buf))).

(** ** Service accounts, namespaces, services *)
Definition OnServiceAccountUpdate (update : ProtoServiceAccountUpdate) buf : EventSequencer :=
  set_serviceAccounts (queueUpdate (sau_Id update) update (serviceAccounts buf)) buf.
Definition OnServiceAccountRemove (id : string * string) buf : EventSequencer := set_serviceAccounts (queueDelete id (serviceAccounts buf)) buf.

(** Removes, then adds. *)
Definition removesThenAdds `{Countable K} {V} (r : GoRange) (id : K → V → K) (remove : K → Msg) (update : V → Msg) (t : Tracked K V) : Tracked K V * list Msg :=
  let '(t1, ms1) := flushRemoves r remove t in
  let '(t2, ms2) := flushAdds r id update t1 in (t2, ms1 ++ ms2).

Definition flushServiceAccounts (r : GoRange) : stage := λ buf,
  onPart set_serviceAccounts buf (Ret (removesThenAdds r (λ _, sau_Id) ServiceAccountRemove ServiceAccountUpdate (serviceAccounts buf))).

Definition OnNamespaceUpdate (update : ProtoNamespaceUpdate) buf : EventSequencer := set_namespaces (queueUpdate (nsu_Id update) update (namespaces buf)) buf.
Definition OnNamespaceRemove (id : string) buf : EventSequencer := set_namespaces (queueDelete id (namespaces buf)) buf.
Definition flushNamespaces (r : GoRange) : stage := λ buf,
  onPart set_namespaces buf (Ret (removesThenAdds r (λ _, nsu_Id) NamespaceRemove NamespaceUpdate (namespaces buf))).

Definition serviceID (u : ProtoServiceUpdate) : string * string := (svc_Name u, svc_Namespace u).
Definition OnServiceUpdate (update : ProtoServiceUpdate) buf : EventSequencer := set_services (queueUpdate (serviceID update) update (es_services buf)) buf.
Definition OnServiceRemove (Name Namespace : string) buf : EventSequencer := set_services (queueDelete (Name, Namespace) (es_services buf)) buf.
Definition flushServices (r : GoRange) : stage := λ buf,
  onPart set_services buf (Ret (removesThenAdds r (λ _, serviceID) (λ id, ServiceRemove id.1 id.2) ServiceUpdate (es_services buf))).

(** ** Tunnel endpoints and routes *)
Definition OnVTEPUpdate (update : ProtoVTEPUpdate) buf : EventSequencer := set_vteps (queueUpdate (vt_Node update) update (vteps buf)) buf.
Definition OnVTEPRemove (dst : string) buf : EventSequencer := set_vteps (queueDelete dst (vteps buf)) buf.
Definition flushVTEPRemoves (r : GoRange) : stage := λ buf, onPart set_vteps buf (Ret (flushRemoves r VXLANTunnelEndpointRemove (vteps buf))).
Definition flushVTEPAdds (r : GoRange) : stage := λ buf, onPart set_vteps buf (Ret (flushAdds r (λ _, vt_Node) VXLANTunnelEndpointUpdate (vteps buf))).

Definition OnRouteUpdate (update : ProtoRouteUpdate) buf : EventSequencer := set_routes (queueUpdate (rt_Dst update) update (routes buf)) buf.
Definition OnRouteRemove (dst : string) buf : EventSequencer := set_routes (queueDelete dst (routes buf)) buf.
Definition flushRouteRemoves (r : GoRange) : stage := λ buf, onPart set_routes buf (Ret (flushRemoves r RouteRemove (routes buf))).
Definition flushRouteAdds (r : GoRange) : stage := λ buf, onPart set_routes buf (Ret (flushAdds r (λ dst _, dst) RouteUpdate (routes buf))).

(** ** The global BGP configuration *)
(** Blocks without a CIDR are ignored. *)
Definition bgpCidrs (blocks : list string) : list string := List.filter (λ b, negb (bool_decide (b = ""))) blocks.

Definition OnGlobalBGPConfigUpdate (cfg : option BGPConfiguration) buf : EventSequencer :=
  set_bgp (Some (match cfg with
    | None => MkGlobalBGPConfig [] [] [] "" ""
    | Some c => MkGlobalBGPConfig (bgpCidrs (bgp_ServiceClusterIPs c)) (bgpCidrs (bgp_ServiceExternalIPs c)) (bgpCidrs (bgp_ServiceLoadBalancerIPs c))
                  (bgp_LocalWorkloadPeeringIPV4 c) (bgp_LocalWorkloadPeeringIPV6 c)
    end)) buf.

Definition flushGlobalBGPConfig : stage := λ buf,
  match pendingGlobalBGPConfig buf with Some c => Ret (set_bgp None buf, [GlobalBGPConfigUpdate c]) | None => Ret (buf, []) end.

(** ** [Flush] *)
Fixpoint runStages (stages : list stage) buf : outcome Empty_set (EventSequencer * list Msg) :=
  match stages with
  | [] => Ret (buf, [])
  | f :: stages' =>
      let! (buf1, ms1) := f buf in
      let! (buf2, ms2) := runStages stages' buf1 in
      Ret (buf2, ms1 ++ ms2)
  end.

Definition Flush (r : GoRange) : stage :=
  runStages [
    flushReadyFlag; flushConfigUpdate;
    flushAddedIPSets r; flushIPSetDeltas r; flushPolicyUpdates r; flushProfileUpdates r; flushEndpointTierUpdates r;
    flushEndpointTierDeletes r; flushProfileDeletes r; flushPolicyDeletes r; flushRemovedIPSets r;
    flushServiceAccounts r; flushNamespaces r;
    flushRouteRemoves r; flushVTEPRemoves r; flushVTEPAdds r; flushRouteAdds r;
    flushHostWireguardDeletes r; flushHostWireguardUpdates r; flushHostDeletes r; flushHostUpdates r;
    flushIPPoolDeletes r; flushIPPoolUpdates r; flushEncapUpdate; flushGlobalBGPConfig; flushServices r
  ].

End sequencer.
