(* ===== verification/SequencerTracked.v ===== *)
(** * Buffers that coalesce updates

    What is true of one kind of object in the event sequencer, whatever its messages are: the
    buffer ([Tracked]) holds the difference between the objects that the dataplane has and the
    objects that it should have, and flushing the buffer makes the dataplane have them.

    The dataplane is any state that receives messages; the objects of the kind are a [Part] of
    it. *)
From S2P Require Import Prelude PolicySorter RuleScanner RuleConvert ProtoMessages EventSequencer.
From stdpp Require Import base list gmap numbers strings.
From stdpp Require Import options.

(** ** Receiving messages *)
Section receive.
Context {M DP : Type} (recv : M → DP → option DP).

Fixpoint recvAll (ms : list M) (dp : DP) : option DP :=
  match ms with [] => Some dp | m :: ms' => match recv m dp with Some dp' => recvAll ms' dp' | None => None end end.

Lemma recvAll_app ms1 : ∀ ms2 dp, recvAll (ms1 ++ ms2) dp = match recvAll ms1 dp with Some dp' => recvAll ms2 dp' | None => None end.
Proof. induction ms1 as [|m ms1 IH]; intros ms2 dp; cbn; [done|]. by destruct (recv m dp). Qed.

(** *** The objects of one kind in the dataplane *)
Record Part (K P : Type) `{Countable K} := MkPart {
  get : DP → gmap K P;
  put : gmap K P → DP → DP;
  get_put D dp : get (put D dp) = D;
  put_put D D' dp : put D (put D' dp) = put D dp;
  put_get dp : put (get dp) dp = dp
}.
End receive.
Arguments MkPart {DP K P _ _}. Arguments get {DP K P _ _}. Arguments put {DP K P _ _}. Arguments get_put {DP K P _ _}. Arguments put_put {DP K P _ _}. Arguments put_get {DP K P _ _}.

Section part.
Context {M DP : Type} (recv : M → DP → option DP).
Context `{Countable K} {P : Type} (part : Part (DP := DP) K P).
Context (update : K → P → M) (remove : K → M) (accepts : P → DP → bool) (releases : K → DP → bool).
(** An update is accepted by its content, a removal when the object is there and not in use. *)
Context (valid : K → P → Prop).
Context (Hupdate : ∀ k p dp, valid k p → recv (update k p) dp = if accepts p dp then Some (put part (<[k := p]> (get part dp)) dp) else None).
Context (Hremove : ∀ k dp, recv (remove k) dp =
  if bool_decide (is_Some (get part dp !! k)) && releases k dp then Some (put part (delete k (get part dp)) dp) else None).

Lemma recv_updates l : ∀ dp, (∀ k p D, (k, p) ∈ l → valid k p ∧ accepts p (put part D dp) = true) →
  recvAll recv ((λ kp, update kp.1 kp.2) <$> l) dp = Some (put part (foldl (λ D kp, <[kp.1 := kp.2]> D) (get part dp) l) dp).
Proof using Hupdate.
  induction l as [|[k p] l IH]; intros dp Hl; cbn; [by rewrite put_get|].
  assert (Hk : valid k p ∧ accepts p dp = true) by (rewrite <- (put_get part dp); apply (Hl k), list_elem_of_here). destruct Hk as [Hv Hk]. rewrite Hupdate, Hk by done. rewrite IH.
  - by rewrite get_put, put_put.
  - intros k' p' D Hin. rewrite put_put. apply (Hl k'). by apply list_elem_of_further.
Qed.

Lemma recv_removes l : ∀ dp, NoDup l → (∀ k, k ∈ l → is_Some (get part dp !! k)) → (∀ k D, k ∈ l → releases k (put part D dp) = true) →
  recvAll recv (remove <$> l) dp = Some (put part (foldl (λ D k, delete k D) (get part dp) l) dp).
Proof using Hremove.
  induction l as [|k l IH]; intros dp Hnd Hin Hl; cbn; [by rewrite put_get|]. apply list.NoDup_cons in Hnd as [Hk Hnd].
  assert (Hr : releases k dp = true) by (rewrite <- (put_get part dp); apply (Hl k), list_elem_of_here).
  rewrite Hremove, Hr, bool_decide_true by (apply Hin, list_elem_of_here). cbn. rewrite IH.
  - by rewrite get_put, put_put.
  - done.
  - intros k' Hk'. rewrite get_put, lookup_delete_ne by (intros ->; done). by apply Hin, list_elem_of_further.
  - intros k' D Hk'. rewrite put_put. by apply Hl, list_elem_of_further.
Qed.
End part.

(** ** Folds over the items of a map or set *)
Section folds.
Context `{Countable K}.

Lemma foldl_insert_lookup {A P} (id : A → K) (pl : A → P) l (D : gmap K P) k :
  (∀ a b, a ∈ l → b ∈ l → id a = id b → pl a = pl b) →
  foldl (λ D a, <[id a := pl a]> D) D l !! k = match list_find (λ a, id a = k) l with Some (_, a) => Some (pl a) | None => D !! k end.
Proof.
  revert D. induction l as [|a l IH]; intros D Hinj; cbn [foldl list_find]; [done|]. rewrite IH by (intros; apply Hinj; by try apply list_elem_of_further).
  destruct (decide (id a = k)) as [<-|Hne].
  - destruct (list_find _ l) as [[i b]|] eqn:Hf; cbn; [|by rewrite lookup_insert_eq].
    apply list_find_Some in Hf as (Hb&Hid&_). f_equal. apply Hinj; [by apply list_elem_of_further, list_elem_of_lookup_2 with i|apply list_elem_of_here|done].
  - destruct (list_find _ l) as [[i b]|]; cbn; [done|]. by rewrite lookup_insert_ne.
Qed.

Lemma foldl_delete_lookup {P} l (D : gmap K P) k : foldl (λ D k, delete k D) D l !! k = if decide (k ∈ l) then None else D !! k.
Proof.
  revert D. induction l as [|a l IH]; intros D; cbn [foldl]; [by rewrite decide_False by apply not_elem_of_nil|]. rewrite IH.
  destruct (decide (k ∈ l)) as [Hin|Hout]; [by rewrite decide_True by (by apply list_elem_of_further)|]. destruct (decide (k = a)) as [->|Hne].
  - rewrite decide_True by apply list_elem_of_here. apply lookup_delete_eq.
  - rewrite decide_False by (rewrite elem_of_cons; tauto). by rewrite lookup_delete_ne.
Qed.

Lemma foldl_union_elem {A} (id : A → K) l (s : gset K) k : k ∈ foldl (λ s a, {[id a]} ∪ s) s l ↔ k ∈ s ∨ ∃ a, a ∈ l ∧ id a = k.
Proof.
  revert s. induction l as [|a l IH]; intros s; cbn [foldl]; [setoid_rewrite elem_of_nil; naive_solver|]. rewrite IH, elem_of_union, elem_of_singleton.
  setoid_rewrite elem_of_cons. naive_solver.
Qed.

Lemma foldl_difference_elem l (s : gset K) k : k ∈ foldl (λ s k, s ∖ {[k]}) s l ↔ k ∈ s ∧ k ∉ l.
Proof.
  revert s. induction l as [|a l IH]; intros s; cbn [foldl]; [set_solver|]. rewrite IH, elem_of_difference, elem_of_singleton, elem_of_cons. tauto.
Qed.
End folds.

(** ** The loops of a buffer *)
Section loops.
Context `{Countable K} {V M : Type}.
Implicit Types (t : Tracked K V).

Lemma deletesLoop_eq (msg : K → M) l : ∀ t,
  deletesLoop msg l t = (MkTracked (tr_updates t) (foldl (λ s k, s ∖ {[k]}) (tr_deletes t) l) (foldl (λ s k, s ∖ {[k]}) (tr_sent t) l), msg <$> l).
Proof. induction l as [|k l IH]; intros t; cbn; [by destruct t|]. by rewrite IH. Qed.

Lemma drained (l : list K) (s : gset K) : l ≡ₚ elements s → foldl (λ s k, s ∖ {[k]}) s l = ∅.
Proof. intros Hl. apply set_eq. intros k. rewrite foldl_difference_elem, Hl, elem_of_elements. set_solver. Qed.

Lemma flushDeletes_eq (r : GoRange) (msg : K → M) t : flushDeletes r msg t = flushRemoves r msg t.
Proof. unfold flushDeletes, flushRemoves. rewrite deletesLoop_eq, drained; [done|apply range_perm]. Qed.

Lemma updatesLoop_eq (msg : K → V → M) l : ∀ t,
  updatesLoop (λ k v, Ret (msg k v)) l t =
    Ret (MkTracked (foldl (λ m kv, delete kv.1 m) (tr_updates t) l) (tr_deletes t) (foldl (λ s kv, {[kv.1]} ∪ s) (tr_sent t) l), (λ kv, msg kv.1 kv.2) <$> l).
Proof. induction l as [|[k v] l IH]; intros t; cbn; [by destruct t|]. by rewrite IH. Qed.

Lemma foldl_delete_all (m : gmap K V) l : l ≡ₚ map_to_list m → foldl (λ m kv, delete kv.1 m) m l = ∅.
Proof.
  intros Hl. apply map_empty. intros k. assert (Hf : ∀ (l' : list (K * V)) (m' : gmap K V), foldl (λ m kv, delete kv.1 m) m' l' = foldl (λ m k, delete k m) m' l'.*1).
  { induction l' as [|[? ?] l' IH]; intros m'; [done|apply IH]. }
  rewrite Hf, foldl_delete_lookup. destruct (decide (k ∈ l.*1)) as [|Hout]; [done|]. destruct (m !! k) as [v|] eqn:Hk; [|done]. exfalso. apply Hout.
  rewrite Hl. apply (list_elem_of_fmap_2 fst _ (k, v)). by apply elem_of_map_to_list.
Qed.

Lemma flushAdds_eq (r : GoRange) (id : K → V → K) (msg : V → M) t :
  (∀ k v, tr_updates t !! k = Some v → id k v = k) → flushUpdates r (λ _ v, Ret (msg v)) t = Ret (flushAdds r id msg t).
Proof.
  intros Hid. unfold flushUpdates, flushAdds. rewrite (updatesLoop_eq (λ _, msg)), foldl_delete_all by apply range_perm. do 3 f_equal.
  assert (Hl : ∀ kv, kv ∈ r _ (map_to_list (tr_updates t)) → id kv.1 kv.2 = kv.1).
  { intros [k v]. rewrite range_perm, elem_of_map_to_list. apply Hid. }
  revert Hl. generalize (r _ (map_to_list (tr_updates t))) as l, (tr_sent t) as s. induction l as [|kv l IH]; intros s Hl; cbn; [done|].
  rewrite (Hl kv) by apply list_elem_of_here. apply IH. intros kv' Hin. by apply Hl, list_elem_of_further.
Qed.
End loops.

(** ** A buffer, what the dataplane has, and what it should have *)
Section coalesce.
Context `{Countable K} {V : Type} `{Countable K'} {P : Type}.
(** The identifier and the content of an object in messages. *)
Context (idOf : K → K') (conv : K → V → outcome Empty_set P) (good : K → V → Prop).
Context (Hconv : ∀ k v, good k v → ∃ p, conv k v = Ret p).
Context (Hinj : ∀ k1 v1 k2 v2, good k1 v1 → good k2 v2 → idOf k1 = idOf k2 → k1 = k2).
Implicit Types (t : Tracked K V) (S W : gmap K V) (D : gmap K' P).

(** The dataplane has the objects of [S], converted. *)
Definition image S D : Prop :=
  (∀ k v, S !! k = Some v → ∃ p, conv k v = Ret p ∧ D !! idOf k = Some p) ∧
  (∀ k' p, D !! k' = Some p → ∃ k v, S !! k = Some v ∧ idOf k = k' ∧ conv k v = Ret p).

(** [S] is what was sent: the dataplane has [S], and should have [W]. *)
Record coalesces_from t S D W : Prop := {
  co_sent : tr_sent t = dom S;
  co_deletes k : k ∈ tr_deletes t → k ∈ tr_sent t ∧ tr_updates t !! k = None;
  co_want k : W !! k = match tr_updates t !! k with Some v => Some v | None => if decide (k ∈ tr_deletes t) then None else S !! k end;
  co_image : image S D;
  co_good k v : S !! k = Some v ∨ tr_updates t !! k = Some v → good k v
}.
Definition coalesces t D W : Prop := ∃ S, coalesces_from t S D W.

Lemma coalesces_empty : coalesces emptyTracked ∅ ∅.
Proof.
  exists ∅. split; cbn.
  - by rewrite dom_empty_L.
  - by intros k ?%not_elem_of_empty.
  - intros k. by rewrite !lookup_empty, decide_False by apply not_elem_of_empty.
  - split; intros ? ?; by rewrite lookup_empty.
  - intros k v. rewrite !lookup_empty. by intros [].
Qed.

Lemma coalesces_update k v t D W : good k v → coalesces t D W → coalesces (queueUpdate k v t) D (<[k := v]> W).
Proof using Type.
  clear Hconv Hinj. intros Hg [S [Hs Hd Hw Hi Ho]]. exists S. split; cbn; [done| | |done|].
  - intros k' [Hk' Hne]%elem_of_difference. rewrite elem_of_singleton in Hne. destruct (Hd k' Hk'). split; [done|]. by rewrite lookup_insert_ne.
  - intros k'. destruct (decide (k' = k)) as [->|Hne]; [by rewrite !lookup_insert_eq|]. rewrite !lookup_insert_ne, Hw by done.
    destruct (tr_updates t !! k'); [done|]. destruct (decide (k' ∈ tr_deletes t)); [rewrite decide_True by set_solver|rewrite decide_False by set_solver]; done.
  - intros k' v' [Hk|[[<- <-]|[_ Hk]]%lookup_insert_Some]; eauto.
Qed.

Lemma coalesces_delete k t D W : coalesces t D W → coalesces (queueDelete k t) D (delete k W).
Proof using Type.
  clear Hconv Hinj. intros [S [Hs Hd Hw Hi Ho]]. exists S. split; cbn; [done| | |done|].
  - intros k' Hk'. destruct (decide (k' = k)) as [->|Hne].
    + rewrite lookup_delete_eq. split; [|done]. destruct (decide (k ∈ tr_sent t)); [done|]. by apply Hd.
    + rewrite lookup_delete_ne by done. apply Hd. destruct (decide (k ∈ tr_sent t)); set_solver.
  - intros k'. destruct (decide (k' = k)) as [->|Hne].
    + rewrite !lookup_delete_eq. destruct (decide (k ∈ tr_sent t)) as [Hin|Hout].
      * by rewrite decide_True by by apply elem_of_union_l, elem_of_singleton.
      * rewrite decide_False by (intros ?%Hd; tauto). symmetry. apply not_elem_of_dom. by rewrite <- Hs.
    + rewrite !lookup_delete_ne, Hw by done. destruct (tr_updates t !! k'); [done|]. set (s := if decide (k ∈ tr_sent t) then _ else _).
      assert (Hin : k' ∈ s ↔ k' ∈ tr_deletes t) by (subst s; destruct (decide (k ∈ tr_sent t)); set_solver). by rewrite (decide_ext _ _ _ _ Hin).
  - intros k' v' [Hk|[_ Hk]%lookup_delete_Some]; eauto.
Qed.

(** *** Flushing *)
Context {M DP : Type} (recv : M → DP → option DP) (part : Part (DP := DP) K' P).
Context (update : K' → P → M) (remove : K' → M) (accepts : P → DP → bool) (releases : K' → DP → bool).
Definition converted (k' : K') (p : P) : Prop := ∃ k v, good k v ∧ idOf k = k' ∧ conv k v = Ret p.
Context (Hupdate : ∀ k p dp, converted k p → recv (update k p) dp = if accepts p dp then Some (put part (<[k := p]> (get part dp)) dp) else None).
Context (Hremove : ∀ k dp, recv (remove k) dp =
  if bool_decide (is_Some (get part dp !! k)) && releases k dp then Some (put part (delete k (get part dp)) dp) else None).
Context (msg : K → V → outcome Empty_set M) (Hmsg : ∀ k v p, conv k v = Ret p → msg k v = Ret (update (idOf k) p)).

Lemma updatesLoop_good l : ∀ t, (∀ k v, (k, v) ∈ l → good k v) →
  ∃ ps, updatesLoop msg l t = Ret (MkTracked (foldl (λ m kv, delete kv.1 m) (tr_updates t) l) (tr_deletes t) (foldl (λ s kv, {[kv.1]} ∪ s) (tr_sent t) l),
      (λ kp, update kp.1 kp.2) <$> ps) ∧ Forall2 (λ kv kp, kp.1 = idOf kv.1 ∧ conv kv.1 kv.2 = Ret kp.2) l ps.
Proof using Hconv Hmsg.
  induction l as [|[k v] l IH]; intros t Hl; cbn [updatesLoop foldl]; [exists []; split; [by destruct t|constructor]|].
  destruct (Hconv k v) as [p Hp]; [apply Hl, list_elem_of_here|]. rewrite (Hmsg k v p Hp). cbn [obind].
  destruct (IH (MkTracked (delete k (tr_updates t)) (tr_deletes t) ({[k]} ∪ tr_sent t))) as (ps&->&Hps); [intros; by apply Hl, list_elem_of_further|].
  cbn [obind]. exists ((idOf k, p) :: ps). split; [done|]. constructor; [done|exact Hps].
Qed.

(** The objects that are updated, in the dataplane. *)
Lemma image_updates S D l ps (m : gmap K V) :
  image S D → l ≡ₚ map_to_list m → Forall2 (λ kv kp, kp.1 = idOf kv.1 ∧ conv kv.1 kv.2 = Ret kp.2) l ps →
  (∀ k v, S !! k = Some v ∨ m !! k = Some v → good k v) →
  image (m ∪ S) (foldl (λ D kp, <[kp.1 := kp.2]> D) D ps).
Proof using Hinj.
  intros [Hi1 Hi2] Hl Hps Hg.
  assert (Hfrom : ∀ kp, kp ∈ ps → ∃ k v, m !! k = Some v ∧ kp.1 = idOf k ∧ conv k v = Ret kp.2).
  { intros kp Hkp. apply list_elem_of_lookup in Hkp as [i Hi]. destruct (Forall2_lookup_r _ _ _ _ _ Hps Hi) as ([k v]&Hk&Hid&Hc).
    exists k, v. split; [|done]. apply elem_of_map_to_list. rewrite <- Hl. by apply list_elem_of_lookup_2 with i. }
  assert (Hto : ∀ k v, m !! k = Some v → ∃ p, (idOf k, p) ∈ ps ∧ conv k v = Ret p).
  { intros k v Hk. apply elem_of_map_to_list in Hk. rewrite <- Hl in Hk. apply list_elem_of_lookup in Hk as [i Hi].
    destruct (Forall2_lookup_l _ _ _ _ _ Hps Hi) as ([k' p]&Hk'&Hid&Hc). cbn in Hid, Hc. subst k'. exists p. split; [by apply list_elem_of_lookup_2 with i|done]. }
  assert (Hsame : ∀ a b, a ∈ ps → b ∈ ps → a.1 = b.1 → a.2 = b.2).
  { intros a b (k1&v1&Hk1&E1&C1)%Hfrom (k2&v2&Hk2&E2&C2)%Hfrom Heq. assert (k1 = k2) as <- by (eapply Hinj; [eapply Hg; eauto..|congruence]). congruence. }
  assert (Hlook : ∀ k', foldl (λ D kp, <[kp.1 := kp.2]> D) D ps !! k' = match list_find (λ a, a.1 = k') ps with Some (_, a) => Some a.2 | None => D !! k' end).
  { intros k'. by apply (foldl_insert_lookup fst snd). }
  split.
  - intros k v Hk. rewrite Hlook. apply lookup_union_Some_raw in Hk as [Hk|[Hn Hk]].
    + destruct (Hto k v Hk) as (p&Hp&Hc). exists p. split; [done|]. destruct (list_find (λ a, a.1 = idOf k) ps) as [[i a]|] eqn:Hf.
      * apply list_find_Some in Hf as (Ha&Hid&_). f_equal. exact (Hsame a (idOf k, p) (list_elem_of_lookup_2 _ _ _ Ha) Hp Hid).
      * apply list_find_None in Hf. rewrite list.Forall_forall in Hf. by destruct (Hf _ Hp).
    + destruct (Hi1 k v Hk) as (p&Hc&Hp). exists p. split; [done|]. destruct (list_find (λ a, a.1 = idOf k) ps) as [[i a]|] eqn:Hf; [|done]. exfalso.
      apply list_find_Some in Hf as (Ha&Hid&_). destruct (Hfrom a (list_elem_of_lookup_2 _ _ _ Ha)) as (k2&v2&Hk2&E2&_).
      assert (k = k2) as <- by (eapply Hinj; [eapply Hg; eauto..|congruence]). congruence.
  - intros k' p. rewrite Hlook. destruct (list_find (λ a, a.1 = k') ps) as [[i a]|] eqn:Hf.
    + intros [= <-]. apply list_find_Some in Hf as (Ha&<-&_). destruct (Hfrom a (list_elem_of_lookup_2 _ _ _ Ha)) as (k&v&Hk&E&C). exists k, v. split; [|done].
      by apply lookup_union_Some_l.
    + intros Hp. destruct (Hi2 k' p Hp) as (k&v&Hk&E&C). exists k, v. split; [|done]. apply lookup_union_Some_raw. right. split; [|done].
      destruct (m !! k) as [v'|] eqn:Hm; [|done]. exfalso. destruct (Hto k v' Hm) as (p'&Hp'&_). apply list_find_None in Hf. rewrite list.Forall_forall in Hf. by apply (Hf _ Hp').
Qed.

(** Pending updates go out: the dataplane accepts every object that it should have. *)
Lemma flushUpdates_ok (r : GoRange) t W dp :
  coalesces t (get part dp) W → (∀ k v p D, W !! k = Some v → conv k v = Ret p → accepts p (put part D dp) = true) →
  ∃ t' ms D, flushUpdates r msg t = Ret (t', ms) ∧ recvAll recv ms dp = Some (put part D dp) ∧ coalesces t' D W ∧
    tr_updates t' = ∅ ∧ tr_deletes t' = tr_deletes t.
Proof using Hconv Hinj Hmsg Hupdate.
  intros [S [Hs Hd Hw Hi Ho]] Hacc. unfold flushUpdates. set (l := r _ (map_to_list (tr_updates t))). assert (Hl : l ≡ₚ map_to_list (tr_updates t)) by apply range_perm.
  assert (Hin : ∀ k v, (k, v) ∈ l ↔ tr_updates t !! k = Some v) by (intros k v; by rewrite Hl, elem_of_map_to_list).
  destruct (updatesLoop_good l t) as (ps&->&Hps); [intros k v Hk%Hin; apply Ho; by right|]. eexists _, _, (foldl (λ D kp, <[kp.1 := kp.2]> D) (get part dp) ps).
  split; [done|]. rewrite foldl_delete_all by done. split_and!; [|exists (tr_updates t ∪ S)|done|done].
  - apply (recv_updates _ _ _ _ _ Hupdate). intros k' p D Hkp. apply list_elem_of_lookup in Hkp as [i Hkp]. destruct (Forall2_lookup_r _ _ _ _ _ Hps Hkp) as ([k v]&Hk&Hid&Hc).
    assert (Hk' : tr_updates t !! k = Some v) by (apply Hin; by apply list_elem_of_lookup_2 with i).
    split; [exists k, v; split_and!; [apply Ho; by right|done|done]|]. apply (Hacc k v); [|done]. rewrite Hw. by rewrite Hk'.
  - split; cbn.
    + apply set_eq. intros k. rewrite (foldl_union_elem fst), dom_union_L, elem_of_union, Hs, !elem_of_dom. split.
      * intros [?|([k2 v]&Hk%Hin&<-)]; [by right|left; by eexists].
      * intros [[v Hk%Hin]|?]; [right; by eexists (k, v)|by left].
    + intros k Hk. destruct (Hd k Hk) as [Hk' Hn]. split; [|by rewrite lookup_empty]. rewrite (foldl_union_elem fst). by left.
    + intros k. rewrite lookup_empty, Hw, lookup_union. destruct (tr_updates t !! k) as [v|] eqn:Hk.
      * rewrite decide_False; [by destruct (S !! k)|]. intros [_ Hn]%Hd. congruence.
      * by destruct (S !! k).
    + by apply (image_updates S _ l).
    + intros k v [Hk|Hk]; [|by rewrite lookup_empty in Hk]. apply Ho. apply lookup_union_Some_raw in Hk as [?|[_ ?]]; tauto.
Qed.

Lemma flushDeletes_ok (r : GoRange) t W dp :
  coalesces t (get part dp) W → (∀ k v D, good k v → W !! k = None → releases (idOf k) (put part D dp) = true) →
  ∃ t' ms D, flushDeletes r (λ k, remove (idOf k)) t = (t', ms) ∧ recvAll recv ms dp = Some (put part D dp) ∧ coalesces t' D W ∧
    tr_deletes t' = ∅ ∧ tr_updates t' = tr_updates t.
Proof using Hinj Hremove.
  intros [S [Hs Hd Hw Hi Ho]] Hrel. rewrite flushDeletes_eq. unfold flushRemoves. set (l := r _ (elements (tr_deletes t))).
  assert (Hin : ∀ k, k ∈ l ↔ k ∈ tr_deletes t) by (intros k; unfold l; by rewrite range_perm, elem_of_elements).
  assert (HS : ∀ k, k ∈ l → ∃ v, S !! k = Some v ∧ good k v ∧ W !! k = None).
  { intros k Hk%Hin. destruct (Hd k Hk) as [Hk' Hn]. rewrite Hs in Hk'. apply elem_of_dom in Hk' as [v Hv]. exists v. split_and!; [done|apply Ho; by left|].
    by rewrite Hw, Hn, decide_True. }
  eexists _, _, (foldl (λ D k, delete k D) (get part dp) (idOf <$> l)). split; [done|]. split_and!; [|exists (foldl (λ S k, delete k S) S l)|done|done].
  - rewrite (list_fmap_compose idOf remove). apply (recv_removes _ _ _ _ Hremove).
    + apply NoDup_fmap_2_strong; [|unfold l; rewrite range_perm; apply NoDup_elements].
      intros k1 k2 (v1&_&G1&_)%HS (v2&_&G2&_)%HS Heq. eauto.
    + intros k' (k&->&Hk)%list_elem_of_fmap. destruct (HS k Hk) as (v&Hv&_). destruct (proj1 Hi k v Hv) as (p&_&Hp). by rewrite Hp.
    + intros k' D (k&->&Hk)%list_elem_of_fmap. destruct (HS k Hk) as (v&_&G&N). eauto.
  - assert (Hlook : ∀ k, foldl (λ S k, delete k S) S l !! k = if decide (k ∈ l) then None else S !! k) by apply foldl_delete_lookup.
    split; cbn.
    + apply set_eq. intros k. rewrite foldl_difference_elem, Hs, !elem_of_dom, Hlook. destruct (decide (k ∈ l)); [rewrite is_Some_alt|]; naive_solver.
    + by intros k ?%not_elem_of_empty.
    + intros k. rewrite Hw, Hlook, (decide_False (P := k ∈ (∅ : gset K))) by apply not_elem_of_empty. destruct (tr_updates t !! k); [done|]. by rewrite (decide_ext _ _ _ _ (Hin k)).
    + split.
      * intros k v. rewrite Hlook. destruct (decide (k ∈ l)) as [|Hout]; [done|]. intros Hk. destruct (proj1 Hi k v Hk) as (p&Hc&Hp). exists p. split; [done|].
        rewrite foldl_delete_lookup, decide_False; [done|]. intros (k2&Heq&Hk2)%list_elem_of_fmap. destruct (HS k2 Hk2) as (v2&_&G2&_). apply Hout.
        assert (Hg : good k v) by (apply Ho; by left). by rewrite (Hinj _ _ _ _ Hg G2 Heq).
      * intros k' p. rewrite foldl_delete_lookup. destruct (decide (k' ∈ idOf <$> l)) as [|Hout]; [done|]. intros Hp. destruct (proj2 Hi k' p Hp) as (k&v&Hk&<-&Hc).
        exists k, v. split; [|done]. rewrite Hlook, decide_False; [done|]. intros Hk'. by apply Hout, list_elem_of_fmap_2.
    + intros k v. rewrite Hlook. destruct (decide (k ∈ l)); [intros [?|?]; [done|]|]; apply Ho; tauto.
Qed.

(** With nothing pending, the dataplane has what it should have; with no update pending, at least that. *)
Lemma coalesces_settled t D W : coalesces t D W → tr_updates t = ∅ → tr_deletes t = ∅ → image W D.
Proof using Type.
  intros [S [Hs Hd Hw Hi Ho]] Hu Hdel. assert (W = S) as ->; [|done]. apply map_eq. intros k. by rewrite Hw, Hu, Hdel, lookup_empty, decide_False by apply not_elem_of_empty.
Qed.

Lemma coalesces_covers t D W k v : coalesces t D W → tr_updates t = ∅ → W !! k = Some v → ∃ p, conv k v = Ret p ∧ D !! idOf k = Some p.
Proof using Type.
  intros [S [Hs Hd Hw Hi Ho]] Hu. rewrite Hw, Hu, lookup_empty. destruct (decide _); [done|]. apply Hi.
Qed.

Lemma coalesces_good t D W k v : coalesces t D W → W !! k = Some v → good k v.
Proof using Type.
  intros [S [Hs Hd Hw Hi Ho]]. rewrite Hw. destruct (tr_updates t !! k) eqn:Hk; [intros [= <-]; apply Ho; by right|]. destruct (decide _); [done|]. intros ?. apply Ho. by left.
Qed.

(** Adds and removes where the update is the message. *)
Context (key : K → V → K) (Hkey : ∀ k v, good k v → key k v = k).

Lemma flushAdds_ok (r : GoRange) (umsg : V → M) t W dp : (∀ k v, msg k v = Ret (umsg v)) →
  coalesces t (get part dp) W → (∀ k v p D, W !! k = Some v → conv k v = Ret p → accepts p (put part D dp) = true) →
  ∃ t' ms D, flushAdds r key umsg t = (t', ms) ∧ recvAll recv ms dp = Some (put part D dp) ∧ coalesces t' D W ∧
    tr_updates t' = ∅ ∧ tr_deletes t' = tr_deletes t.
Proof using Hconv Hinj Hkey Hmsg Hupdate.
  intros Hm Hc Hacc. destruct (flushUpdates_ok r t W dp Hc Hacc) as (t'&ms&D&Hf&Hrest). exists t', ms, D. split; [|done].
  assert (Heq : flushUpdates r msg t = flushUpdates r (λ _ v, Ret (umsg v)) t).
  { unfold flushUpdates. generalize (r _ (map_to_list (tr_updates t))) as l. intros l. generalize t. clear -Hm.
    induction l as [|[k v] l IH]; intros t0; cbn [updatesLoop]; [done|]. by rewrite Hm, IH. }
  rewrite Heq, (flushAdds_eq r key) in Hf by (intros k v Hk; apply Hkey; destruct Hc as [S [_ _ _ _ Ho]]; apply Ho; by right).
  apply (f_equal (λ o, match o with Ret x => x | _ => (t, []) end)) in Hf. exact Hf.
Qed.
End coalesce.
