(* ===== verification/SequencerSpec.v ===== *)
(** * What the event sequencer promises

    The dataplane, as far as the messages describe it: it holds IP sets, policies, profiles,
    endpoints and so on, and it is strict.  It refuses a policy that names an IP set it does not
    have, an endpoint that names a policy or profile it does not have, the removal of an object
    that another one names or that it does not have, and a change of members that does not fit.

    The other side is what the calculation graph asks for: [Want] is the state that its calls
    describe, [want_call] is one call, and it is undefined for calls that are a misuse. *)
From S2P Require Import Prelude ModelRule UniqueLabels Multidict CIDR MemberDedup CIDRTrieSpec NamedPortCandidates NetIP NetString PolicySorter RuleScanner RuleScannerSpec.
From S2P Require Import RuleConvert ProtoMessages EventSequencer SequencerTracked.
From stdpp Require Import base list gmap numbers strings.
From stdpp Require Import options.

(** ** References between objects *)
Definition protoRuleSets (r : ProtoRule) : list string :=
  pr_SrcNamedPortIpSetIds r ++ pr_DstNamedPortIpSetIds r ++ pr_SrcIpSetIds r ++ pr_DstIpSetIds r ++ pr_DstIpPortSetIds r ++
  pr_NotSrcIpSetIds r ++ pr_NotDstIpSetIds r ++ pr_NotSrcNamedPortIpSetIds r ++ pr_NotDstNamedPortIpSetIds r.

Definition policySets (p : ProtoPolicy) : list string := (pp_InboundRules p ++ pp_OutboundRules p) ≫= protoRuleSets.
Definition profileSets (p : ProtoProfile) : list string := (pf_InboundRules p ++ pf_OutboundRules p) ≫= protoRuleSets.

Definition tierPolicies (t : ProtoTierInfo) : list PolicyKey := pt_IngressPolicies t ++ pt_EgressPolicies t.

Abbreviation ProtoEndpoint := (ProtoWorkloadEndpoint + ProtoHostEndpoint)%type.
Abbreviation ProtoEndpointID := (WorkloadEndpointID + string)%type.

Definition endpointPolicies (ep : ProtoEndpoint) : list PolicyKey :=
  match ep with
  | inl w => pw_Tiers w ≫= tierPolicies
  | inr h => (ph_Tiers h ++ ph_UntrackedTiers h ++ ph_PreDnatTiers h ++ ph_ForwardTiers h) ≫= tierPolicies
  end.
Definition endpointProfiles (ep : ProtoEndpoint) : list string := match ep with inl w => pw_ProfileIds w | inr h => ph_ProfileIds h end.

Section spec.
Context {PT : Type}.
Abbreviation TierInfo := (TierInfo (PT := PT)).
Abbreviation endpointUpdate := (endpointUpdate (PT := PT)).
Context (Sum224 : string → string) (Marshal : ProtoRule → option string).
Context {Config ConfigUpdate : Type}.
Context (UpdateFrom : Config → option (gmap string string) → ConfigSource → option (Config * bool)) (ToConfigUpdate : Config → ConfigUpdate).
Abbreviation Msg := (Msg ConfigUpdate).
Abbreviation Sequencer := (EventSequencer (PT := PT) (Config := Config)).

(** ** The dataplane *)
Record Dataplane := MkDataplane {
  d_sets : gmap string (IPSetType * gset string);
  d_policies : gmap PolicyKey ProtoPolicy;
  d_profiles : gmap string ProtoProfile;
  d_endpoints : gmap ProtoEndpointID ProtoEndpoint;
  d_hosts : gmap string HostInfo;
  d_pools : gmap string ProtoIPAMPool;
  d_wireguard : gmap string (string * string);
  d_wireguardV6 : gmap string (string * string);
  d_serviceAccounts : gmap (string * string) ProtoServiceAccountUpdate;
  d_namespaces : gmap string ProtoNamespaceUpdate;
  d_vteps : gmap string ProtoVTEPUpdate;
  d_routes : gmap string ProtoRouteUpdate;
  d_services : gmap (string * string) ProtoServiceUpdate;
  d_encap : option Encapsulation;
  d_bgp : option ProtoGlobalBGPConfig;
  d_config : option ConfigUpdate
}.
Implicit Types (dp : Dataplane).

Definition emptyDataplane : Dataplane := MkDataplane ∅ ∅ ∅ ∅ ∅ ∅ ∅ ∅ ∅ ∅ ∅ ∅ ∅ None None None.

Definition put_sets x dp := let '(MkDataplane _ p q e h po w w6 sa ns v r sv en b c) := dp in MkDataplane x p q e h po w w6 sa ns v r sv en b c.
Definition put_policies x dp := let '(MkDataplane s _ q e h po w w6 sa ns v r sv en b c) := dp in MkDataplane s x q e h po w w6 sa ns v r sv en b c.
Definition put_profiles x dp := let '(MkDataplane s p _ e h po w w6 sa ns v r sv en b c) := dp in MkDataplane s p x e h po w w6 sa ns v r sv en b c.
Definition put_endpoints x dp := let '(MkDataplane s p q _ h po w w6 sa ns v r sv en b c) := dp in MkDataplane s p q x h po w w6 sa ns v r sv en b c.
Definition put_hosts x dp := let '(MkDataplane s p q e _ po w w6 sa ns v r sv en b c) := dp in MkDataplane s p q e x po w w6 sa ns v r sv en b c.
Definition put_pools x dp := let '(MkDataplane s p q e h _ w w6 sa ns v r sv en b c) := dp in MkDataplane s p q e h x w w6 sa ns v r sv en b c.
Definition put_wireguard x dp := let '(MkDataplane s p q e h po _ w6 sa ns v r sv en b c) := dp in MkDataplane s p q e h po x w6 sa ns v r sv en b c.
Definition put_wireguardV6 x dp := let '(MkDataplane s p q e h po w _ sa ns v r sv en b c) := dp in MkDataplane s p q e h po w x sa ns v r sv en b c.
Definition put_serviceAccounts x dp := let '(MkDataplane s p q e h po w w6 _ ns v r sv en b c) := dp in MkDataplane s p q e h po w w6 x ns v r sv en b c.
Definition put_namespaces x dp := let '(MkDataplane s p q e h po w w6 sa _ v r sv en b c) := dp in MkDataplane s p q e h po w w6 sa x v r sv en b c.
Definition put_vteps x dp := let '(MkDataplane s p q e h po w w6 sa ns _ r sv en b c) := dp in MkDataplane s p q e h po w w6 sa ns x r sv en b c.
Definition put_routes x dp := let '(MkDataplane s p q e h po w w6 sa ns v _ sv en b c) := dp in MkDataplane s p q e h po w w6 sa ns v x sv en b c.
Definition put_services x dp := let '(MkDataplane s p q e h po w w6 sa ns v r _ en b c) := dp in MkDataplane s p q e h po w w6 sa ns v r x en b c.
Definition put_encap x dp := let '(MkDataplane s p q e h po w w6 sa ns v r sv _ b c) := dp in MkDataplane s p q e h po w w6 sa ns v r sv x b c.
Definition put_bgp x dp := let '(MkDataplane s p q e h po w w6 sa ns v r sv en _ c) := dp in MkDataplane s p q e h po w w6 sa ns v r sv en x c.
Definition put_config x dp := let '(MkDataplane s p q e h po w w6 sa ns v r sv en b _) := dp in MkDataplane s p q e h po w w6 sa ns v r sv en b x.

Definition knows `{Countable K} {A} (ids : list K) (m : gmap K A) : bool := forallb (λ id, bool_decide (is_Some (m !! id))) ids.
Definition unnamed `{Countable K} {J A} `{Countable J} (refs : A → list K) (id : K) (m : gmap J A) : bool :=
  bool_decide (map_Forall (λ _ a, id ∉ refs a) m).

(** A message that names unknown objects, removes an unknown object or one that is named, or
    changes members that do not fit, is refused. *)
Definition accepts_policy (p : ProtoPolicy) dp : bool := knows (policySets p) (d_sets dp).
Definition accepts_profile (p : ProtoProfile) dp : bool := knows (profileSets p) (d_sets dp).
Definition accepts_endpoint (ep : ProtoEndpoint) dp : bool := knows (endpointPolicies ep) (d_policies dp) && knows (endpointProfiles ep) (d_profiles dp).
Definition releases_set (id : string) dp : bool := unnamed policySets id (d_policies dp) && unnamed profileSets id (d_profiles dp).
Definition releases_policy (id : PolicyKey) dp : bool := unnamed endpointPolicies id (d_endpoints dp).
Definition releases_profile (id : string) dp : bool := unnamed endpointProfiles id (d_endpoints dp).

Definition recv_update `{Countable K} {P} (put : gmap K P → Dataplane → Dataplane) (m : gmap K P) (k : K) (p : P) (ok : bool) dp : option Dataplane :=
  if ok then Some (put (<[k := p]> m) dp) else None.
Definition recv_remove `{Countable K} {P} (put : gmap K P → Dataplane → Dataplane) (m : gmap K P) (k : K) (ok : bool) dp : option Dataplane :=
  if bool_decide (is_Some (m !! k)) && ok then Some (put (delete k m) dp) else None.

Definition recv (m : Msg) dp : option Dataplane :=
  match m with
  | DatastoreNotReady => Some dp
  | MsgConfigUpdate c => Some (put_config (Some c) dp)
  | IPSetUpdate id members t => recv_update put_sets (d_sets dp) id (t, list_to_set members) (bool_decide (NoDup members)) dp
  | IPSetDeltaUpdate id added removed =>
      match d_sets dp !! id with
      | Some (t, X) =>
          let A := list_to_set added in let R := list_to_set removed in
          recv_update put_sets (d_sets dp) id (t, (X ∖ R) ∪ A)
            (bool_decide (NoDup added ∧ NoDup removed ∧ R ⊆ X ∧ A ## X ∧ (added ≠ [] ∨ removed ≠ []))) dp
      | None => None
      end
  | IPSetRemove id => recv_remove put_sets (d_sets dp) id (releases_set id dp) dp
  | ActivePolicyUpdate id p => recv_update put_policies (d_policies dp) id p (accepts_policy p dp) dp
  | ActivePolicyRemove id => recv_remove put_policies (d_policies dp) id (releases_policy id dp) dp
  | ActiveProfileUpdate id p => recv_update put_profiles (d_profiles dp) id p (accepts_profile p dp) dp
  | ActiveProfileRemove id => recv_remove put_profiles (d_profiles dp) id (releases_profile id dp) dp
  | WorkloadEndpointUpdate id ep => recv_update put_endpoints (d_endpoints dp) (inl id) (inl ep) (accepts_endpoint (inl ep) dp) dp
  | WorkloadEndpointRemove id => recv_remove put_endpoints (d_endpoints dp) (inl id) true dp
  | HostEndpointUpdate id ep => recv_update put_endpoints (d_endpoints dp) (inr id) (inr ep) (accepts_endpoint (inr ep) dp) dp
  | HostEndpointRemove id => recv_remove put_endpoints (d_endpoints dp) (inr id) true dp
  | MsgEncapsulation e => Some (put_encap (Some e) dp)
  | HostMetadataUpdate h i => recv_update put_hosts (d_hosts dp) h i true dp
  | HostMetadataRemove h => recv_remove put_hosts (d_hosts dp) h true dp
  | IPAMPoolUpdate id p => recv_update put_pools (d_pools dp) id p true dp
  | IPAMPoolRemove id => recv_remove put_pools (d_pools dp) id true dp
  | WireguardEndpointUpdate h k a => recv_update put_wireguard (d_wireguard dp) h (k, a) true dp
  | WireguardEndpointRemove h => recv_remove put_wireguard (d_wireguard dp) h true dp
  | WireguardEndpointV6Update h k a => recv_update put_wireguardV6 (d_wireguardV6 dp) h (k, a) true dp
  | WireguardEndpointV6Remove h => recv_remove put_wireguardV6 (d_wireguardV6 dp) h true dp
  | ServiceAccountUpdate u => recv_update put_serviceAccounts (d_serviceAccounts dp) (sau_Id u) u true dp
  | ServiceAccountRemove id => recv_remove put_serviceAccounts (d_serviceAccounts dp) id true dp
  | NamespaceUpdate u => recv_update put_namespaces (d_namespaces dp) (nsu_Id u) u true dp
  | NamespaceRemove id => recv_remove put_namespaces (d_namespaces dp) id true dp
  | VXLANTunnelEndpointUpdate u => recv_update put_vteps (d_vteps dp) (vt_Node u) u true dp
  | VXLANTunnelEndpointRemove n => recv_remove put_vteps (d_vteps dp) n true dp
  | RouteUpdate u => recv_update put_routes (d_routes dp) (rt_Dst u) u true dp
  | RouteRemove dst => recv_remove put_routes (d_routes dp) dst true dp
  | GlobalBGPConfigUpdate c => Some (put_bgp (Some c) dp)
  | ServiceUpdate u => recv_update put_services (d_services dp) (serviceID u) u true dp
  | ServiceRemove n ns => recv_remove put_services (d_services dp) (n, ns) true dp
  end.

(** No object names another that is not there. *)
Definition closed_dataplane dp : Prop :=
  (∀ k p id, d_policies dp !! k = Some p → id ∈ policySets p → is_Some (d_sets dp !! id)) ∧
  (∀ k p id, d_profiles dp !! k = Some p → id ∈ profileSets p → is_Some (d_sets dp !! id)) ∧
  (∀ k ep id, d_endpoints dp !! k = Some ep → id ∈ endpointPolicies ep → is_Some (d_policies dp !! id)) ∧
  (∀ k ep id, d_endpoints dp !! k = Some ep → id ∈ endpointProfiles ep → is_Some (d_profiles dp !! id)).

(** ** Calls *)
Inductive Call :=
  | CIPSetAdded (setID : string) (t : IPSetType)
  | CIPSetRemoved (setID : string)
  | CMemberAdded (setID : string) (m : IPSetMember)
  | CMemberRemoved (setID : string) (m : IPSetMember)
  | CNotReady
  | CConfig (global selector host : option (gmap string string))
  | CPolicyActive (key : PolicyKey) (rules : ParsedRules)
  | CPolicyInactive (key : PolicyKey)
  | CProfileActive (name : string) (rules : ParsedRules)
  | CProfileInactive (name : string)
  | CEndpoint (key : ModelEndpointKey) (ep : option ModelEndpoint) (computed : list ComputedData) (peer : option string) (tiers : list TierInfo)
  | CEncap (e : Encapsulation)
  | CHost (hostname : string) (info : HostInfo)
  | CHostRemove (hostname : string)
  | CPool (key : NetipPrefix) (pool : IPPool)
  | CPoolRemove (key : NetipPrefix)
  | CWireguard (nodename : string) (wg : Wireguard)
  | CWireguardRemove (nodename : string)
  | CServiceAccount (u : ProtoServiceAccountUpdate)
  | CServiceAccountRemove (id : string * string)
  | CNamespace (u : ProtoNamespaceUpdate)
  | CNamespaceRemove (id : string)
  | CVTEP (u : ProtoVTEPUpdate)
  | CVTEPRemove (node : string)
  | CRoute (u : ProtoRouteUpdate)
  | CRouteRemove (dst : string)
  | CBGPConfig (cfg : option BGPConfiguration)
  | CService (u : ProtoServiceUpdate)
  | CServiceRemove (Name Namespace : string)
  | CFlush (r : GoRange).

Definition quiet (buf : Sequencer) : outcome Empty_set (Sequencer * list Msg) := Ret (buf, []).

Definition seq_call (c : Call) (buf : Sequencer) : outcome Empty_set (Sequencer * list Msg) :=
  match c with
  | CIPSetAdded id t => let! buf' := OnIPSetAdded id t buf in quiet buf'
  | CIPSetRemoved id => let! buf' := OnIPSetRemoved id buf in quiet buf'
  | CMemberAdded id m => let! buf' := OnIPSetMemberAdded id m buf in quiet buf'
  | CMemberRemoved id m => let! buf' := OnIPSetMemberRemoved id m buf in quiet buf'
  | CNotReady => quiet (OnDatastoreNotReady buf)
  | CConfig g s h => quiet (OnConfigUpdate g s h buf)
  | CPolicyActive k rules => quiet (OnPolicyActive k rules buf)
  | CPolicyInactive k => quiet (OnPolicyInactive k buf)
  | CProfileActive n rules => quiet (OnProfileActive n rules buf)
  | CProfileInactive n => quiet (OnProfileInactive n buf)
  | CEndpoint key ep cd peer tiers => quiet (OnEndpointTierUpdate key ep cd peer tiers buf)
  | CEncap e => quiet (OnEncapUpdate e buf)
  | CHost h i => quiet (OnHostMetadataUpdate h i buf)
  | CHostRemove h => quiet (OnHostMetadataRemove h buf)
  | CPool key pool => quiet (OnIPPoolUpdate key pool buf)
  | CPoolRemove key => quiet (OnIPPoolRemove key buf)
  | CWireguard n wg => quiet (OnWireguardUpdate n wg buf)
  | CWireguardRemove n => quiet (OnWireguardRemove n buf)
  | CServiceAccount u => quiet (OnServiceAccountUpdate u buf)
  | CServiceAccountRemove id => quiet (OnServiceAccountRemove id buf)
  | CNamespace u => quiet (OnNamespaceUpdate u buf)
  | CNamespaceRemove id => quiet (OnNamespaceRemove id buf)
  | CVTEP u => quiet (OnVTEPUpdate u buf)
  | CVTEPRemove n => quiet (OnVTEPRemove n buf)
  | CRoute u => quiet (OnRouteUpdate u buf)
  | CRouteRemove dst => quiet (OnRouteRemove dst buf)
  | CBGPConfig cfg => quiet (OnGlobalBGPConfigUpdate cfg buf)
  | CService u => quiet (OnServiceUpdate u buf)
  | CServiceRemove n ns => quiet (OnServiceRemove n ns buf)
  | CFlush r => Flush Sum224 Marshal UpdateFrom ToConfigUpdate r buf
  end.

Fixpoint seq_run (cs : list Call) (buf : Sequencer) : outcome Empty_set (Sequencer * list Msg) :=
  match cs with
  | [] => quiet buf
  | c :: cs' =>
      let! (buf1, ms1) := seq_call c buf in
      let! (buf2, ms2) := seq_run cs' buf1 in
      Ret (buf2, ms1 ++ ms2)
  end.

(** ** What the calls ask for *)
Record Want := MkWant {
  want_sets : gmap string (IPSetType * gset IPSetMember);
  want_policies : gmap PolicyKey ParsedRules;
  want_profiles : gmap string ParsedRules;
  want_endpoints : gmap ModelEndpointKey endpointUpdate;
  want_hosts : gmap string HostInfo;
  want_pools : gmap CIDR IPPool;
  want_wireguard : gmap string Wireguard;
  want_serviceAccounts : gmap (string * string) ProtoServiceAccountUpdate;
  want_namespaces : gmap string ProtoNamespaceUpdate;
  want_vteps : gmap string ProtoVTEPUpdate;
  want_routes : gmap string ProtoRouteUpdate;
  want_services : gmap (string * string) ProtoServiceUpdate;
  want_encap : option Encapsulation;
  want_bgp : option ProtoGlobalBGPConfig
}.
Implicit Types (W : Want).

Definition wantNothing : Want := MkWant ∅ ∅ ∅ ∅ ∅ ∅ ∅ ∅ ∅ ∅ ∅ ∅ None None.

Definition bgpToProto (cfg : option BGPConfiguration) : ProtoGlobalBGPConfig :=
  match cfg with
  | None => MkGlobalBGPConfig [] [] [] "" ""
  | Some c => MkGlobalBGPConfig (bgpCidrs (bgp_ServiceClusterIPs c)) (bgpCidrs (bgp_ServiceExternalIPs c)) (bgpCidrs (bgp_ServiceLoadBalancerIPs c))
                (bgp_LocalWorkloadPeeringIPV4 c) (bgp_LocalWorkloadPeeringIPV6 c)
  end.

Definition setMembers (f : gset IPSetMember → gset IPSetMember) (tX : IPSetType * gset IPSetMember) : IPSetType * gset IPSetMember := (tX.1, f tX.2).

Definition want_call (c : Call) W : Want :=
  let '(MkWant s p q e h po w sa ns v r sv en b) := W in
  match c with
  | CIPSetAdded id t => MkWant (<[id := (t, ∅)]> s) p q e h po w sa ns v r sv en b
  | CIPSetRemoved id => MkWant (delete id s) p q e h po w sa ns v r sv en b
  | CMemberAdded id m => MkWant (alter (setMembers (λ X, {[m]} ∪ X)) id s) p q e h po w sa ns v r sv en b
  | CMemberRemoved id m => MkWant (alter (setMembers (λ X, X ∖ {[m]})) id s) p q e h po w sa ns v r sv en b
  | CNotReady | CConfig _ _ _ | CFlush _ => W
  | CPolicyActive k rules => MkWant s (<[k := rules]> p) q e h po w sa ns v r sv en b
  | CPolicyInactive k => MkWant s (delete k p) q e h po w sa ns v r sv en b
  | CProfileActive n rules => MkWant s p (<[n := rules]> q) e h po w sa ns v r sv en b
  | CProfileInactive n => MkWant s p (delete n q) e h po w sa ns v r sv en b
  | CEndpoint key ep cd peer tiers =>
      MkWant s p q (match ep with Some ep => <[key := MkEndpointUpdate ep cd peer tiers]> e | None => delete key e end) h po w sa ns v r sv en b
  | CEncap x => MkWant s p q e h po w sa ns v r sv (Some x) b
  | CHost n i => MkWant s p q e (<[n := i]> h) po w sa ns v r sv en b
  | CHostRemove n => MkWant s p q e (delete n h) po w sa ns v r sv en b
  | CPool key pool => MkWant s p q e h (<[CIDRFromPrefix key := pool]> po) w sa ns v r sv en b
  | CPoolRemove key => MkWant s p q e h (delete (CIDRFromPrefix key) po) w sa ns v r sv en b
  | CWireguard n x => MkWant s p q e h po (<[n := x]> w) sa ns v r sv en b
  | CWireguardRemove n => MkWant s p q e h po (delete n w) sa ns v r sv en b
  | CServiceAccount u => MkWant s p q e h po w (<[sau_Id u := u]> sa) ns v r sv en b
  | CServiceAccountRemove id => MkWant s p q e h po w (delete id sa) ns v r sv en b
  | CNamespace u => MkWant s p q e h po w sa (<[nsu_Id u := u]> ns) v r sv en b
  | CNamespaceRemove id => MkWant s p q e h po w sa (delete id ns) v r sv en b
  | CVTEP u => MkWant s p q e h po w sa ns (<[vt_Node u := u]> v) r sv en b
  | CVTEPRemove n => MkWant s p q e h po w sa ns (delete n v) r sv en b
  | CRoute u => MkWant s p q e h po w sa ns v (<[rt_Dst u := u]> r) sv en b
  | CRouteRemove dst => MkWant s p q e h po w sa ns v (delete dst r) sv en b
  | CBGPConfig cfg => MkWant s p q e h po w sa ns v r sv en (Some (bgpToProto cfg))
  | CService u => MkWant s p q e h po w sa ns v r (<[serviceID u := u]> sv) en b
  | CServiceRemove n m => MkWant s p q e h po w sa ns v r (delete (n, m) sv) en b
  end.

(** ** When a call is allowed *)
Definition rulesSets (rules : ParsedRules) : list string := (prs_InboundRules rules ++ prs_OutboundRules rules) ≫= parsedIDs.

Definition updatePolicies (u : endpointUpdate) : list PolicyKey := eu_tierInfo u ≫= λ t, kv_Key <$> ti_OrderedPolicies t.
Definition updateProfiles (u : endpointUpdate) : list string := match eu_endpoint u with Workload ep => wep_ProfileIDs ep | Host ep => hep_ProfileIDs ep end.

(** Everything that is asked for names only what is asked for too. *)
Record closed_want W : Prop := {
  cw_policies k rules id : want_policies W !! k = Some rules → id ∈ rulesSets rules → is_Some (want_sets W !! id);
  cw_profiles k rules id : want_profiles W !! k = Some rules → id ∈ rulesSets rules → is_Some (want_sets W !! id);
  cw_tiers k u id : want_endpoints W !! k = Some u → id ∈ updatePolicies u → is_Some (want_policies W !! id);
  cw_epProfiles k u id : want_endpoints W !! k = Some u → id ∈ updateProfiles u → is_Some (want_profiles W !! id)
}.

(** The members have a text. *)
Definition sets_valid (sets : gmap string (IPSetType * gset IPSetMember)) : Prop := ∀ id t X m, sets !! id = Some (t, X) → m ∈ X → member_ok m.

(** The endpoints are those of one host. *)
Context (hostname : string).

Definition good_endpoint (key : ModelEndpointKey) (ep : ModelEndpoint) : Prop :=
  match key, ep with
  | WorkloadEndpointKey h _ _ _, Workload _ => h = hostname
  | HostEndpointKey h _, Host _ => h = hostname
  | _, _ => False
  end.

Definition allowed W (c : Call) : Prop :=
  match c with
  | CIPSetAdded id _ => want_sets W !! id = None
  | CIPSetRemoved id => is_Some (want_sets W !! id)
  | CMemberAdded id m => ∃ t X, want_sets W !! id = Some (t, X) ∧ m ∉ X
  | CMemberRemoved id m => ∃ t X, want_sets W !! id = Some (t, X) ∧ m ∈ X
  | CConfig g s h => ∀ c, is_Some (UpdateFrom c g DatastoreGlobal) ∧ is_Some (UpdateFrom c s DatastorePerSelector) ∧ is_Some (UpdateFrom c h DatastorePerHost)
  | CPolicyActive k rules => ∃ p, ParsedRulesToActivePolicyUpdate Sum224 Marshal k rules = Ret p
  | CProfileActive n rules => ∃ p, profileToProto Sum224 Marshal n rules = Ret p
  | CEndpoint key (Some ep) _ _ _ => good_endpoint key ep
  | CPool key _ => net_ok (CIDRFromPrefix key)
  | CFlush _ => closed_want W ∧ sets_valid (want_sets W)
  | _ => True
  end.

Fixpoint allowed_run (cs : list Call) W : Prop :=
  match cs with [] => True | c :: cs' => allowed W c ∧ allowed_run cs' (want_call c W) end.

(** ** The dataplane has what is asked for *)
Definition endpointID (key : ModelEndpointKey) : ProtoEndpointID :=
  match key with WorkloadEndpointKey _ o w e => inl (o, w, e) | HostEndpointKey _ e => inr e end.

Definition endpointToProto (key : ModelEndpointKey) (u : endpointUpdate) : outcome Empty_set ProtoEndpoint :=
  let t := tierInfoToProtoTierInfo (eu_tierInfo u) in
  match key, eu_endpoint u with
  | WorkloadEndpointKey _ _ _ _, Workload wlep => Ret (inl (ModelWorkloadEndpointToProto wlep (eu_computedData u) (eu_peerData u) (ts_normal t)))
  | HostEndpointKey _ _, Host hep => Ret (inr (ModelHostEndpointToProto hep (ts_normal t) (ts_untracked t) (ts_preDNAT t) (ts_forward t)))
  | _, _ => Panic
  end.

Definition wgV4 (wg : Wireguard) : option (string * string) :=
  if decide (wg_PublicKey wg ≠ "") then Some (wg_PublicKey wg, from_option NetIP_String "" (wg_InterfaceIPv4Addr wg)) else None.
Definition wgV6 (wg : Wireguard) : option (string * string) :=
  if decide (wg_PublicKeyV6 wg ≠ "") then Some (wg_PublicKeyV6 wg, from_option NetIP_String "" (wg_InterfaceIPv6Addr wg)) else None.

Definition setTexts (tX : IPSetType * gset IPSetMember) : IPSetType * gset string := (tX.1, set_map memberText tX.2).

Record has dp W : Prop := {
  has_sets : d_sets dp = setTexts <$> want_sets W;
  has_policies : image (λ k, k) (ParsedRulesToActivePolicyUpdate Sum224 Marshal) (want_policies W) (d_policies dp);
  has_profiles : image (λ k, k) (profileToProto Sum224 Marshal) (want_profiles W) (d_profiles dp);
  has_endpoints : image endpointID endpointToProto (want_endpoints W) (d_endpoints dp);
  has_hosts : d_hosts dp = want_hosts W;
  has_pools : image cidrToIPPoolID (λ _ p, Ret (poolToProto p)) (want_pools W) (d_pools dp);
  has_wireguard : d_wireguard dp = omap wgV4 (want_wireguard W) ∧ d_wireguardV6 dp = omap wgV6 (want_wireguard W);
  has_serviceAccounts : d_serviceAccounts dp = want_serviceAccounts W;
  has_namespaces : d_namespaces dp = want_namespaces W;
  has_vteps : d_vteps dp = want_vteps W;
  has_routes : d_routes dp = want_routes W;
  has_services : d_services dp = want_services W;
  has_encap : d_encap dp = want_encap W;
  has_bgp : d_bgp dp = want_bgp W
}.
End spec.
