(* ===== verification/SequencerIPSets.v ===== *)
(** * IP sets in the event sequencer

    The buffer of IP sets holds the difference between the sets that the dataplane has and the
    sets that it should have, with their members.  Each message of a flush moves one set; all of
    them are accepted. *)
From S2P Require Import Prelude ModelRule UniqueLabels Multidict CIDR MemberDedup CIDRTrieSpec NamedPortCandidates NetIP NetString PolicySorter RuleScanner RuleScannerSpec.
From S2P Require Import RuleConvert ProtoMessages EventSequencer SequencerTracked SequencerSpec.
From stdpp Require Import base list gmap numbers strings.
From stdpp Require Import options.

(** ** The members of a key *)
Section iter.
Context `{Countable K} `{Countable V}.
Implicit Types (md : gmap K (gset V)).

Lemma elem_of_Iter md k v : v ∈ Multidict.Iter md k ↔ md_in md k v.
Proof. by rewrite md_in_lookup. Qed.

Lemma Iter_DiscardKey md k k' : Multidict.Iter (Multidict.DiscardKey md k) k' = if decide (k' = k) then ∅ else Multidict.Iter md k'.
Proof.
  unfold Multidict.Iter, Multidict.DiscardKey. destruct (decide (k' = k)) as [->|]; [by rewrite lookup_delete_eq|by rewrite lookup_delete_ne].
Qed.

Lemma Iter_Put md k v k' : Multidict.Iter (Multidict.Put k v md) k' = if decide (k' = k) then {[v]} ∪ Multidict.Iter md k else Multidict.Iter md k'.
Proof.
  apply set_eq. intros x. rewrite elem_of_Iter, md_Put_in. destruct (decide (k' = k)) as [->|Hne]; rewrite ?elem_of_union, ?elem_of_singleton, elem_of_Iter; tauto.
Qed.

Lemma Iter_Discard md k v k' : Multidict.Iter (Multidict.Discard k v md) k' = if decide (k' = k) then Multidict.Iter md k ∖ {[v]} else Multidict.Iter md k'.
Proof.
  apply set_eq. intros x. rewrite elem_of_Iter, md_Discard_in. destruct (decide (k' = k)) as [->|Hne]; rewrite ?elem_of_difference, ?elem_of_singleton, elem_of_Iter; tauto.
Qed.

Lemma md_ok_DiscardKey md k : md_ok md → md_ok (Multidict.DiscardKey md k).
Proof. unfold Multidict.DiscardKey. intros Hok k' s [_ Hs]%lookup_delete_Some. by eapply Hok. Qed.

Lemma Contains_Iter md k v : Multidict.Contains md k v = true ↔ v ∈ Multidict.Iter md k.
Proof. by rewrite elem_of_Iter. Qed.

Lemma elem_of_IterKeys md k : md_ok md → k ∈ Multidict.IterKeys md ↔ Multidict.Iter md k ≠ ∅.
Proof.
  intros Hok. unfold Multidict.IterKeys, Multidict.Iter. rewrite elem_of_dom. split.
  - intros [s Hs]. rewrite Hs. by apply (Hok k).
  - destruct (md !! k); [by eexists|done].
Qed.
End iter.

(** ** Members as text *)
Section texts.
Implicit Types (X A R : gset IPSetMember).

Definition all_ok X : Prop := ∀ m, m ∈ X → member_ok m.

Lemma memberStrings_ok (r : GoRange) md setID : all_ok (Multidict.Iter md setID) →
  ∃ ts, memberStrings r md setID = Ret ts ∧ NoDup ts ∧ list_to_set ts = (set_map memberText (Multidict.Iter md setID) : gset string) ∧
    (ts = [] ↔ Multidict.Iter md setID = ∅).
Proof.
  intros Hok. set (l := r _ (elements (Multidict.Iter md setID))). assert (Hl : ∀ m, m ∈ l ↔ m ∈ Multidict.Iter md setID) by (intros m; unfold l; by rewrite range_perm, elem_of_elements).
  assert (Hmap : ∀ l', (∀ m, m ∈ l' → member_ok m) → mapOut ToProtobufFormat l' = Ret (memberText <$> l')).
  { induction l' as [|m l' IH]; intros Hl'; cbn [mapOut]; [done|]. rewrite ToProtobufFormat_ok by (apply Hl', list_elem_of_here). cbn [obind].
    rewrite IH; [done|]. intros m' Hm'. by apply Hl', list_elem_of_further. }
  exists (memberText <$> l). split; [apply Hmap; intros m Hm%Hl; by apply Hok|]. split_and!.
  - apply NoDup_fmap_2_strong; [|unfold l; rewrite range_perm; apply NoDup_elements]. intros m1 m2 H1%Hl%Hok H2%Hl%Hok. by apply memberText_inj.
  - apply set_eq. intros s. rewrite elem_of_list_to_set, list_elem_of_fmap, elem_of_map. by setoid_rewrite Hl.
  - split.
    + intros Hn%fmap_nil_inv. apply set_eq. intros m. rewrite <- Hl, Hn. by rewrite elem_of_nil, elem_of_empty.
    + intros He. destruct l as [|m l'] eqn:El; [done|]. assert (Hm : m ∈ Multidict.Iter md setID) by (apply Hl, list_elem_of_here). rewrite He in Hm. by apply not_elem_of_empty in Hm.
Qed.

Lemma texts_delta X A R : all_ok X → all_ok A → R ⊆ X →
  (set_map memberText ((X ∖ R) ∪ A) : gset string) = (set_map memberText X ∖ set_map memberText R) ∪ set_map memberText A.
Proof.
  intros HX HA HR. apply set_eq. intros s. rewrite elem_of_map, elem_of_union, elem_of_difference, !elem_of_map. split.
  - intros (m&->&[[Hm Hn]%elem_of_difference|Hm]%elem_of_union); [|right; by exists m]. left. split; [by exists m|].
    intros (m'&Heq&Hm'). apply memberText_inj in Heq as ->; [done|by apply HX|by apply HX, HR].
  - intros [[(m&->&Hm) Hn]|(m&->&Hm)]; exists m; (split; [done|]); apply elem_of_union; [left|by right]. apply elem_of_difference. split; [done|]. intros Hr. apply Hn. by exists m.
Qed.

Lemma texts_disjoint X A : all_ok X → all_ok A → A ## X → (set_map memberText A : gset string) ## set_map memberText X.
Proof.
  intros HX HA Hd s (m1&->&H1)%elem_of_map (m2&Heq&H2)%elem_of_map. apply memberText_inj in Heq as ->; [|by apply HA|by apply HX]. by apply (Hd m2).
Qed.

Lemma texts_subset X R : R ⊆ X → (set_map memberText R : gset string) ⊆ set_map memberText X.
Proof. intros HR s (m&->&Hm)%elem_of_map. apply elem_of_map. exists m. split; [done|]. by apply HR. Qed.
End texts.

(** ** The buffer *)
Abbreviation SetMap := (gmap string (IPSetType * gset IPSetMember)).

(** What should become of one set, by what is pending and what was sent. *)
Definition set_want (s : IPSetBuffer) (sent want : option (IPSetType * gset IPSetMember)) (id : string) : Prop :=
  let A := Multidict.Iter (pendingAddedIPSetMembers s) id in
  let R := Multidict.Iter (pendingRemovedIPSetMembers s) id in
  match pendingAddedIPSets s !! id with
  | Some t => want = Some (t, A) ∧ R = ∅ ∧ id ∉ pendingRemovedIPSets s
  | None =>
      if decide (id ∈ pendingRemovedIPSets s) then want = None ∧ A = ∅ ∧ R = ∅
      else match sent with
           | Some (t, X) => want = Some (t, (X ∖ R) ∪ A) ∧ R ⊆ X ∧ A ## X
           | None => want = None ∧ A = ∅ ∧ R = ∅
           end
  end.

Record ipsets_from (s : IPSetBuffer) (S W : SetMap) : Prop := {
  is_sent : sentIPSets s = dom S;
  is_removed : pendingRemovedIPSets s ⊆ dom S;
  is_ok : md_ok (pendingAddedIPSetMembers s) ∧ md_ok (pendingRemovedIPSetMembers s);
  is_want id : set_want s (S !! id) (W !! id) id;
  is_members id t X : S !! id = Some (t, X) → all_ok X
}.

Definition ipsets_rel (s : IPSetBuffer) (D : gmap string (IPSetType * gset string)) (W : SetMap) : Prop :=
  ∃ S, ipsets_from s S W ∧ D = setTexts <$> S.

Lemma ipsets_empty : ipsets_rel (MkIPSetBuffer ∅ ∅ ∅ ∅ ∅) ∅ ∅.
Proof.
  exists ∅. split; [|by rewrite fmap_empty]. split; cbn.
  - by rewrite dom_empty_L.
  - set_solver.
  - split; intros k s; by rewrite lookup_empty.
  - intros id. unfold set_want, Multidict.Iter. cbn. by rewrite !lookup_empty, decide_False by apply not_elem_of_empty.
  - intros id t X. by rewrite lookup_empty.
Qed.

(** The members that are waiting to be added are asked for. *)
Lemma pending_valid s S W id : ipsets_from s S W → sets_valid W → all_ok (Multidict.Iter (pendingAddedIPSetMembers s) id).
Proof.
  intros [_ _ _ Hw _] Hv m Hm. specialize (Hw id). unfold set_want in Hw. destruct (pendingAddedIPSets s !! id) as [t|]; [destruct Hw as (HW&_); by apply (Hv id t _ m HW)|].
  destruct (decide _); [destruct Hw as (_&HA&_); rewrite HA in Hm; by apply not_elem_of_empty in Hm|].
  destruct (S !! id) as [[t X]|]; [|destruct Hw as (_&HA&_); rewrite HA in Hm; by apply not_elem_of_empty in Hm]. destruct Hw as (HW&_). apply (Hv id t _ m HW), elem_of_union. by right.
Qed.

(** A set is known to the sequencer when it is asked for. *)
Lemma set_want_known s S W id : ipsets_from s S W → is_Some (W !! id) → unknownIPSet id s = false.
Proof.
  intros [Hs _ _ Hw _] [tX Hx]. unfold unknownIPSet. apply bool_decide_eq_false. intros [Hn Ha]. specialize (Hw id). unfold set_want in Hw. rewrite Ha, Hx in Hw.
  rewrite Hs in Hn. apply not_elem_of_dom in Hn. rewrite Hn in Hw. destruct (decide (id ∈ pendingRemovedIPSets s)); by destruct Hw.
Qed.

(** What is pending for a set decides. *)
Definition same_pending (s s' : IPSetBuffer) (id : string) : Prop :=
  pendingAddedIPSets s' !! id = pendingAddedIPSets s !! id ∧ (id ∈ pendingRemovedIPSets s' ↔ id ∈ pendingRemovedIPSets s) ∧
  Multidict.Iter (pendingAddedIPSetMembers s') id = Multidict.Iter (pendingAddedIPSetMembers s) id ∧
  Multidict.Iter (pendingRemovedIPSetMembers s') id = Multidict.Iter (pendingRemovedIPSetMembers s) id.

Lemma set_want_frame s s' sent want id : same_pending s s' id → set_want s sent want id → set_want s' sent want id.
Proof.
  intros (H1&H2&H3&H4). unfold set_want. rewrite H1, H3, H4. destruct (pendingAddedIPSets s !! id); [by rewrite H2|]. by rewrite (decide_ext _ _ _ _ H2).
Qed.

Ltac frame_tac id id' :=
  rewrite ?Iter_DiscardKey, ?Iter_Put, ?Iter_Discard, ?(decide_False (P := id' = id)) by done; rewrite ?lookup_insert_ne, ?lookup_delete_ne by done.

Section handlers.
Context {PT Config : Type}.
Abbreviation Sequencer := (EventSequencer (PT := PT) (Config := Config)).
Implicit Types (buf : Sequencer) (W : SetMap) (id : string).

Lemma OnIPSetAdded_ok buf D W id t : ipsets_rel (ipSets buf) D W → W !! id = None →
  ∃ s, OnIPSetAdded id t buf = Ret (set_ipSets s buf) ∧ ipsets_rel s D (<[id := (t, ∅)]> W).
Proof.
  intros [S [[Hs Hr [Ho1 Ho2] Hw Hm] HD]] Hn. unfold OnIPSetAdded. rewrite decide_False.
  2: { intros [Hin Hout]. specialize (Hw id). unfold set_want in Hw. rewrite Hn, (decide_False (P := id ∈ pendingRemovedIPSets (ipSets buf))) in Hw by done.
       rewrite Hs in Hin. apply elem_of_dom in Hin as [[t' X] HX]. rewrite HX in Hw. destruct (pendingAddedIPSets (ipSets buf) !! id); by destruct Hw. }
  eexists. split; [done|]. exists S. split; [|done]. split; cbn; [done|set_solver|split; by apply md_ok_DiscardKey| |done].
  - intros id'. destruct (decide (id' = id)) as [->|Hne].
    + unfold set_want. cbn. rewrite !lookup_insert_eq, !Iter_DiscardKey, !decide_True by done. split_and!; [done|done|set_solver].
    + rewrite lookup_insert_ne by done. apply (set_want_frame (ipSets buf)); [|done]. unfold same_pending. cbn. frame_tac id id'. split_and!; [done|set_solver|done|done].
Qed.

Lemma OnIPSetRemoved_ok buf D W id : ipsets_rel (ipSets buf) D W → is_Some (W !! id) →
  ∃ s, OnIPSetRemoved id buf = Ret (set_ipSets s buf) ∧ ipsets_rel s D (delete id W).
Proof.
  intros [S [Hi HD]] Hn. unfold OnIPSetRemoved. rewrite (set_want_known _ _ _ _ Hi Hn). destruct Hi as [Hs Hr [Ho1 Ho2] Hw Hm].
  eexists. split; [done|]. exists S. split; [|done].
  set (rem := if decide (id ∈ sentIPSets (ipSets buf)) then {[id]} ∪ pendingRemovedIPSets (ipSets buf) else pendingRemovedIPSets (ipSets buf)).
  assert (Hother : ∀ id', id' ≠ id → id' ∈ rem ↔ id' ∈ pendingRemovedIPSets (ipSets buf)) by (intros id' Hne; subst rem; destruct (decide _); set_solver).
  split; cbn; [done| |split; by apply md_ok_DiscardKey| |done].
  - subst rem. destruct (decide _); [|done]. apply union_least; [|done]. rewrite Hs in *. set_solver.
  - intros id'. destruct (decide (id' = id)) as [->|Hne].
    + unfold set_want. cbn. rewrite !lookup_delete_eq, !Iter_DiscardKey, !(decide_True (P := id = id)) by done. destruct (decide (id ∈ rem)) as [|Hout]; [done|].
      assert (Hsn : S !! id = None); [|by rewrite Hsn]. apply not_elem_of_dom. rewrite <- Hs. intros Hin. apply Hout. subst rem. rewrite decide_True by done. set_solver.
    + rewrite lookup_delete_ne by done. apply (set_want_frame (ipSets buf)); [|done]. unfold same_pending. cbn. frame_tac id id'. split_and!; [done|by apply Hother|done|done].
Qed.

(** Members come and go only in sets that are not about to be removed. *)
Lemma set_want_members s sent t X id : set_want s sent (Some (t, X)) id →
  let A := Multidict.Iter (pendingAddedIPSetMembers s) id in let R := Multidict.Iter (pendingRemovedIPSetMembers s) id in
  (pendingAddedIPSets s !! id = Some t ∧ X = A ∧ R = ∅ ∧ (id ∉ pendingRemovedIPSets s)) ∨
  (pendingAddedIPSets s !! id = None ∧ (id ∉ pendingRemovedIPSets s) ∧ ∃ X0, sent = Some (t, X0) ∧ X = (X0 ∖ R) ∪ A ∧ R ⊆ X0 ∧ A ## X0).
Proof.
  unfold set_want. destruct (pendingAddedIPSets s !! id) as [t'|]; [intros ([= <- ->]&?&?); by left|]. destruct (decide _); [by intros [? _]|].
  destruct sent as [[t' X0]|]; [|by intros [? _]]. intros ([= <- ->]&?&?). right. split_and!; [done|done|]. by exists X0.
Qed.

Lemma OnIPSetMemberAdded_ok buf D W id m t X : ipsets_rel (ipSets buf) D W → W !! id = Some (t, X) → m ∉ X →
  ∃ s, OnIPSetMemberAdded id m buf = Ret (set_ipSets s buf) ∧ ipsets_rel s D (alter (setMembers (λ X, {[m]} ∪ X)) id W).
Proof.
  intros [S [Hi HD]] Hx Hm. unfold OnIPSetMemberAdded. rewrite (set_want_known _ _ _ _ Hi) by (by rewrite Hx). destruct Hi as [Hs Hr [Ho1 Ho2] Hw Hmem].
  eexists. split; [done|]. exists S. split; [|done]. pose proof (Hw id) as Hid. rewrite Hx in Hid. apply set_want_members in Hid.
  assert (Hset : alter (setMembers (λ X, {[m]} ∪ X)) id W !! id = Some (t, {[m]} ∪ X)) by (by rewrite lookup_alter_eq, Hx).
  destruct (Multidict.Contains (pendingRemovedIPSetMembers (ipSets buf)) id m) eqn:Hc.
  - apply Contains_Iter in Hc. split; cbn; [done|done|split; [done|by apply md_Discard_ok]| |done].
    intros id'. destruct (decide (id' = id)) as [->|Hne].
    + rewrite Hset. unfold set_want. cbn. rewrite Iter_Discard, decide_True by done. destruct Hid as [(_&_&HR&_)|(Ht&Hnr&X0&HS&HX&HR&HA)]; [set_solver|].
      rewrite Ht, decide_False, HS by done. split_and!; [|set_solver|done]. rewrite HX. do 2 f_equal. apply set_eq. intros x. destruct (decide (x = m)); set_solver.
    + rewrite lookup_alter_ne by done. apply (set_want_frame (ipSets buf)); [|done]. unfold same_pending. cbn. frame_tac id id'. done.
  - assert (Hc' : m ∉ Multidict.Iter (pendingRemovedIPSetMembers (ipSets buf)) id) by (rewrite <- Contains_Iter, Hc; done).
    split; cbn; [done|done|split; [by apply md_Put_ok|done]| |done].
    + intros id'. destruct (decide (id' = id)) as [->|Hne].
      * rewrite Hset. unfold set_want. cbn. rewrite Iter_Put, decide_True by done. destruct Hid as [(Ht&HX&HR&Hnr)|(Ht&Hnr&X0&HS&HX&HR&HA)]; rewrite Ht.
        -- split_and!; [by rewrite HX|done|done].
        -- rewrite decide_False, HS by done. split_and!; [rewrite HX; do 2 f_equal; set_solver|done|set_solver].
      * rewrite lookup_alter_ne by done. apply (set_want_frame (ipSets buf)); [|done]. unfold same_pending. cbn. frame_tac id id'. done.
Qed.

Lemma OnIPSetMemberRemoved_ok buf D W id m t X : ipsets_rel (ipSets buf) D W → W !! id = Some (t, X) → m ∈ X →
  ∃ s, OnIPSetMemberRemoved id m buf = Ret (set_ipSets s buf) ∧ ipsets_rel s D (alter (setMembers (λ X, X ∖ {[m]})) id W).
Proof.
  intros [S [Hi HD]] Hx Hm. unfold OnIPSetMemberRemoved. rewrite (set_want_known _ _ _ _ Hi) by (by rewrite Hx). destruct Hi as [Hs Hr [Ho1 Ho2] Hw Hmem].
  eexists. split; [done|]. exists S. split; [|done]. pose proof (Hw id) as Hid. rewrite Hx in Hid. apply set_want_members in Hid.
  assert (Hset : alter (setMembers (λ X, X ∖ {[m]})) id W !! id = Some (t, X ∖ {[m]})) by (by rewrite lookup_alter_eq, Hx).
  destruct (Multidict.Contains (pendingAddedIPSetMembers (ipSets buf)) id m) eqn:Hc.
  - apply Contains_Iter in Hc. split; cbn; [done|done|split; [by apply md_Discard_ok|done]| |done].
    + intros id'. destruct (decide (id' = id)) as [->|Hne].
      * rewrite Hset. unfold set_want. cbn. rewrite Iter_Discard, decide_True by done. destruct Hid as [(Ht&HX&HR&Hnr)|(Ht&Hnr&X0&HS&HX&HR&HA)]; rewrite Ht.
        -- split_and!; [by rewrite HX|done|done].
        -- rewrite decide_False, HS by done. split_and!; [rewrite HX; do 2 f_equal; set_solver|done|set_solver].
      * rewrite lookup_alter_ne by done. apply (set_want_frame (ipSets buf)); [|done]. unfold same_pending. cbn. frame_tac id id'. done.
  - assert (Hc' : m ∉ Multidict.Iter (pendingAddedIPSetMembers (ipSets buf)) id) by (rewrite <- Contains_Iter, Hc; done).
    split; cbn; [done|done|split; [done|by apply md_Put_ok]| |done].
    intros id'. destruct (decide (id' = id)) as [->|Hne].
    + rewrite Hset. unfold set_want. cbn. rewrite Iter_Put, decide_True by done. destruct Hid as [(Ht&HX&HR&Hnr)|(Ht&Hnr&X0&HS&HX&HR&HA)]; [set_solver|]. rewrite Ht.
      rewrite decide_False, HS by done. split_and!; [rewrite HX; do 2 f_equal; set_solver|set_solver|done].
    + rewrite lookup_alter_ne by done. apply (set_want_frame (ipSets buf)); [|done]. unfold same_pending. cbn. frame_tac id id'. done.
Qed.
End handlers.

(** ** Flushing *)
Section flush.
Context {ConfigUpdate : Type}.
Abbreviation recv := (recv (ConfigUpdate := ConfigUpdate)).
Implicit Types (s : IPSetBuffer) (W : SetMap) (id : string) (dp : Dataplane (ConfigUpdate := ConfigUpdate)).

Lemma put_sets_get D dp : d_sets (put_sets D dp) = D.
Proof. by destruct dp. Qed.
Lemma put_sets_put D D' dp : put_sets D (put_sets D' dp) = put_sets D dp.
Proof. by destruct dp. Qed.
Lemma put_sets_same dp : put_sets (d_sets dp) dp = dp.
Proof. by destruct dp. Qed.

(** One new set. *)
Lemma added_step (r : GoRange) s dp W id t : sets_valid W → ipsets_rel s (d_sets dp) W → pendingAddedIPSets s !! id = Some t →
  ∃ members D, memberStrings r (pendingAddedIPSetMembers s) id = Ret members ∧
    recv (IPSetUpdate id members t) dp = Some (put_sets D dp) ∧
    ipsets_rel (MkIPSetBuffer (delete id (pendingAddedIPSets s)) (pendingRemovedIPSets s) (Multidict.DiscardKey (pendingAddedIPSetMembers s) id)
      (pendingRemovedIPSetMembers s) ({[id]} ∪ sentIPSets s)) D W.
Proof.
  intros Hv [S [Hi HD]] Ht. pose proof (λ id, pending_valid _ _ _ id Hi Hv) as Ha. destruct Hi as [Hs Hr [Ho1 Ho2] Hw Hmem]. destruct (memberStrings_ok r _ id (Ha id)) as (ts&->&Hnd&Hts&_).
  exists ts, (<[id := (t, list_to_set ts)]> (d_sets dp)). split; [done|]. split; [cbn; unfold recv_update; by rewrite bool_decide_true|].
  exists (<[id := (t, Multidict.Iter (pendingAddedIPSetMembers s) id)]> S). split; [split; cbn|].
  - by rewrite dom_insert_L, Hs.
  - rewrite dom_insert_L. set_solver.
  - split; [by apply md_ok_DiscardKey|done].
  - intros id'. pose proof (Hw id') as Hid. destruct (decide (id' = id)) as [->|Hne].
    + unfold set_want in Hid |- *. rewrite Ht in Hid. destruct Hid as (->&HR&Hnr). cbn. rewrite lookup_delete_eq, lookup_insert_eq, Iter_DiscardKey, decide_False, decide_True, HR by done.
      split_and!; [do 2 f_equal; set_solver|set_solver|set_solver].
    + rewrite lookup_insert_ne by done. apply (set_want_frame s); [|done]. unfold same_pending. cbn. frame_tac id id'. done.
  - intros id' t' X [[<- [= <- <-]]|[_ HX]]%lookup_insert_Some; [apply Ha|by apply (Hmem id' t')].
  - by rewrite fmap_insert, HD, Hts.
Qed.

Lemma addedLoop_ok (r : GoRange) l : ∀ s dp W, sets_valid W → ipsets_rel s (d_sets dp) W → NoDup l.*1 → (∀ id t, (id, t) ∈ l ↔ pendingAddedIPSets s !! id = Some t) →
  ∃ s' ms D, addedLoop r l s = Ret (s', ms) ∧ recvAll recv ms dp = Some (put_sets D dp) ∧ ipsets_rel s' D W ∧ pendingAddedIPSets s' = ∅.
Proof.
  induction l as [|[id t] l IH]; intros s dp W Hv Hi Hnd Hl; cbn [addedLoop].
  { exists s, [], (d_sets dp). split_and!; [done|cbn; by rewrite put_sets_same|done|]. apply map_empty. intros id. destruct (_ !! id) as [t|] eqn:Ht; [|done].
    apply Hl in Ht. by apply elem_of_nil in Ht. }
  rewrite fmap_cons in Hnd. apply list.NoDup_cons in Hnd as [Hid Hnd]. destruct (added_step r s dp W id t Hv Hi) as (ts&D&->&Hrecv&Hi1); [apply Hl, list_elem_of_here|].
  cbn [obind]. destruct (IH (MkIPSetBuffer (delete id (pendingAddedIPSets s)) (pendingRemovedIPSets s)
    (Multidict.DiscardKey (pendingAddedIPSetMembers s) id) (pendingRemovedIPSetMembers s) ({[id]} ∪ sentIPSets s)) (put_sets D dp) W) as (s'&ms&D'&->&Hms&Hi'&He).
  - done.
  - by rewrite put_sets_get.
  - done.
  - intros id' t'. cbn. rewrite lookup_delete_Some, <- Hl, elem_of_cons. split.
    + intros Hin. split; [|by right]. intros <-. apply Hid. exact (list_elem_of_fmap_2 fst _ _ Hin).
    + intros [Hne [[= -> ->]|Hin]]; done.
  - cbn [obind]. exists s', (IPSetUpdate id ts t :: ms), D'. split_and!; [done| |done|done]. cbn [recvAll]. by rewrite Hrecv, Hms, put_sets_put.
Qed.

(** One set whose members change. *)
Lemma delta_step (r : GoRange) s dp W id : sets_valid W → ipsets_rel s (d_sets dp) W → pendingAddedIPSets s = ∅ →
  Multidict.Iter (pendingAddedIPSetMembers s) id ≠ ∅ ∨ Multidict.Iter (pendingRemovedIPSetMembers s) id ≠ ∅ →
  ∃ m D, flushAddsOrRemoves r id s = Ret (MkIPSetBuffer (pendingAddedIPSets s) (pendingRemovedIPSets s)
      (Multidict.DiscardKey (pendingAddedIPSetMembers s) id) (Multidict.DiscardKey (pendingRemovedIPSetMembers s) id) (sentIPSets s), m) ∧
    recv m dp = Some (put_sets D dp) ∧
    ipsets_rel (MkIPSetBuffer (pendingAddedIPSets s) (pendingRemovedIPSets s) (Multidict.DiscardKey (pendingAddedIPSetMembers s) id)
      (Multidict.DiscardKey (pendingRemovedIPSetMembers s) id) (sentIPSets s)) D W.
Proof.
  intros Hv [S [Hi HD]] Hempty Hne. pose proof (λ id, pending_valid _ _ _ id Hi Hv) as Ha. destruct Hi as [Hs Hr [Ho1 Ho2] Hw Hmem]. pose proof (Hw id) as Hid. unfold set_want in Hid. rewrite Hempty, lookup_empty in Hid.
  destruct (decide (id ∈ pendingRemovedIPSets s)) as [|Hnr]; [destruct Hid as (_&?&?); tauto|]. destruct (S !! id) as [[t X]|] eqn:HSid; [|destruct Hid as (_&?&?); tauto].
  destruct Hid as (HW&HR&HA). assert (HX : all_ok X) by (by apply (Hmem id t)).
  destruct (memberStrings_ok r _ id (Ha id)) as (ts&Hts&Hnd&Hset&Hnil). destruct (memberStrings_ok r (pendingRemovedIPSetMembers s) id) as (us&Hus&Hnd'&Hset'&Hnil'); [intros m Hm; by apply HX, HR|].
  unfold flushAddsOrRemoves. rewrite Hts. cbn [obind]. rewrite Hus. cbn [obind].
  eexists _, (<[id := (t, (set_map memberText X ∖ list_to_set us) ∪ list_to_set ts)]> (d_sets dp)). split; [done|]. split.
  - cbn [SequencerSpec.recv]. rewrite HD, lookup_fmap, HSid. cbn. unfold recv_update. rewrite bool_decide_true; [done|]. rewrite Hset, Hset'.
    split_and!; [done|done|by apply texts_subset|by apply texts_disjoint|]. destruct Hne as [Hne|Hne]; [left|right]; intros Hn; [by apply Hnil in Hn|by apply Hnil' in Hn].
  - exists (<[id := (t, (X ∖ Multidict.Iter (pendingRemovedIPSetMembers s) id) ∪ Multidict.Iter (pendingAddedIPSetMembers s) id)]> S). split; [split; cbn|].
    + rewrite dom_insert_lookup_L by done. done.
    + rewrite dom_insert_lookup_L by done. done.
    + split; by apply md_ok_DiscardKey.
    + intros id'. destruct (decide (id' = id)) as [->|Hne'].
      * unfold set_want. cbn. rewrite Hempty, lookup_empty, decide_False, lookup_insert_eq, !Iter_DiscardKey, !decide_True, HW by done. split_and!; [do 2 f_equal; set_solver|set_solver|set_solver].
      * rewrite lookup_insert_ne by done. apply (set_want_frame s); [|done]. unfold same_pending. cbn. frame_tac id id'. done.
    + intros id' t' X' [[<- [= <- <-]]|[_ HX']]%lookup_insert_Some; [|by apply (Hmem id' t')]. intros m [[Hm _]%elem_of_difference|Hm]%elem_of_union; [by apply HX|by apply (Ha id)].
    + rewrite fmap_insert, HD. f_equal. unfold setTexts. cbn [fst snd]. by rewrite texts_delta, Hset, Hset' by (done || apply Ha).
Qed.

(** A loop over sets with changes; what is left to do afterwards. *)
Lemma deltaLoop_ok (r : GoRange) l : ∀ s dp W, sets_valid W → ipsets_rel s (d_sets dp) W → pendingAddedIPSets s = ∅ → NoDup l →
  (∀ id, id ∈ l → Multidict.Iter (pendingAddedIPSetMembers s) id ≠ ∅ ∨ Multidict.Iter (pendingRemovedIPSetMembers s) id ≠ ∅) →
  ∃ s' ms D, deltaLoop r l s = Ret (s', ms) ∧ recvAll recv ms dp = Some (put_sets D dp) ∧ ipsets_rel s' D W ∧
    pendingAddedIPSets s' = ∅ ∧ pendingRemovedIPSets s' = pendingRemovedIPSets s ∧
    (∀ id, Multidict.Iter (pendingAddedIPSetMembers s') id = if decide (id ∈ l) then ∅ else Multidict.Iter (pendingAddedIPSetMembers s) id) ∧
    (∀ id, Multidict.Iter (pendingRemovedIPSetMembers s') id = if decide (id ∈ l) then ∅ else Multidict.Iter (pendingRemovedIPSetMembers s) id).
Proof.
  induction l as [|id l IH]; intros s dp W Hv Hi He Hnd Hl; cbn [deltaLoop].
  { exists s, [], (d_sets dp). split_and!; [done|cbn; by rewrite put_sets_same|done|done|done|..]; intros id; by rewrite decide_False by apply not_elem_of_nil. }
  apply list.NoDup_cons in Hnd as [Hid Hnd]. destruct (delta_step r s dp W id Hv Hi He) as (m&D&->&Hrecv&Hi1); [apply Hl, list_elem_of_here|]. cbn [obind].
  destruct (IH (MkIPSetBuffer (pendingAddedIPSets s) (pendingRemovedIPSets s) (Multidict.DiscardKey (pendingAddedIPSetMembers s) id)
    (Multidict.DiscardKey (pendingRemovedIPSetMembers s) id) (sentIPSets s)) (put_sets D dp) W) as (s'&ms&D'&->&Hms&Hi'&He'&Hr'&HA'&HR').
  - done.
  - by rewrite put_sets_get.
  - done.
  - done.
  - intros id' Hin. cbn. rewrite !Iter_DiscardKey, !decide_False by (intros ->; done). by apply Hl, list_elem_of_further.
  - cbn [obind]. exists s', (m :: ms), D'. split_and!; [done| |done|done|done| |]; [cbn [recvAll]; by rewrite Hrecv, Hms, put_sets_put|..]; intros id'; rewrite ?HA', ?HR'; cbn; rewrite Iter_DiscardKey;
      (destruct (decide (id' ∈ l)) as [Hin|Hout]; [by rewrite decide_True by (by apply list_elem_of_further)|]);
      (destruct (decide (id' = id)) as [->|Hne]; [by rewrite decide_True by apply list_elem_of_here|by rewrite decide_False by (rewrite elem_of_cons; tauto)]).
Qed.

(** No change of members is pending. *)
Definition no_deltas s : Prop := ∀ id, Multidict.Iter (pendingAddedIPSetMembers s) id = ∅ ∧ Multidict.Iter (pendingRemovedIPSetMembers s) id = ∅.

Lemma ipsets_md_ok s D W : ipsets_rel s D W → md_ok (pendingAddedIPSetMembers s) ∧ md_ok (pendingRemovedIPSetMembers s).
Proof. by intros [S [[_ _ Hok _ _] _]]. Qed.

Lemma deltas_ok (r : GoRange) s dp W : sets_valid W → ipsets_rel s (d_sets dp) W → pendingAddedIPSets s = ∅ →
  ∃ s' ms D, deltas r s = Ret (s', ms) ∧ recvAll recv ms dp = Some (put_sets D dp) ∧ ipsets_rel s' D W ∧
    pendingAddedIPSets s' = ∅ ∧ no_deltas s'.
Proof.
  intros Hv Hi He. unfold deltas. destruct (ipsets_md_ok _ _ _ Hi) as [_ Hok2]. set (l1 := r _ (elements (Multidict.IterKeys (pendingRemovedIPSetMembers s)))).
  assert (Hl1 : ∀ id, id ∈ l1 ↔ Multidict.Iter (pendingRemovedIPSetMembers s) id ≠ ∅) by (intros id; unfold l1; rewrite range_perm, elem_of_elements; by apply elem_of_IterKeys).
  destruct (deltaLoop_ok r l1 s dp W Hv Hi He) as (s1&ms1&D1&->&Hms1&Hi1&He1&_&HA1&HR1).
  { unfold l1. rewrite range_perm. apply NoDup_elements. }
  { intros id Hin. right. by apply Hl1. }
  cbn [obind]. destruct (ipsets_md_ok _ _ _ Hi1) as [Hok1 _]. set (l2 := r _ (elements (Multidict.IterKeys (pendingAddedIPSetMembers s1)))).
  assert (Hl2 : ∀ id, id ∈ l2 ↔ Multidict.Iter (pendingAddedIPSetMembers s1) id ≠ ∅) by (intros id; unfold l2; rewrite range_perm, elem_of_elements; by apply elem_of_IterKeys).
  destruct (deltaLoop_ok r l2 s1 (put_sets D1 dp) W) as (s2&ms2&D2&->&Hms2&Hi2&He2&_&HA2&HR2).
  { done. }
  { by rewrite put_sets_get. }
  { done. }
  { unfold l2. rewrite range_perm. apply NoDup_elements. }
  { intros id Hin. left. by apply Hl2. }
  cbn [obind]. exists s2, (ms1 ++ ms2), D2. split_and!; [done| |done|done|].
  - rewrite recvAll_app, Hms1, Hms2. by rewrite put_sets_put.
  - intros id. rewrite HA2, HR2. destruct (decide (id ∈ l2)) as [|Hout2]; [done|]. split.
    + rewrite Hl2 in Hout2. by destruct (decide (Multidict.Iter (pendingAddedIPSetMembers s1) id = ∅)).
    + rewrite HR1. destruct (decide (id ∈ l1)) as [|Hout1]; [done|]. rewrite Hl1 in Hout1. by destruct (decide (Multidict.Iter (pendingRemovedIPSetMembers s) id = ∅)).
Qed.

(** One set that goes. *)
Lemma removed_step s dp W id : ipsets_rel s (d_sets dp) W → id ∈ pendingRemovedIPSets s → (W !! id = None → releases_set id dp = true) →
  ∃ D, recv (IPSetRemove id) dp = Some (put_sets D dp) ∧
    ipsets_rel (MkIPSetBuffer (pendingAddedIPSets s) (pendingRemovedIPSets s ∖ {[id]}) (Multidict.DiscardKey (pendingAddedIPSetMembers s) id)
      (Multidict.DiscardKey (pendingRemovedIPSetMembers s) id) (sentIPSets s ∖ {[id]})) D W.
Proof.
  intros [S [[Hs Hr [Ho1 Ho2] Hw Hmem] HD]] Hin Hrel. pose proof (Hw id) as Hid. unfold set_want in Hid. destruct (pendingAddedIPSets s !! id) as [t|] eqn:Ht; [tauto|].
  rewrite decide_True in Hid by done. destruct Hid as (HW&_&_). exists (delete id (d_sets dp)). assert (Hsome : is_Some (S !! id)) by (by apply elem_of_dom, Hr). split.
  - cbn. unfold recv_remove. rewrite (Hrel HW), HD, bool_decide_true; [done|]. rewrite lookup_fmap. by apply fmap_is_Some.
  - exists (delete id S). split; [split; cbn|].
    + by rewrite dom_delete_L, Hs.
    + rewrite dom_delete_L. set_solver.
    + split; by apply md_ok_DiscardKey.
    + intros id'. destruct (decide (id' = id)) as [->|Hne].
      * unfold set_want. cbn. rewrite Ht, decide_False, lookup_delete_eq, !Iter_DiscardKey, !decide_True by (done || set_solver). done.
      * rewrite lookup_delete_ne by done. apply (set_want_frame s); [|done]. unfold same_pending. cbn. frame_tac id id'. split_and!; [done|set_solver|done|done].
    + intros id' t' X' [_ HX']%lookup_delete_Some. by apply (Hmem id' t').
    + by rewrite fmap_delete, HD.
Qed.

Lemma removedLoop_ok l : ∀ s dp W, ipsets_rel s (d_sets dp) W → NoDup l → (∀ id, id ∈ l → id ∈ pendingRemovedIPSets s) →
  (∀ id D, W !! id = None → releases_set id (put_sets D dp) = true) →
  ∃ s' ms D, removedLoop l s = (s', ms) ∧ recvAll recv ms dp = Some (put_sets D dp) ∧ ipsets_rel s' D W ∧
    pendingAddedIPSets s' = pendingAddedIPSets s ∧ pendingRemovedIPSets s' = foldl (λ X id, X ∖ {[id]}) (pendingRemovedIPSets s) l ∧ (no_deltas s → no_deltas s').
Proof.
  induction l as [|id l IH]; intros s dp W Hi Hnd Hl Hrel; cbn [removedLoop foldl].
  { exists s, [], (d_sets dp). split_and!; [done|cbn; by rewrite put_sets_same|done..]. }
  apply list.NoDup_cons in Hnd as [Hid Hnd]. destruct (removed_step s dp W id Hi) as (D&Hrecv&Hi1).
  { apply Hl, list_elem_of_here. }
  { rewrite <- (put_sets_same dp). apply Hrel. }
  destruct (IH (MkIPSetBuffer (pendingAddedIPSets s) (pendingRemovedIPSets s ∖ {[id]}) (Multidict.DiscardKey (pendingAddedIPSetMembers s) id)
    (Multidict.DiscardKey (pendingRemovedIPSetMembers s) id) (sentIPSets s ∖ {[id]})) (put_sets D dp) W) as (s'&ms&D'&->&Hms&Hi'&He'&Hr'&Hd').
  - by rewrite put_sets_get.
  - done.
  - intros id' Hin. cbn. apply elem_of_difference. split; [by apply Hl, list_elem_of_further|]. rewrite elem_of_singleton. by intros ->.
  - intros id' D'. rewrite put_sets_put. apply Hrel.
  - exists s', (IPSetRemove id :: ms), D'. split_and!; [done| |done|done|done|].
    + cbn [recvAll]. by rewrite Hrecv, Hms, put_sets_put.
    + intros Hno. apply Hd'. intros id'. cbn. rewrite !Iter_DiscardKey. by destruct (decide (id' = id)).
Qed.

(** With nothing pending, the dataplane has the sets that it should have. *)
Lemma ipsets_settled s D W : ipsets_rel s D W → pendingAddedIPSets s = ∅ → pendingRemovedIPSets s = ∅ → no_deltas s → D = setTexts <$> W.
Proof.
  intros [S [[Hs Hr _ Hw _] ->]] Ha Hrem Hno. f_equal. apply map_eq. intros id. specialize (Hw id). destruct (Hno id) as [HA HR]. unfold set_want in Hw.
  rewrite Ha, Hrem, lookup_empty, decide_False, HA, HR in Hw by apply not_elem_of_empty. destruct (S !! id) as [[t X]|]; destruct Hw as [-> _]; [|done]. do 2 f_equal. set_solver.
Qed.

(** With no set waiting to be sent, the dataplane has at least those. *)
Lemma ipsets_covers s D W id : ipsets_rel s D W → pendingAddedIPSets s = ∅ → is_Some (W !! id) → is_Some (D !! id).
Proof.
  intros [S [[Hs Hr _ Hw _] ->]] Ha [tX HW]. specialize (Hw id). unfold set_want in Hw. rewrite Ha, HW, lookup_empty in Hw.
  destruct (decide (id ∈ pendingRemovedIPSets s)); [by destruct Hw|]. rewrite lookup_fmap. destruct (S !! id); [by eexists|by destruct Hw].
Qed.
End flush.
