(* ===== verification/SequencerRefs.v ===== *)
(** * What messages name

    The conversions to messages keep the references: a policy in a message names the IP sets of
    its parsed rules, an endpoint names policies of its tiers and its profiles. *)
From S2P Require Import Prelude ModelRule UniqueLabels PolicySorter RuleScanner RuleScannerSpec RuleConvert ProtoMessages EventSequencer SequencerTracked SequencerSpec.
From stdpp Require Import base list gmap numbers strings.
From stdpp Require Import options.

(** ** Rules *)
Lemma protoRuleSets_RuleId id r : protoRuleSets (set_RuleId id r) = protoRuleSets r.
Proof. done. Qed.

Lemma protoRuleSets_parsed pr id : id ∈ protoRuleSets (parsedRuleToProtoRule pr) ↔ id ∈ parsedIDs pr.
Proof. unfold protoRuleSets, parsedIDs. cbn [pr_SrcNamedPortIpSetIds pr_DstNamedPortIpSetIds pr_SrcIpSetIds pr_DstIpSetIds pr_DstIpPortSetIds pr_NotSrcIpSetIds pr_NotDstIpSetIds pr_NotSrcNamedPortIpSetIds pr_NotDstNamedPortIpSetIds parsedRuleToProtoRule]. rewrite !elem_of_app. tauto. Qed.

Section rules.
Context (Sum224 : string → string) (Marshal : ProtoRule → option string).

(** Only the identifier of a rule is filled in. *)
Lemma fillIn_spec rules : ∀ hash out, fillIn Sum224 Marshal hash rules = Ret out → Forall2 (λ r o, ∃ id, o = set_RuleId id r) rules out.
Proof.
  induction rules as [|r rules IH]; intros hash out; cbn [fillIn]; [intros [= <-]; constructor|].
  destruct (Marshal (set_RuleId "" r)) as [data|]; [|done]. intros (id&_&(rest&Hrest&[= <-])%obind_Ret)%obind_Ret. constructor; [by exists id|by eapply IH].
Qed.

Lemma parsedRulesToProtoRules_spec rules seed out : parsedRulesToProtoRules Sum224 Marshal rules seed = Ret out →
  Forall2 (λ pr o, ∃ id, o = set_RuleId id (parsedRuleToProtoRule pr)) rules out.
Proof.
  intros Hf%fillIn_spec. apply Forall2_fmap_l in Hf. exact Hf.
Qed.

Lemma converted_sets rules out id : Forall2 (λ pr o, ∃ id, o = set_RuleId id (parsedRuleToProtoRule pr)) rules out →
  id ∈ out ≫= protoRuleSets ↔ id ∈ rules ≫= parsedIDs.
Proof.
  induction 1 as [|pr o rules out (i&->) _ IH]; [done|]. rewrite !bind_cons, !elem_of_app, IH, protoRuleSets_RuleId, protoRuleSets_parsed. done.
Qed.

Lemma policy_sets k rules p id : ParsedRulesToActivePolicyUpdate Sum224 Marshal k rules = Ret p → id ∈ policySets p ↔ id ∈ rulesSets rules.
Proof.
  unfold ParsedRulesToActivePolicyUpdate. intros (i&Hi%parsedRulesToProtoRules_spec&(o&Ho%parsedRulesToProtoRules_spec&[= <-])%obind_Ret)%obind_Ret.
  unfold policySets, rulesSets. cbn [pp_InboundRules pp_OutboundRules]. by rewrite !bind_app, !elem_of_app, (converted_sets _ _ id Hi), (converted_sets _ _ id Ho).
Qed.

Lemma profile_sets k rules p id : profileToProto Sum224 Marshal k rules = Ret p → id ∈ profileSets p ↔ id ∈ rulesSets rules.
Proof.
  unfold profileToProto. intros (i&Hi%parsedRulesToProtoRules_spec&(o&Ho%parsedRulesToProtoRules_spec&[= <-])%obind_Ret)%obind_Ret.
  unfold profileSets, rulesSets. cbn [pf_InboundRules pf_OutboundRules]. by rewrite !bind_app, !elem_of_app, (converted_sets _ _ id Hi), (converted_sets _ _ id Ho).
Qed.
End rules.

(** ** Tiers and endpoints *)
Section tiers.
Context {PT : Type}.
Implicit Types (ti : TierInfo (PT := PT)) (t : ProtoTierInfo) (k : PolicyKey).

Lemma addPolicyToTierInfo_keys pol b t k : k ∈ tierPolicies (addPolicyToTierInfo pol b t) → k ∈ tierPolicies t ∨ k = kv_Key pol.
Proof.
  unfold tierPolicies, addPolicyToTierInfo. destruct (GovernsIngress pol), (b && GovernsEgress pol); cbn; rewrite ?elem_of_app, ?list_elem_of_singleton; tauto.
Qed.

(** All four kinds of tiers. *)
Definition splitKeys (s : TierSplit ProtoTierInfo) : list PolicyKey :=
  tierPolicies (ts_normal s) ++ tierPolicies (ts_untracked s) ++ tierPolicies (ts_preDNAT s) ++ tierPolicies (ts_forward s).

Lemma splitPolicy_keys s pol k : k ∈ splitKeys (splitPolicy s pol) → k ∈ splitKeys s ∨ k = kv_Key pol.
Proof.
  destruct s as [n u p f]. unfold splitKeys, splitPolicy. destruct (DoNotTrack (Some (kv_Value pol))), (PreDNAT (Some (kv_Value pol))), (ApplyOnForward (Some (kv_Value pol))); cbn [ts_normal ts_untracked ts_preDNAT ts_forward]; rewrite !elem_of_app;
    intros [Hk|[Hk|[Hk|Hk]]]; try (apply addPolicyToTierInfo_keys in Hk); tauto.
Qed.

Lemma splitTier_keys ti k : k ∈ splitKeys (splitTier ti) → k ∈ kv_Key <$> ti_OrderedPolicies ti.
Proof.
  unfold splitTier. set (s0 := MkTierSplit _ _ _ _). assert (H0 : ∀ k, k ∉ splitKeys s0) by (intros k' Hk'; by apply elem_of_nil in Hk').
  assert (Hgen : ∀ l s, k ∈ splitKeys (foldl splitPolicy s l) → k ∈ splitKeys s ∨ k ∈ kv_Key <$> l).
  { induction l as [|pol l IH]; intros s; cbn [foldl]; [by left|]. intros [Hk|Hk]%IH.
    - apply splitPolicy_keys in Hk as [?| ->]; [by left|right; apply list_elem_of_here].
    - right. by apply list_elem_of_further. }
  intros [Hk|Hk]%Hgen; [by apply H0 in Hk|done].
Qed.

Lemma keepTier_keys t k t' : t' ∈ keepTier t → k ∈ tierPolicies t' → k ∈ tierPolicies t.
Proof. unfold keepTier. case_decide; [intros ->%list_elem_of_singleton|intros ?%elem_of_nil]; done. Qed.

Lemma tierInfo_keys (get : TierSplit ProtoTierInfo → ProtoTierInfo) (tiers : list (TierInfo (PT := PT))) k :
  (∀ s k, k ∈ tierPolicies (get s) → k ∈ splitKeys s) →
  k ∈ ((splitTier <$> tiers) ≫= λ s, keepTier (get s)) ≫= tierPolicies → k ∈ tiers ≫= λ ti, kv_Key <$> ti_OrderedPolicies ti.
Proof.
  intros Hget (t'&Hk&(s&Hs&(ti&->&Hti)%list_elem_of_fmap)%list_elem_of_bind)%list_elem_of_bind. apply list_elem_of_bind. exists ti. split; [|done].
  apply splitTier_keys, Hget. by eapply keepTier_keys.
Qed.

Lemma ApplyTo_refs cds : ∀ w, pw_Tiers (foldl (λ w cd, ApplyTo cd w) w cds) = pw_Tiers w ∧ pw_ProfileIds (foldl (λ w cd, ApplyTo cd w) w cds) = pw_ProfileIds w.
Proof. induction cds as [|cd cds IH]; intros w; cbn [foldl]; [done|]. destruct (IH (ApplyTo cd w)) as [-> ->]. by destruct w, cd. Qed.

Lemma workload_refs wep cds peer tiers : pw_Tiers (ModelWorkloadEndpointToProto wep cds peer tiers) = tiers ∧
  pw_ProfileIds (ModelWorkloadEndpointToProto wep cds peer tiers) = wep_ProfileIDs wep.
Proof. unfold ModelWorkloadEndpointToProto. cbv zeta. by rewrite (proj1 (ApplyTo_refs _ _)), (proj2 (ApplyTo_refs _ _)). Qed.

Lemma endpoint_refs key (u : endpointUpdate (PT := PT)) ep : endpointToProto key u = Ret ep →
  (∀ k, k ∈ endpointPolicies ep → k ∈ updatePolicies u) ∧ endpointProfiles ep = updateProfiles u.
Proof.
  assert (Hn : ∀ s k, k ∈ tierPolicies (ts_normal s) → k ∈ splitKeys s) by (intros s k Hk; unfold splitKeys; rewrite !elem_of_app; tauto).
  assert (Hu : ∀ s k, k ∈ tierPolicies (ts_untracked s) → k ∈ splitKeys s) by (intros s k Hk; unfold splitKeys; rewrite !elem_of_app; tauto).
  assert (Hp : ∀ s k, k ∈ tierPolicies (ts_preDNAT s) → k ∈ splitKeys s) by (intros s k Hk; unfold splitKeys; rewrite !elem_of_app; tauto).
  assert (Hf : ∀ s k, k ∈ tierPolicies (ts_forward s) → k ∈ splitKeys s) by (intros s k Hk; unfold splitKeys; rewrite !elem_of_app; tauto).
  unfold endpointToProto, updatePolicies, updateProfiles. destruct key as [h o w e|h e], u as [[wep|hep] cd peer tiers]; cbn [eu_endpoint eu_tierInfo]; try done; intros [= <-].
  - cbn [endpointPolicies endpointProfiles]. cbn [eu_computedData eu_peerData]. rewrite (proj1 (workload_refs wep cd peer _)), (proj2 (workload_refs wep cd peer _)).
    split; [|done]. intros k. apply (tierInfo_keys ts_normal), Hn.
  - cbn [endpointPolicies endpointProfiles ModelHostEndpointToProto ph_Tiers ph_UntrackedTiers ph_PreDnatTiers ph_ForwardTiers ph_ProfileIds]. split; [|done].
    intros k. rewrite !bind_app, !elem_of_app. intros [Hk|[Hk|[Hk|Hk]]]; [apply (tierInfo_keys ts_normal)|apply (tierInfo_keys ts_untracked)|apply (tierInfo_keys ts_preDNAT)|apply (tierInfo_keys ts_forward)]; done.
Qed.
End tiers.
