(* ===== verification/SequencerStages.v ===== *)
(** * The stages of a flush

    Each stage of [Flush] sends messages that the dataplane accepts, and takes the buffer of its
    objects one step closer to empty. *)
From S2P Require Import Prelude ModelRule Tokenizer UniqueLabels Multidict CIDR MemberDedup CIDRTrieSpec NamedPortCandidates NetIP NetString PolicySorter RuleScanner RuleScannerSpec.
From S2P Require Import RuleConvert ProtoMessages EventSequencer SequencerTracked SequencerSpec SequencerIPSets SequencerRefs.
From Stdlib Require Import Ascii.
From stdpp Require Import base list gmap numbers strings.
From stdpp Require Import options.

Section parts.
Context {ConfigUpdate : Type}.
Abbreviation DP := (Dataplane (ConfigUpdate := ConfigUpdate)).

(** ** The parts of the dataplane *)
Definition policiesPart : Part (DP := DP) PolicyKey ProtoPolicy.
Proof. refine (MkPart d_policies put_policies _ _ _); by intros; destruct dp. Defined.
Definition profilesPart : Part (DP := DP) string ProtoProfile.
Proof. refine (MkPart d_profiles put_profiles _ _ _); by intros; destruct dp. Defined.
Definition endpointsPart : Part (DP := DP) ProtoEndpointID ProtoEndpoint.
Proof. refine (MkPart d_endpoints put_endpoints _ _ _); by intros; destruct dp. Defined.
Definition hostsPart : Part (DP := DP) string HostInfo.
Proof. refine (MkPart d_hosts put_hosts _ _ _); by intros; destruct dp. Defined.
Definition poolsPart : Part (DP := DP) string ProtoIPAMPool.
Proof. refine (MkPart d_pools put_pools _ _ _); by intros; destruct dp. Defined.
Definition serviceAccountsPart : Part (DP := DP) (string * string) ProtoServiceAccountUpdate.
Proof. refine (MkPart d_serviceAccounts put_serviceAccounts _ _ _); by intros; destruct dp. Defined.
Definition namespacesPart : Part (DP := DP) string ProtoNamespaceUpdate.
Proof. refine (MkPart d_namespaces put_namespaces _ _ _); by intros; destruct dp. Defined.
Definition vtepsPart : Part (DP := DP) string ProtoVTEPUpdate.
Proof. refine (MkPart d_vteps put_vteps _ _ _); by intros; destruct dp. Defined.
Definition routesPart : Part (DP := DP) string ProtoRouteUpdate.
Proof. refine (MkPart d_routes put_routes _ _ _); by intros; destruct dp. Defined.
Definition servicesPart : Part (DP := DP) (string * string) ProtoServiceUpdate.
Proof. refine (MkPart d_services put_services _ _ _); by intros; destruct dp. Defined.
End parts.

(** ** References *)
Lemma knows_true `{Countable K} {A} (ids : list K) (m : gmap K A) : knows ids m = true ↔ ∀ id, id ∈ ids → is_Some (m !! id).
Proof. unfold knows. rewrite forallb_forall. setoid_rewrite bool_decide_eq_true. by setoid_rewrite list_elem_of_In. Qed.

Lemma unnamed_true `{Countable K} {J A} `{Countable J} (refs : A → list K) id (m : gmap J A) :
  unnamed refs id m = true ↔ ∀ j a, m !! j = Some a → id ∉ refs a.
Proof. apply bool_decide_eq_true. Qed.

(** Objects that are the same in messages. *)
Lemma image_id `{Countable K} {V} (S D : gmap K V) : image (λ k, k) (λ _ v, Ret v) S D → D = S.
Proof.
  intros [H1 H2]. apply map_eq. intros k. destruct (S !! k) as [v|] eqn:Hk; [by destruct (H1 k v Hk) as (p&[= ->]&?)|].
  destruct (D !! k) as [p|] eqn:Hd; [|done]. destruct (H2 k p Hd) as (k'&v&Hk'&->&_). congruence.
Qed.

Section stages.
Context {PT : Type} (Sum224 : string → string) (Marshal : ProtoRule → option string) {ConfigUpdate : Type} (hostname : string).
Abbreviation DP := (Dataplane (ConfigUpdate := ConfigUpdate)).
Abbreviation recv := (recv (ConfigUpdate := ConfigUpdate)).
Abbreviation endpointUpdate := (endpointUpdate (PT := PT)).
Abbreviation policyConv := (ParsedRulesToActivePolicyUpdate Sum224 Marshal).
Abbreviation profileConv := (profileToProto Sum224 Marshal).
Implicit Types (dp : DP) (r : GoRange).

(** When an object can be sent. *)
Definition policy_good (k : PolicyKey) (rules : ParsedRules) : Prop := ∃ p, policyConv k rules = Ret p.
Definition profile_good (k : string) (rules : ParsedRules) : Prop := ∃ p, profileConv k rules = Ret p.
Definition endpoint_good (k : ModelEndpointKey) (u : endpointUpdate) : Prop := good_endpoint hostname k (eu_endpoint u).

Definition policies_rel := coalesces (λ k : PolicyKey, k) policyConv policy_good.
Definition profiles_rel := coalesces (λ k : string, k) profileConv profile_good.
Definition endpoints_rel := coalesces endpointID endpointToProto endpoint_good.
Definition pools_rel := coalesces cidrToIPPoolID (λ _ p, Ret (poolToProto p)) (λ c _, net_ok c).
(** Objects that are sent as they are. *)
Definition plain_rel `{Countable K} {V} (key : K → V → K) : Tracked K V → gmap K V → gmap K V → Prop := coalesces (λ k, k) (λ _ v, Ret v) (λ k v, key k v = k).

(** *** Policies *)
Lemma policies_updates r t W dp : policies_rel t (d_policies dp) W →
  (∀ k rules id, W !! k = Some rules → id ∈ rulesSets rules → is_Some (d_sets dp !! id)) →
  ∃ t' ms D, flushUpdates r (policyMsg Sum224 Marshal) t = Ret (t', ms) ∧ recvAll recv ms dp = Some (put_policies D dp) ∧ policies_rel t' D W ∧
    tr_updates t' = ∅ ∧ tr_deletes t' = tr_deletes t.
Proof.
  intros Hc Hrefs. unshelve eapply (flushUpdates_ok _ _ _ _ _ recv policiesPart ActivePolicyUpdate accepts_policy _ _ _ r t W dp Hc).
  - done.
  - done.
  - done.
  - intros k v p Hp. unfold policyMsg. by rewrite Hp.
  - intros k v p D Hk Hp. unfold accepts_policy. apply knows_true. intros id Hid. replace (d_sets (put policiesPart D dp)) with (d_sets dp) by (by destruct dp).
    apply (Hrefs k v); [done|]. by apply (policy_sets _ _ _ _ _ _ Hp).
Qed.

Lemma policies_deletes r t W dp : policies_rel t (d_policies dp) W →
  (∀ k j ep, W !! k = None → d_endpoints dp !! j = Some ep → k ∉ endpointPolicies ep) →
  ∃ t' ms D, flushDeletes r ActivePolicyRemove t = (t', ms) ∧ recvAll recv ms dp = Some (put_policies D dp) ∧ policies_rel t' D W ∧
    tr_deletes t' = ∅ ∧ tr_updates t' = tr_updates t.
Proof.
  intros Hc Hrefs. unshelve eapply (flushDeletes_ok _ _ _ _ recv policiesPart ActivePolicyRemove releases_policy _ r t W dp Hc).
  - done.
  - done.
  - intros k v D _ Hk. unfold releases_policy. apply unnamed_true. intros j ep. replace (d_endpoints (put policiesPart D dp)) with (d_endpoints dp) by (by destruct dp). by apply Hrefs.
Qed.

(** *** Profiles *)
Lemma profiles_updates r t W dp : profiles_rel t (d_profiles dp) W →
  (∀ k rules id, W !! k = Some rules → id ∈ rulesSets rules → is_Some (d_sets dp !! id)) →
  ∃ t' ms D, flushUpdates r (profileMsg Sum224 Marshal) t = Ret (t', ms) ∧ recvAll recv ms dp = Some (put_profiles D dp) ∧ profiles_rel t' D W ∧
    tr_updates t' = ∅ ∧ tr_deletes t' = tr_deletes t.
Proof.
  intros Hc Hrefs. unshelve eapply (flushUpdates_ok _ _ _ _ _ recv profilesPart ActiveProfileUpdate accepts_profile _ _ _ r t W dp Hc).
  - done.
  - done.
  - done.
  - intros k v p Hp. unfold profileMsg. by rewrite Hp.
  - intros k v p D Hk Hp. unfold accepts_profile. apply knows_true. intros id Hid. replace (d_sets (put profilesPart D dp)) with (d_sets dp) by (by destruct dp).
    apply (Hrefs k v); [done|]. by apply (profile_sets _ _ _ _ _ _ Hp).
Qed.

Lemma profiles_deletes r t W dp : profiles_rel t (d_profiles dp) W →
  (∀ k j ep, W !! k = None → d_endpoints dp !! j = Some ep → k ∉ endpointProfiles ep) →
  ∃ t' ms D, flushDeletes r ActiveProfileRemove t = (t', ms) ∧ recvAll recv ms dp = Some (put_profiles D dp) ∧ profiles_rel t' D W ∧
    tr_deletes t' = ∅ ∧ tr_updates t' = tr_updates t.
Proof.
  intros Hc Hrefs. unshelve eapply (flushDeletes_ok _ _ _ _ recv profilesPart ActiveProfileRemove releases_profile _ r t W dp Hc).
  - done.
  - done.
  - intros k v D _ Hk. unfold releases_profile. apply unnamed_true. intros j ep. replace (d_endpoints (put profilesPart D dp)) with (d_endpoints dp) by (by destruct dp). by apply Hrefs.
Qed.

(** *** Endpoints *)
Definition endpointUpdateMsg (id : ProtoEndpointID) (ep : ProtoEndpoint) : Msg ConfigUpdate :=
  match id, ep with inl id, inl ep => WorkloadEndpointUpdate id ep | inr id, inr ep => HostEndpointUpdate id ep | _, _ => DatastoreNotReady end.

Lemma endpoint_good_conv k u : endpoint_good k u → ∃ p, endpointToProto k u = Ret p.
Proof. unfold endpoint_good, endpointToProto. destruct u as [[] ? ? ?], k; cbn; try done; intros _; by eexists. Qed.

Lemma endpoint_good_inj k1 u1 k2 u2 : endpoint_good k1 u1 → endpoint_good k2 u2 → endpointID k1 = endpointID k2 → k1 = k2.
Proof. unfold endpoint_good. destruct k1, k2, (eu_endpoint u1), (eu_endpoint u2); cbn; intros; simplify_eq; done. Qed.

Lemma endpoints_updates r t W dp : endpoints_rel t (d_endpoints dp) W →
  (∀ k u id, W !! k = Some u → id ∈ updatePolicies u → is_Some (d_policies dp !! id)) →
  (∀ k u id, W !! k = Some u → id ∈ updateProfiles u → is_Some (d_profiles dp !! id)) →
  ∃ t' ms D, flushUpdates r (endpointMsg (ConfigUpdate := ConfigUpdate)) t = Ret (t', ms) ∧ recvAll recv ms dp = Some (put_endpoints D dp) ∧ endpoints_rel t' D W ∧
    tr_updates t' = ∅ ∧ tr_deletes t' = tr_deletes t.
Proof.
  intros Hc Hpol Hprof. unshelve eapply (flushUpdates_ok _ _ _ _ _ recv endpointsPart endpointUpdateMsg accepts_endpoint _ _ _ r t W dp Hc).
  - apply endpoint_good_conv.
  - apply endpoint_good_inj.
  - intros k' p dp' (k&u&_&<-&Hp). unfold endpointToProto in Hp. destruct u as [[] ? ? ?], k; cbn in Hp; by simplify_eq.
  - intros k u p Hp. unfold endpointToProto in Hp. unfold endpointMsg. destruct u as [[] ? ? ?], k; cbn in Hp |- *; by simplify_eq.
  - intros k u p D Hk Hp. destruct (endpoint_refs k u p Hp) as [Hr1 Hr2]. unfold accepts_endpoint. apply andb_true_iff. rewrite !knows_true, Hr2.
    replace (d_policies (put endpointsPart D dp)) with (d_policies dp) by (by destruct dp). replace (d_profiles (put endpointsPart D dp)) with (d_profiles dp) by (by destruct dp).
    split; intros id Hid; [|by apply (Hprof k u)]. by apply (Hpol k u), Hr1.
Qed.

Lemma endpoints_deletes r t W dp : endpoints_rel t (d_endpoints dp) W →
  ∃ t' ms D, flushDeletes r (endpointRemoveMsg (ConfigUpdate := ConfigUpdate)) t = (t', ms) ∧ recvAll recv ms dp = Some (put_endpoints D dp) ∧ endpoints_rel t' D W ∧
    tr_deletes t' = ∅ ∧ tr_updates t' = tr_updates t.
Proof.
  intros Hc.
  destruct (flushDeletes_ok endpointID endpointToProto endpoint_good endpoint_good_inj recv endpointsPart
    (λ id, match id with inl id => WorkloadEndpointRemove id | inr id => HostEndpointRemove id end) (λ _ _, true)) with (r := r) (t := t) (W := W) (dp := dp) as (t'&ms&D&Hf&Hrest).
  - by intros [] dp'.
  - exact Hc.
  - done.
  - exists t', ms, D. split; [|done]. rewrite <- Hf. unfold flushDeletes. rewrite !deletesLoop_eq. f_equal. apply list_fmap_ext. by intros _ [] _.
Qed.

(** *** Pools *)
Lemma replaceSlash_inj s1 p1 s2 p2 : lacks "/" s1 = true → lacks "/" s2 = true →
  replaceSlash (s1 +:+ String "/" p1) = replaceSlash (s2 +:+ String "/" p2) → lacks "-" s1 = true → lacks "-" s2 = true → s1 = s2 ∧ p1 = p2.
Proof.
  assert (Hr : ∀ s p, lacks "/" s = true → replaceSlash (s +:+ String "/" p) = s +:+ String "-" p).
  { induction s as [|c s IH]; intros p; [done|]. unfold lacks. rewrite !string_app_cons. cbn [string_forallb replaceSlash]. intros [Hc Hs]%andb_true_iff.
    apply bool_decide_eq_true in Hc. rewrite decide_False by done. by rewrite IH. }
  intros H1 H2. rewrite !Hr by done. intros Heq L1 L2. by apply (split_unique "-").
Qed.

Lemma pool_inj c1 c2 : net_ok c1 → net_ok c2 → cidrToIPPoolID c1 = cidrToIPPoolID c2 → c1 = c2.
Proof.
  intros H1 H2. unfold cidrToIPPoolID. intros Heq. apply CIDR_String_inj; [done|done|]. unfold CIDR_String in *.
  destruct (net_ok_unmapped c1 H1) as (A1&U1&_), (net_ok_unmapped c2 H2) as (A2&U2&_).
  apply replaceSlash_inj in Heq as [-> Hp]; [by rewrite Hp|by apply chars_lacks, Addr_String_chars..].
Qed.

Lemma pools_updates r t W dp : pools_rel t (d_pools dp) W →
  ∃ t' ms D, flushUpdates r (λ cidr pool, Ret (IPAMPoolUpdate (cidrToIPPoolID cidr) (poolToProto pool))) t = Ret (t', ms) ∧
    recvAll recv ms dp = Some (put_pools D dp) ∧ pools_rel t' D W ∧ tr_updates t' = ∅ ∧ tr_deletes t' = tr_deletes t.
Proof.
  intros Hc. unshelve eapply (flushUpdates_ok _ _ _ _ _ recv poolsPart IPAMPoolUpdate (λ _ _, true) _ _ _ r t W dp Hc); try done.
  - by eexists.
  - intros k1 v1 k2 v2. apply pool_inj.
  - by intros k v p [= <-].
Qed.

Lemma pools_deletes r t W dp : pools_rel t (d_pools dp) W →
  ∃ t' ms D, flushDeletes r (λ cidr, IPAMPoolRemove (cidrToIPPoolID cidr)) t = (t', ms) ∧
    recvAll recv ms dp = Some (put_pools D dp) ∧ pools_rel t' D W ∧ tr_deletes t' = ∅ ∧ tr_updates t' = tr_updates t.
Proof.
  intros Hc. unshelve eapply (flushDeletes_ok _ _ _ _ recv poolsPart IPAMPoolRemove (λ _ _, true) _ r t W dp Hc); try done.
  intros k1 v1 k2 v2. apply pool_inj.
Qed.

(** *** Objects that are sent as they are *)
Section plain.
Context `{Countable K} {V : Type} (key : K → V → K) (part : Part (DP := DP) K V) (update : V → Msg ConfigUpdate) (remove : K → Msg ConfigUpdate).
Context (Hupdate : ∀ k v dp, key k v = k → recv (update v) dp = Some (put part (<[k := v]> (get part dp)) dp)).
Context (Hremove : ∀ k dp, recv (remove k) dp = if bool_decide (is_Some (get part dp !! k)) && true then Some (put part (delete k (get part dp)) dp) else None).

Lemma plain_updates r t W dp : plain_rel key t (get part dp) W →
  ∃ t' ms D, flushUpdates r (λ _ v, Ret (update v)) t = Ret (t', ms) ∧ recvAll recv ms dp = Some (put part D dp) ∧ plain_rel key t' D W ∧
    tr_updates t' = ∅ ∧ tr_deletes t' = tr_deletes t.
Proof using Hupdate.
  intros Hc. unshelve eapply (flushUpdates_ok _ _ _ _ _ recv part (λ _, update) (λ _ _, true) _ _ _ r t W dp Hc); try done.
  - by eexists.
  - intros k p dp' (k'&v&Hg&<-&[= <-]). by apply Hupdate.
  - by intros k v p [= <-].
Qed.

Lemma plain_deletes r t W dp : plain_rel key t (get part dp) W →
  ∃ t' ms D, flushDeletes r remove t = (t', ms) ∧ recvAll recv ms dp = Some (put part D dp) ∧ plain_rel key t' D W ∧
    tr_deletes t' = ∅ ∧ tr_updates t' = tr_updates t.
Proof using Hremove.
  intros Hc. by unshelve eapply (flushDeletes_ok _ _ _ _ recv part remove (λ _ _, true) _ r t W dp Hc).
Qed.

(** The stages that clear the buffer at the end of the loop. *)
Lemma plain_adds r t W dp : plain_rel key t (get part dp) W →
  ∃ t' ms D, flushAdds r key update t = (t', ms) ∧ recvAll recv ms dp = Some (put part D dp) ∧ plain_rel key t' D W ∧
    tr_updates t' = ∅ ∧ tr_deletes t' = tr_deletes t.
Proof using Hupdate.
  intros Hc. destruct (plain_updates r t W dp Hc) as (t'&ms&D&Hf&Hrest). exists t', ms, D. split; [|done].
  rewrite (flushAdds_eq r key) in Hf by (destruct Hc as [S [_ _ _ _ Ho]]; intros k v Hk; apply Ho; by right).
  apply (f_equal (λ o, match o with Ret x => x | _ => (t, []) end)) in Hf. exact Hf.
Qed.

Lemma plain_removes r t W dp : plain_rel key t (get part dp) W →
  ∃ t' ms D, flushRemoves r remove t = (t', ms) ∧ recvAll recv ms dp = Some (put part D dp) ∧ plain_rel key t' D W ∧
    tr_deletes t' = ∅ ∧ tr_updates t' = tr_updates t.
Proof using Hremove. rewrite <- flushDeletes_eq. apply plain_deletes. Qed.

Lemma plain_both r t W dp : plain_rel key t (get part dp) W →
  ∃ t' ms D, removesThenAdds r key remove update t = (t', ms) ∧ recvAll recv ms dp = Some (put part D dp) ∧ plain_rel key t' D W ∧
    tr_updates t' = ∅ ∧ tr_deletes t' = ∅.
Proof using Hremove Hupdate.
  intros Hc. unfold removesThenAdds. destruct (plain_removes r t W dp Hc) as (t1&ms1&D1&->&Hr1&Hc1&Hd1&_).
  destruct (plain_adds r t1 W (put part D1 dp)) as (t2&ms2&D2&->&Hr2&Hc2&Hu2&Hd2); [by rewrite get_put|].
  exists t2, (ms1 ++ ms2), D2. split_and!; [done| |done|done|congruence]. rewrite recvAll_app, Hr1, Hr2. by rewrite put_put.
Qed.
End plain.
End stages.
