(* ===== verification/SequencerWireguard.v ===== *)
(** * WireGuard in the event sequencer

    One update of a node carries a key for each address family, and an empty key means that the
    node has none.  The dataplane has one object for each key that is not empty. *)
From S2P Require Import Prelude ModelRule UniqueLabels NetIP NetString RuleConvert ProtoMessages EventSequencer SequencerTracked SequencerSpec.
From stdpp Require Import base list gmap numbers strings.
From stdpp Require Import options.

Section wireguard.
Context {ConfigUpdate : Type}.
Abbreviation DP := (Dataplane (ConfigUpdate := ConfigUpdate)).
Abbreviation Msg := (Msg ConfigUpdate).
Abbreviation recv := (recv (ConfigUpdate := ConfigUpdate)).
Implicit Types (dp : DP) (w : WireguardBuffer) (n : string).

Definition wireguardPart : Part (DP := DP) string (string * string).
Proof. refine (MkPart d_wireguard put_wireguard _ _ _); by intros; destruct dp. Defined.
Definition wireguardV6Part : Part (DP := DP) string (string * string).
Proof. refine (MkPart d_wireguardV6 put_wireguardV6 _ _ _); by intros; destruct dp. Defined.

(** ** One address family *)
Section family.
Context (part : Part (DP := DP) string (string * string)) (update : string → string → string → Msg) (remove : string → Msg).
Context (Hupdate : ∀ n key addr dp, recv (update n key addr) dp = Some (put part (<[n := (key, addr)]> (get part dp)) dp)).
Context (Hremove : ∀ n dp, recv (remove n) dp = if bool_decide (is_Some (get part dp !! n)) && true then Some (put part (delete n (get part dp)) dp) else None).

Lemma remove_sent n dp : is_Some (get part dp !! n) → recvAll recv [remove n] dp = Some (put part (delete n (get part dp)) dp).
Proof using Hremove. intros Hs. cbn. by rewrite Hremove, bool_decide_true. Qed.

Lemma delete_unsent n dp : n ∉ dom (get part dp) → put part (delete n (get part dp)) dp = dp.
Proof using Type. clear. intros Hn. rewrite delete_id by (by apply not_elem_of_dom). apply put_get. Qed.

(** The key is sent, or taken back when one was sent. *)
Lemma wgKey_ok n key addr dp : let D := if decide (key ≠ "") then <[n := (key, addr)]> (get part dp) else delete n (get part dp) in
  ∃ ms, wgKey n key addr update remove (dom (get part dp)) = (dom D, ms) ∧ recvAll recv ms dp = Some (put part D dp).
Proof using Hremove Hupdate.
  unfold wgKey. destruct (decide (key ≠ "")).
  - eexists. split; [by rewrite dom_insert_L|]. cbn. by rewrite Hupdate.
  - destruct (decide (n ∈ dom (get part dp))) as [Hin|Hout]; eexists.
    + split; [by rewrite dom_delete_L|]. apply remove_sent. by apply elem_of_dom.
    + split; [f_equal; rewrite delete_id; [done|by apply not_elem_of_dom]|]. cbn. by rewrite delete_unsent.
Qed.

Lemma wgRemove_ok n dp : recvAll recv (if decide (n ∈ dom (get part dp)) then [remove n] else []) dp = Some (put part (delete n (get part dp)) dp).
Proof using Hremove.
  destruct (decide _) as [Hin|Hout]; [apply remove_sent; by apply elem_of_dom|]. cbn. by rewrite delete_unsent.
Qed.
End family.

(** ** Both families *)
Abbreviation Keys := (gmap string (string * string)).

(** [S] is what was sent: the dataplane has the keys of [S], and should have those of [W]. *)
Record wg_from w (S : gmap string Wireguard) (D4 D6 : Keys) (W : gmap string Wireguard) : Prop := {
  wf_keys : D4 = omap wgV4 S ∧ D6 = omap wgV6 S;
  wf_sent : sentWireguard w = dom D4 ∧ sentWireguardV6 w = dom D6;
  wf_deletes n : n ∈ pendingWireguardDeletes w → pendingWireguardUpdates w !! n = None;
  wf_want n : W !! n = match pendingWireguardUpdates w !! n with Some v => Some v | None => if decide (n ∈ pendingWireguardDeletes w) then None else S !! n end
}.
Definition wg_rel w (D4 D6 : Keys) W : Prop := ∃ S, wg_from w S D4 D6 W.

Lemma wg_empty : wg_rel (MkWireguardBuffer ∅ ∅ ∅ ∅) ∅ ∅ ∅.
Proof.
  exists ∅. split; cbn; [by rewrite !omap_empty|by rewrite dom_empty_L|done|]. intros n. by rewrite !lookup_empty, decide_False by apply not_elem_of_empty.
Qed.

Lemma wg_update n v w D4 D6 W : wg_rel w D4 D6 W →
  wg_rel (MkWireguardBuffer (<[n := v]> (pendingWireguardUpdates w)) (pendingWireguardDeletes w ∖ {[n]}) (sentWireguard w) (sentWireguardV6 w)) D4 D6 (<[n := v]> W).
Proof.
  intros [S [Hk Hs Hd Hw]]. exists S. split; cbn; [done|done|..].
  - intros n' [Hn' Hne]%elem_of_difference. rewrite elem_of_singleton in Hne. rewrite lookup_insert_ne by done. by apply Hd.
  - intros n'. destruct (decide (n' = n)) as [->|Hne]; [by rewrite !lookup_insert_eq|]. rewrite !lookup_insert_ne, Hw by done.
    destruct (pendingWireguardUpdates w !! n'); [done|]. by rewrite (decide_ext (n' ∈ pendingWireguardDeletes w) (n' ∈ pendingWireguardDeletes w ∖ {[n]})) by set_solver.
Qed.

Lemma wg_delete n w D4 D6 W : wg_rel w D4 D6 W →
  wg_rel (MkWireguardBuffer (delete n (pendingWireguardUpdates w)) ({[n]} ∪ pendingWireguardDeletes w) (sentWireguard w) (sentWireguardV6 w)) D4 D6 (delete n W).
Proof.
  intros [S [Hk Hs Hd Hw]]. exists S. split; cbn; [done|done|..].
  - intros n' Hn'. destruct (decide (n' = n)) as [->|Hne]; [by rewrite lookup_delete_eq|]. rewrite lookup_delete_ne by done. apply Hd. set_solver.
  - intros n'. destruct (decide (n' = n)) as [->|Hne]; [by rewrite !lookup_delete_eq, decide_True by set_solver|]. rewrite !lookup_delete_ne, Hw by done.
    destruct (pendingWireguardUpdates w !! n'); [done|]. by rewrite (decide_ext (n' ∈ pendingWireguardDeletes w) (n' ∈ {[n]} ∪ pendingWireguardDeletes w)) by set_solver.
Qed.

Lemma omap_insert_wg (f : Wireguard → option (string * string)) (S : gmap string Wireguard) n v :
  omap f (<[n := v]> S) = match f v with Some x => <[n := x]> (omap f S) | None => delete n (omap f S) end.
Proof. destruct (f v) eqn:Hf; [by apply omap_insert_Some|by apply omap_insert_None]. Qed.

(** *** Flushing *)
Lemma wg_update_step n v w dp W : wg_rel w (d_wireguard dp) (d_wireguardV6 dp) W → pendingWireguardUpdates w !! n = Some v →
  ∃ sent4 sent6 ms4 ms6 D4 D6,
    wgKey n (wg_PublicKey v) (from_option NetIP_String "" (wg_InterfaceIPv4Addr v)) WireguardEndpointUpdate WireguardEndpointRemove (sentWireguard w) = (sent4, ms4) ∧
    wgKey n (wg_PublicKeyV6 v) (from_option NetIP_String "" (wg_InterfaceIPv6Addr v)) WireguardEndpointV6Update WireguardEndpointV6Remove (sentWireguardV6 w) = (sent6, ms6) ∧
    recvAll recv (ms4 ++ ms6) dp = Some (put_wireguardV6 D6 (put_wireguard D4 dp)) ∧
    wg_rel (MkWireguardBuffer (delete n (pendingWireguardUpdates w)) (pendingWireguardDeletes w) sent4 sent6) D4 D6 W.
Proof.
  intros [S [[Hk4 Hk6] [Hs4 Hs6] Hd Hw]] Hn. rewrite Hs4, Hs6.
  destruct (wgKey_ok wireguardPart WireguardEndpointUpdate WireguardEndpointRemove ltac:(done) ltac:(done) n (wg_PublicKey v) (from_option NetIP_String "" (wg_InterfaceIPv4Addr v)) dp) as (ms4&E4&R4).
  set (D4 := if decide (wg_PublicKey v ≠ "") then _ else _) in *.
  destruct (wgKey_ok wireguardV6Part WireguardEndpointV6Update WireguardEndpointV6Remove ltac:(done) ltac:(done) n (wg_PublicKeyV6 v) (from_option NetIP_String "" (wg_InterfaceIPv6Addr v)) (put_wireguard D4 dp)) as (ms6&E6&R6).
  replace (get wireguardV6Part (put_wireguard D4 dp)) with (d_wireguardV6 dp) in * by (by destruct dp).
  set (D6 := if decide (wg_PublicKeyV6 v ≠ "") then _ else _) in *.
  exists (dom D4), (dom D6), ms4, ms6, D4, D6. split_and!; [exact E4|exact E6|rewrite recvAll_app, R4; exact R6|].
  exists (<[n := v]> S). split; cbn; [|done|..].
  - rewrite !omap_insert_wg, <- Hk4, <- Hk6. unfold D4, D6, wgV4, wgV6. split; [by destruct (decide (wg_PublicKey v ≠ EmptyString))|by destruct (decide (wg_PublicKeyV6 v ≠ EmptyString))].
  - intros n' Hn'%Hd. destruct (decide (n' = n)) as [->|]; [by rewrite lookup_delete_eq|by rewrite lookup_delete_ne].
  - intros n'. rewrite Hw. destruct (decide (n' = n)) as [->|]; [|by rewrite lookup_delete_ne, lookup_insert_ne by done].
    rewrite lookup_delete_eq, lookup_insert_eq, Hn, decide_False; [done|]. intros Hin%Hd. congruence.
Qed.

Lemma put_wireguard_put D4 D6 D4' D6' dp : put_wireguardV6 D6' (put_wireguard D4' (put_wireguardV6 D6 (put_wireguard D4 dp))) = put_wireguardV6 D6' (put_wireguard D4' dp).
Proof. by destruct dp. Qed.

Lemma wgUpdatesLoop_ok l : ∀ w dp W, wg_rel w (d_wireguard dp) (d_wireguardV6 dp) W → NoDup l.*1 → (∀ n v, (n, v) ∈ l → pendingWireguardUpdates w !! n = Some v) →
  ∃ w' ms D4 D6, wgUpdatesLoop l w = (w', ms) ∧ recvAll recv ms dp = Some (put_wireguardV6 D6 (put_wireguard D4 dp)) ∧ wg_rel w' D4 D6 W ∧
    pendingWireguardUpdates w' = foldl (λ m kv, delete kv.1 m) (pendingWireguardUpdates w) l ∧ pendingWireguardDeletes w' = pendingWireguardDeletes w.
Proof.
  induction l as [|[n v] l IH]; intros w dp W Hr Hnd Hl; cbn [wgUpdatesLoop foldl].
  { exists w, [], (d_wireguard dp), (d_wireguardV6 dp). split_and!; [done|by destruct dp|done..]. }
  cbn in Hnd. apply list.NoDup_cons in Hnd as [Hn Hnd].
  destruct (wg_update_step n v w dp W Hr) as (s4&s6&ms4&ms6&D4&D6&->&->&Hm&Hr1); [apply Hl, list_elem_of_here|].
  destruct (IH (MkWireguardBuffer (delete n (pendingWireguardUpdates w)) (pendingWireguardDeletes w) s4 s6) (put_wireguardV6 D6 (put_wireguard D4 dp)) W)
    as (w'&ms&D4'&D6'&->&Hms&Hr2&Hu&Hd).
  - by destruct dp.
  - done.
  - intros n' v' Hin. cbn. rewrite lookup_delete_ne; [by apply Hl, list_elem_of_further|]. intros ->. apply Hn. by apply (list_elem_of_fmap_2 fst) in Hin.
  - exists w', (ms4 ++ ms6 ++ ms), D4', D6'. split_and!; [done| |done|done|done]. by rewrite (assoc_L (++)), recvAll_app, Hm, Hms, put_wireguard_put.
Qed.

Lemma wg_delete_step n w dp W : wg_rel w (d_wireguard dp) (d_wireguardV6 dp) W → n ∈ pendingWireguardDeletes w →
  ∃ D4 D6, recvAll recv ((if decide (n ∈ sentWireguard w) then [WireguardEndpointRemove n] else []) ++
      (if decide (n ∈ sentWireguardV6 w) then [WireguardEndpointV6Remove n] else [])) dp = Some (put_wireguardV6 D6 (put_wireguard D4 dp)) ∧
    wg_rel (MkWireguardBuffer (pendingWireguardUpdates w) (pendingWireguardDeletes w ∖ {[n]}) (sentWireguard w ∖ {[n]}) (sentWireguardV6 w ∖ {[n]})) D4 D6 W.
Proof.
  intros [S [[Hk4 Hk6] [Hs4 Hs6] Hd Hw]] Hn. rewrite Hs4, Hs6. exists (delete n (d_wireguard dp)), (delete n (d_wireguardV6 dp)). split.
  - rewrite recvAll_app. change (d_wireguard dp) with (get wireguardPart dp). rewrite (wgRemove_ok wireguardPart) by done. cbn [get put wireguardPart].
    set (dp4 := put_wireguard _ dp). replace (d_wireguardV6 dp) with (get wireguardV6Part dp4) by (by destruct dp). by rewrite (wgRemove_ok wireguardV6Part).
  - exists (delete n S). split; cbn; [|by rewrite !dom_delete_L|..].
    + by rewrite Hk4, Hk6, <- !omap_delete.
    + intros n' [Hn' _]%elem_of_difference. by apply Hd.
    + intros n'. rewrite Hw. destruct (decide (n' = n)) as [->|Hne]; [by rewrite Hd, (decide_True (P := n ∈ pendingWireguardDeletes w)), lookup_delete_eq, decide_False by set_solver|].
      rewrite lookup_delete_ne by done. destruct (pendingWireguardUpdates w !! n'); [done|].
      by rewrite (decide_ext (n' ∈ pendingWireguardDeletes w) (n' ∈ pendingWireguardDeletes w ∖ {[n]})) by set_solver.
Qed.

Lemma wgDeletesLoop_ok l : ∀ w dp W, wg_rel w (d_wireguard dp) (d_wireguardV6 dp) W → NoDup l → (∀ n, n ∈ l → n ∈ pendingWireguardDeletes w) →
  ∃ w' ms D4 D6, wgDeletesLoop l w = (w', ms) ∧ recvAll recv ms dp = Some (put_wireguardV6 D6 (put_wireguard D4 dp)) ∧ wg_rel w' D4 D6 W ∧
    pendingWireguardUpdates w' = pendingWireguardUpdates w ∧ pendingWireguardDeletes w' = foldl (λ X n, X ∖ {[n]}) (pendingWireguardDeletes w) l.
Proof.
  induction l as [|n l IH]; intros w dp W Hr Hnd Hl; cbn [wgDeletesLoop foldl].
  { exists w, [], (d_wireguard dp), (d_wireguardV6 dp). split_and!; [done|by destruct dp|done..]. }
  apply list.NoDup_cons in Hnd as [Hn Hnd]. destruct (wg_delete_step n w dp W Hr) as (D4&D6&Hm&Hr1); [apply Hl, list_elem_of_here|].
  destruct (IH (MkWireguardBuffer (pendingWireguardUpdates w) (pendingWireguardDeletes w ∖ {[n]}) (sentWireguard w ∖ {[n]}) (sentWireguardV6 w ∖ {[n]}))
    (put_wireguardV6 D6 (put_wireguard D4 dp)) W) as (w'&ms&D4'&D6'&->&Hms&Hr2&Hu&Hd).
  - by destruct dp.
  - done.
  - intros n' Hin. cbn. apply elem_of_difference. split; [by apply Hl, list_elem_of_further|]. rewrite elem_of_singleton. by intros ->.
  - eexists w', _, D4', D6'. split_and!; [done| |done|done|done]. by rewrite (assoc_L (++)), recvAll_app, Hm, Hms, put_wireguard_put.
Qed.

(** With nothing pending, the dataplane has the keys that it should have. *)
Lemma wg_settled w D4 D6 W : wg_rel w D4 D6 W → pendingWireguardUpdates w = ∅ → pendingWireguardDeletes w = ∅ → D4 = omap wgV4 W ∧ D6 = omap wgV6 W.
Proof.
  intros [S [Hk _ _ Hw]] Hu Hd. assert (W = S) as ->; [|done]. apply map_eq. intros n. by rewrite Hw, Hu, Hd, lookup_empty, decide_False by apply not_elem_of_empty.
Qed.
End wireguard.
