(* ===== verification/SequencerCorrect.v ===== *)
(** * A flush brings the dataplane up to date

    The relation between the buffers of the event sequencer, the dataplane and what is asked for;
    every call keeps it, no message of a flush is refused, and after a flush the dataplane has
    what is asked for. *)
From S2P Require Import Prelude ModelRule UniqueLabels Multidict CIDR MemberDedup CIDRTrieSpec NamedPortCandidates NetIP NetString PolicySorter RuleScanner RuleScannerSpec.
From S2P Require Import RuleConvert ProtoMessages EventSequencer SequencerTracked SequencerSpec SequencerIPSets SequencerRefs SequencerStages SequencerWireguard.
From stdpp Require Import base list gmap numbers strings.
From stdpp Require Import options.

Section correct.
Context {PT : Type} (Sum224 : string → string) (Marshal : ProtoRule → option string) {Config ConfigUpdate : Type}.
Context (UpdateFrom : Config → option (gmap string string) → ConfigSource → option (Config * bool)) (ToConfigUpdate : Config → ConfigUpdate) (hostname : string).
Abbreviation Sequencer := (EventSequencer (PT := PT) (Config := Config)).
Abbreviation DP := (Dataplane (ConfigUpdate := ConfigUpdate)).
Abbreviation Msg := (Msg ConfigUpdate).
Abbreviation Want := (Want (PT := PT)).
Abbreviation recv := (recv (ConfigUpdate := ConfigUpdate)).
Abbreviation stage := (Sequencer → outcome Empty_set (Sequencer * list Msg)).
Implicit Types (buf : Sequencer) (dp : DP) (W : Want) (r : GoRange).

(** ** The relation *)
Definition config_good (g s h : option (gmap string string)) : Prop :=
  ∀ c, is_Some (UpdateFrom c g DatastoreGlobal) ∧ is_Some (UpdateFrom c s DatastorePerSelector) ∧ is_Some (UpdateFrom c h DatastorePerHost).

Record sim buf dp W : Prop := {
  sim_sets : ipsets_rel (ipSets buf) (d_sets dp) (want_sets W);
  sim_policies : policies_rel Sum224 Marshal (policies buf) (d_policies dp) (want_policies W);
  sim_profiles : profiles_rel Sum224 Marshal (profiles buf) (d_profiles dp) (want_profiles W);
  sim_endpoints : endpoints_rel hostname (es_endpoints buf) (d_endpoints dp) (want_endpoints W);
  sim_hosts : plain_rel (λ k _, k) (hostMetadata buf) (d_hosts dp) (want_hosts W);
  sim_pools : pools_rel (ipPools buf) (d_pools dp) (want_pools W);
  sim_wireguard : wg_rel (wireguard buf) (d_wireguard dp) (d_wireguardV6 dp) (want_wireguard W);
  sim_serviceAccounts : plain_rel (λ _, sau_Id) (serviceAccounts buf) (d_serviceAccounts dp) (want_serviceAccounts W);
  sim_namespaces : plain_rel (λ _, nsu_Id) (namespaces buf) (d_namespaces dp) (want_namespaces W);
  sim_vteps : plain_rel (λ _, vt_Node) (vteps buf) (d_vteps dp) (want_vteps W);
  sim_routes : plain_rel (λ _, rt_Dst) (routes buf) (d_routes dp) (want_routes W);
  sim_services : plain_rel (λ _, serviceID) (es_services buf) (d_services dp) (want_services W);
  sim_encap : want_encap W = match pendingEncapUpdate buf with Some e => Some e | None => d_encap dp end;
  sim_bgp : want_bgp W = match pendingGlobalBGPConfig buf with Some c => Some c | None => d_bgp dp end;
  sim_config : is_Some (pendingGlobalConfig buf) → config_good (pendingGlobalConfig buf) (pendingSelectorConfig buf) (pendingHostConfig buf)
}.

Lemma sim_new conf : sim (NewEventSequencer conf) emptyDataplane wantNothing.
Proof. split; cbn; try apply coalesces_empty; [apply ipsets_empty|apply wg_empty|done|done|by intros []]. Qed.

(** ** Stages in a row *)
(** The stages run without a panic, the dataplane accepts what they send, and [Q] holds then. *)
Definition reaches (fs : list stage) (Q : Sequencer → DP → Prop) buf dp : Prop :=
  ∃ buf' ms dp', runStages fs buf = Ret (buf', ms) ∧ recvAll recv ms dp = Some dp' ∧ Q buf' dp'.

Lemma reaches_nil (Q : Sequencer → DP → Prop) buf dp : Q buf dp → reaches [] Q buf dp.
Proof. intros HQ. by exists buf, [], dp. Qed.

Lemma reaches_cons (f : stage) fs Q buf dp buf1 ms1 dp1 : f buf = Ret (buf1, ms1) → recvAll recv ms1 dp = Some dp1 → reaches fs Q buf1 dp1 → reaches (f :: fs) Q buf dp.
Proof.
  intros Hf Hm (buf'&ms&dp'&Hr&Hms&HQ). exists buf', (ms1 ++ ms), dp'. cbn [runStages]. rewrite Hf. cbn [obind]. rewrite Hr. cbn [obind].
  split_and!; [done| |done]. by rewrite recvAll_app, Hm.
Qed.

Lemma reaches_app fs1 : ∀ fs2 Q buf dp, reaches fs1 (reaches fs2 Q) buf dp → reaches (fs1 ++ fs2) Q buf dp.
Proof.
  induction fs1 as [|f fs1 IH]; intros fs2 Q buf dp (buf'&ms&dp'&Hr&Hms&HQ); cbn in Hr; [by injection Hr as <- <-; injection Hms as <-|].
  apply obind_Ret in Hr as ([buf1 ms1]&Hf&([buf2 ms2]&Hr&[= <- <-])%obind_Ret). rewrite recvAll_app in Hms. destruct (recvAll recv ms1 dp) as [dp1|] eqn:Hm; [|done].
  eapply reaches_cons; [exact Hf|exact Hm|]. apply IH. by exists buf2, ms2, dp'.
Qed.

Lemma reaches_weaken fs (Q Q' : Sequencer → DP → Prop) buf dp : (∀ buf dp, Q buf dp → Q' buf dp) → reaches fs Q buf dp → reaches fs Q' buf dp.
Proof. intros HQ (buf'&ms&dp'&?&?&?). exists buf', ms, dp'. auto. Qed.

(** ** Objects that are sent, in terms of those that are asked for *)
Definition settled `{Countable K} {V} (t : Tracked K V) : Prop := tr_updates t = ∅ ∧ tr_deletes t = ∅.

Lemma plain_settled `{Countable K} {V} (key : K → V → K) t D M : plain_rel key t D M → settled t → D = M.
Proof. intros Hc [Hu Hd]. by eapply image_id, coalesces_settled. Qed.

(** What is no longer asked for is not named any more. *)
Lemma endpoints_release_policy W t D k j ep : closed_want W → endpoints_rel hostname t D (want_endpoints W) → settled t →
  want_policies W !! k = None → D !! j = Some ep → k ∉ endpointPolicies ep.
Proof.
  intros Hcw Hc [Hu Hd] Hk Hj Hin. destruct (proj2 (coalesces_settled _ _ _ _ _ _ Hc Hu Hd) j ep Hj) as (key&u&Hw&_&Hconv).
  apply (endpoint_refs key u ep Hconv) in Hin. destruct (cw_tiers W Hcw key u k Hw Hin) as [? Hs]. congruence.
Qed.

Lemma endpoints_release_profile W t D k j ep : closed_want W → endpoints_rel hostname t D (want_endpoints W) → settled t →
  want_profiles W !! k = None → D !! j = Some ep → k ∉ endpointProfiles ep.
Proof.
  intros Hcw Hc [Hu Hd] Hk Hj Hin. destruct (proj2 (coalesces_settled _ _ _ _ _ _ Hc Hu Hd) j ep Hj) as (key&u&Hw&_&Hconv).
  rewrite (proj2 (endpoint_refs key u ep Hconv)) in Hin. destruct (cw_epProfiles W Hcw key u k Hw Hin) as [? Hs]. congruence.
Qed.

Lemma rules_release_set W tp tq Dp Dq id : closed_want W → policies_rel Sum224 Marshal tp Dp (want_policies W) → profiles_rel Sum224 Marshal tq Dq (want_profiles W) →
  settled tp → settled tq → want_sets W !! id = None → unnamed policySets id Dp && unnamed profileSets id Dq = true.
Proof.
  intros Hcw Hp Hq [Hu1 Hd1] [Hu2 Hd2] Hid. apply andb_true_iff. rewrite !unnamed_true. split; intros j p Hj Hin.
  - destruct (proj2 (coalesces_settled _ _ _ _ _ _ Hp Hu1 Hd1) j p Hj) as (k&rules&Hw&_&Hconv). apply (policy_sets _ _ _ _ _ _ Hconv) in Hin.
    destruct (cw_policies W Hcw k rules id Hw Hin) as [? Hs]. congruence.
  - destruct (proj2 (coalesces_settled _ _ _ _ _ _ Hq Hu2 Hd2) j p Hj) as (k&rules&Hw&_&Hconv). apply (profile_sets _ _ _ _ _ _ Hconv) in Hin.
    destruct (cw_profiles W Hcw k rules id Hw Hin) as [? Hs]. congruence.
Qed.

(** ** One kind of object at a time *)
Lemma sim_put_sets s D buf dp W : sim buf dp W → ipsets_rel s D (want_sets W) → sim (set_ipSets s buf) (put_sets D dp) W.
Proof. intros [] ?. destruct buf, dp. by split. Qed.
Lemma sim_put_policies t D buf dp W : sim buf dp W → policies_rel Sum224 Marshal t D (want_policies W) → sim (set_policies t buf) (put_policies D dp) W.
Proof. intros [] ?. destruct buf, dp. by split. Qed.
Lemma sim_put_profiles t D buf dp W : sim buf dp W → profiles_rel Sum224 Marshal t D (want_profiles W) → sim (set_profiles t buf) (put_profiles D dp) W.
Proof. intros [] ?. destruct buf, dp. by split. Qed.
Lemma sim_put_endpoints t D buf dp W : sim buf dp W → endpoints_rel hostname t D (want_endpoints W) → sim (set_endpoints t buf) (put_endpoints D dp) W.
Proof. intros [] ?. destruct buf, dp. by split. Qed.

(** ** Status and configuration *)
Definition readyStages : list stage := [flushReadyFlag; flushConfigUpdate UpdateFrom ToConfigUpdate].

Definition readySettled buf : Prop := pendingNotReady buf = false ∧ pendingGlobalConfig buf = None.

Lemma ready_stages W buf dp : sim buf dp W → reaches readyStages (λ buf dp, sim buf dp W ∧ readySettled buf) buf dp.
Proof.
  intros Hsim. unfold readyStages.
  assert (Hready : ∃ ms, flushReadyFlag buf = Ret (set_notReady false buf, ms) ∧ recvAll recv ms dp = Some dp).
  { unfold flushReadyFlag. destruct buf as [? ? ? ? ? ? ? ? []]; cbn; eexists; done. }
  destruct Hready as (ms&Hf&Hm). eapply reaches_cons; [exact Hf|exact Hm|]. clear Hf Hm ms.
  assert (Hsim1 : sim (set_notReady false buf) dp W ∧ pendingNotReady (set_notReady false buf) = false) by (destruct Hsim, buf; split; by try split).
  revert Hsim1. generalize (set_notReady false buf) as b1. clear Hsim buf. intros buf [Hsim Hnr].
  destruct (pendingGlobalConfig buf) as [g|] eqn:Hg.
  - destruct (sim_config _ _ _ Hsim ltac:(by rewrite Hg) (config buf)) as ([[c1 b1] H1]&_).
    destruct (sim_config _ _ _ Hsim ltac:(by rewrite Hg) c1) as (_&[[c2 b2] H2]&_).
    destruct (sim_config _ _ _ Hsim ltac:(by rewrite Hg) c2) as (_&_&[[c3 b3] H3]).
    eapply reaches_cons with (dp1 := if b1 || b2 || b3 then put_config (Some (ToConfigUpdate c3)) dp else dp).
    + unfold flushConfigUpdate, mustUpdate. rewrite Hg in *. rewrite H1. cbn [obind]. rewrite H2. cbn [obind]. rewrite H3. cbn [obind]. reflexivity.
    + by destruct (b1 || b2 || b3).
    + apply reaches_nil. split; [|by destruct buf]. destruct Hsim. destruct (b1 || b2 || b3), buf, dp; split; try done; by intros [].
  - eapply reaches_cons; [unfold flushConfigUpdate; by rewrite Hg|done|by apply reaches_nil].
Qed.

(** ** IP sets, policies, profiles and endpoints *)
Definition mainSettled buf : Prop :=
  readySettled buf ∧ pendingAddedIPSets (ipSets buf) = ∅ ∧ pendingRemovedIPSets (ipSets buf) = ∅ ∧ no_deltas (ipSets buf) ∧
  settled (policies buf) ∧ settled (profiles buf) ∧ settled (es_endpoints buf).

(** From the IP sets up to the endpoints. *)
Definition upStages r : list stage :=
  [flushAddedIPSets r; flushIPSetDeltas r; flushPolicyUpdates Sum224 Marshal r; flushProfileUpdates Sum224 Marshal r; flushEndpointTierUpdates r].

Definition upSettled buf : Prop :=
  readySettled buf ∧ pendingAddedIPSets (ipSets buf) = ∅ ∧ no_deltas (ipSets buf) ∧ tr_updates (policies buf) = ∅ ∧ tr_updates (profiles buf) = ∅ ∧ tr_updates (es_endpoints buf) = ∅.

Lemma up_stages r W buf dp : closed_want W → sets_valid (want_sets W) → sim buf dp W → readySettled buf → reaches (upStages r) (λ buf dp, sim buf dp W ∧ upSettled buf) buf dp.
Proof.
  intros Hcw Hval Hsim Hrdy. destruct buf as [c i p q e ep h po nr g s ho sa ns ro vt wg b sv], dp as [ds dpol dprof dep dh dpo dw dw6 dsa dns dv dr dsv den dbg dc]. unfold upStages.
  destruct (addedLoop_ok r (r _ (map_to_list (pendingAddedIPSets i))) i _ (want_sets W) Hval (sim_sets _ _ _ Hsim)) as (i1&ms1&D1&Hf1&Hm1&Hi1&Ha1).
  { rewrite range_perm. apply NoDup_fst_map_to_list. }
  { intros id t. by rewrite range_perm, elem_of_map_to_list. }
  eapply reaches_cons; [unfold flushAddedIPSets, onPart; cbn [ipSets]; rewrite Hf1; reflexivity|exact Hm1|]. apply (sim_put_sets i1 D1) in Hsim; [|done].
  destruct (deltas_ok r i1 _ (want_sets W) Hval (sim_sets _ _ _ Hsim) Ha1) as (i2&ms2&D2&Hf2&Hm2&Hi2&Ha2&Hno).
  eapply reaches_cons; [unfold flushIPSetDeltas, onPart; cbn [ipSets set_ipSets]; rewrite Hf2; reflexivity|exact Hm2|]. apply (sim_put_sets i2 D2) in Hsim; [|done].
  assert (Hset : ∀ id, is_Some (want_sets W !! id) → is_Some (D2 !! id)) by (intros id; by apply ipsets_covers with i2).
  destruct (policies_updates Sum224 Marshal r p _ _ (sim_policies _ _ _ Hsim)) as (p1&ms3&D3&Hf3&Hm3&Hp1&Hu3&_).
  { intros k rules id Hk Hid. by eapply Hset, cw_policies. }
  eapply reaches_cons; [unfold flushPolicyUpdates, onPart; cbn [policies set_ipSets]; rewrite Hf3; reflexivity|exact Hm3|]. apply (sim_put_policies p1 D3) in Hsim; [|done].
  destruct (profiles_updates Sum224 Marshal r q _ _ (sim_profiles _ _ _ Hsim)) as (q1&ms4&D4&Hf4&Hm4&Hq1&Hu4&_).
  { intros k rules id Hk Hid. by eapply Hset, cw_profiles. }
  eapply reaches_cons; [unfold flushProfileUpdates, onPart; cbn [profiles set_ipSets set_policies]; rewrite Hf4; reflexivity|exact Hm4|]. apply (sim_put_profiles q1 D4) in Hsim; [|done].
  destruct (endpoints_updates hostname r ep _ _ (sim_endpoints _ _ _ Hsim)) as (ep1&ms5&D5&Hf5&Hm5&Hep1&Hu5&_).
  { intros k u id Hk Hid. destruct (cw_tiers W Hcw k u id Hk Hid) as [v Hv]. destruct (coalesces_covers _ _ _ p1 D3 _ id v Hp1 Hu3 Hv) as (x&_&Hx). by exists x. }
  { intros k u id Hk Hid. destruct (cw_epProfiles W Hcw k u id Hk Hid) as [v Hv]. destruct (coalesces_covers _ _ _ q1 D4 _ id v Hq1 Hu4 Hv) as (x&_&Hx). by exists x. }
  eapply reaches_cons; [unfold flushEndpointTierUpdates, onPart; cbn [es_endpoints set_ipSets set_policies set_profiles]; rewrite Hf5; reflexivity|exact Hm5|]. apply (sim_put_endpoints ep1 D5) in Hsim; [|done].
  by apply reaches_nil.
Qed.

(** And back down. *)
Definition downStages r : list stage := [flushEndpointTierDeletes r; flushProfileDeletes r; flushPolicyDeletes r; flushRemovedIPSets r].

Lemma down_stages r W buf dp : closed_want W → sim buf dp W → upSettled buf → reaches (downStages r) (λ buf dp, sim buf dp W ∧ mainSettled buf) buf dp.
Proof.
  intros Hcw Hsim (Hrdy&Ha&Hno&Hup&Huq&Hue).
  destruct buf as [c i p q e ep h po nr g s ho sa ns ro vt wg b sv], dp as [ds dpol dprof dep dh dpo dw dw6 dsa dns dv dr dsv den dbg dc]. cbn in Ha, Hno, Hup, Huq, Hue. unfold downStages.
  destruct (endpoints_deletes hostname r ep _ _ (sim_endpoints _ _ _ Hsim)) as (ep1&ms1&D1&Hf1&Hm1&Hep1&Hd1&Hu1).
  eapply reaches_cons; [unfold flushEndpointTierDeletes, onPart; cbn [es_endpoints]; rewrite Hf1; reflexivity|exact Hm1|]. apply (sim_put_endpoints ep1 D1) in Hsim; [|done].
  assert (Hse : settled ep1) by (split; congruence).
  destruct (profiles_deletes Sum224 Marshal r q _ _ (sim_profiles _ _ _ Hsim)) as (q1&ms2&D2&Hf2&Hm2&Hq1&Hd2&Hu2).
  { intros k j x Hk Hj. by apply (endpoints_release_profile W ep1 D1 k j x). }
  eapply reaches_cons; [unfold flushProfileDeletes, onPart; cbn [profiles set_endpoints]; rewrite Hf2; reflexivity|exact Hm2|]. apply (sim_put_profiles q1 D2) in Hsim; [|done].
  destruct (policies_deletes Sum224 Marshal r p _ _ (sim_policies _ _ _ Hsim)) as (p1&ms3&D3&Hf3&Hm3&Hp1&Hd3&Hu3).
  { intros k j x Hk Hj. by apply (endpoints_release_policy W ep1 D1 k j x). }
  eapply reaches_cons; [unfold flushPolicyDeletes, onPart; cbn [policies set_endpoints set_profiles]; rewrite Hf3; reflexivity|exact Hm3|]. apply (sim_put_policies p1 D3) in Hsim; [|done].
  assert (Hsp : settled p1 ∧ settled q1) by (split; split; congruence).
  destruct (removedLoop_ok (r _ (elements (pendingRemovedIPSets i))) i _ (want_sets W) (sim_sets _ _ _ Hsim)) as (i1&ms4&D4&Hf4&Hm4&Hi1&Ha4&Hr4&Hno4).
  { rewrite range_perm. apply NoDup_elements. }
  { intros id. by rewrite range_perm, elem_of_elements. }
  { intros id D Hid. by apply (rules_release_set W p1 q1 D3 D2 id); destruct Hsp. }
  eapply reaches_cons; [unfold flushRemovedIPSets, onPart; cbn [ipSets set_endpoints set_profiles set_policies]; rewrite Hf4; reflexivity|exact Hm4|]. apply (sim_put_sets i1 D4) in Hsim; [|done].
  apply reaches_nil. split; [done|]. cbn. unfold mainSettled. cbn. split_and!; [done|congruence| |auto|by destruct Hsp..|done].
  rewrite Hr4. apply drained, range_perm.
Qed.

(** ** The other kinds *)
Lemma sim_put_hosts t D buf dp W : sim buf dp W → plain_rel (λ k _, k) t D (want_hosts W) → sim (set_hosts t buf) (put_hosts D dp) W.
Proof. intros [] ?. destruct buf, dp. by split. Qed.
Lemma sim_put_pools t D buf dp W : sim buf dp W → pools_rel t D (want_pools W) → sim (set_pools t buf) (put_pools D dp) W.
Proof. intros [] ?. destruct buf, dp. by split. Qed.
Lemma sim_put_wireguard w D4 D6 buf dp W : sim buf dp W → wg_rel w D4 D6 (want_wireguard W) → sim (set_wireguard w buf) (put_wireguardV6 D6 (put_wireguard D4 dp)) W.
Proof. intros [] ?. destruct buf, dp. by split. Qed.
Lemma sim_put_serviceAccounts t D buf dp W : sim buf dp W → plain_rel (λ _, sau_Id) t D (want_serviceAccounts W) → sim (set_serviceAccounts t buf) (put_serviceAccounts D dp) W.
Proof. intros [] ?. destruct buf, dp. by split. Qed.
Lemma sim_put_namespaces t D buf dp W : sim buf dp W → plain_rel (λ _, nsu_Id) t D (want_namespaces W) → sim (set_namespaces t buf) (put_namespaces D dp) W.
Proof. intros [] ?. destruct buf, dp. by split. Qed.
Lemma sim_put_vteps t D buf dp W : sim buf dp W → plain_rel (λ _, vt_Node) t D (want_vteps W) → sim (set_vteps t buf) (put_vteps D dp) W.
Proof. intros [] ?. destruct buf, dp. by split. Qed.
Lemma sim_put_routes t D buf dp W : sim buf dp W → plain_rel (λ _, rt_Dst) t D (want_routes W) → sim (set_routes t buf) (put_routes D dp) W.
Proof. intros [] ?. destruct buf, dp. by split. Qed.
Lemma sim_put_services t D buf dp W : sim buf dp W → plain_rel (λ _, serviceID) t D (want_services W) → sim (set_services t buf) (put_services D dp) W.
Proof. intros [] ?. destruct buf, dp. by split. Qed.

Definition netStages r : list stage :=
  [flushServiceAccounts r; flushNamespaces r; flushRouteRemoves r; flushVTEPRemoves r; flushVTEPAdds r; flushRouteAdds r].

Definition netSettled buf : Prop := settled (serviceAccounts buf) ∧ settled (namespaces buf) ∧ settled (routes buf) ∧ settled (vteps buf).

(** Routes are indexed by the key of the buffer. *)
Lemma routes_adds r t (M : gmap string ProtoRouteUpdate) dp : plain_rel (λ _, rt_Dst) t (d_routes dp) M →
  ∃ t' ms D, flushAdds r (λ dst _, dst) RouteUpdate t = (t', ms) ∧ recvAll recv ms dp = Some (put_routes D dp) ∧ plain_rel (λ _, rt_Dst) t' D M ∧
    tr_updates t' = ∅ ∧ tr_deletes t' = tr_deletes t.
Proof.
  intros Hc. destruct (plain_updates (ConfigUpdate := ConfigUpdate) (λ _, rt_Dst) routesPart RouteUpdate) with (r := r) (t := t) (W := M) (dp := dp) as (t'&ms&D&Hf&Hrest); [|done|].
  { intros k v dp' <-. done. }
  exists t', ms, D. split; [|done]. rewrite (flushAdds_eq r (λ dst _, dst)) in Hf by done.
  apply (f_equal (λ o, match o with Ret x => x | _ => (t, []) end)) in Hf. exact Hf.
Qed.

Lemma net_stages r W buf dp : sim buf dp W → mainSettled buf → reaches (netStages r) (λ buf dp, sim buf dp W ∧ mainSettled buf ∧ netSettled buf) buf dp.
Proof.
  intros Hsim Hmain. destruct buf as [c i p q e ep h po nr g s ho sa ns ro vt wg b sv], dp as [ds dpol dprof dep dh dpo dw dw6 dsa dns dv dr dsv den dbg dc]. unfold netStages.
  destruct (plain_both (ConfigUpdate := ConfigUpdate) (λ _, sau_Id) serviceAccountsPart ServiceAccountUpdate ServiceAccountRemove ltac:(by intros k v dp' <-) ltac:(done) r _ _ _ (sim_serviceAccounts _ _ _ Hsim)) as (t1&ms1&D1&Hf1&Hm1&Hr1&Hs1).
  eapply reaches_cons; [unfold flushServiceAccounts, onPart; rewrite Hf1; reflexivity|exact Hm1|]. apply (sim_put_serviceAccounts t1 D1) in Hsim; [|done].
  destruct (plain_both (ConfigUpdate := ConfigUpdate) (λ _, nsu_Id) namespacesPart NamespaceUpdate NamespaceRemove ltac:(by intros k v dp' <-) ltac:(done) r _ _ _ (sim_namespaces _ _ _ Hsim)) as (t2&ms2&D2&Hf2&Hm2&Hr2&Hs2).
  eapply reaches_cons; [unfold flushNamespaces, onPart; rewrite Hf2; reflexivity|exact Hm2|]. apply (sim_put_namespaces t2 D2) in Hsim; [|done].
  destruct (plain_removes (ConfigUpdate := ConfigUpdate) (λ _, rt_Dst) routesPart RouteRemove ltac:(done) r _ _ _ (sim_routes _ _ _ Hsim)) as (t3&ms3&D3&Hf3&Hm3&Hr3&Hd3&_).
  eapply reaches_cons; [unfold flushRouteRemoves, onPart; rewrite Hf3; reflexivity|exact Hm3|]. apply (sim_put_routes t3 D3) in Hsim; [|done].
  destruct (plain_removes (ConfigUpdate := ConfigUpdate) (λ _, vt_Node) vtepsPart VXLANTunnelEndpointRemove ltac:(done) r _ _ _ (sim_vteps _ _ _ Hsim)) as (t4&ms4&D4&Hf4&Hm4&Hr4&Hd4&_).
  eapply reaches_cons; [unfold flushVTEPRemoves, onPart; rewrite Hf4; reflexivity|exact Hm4|]. apply (sim_put_vteps t4 D4) in Hsim; [|done].
  destruct (plain_adds (ConfigUpdate := ConfigUpdate) (λ _, vt_Node) vtepsPart VXLANTunnelEndpointUpdate ltac:(by intros k v dp' <-) r _ _ _ (sim_vteps _ _ _ Hsim)) as (t5&ms5&D5&Hf5&Hm5&Hr5&Hu5&Hd5).
  eapply reaches_cons; [unfold flushVTEPAdds, onPart; rewrite Hf5; reflexivity|exact Hm5|]. apply (sim_put_vteps t5 D5) in Hsim; [|done].
  destruct (routes_adds r _ _ _ (sim_routes _ _ _ Hsim)) as (t6&ms6&D6&Hf6&Hm6&Hr6&Hu6&Hd6).
  eapply reaches_cons; [unfold flushRouteAdds, onPart; rewrite Hf6; reflexivity|exact Hm6|]. apply (sim_put_routes t6 D6) in Hsim; [|done].
  apply reaches_nil. split; [done|]. split; [exact Hmain|]. clear ToConfigUpdate. cbn in Hd5, Hd6. unfold netSettled, settled. cbn. split_and!; try tauto; congruence.
Qed.

Definition hostStages r : list stage :=
  [flushHostWireguardDeletes r; flushHostWireguardUpdates r; flushHostDeletes r; flushHostUpdates r; flushIPPoolDeletes r; flushIPPoolUpdates r].

Definition hostSettled buf : Prop :=
  (pendingWireguardUpdates (wireguard buf) = ∅ ∧ pendingWireguardDeletes (wireguard buf) = ∅) ∧ settled (hostMetadata buf) ∧ settled (ipPools buf).

Lemma hosts_updates r t (M : gmap string HostInfo) dp : plain_rel (λ k _, k) t (d_hosts dp) M →
  ∃ t' ms D, flushUpdates r (λ h i, Ret (HostMetadataUpdate h i)) t = Ret (t', ms) ∧ recvAll recv ms dp = Some (put_hosts D dp) ∧ plain_rel (λ k _, k) t' D M ∧
    tr_updates t' = ∅ ∧ tr_deletes t' = tr_deletes t.
Proof.
  intros Hc. unshelve eapply (flushUpdates_ok _ _ _ _ _ recv hostsPart HostMetadataUpdate (λ _ _, true) _ _ _ r t M dp Hc); try done; [by eexists|by intros k v p [= <-]].
Qed.

Lemma host_stages r W buf dp : sim buf dp W → mainSettled buf → netSettled buf →
  reaches (hostStages r) (λ buf dp, sim buf dp W ∧ mainSettled buf ∧ netSettled buf ∧ hostSettled buf) buf dp.
Proof.
  intros Hsim Hmain Hnet. destruct buf as [c i p q e ep h po nr g s ho sa ns ro vt wg b sv], dp as [ds dpol dprof dep dh dpo dw dw6 dsa dns dv dr dsv den dbg dc]. unfold hostStages.
  destruct (wgDeletesLoop_ok (r _ (elements (pendingWireguardDeletes wg))) wg _ _ (sim_wireguard _ _ _ Hsim)) as (w1&ms1&D1&D1'&Hf1&Hm1&Hr1&Hu1&Hd1).
  { rewrite range_perm. apply NoDup_elements. }
  { intros n. by rewrite range_perm, elem_of_elements. }
  rewrite drained in Hd1 by apply range_perm.
  eapply reaches_cons; [unfold flushHostWireguardDeletes, onPart; cbn [wireguard]; rewrite Hf1; reflexivity|exact Hm1|]. apply (sim_put_wireguard w1 D1 D1') in Hsim; [|done].
  destruct (wgUpdatesLoop_ok (r _ (map_to_list (pendingWireguardUpdates w1))) w1 _ _ (sim_wireguard _ _ _ Hsim)) as (w2&ms2&D2&D2'&Hf2&Hm2&Hr2&Hu2&Hd2).
  { rewrite range_perm. apply NoDup_fst_map_to_list. }
  { intros n v. by rewrite range_perm, elem_of_map_to_list. }
  rewrite foldl_delete_all in Hu2 by apply range_perm.
  eapply reaches_cons; [unfold flushHostWireguardUpdates, onPart; cbn [wireguard set_wireguard]; rewrite Hf2; reflexivity|exact Hm2|]. apply (sim_put_wireguard w2 D2 D2') in Hsim; [|done].
  destruct (plain_deletes (ConfigUpdate := ConfigUpdate) (λ k _, k) hostsPart HostMetadataRemove ltac:(done) r h _ _ (sim_hosts _ _ _ Hsim)) as (t3&ms3&D3&Hf3&Hm3&Hr3&Hd3&_).
  eapply reaches_cons; [unfold flushHostDeletes, onPart; cbn [hostMetadata set_wireguard set_hosts set_pools]; rewrite Hf3; reflexivity|exact Hm3|]. apply (sim_put_hosts t3 D3) in Hsim; [|done].
  destruct (hosts_updates r t3 _ _ (sim_hosts _ _ _ Hsim)) as (t4&ms4&D4&Hf4&Hm4&Hr4&Hu4&Hd4).
  eapply reaches_cons; [unfold flushHostUpdates, onPart; cbn [hostMetadata set_wireguard set_hosts set_pools]; rewrite Hf4; reflexivity|exact Hm4|]. apply (sim_put_hosts t4 D4) in Hsim; [|done].
  destruct (pools_deletes (ConfigUpdate := ConfigUpdate) r po _ _ (sim_pools _ _ _ Hsim)) as (t5&ms5&D5&Hf5&Hm5&Hr5&Hd5&_).
  eapply reaches_cons; [unfold flushIPPoolDeletes, onPart; cbn [ipPools set_wireguard set_hosts set_pools]; rewrite Hf5; reflexivity|exact Hm5|]. apply (sim_put_pools t5 D5) in Hsim; [|done].
  destruct (pools_updates (ConfigUpdate := ConfigUpdate) r t5 _ _ (sim_pools _ _ _ Hsim)) as (t6&ms6&D6&Hf6&Hm6&Hr6&Hu6&Hd6).
  eapply reaches_cons; [unfold flushIPPoolUpdates, onPart; cbn [ipPools set_wireguard set_hosts set_pools]; rewrite Hf6; reflexivity|exact Hm6|]. apply (sim_put_pools t6 D6) in Hsim; [|done].
  apply reaches_nil. split; [done|]. split; [exact Hmain|]. split; [exact Hnet|]. clear ToConfigUpdate. cbn in Hd4, Hd6. unfold hostSettled, settled. cbn. split_and!; congruence.
Qed.

Definition lastStages r : list stage := [flushEncapUpdate; flushGlobalBGPConfig; flushServices r].

Definition lastSettled buf : Prop := pendingEncapUpdate buf = None ∧ pendingGlobalBGPConfig buf = None ∧ settled (es_services buf).

Lemma encap_stage buf dp W : sim buf dp W → ∃ ms dp', flushEncapUpdate buf = Ret (set_encap None buf, ms) ∧ recvAll recv ms dp = Some dp' ∧ sim (set_encap None buf) dp' W.
Proof.
  intros []. destruct buf as [? ? ? ? [e|]], dp; cbn in *; eexists _, _; (split_and!; [done|cbn; done|]); by split.
Qed.

Lemma bgp_stage buf dp W : sim buf dp W → ∃ ms dp', flushGlobalBGPConfig buf = Ret (set_bgp None buf, ms) ∧ recvAll recv ms dp = Some dp' ∧ sim (set_bgp None buf) dp' W.
Proof.
  intros []. destruct buf as [? ? ? ? ? ? ? ? ? ? ? ? ? ? ? ? ? [b|] ?], dp; cbn in *; eexists _, _; (split_and!; [done|cbn; done|]); by split.
Qed.

Lemma last_stages r W buf dp : sim buf dp W → mainSettled buf → netSettled buf → hostSettled buf →
  reaches (lastStages r) (λ buf dp, sim buf dp W ∧ mainSettled buf ∧ netSettled buf ∧ hostSettled buf ∧ lastSettled buf) buf dp.
Proof.
  intros Hsim Hmain Hnet Hhost. unfold lastStages.
  destruct (encap_stage buf dp W Hsim) as (ms1&dp1&Hf1&Hm1&Hsim1). eapply reaches_cons; [exact Hf1|exact Hm1|].
  destruct (bgp_stage _ dp1 W Hsim1) as (ms2&dp2&Hf2&Hm2&Hsim2). eapply reaches_cons; [exact Hf2|exact Hm2|].
  destruct (plain_both (ConfigUpdate := ConfigUpdate) (λ _, serviceID) servicesPart ServiceUpdate (λ id, ServiceRemove id.1 id.2) ltac:(by intros k v dp' <-) ltac:(by intros []) r _ _ _
    (sim_services _ _ _ Hsim2)) as (t3&ms3&D3&Hf3&Hm3&Hr3&Hs3).
  eapply reaches_cons; [unfold flushServices, onPart; rewrite Hf3; reflexivity|exact Hm3|]. apply (sim_put_services t3 D3) in Hsim2; [|done].
  apply reaches_nil. split; [done|]. by destruct buf.
Qed.

(** ** The whole flush *)
Definition allSettled buf : Prop := mainSettled buf ∧ netSettled buf ∧ hostSettled buf ∧ lastSettled buf.

Lemma settled_has buf dp W : sim buf dp W → allSettled buf → has Sum224 Marshal dp W.
Proof.
  intros [] ((_&Ha&Hr&Hno&[]&[]&[])&([]&[]&[]&[])&([]&[]&[])&He&Hb&[]). split; try (by eapply coalesces_settled); try (by eapply plain_settled).
  - by eapply ipsets_settled.
  - by eapply wg_settled.
  - by rewrite sim_encap0, He.
  - by rewrite sim_bgp0, Hb.
Qed.

Lemma Flush_reaches r W buf dp : closed_want W → sets_valid (want_sets W) → sim buf dp W →
  ∃ buf' ms dp', Flush Sum224 Marshal UpdateFrom ToConfigUpdate r buf = Ret (buf', ms) ∧ recvAll recv ms dp = Some dp' ∧ sim buf' dp' W ∧ allSettled buf'.
Proof.
  intros Hcw Hv Hsim. change (reaches (readyStages ++ upStages r ++ downStages r ++ netStages r ++ hostStages r ++ lastStages r) (λ buf dp, sim buf dp W ∧ allSettled buf) buf dp).
  apply reaches_app. eapply reaches_weaken; [|by apply ready_stages]. clear buf dp Hsim. intros buf dp [Hsim Hrdy].
  apply reaches_app. eapply reaches_weaken; [|by apply up_stages]. clear buf dp Hsim Hrdy. intros buf dp [Hsim Hup].
  apply reaches_app. eapply reaches_weaken; [|by apply down_stages]. clear buf dp Hsim Hup. intros buf dp [Hsim Hm].
  apply reaches_app. eapply reaches_weaken; [|by apply net_stages]. clear buf dp Hsim Hm. intros buf dp (Hsim&Hm&Hn).
  apply reaches_app. eapply reaches_weaken; [|by apply host_stages]. clear buf dp Hsim Hm Hn. intros buf dp (Hsim&Hm&Hn&Hh).
  by apply last_stages.
Qed.

(** ** Calls *)
(** What holds after a call: no panic, nothing is refused, the relation is kept, and a flush settles everything. *)
Definition call_ok (c : Call) buf dp W : Prop :=
  ∃ buf' ms dp', seq_call Sum224 Marshal UpdateFrom ToConfigUpdate c buf = Ret (buf', ms) ∧ recvAll recv ms dp = Some dp' ∧ sim buf' dp' (want_call c W) ∧
    match c with CFlush _ => allSettled buf' | _ => True end.

Definition is_flush (c : Call (PT := PT)) : bool := match c with CFlush _ => true | _ => false end.

Lemma quiet_ok c buf dp W buf' : seq_call Sum224 Marshal UpdateFrom ToConfigUpdate c buf = Ret (buf', []) → sim buf' dp (want_call c W) → is_flush c = false → call_ok c buf dp W.
Proof. intros Hc Hs Hn. exists buf', [], dp. split_and!; [done|done|done|by destruct c]. Qed.

(** Replacing one part of the relation. *)
Ltac sim_part buf dp W Hsim :=
  destruct Hsim, buf, dp, W; split; cbn in *; try assumption.
Ltac tracked_call buf dp W Hsim :=
  eapply quiet_ok; [reflexivity|sim_part buf dp W Hsim; first [by apply coalesces_update|by apply coalesces_delete|by apply wg_update|by apply wg_delete|done]|done].

Lemma set_call_ok c buf dp W : allowed Sum224 Marshal UpdateFrom hostname W c → sim buf dp W →
  match c with CIPSetAdded _ _ | CIPSetRemoved _ | CMemberAdded _ _ | CMemberRemoved _ _ => True | _ => False end → call_ok c buf dp W.
Proof.
  intros Hal Hsim Hc. pose proof (sim_sets _ _ _ Hsim) as Hs. destruct c as [id t|id|id m|id m| | | | | | | | | | | | | | | | | | | | | | | | | | ]; try done; cbn in Hal.
  - destruct (OnIPSetAdded_ok buf _ _ id t Hs Hal) as (s&Hf&Hr). eapply quiet_ok; [cbn; rewrite Hf; reflexivity|by sim_part buf dp W Hsim|done].
  - destruct (OnIPSetRemoved_ok buf _ _ id Hs Hal) as (s&Hf&Hr). eapply quiet_ok; [cbn; rewrite Hf; reflexivity|by sim_part buf dp W Hsim|done].
  - destruct Hal as (t&X&Hx&Hn). destruct (OnIPSetMemberAdded_ok buf _ _ id m t X Hs Hx Hn) as (s&Hf&Hr). eapply quiet_ok; [cbn; rewrite Hf; reflexivity|by sim_part buf dp W Hsim|done].
  - destruct Hal as (t&X&Hx&Hm). destruct (OnIPSetMemberRemoved_ok buf _ _ id m t X Hs Hx Hm) as (s&Hf&Hr). eapply quiet_ok; [cbn; rewrite Hf; reflexivity|by sim_part buf dp W Hsim|done].
Qed.

Lemma allowed_call_ok c buf dp W : allowed Sum224 Marshal UpdateFrom hostname W c → sim buf dp W → call_ok c buf dp W.
Proof.
  intros Hal Hsim. destruct c as [id t|id|id m|id m| |g s h|k rules|k|n rules|n|key [ep|] cd peer tiers|e|n i|n|key pool|key|n x|n|u|id|u|id|u|n|u|dst|cfg|u|n m|r]; cbn in Hal;
    try (by apply set_call_ok); try (tracked_call buf dp W Hsim).
  destruct (Flush_reaches r W buf dp (proj1 Hal) (proj2 Hal) Hsim) as (buf'&ms&dp'&Hf&Hm&Hs&Hset). exists buf', ms, dp'. by destruct W.
Qed.

(** ** Runs *)
Definition want_run (cs : list Call) W : Want := foldl (λ W c, want_call c W) W cs.

Lemma run_ok cs : ∀ buf dp W, allowed_run Sum224 Marshal UpdateFrom hostname cs W → sim buf dp W →
  ∃ buf' ms dp', seq_run Sum224 Marshal UpdateFrom ToConfigUpdate cs buf = Ret (buf', ms) ∧ recvAll recv ms dp = Some dp' ∧ sim buf' dp' (want_run cs W).
Proof.
  induction cs as [|c cs IH]; intros buf dp W Hal Hsim; [by exists buf, [], dp|]. destruct Hal as [Hc Hal].
  destruct (allowed_call_ok c buf dp W Hc Hsim) as (buf1&ms1&dp1&Hf&Hm&Hs&_). destruct (IH buf1 dp1 _ Hal Hs) as (buf2&ms2&dp2&Hr&Hm2&Hs2).
  exists buf2, (ms1 ++ ms2), dp2. cbn [seq_run]. rewrite Hf. cbn [obind]. rewrite Hr. cbn [obind]. split_and!; [done| |done]. by rewrite recvAll_app, Hm.
Qed.

Lemma allowed_run_app cs1 : ∀ cs2 W, allowed_run Sum224 Marshal UpdateFrom hostname (cs1 ++ cs2) W ↔
  allowed_run Sum224 Marshal UpdateFrom hostname cs1 W ∧ allowed_run Sum224 Marshal UpdateFrom hostname cs2 (want_run cs1 W).
Proof. induction cs1 as [|c cs1 IH]; intros cs2 W; cbn; [tauto|]. rewrite IH. tauto. Qed.

Lemma seq_run_snoc cs c buf buf1 ms1 buf2 ms2 : seq_run Sum224 Marshal UpdateFrom ToConfigUpdate cs buf = Ret (buf1, ms1) →
  seq_call Sum224 Marshal UpdateFrom ToConfigUpdate c buf1 = Ret (buf2, ms2) → seq_run Sum224 Marshal UpdateFrom ToConfigUpdate (cs ++ [c]) buf = Ret (buf2, ms1 ++ ms2).
Proof.
  revert buf ms1. induction cs as [|c' cs IH]; intros buf ms1; cbn [seq_run app].
  - intros [= <- <-] Hc. rewrite Hc. cbn. by rewrite app_nil_r.
  - intros ([b m]&Hf&([b' m']&Hr&[= -> <-])%obind_Ret)%obind_Ret Hc. rewrite Hf. cbn [obind]. rewrite (IH b m' Hr Hc). cbn. by rewrite (assoc_L (++)).
Qed.
End correct.
