(* ===== verification/SequencerTheorems.v ===== *)
(** * What holds of the event sequencer

    Runs of the sequencer against the strict dataplane: nothing is refused, nothing dangles, a
    flush brings the dataplane up to date, and a second flush has nothing to say.  Then the
    conversion of rules, and where the order of a flush falls short of what its comment says. *)
From S2P Require Import Prelude ModelRule UniqueLabels Multidict CIDR MemberDedup CIDRTrieSpec NamedPortCandidates NetIP NetString PolicySorter RuleScanner RuleScannerSpec.
From S2P Require Import RuleConvert ProtoMessages EventSequencer SequencerTracked SequencerSpec SequencerIPSets SequencerRefs SequencerStages SequencerWireguard SequencerCorrect.
From stdpp Require Import base list gmap numbers strings.
From stdpp Require Import options.

(** ** The strict dataplane keeps its references *)
Section closed.
Context {ConfigUpdate : Type}.
Abbreviation recv := (recv (ConfigUpdate := ConfigUpdate)).
Implicit Types (dp : Dataplane (ConfigUpdate := ConfigUpdate)).

Lemma is_Some_insert `{Countable K} {A} (m : gmap K A) i j x : is_Some (m !! i) → is_Some (<[j := x]> m !! i).
Proof. intros Hi. destruct (decide (i = j)) as [->|]; [by rewrite lookup_insert_eq|by rewrite lookup_insert_ne]. Qed.

Lemma closed_empty : closed_dataplane (emptyDataplane (ConfigUpdate := ConfigUpdate)).
Proof. unfold closed_dataplane. cbn. split_and!; intros k p id; by rewrite lookup_empty. Qed.

(** One of the maps that name changes, or one of those that are named. *)
Lemma closed_insert `{Countable K} {J A B} `{Countable J} (refs : A → list K) (m : gmap J A) (m' : gmap K B) j a :
  (∀ k a id, m !! k = Some a → id ∈ refs a → is_Some (m' !! id)) → knows (refs a) m' = true → ∀ k a' id, <[j := a]> m !! k = Some a' → id ∈ refs a' → is_Some (m' !! id).
Proof. intros Hc Hk k a' id [[<- <-]|[_ Hm]]%lookup_insert_Some; [by apply knows_true|by eapply Hc]. Qed.

Lemma closed_delete_ref `{Countable K} {J A B} `{Countable J} (refs : A → list K) (m : gmap J A) (m' : gmap K B) i :
  (∀ k a id, m !! k = Some a → id ∈ refs a → is_Some (m' !! id)) → unnamed refs i m = true → ∀ k a id, m !! k = Some a → id ∈ refs a → is_Some (delete i m' !! id).
Proof.
  intros Hc Hu k a id Hk Hid. rewrite lookup_delete_ne; [by eapply Hc|]. intros ->. by apply (proj1 (unnamed_true refs id m) Hu k a Hk).
Qed.

Lemma recv_closed m dp dp' : recv m dp = Some dp' → closed_dataplane dp → closed_dataplane dp'.
Proof.
  destruct dp as [s p q e h po w w6 sa ns v r sv en b c]. unfold closed_dataplane.
  destruct m; cbn; unfold recv_update, recv_remove, accepts_policy, accepts_profile, accepts_endpoint, releases_set, releases_policy, releases_profile; cbn; intros Hr (H1&H2&H3&H4).
  all: repeat (match type of Hr with context [match ?b with _ => _ end] => destruct b eqn:? end; try discriminate Hr); injection Hr as <-; cbn;
    repeat match goal with H : _ && _ = true |- _ => apply andb_true_iff in H as [? ?] end; split_and!; try assumption.
  all: first [by eapply closed_insert|by eapply closed_delete_ref|by intros ?????; apply is_Some_insert; eauto|by intros ??? [_ ?]%lookup_delete_Some; eauto].
Qed.
End closed.

(** Every message that was accepted left the dataplane closed. *)
Lemma recvAll_closed {ConfigUpdate : Type} (ms1 : list (Msg ConfigUpdate)) : ∀ ms2 dp dp', recvAll (recv (ConfigUpdate := ConfigUpdate)) (ms1 ++ ms2) dp = Some dp' → closed_dataplane dp →
  ∃ dp1, recvAll (recv (ConfigUpdate := ConfigUpdate)) ms1 dp = Some dp1 ∧ closed_dataplane dp1.
Proof.
  induction ms1 as [|m ms1 IH]; intros ms2 dp dp' Hr Hc; [by exists dp|]. cbn in *. destruct (recv m dp) as [dp1|] eqn:Hm; [|done].
  eapply IH; [exact Hr|]. by eapply recv_closed.
Qed.

(** ** Nothing pending, nothing sent *)
Section quiet.
Context {PT : Type} (Sum224 : string → string) (Marshal : ProtoRule → option string) {Config ConfigUpdate : Type}.
Context (UpdateFrom : Config → option (gmap string string) → ConfigSource → option (Config * bool)) (ToConfigUpdate : Config → ConfigUpdate) (hostname : string).
Abbreviation Sequencer := (EventSequencer (PT := PT) (Config := Config)).
Abbreviation Msg := (Msg ConfigUpdate).
Abbreviation stage := (Sequencer → outcome Empty_set (Sequencer * list Msg)).
Implicit Types (buf : Sequencer) (r : GoRange).

Lemma range_nil r A : r A [] = [].
Proof. apply Permutation_nil. symmetry. apply range_perm. Qed.

Lemma runStages_quiet (fs : list stage) buf : Forall (λ f, f buf = Ret (buf, [])) fs → runStages fs buf = Ret (buf, []).
Proof. induction 1 as [|f fs Hf _ IH]; [done|]. cbn [runStages]. rewrite Hf. cbn [obind]. by rewrite IH. Qed.

Lemma flushUpdates_quiet `{Countable K} {V} r (msg : K → V → outcome Empty_set Msg) t : settled t → flushUpdates r msg t = Ret (t, []).
Proof. intros [Hu _]. unfold flushUpdates. by rewrite Hu, map_to_list_empty, range_nil. Qed.
Lemma flushDeletes_quiet `{Countable K} {V} r (msg : K → Msg) (t : Tracked K V) : settled t → flushDeletes r msg t = (t, []).
Proof. intros [_ Hd]. unfold flushDeletes. by rewrite Hd, elements_empty, range_nil. Qed.
Lemma flushRemoves_quiet `{Countable K} {V} r (msg : K → Msg) (t : Tracked K V) : settled t → flushRemoves r msg t = (t, []).
Proof. intros Hs. rewrite <- flushDeletes_eq. by apply flushDeletes_quiet. Qed.
Lemma flushAdds_quiet `{Countable K} {V} r (id : K → V → K) (msg : V → Msg) (t : Tracked K V) : settled t → flushAdds r id msg t = (t, []).
Proof. destruct t as [u d s]. intros [Hu _]. cbn in Hu. subst u. unfold flushAdds. cbn. by rewrite map_to_list_empty, range_nil. Qed.
Lemma removesThenAdds_quiet `{Countable K} {V} r (id : K → V → K) (remove : K → Msg) (msg : V → Msg) (t : Tracked K V) : settled t → removesThenAdds r id remove msg t = (t, []).
Proof. intros Hs. unfold removesThenAdds. by rewrite flushRemoves_quiet, flushAdds_quiet. Qed.

Lemma no_deltas_empty (md : gmap string (gset IPSetMember)) : md_ok md → (∀ id, Multidict.Iter md id = ∅) → Multidict.IterKeys md = ∅.
Proof.
  intros Hok Hno. apply set_eq. intros id. rewrite elem_of_IterKeys by done. split; [by intros []|]. by intros ?%not_elem_of_empty.
Qed.

Lemma deltas_quiet r (s : IPSetBuffer) D W : ipsets_rel s D W → no_deltas s → deltas (ConfigUpdate := ConfigUpdate) r s = Ret (s, []).
Proof.
  intros Hr Hno. destruct (ipsets_md_ok _ _ _ Hr) as [Ho1 Ho2]. unfold deltas.
  rewrite (no_deltas_empty (pendingRemovedIPSetMembers s)), elements_empty, range_nil by (done || intros id; apply Hno). cbn [deltaLoop obind].
  by rewrite (no_deltas_empty (pendingAddedIPSetMembers s)), elements_empty, range_nil by (done || intros id; apply Hno).
Qed.

Lemma Flush_quiet r buf (dp : Dataplane (ConfigUpdate := ConfigUpdate)) W : sim Sum224 Marshal UpdateFrom hostname buf dp W → allSettled buf → Flush Sum224 Marshal UpdateFrom ToConfigUpdate r buf = Ret (buf, []).
Proof.
  intros Hsim (((Hnr&Hcf)&Ha&Hrem&Hno&Hp&Hq&He)&(Hsa&Hns&Hro&Hvt)&((Hwu&Hwd)&Hh&Hpo)&Hen&Hb&Hsv). pose proof (deltas_quiet r _ _ _ (sim_sets _ _ _ _ _ _ _ Hsim) Hno) as Hdel.
  apply runStages_quiet. clear Hsim. destruct buf as [c [pa pr am rm st] p q e ep h po nr g s ho sa ns ro vt [wu wd w4 w6] b sv]. cbn in *. subst.
  repeat (apply list.Forall_cons; split); try apply list.Forall_nil; try reflexivity.
  all: unfold flushAddedIPSets, flushIPSetDeltas, flushRemovedIPSets, flushPolicyUpdates, flushPolicyDeletes, flushProfileUpdates, flushProfileDeletes, flushEndpointTierUpdates,
    flushEndpointTierDeletes, flushServiceAccounts, flushNamespaces, flushRouteRemoves, flushRouteAdds, flushVTEPRemoves, flushVTEPAdds, flushHostWireguardDeletes, flushHostWireguardUpdates,
    flushHostDeletes, flushHostUpdates, flushIPPoolDeletes, flushIPPoolUpdates, flushServices; cbn [ipSets policies profiles es_endpoints serviceAccounts namespaces routes vteps wireguard hostMetadata ipPools es_services
      pendingAddedIPSets pendingRemovedIPSets pendingWireguardUpdates pendingWireguardDeletes].
  all: rewrite ?flushUpdates_quiet, ?flushDeletes_quiet, ?flushRemoves_quiet, ?flushAdds_quiet, ?removesThenAdds_quiet, ?map_to_list_empty, ?elements_empty, ?range_nil by done.
  all: rewrite ?Hdel; reflexivity.
Qed.
End quiet.

(** ** Runs *)
Section runs.
Context {PT : Type} (Sum224 : string → string) (Marshal : ProtoRule → option string) {Config ConfigUpdate : Type}.
Context (UpdateFrom : Config → option (gmap string string) → ConfigSource → option (Config * bool)) (ToConfigUpdate : Config → ConfigUpdate) (hostname : string).
Abbreviation Call := (Call (PT := PT)).
Abbreviation recv := (recv (ConfigUpdate := ConfigUpdate)).
Abbreviation allowed_run := (allowed_run Sum224 Marshal UpdateFrom hostname).
Abbreviation seq_run := (seq_run Sum224 Marshal UpdateFrom ToConfigUpdate).
Abbreviation sim := (sim Sum224 Marshal UpdateFrom hostname).

(** A run that ends with a flush. *)
Lemma flushed_run conf (cs : list Call) r : allowed_run (cs ++ [CFlush r]) wantNothing →
  ∃ buf ms dp, seq_run (cs ++ [CFlush r]) (NewEventSequencer conf) = Ret (buf, ms) ∧ recvAll recv ms emptyDataplane = Some dp ∧
    sim buf dp (want_run cs wantNothing) ∧ allSettled buf.
Proof.
  intros [Hal [[Hcw Hv] _]]%allowed_run_app. destruct (run_ok Sum224 Marshal UpdateFrom ToConfigUpdate hostname cs _ _ _ Hal (sim_new _ _ _ _ conf)) as (buf1&ms1&dp1&Hr&Hm&Hs).
  destruct (Flush_reaches Sum224 Marshal UpdateFrom ToConfigUpdate hostname r _ _ _ Hcw Hv Hs) as (buf&ms&dp&Hf&Hm2&Hs2&Hset).
  exists buf, (ms1 ++ ms), dp. split_and!; [by eapply seq_run_snoc|by rewrite recvAll_app, Hm|done|done].
Qed.

(** C4: After any sequence of allowed calls that ends with a flush, whatever the order in which Go
    ranges over its maps: no call panics, the dataplane accepts every message, and it then has
    exactly what the calls ask for: the IP sets with their members, the policies, profiles and
    endpoints as messages, and the other objects.  Coalescing loses nothing. *)
Theorem sequencer_brings_up_to_date conf (cs : list Call) r : allowed_run (cs ++ [CFlush r]) wantNothing →
  ∃ buf ms dp, seq_run (cs ++ [CFlush r]) (NewEventSequencer conf) = Ret (buf, ms) ∧ recvAll recv ms emptyDataplane = Some dp ∧
    has Sum224 Marshal dp (want_run cs wantNothing).
Proof. intros (buf&ms&dp&Hr&Hm&Hs&Hset)%(flushed_run conf). exists buf, ms, dp. split_and!; [done|done|by eapply settled_has]. Qed.

(** C5: After every message of a run of allowed calls, not only after a flush, no policy or profile
    in the dataplane names an IP set that it does not have, and no endpoint names a policy or a
    profile that it does not have.  In particular objects are not removed while they are in use. *)
Theorem sequencer_never_dangles conf (cs : list Call) : allowed_run cs wantNothing →
  ∃ buf ms, seq_run cs (NewEventSequencer conf) = Ret (buf, ms) ∧
    ∀ ms1 ms2, ms = ms1 ++ ms2 → ∃ dp, recvAll recv ms1 emptyDataplane = Some dp ∧ closed_dataplane dp.
Proof.
  intros Hal. destruct (run_ok Sum224 Marshal UpdateFrom ToConfigUpdate hostname cs _ _ _ Hal (sim_new _ _ _ _ conf)) as (buf&ms&dp&Hr&Hm&_).
  exists buf, ms. split; [done|]. intros ms1 ms2 ->. eapply recvAll_closed; [exact Hm|apply closed_empty].
Qed.

(** A flush leaves nothing behind: a second flush, in any order, sends nothing and changes nothing. *)
Theorem second_flush_silent conf (cs : list Call) r r' : allowed_run (cs ++ [CFlush r]) wantNothing →
  ∃ buf ms, seq_run (cs ++ [CFlush r]) (NewEventSequencer conf) = Ret (buf, ms) ∧ Flush Sum224 Marshal UpdateFrom ToConfigUpdate r' buf = Ret (buf, []).
Proof. intros (buf&ms&dp&Hr&Hm&Hs&Hset)%(flushed_run conf). exists buf, ms. split; [done|by eapply Flush_quiet]. Qed.

Lemma settled_sent (s : IPSetBuffer) D W : ipsets_rel s D W → pendingAddedIPSets s = ∅ → pendingRemovedIPSets s = ∅ → no_deltas s → sentIPSets s = dom W.
Proof.
  intros Hr Ha Hrem Hno. pose proof (ipsets_settled s D W Hr Ha Hrem Hno) as HD. destruct Hr as [S [[Hs _ _ _ _] HS]].
  apply (f_equal dom) in HD. rewrite HS, !dom_fmap_L in HD. congruence.
Qed.

(** Misuse of IP sets panics.  After a flush, adding an IP set panics exactly when the set is
    there, and removing one, or adding or removing a member, exactly when it is not. *)
Theorem ipset_misuse_panics conf (cs : list Call) r id t m : allowed_run (cs ++ [CFlush r]) wantNothing →
  ∃ buf ms, seq_run (cs ++ [CFlush r]) (NewEventSequencer conf) = Ret (buf, ms) ∧
    let known := is_Some (want_sets (want_run cs wantNothing) !! id) in
    (OnIPSetAdded id t buf = Panic ↔ known) ∧ (OnIPSetRemoved id buf = Panic ↔ ¬ known) ∧
    (OnIPSetMemberAdded id m buf = Panic ↔ ¬ known) ∧ (OnIPSetMemberRemoved id m buf = Panic ↔ ¬ known).
Proof.
  intros (buf&ms&dp&Hr&Hm&Hs&Hset)%(flushed_run conf). exists buf, ms. split; [done|]. cbn. destruct Hset as [(_&Ha&Hrem&Hno&_) _].
  pose proof (settled_sent _ _ _ (sim_sets _ _ _ _ _ _ _ Hs) Ha Hrem Hno) as Hsent. unfold OnIPSetAdded, OnIPSetRemoved, OnIPSetMemberAdded, OnIPSetMemberRemoved, unknownIPSet.
  split.
  - destruct (decide _) as [Hd|Hd]; rewrite Hsent, Hrem, elem_of_dom in Hd; revert Hd; clear; naive_solver set_solver.
  - destruct (bool_decide _) eqn:Hb; [apply bool_decide_eq_true in Hb|apply bool_decide_eq_false in Hb]; rewrite Hsent, Ha, lookup_empty, elem_of_dom in Hb; revert Hb; clear; naive_solver.
Qed.
End runs.

(** ** Conversion of rules *)
Lemma base64_length s : (String.length s <= String.length (base64 s))%nat.
Proof.
  assert (H : ∀ n s, (String.length s < n)%nat → (String.length s <= String.length (base64 s))%nat); [|by apply (H (S (String.length s))); lia].
  intros n. induction n as [|n IH]; [lia|]. intros [|a [|b [|c s']]] Hlt; cbn in *; [lia..|]. specialize (IH s'). lia.
Qed.

Lemma substring_length n s : (n <= String.length s)%nat → String.length (String.substring 0 n s) = n.
Proof. revert s. induction n as [|n IH]; intros [|c s] Hn; cbn in *; try lia; f_equal. apply IH. lia. Qed.

Section convert.
Context (Sum224 : string → string) (Marshal : ProtoRule → option string).
Context (HSum : ∀ s, String.length (Sum224 s) = 28%nat) (HMarshal : ∀ r, is_Some (Marshal r)).

Lemma fillIn_total rules more : ∀ hash, ∃ out rest, fillIn Sum224 Marshal hash rules = Ret out ∧ fillIn Sum224 Marshal hash (rules ++ more) = Ret (out ++ rest) ∧
  Forall2 (λ r o, ∃ id, String.length id = RuleIDLength ∧ o = set_RuleId id r) rules out.
Proof using HSum HMarshal.
  assert (Hid : ∀ s, ∃ id, ruleID (Sum224 s) = Ret id ∧ String.length id = RuleIDLength).
  { intros s. pose proof (base64_length (Sum224 s)) as Hl. rewrite HSum in Hl. unfold ruleID, RuleIDLength.
    destruct (16 <=? String.length (base64 (Sum224 s)))%nat eqn:Hle; [|apply Nat.leb_gt in Hle; lia]. eexists. split; [done|]. apply substring_length. lia. }
  assert (Htot : ∀ rules hash, ∃ out, fillIn Sum224 Marshal hash rules = Ret out).
  { clear rules more. induction rules as [|r rules IH]; intros hash; cbn [fillIn]; [by eexists|]. destruct (HMarshal (set_RuleId "" r)) as [data ->].
    destruct (Hid (hash +:+ data)) as (id&->&_), (IH (Sum224 (hash +:+ data))) as [out ->]. by eexists. }
  induction rules as [|r rules IH]; intros hash; cbn [fillIn app].
  - destruct (Htot more hash) as [rest ->]. exists [], rest. split_and!; [done|done|constructor].
  - destruct (HMarshal (set_RuleId "" r)) as [data ->]. destruct (Hid (hash +:+ data)) as (id&->&Hl), (IH (Sum224 (hash +:+ data))) as (out&rest&->&->&Hf). cbn [obind].
    exists (set_RuleId id r :: out), rest. split_and!; [done|done|]. constructor; [by exists id|done].
Qed.
End convert.

(** With a 28-byte hash and rules that can be marshalled, converting the rules of a policy never
    panics; every rule keeps its place and content and gets an identifier of 16 characters; and
    the identifiers do not depend on the rules that follow. *)
Theorem rule_conversion_total Sum224 Marshal rules more seed :
  (∀ s, String.length (Sum224 s) = 28%nat) → (∀ r, is_Some (Marshal r)) →
  ∃ out rest, parsedRulesToProtoRules Sum224 Marshal rules seed = Ret out ∧ parsedRulesToProtoRules Sum224 Marshal (rules ++ more) seed = Ret (out ++ rest) ∧
    Forall2 (λ pr o, ∃ id, String.length id = RuleIDLength ∧ o = set_RuleId id (parsedRuleToProtoRule pr)) rules out.
Proof.
  intros HS HM. unfold parsedRulesToProtoRules, fillInRuleIDs. rewrite fmap_app.
  destruct (fillIn_total Sum224 Marshal HS HM (parsedRuleToProtoRule <$> rules) (parsedRuleToProtoRule <$> more) (Sum224 seed)) as (out&rest&H1&H2&Hf).
  exists out, rest. split_and!; [done|done|]. by apply Forall2_fmap_l in Hf.
Qed.

(** The text of an IP set member identifies it: two members (with ports, addresses that are not
    IPv4-mapped, and CIDRs that are not single addresses) are never sent as the same text. *)
Theorem member_text_identifies m1 m2 s : member_ok m1 → member_ok m2 → ToProtobufFormat m1 = Ret s → ToProtobufFormat m2 = Ret s → m1 = m2.
Proof.
  intros H1 H2. rewrite (ToProtobufFormat_ok m1 H1), (ToProtobufFormat_ok m2 H2). intros [= <-] [= Heq]. by apply memberText_inj.
Qed.

(** ** An example *)
Definition demoSum (_ : string) : string := "abcdefghijklmnopqrstuvwxyz01".
Definition demoMarshal (_ : ProtoRule) : option string := Some "".
Definition demoUpdateFrom (c : unit) (_ : option (gmap string string)) (_ : ConfigSource) : option (unit * bool) := Some (c, false).
Definition demoToUpdate (c : unit) : unit := c.
(** Maps are ranged over as they come. *)
Definition demoRange : GoRange := MkGoRange (λ _ l, l) (λ _ l, Permutation_refl l).

(** Allow from the addresses of the set [s]. *)
Definition demoRule : ParsedRule :=
  MkParsedRule "allow" None None [] [] [] [] [] [] None None ["s"] [] [] None [] [] [] [] [] [] None None [] [] "" "" "" "" "" "" [] "" [] "" "" "" "" "" None None.
Definition demoRules : ParsedRules := MkParsedRules "" [demoRule] [] false false "default" "all()" [].
Definition demoPolicy : PolicyKey := MkPolicyKey "p" "" "GlobalNetworkPolicy".
Definition demoMember : IPSetMember := ipAddrIPSetMember (V4Addr 167772161).
Definition demoTier : TierInfo (PT := unit) :=
  MkTierInfo "default" true None "Deny" ∅ () [MkPolKV demoPolicy (MkMetadata PosInf (Z.lor policyMetaIngress policyMetaEgress) "default")].
Definition demoEndpoint : ModelEndpoint := Host (MkHostEndpoint "eth0" [] [] ["prof"] None).
Definition demoKey : ModelEndpointKey := HostEndpointKey "host" "eth0".

(** The endpoint comes before what it names, and goes after it; a flush sorts that out. *)
Definition demoCalls : list (Call (PT := unit)) :=
  [CEndpoint demoKey (Some demoEndpoint) [] None [demoTier]; CPolicyActive demoPolicy demoRules; CProfileActive "prof" demoRules;
   CIPSetAdded "s" IPSetUpdate_IP; CMemberAdded "s" demoMember; CFlush demoRange;
   CMemberRemoved "s" demoMember; CIPSetRemoved "s"; CPolicyInactive demoPolicy; CProfileInactive "prof"; CEndpoint demoKey None [] None []].

Definition demoMessages : list (Msg unit) :=
  match seq_run demoSum demoMarshal demoUpdateFrom demoToUpdate (demoCalls ++ [CFlush demoRange]) (NewEventSequencer ()) with Ret (_, ms) => ms | _ => [] end.

Definition kindOf (m : Msg unit) : string :=
  match m with
  | IPSetUpdate _ _ _ => "set" | ActivePolicyUpdate _ _ => "policy" | ActiveProfileUpdate _ _ => "profile" | HostEndpointUpdate _ _ => "endpoint"
  | HostEndpointRemove _ => "-endpoint" | ActiveProfileRemove _ => "-profile" | ActivePolicyRemove _ => "-policy" | IPSetRemove _ => "-set" | _ => "?"
  end.

Example demo_order : kindOf <$> demoMessages = ["set"; "policy"; "profile"; "endpoint"; "-endpoint"; "-profile"; "-policy"; "-set"].
Proof. vm_compute. done. Qed.

Lemma demo_closed s : closed_want (PT := unit) (MkWant {["s" := s]} {[demoPolicy := demoRules]} {["prof" := demoRules]} {[demoKey := MkEndpointUpdate demoEndpoint [] None [demoTier]]}
  ∅ ∅ ∅ ∅ ∅ ∅ ∅ ∅ None None).
Proof.
  split; cbn [want_policies want_profiles want_endpoints want_sets]; intros k v id [<- <-]%lookup_singleton_Some; intros ->%list_elem_of_singleton; eexists; by apply lookup_singleton_Some.
Qed.

Lemma demo_valid t : sets_valid {["s" := (t, {[demoMember]} ∪ ∅)]}.
Proof. intros id t' X m [<- [= <- <-]]%lookup_singleton_Some [->%elem_of_singleton|?%not_elem_of_empty]%elem_of_union; [by vm_compute|done]. Qed.

Lemma demo_allowed : allowed_run demoSum demoMarshal demoUpdateFrom "host" (demoCalls ++ [CFlush demoRange]) wantNothing.
Proof.
  unfold demoCalls, wantNothing. cbn [app allowed_run want_call allowed want_sets]. split_and!; try done; try (by eexists).
  all: rewrite ?insert_empty, ?alter_singleton_eq.
  - exists IPSetUpdate_IP, ∅. by rewrite lookup_singleton_eq.
  - apply demo_closed.
  - apply demo_valid.
  - exists IPSetUpdate_IP, ({[demoMember]} ∪ ∅). rewrite lookup_singleton_eq. split; [done|set_solver].
Qed.

Lemma sequencer_brings_up_to_date_witness :
  ∃ buf ms dp, seq_run demoSum demoMarshal demoUpdateFrom demoToUpdate (demoCalls ++ [CFlush demoRange]) (NewEventSequencer ()) = Ret (buf, ms) ∧
    recvAll recv ms emptyDataplane = Some dp ∧ has demoSum demoMarshal dp (want_run demoCalls wantNothing).
Proof. apply (sequencer_brings_up_to_date demoSum demoMarshal demoUpdateFrom demoToUpdate "host" () demoCalls demoRange). apply demo_allowed. Defined.

Lemma sequencer_never_dangles_witness :
  ∃ buf ms, seq_run demoSum demoMarshal demoUpdateFrom demoToUpdate (demoCalls ++ [CFlush demoRange]) (NewEventSequencer ()) = Ret (buf, ms) ∧
    ∀ ms1 ms2, ms = ms1 ++ ms2 → ∃ dp, recvAll recv ms1 emptyDataplane = Some dp ∧ closed_dataplane dp.
Proof. apply (sequencer_never_dangles demoSum demoMarshal demoUpdateFrom demoToUpdate "host" () (demoCalls ++ [CFlush demoRange])). apply demo_allowed. Defined.

Lemma second_flush_silent_witness :
  ∃ buf ms, seq_run demoSum demoMarshal demoUpdateFrom demoToUpdate (demoCalls ++ [CFlush demoRange]) (NewEventSequencer ()) = Ret (buf, ms) ∧
    Flush demoSum demoMarshal demoUpdateFrom demoToUpdate demoRange buf = Ret (buf, []).
Proof. apply (second_flush_silent demoSum demoMarshal demoUpdateFrom demoToUpdate "host" () demoCalls demoRange demoRange). apply demo_allowed. Defined.

Lemma ipset_misuse_panics_witness :
  ∃ buf ms, seq_run demoSum demoMarshal demoUpdateFrom demoToUpdate (demoCalls ++ [CFlush demoRange]) (NewEventSequencer ()) = Ret (buf, ms) ∧
    let known := is_Some (want_sets (want_run demoCalls wantNothing) !! "s") in
    (OnIPSetAdded "s" IPSetUpdate_IP buf = Panic ↔ known) ∧ (OnIPSetRemoved "s" buf = Panic ↔ ¬ known) ∧
    (OnIPSetMemberAdded "s" demoMember buf = Panic ↔ ¬ known) ∧ (OnIPSetMemberRemoved "s" demoMember buf = Panic ↔ ¬ known).
Proof. apply (ipset_misuse_panics demoSum demoMarshal demoUpdateFrom demoToUpdate "host" () demoCalls demoRange "s" IPSetUpdate_IP demoMember). apply demo_allowed. Defined.

Lemma rule_conversion_total_witness :
  ∃ out rest, parsedRulesToProtoRules demoSum demoMarshal [demoRule] "seed" = Ret out ∧ parsedRulesToProtoRules demoSum demoMarshal ([demoRule] ++ [demoRule]) "seed" = Ret (out ++ rest) ∧
    Forall2 (λ pr o, ∃ id, String.length id = RuleIDLength ∧ o = set_RuleId id (parsedRuleToProtoRule pr)) [demoRule] out.
Proof. apply (rule_conversion_total demoSum demoMarshal [demoRule] [demoRule] "seed"); [reflexivity|by eexists]. Defined.

Lemma member_text_identifies_witness : demoMember = ipAddrIPSetMember (V4Addr 167772161).
Proof. apply (member_text_identifies demoMember (ipAddrIPSetMember (V4Addr 167772161)) "10.0.0.1/32"); by vm_compute. Defined.

(** ** Routes and their tunnel endpoints *)
(** Every route of a VXLAN pool has the tunnel endpoint of its node. *)
Definition routes_backed {ConfigUpdate : Type} (dp : Dataplane (ConfigUpdate := ConfigUpdate)) : Prop :=
  ∀ dst rt, d_routes dp !! dst = Some rt → rt_IpPoolType rt = IPPoolType_VXLAN → is_Some (d_vteps dp !! rt_DstNodeName rt).

Definition demoRoute (node : string) : ProtoRouteUpdate := MkRouteUpdate 0 IPPoolType_VXLAN "10.0.0.0/26" node "" false false false None false.
Definition demoVTEP (node : string) : ProtoVTEPUpdate := MkVTEPUpdate node "" "" "" "" "" "".

(** A block moves from node [a], which goes, to node [b], which comes. *)
Definition moveCalls : list (Call (PT := unit)) :=
  [CVTEP (demoVTEP "a"); CRoute (demoRoute "a"); CFlush demoRange; CVTEP (demoVTEP "b"); CRoute (demoRoute "b"); CVTEPRemove "a"; CFlush demoRange].

(** Where the order of a flush falls short of what its comment says: when a route moves to another
    node and the tunnel endpoint of the old node goes in the same flush, the removal of the tunnel
    endpoint is sent before the update of the route, and between the two messages the dataplane
    has a route without its tunnel endpoint; before the flush and after it, it has not. *)
Theorem route_without_vtep :
  ∃ buf ms1 ms2 ms3 dp1 dp2 dp3,
    seq_run demoSum demoMarshal demoUpdateFrom demoToUpdate moveCalls (NewEventSequencer ()) = Ret (buf, ms1 ++ ms2 ++ ms3) ∧
    recvAll recv ms1 emptyDataplane = Some dp1 ∧ routes_backed dp1 ∧
    recvAll recv ms2 dp1 = Some dp2 ∧ ¬ routes_backed dp2 ∧
    recvAll recv ms3 dp2 = Some dp3 ∧ routes_backed dp3.
Proof.
  eexists _, [VXLANTunnelEndpointUpdate (demoVTEP "a"); RouteUpdate (demoRoute "a")], [VXLANTunnelEndpointRemove "a"], [VXLANTunnelEndpointUpdate (demoVTEP "b"); RouteUpdate (demoRoute "b")], _, _, _.
  split_and!; [vm_compute; reflexivity|cbn; reflexivity| |cbn; reflexivity| |cbn; reflexivity|]; unfold routes_backed; cbn [d_routes d_vteps].
  - intros dst rt [<- <-]%lookup_singleton_Some. by eexists.
  - intros Hb. specialize (Hb "10.0.0.0/26" (demoRoute "a") eq_refl eq_refl) as [? Hv]. by vm_compute in Hv.
  - intros dst rt [[<- <-]|[Hne [? _]%lookup_singleton_Some]]%lookup_insert_Some; [by eexists|done].
Qed.
