(* ===== verification/NamedPortEvents.v ===== *)
(** * The named port index reports members of known IP sets only

    The callbacks [OnMemberAdded] and [OnMemberRemoved] are about IP sets that the index has: an
    operation on endpoints or parents reports changes of sets that it knows, [UpdateIPSet] and
    [DeleteIPSet] those of sets that it knows and of the set itself.  The event sequencer, which
    panics on a member of an unknown set, relies on that. *)
From S2P Require Import Prelude ModelRule SelectorAST SelectorParser UniqueLabels AdaptiveSet GoSet RestrictionIndex NameValueIndex.
From S2P Require Import CIDR CIDRTrie MemberDedup MemberDedupSpec.
From stdpp Require Import base list gmap numbers strings sorting.
From S2P Require Import NamedPortIndex.
From stdpp Require Import options.

(** ** What holds throughout a scan *)
Section scans.
Context {A : Type} (Q : A → Prop).

Section union.
Context {S T : Type} `{Countable T} (ops : SetOps S T) (sortSlice : (S → S → bool) → list S → list S) (f : A → T → A * bool).
Context (Hf : ∀ acc t, Q acc → Q (f acc t).1).

Lemma iterWhile_inv l : ∀ acc, Q acc → Q (iterWhile f l acc).1.
Proof using Hf.
  induction l as [|t l IH]; intros acc Ha; cbn [iterWhile]; [done|]. specialize (Hf acc t Ha). destruct (f acc t) as [acc' []]; [by apply IH|done].
Qed.

Lemma unionItemsFew_inv scanned l : ∀ acc acc' b, Q acc → unionItemsFew ops f scanned l acc = Ret (acc', b) → Q acc'.
Proof using Hf.
  induction l as [|t l IH]; intros acc acc' b Ha; cbn [unionItemsFew]; [by intros [= <- <-]|]. intros (seen&_&Hr)%obind_Ret. destruct seen; [exact (IH _ _ _ Ha Hr)|].
  specialize (Hf acc t Ha). destruct (f acc t) as [acc1 []]; [exact (IH _ _ _ Hf Hr)|by injection Hr as <- <-].
Qed.

Lemma unionFew_inv sets : ∀ scanned acc acc', Q acc → unionFew ops f scanned sets acc = Ret acc' → Q acc'.
Proof using Hf.
  induction sets as [|s sets IH]; intros scanned acc acc' Ha; cbn [unionFew]; [by intros [= <-]|].
  intros (items&_&([acc1 b]&Hr&Hk)%obind_Ret)%obind_Ret. apply unionItemsFew_inv in Hr; [|done]. destruct b; [exact (IH _ _ _ Hr Hk)|by injection Hk as <-].
Qed.

Lemma unionItemsMany_inv isFirst isLast l : ∀ seen acc, Q acc → Q (unionItemsMany f isFirst isLast l seen acc).1.1.
Proof using Hf.
  induction l as [|t l IH]; intros seen acc Ha; cbn [unionItemsMany]; [done|]. destruct (_ && _); [by apply IH|].
  specialize (Hf acc t Ha). destruct (f acc t) as [acc' []]; [by apply IH|done].
Qed.

Lemma unionMany_inv sets : ∀ isFirst seen acc acc', Q acc → unionMany ops f isFirst sets seen acc = Ret acc' → Q acc'.
Proof using Hf.
  induction sets as [|s sets IH]; intros isFirst seen acc acc' Ha; cbn [unionMany]; [by intros [= <-]|]. intros (items&_&Hr)%obind_Ret.
  pose proof (unionItemsMany_inv isFirst (bool_decide (sets = [])) items seen acc Ha) as Hq. destruct (unionItemsMany _ _ _ _ _ _) as [[acc1 seen1] []]; [exact (IH _ _ _ _ Hq Hr)|by injection Hr as <-].
Qed.

Lemma IterUnion_inv sets acc acc' : Q acc → IterUnion ops sortSlice f sets acc = Ret acc' → Q acc'.
Proof using Hf.
  intros Ha. unfold IterUnion. destruct sets as [|s [|s' sets]]; [by intros [= <-]| |].
  - intros (items&_&[= <-])%obind_Ret. by apply iterWhile_inv.
  - destruct (decide _); [by apply unionFew_inv|by apply unionMany_inv].
Qed.
End union.

Lemma Scan_inv `{Countable ItemID} {Item} enumMap sortSlice enumItems enumValues (f : A → ItemID → A * bool) (s : ScanStrategy (ItemID := ItemID) (Item := Item)) acc acc' :
  (∀ acc id, Q acc → Q (f acc id).1) → Q acc → Scan enumMap sortSlice enumItems enumValues f s acc = Ret acc' → Q acc'.
Proof.
  intros Hf Ha. destruct s; cbn [Scan].
  - by intros [= <-].
  - intros (items&_&[= <-])%obind_Ret. by apply iterWhile_inv.
  - by apply IterUnion_inv.
  - generalize (enumValues (vals_m vals)) as sets. intros sets. revert acc Ha. induction sets as [|[v ids] sets IH]; intros acc Ha; cbn [scanSets]; [by intros [= <-]|].
    intros (items&_&Hr)%obind_Ret. pose proof (iterWhile_inv f Hf items acc Ha) as Hq. destruct (iterWhile f items acc) as [acc1 []]; [by apply (IH acc1)|by injection Hr as <-].
  - intros [= <-]. by apply iterWhile_inv.
Qed.
End scans.

(** ** Events about known sets *)
Definition event_id (e : MemberEvent) : string := match e with OnMemberAdded id _ | OnMemberRemoved id _ => id end.

Section events.
Context `{Countable EpID} (zeroID : EpID) (go : GoOrders EpID).
Abbreviation Index := (SelectorAndNamedPortIndex (EpID := EpID)).
Implicit Types (idx i : Index).

Definition knownSet idx (s : string) : Prop := is_Some (ipSetDataByID idx !! s).

(** The same sets are known, and the new events are about them. *)
Definition emits idx idx' : Prop :=
  (∀ s, knownSet idx' s ↔ knownSet idx s) ∧ ∃ es, events idx' = events idx ++ es ∧ Forall (λ e, knownSet idx (event_id e)) es.

#[local] Instance emits_preorder : PreOrder emits.
Proof.
  split.
  - intros idx. split; [done|]. exists []. by rewrite app_nil_r.
  - intros i1 i2 i3 [Hk1 (es1&He1&Hf1)] [Hk2 (es2&He2&Hf2)]. split; [intros s; by rewrite Hk2|]. exists (es1 ++ es2). rewrite He2, He1, (assoc_L (++)). split; [done|].
    apply Forall_app_2; [done|]. eapply Forall_impl; [exact Hf2|]. intros e. by rewrite Hk1.
Qed.

(** Neither the sets nor the events change. *)
Lemma emits_silent idx idx' : ipSetDataByID idx' = ipSetDataByID idx → events idx' = events idx → emits idx idx'.
Proof. intros Hs He. split; [intros s; unfold knownSet; by rewrite Hs|]. exists []. by rewrite He, app_nil_r. Qed.

Lemma emits_step idx i idx' : emits i idx' → ipSetDataByID i = ipSetDataByID idx → events i = events idx → emits idx idx'.
Proof. intros Hi Hs He. etrans; [|exact Hi]. by apply emits_silent. Qed.

Definition emitting (f : Index → outcome Empty_set Index) : Prop := ∀ idx idx', f idx = Ret idx' → emits idx idx'.

Lemma forEach_emits {A} (f : A → Index → outcome Empty_set Index) l : (∀ x, emitting (f x)) → emitting (forEach f l).
Proof.
  intros Hf. induction l as [|x l IH]; intros idx idx'; cbn [forEach]; [by intros [= <-]|]. intros (i&Hi&Hr)%obind_Ret. etrans; [by eapply Hf|by apply IH].
Qed.

(** *** Members *)
Lemma onMemberAdded_ids s m sup sup' es : onMemberAdded s m sup = Ret (sup', es) → Forall (λ e, event_id e = s) es.
Proof.
  unfold onMemberAdded. destruct (memberCIDR m); [|intros [= <- <-]; by apply List.Forall_cons]. intros ([[s' add] removes]&_&[= <- <-])%obind_Ret.
  apply Forall_app_2; [destruct add; [by apply List.Forall_cons|done]|]. by apply Forall_fmap, Forall_true.
Qed.

Lemma onMemberRemoved_ids s m sup sup' es : onMemberRemoved s m sup = Ret (sup', es) → Forall (λ e, event_id e = s) es.
Proof.
  unfold onMemberRemoved. destruct (memberCIDR m); [|intros [= <- <-]; by apply List.Forall_cons]. intros ([[s' rem] adds]&_&[= <- <-])%obind_Ret.
  apply Forall_app_2; [destruct rem; [by apply List.Forall_cons|done]|]. by apply Forall_fmap, Forall_true.
Qed.

Lemma set_suppressor_emits s sup es idx : knownSet idx s → Forall (λ e, event_id e = s) es → emits idx (set_suppressor sup es idx).
Proof. intros Hs Hes. split; [done|]. exists es. split; [done|]. eapply Forall_impl; [exact Hes|]. by intros e ->. Qed.

Lemma memberAdded_emits s m idx idx' : knownSet idx s → memberAdded s m idx = Ret idx' → emits idx idx'.
Proof. intros Hs ([sup es]&He&[= <-])%obind_Ret. eapply set_suppressor_emits; [done|by eapply onMemberAdded_ids]. Qed.

Lemma memberRemoved_emits s m idx idx' : knownSet idx s → memberRemoved s m idx = Ret idx' → emits idx idx'.
Proof. intros Hs ([sup es]&He&[= <-])%obind_Ret. eapply set_suppressor_emits; [done|by eapply onMemberRemoved_ids]. Qed.

Lemma storeRefCount_emits s f idx : emits idx (storeRefCount s f idx).
Proof.
  split; [|exists []; by rewrite app_nil_r]. intros s'. unfold knownSet. cbn. destruct (decide (s' = s)) as [->|]; [rewrite lookup_alter_eq; apply fmap_is_Some|by rewrite lookup_alter_ne].
Qed.

Lemma refCount_known s m idx n : refCount s m idx = Ret n → knownSet idx s.
Proof. unfold refCount, knownSet. by destruct (ipSetDataByID idx !! s). Qed.

Lemma increfMember_emits s m : emitting (increfMember s m).
Proof.
  intros idx idx' (n&Hn%refCount_known&(i&Hi&[= <-])%obind_Ret)%obind_Ret. etrans; [|apply storeRefCount_emits].
  destruct (decide _); [by eapply memberAdded_emits|by injection Hi as <-].
Qed.

Lemma addNewMember_emits s m : emitting (addNewMember s m).
Proof.
  intros idx idx' (n&Hn%refCount_known&(i&Hi&[= <-])%obind_Ret)%obind_Ret. etrans; [|apply storeRefCount_emits].
  destruct (decide _); [by eapply memberAdded_emits|by injection Hi as <-].
Qed.

Lemma decrefMember_emits s m : emitting (decrefMember s m).
Proof.
  intros idx idx' (n&Hn%refCount_known&Hr)%obind_Ret. cbv zeta in Hr. destruct (decide _); [|injection Hr as <-; apply storeRefCount_emits].
  apply obind_Ret in Hr as (i&Hi&[= <-]). etrans; [by eapply memberRemoved_emits|apply storeRefCount_emits].
Qed.

(** *** Scans of an endpoint *)
Lemma AddMatchingIPSetID_emits a s : emitting (AddMatchingIPSetID a s).
Proof. intros idx idx' (c&_&[= <-])%obind_Ret. by apply emits_silent. Qed.
Lemma RemoveMatchingIPSetID_emits a s : emitting (RemoveMatchingIPSetID go a s).
Proof. intros idx idx' (c&_&[= <-])%obind_Ret. by apply emits_silent. Qed.

Lemma scanIPSet_emits a s : emitting (scanIPSet a s).
Proof.
  intros idx idx'. unfold scanIPSet. destruct (ipSetDataByID idx !! s) as [sd|]; [|done]. destruct (Evaluate _ _); [|by intros [= <-]].
  intros (i&Hi&(c&_&Hr)%obind_Ret)%obind_Ret. etrans; [by eapply AddMatchingIPSetID_emits|]. eapply forEach_emits; [|exact Hr]. intros m. apply increfMember_emits.
Qed.

Lemma decrefContributions_emits c : emitting (decrefContributions go c).
Proof. apply forEach_emits. intros [s ms]. apply forEach_emits. intros m. apply decrefMember_emits. Qed.

Lemma scanEndpoint_emits a old : emitting (scanEndpointAgainstIPSets go a old).
Proof.
  intros idx idx'. unfold scanEndpointAgainstIPSets. intros (i&Hi&Hr)%obind_Ret. etrans; [|by eapply decrefContributions_emits].
  apply forEach_emits in Hi; [|intros s; apply scanIPSet_emits]. by apply (emits_step _ _ _ Hi).
Qed.

(** *** Endpoints and parents *)
Lemma getOrCreateParent_emits pid idx idx' a : getOrCreateParent go pid idx = Ret (idx', a) → emits idx idx'.
Proof.
  unfold getOrCreateParent. destruct (NameValueIndex.Get _ _); [by intros [= <- <-]|]. intros (ps&_&[= <- <-])%obind_Ret. by apply emits_silent.
Qed.

Lemma getOrCreateParents_emits pids : ∀ idx idx' l, getOrCreateParents go pids idx = Ret (idx', l) → emits idx idx'.
Proof.
  induction pids as [|p pids IH]; intros idx idx' l; cbn [getOrCreateParents]; [by intros [= <- <-]|].
  intros ([i1 a]&H1%getOrCreateParent_emits&([i2 rest]&H2%IH&[= <- <-])%obind_Ret)%obind_Ret. by etrans.
Qed.

Lemma removeParent_emits pid a : emitting (removeParent go pid a).
Proof. intros idx idx' (ps&_&[= <-])%obind_Ret. by apply emits_silent. Qed.

Lemma discardParentIfEmpty_emits pid : emitting (discardParentIfEmpty go pid).
Proof.
  intros idx idx'. unfold discardParentIfEmpty. destruct (NameValueIndex.Get _ _); [|by intros [= <-]]. destruct (pd_endpointIDs _); [by intros [= <-]|].
  destruct (uniquelabels.IsNil _); [apply removeParent_emits|by intros [= <-]].
Qed.

Lemma leaveParent_emits e p : emitting (leaveParent go e p).
Proof.
  intros idx idx' (i&Hi&Hr%discardParentIfEmpty_emits)%obind_Ret. apply (emits_step _ _ _ Hr); unfold DiscardEndpointID in Hi; destruct (pd_endpointIDs _); try done; by injection Hi as <-.
Qed.

Lemma AddEndpointIDs_emits (e : EpID) ps : ∀ idx, emits idx (foldl (λ idx p, AddEndpointID p e idx) idx ps).
Proof. induction ps as [|p ps IH]; intros idx; cbn [foldl]; [done|]. etrans; [|apply IH]. by apply emits_silent. Qed.

Lemma UpdateEndpoint_emits e labels nets ports pids : emitting (UpdateEndpointOrSet zeroID go e labels nets ports pids).
Proof.
  intros idx idx' ([i ps]&Hp%getOrCreateParents_emits&Hr)%obind_Ret. etrans; [exact Hp|]. clear Hp idx.
  cbv zeta in Hr. match type of Hr with (if ?b then _ else _) = _ => destruct b; [by injection Hr as <-|] end.
  apply obind_Ret in Hr as ([old i1]&H1&(i3&H3%scanEndpoint_emits&(i4&H4&Hr)%obind_Ret)%obind_Ret).
  assert (H01 : emits i i1).
  { destruct (NameValueIndex.Get e (endpointKVIdx i)); [|by injection H1 as <- <-]. apply obind_Ret in H1 as (c&_&(i1'&Hi1&[= <- <-])%obind_Ret).
    apply obind_Ret in Hi1 as (es&_&[= <-]). by apply emits_silent. }
  etrans; [exact H01|]. apply (emits_step i1) in H3; [|done..]. etrans; [exact H3|]. apply obind_Ret in H4 as (es&_&[= <-]).
  apply forEach_emits in Hr; [|intros p i' i''; unfold leaveOldParent; destruct (decide _); [by intros [= <-]|apply leaveParent_emits]].
  apply (emits_step i3 (set_endpoints es i3)); [|done..]. etrans; [apply AddEndpointIDs_emits|exact Hr].
Qed.

Lemma DeleteEndpoint_emits e : emitting (DeleteEndpoint zeroID go e).
Proof.
  intros idx idx'. unfold DeleteEndpoint. destruct (NameValueIndex.Get _ _); [|by intros [= <-]].
  intros (c&_&(i1&H1%decrefContributions_emits&(i2&H2&Hr)%obind_Ret)%obind_Ret)%obind_Ret. etrans; [exact H1|]. apply obind_Ret in H2 as (es&_&[= <-]).
  apply forEach_emits in Hr; [|intros p; apply leaveParent_emits]. by apply (emits_step _ _ _ Hr).
Qed.

Lemma UpdateParentLabels_emits pid labels : emitting (UpdateParentLabels go pid labels).
Proof.
  intros idx idx' ([i p]&Hp%getOrCreateParent_emits&Hr)%obind_Ret. etrans; [exact Hp|]. cbv zeta in Hr. destruct (uniquelabels.Equals _ _); [by injection Hr as <-|].
  apply obind_Ret in Hr as (i1&H1%removeParent_emits&(i2&H2&(ps&_&[= <-])%obind_Ret)%obind_Ret). etrans; [exact H1|]. apply obind_Ret in H2 as (i3&H3&[= <-]).
  trans i3; [|by apply emits_silent]. eapply forEach_emits; [|exact H3]. intros e j j'. unfold updateParentEndpoint.
  destruct (NameValueIndex.Get _ _); [|done]. intros (c&_&Hs%scanEndpoint_emits)%obind_Ret. by apply (emits_step _ _ _ Hs).
Qed.

Lemma DeleteParentLabels_emits pid : emitting (DeleteParentLabels go pid).
Proof. intros idx idx' (i&Hi%UpdateParentLabels_emits&Hr%discardParentIfEmpty_emits)%obind_Ret. by etrans. Qed.

(** *** IP sets *)
Definition emits_so_far idx (acc : outcome Empty_set Index) : Prop := match acc with Ret i => emits idx i | _ => True end.

Lemma visitEndpoint_emits f idx acc e : (∀ a, emitting (f a)) → emits_so_far idx acc → emits_so_far idx (visitEndpoint f acc e).
Proof.
  intros Hf Ha. unfold visitEndpoint. destruct acc as [i| | |]; cbn in *; try done. destruct (NameValueIndex.Get _ _) as [a|]; [|done].
  destruct (f a i) as [i'| | |] eqn:Hi; try done. cbn. etrans; [exact Ha|by apply Hf in Hi].
Qed.

Lemma iterEndpointCandidates_emits s f : (∀ a, emitting (f a)) → emitting (iterEndpointCandidates go s f).
Proof.
  intros Hf idx idx'. unfold iterEndpointCandidates. destruct (ipSetDataByID idx !! s) as [sd|]; [|done]. destruct (Node_LabelRestrictions _); [|done].
  intros (best&_&Hr)%obind_Ret. destruct best as [b|]; [|by injection Hr as <-]. apply obind_Ret in Hr as (n&_&Hr).
  assert (Hv : ∀ acc e, emits_so_far idx acc → emits_so_far idx (visitEndpoint f acc e)) by (intros; by apply visitEndpoint_emits). destruct (_ <=? _)%Z.
  - apply obind_Ret in Hr as (res&Hs&->). change (emits_so_far idx (Ret idx')). refine (Scan_inv (emits_so_far idx) _ _ _ _ _ _ (Ret idx) _ _ _ Hs); [|change (emits idx idx); reflexivity]. intros acc e. apply Hv.
  - destruct (bestParentStrategy b); [|done]. apply obind_Ret in Hr as ([seen res]&Hs&Hres). cbn in Hres. subst res. change (emits_so_far idx (seen, Ret idx').2).
    refine (Scan_inv (λ acc : gset EpID * outcome Empty_set Index, emits_so_far idx acc.2) _ _ _ _ _ _ (∅, Ret idx) _ _ _ Hs); [|change (emits idx idx); reflexivity].
    intros [seen' acc] pid Ha. unfold visitParent. cbn [snd] in *. destruct acc as [i| | |]; try done. destruct (NameValueIndex.Get _ _) as [p0|]; [|done]. cbn [fst].
    revert seen' Ha. generalize (Ret (E := Empty_set) i) as acc. generalize (match pd_endpointIDs (deref (parentObjects i) p0) with Some ids => Typed_All (rangeIDs go) ids | None => [] end) as ids.
    induction ids as [|e ids IH]; intros acc seen' Ha; cbn [foldl]; [done|]. unfold visitUnseen at 2. destruct (Typed_Contains e seen'); [by apply IH|]. apply IH. by apply Hv.
Qed.

Lemma contributeEndpoint_emits s sel a : emitting (contributeEndpoint s sel a).
Proof.
  intros idx idx'. unfold contributeEndpoint. destruct (negb _); [by intros [= <-]|]. destruct (ipSetDataByID idx !! s) as [sd|]; [|done]. intros (c&_&Hr)%obind_Ret.
  destruct c as [|m c]; [by injection Hr as <-|]. apply obind_Ret in Hr as (i&Hi%AddMatchingIPSetID_emits&Hr). etrans; [exact Hi|]. eapply forEach_emits; [|exact Hr].
  intros m'. apply addNewMember_emits.
Qed.

(** A set that goes: nothing is said about its members. *)
Lemma DeleteIPSet_silent s idx idx' : DeleteIPSet go s idx = Ret idx' → events idx' = events idx ∨ ∃ i, emits idx i ∧ events idx' = events i.
Proof.
  unfold DeleteIPSet. destruct (ipSetDataByID idx !! s) as [sd|]; [|intros [= <-]; by left]. intros (i&Hi&(c&_&[= <-])%obind_Ret)%obind_Ret. right. exists i.
  split; [|cbn; by rewrite app_nil_r]. eapply iterEndpointCandidates_emits; [|exact Hi]. intros a. apply RemoveMatchingIPSetID_emits.
Qed.

Lemma DeleteIPSet_events s idx idx' : DeleteIPSet go s idx = Ret idx' → ∃ es, events idx' = events idx ++ es ∧ Forall (λ e, knownSet idx (event_id e)) es.
Proof. intros [->|(i&[_ (es&He&Hf)]&->)]%DeleteIPSet_silent; [exists []; by rewrite app_nil_r|by exists es]. Qed.

(** A new set: the events may be about it. *)
Lemma UpdateIPSet_events s sel protocol port idx idx' : ipSetDataByID idx !! s = None → UpdateIPSet go s sel protocol port idx = Ret idx' →
  ∃ es, events idx' = events idx ++ es ∧ Forall (λ e, event_id e = s ∨ knownSet idx (event_id e)) es.
Proof.
  intros Hn. unfold UpdateIPSet. destruct sel as [sel|]; [|done]. rewrite Hn. intros (c&_&Hr)%obind_Ret.
  apply iterEndpointCandidates_emits in Hr; [|intros a; apply contributeEndpoint_emits]. destruct Hr as [_ (es&He&Hf)]. exists es. split; [exact He|]. eapply Forall_impl; [exact Hf|].
  intros e [d Hd]. cbn in Hd. apply lookup_insert_Some in Hd as [[<- _]|[_ Hd]]; [by left|right; by exists d].
Qed.
End events.
