(* ===== verification/ServiceIndex.v ===== *)
(** * The index of services: [felix/serviceindex/serviceindex.go]

    The index caches the endpoint slices of Kubernetes and computes the members of the IP sets that
    stand for services in rules.  IP sets are objects that two maps point to: the model has a store
    of them.  Callbacks are the list of events; liveness reports and logs are left out. *)
From S2P Require Import Prelude ModelRule CIDR MemberDedup NetIP NetString NetParse NamedPortIndex.
From stdpp Require Import base list gmap numbers strings.
From stdpp Require Import options.

(** ** [discovery.EndpointSlice], as far as it is used *)
Record SliceEndpoint := MkSliceEndpoint { se_Addresses : list string }.
Record SlicePort := MkSlicePort { slp_Port : option Z; slp_Protocol : option string }.
Record EndpointSlice := MkEndpointSlice {
  es_Namespace : string;
  es_Name : string;
  es_Labels : gmap string string;
  es_Endpoints : list SliceEndpoint;
  es_Ports : list SlicePort
}.

Module services.
(** ** Data *)
Record ipSetData := MkIpSetData { ServiceName : string; ID : string; memberToRefCount : gmap IPSetMember Z }.

Definition set_counts (f : gmap IPSetMember Z → gmap IPSetMember Z) (d : ipSetData) : ipSetData := MkIpSetData (ServiceName d) (ID d) (f (memberToRefCount d)).

Definition IncludePorts (isd : ipSetData) : bool := negb (String.prefix "svcnoport" (ID isd)).

(** [objects] is the store of IP sets; the two maps of active IP sets point into it. *)
Record ServiceIndex := MkServiceIndex {
  endpointSlices : gmap string EndpointSlice;
  endpointSlicesByService : gmap string (gmap string EndpointSlice);
  objects : gmap nat ipSetData;
  nextObject : nat;
  activeIPSetsByID : gmap string nat;
  activeIPSetsByService : gmap string (gmap string nat);
  events : list MemberEvent
}.
Implicit Types (idx : ServiceIndex) (es : EndpointSlice) (d : ipSetData) (m : IPSetMember).

Definition NewServiceIndex : ServiceIndex := MkServiceIndex ∅ ∅ ∅ 0 ∅ ∅ [].

Definition set_slices f g idx := MkServiceIndex (f (endpointSlices idx)) (g (endpointSlicesByService idx)) (objects idx) (nextObject idx) (activeIPSetsByID idx) (activeIPSetsByService idx) (events idx).
Definition set_active f g idx := MkServiceIndex (endpointSlices idx) (endpointSlicesByService idx) (objects idx) (nextObject idx) (f (activeIPSetsByID idx)) (g (activeIPSetsByService idx)) (events idx).
Definition set_object l d idx := MkServiceIndex (endpointSlices idx) (endpointSlicesByService idx) (<[l := d]> (objects idx)) (nextObject idx) (activeIPSetsByID idx) (activeIPSetsByService idx) (events idx).
Definition alloc d idx := MkServiceIndex (endpointSlices idx) (endpointSlicesByService idx) (<[nextObject idx := d]> (objects idx)) (S (nextObject idx)) (activeIPSetsByID idx) (activeIPSetsByService idx) (events idx).
Definition emit evs idx := MkServiceIndex (endpointSlices idx) (endpointSlicesByService idx) (objects idx) (nextObject idx) (activeIPSetsByID idx) (activeIPSetsByService idx) (events idx ++ evs).
Definition clear_events idx := MkServiceIndex (endpointSlices idx) (endpointSlicesByService idx) (objects idx) (nextObject idx) (activeIPSetsByID idx) (activeIPSetsByService idx) [].

(** ** Slices *)
Definition serviceName es : string := es_Namespace es +:+ "/" +:+ default "" (es_Labels es !! "kubernetes.io/service-name").

(** The key of a slice in the caches. *)
Definition sliceKey (namespace name : string) : string := namespace +:+ "/" +:+ name.

Definition portProtocol (p : SlicePort) : Protocol :=
  match slp_Protocol p with
  | Some name => if decide (name = "UDP") then ProtocolUDP else if decide (name = "SCTP") then ProtocolSCTP else ProtocolTCP
  | None => ProtocolTCP
  end.

(** Addresses that do not parse are skipped: endpoints can contain domains. *)
Definition portMembers (addrs : list string) (p : SlicePort) : list IPSetMember :=
  match slp_Port p with
  | None => []
  | Some port => addrs ≫= λ addr, match FromString addr with Some a => [MakeIPPortProto a (uintN 16 port) (portProtocol p)] | None => [] end
  end.

Definition netMembers (addrs : list string) : list IPSetMember :=
  addrs ≫= λ addr, match ParseCIDROrIP addr with Ret cidr => [MakeCIDROrIPOnly cidr] | _ => [] end.

Definition membersFromEndpointSlice (es : option EndpointSlice) (includePorts : bool) : list IPSetMember :=
  match es with
  | None => []
  | Some es =>
      if includePorts then es_Endpoints es ≫= λ ep, es_Ports es ≫= portMembers (se_Addresses ep)
      else es_Endpoints es ≫= λ ep, netMembers (se_Addresses ep)
  end.

(** ** Reference counts *)
Definition count d m : Z := default 0%Z (memberToRefCount d !! m).

Definition addMember (st : ipSetData * list MemberEvent) m : ipSetData * list MemberEvent :=
  let '(d, evs) := st in
  let refCount := uintN 64 (count d m + 1) in
  (set_counts <[m := refCount]> d, if (refCount =? 1)%Z then evs ++ [OnMemberAdded (ID d) m] else evs).

Definition removeMember (st : ipSetData * list MemberEvent) m : ipSetData * list MemberEvent :=
  let '(d, evs) := st in
  let newRefCount := uintN 64 (count d m - 1) in
  if (newRefCount =? 0)%Z then (set_counts (delete m) d, evs ++ [OnMemberRemoved (ID d) m])
  else (set_counts <[m := newRefCount]> d, evs).

(** In [UpdateIPSet] the old count decides. *)
Definition addFirst (st : ipSetData * list MemberEvent) m : ipSetData * list MemberEvent :=
  let '(d, evs) := st in
  let refCount := count d m in
  (set_counts <[m := uintN 64 (refCount + 1)]> d, if (refCount =? 0)%Z then evs ++ [OnMemberAdded (ID d) m] else evs).

(** ** Updates of slices *)
(** One active IP set: [new] is added and then [old] removed. *)
Definition updateSet (new old : bool → list IPSetMember) (l : nat) idx : outcome Empty_set ServiceIndex :=
  match objects idx !! l with
  | None => Panic
  | Some d =>
      let added := foldl addMember (d, []) (new (IncludePorts d)) in
      let '(d', evs) := foldl removeMember added (old (IncludePorts d)) in
      Ret (emit evs (set_object l d' idx))
  end.

Fixpoint updateSets (new old : bool → list IPSetMember) (ls : list nat) idx : outcome Empty_set ServiceIndex :=
  match ls with [] => Ret idx | l :: ls' => let! idx' := updateSet new old l idx in updateSets new old ls' idx' end.

Definition UpdateEndpointSlice (r : GoRange) es idx : outcome Empty_set ServiceIndex :=
  let svc := serviceName es in
  let idx1 := set_slices (λ s, s) (λ s, match s !! svc with Some _ => s | None => <[svc := ∅]> s end) idx in
  let k := sliceKey (es_Namespace es) (es_Name es) in
  let cached := endpointSlices idx1 !! k in
  let! idx2 :=
    match activeIPSetsByService idx1 !! svc with
    | Some ipSets => updateSets (membersFromEndpointSlice (Some es)) (membersFromEndpointSlice cached) (r _ (map_to_list ipSets)).*2 idx1
    | None => Ret idx1
    end in
  Ret (set_slices <[k := es]> (alter <[k := es]> svc) idx2).

Definition DeleteEndpointSlice (r : GoRange) (namespace name : string) idx : outcome Empty_set ServiceIndex :=
  let k := sliceKey namespace name in
  match endpointSlices idx !! k with
  | None => Ret idx
  | Some es =>
      let svc := serviceName es in
      let! idx1 :=
        match activeIPSetsByService idx !! svc with
        | Some ipSets => updateSets (λ _, []) (membersFromEndpointSlice (Some es)) (r _ (map_to_list ipSets)).*2 idx
        | None => Ret idx
        end in
      Ret (set_slices (delete k) (partial_alter (λ s, let s' := delete k (default ∅ s) in if decide (s' = ∅) then None else Some s') svc) idx1)
  end.

Definition OnUpdate (r : GoRange) (kind namespace name : string) (value : option EndpointSlice) idx : outcome Empty_set ServiceIndex :=
  if decide (kind = "KubernetesEndpointSlice") then
    match value with Some es => UpdateEndpointSlice r es idx | None => DeleteEndpointSlice r namespace name idx end
  else Ret idx.

(** ** Updates of IP sets *)
Definition UpdateIPSet (r : GoRange) (id svc : string) idx : outcome Empty_set ServiceIndex :=
  match activeIPSetsByID idx !! id with
  | Some l =>
      match objects idx !! l with
      | None => Panic
      | Some curr => if decide (ServiceName curr = svc) then Ret idx else Panic
      end
  | None =>
      let l := nextObject idx in
      let d := MkIpSetData svc id ∅ in
      let idx1 := set_active <[id := l]> (partial_alter (λ s, Some (<[id := l]> (default ∅ s))) svc) (alloc d idx) in
      let slices := r _ (map_to_list (default ∅ (endpointSlicesByService idx1 !! svc))) in
      let '(d', evs) := foldl (λ st kes, foldl addFirst st (membersFromEndpointSlice (Some kes.2) (IncludePorts d))) (d, []) slices in
      Ret (emit evs (set_object l d' idx1))
  end.

Definition DeleteIPSet (r : GoRange) (id : string) idx : outcome Empty_set ServiceIndex :=
  match activeIPSetsByID idx !! id with
  | None => Ret idx
  | Some l =>
      match objects idx !! l with
      | None => Panic
      | Some d =>
          let evs := (λ mc, OnMemberRemoved id mc.1) <$> r _ (map_to_list (memberToRefCount d)) in
          let svc := ServiceName d in
          Ret (set_active (delete id) (partial_alter (λ s, let s' := delete id (default ∅ s) in if decide (s' = ∅) then None else Some s') svc) (emit evs idx))
      end
  end.
End services.
