(* ===== verification/ServiceIndexSpec.v ===== *)
(** * The index of services computes the members of IP sets

    The index and a client of its callbacks, side by side, over any history of slices and IP sets
    in which a slice does not move between services: the client holds the addresses (and ports)
    of the slices of each service, and no callback is redundant.  Where a slice does move, it is
    not so. *)
From S2P Require Import Prelude ModelRule CIDR CIDRTrieSpec MemberDedup MemberDedupSpec NamedPortCandidates NamedPortInv NamedPortEvents NetIP NetString NetParse ServiceIndex.
From stdpp Require Import base list gmap numbers strings.
From stdpp Require Import options.
Import services.

(** ** Reference counts *)
Definition occ (m : IPSetMember) (ms : list IPSetMember) : Z := Z.of_nat (length (filter (.= m) ms)).

Lemma svc_occ_cons m x ms : occ m (x :: ms) = ((if decide (x = m) then 1 else 0) + occ m ms)%Z.
Proof. unfold occ. rewrite filter_cons. destruct (decide (x = m)); cbn [length]; lia. Qed.

Lemma occ_app m l1 l2 : occ m (l1 ++ l2) = (occ m l1 + occ m l2)%Z.
Proof. unfold occ. rewrite filter_app, length_app. lia. Qed.

Lemma occ_bounds m ms : (0 <= occ m ms <= Z.of_nat (length ms))%Z.
Proof. unfold occ. pose proof (length_filter (.= m) ms). lia. Qed.

Lemma occ_pos m ms : (0 < occ m ms)%Z ↔ m ∈ ms.
Proof.
  induction ms as [|x ms IH]; [split; [done|by intros ?%elem_of_nil]|]. rewrite svc_occ_cons, elem_of_cons. pose proof (occ_bounds m ms). destruct (decide (x = m)) as [->|Hne]; [split; [by left|lia]|].
  rewrite Z.add_0_l, IH. split; [by right|]. by intros [->|].
Qed.

Implicit Types (idx : ServiceIndex) (d : ipSetData) (m : IPSetMember) (P : Sets) (id svc k : string) (l : nat).

Definition counts_wf d : Prop := ∀ m c, memberToRefCount d !! m = Some c → (0 < c < 2 ^ 64)%Z.
Definition agree d P : Prop := ∀ m, m ∈ P !!! ID d ↔ (0 < count d m)%Z.

Lemma count_range d m : counts_wf d → (0 <= count d m < 2 ^ 64)%Z.
Proof. intros Hd. unfold count. destruct (memberToRefCount d !! m) eqn:Hm; cbn; [|lia]. specialize (Hd _ _ Hm). lia. Qed.

Lemma count_set d m c m' : count (set_counts <[m := c]> d) m' = if decide (m' = m) then c else count d m'.
Proof. unfold count. cbn. destruct (decide (m' = m)) as [->|]; [by rewrite lookup_insert_eq|by rewrite lookup_insert_ne]. Qed.

Lemma count_delete d m m' : count (set_counts (delete m) d) m' = if decide (m' = m) then 0%Z else count d m'.
Proof. unfold count. cbn. destruct (decide (m' = m)) as [->|]; [by rewrite lookup_delete_eq|by rewrite lookup_delete_ne]. Qed.

(** [st] has come from [d0], and the client has followed from [P0] to [P]. *)
Record follows (d0 : ipSetData) (P0 : Sets) (st : ipSetData * list MemberEvent) (P : Sets) : Prop := {
  fo_replay : replay st.2 P0 = Ret P;
  fo_agree : agree st.1 P;
  fo_counts : counts_wf st.1;
  fo_service : ServiceName st.1 = ServiceName d0;
  fo_id : ID st.1 = ID d0;
  fo_rest id : id ≠ ID d0 → P !!! id = P0 !!! id;
  fo_events : Forall (λ e, event_id e = ID d0) st.2
}.

Lemma svc_follows_refl d P : agree d P → counts_wf d → follows d P (d, []) P.
Proof. by split. Qed.

Lemma addMember_ok d0 P0 st P m : follows d0 P0 st P → (count st.1 m + 1 < 2 ^ 64)%Z →
  ∃ P', follows d0 P0 (addMember st m) P' ∧ ∀ m', count (addMember st m).1 m' = (count st.1 m' + if decide (m = m') then 1 else 0)%Z.
Proof.
  destruct st as [d evs]. intros [Hr Ha Hw Hs Hi Hrest He] Hlt. cbn [fst snd addMember] in *. pose proof (count_range d m Hw) as Hc. unfold uintN, agree in *. rewrite (Z.mod_small (count d m + 1)) by lia.
  assert (Hcount : ∀ m', count (set_counts <[m := (count d m + 1)%Z]> d) m' = (count d m' + if decide (m = m') then 1 else 0)%Z).
  { intros m'. rewrite count_set. destruct (decide (m' = m)) as [->|Hne]; [by rewrite decide_True|]. rewrite decide_False by done. lia. }
  assert (Hwf : counts_wf (set_counts <[m := (count d m + 1)%Z]> d)) by (intros m' c; cbn; intros [[<- <-]|[_ Hl]]%lookup_insert_Some; [lia|by eapply Hw]).
  destruct (Z.eqb_spec (count d m + 1) 1) as [H1|H1].
  - exists (<[ID d := {[m]} ∪ P !!! ID d]> P). split; [|done]. split; cbn [fst snd]; [|intros m'|done|done|done| |apply Forall_app; split; [done|by apply list.Forall_singleton]].
    + rewrite replay_events_app, Hr. cbn. rewrite decide_False; [done|]. intros ?%Ha. lia.
    + rewrite Hcount. cbn [ID set_counts]. rewrite lookup_total_insert_eq, elem_of_union, elem_of_singleton, Ha. pose proof (count_range d m' Hw). destruct (decide (m = m')); naive_solver lia.
    + intros id Hid. rewrite lookup_total_insert_ne by congruence. by apply Hrest.
  - exists P. split; [|done]. split; cbn [fst snd]; try done. intros m'. rewrite Hcount. cbn [ID set_counts]. rewrite Ha. destruct (decide (m = m')); subst; lia.
Qed.

Lemma removeMember_ok d0 P0 st P m : follows d0 P0 st P → (0 < count st.1 m)%Z →
  ∃ P', follows d0 P0 (removeMember st m) P' ∧ ∀ m', count (removeMember st m).1 m' = (count st.1 m' - if decide (m = m') then 1 else 0)%Z.
Proof.
  destruct st as [d evs]. intros [Hr Ha Hw Hs Hi Hrest He] Hpos. cbn [fst snd removeMember] in *. pose proof (count_range d m Hw) as Hc. unfold uintN, agree in *. rewrite (Z.mod_small (count d m - 1)) by lia.
  destruct (Z.eqb_spec (count d m - 1) 0) as [H1|H1]; cbn [fst].
  - assert (Hcount : ∀ m', count (set_counts (delete m) d) m' = (count d m' - if decide (m = m') then 1 else 0)%Z).
    { intros m'. rewrite count_delete. destruct (decide (m' = m)) as [->|Hne]; [rewrite decide_True by done; lia|]. rewrite decide_False by done. lia. }
    exists (<[ID d := P !!! ID d ∖ {[m]}]> P). split; [|done]. split; cbn [fst snd]; [|intros m'| |done|done| |apply Forall_app; split; [done|by apply list.Forall_singleton]].
    + rewrite replay_events_app, Hr. cbn. rewrite decide_True; [done|]. apply Ha. lia.
    + rewrite Hcount. cbn [ID set_counts]. rewrite lookup_total_insert_eq, elem_of_difference, elem_of_singleton, Ha. pose proof (count_range d m' Hw). destruct (decide (m = m')); naive_solver lia.
    + intros m' c. cbn. intros [_ Hl]%lookup_delete_Some. by eapply Hw.
    + intros id Hid. rewrite lookup_total_insert_ne by congruence. by apply Hrest.
  - assert (Hcount : ∀ m', count (set_counts <[m := (count d m - 1)%Z]> d) m' = (count d m' - if decide (m = m') then 1 else 0)%Z).
    { intros m'. rewrite count_set. destruct (decide (m' = m)) as [->|Hne]; [by rewrite decide_True|]. rewrite decide_False by done. lia. }
    exists P. split; [|done]. split; cbn [fst snd]; try done.
    + intros m'. rewrite Hcount. cbn [ID set_counts]. rewrite Ha. destruct (decide (m = m')); subst; lia.
    + intros m' c. cbn. intros [[<- <-]|[_ Hl]]%lookup_insert_Some; [lia|by eapply Hw].
Qed.

Lemma addMembers_ok d0 P0 ms : ∀ st P, follows d0 P0 st P → (∀ m, count st.1 m + occ m ms < 2 ^ 64)%Z →
  ∃ P', follows d0 P0 (foldl addMember st ms) P' ∧ ∀ m, count (foldl addMember st ms).1 m = (count st.1 m + occ m ms)%Z.
Proof.
  induction ms as [|x ms IH]; intros st P Hf Hlt; cbn [foldl]; [exists P; split; [done|]; intros m; change (occ m []) with 0%Z; lia|].
  setoid_rewrite svc_occ_cons in Hlt. destruct (addMember_ok d0 P0 st P x Hf) as (P1&Hf1&Hc1); [specialize (Hlt x); rewrite decide_True in Hlt by done; pose proof (occ_bounds x ms); lia|].
  destruct (IH _ _ Hf1) as (P2&Hf2&Hc2); [intros m; rewrite Hc1; specialize (Hlt m); lia|]. exists P2. split; [done|]. intros m. rewrite Hc2, Hc1, svc_occ_cons. lia.
Qed.

Lemma svc_removeMembers_ok d0 P0 ms : ∀ st P, follows d0 P0 st P → (∀ m, occ m ms <= count st.1 m)%Z →
  ∃ P', follows d0 P0 (foldl removeMember st ms) P' ∧ ∀ m, count (foldl removeMember st ms).1 m = (count st.1 m - occ m ms)%Z.
Proof.
  induction ms as [|x ms IH]; intros st P Hf Hle; cbn [foldl]; [exists P; split; [done|]; intros m; change (occ m []) with 0%Z; lia|].
  setoid_rewrite svc_occ_cons in Hle. destruct (removeMember_ok d0 P0 st P x Hf) as (P1&Hf1&Hc1); [specialize (Hle x); rewrite decide_True in Hle by done; pose proof (occ_bounds x ms); lia|].
  destruct (IH _ _ Hf1) as (P2&Hf2&Hc2); [intros m; rewrite Hc1; specialize (Hle m); lia|]. exists P2. split; [done|]. intros m. rewrite Hc2, Hc1, svc_occ_cons. lia.
Qed.

(** The two ways to count up agree. *)
Lemma addFirst_eq st m : counts_wf st.1 → (count st.1 m + 1 < 2 ^ 64)%Z → addFirst st m = addMember st m.
Proof.
  destruct st as [d evs]. intros Hw Hlt. cbn in *. pose proof (count_range d m Hw). unfold uintN. rewrite Z.mod_small by lia.
  destruct (Z.eqb_spec (count d m) 0), (Z.eqb_spec (count d m + 1) 1); done || lia.
Qed.

Lemma addFirsts_eq d0 P0 ms : ∀ st P, follows d0 P0 st P → (∀ m, count st.1 m + occ m ms < 2 ^ 64)%Z → foldl addFirst st ms = foldl addMember st ms.
Proof.
  induction ms as [|x ms IH]; intros st P Hf Hlt; cbn [foldl]; [done|]. setoid_rewrite svc_occ_cons in Hlt.
  assert (Hx : (count st.1 x + 1 < 2 ^ 64)%Z) by (specialize (Hlt x); rewrite decide_True in Hlt by done; pose proof (occ_bounds x ms); lia).
  rewrite addFirst_eq by (done || apply (fo_counts _ _ _ _ Hf)). destruct (addMember_ok d0 P0 st P x Hf Hx) as (P1&Hf1&Hc1). eapply IH; [exact Hf1|]. intros m. rewrite Hc1. specialize (Hlt m). lia.
Qed.

(** ** What the slices contribute *)
Abbreviation Slices := (gmap string EndpointSlice).
Implicit Types (slices : Slices) (es : EndpointSlice) (b : bool).

Definition contribution svc b m (kes : string * EndpointSlice) : nat :=
  if decide (serviceName kes.2 = svc) then length (filter (.= m) (membersFromEndpointSlice (Some kes.2) b)) else 0.
Definition refs slices svc b m : nat := sum_list_with (contribution svc b m) (map_to_list slices).

Lemma refs_insert slices k es svc b m : slices !! k = None → refs (<[k := es]> slices) svc b m = contribution svc b m (k, es) + refs slices svc b m.
Proof. intros Hk. unfold refs. by rewrite map_to_list_insert. Qed.

Lemma refs_delete slices k svc b m : refs slices svc b m = from_option (λ es, contribution svc b m (k, es)) 0 (slices !! k) + refs (delete k slices) svc b m.
Proof.
  destruct (slices !! k) as [es|] eqn:Hk; cbn [from_option]; [|by rewrite delete_id]. rewrite <- (insert_delete_id slices k es Hk) at 1. apply refs_insert, lookup_delete_eq.
Qed.

(** A new version of a slice takes the place of the old one. *)
Lemma refs_update slices k es svc b m :
  refs (<[k := es]> slices) svc b m + from_option (λ old, contribution svc b m (k, old)) 0 (slices !! k) = refs slices svc b m + contribution svc b m (k, es).
Proof. rewrite <- insert_delete_eq, refs_insert by apply lookup_delete_eq. rewrite (refs_delete slices k). lia. Qed.

Lemma refs_pos slices svc b m : 0 < refs slices svc b m ↔ ∃ k es, slices !! k = Some es ∧ serviceName es = svc ∧ m ∈ membersFromEndpointSlice (Some es) b.
Proof.
  unfold refs. assert (Hsum : ∀ kvs, 0 < sum_list_with (contribution svc b m) kvs ↔ ∃ kes, kes ∈ kvs ∧ 0 < contribution svc b m kes).
  { induction kvs as [|x kvs IH]; cbn; [split; [lia|by intros (?&?%elem_of_nil&_)]|]. setoid_rewrite elem_of_cons. split.
    - intros Hs. destruct (decide (0 < contribution svc b m x)); [exists x; auto|]. destruct (proj1 IH ltac:(lia)) as (kes&?&?). exists kes. auto.
    - intros (kes&[->|Hin]&Hp); [lia|]. assert (0 < sum_list_with (contribution svc b m) kvs) by (apply IH; eauto). lia. }
  rewrite Hsum. setoid_rewrite (λ es, iff_sym (occ_pos m (membersFromEndpointSlice (Some es) b))). unfold contribution, occ. split.
  - intros ([k es]&Hin&Hp). apply elem_of_map_to_list in Hin. exists k, es. cbn [snd] in Hp. destruct (decide (serviceName es = svc)); [|lia]. split_and!; [done|done|lia].
  - intros (k&es&Hk&Hs&Hp). exists (k, es). rewrite elem_of_map_to_list. split; [done|]. cbn [snd]. rewrite decide_True by done. lia.
Qed.

(** The slices of one service are enough. *)
Lemma refs_service slices (F : Slices) svc b m : (∀ k es, F !! k = Some es ↔ slices !! k = Some es ∧ serviceName es = svc) →
  occ m (map_to_list F ≫= λ kes, membersFromEndpointSlice (Some kes.2) b) = Z.of_nat (refs slices svc b m).
Proof.
  revert F. induction slices as [|k es slices Hk IH] using map_ind; intros F HF.
  { assert (F = ∅) as ->; [|done]. apply map_eq. intros k. rewrite lookup_empty. destruct (F !! k) as [es|] eqn:Hk; [|done]. by apply HF in Hk as [Hk%lookup_empty_Some _]. }
  rewrite refs_insert by done. unfold contribution. cbn [snd]. destruct (decide (serviceName es = svc)) as [Hs|Hs].
  - assert (HFk : F !! k = Some es) by (apply HF; by rewrite lookup_insert_eq). rewrite <- (insert_delete_id F k es HFk). rewrite Nat2Z.inj_add, <- (IH (delete k F)).
    + unfold occ. rewrite map_to_list_insert by apply lookup_delete_eq. cbn. rewrite filter_app, length_app. lia.
    + intros k' es'. rewrite lookup_delete_Some, HF, lookup_insert_Some. naive_solver.
  - rewrite Nat.add_0_l. apply IH. intros k' es'. rewrite HF, lookup_insert_Some. split; [|naive_solver]. intros [[[<- <-]|[_ ?]] ?]; naive_solver.
Qed.

(** How many members the slices have at most. *)
Definition sliceWeight es : nat := length (membersFromEndpointSlice (Some es) true) + length (membersFromEndpointSlice (Some es) false).
Definition total slices : nat := sum_list_with (λ kes, sliceWeight kes.2) (map_to_list slices).

Lemma contribution_weight svc b m kes : contribution svc b m kes <= sliceWeight kes.2.
Proof. unfold contribution, sliceWeight. pose proof (length_filter (.= m) (membersFromEndpointSlice (Some kes.2) b)) as Hl. destruct b, (decide (serviceName kes.2 = svc)); lia. Qed.

Lemma refs_total slices svc b m : refs slices svc b m <= total slices.
Proof.
  unfold refs, total. generalize (map_to_list slices). intros kvs. induction kvs as [|x kvs IH]; cbn [sum_list_with]; [done|]. pose proof (contribution_weight svc b m x). lia.
Qed.

Lemma svc_total_delete slices k : total (delete k slices) <= total slices.
Proof.
  destruct (slices !! k) as [es|] eqn:Hk; [|by rewrite delete_id]. rewrite <- (insert_delete_id slices k es Hk) at 2. unfold total. rewrite map_to_list_insert by apply lookup_delete_eq. cbn [sum_list_with]. lia.
Qed.

Lemma svc_total_insert slices k es : total (<[k := es]> slices) <= total slices + sliceWeight es.
Proof.
  rewrite <- insert_delete_eq. pose proof (svc_total_delete slices k). unfold total at 1. rewrite map_to_list_insert by apply lookup_delete_eq. cbn [sum_list_with snd]. unfold total in *. lia.
Qed.

(** ** A loop over IP sets *)
Definition with_objects (O : gmap nat ipSetData) idx : ServiceIndex :=
  MkServiceIndex (endpointSlices idx) (endpointSlicesByService idx) O (nextObject idx) (activeIPSetsByID idx) (activeIPSetsByService idx) (events idx).

Definition settable (new old : bool → list IPSetMember) P d : Prop :=
  counts_wf d ∧ agree d P ∧ (∀ m, count d m + occ m (new (IncludePorts d)) < 2 ^ 64)%Z ∧ (∀ m, occ m (old (IncludePorts d)) <= count d m + occ m (new (IncludePorts d)))%Z.

Definition set_updated (new old : bool → list IPSetMember) P d d' : Prop :=
  counts_wf d' ∧ agree d' P ∧ ServiceName d' = ServiceName d ∧ ID d' = ID d ∧
  ∀ m, count d' m = (count d m + occ m (new (IncludePorts d)) - occ m (old (IncludePorts d)))%Z.

Lemma updateSet_ok new old l idx d P : objects idx !! l = Some d → settable new old P d →
  ∃ d' evs P', updateSet new old l idx = Ret (with_objects (<[l := d']> (objects idx)) (emit evs idx)) ∧ replay evs P = Ret P' ∧ set_updated new old P' d d' ∧
    (∀ id, id ≠ ID d → P' !!! id = P !!! id) ∧ Forall (λ e, event_id e = ID d) evs.
Proof.
  intros Hl (Hw&Ha&Hnew&Hold). unfold updateSet. rewrite Hl.
  destruct (addMembers_ok d P (new (IncludePorts d)) (d, []) P (svc_follows_refl d P Ha Hw) Hnew) as (P1&Hf1&Hc1). cbn [fst] in Hc1. set (st1 := foldl addMember (d, []) (new (IncludePorts d))) in *.
  destruct (svc_removeMembers_ok d P (old (IncludePorts d)) st1 P1 Hf1) as (P2&Hf2&Hc2); [intros m; by rewrite Hc1|].
  destruct (foldl removeMember st1 (old (IncludePorts d))) as [d' evs] eqn:Hst. destruct Hf2 as [Hr2 Ha2 Hw2 Hs2 Hi2 Hrest2 He2]. cbn [fst snd] in *.
  exists d', evs, P2. split_and!; [done|done| |done|done]. split_and!; [done|done|done|done|]. intros m. by rewrite Hc2, Hc1.
Qed.

Lemma agree_ext d P P' : P' !!! ID d = P !!! ID d → agree d P → agree d P'.
Proof. intros HP Ha m. by rewrite HP. Qed.

Lemma updateSets_ok new old ls : ∀ idx P,
  NoDup ls → (∀ l, l ∈ ls → ∃ d, objects idx !! l = Some d ∧ settable new old P d) →
  (∀ l1 l2 d1 d2, objects idx !! l1 = Some d1 → objects idx !! l2 = Some d2 → l1 ∈ ls → l2 ∈ ls → ID d1 = ID d2 → l1 = l2) →
  ∃ O evs P', updateSets new old ls idx = Ret (with_objects O (emit evs idx)) ∧ replay evs P = Ret P' ∧
    (∀ l, l ∉ ls → O !! l = objects idx !! l) ∧
    (∀ l d, l ∈ ls → objects idx !! l = Some d → ∃ d', O !! l = Some d' ∧ set_updated new old P' d d') ∧
    (∀ id, (∀ l d, l ∈ ls → objects idx !! l = Some d → ID d ≠ id) → P' !!! id = P !!! id) ∧
    Forall (λ e, ∃ l d, l ∈ ls ∧ objects idx !! l = Some d ∧ event_id e = ID d) evs.
Proof.
  induction ls as [|l ls IH]; intros idx P Hnd Hset Hinj; cbn [updateSets].
  { exists (objects idx), [], P. split_and!; [|done|done|by intros l d ?%elem_of_nil|done|done]. unfold with_objects, emit. cbn. rewrite app_nil_r. by destruct idx. }
  apply list.NoDup_cons in Hnd as [Hl Hnd]. destruct (Hset l (list_elem_of_here _ _)) as (d&Hd&Hsd). destruct (updateSet_ok new old l idx d P Hd Hsd) as (d1&evs1&P1&->&Hr1&Hu1&Hrest1&He1). cbn [obind].
  set (idx1 := with_objects (<[l := d1]> (objects idx)) (emit evs1 idx)). assert (Hobj : ∀ l', l' ∈ ls → objects idx1 !! l' = objects idx !! l').
  { intros l' Hl'. cbn. rewrite lookup_insert_ne; [done|]. by intros ->. }
  assert (Hid : ∀ l' d', l' ∈ ls → objects idx !! l' = Some d' → ID d' ≠ ID d).
  { intros l' d' Hl' Hd' Heq. apply Hl. by rewrite <- (Hinj l' l d' d Hd' Hd (list_elem_of_further _ _ _ Hl') (list_elem_of_here _ _) Heq). }
  destruct (IH idx1 P1 Hnd) as (O&evs2&P2&->&Hr2&Hout&Hin&Hrest2&He2).
  - intros l' Hl'. destruct (Hset l' (list_elem_of_further _ _ _ Hl')) as (d'&Hd'&Hw'&Ha'&Hb'). exists d'. rewrite Hobj by done. split_and!; [done|]. split_and!; [done| |apply Hb'..].
    eapply agree_ext; [|exact Ha']. apply Hrest1. by eapply Hid.
  - intros l1 l2 d1' d2' H1 H2 Hi1 Hi2. rewrite Hobj in H1, H2 by done. apply (Hinj l1 l2 d1' d2' H1 H2); by apply list_elem_of_further.
  - exists O, (evs1 ++ evs2), P2. split_and!.
    + f_equal. unfold with_objects, emit, idx1. cbn. by rewrite (assoc_L (++)).
    + by rewrite replay_events_app, Hr1.
    + intros l' [Hne Hl']%not_elem_of_cons. rewrite Hout by done. cbn. by rewrite lookup_insert_ne.
    + intros l' d' [->|Hl']%elem_of_cons Hd'.
      * replace d' with d in * by congruence. exists d1. rewrite Hout by done. cbn. rewrite lookup_insert_eq. split; [done|]. destruct Hu1 as (Hw1&Ha1&Hs1&Hi1&Hc1). split_and!; [done| |done|done|done].
        eapply agree_ext; [|exact Ha1]. apply Hrest2. intros l' d2 Hl' Hd2. rewrite Hobj in Hd2 by done. rewrite Hi1. by eapply Hid.
      * apply Hin; [done|]. by rewrite Hobj.
    + intros id Hall. rewrite Hrest2; [|intros l' d2 Hl' Hd2; rewrite Hobj in Hd2 by done; by eapply Hall; [apply list_elem_of_further|]]. apply Hrest1. intros ->. by apply (Hall l d (list_elem_of_here _ _) Hd).
    + apply Forall_app. split; [eapply Forall_impl; [exact He1|]; intros e ->; exists l, d; split_and!; [apply list_elem_of_here|done|done]|].
      eapply Forall_impl; [exact He2|]. intros e (l'&d'&Hl'&Hd'&->). rewrite Hobj in Hd' by done. exists l', d'. split_and!; [by apply list_elem_of_further|done|done].
Qed.

(** ** The invariant *)
Implicit Types (sets : gmap string string).

(** The IP set [d] is counted right. *)
Definition set_right slices P d : Prop := counts_wf d ∧ agree d P ∧ ∀ m, count d m = Z.of_nat (refs slices (ServiceName d) (IncludePorts d) m).

Record si_inv idx slices sets P : Prop := {
  si_slices : endpointSlices idx = slices;
  si_byService svc k es : default ∅ (endpointSlicesByService idx !! svc) !! k = Some es ↔ slices !! k = Some es ∧ serviceName es = svc;
  si_byID id : is_Some (activeIPSetsByID idx !! id) ↔ is_Some (sets !! id);
  si_active svc id l : default ∅ (activeIPSetsByService idx !! svc) !! id = Some l ↔ activeIPSetsByID idx !! id = Some l ∧ sets !! id = Some svc;
  si_object id l : activeIPSetsByID idx !! id = Some l → ∃ d, objects idx !! l = Some d ∧ ID d = id ∧ sets !! id = Some (ServiceName d) ∧ set_right slices P d;
  si_fresh l d : objects idx !! l = Some d → l < nextObject idx;
  si_none id : sets !! id = None → P !!! id = ∅
}.

Lemma si_inv_New : si_inv NewServiceIndex ∅ ∅ ∅.
Proof. split; cbn; intros *; rewrite ?lookup_empty, ?lookup_total_empty; cbn; rewrite ?lookup_empty; naive_solver. Qed.

(** No two identifiers point to the same object. *)
Lemma si_inj idx slices sets P id1 id2 l : si_inv idx slices sets P → activeIPSetsByID idx !! id1 = Some l → activeIPSetsByID idx !! id2 = Some l → id1 = id2.
Proof. intros Hinv H1 H2. destruct (si_object _ _ _ _ Hinv _ _ H1) as (d1&Hd1&<-&_), (si_object _ _ _ _ Hinv _ _ H2) as (d2&Hd2&<-&_). congruence. Qed.

(** The IP sets of one service, in some order. *)
Definition svcSets (r : GoRange) svc idx : list nat := (r _ (map_to_list (default ∅ (activeIPSetsByService idx !! svc)))).*2.

Lemma elem_of_svcSets r svc idx slices sets P l : si_inv idx slices sets P → l ∈ svcSets r svc idx ↔ ∃ id, activeIPSetsByID idx !! id = Some l ∧ sets !! id = Some svc.
Proof.
  intros Hinv. unfold svcSets. rewrite list_elem_of_fmap. setoid_rewrite (range_perm r). setoid_rewrite <- (si_active _ _ _ _ Hinv). split.
  - intros ([id l']&->&Hin%elem_of_map_to_list). by exists id.
  - intros (id&Hid). exists (id, l). by rewrite elem_of_map_to_list.
Qed.

Lemma NoDup_svcSets r svc idx slices sets P : si_inv idx slices sets P → NoDup (svcSets r svc idx).
Proof.
  intros Hinv. unfold svcSets. rewrite (range_perm r). apply NoDup_fmap_2_strong; [|apply NoDup_map_to_list].
  intros [id1 l1] [id2 l2] H1%elem_of_map_to_list H2%elem_of_map_to_list Heq. cbn in Heq. subst l2. apply (si_active _ _ _ _ Hinv) in H1 as [H1 _], H2 as [H2 _]. f_equal. by eapply si_inj.
Qed.

Lemma updateSets_match (r : GoRange) svc new old idx :
  match activeIPSetsByService idx !! svc with Some ipSets => updateSets new old (r _ (map_to_list ipSets)).*2 idx | None => Ret idx end = updateSets new old (svcSets r svc idx) idx.
Proof.
  unfold svcSets. destruct (activeIPSetsByService idx !! svc); [done|]. cbn [default from_option id]. rewrite map_to_list_empty.
  assert (r _ ([] : list (string * nat)) = []) as -> by (apply Permutation_nil; symmetry; apply range_perm). done.
Qed.

(** The slices change, for one service. *)
Definition replaces slices slices' svc (new old : bool → list IPSetMember) : Prop :=
  ∀ svc' b m, (Z.of_nat (refs slices' svc' b m) + (if decide (svc' = svc) then occ m (old b) else 0) = Z.of_nat (refs slices svc' b m) + if decide (svc' = svc) then occ m (new b) else 0)%Z.

Lemma loop_ok r svc new old idx slices slices' sets P : si_inv idx slices sets P → replaces slices slices' svc new old →
  (∀ b m, Z.of_nat (refs slices svc b m) + occ m (new b) < 2 ^ 64)%Z →
  ∃ O evs P', updateSets new old (svcSets r svc idx) idx = Ret (with_objects O (emit evs idx)) ∧ replay evs P = Ret P' ∧
    (∀ id l, activeIPSetsByID idx !! id = Some l → ∃ d, O !! l = Some d ∧ ID d = id ∧ sets !! id = Some (ServiceName d) ∧ set_right slices' P' d) ∧
    (∀ l d, O !! l = Some d → l < nextObject idx) ∧ (∀ id, sets !! id = None → P' !!! id = ∅) ∧ Forall (λ e, is_Some (sets !! event_id e)) evs.
Proof.
  intros Hinv Hrep Hsmall.
  assert (Hmem : ∀ l, l ∈ svcSets r svc idx ↔ ∃ id, activeIPSetsByID idx !! id = Some l ∧ sets !! id = Some svc) by (intros l; by eapply elem_of_svcSets).
  assert (Hd : ∀ l, l ∈ svcSets r svc idx → ∃ d, objects idx !! l = Some d ∧ ServiceName d = svc ∧ activeIPSetsByID idx !! ID d = Some l ∧ sets !! ID d = Some svc ∧ set_right slices P d).
  { intros l (id&Hid&Hs)%Hmem. destruct (si_object _ _ _ _ Hinv _ _ Hid) as (d&Hd&<-&Hs'&Hr). exists d. split_and!; [done|congruence|done|done|done]. }
  destruct (updateSets_ok new old (svcSets r svc idx) idx P) as (O&evs&P'&Hup&Hr&Hout&Hin&Hrest&Hevs).
  - by eapply NoDup_svcSets.
  - intros l Hl. destruct (Hd l Hl) as (d&Hld&Hs&_&_&Hw&Ha&Hc). exists d. split; [done|]. split_and!; [done|done|intros m; rewrite Hc, Hs; apply Hsmall|].
    intros m. rewrite Hc. specialize (Hrep (ServiceName d) (IncludePorts d) m). rewrite Hs, !decide_True in Hrep by done. rewrite Hs. lia.
  - intros l1 l2 d1 d2 H1 H2 (e1&He1&_&Hb1&_)%Hd (e2&He2&_&Hb2&_)%Hd Heq. rewrite H1 in He1. rewrite H2 in He2. injection He1 as <-. injection He2 as <-. rewrite Heq in Hb1. congruence.
  - exists O, evs, P'. split_and!; [done|done| | | |].
    + intros id l Hid. destruct (si_object _ _ _ _ Hinv _ _ Hid) as (d&Hld&Hi&Hs&Hw&Ha&Hc). destruct (decide (ServiceName d = svc)) as [Hsvc|Hsvc].
      * destruct (Hin l d) as (d'&Hd'&Hw'&Ha'&Hs'&Hi'&Hc'); [apply Hmem; exists id; by rewrite <- Hsvc|done|]. exists d'. split_and!; [done|congruence|congruence|].
        assert (Hip : IncludePorts d' = IncludePorts d) by (unfold IncludePorts; by rewrite Hi'). split_and!; [done|done|]. intros m. rewrite Hc', Hc, Hs', Hip.
        specialize (Hrep (ServiceName d) (IncludePorts d) m). rewrite !decide_True in Hrep by done. lia.
      * exists d. rewrite Hout; [|intros (id'&Hid'&Hs')%Hmem; replace id' with id in * by (by eapply si_inj); congruence]. split_and!; [done|done|done|]. split_and!; [done| |].
        -- eapply agree_ext; [|exact Ha]. apply Hrest. intros l' d' (e&He&_&_&Hes&_)%Hd Hd' Heq. rewrite He in Hd'. injection Hd' as ->. congruence.
        -- intros m. rewrite Hc. specialize (Hrep (ServiceName d) (IncludePorts d) m). rewrite !decide_False in Hrep by done. lia.
    + intros l d HO. destruct (decide (l ∈ svcSets r svc idx)) as [Hl|Hl]; [|rewrite Hout in HO by done; by eapply si_fresh].
      destruct (Hd l Hl) as (d0&Hd0&_). by eapply si_fresh.
    + intros id Hnone. rewrite Hrest; [by eapply si_none|]. intros l d Hl Hld Heq. destruct (Hd l Hl) as (e&He&_&Hb&_). rewrite Hld in He. injection He as <-.
      assert (is_Some (sets !! ID d)) as [? ?] by (apply (si_byID _ _ _ _ Hinv); by eexists). congruence.
    + eapply Forall_impl; [exact Hevs|]. intros e (l&d&(d0&Hd0&_&_&Hs&_)%Hd&Hld&->). rewrite Hld in Hd0. injection Hd0 as <-. by eexists.
Qed.

(** ** The operations *)
(** The result of an operation, and the client. *)
Definition step_ok (r : outcome Empty_set ServiceIndex) sets0 slices sets P : Prop :=
  ∃ idx' P', r = Ret idx' ∧ replay (events idx') P = Ret P' ∧ si_inv (clear_events idx') slices sets P' ∧
    Forall (λ e, is_Some (sets0 !! event_id e) ∨ is_Some (sets !! event_id e)) (events idx').

Definition moves_not slices es : Prop := ∀ old, slices !! sliceKey (es_Namespace es) (es_Name es) = Some old → serviceName old = serviceName es.

Lemma replaces_update slices k es svc : serviceName es = svc → (∀ old, slices !! k = Some old → serviceName old = svc) →
  replaces slices (<[k := es]> slices) svc (membersFromEndpointSlice (Some es)) (membersFromEndpointSlice (slices !! k)).
Proof.
  intros Hs Hold svc' b m. pose proof (refs_update slices k es svc' b m) as Hu. unfold contribution, occ in *. cbn [snd] in Hu. rewrite Hs in Hu.
  destruct (slices !! k) as [old|] eqn:Hk; cbn [from_option snd] in Hu.
  - rewrite (Hold old eq_refl) in Hu. destruct (decide (svc' = svc)) as [->|Hne]; [rewrite !decide_True in Hu by done; lia|]. rewrite !decide_False in Hu by done. lia.
  - change (length (filter (.= m) (membersFromEndpointSlice None b))) with 0. destruct (decide (svc' = svc)) as [->|Hne]; [rewrite !decide_True in Hu by done; lia|]. rewrite !decide_False in Hu by done. lia.
Qed.

Lemma replaces_delete slices k es : slices !! k = Some es → replaces slices (delete k slices) (serviceName es) (λ _, []) (membersFromEndpointSlice (Some es)).
Proof.
  intros Hk svc' b m. pose proof (refs_delete slices k svc' b m) as Hd. rewrite Hk in Hd. unfold contribution in Hd. cbn [from_option snd] in Hd. unfold occ. cbn [filter list_filter length].
  destruct (decide (svc' = serviceName es)) as [->|Hne]; [rewrite decide_True in Hd by done; lia|]. rewrite decide_False in Hd by done. lia.
Qed.

(** The slices of a service after an update. *)
Lemma byService_update (S : gmap string Slices) slices k es : (∀ svc k es, default ∅ (S !! svc) !! k = Some es ↔ slices !! k = Some es ∧ serviceName es = svc) →
  (∀ old, slices !! k = Some old → serviceName old = serviceName es) → is_Some (S !! serviceName es) →
  ∀ svc k' es', default ∅ (alter <[k := es]> (serviceName es) S !! svc) !! k' = Some es' ↔ <[k := es]> slices !! k' = Some es' ∧ serviceName es' = svc.
Proof.
  intros HS Hold [F HF] svc k' es'. rewrite lookup_insert_Some. destruct (decide (svc = serviceName es)) as [->|Hne].
  - rewrite lookup_alter_eq, HF. cbn. rewrite lookup_insert_Some. specialize (HS (serviceName es) k' es'). rewrite HF in HS. cbn in HS. rewrite HS. naive_solver.
  - rewrite lookup_alter_ne, HS by done. split; [|naive_solver]. intros [Hk' <-]. split; [|done]. right. split; [|done]. intros <-. by destruct Hne, (Hold es').
Qed.

Lemma byService_delete (S : gmap string Slices) slices k es : (∀ svc k es, default ∅ (S !! svc) !! k = Some es ↔ slices !! k = Some es ∧ serviceName es = svc) → slices !! k = Some es →
  ∀ svc k' es', default ∅ (partial_alter (λ s, let s' := delete k (default ∅ s) in if decide (s' = ∅) then None else Some s') (serviceName es) S !! svc) !! k' = Some es' ↔
    delete k slices !! k' = Some es' ∧ serviceName es' = svc.
Proof.
  intros HS Hk svc k' es'. rewrite lookup_delete_Some. destruct (decide (svc = serviceName es)) as [->|Hne].
  - rewrite lookup_partial_alter_eq. cbn zeta. set (F := default ∅ (S !! serviceName es)). assert (Hd : default ∅ (if decide (delete k F = ∅) then None else Some (delete k F)) = delete k F) by (by destruct (decide _) as [->|]).
    rewrite Hd, lookup_delete_Some. unfold F. rewrite HS. naive_solver.
  - rewrite lookup_partial_alter_ne, HS by done. split; [|naive_solver]. intros [Hk' <-]. split_and!; [|done|done]. intros ->. congruence.
Qed.

Lemma UpdateEndpointSlice_ok r es idx slices sets P : si_inv (clear_events idx) slices sets P → moves_not slices es → small (total slices + sliceWeight es) →
  step_ok (UpdateEndpointSlice r es (clear_events idx)) sets (<[sliceKey (es_Namespace es) (es_Name es) := es]> slices) sets P.
Proof.
  intros Hinv Hmov Hsmall. unfold step_ok, UpdateEndpointSlice. set (svc := serviceName es). set (k := sliceKey (es_Namespace es) (es_Name es)) in *.
  set (idx1 := set_slices _ (λ s, match s !! svc with Some _ => s | None => <[svc := ∅]> s end) (clear_events idx)).
  assert (Hby1 : (∀ svc', default ∅ (endpointSlicesByService idx1 !! svc') = default ∅ (endpointSlicesByService idx !! svc')) ∧ is_Some (endpointSlicesByService idx1 !! svc)).
  { cbn. destruct (endpointSlicesByService idx !! svc) eqn:Hs; [split; [done|by eexists]|]. split; [|by rewrite lookup_insert_eq]. intros svc'.
    destruct (decide (svc' = svc)) as [->|]; [by rewrite lookup_insert_eq, Hs|by rewrite lookup_insert_ne]. }
  destruct Hby1 as [Hby1 Hsome]. assert (Hinv1 : si_inv idx1 slices sets P) by (destruct Hinv; split; [done|intros; rewrite Hby1; auto|done..]).
  rewrite updateSets_match. assert (Hc : endpointSlices idx1 !! k = slices !! k) by (by rewrite (si_slices _ _ _ _ Hinv1)). rewrite Hc.
  destruct (loop_ok r svc (membersFromEndpointSlice (Some es)) (membersFromEndpointSlice (slices !! k)) idx1 slices (<[k := es]> slices) sets P Hinv1) as (O&evs&P'&->&Hr&Hobj&Hfresh&Hnone&Hevs).
  - by apply replaces_update.
  - intros b m. pose proof (refs_total slices svc b m). pose proof (occ_bounds m (membersFromEndpointSlice (Some es) b)). unfold small, sliceWeight in Hsmall. destruct b; lia.
  - cbn [obind]. eexists _, P'. split; [done|]. split; [exact Hr|]. split; [|eapply Forall_impl; [exact Hevs|]; by left]. pose proof (byService_update (endpointSlicesByService idx1) slices k es (si_byService _ _ _ _ Hinv1) Hmov Hsome) as Hbs.
    destruct Hinv1 as [Hs1 _ Hb1 Ha1 _ _ _]. split; cbn in *; [by rewrite Hs1|exact Hbs|done..].
Qed.

Lemma DeleteEndpointSlice_ok r ns name idx slices sets P : si_inv (clear_events idx) slices sets P → small (total slices) →
  step_ok (DeleteEndpointSlice r ns name (clear_events idx)) sets (delete (sliceKey ns name) slices) sets P.
Proof.
  intros Hinv Hsmall. unfold step_ok, DeleteEndpointSlice. set (k := sliceKey ns name). assert (Hc : endpointSlices (clear_events idx) !! k = slices !! k) by (by rewrite (si_slices _ _ _ _ Hinv)). rewrite Hc.
  destruct (slices !! k) as [es|] eqn:Hk; [|rewrite delete_id by done; by exists (clear_events idx), P].
  rewrite updateSets_match. destruct (loop_ok r (serviceName es) (λ _, []) (membersFromEndpointSlice (Some es)) (clear_events idx) slices (delete k slices) sets P Hinv) as (O&evs&P'&->&Hr&Hobj&Hfresh&Hnone&Hevs).
  - by apply replaces_delete.
  - intros b m. pose proof (refs_total slices (serviceName es) b m). change (occ m []) with 0%Z. unfold small in Hsmall. lia.
  - cbn [obind]. eexists _, P'. split; [done|]. split; [exact Hr|]. split; [|eapply Forall_impl; [exact Hevs|]; by left]. pose proof (byService_delete (endpointSlicesByService (clear_events idx)) slices k es (si_byService _ _ _ _ Hinv) Hk) as Hbs.
    destruct Hinv as [Hs1 _ Hb1 Ha1 _ _ _]. split; cbn in *; [by rewrite Hs1|exact Hbs|done..].
Qed.

Lemma svc_occ_perm m ms1 ms2 : ms1 ≡ₚ ms2 → occ m ms1 = occ m ms2.
Proof. unfold occ. by intros ->. Qed.

Lemma foldl_bind {A B C} (f : C → B → C) (g : A → list B) xs : ∀ c, foldl (λ c x, foldl f c (g x)) c xs = foldl f c (xs ≫= g).
Proof. induction xs as [|x xs IH]; intros c; [done|]. cbn. by rewrite IH, foldl_app. Qed.

(** A new IP set is filled from the slices of its service. *)
Lemma fill_ok (r : GoRange) idx slices sets P id svc : si_inv idx slices sets P → small (total slices) → sets !! id = None → let d := MkIpSetData svc id ∅ in
  ∃ d' evs P', foldl (λ st kes, foldl addFirst st (membersFromEndpointSlice (Some kes.2) (IncludePorts d))) (d, []) (r _ (map_to_list (default ∅ (endpointSlicesByService idx !! svc)))) = (d', evs) ∧
    replay evs P = Ret P' ∧ set_right slices P' d' ∧ ServiceName d' = svc ∧ ID d' = id ∧ (∀ id', id' ≠ id → P' !!! id' = P !!! id') ∧ Forall (λ e, event_id e = id) evs.
Proof.
  intros Hinv Hsmall Hnone d. set (F := default ∅ (endpointSlicesByService idx !! svc)).
  assert (Hf : follows d P (d, []) P) by (apply svc_follows_refl; [intros m; cbn; rewrite (si_none _ _ _ _ Hinv id Hnone); split; [by intros ?%not_elem_of_empty|done]|done]).
  assert (Hocc : ∀ m, occ m (r _ (map_to_list F) ≫= λ kes, membersFromEndpointSlice (Some kes.2) (IncludePorts d)) = Z.of_nat (refs slices svc (IncludePorts d) m)).
  { intros m. rewrite (svc_occ_perm m _ (map_to_list F ≫= λ kes, membersFromEndpointSlice (Some kes.2) (IncludePorts d))) by (by rewrite (range_perm r)). apply refs_service. apply (si_byService _ _ _ _ Hinv). }
  rewrite (foldl_bind addFirst). assert (Hlt : ∀ m, (count d m + occ m (r _ (map_to_list F) ≫= λ kes, membersFromEndpointSlice (Some kes.2) (IncludePorts d)) < 2 ^ 64)%Z).
  { intros m. rewrite Hocc. change (count d m) with 0%Z. pose proof (refs_total slices svc (IncludePorts d) m). unfold small in Hsmall. lia. }
  rewrite (addFirsts_eq d P _ (d, []) P Hf Hlt). destruct (addMembers_ok d P _ (d, []) P Hf Hlt) as (P'&Hf'&Hc).
  destruct (foldl addMember (d, []) _) as [d' evs] eqn:Hst. destruct Hf' as [Hr Ha Hw Hs Hi Hrest He]. cbn [fst snd] in *. exists d', evs, P'. split_and!; [done|done| |done|done|done|done].
  split_and!; [done|done|]. intros m. rewrite Hc, Hocc, Hs. unfold IncludePorts at 2. by rewrite Hi.
Qed.

Lemma svc_UpdateIPSet_ok r id svc idx slices sets P : si_inv (clear_events idx) slices sets P → small (total slices) → (∀ svc', sets !! id = Some svc' → svc' = svc) →
  step_ok (UpdateIPSet r id svc (clear_events idx)) sets slices (<[id := svc]> sets) P.
Proof.
  intros Hinv Hsmall Hsame. unfold step_ok, UpdateIPSet. destruct (activeIPSetsByID (clear_events idx) !! id) as [l|] eqn:Hl.
  { destruct (si_object _ _ _ _ Hinv _ _ Hl) as (d&->&_&Hs&_). rewrite (Hsame _ Hs) in Hs |- *. rewrite decide_True by done. exists (clear_events idx), P. split_and!; [done|done| |done]. by rewrite insert_id. }
  assert (Hnone : sets !! id = None) by (apply eq_None_not_Some; rewrite <- (si_byID _ _ _ _ Hinv), Hl; by intros []).
  destruct (fill_ok r (clear_events idx) slices sets P id svc Hinv Hsmall Hnone) as (d'&evs&P'&Hfill&Hr&Hright&Hs&Hi&Hrest&Hevs). cbn zeta in Hfill |- *.
  change (endpointSlicesByService (set_active _ _ _)) with (endpointSlicesByService (clear_events idx)). rewrite Hfill. eexists _, P'. split; [done|]. split; [exact Hr|]. clear Hfill.
  split; [|eapply Forall_impl; [exact Hevs|]; intros e ->; right; by rewrite lookup_insert_eq].
  destruct Hinv as [Hsl Hbs Hb Ha Ho Hfr Hno]. set (n := nextObject idx). split; cbn in *; [done|done| | | | |].
  - intros id'. destruct (decide (id' = id)) as [->|]; [by rewrite !lookup_insert_eq|by rewrite !lookup_insert_ne].
  - intros svc' id' l'. rewrite !lookup_insert_Some. destruct (decide (svc' = svc)) as [->|Hne].
    + rewrite lookup_partial_alter_eq. cbn. rewrite lookup_insert_Some, Ha. fold n. naive_solver.
    + rewrite lookup_partial_alter_ne, Ha by done. naive_solver.
  - intros id' l' [[<- <-]|[Hne Hl']]%lookup_insert_Some.
    + exists d'. rewrite !lookup_insert_eq. split_and!; [done|done|by rewrite Hs|done].
    + destruct (Ho id' l' Hl') as (d&Hd&Hid&Hsd&Hw&Hag&Hc). exists d. pose proof (Hfr _ _ Hd). rewrite !lookup_insert_ne by (fold n; lia || done).
      split_and!; [done|done|done|]. split_and!; [done| |done]. eapply agree_ext; [|exact Hag]. apply Hrest. congruence.
  - intros l' d. rewrite !lookup_insert_Some. fold n. intros [[<- _]|[_ [[<- _]|[_ Hd]]]]; [lia..|]. specialize (Hfr _ _ Hd). fold n in Hfr. lia.
  - intros id' [Hn Hne]%lookup_insert_None. rewrite Hrest by done. by apply Hno.
Qed.

Lemma svc_DeleteIPSet_ok r id idx slices sets P : si_inv (clear_events idx) slices sets P → step_ok (DeleteIPSet r id (clear_events idx)) sets slices (delete id sets) P.
Proof.
  intros Hinv. unfold step_ok, DeleteIPSet. destruct (activeIPSetsByID (clear_events idx) !! id) as [l|] eqn:Hl.
  2: { exists (clear_events idx), P. split_and!; [done|done| |done]. rewrite delete_id; [done|]. apply eq_None_not_Some. rewrite <- (si_byID _ _ _ _ Hinv), Hl. by intros []. }
  destruct (si_object _ _ _ _ Hinv _ _ Hl) as (d&->&Hid&Hs&Hw&Hag&_). set (ms := (r _ (map_to_list (memberToRefCount d))).*1).
  assert (Hms : ∀ m, m ∈ ms ↔ m ∈ P !!! id).
  { intros m. unfold ms. rewrite list_elem_of_fmap, <- Hid, (Hag m). setoid_rewrite (range_perm r). unfold count. split.
    - intros ([m' c]&->&Hin%elem_of_map_to_list). cbn [fst]. rewrite Hin. cbn. by apply (Hw _ _ Hin).
    - destruct (memberToRefCount d !! m) as [c|] eqn:Hm; cbn; [|lia]. intros _. exists (m, c). by rewrite elem_of_map_to_list. }
  destruct (replay_removes id ms P) as (P'&Hr&HP').
  { unfold ms. rewrite (range_perm r). apply NoDup_fst_map_to_list. }
  { intros m Hm. by apply Hms. }
  eexists _, P'. split; [done|]. split; [cbn; rewrite <- Hr; unfold ms; by rewrite <- list_fmap_compose|].
  split; [|cbn; apply Forall_fmap, list.Forall_forall; intros mc _; left; by eexists].
  assert (Hsame : ∀ id', id' ≠ id → P' !!! id' = P !!! id') by (intros id' Hne; apply set_eq; intros m; rewrite HP'; naive_solver).
  destruct Hinv as [Hsl Hbs Hb Ha Ho Hfr Hno]. split; cbn in *; [done|done| | | |done|].
  - intros id'. destruct (decide (id' = id)) as [->|]; [by rewrite !lookup_delete_eq|by rewrite !lookup_delete_ne].
  - intros svc' id' l'. rewrite !lookup_delete_Some. destruct (decide (svc' = ServiceName d)) as [->|Hne].
    + rewrite lookup_partial_alter_eq. cbn zeta. set (F := default ∅ (activeIPSetsByService idx !! ServiceName d)).
      assert (Hd : default ∅ (if decide (delete id F = ∅) then None else Some (delete id F)) = delete id F) by (by destruct (decide _) as [->|]). rewrite Hd, lookup_delete_Some. unfold F. rewrite Ha. naive_solver.
    + rewrite lookup_partial_alter_ne, Ha by done. split; [intros [Hb' Hs']|intros [[_ ?] [_ ?]]; done]. assert (id ≠ id') by (intros <-; congruence). done.
  - intros id' l' [Hne Hl']%lookup_delete_Some. destruct (Ho id' l' Hl') as (d2&Hd2&Hi2&Hs2&Hw2&Ha2&Hc2). exists d2. rewrite lookup_delete_ne by done. split_and!; [done|done|done|]. split_and!; [done| |done].
    eapply agree_ext; [|exact Ha2]. apply Hsame. congruence.
  - intros id' Hn. destruct (decide (id' = id)) as [->|Hne].
    + apply set_eq. intros m. rewrite HP', Hms. split; [intros [? []]; done|by intros ?%not_elem_of_empty].
    + rewrite Hsame by done. apply Hno. by rewrite lookup_delete_ne in Hn.
Qed.

(** ** Histories *)
Inductive SiOp :=
  | SiUpdateSlice (r : GoRange) (es : EndpointSlice)
  | SiDeleteSlice (r : GoRange) (namespace name : string)
  | SiUpdateIPSet (r : GoRange) (id svc : string)
  | SiDeleteIPSet (r : GoRange) (id : string).

Definition si_op (op : SiOp) idx : outcome Empty_set ServiceIndex :=
  match op with
  | SiUpdateSlice r es => OnUpdate r "KubernetesEndpointSlice" (es_Namespace es) (es_Name es) (Some es) idx
  | SiDeleteSlice r namespace name => OnUpdate r "KubernetesEndpointSlice" namespace name None idx
  | SiUpdateIPSet r id svc => UpdateIPSet r id svc idx
  | SiDeleteIPSet r id => DeleteIPSet r id idx
  end.

(** The index and its client. *)
Definition si_step (op : SiOp) (st : ServiceIndex * Sets) : outcome Empty_set (ServiceIndex * Sets) :=
  let! idx := si_op op (clear_events st.1) in
  let! P := replay (events idx) st.2 in
  Ret (clear_events idx, P).

Fixpoint si_run (ops : list SiOp) (st : ServiceIndex * Sets) : outcome Empty_set (ServiceIndex * Sets) :=
  match ops with [] => Ret st | op :: ops' => let! st' := si_step op st in si_run ops' st' end.

(** What the updates so far have said. *)
Record SvcWorld := MkSvcWorld { sw_slices : Slices; sw_sets : gmap string string }.

Definition svc_world (w : SvcWorld) (op : SiOp) : SvcWorld :=
  match op with
  | SiUpdateSlice _ es => MkSvcWorld (<[sliceKey (es_Namespace es) (es_Name es) := es]> (sw_slices w)) (sw_sets w)
  | SiDeleteSlice _ namespace name => MkSvcWorld (delete (sliceKey namespace name) (sw_slices w)) (sw_sets w)
  | SiUpdateIPSet _ id svc => MkSvcWorld (sw_slices w) (<[id := svc]> (sw_sets w))
  | SiDeleteIPSet _ id => MkSvcWorld (sw_slices w) (delete id (sw_sets w))
  end.

(** A slice stays with its service, and an identifier with its. *)
Definition si_op_ok (w : SvcWorld) (op : SiOp) : Prop :=
  match op with
  | SiUpdateSlice _ es => moves_not (sw_slices w) es
  | SiUpdateIPSet _ id svc => ∀ svc', sw_sets w !! id = Some svc' → svc' = svc
  | _ => True
  end.

Fixpoint si_ops_ok (w : SvcWorld) (ops : list SiOp) : Prop := match ops with [] => True | op :: ops' => si_op_ok w op ∧ si_ops_ok (svc_world w op) ops' end.

Definition si_weight (op : SiOp) : nat := match op with SiUpdateSlice _ es => sliceWeight es | _ => 0 end.

(** The addresses, or the addresses with ports, of the slices of a service. *)
Definition serviceMember slices svc b m : Prop := ∃ k es, slices !! k = Some es ∧ serviceName es = svc ∧ m ∈ membersFromEndpointSlice (Some es) b.

Lemma si_op_step op idx w P B : si_inv (clear_events idx) (sw_slices w) (sw_sets w) P → si_op_ok w op → total (sw_slices w) <= B → small (B + si_weight op) →
  step_ok (si_op op (clear_events idx)) (sw_sets w) (sw_slices (svc_world w op)) (sw_sets (svc_world w op)) P ∧ total (sw_slices (svc_world w op)) <= B + si_weight op.
Proof.
  intros Hinv Hop HB Hsmall. assert (Hs : small (total (sw_slices w) + si_weight op)) by (unfold small in *; lia).
  destruct op as [r es|r ns name|r id svc|r id]; cbn [svc_world sw_slices sw_sets si_weight] in *.
  - split; [by apply (UpdateEndpointSlice_ok r es)|]. pose proof (svc_total_insert (sw_slices w) (sliceKey (es_Namespace es) (es_Name es)) es). lia.
  - split; [apply (DeleteEndpointSlice_ok r ns name); [done|by rewrite Nat.add_0_r in Hs]|]. pose proof (svc_total_delete (sw_slices w) (sliceKey ns name)). lia.
  - split; [|lia]. apply (svc_UpdateIPSet_ok r id svc); [done|by rewrite Nat.add_0_r in Hs|done].
  - split; [|lia]. by apply (svc_DeleteIPSet_ok r id).
Qed.

Lemma si_step_ok op idx w P B : si_inv (clear_events idx) (sw_slices w) (sw_sets w) P → si_op_ok w op → total (sw_slices w) <= B → small (B + si_weight op) →
  ∃ idx' P', si_step op (idx, P) = Ret (idx', P') ∧ si_inv (clear_events idx') (sw_slices (svc_world w op)) (sw_sets (svc_world w op)) P' ∧ total (sw_slices (svc_world w op)) <= B + si_weight op.
Proof.
  intros Hinv Hop HB Hsmall. destruct (si_op_step op idx w P B Hinv Hop HB Hsmall) as [(i&P'&Hi&Hr&Hinv'&_) HB']. exists (clear_events i), P'. unfold si_step. cbn [fst snd]. rewrite Hi. cbn [obind]. by rewrite Hr.
Qed.

Lemma si_run_ok ops : ∀ idx w P B, si_inv (clear_events idx) (sw_slices w) (sw_sets w) P → si_ops_ok w ops → total (sw_slices w) <= B → small (B + sum_list_with si_weight ops) →
  ∃ idx' P', si_run ops (idx, P) = Ret (idx', P') ∧ si_inv (clear_events idx') (sw_slices (foldl svc_world w ops)) (sw_sets (foldl svc_world w ops)) P'.
Proof.
  induction ops as [|op ops IH]; intros idx w P B Hinv Hok HB Hsmall; cbn [si_run foldl sum_list_with] in *; [by exists idx, P|]. destruct Hok as [Hop Hok].
  destruct (si_step_ok op idx w P B Hinv Hop HB) as (idx1&P1&->&Hinv1&HB1); [unfold small in *; lia|]. cbn [obind]. eapply IH; [done|done|exact HB1|]. unfold small in *. lia.
Qed.

(** What the client holds. *)
Lemma si_members idx slices sets P id m : si_inv idx slices sets P → m ∈ P !!! id ↔ ∃ svc, sets !! id = Some svc ∧ serviceMember slices svc (negb (String.prefix "svcnoport" id)) m.
Proof.
  intros Hinv. destruct (sets !! id) as [svc|] eqn:Hs.
  - assert (is_Some (activeIPSetsByID idx !! id)) as [l Hl] by (apply (si_byID _ _ _ _ Hinv); by eexists). destruct (si_object _ _ _ _ Hinv _ _ Hl) as (d&_&Hid&Hsd&_&Ha&Hc).
    rewrite <- Hid at 1. rewrite (Ha m), Hc. replace (ServiceName d) with svc by congruence. unfold IncludePorts. rewrite Hid. split.
    + intros Hp. exists svc. split; [done|]. apply refs_pos. lia.
    + intros (svc'&[= <-]&Hp%refs_pos). lia.
  - rewrite (si_none _ _ _ _ Hinv id Hs). split; [by intros ?%not_elem_of_empty|]. by intros (?&?&_).
Qed.

(** C9: For any history of endpoint slices and service IP sets in which a slice stays with its service
    and the identifier of an active IP set with the service it was made for (fewer than [2^62]
    members in all), whatever the order in which Go ranges over its maps: the index does not
    panic; a client that applies its callbacks never sees an addition of a member that it has or a
    removal of one that it does not have; and in the end it holds for every active IP set exactly
    the members of the slices of its service, with their ports or without as the identifier says,
    however many slices and endpoints they occur in. *)
Theorem service_index_correct (ops : list SiOp) : si_ops_ok (MkSvcWorld ∅ ∅) ops → small (sum_list_with si_weight ops) →
  ∃ idx P, si_run ops (NewServiceIndex, ∅) = Ret (idx, P) ∧
    let w := foldl svc_world (MkSvcWorld ∅ ∅) ops in
    ∀ id m, m ∈ P !!! id ↔ ∃ svc, sw_sets w !! id = Some svc ∧ serviceMember (sw_slices w) svc (negb (String.prefix "svcnoport" id)) m.
Proof.
  intros Hok Hsmall. destruct (si_run_ok ops NewServiceIndex (MkSvcWorld ∅ ∅) ∅ 0 si_inv_New Hok) as (idx&P&Hr&Hinv); [done|done|]. exists idx, P. split; [done|]. intros w id m. by eapply si_members.
Qed.

(** ** Examples *)
Definition sliceOf (svc : string) (addrs : list string) : EndpointSlice :=
  MkEndpointSlice "ns" "slice" {["kubernetes.io/service-name" := svc]} [MkSliceEndpoint addrs] [MkSlicePort (Some 80%Z) (Some "UDP"); MkSlicePort None None].

Definition goOrder : GoRange := MkGoRange (λ _ xs, xs) (λ _ xs, Permutation_refl xs).

(** Two IP sets of a service, and a slice that changes. *)
Definition serviceOps : list SiOp :=
  [SiUpdateSlice goOrder (sliceOf "a" ["10.1.2.3"; "example.com"; "10.1.2.3"]); SiUpdateIPSet goOrder "svc:1" "ns/a"; SiUpdateIPSet goOrder "svcnoport:1" "ns/a";
   SiUpdateSlice goOrder (sliceOf "a" ["10.1.2.3"; "10.1.2.4"])].

Lemma service_index_correct_witness :
  ∃ idx P, si_run serviceOps (NewServiceIndex, ∅) = Ret (idx, P) ∧ ipPortProtoIPSetMember (V4Addr 167838212) 80 ProtocolUDP ∈ P !!! "svc:1" ∧ ipAddrIPSetMember (V4Addr 167838211) ∈ P !!! "svcnoport:1".
Proof.
  destruct (service_index_correct serviceOps) as (idx&P&Hrun&HP).
  - cbn [si_ops_ok serviceOps si_op_ok svc_world sw_slices sw_sets]. split_and!; try done.
    + intros old. rewrite lookup_insert_eq. by intros [= <-].
  - unfold small. vm_compute. reflexivity.
  - exists idx, P. split; [exact Hrun|]. split; apply HP; (exists "ns/a"; split; [reflexivity|]); exists "ns/slice", (sliceOf "a" ["10.1.2.3"; "10.1.2.4"]); (split; [reflexivity|]; split; [reflexivity|]).
    + apply list_elem_of_In. right. left. reflexivity.
    + apply list_elem_of_In. left. reflexivity.
Defined.

(** A slice that moves from one service to another: the old service keeps the address, and the new one
    does not get it, since the address is taken from it again as one that the slice had before. *)
Definition movedOps : list SiOp :=
  [SiUpdateIPSet goOrder "svcnoport:a" "ns/a"; SiUpdateIPSet goOrder "svcnoport:b" "ns/b"; SiUpdateSlice goOrder (sliceOf "a" ["10.1.2.3"]); SiUpdateSlice goOrder (sliceOf "b" ["10.1.2.3"])].

Theorem moved_slice_is_lost :
  ∃ idx P, si_run movedOps (NewServiceIndex, ∅) = Ret (idx, P) ∧ P !!! "svcnoport:a" = {[ipAddrIPSetMember (V4Addr 167838211)]} ∧ P !!! "svcnoport:b" = ∅.
Proof.
  assert (Hb : match si_run movedOps (NewServiceIndex, ∅) with
    | Ret (_, P) => bool_decide (P !!! "svcnoport:a" = {[ipAddrIPSetMember (V4Addr 167838211)]}) && bool_decide (P !!! "svcnoport:b" = ∅)
    | _ => false
    end = true) by (vm_compute; reflexivity).
  destruct (si_run movedOps (NewServiceIndex, ∅)) as [[idx P]| | |]; [|done..]. apply andb_true_iff in Hb as [H1%bool_decide_eq_true H2%bool_decide_eq_true]. by exists idx, P.
Qed.
