(* ===== verification/RuleDataplane.v ===== *)
(** * From active rules to messages: [felix/calc/calc_graph.go]

    [NewCalculationGraph] wires the rule scanner, the index of IP set members and the index of
    services to each other and to the event sequencer: their callbacks are calls of the sequencer,
    in the order in which the Go code makes them.  [fx_run] feeds the wired parts inputs and flushes
    and returns the messages. *)
From S2P Require Import Prelude ModelRule Tokenizer SelectorAST SelectorParser UniqueLabels InheritIndexCorrect Multidict.
From S2P Require Import CIDR CIDRTrieSpec CIDRTrieCorrect MemberDedup MemberDedupSpec PolicySorter.
From Stdlib Require Import Ascii.
From stdpp Require Import base list gmap numbers strings pretty.
From S2P Require Import NamedPortIndex NamedPortEvents NamedPortCandidates NamedPortInv NamedPortCorrect NetIP NamedPortUpdates RuleScanner RuleScannerSpec RuleScannerTrack RuleMatch RuleGraph.
From S2P Require Import NetString NetParse ServiceIndex ServiceIndexSpec RuleConvert ProtoMessages EventSequencer SequencerTracked SequencerSpec SequencerIPSets SequencerRefs SequencerStages SequencerWireguard SequencerCorrect SequencerTheorems.
From stdpp Require Import options.

(** The clients of the rule scanner. *)
Abbreviation RuleClient := RuleScannerTrack.Dataplane.

(** ** Callbacks as calls of the sequencer *)
Section calls.
Context {PT : Type}.
Abbreviation Call := (Call (PT := PT)).
Context (MakeUniqueID : string → string → string) (enumUIDs : gset string → list string).
Context `{Countable EpID} (zeroID : EpID) (go : GoOrders EpID).
Abbreviation Index := (SelectorAndNamedPortIndex (EpID := EpID)).
Abbreviation NOp := (NPOp (EpID := EpID)).
Abbreviation Services := (services.ServiceIndex * Sets)%type.

Definition memberCall (e : MemberEvent) : Call := match e with OnMemberAdded id m => CMemberAdded id m | OnMemberRemoved id m => CMemberRemoved id m end.

(** The calls of one operation of the index of selectors and named ports, and of the index of services. *)
Definition np_calls (op : NOp) (st : Index * Sets) : outcome Empty_set (list Call) :=
  let! idx := np_op zeroID go op (clear_events st.1) in Ret (memberCall <$> events idx).

Definition svc_calls (op : SiOp) (sv : Services) : outcome Empty_set (list Call) :=
  let! idx := si_op op (services.clear_events sv.1) in Ret (memberCall <$> services.events idx).

(** [OnIPSetActive] and [OnIPSetInactive]: the call of the index of services, if there is one. *)
Definition svcOp (r : GoRange) (e : RSEvent) : outcome Empty_set (option SiOp) :=
  match e with
  | OnIPSetActive d => let! uid := UniqueID MakeUniqueID d in if decide (ips_Service d ≠ "") then Ret (Some (SiUpdateIPSet r uid (ips_Service d))) else Ret None
  | OnIPSetInactive d => let! uid := UniqueID MakeUniqueID d in if decide (ips_Service d ≠ "") then Ret (Some (SiDeleteIPSet r uid)) else Ret None
  | _ => Ret None
  end.

(** The calls of one callback of the rule scanner, given those of the index that it calls. *)
Definition eventCalls (e : RSEvent) (members : list Call) : outcome Empty_set (list Call) :=
  match e with
  | OnIPSetActive d => let! uid := UniqueID MakeUniqueID d in Ret (CIPSetAdded uid (DataplaneProtocolType d) :: members)
  | OnIPSetInactive d => let! uid := UniqueID MakeUniqueID d in Ret (members ++ [CIPSetRemoved uid])
  | OnRulesActive (inl key) rules => Ret [CPolicyActive key rules]
  | OnRulesActive (inr name) rules => Ret [CProfileActive name rules]
  | OnRulesInactive (inl key) => Ret [CPolicyInactive key]
  | OnRulesInactive (inr name) => Ret [CProfileInactive name]
  end.

Definition memberCalls (op : option NOp) (sop : option SiOp) (st : Index * Sets) (sv : Services) : outcome Empty_set (list Call) :=
  match op, sop with Some op, _ => np_calls op st | None, Some sop => svc_calls sop sv | None, None => Ret [] end.

Fixpoint deliverCalls (r : GoRange) (es : list RSEvent) (st : Index * Sets) (sv : Services) : outcome Empty_set (list Call * Services) :=
  match es with
  | [] => Ret ([], sv)
  | e :: es' =>
      let! op := setOp MakeUniqueID e in
      let! sop := svcOp r e in
      let! members := memberCalls op sop st sv in
      let! calls := eventCalls e members in
      let! st' := match op with Some op => np_step zeroID go op st | None => Ret st end in
      let! sv' := match sop with Some sop => si_step sop sv | None => Ret sv end in
      let! (rest, sv'') := deliverCalls r es' st' sv' in
      Ret (calls ++ rest, sv'')
  end.

Definition rg_calls (r : GoRange) (op : RgOp (EpID := EpID)) (g : RuleGraph (EpID := EpID)) (sv : Services) : outcome Empty_set (list Call * Services) :=
  match op with
  | RgRules op =>
      let! rs' := rs_step MakeUniqueID enumUIDs op (rg_scanner g) in
      deliverCalls r (drop (length (rs_events (rg_scanner g))) (rs_events rs')) (rg_index g, rg_members g) sv
  | RgUpdate op => let! calls := np_calls op (rg_index g, rg_members g) in Ret (calls, sv)
  end.
End calls.

(** ** What the calls ask for, and what the graph computes *)
Definition isService (d : IPSetData) : bool := bool_decide (ips_Service d ≠ "").

(** The members of selectors are [P], those of services [Q]. *)
Definition sets_tied {PT} (S : gmap string IPSetData) (P Q : Sets) (W : Want (PT := PT)) : Prop :=
  ∀ uid, want_sets W !! uid = (λ d, (DataplaneProtocolType d, if isService d then Q !!! uid else P !!! uid)) <$> S !! uid.

Record tied {PT} (dp : RuleClient) (P Q : Sets) (W : Want (PT := PT)) : Prop := {
  td_sets : sets_tied (dp_sets dp) P Q W;
  td_policies k : want_policies W !! k = dp_rules dp !! inl k;
  td_profiles n : want_profiles W !! n = dp_rules dp !! inr n;
  td_endpoints : want_endpoints W = ∅
}.

Section tied.
Context {PT Config : Type} (Sum224 : string → string) (Marshal : ProtoRule → option string).
Context (UpdateFrom : Config → option (gmap string string) → ConfigSource → option (Config * bool)) (hostname : string).
Abbreviation Want := (Want (PT := PT)).
Abbreviation allowed_run := (allowed_run (PT := PT) Sum224 Marshal UpdateFrom hostname).
Implicit Types (W : Want) (P Q : Sets) (S : gmap string IPSetData).

(** Only the IP sets change. *)
Definition same_rest W W' : Prop := want_policies W' = want_policies W ∧ want_profiles W' = want_profiles W ∧ want_endpoints W' = want_endpoints W.

Lemma same_rest_trans W W' W'' : same_rest W W' → same_rest W' W'' → same_rest W W''.
Proof. intros (?&?&?) (?&?&?). split_and!; congruence. Qed.

Lemma tied_rest dp S P Q P' Q' W W' : tied dp P Q W → same_rest W W' → sets_tied S P' Q' W' → tied (RuleScannerTrack.MkDataplane S (dp_rules dp)) P' Q' W'.
Proof. intros [_ Hp Hq He] (Hp1&Hq1&He1) Hs. split; cbn; [done|intros k; by rewrite Hp1|intros n; by rewrite Hq1|by rewrite He1]. Qed.

(** The calls bring the members of the sets that are [mine] to [P']. *)
Definition brings (calls : list (Call (PT := PT))) (mine : string → bool) (P' : Sets) W : Prop :=
  allowed_run calls W ∧ same_rest W (want_run calls W) ∧
  ∀ id, want_sets (want_run calls W) !! id = (λ tX, (tX.1, if mine id then P' !!! id else tX.2)) <$> want_sets W !! id.

(** Replaying events of members is allowed when the sets are there. *)
Lemma member_calls_ok mine es : ∀ P P' W, replay es P = Ret P' → (∀ id t X, want_sets W !! id = Some (t, X) → mine id = true → X = P !!! id) →
  Forall (λ e, mine (event_id e) = true ∧ is_Some (want_sets W !! event_id e)) es → brings (memberCall <$> es) mine P' W.
Proof.
  induction es as [|e es IH]; intros P P' W Hr HP Hes; cbn [replay] in Hr.
  { injection Hr as <-. split_and!; [done|done|]. intros id. cbn. destruct (want_sets W !! id) as [[t X]|] eqn:Hid; [|done]. cbn. destruct (mine id) eqn:Hm; [|done]. by rewrite (HP id t X Hid Hm). }
  apply obind_Ret in Hr as (P1&He&Hr). apply list.Forall_cons in Hes as [[Hmine [[t X] Hid]] Hes]. pose proof (HP _ _ _ Hid Hmine) as HX. cbn [fmap list_fmap].
  set (W1 := want_call (memberCall e) W).
  assert (Hother : ∀ id, id ≠ event_id e → (λ tX, (tX.1, if mine id then P1 !!! id else tX.2)) <$> want_sets W !! id = want_sets W !! id).
  { intros id Hne. assert (HP1 : P1 !!! id = P !!! id) by (destruct e as [i m|i m]; cbn in He, Hne; destruct (decide (m ∈ P !!! i)); try done; injection He as <-; by rewrite lookup_total_insert_ne).
    rewrite HP1. destruct (want_sets W !! id) as [[t' X']|] eqn:Hid'; [|done]. cbn. destruct (mine id) eqn:Hm; [|done]. by rewrite (HP _ _ _ Hid' Hm). }
  assert (Hstep : allowed Sum224 Marshal UpdateFrom hostname W (memberCall e) ∧ same_rest W W1 ∧ ∀ id, want_sets W1 !! id = (λ tX, (tX.1, if mine id then P1 !!! id else tX.2)) <$> want_sets W !! id).
  { destruct W as [s p q ep h po w sa ns v r sv en b]. unfold same_rest. destruct e as [id m|id m]; cbn in *; destruct (decide (m ∈ P !!! id)) as [Hin|Hout]; try done; injection He as <-.
    all: split_and!; [exists t, X; by subst|done..|]; intros id'; (destruct (decide (id' = id)) as [->|Hne]; [by rewrite lookup_alter_eq, Hid, Hmine, lookup_total_insert_eq, HX|]).
    all: rewrite lookup_alter_ne by done; symmetry; by apply Hother. }
  destruct Hstep as (Hal&Hsame1&Hs1). destruct (IH P1 P' W1 Hr) as (Hal'&Hsame2&Hs2).
  - intros id t' X'. rewrite Hs1. destruct (want_sets W !! id) as [[t0 X0]|] eqn:Hid0; [|done]. intros [= <- <-] Hm. by rewrite Hm.
  - eapply Forall_impl; [exact Hes|]. intros e' [Hm' Hin]. split; [done|]. rewrite Hs1. by apply fmap_is_Some.
  - split; [by split|]. split; [exact (same_rest_trans _ _ _ Hsame1 Hsame2)|]. intros id. etrans; [exact (Hs2 id)|]. rewrite Hs1. destruct (want_sets W !! id); [|done]. cbn. by destruct (mine id).
Qed.

(** The sets of selectors, and those of services. *)
Definition selected S (id : string) : bool := from_option (λ d, negb (isService d)) false (S !! id).
Definition served S (id : string) : bool := from_option isService false (S !! id).

Lemma brings_selected calls S P Q P' W : sets_tied S P Q W → brings calls (selected S) P' W → allowed_run calls W ∧ same_rest W (want_run calls W) ∧ sets_tied S P' Q (want_run calls W).
Proof.
  intros Ht (Hal&Hsame&Hs). split_and!; [done|apply Hsame..|]. intros id. rewrite Hs, Ht. unfold selected. destruct (S !! id) as [d|]; [|done]. cbn. by destruct (isService d).
Qed.

Lemma brings_served calls S P Q Q' W : sets_tied S P Q W → brings calls (served S) Q' W → allowed_run calls W ∧ same_rest W (want_run calls W) ∧ sets_tied S P Q' (want_run calls W).
Proof.
  intros Ht (Hal&Hsame&Hs). split_and!; [done|apply Hsame..|]. intros id. rewrite Hs, Ht. unfold served. destruct (S !! id) as [d|]; [|done]. cbn. by destruct (isService d).
Qed.

(** A set that is added, and one that is removed. *)
Lemma add_tied S P Q W d uid : sets_tied S P Q W → S !! uid = None → P !!! uid = ∅ → Q !!! uid = ∅ → let add := CIPSetAdded uid (DataplaneProtocolType d) in
  allowed_run [add] W ∧ same_rest W (want_run [add] W) ∧ sets_tied (<[uid := d]> S) P Q (want_run [add] W).
Proof.
  intros Ht Hnone HP HQ add. split; [split; [cbn; by rewrite Ht, Hnone|done]|]. assert (HW : want_sets (want_run [add] W) = <[uid := (DataplaneProtocolType d, ∅)]> (want_sets W)) by (by destruct W).
  split; [by destruct W|]. intros id. rewrite HW. destruct (decide (id = uid)) as [->|Hne]; [|by rewrite !lookup_insert_ne].
  rewrite !lookup_insert_eq. cbn. rewrite HP, HQ. by destruct (isService d).
Qed.

Lemma remove_tied S P Q P' Q' W uid : sets_tied S P Q W → is_Some (S !! uid) → (∀ id, id ≠ uid → P' !!! id = P !!! id) → (∀ id, id ≠ uid → Q' !!! id = Q !!! id) →
  allowed_run [CIPSetRemoved uid] W ∧ same_rest W (want_run [CIPSetRemoved uid] W) ∧ sets_tied (delete uid S) P' Q' (want_run [CIPSetRemoved uid] W).
Proof.
  intros Ht Hsome HP HQ. split; [split; [cbn; rewrite Ht; by apply fmap_is_Some|done]|]. assert (HW : want_sets (want_run [CIPSetRemoved uid] W) = delete uid (want_sets W)) by (by destruct W).
  split; [by destruct W|]. intros id. rewrite HW. destruct (decide (id = uid)) as [->|Hne]; [by rewrite !lookup_delete_eq|]. rewrite !lookup_delete_ne, Ht, HP, HQ by done. done.
Qed.

(** Calls one after the other. *)
Lemma then_tied S S' P P' Q Q' W calls1 calls2 : allowed_run calls1 W ∧ same_rest W (want_run calls1 W) ∧ sets_tied S P Q (want_run calls1 W) →
  allowed_run calls2 (want_run calls1 W) ∧ same_rest (want_run calls1 W) (want_run calls2 (want_run calls1 W)) ∧ sets_tied S' P' Q' (want_run calls2 (want_run calls1 W)) →
  allowed_run (calls1 ++ calls2) W ∧ same_rest W (want_run (calls1 ++ calls2) W) ∧ sets_tied S' P' Q' (want_run (calls1 ++ calls2) W).
Proof.
  intros (Ha1&Hs1&_) (Ha2&Hs2&Ht2). rewrite allowed_run_app. unfold want_run in *. rewrite foldl_app. split_and!; [done|done|..]; [|done]. exact (same_rest_trans _ _ _ Hs1 Hs2).
Qed.
End tied.

(** ** The graph makes allowed calls *)
Section graph_calls.
Context {PT Config : Type} (Sum224 : string → string) (Marshal : ProtoRule → option string).
Context (HSum : ∀ s, String.length (Sum224 s) = 28%nat) (HMarshal : ∀ r, is_Some (Marshal r)).
Context (UpdateFrom : Config → option (gmap string string) → ConfigSource → option (Config * bool)) (hostname : string).
Abbreviation Want := (Want (PT := PT)).
Abbreviation allowed_run := (allowed_run (PT := PT) Sum224 Marshal UpdateFrom hostname).
Abbreviation brings := (brings (PT := PT) Sum224 Marshal UpdateFrom hostname).
Context (MakeUniqueID : string → string → string) (Hcf : collision_free MakeUniqueID).
Context (enumUIDs : gset string → list string) (HenumUIDs : ∀ s, enumUIDs s ≡ₚ elements s).
Context `{Countable EpID} (zeroID : EpID) (go : GoOrders EpID) `{!GoOrdersLaws go}.
Abbreviation Index := (SelectorAndNamedPortIndex (EpID := EpID)).
Abbreviation NOp := (NPOp (EpID := EpID)).
Abbreviation Services := (services.ServiceIndex * Sets)%type.
Abbreviation np_calls := (np_calls (PT := PT) zeroID go).
Implicit Types (W : Want) (dp : RuleClient) (idx : Index) (P Q : Sets) (w : World (EpID := EpID)) (S : gmap string IPSetData).

(** The set that an operation may bring. *)
Definition op_set (op : NOp) : option string := match op with OpUpdateIPSet id _ _ _ => Some id | _ => None end.

Lemma np_op_known (op : NOp) idx idx' : np_op zeroID go op (clear_events idx) = Ret idx' → (∀ s, op_set op = Some s → ipSetDataByID idx !! s = None) →
  Forall (λ e, op_set op = Some (event_id e) ∨ knownSet idx (event_id e)) (events idx').
Proof using Type.
  intros Hop Hnew. assert (Hemit : emits (clear_events idx) idx' → Forall (λ e, op_set op = Some (event_id e) ∨ knownSet idx (event_id e)) (events idx')).
  { intros [_ (es&->&Hf)]. eapply Forall_impl; [exact Hf|]. intros e He. by right. }
  destruct op as [e l n p pids|e|pid l|pid|s sel proto port|s]; cbn [np_op op_set] in *.
  - by eapply Hemit, UpdateEndpoint_emits.
  - by eapply Hemit, DeleteEndpoint_emits.
  - by eapply Hemit, UpdateParentLabels_emits.
  - by eapply Hemit, DeleteParentLabels_emits.
  - apply UpdateIPSet_events in Hop as (es&->&Hf); [|by apply Hnew]. eapply Forall_impl; [exact Hf|]. intros e [->|He]; [by left|by right].
  - apply DeleteIPSet_events in Hop as (es&->&Hf). eapply Forall_impl; [exact Hf|]. intros e He. by right.
Qed.

(** What the index knows is what the client of the rule scanner has. *)
Lemma known_set idx w dp s : world_rel MakeUniqueID (clear_events idx) w → sets_match w dp → knownSet idx s → selected (dp_sets dp) s = true.
Proof using Type.
  intros [_ _ Hs] Hm [sd Hsd]. specialize (Hs s). specialize (Hm s). cbn in Hs. rewrite Hsd in Hs. cbn in Hs. rewrite Hm in Hs. unfold selected. destruct (dp_sets dp !! s) as [d|]; [|done].
  cbn in *. unfold setSpec in Hs. unfold isService. destruct (decide (ips_Service d ≠ "")); [done|]. by rewrite bool_decide_eq_false_2.
Qed.

Lemma unknown_set idx w dp s : world_rel MakeUniqueID (clear_events idx) w → sets_match w dp → dp_sets dp !! s = None → ipSetDataByID idx !! s = None.
Proof using Type.
  intros [_ _ Hs] Hm Hn. specialize (Hs s). specialize (Hm s). cbn in Hs. rewrite Hn in Hm. cbn in Hm. rewrite Hm in Hs. by destruct (ipSetDataByID idx !! s).
Qed.

(** A set that the client does not have, or that is a service's, has no members. *)
Lemma no_members b B P idx w dp s : np_inv zeroID (b, P) B (clear_events idx) → world_rel MakeUniqueID (clear_events idx) w → sets_match w dp →
  dp_sets dp !! s ≫= setSpec = None → P !!! s = ∅.
Proof using Hcf.
  clear HSum HMarshal HenumUIDs GoOrdersLaws0. intros Hinv Hw Hm Hn. destruct (np_members zeroID MakeUniqueID (cf_hash MakeUniqueID Hcf) b B P idx w s Hinv Hw) as (X&HX&HP).
  assert (Hno : ∀ m, m ∉ X) by (intros m (sel&proto&port&?&?&?&?&?&Hs&_)%HX; rewrite (Hm s), Hn in Hs; done).
  apply set_eq. intros m. rewrite HP. split; [|by intros ?%not_elem_of_empty]. destruct b; [intros [Hin _]|intros Hin]; by apply Hno in Hin.
Qed.

Lemma tied_mine S P Q W : sets_tied S P Q W → (∀ id t X, want_sets W !! id = Some (t, X) → selected S id = true → X = P !!! id) ∧
  (∀ id t X, want_sets W !! id = Some (t, X) → served S id = true → X = Q !!! id) ∧ ∀ id, is_Some (S !! id) → is_Some (want_sets W !! id).
Proof using Type.
  intros Ht. unfold selected, served. split_and!; intros id *; rewrite Ht; destruct (S !! id) as [d|]; cbn; try done; try (by destruct 1); intros [= _ <-]; by destruct (isService d).
Qed.

Lemma selected_known S id : selected S id = true → is_Some (S !! id).
Proof using Type. unfold selected. by destruct (S !! id). Qed.
Lemma served_known S id : served S id = true → is_Some (S !! id).
Proof using Type. unfold served. by destruct (S !! id). Qed.

(** One operation of the index: [S] may have one more set, which the operation brings. *)
Lemma np_calls_ok P P' Q idx idx' w dp S W (op : NOp) : world_rel MakeUniqueID (clear_events idx) w → sets_match w dp →
  np_step zeroID go op (idx, P) = Ret (idx', P') → (∀ s, selected (dp_sets dp) s = true → selected S s = true) → (∀ s, op_set op = Some s → ipSetDataByID idx !! s = None ∧ selected S s = true) → sets_tied S P Q W →
  ∃ calls P1, np_calls op (idx, P) = Ret calls ∧ P' = match op with OpDeleteIPSet s => delete s P1 | _ => P1 end ∧ brings calls (selected S) P1 W.
Proof using Type.
  intros Hw Hm (i&Hi&(P1&Hr&[= <- <-])%obind_Ret)%obind_Ret Hsub Hnew Ht. cbn [fst snd] in *. exists (memberCall <$> events i), P1.
  split; [unfold RuleDataplane.np_calls; cbn [fst]; by rewrite Hi|]. split; [done|]. destruct (tied_mine S P Q W Ht) as (H1&_&H3). apply (member_calls_ok Sum224 Marshal UpdateFrom hostname _ _ P P1 W Hr H1).
  eapply Forall_impl; [apply (np_op_known op idx i Hi); intros s Hs; by apply Hnew|]. intros e He.
  assert (Hsel : selected S (event_id e) = true) by (destruct He as [Hs|Hk]; [by apply Hnew|by eapply Hsub, known_set]). split; [done|]. by apply H3, selected_known.
Qed.

(** ** The index of services *)
Definition svc_match (sw : SvcWorld) dp : Prop := ∀ uid, sw_sets sw !! uid = dp_sets dp !! uid ≫= λ d, if isService d then Some (ips_Service d) else None.

Lemma svc_served sw dp s : svc_match sw dp → is_Some (sw_sets sw !! s) ↔ served (dp_sets dp) s = true.
Proof using Type.
  intros Hm. rewrite Hm. unfold served. destruct (dp_sets dp !! s) as [d|]; cbn; [|split; [by intros []|done]]. destruct (isService d); [split; [done|by eexists]|split; [by intros []|done]].
Qed.

(** The state of the index of services. *)
Definition svc_inv (B : nat) (sv : Services) (sw : SvcWorld) : Prop := si_inv (services.clear_events sv.1) (sw_slices sw) (sw_sets sw) sv.2 ∧ total (sw_slices sw) <= B.

Lemma svc_calls_ok B sv sw P S W op : svc_inv B sv sw → si_op_ok sw op → small (B + si_weight op) → sets_tied S P sv.2 W →
  (∀ s, is_Some (sw_sets sw !! s) ∨ is_Some (sw_sets (svc_world sw op) !! s) → served S s = true) →
  ∃ calls sv', svc_calls (PT := PT) op sv = Ret calls ∧ si_step op sv = Ret sv' ∧ svc_inv (B + si_weight op) sv' (svc_world sw op) ∧ brings calls (served S) sv'.2 W.
Proof using Type.
  intros [Hinv HB] Hop Hsmall Ht Hserved. destruct sv as [idx Q]. cbn [fst snd] in *. destruct (si_op_step op idx sw Q B Hinv Hop HB Hsmall) as [(i&Q'&Hi&Hr&Hinv'&Hevs) HB'].
  exists (memberCall <$> services.events i), (services.clear_events i, Q'). unfold svc_calls, si_step. cbn [fst snd]. rewrite Hi. cbn [obind]. rewrite Hr. split_and!; [done|done|done|].
  cbn [snd]. destruct (tied_mine S P Q W Ht) as (_&H2&H3). apply (member_calls_ok Sum224 Marshal UpdateFrom hostname _ _ Q Q' W Hr H2).
  eapply Forall_impl; [exact Hevs|]. intros e He. specialize (Hserved _ He). split; [done|]. by apply H3, served_known.
Qed.

(** The rules of a policy as messages. *)
Definition asMessage (pr : ParsedRule) (o : ProtoRule) : Prop := ∃ id, o = set_RuleId id (parsedRuleToProtoRule pr).

Lemma rules_total rules seed : ∃ out, parsedRulesToProtoRules Sum224 Marshal rules seed = Ret out ∧ Forall2 asMessage rules out.
Proof using HSum HMarshal.
  clear -HSum HMarshal. unfold parsedRulesToProtoRules, fillInRuleIDs. edestruct (fillIn_total Sum224 Marshal HSum HMarshal (parsedRuleToProtoRule <$> rules) []) as (out&_&->&_&Hf).
  exists out. split; [done|]. apply Forall2_fmap_l in Hf. eapply Forall2_impl; [exact Hf|]. intros pr o (id&_&->). by exists id.
Qed.

Lemma policy_total k rules : ∃ p, ParsedRulesToActivePolicyUpdate Sum224 Marshal k rules = Ret p ∧
  Forall2 asMessage (prs_InboundRules rules) (pp_InboundRules p) ∧ Forall2 asMessage (prs_OutboundRules rules) (pp_OutboundRules p).
Proof using HSum HMarshal.
  clear -HSum HMarshal. unfold ParsedRulesToActivePolicyUpdate. edestruct rules_total as (i&->&Hi), rules_total as (o&->&Ho). eexists. split; [done|]. by split.
Qed.

Lemma profile_total n rules : ∃ p, profileToProto Sum224 Marshal n rules = Ret p ∧
  Forall2 asMessage (prs_InboundRules rules) (pf_InboundRules p) ∧ Forall2 asMessage (prs_OutboundRules rules) (pf_OutboundRules p).
Proof using HSum HMarshal.
  clear -HSum HMarshal. unfold profileToProto. edestruct rules_total as (i&->&Hi), rules_total as (o&->&Ho). eexists. split; [done|]. by split.
Qed.

(** The index follows an event (see [deliver_ok]). *)
Lemma event_index_ok b B P idx w dp dp' e :
  np_inv zeroID (b, P) B (clear_events idx) → world_rel MakeUniqueID (clear_events idx) w → small B → sets_match w dp → RuleScannerTrack.sets_ok MakeUniqueID (dp_sets dp) →
  RuleScannerTrack.event_ok MakeUniqueID e → hear MakeUniqueID dp e = Some dp' →
  ∃ op st', setOp (EpID := EpID) MakeUniqueID e = Ret op ∧ match op with Some op => np_step zeroID go op (idx, P) | None => Ret (idx, P) end = Ret st' ∧
    ∃ w', np_inv zeroID (b, st'.2) B (clear_events st'.1) ∧ world_rel MakeUniqueID (clear_events st'.1) w' ∧ sets_match w' dp' ∧ same_endpoints w w'.
Proof using Hcf GoOrdersLaws0.
  intros Hinv Hw HB Hm Hs He Hh. destruct (setOp_ok (EpID := EpID) MakeUniqueID Hcf dp e dp' w Hs He Hh Hm) as (op&Hop&Hrest). destruct op as [op|].
  - destruct Hrest as (Hok&Hwt&Hm1&Hsame). destruct (np_step_ok zeroID go MakeUniqueID P b B w idx op Hinv Hw) as (idx1&P1&Hstep&Hinv1&Hw1); [by rewrite Hwt, Nat.add_0_r|done|].
    rewrite Hwt, Nat.add_0_r in Hinv1. exists (Some op), (idx1, P1). split_and!; [done|done|]. by exists (world_step w op).
  - exists None, (idx, P). split_and!; [done|done|]. by exists w.
Qed.

(** The index of services follows an event. *)
Lemma svcOp_ok r dp e dp' sw : RuleScannerTrack.sets_ok MakeUniqueID (dp_sets dp) → RuleScannerTrack.event_ok MakeUniqueID e → hear MakeUniqueID dp e = Some dp' → svc_match sw dp →
  ∃ sop, svcOp MakeUniqueID r e = Ret sop ∧
    match sop with Some sop => si_op_ok sw sop ∧ si_weight sop = 0%nat ∧ svc_match (svc_world sw sop) dp' ∧ sw_slices (svc_world sw sop) = sw_slices sw | None => svc_match sw dp' end.
Proof using Hcf.
  clear -Hcf. intros Hs He Hh Hm. destruct e as [d|d|k prs|k]; cbn [hear RuleScannerTrack.event_ok svcOp] in *; [| |exists None; injection Hh as <-; done..].
  - rewrite (UniqueID_ok _ d He) in *. cbn [obind]. set (uid := uid_of MakeUniqueID d) in *. destruct (decide (dp_sets dp !! uid = None)) as [Hnone|]; [|done]. injection Hh as <-. unfold svc_match, isService in *. cbn.
    assert (Hn : sw_sets sw !! uid = None) by (by rewrite Hm, Hnone). destruct (decide (ips_Service d ≠ "")) as [Hsvc|Hsvc].
    + eexists. split; [done|]. cbn. split_and!; [intros svc'; by rewrite Hn|done| |done]. intros u. destruct (decide (u = uid)) as [->|Hne]; [|by rewrite !lookup_insert_ne].
      rewrite !lookup_insert_eq. cbn. by rewrite bool_decide_eq_true_2.
    + exists None. split; [done|]. intros u. rewrite Hm. destruct (decide (u = uid)) as [->|Hne]; [|by rewrite lookup_insert_ne]. rewrite Hnone, lookup_insert_eq. cbn. by rewrite bool_decide_eq_false_2.
  - rewrite (UniqueID_ok _ d He) in *. cbn [obind]. set (uid := uid_of MakeUniqueID d) in *. destruct (decide (dp_sets dp !! uid = None)) as [|Hsome]; [done|]. injection Hh as <-.
    destruct (dp_sets dp !! uid) as [d'|] eqn:Hd'; [|done]. destruct (Hs uid d' Hd') as [Hu Ho]. rewrite (UniqueID_ok _ d' Ho) in Hu. injection Hu as Hu.
    pose proof (service_kind MakeUniqueID Hcf d d' He Ho (eq_sym Hu)) as Hk. unfold svc_match, isService in *. cbn. destruct (decide (ips_Service d ≠ "")) as [Hsvc|Hsvc].
    + eexists. split; [done|]. cbn. split_and!; [done|done| |done]. intros u. destruct (decide (u = uid)) as [->|Hne]; [by rewrite !lookup_delete_eq|by rewrite !lookup_delete_ne].
    + exists None. split; [done|]. intros u. rewrite Hm. destruct (decide (u = uid)) as [->|Hne]; [|by rewrite lookup_delete_ne]. rewrite Hd', lookup_delete_eq. cbn.
      rewrite bool_decide_eq_false_2; [done|]. destruct (decide (ips_Service d = "")); tauto.
Qed.

(** A set that is not there has no members in either index. *)
Lemma fresh_members b B B2 P sv sw idx w dp s : np_inv zeroID (b, P) B (clear_events idx) → world_rel MakeUniqueID (clear_events idx) w → sets_match w dp → svc_inv B2 sv sw → svc_match sw dp →
  dp_sets dp !! s = None → P !!! s = ∅ ∧ sv.2 !!! s = ∅.
Proof using Hcf.
  clear HSum HMarshal HenumUIDs GoOrdersLaws0. intros Hinv Hw Hm [Hsi _] Hsm Hn. split; [eapply no_members; [done..|by rewrite Hn]|]. eapply si_none; [exact Hsi|]. by rewrite Hsm, Hn.
Qed.

(** An IP set becomes active: the set, and then its members. *)
Lemma active_calls_ok b B B2 P idx w dp W d op sop sv sw r st' : let uid := uid_of MakeUniqueID d in let add := CIPSetAdded uid (DataplaneProtocolType d) in
  np_inv zeroID (b, P) B (clear_events idx) → world_rel MakeUniqueID (clear_events idx) w → sets_match w dp → svc_inv B2 sv sw → small B2 → svc_match sw dp →
  tied dp P sv.2 W → dp_sets dp !! uid = None →
  (if isService d then op = None ∧ sop = Some (SiUpdateIPSet r uid (ips_Service d)) ∧ svc_match (svc_world sw (SiUpdateIPSet r uid (ips_Service d))) (RuleScannerTrack.MkDataplane (<[uid := d]> (dp_sets dp)) (dp_rules dp))
   else (∃ op', op = Some op' ∧ op_set op' = Some uid) ∧ sop = None) →
  match op with Some op => np_step zeroID go op (idx, P) | None => Ret (idx, P) end = Ret st' →
  ∃ members sv', memberCalls (PT := PT) zeroID go op sop (idx, P) sv = Ret members ∧ match sop with Some sop => si_step sop sv | None => Ret sv end = Ret sv' ∧
    svc_inv B2 sv' (from_option (svc_world sw) sw sop) ∧
    allowed_run (add :: members) W ∧ tied (RuleScannerTrack.MkDataplane (<[uid := d]> (dp_sets dp)) (dp_rules dp)) st'.2 sv'.2 (want_run (add :: members) W).
Proof using Hcf.
  intros uid add Hinv Hw Hm Hsv HB2 Hsm Ht Hnone Hkind Hstep. destruct (fresh_members b B B2 P sv sw idx w dp uid Hinv Hw Hm Hsv Hsm Hnone) as [HP HQ].
  pose proof (add_tied Sum224 Marshal UpdateFrom hostname _ _ _ W d uid (td_sets _ _ _ _ Ht) Hnone HP HQ) as Hadd. cbn zeta in Hadd. fold add in Hadd. pose proof Hadd as (_&_&Hadd1).
  destruct (isService d) eqn:Hd.
  - destruct Hkind as (->&->&Hsm'). injection Hstep as <-. set (sop := SiUpdateIPSet r uid (ips_Service d)) in *.
    destruct (svc_calls_ok B2 sv sw P (<[uid := d]> (dp_sets dp)) (want_run [add] W) sop Hsv) as (calls&sv'&Hcalls&Hsstep&Hsv'&Hb); [|by rewrite Nat.add_0_r|exact Hadd1| |].
    + intros svc'. by rewrite Hsm, Hnone.
    + intros s [Hs|Hs]; [|by apply (svc_served _ _ _ Hsm')]. apply (svc_served _ _ _ Hsm'). cbn. by apply is_Some_insert.
    + exists calls, sv'. cbn [memberCalls]. split_and!; [done|done|by rewrite Nat.add_0_r in Hsv'|..]; apply (brings_served _ _ _ _ _ _ _ _ _ _ Hadd1) in Hb.
      all: destruct (then_tied Sum224 Marshal UpdateFrom hostname _ _ _ _ _ _ _ _ _ Hadd Hb) as (Hal&Hsame&Hst); first [exact Hal|by eapply (tied_rest dp _ P sv.2)].
  - destruct Hkind as [(op'&->&Hop) ->]. destruct st' as [idx' P'].
    destruct (np_calls_ok P P' sv.2 idx idx' w dp (<[uid := d]> (dp_sets dp)) (want_run [add] W) op' Hw Hm Hstep) as (calls&P1&Hcalls&HP'&Hb); [| |exact Hadd1|].
    + intros s. unfold selected. destruct (decide (s = uid)) as [->|Hne]; [by rewrite Hnone|by rewrite lookup_insert_ne].
    + rewrite Hop. intros s [= <-]. split; [by eapply unknown_set|]. unfold selected. rewrite lookup_insert_eq. cbn. by rewrite Hd.
    + assert (P' = P1) as -> by (by destruct op'). exists calls, sv. cbn [memberCalls]. split_and!; [done|done|done|..]; apply (brings_selected _ _ _ _ _ _ _ _ _ _ Hadd1) in Hb.
      all: destruct (then_tied Sum224 Marshal UpdateFrom hostname _ _ _ _ _ _ _ _ _ Hadd Hb) as (Hal&Hsame&Hst); first [exact Hal|by eapply (tied_rest dp _ P sv.2)].
Qed.

(** An IP set becomes inactive: its members, and then the set. *)
Lemma inactive_calls_ok B2 P idx w dp W uid op sop sv sw r st' :
  world_rel MakeUniqueID (clear_events idx) w → sets_match w dp → svc_inv B2 sv sw → small B2 → svc_match sw dp →
  tied dp P sv.2 W → is_Some (dp_sets dp !! uid) → (op = None ∧ sop = Some (SiDeleteIPSet r uid) ∨ op = Some (OpDeleteIPSet uid) ∧ sop = None) →
  match op with Some op => np_step zeroID go op (idx, P) | None => Ret (idx, P) end = Ret st' →
  ∃ members sv', memberCalls (PT := PT) zeroID go op sop (idx, P) sv = Ret members ∧ match sop with Some sop => si_step sop sv | None => Ret sv end = Ret sv' ∧
    svc_inv B2 sv' (from_option (svc_world sw) sw sop) ∧
    allowed_run (members ++ [CIPSetRemoved uid]) W ∧ tied (RuleScannerTrack.MkDataplane (delete uid (dp_sets dp)) (dp_rules dp)) st'.2 sv'.2 (want_run (members ++ [CIPSetRemoved uid]) W).
Proof using Type.
  intros Hw Hm Hsv HB2 Hsm Ht Hsome Hkind Hstep. pose proof (td_sets _ _ _ _ Ht) as Hts. destruct Hkind as [[-> ->]|[-> ->]].
  - injection Hstep as <-. destruct (svc_calls_ok B2 sv sw P (dp_sets dp) W (SiDeleteIPSet r uid) Hsv) as (calls&sv'&Hcalls&Hsstep&Hsv'&Hb); [done|by rewrite Nat.add_0_r|exact Hts| |].
    + intros s [Hs|Hs]; apply (svc_served _ _ _ Hsm); [done|]. cbn in Hs. destruct Hs as [svc [_ Hs]%lookup_delete_Some]. by eexists.
    + exists calls, sv'. cbn [memberCalls]. split_and!; [done|done|by rewrite Nat.add_0_r in Hsv'|..]; apply (brings_served _ _ _ _ _ _ _ _ _ _ Hts) in Hb; pose proof Hb as (_&_&Hb1).
      all: destruct (then_tied Sum224 Marshal UpdateFrom hostname _ _ _ _ _ _ _ _ _ Hb (remove_tied Sum224 Marshal UpdateFrom hostname _ _ _ P sv'.2 _ uid Hb1 Hsome ltac:(done) ltac:(done))) as (Hal&Hsame&Hst).
      all: first [exact Hal|by eapply (tied_rest dp _ P sv.2)].
  - destruct st' as [idx' P']. destruct (np_calls_ok P P' sv.2 idx idx' w dp (dp_sets dp) W (OpDeleteIPSet uid) Hw Hm Hstep) as (calls&P1&Hcalls&->&Hb); [done|done|exact Hts|].
    exists calls, sv. cbn [memberCalls]. split_and!; [done|done|done|..]; apply (brings_selected _ _ _ _ _ _ _ _ _ _ Hts) in Hb; pose proof Hb as (_&_&Hb1).
    all: destruct (then_tied Sum224 Marshal UpdateFrom hostname _ _ _ _ _ _ _ _ _ Hb (remove_tied Sum224 Marshal UpdateFrom hostname _ _ _ (delete uid P1) sv.2 _ uid Hb1 Hsome
        ltac:(intros id Hne; by rewrite lookup_total_delete_ne) ltac:(done))) as (Hal&Hsame&Hst).
    all: first [exact Hal|by eapply (tied_rest dp _ P sv.2)].
Qed.

(** The two indexes never both have something to do. *)
Lemma which_index r d : ips_ok MakeUniqueID d → let uid := uid_of MakeUniqueID d in
  setOp (EpID := EpID) MakeUniqueID (OnIPSetActive d) = Ret (if isService d then None else (λ sel, OpUpdateIPSet uid sel (ips_NamedPortProtocol d) (ips_NamedPort d)) <$> ips_Selector d) ∧
  svcOp MakeUniqueID r (OnIPSetActive d) = Ret (if isService d then Some (SiUpdateIPSet r uid (ips_Service d)) else None) ∧
  setOp (EpID := EpID) MakeUniqueID (OnIPSetInactive d) = Ret (if isService d then None else Some (OpDeleteIPSet uid)) ∧
  svcOp MakeUniqueID r (OnIPSetInactive d) = Ret (if isService d then Some (SiDeleteIPSet r uid) else None) ∧ (isService d = false → is_Some (ips_Selector d)).
Proof using Type.
  intros Hd uid. cbn [setOp svcOp]. rewrite (UniqueID_ok _ d Hd). cbn [obind]. unfold isService, ips_ok in *. destruct (decide (ips_Service d ≠ "")) as [Hs|Hs].
  - by rewrite bool_decide_eq_true_2.
  - rewrite bool_decide_eq_false_2 by done. destruct (ips_Selector d); [by split_and!|tauto].
Qed.

(** One callback of the rule scanner. *)
Definition event_after b B B2 dp' W w sw calls (st' : Index * Sets) (sv' : Services) : Prop :=
  allowed_run calls W ∧ tied dp' st'.2 sv'.2 (want_run calls W) ∧
  (∃ w', np_inv zeroID (b, st'.2) B (clear_events st'.1) ∧ world_rel MakeUniqueID (clear_events st'.1) w' ∧ sets_match w' dp' ∧ same_endpoints w w') ∧
  ∃ sw', svc_inv B2 sv' sw' ∧ svc_match sw' dp' ∧ sw_slices sw' = sw_slices sw.

Lemma rules_calls_ok dp dp' P Q W k (prs : option ParsedRules) : tied dp P Q W → let e := match prs with Some prs => OnRulesActive k prs | None => OnRulesInactive k end in
  hear MakeUniqueID dp e = Some dp' → ∃ calls, eventCalls (PT := PT) MakeUniqueID e [] = Ret calls ∧ allowed_run calls W ∧ tied dp' P Q (want_run calls W).
Proof using HSum HMarshal.
  intros [Hts Htp Htq Hte] e Hh. destruct prs as [prs|]; injection Hh as <-; destruct k as [k|n]; (eexists; split; [done|]; split; [split; [|done]|]).
  - destruct (policy_total k prs) as (p&Hp&_). by exists p.
  - destruct W. split; cbn in *; [done|intros k'|intros n; by rewrite lookup_insert_ne|done]. rewrite !lookup_insert, Htp. by destruct (decide (k = k')), (decide (inl (B := string) k = inl k')); simplify_eq.
  - destruct (profile_total n prs) as (p&Hp&_). by exists p.
  - destruct W. split; cbn in *; [done|intros k; by rewrite lookup_insert_ne|intros n'|done]. rewrite !lookup_insert, Htq. by destruct (decide (n = n')), (decide (inr (A := PolicyKey) n = inr n')); simplify_eq.
  - done.
  - destruct W. split; cbn in *; [done|intros k'|intros n; by rewrite lookup_delete_ne|done]. rewrite !lookup_delete, Htp. by destruct (decide (k = k')), (decide (inl (B := string) k = inl k')); simplify_eq.
  - done.
  - destruct W. split; cbn in *; [done|intros k; by rewrite lookup_delete_ne|intros n'|done]. rewrite !lookup_delete, Htq. by destruct (decide (n = n')), (decide (inr (A := PolicyKey) n = inr n')); simplify_eq.
Qed.

Lemma event_calls_ok r b B B2 P idx w sv sw dp dp' W e :
  np_inv zeroID (b, P) B (clear_events idx) → world_rel MakeUniqueID (clear_events idx) w → small B → sets_match w dp → svc_inv B2 sv sw → small B2 → svc_match sw dp →
  RuleScannerTrack.sets_ok MakeUniqueID (dp_sets dp) → RuleScannerTrack.event_ok MakeUniqueID e → hear MakeUniqueID dp e = Some dp' → tied dp P sv.2 W →
  ∃ op sop members calls st' sv', setOp MakeUniqueID e = Ret op ∧ svcOp MakeUniqueID r e = Ret sop ∧ memberCalls (PT := PT) zeroID go op sop (idx, P) sv = Ret members ∧ eventCalls MakeUniqueID e members = Ret calls ∧
    match op with Some op => np_step zeroID go op (idx, P) | None => Ret (idx, P) end = Ret st' ∧ match sop with Some sop => si_step sop sv | None => Ret sv end = Ret sv' ∧ event_after b B B2 dp' W w sw calls st' sv'.
Proof using Hcf GoOrdersLaws0 HSum HMarshal.
  intros Hinv Hw HB Hm Hsv HB2 Hsm Hs He Hh Ht. destruct (event_index_ok b B P idx w dp dp' e Hinv Hw HB Hm Hs He Hh) as (op&st'&Hop&Hstep&Hafter).
  destruct (svcOp_ok r dp e dp' sw Hs He Hh Hsm) as (sop&Hsop&Hsafter). exists op, sop.
  assert (Hsw : svc_match (from_option (svc_world sw) sw sop) dp' ∧ sw_slices (from_option (svc_world sw) sw sop) = sw_slices sw) by (destruct sop; [by destruct Hsafter as (_&_&?)|done]). destruct Hsw as [Hsw1 Hsw2].
  destruct e as [d|d|k prs|k]; cbn [hear RuleScannerTrack.event_ok] in *.
  - destruct (which_index r d He) as (Ho&Hso&_&_&Hsel). rewrite Hop in Ho. rewrite Hsop in Hso. injection Ho as Eop. injection Hso as Esop. rewrite (UniqueID_ok _ d He) in Hh.
    destruct (decide (dp_sets dp !! uid_of MakeUniqueID d = None)) as [Hnone|]; [|done]. injection Hh as <-.
    destruct (active_calls_ok b B B2 P idx w dp W d op sop sv sw r st' Hinv Hw Hm Hsv HB2 Hsm Ht Hnone)
      as (members&sv'&Hmem&Hss&Hsv'&Hal&Ht'); [|exact Hstep|].
    { subst op sop. destruct (isService d); [by split_and!|]. destruct (Hsel eq_refl) as [sel ->]. split; [by eexists|done]. }
    eexists members, _, st', sv'. cbn [eventCalls]. rewrite (UniqueID_ok _ d He). split_and!; [done..|]. split_and!; [done|done|done|by eexists].
  - destruct (which_index r d He) as (_&_&Ho&Hso&_). rewrite Hop in Ho. rewrite Hsop in Hso. injection Ho as Eop. injection Hso as Esop. rewrite (UniqueID_ok _ d He) in Hh.
    destruct (decide (dp_sets dp !! uid_of MakeUniqueID d = None)) as [|Hsome]; [done|]. injection Hh as <-. apply not_eq_None_Some in Hsome.
    destruct (inactive_calls_ok B2 P idx w dp W (uid_of MakeUniqueID d) op sop sv sw r st' Hw Hm Hsv HB2 Hsm Ht Hsome)
      as (members&sv'&Hmem&Hss&Hsv'&Hal&Ht'); [|exact Hstep|].
    { subst op sop. destruct (isService d); [by left|by right]. }
    eexists members, _, st', sv'. cbn [eventCalls]. rewrite (UniqueID_ok _ d He). split_and!; [done..|]. split_and!; [done|done|done|by eexists].
  - injection Hop as <-. injection Hsop as <-. injection Hstep as <-. destruct (rules_calls_ok dp dp' P sv.2 W k (Some prs) Ht Hh) as (calls&Hc&Hal&Ht'). exists [], calls, (idx, P), sv.
    split_and!; [done..|]. split_and!; [done|done|done|by exists sw].
  - injection Hop as <-. injection Hsop as <-. injection Hstep as <-. destruct (rules_calls_ok dp dp' P sv.2 W k None Ht Hh) as (calls&Hc&Hal&Ht'). exists [], calls, (idx, P), sv.
    split_and!; [done..|]. split_and!; [done|done|done|by exists sw].
Qed.

(** All callbacks of one input. *)
Lemma deliverCalls_ok r es : ∀ dp dp' b B B2 P idx w sv sw W,
  RuleScannerTrack.sets_ok MakeUniqueID (dp_sets dp) → Forall (RuleScannerTrack.event_ok MakeUniqueID) es → hearAll MakeUniqueID es dp = Some dp' → sets_match w dp →
  np_inv zeroID (b, P) B (clear_events idx) → world_rel MakeUniqueID (clear_events idx) w → small B → svc_inv B2 sv sw → small B2 → svc_match sw dp → tied dp P sv.2 W →
  ∃ calls st' sv' sw', deliverCalls (PT := PT) MakeUniqueID zeroID go r es (idx, P) sv = Ret (calls, sv') ∧ deliver MakeUniqueID zeroID go es (idx, P) = Ret st' ∧
    allowed_run calls W ∧ tied dp' st'.2 sv'.2 (want_run calls W) ∧ svc_inv B2 sv' sw' ∧ svc_match sw' dp' ∧ sw_slices sw' = sw_slices sw.
Proof using Hcf GoOrdersLaws0 HSum HMarshal.
  induction es as [|e es IH]; intros dp dp' b B B2 P idx w sv sw W Hs He Hh Hm Hinv Hw HB Hsv HB2 Hsm Ht; cbn [hearAll deliver deliverCalls] in *.
  { injection Hh as <-. by exists [], (idx, P), sv, sw. }
  apply list.Forall_cons in He as [He Hes]. destruct (hear MakeUniqueID dp e) as [dp1|] eqn:Hhear; [|done].
  destruct (event_calls_ok r b B B2 P idx w sv sw dp dp1 W e Hinv Hw HB Hm Hsv HB2 Hsm Hs He Hhear Ht)
    as (op&sop&members&calls&[idx1 P1]&sv1&->&->&Hmem&Hcalls&Hstep&Hsstep&Hal&Ht1&(w1&Hinv1&Hw1&Hm1&_)&sw1&Hsv1&Hsm1&Hsl1).
  destruct (IH dp1 dp' b B B2 P1 idx1 w1 sv1 sw1 _ (hear_ok _ _ _ _ Hs He Hhear) Hes Hh Hm1 Hinv1 Hw1 HB Hsv1 HB2 Hsm1 Ht1) as (rest&st'&sv'&sw'&Hrest&Hdel&Hal2&Ht2&Hsv2&Hsm2&Hsl2).
  exists (calls ++ rest), st', sv', sw'. cbn [obind]. rewrite Hmem, Hstep. cbn [obind]. rewrite Hcalls. cbn [obind]. rewrite Hsstep. cbn [obind]. rewrite Hrest.
  split_and!; [done|done|by rewrite allowed_run_app| |done|done|congruence]. unfold want_run in *. by rewrite foldl_app.
Qed.

(** One input. *)
Lemma rg_calls_ok r b B B2 (g g' : RuleGraph (EpID := EpID)) w a sv sw W op :
  rg_inv MakeUniqueID zeroID b B g w a → rg_op_ok MakeUniqueID op → small (B + rg_weight op) → svc_inv B2 sv sw → small B2 → svc_match sw (rg_dataplane g) →
  tied (rg_dataplane g) (rg_members g) sv.2 W → rg_step MakeUniqueID enumUIDs zeroID go op g = Ret g' →
  ∃ calls sv' sw', rg_calls (PT := PT) MakeUniqueID enumUIDs zeroID go r op g sv = Ret (calls, sv') ∧ allowed_run calls W ∧ tied (rg_dataplane g') (rg_members g') sv'.2 (want_run calls W) ∧
    svc_inv B2 sv' sw' ∧ svc_match sw' (rg_dataplane g') ∧ sw_slices sw' = sw_slices sw.
Proof using Hcf HenumUIDs GoOrdersLaws0 HSum HMarshal.
  intros (Ht&Hn&w'&Hsame&Hm&Hinv&Hw) Hop HB Hsv HB2 Hsm Htied Hstep. destruct op as [op|op]; cbn [rg_step rg_op_ok rg_weight rg_calls] in *.
  - rewrite Nat.add_0_r in HB. destruct (rs_step_ok MakeUniqueID enumUIDs HenumUIDs _ _ a op Ht Hop) as (rs'&dp'&Hrs&(es&Hes&Heok&Hhear)&_). rewrite Hrs in *. cbn [obind] in *.
    rewrite Hes, drop_app_length in *.
    destruct (deliverCalls_ok r es _ _ b B B2 _ _ w' sv sw W (tracks_sets _ _ _ _ Ht) Heok Hhear Hm Hinv Hw HB Hsv HB2 Hsm Htied) as (calls&[idx' P']&sv'&sw'&Hcalls&Hdel&Hal&Ht'&Hrest).
    rewrite Hdel in Hstep. cbn [obind] in Hstep. rewrite Hhear in Hstep. injection Hstep as <-. by exists calls, sv', sw'.
  - apply obind_Ret in Hstep as ([idx' P']&Hstep&[= <-]). destruct Hop as [_ Hkind]. pose proof (td_sets _ _ _ _ Htied) as Hts.
    destruct (np_calls_ok _ P' sv.2 _ idx' w' (rg_dataplane g) (dp_sets (rg_dataplane g)) W op Hw Hm Hstep) as (calls&P1&Hcalls&HP'&Hb); [done|intros s Hs; by destruct op|done|].
    apply (brings_selected _ _ _ _ _ _ _ _ _ _ Hts) in Hb as (Hal&Hrest&Hsets). exists calls, sv, sw. rewrite Hcalls. split_and!; [done|done| |done|done|done]. assert (P' = P1) as -> by (by destruct op).
    cbn. pose proof (tied_rest _ _ _ _ _ _ _ _ Htied Hrest Hsets) as Hres. by destruct (rg_dataplane g).
Qed.
End graph_calls.

(** ** What a flush needs *)
Section flush.
Context {PT : Type} (MakeUniqueID : string → string → string) (Hcf : collision_free MakeUniqueID).
Context `{Countable EpID} (zeroID : EpID).
Abbreviation Want := (Want (PT := PT)).
Abbreviation rg_inv := (rg_inv MakeUniqueID zeroID).
Implicit Types (W : Want) (g : RuleGraph (EpID := EpID)) (w : World (EpID := EpID)).

(** A port is 16 bits wide. *)
Definition ports_okay w : Prop := ∀ e own nets ports pids, w_endpoints w !! e = Some (own, nets, ports, pids) → Forall (λ p, 0 <= ep_Port p < 65536)%Z ports.

Lemma ProtocolFrom_three mp pr : ProtocolFrom mp = Ret pr → pr = ProtocolTCP ∨ pr = ProtocolUDP ∨ pr = ProtocolSCTP.
Proof using Type.
  unfold ProtocolFrom. intros ([]&_&Hr)%obind_Ret; [injection Hr as <-; auto|]. apply obind_Ret in Hr as ([]&_&[= <-]); auto.
Qed.

Lemma offers_text proto port nets ports m : Forall net_ok nets → Forall (λ p, 0 <= ep_Port p < 65536)%Z ports → offers proto port nets ports m → NetString.member_ok m.
Proof using Type.
  rewrite !list.Forall_forall. intros Hn Hp. unfold offers. destruct (decide _).
  - intros (c&Hc&->). specialize (Hn c Hc). unfold MakeCIDROrIPOnly, MakeSingleIP. destruct (IsSingleAddress c) eqn:Hs; [|done]. by destruct (net_ok_unmapped c Hn) as (?&?&_).
  - intros (c&p&pr&Hc&Hin&_&_&Hpr&->). destruct (ProtocolFrom_ok (ep_Protocol p)) as (pr'&Hpr'&Hne). assert (pr' = pr) as -> by congruence. rewrite MakeIPPortProto_ports by done.
    destruct (net_ok_unmapped c (Hn c Hc)) as (?&?&_). specialize (Hp p Hin). cbn. split_and!; [done|done|lia|by eapply ProtocolFrom_three].
Qed.

(** The addresses of slices are not CIDRs. *)
Definition slice_ok (es : EndpointSlice) : Prop := Forall (λ ep, Forall (λ addr, lacks "/"%char addr = true) (se_Addresses ep)) (es_Endpoints es).
Definition slices_okay (slices : Slices) : Prop := ∀ k es, slices !! k = Some es → slice_ok es.

Lemma slice_text es b m : slice_ok es → m ∈ services.membersFromEndpointSlice (Some es) b → NetString.member_ok m.
Proof using Type.
  unfold slice_ok. setoid_rewrite list.Forall_forall. intros Hok. setoid_rewrite list.Forall_forall in Hok. unfold services.membersFromEndpointSlice. destruct b; intros (ep&Hm&Hep)%list_elem_of_bind.
  - apply list_elem_of_bind in Hm as (p&Hm&_). unfold services.portMembers in Hm. destruct (slp_Port p) as [port|]; [|by apply elem_of_nil in Hm]. apply list_elem_of_bind in Hm as (addr&Hm&_).
    destruct (FromString addr) as [x|] eqn:Hx; [|by apply elem_of_nil in Hm]. apply list_elem_of_singleton in Hm as ->. destruct (FromString_ok _ _ Hx) as [Ha Hu].
    assert (Hpr : services.portProtocol p = ProtocolTCP ∨ services.portProtocol p = ProtocolUDP ∨ services.portProtocol p = ProtocolSCTP) by (unfold services.portProtocol; repeat case_match; auto).
    rewrite MakeIPPortProto_ports by (by destruct Hpr as [->|[->| ->]]). cbn. split_and!; [done|done| |done]. by apply Z.mod_pos_bound.
  - unfold services.netMembers in Hm. apply list_elem_of_bind in Hm as (addr&Hm&Haddr). rewrite ParseCIDROrIP_plain in Hm by (by eapply Hok).
    destruct (FromString addr) as [x|] eqn:Hx; [|by apply elem_of_nil in Hm]. apply list_elem_of_singleton in Hm as ->. destruct (FromString_ok _ _ Hx) as [Ha Hu]. unfold MakeCIDROrIPOnly, MakeSingleIP. by destruct x.
Qed.

Lemma graph_sets_valid b B B2 g w a sv sw W : rg_inv b B g w a → ports_okay w → svc_inv B2 sv sw → slices_okay (sw_slices sw) → tied (rg_dataplane g) (rg_members g) sv.2 W → sets_valid (want_sets W).
Proof using Hcf.
  intros Hinv Hp [Hsi _] Hsl Ht id t X m HX Hm. rewrite (td_sets _ _ _ _ Ht) in HX. destruct (dp_sets (rg_dataplane g) !! id) as [d|] eqn:Hd; [|done]. injection HX as _ <-. unfold isService in Hm.
  case_bool_decide as Hs; [apply (si_members _ _ _ _ _ _ Hsi) in Hm as (svc&_&k&es&Hk&_&Hm); by eapply slice_text; [by eapply Hsl|]|].
  assert (Hs' : ips_Service d = "") by (destruct (decide (ips_Service d = "")); tauto).
  destruct (graph_members MakeUniqueID Hcf zeroID (λ _ _ _, False) b B g w a id d Hinv Hd Hs') as (Y&_&HY&HP). apply HP in Hm. assert (HmY : m ∈ Y) by (destruct b; [by destruct Hm|done]).
  apply HY in HmY. unfold setMember in HmY. destruct (ips_Selector d); [|done]. destruct HmY as (e&own&nets&ports&pids&He&_&Ho). destruct Hinv as (_&Hn&_).
  eapply offers_text; [|by eapply Hp|exact Ho]. by eapply Hn.
Qed.

Lemma graph_closed b B g w a Q W : rg_inv b B g w a → tied (rg_dataplane g) (rg_members g) Q W → closed_want W.
Proof using Type.
  intros ([Hri _ Hnamed]&_) [Hs Hp Hq He].
  assert (Hall : ∀ k prs id, dp_rules (rg_dataplane g) !! k = Some prs → id ∈ rulesSets prs → is_Some (want_sets W !! id)).
  { intros k prs id Hk (pr&Hid&Hpr)%list_elem_of_bind. rewrite Hs. apply fmap_is_Some. rewrite (ri_client _ _ _ Hri), (ri_live _ _ _ Hri). exists k.
    apply (ri_inverse _ _ _ Hri), Hnamed. exists prs. split; [done|]. by exists pr. }
  split; intros k x id; rewrite ?Hp, ?Hq, ?He, ?lookup_empty; [apply Hall|apply Hall|done|done].
Qed.
End flush.

(** ** What the message of a rule says *)
(** One side of a message: the packet's end is in all IP sets and in none of the negated ones, and its port
    in one of the ranges or sets of named ports and in none of the negated ones. *)
Definition inPortRange (p : PortRange) (port : Z) : Prop := (First p <= port <= Last p)%Z.

Definition messageSideMatches (C : string → IPSetMember → Prop) (sets : list string) (ports : list PortRange) (named notSets : list string) (notPorts : list PortRange) (notNamed : list string) (x : PacketEnd) : Prop :=
  (∀ uid, uid ∈ sets → inSet C uid (end_addr x)) ∧
  (ports ≠ [] ∨ named ≠ [] → (∃ p, p ∈ ports ∧ inPortRange p (end_port x)) ∨ ∃ uid, uid ∈ named ∧ inPortSet C uid x) ∧
  (∀ uid, uid ∈ notSets → ¬ inSet C uid (end_addr x)) ∧
  (∀ p, p ∈ notPorts → ¬ inPortRange p (end_port x)) ∧
  (∀ uid, uid ∈ notNamed → ¬ inPortSet C uid x).

Definition messageMatches (C : string → IPSetMember → Prop) (o : ProtoRule) (pk : Packet) : Prop :=
  messageSideMatches C (pr_SrcIpSetIds o) (pr_SrcPorts o) (pr_SrcNamedPortIpSetIds o) (pr_NotSrcIpSetIds o) (pr_NotSrcPorts o) (pr_NotSrcNamedPortIpSetIds o) (srcEnd pk) ∧
  messageSideMatches C (pr_DstIpSetIds o) (pr_DstPorts o) (pr_DstNamedPortIpSetIds o) (pr_NotDstIpSetIds o) (pr_NotDstPorts o) (pr_NotDstNamedPortIpSetIds o) (dstEnd pk) ∧
  ∀ uid, uid ∈ pr_DstIpPortSetIds o → inPortSet C uid (dstEnd pk).

(** The fields that no IP set stands for, each against the rule. *)
Definition says_protocol (p : option ModelProtocol) (o : option ProtoProtocol) : Prop :=
  match p, o with
  | None, None => True
  | Some p, Some (Protocol_Number n) => Type_ p = NumOrStringNum ∧ n = NumVal p
  | Some p, Some (Protocol_Name s) => Type_ p = NumOrStringString ∧ s = StrVal p
  | _, _ => False
  end.

(** The IP version of the rule; without one, the version that the name of an ICMP protocol tells. *)
Definition is_version (version : option Z) (p : option ModelProtocol) (v : Z) (name : string) : Prop :=
  version = Some v ∨ (version = None ∧ ∃ q, p = Some q ∧ Type_ q = NumOrStringString ∧ StrVal q = name).

(** A code without a type is not sent. *)
Definition says_icmp (type_ code : option Z) (o : option ProtoIcmp) : Prop :=
  match type_, o with
  | None, None => True
  | Some t, Some (IcmpType t') => t' = t ∧ code = None
  | Some t, Some (IcmpTypeCode t' c) => t' = t ∧ code = Some c
  | _, _ => False
  end.

Definition says_account (names : list string) (sel : string) (o : option ServiceAccountMatch) : Prop :=
  match o with Some m => sam_Names m = names ∧ sam_Selector m = sel ∧ (names ≠ [] ∨ sel ≠ "") | None => names = [] ∧ sel = "" end.

(** An exact path goes before a prefix; a path that is neither is left out. *)
Definition says_path (p : ModelRule.HTTPPath) (o : PathMatch) : Prop :=
  match o with PathMatch_Exact e => e = http_Exact p ∧ e ≠ "" | PathMatch_Prefix q => q = http_Prefix p ∧ q ≠ "" ∧ http_Exact p = "" end.

Definition says_http (m : option HTTPMatch) (o : option ProtoHTTPMatch) : Prop :=
  match m, o with
  | None, None => True
  | Some m, Some o => hm_Methods o = http_Methods m ∧ Forall2 says_path (filter (λ p, http_Exact p ≠ "" ∨ http_Prefix p ≠ "") (http_Paths m)) (hm_Paths o)
  | _, _ => False
  end.

Record says (r : Rule) (o : ProtoRule) : Prop := {
  says_Action : pr_Action o = rule_Action r;
  says_IPV4 : pr_IpVersion o = IPVersion_IPV4 ↔ is_version (rule_IPVersion r) (rule_Protocol r) 4 "icmp";
  says_IPV6 : pr_IpVersion o = IPVersion_IPV6 ↔ is_version (rule_IPVersion r) (rule_Protocol r) 6 "icmpv6";
  says_Protocol : says_protocol (rule_Protocol r) (pr_Protocol o);
  says_NotProtocol : says_protocol (rule_NotProtocol r) (pr_NotProtocol o);
  says_SrcNet : pr_SrcNet o = IPNet_String <$> joined (rule_SrcNet r) (rule_SrcNets r);
  says_DstNet : pr_DstNet o = IPNet_String <$> joined (rule_DstNet r) (rule_DstNets r);
  says_NotSrcNet : pr_NotSrcNet o = IPNet_String <$> joined (rule_NotSrcNet r) (rule_NotSrcNets r);
  says_NotDstNet : pr_NotDstNet o = IPNet_String <$> joined (rule_NotDstNet r) (rule_NotDstNets r);
  says_Icmp : says_icmp (rule_ICMPType r) (rule_ICMPCode r) (pr_Icmp o);
  says_NotIcmp : says_icmp (rule_NotICMPType r) (rule_NotICMPCode r) (pr_NotIcmp o);
  says_SrcSelector : pr_OriginalSrcSelector o = rule_OriginalSrcSelector r;
  says_DstSelector : pr_OriginalDstSelector o = rule_OriginalDstSelector r;
  says_SrcNamespaceSelector : pr_OriginalSrcNamespaceSelector o = rule_OriginalSrcNamespaceSelector r;
  says_DstNamespaceSelector : pr_OriginalDstNamespaceSelector o = rule_OriginalDstNamespaceSelector r;
  says_NotSrcSelector : pr_OriginalNotSrcSelector o = rule_OriginalNotSrcSelector r;
  says_NotDstSelector : pr_OriginalNotDstSelector o = rule_OriginalNotDstSelector r;
  says_SrcService : pr_OriginalSrcService o = rule_SrcService r;
  says_SrcServiceNamespace : pr_OriginalSrcServiceNamespace o = rule_SrcServiceNamespace r;
  says_DstService : pr_OriginalDstService o = rule_DstService r;
  says_DstServiceNamespace : pr_OriginalDstServiceNamespace o = rule_DstServiceNamespace r;
  says_SrcAccount : says_account (rule_OriginalSrcServiceAccountNames r) (rule_OriginalSrcServiceAccountSelector r) (pr_SrcServiceAccountMatch o);
  says_DstAccount : says_account (rule_OriginalDstServiceAccountNames r) (rule_OriginalDstServiceAccountSelector r) (pr_DstServiceAccountMatch o);
  says_Http : says_http (rule_HTTPMatch r) (pr_HttpMatch o);
  says_Metadata : pr_Metadata o = match rule_Metadata r with Some m => rm_Annotations m | None => None end
}.

(** The numbers of a rule: ports of 16 bits, protocols of 8, and the numbers of ICMP in 32. *)
Definition port16 (p : Port) : Prop := (0 <= MinPort p < 65536 ∧ 0 <= MaxPort p < 65536)%Z.
Definition protocol8 (p : option ModelProtocol) : Prop := ∀ q, p = Some q → (0 <= NumVal q < 256)%Z.
Definition int32_ok (n : option Z) : Prop := ∀ x, n = Some x → (- 2 ^ 31 <= x < 2 ^ 31)%Z.

Record widths_ok (r : Rule) : Prop := {
  wd_ports : Forall port16 (rule_SrcPorts r ++ rule_DstPorts r ++ rule_NotSrcPorts r ++ rule_NotDstPorts r);
  wd_protocols : protocol8 (rule_Protocol r) ∧ protocol8 (rule_NotProtocol r);
  wd_icmp : int32_ok (rule_ICMPType r) ∧ int32_ok (rule_ICMPCode r) ∧ int32_ok (rule_NotICMPType r) ∧ int32_ok (rule_NotICMPCode r)
}.

Lemma int32_id x : (- 2 ^ 31 <= x < 2 ^ 31)%Z → int32 x = x.
Proof. intros Hx. unfold int32. rewrite Z.mod_small by lia. lia. Qed.

Lemma protocol_says p : protocol8 p → says_protocol p (protocolToProtoProtocol p).
Proof.
  intros Hp. destruct p as [q|]; [|done]. specialize (Hp q eq_refl). cbn. destruct (Type_ q) eqn:Ht; cbn; [|done]. split; [done|]. apply int32_id. lia.
Qed.

Lemma icmp_says t c : int32_ok t → int32_ok c → says_icmp t c (icmpToProto t c).
Proof. intros Ht Hc. destruct t as [t|]; [|done]. specialize (Ht t eq_refl). destruct c as [c|]; [specialize (Hc c eq_refl)|]; cbn; by rewrite ?int32_id. Qed.

Lemma account_says names sel : says_account names sel (serviceAccountMatch names sel).
Proof. unfold serviceAccountMatch. case_decide as H; [done|]. split; [destruct names; [done|by destruct H; left]|destruct (decide (sel = "")); tauto]. Qed.

Lemma http_says m : says_http m (httpMatchToProto <$> m).
Proof.
  destruct m as [m|]; [|done]. split; [done|]. cbn. induction (http_Paths m) as [|p l IH]; [constructor|]. cbn [omap list_omap]. unfold pathToProto at 1. case_decide as He.
  - rewrite filter_cons_True by tauto. by constructor.
  - assert (http_Exact p = "") by (by destruct (decide (http_Exact p = ""))). case_decide; [|by rewrite filter_cons_False by tauto]. rewrite filter_cons_True by tauto. by constructor.
Qed.

(** No number is written like the name of a protocol. *)
Lemma number_no_name n name : (0 <= n < 256)%Z → name = "icmp" ∨ name = "icmpv6" → pretty (Z.to_N n) ≠ name.
Proof.
  intros Hn Hname. assert (Hall : Forall (λ k, pretty (N.of_nat k) ≠ "icmp" ∧ pretty (N.of_nat k) ≠ "icmpv6") (seq 0 256)) by (apply (bool_decide_unpack _); vm_compute; done).
  rewrite list.Forall_forall in Hall. destruct (Hall (Z.to_nat n)) as [H1 H2]; [apply elem_of_seq; lia|]. rewrite Z_nat_N in H1, H2. naive_solver.
Qed.

Lemma version_says version p : protocol8 p →
  (ipVersionToProtoIPVersion version p = IPVersion_IPV4 ↔ is_version version p 4 "icmp") ∧ (ipVersionToProtoIPVersion version p = IPVersion_IPV6 ↔ is_version version p 6 "icmpv6").
Proof.
  intros Hp. unfold ipVersionToProtoIPVersion, is_version. destruct version as [v|].
  { repeat case_decide; subst; split; split; first [done|by left|by intros [[= ?]|[? _]]]. }
  destruct p as [q|]; [|split; (split; [done|]); by intros [?|(_&?&?&_)]]. specialize (Hp q eq_refl). unfold ModelProtocol_String. destruct (Type_ q) eqn:Ht.
  - rewrite !decide_False by (apply number_no_name; [lia|by auto]). split; (split; [done|]); intros [?|(_&q'&[= <-]&?&_)]; congruence.
  - repeat case_decide; split; split; first [done|by right; split; [|exists q]|by intros [?|(_&q'&[= <-]&?&?)]; congruence].
Qed.

(** The message of a parsed rule says what the rule does. *)
Lemma message_says r pr o : widths_ok r → passed_on r pr → asMessage pr o → says r o.
Proof.
  intros [_ [Hp1 Hp2] (Hi1&Hi2&Hi3&Hi4)] Hpass [id ->]. destruct (version_says (rule_IPVersion r) (rule_Protocol r) Hp1) as [Hv4 Hv6]. destruct Hpass.
  split; cbn; rewrite ?po_Action, ?po_IPVersion, ?po_Protocol, ?po_NotProtocol, ?po_SrcNets, ?po_DstNets, ?po_NotSrcNets, ?po_NotDstNets, ?po_ICMPType, ?po_ICMPCode, ?po_NotICMPType, ?po_NotICMPCode,
    ?po_SrcServiceAccountNames, ?po_SrcServiceAccountSelector, ?po_DstServiceAccountNames, ?po_DstServiceAccountSelector, ?po_HTTPMatch, ?po_Metadata; try done.
  all: first [by apply protocol_says|by apply icmp_says|apply account_says|apply http_says|by destruct (rule_Metadata r)].
Qed.

Lemma numeric_range p port : port16 p → inPortRange (portToProtoPort p) port ↔ inRange p port.
Proof. intros [H1 H2]. unfold inPortRange, inRange. cbn. rewrite !int32_id by lia. done. Qed.

Lemma side_message C sets ports named notSets notPorts notNamed x : Forall port16 ports → Forall port16 notPorts →
  messageSideMatches C sets (portsToProtoPorts ports) named notSets (portsToProtoPorts notPorts) notNamed x ↔ parsedSideMatches C sets ports named notSets notPorts notNamed x.
Proof.
  intros H1 H2. assert (Hex : ∀ l port, Forall port16 l → (∃ p, p ∈ portsToProtoPorts l ∧ inPortRange p port) ↔ ∃ p, p ∈ l ∧ inRange p port).
  { intros l port Hl. rewrite list.Forall_forall in Hl. unfold portsToProtoPorts. setoid_rewrite list_elem_of_fmap. split.
    - intros (?&(p&->&Hp)&Hr). exists p. split; [done|]. by apply numeric_range; [apply Hl|].
    - intros (p&Hp&Hr). exists (portToProtoPort p). split; [by exists p|]. by apply numeric_range; [apply Hl|]. }
  assert (Hnil : portsToProtoPorts ports ≠ [] ↔ ports ≠ []) by (by destruct ports).
  assert (Hno : (∀ p, p ∈ portsToProtoPorts notPorts → ¬ inPortRange p (end_port x)) ↔ ∀ p, p ∈ notPorts → ¬ inRange p (end_port x)) by (pose proof (Hex notPorts (end_port x) H2); naive_solver).
  unfold messageSideMatches, parsedSideMatches. rewrite Hnil, Hno, (Hex ports (end_port x) H1). done.
Qed.

Lemma numeric_ports16 ports : Forall port16 ports → Forall port16 (filter (λ p, PortName p = "") ports).
Proof. rewrite !list.Forall_forall. intros Hp p [_ Hin]%list_elem_of_filter. by apply Hp. Qed.

Lemma message_matches C r pr o pk : widths_ok r → passed_on r pr → asMessage pr o → messageMatches C o pk ↔ parsedRuleMatches C pr pk.
Proof.
  intros [Hp _ _] Hpass [id ->]. rewrite !Forall_app in Hp. destruct Hp as (P1&P2&P3&P4), Hpass. unfold messageMatches, parsedRuleMatches. cbn.
  rewrite !side_message by (rewrite ?po_SrcPorts, ?po_DstPorts, ?po_NotSrcPorts, ?po_NotDstPorts; by apply numeric_ports16). done.
Qed.

(** ** Inputs and flushes *)
Section run.
Context {PT : Type} (Sum224 : string → string) (Marshal : ProtoRule → option string) {Config ConfigUpdate : Type}.
Context (HSum : ∀ s, String.length (Sum224 s) = 28%nat) (HMarshal : ∀ r, is_Some (Marshal r)).
Context (UpdateFrom : Config → option (gmap string string) → ConfigSource → option (Config * bool)) (ToConfigUpdate : Config → ConfigUpdate).
Context (MakeUniqueID : string → string → string) (Hcf : collision_free MakeUniqueID) (Hprefix : ∀ p c, ∃ h, MakeUniqueID p c = p +:+ ":" +:+ h).
Context (enumUIDs : gset string → list string) (HenumUIDs : ∀ s, enumUIDs s ≡ₚ elements s).
Context `{Countable EpID} (zeroID : EpID) (go : GoOrders EpID) `{!GoOrdersLaws go}.
Abbreviation Graph := (RuleGraph (EpID := EpID)).
Abbreviation Sequencer := (EventSequencer (PT := PT) (Config := Config)).
Abbreviation Msg := (Msg ConfigUpdate).
Abbreviation recv := (recv (ConfigUpdate := ConfigUpdate)).
Abbreviation rg_inv := (rg_inv MakeUniqueID zeroID).
Abbreviation sim := (sim (PT := PT) (ConfigUpdate := ConfigUpdate) Sum224 Marshal UpdateFrom "").
Abbreviation World := (World (EpID := EpID)).
Abbreviation Services := (services.ServiceIndex * Sets)%type.
Implicit Types (g : Graph) (w : World) (buf : Sequencer) (dp : SequencerSpec.Dataplane (ConfigUpdate := ConfigUpdate)).

(** An input of the rule scanner or of the index of selectors, an update of the endpoint slices, or a flush of
    the sequencer, with the order in which the code ranges over its maps. *)
Inductive FxOp :=
  | FxInput (r : GoRange) (op : RgOp (EpID := EpID))
  | FxSlice (r : GoRange) (es : EndpointSlice)
  | FxSliceDelete (r : GoRange) (namespace name : string)
  | FxFlush (r : GoRange).

Definition sliceOp (op : FxOp) : option SiOp := match op with FxSlice r es => Some (SiUpdateSlice r es) | FxSliceDelete r ns name => Some (SiDeleteSlice r ns name) | _ => None end.

Record FxState := MkFxState { fx_graph : Graph; fx_services : Services; fx_sequencer : Sequencer }.
Implicit Types (st : FxState).

Definition NewFx (suppressOverlaps : bool) (conf : Config) : FxState := MkFxState (NewRuleGraph suppressOverlaps) (services.NewServiceIndex, ∅) (NewEventSequencer conf).

Definition fx_step (op : FxOp) st : outcome Empty_set (FxState * list Msg) :=
  match op with
  | FxInput r op =>
      let! g' := rg_step MakeUniqueID enumUIDs zeroID go op (fx_graph st) in
      let! (calls, sv') := rg_calls MakeUniqueID enumUIDs zeroID go r op (fx_graph st) (fx_services st) in
      let! (buf', ms) := seq_run Sum224 Marshal UpdateFrom ToConfigUpdate calls (fx_sequencer st) in
      Ret (MkFxState g' sv' buf', ms)
  | FxFlush r =>
      let! (buf', ms) := Flush Sum224 Marshal UpdateFrom ToConfigUpdate r (fx_sequencer st) in
      Ret (MkFxState (fx_graph st) (fx_services st) buf', ms)
  | _ =>
      match sliceOp op with
      | None => Ret (st, [])
      | Some sop =>
          let! calls := svc_calls sop (fx_services st) in
          let! sv' := si_step sop (fx_services st) in
          let! (buf', ms) := seq_run Sum224 Marshal UpdateFrom ToConfigUpdate calls (fx_sequencer st) in
          Ret (MkFxState (fx_graph st) sv' buf', ms)
      end
  end.

Fixpoint fx_run (ops : list FxOp) st : outcome Empty_set (FxState * list Msg) :=
  match ops with
  | [] => Ret (st, [])
  | op :: ops' =>
      let! (st', ms) := fx_step op st in
      let! (st'', ms') := fx_run ops' st' in
      Ret (st'', ms ++ ms')
  end.

(** ** The specification *)
Definition fxInput (op : FxOp) : option (RgOp (EpID := EpID)) := match op with FxInput _ op => Some op | _ => None end.
Definition inputs (ops : list FxOp) : list (RgOp (EpID := EpID)) := omap fxInput ops.

(** The endpoint slices that a history leaves. *)
Definition fx_slices (slices : Slices) (op : FxOp) : Slices :=
  match op with
  | FxSlice _ es => <[services.sliceKey (es_Namespace es) (es_Name es) := es]> slices
  | FxSliceDelete _ ns name => delete (services.sliceKey ns name) slices
  | _ => slices
  end.

(** A port is 16 bits wide, and the numbers of a rule have their widths. *)
Definition ports_ok (op : RgOp (EpID := EpID)) : Prop :=
  match op with
  | RgUpdate (OpUpdateEndpoint _ _ _ ports _) => Forall (λ p, 0 <= ep_Port p < 65536)%Z ports
  | RgRules (RsPolicy _ (Some p)) => Forall widths_ok (pol_InboundRules p) ∧ Forall widths_ok (pol_OutboundRules p)
  | RgRules (RsProfile _ (Some p)) => Forall widths_ok (pr_InboundRules p) ∧ Forall widths_ok (pr_OutboundRules p)
  | _ => True
  end.

Definition fx_op_ok (slices : Slices) (op : FxOp) : Prop :=
  match op with FxInput _ op => rg_op_ok MakeUniqueID op ∧ ports_ok op | FxSlice _ es => slice_ok es ∧ moves_not slices es | _ => True end.

Fixpoint fx_ops_ok (slices : Slices) (ops : list FxOp) : Prop :=
  match ops with [] => True | op :: ops' => fx_op_ok slices op ∧ fx_ops_ok (fx_slices slices op) ops' end.

Definition fx_weight (op : FxOp) : nat := match op with FxInput _ op => rg_weight op | FxSlice _ es => sliceWeight es | _ => 0 end.

(** What the dataplane reads in the texts that it was sent. *)
Definition received dp (uid : string) (m : IPSetMember) : Prop := NetString.member_ok m ∧ ∃ t X, d_sets dp !! uid = Some (t, X) ∧ memberText m ∈ X.

(** The message of a rule says what the rule says, and matches, with the IP sets of the dataplane, what the
    rule matches. *)
Definition inForce dp w (slices : Slices) (r : Rule) (o : ProtoRule) : Prop :=
  says r o ∧ ∀ pk, packet_ok pk → messageMatches (received dp) o pk ↔ ruleMatches MakeUniqueID (serviceMember slices) w r pk.

(** ** The invariant *)
Definition fx_inv b B B2 st dp w a (slices : Slices) : Prop :=
  rg_inv b B (fx_graph st) w a ∧ ports_okay w ∧ slices_okay slices ∧
  ∃ W sw, sw_slices sw = slices ∧ svc_inv B2 (fx_services st) sw ∧ svc_match sw (rg_dataplane (fx_graph st)) ∧
    tied (rg_dataplane (fx_graph st)) (rg_members (fx_graph st)) (fx_services st).2 W ∧ sim (fx_sequencer st) dp W.

Lemma ports_okay_step w op : ports_okay w → ports_ok op → ports_okay (rg_world w op).
Proof using Type.
  intros Hw Hop. destruct op as [op|op]; [done|]. destruct op; try exact Hw; intros e own nets' ports' pids; cbn.
  - intros [[<- [= <- <- <- <-]]|[_ Hl]]%lookup_insert_Some; [done|by eapply Hw].
  - intros [_ Hl]%lookup_delete_Some. by eapply Hw.
Qed.

Lemma slices_okay_step slices op : slices_okay slices → fx_op_ok slices op → slices_okay (fx_slices slices op).
Proof using Type.
  intros Hs Hop. destruct op; try exact Hs; intros k es'; cbn.
  - intros [[_ <-]|[_ Hl]]%lookup_insert_Some; [by destruct Hop|by eapply Hs].
  - intros [_ Hl]%lookup_delete_Some. by eapply Hs.
Qed.

(** An update of the slices. *)
Lemma slice_step_ok b B B2 st dp w a slices op sop : fx_inv b B B2 st dp w a slices → sliceOp op = Some sop → fx_op_ok slices op → small (B2 + fx_weight op) →
  ∃ st' ms dp', fx_step op st = Ret (st', ms) ∧ recvAll recv ms dp = Some dp' ∧ fx_inv b B (B2 + fx_weight op) st' dp' w a (fx_slices slices op).
Proof using Type.
  intros (Hinv&Hp&Hsl&W&sw&Hsw&Hsv&Hsm&Ht&Hsim) Hsop Hop HB. assert (Hw : si_weight sop = fx_weight op ∧ si_op_ok sw sop ∧ svc_world sw sop = MkSvcWorld (fx_slices slices op) (sw_sets sw)).
  { destruct op; try done; injection Hsop as <-; cbn; rewrite Hsw; split_and!; try done. by destruct Hop. }
  destruct Hw as (Hwt&Hok&Hworld). rewrite <- Hwt in *.
  destruct (svc_calls_ok Sum224 Marshal UpdateFrom "" B2 (fx_services st) sw (rg_members (fx_graph st)) (dp_sets (rg_dataplane (fx_graph st))) W sop Hsv Hok HB (td_sets _ _ _ _ Ht)) as (calls&sv'&Hcalls&Hstep&Hsv'&Hb).
  { rewrite Hworld. cbn. intros s [Hs|Hs]; by apply (svc_served _ _ _ Hsm). }
  apply (brings_served _ _ _ _ _ _ _ _ _ _ (td_sets _ _ _ _ Ht)) in Hb as (Hal&Hrest&Hsets). destruct (run_ok Sum224 Marshal UpdateFrom ToConfigUpdate "" calls _ dp W Hal Hsim) as (buf'&ms&dp'&Hr&Hm&Hs).
  exists (MkFxState (fx_graph st) sv' buf'), ms, dp'. split; [|split; [done|]].
  - destruct op; try done; cbn [fx_step]; rewrite Hsop, Hcalls; cbn [obind]; rewrite Hstep; cbn [obind]; by rewrite Hr.
  - split_and!; [done|done|by apply slices_okay_step|]. exists (want_run calls W), (svc_world sw sop). rewrite Hworld in *. cbn. split_and!; [done|done|done| |done].
    pose proof (tied_rest _ _ _ _ _ _ _ _ Ht Hrest Hsets) as Hres. by destruct (rg_dataplane (fx_graph st)).
Qed.

Definition graphWeight (op : FxOp) : nat := from_option rg_weight 0 (fxInput op).
Definition servicesWeight (op : FxOp) : nat := from_option si_weight 0 (sliceOp op).

Lemma fx_step_ok b B B2 st dp w a slices op : fx_inv b B B2 st dp w a slices → fx_op_ok slices op → small (B + graphWeight op) → small (B2 + servicesWeight op) →
  ∃ st' ms dp', fx_step op st = Ret (st', ms) ∧ recvAll recv ms dp = Some dp' ∧
    fx_inv b (B + graphWeight op) (B2 + servicesWeight op) st' dp' (from_option (rg_world w) w (fxInput op)) (from_option (rg_active a) a (fxInput op)) (fx_slices slices op).
Proof using Hcf HenumUIDs GoOrdersLaws0 HSum HMarshal.
  intros Hall Hop HB HB2. destruct op as [r op|r es|r ns name|r]; cbn [graphWeight servicesWeight fxInput sliceOp from_option fx_slices] in *.
  2: { rewrite Nat.add_0_r. exact (slice_step_ok b B B2 st dp w a slices (FxSlice r es) _ Hall eq_refl Hop HB2). }
  2: { rewrite Nat.add_0_r. exact (slice_step_ok b B B2 st dp w a slices (FxSliceDelete r ns name) _ Hall eq_refl Hop HB2). }
  - destruct Hall as (Hinv&Hp&Hsl&W&sw&Hsw&Hsv&Hsm&Ht&Hsim). destruct Hop as [Hop Hpo]. rewrite Nat.add_0_r in HB2.
    destruct (rg_step_ok MakeUniqueID Hcf enumUIDs HenumUIDs zeroID go b B _ w a op Hinv Hop HB) as (g'&Hstep&Hinv').
    destruct (rg_calls_ok Sum224 Marshal HSum HMarshal UpdateFrom "" MakeUniqueID Hcf enumUIDs HenumUIDs zeroID go r b B B2 _ g' w a _ sw W op Hinv Hop HB Hsv HB2 Hsm Ht Hstep) as (calls&sv'&sw'&Hcalls&Hal&Ht'&Hsv'&Hsm'&Hsl').
    destruct (run_ok Sum224 Marshal UpdateFrom ToConfigUpdate "" calls _ dp W Hal Hsim) as (buf'&ms&dp'&Hr&Hm&Hs). exists (MkFxState g' sv' buf'), ms, dp'. cbn [fx_step].
    rewrite Hstep. cbn [obind]. rewrite Hcalls. cbn [obind]. rewrite Hr, Nat.add_0_r. split_and!; [done|done|]. split_and!; [done|by apply ports_okay_step|done|]. exists (want_run calls W), sw'. split_and!; [congruence|done..].
  - destruct Hall as (Hinv&Hp&Hsl&W&sw&Hsw&Hsv&Hsm&Ht&Hsim). rewrite !Nat.add_0_r.
    destruct (Flush_reaches Sum224 Marshal UpdateFrom ToConfigUpdate "" r W (fx_sequencer st) dp) as (buf'&ms&dp'&Hf&Hm&Hs&_); [by eapply graph_closed|by eapply graph_sets_valid; [..|rewrite Hsw|]|done|].
    exists (MkFxState (fx_graph st) (fx_services st) buf'), ms, dp'. cbn [fx_step]. rewrite Hf. split_and!; [done|done|]. split_and!; [done|done|done|]. exists W, sw. by split_and!.
Qed.

Lemma fx_run_ok b ops : ∀ B B2 st dp w a slices, fx_inv b B B2 st dp w a slices → fx_ops_ok slices ops → small (B + sum_list_with graphWeight ops) → small (B2 + sum_list_with servicesWeight ops) →
  ∃ st' ms dp', fx_run ops st = Ret (st', ms) ∧ recvAll recv ms dp = Some dp' ∧
    fx_inv b (B + sum_list_with graphWeight ops) (B2 + sum_list_with servicesWeight ops) st' dp' (foldl rg_world w (inputs ops)) (foldl rg_active a (inputs ops)) (foldl fx_slices slices ops).
Proof using Hcf HenumUIDs GoOrdersLaws0 HSum HMarshal.
  induction ops as [|op ops IH]; intros B B2 st dp w a slices Hinv Hops HB HB2; cbn [fx_run sum_list_with foldl] in *; [rewrite !Nat.add_0_r; by exists st, [], dp|].
  destruct Hops as [Hop Hops]. destruct (fx_step_ok b B B2 st dp w a slices op Hinv Hop) as (st1&ms1&dp1&Hs&Hm&Hinv1); [unfold small in *; lia..|].
  rewrite Hs. cbn [obind]. rewrite !Nat.add_assoc in *. destruct (IH _ _ _ _ _ _ _ Hinv1 Hops HB HB2) as (st2&ms2&dp2&Hr&Hm2&Hinv2). rewrite Hr. cbn [obind].
  exists st2, (ms1 ++ ms2), dp2. split_and!; [done|by rewrite recvAll_app, Hm|]. unfold inputs. cbn [omap list_omap]. by destruct op.
Qed.

Lemma fx_weights ops : sum_list_with graphWeight ops <= sum_list_with fx_weight ops ∧ sum_list_with servicesWeight ops <= sum_list_with fx_weight ops.
Proof using Type. induction ops as [|op ops [IH1 IH2]]; [done|]. destruct op; cbn; lia. Qed.

Lemma fx_run_app ops1 : ∀ ops2 st st1 ms1, fx_run ops1 st = Ret (st1, ms1) →
  fx_run (ops1 ++ ops2) st = let! (st2, ms2) := fx_run ops2 st1 in Ret (st2, ms1 ++ ms2).
Proof using Type.
  induction ops1 as [|op ops1 IH]; intros ops2 st st1 ms1; cbn [fx_run app].
  - intros [= <- <-]. by destruct (fx_run ops2 st) as [[st2 ms2]| | |].
  - intros ([st' ms]&Hs&([st'' ms']&Hr&[= <- <-])%obind_Ret)%obind_Ret. rewrite Hs. cbn [obind]. rewrite (IH _ _ _ _ Hr).
    destruct (fx_run ops2 st'') as [[st2 ms2]| | |]; [|done..]. cbn [obind]. by rewrite (assoc_L (++)).
Qed.

Lemma fx_inv_New b conf : fx_inv b 0 0 (NewFx b conf) emptyDataplane emptyWorld ∅ ∅.
Proof using Type.
  split_and!; [apply rg_inv_New|intros e own nets ports pids; cbn; by rewrite lookup_empty|done|]. exists wantNothing, (MkSvcWorld ∅ ∅). split_and!; [done|split; [apply si_inv_New|done]|..| |apply sim_new].
  - intros uid. cbn. by rewrite !lookup_empty.
  - split; cbn; [|intros k..|done]; [intros uid|..]; cbn; by rewrite !lookup_empty.
Qed.

(** The identifier of the set of a service says whether it has ports. *)
Lemma service_ports uid d : UniqueID MakeUniqueID d = Ret uid → ips_ok MakeUniqueID d → ips_Service d ≠ "" → negb (String.prefix "svcnoport" uid) = ips_ServiceIncludePorts d.
Proof using Hprefix.
  clear -Hprefix. intros Hu Hd Hs. pose proof (uid_shape MakeUniqueID d Hd) as Hshape. rewrite (UniqueID_ok _ d Hd) in Hu. injection Hu as <-. unfold ips_ok in Hd. destruct (ips_Selector d); [tauto|].
  rewrite Hshape. edestruct Hprefix as [h ->]. by destruct (ips_ServiceIncludePorts d).
Qed.

(** The texts are the members. *)
Lemma received_contents b B B2 g w a sv sw (W : Want (PT := PT)) dp uid m : rg_inv b B g w a → ports_okay w → svc_inv B2 sv sw → slices_okay (sw_slices sw) → svc_match sw (rg_dataplane g) →
  tied (rg_dataplane g) (rg_members g) sv.2 W → d_sets dp = setTexts <$> want_sets W → received dp uid m ↔ contents (serviceMember (sw_slices sw)) g uid m.
Proof using Hcf Hprefix.
  intros Hinv Hp Hsv Hsl Hsm Ht Hd. pose proof (graph_sets_valid MakeUniqueID Hcf zeroID b B B2 g w a sv sw W Hinv Hp Hsv Hsl Ht) as Hv. specialize (Hv uid). unfold received, contents.
  rewrite Hd, lookup_fmap. rewrite (td_sets _ _ _ _ Ht uid) in *. destruct (dp_sets (rg_dataplane g) !! uid) as [d|] eqn:Hu; cbn; [|naive_solver]. specialize (Hv _ _ m eq_refl) as Hvm.
  set (X := if isService d then sv.2 !!! uid else rg_members g !!! uid) in *.
  assert (Htext : NetString.member_ok m ∧ (∃ t Y, Some (setTexts (DataplaneProtocolType d, X)) = Some (t, Y) ∧ memberText m ∈ Y) ↔ m ∈ X).
  { split; [|intros Hin; split; [by apply Hvm|]; eexists _, _; split; [done|]; by apply elem_of_map_2].
    intros (Hm&t&Y&[= <- <-]&Hin). cbn in Hin. apply elem_of_map in Hin as (m'&Heq&Hin). apply memberText_inj in Heq as ->; [done|done|by eapply Hv]. }
  etrans; [exact Htext|]. unfold X, isService. destruct (decide (ips_Service d ≠ "")) as [Hs|Hs]; [rewrite bool_decide_eq_true_2 by done|by rewrite bool_decide_eq_false_2].
  rewrite (si_members _ _ _ _ _ _ (proj1 Hsv)). specialize (Hsm uid). rewrite Hu in Hsm. cbn in Hsm. unfold isService in Hsm. rewrite bool_decide_eq_true_2 in Hsm by done.
  destruct (tracks_sets _ _ _ _ (proj1 Hinv) uid d Hu) as [Hid Hok]. rewrite (service_ports uid d Hid Hok Hs), Hsm. naive_solver.
Qed.

Lemma parsedRuleMatches_ext (C1 C2 : string → IPSetMember → Prop) pr pk : (∀ uid m, C1 uid m ↔ C2 uid m) → parsedRuleMatches C1 pr pk ↔ parsedRuleMatches C2 pr pk.
Proof using Type.
  intros HC. assert (H1 : ∀ uid a, inSet C1 uid a ↔ inSet C2 uid a) by (intros; unfold inSet; by setoid_rewrite HC).
  assert (H2 : ∀ uid x, inPortSet C1 uid x ↔ inPortSet C2 uid x) by (intros; unfold inPortSet; by rewrite HC).
  unfold parsedRuleMatches, parsedSideMatches. setoid_rewrite H1. setoid_rewrite H2. done.
Qed.

(** The rules of one policy or profile. *)
Lemma rules_inForce g w dp slices rules prl out : (∀ uid m, received dp uid m ↔ contents (serviceMember slices) g uid m) → Forall widths_ok rules →
  Forall2 (implements MakeUniqueID (serviceMember slices) g w) rules prl → Forall2 asMessage prl out → Forall2 (inForce dp w slices) rules out.
Proof using Type.
  intros HC Hw Hi. revert out. induction Hi as [|r pr rules prl [Hpass Hm] _ IH]; intros out Ho; [apply Forall2_nil_inv_l in Ho as ->; constructor|].
  apply list.Forall_cons in Hw as [Hr Hw]. apply Forall2_cons_inv_l in Ho as (o&out'&Hmsg&Ho&->). constructor; [|by apply IH]. split; [by eapply message_says|].
  intros pk Hpk. rewrite <- (Hm pk Hpk). etrans; [by eapply message_matches|]. by apply parsedRuleMatches_ext.
Qed.

Lemma inputs_ok ops : ∀ slices, fx_ops_ok slices ops → Forall (rg_op_ok MakeUniqueID) (inputs ops).
Proof using Type.
  induction ops as [|op ops IH]; intros slices Hops; [done|]. destruct Hops as [Hop Hops]. specialize (IH _ Hops). unfold inputs. cbn [omap list_omap]. destruct op; cbn; [|done..].
  apply list.Forall_cons. by destruct Hop.
Qed.

Lemma inputs_widths ops : ∀ slices, fx_ops_ok slices ops → Forall (op_rules widths_ok) (inputs ops).
Proof using Type.
  induction ops as [|op ops IH]; intros slices Hops; [done|]. destruct Hops as [Hop Hops]. specialize (IH _ Hops). unfold inputs. cbn [omap list_omap]. destruct op as [r op|r es|r ns name|r]; cbn; [|done..].
  apply list.Forall_cons. split; [|done]. destruct Hop as [_ Hop]. destruct op as [[key [p|]|name [p|]]|op]; [..|done]; intros c [= <-]; exact Hop.
Qed.

(** The messages of the policies and of the profiles. *)
Definition rules_enforced dp w (slices : Slices) (rules : list Rule * list Rule) (inbound outbound : list ProtoRule) : Prop :=
  Forall2 (inForce dp w slices) rules.1 inbound ∧ Forall2 (inForce dp w slices) rules.2 outbound.

Definition policy_enforced dp w (slices : Slices) (c : option (Policy + ProfileRules)) (o : option ProtoPolicy) : Prop :=
  match c, o with
  | Some (inl p), Some o => rules_enforced dp w slices (content_rules (inl p)) (pp_InboundRules o) (pp_OutboundRules o) ∧
      pp_Tier o = pol_Tier p ∧ pp_Namespace o = pol_Namespace p ∧ pp_Untracked o = pol_DoNotTrack p ∧ pp_PreDnat o = pol_PreDNAT p ∧ pp_PerfHints o = pol_PerformanceHints p
  | None, None => True
  | _, _ => False
  end.

Definition profile_enforced dp w (slices : Slices) (c : option (Policy + ProfileRules)) (o : option ProtoProfile) : Prop :=
  match c, o with
  | Some (inr p), Some o => rules_enforced dp w slices (content_rules (inr p)) (pf_InboundRules o) (pf_OutboundRules o)
  | None, None => True
  | _, _ => False
  end.

(** Policies have the keys of policies, profiles those of profiles. *)
Definition sameKind (k : RulesKey) (c : Policy + ProfileRules) : bool := match k, c with inl _, inl _ | inr _, inr _ => true | _, _ => false end.

Lemma active_kinds (ops : list (RgOp (EpID := EpID))) : ∀ a, (∀ k c, a !! k = Some c → sameKind k c = true) →
  ∀ k c, foldl rg_active a ops !! k = Some c → sameKind k c = true.
Proof using Type.
  induction ops as [|op ops IH]; intros a Ha; [done|]. cbn [foldl]. apply IH. destruct op as [op|op]; [|done]. intros k c. cbn [rg_active]. rewrite active_step_lookup.
  case_decide as Hk; [subst k|apply Ha]. destruct op as [key [p|]|name [p|]]; cbn; by intros [= <-].
Qed.

Lemma image_lookup `{Countable K} {V A} (conv : K → V → outcome Empty_set A) (S : gmap K V) (D : gmap K A) k : image (λ k, k) conv S D →
  match S !! k, D !! k with Some v, Some p => conv k v = Ret p | None, None => True | _, _ => False end.
Proof using Type.
  intros [H1 H2]. destruct (S !! k) as [v|] eqn:HS.
  - destruct (H1 k v HS) as (p&Hp&HD). by rewrite HD.
  - destruct (D !! k) as [p|] eqn:HD; [|done]. destruct (H2 k p HD) as (k'&v&HS'&->&_). congruence.
Qed.

(** What the graph has for a key, once the members have been received: parsed rules for the active policy
    or profile, whose messages are in force. *)
Definition active_at dp w (slices : Slices) g (k : RulesKey) (c : option (Policy + ProfileRules)) : Prop :=
  match c, dp_rules (rg_dataplane g) !! k with
  | Some c, Some prs => content_parsed MakeUniqueID c prs ∧ sameKind k c = true ∧
      (∀ out, Forall2 asMessage (prs_InboundRules prs) out → Forall2 (inForce dp w slices) (content_rules c).1 out) ∧
      (∀ out, Forall2 asMessage (prs_OutboundRules prs) out → Forall2 (inForce dp w slices) (content_rules c).2 out)
  | None, None => True
  | _, _ => False
  end.

Lemma active_at_ok b B g ops dp slices k : let w := foldl rg_world emptyWorld (inputs ops) in let a := foldl rg_active ∅ (inputs ops) in
  rg_inv b B g w a → fx_ops_ok ∅ ops → single_addresses w → unshared w → (∀ uid m, received dp uid m ↔ contents (serviceMember slices) g uid m) → active_at dp w slices g k (a !! k).
Proof using Hcf.
  intros w a Hinv Hops Hsingle Hun HC. pose proof (inv_enforced MakeUniqueID Hcf zeroID (serviceMember slices) _ _ _ w (inputs ops) Hinv (inputs_ok ops ∅ Hops) Hsingle Hun k) as Hen.
  pose proof (active_all_rules widths_ok (inputs ops) ∅ ltac:(intros k' c'; by rewrite lookup_empty) (inputs_widths ops ∅ Hops) k) as Hwd.
  pose proof (active_kinds (inputs ops) ∅ ltac:(intros k' c'; by rewrite lookup_empty) k) as Hkind. pose proof (tr_active _ _ _ _ (proj1 Hinv) k) as Htr.
  fold a in Hen, Hwd, Hkind. unfold active_at. destruct (a !! k) as [c|], (dp_rules (rg_dataplane g) !! k) as [prs|]; try done. destruct Hen as [Hi Ho], (Hwd c eq_refl) as [Wi Wo].
  split_and!; [done|by apply Hkind|by intros out; eapply rules_inForce|by intros out; eapply rules_inForce].
Qed.

Lemma policy_at dp w slices g key c o : active_at dp w slices g (inl key) c →
  match dp_rules (rg_dataplane g) !! inl key, o with Some v, Some p => ParsedRulesToActivePolicyUpdate Sum224 Marshal key v = Ret p | None, None => True | _, _ => False end → policy_enforced dp w slices c o.
Proof using HSum HMarshal.
  unfold active_at. destruct c as [c|], (dp_rules (rg_dataplane g) !! inl key) as [prs|], o as [o|]; try done. intros (Hc&Hkind&Hi&Ho) Hconv. destruct c as [p|p]; [|done].
  destruct (policy_total Sum224 Marshal HSum HMarshal key prs) as (o'&Ho'&Hi'&Ho''). rewrite Hconv in Ho'. injection Ho' as <-. split; [split; auto|].
  apply obind_Ret in Hconv as (i&_&(i'&_&[= <-])%obind_Ret). destruct Hc as (_&_&H1&H2&H3&H4&_&H6). by split_and!.
Qed.

Lemma profile_at dp w slices g name c o : active_at dp w slices g (inr name) c →
  match dp_rules (rg_dataplane g) !! inr name, o with Some v, Some p => profileToProto Sum224 Marshal name v = Ret p | None, None => True | _, _ => False end → profile_enforced dp w slices c o.
Proof using HSum HMarshal.
  unfold active_at. destruct c as [c|], (dp_rules (rg_dataplane g) !! inr name) as [prs|], o as [o|]; try done. intros (Hc&Hkind&Hi&Ho) Hconv. destruct c as [p|p]; [done|].
  destruct (profile_total Sum224 Marshal HSum HMarshal name prs) as (o'&Ho'&Hi'&Ho''). rewrite Hconv in Ho'. injection Ho' as <-. split; auto.
Qed.

End run.

(** ** Example *)
(** An endpoint, a policy, a flush, an endpoint slice, and the other endpoint. *)
Definition fxExample : list (FxOp (EpID := nat)) :=
  match enforcedExample with
  | [o1; o2; o3] => [FxInput demoRange o1; FxInput demoRange o2; FxFlush demoRange; FxSlice demoRange (sliceOf "a" ["10.1.2.3"; "example.com"]); FxInput demoRange o3]
  | _ => []
  end.

Lemma fxExample_ok : fx_ops_ok hexHash ∅ fxExample.
Proof.
  pose proof enforcedExample_ok as Hok. unfold fxExample, enforcedExample in *. apply list.Forall_cons in Hok as [H1 Hok]. apply list.Forall_cons in Hok as [H2 Hok].
  apply list.Forall_cons in Hok as [H3 _]. assert (Hport : Forall (λ p, 0 <= ep_Port p < 65536)%Z [tcpPort]) by (apply List.Forall_cons; [cbn; lia|apply List.Forall_nil]).
  assert (Hwd : widths_ok (matchRule true)) by (split; [apply List.Forall_cons; [split; cbn; lia|apply List.Forall_nil]|split; by intros q|split_and!; by intros q]).
  split; [split; [exact H1|apply List.Forall_nil]|]. split; [split; [exact H2|split; [apply List.Forall_cons; [exact Hwd|apply List.Forall_nil]|apply List.Forall_nil]]|]. split; [exact I|]. split; [|split; [split; [exact H3|exact Hport]|exact I]].
  split; [|intros old; cbn; by rewrite lookup_empty]. apply List.Forall_cons; [|apply List.Forall_nil]. apply List.Forall_cons; [reflexivity|]. apply List.Forall_cons; [reflexivity|apply List.Forall_nil].
Qed.

