(* ===== verification/IDAlloc.v ===== *)
(** * Identifiers: [felix/idalloc]

    [IDAllocator] gives strings (the names of IP sets) the 64-bit identifiers that BPF programs know
    them by; [IndexAllocator] hands out small indices, such as the numbers of routing tables.  The
    buffer of [TrialHash] is a part of the state: it is kept between calls, at the length of the
    longest string so far, and all of it is hashed.  [sha256.Sum256] is a parameter, and so is
    what [slices.SortedFunc] returns among ranges with the same upper bound.

    [IDAllocator] refines a finite injective map from strings to identifiers, for any sequence of
    calls, and its loop ends as long as the trial hashes of a string are distinct; but the
    identifier of a string depends on the strings before it.  [NewIndexAllocator] stacks exactly
    the indices in the ranges and outside the exclusions, in order. *)
From S2P Require Import Prelude.
From Stdlib Require Import Ascii.
From stdpp Require Import base list gmap numbers strings sorting.
From stdpp Require Import options.

Module idalloc.
Record IDAllocator := MkIDAllocator {
  strToUint64 : gmap string N;
  uint64ToStr : gmap N string;
  buf : list ascii
}.

Definition New : IDAllocator := MkIDAllocator ∅ ∅ [].

(** [binary.LittleEndian]. *)
Fixpoint putLE (k : nat) (n : N) : list ascii :=
  match k with O => [] | S k' => ascii_of_N (n mod 256) :: putLE k' (n / 256) end.

Fixpoint getLE (l : list ascii) : N :=
  match l with [] => 0 | c :: l' => N_of_ascii c + 256 * getLE l' end%N.

(** [copy(dst, src)]: as many bytes as both have. *)
Definition copyInto (src dst : list ascii) : list ascii := take (length dst) src ++ drop (length src) dst.

Inductive ReleaseError := ErrNotFound.

Section allocator.
Context (Sum256 : list ascii → list ascii).

Definition MaxUint64 : N := 18446744073709551615.

Definition ReserveWellKnownID (id : string) (n : N) (a : IDAllocator) : outcome Empty_set IDAllocator :=
  match uint64ToStr a !! n with
  | Some _ => Panic
  | None =>
      match strToUint64 a !! id with
      | Some _ => Panic
      | None => Ret (MkIDAllocator (<[id := n]> (strToUint64 a)) (<[n := id]> (uint64ToStr a)) (buf a))
      end
  end.

(** The buffer that is hashed, and the first eight bytes of its hash. *)
Definition trialBuf (id : string) (n : N) (buf : list ascii) : list ascii :=
  let len := 8 + String.length id in
  let buf := if decide (length buf < len) then replicate len zero else buf in
  copyInto (putLE 8 n) (take 8 buf) ++ copyInto (String.list_ascii_of_string id) (drop 8 buf).

Definition TrialHash (id : string) (n : N) (a : IDAllocator) : N * IDAllocator :=
  let buf := trialBuf id n (buf a) in
  (getLE (take 8 (Sum256 buf)), MkIDAllocator (strToUint64 a) (uint64ToStr a) buf).

Definition GetNoAlloc (id : string) (a : IDAllocator) : N := default 0%N (strToUint64 a !! id).

(** The loop of [GetOrAlloc] from its [n]-th turn; [Panic] is [log.Panic] after the last one. *)
Fixpoint allocLoop (fuel : nat) (id : string) (n : N) (a : IDAllocator) : outcome Empty_set (N * IDAllocator) :=
  if decide (n < MaxUint64)%N then
    match fuel with
    | O => OutOfFuel
    | S fuel' =>
        let '(candidate, a) := TrialHash id n a in
        if decide (candidate = 0%N) then allocLoop fuel' id (n + 1) a
        else
          match uint64ToStr a !! candidate with
          | Some _ => allocLoop fuel' id (n + 1) a
          | None => Ret (candidate, MkIDAllocator (<[id := candidate]> (strToUint64 a)) (<[candidate := id]> (uint64ToStr a)) (buf a))
          end
    end
  else Panic.

Definition GetOrAlloc (fuel : nat) (id : string) (a : IDAllocator) : outcome Empty_set (N * IDAllocator) :=
  match strToUint64 a !! id with
  | Some uid => Ret (uid, a)
  | None => allocLoop fuel id 0 a
  end.

Definition ReleaseUintID (id : N) (a : IDAllocator) : outcome ReleaseError IDAllocator :=
  match uint64ToStr a !! id with
  | None => Fail ErrNotFound
  | Some strID => Ret (MkIDAllocator (delete strID (strToUint64 a)) (delete id (uint64ToStr a)) (buf a))
  end.

Definition GetAndRelease (id : string) (a : IDAllocator) : N * IDAllocator :=
  match strToUint64 a !! id with
  | None => (0%N, a)
  | Some oldID => (oldID, MkIDAllocator (delete id (strToUint64 a)) (delete oldID (uint64ToStr a)) (buf a))
  end.

Definition GetReverse (id64 : N) (a : IDAllocator) : option string := uint64ToStr a !! id64.
End allocator.
End idalloc.

(** ** [index_allocator.go] *)
Module indexes.
Record IndexRange := MkIndexRange { Min : Z; Max : Z }.
#[global] Instance IndexRange_eq_dec : EqDecision IndexRange. Proof. solve_decision. Defined.

Definition contains (r : IndexRange) (a : Z) : bool := (Min r <=? a)%Z && (a <=? Max r)%Z.

(** The stack, its top first. *)
Record IndexAllocator := MkIndexAllocator { indexStack : list Z; exclusions : list IndexRange }.

(** [int] is 64 bits wide. *)
Definition int64 (z : Z) : Z := ((z + 9223372036854775808) mod 18446744073709551616 - 9223372036854775808)%Z.

(** The inner loop of [NewIndexAllocator], which pushes the indices of one range from [i] down. *)
Fixpoint populating (fuel : nat) (r : IndexRange) (excl : list IndexRange) (i lowestIndex : Z) (st : list Z) : outcome Empty_set (Z * list Z) :=
  if (Min r <=? i)%Z then
    match fuel with
    | O => OutOfFuel
    | S fuel' =>
        if (lowestIndex <=? i)%Z then populating fuel' r excl (int64 (i - 1)) lowestIndex st
        else if existsb (λ e, contains e i) excl then populating fuel' r excl (int64 (i - 1)) lowestIndex st
        else populating fuel' r excl (int64 (i - 1)) i (i :: st)
    end
  else Ret (lowestIndex, st).

Definition rangeFuel (r : IndexRange) : nat := Z.to_nat (Max r - Min r + 1).

Fixpoint pushRanges (rs excl : list IndexRange) (lowestIndex : Z) (st : list Z) : outcome Empty_set (list Z) :=
  match rs with
  | [] => Ret st
  | r :: rs' => let! (lowestIndex, st) := populating (rangeFuel r) r excl (Max r) lowestIndex st in pushRanges rs' excl lowestIndex st
  end.

Section allocator.
Context (SortedFunc : list IndexRange → list IndexRange).

Definition NewIndexAllocator (indexRanges excl : list IndexRange) : outcome Empty_set IndexAllocator :=
  let indexRanges := SortedFunc indexRanges in
  let! st := pushRanges indexRanges excl (match indexRanges with [] => 0 | r :: _ => int64 (Max r + 1) end)%Z [] in
  Ret (MkIndexAllocator st excl).
End allocator.

Inductive IndexError := NoMoreIndices.

Definition GrabIndex (a : IndexAllocator) : outcome IndexError (Z * IndexAllocator) :=
  match indexStack a with
  | [] => Fail NoMoreIndices
  | i :: st => Ret (i, MkIndexAllocator st (exclusions a))
  end.

Definition ReleaseIndex (index : Z) (a : IndexAllocator) : IndexAllocator := MkIndexAllocator (index :: indexStack a) (exclusions a).

(** [GrabBlock] returns the indices it has grabbed together with the error, if there is one. *)
Fixpoint grabLoop (len : nat) (indices : gset Z) (a : IndexAllocator) : gset Z * option IndexError * IndexAllocator :=
  match len with
  | O => (indices, None, a)
  | S len' =>
      match GrabIndex a with
      | Ret (idx, a) => grabLoop len' ({[idx]} ∪ indices) a
      | _ => (indices, Some NoMoreIndices, a)
      end
  end.

Definition GrabBlock (len : Z) (a : IndexAllocator) : gset Z * option IndexError * IndexAllocator := grabLoop (Z.to_nat len) ∅ a.
End indexes.

Import idalloc.

(** ** The buffer of [TrialHash] *)
Section bytes.
Lemma putLE_length k n : length (putLE k n) = k.
Proof. revert n. induction k as [|k IH]; intros n; cbn; [done|]. by rewrite IH. Qed.

Lemma list_ascii_length s : length (String.list_ascii_of_string s) = String.length s.
Proof. induction s as [|c s IH]; cbn; [done|]. by rewrite IH. Qed.

Lemma copyInto_all src dst : length src ≤ length dst → copyInto src dst = src ++ drop (length src) dst.
Proof. intros H. unfold copyInto. by rewrite take_ge. Qed.

(** The text of the string comes after eight bytes of [n], and the old bytes after that. *)
Lemma trialBuf_long id n b : 8 + String.length id ≤ length b →
  trialBuf id n b = putLE 8 n ++ String.list_ascii_of_string id ++ drop (8 + String.length id) b.
Proof.
  intros H. unfold trialBuf. rewrite decide_False by lia.
  rewrite !copyInto_all by (rewrite ?length_take, ?length_drop, ?putLE_length, ?list_ascii_length; lia).
  rewrite putLE_length, list_ascii_length, drop_drop, drop_ge, app_nil_r by (rewrite length_take; lia). done.
Qed.

Lemma trialBuf_short id n b : length b < 8 + String.length id → trialBuf id n b = putLE 8 n ++ String.list_ascii_of_string id.
Proof.
  intros H. transitivity (trialBuf id n (replicate (8 + String.length id) zero)).
  - unfold trialBuf. rewrite decide_True by lia. rewrite decide_False by (rewrite length_replicate; lia). done.
  - rewrite trialBuf_long by (rewrite length_replicate; lia). rewrite drop_ge by (rewrite length_replicate; lia). by rewrite app_nil_r.
Qed.

(** The trials of one string differ in [n] alone. *)
Lemma trialBuf_again id n m b : trialBuf id m (trialBuf id n b) = trialBuf id m b.
Proof.
  destruct (decide (length b < 8 + String.length id)) as [Hs|Hl].
  - rewrite !(trialBuf_short _ _ b) by done. rewrite trialBuf_long by (rewrite length_app, putLE_length, list_ascii_length; lia).
    rewrite drop_ge by (rewrite length_app, putLE_length, list_ascii_length; lia). by rewrite app_nil_r.
  - rewrite !(trialBuf_long _ _ b) by lia. rewrite trialBuf_long by (rewrite !length_app, putLE_length, list_ascii_length; lia).
    rewrite (app_assoc (putLE 8 n)), drop_app_length' by (rewrite length_app, putLE_length, list_ascii_length; lia). done.
Qed.
End bytes.

(** ** Calls and what they promise *)
Inductive IdOp :=
  | IdGetOrAlloc (id : string)
  | IdGetNoAlloc (id : string)
  | IdReleaseUint (n : N)
  | IdGetAndRelease (id : string)
  | IdGetReverse (n : N).

Inductive IdResult := IdDone | IdUint (n : N) | IdErr | IdString (s : option string).

Section spec.
Context (Sum256 : list ascii → list ascii) (fuel : nat).

Definition id_step (op : IdOp) (a : IDAllocator) : outcome Empty_set (IdResult * IDAllocator) :=
  match op with
  | IdGetOrAlloc id => let! (n, a) := GetOrAlloc Sum256 fuel id a in Ret (IdUint n, a)
  | IdGetNoAlloc id => Ret (IdUint (GetNoAlloc id a), a)
  | IdReleaseUint n => match ReleaseUintID n a with Ret a => Ret (IdDone, a) | _ => Ret (IdErr, a) end
  | IdGetAndRelease id => let '(n, a) := GetAndRelease id a in Ret (IdUint n, a)
  | IdGetReverse n => Ret (IdString (GetReverse n a), a)
  end.

Fixpoint id_run (ops : list IdOp) (a : IDAllocator) : outcome Empty_set (list IdResult * IDAllocator) :=
  match ops with
  | [] => Ret ([], a)
  | op :: ops' => let! (r, a) := id_step op a in let! (rs, a) := id_run ops' a in Ret (r :: rs, a)
  end.

Fixpoint reserve_all (rs : list (string * N)) (a : IDAllocator) : outcome Empty_set IDAllocator :=
  match rs with [] => Ret a | (id, n) :: rs' => let! a := ReserveWellKnownID id n a in reserve_all rs' a end.

(** What a call returns and makes of the map from strings to identifiers. *)
Definition unused (n : N) (M : gmap string N) : Prop := ∀ s, M !! s ≠ Some n.

Definition id_spec (op : IdOp) (r : IdResult) (M M' : gmap string N) : Prop :=
  match op with
  | IdGetOrAlloc id =>
      match M !! id with
      | Some n => r = IdUint n ∧ M' = M
      | None => ∃ n, r = IdUint n ∧ n ≠ 0%N ∧ unused n M ∧ M' = <[id := n]> M
      end
  | IdGetNoAlloc id => r = IdUint (default 0%N (M !! id)) ∧ M' = M
  | IdReleaseUint n => (∃ s, M !! s = Some n ∧ r = IdDone ∧ M' = delete s M) ∨ (unused n M ∧ r = IdErr ∧ M' = M)
  | IdGetAndRelease id => r = IdUint (default 0%N (M !! id)) ∧ M' = delete id M
  | IdGetReverse n => ∃ o, r = IdString o ∧ (∀ s, o = Some s ↔ M !! s = Some n) ∧ M' = M
  end.

Fixpoint id_spec_run (ops : list IdOp) (rs : list IdResult) (M M' : gmap string N) : Prop :=
  match ops, rs with
  | [], [] => M' = M
  | op :: ops', r :: rs' => ∃ M1, id_spec op r M M1 ∧ id_spec_run ops' rs' M1 M'
  | _, _ => False
  end.

Definition inverse (a : IDAllocator) : Prop := ∀ s n, strToUint64 a !! s = Some n ↔ uint64ToStr a !! n = Some s.

(** The trial hashes of a string. *)
Definition trial (id : string) (b : list ascii) (n : nat) : N := getLE (take 8 (Sum256 (trialBuf id (N.of_nat n) b))).
Definition distinct_at (op : IdOp) (a : IDAllocator) : Prop :=
  match op with IdGetOrAlloc id => NoDup (trial id (buf a) <$> seq 0 fuel) | _ => True end.

(** At each call of a run that looks for a new identifier, the first trials differ. *)
Fixpoint distinct_trials (ops : list IdOp) (a : IDAllocator) : Prop :=
  match ops with [] => True | op :: ops' => distinct_at op a ∧ ∀ r a', id_step op a = Ret (r, a') → distinct_trials ops' a' end.
End spec.

Section proofs.
Context (Sum256 : list ascii → list ascii) (fuel : nat).

(** The pigeons: among more distinct trials than identifiers in use and zero there is one that is free. *)
Lemma free_trial (U : gmap N string) (l : list N) : NoDup l → size U + 1 < length l → ∃ i n, l !! i = Some n ∧ n ≠ 0%N ∧ U !! n = None ∧ ∀ j m, j < i → l !! j = Some m → m = 0%N ∨ is_Some (U !! m).
Proof.
  intros Hnd Hlt. destruct (list_find (λ n, n ≠ 0%N ∧ U !! n = None) l) as [[i n]|] eqn:Hf.
  - apply list_find_Some in Hf as (Hi&[Hn HU]&Hbefore). exists i, n. split_and!; [done..|]. intros j m Hj Hm. pose proof (Hbefore _ _ Hm Hj) as Hno.
    destruct (decide (m = 0%N)); [by left|]. right. destruct (U !! m) eqn:HUm; [by eexists|]. tauto.
  - exfalso. apply list_find_None in Hf. assert (length l ≤ size ({[0%N]} ∪ dom U)) as Hle.
    { rewrite <- (size_list_to_set (C := gset N) l) by done. apply subseteq_size. intros n Hn%elem_of_list_to_set. rewrite Forall_forall in Hf. pose proof (Hf n Hn) as Hno. cbn in Hno.
      destruct (decide (n = 0%N)) as [->|]; [set_solver|]. apply elem_of_union_r, elem_of_dom. destruct (U !! n); [by eexists|]. tauto. }
    pose proof (size_union_alt ({[0%N]} : gset N) (dom U)) as Hs. rewrite size_singleton in Hs. pose proof (subseteq_size (dom U ∖ {[0%N]}) (dom U) ltac:(set_solver)) as Hd. rewrite size_dom in Hd. lia.
Qed.

Lemma allocLoop_step k id n a : (n < MaxUint64)%N →
  allocLoop Sum256 (S k) id n a =
  (let c := getLE (take 8 (Sum256 (trialBuf id n (buf a)))) in let b := trialBuf id n (buf a) in
   if decide (c = 0%N) then allocLoop Sum256 k id (n + 1) (MkIDAllocator (strToUint64 a) (uint64ToStr a) b)
   else match uint64ToStr a !! c with
        | Some _ => allocLoop Sum256 k id (n + 1) (MkIDAllocator (strToUint64 a) (uint64ToStr a) b)
        | None => Ret (c, MkIDAllocator (<[id := c]> (strToUint64 a)) (<[c := id]> (uint64ToStr a)) b)
        end).
Proof. intros Hn. cbn [allocLoop]. by rewrite decide_True. Qed.

(** The loop takes the first trial that is neither zero nor in use. *)
Lemma allocLoop_ok id a i n0 k b : (N.of_nat (n0 + i) < MaxUint64)%N → i < k → (∀ m, trialBuf id m (buf a) = trialBuf id m b) →
  trial Sum256 id b (n0 + i) ≠ 0%N → uint64ToStr a !! trial Sum256 id b (n0 + i) = None →
  (∀ j, j < i → trial Sum256 id b (n0 + j) = 0%N ∨ is_Some (uint64ToStr a !! trial Sum256 id b (n0 + j))) →
  ∃ b', allocLoop Sum256 k id (N.of_nat n0) a = let c := trial Sum256 id b (n0 + i) in Ret (c, MkIDAllocator (<[id := c]> (strToUint64 a)) (<[c := id]> (uint64ToStr a)) b').
Proof.
  revert n0 k a. induction i as [|i IH]; intros n0 k a Hmax Hk Hb Hne Hfree Hbefore; (destruct k as [|k]; [lia|]); rewrite allocLoop_step, !Hb by lia; cbv zeta.
  - rewrite Nat.add_0_r in *. fold (trial Sum256 id b n0). rewrite decide_False by done. rewrite Hfree. by eexists.
  - destruct (IH (S n0) k (MkIDAllocator (strToUint64 a) (uint64ToStr a) (trialBuf id (N.of_nat n0) b))) as [b' Hb'].
    + by rewrite Nat.add_succ_comm.
    + lia.
    + intros m. apply trialBuf_again.
    + by rewrite Nat.add_succ_comm.
    + by rewrite Nat.add_succ_comm.
    + intros j Hj. rewrite Nat.add_succ_comm. apply Hbefore. lia.
    + rewrite Nat.add_succ_comm in Hb'. cbn [strToUint64 uint64ToStr] in Hb'. exists b'. rewrite <- Hb'. replace (N.of_nat n0 + 1)%N with (N.of_nat (S n0)) by lia.
      destruct (Hbefore 0 ltac:(lia)) as [Hz|[s Hs]]; rewrite Nat.add_0_r in *; fold (trial Sum256 id b n0); [by rewrite decide_True|]. case_decide; [done|]. by rewrite Hs.
Qed.

End proofs.

(** ** The two maps are inverse *)
Lemma inverse_insert a id n b : inverse a → strToUint64 a !! id = None → uint64ToStr a !! n = None → inverse (MkIDAllocator (<[id := n]> (strToUint64 a)) (<[n := id]> (uint64ToStr a)) b).
Proof.
  intros Hinv Hid Hn s m. cbn. destruct (decide (s = id)) as [->|Hs], (decide (m = n)) as [->|Hm].
  - by rewrite !lookup_insert_eq.
  - rewrite lookup_insert_eq, lookup_insert_ne by done. rewrite <- (Hinv id m), Hid. naive_solver.
  - rewrite lookup_insert_eq, lookup_insert_ne by done. rewrite (Hinv s n), Hn. naive_solver.
  - rewrite !lookup_insert_ne by done. apply Hinv.
Qed.

Lemma inverse_delete a id n b : inverse a → strToUint64 a !! id = Some n → inverse (MkIDAllocator (delete id (strToUint64 a)) (delete n (uint64ToStr a)) b).
Proof.
  intros Hinv Hid s m. cbn. rewrite !lookup_delete_Some. pose proof (proj1 (Hinv id n) Hid) as Hn. rewrite (Hinv s m). split; intros [Hne Hl]; (split; [|done]); intros ->.
  - by rewrite Hn in Hl; injection Hl.
  - apply Hinv in Hl. by rewrite Hid in Hl; injection Hl.
Qed.

Lemma inverse_unused a n : inverse a → uint64ToStr a !! n = None ↔ unused n (strToUint64 a).
Proof. intros Hinv. rewrite eq_None_not_Some. split; [intros Hno s Hs%Hinv; apply Hno; by eexists|intros Hu [s Hs%Hinv]; by apply (Hu s)]. Qed.

Lemma inverse_size a : inverse a → size (uint64ToStr a) = size (strToUint64 a).
Proof.
  intros Hinv. rewrite <- !length_map_to_list.
  rewrite <- (length_fmap (λ p, (p.2, p.1)) (map_to_list (uint64ToStr a))). apply Permutation_length, NoDup_Permutation.
  - apply NoDup_fmap_2; [|apply NoDup_map_to_list]. by intros [??] [??] [=-> ->].
  - apply NoDup_map_to_list.
  - intros [s n]. rewrite elem_of_map_to_list, list_elem_of_fmap, (Hinv s n). split; [intros ([m t]&[=-> ->]&Hm); by apply elem_of_map_to_list in Hm|]. intros Hs. exists (n, s). split; [done|]. by apply elem_of_map_to_list.
Qed.

Lemma size_delete_le (M : gmap string N) id : size (delete id M) ≤ S (size M).
Proof. rewrite map_size_delete. destruct (M !! id); cbn; lia. Qed.

(** ** A step and a run *)
Section steps.
Context (Sum256 : list ascii → list ascii) (fuel : nat).

Lemma GetOrAlloc_fresh id a : distinct_at Sum256 fuel (IdGetOrAlloc id) a → inverse a → strToUint64 a !! id = None → size (strToUint64 a) + 1 < fuel → (N.of_nat fuel < MaxUint64)%N →
  ∃ n b, GetOrAlloc Sum256 fuel id a = Ret (n, MkIDAllocator (<[id := n]> (strToUint64 a)) (<[n := id]> (uint64ToStr a)) b) ∧ n ≠ 0%N ∧ uint64ToStr a !! n = None.
Proof using Type.
  intros Hd Hinv Hid Hsize Hmax. unfold GetOrAlloc. rewrite Hid.
  destruct (free_trial (uint64ToStr a) _ Hd) as (i&n&Hi&Hn&Hfree&Hbefore); [by rewrite length_fmap, length_seq, inverse_size|].
  apply list_lookup_fmap_Some in Hi as (i'&->&[-> Hlt]%lookup_seq). cbn [Nat.add] in *.
  destruct (allocLoop_ok Sum256 id a i 0 fuel (buf a)) as [b' Hb']; [lia|done|done|done|done| |eauto 10].
  intros j Hj. apply (Hbefore j); [done|]. rewrite list_lookup_fmap, (proj2 (lookup_seq 0 fuel j j)); [done|lia].
Qed.

Lemma id_step_ok op a : distinct_at Sum256 fuel op a → inverse a → size (strToUint64 a) + 1 < fuel → (N.of_nat fuel < MaxUint64)%N →
  ∃ r a', id_step Sum256 fuel op a = Ret (r, a') ∧ inverse a' ∧ size (strToUint64 a') ≤ S (size (strToUint64 a)) ∧ id_spec op r (strToUint64 a) (strToUint64 a').
Proof using Type.
  intros Hd Hinv Hsize Hmax. destruct op as [id|id|n|id|n]; cbn [id_step id_spec].
  - destruct (strToUint64 a !! id) as [n|] eqn:Hid.
    + exists (IdUint n), a. unfold GetOrAlloc. rewrite Hid. split_and!; auto with lia.
    + destruct (GetOrAlloc_fresh id a Hd Hinv Hid Hsize Hmax) as (n&b&Hr&Hn&Hfree). rewrite Hr. eexists _, _. split_and!; [done|by apply inverse_insert| |].
      * cbn. by rewrite map_size_insert_None.
      * exists n. split_and!; [done|done|by apply inverse_unused|done].
  - exists (IdUint (GetNoAlloc id a)), a. split_and!; auto with lia.
  - unfold ReleaseUintID. destruct (uint64ToStr a !! n) as [s|] eqn:Hn.
    + apply Hinv in Hn as Hs. eexists _, _. split_and!; [done|by apply inverse_delete| |by left; exists s]. apply size_delete_le.
    + eexists _, _. split_and!; [done|done|lia|]. right. split_and!; [by apply inverse_unused|done|done].
  - unfold GetAndRelease. destruct (strToUint64 a !! id) as [n|] eqn:Hid.
    + eexists _, _. split_and!; [done|by apply inverse_delete| |done|done]. apply size_delete_le.
    + eexists _, _. split_and!; [done|done|lia|done|]. by rewrite delete_id.
  - eexists _, _. split_and!; [done|done|lia|]. exists (GetReverse n a). split_and!; [done| |done]. intros s. unfold GetReverse. by rewrite (Hinv s n).
Qed.

Lemma id_run_ok ops a : distinct_trials Sum256 fuel ops a → inverse a → size (strToUint64 a) + length ops + 1 < fuel → (N.of_nat fuel < MaxUint64)%N →
  ∃ rs a', id_run Sum256 fuel ops a = Ret (rs, a') ∧ inverse a' ∧ id_spec_run ops rs (strToUint64 a) (strToUint64 a').
Proof using Type.
  revert a. induction ops as [|op ops IH]; intros a Hd Hinv Hsize Hmax; cbn [id_run id_spec_run length distinct_trials] in *; [by exists [], a|]. destruct Hd as [Hd Hds].
  destruct (id_step_ok op a Hd Hinv ltac:(lia) Hmax) as (r&a1&Hr&Hinv1&Hsize1&Hspec). rewrite Hr. cbn [obind].
  destruct (IH a1 (Hds r a1 Hr) Hinv1 ltac:(lia) Hmax) as (rs&a2&Hrs&Hinv2&Hspec2). rewrite Hrs. cbn [obind]. exists (r :: rs), a2. eauto.
Qed.

Lemma reserve_all_ok rs a : inverse a → NoDup rs.*1 → NoDup rs.*2 → (∀ id n, (id, n) ∈ rs → strToUint64 a !! id = None ∧ uint64ToStr a !! n = None) →
  ∃ a', reserve_all rs a = Ret a' ∧ inverse a' ∧ strToUint64 a' = foldl (λ M p, <[p.1 := p.2]> M) (strToUint64 a) rs ∧ size (strToUint64 a') ≤ size (strToUint64 a) + length rs.
Proof using Type.
  revert a. induction rs as [|[id n] rs IH]; intros a Hinv Hids Hns Hfree; cbn [reserve_all foldl length]; [exists a; split_and!; auto with lia|].
  cbn in Hids, Hns. apply NoDup_cons in Hids as [Hid Hids], Hns as [Hn Hns]. destruct (Hfree id n) as [Hid1 Hn1]; [set_solver|].
  unfold ReserveWellKnownID. rewrite Hn1, Hid1. cbn [obind]. edestruct (IH (MkIDAllocator (<[id := n]> (strToUint64 a)) (<[n := id]> (uint64ToStr a)) (buf a))) as (a'&Ha'&Hinv'&Hm&Hs); [by apply inverse_insert|done|done| |].
  - intros id' n' Hin. cbn. destruct (Hfree id' n') as [??]; [by right|]. rewrite !lookup_insert_ne; [done| |].
    + intros <-. apply Hn, list_elem_of_fmap. by exists (id', n).
    + intros <-. apply Hid, list_elem_of_fmap. by exists (id, n').
  - exists a'. split_and!; [done|done|done|]. cbn in Hs. rewrite map_size_insert_None in Hs by done. lia.
Qed.
End steps.

(** ** The allocator of identifiers *)

(** C32: Reserve well-known identifiers, without conflicts, in a new allocator and then call its
    methods in any order, with any strings.  If the trial hashes of a string are distinct at each call that
    looks for a new identifier (for a few more trials than there are calls), no call panics or fails to end, and what they return is what a
    finite map says: an identifier stays with its string until it is released, a new one is not
    zero and nobody else's, an unknown one cannot be released; and no two strings ever share an
    identifier, so [GetReverse] inverts [GetOrAlloc]. *)
Theorem id_allocator_correct (Sum256 : list ascii → list ascii) (fuel : nat) (reserved : list (string * N)) (ops : list IdOp) :
  (∀ a0, reserve_all reserved New = Ret a0 → distinct_trials Sum256 fuel ops a0) → (N.of_nat fuel < MaxUint64)%N → NoDup reserved.*1 → NoDup reserved.*2 → length reserved + length ops + 1 < fuel →
  ∃ a0 rs a, reserve_all reserved New = Ret a0 ∧ id_run Sum256 fuel ops a0 = Ret (rs, a) ∧
    id_spec_run ops rs (foldl (λ M p, <[p.1 := p.2]> M) ∅ reserved) (strToUint64 a) ∧
    ∀ s n, strToUint64 a !! s = Some n ↔ GetReverse n a = Some s.
Proof.
  intros Hd Hmax Hids Hns Hlen. destruct (reserve_all_ok reserved New) as (a0&Ha0&Hinv0&Hm&Hs); [|done|done| |].
  - intros s n. cbn. by rewrite !lookup_empty.
  - intros id n _. split; apply lookup_empty.
  - cbn in Hm, Hs. rewrite map_size_empty in Hs. destruct (id_run_ok Sum256 fuel ops a0 (Hd a0 Ha0) Hinv0) as (rs&a&Hrs&Hinv&Hspec); [lia|done|]. exists a0, rs, a. rewrite <- Hm. eauto.
Qed.

(** A function that has distinct trials: it returns the bytes of [n]. *)
Lemma id_allocator_correct_witness :
  let ops := [IdGetOrAlloc "s:a"; IdGetOrAlloc "s:b"; IdGetAndRelease "s:a"; IdGetOrAlloc "s:b"; IdReleaseUint 7] in
  id_spec_run ops [IdUint 1; IdUint 2; IdUint 1; IdUint 2; IdErr] {[ "all" := 5%N ]} {[ "all" := 5%N; "s:b" := 2%N ]}.
Proof.
  cbv zeta. set (ops := [_; _; _; _; _]).
  destruct (id_allocator_correct (λ b, take 8 b) 10 [("all", 5%N)] ops) as (a0&rs&a&Ha0&Hrs&Hspec&_).
  - intros a0 Ha0. vm_compute in Ha0. injection Ha0 as <-. subst ops.
    repeat (split; [first [exact I|apply (bool_decide_unpack _); vm_compute; exact I]|intros r a' Hr; vm_compute in Hr; injection Hr as <- <-]). exact I.
  - done.
  - apply NoDup_singleton.
  - apply NoDup_singleton.
  - cbn. lia.
  - vm_compute in Ha0. injection Ha0 as <-. vm_compute in Hrs. injection Hrs as <- <-. exact Hspec.
Defined.

(** The identifier of a string is meant to be the same after a restart ("to minimise churn"), but
    all of the buffer is hashed, with what a longer string before has left in it: whatever the
    hash function is, it is not applied to the same bytes. *)
Theorem id_depends_on_history Sum256 :
  let fresh := TrialHash Sum256 "s:a" 0 New in
  let later := TrialHash Sum256 "s:a" 0 (TrialHash Sum256 "s:longer" 0 New).2 in
  fresh.1 = getLE (take 8 (Sum256 (buf fresh.2))) ∧ later.1 = getLE (take 8 (Sum256 (buf later.2))) ∧ buf fresh.2 ≠ buf later.2.
Proof. cbv zeta. split_and!; [done|done|]. vm_compute. congruence. Qed.

(** ** The allocator of indices *)
Import indexes.

Definition excluded (excl : list IndexRange) (x : Z) : Prop := ∃ e, e ∈ excl ∧ contains e x = true.
Definition covered (rs : list IndexRange) (x : Z) : Prop := ∃ r, r ∈ rs ∧ contains r x = true.

(** Bounds away from those of [int]. *)
Definition range_ok (r : IndexRange) : Prop := (-9223372036854775808 < Min r ∧ -9223372036854775808 ≤ Max r < 9223372036854775807)%Z.

Lemma int64_id z : (-9223372036854775808 ≤ z < 9223372036854775808)%Z → int64 z = z.
Proof. intros H. unfold int64. rewrite Z.mod_small by lia. lia. Qed.

Lemma excluded_b excl x : existsb (λ e, contains e x) excl = true ↔ excluded excl x.
Proof. rewrite existsb_exists. unfold excluded. by setoid_rewrite list_elem_of_In. Qed.

Lemma contains_iff r x : contains r x = true ↔ (Min r ≤ x ≤ Max r)%Z.
Proof. unfold contains. rewrite andb_true_iff, !Z.leb_le. done. Qed.

(** A stack in order, from [low] up. *)
Definition stack_ok (low : Z) (st : list Z) : Prop := StronglySorted Z.lt st ∧ ∀ x, x ∈ st → (low ≤ x)%Z.

Lemma stack_ok_push low st i : stack_ok low st → (i < low)%Z → stack_ok i (i :: st).
Proof.
  intros [Hs Hl] Hi. split; [constructor; [done|]|].
  - apply Forall_forall. intros x Hx. specialize (Hl x Hx). lia.
  - intros x [->|Hx]%elem_of_cons; [lia|]. specialize (Hl x Hx). lia.
Qed.

Lemma populating_ok r excl fuel i low st : range_ok r → (-9223372036854775808 ≤ i ≤ Max r)%Z → Z.to_nat (i - Min r + 1) ≤ fuel → stack_ok low st →
  ∃ low' st', populating fuel r excl i low st = Ret (low', st') ∧ stack_ok low' st' ∧ (low' = low ∨ Min r ≤ low' ≤ i)%Z ∧
    ∀ x, x ∈ st' ↔ x ∈ st ∨ (Min r ≤ x ≤ i ∧ x < low ∧ ¬ excluded excl x)%Z.
Proof.
  intros Hr. revert i low st. induction fuel as [|fuel IH]; intros i low st Hi Hfuel Hst; cbn [populating]; destruct (Z.leb_spec (Min r) i) as [Hle|Hgt].
  - lia.
  - exists low, st. split_and!; [done|done|by left|]. intros x. split; [by left|]. intros [?|?]; [done|lia].
  - destruct Hr as [Hmin Hmax]. rewrite int64_id by lia. assert (∀ x, (x ≤ i ↔ x ≤ i - 1 ∨ x = i)%Z) as Hsplit by lia.
    destruct (Z.leb_spec low i) as [Hlow|Hlow]; [|destruct (existsb (λ e, contains e i) excl) eqn:Hex].
    + destruct (IH (i - 1)%Z low st) as (low'&st'&Hr&Hst'&Hl&Hx); [lia|lia|done|]. exists low', st'. split_and!; [done|done|lia|]. intros x. rewrite Hx. intuition lia.
    + apply excluded_b in Hex. destruct (IH (i - 1)%Z low st) as (low'&st'&Hr&Hst'&Hl&Hx); [lia|lia|done|]. exists low', st'. split_and!; [done|done|lia|]. intros x. rewrite Hx.
      split; [intuition lia|]. intros [?|(?&?&?)]; [by left|]. right. split_and!; try lia; [|done]. destruct (decide (x = i)) as [->|]; [done|lia].
    + assert (¬ excluded excl i) as Hn by (rewrite <- excluded_b; congruence). destruct (IH (i - 1)%Z i (i :: st)) as (low'&st'&Hr&Hst'&Hl&Hx); [lia|lia|by eapply stack_ok_push|]. exists low', st'. split_and!; [done|done|lia|]. intros x. rewrite Hx, elem_of_cons.
      split; [intros [[->|?]|?]; [right; split_and!; [lia..|done]|by left|right; intuition lia]|]. intros [?|(?&?&?)]; [by left; right|]. destruct (decide (x = i)) as [->|]; [by left; left|]. right. split_and!; [lia..|done].
  - exists low, st. split_and!; [done|done|by left|]. intros x. split; [by left|]. intros [?|?]; [done|lia].
Qed.

(** Ranges come with their upper bounds going down, so what is at [low] or above is done. *)
Definition descending : list IndexRange → Prop := StronglySorted (λ a b, Max b ≤ Max a)%Z.

Lemma pushRanges_ok excl rs done low st : Forall range_ok rs → descending rs → stack_ok low st →
  (∀ x, x ∈ st ↔ covered done x ∧ ¬ excluded excl x) → (∀ x r, r ∈ rs → (low ≤ x ≤ Max r)%Z → covered done x) →
  ∃ st', pushRanges rs excl low st = Ret st' ∧ StronglySorted Z.lt st' ∧ ∀ x, x ∈ st' ↔ covered (done ++ rs) x ∧ ¬ excluded excl x.
Proof.
  revert done low st. induction rs as [|r rs IH]; intros done low st Hok Hdesc Hst Hx Hdone; cbn [pushRanges].
  - exists st. rewrite app_nil_r. split_and!; [done|apply Hst|done].
  - apply Forall_cons in Hok as [Hr Hok]. apply StronglySorted_inv in Hdesc as [Hdesc Hall].
    destruct (populating_ok r excl (rangeFuel r) (Max r) low st Hr) as (low'&st'&Hp&Hst'&Hl&Hx'); [destruct Hr; lia|done|done|]. rewrite Hp. cbn [obind].
    destruct (IH (done ++ [r]) low' st' Hok Hdesc Hst') as (st2&Hp2&Hs2&Hx2).
    + intros x. rewrite Hx', Hx. unfold covered. setoid_rewrite elem_of_app. setoid_rewrite list_elem_of_singleton. split.
      * intros [[(r'&?&?) ?]|(?&?&?)]; (split; [|done]); [exists r'; by auto|]. exists r. rewrite contains_iff. auto.
      * intros [(r'&[?| ->]&Hc) He]; [left; split; [by exists r'|done]|]. apply contains_iff in Hc. destruct (decide (low ≤ x)%Z); [left|right; split_and!; [lia..|done]].
        split; [|done]. apply (Hdone x r); [set_solver|lia].
    + intros x r' Hin Hxr. rewrite Forall_forall in Hall. pose proof (Hall r' ltac:(by rewrite <- list_elem_of_In || exact Hin)) as Hmax. destruct Hl as [->|Hl].
      * destruct (Hdone x r') as (r0&?&?); [set_solver|done|]. exists r0. set_solver.
      * exists r. split; [set_solver|]. apply contains_iff. lia.
    + exists st2. rewrite <- app_assoc in Hx2. done.
Qed.

Lemma grabLoop_ok n I a : grabLoop n I a =
  (list_to_set (take n (indexStack a)) ∪ I, if decide (n ≤ length (indexStack a)) then None else Some NoMoreIndices, MkIndexAllocator (drop n (indexStack a)) (exclusions a)).
Proof.
  revert I a. induction n as [|n IH]; intros I [st ex]; cbn [grabLoop]; [cbn; rewrite drop_0, decide_True by lia; f_equal; f_equal; set_solver|].
  destruct st as [|i st]; cbn [GrabIndex indexStack exclusions]; [rewrite decide_False by (cbn; lia); cbn; f_equal; f_equal; set_solver|].
  unfold GrabIndex. cbn. rewrite IH. cbn. rewrite (decide_ext (S n ≤ S (length st)) (n ≤ length st)) by lia. do 2 f_equal. set_solver.
Qed.

(** [slices.SortedFunc] with the comparison of upper bounds: a permutation in descending order. *)
Class SortsDescending (SortedFunc : list IndexRange → list IndexRange) := {
  SortedFunc_perm rs : SortedFunc rs ≡ₚ rs;
  SortedFunc_sorted rs : descending (SortedFunc rs)
}.

(** C39: Whatever ranges and exclusions [NewIndexAllocator] is given (away from the bounds of [int]),
    overlapping, empty or in any order, its stack has exactly the indices that are in a range and
    in no exclusion, each of them once and the lowest on top.  So [GrabBlock] takes the lowest
    ones, or all that there are and an error. *)
Theorem index_allocator_exact (SortedFunc : list IndexRange → list IndexRange) `{!SortsDescending SortedFunc} (ranges excl : list IndexRange) (len : Z) :
  Forall range_ok ranges →
  ∃ a, NewIndexAllocator SortedFunc ranges excl = Ret a ∧ StronglySorted Z.lt (indexStack a) ∧
    (∀ i, i ∈ indexStack a ↔ covered ranges i ∧ ¬ excluded excl i) ∧
    GrabBlock len a = (list_to_set (take (Z.to_nat len) (indexStack a)), if decide (Z.to_nat len ≤ length (indexStack a)) then None else Some NoMoreIndices,
                       MkIndexAllocator (drop (Z.to_nat len) (indexStack a)) excl).
Proof.
  intros Hok. pose proof (SortedFunc_perm ranges) as Hp. pose proof (SortedFunc_sorted ranges) as Hs. unfold NewIndexAllocator. rewrite <- Hp in Hok.
  destruct (pushRanges_ok excl (SortedFunc ranges) [] (match SortedFunc ranges with [] => 0 | r :: _ => int64 (Max r + 1) end)%Z []) as (st&Hst&Hsort&Hx); [done|done|split; [constructor|by intros x ?%elem_of_nil]| | |].
  - intros x. rewrite elem_of_nil. split; [done|]. by intros [(?&?%elem_of_nil&_) _].
  - intros x r Hr Hx. exfalso. destruct (SortedFunc ranges) as [|r0 rs]; [by apply elem_of_nil in Hr|]. apply Forall_cons in Hok as [[Hmin Hmax] _]. rewrite int64_id in Hx by lia.
    apply StronglySorted_inv in Hs as [_ Hall]. rewrite Forall_forall in Hall. apply elem_of_cons in Hr as [->|Hr]; [lia|]. specialize (Hall r Hr). lia.
  - rewrite Hst. cbn [obind]. eexists. split_and!; [done|done| |].
    + intros i. cbn. rewrite Hx. unfold covered. cbn. by setoid_rewrite Hp.
    + unfold GrabBlock. rewrite grabLoop_ok. cbn. by rewrite union_empty_r_L.
Qed.

#[global] Instance max_ge_dec : RelDecision (λ a b, Max b ≤ Max a)%Z. Proof. intros a b. apply _. Defined.
#[global] Instance max_ge_total : Total (λ a b, Max b ≤ Max a)%Z. Proof. intros a b. lia. Qed.
#[global] Instance max_ge_trans : Transitive (λ a b, Max b ≤ Max a)%Z. Proof. intros a b c. lia. Qed.
#[global] Instance merge_sort_sorts : SortsDescending (merge_sort (λ a b, Max b ≤ Max a)%Z).
Proof. split; intros rs; [apply merge_sort_Permutation|by apply StronglySorted_merge_sort; apply _]. Qed.

Lemma index_allocator_exact_witness :
  GrabBlock 3 (MkIndexAllocator [1; 2; 5; 7; 8]%Z [MkIndexRange 3 4; MkIndexRange 6 6]) = ({[1; 2; 5]}%Z, None, MkIndexAllocator [7; 8]%Z [MkIndexRange 3 4; MkIndexRange 6 6]).
Proof.
  destruct (index_allocator_exact (merge_sort (λ a b, Max b ≤ Max a)%Z) [MkIndexRange 1 5; MkIndexRange 4 8; MkIndexRange 9 2] [MkIndexRange 3 4; MkIndexRange 6 6] 3) as (a&Ha&_&_&Hg).
  - repeat constructor; cbn; lia.
  - vm_compute in Ha. injection Ha as <-. exact Hg.
Defined.
