(* ===== verification/MarkBits.v ===== *)
(** * Mark bits: [felix/markbits/mark_bits.go]

    Felix is given some of the 32 bits of a packet's mark and shares them out: single bits for
    accept, pass and the like, and a block of bits in which endpoints are numbered.  A number is
    spread over the bits of the mask, and gathered from them again; both are inverse, for any mask.

    The reference definitions [deposit] and [extract] go through a mask bit by bit; the loops of
    [MapNumberToMark] and [MapMarkToNumber] are equal to them, and they are inverse.  The bits that
    are handed out are bits of the mask, and nobody else's. *)
From S2P Require Import Prelude.
From stdpp Require Import base list numbers strings.
From stdpp Require Import options.
#[local] Open Scope Z_scope.

Module markbits.
Record MarkBitsManager := MkMarkBitsManager {
  name : string;
  mask : Z;
  numBitsAllocated : Z;
  numFreeBits : Z
}.

Definition uint32 (z : Z) : Z := z mod 4294967296.

(** [mask&bit > 0] for [bit := uint32(1) << shift]. *)
Definition bit (shift : nat) : Z := uint32 (Z.shiftl 1 (Z.of_nat shift)).
Definition has (mask : Z) (shift : nat) : bool := 0 <? Z.land mask (bit shift).

Definition shifts : list nat := seq 0 32.

Definition countBits (markMask : Z) : Z := foldl (λ numBitsFound shift, if has markMask shift then numBitsFound + 1 else numBitsFound) 0 shifts.

Definition NewMarkBitsManager (markMask : Z) (markName : string) : MarkBitsManager := MkMarkBitsManager markName markMask 0 (countBits markMask).

Definition GetMask (mc : MarkBitsManager) : Z := mask mc.

Inductive MarkError := NoMarkBitFound | NotEnoughMarkBits | MarkBitNotCompatible.

Fixpoint nthLoop (mask n numBitsFound : Z) (ss : list nat) : outcome MarkError Z :=
  match ss with
  | [] => Fail NoMarkBitFound
  | shift :: ss' =>
      let candidate := bit shift in
      if has mask shift then if decide (numBitsFound = n) then Ret candidate else nthLoop mask n (numBitsFound + 1) ss'
      else nthLoop mask n numBitsFound ss'
  end.

Definition nthMark (n : Z) (mc : MarkBitsManager) : outcome MarkError Z := nthLoop (mask mc) n 0 shifts.

Definition NextSingleBitMark (mc : MarkBitsManager) : outcome MarkError (Z * MarkBitsManager) :=
  let! mark := nthMark (numBitsAllocated mc) mc in
  Ret (mark, MkMarkBitsManager (name mc) (mask mc) (numBitsAllocated mc + 1) (numFreeBits mc - 1)).

Definition AvailableMarkBitCount (mc : MarkBitsManager) : Z := numFreeBits mc.

(** The loop of [NextBlockBitsMark], with [k] turns left of [allocated + k]. *)
Fixpoint blockLoop (k : nat) (allocated mark : Z) (mc : MarkBitsManager) : Z * Z * MarkBitsManager :=
  match k with
  | O => (mark, allocated, mc)
  | S k' =>
      match NextSingleBitMark mc with
      | Ret (bit, mc) => blockLoop k' (allocated + 1) (Z.lor mark bit) mc
      | _ => (mark, allocated, mc)
      end
  end.

Definition NextBlockBitsMark (size : Z) (mc : MarkBitsManager) : Z * Z * MarkBitsManager :=
  if decide (size < 0) then (0, size, mc) else blockLoop (Z.to_nat size) 0 0 mc.

Definition CurrentFreeNumberOfMark (mc : MarkBitsManager) : Z := if decide (0 < numFreeBits mc) then Z.shiftl 1 (numFreeBits mc) else 0.

(** The loop of [MapNumberToMark] ends early when [number] is zero. *)
Fixpoint spreadLoop (mask : Z) (ss : list nat) (number mark numBitsFound : Z) : Z * Z :=
  match ss with
  | [] => (number, mark)
  | shift :: ss' =>
      if decide (0 < number) then
        let candidate := bit shift in
        if has mask shift then
          let value := Z.land number (uint32 (Z.shiftl 1 numBitsFound)) in
          if decide (0 < value) then spreadLoop mask ss' (number - value) (Z.lor mark candidate) (numBitsFound + 1)
          else spreadLoop mask ss' number mark (numBitsFound + 1)
        else spreadLoop mask ss' number mark numBitsFound
      else (number, mark)
  end.

Definition MapNumberToMark (n : Z) (mc : MarkBitsManager) : outcome MarkError Z :=
  let '(number, mark) := spreadLoop (mask mc) shifts (uint32 n) 0 0 in
  if decide (0 < number) then Fail NotEnoughMarkBits else Ret mark.

Fixpoint gatherLoop (mask mark : Z) (ss : list nat) (number numBitsFound : Z) : Z :=
  match ss with
  | [] => number
  | shift :: ss' =>
      if has mask shift then gatherLoop mask mark ss' (if has mark shift then number + uint32 (Z.shiftl 1 numBitsFound) else number) (numBitsFound + 1)
      else gatherLoop mask mark ss' number numBitsFound
  end.

Definition MapMarkToNumber (mark : Z) (mc : MarkBitsManager) : outcome MarkError Z :=
  if decide (Z.land mark (mask mc) ≠ mark) then Fail MarkBitNotCompatible else Ret (gatherLoop (mask mc) mark shifts 0 0).
End markbits.

Import markbits.

(** ** The reference definitions *)
Fixpoint deposit (n : nat) (mask m : Z) : Z :=
  match n with
  | O => 0
  | S n' => if Z.odd mask then m mod 2 + 2 * deposit n' (mask / 2) (m / 2) else 2 * deposit n' (mask / 2) m
  end.

Fixpoint extract (n : nat) (mask x : Z) : Z :=
  match n with
  | O => 0
  | S n' => if Z.odd mask then x mod 2 + 2 * extract n' (mask / 2) (x / 2) else extract n' (mask / 2) (x / 2)
  end.

Fixpoint ones (n : nat) (mask : Z) : nat :=
  match n with O => O | S n' => (if Z.odd mask then 1 else 0) + ones n' (mask / 2) end%nat.

Lemma ones_le n mask : (ones n mask ≤ n)%nat.
Proof. revert mask. induction n as [|n IH]; intros mask; cbn [ones]; [done|]. specialize (IH (mask / 2)). destruct (Z.odd mask); lia. Qed.

(** ** Arithmetic of bits *)
Lemma pow2_pos k : 0 < 2 ^ Z.of_nat k.
Proof. apply Z.pow_pos_nonneg; lia. Qed.

Lemma div_pow2_succ x a : x / 2 ^ Z.of_nat (S a) = x / 2 ^ Z.of_nat a / 2.
Proof. rewrite Nat2Z.inj_succ, Z.pow_succ_r, Z.mul_comm, Z.div_div by lia. done. Qed.

Lemma testbit_div x a : Z.testbit x (Z.of_nat a) = Z.odd (x / 2 ^ Z.of_nat a).
Proof. by rewrite <- Z.shiftr_div_pow2, <- Z.bit0_odd, Z.shiftr_spec, Z.add_0_l by lia. Qed.

Lemma bit_pow a : (a < 32)%nat → bit a = 2 ^ Z.of_nat a.
Proof.
  intros Ha. unfold bit, uint32. rewrite Z.shiftl_1_l, Z.mod_small; [done|]. pose proof (pow2_pos a). change 4294967296 with (2 ^ 32). split; [lia|]. apply Z.pow_lt_mono_r; lia.
Qed.

Lemma land_pow2 x a : Z.land x (2 ^ Z.of_nat a) = if Z.odd (x / 2 ^ Z.of_nat a) then 2 ^ Z.of_nat a else 0.
Proof.
  rewrite <- testbit_div. apply Z.bits_inj'. intros i Hi. rewrite Z.land_spec, Z.pow2_bits_eqb by lia. destruct (Z.eqb_spec (Z.of_nat a) i) as [<-|Hne].
  - rewrite andb_true_r. destruct (Z.testbit x (Z.of_nat a)); [|by rewrite Z.bits_0]. rewrite Z.pow2_bits_true; [done|lia].
  - rewrite andb_false_r. destruct (Z.testbit x (Z.of_nat a)); [|by rewrite Z.bits_0]. by rewrite Z.pow2_bits_false.
Qed.

Lemma has_odd x a : (a < 32)%nat → has x a = Z.odd (x / 2 ^ Z.of_nat a).
Proof. intros Ha. unfold has. rewrite bit_pow, land_pow2 by done. pose proof (pow2_pos a). destruct (Z.odd _); lia. Qed.

Lemma odd_mod2 x : x mod 2 = if Z.odd x then 1 else 0.
Proof. apply Zmod_odd. Qed.

Lemma halves x : x = x mod 2 + 2 * (x / 2).
Proof. pose proof (Z.div_mod x 2). lia. Qed.

Lemma half_of b x : 0 ≤ b < 2 → (b + 2 * x) / 2 = x ∧ (b + 2 * x) mod 2 = b.
Proof. intros Hb. rewrite (Z.add_comm b), (Z.mul_comm 2). split; [rewrite Z.div_add_l, Z.div_small; lia|]. rewrite Z.add_comm, Z.mod_add by lia. apply Z.mod_small. lia. Qed.

Lemma land_halves x y : Z.land x y = Z.land (x mod 2) (y mod 2) + 2 * Z.land (x / 2) (y / 2).
Proof.
  rewrite (halves (Z.land x y)). f_equal; [|f_equal].
  - rewrite !odd_mod2. rewrite <- !Z.bit0_odd, Z.land_spec. destruct (Z.testbit x 0), (Z.testbit y 0); done.
  - rewrite <- !Z.div2_div. by rewrite !Z.div2_spec, Z.shiftr_land.
Qed.

(** ** [deposit] and [extract] are inverse *)
Lemma deposit_0 n mask : deposit n mask 0 = 0.
Proof. revert mask. induction n as [|n IH]; intros mask; cbn [deposit]; [done|]. rewrite !IH. by destruct (Z.odd mask). Qed.

Lemma deposit_range n mask m : 0 ≤ deposit n mask m < 2 ^ Z.of_nat n.
Proof.
  revert mask m. induction n as [|n IH]; intros mask m; cbn [deposit]; [done|]. rewrite Nat2Z.inj_succ, Z.pow_succ_r by lia.
  pose proof (IH (mask / 2) (m / 2)). pose proof (IH (mask / 2) m). pose proof (Z.mod_pos_bound m 2). destruct (Z.odd mask); lia.
Qed.

Lemma deposit_in_mask n mask m : Z.land (deposit n mask m) mask = deposit n mask m.
Proof.
  revert mask m. induction n as [|n IH]; intros mask m; cbn [deposit]; [by rewrite Z.land_0_l|]. rewrite land_halves, (odd_mod2 mask). pose proof (Z.mod_pos_bound m 2).
  destruct (Z.odd mask).
  - destruct (half_of (m mod 2) (deposit n (mask / 2) (m / 2))) as [-> ->]; [lia|]. rewrite IH. f_equal. rewrite (odd_mod2 m). by destruct (Z.odd m).
  - destruct (half_of 0 (deposit n (mask / 2) m)) as [Hd Hm]; [lia|]. rewrite Z.add_0_l in Hd, Hm. rewrite Hd, Hm, IH. done.
Qed.

Lemma extract_deposit n mask m : extract n mask (deposit n mask m) = m mod 2 ^ Z.of_nat (ones n mask).
Proof.
  revert mask m. induction n as [|n IH]; intros mask m; cbn [deposit extract ones]; [by rewrite Z.mod_1_r|]. pose proof (Z.mod_pos_bound m 2). destruct (Z.odd mask).
  - destruct (half_of (m mod 2) (deposit n (mask / 2) (m / 2))) as [-> ->]; [lia|]. rewrite IH, Nat2Z.inj_add, Z.pow_add_r by lia. pose proof (pow2_pos (ones n (mask / 2))).
    rewrite Z.rem_mul_r by lia. done.
  - destruct (half_of 0 (deposit n (mask / 2) m)) as [Hd Hm]; [lia|]. rewrite Z.add_0_l in Hd. by rewrite Hd, IH.
Qed.

Lemma extract_range n mask x : 0 ≤ extract n mask x < 2 ^ Z.of_nat (ones n mask).
Proof.
  revert mask x. induction n as [|n IH]; intros mask x; cbn [extract ones]; [done|]. pose proof (IH (mask / 2) (x / 2)). pose proof (Z.mod_pos_bound x 2).
  destruct (Z.odd mask); [|done]. rewrite Nat2Z.inj_add, Z.pow_add_r by lia. change (2 ^ Z.of_nat 1) with 2. lia.
Qed.

Lemma deposit_extract n mask x : 0 ≤ x < 2 ^ Z.of_nat n → Z.land x mask = x → deposit n mask (extract n mask x) = x.
Proof.
  revert mask x. induction n as [|n IH]; intros mask x Hx Hl; cbn [deposit extract]; [cbn in Hx; lia|]. rewrite Nat2Z.inj_succ, Z.pow_succ_r in Hx by lia.
  rewrite land_halves in Hl. pose proof (Z.mod_pos_bound x 2). pose proof (halves x) as Hh.
  assert (0 ≤ Z.land (x mod 2) (mask mod 2) < 2) as Hb by (rewrite !odd_mod2; destruct (Z.odd x), (Z.odd mask); done).
  assert (Z.land (x mod 2) (mask mod 2) = x mod 2 ∧ Z.land (x / 2) (mask / 2) = x / 2) as [Hl0 Hl1] by lia.
  specialize (IH (mask / 2) (x / 2) ltac:(lia) Hl1). destruct (Z.odd mask) eqn:Hodd.
  - destruct (half_of (x mod 2) (extract n (mask / 2) (x / 2))) as [-> ->]; [lia|]. rewrite IH. lia.
  - rewrite IH. rewrite (odd_mod2 mask), Hodd, Z.land_0_r in Hl0. lia.
Qed.

(** ** The loops *)
Lemma uint32_pow k : 0 ≤ k < 32 → uint32 (Z.shiftl 1 k) = 2 ^ k.
Proof. intros Hk. pose proof (bit_pow (Z.to_nat k) ltac:(lia)) as Hb. unfold bit in Hb. by rewrite Z2Nat.id in Hb by lia. Qed.

Lemma gatherLoop_ok mask mark n a number k : (a + n ≤ 32)%nat → (k ≤ a)%nat →
  gatherLoop mask mark (seq a n) number (Z.of_nat k) = number + 2 ^ Z.of_nat k * extract n (mask / 2 ^ Z.of_nat a) (mark / 2 ^ Z.of_nat a).
Proof.
  revert a number k. induction n as [|n IH]; intros a number k Ha Hk; cbn [seq gatherLoop extract]; [lia|].
  rewrite !has_odd by lia. rewrite <- !div_pow2_succ. destruct (Z.odd (mask / 2 ^ Z.of_nat a)); [|rewrite IH by lia; done].
  replace (Z.of_nat k + 1) with (Z.of_nat (S k)) by lia. rewrite IH by lia. rewrite uint32_pow by lia. rewrite (odd_mod2 (mark / 2 ^ Z.of_nat a)).
  rewrite Nat2Z.inj_succ, Z.pow_succ_r by lia. destruct (Z.odd (mark / 2 ^ Z.of_nat a)); lia.
Qed.

(** What is left of the number when the bits of the mask are used up. *)
Lemma spreadLoop_ok mask n a m mark k : (a + n ≤ 32)%nat → (k ≤ a)%nat → 0 ≤ m → 0 ≤ mark < 2 ^ Z.of_nat a →
  let M := mask / 2 ^ Z.of_nat a in let c := ones n M in
  spreadLoop mask (seq a n) (2 ^ Z.of_nat k * m) mark (Z.of_nat k) = (2 ^ Z.of_nat (k + c) * (m / 2 ^ Z.of_nat c), mark + 2 ^ Z.of_nat a * deposit n M m).
Proof.
  cbv zeta. revert a m mark k. induction n as [|n IH]; intros a m mark k Ha Hk Hm Hmark; cbn [seq spreadLoop ones deposit].
  - rewrite Nat.add_0_r, Z.div_1_r. f_equal. lia.
  - pose proof (pow2_pos k) as Hpk. pose proof (pow2_pos a) as Hpa. case_decide as H0.
    2:{ assert (m = 0) as -> by nia. rewrite Z.mod_0_l, !Z.div_0_l, !deposit_0, !Z.mul_0_r by (try apply Z.pow_nonzero; lia). f_equal. by destruct (Z.odd _); lia. }
    assert (2 ^ Z.of_nat (S a) = 2 * 2 ^ Z.of_nat a) as HSa by (rewrite Nat2Z.inj_succ, Z.pow_succ_r; lia).
    assert (2 ^ Z.of_nat (S k) = 2 * 2 ^ Z.of_nat k) as HSk by (rewrite Nat2Z.inj_succ, Z.pow_succ_r; lia).
    rewrite has_odd by lia. rewrite <- !div_pow2_succ. destruct (Z.odd (mask / 2 ^ Z.of_nat a)) eqn:Hodd.
    + replace (Z.of_nat k + 1) with (Z.of_nat (S k)) by lia. rewrite uint32_pow by lia. rewrite land_pow2.
      rewrite (Z.mul_comm (2 ^ Z.of_nat k)), Z.div_mul by lia. pose proof (halves m) as Hh. rewrite (odd_mod2 m) in Hh |- *.
      assert (m / 2 ^ Z.of_nat (1 + ones n (mask / 2 ^ Z.of_nat (S a))) = m / 2 / 2 ^ Z.of_nat (ones n (mask / 2 ^ Z.of_nat (S a)))) as ->.
      { rewrite Nat2Z.inj_add, Z.pow_add_r, Z.div_div by (try apply pow2_pos; lia). done. }
      replace (k + (1 + ones n (mask / 2 ^ Z.of_nat (S a))))%nat with (S k + ones n (mask / 2 ^ Z.of_nat (S a)))%nat by lia.
      destruct (Z.odd m).
      * rewrite decide_True by done. rewrite bit_pow by lia. replace (Z.lor mark (2 ^ Z.of_nat a)) with (mark + 2 ^ Z.of_nat a).
        2:{ rewrite <- Z.lxor_lor, <- Z.add_nocarry_lxor; [done| |]; rewrite land_pow2, Z.div_small by lia; done. }
        replace (m * 2 ^ Z.of_nat k - 2 ^ Z.of_nat k) with (2 ^ Z.of_nat (S k) * (m / 2)) by (rewrite HSk; nia). rewrite IH by (try lia; apply Z.div_pos; lia). f_equal. rewrite HSa. lia.
      * rewrite decide_False by done. replace (m * 2 ^ Z.of_nat k) with (2 ^ Z.of_nat (S k) * (m / 2)) by (rewrite HSk; nia). rewrite IH by (try lia; apply Z.div_pos; lia). f_equal. rewrite HSa. lia.
    + rewrite IH by lia. f_equal. rewrite HSa. lia.
Qed.

Lemma MapNumberToMark_ok n mc : 0 ≤ n < 2 ^ 32 →
  MapNumberToMark n mc = if decide (n < 2 ^ Z.of_nat (ones 32 (mask mc))) then Ret (deposit 32 (mask mc) n) else Fail NotEnoughMarkBits.
Proof.
  intros Hn. unfold MapNumberToMark, uint32, shifts. rewrite Z.mod_small by done. pose proof (spreadLoop_ok (mask mc) 32 0 n 0 0 ltac:(lia) ltac:(lia) ltac:(lia) ltac:(cbn; lia)) as H. cbv zeta in H.
  change (2 ^ Z.of_nat 0) with 1 in H. change (Z.of_nat 0) with 0 in H. rewrite Z.div_1_r, !Z.mul_1_l, Nat.add_0_l, Z.add_0_l in H. rewrite H.
  set (c := ones 32 (mask mc)). pose proof (pow2_pos c). case_decide as Hlt; case_decide as Hle; [|done|done|].
  - rewrite Z.div_small in Hlt by lia. lia.
  - pose proof (Z.div_str_pos n (2 ^ Z.of_nat c)). nia.
Qed.

Lemma MapMarkToNumber_ok mark mc : MapMarkToNumber mark mc = if decide (Z.land mark (mask mc) ≠ mark) then Fail MarkBitNotCompatible else Ret (extract 32 (mask mc) mark).
Proof.
  unfold MapMarkToNumber, shifts. case_decide; [done|]. f_equal. pose proof (gatherLoop_ok (mask mc) mark 32 0 0 0 ltac:(lia) ltac:(lia)) as Hg.
  change (2 ^ Z.of_nat 0) with 1 in Hg. change (Z.of_nat 0) with 0 in Hg. rewrite !Z.div_1_r, Z.mul_1_l, Z.add_0_l in Hg. exact Hg.
Qed.

(** C38: Whatever the mask, numbers and marks within it are in bijection: a number below two to the
    number of bits of the mask is mapped to a mark within the mask, and back to itself; a larger
    one (of 32 bits) is refused; a mark within the mask is mapped to such a number, and back to
    itself; and a mark with another bit is refused. *)
Theorem mark_number_roundtrip (mc : MarkBitsManager) (n mark : Z) : 0 ≤ n < 2 ^ 32 → 0 ≤ mark < 2 ^ 32 →
  (if decide (n < 2 ^ Z.of_nat (ones 32 (mask mc)))
   then ∃ m, MapNumberToMark n mc = Ret m ∧ Z.land m (mask mc) = m ∧ MapMarkToNumber m mc = Ret n
   else MapNumberToMark n mc = Fail NotEnoughMarkBits) ∧
  (if decide (Z.land mark (mask mc) = mark)
   then ∃ k, MapMarkToNumber mark mc = Ret k ∧ 0 ≤ k < 2 ^ Z.of_nat (ones 32 (mask mc)) ∧ MapNumberToMark k mc = Ret mark
   else MapMarkToNumber mark mc = Fail MarkBitNotCompatible).
Proof.
  intros Hn Hm. split; case_decide as Hc.
  - exists (deposit 32 (mask mc) n). pose proof (deposit_in_mask 32 (mask mc) n) as Hd. split_and!; [by rewrite MapNumberToMark_ok, decide_True|done|].
    rewrite MapMarkToNumber_ok, decide_False by (by intros []). by rewrite extract_deposit, Z.mod_small by lia.
  - by rewrite MapNumberToMark_ok, decide_False.
  - pose proof (extract_range 32 (mask mc) mark) as He. exists (extract 32 (mask mc) mark). split_and!; [by rewrite MapMarkToNumber_ok, decide_False by (by intros [])|lia|lia|].
    rewrite MapNumberToMark_ok, decide_True, deposit_extract; [done|done|done|lia|]. pose proof (ones_le 32 (mask mc)). split; [lia|]. eapply Z.lt_le_trans; [apply He|]. apply Z.pow_le_mono_r; lia.
  - by rewrite MapMarkToNumber_ok, decide_True.
Qed.

Lemma mark_number_roundtrip_witness :
  let mc := NewMarkBitsManager 0x8a0 "endpoint" in MapNumberToMark 5 mc = Ret 0x820 ∧ MapMarkToNumber 0x820 mc = Ret 5 ∧ MapNumberToMark 8 mc = Fail NotEnoughMarkBits.
Proof.
  cbv zeta. destruct (mark_number_roundtrip (NewMarkBitsManager 0x8a0 "endpoint") 5 0x820) as [_ (k&Hk&_&Hn)]; [done|done|]. vm_compute in Hk. injection Hk as <-. split_and!; [exact Hn|done|done].
Defined.

(** ** Handing out bits *)
Definition positions (mask : Z) : list nat := filter (λ s, has mask s = true) shifts.
#[local] Arguments positions : simpl never.
#[local] Arguments countBits : simpl never.
Definition orAll (ps : list nat) : Z := foldr (λ p m, Z.lor (bit p) m) 0 ps.

(** A manager that has handed out the first [k] bits of its mask. *)
Definition at_bit (k : nat) (mc : MarkBitsManager) : Prop :=
  (k ≤ length (positions (mask mc)))%nat ∧ numBitsAllocated mc = Z.of_nat k ∧ numFreeBits mc = Z.of_nat (length (positions (mask mc)) - k).

Lemma nthLoop_ok mask n ss f : 0 ≤ f ≤ n → nthLoop mask n f ss = match filter (λ s, has mask s = true) ss !! Z.to_nat (n - f) with Some s => Ret (bit s) | None => Fail NoMarkBitFound end.
Proof.
  revert f. induction ss as [|s ss IH]; intros f Hf; cbn [nthLoop]; [done|]. rewrite filter_cons. destruct (has mask s); [|by rewrite decide_False, IH].
  destruct (decide (true = true)) as [_|[]]; [|done]. case_decide as Hn; [by subst; rewrite Z.sub_diag|]. rewrite IH by lia. replace (Z.to_nat (n - f)) with (S (Z.to_nat (n - (f + 1)))) by lia. done.
Qed.

Lemma countBits_ok mask : countBits mask = Z.of_nat (length (positions mask)).
Proof.
  unfold countBits, positions. generalize shifts as ss. intros ss. rewrite <- (Z.add_0_l (Z.of_nat _)). generalize 0 as c. induction ss as [|s ss IH]; intros c; cbn [foldl]; [cbn; lia|].
  rewrite IH, filter_cons. destruct (has mask s); [rewrite decide_True by done; cbn [length]|rewrite decide_False by done]; lia.
Qed.

Lemma New_at mask name : at_bit 0 (NewMarkBitsManager mask name).
Proof. unfold at_bit. cbn. rewrite countBits_ok, Nat.sub_0_r. split_and!; [lia|done|done]. Qed.

Lemma NextSingle_ok k mc : at_bit k mc →
  match positions (mask mc) !! k with
  | Some p => ∃ mc', NextSingleBitMark mc = Ret (bit p, mc') ∧ at_bit (S k) mc' ∧ mask mc' = mask mc
  | None => NextSingleBitMark mc = Fail NoMarkBitFound
  end.
Proof.
  intros (Hk&Ha&Hf). unfold NextSingleBitMark, nthMark. rewrite nthLoop_ok by lia. rewrite Ha, Z.sub_0_r, Nat2Z.id. change (filter _ shifts) with (positions (mask mc)).
  destruct (positions (mask mc) !! k) as [p|] eqn:Hp; [|done]. apply lookup_lt_Some in Hp. eexists. split_and!; [done| |done]. unfold at_bit. cbn. split_and!; lia.
Qed.

Lemma blockLoop_ok j k got mark mc : at_bit k mc →
  let seg := take j (drop k (positions (mask mc))) in
  ∃ mc', blockLoop j got mark mc = (Z.lor mark (orAll seg), got + Z.of_nat (length seg), mc') ∧ at_bit (k + length seg) mc' ∧ mask mc' = mask mc.
Proof.
  cbv zeta. revert k got mark mc. induction j as [|j IH]; intros k got mark mc Hat; cbn [blockLoop]; [exists mc; cbn; by rewrite Z.lor_0_r, Z.add_0_r, Nat.add_0_r|].
  pose proof (NextSingle_ok k mc Hat) as Hn. destruct (positions (mask mc) !! k) as [p|] eqn:Hp.
  - destruct Hn as (mc1&Hr&Hat1&Hm1). rewrite Hr. destruct (IH (S k) (got + 1) (Z.lor mark (bit p)) mc1 Hat1) as (mc2&Hr2&Hat2&Hm2). rewrite Hm1 in *. exists mc2.
    rewrite (drop_S _ p k Hp). cbn [take orAll foldr length]. fold (orAll (take j (drop (S k) (positions (mask mc))))). rewrite Hr2, Z.lor_assoc. split_and!; [f_equal; f_equal; lia| |done].
    by rewrite Nat.add_succ_comm in Hat2.
  - rewrite Hn. exists mc. rewrite drop_ge by (by apply lookup_ge_None). rewrite take_nil. cbn. rewrite Z.lor_0_r, Z.add_0_r, Nat.add_0_r. done.
Qed.

Fixpoint blocks (sizes : list nat) (mc : MarkBitsManager) : list (Z * Z) * MarkBitsManager :=
  match sizes with
  | [] => ([], mc)
  | size :: sizes' =>
      let '(mark, got, mc) := NextBlockBitsMark (Z.of_nat size) mc in
      let '(l, mc) := blocks sizes' mc in ((mark, got) :: l, mc)
  end.

(** The segments that requests of these sizes cut off a list. *)
Fixpoint segments (sizes : list nat) (ps : list nat) : list (list nat) :=
  match sizes with [] => [] | size :: sizes' => take size ps :: segments sizes' (drop size ps) end.

Lemma blocks_ok sizes k mc : at_bit k mc →
  ∃ mc' k', blocks sizes mc = ((λ seg, (orAll seg, Z.of_nat (length seg))) <$> segments sizes (drop k (positions (mask mc))), mc') ∧ at_bit k' mc' ∧ mask mc' = mask mc ∧
    drop k' (positions (mask mc)) = drop (sum_list sizes) (drop k (positions (mask mc))).
Proof.
  revert k mc. induction sizes as [|size sizes IH]; intros k mc Hat; cbn [blocks segments]; [exists mc, k; rewrite drop_0; done|].
  unfold NextBlockBitsMark. rewrite decide_False, Nat2Z.id by lia. destruct (blockLoop_ok size k 0 0 mc Hat) as (mc1&Hr1&Hat1&Hm1). rewrite Hr1.
  destruct (IH _ mc1 Hat1) as (mc2&k2&Hr2&Hat2&Hm2&Hd2). rewrite Hr2, Hm1. rewrite Hm1 in Hd2. exists mc2, k2.
  assert (drop (k + length (take size (drop k (positions (mask mc))))) (positions (mask mc)) = drop size (drop k (positions (mask mc)))) as Hdrop.
  { rewrite <- drop_drop, length_take. destruct (decide (size ≤ length (drop k (positions (mask mc))))%nat); [by rewrite Nat.min_l|]. rewrite Nat.min_r, !drop_ge by lia. done. }
  rewrite Hdrop in *. split_and!; [by rewrite Z.lor_0_l, Z.add_0_l|done|congruence|]. rewrite Hd2. cbn [sum_list sum_list_with]. by rewrite drop_drop.
Qed.

Lemma orAll_testbit ps i : Forall (λ p, p < 32)%nat ps → 0 ≤ i → Z.testbit (orAll ps) i = true ↔ ∃ p, p ∈ ps ∧ i = Z.of_nat p.
Proof.
  intros Hps Hi. induction Hps as [|p ps Hp Hps IH]; cbn [orAll foldr]; [rewrite Z.bits_0; split; [done|by intros (?&?%elem_of_nil&_)]|].
  rewrite Z.lor_spec, orb_true_iff. fold (orAll ps). rewrite IH, bit_pow, Z.pow2_bits_eqb, Z.eqb_eq by lia. setoid_rewrite elem_of_cons. naive_solver.
Qed.

Lemma segments_subset sizes ps seg p : seg ∈ segments sizes ps → p ∈ seg → p ∈ ps.
Proof.
  revert ps. induction sizes as [|size sizes IH]; intros ps; cbn [segments]; [by intros ?%elem_of_nil|]. intros [->|Hin]%elem_of_cons Hp.
  - rewrite <- (take_drop size ps). apply elem_of_app. by left.
  - rewrite <- (take_drop size ps). apply elem_of_app. right. by apply (IH _ Hin).
Qed.

Lemma segments_disjoint sizes ps i j a b : NoDup ps → (i < j)%nat → segments sizes ps !! i = Some a → segments sizes ps !! j = Some b → ∀ p, p ∈ a → p ∈ b → False.
Proof.
  revert ps i j. induction sizes as [|size sizes IH]; intros ps i j Hnd Hij; cbn [segments]; [done|]. destruct j as [|j]; [lia|]. cbn. rewrite <- (take_drop size ps) in Hnd. apply NoDup_app in Hnd as (_&Hdis&Hnd).
  destruct i as [|i]; cbn; [|intros Ha Hb; eapply IH; [exact Hnd| |exact Ha|exact Hb]; lia]. intros [=<-] Hb p Ha Hp. apply (Hdis p Ha). eapply segments_subset; [by eapply list_elem_of_lookup_2|done].
Qed.

Lemma positions_spec mask p : p ∈ positions mask ↔ (p < 32)%nat ∧ Z.testbit mask (Z.of_nat p) = true.
Proof. unfold positions, shifts. rewrite list_elem_of_filter, elem_of_seq. split; [intros [Hh Hp]|intros [Hp Hh]]; [rewrite has_odd, <- testbit_div in Hh by lia|rewrite has_odd, <- testbit_div by lia]; (split; [|done || lia]); done || lia. Qed.

(** Ask a new manager for blocks of bits of any sizes, one after the other (a single bit is a block
    of one).  Every request is given the lowest bits of the mask that nobody has yet, as many as
    asked for or as are left, and is told how many: so the marks are within the mask, no two share
    a bit, and what is still available is what has not been handed out. *)
Theorem mark_bits_handed_out (mask : Z) (name : string) (sizes : list nat) :
  ∃ l mc, blocks sizes (NewMarkBitsManager mask name) = (l, mc) ∧
    l = ((λ seg, (orAll seg, Z.of_nat (length seg))) <$> segments sizes (positions mask)) ∧
    (∀ i m g, l !! i = Some (m, g) → Z.land m mask = m) ∧
    (∀ i j m g m' g', (i < j)%nat → l !! i = Some (m, g) → l !! j = Some (m', g') → Z.land m m' = 0) ∧
    AvailableMarkBitCount mc = Z.of_nat (length (positions mask) - sum_list sizes).
Proof.
  destruct (blocks_ok sizes 0 (NewMarkBitsManager mask name) (New_at mask name)) as (mc&k&Hb&(Hk&_&Hfree)&Hm&Hd). cbn [markbits.mask NewMarkBitsManager] in *. rewrite drop_0 in *.
  assert (∀ seg, seg ∈ segments sizes (positions mask) → Forall (λ p, p < 32)%nat seg) as H32.
  { intros seg Hseg. apply Forall_forall. intros p Hp. eapply segments_subset in Hp; [|done]. by apply positions_spec in Hp as []. }
  eexists _, mc. split_and!; [exact Hb|done| | |].
  - intros i m g (seg&[=-> ->]&Hi)%list_lookup_fmap_Some. apply list_elem_of_lookup_2 in Hi. apply Z.bits_inj'. intros x Hx. rewrite Z.land_spec. destruct (Z.testbit (orAll seg) x) eqn:Ht; [|done].
    apply orAll_testbit in Ht as (p&Hp&->); [|by apply H32|done]. eapply segments_subset in Hp; [|done]. by apply positions_spec in Hp as [_ ->].
  - intros i j m g m' g' Hij (seg&[=-> ->]&Hi)%list_lookup_fmap_Some (seg'&[=-> ->]&Hj)%list_lookup_fmap_Some. apply Z.bits_inj'. intros x Hx. rewrite Z.land_spec, Z.bits_0. apply not_true_is_false. rewrite andb_true_iff.
    intros [(p&Hp&->)%orAll_testbit (p'&Hp'&?%Nat2Z.inj)%orAll_testbit]; [|by eapply H32, list_elem_of_lookup_2|done|by eapply H32, list_elem_of_lookup_2|done]. subst p'.
    eapply segments_disjoint; [|done|exact Hi|exact Hj|exact Hp|exact Hp']. apply NoDup_filter, NoDup_seq.
  - unfold AvailableMarkBitCount. rewrite Hfree, Hm. f_equal. apply (f_equal length) in Hd. rewrite !length_drop in Hd. done.
Qed.

Lemma mark_bits_handed_out_witness :
  blocks [1; 2; 2]%nat (NewMarkBitsManager 0xd2 "felix") = ([(0x2, 1); (0x50, 2); (0x80, 1)], MkMarkBitsManager "felix" 0xd2 4 0).
Proof.
  destruct (mark_bits_handed_out 0xd2 "felix" [1; 2; 2]%nat) as (l&mc&Hb&Hl&_). rewrite Hb. vm_compute in Hl. subst l. vm_compute in Hb. by injection Hb as <-.
Defined.
