(* ===== verification/PolicyIPSet.v ===== *)
(** * IP sets of the policy store: [app-policy/policystore/ipset.go]

    The policy checker keeps the IP sets that it is sent as sets of texts, or, for sets of networks,
    as a pair of tries: one level for each bit of a prefix, and a bitmap of 256 bits at the level
    before the last byte, for the many members that are single addresses.  [Nil] is the nil pointer;
    nodes are not shared.

    The trie, whatever was inserted and removed, has the prefixes that were inserted and not removed
    since; and an address is found when one of them covers it, unless the prefix ends within the
    last byte: the bitmap hides what is below it. *)
From S2P Require Import Prelude ModelRule Tokenizer CIDR CIDRTrieSpec MemberDedup NetIP NamedPortCandidates NamedPortUpdates NetString NetParse ProtoMessages RuleScanner.
From Stdlib Require Import Ascii.
From stdpp Require Import base list gmap numbers strings pretty.
From stdpp Require Import options.
#[local] Open Scope Z_scope.

Module ipset.
Inductive trieNode :=
  | Nil
  | TrieNode (member : bool) (bitmap : option (list Z)) (child0 child1 : trieNode).

Definition emptyNode : trieNode := TrieNode false None Nil Nil.

(** ** [networkBitmap]: four words of 64 bits *)
Definition emptyBitmap : list Z := replicate 4 0.

Definition isEmpty (bm : list Z) : bool := forallb (Z.eqb 0) bm.

Definition setAt (index : Z) (value : bool) (bm : list Z) : outcome Empty_set (list Z) :=
  let ii := Z.to_nat (index / 64) in let bi := index mod 64 in
  match bm !! ii with
  | None => Panic
  | Some w => Ret (<[ii := if value then Z.lor w (Z.shiftl 1 bi) else Z.ldiff w (Z.shiftl 1 bi)]> bm)
  end.

Definition bitmapContains (index : Z) (bm : list Z) : outcome Empty_set bool :=
  let ii := Z.to_nat (index / 64) in let bi := index mod 64 in
  match bm !! ii with None => Panic | Some w => Ret (negb (Z.land w (Z.shiftl 1 bi) =? 0)) end.

(** ** The trie *)
Definition getBitAt (ip : NetIP) (depth : nat) : outcome Empty_set bool :=
  let bi := (7 - Z.of_nat depth mod 8) in
  match ip !! (depth / 8)%nat with None => Panic | Some b => Ret (Z.shiftr (Z.land b (Z.shiftl 1 bi)) bi =? 1) end.

(** [ip[len(ip)-1]]. *)
Definition lastByte (ip : NetIP) : outcome Empty_set Z := match last ip with None => Panic | Some b => Ret b end.

Definition child (b : bool) (c0 c1 : trieNode) : trieNode := if b then c1 else c0.
Definition setChild (b : bool) (c c0 c1 : trieNode) : trieNode * trieNode := if b then (c0, c) else (c, c1).

(** The recursion goes one level down at each call, so [fuel] levels are left. *)
Fixpoint insert (fuel : nat) (ip : NetIP) (depth mask bitmapDepth : nat) (n : trieNode) : outcome Empty_set trieNode :=
  match n, fuel with
  | Nil, _ => Panic
  | TrieNode member bitmap c0 c1, O => OutOfFuel
  | TrieNode member bitmap c0 c1, S fuel' =>
      if decide (depth = mask) then Ret (TrieNode true bitmap c0 c1)
      else if decide (depth = bitmapDepth ∧ mask = bitmapDepth + 8)%nat then
        let! last := lastByte ip in
        match bitmap with None => Panic | Some bm => let! bm := setAt last true bm in Ret (TrieNode member (Some bm) c0 c1) end
      else
        let! b := getBitAt ip depth in
        let next := match child b c0 c1 with
                    | Nil => TrieNode false (if decide (S depth = bitmapDepth) then Some emptyBitmap else None) Nil Nil
                    | n => n
                    end in
        let! next := insert fuel' ip (S depth) mask bitmapDepth next in
        let '(c0, c1) := setChild b next c0 c1 in
        Ret (TrieNode member bitmap c0 c1)
  end.

Definition okToRemove (n : trieNode) : bool :=
  match n with
  | Nil => true
  | TrieNode member bitmap c0 c1 =>
      if member then false
      else match c0, c1 with Nil, Nil => match bitmap with None => true | Some bm => isEmpty bm end | _, _ => false end
  end.

Fixpoint remove (ip : NetIP) (depth mask : nat) (n : trieNode) : outcome Empty_set trieNode :=
  match n with
  | Nil => Panic
  | TrieNode member bitmap c0 c1 =>
      if decide (depth = mask) then Ret (TrieNode false bitmap c0 c1)
      else
        match bitmap, bool_decide (mask = depth + 8)%nat with
        | Some bm, true => let! last := lastByte ip in let! bm := setAt last false bm in Ret (TrieNode member (Some bm) c0 c1)
        | _, _ =>
            let! b := getBitAt ip depth in
            match child b c0 c1 with
            | Nil => Ret (TrieNode member bitmap c0 c1)
            | _ =>
                let! next := (if b then remove ip (S depth) mask c1 else remove ip (S depth) mask c0) in
                let '(c0, c1) := setChild b (if okToRemove next then Nil else next) c0 c1 in
                Ret (TrieNode member bitmap c0 c1)
            end
        end
  end.

Fixpoint containsIP (ip : NetIP) (depth : nat) (n : trieNode) : outcome Empty_set bool :=
  match n with
  | Nil => Panic
  | TrieNode member bitmap c0 c1 =>
      if member then Ret true
      else
        match bitmap with
        | Some bm => let! last := lastByte ip in bitmapContains last bm
        | None =>
            let! b := getBitAt ip depth in
            match child b c0 c1 with
            | Nil => Ret false
            | _ => if b then containsIP ip (S depth) c1 else containsIP ip (S depth) c0
            end
        end
  end.

(** ** Sets *)
Record ipNetSet := MkIpNetSet { v4 : trieNode; v6 : trieNode }.

Inductive IPSet :=
  | ipMapSet (m : gset string)
  | ipPortMapSet (m : gset string)
  | ipNets (m : ipNetSet).

Definition NewIPSet (t : IPSetType) : IPSet :=
  match t with
  | IPSetUpdate_IP => ipMapSet ∅
  | IPSetUpdate_IP_AND_PORT => ipPortMapSet ∅
  | IPSetUpdate_NET => ipNets (MkIpNetSet emptyNode emptyNode)
  end.

(** [strconv.ParseUint(s, 10, 64)]. *)
Definition ParseUint64 (s : string) : option N :=
  if decide (s = "") then None else match parseDigits 0 s with Some n => if (n <? 2 ^ 64)%N then Some n else None | None => None end.

Definition parseCIDR (network : string) : outcome Empty_set (NetIP * N) :=
  let r := splitAll "/" network in
  match r !! 0%nat, r !! 1%nat with
  | Some addr, Some m =>
      match ParseUint64 m with
      | None => Panic
      | Some mask => match ParseIP addr with None => Panic | Some ip => Ret (ip, mask) end
      end
  | _, _ => Panic
  end.

Definition netAdd (network : string) (m : ipNetSet) : outcome Empty_set ipNetSet :=
  let! (ip, mask) := parseCIDR network in
  let k := N.to_nat mask in
  match To4 ip, bool_decide (mask <= 32)%N with
  | Some ip4, true => let! n := insert (S k) ip4 0 k 24 (v4 m) in Ret (MkIpNetSet n (v6 m))
  | _, _ => if decide (mask <= 128)%N then let! n := insert (S k) ip 0 k 120 (v6 m) in Ret (MkIpNetSet (v4 m) n) else Panic
  end.

Definition netRemove (network : string) (m : ipNetSet) : outcome Empty_set ipNetSet :=
  let! (ip, mask) := parseCIDR network in
  let k := N.to_nat mask in
  match To4 ip, bool_decide (mask <= 32)%N with
  | Some ip4, true => let! n := remove ip4 0 k (v4 m) in Ret (MkIpNetSet n (v6 m))
  | _, _ => if decide (mask <= 128)%N then let! n := remove ip 0 k (v6 m) in Ret (MkIpNetSet (v4 m) n) else Panic
  end.

Definition netContains (addr : string) (m : ipNetSet) : outcome Empty_set bool :=
  match ParseIP addr with
  | None => Ret false
  | Some ip => match To4 ip with Some ip4 => containsIP ip4 0 (v4 m) | None => containsIP ip 0 (v6 m) end
  end.

Definition AddString (ip : string) (s : IPSet) : outcome Empty_set IPSet :=
  match s with
  | ipMapSet m => Ret (ipMapSet ({[ip]} ∪ m))
  | ipPortMapSet m => Ret (ipPortMapSet ({[ip]} ∪ m))
  | ipNets m => let! m := netAdd ip m in Ret (ipNets m)
  end.

Definition RemoveString (ip : string) (s : IPSet) : outcome Empty_set IPSet :=
  match s with
  | ipMapSet m => Ret (ipMapSet (m ∖ {[ip]}))
  | ipPortMapSet m => Ret (ipPortMapSet (m ∖ {[ip]}))
  | ipNets m => let! m := netRemove ip m in Ret (ipNets m)
  end.

Definition Contains (addr : string) (s : IPSet) : outcome Empty_set bool :=
  match s with
  | ipMapSet m => Ret (bool_decide (addr ∈ m))
  | ipPortMapSet m => Ret (bool_decide (addr ∈ m))
  | ipNets m => netContains addr m
  end.
End ipset.

Import ipset.

(** ** Bytes and bitmaps *)
Definition bitsVal (p : list bool) : Z := foldl (λ v b, 2 * v + Z.b2z b) 0 p.
Definition bmBit (bm : list Z) (i : Z) : bool := match bm !! Z.to_nat (i / 64) with Some w => Z.testbit w (i mod 64) | None => false end.

Lemma bitsVal_byte p : length p = 8%nat → 0 <= bitsVal p < 256 ∧ wordBits 8 (bitsVal p) = p.
Proof. intros H. do 8 (destruct p as [|[] p]; [done|..]); (destruct p; [|done]); vm_compute; split_and!; congruence. Qed.

Lemma bitsVal_word b : 0 <= b < 256 → bitsVal (wordBits 8 b) = b.
Proof. intros Hb. assert (Hp : allBelow 256 (λ b, bool_decide (bitsVal (wordBits 8 b) = b)) = true) by (vm_compute; reflexivity). apply (allBelow_spec _ _ b) in Hp; [|lia]. by apply bool_decide_eq_true in Hp. Qed.

Lemma bitmapContains_ok i bm : 0 <= i < 256 → length bm = 4%nat → bitmapContains i bm = Ret (bmBit bm i).
Proof.
  intros Hi Hl. unfold bitmapContains, bmBit. destruct (lookup_lt_is_Some_2 bm (Z.to_nat (i / 64))) as [w Hw]; [rewrite Hl; pose proof (Z.div_lt_upper_bound i 64 4); lia|]. rewrite Hw. f_equal.
  pose proof (Z.mod_pos_bound i 64 ltac:(lia)) as Hm. rewrite Z.shiftl_1_l. destruct (Z.testbit w (i mod 64)) eqn:Ht.
  - destruct (Z.eqb_spec (Z.land w (2 ^ (i mod 64))) 0) as [H0|]; [|done]. apply (f_equal (λ x, Z.testbit x (i mod 64))) in H0. rewrite Z.land_spec, Ht, Z.pow2_bits_true, Z.bits_0 in H0 by lia. done.
  - destruct (Z.eqb_spec (Z.land w (2 ^ (i mod 64))) 0) as [|H0]; [done|]. exfalso. apply H0, Z.bits_inj'. intros j Hj. rewrite Z.land_spec, Z.pow2_bits_eqb, Z.bits_0 by lia.
    destruct (Z.eqb_spec (i mod 64) j) as [<-|]; [by rewrite Ht|apply andb_false_r].
Qed.

Lemma setAt_ok i v bm : 0 <= i < 256 → length bm = 4%nat →
  ∃ bm', setAt i v bm = Ret bm' ∧ length bm' = 4%nat ∧ ∀ j, 0 <= j < 256 → bmBit bm' j = if decide (j = i) then v else bmBit bm j.
Proof.
  intros Hi Hl. unfold setAt. destruct (lookup_lt_is_Some_2 bm (Z.to_nat (i / 64))) as [w Hw]; [rewrite Hl; pose proof (Z.div_lt_upper_bound i 64 4); lia|]. rewrite Hw. eexists. split; [done|]. split; [by rewrite length_insert|].
  pose proof (Z.mod_pos_bound i 64 ltac:(lia)) as Hm. intros j Hj. pose proof (Z.mod_pos_bound j 64 ltac:(lia)) as Hmj. unfold bmBit. rewrite Z.shiftl_1_l. destruct (decide (Z.to_nat (j / 64) = Z.to_nat (i / 64))) as [He|Hne].
  - rewrite He, list_lookup_insert_eq, Hw by (by eapply lookup_lt_Some). assert (j / 64 = i / 64) as Hq by (pose proof (Z.div_pos i 64); pose proof (Z.div_pos j 64); lia).
    assert (Hbit : Z.testbit (2 ^ (i mod 64)) (j mod 64) = bool_decide (j = i)).
    { rewrite Z.pow2_bits_eqb by lia. destruct (decide (j = i)) as [->|Hji]; [by rewrite Z.eqb_refl, bool_decide_eq_true_2|]. rewrite bool_decide_eq_false_2 by done. apply Z.eqb_neq. intros Heq. apply Hji.
      rewrite (Z.div_mod i 64), (Z.div_mod j 64) by lia. lia. }
    destruct v; [rewrite Z.lor_spec|rewrite Z.ldiff_spec]; rewrite Hbit; destruct (decide (j = i)) as [->|Hji]; rewrite ?bool_decide_eq_true_2, ?bool_decide_eq_false_2 by done; by rewrite ?orb_true_r, ?orb_false_r, ?andb_false_r, ?andb_true_r.
  - rewrite list_lookup_insert_ne by done. rewrite decide_False; [done|]. by intros ->.
Qed.

Lemma isEmpty_bits bm j : isEmpty bm = true → bmBit bm j = false.
Proof.
  intros He. unfold bmBit. destruct (bm !! Z.to_nat (j / 64)) as [w|] eqn:Hw; [|done]. apply list_elem_of_lookup_2 in Hw. unfold isEmpty in He. rewrite forallb_forall in He.
  specialize (He w ltac:(by apply list_elem_of_In)). apply Z.eqb_eq in He as <-. apply Z.bits_0.
Qed.

(** ** The prefixes in a trie *)
Fixpoint hasPrefix (t : trieNode) (p : list bool) : bool :=
  match t with
  | Nil => false
  | TrieNode member bitmap c0 c1 =>
      match p with
      | [] => member
      | b :: p' =>
          let below := if b then hasPrefix c1 p' else hasPrefix c0 p' in
          match bitmap with Some bm => if decide (length p = 8%nat) then bmBit bm (bitsVal p) else below | None => below end
      end
  end.

(** Bitmaps are at depth [B], and only there. *)
Fixpoint trie_wf (B d : nat) (t : trieNode) : Prop :=
  match t with
  | Nil => True
  | TrieNode _ bitmap c0 c1 => match bitmap with Some bm => d = B ∧ length bm = 4%nat | None => d ≠ B end ∧ trie_wf B (S d) c0 ∧ trie_wf B (S d) c1
  end.

Lemma bytesBits_lookup ip d b : ip !! (d / 8)%nat = Some b → bytesBits ip !! d = Some (Z.testbit b (7 - Z.of_nat d mod 8)).
Proof.
  revert d. induction ip as [|b0 ip IH]; intros d; [done|]. unfold bytesBits. rewrite bind_cons. fold (bytesBits ip). destruct (decide (d < 8)%nat) as [Hd|Hd].
  - rewrite Nat.div_small by done. intros [= <-]. rewrite lookup_app_l by (by rewrite wordBits_length). rewrite wordBits_lookup by done. do 2 f_equal. rewrite Z.mod_small by lia. lia.
  - replace d with ((d - 8) + 1 * 8)%nat at 1 by lia. rewrite Nat.div_add, Nat.add_1_r by lia. intros Hl. change (ip !! ((d - 8) / 8)%nat = Some b) in Hl. rewrite lookup_app_r, wordBits_length by (rewrite wordBits_length; lia).
    rewrite (IH _ Hl). do 2 f_equal. replace (Z.of_nat d) with (Z.of_nat (d - 8) + 1 * 8) by lia. by rewrite Z.mod_add by lia.
Qed.

Lemma hasPrefix_setChild b next c0 c1 (b' : bool) q :
  hasPrefix (if b' then (setChild b next c0 c1).2 else (setChild b next c0 c1).1) q = if decide (b = b') then hasPrefix next q else hasPrefix (if b' then c1 else c0) q.
Proof. by destruct b, b'. Qed.

Section bytes.
Context (ip : NetIP) (B : nat) (Hb : bytes_ok ip) (HB : (8 * length ip = B + 8)%nat).
Abbreviation bits := (bytesBits ip).

Lemma getBitAt_ok d : (d < B + 8)%nat → ∃ b, getBitAt ip d = Ret b ∧ drop d bits = b :: drop (S d) bits.
Proof using HB.
  intros Hd. destruct (lookup_lt_is_Some_2 ip (d / 8)%nat) as [b Hl]; [apply Nat.Div0.div_lt_upper_bound; lia|]. pose proof (bytesBits_lookup _ _ _ Hl) as Hbit. exists (Z.testbit b (7 - Z.of_nat d mod 8)). split; [|by apply drop_S].
  unfold getBitAt. rewrite Hl. f_equal. pose proof (Z.mod_pos_bound (Z.of_nat d) 8 ltac:(lia)). set (k := 7 - Z.of_nat d mod 8) in *. rewrite Z.shiftr_land, Z.shiftr_shiftl_l, Z.sub_diag, Z.shiftl_0_r by lia.
  rewrite <- (Z.add_0_l k) at 2. rewrite <- Z.shiftr_spec by lia. change 1 with (Z.ones 1). rewrite Z.land_ones by lia. change (2 ^ 1) with 2. rewrite Zmod_odd, <- Z.bit0_odd. by destruct (Z.testbit (Z.shiftr b k) 0).
Qed.

Lemma lastByte_ok : ∃ l, lastByte ip = Ret l ∧ 0 <= l < 256 ∧ wordBits 8 l = drop B bits.
Proof using Hb HB.
  destruct (@exists_last _ ip) as (ip'&l&Heq); [intros Heq; rewrite Heq in HB; cbn in HB; lia|]. exists l. unfold lastByte. rewrite Heq, last_snoc. pose proof Hb as Hb'. rewrite Heq in Hb'. apply Forall_app in Hb' as [_ [Hl _]%list.Forall_cons]. split_and!; [done|apply Hl|apply Hl|].
  unfold bytesBits. rewrite bind_app. fold (bytesBits ip'). rewrite drop_app_length'; [symmetry; apply app_nil_r|]. rewrite bytesBits_length. rewrite Heq, length_app in HB. cbn in HB. lia.
Qed.

Lemma rest_last : ∃ l, lastByte ip = Ret l ∧ 0 <= l < 256 ∧ ∀ q, length q = 8%nat → bitsVal q = l ↔ q = drop B bits.
Proof using Hb HB.
  destruct lastByte_ok as (l&Hl&Hr&Hw). exists l. split_and!; [done|lia|lia|]. intros q Hq. destruct (bitsVal_byte q Hq) as [_ Hv]. split; [intros <-; congruence|]. intros ->. rewrite <- Hw. by apply bitsVal_word.
Qed.

Lemma hasPrefix_fresh bm p : bm = None ∨ bm = Some emptyBitmap → hasPrefix (TrieNode false bm Nil Nil) p = false.
Proof using Type. clear. intros [->| ->]; destruct p as [|b p]; [done|by destruct b|done|]. cbn [hasPrefix]. case_decide; [by apply isEmpty_bits|]. by destruct b. Qed.

Lemma hasPrefix_removable t p : okToRemove t = true → hasPrefix t p = false.
Proof using Type. clear. destruct t as [|[] [bm|] [] []]; try done; intros He; destruct p as [|b p]; try done; cbn [hasPrefix]; [|by destruct b]. case_decide; [by apply isEmpty_bits|by destruct b]. Qed.

(** The prefix that is left at depth [d]. *)
Abbreviation rest d mask := (take (mask - d) (drop d bits)).

Lemma rest_S d mask b : (d < mask)%nat → drop d bits = b :: drop (S d) bits → rest d mask = b :: rest (S d) mask.
Proof using Type. clear Hb HB. intros Hd Hb'. rewrite Hb'. replace (mask - d)%nat with (S (mask - S d)) by lia. done. Qed.

Lemma rest_nil d : rest d d = [].
Proof using Type. by rewrite Nat.sub_diag. Qed.

Lemma rest_length d mask : (d <= mask <= B + 8)%nat → length (rest d mask) = (mask - d)%nat.
Proof using HB. intros H. rewrite length_take, length_drop, bytesBits_length. lia. Qed.

Lemma insert_ok fuel d mask t : (d <= mask <= B + 8)%nat → (mask - d < fuel)%nat → trie_wf B d t → t ≠ Nil →
  ∃ t', insert fuel ip d mask B t = Ret t' ∧ trie_wf B d t' ∧ t' ≠ Nil ∧ ∀ q, hasPrefix t' q = bool_decide (q = rest d mask) || hasPrefix t q.
Proof using Hb HB.
  revert d t. induction fuel as [|fuel IH]; intros d t Hd Hf Hwf Hne; [lia|]. destruct t as [|m bm c0 c1]; [done|]. cbn [insert]. destruct Hwf as (Hbm&Hw0&Hw1).
  destruct (decide (d = mask)) as [<-|Hdm]; [eexists; split_and!; [done|done|done|]; intros q; rewrite rest_nil; by destruct q|].
  case_decide as Hlast.
  - destruct Hlast as [-> ->]. destruct bm as [bm|]; [|done]. destruct rest_last as (l&Hl&Hr&Hq). rewrite Hl. cbn [obind]. destruct (setAt_ok l true bm Hr) as (bm'&Hbm'&Hlen&Hbits); [apply Hbm|]. rewrite Hbm'. cbn [obind].
    eexists. split_and!; [done|done|done|]. intros q. replace (B + 8 - B)%nat with 8%nat by lia. rewrite take_ge by (rewrite length_drop, bytesBits_length; lia). destruct q as [|b q]; cbn [hasPrefix].
    { rewrite bool_decide_eq_false_2; [done|]. intros He. apply (f_equal length) in He. rewrite length_drop, bytesBits_length in He. cbn in He. lia. }
    case_decide as H8.
    + destruct (bitsVal_byte (b :: q) H8) as [Hrange _]. rewrite Hbits by done. pose proof (Hq _ H8) as Hqq. case_decide; [rewrite bool_decide_eq_true_2 by tauto|rewrite bool_decide_eq_false_2 by tauto]; done.
    + rewrite bool_decide_eq_false_2; [done|]. intros He. apply H8. rewrite He, length_drop, bytesBits_length. lia.
  - destruct (getBitAt_ok d) as (b&Hgb&Hdrop); [lia|]. rewrite Hgb. cbn [obind]. set (next := match child b c0 c1 with Nil => _ | _ => _ end).
    assert (Hnext : trie_wf B (S d) next ∧ next ≠ Nil ∧ ∀ q, hasPrefix next q = hasPrefix (child b c0 c1) q).
    { unfold next. destruct (child b c0 c1) as [|m' bm' c0' c1'] eqn:Hc; [|split_and!; [rewrite <- Hc; by destruct b|done|done]]. split_and!; [|done|intros q; apply hasPrefix_fresh; case_decide; auto]. cbn. case_decide; done. }
    destruct Hnext as (Hwn&Hnn&Hhn). destruct (IH (S d) next) as (next'&Hi&Hwn'&Hnn'&Hh'); [lia|lia|done|done|]. rewrite Hi. cbn [obind]. rewrite (rest_S d mask b) by (done || lia).
    assert (Hset : ∀ (b' : bool) q, hasPrefix (if b' then (setChild b next' c0 c1).2 else (setChild b next' c0 c1).1) q = bool_decide (b' :: q = b :: rest (S d) mask) || hasPrefix (if b' then c1 else c0) q).
    { intros b' q. rewrite hasPrefix_setChild. destruct (decide (b = b')) as [<-|Hbb]; [|by rewrite bool_decide_eq_false_2 by congruence]. rewrite Hh', Hhn. rewrite (bool_decide_ext (b :: q = b :: rest (S d) mask) (q = rest (S d) mask)) by naive_solver. by destruct b. }
    destruct (setChild b next' c0 c1) as [c0' c1'] eqn:Hsc. eexists. split_and!; [done| |done|].
    + split; [done|]. destruct b; injection Hsc as <- <-; done.
    + intros [|b' q]; cbn [hasPrefix]; [by rewrite bool_decide_eq_false_2|]. pose proof (Hset b' q) as Hq. cbn [fst snd] in Hq. destruct bm as [bm|]; [destruct (decide (length (b' :: q) = 8%nat)) as [H8|H8]|].
      * rewrite bool_decide_eq_false_2; [done|]. intros He. destruct Hbm as [-> _]. apply Hlast. split; [done|]. apply (f_equal length) in He. rewrite H8 in He. cbn in He. rewrite rest_length in He by lia. lia.
      * by destruct b'.
      * by destruct b'.
Qed.
Lemma remove_ok t : ∀ d mask, (d <= mask <= B + 8)%nat → trie_wf B d t → t ≠ Nil →
  ∃ t', remove ip d mask t = Ret t' ∧ trie_wf B d t' ∧ t' ≠ Nil ∧ ∀ q, hasPrefix t' q = negb (bool_decide (q = rest d mask)) && hasPrefix t q.
Proof using Hb HB.
  induction t as [|m bm c0 IH0 c1 IH1]; intros d mask Hd Hwf Hne; [done|]. cbn [remove]. destruct Hwf as (Hbm&Hw0&Hw1).
  destruct (decide (d = mask)) as [<-|Hdm]; [eexists; split_and!; [done|done|done|]; intros q; rewrite rest_nil; by destruct q|].
  destruct (match bm with Some _ => bool_decide (mask = d + 8)%nat | None => false end) eqn:Hlast.
  - destruct bm as [bm|]; [|done]. apply bool_decide_eq_true in Hlast as Hmask. rewrite Hlast. subst mask. destruct Hbm as [-> Hlen]. destruct rest_last as (l&Hl&Hr&Hq). rewrite Hl. cbn [obind].
    destruct (setAt_ok l false bm Hr Hlen) as (bm'&Hbm'&Hlen'&Hbits). rewrite Hbm'. cbn [obind]. eexists. split_and!; [done|done|done|]. intros q. replace (B + 8 - B)%nat with 8%nat by lia. rewrite take_ge by (rewrite length_drop, bytesBits_length; lia).
    destruct q as [|b q]; cbn [hasPrefix].
    { rewrite bool_decide_eq_false_2; [done|]. intros He. apply (f_equal length) in He. rewrite length_drop, bytesBits_length in He. cbn in He. lia. }
    destruct (decide (length (b :: q) = 8%nat)) as [H8|H8].
    + destruct (bitsVal_byte (b :: q) H8) as [Hrange _]. rewrite Hbits by done. pose proof (Hq _ H8) as Hqq. destruct (decide (bitsVal (b :: q) = l)); [rewrite bool_decide_eq_true_2 by tauto|rewrite bool_decide_eq_false_2 by tauto]; done.
    + rewrite bool_decide_eq_false_2; [done|]. intros He. apply H8. rewrite He, length_drop, bytesBits_length. lia.
  - destruct (getBitAt_ok d) as (b&Hgb&Hdrop); [lia|]. rewrite Hgb. cbn [obind]. rewrite (rest_S d mask b) by (done || lia).
    set (step := match child b c0 c1 with Nil => _ | _ => _ end).
    assert (Hstep : ∃ c0' c1', step = Ret (TrieNode m bm c0' c1') ∧ trie_wf B (S d) c0' ∧ trie_wf B (S d) c1' ∧
      ∀ (b' : bool) q, hasPrefix (if b' then c1' else c0') q = negb (bool_decide (b' :: q = b :: rest (S d) mask)) && hasPrefix (if b' then c1 else c0) q).
    { unfold step. assert (child b c0 c1 = Nil ∨ child b c0 c1 ≠ Nil) as [Hn|Hn] by (destruct (child b c0 c1); auto).
      - rewrite Hn. exists c0, c1. split_and!; [done..|]. intros b' q. destruct (bool_decide (b' :: q = b :: rest (S d) mask)) eqn:Hd'; [|done]. apply bool_decide_eq_true in Hd'. injection Hd' as -> ->. destruct b; cbn in Hn; by rewrite Hn.
      - assert (Hrec : ∃ next, (if b then remove ip (S d) mask c1 else remove ip (S d) mask c0) = Ret next ∧ trie_wf B (S d) next ∧ ∀ q, hasPrefix next q = negb (bool_decide (q = rest (S d) mask)) && hasPrefix (child b c0 c1) q).
        { destruct b; [destruct (IH1 (S d) mask) as (n&?&?&_&?)|destruct (IH0 (S d) mask) as (n&?&?&_&?)]; try done; try lia; by exists n. }
        destruct Hrec as (next&Hr&Hwn&Hhn). set (kept := if okToRemove next then Nil else next). exists (setChild b kept c0 c1).1, (setChild b kept c0 c1).2.
        assert (Hk : trie_wf B (S d) kept ∧ ∀ q, hasPrefix kept q = hasPrefix next q) by (unfold kept; destruct (okToRemove next) eqn:Ho; split; [done|intros q; by rewrite (hasPrefix_removable next)|done|done]). destruct Hk as [Hwk Hhk]. split_and!.
        + destruct (child b c0 c1) eqn:Hc; [done|]. rewrite Hr. cbn [obind]. fold kept. by destruct (setChild b kept c0 c1).
        + by destruct b.
        + by destruct b.
        + intros b' q. rewrite hasPrefix_setChild. destruct (decide (b = b')) as [<-|Hbb]; [|by rewrite bool_decide_eq_false_2 by congruence]. rewrite Hhk, Hhn. rewrite (bool_decide_ext (b :: q = b :: rest (S d) mask) (q = rest (S d) mask)) by naive_solver. by destruct b. }
    destruct Hstep as (c0'&c1'&Hs&Hw0'&Hw1'&Hh). exists (TrieNode m bm c0' c1'). split_and!; [|done|done|].
    + rewrite <- Hs. destruct bm as [bm|]; [|done]. by rewrite Hlast.
    + intros [|b' q]; cbn [hasPrefix]; [by rewrite bool_decide_eq_false_2|]. pose proof (Hh b' q) as Hq. destruct bm as [bm|]; [destruct (decide (length (b' :: q) = 8%nat)) as [H8|H8]|]; [|by destruct b'..].
      rewrite bool_decide_eq_false_2; [done|]. intros He. apply bool_decide_eq_false in Hlast. apply Hlast. apply (f_equal length) in He. rewrite H8 in He. cbn in He. rewrite rest_length in He by lia. lia.
Qed.

(** An address is found when a prefix of it is there that ends at a bitmap or above, or that is the whole address. *)
Lemma containsIP_ok t : ∀ d, (d <= B)%nat → trie_wf B d t → t ≠ Nil →
  ∃ r, containsIP ip d t = Ret r ∧ (r = true ↔ ∃ k, (d + k <= B ∨ d + k = B + 8)%nat ∧ hasPrefix t (take k (drop d bits)) = true).
Proof using Hb HB.
  induction t as [|m bm c0 IH0 c1 IH1]; intros d Hd Hwf Hne; [done|]. cbn [containsIP]. destruct Hwf as (Hbm&Hw0&Hw1). destruct m.
  { exists true. split; [done|]. split; [|done]. intros _. exists 0%nat. split; [lia|done]. }
  destruct bm as [bm|].
  - destruct Hbm as [-> Hlen]. destruct rest_last as (l&Hl&Hr&Hq). rewrite Hl. cbn [obind]. rewrite bitmapContains_ok by done. eexists. split; [done|].
    assert (H8 : length (drop B bits) = 8%nat) by (rewrite length_drop, bytesBits_length; lia). pose proof (proj2 (Hq _ H8) eq_refl) as Hv.
    assert (Hhas : hasPrefix (TrieNode false (Some bm) c0 c1) (drop B bits) = bmBit bm l) by (destruct (drop B bits); [done|]; cbn [hasPrefix]; rewrite decide_True by done; by rewrite Hv).
    rewrite <- Hhas. split; [intros Ht; exists 8%nat; split; [lia|]; by rewrite take_ge by lia|]. intros (k&Hk&Ht). destruct k as [|k]; [done|]. rewrite take_ge in Ht by lia. done.
  - destruct (getBitAt_ok d) as (b&Hgb&Hdrop); [lia|]. rewrite Hgb. cbn [obind]. rewrite Hdrop.
    assert (Hrec : ∃ r, match child b c0 c1 with Nil => Ret false | _ => if b then containsIP ip (S d) c1 else containsIP ip (S d) c0 end = Ret r ∧ (r = true ↔ ∃ k, (S d + k <= B ∨ S d + k = B + 8)%nat ∧ hasPrefix (child b c0 c1) (take k (drop (S d) bits)) = true)).
    { destruct (child b c0 c1) eqn:Hc; [exists false; split; [done|]; split; [done|by intros (?&_&?)]|]. rewrite <- Hc. destruct b; cbn [child] in *; [apply IH1|apply IH0]; done || lia || congruence. }
    destruct Hrec as (r&Hr&Hiff). exists r. split; [done|]. rewrite Hiff. split.
    + intros (k&Hk&Ht). exists (S k). split; [lia|]. cbn [take hasPrefix]. by destruct b.
    + intros (k&Hk&Ht). destruct k as [|k]; [done|]. exists k. split; [lia|]. cbn [take hasPrefix] in Ht. by destruct b.
Qed.
End bytes.

(** ** Texts *)
Lemma prefix_text n : 0 <= n <= 128 → ParseUint64 (pretty (Z.to_N n)) = Some (Z.to_N n) ∧ lacks "/" (pretty (Z.to_N n)) = true.
Proof.
  intros Hn. assert (Hb : allBelow 129 (λ n, bool_decide (ParseUint64 (pretty (Z.to_N n)) = Some (Z.to_N n)) && lacks "/" (pretty (Z.to_N n))) = true) by (vm_compute; reflexivity).
  apply (allBelow_spec _ _ n) in Hb; [|lia]. apply andb_true_iff in Hb as [H1%bool_decide_eq_true H2]. done.
Qed.

Lemma ParseIP_String a : addr_ok a → unmapped a → ParseIP (Addr_String a) = Some (As16 (AsNetIP a)).
Proof. intros Ha Hu. unfold ParseIP. by rewrite ParseAddr_String. Qed.

Lemma parseCIDR_String c : net_ok c → parseCIDR (CIDR_String c) = Ret (As16 (AsNetIP (AddrOf c)), Z.to_N (Prefix c)).
Proof.
  intros Hc. destruct (net_ok_unmapped c Hc) as (Ha&Hu&_). destruct Hc as [[_ Hp _] _]. destruct (prefix_text (Prefix c)) as [Hpu Hl]; [destruct c; cbn in *; lia|].
  unfold parseCIDR, CIDR_String. change ("/" +:+ pretty (Z.to_N (Prefix c))) with (String "/" (pretty (Z.to_N (Prefix c)))). rewrite splitAll_app, !splitAll_lacks; [|done|by apply chars_lacks, Addr_String_chars]. cbn [app lookup list_lookup].
  by rewrite Hpu, ParseIP_String.
Qed.

Lemma To4_As16 a : addr_ok a → unmapped a → To4 (As16 (AsNetIP a)) = match a with V4Addr _ => Some (AsNetIP a) | V6Addr _ _ => None end.
Proof.
  intros Ha Hu. pose proof (AsNetIP_length a) as Hl. destruct (AsNetIP_ok a) as [Hb _]. destruct a as [a|h l].
  - destruct (As16_ok (AsNetIP (V4Addr a)) Hb) as (_&Hl16&Hm); [by left|]. unfold To4. rewrite decide_False by lia. rewrite Hm by done. unfold As16. rewrite decide_True by done. by rewrite drop_app_length'.
  - unfold As16. rewrite decide_False by lia. unfold To4. rewrite decide_False by lia. rewrite isMapped_AsNetIP by done. unfold unmapped in Hu. cbn [AsCIDR Addr_Version] in Hu. by rewrite Hu.
Qed.

Lemma AsNetIP_bits a : addr_ok a → bytes_ok (AsNetIP a) ∧ (8 * length (AsNetIP a) = addrWidth a - 8 + 8)%nat ∧ bytesBits (AsNetIP a) = addrBits a.
Proof.
  intros Ha. destruct (AsNetIP_ok a) as [Hb Hw]. split_and!; [done|destruct a; cbn [addrWidth] in *; lia|]. destruct (bytesAddr_ok (AsNetIP a) Hb) as (_&Hbits&_); [destruct a; cbn [addrWidth] in Hw; lia|]. by rewrite bytesAddr_AsNetIP in Hbits.
Qed.

(** ** Sets of networks *)
Inductive NetOp := NetAdd (c : CIDR) | NetRemove (c : CIDR).
Definition net_of (op : NetOp) : CIDR := match op with NetAdd c => c | NetRemove c => c end.

Fixpoint net_run (ops : list NetOp) (s : IPSet) : outcome Empty_set IPSet :=
  match ops with
  | [] => Ret s
  | NetAdd c :: ops' => let! s := AddString (CIDR_String c) s in net_run ops' s
  | NetRemove c :: ops' => let! s := RemoveString (CIDR_String c) s in net_run ops' s
  end.

Definition net_members (X : gset CIDR) (op : NetOp) : gset CIDR := match op with NetAdd c => {[c]} ∪ X | NetRemove c => X ∖ {[c]} end.

(** A trie has the networks of its family. *)
Definition trie_has (v : Z) (B : nat) (t : trieNode) (X : gset CIDR) : Prop :=
  t ≠ Nil ∧ trie_wf B 0 t ∧ ∀ p, hasPrefix t p = true ↔ ∃ c, c ∈ X ∧ Version c = v ∧ bitsOf c = p.

Definition net_set_has (m : ipNetSet) (X : gset CIDR) : Prop := (∀ c, c ∈ X → net_ok c) ∧ trie_has 4 24 (v4 m) X ∧ trie_has 6 120 (v6 m) X.

Lemma trie_has_empty v B : B ≠ 0%nat → trie_has v B emptyNode ∅.
Proof. intros HB. split_and!; [done|cbn; auto|]. intros p. unfold emptyNode. rewrite hasPrefix_fresh by auto. set_solver. Qed.

Lemma trie_has_other v B t X op : trie_has v B t X → Version (net_of op) ≠ v → trie_has v B t (net_members X op).
Proof. intros (Hn&Hw&Hp) Hv. split_and!; [done|done|]. intros p. rewrite Hp. destruct op as [c|c]; cbn in *; set_solver. Qed.

(** The trie of the family of the operation. *)
Lemma trie_op v B t X op : (∀ c, c ∈ X → net_ok c) → net_ok (net_of op) → Version (net_of op) = v → B = (addrWidth (AddrOf (net_of op)) - 8)%nat → trie_has v B t X →
  let ip := AsNetIP (AddrOf (net_of op)) in let k := Z.to_nat (Prefix (net_of op)) in
  ∃ t', match op with NetAdd _ => insert (S k) ip 0 k B t | NetRemove _ => remove ip 0 k t end = Ret t' ∧ trie_has v B t' (net_members X op).
Proof.
  cbv zeta. intros HX Hok Hv -> (Hn&Hw&Hp). set (c := net_of op) in *. destruct (net_ok_unmapped c Hok) as (Ha&_&_). pose proof Hok as [Hc _]. pose proof (co_prefix _ Hc) as Hpre. destruct (AsNetIP_bits (AddrOf c) Ha) as (Hb&HB&Hbits).
  assert (Hk : (0 <= Z.to_nat (Prefix c) <= addrWidth (AddrOf c) - 8 + 8)%nat) by (destruct c; cbn in *; lia).
  assert (Hrest : take (Z.to_nat (Prefix c) - 0) (drop 0 (bytesBits (AsNetIP (AddrOf c)))) = bitsOf c) by (rewrite Nat.sub_0_r, drop_0, Hbits; done).
  destruct op as [c'|c']; cbn [net_of] in c; subst c.
  - destruct (insert_ok _ _ Hb HB (S (Z.to_nat (Prefix c'))) 0 (Z.to_nat (Prefix c')) t Hk) as (t'&Ht&Hw'&Hn'&Hh); [lia|done|done|]. exists t'. split; [done|]. split_and!; [done|done|]. intros p. rewrite Hh, Hrest, orb_true_iff, bool_decide_eq_true, Hp. cbn. set_solver.
  - destruct (remove_ok _ _ Hb HB t 0 (Z.to_nat (Prefix c')) Hk Hw Hn) as (t'&Ht&Hw'&Hn'&Hh). exists t'. split; [done|]. split_and!; [done|done|]. intros p. rewrite Hh, Hrest, andb_true_iff, negb_true_iff, bool_decide_eq_false, Hp. cbn. split.
    + intros [Hne (c&Hin&Hvc&Hbc)]. exists c. split_and!; [|done|done]. apply elem_of_difference. split; [done|]. intros ->%elem_of_singleton. congruence.
    + intros (c&[Hin Hnot]%elem_of_difference&Hvc&Hbc). split; [|by exists c]. intros ->. apply Hnot, elem_of_singleton. apply bitsOf_inj; [congruence|by apply HX|done|done].
Qed.

(** One operation on texts is the operation on the trie of its family. *)
Lemma net_op_ok m X op : net_set_has m X → net_ok (net_of op) → ∃ m', net_run [op] (ipNets m) = Ret (ipNets m') ∧ net_set_has m' (net_members X op).
Proof.
  intros (HX&H4&H6) Hok. assert (HX' : ∀ c', c' ∈ net_members X op → net_ok c') by (intros c'; destruct op as [c0|c0]; cbn in *; set_solver). remember (net_of op) as c eqn:Hop. destruct (net_ok_unmapped c Hok) as (Ha&Hu&_). pose proof (co_prefix _ (proj1 Hok)) as Hpre.
  pose proof (parseCIDR_String c Hok) as Hparse. pose proof (To4_As16 (AddrOf c) Ha Hu) as H4'.
  assert (HN : N.to_nat (Z.to_N (Prefix c)) = Z.to_nat (Prefix c)) by lia.
  destruct c as [a p|h l p]; cbn [AddrOf Prefix addrWidth] in *.
  - destruct (trie_op 4 24 (v4 m) X op HX) as (t'&Ht&Hhas); [by rewrite <- Hop|by rewrite <- Hop|by rewrite <- Hop|done|]. rewrite <- Hop in Ht. cbn [AddrOf Prefix] in Ht. exists (MkIpNetSet t' (v6 m)). split.
    + destruct op as [c0|c0]; cbn [net_of] in Hop; subst c0; cbn [net_run AddString RemoveString]; [unfold netAdd|unfold netRemove]; rewrite Hparse; cbn [obind]; rewrite H4', bool_decide_eq_true_2 by lia; rewrite HN, Ht; done.
    + split_and!; [done|done|]. apply trie_has_other; [done|]. by rewrite <- Hop.
  - destruct (trie_op 6 120 (v6 m) X op HX) as (t'&Ht&Hhas); [by rewrite <- Hop|by rewrite <- Hop|by rewrite <- Hop|done|]. rewrite <- Hop in Ht. cbn [AddrOf Prefix] in Ht. exists (MkIpNetSet (v4 m) t'). split.
    + assert (H16 : As16 (AsNetIP (V6Addr h l)) = AsNetIP (V6Addr h l)) by (unfold As16; rewrite decide_False; [done|]; by rewrite AsNetIP_length). rewrite H16 in *.
      destruct op as [c0|c0]; cbn [net_of] in Hop; subst c0; cbn [net_run AddString RemoveString]; [unfold netAdd|unfold netRemove]; rewrite Hparse; cbn [obind]; rewrite H4', decide_True by lia; rewrite HN, Ht; done.
    + split_and!; [done| |done]. apply trie_has_other; [done|]. by rewrite <- Hop.
Qed.

Lemma net_run_ok ops m X : net_set_has m X → Forall (λ op, net_ok (net_of op)) ops → ∃ m', net_run ops (ipNets m) = Ret (ipNets m') ∧ net_set_has m' (foldl net_members X ops).
Proof.
  revert m X. induction ops as [|op ops IH]; intros m X Hm Hok; [by exists m|]. apply list.Forall_cons in Hok as [Hop Hok]. destruct (net_op_ok m X op Hm Hop) as (m1&Hr&Hm1). destruct (IH m1 _ Hm1 Hok) as (m2&Hr2&Hm2). exists m2. split; [|done].
  destruct op as [c|c]; cbn [net_run] in *; apply obind_Ret in Hr as (s&Hs&[= ->]); by rewrite Hs.
Qed.

(** The prefix does not end within the last byte of an address. *)
Definition whole_bytes (c : CIDR) : Prop := Prefix c <= Z.of_nat (addrWidth (AddrOf c)) - 8 ∨ Prefix c = Z.of_nat (addrWidth (AddrOf c)).

Lemma trie_contains v B t X a : (∀ c, c ∈ X → net_ok c) → addr_ok a → Addr_Version a = v → B = (addrWidth a - 8)%nat → trie_has v B t X →
  ∃ r, containsIP (AsNetIP a) 0 t = Ret r ∧ (r = true ↔ ∃ c, c ∈ X ∧ CIDR_Contains c a = true ∧ whole_bytes c).
Proof.
  intros HX Ha Hv -> (Hn&Hw&Hp). destruct (AsNetIP_bits a Ha) as (Hb&HB&Hbits). destruct (containsIP_ok _ _ Hb HB t 0 ltac:(lia) Hw Hn) as (r&Hr&Hiff). exists r. split; [done|]. rewrite Hiff, drop_0, Hbits.
  assert (Hwid : ∀ c, c ∈ X → Version c = v → addrWidth (AddrOf c) = addrWidth a ∧ Z.to_nat (Prefix c) = length (bitsOf c) ∧ (CIDR_Contains c a = true ↔ bitsOf c `prefix_of` addrBits a)).
  { intros c Hc Hvc. destruct (HX c Hc) as [Hok _]. split_and!; [|by rewrite bitsOf_length|by apply CIDR_Contains_spec; [congruence|..]]. destruct c, a; cbn in *; congruence. }
  assert (8 <= addrWidth a)%nat as H8 by (destruct a; cbn; lia). split.
  - intros (k&Hk&(c&Hc&Hvc&Hbc)%Hp). destruct (Hwid c Hc Hvc) as (Hw'&Hl&Hcon). exists c. split; [done|]. pose proof (co_prefix _ (proj1 (HX c Hc))) as Hpre.
    split; [apply Hcon; rewrite Hbc; by exists (drop k (addrBits a)); rewrite take_drop|]. assert (length (bitsOf c) = k) by (rewrite Hbc, length_take, addrBits_length; lia). unfold whole_bytes. rewrite Hw' in *. lia.
  - intros (c&Hc&Hcon&Hwb). assert (Hvc : Version c = v) by (destruct c, a; try done; cbn in *; congruence). destruct (Hwid c Hc Hvc) as (Hw'&Hl&Hiff'). apply Hiff' in Hcon as [q Hq]. exists (length (bitsOf c)).
    split; [unfold whole_bytes in Hwb; rewrite Hw' in Hwb; lia|]. apply Hp. exists c. split_and!; [done|done|]. by rewrite Hq, take_app_length.
Qed.

(** C24: For any sequence of networks that are added to a set of networks of the policy store and removed
    from it (as the texts that Felix sends), nothing panics; and in the end an address is found in
    the set exactly if one of the networks that are left contains it, other than those whose
    prefix ends within the last byte of an address. *)
Theorem net_set_contains (ops : list NetOp) : Forall (λ op, net_ok (net_of op)) ops →
  ∃ s, net_run ops (NewIPSet IPSetUpdate_NET) = Ret s ∧ ∀ a, addr_ok a → unmapped a →
    ∃ r, Contains (Addr_String a) s = Ret r ∧ (r = true ↔ ∃ c, c ∈ foldl net_members ∅ ops ∧ CIDR_Contains c a = true ∧ whole_bytes c).
Proof.
  intros Hok. destruct (net_run_ok ops (MkIpNetSet emptyNode emptyNode) ∅) as (m&Hr&HX&H4&H6); [|done|].
  - split_and!; [set_solver|by apply trie_has_empty|by apply trie_has_empty].
  - exists (ipNets m). split; [done|]. intros a Ha Hu. cbn [Contains]. unfold netContains. rewrite ParseIP_String by done. rewrite To4_As16 by done. destruct a as [a|h l].
    + by apply (trie_contains 4 24).
    + assert (H16 : As16 (AsNetIP (V6Addr h l)) = AsNetIP (V6Addr h l)) by (unfold As16; rewrite decide_False; [done|]; by rewrite AsNetIP_length). rewrite H16. by apply (trie_contains 6 120).
Qed.

Lemma net_set_contains_witness :
  ∃ s, net_run [NetAdd (V4CIDR 167772160 8); NetAdd (V4CIDR 3232235521 32); NetRemove (V4CIDR 167772160 8)] (NewIPSet IPSetUpdate_NET) = Ret s ∧
    Contains "192.168.0.1" s = Ret true ∧ Contains "192.168.0.2" s = Ret false ∧ Contains "10.0.0.1" s = Ret false.
Proof.
  destruct (net_set_contains [NetAdd (V4CIDR 167772160 8); NetAdd (V4CIDR 3232235521 32); NetRemove (V4CIDR 167772160 8)]) as (s&Hs&_).
  - repeat (constructor; [split; [split; [done|done|vm_compute; reflexivity]|done]|]). constructor.
  - exists s. split; [done|]. vm_compute in Hs. injection Hs as <-. split_and!; vm_compute; reflexivity.
Defined.

(** A network of half a byte: 10.0.0.0/25 is added and 10.0.0.1 is not found, since the node of 10.0.0.0/24
    has a bitmap.  So rules that refer to a network set with such a network do not match. *)
Theorem half_bytes_are_lost :
  ∃ s, AddString "10.0.0.0/25" (NewIPSet IPSetUpdate_NET) = Ret s ∧ Contains "10.0.0.1" s = Ret false ∧ CIDR_Contains (V4CIDR 167772160 25) (V4Addr 167772161) = true.
Proof. eexists. split; [vm_compute; reflexivity|]. split; vm_compute; reflexivity. Qed.
