(* ===== verification/PolicyStore.v ===== *)
(** * The policy store: [app-policy/policystore], [app-policy/types/cidr2wls.go]

    The policy checker keeps what Felix sends it: [ProcessUpdate] applies one message.  While the
    connection is being established the manager has the messages applied to a store aside, which
    becomes the current one when it is in sync.  The messages are those of the event sequencer; they
    carry their identifiers, so the branches of the code for messages without one do not occur. *)
From S2P Require Import Prelude ModelRule CIDR MemberDedup NetString PolicySorter RuleScanner RuleConvert ProtoMessages PolicyIPSet.
From stdpp Require Import base list gmap numbers strings.
From stdpp Require Import options.
Import ipset.

Module policystore.
(** ** [IPToEndpointsIndexer] *)
Abbreviation wlMap := (gmap WorkloadEndpointID ProtoWorkloadEndpoint).
Abbreviation IPToEndpointsIndexer := (gmap Addr wlMap).

Section indexer.
(** The order in which Go ranges over a map of endpoints. *)
Context (enum : wlMap → list (WorkloadEndpointID * ProtoWorkloadEndpoint)).

Definition Keys (k : Addr) (index : IPToEndpointsIndexer) : list WorkloadEndpointID := fst <$> enum (default ∅ (index !! k)).
Definition Get (k : Addr) (index : IPToEndpointsIndexer) : list ProtoWorkloadEndpoint := snd <$> enum (default ∅ (index !! k)).
End indexer.

Definition Update (k : Addr) (id : WorkloadEndpointID) (ep : ProtoWorkloadEndpoint) (index : IPToEndpointsIndexer) : IPToEndpointsIndexer :=
  <[k := <[id := ep]> (default ∅ (index !! k))]> index.

Definition Delete (k : Addr) (id : WorkloadEndpointID) (index : IPToEndpointsIndexer) : IPToEndpointsIndexer :=
  match index !! k with
  | None => index
  | Some m => let m := delete id m in if decide (m = ∅) then delete k index else <[k := m]> index
  end.

(** ** [PolicyStore] *)
Record PolicyStore := MkPolicyStore {
  IPToIndexes : IPToEndpointsIndexer;
  PolicyByID : gmap PolicyKey ProtoPolicy;
  ProfileByID : gmap string ProtoProfile;
  IPSetByID : gmap string IPSet;
  Endpoint : option ProtoWorkloadEndpoint;
  Endpoints : gmap WorkloadEndpointID ProtoWorkloadEndpoint;
  ServiceAccountByID : gmap (string * string) ProtoServiceAccountUpdate;
  NamespaceByID : gmap string ProtoNamespaceUpdate
}.

Definition NewPolicyStore : PolicyStore := MkPolicyStore ∅ ∅ ∅ ∅ None ∅ ∅ ∅.

Definition set_PolicyByID (m : gmap PolicyKey ProtoPolicy) (s : PolicyStore) : PolicyStore :=
  MkPolicyStore (IPToIndexes s) m (ProfileByID s) (IPSetByID s) (Endpoint s) (Endpoints s) (ServiceAccountByID s) (NamespaceByID s).
Definition set_ProfileByID (m : gmap string ProtoProfile) (s : PolicyStore) : PolicyStore :=
  MkPolicyStore (IPToIndexes s) (PolicyByID s) m (IPSetByID s) (Endpoint s) (Endpoints s) (ServiceAccountByID s) (NamespaceByID s).
Definition set_IPSetByID (m : gmap string IPSet) (s : PolicyStore) : PolicyStore :=
  MkPolicyStore (IPToIndexes s) (PolicyByID s) (ProfileByID s) m (Endpoint s) (Endpoints s) (ServiceAccountByID s) (NamespaceByID s).
Definition set_Endpoint (e : option ProtoWorkloadEndpoint) (s : PolicyStore) : PolicyStore :=
  MkPolicyStore (IPToIndexes s) (PolicyByID s) (ProfileByID s) (IPSetByID s) e (Endpoints s) (ServiceAccountByID s) (NamespaceByID s).
Definition set_Endpoints (m : gmap WorkloadEndpointID ProtoWorkloadEndpoint) (s : PolicyStore) : PolicyStore :=
  MkPolicyStore (IPToIndexes s) (PolicyByID s) (ProfileByID s) (IPSetByID s) (Endpoint s) m (ServiceAccountByID s) (NamespaceByID s).
Definition set_ServiceAccountByID (m : gmap (string * string) ProtoServiceAccountUpdate) (s : PolicyStore) : PolicyStore :=
  MkPolicyStore (IPToIndexes s) (PolicyByID s) (ProfileByID s) (IPSetByID s) (Endpoint s) (Endpoints s) m (NamespaceByID s).
Definition set_NamespaceByID (m : gmap string ProtoNamespaceUpdate) (s : PolicyStore) : PolicyStore :=
  MkPolicyStore (IPToIndexes s) (PolicyByID s) (ProfileByID s) (IPSetByID s) (Endpoint s) (Endpoints s) (ServiceAccountByID s) m.

(** ** [process.go] *)
(** [for _, addr := range ... { s.AddString(addr) }], and the same for [RemoveString]. *)
Fixpoint stringLoop (op : string → IPSet → outcome Empty_set IPSet) (addrs : list string) (s : IPSet) : outcome Empty_set IPSet :=
  match addrs with [] => Ret s | addr :: addrs' => let! s := op addr s in stringLoop op addrs' s end.

Definition processIPSetUpdate (id : string) (members : list string) (t : IPSetType) (store : PolicyStore) : outcome Empty_set PolicyStore :=
  let! s := stringLoop AddString members (NewIPSet t) in
  Ret (set_IPSetByID (<[id := s]> (IPSetByID store)) store).

Definition processIPSetDeltaUpdate (id : string) (added removed : list string) (store : PolicyStore) : outcome Empty_set PolicyStore :=
  match IPSetByID store !! id with
  | None => Ret store
  | Some s =>
      let! s := stringLoop AddString added s in
      let! s := stringLoop RemoveString removed s in
      Ret (set_IPSetByID (<[id := s]> (IPSetByID store)) store)
  end.

Definition processIPSetRemove (id : string) (store : PolicyStore) : PolicyStore := set_IPSetByID (delete id (IPSetByID store)) store.
Definition processActiveProfileUpdate (id : string) (p : ProtoProfile) (store : PolicyStore) : PolicyStore := set_ProfileByID (<[id := p]> (ProfileByID store)) store.
Definition processActiveProfileRemove (id : string) (store : PolicyStore) : PolicyStore := set_ProfileByID (delete id (ProfileByID store)) store.
Definition processActivePolicyUpdate (id : PolicyKey) (p : ProtoPolicy) (store : PolicyStore) : PolicyStore := set_PolicyByID (<[id := p]> (PolicyByID store)) store.
Definition processActivePolicyRemove (id : PolicyKey) (store : PolicyStore) : PolicyStore := set_PolicyByID (delete id (PolicyByID store)) store.
Definition processServiceAccountUpdate (u : ProtoServiceAccountUpdate) (store : PolicyStore) : PolicyStore := set_ServiceAccountByID (<[sau_Id u := u]> (ServiceAccountByID store)) store.
Definition processServiceAccountRemove (id : string * string) (store : PolicyStore) : PolicyStore := set_ServiceAccountByID (delete id (ServiceAccountByID store)) store.
Definition processNamespaceUpdate (u : ProtoNamespaceUpdate) (store : PolicyStore) : PolicyStore := set_NamespaceByID (<[nsu_Id u := u]> (NamespaceByID store)) store.
Definition processNamespaceRemove (id : string) (store : PolicyStore) : PolicyStore := set_NamespaceByID (delete id (NamespaceByID store)) store.

(** A subscription for a pod has one endpoint, one for a host has all of its endpoints. *)
Definition perPod (subscriptionType : string) : bool := bool_decide (subscriptionType = "per-pod-policies") || bool_decide (subscriptionType = "").

Definition processWorkloadEndpointUpdate (subscriptionType : string) (id : WorkloadEndpointID) (ep : ProtoWorkloadEndpoint) (store : PolicyStore) : PolicyStore :=
  if perPod subscriptionType then set_Endpoint (Some ep) store
  else if decide (subscriptionType = "per-host-policies") then set_Endpoints (<[id := ep]> (Endpoints store)) store
  else store.

Definition processWorkloadEndpointRemove (subscriptionType : string) (id : WorkloadEndpointID) (store : PolicyStore) : PolicyStore :=
  if perPod subscriptionType then set_Endpoint None store
  else if decide (subscriptionType = "per-host-policies") then set_Endpoints (delete id (Endpoints store)) store
  else store.

Section update.
Context {ConfigUpdate : Type}.
Abbreviation Msg := (Msg ConfigUpdate).

(** The payload of a message; [InSync] has none. *)
Inductive ToDataplane := InSync | Payload (m : Msg).

Definition processMsg (subscriptionType : string) (m : Msg) (store : PolicyStore) : outcome Empty_set PolicyStore :=
  match m with
  | IPSetUpdate id members t => processIPSetUpdate id members t store
  | IPSetDeltaUpdate id added removed => processIPSetDeltaUpdate id added removed store
  | IPSetRemove id => Ret (processIPSetRemove id store)
  | ActiveProfileUpdate id p => Ret (processActiveProfileUpdate id p store)
  | ActiveProfileRemove id => Ret (processActiveProfileRemove id store)
  | ActivePolicyUpdate id p => Ret (processActivePolicyUpdate id p store)
  | ActivePolicyRemove id => Ret (processActivePolicyRemove id store)
  | WorkloadEndpointUpdate id ep => Ret (processWorkloadEndpointUpdate subscriptionType id ep store)
  | WorkloadEndpointRemove id => Ret (processWorkloadEndpointRemove subscriptionType id store)
  | ServiceAccountUpdate u => Ret (processServiceAccountUpdate u store)
  | ServiceAccountRemove id => Ret (processServiceAccountRemove id store)
  | NamespaceUpdate u => Ret (processNamespaceUpdate u store)
  | NamespaceRemove id => Ret (processNamespaceRemove id store)
  | _ => Ret store
  end.

Definition ProcessUpdate (subscriptionType : string) (update : ToDataplane) (store : PolicyStore) : outcome Empty_set PolicyStore :=
  match update with InSync => Ret store | Payload m => processMsg subscriptionType m store end.
End update.

(** ** [policyStoreManager] *)
Record policyStoreManager := MkPolicyStoreManager { current : PolicyStore; pending : option PolicyStore; toActive : bool }.

Definition NewPolicyStoreManager : policyStoreManager := MkPolicyStoreManager NewPolicyStore (Some NewPolicyStore) false.

Definition DoWithReadLock {A} (cb : PolicyStore → A) (m : policyStoreManager) : A := cb (current m).

(** A callback that is given a nil store panics when it writes to it. *)
Definition DoWithLock (cb : PolicyStore → outcome Empty_set PolicyStore) (m : policyStoreManager) : outcome Empty_set policyStoreManager :=
  if toActive m then let! s := cb (current m) in Ret (MkPolicyStoreManager s (pending m) true)
  else match pending m with
       | None => Panic
       | Some p => let! p := cb p in Ret (MkPolicyStoreManager (current m) (Some p) false)
       end.

Definition GetCurrentEndpoints (m : policyStoreManager) : gmap WorkloadEndpointID ProtoWorkloadEndpoint := Endpoints (current m).

Definition OnReconnecting (m : policyStoreManager) : policyStoreManager := MkPolicyStoreManager (current m) (Some NewPolicyStore) false.

(** [pending] is nil only while [toActive] is set: the branch in which Go would make a nil store the
    current one, which does not occur, is [Panic]. *)
Definition OnInSync (m : policyStoreManager) : outcome Empty_set policyStoreManager :=
  if toActive m then Ret m
  else match pending m with None => Panic | Some p => Ret (MkPolicyStoreManager p None true) end.
End policystore.
