(* ===== verification/HTTPPath.v ===== *)
(** * Paths of HTTP requests: [app-policy/checker/match.go]

    Rules can restrict the paths of requests.  [normalizeHTTPPath] gives a path the form in which the
    server behind the proxy sees it, so that a request cannot reach a path that the rules do not
    allow by writing it differently.  With it comes what it uses of the packages [net/url], [path]
    and [strings].  Then, apart from the code, what names a spelling of a path stands for, and that the
    code matches exactly by these names. *)
From S2P Require Import Prelude Tokenizer CIDR MemberDedup NetIP NetString NetParse RuleConvert.
From Stdlib Require Import Ascii.
From stdpp Require Import base list numbers strings.
From stdpp Require Import options.

Module httppath.
(** ** The standard library *)
(** [p[:i]] for the first [i] with one of the characters, and all of it when there is none. *)
Fixpoint cutAt (stop : ascii → bool) (p : string) : string :=
  match p with "" => "" | String c p' => if stop c then "" else String c (cutAt stop p') end.

Definition isQueryOrFragment (c : ascii) : bool := bool_decide (c = "?"%char) || bool_decide (c = "#"%char).

(** [url.PathUnescape]: a percent sign is followed by two hexadecimal digits; [None] is the error. *)
Fixpoint PathUnescape (s : string) : option string :=
  match s with
  | "" => Some ""
  | String c s' =>
      if decide (c = "%"%char) then
        match s' with
        | String h (String l s'') =>
            match hexDigit h, hexDigit l with
            | Some a, Some b => String (ascii_of_nat (Z.to_nat (16 * a + b))) <$> PathUnescape s''
            | _, _ => None
            end
        | _ => None
        end
      else String c <$> PathUnescape s'
  end.

Fixpoint contains (f : ascii → bool) (s : string) : bool := match s with "" => false | String c s' => f c || contains f s' end.

(** The regular expression [(?i)%(2e|2f|5c)]. *)
Fixpoint reStillEncodedPathSensitive (s : string) : bool :=
  match s with
  | "" => false
  | String c s' =>
      (match s' with
       | String d (String e _) =>
           bool_decide (c = "%"%char) &&
           ((bool_decide (d = "2"%char) && (bool_decide (e = "e"%char) || bool_decide (e = "E"%char) || bool_decide (e = "f"%char) || bool_decide (e = "F"%char))) ||
            (bool_decide (d = "5"%char) && (bool_decide (e = "c"%char) || bool_decide (e = "C"%char))))
       | _ => false
       end) || reStillEncodedPathSensitive s'
  end.

(** [strings.ReplaceAll(s, "\", "/")]. *)
Fixpoint foldBackslash (s : string) : string :=
  match s with "" => "" | String c s' => String (if decide (c = "\"%char) then "/"%char else c) (foldBackslash s') end.

(** [path.Clean] of a rooted path: the names between the slashes, of which empty ones and dots are left
    out, and two dots take back the name before. *)
Definition cleanSegment (out : list string) (seg : string) : list string :=
  if decide (seg = "" ∨ seg = ".") then out
  else if decide (seg = "..") then match out with [] => [] | _ :: out' => out' end
  else seg :: out.

Definition Clean (p : string) : string := "/" +:+ sepBy "/" (rev (foldl cleanSegment [] (splitAll "/" p))).

(** ** The code *)
Definition stripMatrixParams (p : string) : string := sepBy "/" (cutAt (λ c, bool_decide (c = ";"%char)) <$> splitAll "/" p).

Definition startsWithSlash (p : string) : bool := match p with String c _ => bool_decide (c = "/"%char) | "" => false end.

(** [None] is [false]. *)
Definition normalizeHTTPPath (p : string) : option string :=
  let p := cutAt isQueryOrFragment p in
  match PathUnescape p with
  | None => None
  | Some decoded =>
      if reStillEncodedPathSensitive decoded then None
      else if contains (λ c, bool_decide (c = zero)) decoded then None
      else
        let decoded := foldBackslash decoded in
        if negb (startsWithSlash decoded) then None
        else
          let decoded := if contains (λ c, bool_decide (c = ";"%char)) decoded then stripMatrixParams decoded else decoded in
          Some (Clean decoded)
  end.

Fixpoint isPrefix (p s : string) : bool :=
  match p, s with
  | "", _ => true
  | String c p', String d s' => bool_decide (c = d) && isPrefix p' s'
  | String _ _, "" => false
  end.

Definition segmentPrefixMatch (req prefix : string) : bool :=
  if decide (prefix = "/") then isPrefix "/" req
  else if decide (req = prefix) then true
  else isPrefix (prefix +:+ "/") req.

(** The loop of [matchHTTPPaths], over the paths of a rule. *)
Fixpoint pathLoop (paths : list PathMatch) (normalizedReq : string) : bool :=
  match paths with
  | [] => false
  | PathMatch_Exact exact :: paths' =>
      match normalizeHTTPPath exact with
      | None => pathLoop paths' normalizedReq
      | Some rulePath => if decide (normalizedReq = rulePath) then true else pathLoop paths' normalizedReq
      end
  | PathMatch_Prefix prefix :: paths' =>
      match normalizeHTTPPath prefix with
      | None => pathLoop paths' normalizedReq
      | Some rulePrefix => if segmentPrefixMatch normalizedReq rulePrefix then true else pathLoop paths' normalizedReq
      end
  end.

Inductive InvalidPath := InvalidHTTPPath.

(** [Fail] is the panic for a path that does not start with a slash. *)
Definition matchHTTPPaths (paths : list PathMatch) (reqPath : option string) : outcome InvalidPath bool :=
  if decide (paths = []) then Ret true
  else
    match reqPath with
    | None => Ret true
    | Some reqPath =>
        if negb (startsWithSlash reqPath) then Fail InvalidHTTPPath
        else match normalizeHTTPPath reqPath with None => Ret false | Some normalizedReq => Ret (pathLoop paths normalizedReq) end
    end.

Definition matchHTTPMethods (methods : list string) (reqMethod : option string) : bool :=
  match reqMethod with
  | None => true
  | Some m => if decide (methods = []) then true else existsb (λ method, bool_decide (method = "*") || bool_decide (method = m)) methods
  end.

Definition matchHTTP (rule : option ProtoHTTPMatch) (httpMethod httpPath : option string) : outcome InvalidPath bool :=
  match rule with
  | None => Ret true
  | Some rule => if matchHTTPMethods (hm_Methods rule) httpMethod then matchHTTPPaths (hm_Paths rule) httpPath else Ret false
  end.

Example normalize_traversal :
  normalizeHTTPPath "/public/..%2fadmin/./users//7;v=1?x=/public" = Some "/admin/users/7" ∧ normalizeHTTPPath "/public/%252e%252e/admin" = None ∧ normalizeHTTPPath "/%2e%2e/a\..\b" = Some "/b".
Proof. vm_compute. done. Qed.

(** ** Clean paths *)
(** The names of a path: not empty, no dots, no slash. *)
Definition name_ok (seg : string) : Prop := seg ≠ "" ∧ seg ≠ "." ∧ seg ≠ ".." ∧ lacks "/" seg = true.

Definition pathOf (names : list string) : string := "/" +:+ sepBy "/" names.

Lemma splitAll_lacks_all q s : Forall (λ seg, lacks q seg = true) (splitAll q s).
Proof.
  induction s as [|c s IH]; cbn [splitAll]; [by repeat constructor|]. destruct (decide (c = q)) as [->|Hc]; [by constructor|]. destruct (splitAll q s) as [|p ps]; [constructor; [|constructor]|].
  - unfold lacks. cbn. by rewrite bool_decide_eq_true_2.
  - apply list.Forall_cons in IH as [Hp Hps]. constructor; [|done]. unfold lacks in *. cbn [string_forallb]. by rewrite bool_decide_eq_true_2.
Qed.

Lemma cleanSegment_ok segs out : Forall (λ seg, lacks "/" seg = true) segs → Forall name_ok out → Forall name_ok (foldl cleanSegment out segs).
Proof.
  revert out. induction segs as [|seg segs IH]; intros out Hsegs Hout; [done|]. apply list.Forall_cons in Hsegs as [Hseg Hsegs]. cbn [foldl]. apply IH; [done|]. unfold cleanSegment.
  case_decide as He; [done|]. case_decide as Hd; [destruct out; [done|by apply list.Forall_cons in Hout as []]|]. constructor; [|done]. unfold name_ok. tauto.
Qed.

Lemma pathOf_split names : Forall name_ok names → splitAll "/" (pathOf names) = "" :: (if decide (names = []) then [""] else names).
Proof.
  intros Hn. unfold pathOf. change ("/" +:+ sepBy "/" names) with (String "/" (sepBy "/" names)). rewrite splitAll_sep. f_equal. case_decide as He; [by subst|]. apply splitAll_sepBy; [done|].
  eapply Forall_impl; [exact Hn|]. by intros seg (_&_&_&?).
Qed.

Lemma pathOf_inj ns1 ns2 : Forall name_ok ns1 → Forall name_ok ns2 → pathOf ns1 = pathOf ns2 → ns1 = ns2.
Proof.
  intros H1 H2 Heq. apply (f_equal (splitAll "/")) in Heq. rewrite !pathOf_split in Heq by done. injection Heq as Heq. case_decide; case_decide; subst; try done.
  - by apply list.Forall_cons in H2 as [[? _] _].
  - by apply list.Forall_cons in H1 as [[? _] _].
Qed.

Lemma isPrefix_spec p s : isPrefix p s = true ↔ ∃ t, s = p +:+ t.
Proof.
  revert s. induction p as [|c p IH]; intros s; cbn [isPrefix]; [split; [by exists s|done]|]. destruct s as [|d s]; [split; [done|by intros [t Ht]]|]. rewrite andb_true_iff, bool_decide_eq_true, IH. setoid_rewrite string_app_cons. split.
  - intros [-> [t ->]]. by exists t.
  - intros [t [= -> ->]]. split; [done|by exists t].
Qed.

Lemma sepBy_app q l1 l2 : l1 ≠ [] → l2 ≠ [] → sepBy (String q "") (l1 ++ l2) = sepBy (String q "") l1 +:+ String q (sepBy (String q "") l2).
Proof.
  intros H1 H2. induction l1 as [|s l1 IH]; [done|]. cbn [app]. rewrite !sepBy_cons. destruct l1 as [|s' l1]; cbn [app]; [by destruct l2|]. cbn [app] in IH. rewrite IH by done. by rewrite string_app_assoc, string_app_cons.
Qed.

(** Prefixes of paths are prefixes of their names. *)
Lemma segmentPrefixMatch_names ns names : Forall name_ok ns → Forall name_ok names → segmentPrefixMatch (pathOf names) (pathOf ns) = true ↔ ns `prefix_of` names.
Proof.
  intros Hns Hnames. unfold segmentPrefixMatch. case_decide as Hroot.
  { assert (ns = []) as -> by (by apply pathOf_inj; [|constructor|]). split; [intros _; apply prefix_nil|intros _]. apply isPrefix_spec. by exists (sepBy "/" names). }
  assert (Hne : ns ≠ []) by (by intros ->). case_decide as Heq; [apply pathOf_inj in Heq as ->; [|done|done]; done|]. rewrite isPrefix_spec. split.
  - intros [t Ht]. apply (f_equal (splitAll "/")) in Ht. rewrite string_app_assoc in Ht. change ("/" +:+ t) with (String "/" t) in Ht. rewrite splitAll_app, !pathOf_split in Ht by done. rewrite (decide_False (P := ns = [])) in Ht by done. cbn [app] in Ht. injection Ht as Ht.
    case_decide as Hn; [|by exists (splitAll "/" t)]. exfalso. destruct ns as [|n1 [|n2 ns]]; [done| |]; cbn in Ht; injection Ht as <- Ht; by apply list.Forall_cons in Hns as [[? _] _].
  - intros [rest ->]. destruct rest as [|n rest]; [by rewrite app_nil_r in Heq|]. exists (sepBy "/" (n :: rest)). unfold pathOf. rewrite (sepBy_app "/") by done. by rewrite !string_app_assoc.
Qed.

(** ** What a path names *)
(** A reading of paths that does not run the code: which names a spelling of a path stands for. *)
Definition occurs (c : ascii) (s : string) : Prop := ∃ x y, s = x +:+ String c y.

(** The path goes up to the first question mark or hash sign. *)
Definition path_part (p q : string) : Prop :=
  ¬ occurs "?" q ∧ ¬ occurs "#" q ∧ (p = q ∨ ∃ rest, p = q +:+ String "?" rest ∨ p = q +:+ String "#" rest).

(** Escapes stand for bytes, once. *)
Definition hexValue (c : ascii) (n : nat) : Prop := String.get n "0123456789abcdef" = Some c ∨ String.get n "0123456789ABCDEF" = Some c.

Inductive unescapes : string → string → Prop :=
  | unescapes_nil : unescapes "" ""
  | unescapes_plain c s t : c ≠ "%"%char → unescapes s t → unescapes (String c s) (String c t)
  | unescapes_byte h l a b s t : hexValue h a → hexValue l b → unescapes s t → unescapes (String "%" (String h (String l s))) (String (ascii_of_nat (16 * a + b)) t).

(** What is left must not hold a null byte, or an escape for a dot, slash or backslash. *)
Definition suspicious (t : string) : Prop := occurs zero t ∨ ∃ d x y, d ∈ ["2e"; "2E"; "2f"; "2F"; "5c"; "5C"] ∧ t = x +:+ String "%" (d +:+ y).

(** Slashes and backslashes separate segments. *)
Definition isSep (c : ascii) : Prop := c = "/"%char ∨ c = "\"%char.
Definition unseparated (s : string) : Prop := ∀ c, isSep c → ¬ occurs c s.

Inductive segments : string → list string → Prop :=
  | segments_last s : unseparated s → segments s [s]
  | segments_cons s c t l : unseparated s → isSep c → segments t l → segments (s +:+ String c t) (s :: l).

(** A segment goes up to its parameters. *)
Definition parameterless (seg n : string) : Prop := ¬ occurs ";" n ∧ (seg = n ∨ ∃ params, seg = n +:+ String ";" params).

(** From the names so far: empty segments and dots stay, two dots go up and stop at the root. *)
Inductive resolves : list string → list string → list string → Prop :=
  | resolves_end out : resolves out [] out
  | resolves_stay out seg segs names : seg = "" ∨ seg = "." → resolves out segs names → resolves out (seg :: segs) names
  | resolves_root segs names : resolves [] segs names → resolves [] (".." :: segs) names
  | resolves_up out n segs names : resolves out segs names → resolves (out ++ [n]) (".." :: segs) names
  | resolves_name out seg segs names : seg ≠ "" → seg ≠ "." → seg ≠ ".." → resolves (out ++ [seg]) segs names → resolves out (seg :: segs) names.

(** The names that a path stands for: none if it is malformed, suspicious, or does not start at the root. *)
Definition denotes (p : string) (names : list string) : Prop :=
  ∃ q c t segs bare, path_part p q ∧ unescapes q (String c t) ∧ ¬ suspicious (String c t) ∧ isSep c ∧ segments t segs ∧ Forall2 parameterless segs bare ∧ resolves [] bare names.

(** What a path of a rule allows. *)
Definition allows (m : PathMatch) (names : list string) : Prop :=
  match m with PathMatch_Exact e => denotes e names | PathMatch_Prefix p => ∃ pre, denotes p pre ∧ pre `prefix_of` names end.

(** *** The code computes it *)
Lemma occurs_nil c : ¬ occurs c "".
Proof. intros ([|d x]&y&Heq); [by rewrite string_app_nil_l in Heq|by rewrite string_app_cons in Heq]. Qed.

Lemma occurs_cons c d s : occurs c (String d s) ↔ c = d ∨ occurs c s.
Proof.
  split.
  - intros ([|e x]&y&Heq); [rewrite string_app_nil_l in Heq; injection Heq as -> ->; by left|]. rewrite string_app_cons in Heq. injection Heq as -> ->. right. by exists x, y.
  - intros [->|(x&y&->)]; [exists "", s; by rewrite string_app_nil_l|]. exists (String d x), y. by rewrite string_app_cons.
Qed.

Lemma contains_occurs f s : contains f s = true ↔ ∃ c, f c = true ∧ occurs c s.
Proof.
  induction s as [|d s IH]; cbn [contains]; [split; [done|by intros (c&_&?%occurs_nil)]|]. rewrite orb_true_iff, IH. setoid_rewrite occurs_cons. naive_solver.
Qed.

(** Cutting at the first of some characters. *)
Lemma cutAt_iff stop p q : cutAt stop p = q ↔ (∀ c, occurs c q → stop c = false) ∧ (p = q ∨ ∃ c rest, stop c = true ∧ p = q +:+ String c rest).
Proof.
  revert q. induction p as [|d p IH]; intros q; cbn [cutAt].
  - split; [intros <-; split; [by intros c ?%occurs_nil|by left]|]. intros [_ [?|(c&rest&_&Heq)]]; [done|]. by destruct q.
  - destruct (stop d) eqn:Hd.
    + split; [intros <-; split; [by intros c ?%occurs_nil|right; exists d, p; by rewrite string_app_nil_l]|]. intros [Hq Hp]. destruct q as [|e q]; [done|]. specialize (Hq e ltac:(apply occurs_cons; by left)).
      destruct Hp as [[= -> ->]|(c&rest&_&Heq)]; [congruence|]. rewrite string_app_cons in Heq. injection Heq as -> _. congruence.
    + destruct q as [|e q]; [split; [done|]|].
      { intros [_ [?|(c&rest&Hc&Heq)]]; [done|]. rewrite string_app_nil_l in Heq. injection Heq as -> _. congruence. }
      assert (Hcut : String d (cutAt stop p) = String e q ↔ d = e ∧ cutAt stop p = q) by (split; [by intros [= -> ->]|by intros [-> ->]]). rewrite Hcut, IH. setoid_rewrite occurs_cons. setoid_rewrite string_app_cons. split.
      * intros (->&Hq&Hp). split; [intros c [->|Hc]; [done|by apply Hq]|]. destruct Hp as [->|(c&rest&Hc&->)]; [by left|right; by exists c, rest].
      * intros [Hq Hp]. destruct Hp as [[= -> ->]|(c&rest&Hc&[= -> ->])]; (split_and!; [done|intros c' Hc'; apply Hq; by right|]); [by left|right; by exists c, rest].
Qed.

Lemma path_part_iff p q : path_part p q ↔ cutAt isQueryOrFragment p = q.
Proof.
  rewrite cutAt_iff. assert (Hc : ∀ c, isQueryOrFragment c = true ↔ c = "?"%char ∨ c = "#"%char) by (intros c; unfold isQueryOrFragment; by rewrite orb_true_iff, !bool_decide_eq_true).
  setoid_rewrite <- not_true_iff_false. setoid_rewrite Hc. unfold path_part. split.
  - intros (H1&H2&H3). split; [by intros c Hoc [->| ->]|]. destruct H3 as [->|(rest&[->| ->])]; [by left|right; eauto..].
  - intros [H1 H2]. split_and!; [intros Hoc; apply (H1 _ Hoc); by left|intros Hoc; apply (H1 _ Hoc); by right|]. destruct H2 as [->|(c&rest&[->| ->]&->)]; [by left|right; eauto..].
Qed.

Lemma parameterless_iff seg n : parameterless seg n ↔ cutAt (λ c, bool_decide (c = ";"%char)) seg = n.
Proof.
  rewrite cutAt_iff. unfold parameterless. setoid_rewrite bool_decide_eq_false. setoid_rewrite bool_decide_eq_true. split.
  - intros [H1 H2]. split; [by intros c Hc ->|]. destruct H2 as [->|[ps ->]]; [by left|right; eauto].
  - intros [H1 H2]. split; [intros Hc; by apply (H1 _ Hc)|]. destruct H2 as [->|(c&ps&->&->)]; [by left|right; eauto].
Qed.

(** The value of a digit is one of sixteen. *)
Lemma hexDigit_range d z : hexDigit d = Some z → (0 <= z < 16)%Z ∧ hexValue d (Z.to_nat z).
Proof. unfold hexValue. destruct d as [[] [] [] [] [] [] [] []]; vm_compute; try done; intros [= <-]; (split; [split; done|]); first [by left|by right]. Qed.

Lemma hexDigit_iff c n : hexValue c n ↔ hexDigit c = Some (Z.of_nat n).
Proof.
  split.
  - assert (Hn : ∀ k s, String.get k s = Some c → k < String.length s).
    { intros k s. revert k. induction s as [|d s IH]; intros [|k]; cbn; try done; [lia|]. intros Hk%IH. lia. }
    intros Hv. assert (Hlt : n < 16) by (by destruct Hv as [Hv|Hv]; apply Hn in Hv). do 16 (destruct n as [|n]; [by destruct Hv as [[= <-]|[= <-]]|]). lia.
  - intros [_ Hd]%hexDigit_range. by rewrite Nat2Z.id in Hd.
Qed.

Lemma unescapes_iff s t : unescapes s t ↔ PathUnescape s = Some t.
Proof.
  split.
  - induction 1 as [|c s t Hc _ IH|h l a b s t Hh Hl _ IH]; cbn [PathUnescape]; [done|by rewrite decide_False, IH by done|]. rewrite decide_True by done. apply hexDigit_iff in Hh as ->, Hl as ->. rewrite IH. cbn. do 3 f_equal. lia.
  - revert t. remember (String.length s) as n eqn:Hn. revert s Hn. induction n as [n IH] using lt_wf_ind. intros s Hn t. destruct s as [|c s]; cbn [PathUnescape]; [intros [= <-]; constructor|]. case_decide as Hc.
    + destruct s as [|h [|l s]]; [done..|]. destruct (hexDigit h) as [a|] eqn:Hh; [|done]. destruct (hexDigit l) as [b|] eqn:Hl; [|done]. intros (u&Hu&->)%fmap_Some. subst c.
      pose proof (hexDigit_range _ _ Hh) as [? _]. pose proof (hexDigit_range _ _ Hl) as [? _]. replace (Z.to_nat (16 * a + b)) with (16 * Z.to_nat a + Z.to_nat b) by lia. apply unescapes_byte; [apply hexDigit_iff; rewrite Z2Nat.id by lia; done..|]. eapply IH; [|done|done]. cbn in Hn. lia.
    + intros (u&Hu&->)%fmap_Some. apply unescapes_plain; [done|]. eapply IH; [|done|done]. cbn in Hn. lia.
Qed.

Lemma stillEncoded_iff t : reStillEncodedPathSensitive t = true ↔ ∃ d x y, d ∈ ["2e"; "2E"; "2f"; "2F"; "5c"; "5C"] ∧ t = x +:+ String "%" (d +:+ y).
Proof.
  induction t as [|c t IH]; cbn [reStillEncodedPathSensitive]; [split; [done|]; intros (d&[|e x]&y&_&Heq); by rewrite ?string_app_nil_l, ?string_app_cons in Heq|].
  assert (Hcons : (∃ d x y, d ∈ ["2e"; "2E"; "2f"; "2F"; "5c"; "5C"] ∧ String c t = x +:+ String "%" (d +:+ y)) ↔
    (c = "%"%char ∧ ∃ d y, d ∈ ["2e"; "2E"; "2f"; "2F"; "5c"; "5C"] ∧ t = d +:+ y) ∨ ∃ d x y, d ∈ ["2e"; "2E"; "2f"; "2F"; "5c"; "5C"] ∧ t = x +:+ String "%" (d +:+ y)).
  { split.
    - intros (d&[|e x]&y&Hd&Heq); [rewrite string_app_nil_l in Heq; injection Heq as -> ->; left; eauto|]. rewrite string_app_cons in Heq. injection Heq as -> ->. right. eauto.
    - intros [(->&d&y&Hd&->)|(d&x&y&Hd&->)]; [exists d, "", y; by rewrite string_app_nil_l|]. exists d, (String c x), y. by rewrite string_app_cons. }
  rewrite Hcons, orb_true_iff, IH. f_equiv. assert (Hd : ∀ P : string → Prop, (∃ d, d ∈ ["2e"; "2E"; "2f"; "2F"; "5c"; "5C"] ∧ P d) ↔ P "2e" ∨ P "2E" ∨ P "2f" ∨ P "2F" ∨ P "5c" ∨ P "5C").
  { intros P. split; [intros (d&Hd&HP); rewrite !elem_of_cons, elem_of_nil in Hd; naive_solver|]. intros HP. repeat destruct HP as [HP|HP]; (eexists; split; [|exact HP]); apply list_elem_of_In; cbn; tauto. }
  assert (Hex : (∃ d y, d ∈ ["2e"; "2E"; "2f"; "2F"; "5c"; "5C"] ∧ t = d +:+ y) ↔ ∃ d, d ∈ ["2e"; "2E"; "2f"; "2F"; "5c"; "5C"] ∧ ∃ y, t = d +:+ y) by naive_solver. rewrite Hex, Hd.
  destruct t as [|d1 [|d2 t]]; [split; [done|]; intros (_&H); repeat destruct H as [H|H]; by destruct H as [y Hy]..|].
  rewrite !andb_true_iff, !orb_true_iff, !andb_true_iff, !orb_true_iff, !bool_decide_eq_true. split.
  - intros [-> Hv]. split; [done|]. destruct Hv as [[-> [[[->| ->]| ->]| ->]]|[-> [->| ->]]]; [left|right; left|right; right; left|right; right; right; left|right; right; right; right; left|right; right; right; right; right]; by exists t.
  - intros [-> Hv]. split; [done|]. repeat destruct Hv as [Hv|Hv]; destruct Hv as [y Hy]; injection Hy as -> -> _; tauto.
Qed.

Lemma suspicious_iff t : suspicious t ↔ reStillEncodedPathSensitive t = true ∨ contains (λ c, bool_decide (c = zero)) t = true.
Proof. rewrite stillEncoded_iff, contains_occurs. setoid_rewrite bool_decide_eq_true. unfold suspicious. naive_solver. Qed.

(** Segments. *)
Lemma lacks_fold s : unseparated s ↔ foldBackslash s = s ∧ lacks "/" s = true.
Proof.
  unfold unseparated, isSep. induction s as [|c s IH]; [split; [done|by intros _ c _ ?%occurs_nil]|]. cbn [foldBackslash]. unfold lacks in *. cbn [string_forallb]. rewrite andb_true_iff, bool_decide_eq_true. setoid_rewrite occurs_cons.
  assert (Hsplit : (∀ d, d = "/"%char ∨ d = "\"%char → ¬ (d = c ∨ occurs d s)) ↔ (c ≠ "/"%char ∧ c ≠ "\"%char) ∧ ∀ d, d = "/"%char ∨ d = "\"%char → ¬ occurs d s) by naive_solver.
  rewrite Hsplit, IH. case_decide as Hc; [subst; naive_solver congruence|]. split; [intros ((?&?)&Hf&Hl); by rewrite Hf|]. intros ([= Hf]&Hc'&Hl). done.
Qed.

Lemma fold_app s t : foldBackslash (s +:+ t) = foldBackslash s +:+ foldBackslash t.
Proof. induction s as [|c s IH]; [done|]. rewrite string_app_cons. cbn [foldBackslash]. by rewrite IH, string_app_cons. Qed.

Lemma segments_iff t l : segments t l ↔ splitAll "/" (foldBackslash t) = l.
Proof.
  assert (Hto : ∀ t l, segments t l → splitAll "/" (foldBackslash t) = l).
  { clear. induction 1 as [s [Hf Hl]%lacks_fold|s c t l [Hf Hl]%lacks_fold Hc _ IH]; [rewrite Hf; by apply splitAll_lacks|].
    rewrite fold_app, Hf. assert (Hfc : foldBackslash (String c t) = String "/" (foldBackslash t)) by (by destruct Hc as [->| ->]). rewrite Hfc, splitAll_app, splitAll_lacks, IH by done. done. }
  split; [apply Hto|]. intros <-. assert (Hex : ∃ l', segments t l').
  { induction t as [|c t [l IH]]; [exists [""]; apply segments_last; by intros c _ ?%occurs_nil|]. destruct (decide (c = "/"%char ∨ c = "\"%char)) as [Hc|Hc].
    - exists ("" :: l). apply (segments_cons "" c t l); [by intros d _ ?%occurs_nil|exact Hc|done].
    - assert (Hu : ∀ s, unseparated s → unseparated (String c s)) by (intros s Hs d Hd [->|Ho]%occurs_cons; [by apply Hc|by apply (Hs d)]).
      inversion IH as [s Hs|s d t' l' Hs Hd Hl']; subst; [eexists; by apply segments_last, Hu|]. exists (String c s :: l'). rewrite <- string_app_cons. apply segments_cons; auto. }
  destruct Hex as [l' Hl']. by rewrite (Hto _ _ Hl').
Qed.

(** Going through the segments. *)
Lemma resolves_iff segs : ∀ out names, resolves out segs names ↔ rev (foldl cleanSegment (rev out) segs) = names.
Proof.
  induction segs as [|seg segs IH]; intros out names; cbn [foldl]; [rewrite rev_involutive; split; [by inversion 1|intros <-; constructor]|]. unfold cleanSegment at 2. case_decide as Hs; [|case_decide as Hd].
  - rewrite <- IH. split; [|by constructor]. inversion 1; subst; try done; destruct Hs; done.
  - subst seg. destruct out as [|n out _] using rev_ind; [cbn [rev]; rewrite <- (IH []); split; [|by constructor]|rewrite rev_app_distr; cbn; rewrite <- IH; split; [|by constructor]].
    + inversion 1 as [|o s ss nn [?|?] Hr|ss nn Hr Ho|o n ss nn Hr Ho|o s ss nn ? ? Hne Hr]; subst; try done. by destruct o.
    + inversion 1 as [|o s ss nn [?|?] Hr|ss nn Hr Ho|o n' ss nn Hr Ho|o s ss nn ? ? Hne Hr]; subst; try done; [by destruct out|]. by apply app_inj_tail in Ho as [-> _].
  - assert (Heq : seg :: rev out = rev (out ++ [seg])) by (by rewrite rev_app_distr). rewrite Heq, <- IH. split.
    + inversion 1; subst; try done; tauto.
    + intros Hr. apply resolves_name; tauto.
Qed.

Lemma cutAt_forallb stop f s : string_forallb f s = true → string_forallb f (cutAt stop s) = true.
Proof. induction s as [|c s IH]; [done|]. cbn. intros [Hc Hs]%andb_true_iff. destruct (stop c); [done|]. cbn. rewrite Hc. by apply IH. Qed.

Lemma cutAt_none stop q s : contains stop s = false → cutAt stop <$> splitAll q s = splitAll q s.
Proof.
  induction s as [|c s IH]; [done|]. cbn [contains splitAll]. intros [Hc Hs]%orb_false_iff. specialize (IH Hs). case_decide; [by cbn; f_equal|]. destruct (splitAll q s) as [|x l]; cbn in *; [by rewrite Hc|]. injection IH as Hx Hl. by rewrite Hc, Hx, Hl.
Qed.

(** With the parameters stripped or not, the segments are those without parameters. *)
Lemma bare_segments d : let cut := cutAt (λ c, bool_decide (c = ";"%char)) in
  splitAll "/" (if contains (λ c, bool_decide (c = ";"%char)) d then stripMatrixParams d else d) = cut <$> splitAll "/" d.
Proof.
  intros cut. destruct (contains _ d) eqn:Hc; [|by rewrite (cutAt_none _ _ _ Hc)]. unfold stripMatrixParams. apply splitAll_sepBy; [pose proof (splitAll_ne "/" d); by destruct (splitAll "/" d)|].
  apply Forall_fmap. eapply Forall_impl; [apply splitAll_lacks_all|]. intros seg Hseg. by apply cutAt_forallb.
Qed.

Lemma Forall2_parameterless segs bare : Forall2 parameterless segs bare ↔ cutAt (λ c, bool_decide (c = ";"%char)) <$> segs = bare.
Proof.
  split; [induction 1 as [|seg n segs bare Hn%parameterless_iff _ IH]; [done|]; cbn; by rewrite Hn, IH|]. intros <-. induction segs as [|seg segs IH]; constructor; [by apply parameterless_iff|done].
Qed.

(** The part of the code after the checks. *)
Lemma Clean_rooted c t : isSep c → let d := foldBackslash (String c t) in startsWithSlash d = true ∧
  Clean (if contains (λ c, bool_decide (c = ";"%char)) d then stripMatrixParams d else d) = pathOf (rev (foldl cleanSegment [] (cutAt (λ c, bool_decide (c = ";"%char)) <$> splitAll "/" (foldBackslash t)))).
Proof.
  intros Hc d. assert (Hd : d = String "/" (foldBackslash t)) by (by destruct Hc as [->| ->]). split; [by rewrite Hd|]. unfold Clean, pathOf. rewrite bare_segments, Hd, splitAll_sep. done.
Qed.

Lemma denotes_normalize p names : denotes p names → normalizeHTTPPath p = Some (pathOf names) ∧ Forall name_ok names.
Proof.
  intros (q&c&t&segs&bare&Hq%path_part_iff&Ht%unescapes_iff&Hsus&Hc&Hsegs%segments_iff&Hbare%Forall2_parameterless&Hres%resolves_iff). subst. split.
  - unfold normalizeHTTPPath. rewrite Ht. rewrite suspicious_iff in Hsus. destruct (reStillEncodedPathSensitive (String c t)); [tauto|]. destruct (contains (λ c, bool_decide (c = zero)) (String c t)); [tauto|].
    destruct (Clean_rooted c t Hc) as [-> ->]. done.
  - apply Forall_rev, cleanSegment_ok; [|constructor]. apply Forall_fmap. eapply Forall_impl; [apply splitAll_lacks_all|]. intros seg Hseg. by apply cutAt_forallb.
Qed.

Lemma normalize_denotes p q : normalizeHTTPPath p = Some q → ∃ names, denotes p names ∧ q = pathOf names.
Proof.
  unfold normalizeHTTPPath. destruct (PathUnescape (cutAt isQueryOrFragment p)) as [d|] eqn:Hd; [|done]. destruct (reStillEncodedPathSensitive d) eqn:He; [done|]. destruct (contains (λ c, bool_decide (c = zero)) d) eqn:Hz; [done|].
  destruct (startsWithSlash (foldBackslash d)) eqn:Hs; [|done]. destruct d as [|c t]; [done|].
  assert (Hc : isSep c) by (cbn in Hs; unfold isSep; case_decide; [by right|left; by apply bool_decide_eq_true in Hs]). destruct (Clean_rooted c t Hc) as [_ Hclean].
  cbn [negb]. intros [= <-]. eexists. split; [|exact Hclean]. eexists _, c, t, _, _. split_and!; [by apply path_part_iff|by apply unescapes_iff|rewrite suspicious_iff; intros [?|?]; congruence|done|by apply segments_iff|by apply Forall2_parameterless|by apply resolves_iff].
Qed.

(** A path has one reading. *)
Lemma denotes_unique p ns1 ns2 : denotes p ns1 → denotes p ns2 → ns1 = ns2.
Proof. intros [H1 Hn1]%denotes_normalize [H2 Hn2]%denotes_normalize. apply pathOf_inj; [done|done|]. apply (inj Some). by rewrite <- H1, <- H2. Qed.

Lemma pathLoop_ok paths names : Forall name_ok names → pathLoop paths (pathOf names) = true ↔ ∃ m, m ∈ paths ∧ allows m names.
Proof.
  intros Hn. induction paths as [|m paths IH]; cbn [pathLoop]; [split; [done|by intros (?&?%elem_of_nil&_)]|]. setoid_rewrite elem_of_cons.
  assert (Hcons : (allows m names ∨ pathLoop paths (pathOf names) = true) ↔ ∃ m', (m' = m ∨ m' ∈ paths) ∧ allows m' names) by (rewrite IH; naive_solver). rewrite <- Hcons.
  assert (Hnone : ∀ p ns, normalizeHTTPPath p = None → ¬ denotes p ns) by (intros p ns Hp [Hd _]%denotes_normalize; congruence). clear IH Hcons. destruct m as [e|p]; cbn [allows].
  - destruct (normalizeHTTPPath e) as [q|] eqn:He; [|split; [by right|]; intros [?|?]; [exfalso; by eapply Hnone|done]]. destruct (normalize_denotes e q He) as (ns&Hd&->). case_decide as Heq.
    + apply pathOf_inj in Heq as ->; [|done|by apply denotes_normalize in Hd as []]. split; [by left|done].
    + split; [by right|]. intros [Hd'|?]; [|done]. by rewrite (denotes_unique e names ns Hd' Hd) in Heq.
  - destruct (normalizeHTTPPath p) as [q|] eqn:Hp; [|split; [by right|]; intros [(?&?&_)|?]; [exfalso; by eapply Hnone|done]]. destruct (normalize_denotes p q Hp) as (ns&Hd&->).
    pose proof (segmentPrefixMatch_names ns names (proj2 (denotes_normalize p ns Hd)) Hn) as Hs. destruct (segmentPrefixMatch (pathOf names) (pathOf ns)).
    + split; [|done]. intros _. left. exists ns. split; [done|by apply Hs].
    + split; [by right|]. intros [(ns'&Hd'&Hpre)|?]; [|done]. rewrite (denotes_unique p ns' ns Hd' Hd) in Hpre. by apply Hs in Hpre.
Qed.
End httppath.
Import httppath.

(** C31: A rule with paths matches a request exactly if the path of the request stands for some names and
    the rule has a path that stands for the same names, or a prefix that stands for the first of
    them.  What a spelling stands for is defined without the code: drop the query and the fragment,
    read each percent escape as its byte, once; refuse bad escapes, null bytes, and an escape of a
    dot, slash or backslash that is left; start at the root and separate at slashes and backslashes;
    drop the parameters of each segment; skip empty segments and dots; two dots go up one name, at
    the root nowhere.  So a prefix ends at a separator, and no spelling of a path matches what its
    names do not.  A request path that does not start with a slash is reported as invalid. *)
Theorem http_paths_match_names (paths : list PathMatch) (req : string) : paths ≠ [] →
  if startsWithSlash req
  then ∃ b, matchHTTPPaths paths (Some req) = Ret b ∧ (b = true ↔ ∃ names, denotes req names ∧ ∃ m, m ∈ paths ∧ allows m names)
  else matchHTTPPaths paths (Some req) = Fail InvalidHTTPPath.
Proof.
  intros Hp. unfold matchHTTPPaths. rewrite decide_False by done. destruct (startsWithSlash req); [|done]. cbn [negb].
  destruct (normalizeHTTPPath req) as [q|] eqn:Hq; [|exists false; split; [done|]; split; [done|]; intros (names&[Hd _]%denotes_normalize&_); congruence].
  destruct (normalize_denotes req q Hq) as (names&Hd&->). eexists. split; [done|]. rewrite (pathLoop_ok paths names (proj2 (denotes_normalize req names Hd))). split; [by exists names|].
  intros (names'&Hd'&Hm). by rewrite (denotes_unique req names' names Hd' Hd) in Hm.
Qed.

Lemma http_paths_match_names_witness :
  matchHTTPPaths [PathMatch_Prefix "/pub"] (Some "/pub/a%2fb") = Ret true ∧ denotes "/pub/a%2fb" ["pub"; "a"; "b"] ∧ (∃ m, m ∈ [PathMatch_Prefix "/pub"] ∧ allows m ["pub"; "a"; "b"]) ∧ ¬ denotes "/pub/..;x/admin" ["pub"; "admin"] ∧
  matchHTTPPaths [PathMatch_Prefix "/pub"] (Some "/pub/..;x/admin") = Ret false.
Proof.
  destruct (http_paths_match_names [PathMatch_Prefix "/pub"] "/pub/a%2fb" ltac:(done)) as (b&Hb&Hiff). vm_compute in Hb. injection Hb as <-. destruct (proj1 Hiff eq_refl) as (names&Hd&Hm).
  assert (names = ["pub"; "a"; "b"]) as ->.
  { destruct (denotes_normalize _ _ Hd) as [Hnorm Hok]. apply pathOf_inj; [exact Hok|repeat constructor; done|]. apply (inj Some). rewrite <- Hnorm. reflexivity. }
  split; [vm_compute; reflexivity|]. split; [exact Hd|]. split; [exact Hm|]. split; [|vm_compute; reflexivity]. intros [Hbad _]%denotes_normalize. vm_compute in Hbad. discriminate Hbad.
Defined.
