(* ===== verification/PolicyChecker.v ===== *)
(** * The policy checker: [app-policy/checker]

    Dikastes and Felix's collector evaluate the policies of an endpoint on a flow: [checkTiers] goes
    through tiers, policies and rules as Felix sent them, and [match_] says whether a rule matches.
    What a request is asked for again and again (texts of addresses, identities) is memoized in a
    [requestCache], the state that the functions thread.  [Fail] is a panic with
    [InvalidDataFromDataPlane], from which [checkTiers] recovers.  Texts of errors are left out. *)
From S2P Require Import Prelude ModelRule Tokenizer SelectorAST SelectorParser CIDR MemberDedup NetIP NetString NetParse PolicySorter NamedPortIndex RuleScanner RuleConvert ProtoMessages PolicyIPSet PolicyStore HTTPPath.
From Stdlib Require Import Ascii.
From stdpp Require Import base list gmap numbers strings pretty.
From stdpp Require Import options.
Import ipset policystore httppath.
#[local] Open Scope Z_scope.

Module checker.
(** ** Flows *)
Record Flow := MkFlow {
  GetSourceIP : NetIP;
  GetDestIP : NetIP;
  GetSourcePort : Z;
  GetDestPort : Z;
  GetProtocol : Z;
  GetHttpMethod : option string;
  GetHttpPath : option string;
  GetSourcePrincipal : option string;
  GetDestPrincipal : option string;
  GetSourceLabels : gmap string string;
  GetDestLabels : gmap string string
}.

(** ** [requestcache.go] *)
Record peer := MkPeer { peer_Name : string; peer_Namespace : string; peer_Labels : gmap string string }.
Record namespace := MkNamespace { ns_Name : string; ns_Labels : gmap string string }.
Record identity := MkIdentity { id_peer : option peer; id_namespace : option namespace; resolved : bool }.

Record requestCache := MkRequestCache {
  rc_flow : Flow;
  rc_store : PolicyStore;
  srcIPStr : string;
  dstIPStr : string;
  srcIPProtoPort : string;
  dstIPProtoPort : string;
  srcIdentity : identity;
  dstIdentity : identity;
  protocol : Z;
  protocolResolved : bool
}.

Definition unresolved : identity := MkIdentity None None false.
Definition NewRequestCache (store : PolicyStore) (request : Flow) : requestCache := MkRequestCache request store "" "" "" "" unresolved unresolved 0 false.

(** Functions of the cache: they return a value and the cache, or panic. *)
Inductive InvalidDataFromDataPlane := InvalidData.
Definition M (A : Type) : Type := requestCache → outcome InvalidDataFromDataPlane (A * requestCache).
Definition mret {A} (a : A) : M A := λ r, Ret (a, r).
Definition mbind {A B} (m : M A) (k : A → M B) : M B := λ r, let! (a, r) := m r in k a r.
Definition mlift {A} (o : outcome Empty_set A) : M A :=
  λ r, match o with Ret a => Ret (a, r) | Fail e => match e with end | Panic => Panic | OutOfFuel => OutOfFuel end.
Definition mget {A} (f : requestCache → A) : M A := λ r, Ret (f r, r).
(** [a && b]. *)
Definition mand (m n : M bool) : M bool := mbind m (λ b, if b then n else mret false).
Declare Scope checker_scope.
Delimit Scope checker_scope with checker.
Notation "'let*' x ':=' c 'in' k" := (mbind c (λ x, k)) (at level 10, x name, c at level 100, k at level 200) : checker_scope.
Infix "&&!" := mand (at level 40, left associativity) : checker_scope.
Open Scope checker_scope.

Definition getSrcIPStr : M string := λ r,
  let s := if decide (srcIPStr r = "") then NetIP_String (GetSourceIP (rc_flow r)) else srcIPStr r in
  Ret (s, MkRequestCache (rc_flow r) (rc_store r) s (dstIPStr r) (srcIPProtoPort r) (dstIPProtoPort r) (srcIdentity r) (dstIdentity r) (protocol r) (protocolResolved r)).

Definition getDstIPStr : M string := λ r,
  let s := if decide (dstIPStr r = "") then NetIP_String (GetDestIP (rc_flow r)) else dstIPStr r in
  Ret (s, MkRequestCache (rc_flow r) (rc_store r) (srcIPStr r) s (srcIPProtoPort r) (dstIPProtoPort r) (srcIdentity r) (dstIdentity r) (protocol r) (protocolResolved r)).

Definition cachedProtocol : M Z := λ r,
  let p := if protocolResolved r then protocol r else GetProtocol (rc_flow r) in
  Ret (p, MkRequestCache (rc_flow r) (rc_store r) (srcIPStr r) (dstIPStr r) (srcIPProtoPort r) (dstIPProtoPort r) (srcIdentity r) (dstIdentity r) p true).

Definition protocolMapL4 (protocol : Z) : string :=
  if decide (protocol = 1) then "icmp" else if decide (protocol = 6) then "tcp" else if decide (protocol = 17) then "udp" else if decide (protocol = 132) then "sctp" else "".

(** [%d]. *)
Definition decimalInt (x : Z) : string := if x <? 0 then "-" +:+ pretty (Z.to_N (- x)) else pretty (Z.to_N x).

Definition ipProtoPortKey (ipStr : string) (protocol port : Z) : string := ipStr +:+ "," +:+ protocolMapL4 protocol +:+ ":" +:+ decimalInt port.

Definition getSrcIPProtoPortStr : M string := λ r,
  if decide (srcIPProtoPort r = "") then
    (let* ip := getSrcIPStr in let* p := cachedProtocol in λ r,
      let s := ipProtoPortKey ip p (GetSourcePort (rc_flow r)) in
      Ret (s, MkRequestCache (rc_flow r) (rc_store r) (srcIPStr r) (dstIPStr r) s (dstIPProtoPort r) (srcIdentity r) (dstIdentity r) (protocol r) (protocolResolved r))) r
  else Ret (srcIPProtoPort r, r).

Definition getDstIPProtoPortStr : M string := λ r,
  if decide (dstIPProtoPort r = "") then
    (let* ip := getDstIPStr in let* p := cachedProtocol in λ r,
      let s := ipProtoPortKey ip p (GetDestPort (rc_flow r)) in
      Ret (s, MkRequestCache (rc_flow r) (rc_store r) (srcIPStr r) (dstIPStr r) (srcIPProtoPort r) s (srcIdentity r) (dstIdentity r) (protocol r) (protocolResolved r))) r
  else Ret (dstIPProtoPort r, r).

Fixpoint cutPrefix (p s : string) : option string :=
  match p, s with
  | "", _ => Some s
  | String c p', String d s' => if decide (c = d) then cutPrefix p' s' else None
  | _, "" => None
  end.
Definition HasPrefix (s p : string) : bool := match cutPrefix p s with Some _ => true | None => false end.

(** The regular expression [^spiffe://[^/]+/ns/([^/]+)/sa/([^/]+)$]: five texts between slashes. *)
Definition spiffeMatch (id : string) : option (string * string) :=
  match cutPrefix "spiffe://" id with
  | None => None
  | Some rest =>
      match splitAll "/" rest with
      | [td; "ns"; ns; "sa"; sa] => if decide (td ≠ "" ∧ ns ≠ "" ∧ sa ≠ "") then Some (ns, sa) else None
      | _ => None
      end
  end.

(** [None] is the error. *)
Definition parseSpiffeID (id : string) : option peer :=
  if decide (id = "") then Some (MkPeer "" "" ∅)
  else (λ p, MkPeer p.2 p.1 ∅) <$> spiffeMatch id.

(** The identifier of a service account is its name and its namespace.  Its labels override those of the flow. *)
Definition initPeer (store : PolicyStore) (principal : string) (labels : gmap string string) : option peer :=
  (λ p, MkPeer (peer_Name p) (peer_Namespace p)
          (match ServiceAccountByID store !! (peer_Name p, peer_Namespace p) with Some msg => sau_Labels msg ∪ labels | None => labels end)) <$> parseSpiffeID principal.

Definition initNamespace (store : PolicyStore) (name : string) : namespace :=
  MkNamespace name (match NamespaceByID store !! name with Some msg => nsu_Labels msg | None => ∅ end).

Definition resolveIdentity (store : PolicyStore) (principal : option string) (labels : gmap string string) : identity :=
  match principal with
  | None => MkIdentity None None true
  | Some principal =>
      let p := initPeer store principal labels in
      MkIdentity p ((λ p, initNamespace store (peer_Namespace p)) <$> p) true
  end.

Definition getSrcIdentity : M identity := λ r,
  if resolved (srcIdentity r) then Ret (srcIdentity r, r)
  else
    let id := resolveIdentity (rc_store r) (GetSourcePrincipal (rc_flow r)) (GetSourceLabels (rc_flow r)) in
    Ret (id, MkRequestCache (rc_flow r) (rc_store r) (srcIPStr r) (dstIPStr r) (srcIPProtoPort r) (dstIPProtoPort r) id (dstIdentity r) (protocol r) (protocolResolved r)).

Definition getDstIdentity : M identity := λ r,
  if resolved (dstIdentity r) then Ret (dstIdentity r, r)
  else
    let id := resolveIdentity (rc_store r) (GetDestPrincipal (rc_flow r)) (GetDestLabels (rc_flow r)) in
    Ret (id, MkRequestCache (rc_flow r) (rc_store r) (srcIPStr r) (dstIPStr r) (srcIPProtoPort r) (dstIPProtoPort r) (srcIdentity r) id (protocol r) (protocolResolved r)).

Definition getIPSet (id : string) : M (option IPSet) := mget (λ r, IPSetByID (rc_store r) !! id).

(** ** [match.go] *)
Section match_.
Context (MakeUniqueID : string → string → string).

(** *** Protocols *)
(** [strings.ToLower], on text that may be one of the names that it is compared with: ASCII letters, and
    the dotted capital I (U+0130, bytes C4 B0), which becomes an i. *)
Fixpoint ToLowerName (s : string) : string :=
  match s with
  | "" => ""
  | String c s' =>
      match s' with
      | String d s'' => if decide (c = "196"%char ∧ d = "176"%char) then String "i" (ToLowerName s'') else String (toLowerAscii c) (ToLowerName s')
      | "" => String (toLowerAscii c) ""
      end
  end.

Definition stringToProto (name : string) : option Z :=
  if decide (name = "icmp") then Some 1 else if decide (name = "icmpv6") then Some 58 else if decide (name = "tcp") then Some 6
  else if decide (name = "udp") then Some 17 else if decide (name = "udplite") then Some 136 else if decide (name = "sctp") then Some 132 else None.

Definition validL4Protocol (protocol : Z) : bool := (1 <=? protocol) && (protocol <=? 255).

(** [GetName] and [GetNumber] of a [proto.Protocol] are empty and zero when the other one is set. *)
Definition checkStringInRuleProtocol (p : option ProtoProtocol) (pNumber : Z) (defaultResult : bool) : bool :=
  match p with
  | None => defaultResult
  | Some p =>
      let name := match p with Protocol_Name name => name | Protocol_Number _ => "" end in
      let number := match p with Protocol_Number n => n | Protocol_Name _ => 0 end in
      if decide (name ≠ "") then match stringToProto (ToLowerName name) with None => false | Some n => n =? pNumber end
      else number =? pNumber
  end.

Definition matchL4Protocol (rule : ProtoRule) (protocol : Z) : bool :=
  if negb (validL4Protocol protocol) then false
  else checkStringInRuleProtocol (pr_Protocol rule) protocol true && negb (checkStringInRuleProtocol (pr_NotProtocol rule) protocol false).

(** *** Networks *)
(** [net.IPNet.Contains]. *)
Definition IPNet_Contains (n : IPNet_) (ip : NetIP) : bool :=
  let ip := match To4 ip with Some x => x | None => ip end in
  match networkNumberAndMask n with
  | None => bool_decide (length ip = 0%nat)
  | Some (nn, m) => bool_decide (length ip = length nn) && bool_decide (zip_with Z.land nn m = zip_with Z.land ip m)
  end.

Fixpoint netLoop (found : bool) (nets : list string) (ip : NetIP) : bool :=
  match nets with
  | [] => negb found
  | n :: nets' =>
      match ParseCIDR n with
      | None => false
      | Some ipn => if IPNet_Contains ipn ip then found else netLoop found nets' ip
      end
  end.

Definition matchNet (nets : list string) (ip : NetIP) : bool := if decide (nets = []) then true else netLoop true nets ip.
Definition matchNotNet (nets : list string) (ip : NetIP) : bool := if decide (nets = []) then true else netLoop false nets ip.

Definition matchSrcNet (rule : ProtoRule) : M bool := mget (λ r, matchNet (pr_SrcNet rule) (GetSourceIP (rc_flow r)) && matchNotNet (pr_NotSrcNet rule) (GetSourceIP (rc_flow r))).
Definition matchDstNet (rule : ProtoRule) : M bool := mget (λ r, matchNet (pr_DstNet rule) (GetDestIP (rc_flow r)) && matchNotNet (pr_NotDstNet rule) (GetDestIP (rc_flow r))).

(** *** IP sets and ports *)
(** [s != nil && s.Contains(value)]. *)
Definition inIPSet (id value : string) : M (option bool) :=
  let* s := getIPSet id in
  match s with None => mret None | Some s => let* b := mlift (Contains value s) in mret (Some b) end.

Fixpoint matchIPSetsAll (ids : list string) (value : string) : M bool :=
  match ids with
  | [] => mret true
  | id :: ids' => let* b := inIPSet id value in if decide (b = Some false) then mret false else matchIPSetsAll ids' value
  end.

(** [matchIPSetsNotAny], and the loop over named ports of [matchNotPort]; that of [matchPort] returns the
    opposite. *)
Fixpoint matchIPSetsNotAny (ids : list string) (value : string) : M bool :=
  match ids with
  | [] => mret true
  | id :: ids' => let* b := inIPSet id value in if decide (b = Some true) then mret false else matchIPSetsNotAny ids' value
  end.

Definition matchSrcIPSets (r : ProtoRule) : M bool :=
  if decide (pr_SrcIpSetIds r = [] ∧ pr_NotSrcIpSetIds r = []) then mret true
  else let* srcIP := getSrcIPStr in matchIPSetsAll (pr_SrcIpSetIds r) srcIP &&! matchIPSetsNotAny (pr_NotSrcIpSetIds r) srcIP.

Definition matchDstIPSets (r : ProtoRule) : M bool :=
  if decide (pr_DstIpSetIds r = [] ∧ pr_NotDstIpSetIds r = []) then mret true
  else let* destIP := getDstIPStr in matchIPSetsAll (pr_DstIpSetIds r) destIP &&! matchIPSetsNotAny (pr_NotDstIpSetIds r) destIP.

Definition matchDstIPPortSetIds (r : ProtoRule) : M bool :=
  if decide (pr_DstIpPortSetIds r = []) then mret true
  else let* key := getDstIPProtoPortStr in matchIPSetsAll (pr_DstIpPortSetIds r) key.

Definition inRanges (ranges : list PortRange) (p : Z) : bool := existsb (λ r, (First r <=? p) && (p <=? Last r)) ranges.

Definition matchPort (ranges : list PortRange) (namedPortSets : list string) (port : Z) (namedPortKey : M string) : M bool :=
  if decide (ranges = [] ∧ namedPortSets = []) then mret true
  else if inRanges ranges (int32 port) then mret true
  else if decide (namedPortSets = []) then mret false
  else let* key := namedPortKey in let* none := matchIPSetsNotAny namedPortSets key in mret (negb none).

Definition matchNotPort (ranges : list PortRange) (namedPortSets : list string) (port : Z) (namedPortKey : M string) : M bool :=
  if decide (ranges = [] ∧ namedPortSets = []) then mret true
  else if inRanges ranges (int32 port) then mret false
  else if decide (namedPortSets = []) then mret true
  else let* key := namedPortKey in matchIPSetsNotAny namedPortSets key.

Definition matchSrcPort (r : ProtoRule) : M bool :=
  let* port := mget (λ c, GetSourcePort (rc_flow c)) in
  matchPort (pr_SrcPorts r) (pr_SrcNamedPortIpSetIds r) port getSrcIPProtoPortStr &&! matchNotPort (pr_NotSrcPorts r) (pr_NotSrcNamedPortIpSetIds r) port getSrcIPProtoPortStr.

Definition matchDstPort (r : ProtoRule) : M bool :=
  let* port := mget (λ c, GetDestPort (rc_flow c)) in
  matchPort (pr_DstPorts r) (pr_DstNamedPortIpSetIds r) port getDstIPProtoPortStr &&! matchNotPort (pr_NotDstPorts r) (pr_NotDstNamedPortIpSetIds r) port getDstIPProtoPortStr.

(** *** Identities *)
Record namespaceMatch := MkNamespaceMatch { nm_Names : list string; nm_Selector : string }.

Definition computeNamespaceMatch (policyNamespace nsSelector podSelector notPodSelector : string) (saMatch : option ServiceAccountMatch) : namespaceMatch :=
  if decide (nsSelector ≠ "") then MkNamespaceMatch [] nsSelector
  else if decide (policyNamespace ≠ "" ∧ (podSelector ≠ "" ∨ notPodSelector ≠ "" ∨ from_option sam_Names [] saMatch ≠ [] ∨ from_option sam_Selector "" saMatch ≠ "")) then MkNamespaceMatch [policyNamespace] ""
  else MkNamespaceMatch [] "".

Definition matchName (names : list string) (name : string) : bool := if decide (names = []) then true else bool_decide (name ∈ names).

Definition matchLabels (selectorStr : string) (labels : gmap string string) : M bool := λ r,
  match Parse MakeUniqueID selectorStr with
  | Ret (Some sel) => Ret (Evaluate (root sel) labels, r)
  | Fail _ => Ret (false, r)
  | Ret None | Panic => Panic
  | OutOfFuel => OutOfFuel
  end.

Definition matchServiceAccounts (saMatch : option ServiceAccountMatch) (p : option peer) : M bool :=
  match p, saMatch with
  | None, _ | _, None => mret true
  | Some p, Some sam =>
      if decide (peer_Name p = "") then mret true
      else if matchName (sam_Names sam) (peer_Name p) then matchLabels (sam_Selector sam) (peer_Labels p) else mret false
  end.

Definition matchNamespace (nsMatch : namespaceMatch) (ns : option namespace) : M bool :=
  match ns with
  | None => mret true
  | Some ns =>
      if decide (ns_Name ns = "") then mret true
      else if matchName (nm_Names nsMatch) (ns_Name ns) then matchLabels (nm_Selector nsMatch) (ns_Labels ns) else mret false
  end.

Definition matchSrcIdentity (policyNamespace : string) (r : ProtoRule) : M bool :=
  let nsMatch := computeNamespaceMatch policyNamespace (pr_OriginalSrcNamespaceSelector r) (pr_OriginalSrcSelector r) (pr_OriginalNotSrcSelector r) (pr_SrcServiceAccountMatch r) in
  (let* id := getSrcIdentity in matchServiceAccounts (pr_SrcServiceAccountMatch r) (id_peer id)) &&! (let* id := getSrcIdentity in matchNamespace nsMatch (id_namespace id)).

Definition matchDstIdentity (policyNamespace : string) (r : ProtoRule) : M bool :=
  let nsMatch := computeNamespaceMatch policyNamespace (pr_OriginalDstNamespaceSelector r) (pr_OriginalDstSelector r) (pr_OriginalNotDstSelector r) (pr_DstServiceAccountMatch r) in
  (let* id := getDstIdentity in matchServiceAccounts (pr_DstServiceAccountMatch r) (id_peer id)) &&! (let* id := getDstIdentity in matchNamespace nsMatch (id_namespace id)).

(** *** Requests and rules *)
Definition matchRequest (rule : ProtoRule) : M bool := λ r,
  match matchHTTP (pr_HttpMatch rule) (GetHttpMethod (rc_flow r)) (GetHttpPath (rc_flow r)) with
  | Ret b => Ret (b, r)
  | Fail _ => Fail InvalidData
  | Panic => Panic
  | OutOfFuel => OutOfFuel
  end.

Definition match_ (policyNamespace : string) (rule : ProtoRule) : M bool :=
  (let* p := cachedProtocol in mret (matchL4Protocol rule p)) &&!
  matchSrcPort rule &&!
  matchDstPort rule &&!
  matchSrcNet rule &&!
  matchDstNet rule &&!
  matchSrcIPSets rule &&!
  matchDstIPSets rule &&!
  matchDstIPPortSetIds rule &&!
  matchSrcIdentity policyNamespace rule &&!
  matchDstIdentity policyNamespace rule &&!
  matchRequest rule.

(** ** [check.go] *)
(** [Action(INTERNAL)], for what is not in the store, is none of the named actions. *)
Inductive Action := ALLOW | DENY | LOG | PASS | NO_MATCH | ACTION_INTERNAL.
Inductive RuleDir := RuleDirIngress | RuleDirEgress.
Inductive RuleAction := RuleActionAllow | RuleActionDeny | RuleActionPass.
Inductive PolicyScope := EnforcedOnly | StagedAsEnforced.
Inductive Code := OK | PERMISSION_DENIED | INVALID_ARGUMENT | INTERNAL.
#[global] Instance Action_eq_dec : EqDecision Action. Proof. solve_decision. Defined.
#[global] Instance Code_eq_dec : EqDecision Code. Proof. solve_decision. Defined.
#[global] Instance RuleDir_eq_dec : EqDecision RuleDir. Proof. solve_decision. Defined.
#[global] Instance PolicyScope_eq_dec : EqDecision PolicyScope. Proof. solve_decision. Defined.

(** [calc.RuleID], without the texts that are computed from these fields. *)
Record RuleID := NewRuleID { rid_Kind : string; rid_Tier : string; rid_Name : string; rid_Namespace : string; rid_Index : Z; rid_Direction : RuleDir; rid_Action : RuleAction }.

Definition profileStr : string := "__PROFILE__".
Definition tierDefaultActionIndex : Z := -1.
Definition unknownIndex : Z := -2.

Definition KindIsStaged (kind : string) : bool :=
  bool_decide (kind ∈ ["StagedNetworkPolicy"; "StagedGlobalNetworkPolicy"; "StagedKubernetesNetworkPolicy"]).

Definition actionFromString (s : string) : outcome InvalidDataFromDataPlane Action :=
  let s := ToLowerName s in
  if decide (s = "allow") then Ret ALLOW else if decide (s = "deny") then Ret DENY
  else if decide (s = "pass" ∨ s = "next-tier") then Ret PASS else if decide (s = "log") then Ret LOG else Fail InvalidData.

Definition ruleActionFromStr (s : string) : outcome InvalidDataFromDataPlane RuleAction :=
  let s := ToLowerName s in
  if decide (s = "allow") then Ret RuleActionAllow else if decide (s = "deny") then Ret RuleActionDeny
  else if decide (s = "pass") then Ret RuleActionPass else Fail InvalidData.

Definition mout {A} (o : outcome InvalidDataFromDataPlane A) : M A := λ r, let! a := o in Ret (a, r).

(** From the [i]-th rule on. *)
Fixpoint rulesLoop (rules : list ProtoRule) (policyNamespace : string) (i : Z) : M (Action * Z) :=
  match rules with
  | [] => mret (NO_MATCH, tierDefaultActionIndex)
  | r :: rules' =>
      let* matched := match_ policyNamespace r in
      if matched then
        let* a := mout (actionFromString (pr_Action r)) in
        if decide (a ≠ LOG) then mret (a, i) else rulesLoop rules' policyNamespace (i + 1)
      else rulesLoop rules' policyNamespace (i + 1)
  end.

Definition checkRules (rules : list ProtoRule) (policyNamespace : string) : M (Action * Z) := rulesLoop rules policyNamespace 0.

Definition checkPolicy (policy : ProtoPolicy) (dir : RuleDir) : M (Action * Z) :=
  checkRules (if decide (dir = RuleDirEgress) then pp_OutboundRules policy else pp_InboundRules policy) (pp_Namespace policy).

Definition checkProfile (profile : option ProtoProfile) (dir : RuleDir) : M (Action * Z) :=
  match profile with
  | None => mret (ACTION_INTERNAL, unknownIndex)
  | Some profile => checkRules (if decide (dir = RuleDirEgress) then pf_OutboundRules profile else pf_InboundRules profile) ""
  end.

Definition getPoliciesByDirection (dir : RuleDir) (tier : ProtoTierInfo) : list PolicyKey :=
  if decide (dir = RuleDirEgress) then pt_EgressPolicies tier else pt_IngressPolicies tier.

(** What a part of [checkTiers] comes to: it returns with a status, or goes on; pointers to rule identifiers
    may be nil in the trace.  A panic with [InvalidData] ends with [INVALID_ARGUMENT] and the trace so far. *)
Abbreviation Trace := (list (option RuleID)).
Inductive Progress (A : Type) := Returned (code : Code) (trace : Trace) | GoesOn (a : A) (trace : Trace) (r : requestCache).
#[global] Arguments Returned {A} code trace.
#[global] Arguments GoesOn {A} a trace r.

(** A call within [checkTiers], with [handlePanic] for what it panics with. *)
Definition recovering {A B} (m : M A) (trace : Trace) (r : requestCache) (k : A → requestCache → outcome Empty_set (Progress B)) : outcome Empty_set (Progress B) :=
  match m r with
  | Ret (a, r) => k a r
  | Fail InvalidData => Ret (Returned INVALID_ARGUMENT trace)
  | Panic => Panic
  | OutOfFuel => OutOfFuel
  end.

(** The state of the loop over the policies of a tier. *)
Record TierState := MkTierState { ts_action : Action; ts_inScope : nat; ts_default : option RuleID }.

(** The loop over the policies of a tier.  A policy that passes ends it. *)
Fixpoint policyLoop (scope : PolicyScope) (dir : RuleDir) (tier : ProtoTierInfo) (policies : list PolicyKey) (ts : TierState) (trace : Trace) (r : requestCache) : outcome Empty_set (Progress TierState) :=
  match policies with
  | [] => Ret (GoesOn ts trace r)
  | pID :: policies' =>
      if bool_decide (scope = EnforcedOnly) && KindIsStaged (pk_Kind pID) then policyLoop scope dir tier policies' ts trace r
      else
        let inScope := S (ts_inScope ts) in
        match PolicyByID (rc_store r) !! pID with
        | None => Ret (Returned INTERNAL trace)
        | Some policy =>
            recovering (checkPolicy policy dir) trace r (λ '(action, ruleIndex) r,
              let rid act := NewRuleID (pk_Kind pID) (pt_Name tier) (pk_Name pID) (pk_Namespace pID) ruleIndex dir act in
              match action with
              | NO_MATCH =>
                  match ts_default ts with
                  | Some _ => policyLoop scope dir tier policies' (MkTierState action inScope (ts_default ts)) trace r
                  | None =>
                      recovering (mout (ruleActionFromStr (pt_DefaultAction tier))) trace r (λ act r,
                        let id := NewRuleID (pk_Kind pID) (pt_Name tier) (pk_Name pID) (pk_Namespace pID) tierDefaultActionIndex dir act in
                        policyLoop scope dir tier policies' (MkTierState action inScope (Some id)) trace r)
                  end
              | ALLOW => Ret (Returned OK (trace ++ [Some (rid RuleActionAllow)]))
              | DENY => Ret (Returned PERMISSION_DENIED (trace ++ [Some (rid RuleActionDeny)]))
              | PASS => Ret (GoesOn (MkTierState action inScope (ts_default ts)) (trace ++ [Some (rid RuleActionPass)]) r)
              | LOG => Ret (Returned INVALID_ARGUMENT trace)
              | ACTION_INTERNAL => policyLoop scope dir tier policies' (MkTierState action inScope (ts_default ts)) trace r
              end)
        end
  end.

Fixpoint tierLoop (scope : PolicyScope) (dir : RuleDir) (tiers : list ProtoTierInfo) (trace : Trace) (r : requestCache) : outcome Empty_set (Progress unit) :=
  match tiers with
  | [] => Ret (GoesOn () trace r)
  | tier :: tiers' =>
      if decide (getPoliciesByDirection dir tier = []) then tierLoop scope dir tiers' trace r
      else
        let! p := policyLoop scope dir tier (getPoliciesByDirection dir tier) (MkTierState NO_MATCH 0 None) trace r in
        match p with
        | Returned code trace => Ret (Returned code trace)
        | GoesOn ts trace r =>
            if decide (0 < ts_inScope ts ∧ ts_action ts = NO_MATCH)%nat then
              let trace := trace ++ [ts_default ts] in
              if decide (pt_DefaultAction tier ≠ "Pass") then Ret (Returned PERMISSION_DENIED trace) else tierLoop scope dir tiers' trace r
            else tierLoop scope dir tiers' trace r
        end
  end.

Fixpoint profileLoop (dir : RuleDir) (names : list string) (trace : Trace) (r : requestCache) : outcome Empty_set (Progress unit) :=
  match names with
  | [] => Ret (Returned PERMISSION_DENIED trace)
  | name :: names' =>
      recovering (checkProfile (ProfileByID (rc_store r) !! name) dir) trace r (λ '(action, ruleIndex) r,
        let rid act := NewRuleID "Profile" profileStr name "" ruleIndex dir act in
        match action with
        | NO_MATCH | ACTION_INTERNAL => profileLoop dir names' trace r
        | ALLOW => Ret (Returned OK (trace ++ [Some (rid RuleActionAllow)]))
        | DENY | PASS => Ret (Returned PERMISSION_DENIED (trace ++ [Some (rid RuleActionDeny)]))
        | LOG => Ret (Returned INVALID_ARGUMENT trace)
        end)
  end.

Definition checkTiers (scope : PolicyScope) (store : PolicyStore) (ep : option ProtoWorkloadEndpoint) (dir : RuleDir) (flow : Flow) : outcome Empty_set (Code * Trace) :=
  match ep with
  | None => Ret (PERMISSION_DENIED, [])
  | Some ep =>
      let! p := tierLoop scope dir (pw_Tiers ep) [] (NewRequestCache store flow) in
      match p with
      | Returned code trace => Ret (code, trace)
      | GoesOn _ trace r =>
          if decide (pw_ProfileIds ep = []) then
            Ret (PERMISSION_DENIED, trace ++ [Some (NewRuleID "Profile" profileStr profileStr "" tierDefaultActionIndex dir RuleActionDeny)])
          else
            let! p := profileLoop dir (pw_ProfileIds ep) trace r in
            match p with Returned code trace => Ret (code, trace) | GoesOn _ trace _ => Ret (PERMISSION_DENIED, trace) end
      end
  end.

Definition checkStore (scope : PolicyScope) (store : PolicyStore) (ep : option ProtoWorkloadEndpoint) (dir : RuleDir) (req : Flow) : outcome Empty_set Code :=
  let! (code, trace) := checkTiers scope store ep dir req in Ret code.

(** [Fail] is the error of an evaluation that was not completed. *)
Definition Evaluate_ (scope : PolicyScope) (dir : RuleDir) (store : PolicyStore) (ep : option ProtoWorkloadEndpoint) (flow : Flow) : outcome Code Trace :=
  match checkTiers scope store ep dir flow with
  | Ret (code, trace) => if decide (code = INTERNAL ∨ code = INVALID_ARGUMENT) then Fail code else Ret trace
  | Fail e => match e with end
  | Panic => Panic
  | OutOfFuel => OutOfFuel
  end.

Section lookup.
Context (enum : gmap WorkloadEndpointID ProtoWorkloadEndpoint → list (WorkloadEndpointID * ProtoWorkloadEndpoint)).

(** [Addr] of the CIDR: a text that is not an address or a CIDR has no endpoints. *)
Definition keysOf (store : PolicyStore) (addr : string) : outcome Empty_set (list WorkloadEndpointID) :=
  match ParseCIDROrIP addr with Ret c => Ret (Keys enum (AddrOf c) (IPToIndexes store)) | Fail _ => Ret [] | Panic => Panic | OutOfFuel => OutOfFuel end.

Definition LookupEndpointKeysFromSrcDst (store : PolicyStore) (src dst : string) : outcome Empty_set (list WorkloadEndpointID * list WorkloadEndpointID) :=
  let! destination := keysOf store dst in
  let! source := keysOf store src in
  Ret (source, destination).
End lookup.
End match_.
End checker.
