(* ===== verification/PolicyCheckerSpec.v ===== *)
(** * What the policy checker decides

    The memoized values of a request do not change what is computed: every function of the cache
    [respects] the request behind it.  So the loops over tiers, policies and rules come to the first
    rule that matches in a flat list of rules. *)
From S2P Require Import Prelude ModelRule Tokenizer SelectorAST SelectorParser CIDR CIDRTrieSpec MemberDedup MemberDedupSpec NetIP NetString NetParse PolicySorter NamedPortIndex NamedPortCandidates RuleScanner RuleMatch RuleConvert.
From S2P Require Import ProtoMessages SequencerTracked SequencerSpec RuleDataplane PolicyIPSet PolicyStore HTTPPath PolicyChecker.
From Stdlib Require Import Ascii.
From stdpp Require Import base list gmap numbers strings pretty.
From stdpp Require Import options.
Import ipset policystore httppath checker.
#[local] Open Scope Z_scope.

(** ** Memoized values *)
Definition srcKey (f : Flow) : string := ipProtoPortKey (NetIP_String (GetSourceIP f)) (GetProtocol f) (GetSourcePort f).
Definition dstKey (f : Flow) : string := ipProtoPortKey (NetIP_String (GetDestIP f)) (GetProtocol f) (GetDestPort f).
Definition srcId (s : PolicyStore) (f : Flow) : identity := resolveIdentity s (GetSourcePrincipal f) (GetSourceLabels f).
Definition dstId (s : PolicyStore) (f : Flow) : identity := resolveIdentity s (GetDestPrincipal f) (GetDestLabels f).

(** A cache of the request has nothing or the right value in each place. *)
Record cache_of (s : PolicyStore) (f : Flow) (r : requestCache) : Prop := {
  co_flow : rc_flow r = f;
  co_store : rc_store r = s;
  co_srcIP : srcIPStr r = "" ∨ srcIPStr r = NetIP_String (GetSourceIP f);
  co_dstIP : dstIPStr r = "" ∨ dstIPStr r = NetIP_String (GetDestIP f);
  co_srcKey : srcIPProtoPort r = "" ∨ srcIPProtoPort r = srcKey f;
  co_dstKey : dstIPProtoPort r = "" ∨ dstIPProtoPort r = dstKey f;
  co_srcId : resolved (srcIdentity r) = true → srcIdentity r = srcId s f;
  co_dstId : resolved (dstIdentity r) = true → dstIdentity r = dstId s f;
  co_protocol : protocolResolved r = true → protocol r = GetProtocol f
}.

Lemma cache_new s f : cache_of s f (NewRequestCache s f).
Proof. split; cbn; auto; done. Qed.

Section respects.
Context (s : PolicyStore) (f : Flow).

(** [m] computes [o] from whatever is in the cache. *)
Definition computes {A} (m : M A) (o : outcome InvalidDataFromDataPlane A) : Prop :=
  ∀ r, cache_of s f r →
    match o with
    | Ret a => ∃ r', m r = Ret (a, r') ∧ cache_of s f r'
    | Fail e => m r = Fail e
    | Panic => m r = Panic
    | OutOfFuel => m r = OutOfFuel
    end.

Lemma computes_ret {A} (a : A) : computes (mret a) (Ret a).
Proof using Type. intros r Hr. by exists r. Qed.

Lemma computes_bind {A B} (m : M A) (k : A → M B) o ko : computes m o → (∀ a, o = Ret a → computes (k a) (ko a)) → computes (mbind m k) (obind o ko).
Proof using Type.
  intros Hm Hk r Hr. specialize (Hm r Hr). unfold mbind. destruct o as [a|e| |]; cbn [obind]; [|by rewrite Hm..]. destruct Hm as (r'&Hm&Hr'). rewrite Hm. cbn [obind]. by apply Hk.
Qed.

Definition oand (o p : outcome InvalidDataFromDataPlane bool) : outcome InvalidDataFromDataPlane bool := let! b := o in if b then p else Ret false.

Lemma computes_and m n o p : computes m o → computes n p → computes (mand m n) (oand o p).
Proof using Type. intros Hm Hn. apply computes_bind; [done|]. intros [] _; [done|apply computes_ret]. Qed.

Lemma computes_get {A} (g : requestCache → A) a : (∀ r, rc_flow r = f → rc_store r = s → g r = a) → computes (mget g) (Ret a).
Proof using Type. intros Hg r Hr. exists r. split; [|done]. unfold mget. by rewrite Hg by apply Hr. Qed.

Definition widen {A} (o : outcome Empty_set A) : outcome InvalidDataFromDataPlane A :=
  match o with Ret a => Ret a | Fail e => match e with end | Panic => Panic | OutOfFuel => OutOfFuel end.

Lemma computes_lift {A} (o : outcome Empty_set A) : computes (mlift o) (widen o).
Proof using Type. intros r Hr. destruct o as [a|[]| |]; cbn; [by exists r|done..]. Qed.

Lemma computes_out {A} (o : outcome InvalidDataFromDataPlane A) : computes (mout o) o.
Proof using Type. intros r Hr. unfold mout. destruct o as [a| | |]; cbn; [by exists r|done..]. Qed.

Ltac solve_cache H := destruct H; split; cbn in *; auto.

Lemma computes_srcIP : computes getSrcIPStr (Ret (NetIP_String (GetSourceIP f))).
Proof using Type. intros r Hr. unfold getSrcIPStr. eexists. assert (Hs : (if decide (srcIPStr r = "") then NetIP_String (GetSourceIP (rc_flow r)) else srcIPStr r) = NetIP_String (GetSourceIP f)) by (rewrite (co_flow _ _ _ Hr); destruct (co_srcIP _ _ _ Hr); case_decide; congruence). rewrite Hs. split; [done|]. solve_cache Hr. Qed.

Lemma computes_dstIP : computes getDstIPStr (Ret (NetIP_String (GetDestIP f))).
Proof using Type. intros r Hr. unfold getDstIPStr. eexists. assert (Hs : (if decide (dstIPStr r = "") then NetIP_String (GetDestIP (rc_flow r)) else dstIPStr r) = NetIP_String (GetDestIP f)) by (rewrite (co_flow _ _ _ Hr); destruct (co_dstIP _ _ _ Hr); case_decide; congruence). rewrite Hs. split; [done|]. solve_cache Hr. Qed.

Lemma computes_protocol : computes cachedProtocol (Ret (GetProtocol f)).
Proof using Type. intros r Hr. unfold cachedProtocol. eexists. assert (Hp : (if protocolResolved r then protocol r else GetProtocol (rc_flow r)) = GetProtocol f) by (rewrite (co_flow _ _ _ Hr); destruct (protocolResolved r) eqn:He; [by apply (co_protocol _ _ _ Hr)|done]). rewrite Hp. split; [done|]. solve_cache Hr. Qed.

Lemma computes_srcKey : computes getSrcIPProtoPortStr (Ret (srcKey f)).
Proof using Type.
  intros r Hr. unfold getSrcIPProtoPortStr. case_decide as He; [|exists r; split; [|done]; by destruct (co_srcKey _ _ _ Hr) as [?| ->]].
  destruct (computes_srcIP r Hr) as (r1&H1&Hr1). unfold mbind. rewrite H1. cbn [obind]. destruct (computes_protocol r1 Hr1) as (r2&H2&Hr2). rewrite H2. cbn [obind]. rewrite (co_flow _ _ _ Hr2). eexists. split; [done|]. solve_cache Hr2.
Qed.

Lemma computes_dstKey : computes getDstIPProtoPortStr (Ret (dstKey f)).
Proof using Type.
  intros r Hr. unfold getDstIPProtoPortStr. case_decide as He; [|exists r; split; [|done]; by destruct (co_dstKey _ _ _ Hr) as [?| ->]].
  destruct (computes_dstIP r Hr) as (r1&H1&Hr1). unfold mbind. rewrite H1. cbn [obind]. destruct (computes_protocol r1 Hr1) as (r2&H2&Hr2). rewrite H2. cbn [obind]. rewrite (co_flow _ _ _ Hr2). eexists. split; [done|]. solve_cache Hr2.
Qed.

Lemma computes_srcId : computes getSrcIdentity (Ret (srcId s f)).
Proof using Type.
  intros r Hr. unfold getSrcIdentity. destruct (resolved (srcIdentity r)) eqn:He; [exists r; split; [|done]; by rewrite (co_srcId _ _ _ Hr He)|]. rewrite (co_flow _ _ _ Hr), (co_store _ _ _ Hr). eexists. split; [done|]. solve_cache Hr.
Qed.

Lemma computes_dstId : computes getDstIdentity (Ret (dstId s f)).
Proof using Type.
  intros r Hr. unfold getDstIdentity. destruct (resolved (dstIdentity r)) eqn:He; [exists r; split; [|done]; by rewrite (co_dstId _ _ _ Hr He)|]. rewrite (co_flow _ _ _ Hr), (co_store _ _ _ Hr). eexists. split; [done|]. solve_cache Hr.
Qed.

(** ** IP sets *)
(** What the IP sets of the store answer; a set that is missing does not answer. *)
Context (answers : string → string → option bool).
Hypothesis (Hanswers : ∀ id v, match IPSetByID s !! id with None => answers id v = None | Some X => ∃ b, Contains v X = Ret b ∧ answers id v = Some b end).

Lemma computes_inIPSet id v : computes (inIPSet id v) (Ret (answers id v)).
Proof using Hanswers.
  intros r Hr. unfold inIPSet, mbind, getIPSet, mget. cbn [obind]. rewrite (co_store _ _ _ Hr). specialize (Hanswers id v). destruct (IPSetByID s !! id) as [X|].
  - destruct Hanswers as (b&Hb&->). rewrite Hb. cbn. by exists r.
  - rewrite Hanswers. by exists r.
Qed.

Definition allOf (ids : list string) (v : string) : bool := forallb (λ id, bool_decide (answers id v ≠ Some false)) ids.
Definition noneOf (ids : list string) (v : string) : bool := forallb (λ id, bool_decide (answers id v ≠ Some true)) ids.

Lemma computes_all ids v : computes (matchIPSetsAll ids v) (Ret (allOf ids v)).
Proof using Hanswers.
  induction ids as [|id ids IH]; cbn [matchIPSetsAll allOf forallb]; [apply computes_ret|]. change (Ret ?b) with (obind (Ret (answers id v) : outcome InvalidDataFromDataPlane _) (λ o, Ret (bool_decide (o ≠ Some false) && allOf ids v))).
  apply computes_bind; [apply computes_inIPSet|]. intros o _. case_decide as Ho; [rewrite bool_decide_eq_false_2 by tauto; apply computes_ret|by rewrite bool_decide_eq_true_2].
Qed.

Lemma computes_none ids v : computes (matchIPSetsNotAny ids v) (Ret (noneOf ids v)).
Proof using Hanswers.
  induction ids as [|id ids IH]; cbn [matchIPSetsNotAny noneOf forallb]; [apply computes_ret|]. change (Ret ?b) with (obind (Ret (answers id v) : outcome InvalidDataFromDataPlane _) (λ o, Ret (bool_decide (o ≠ Some true) && noneOf ids v))).
  apply computes_bind; [apply computes_inIPSet|]. intros o _. case_decide as Ho; [rewrite bool_decide_eq_false_2 by tauto; apply computes_ret|by rewrite bool_decide_eq_true_2].
Qed.

Lemma computes_bind_ret {A B} (m : M A) (k : A → M B) a o : computes m (Ret a) → computes (k a) o → computes (mbind m k) o.
Proof using Type. clear Hanswers. intros Hm Hk. apply (computes_bind m k (Ret a) (λ _, o) Hm). by intros a' [= <-]. Qed.

Lemma computes_and_ret m n (a b : bool) : computes m (Ret a) → computes n (Ret b) → computes (mand m n) (Ret (a && b)).
Proof using Type. clear Hanswers. intros Hm Hn. eapply computes_bind_ret; [exact Hm|]. destruct a; [done|apply computes_ret]. Qed.

Definition setsOK (sets notSets : list string) (v : string) : bool := allOf sets v && noneOf notSets v.

Lemma computes_srcSets rule : computes (matchSrcIPSets rule) (Ret (setsOK (pr_SrcIpSetIds rule) (pr_NotSrcIpSetIds rule) (NetIP_String (GetSourceIP f)))).
Proof using Hanswers.
  unfold matchSrcIPSets. case_decide as He; [destruct He as [-> ->]; apply computes_ret|]. eapply computes_bind_ret; [apply computes_srcIP|]. apply computes_and_ret; [apply computes_all|apply computes_none].
Qed.

Lemma computes_dstSets rule : computes (matchDstIPSets rule) (Ret (setsOK (pr_DstIpSetIds rule) (pr_NotDstIpSetIds rule) (NetIP_String (GetDestIP f)))).
Proof using Hanswers.
  unfold matchDstIPSets. case_decide as He; [destruct He as [-> ->]; apply computes_ret|]. eapply computes_bind_ret; [apply computes_dstIP|]. apply computes_and_ret; [apply computes_all|apply computes_none].
Qed.

Lemma computes_dstPortSets rule : computes (matchDstIPPortSetIds rule) (Ret (allOf (pr_DstIpPortSetIds rule) (dstKey f))).
Proof using Hanswers. unfold matchDstIPPortSetIds. case_decide as He; [rewrite He; apply computes_ret|]. eapply computes_bind_ret; [apply computes_dstKey|]. apply computes_all. Qed.

(** ** Ports *)
Definition portsOK (ranges : list PortRange) (sets : list string) (notRanges : list PortRange) (notSets : list string) (port : Z) (key : string) : bool :=
  (bool_decide (ranges = [] ∧ sets = []) || inRanges ranges (int32 port) || negb (noneOf sets key)) &&
  negb (inRanges notRanges (int32 port)) && noneOf notSets key.

Lemma computes_port ranges sets port mkey key : computes mkey (Ret key) →
  computes (matchPort ranges sets port mkey) (Ret (bool_decide (ranges = [] ∧ sets = []) || inRanges ranges (int32 port) || negb (noneOf sets key))).
Proof using Hanswers.
  intros Hkey. unfold matchPort. case_decide as He; [rewrite bool_decide_eq_true_2 by done; apply computes_ret|]. rewrite bool_decide_eq_false_2 by done. cbn [orb]. destruct (inRanges ranges (int32 port)); [apply computes_ret|]. cbn [orb].
  case_decide as Hs; [subst; apply computes_ret|]. eapply computes_bind_ret; [exact Hkey|]. eapply computes_bind_ret; [apply computes_none|apply computes_ret].
Qed.

Lemma computes_notPort ranges sets port mkey key : computes mkey (Ret key) → computes (matchNotPort ranges sets port mkey) (Ret (negb (inRanges ranges (int32 port)) && noneOf sets key)).
Proof using Hanswers.
  intros Hkey. unfold matchNotPort. case_decide as He; [destruct He as [-> ->]; apply computes_ret|]. destruct (inRanges ranges (int32 port)); [apply computes_ret|]. cbn [negb andb].
  case_decide as Hs; [subst; apply computes_ret|]. eapply computes_bind_ret; [exact Hkey|]. apply computes_none.
Qed.

Lemma computes_srcPort rule : computes (matchSrcPort rule) (Ret (portsOK (pr_SrcPorts rule) (pr_SrcNamedPortIpSetIds rule) (pr_NotSrcPorts rule) (pr_NotSrcNamedPortIpSetIds rule) (GetSourcePort f) (srcKey f))).
Proof using Hanswers.
  unfold matchSrcPort, portsOK. eapply computes_bind_ret; [by apply (computes_get _ (GetSourcePort f)); intros r -> _|]. rewrite <- andb_assoc. apply computes_and_ret; [apply computes_port|apply computes_notPort]; apply computes_srcKey.
Qed.

Lemma computes_dstPort rule : computes (matchDstPort rule) (Ret (portsOK (pr_DstPorts rule) (pr_DstNamedPortIpSetIds rule) (pr_NotDstPorts rule) (pr_NotDstNamedPortIpSetIds rule) (GetDestPort f) (dstKey f))).
Proof using Hanswers.
  unfold matchDstPort, portsOK. eapply computes_bind_ret; [by apply (computes_get _ (GetDestPort f)); intros r -> _|]. rewrite <- andb_assoc. apply computes_and_ret; [apply computes_port|apply computes_notPort]; apply computes_dstKey.
Qed.

(** ** Identities *)
Context (MakeUniqueID : string → string → string).

Definition labelsRef (sel : string) (labels : gmap string string) : outcome InvalidDataFromDataPlane bool :=
  match Parse MakeUniqueID sel with Ret (Some sel) => Ret (Evaluate (root sel) labels) | Fail _ => Ret false | Ret None | Panic => Panic | OutOfFuel => OutOfFuel end.

Definition accountRef (sa : option ServiceAccountMatch) (p : option peer) : outcome InvalidDataFromDataPlane bool :=
  match p, sa with
  | Some p, Some sam => if decide (peer_Name p = "") then Ret true else if matchName (sam_Names sam) (peer_Name p) then labelsRef (sam_Selector sam) (peer_Labels p) else Ret false
  | _, _ => Ret true
  end.

Definition namespaceRef (nm : namespaceMatch) (ns : option namespace) : outcome InvalidDataFromDataPlane bool :=
  match ns with
  | Some ns => if decide (ns_Name ns = "") then Ret true else if matchName (nm_Names nm) (ns_Name ns) then labelsRef (nm_Selector nm) (ns_Labels ns) else Ret false
  | None => Ret true
  end.

Lemma computes_labels sel labels : computes (matchLabels MakeUniqueID sel labels) (labelsRef sel labels).
Proof using Type. clear Hanswers. intros r Hr. unfold matchLabels, labelsRef. destruct (Parse MakeUniqueID sel) as [[sel'|]| | |]; try done; by exists r. Qed.

Lemma computes_account sa p : computes (matchServiceAccounts MakeUniqueID sa p) (accountRef sa p).
Proof using Type. clear Hanswers. destruct p as [p|], sa as [sa|]; cbn; try apply computes_ret. case_decide; [apply computes_ret|]. destruct (matchName _ _); [apply computes_labels|apply computes_ret]. Qed.

Lemma computes_namespace nm ns : computes (matchNamespace MakeUniqueID nm ns) (namespaceRef nm ns).
Proof using Type. clear Hanswers. destruct ns as [ns|]; cbn; [|apply computes_ret]. case_decide; [apply computes_ret|]. destruct (matchName _ _); [apply computes_labels|apply computes_ret]. Qed.

Definition srcIdentityRef (ns : string) (r : ProtoRule) : outcome InvalidDataFromDataPlane bool :=
  oand (accountRef (pr_SrcServiceAccountMatch r) (id_peer (srcId s f)))
       (namespaceRef (computeNamespaceMatch ns (pr_OriginalSrcNamespaceSelector r) (pr_OriginalSrcSelector r) (pr_OriginalNotSrcSelector r) (pr_SrcServiceAccountMatch r)) (id_namespace (srcId s f))).

Definition dstIdentityRef (ns : string) (r : ProtoRule) : outcome InvalidDataFromDataPlane bool :=
  oand (accountRef (pr_DstServiceAccountMatch r) (id_peer (dstId s f)))
       (namespaceRef (computeNamespaceMatch ns (pr_OriginalDstNamespaceSelector r) (pr_OriginalDstSelector r) (pr_OriginalNotDstSelector r) (pr_DstServiceAccountMatch r)) (id_namespace (dstId s f))).

Lemma computes_srcIdentity ns rule : computes (matchSrcIdentity MakeUniqueID ns rule) (srcIdentityRef ns rule).
Proof using Type. clear Hanswers. unfold matchSrcIdentity, srcIdentityRef. apply computes_and; (eapply computes_bind_ret; [apply computes_srcId|]); [apply computes_account|apply computes_namespace]. Qed.

Lemma computes_dstIdentity ns rule : computes (matchDstIdentity MakeUniqueID ns rule) (dstIdentityRef ns rule).
Proof using Type. clear Hanswers. unfold matchDstIdentity, dstIdentityRef. apply computes_and; (eapply computes_bind_ret; [apply computes_dstId|]); [apply computes_account|apply computes_namespace]. Qed.

Definition requestRef (rule : ProtoRule) : outcome InvalidDataFromDataPlane bool :=
  match matchHTTP (pr_HttpMatch rule) (GetHttpMethod f) (GetHttpPath f) with Ret b => Ret b | Fail _ => Fail InvalidData | Panic => Panic | OutOfFuel => OutOfFuel end.

Lemma computes_request rule : computes (matchRequest rule) (requestRef rule).
Proof using Type. clear Hanswers. intros r Hr. unfold matchRequest, requestRef. rewrite (co_flow _ _ _ Hr). destruct (matchHTTP _ _ _) as [b| | |]; try done. by exists r. Qed.

(** ** A rule *)
(** Protocol, networks, ports and IP sets. *)
Definition networkOK (rule : ProtoRule) : bool :=
  matchL4Protocol rule (GetProtocol f) &&
  portsOK (pr_SrcPorts rule) (pr_SrcNamedPortIpSetIds rule) (pr_NotSrcPorts rule) (pr_NotSrcNamedPortIpSetIds rule) (GetSourcePort f) (srcKey f) &&
  portsOK (pr_DstPorts rule) (pr_DstNamedPortIpSetIds rule) (pr_NotDstPorts rule) (pr_NotDstNamedPortIpSetIds rule) (GetDestPort f) (dstKey f) &&
  (matchNet (pr_SrcNet rule) (GetSourceIP f) && matchNotNet (pr_NotSrcNet rule) (GetSourceIP f)) &&
  (matchNet (pr_DstNet rule) (GetDestIP f) && matchNotNet (pr_NotDstNet rule) (GetDestIP f)) &&
  setsOK (pr_SrcIpSetIds rule) (pr_NotSrcIpSetIds rule) (NetIP_String (GetSourceIP f)) &&
  setsOK (pr_DstIpSetIds rule) (pr_NotDstIpSetIds rule) (NetIP_String (GetDestIP f)) &&
  allOf (pr_DstIpPortSetIds rule) (dstKey f).

(** Then who the peers are, and what is requested. *)
Definition matchRef (ns : string) (rule : ProtoRule) : outcome InvalidDataFromDataPlane bool :=
  oand (oand (oand (Ret (networkOK rule)) (srcIdentityRef ns rule)) (dstIdentityRef ns rule)) (requestRef rule).

Lemma computes_match ns rule : computes (match_ MakeUniqueID ns rule) (matchRef ns rule).
Proof using Hanswers.
  unfold match_, matchRef. apply computes_and; [|apply computes_request]. apply computes_and; [|apply computes_dstIdentity]. apply computes_and; [|apply computes_srcIdentity].
  unfold networkOK. repeat apply computes_and_ret.
  - eapply computes_bind_ret; [apply computes_protocol|apply computes_ret].
  - apply computes_srcPort.
  - apply computes_dstPort.
  - by apply computes_get; intros r -> _.
  - by apply computes_get; intros r -> _.
  - apply computes_srcSets.
  - apply computes_dstSets.
  - apply computes_dstPortSets.
Qed.
End respects.

(** ** The verdict *)
Section verdict.
Context (s : PolicyStore) (f : Flow) (answers : string → string → option bool) (MakeUniqueID : string → string → string).
Hypothesis (Hanswers : ∀ id v, match IPSetByID s !! id with None => answers id v = None | Some X => ∃ b, Contains v X = Ret b ∧ answers id v = Some b end).
Abbreviation computes := (computes s f).
Abbreviation matchRef := (matchRef s f answers MakeUniqueID).

(** A rule that can be evaluated, and that has an action. *)
Definition rule_ok (ns : string) (rule : ProtoRule) : Prop := (∃ b, matchRef ns rule = Ret b) ∧ ∃ a, actionFromString (pr_Action rule) = Ret a.

Definition hits (ns : string) (rule : ProtoRule) : bool := match matchRef ns rule with Ret b => b | _ => false end.

(** What the rule decides, unless it does not match or only logs. *)
Definition decisive (r : string * ProtoRule) : option Action :=
  if hits r.1 r.2 then match actionFromString (pr_Action r.2) with Ret LOG => None | Ret a => Some a | _ => None end else None.

(** The first rule of a list that decides. *)
Definition firstAction (l : list (string * ProtoRule)) : option Action := head (omap decisive l).

Lemma firstAction_app l1 l2 : firstAction (l1 ++ l2) = match firstAction l1 with Some a => Some a | None => firstAction l2 end.
Proof using Type. clear Hanswers. unfold firstAction. rewrite omap_app. by destruct (omap decisive l1). Qed.

Lemma firstAction_kind l a : firstAction l = Some a → a = ALLOW ∨ a = DENY ∨ a = PASS.
Proof using Type.
  clear Hanswers. unfold firstAction. intros Ha. assert (Hin : a ∈ omap decisive l) by (destruct (omap decisive l); [done|]; injection Ha as ->; by left). apply list_elem_of_omap in Hin as ([ns r]&_&Hd). unfold decisive in Hd.
  destruct (hits _ _); [|done]. unfold actionFromString in Hd. cbv zeta in Hd. repeat case_decide; cbn in Hd; try done; injection Hd as <-; auto.
Qed.

Definition flatRules (ns : string) (rules : list ProtoRule) : list (string * ProtoRule) := pair ns <$> rules.

Lemma rulesLoop_ok ns rules i : Forall (rule_ok ns) rules → ∃ j, computes (rulesLoop MakeUniqueID rules ns i) (Ret (default NO_MATCH (firstAction (flatRules ns rules)), j)).
Proof using Hanswers.
  intros Hok. revert i. induction Hok as [|r rules [[b Hb] [a Ha]] Hok IH]; intros i; cbn [rulesLoop]; [eexists; apply computes_ret|].
  destruct (IH (i + 1)) as [j Hj]. pose proof (computes_match s f answers Hanswers MakeUniqueID ns r) as Hm. rewrite Hb in Hm.
  assert (Hfirst : firstAction (flatRules ns (r :: rules)) = match decisive (ns, r) with Some a => Some a | None => firstAction (flatRules ns rules) end) by (unfold firstAction, flatRules; cbn [fmap list_fmap omap list_omap]; by destruct (decisive (ns, r))).
  rewrite Hfirst. unfold decisive, hits. cbn [fst snd]. rewrite Hb, Ha. destruct b; [|exists j; by eapply computes_bind_ret; [exact Hm|]].
  destruct (decide (a ≠ LOG)) as [Hl|Hl].
  - exists i. eapply computes_bind_ret; [exact Hm|]. cbv iota. eapply computes_bind_ret; [apply computes_out|]. rewrite decide_True by done. destruct a; try done; apply computes_ret.
  - exists j. eapply computes_bind_ret; [exact Hm|]. cbv iota. eapply computes_bind_ret; [apply computes_out|]. rewrite decide_False by done. apply dec_stable in Hl as ->. done.
Qed.

(** *** Policies *)
Context (scope : PolicyScope) (dir : RuleDir).

Definition policyRulesOf (p : ProtoPolicy) : list ProtoRule := if decide (dir = RuleDirEgress) then pp_OutboundRules p else pp_InboundRules p.
Definition profileRulesOf (p : ProtoProfile) : list ProtoRule := if decide (dir = RuleDirEgress) then pf_OutboundRules p else pf_InboundRules p.

Definition inScope (policies : list PolicyKey) : list PolicyKey := filter (λ p, bool_decide (scope = EnforcedOnly) && KindIsStaged (pk_Kind p) = false) policies.

(** The rules of the policies in scope, in order. *)
Definition policiesFlat (policies : list PolicyKey) : list (string * ProtoRule) :=
  inScope policies ≫= λ k, match PolicyByID s !! k with Some p => flatRules (pp_Namespace p) (policyRulesOf p) | None => [] end.

Definition policies_ok (policies : list PolicyKey) : Prop :=
  ∀ k, k ∈ inScope policies → ∃ p, PolicyByID s !! k = Some p ∧ Forall (rule_ok (pp_Namespace p)) (policyRulesOf p).

Definition in_order (ts : TierState) : Prop := (0 < ts_inScope ts)%nat → ts_action ts = NO_MATCH ∧ is_Some (ts_default ts).

Lemma recovering_ok {A B} (m : M A) a trace r (k : A → requestCache → outcome Empty_set (Progress B)) (P : outcome Empty_set (Progress B) → Prop) :
  computes m (Ret a) → cache_of s f r → (∀ r', cache_of s f r' → P (k a r')) → P (recovering m trace r k).
Proof using Type. clear Hanswers. intros Hm Hr Hk. destruct (Hm r Hr) as (r'&He&Hr'). unfold recovering. rewrite He. by apply Hk. Qed.

(** What the loop over the policies of a tier comes to. *)
Definition tier_outcome (first : option Action) (n : nat) (trace : list (option RuleID)) (o : outcome Empty_set (Progress TierState)) : Prop :=
  match first with
  | Some ALLOW => ∃ id, o = Ret (Returned OK (trace ++ [Some id]))
  | Some DENY => ∃ id, o = Ret (Returned PERMISSION_DENIED (trace ++ [Some id]))
  | Some PASS => ∃ ts id r, o = Ret (GoesOn ts (trace ++ [Some id]) r) ∧ ts_action ts = PASS ∧ cache_of s f r
  | _ => ∃ ts r, o = Ret (GoesOn ts trace r) ∧ ts_inScope ts = n ∧ in_order ts ∧ cache_of s f r
  end.

Lemma policyLoop_ok tier policies ts trace r : policies_ok policies → (inScope policies ≠ [] → ∃ a, ruleActionFromStr (pt_DefaultAction tier) = Ret a) → in_order ts → cache_of s f r →
  tier_outcome (firstAction (policiesFlat policies)) (ts_inScope ts + length (inScope policies)) trace (policyLoop MakeUniqueID scope dir tier policies ts trace r).
Proof using Hanswers.
  revert ts r. induction policies as [|k policies IH]; intros ts r Hok Hdef Hts Hr; cbn [policyLoop]; [exists ts, r; cbn; split_and!; [done|lia|done|done]|].
  unfold policiesFlat, policies_ok in *. unfold inScope in *. rewrite filter_cons in *. destruct (bool_decide (scope = EnforcedOnly) && KindIsStaged (pk_Kind k)) eqn:Hst.
  { rewrite decide_False in * by done. by apply IH. }
  rewrite decide_True in * by done. rewrite bind_cons, firstAction_app. cbn [length]. destruct (Hok k) as (p&Hp&Hrules); [by left|]. rewrite (co_store _ _ _ Hr), Hp. destruct (rulesLoop_ok (pp_Namespace p) (policyRulesOf p) 0 Hrules) as [j Hj].
  set (R := filter _ policies) in *. destruct (Hdef ltac:(done)) as [d Hd].
  eapply (recovering_ok (checkPolicy MakeUniqueID p dir)); [exact Hj|done|]. intros r1 Hr1. destruct (firstAction (flatRules (pp_Namespace p) (policyRulesOf p))) as [a|] eqn:Hf; cbn [default from_option id].
  - destruct (firstAction_kind _ _ Hf) as [->|[->| ->]]; cbn; [by eexists|by eexists|]. eexists _, _, _. split_and!; [done|done|done].
  - assert (Hrec : ∀ d' r2, is_Some d' → cache_of s f r2 → tier_outcome (firstAction (R ≫= λ k, match PolicyByID s !! k with Some p => flatRules (pp_Namespace p) (policyRulesOf p) | None => [] end)) (ts_inScope ts + S (length R)) trace (policyLoop MakeUniqueID scope dir tier policies (MkTierState NO_MATCH (S (ts_inScope ts)) d') trace r2)).
    { intros d' r2 Hd' Hr2. rewrite <- Nat.add_succ_comm. apply (IH (MkTierState NO_MATCH (S (ts_inScope ts)) d')); [|eauto|done|done]. intros k' Hk'. apply Hok. by right. }
    destruct (ts_default ts) as [id|]; [by apply Hrec|]. eapply (recovering_ok (mout (ruleActionFromStr (pt_DefaultAction tier)))); [rewrite Hd; apply computes_out|done|]. intros r2 Hr2. by apply Hrec.
Qed.

(** *** Tiers and profiles *)
Definition tier_ok (tier : ProtoTierInfo) : Prop :=
  let policies := getPoliciesByDirection dir tier in
  policies_ok policies ∧ (inScope policies ≠ [] → ∃ a, ruleActionFromStr (pt_DefaultAction tier) = Ret a).

(** What the tiers decide: in each, the first rule that decides, or the default action at the end; a
    tier without policies in scope does not count. *)
Fixpoint tiersVerdict (tiers : list ProtoTierInfo) : option bool :=
  match tiers with
  | [] => None
  | tier :: tiers' =>
      let policies := getPoliciesByDirection dir tier in
      if decide (inScope policies = []) then tiersVerdict tiers'
      else match firstAction (policiesFlat policies) with
           | Some ALLOW => Some true
           | Some PASS => tiersVerdict tiers'
           | Some _ => Some false
           | None => if decide (pt_DefaultAction tier = "Pass") then tiersVerdict tiers' else Some false
           end
  end.

Definition codeOf (allowed : bool) : Code := if allowed then OK else PERMISSION_DENIED.

Definition tiers_outcome (verdict : option bool) (o : outcome Empty_set (Progress unit)) : Prop :=
  match verdict with
  | Some b => ∃ trace, o = Ret (Returned (codeOf b) trace) ∧ Forall is_Some trace
  | None => ∃ trace r, o = Ret (GoesOn () trace r) ∧ Forall is_Some trace ∧ cache_of s f r
  end.

Lemma tierLoop_ok tiers trace r : Forall tier_ok tiers → Forall is_Some trace → cache_of s f r → tiers_outcome (tiersVerdict tiers) (tierLoop MakeUniqueID scope dir tiers trace r).
Proof using Hanswers.
  intros Hok. revert trace r. induction Hok as [|tier tiers [Hp Hd] Hok IH]; intros trace r Htr Hr; cbn [tierLoop tiersVerdict]; [by exists trace, r|].
  set (policies := getPoliciesByDirection dir tier) in *. destruct (decide (policies = [])) as [He|Hne]; [rewrite He; by apply IH|].
  assert (Hsnoc : ∀ id, Forall is_Some (trace ++ [Some id])) by (intros id; apply Forall_app; split; [done|by repeat constructor]).
  pose proof (policyLoop_ok tier policies (MkTierState NO_MATCH 0 None) trace r Hp Hd ltac:(intros H; cbn in H; lia) Hr) as Hl. cbn [ts_inScope Nat.add] in Hl.
  destruct (decide (inScope policies = [])) as [Hs|Hs].
  - assert (Hflat : policiesFlat policies = []) by (unfold policiesFlat; by rewrite Hs). rewrite Hflat, Hs in Hl. destruct Hl as (ts&r'&->&Hn&_&Hr'). cbn [obind]. rewrite decide_False by (rewrite Hn; cbn; lia). by apply IH.
  - destruct (firstAction (policiesFlat policies)) as [a|] eqn:Hf.
    + destruct (firstAction_kind _ _ Hf) as [->|[->| ->]]; cbn in Hl.
      * destruct Hl as [id ->]. cbn. by eexists.
      * destruct Hl as [id ->]. cbn. by eexists.
      * destruct Hl as (ts&id&r'&->&Ha&Hr'). cbn [obind]. rewrite decide_False by (rewrite Ha; by intros [_ ?]). by apply IH.
    + destruct Hl as (ts&r'&->&Hn&Hin&Hr'). cbn [obind]. assert (0 < ts_inScope ts)%nat as Hpos by (rewrite Hn; destruct (inScope policies); [done|cbn; lia]). destruct (Hin Hpos) as [Ha [id Hid]]. rewrite (decide_True (P := (0 < ts_inScope ts)%nat ∧ ts_action ts = NO_MATCH)) by done. rewrite Hid.
      destruct (decide (pt_DefaultAction tier = "Pass")) as [Hpass|Hpass]; [rewrite decide_False by (by intros []); by apply IH|]. rewrite decide_True by done. by eexists.
Qed.

Definition profilesFlat (names : list string) : list (string * ProtoRule) :=
  names ≫= λ name, match ProfileByID s !! name with Some p => flatRules "" (profileRulesOf p) | None => [] end.

Definition profiles_ok (names : list string) : Prop := ∀ name p, name ∈ names → ProfileByID s !! name = Some p → Forall (rule_ok "") (profileRulesOf p).

Definition profilesVerdict (names : list string) : bool := bool_decide (firstAction (profilesFlat names) = Some ALLOW).

Lemma profileLoop_ok names trace r : profiles_ok names → Forall is_Some trace → cache_of s f r → tiers_outcome (Some (profilesVerdict names)) (profileLoop MakeUniqueID dir names trace r).
Proof using Hanswers.
  intros Hok Htr. revert r. induction names as [|name names IH]; intros r Hr; cbn [profileLoop]; [by exists trace|]. rewrite (co_store _ _ _ Hr). unfold profilesVerdict, profilesFlat. rewrite bind_cons, firstAction_app.
  assert (Hsnoc : ∀ id, Forall is_Some (trace ++ [Some id])) by (intros id; apply Forall_app; split; [done|by repeat constructor]).
  assert (Hrest : ∀ r', cache_of s f r' → tiers_outcome (Some (profilesVerdict names)) (profileLoop MakeUniqueID dir names trace r')) by (intros r' Hr'; apply IH; [|done]; intros n p Hn; apply Hok; by right).
  destruct (ProfileByID s !! name) as [p|] eqn:Hp.
  - destruct (rulesLoop_ok "" (profileRulesOf p) 0 (Hok name p ltac:(by left) Hp)) as [j Hj]. eapply (recovering_ok (checkProfile MakeUniqueID (Some p) dir)); [exact Hj|done|]. intros r1 Hr1.
    destruct (firstAction (flatRules "" (profileRulesOf p))) as [a|] eqn:Hf; cbn [default from_option id]; [|by apply Hrest]. destruct (firstAction_kind _ _ Hf) as [->|[->| ->]]; cbn; eexists; (split; [done|]); done.
  - eapply (recovering_ok (checkProfile MakeUniqueID None dir)); [apply computes_ret|done|]. intros r1 Hr1. by apply Hrest.
Qed.

(** The verdict on the flow, from flat lists of rules. *)
Definition allowed (ep : ProtoWorkloadEndpoint) : bool := match tiersVerdict (pw_Tiers ep) with Some b => b | None => profilesVerdict (pw_ProfileIds ep) end.

Definition endpoint_ok (ep : ProtoWorkloadEndpoint) : Prop := Forall tier_ok (pw_Tiers ep) ∧ profiles_ok (pw_ProfileIds ep).

Lemma checkTiers_ok ep : endpoint_ok ep → ∃ trace, checkTiers MakeUniqueID scope s (Some ep) dir f = Ret (codeOf (allowed ep), trace) ∧ Forall is_Some trace.
Proof using Hanswers.
  intros [Ht Hp]. unfold checkTiers, allowed. pose proof (tierLoop_ok (pw_Tiers ep) [] (NewRequestCache s f) Ht ltac:(constructor) (cache_new s f)) as Hl. destruct (tiersVerdict (pw_Tiers ep)) as [b|]; cbn in Hl.
  - destruct Hl as (trace&->&Htr). cbn. by exists trace.
  - destruct Hl as (trace&r&->&Htr&Hr). cbn [obind]. case_decide as Hn; [rewrite Hn; eexists; split; [done|]; apply Forall_app; split; [done|by repeat constructor]|].
    destruct (profileLoop_ok (pw_ProfileIds ep) trace r Hp Htr Hr) as (trace'&->&Htr'). cbn. by exists trace'.
Qed.
End verdict.

(** C7: The memoized values and the nested loops do not show: for any endpoint whose policies are in the
    store and whose rules can be evaluated, [checkTiers] ends, with a trace that has no nil entries,
    and its verdict is that of the first deciding rule in flat lists of rules.  In each tier with
    policies in scope, the rules of these policies one after the other, each evaluated on the
    request alone; the first that matches and does not just log allows, denies, or passes to
    the next tier, and without one the default action of the tier passes or denies; then the
    same with the rules of the profiles, of which none passes.  Staged policies are in
    scope only if they are evaluated as if they were enforced. *)
Theorem checker_first_match (MakeUniqueID : string → string → string) (scope : PolicyScope) (s : PolicyStore) (ep : ProtoWorkloadEndpoint) (dir : RuleDir) (f : Flow) (answers : string → string → option bool) :
  (∀ id v, match IPSetByID s !! id with None => answers id v = None | Some X => ∃ b, Contains v X = Ret b ∧ answers id v = Some b end) →
  endpoint_ok s f answers MakeUniqueID scope dir ep →
  ∃ trace, checkTiers MakeUniqueID scope s (Some ep) dir f = Ret (codeOf (allowed s f answers MakeUniqueID scope dir ep), trace) ∧ Forall is_Some trace.
Proof. intros Ha Hok. by apply checkTiers_ok. Qed.

(** *** Example *)
(** A rule that allows web traffic from one network, unless the source is in a set. *)
Definition webRule : ProtoRule :=
  MkProtoRule "allow" IPVersion_ANY (Some (Protocol_Name "TCP")) ["10.0.0.0/8"] [] [] [] [MkPortRange 80 90] [] None [] [] []
    None [] [] [] [] None ["s:blocked"] [] [] [] "" "" "" "" "" "" "" "" "" "" None None None None "".
Definition webStore : PolicyStore :=
  MkPolicyStore ∅ {[ MkPolicyKey "web" "" "GlobalNetworkPolicy" := MkProtoPolicy "default" "" [webRule] [] false false "" [] ]} ∅
    {[ "s:blocked" := ipMapSet {[ "10.0.0.66" ]} ]} None ∅ ∅ ∅.
Definition webEndpoint : ProtoWorkloadEndpoint :=
  MkProtoWorkloadEndpoint "active" "eth0" "" [] [] [] [MkProtoTierInfo "default" [MkPolicyKey "web" "" "GlobalNetworkPolicy"] [] "Deny"] [] [] [] ∅ None None None [] "" false NO_ROLE "".
Definition webFlow (src : NetIP) : Flow := MkFlow src [10; 1; 2; 3] 4000 80 6 None None None None ∅ ∅.
Definition webAnswers (id v : string) : option bool := if decide (id = "s:blocked") then Some (bool_decide (v = "10.0.0.66")) else None.

Lemma checker_first_match_witness :
  (∃ trace, checkTiers (λ _ _, "") EnforcedOnly webStore (Some webEndpoint) RuleDirIngress (webFlow [10; 0; 0; 5]) = Ret (OK, trace)) ∧
  ∃ trace, checkTiers (λ _ _, "") EnforcedOnly webStore (Some webEndpoint) RuleDirIngress (webFlow [10; 0; 0; 66]) = Ret (PERMISSION_DENIED, trace).
Proof.
  assert (Ha : ∀ id v, match IPSetByID webStore !! id with None => webAnswers id v = None | Some X => ∃ b, Contains v X = Ret b ∧ webAnswers id v = Some b end).
  { intros id v. unfold webAnswers. cbn [webStore IPSetByID]. destruct (decide (id = "s:blocked")) as [->|Hne]; [|by rewrite lookup_singleton_ne]. rewrite lookup_singleton_eq. eexists. split; [done|]. f_equal. apply bool_decide_ext. by rewrite elem_of_singleton. }
  assert (Hok : ∀ src, src = [10; 0; 0; 5] ∨ src = [10; 0; 0; 66] → endpoint_ok webStore (webFlow src) webAnswers (λ _ _, "") EnforcedOnly RuleDirIngress webEndpoint).
  { intros src Hsrc. split; [|intros name p Hin; by apply elem_of_nil in Hin]. constructor; [|constructor]. split.
    - intros k Hk. assert (k = MkPolicyKey "web" "" "GlobalNetworkPolicy") as -> by (by apply list_elem_of_filter in Hk as [_ Hk%list_elem_of_singleton]). eexists. split; [apply lookup_singleton_eq|]. constructor; [|constructor].
      split; [|by eexists]. destruct Hsrc as [->| ->]; eexists; vm_compute; reflexivity.
    - intros _. by eexists. }
  split.
  - destruct (checker_first_match (λ _ _, "") EnforcedOnly webStore webEndpoint RuleDirIngress (webFlow [10; 0; 0; 5]) webAnswers Ha) as (trace&Ht&_); [apply Hok; by left|]. exists trace. rewrite Ht. f_equal.
  - destruct (checker_first_match (λ _ _, "") EnforcedOnly webStore webEndpoint RuleDirIngress (webFlow [10; 0; 0; 66]) webAnswers Ha) as (trace&Ht&_); [apply Hok; by right|]. exists trace. rewrite Ht. f_equal.
Defined.

(** ** The store follows the messages *)
Section follows.
Context {ConfigUpdate : Type}.
Abbreviation Msg := (Msg ConfigUpdate).
Abbreviation Dataplane := (Dataplane (ConfigUpdate := ConfigUpdate)).
Implicit Types (dp : Dataplane) (X : gset string) (st : PolicyStore).

(** The text of a network. *)
Definition net_text (a : string) : Prop := ∃ c, net_ok c ∧ a = CIDR_String c.

(** An IP set of the store has the members that were sent. *)
Definition set_rel (t : IPSetType) X (S : IPSet) : Prop :=
  match t with
  | IPSetUpdate_IP => S = ipMapSet X
  | IPSetUpdate_IP_AND_PORT => S = ipPortMapSet X
  | IPSetUpdate_NET => ∃ m C, S = ipNets m ∧ net_set_has m C ∧ ∀ a, a ∈ X ↔ ∃ c, c ∈ C ∧ a = CIDR_String c
  end.

Lemma set_rel_new t : set_rel t ∅ (NewIPSet t).
Proof using Type. destruct t; cbn; [done|done|]. eexists _, ∅. split; [done|]. split; [|set_solver]. split_and!; [set_solver|by apply trie_has_empty|by apply trie_has_empty]. Qed.

Lemma AddString_ok t X S a : set_rel t X S → (t = IPSetUpdate_NET → net_text a) → ∃ S', AddString a S = Ret S' ∧ set_rel t ({[a]} ∪ X) S'.
Proof using Type.
  destruct t; cbn [set_rel]; [intros -> _; by eexists|intros -> _; by eexists|]. intros (m&C&->&Hm&HX) Ht. destruct (Ht eq_refl) as (c&Hc&->). destruct (net_op_ok m C (NetAdd c) Hm Hc) as (m'&Hr&Hm'). cbn [net_run] in Hr. apply obind_Ret in Hr as (S'&HS&[= ->]).
  exists (ipNets m'). split; [done|]. eexists _, _. split_and!; [done|done|]. intros a. rewrite elem_of_union, elem_of_singleton, HX. cbn [net_members]. set_solver.
Qed.

Lemma RemoveString_ok t X S a : set_rel t X S → (t = IPSetUpdate_NET → net_text a) → ∃ S', RemoveString a S = Ret S' ∧ set_rel t (X ∖ {[a]}) S'.
Proof using Type.
  destruct t; cbn [set_rel]; [intros -> _; by eexists|intros -> _; by eexists|]. intros (m&C&->&Hm&HX) Ht. destruct (Ht eq_refl) as (c&Hc&->). destruct (net_op_ok m C (NetRemove c) Hm Hc) as (m'&Hr&Hm'). cbn [net_run] in Hr. apply obind_Ret in Hr as (S'&HS&[= ->]).
  exists (ipNets m'). split; [done|]. eexists _, _. split_and!; [done|done|]. intros a. rewrite elem_of_difference, elem_of_singleton, HX. cbn [net_members]. setoid_rewrite elem_of_difference. setoid_rewrite elem_of_singleton. split.
  - intros [(c'&Hin&->) Hne]. exists c'. split_and!; [done| |done]. by intros ->.
  - intros (c'&[Hin Hne]&->). split; [by exists c'|]. intros Heq. apply Hne. apply CIDR_String_inj; [by apply (proj1 Hm)|done|done].
Qed.

Lemma addLoop_ok t l X S : set_rel t X S → (t = IPSetUpdate_NET → Forall net_text l) → ∃ S', stringLoop AddString l S = Ret S' ∧ set_rel t (X ∪ list_to_set l) S'.
Proof using Type.
  revert X S. induction l as [|a l IH]; intros X S HS Ht; cbn [stringLoop]; [exists S; split; [done|]; cbn; by rewrite union_empty_r_L|].
  destruct (AddString_ok t X S a HS) as (S1&Hr&HS1); [intros He; by apply list.Forall_cons in Ht as [? _]|]. rewrite Hr. cbn [obind]. destruct (IH _ _ HS1) as (S2&Hr2&HS2); [intros He; by apply list.Forall_cons in Ht as [_ ?]|]. exists S2. split; [done|].
  replace (X ∪ list_to_set (a :: l)) with ({[a]} ∪ X ∪ list_to_set l) by set_solver. done.
Qed.

Lemma removeLoop_ok t l X S : set_rel t X S → (t = IPSetUpdate_NET → Forall net_text l) → ∃ S', stringLoop RemoveString l S = Ret S' ∧ set_rel t (X ∖ list_to_set l) S'.
Proof using Type.
  revert X S. induction l as [|a l IH]; intros X S HS Ht; cbn [stringLoop]; [exists S; split; [done|]; cbn; by rewrite difference_empty_L|].
  destruct (RemoveString_ok t X S a HS) as (S1&Hr&HS1); [intros He; by apply list.Forall_cons in Ht as [? _]|]. rewrite Hr. cbn [obind]. destruct (IH _ _ HS1) as (S2&Hr2&HS2); [intros He; by apply list.Forall_cons in Ht as [_ ?]|]. exists S2. split; [done|].
  replace (X ∖ list_to_set (a :: l)) with (X ∖ {[a]} ∖ list_to_set l) by set_solver. done.
Qed.

Definition sets_rel (D : gmap string (IPSetType * gset string)) (m : gmap string IPSet) : Prop :=
  ∀ id, match D !! id, m !! id with Some (t, X), Some Y => set_rel t X Y | None, None => True | _, _ => False end.

Record store_rel st dp : Prop := {
  sr_policies : PolicyByID st = d_policies dp;
  sr_profiles : ProfileByID st = d_profiles dp;
  sr_accounts : ServiceAccountByID st = d_serviceAccounts dp;
  sr_namespaces : NamespaceByID st = d_namespaces dp;
  sr_endpoints id ep : Endpoints st !! id = Some ep ↔ d_endpoints dp !! inl id = Some (inl ep);
  sr_sets : sets_rel (d_sets dp) (IPSetByID st)
}.

(** The members of sets of networks are texts of networks. *)
Definition msg_texts (m : Msg) dp : Prop :=
  match m with
  | IPSetUpdate _ members t => t = IPSetUpdate_NET → Forall net_text members
  | IPSetDeltaUpdate id added removed => ∀ X, d_sets dp !! id = Some (IPSetUpdate_NET, X) → Forall net_text (added ++ removed)
  | _ => True
  end.

Fixpoint texts_ok (ms : list Msg) dp : Prop :=
  match ms with [] => True | m :: ms' => msg_texts m dp ∧ match recv m dp with Some dp' => texts_ok ms' dp' | None => True end end.

Fixpoint processAll (subscriptionType : string) (ms : list Msg) st : outcome Empty_set PolicyStore :=
  match ms with [] => Ret st | m :: ms' => let! st := ProcessUpdate subscriptionType (Payload m) st in processAll subscriptionType ms' st end.

Lemma sets_rel_insert D m id t X S : sets_rel D m → set_rel t X S → sets_rel (<[id := (t, X)]> D) (<[id := S]> m).
Proof using Type. intros HD HS id'. destruct (decide (id' = id)) as [->|Hne]; [by rewrite !lookup_insert_eq|]. rewrite !lookup_insert_ne by done. apply HD. Qed.

Lemma sets_rel_delete D m id : sets_rel D m → sets_rel (delete id D) (delete id m).
Proof using Type. intros HD id'. destruct (decide (id' = id)) as [->|Hne]; [by rewrite !lookup_delete_eq|]. rewrite !lookup_delete_ne by done. apply HD. Qed.

(** One message. *)
Lemma processMsg_ok m st dp dp' : store_rel st dp → recv m dp = Some dp' → msg_texts m dp → ∃ st', processMsg "per-host-policies" m st = Ret st' ∧ store_rel st' dp'.
Proof using Type.
  intros [Hp Hq Hsa Hns He Hs] Hr Ht. destruct dp as [ds dpol dprof deps dh dpo dw dw6 dsa dns dv dr dsv de db dc]. cbn in Hp, Hq, Hsa, Hns, He, Hs.
  destruct m; cbn in Hr; unfold recv_update, recv_remove in Hr; cbn in Hr; try (injection Hr as <-; exists st; by split; [|split]).
  all: try (case_match; [|done]; injection Hr as <-; exists st; split; [done|by split]).
  - try (case_match; [|done]). injection Hr as <-. destruct (addLoop_ok t members ∅ (NewIPSet t) (set_rel_new t) Ht) as (S'&HS&Hrel). rewrite union_empty_l_L in Hrel. cbn. unfold processIPSetUpdate. rewrite HS. cbn [obind]. eexists. split; [done|]. split; try done. by apply sets_rel_insert.
  - destruct (ds !! id) as [[t X]|] eqn:Hid; [|done]. case_bool_decide as Hok; [|done]. injection Hr as <-. destruct Hok as (_&_&HR&HA&_). cbn [msg_texts d_sets] in Ht. pose proof (Hs id) as Hset. rewrite Hid in Hset. cbn. unfold processIPSetDeltaUpdate. destruct (IPSetByID st !! id) as [Y|]; [|done].
    assert (Htx : t = IPSetUpdate_NET → Forall net_text added ∧ Forall net_text removed) by (intros ->; specialize (Ht X Hid); by apply Forall_app in Ht).
    destruct (addLoop_ok t added X Y Hset) as (Y1&H1&HY1); [intros E; by apply Htx|]. rewrite H1. cbn [obind]. destruct (removeLoop_ok t removed _ Y1 HY1) as (Y2&H2&HY2); [intros E; by apply Htx|]. rewrite H2. cbn [obind].
    eexists. split; [done|]. split; try done. apply sets_rel_insert; [done|]. replace (X ∖ list_to_set removed ∪ list_to_set added) with ((X ∪ list_to_set added) ∖ list_to_set removed) by set_solver. done.
  - try (case_match; [|done]). injection Hr as <-. eexists. split; [done|]. split; try done. by apply sets_rel_delete.
  - try (case_match; [|done]). injection Hr as <-. eexists. split; [done|]. split; try done. cbn. by rewrite Hp.
  - try (case_match; [|done]). injection Hr as <-. eexists. split; [done|]. split; try done. cbn. by rewrite Hp.
  - try (case_match; [|done]). injection Hr as <-. eexists. split; [done|]. split; try done. cbn. by rewrite Hq.
  - try (case_match; [|done]). injection Hr as <-. eexists. split; [done|]. split; try done. cbn. by rewrite Hq.
  - try (case_match; [|done]). injection Hr as <-. exists (set_Endpoints (<[id := ep]> (Endpoints st)) st). split; [done|]. split; try done. intros id' ep'. cbn [set_Endpoints Endpoints d_endpoints]. destruct (decide (id' = id)) as [->|Hne]; [rewrite !lookup_insert_eq; by split; intros [= ->]|]. rewrite !lookup_insert_ne by congruence. apply He.
  - try (case_match; [|done]). injection Hr as <-. exists (set_Endpoints (delete id (Endpoints st)) st). split; [done|]. split; try done. intros id' ep'. cbn [set_Endpoints Endpoints d_endpoints]. destruct (decide (id' = id)) as [->|Hne]; [by rewrite !lookup_delete_eq|]. rewrite !lookup_delete_ne by congruence. apply He.
  - try (case_match; [|done]). injection Hr as <-. exists st. split; [done|]. split; try done. intros id' ep'. cbn. rewrite lookup_insert_ne by done. apply He.
  - try (case_match; [|done]). injection Hr as <-. exists st. split; [done|]. split; try done. intros id' ep'. cbn. rewrite lookup_delete_ne by done. apply He.
  - try (case_match; [|done]). injection Hr as <-. eexists. split; [done|]. split; try done. cbn. by rewrite Hsa.
  - try (case_match; [|done]). injection Hr as <-. eexists. split; [done|]. split; try done. cbn. by rewrite Hsa.
  - try (case_match; [|done]). injection Hr as <-. eexists. split; [done|]. split; try done. cbn. by rewrite Hns.
  - try (case_match; [|done]). injection Hr as <-. eexists. split; [done|]. split; try done. cbn. by rewrite Hns.
Qed.

Lemma store_rel_new : store_rel NewPolicyStore (emptyDataplane (ConfigUpdate := ConfigUpdate)).
Proof using Type. by split. Qed.

Lemma processAll_ok ms st dp dp' : store_rel st dp → recvAll recv ms dp = Some dp' → texts_ok ms dp → ∃ st', processAll "per-host-policies" ms st = Ret st' ∧ store_rel st' dp'.
Proof using Type.
  revert st dp. induction ms as [|m ms IH]; intros st dp Hst Hr Ht; cbn [recvAll processAll] in *; [injection Hr as <-; by exists st|]. destruct Ht as [Htm Ht]. destruct (recv m dp) as [dp1|] eqn:Hm; [|done]. cbn in Hr.
  destruct (processMsg_ok m st dp dp1 Hst Hm Htm) as (st1&Hs1&Hst1). cbn [ProcessUpdate]. rewrite Hs1. cbn [obind]. by apply (IH st1 dp1).
Qed.
End follows.

(** ** The checker and the dataplane agree *)
Section agree.
Context {ConfigUpdate : Type}.
Abbreviation Dataplane := (Dataplane (ConfigUpdate := ConfigUpdate)).
Context (st : PolicyStore) (dp : Dataplane).
Hypothesis (Hrel : store_rel st dp).

(** A set of networks always answers. *)
Lemma netContains_total m C v : net_set_has m C → ∃ b, netContains v m = Ret b.
Proof using Type.
  clear Hrel. intros (_&(Hn4&Hw4&_)&Hn6&Hw6&_). unfold netContains. destruct (ParseIP v) as [ip|] eqn:Hp; [|by eexists]. apply ParseIP_ok in Hp as [Hb Hl]. unfold To4. rewrite decide_False by lia. destruct (isMapped ip).
  - destruct (containsIP_ok (drop 12 ip) 24 ltac:(by apply Forall_drop) ltac:(rewrite length_drop; lia) (v4 m) 0 ltac:(lia) Hw4 Hn4) as (b&->&_). by eexists.
  - destruct (containsIP_ok ip 120 Hb ltac:(lia) (v6 m) 0 ltac:(lia) Hw6 Hn6) as (b&->&_). by eexists.
Qed.

Definition answersOf (id v : string) : option bool := match IPSetByID st !! id with Some X => match Contains v X with Ret b => Some b | _ => None end | None => None end.

Lemma answersOf_ok id v : match IPSetByID st !! id with None => answersOf id v = None | Some X => ∃ b, Contains v X = Ret b ∧ answersOf id v = Some b end.
Proof using Hrel.
  unfold answersOf. pose proof (sr_sets _ _ Hrel id) as Hs. destruct (IPSetByID st !! id) as [X|]; [|done]. destruct (d_sets dp !! id) as [[t Y]|]; [|done].
  assert (∃ b, Contains v X = Ret b) as [b Hb]; [|by exists b; rewrite Hb]. destruct t; cbn in Hs; [subst; by eexists|subst; by eexists|]. destruct Hs as (m&C&->&Hm&_). cbn. by eapply netContains_total.
Qed.

(** Sets of networks that the checker can see, and sets of ports. *)
Definition netSet (uid : string) : Prop := ∃ X, d_sets dp !! uid = Some (IPSetUpdate_NET, X) ∧ ∀ c, net_ok c → CIDR_String c ∈ X → whole_bytes c.
Definition portSet (uid : string) : Prop := ∃ X, d_sets dp !! uid = Some (IPSetUpdate_IP_AND_PORT, X).

Lemma memberText_CIDR m c : memberCIDR m = Some c → memberText m = CIDR_String c.
Proof using Type. clear. by destruct m; intros [= <-]. Qed.

Lemma netSet_answers uid a : netSet uid → addr_ok a → unmapped a → ∃ b, answersOf uid (Addr_String a) = Some b ∧ (b = true ↔ inSet (received dp) uid a).
Proof using Hrel.
  intros (X&HX&Hwhole) Ha Hu. unfold answersOf. pose proof (sr_sets _ _ Hrel uid) as Hs. rewrite HX in Hs. destruct (IPSetByID st !! uid) as [Y|]; [|done]. destruct Hs as (m&C&->&Hm&HC). pose proof Hm as (Hnet&H4&H6). cbn [Contains].
  assert (Hc : ∃ b, netContains (Addr_String a) m = Ret b ∧ (b = true ↔ ∃ c, c ∈ C ∧ CIDR_Contains c a = true ∧ whole_bytes c)).
  { unfold netContains. rewrite ParseIP_String, To4_As16 by done. destruct a as [a|h l]; [by apply (trie_contains 4 24)|]. assert (H16 : As16 (AsNetIP (V6Addr h l)) = AsNetIP (V6Addr h l)) by (unfold As16; rewrite decide_False; [done|]; by rewrite AsNetIP_length). rewrite H16. by apply (trie_contains 6 120). }
  destruct Hc as (b&Hb&Hiff). exists b. rewrite Hb. split; [done|]. rewrite Hiff. unfold inSet, received. split.
  - intros (c&Hc&Hcon&_). specialize (Hnet c Hc). exists (MakeCIDROrIPOnly c), c. assert (Hmc : memberCIDR (MakeCIDROrIPOnly c) = Some c) by apply memberCIDR_Make. split; [split|by split].
    + unfold MakeCIDROrIPOnly, MakeSingleIP. destruct (IsSingleAddress c) eqn:Hs; [|done]. by destruct (net_ok_unmapped c Hnet) as (?&?&_).
    + eexists _, X. split; [done|]. rewrite (memberText_CIDR _ c Hmc). apply HC. by exists c.
  - intros (mb&c&[Hok (t&Y&Hd&Hin)]&Hmc&Hcon). rewrite HX in Hd. injection Hd as <- <-. rewrite (memberText_CIDR mb c Hmc) in Hin. pose proof Hin as Hin'. apply HC in Hin' as (c'&Hc'&Heq).
    assert (Hnc : net_ok c) by (destruct mb; [done|injection Hmc as <-; apply Hok|injection Hmc as <-; destruct Hok; by apply AsCIDR_net_ok]). apply CIDR_String_inj in Heq as <-; [|done|by apply Hnet]. exists c. split_and!; [done|done|by apply Hwhole].
Qed.

Lemma portSet_answers uid a port proto : portSet uid → addr_ok a → unmapped a → 0 <= port → proto = ProtocolTCP ∨ proto = ProtocolUDP ∨ proto = ProtocolSCTP →
  ∃ b, answersOf uid (ipProtoPortKey (Addr_String a) proto port) = Some b ∧ (b = true ↔ inPortSet (received dp) uid (MkEnd a proto port)).
Proof using Hrel.
  intros (X&HX) Ha Hu Hport Hproto. unfold answersOf. pose proof (sr_sets _ _ Hrel uid) as Hs. rewrite HX in Hs. destruct (IPSetByID st !! uid) as [Y|]; [|done]. cbn in Hs. subst Y. eexists. split; [done|]. rewrite bool_decide_eq_true. unfold inPortSet, received, MakeIPPortProto. cbn [end_addr end_port end_protocol].
  rewrite decide_False by (intros [_ Hn]; destruct Hproto as [->|[->| ->]]; done).
  assert (Hkey : ipProtoPortKey (Addr_String a) proto port = memberText (ipPortProtoIPSetMember a port proto)).
  { unfold memberText. rewrite ToProtobufFormat_port by done. unfold ipProtoPortKey, decimalInt. destruct (Z.ltb_spec port 0); [lia|]. by destruct Hproto as [->|[->| ->]]. }
  rewrite Hkey. split.
  - intros Hin. split; [by cbn|]. by exists IPSetUpdate_IP_AND_PORT, X.
  - intros (_&t&Y&Hd&Hin). rewrite HX in Hd. by injection Hd as <- <-.
Qed.

Lemma allOf_iff (P : string → Prop) ids v : (∀ uid, uid ∈ ids → ∃ b, answersOf uid v = Some b ∧ (b = true ↔ P uid)) → allOf answersOf ids v = true ↔ ∀ uid, uid ∈ ids → P uid.
Proof using Type.
  clear Hrel. intros HP. unfold allOf. rewrite forallb_forall. setoid_rewrite <- list_elem_of_In. setoid_rewrite bool_decide_eq_true. split; intros H uid Hin; destruct (HP uid Hin) as (b&Hb&Hiff); specialize (H uid Hin); rewrite Hb in *.
  - apply Hiff. by destruct b.
  - apply Hiff in H as ->. done.
Qed.

Lemma noneOf_iff (P : string → Prop) ids v : (∀ uid, uid ∈ ids → ∃ b, answersOf uid v = Some b ∧ (b = true ↔ P uid)) → noneOf answersOf ids v = true ↔ ∀ uid, uid ∈ ids → ¬ P uid.
Proof using Type.
  clear Hrel. intros HP. unfold noneOf. rewrite forallb_forall. setoid_rewrite <- list_elem_of_In. setoid_rewrite bool_decide_eq_true. split; intros H uid Hin; destruct (HP uid Hin) as (b&Hb&Hiff); specialize (H uid Hin); rewrite Hb in *.
  - intros Hp. apply Hiff in Hp as ->. done.
  - intros [= ->]. by apply H, Hiff.
Qed.

Lemma inRanges_iff ports port : 0 <= port < 65536 → inRanges ports (int32 port) = true ↔ ∃ p, p ∈ ports ∧ inPortRange p port.
Proof using Type.
  clear Hrel. intros Hport. unfold inRanges, inPortRange. rewrite existsb_exists, int32_id by lia. setoid_rewrite <- list_elem_of_In. split; intros (p&Hin&Hp); exists p; (split; [done|]); lia.
Qed.

(** One end of the packet. *)
Lemma side_iff a proto port sets ports named notSets notPorts notNamed :
  addr_ok a → unmapped a → 0 <= port < 65536 → proto = ProtocolTCP ∨ proto = ProtocolUDP ∨ proto = ProtocolSCTP →
  (∀ uid, uid ∈ sets ++ notSets → netSet uid) → (∀ uid, uid ∈ named ++ notNamed → portSet uid) →
  setsOK answersOf sets notSets (Addr_String a) && portsOK answersOf ports named notPorts notNamed port (ipProtoPortKey (Addr_String a) proto port) = true ↔
  messageSideMatches (received dp) sets ports named notSets notPorts notNamed (MkEnd a proto port).
Proof using Hrel.
  intros Ha Hu Hport Hproto Hnets Hports. setoid_rewrite elem_of_app in Hnets. setoid_rewrite elem_of_app in Hports.
  assert (HN : ∀ uid, uid ∈ sets ∨ uid ∈ notSets → ∃ b, answersOf uid (Addr_String a) = Some b ∧ (b = true ↔ inSet (received dp) uid a)) by (intros uid H; apply netSet_answers; auto).
  assert (HP : ∀ uid, uid ∈ named ∨ uid ∈ notNamed → ∃ b, answersOf uid (ipProtoPortKey (Addr_String a) proto port) = Some b ∧ (b = true ↔ inPortSet (received dp) uid (MkEnd a proto port))) by (intros uid H; apply portSet_answers; auto; lia).
  unfold setsOK, portsOK, messageSideMatches. cbn [end_addr end_port]. rewrite !andb_true_iff, !orb_true_iff, !negb_true_iff.
  rewrite (allOf_iff (λ uid, inSet (received dp) uid a)), (noneOf_iff (λ uid, inSet (received dp) uid a)), (noneOf_iff (λ uid, inPortSet (received dp) uid (MkEnd a proto port)) notNamed) by auto.
  rewrite bool_decide_eq_true, inRanges_iff by done.
  assert (Hnn : noneOf answersOf named (ipProtoPortKey (Addr_String a) proto port) = false ↔ ∃ uid, uid ∈ named ∧ inPortSet (received dp) uid (MkEnd a proto port)).
  { unfold noneOf. rewrite <- not_true_iff_false, forallb_forall. setoid_rewrite <- list_elem_of_In. setoid_rewrite bool_decide_eq_true. split.
    - intros Hno. destruct (decide (Exists (λ uid, answersOf uid (ipProtoPortKey (Addr_String a) proto port) = Some true) named)) as [(uid&Hin&Ht)%Exists_exists|Hne].
      + exists uid. split; [done|]. destruct (HP uid (or_introl Hin)) as (b&Hb&Hiff). rewrite Hb in Ht. injection Ht as ->. by apply Hiff.
      + exfalso. apply Hno. intros uid Hin Ht. apply Hne, Exists_exists. by exists uid.
    - intros (uid&Hin&Hp') Hall. destruct (HP uid (or_introl Hin)) as (b&Hb&Hiff). apply Hiff in Hp' as ->. by apply (Hall uid Hin). }
  assert (Hnr : inRanges notPorts (int32 port) = false ↔ ∀ p, p ∈ notPorts → ¬ inPortRange p port).
  { rewrite <- not_true_iff_false, inRanges_iff by done. naive_solver. }
  rewrite Hnn, Hnr.
  assert (Hdec : ports = [] ∧ named = [] ∨ ports ≠ [] ∨ named ≠ []) by (destruct ports, named; auto).
  intuition congruence.
Qed.
End agree.

(** A request without principals that is the packet. *)
Record flow_of (pk : Packet) (f : Flow) : Prop := {
  fo_src : NetIP_String (GetSourceIP f) = Addr_String (pk_src pk);
  fo_dst : NetIP_String (GetDestIP f) = Addr_String (pk_dst pk);
  fo_srcPort : GetSourcePort f = pk_srcPort pk;
  fo_dstPort : GetDestPort f = pk_dstPort pk;
  fo_protocol : GetProtocol f = pk_protocol pk;
  fo_srcPlain : GetSourcePrincipal f = None;
  fo_dstPlain : GetDestPrincipal f = None
}.

Definition packet16 (pk : Packet) : Prop :=
  (addr_ok (pk_src pk) ∧ unmapped (pk_src pk) ∧ 0 <= pk_srcPort pk < 65536) ∧ (addr_ok (pk_dst pk) ∧ unmapped (pk_dst pk) ∧ 0 <= pk_dstPort pk < 65536) ∧
  (pk_protocol pk = ProtocolTCP ∨ pk_protocol pk = ProtocolUDP ∨ pk_protocol pk = ProtocolSCTP).

(** The IP sets of the rule are there, of the right types and visible. *)
Definition rule_fits {ConfigUpdate} (dp : Dataplane (ConfigUpdate := ConfigUpdate)) (o : ProtoRule) : Prop :=
  (∀ uid, uid ∈ pr_SrcIpSetIds o ++ pr_NotSrcIpSetIds o → netSet dp uid) ∧ (∀ uid, uid ∈ pr_DstIpSetIds o ++ pr_NotDstIpSetIds o → netSet dp uid) ∧
  (∀ uid, uid ∈ pr_SrcNamedPortIpSetIds o ++ pr_NotSrcNamedPortIpSetIds o → portSet dp uid) ∧ (∀ uid, uid ∈ pr_DstNamedPortIpSetIds o ++ pr_NotDstNamedPortIpSetIds o → portSet dp uid) ∧
  (∀ uid, uid ∈ pr_DstIpPortSetIds o → portSet dp uid).

(** The protocol and the networks of the rule. *)
Definition netsOK (f : Flow) (o : ProtoRule) : bool :=
  matchL4Protocol o (GetProtocol f) && (matchNet (pr_SrcNet o) (GetSourceIP f) && matchNotNet (pr_NotSrcNet o) (GetSourceIP f)) && (matchNet (pr_DstNet o) (GetDestIP f) && matchNotNet (pr_NotDstNet o) (GetDestIP f)).

Lemma network_iff {ConfigUpdate} st (dp : Dataplane (ConfigUpdate := ConfigUpdate)) o pk f : store_rel st dp → rule_fits dp o → packet16 pk → flow_of pk f →
  networkOK f (answersOf st) o = true ↔ netsOK f o = true ∧ messageMatches (received dp) o pk.
Proof.
  intros Hrel (Hs&Hd&Hsn&Hdn&Hdp) ((Has&Hus&Hps)&(Had&Hud&Hpd)&Hproto) Hf. destruct o. unfold networkOK, netsOK, messageMatches, srcKey, dstKey. cbn in *.
  rewrite (fo_src _ _ Hf), (fo_dst _ _ Hf), (fo_srcPort _ _ Hf), (fo_dstPort _ _ Hf), (fo_protocol _ _ Hf).
  rewrite <- (side_iff st dp Hrel (pk_src pk) (pk_protocol pk) (pk_srcPort pk)) by done. rewrite <- (side_iff st dp Hrel (pk_dst pk) (pk_protocol pk) (pk_dstPort pk)) by done.
  rewrite <- (allOf_iff st (λ uid, inPortSet (received dp) uid (dstEnd pk)) _ (ipProtoPortKey (Addr_String (pk_dst pk)) (pk_protocol pk) (pk_dstPort pk))) by (intros uid Hu; apply portSet_answers; auto; lia).
  rewrite !andb_true_iff. tauto.
Qed.

Lemma plain_match {ConfigUpdate} MakeUniqueID ns st (dp : Dataplane (ConfigUpdate := ConfigUpdate)) o pk f : store_rel st dp → flow_of pk f → pr_HttpMatch o = None →
  ∃ r, match_ MakeUniqueID ns o (NewRequestCache st f) = Ret (networkOK f (answersOf st) o, r).
Proof.
  intros Hrel Hf Hh. pose proof (computes_match st f (answersOf st) (answersOf_ok st dp Hrel) MakeUniqueID ns o _ (cache_new st f)) as Hm.
  assert (Href : matchRef st f (answersOf st) MakeUniqueID ns o = Ret (networkOK f (answersOf st) o)).
  { unfold matchRef, srcIdentityRef, dstIdentityRef, requestRef, srcId, dstId. rewrite (fo_srcPlain _ _ Hf), (fo_dstPlain _ _ Hf), Hh. cbn. by destruct (networkOK f (answersOf st) o). }
  rewrite Href in Hm. destruct Hm as (r&Hr&_). by exists r.
Qed.

(** C6: The policy checker and the dataplane agree.  Let the checker process any messages that the strict
    dataplane accepts (with texts of networks in sets of networks).  It does not panic, and it has
    the same policies, profiles, endpoints, service accounts and namespaces; and a rule
    without HTTP match, on a request without principals, matches exactly if its protocol and
    networks do and the rule, read with the members that the dataplane was sent, matches the packet:
    the same reading of messages with which rules do what the policies say, provided that no
    network of a set that the rule names ends within the last byte (and that the packet is of TCP, UDP or SCTP). *)
Theorem checker_agrees {ConfigUpdate} MakeUniqueID (ms : list (Msg ConfigUpdate)) dp : recvAll recv ms emptyDataplane = Some dp → texts_ok ms emptyDataplane →
  ∃ st, processAll "per-host-policies" ms NewPolicyStore = Ret st ∧
    PolicyByID st = d_policies dp ∧ ProfileByID st = d_profiles dp ∧ ServiceAccountByID st = d_serviceAccounts dp ∧ NamespaceByID st = d_namespaces dp ∧
    (∀ id ep, Endpoints st !! id = Some ep ↔ d_endpoints dp !! inl id = Some (inl ep)) ∧
    ∀ ns o pk f, pr_HttpMatch o = None → rule_fits dp o → packet16 pk → flow_of pk f →
      ∃ b r, match_ MakeUniqueID ns o (NewRequestCache st f) = Ret (b, r) ∧ (b = true ↔ netsOK f o = true ∧ messageMatches (received dp) o pk).
Proof.
  intros Hr Ht. destruct (processAll_ok ms NewPolicyStore emptyDataplane dp store_rel_new Hr Ht) as (st&Hst&Hrel). exists st. split; [done|]. destruct Hrel as [Hp Hq Hsa Hns He Hs] eqn:Hrel'. clear Hrel'. split_and!; [done..|].
  intros ns o pk f Hh Hfit Hpk Hf. destruct (plain_match MakeUniqueID ns st dp o pk f Hrel Hf Hh) as [r Hm]. exists (networkOK f (answersOf st) o), r. split; [done|]. by apply network_iff.
Qed.

(** *** Example *)
Definition tenNet : CIDR := V4CIDR 167772160 8.
Definition agreeMsgs : list (Msg unit) := [IPSetUpdate "s:ten" ["10.0.0.0/8"] IPSetUpdate_NET].
Definition agreeRule : ProtoRule :=
  MkProtoRule "allow" IPVersion_ANY None [] [] [] [] [MkPortRange 80 90] [] None ["s:ten"] [] [] None [] [] [] [] None [] [] [] [] "" "" "" "" "" "" "" "" "" "" None None None None "id".
Definition agreePacket : Packet := MkPacket ProtocolTCP (V4Addr 167772165) 4000 (V4Addr 167838211) 80.

Lemma tenNet_ok : net_ok tenNet.
Proof. split; [split; [done|done|vm_compute; reflexivity]|done]. Qed.

Lemma agreeRule_fits dp : recvAll recv agreeMsgs emptyDataplane = Some dp → rule_fits dp agreeRule ∧ messageMatches (received dp) agreeRule agreePacket.
Proof.
  intros Hr. assert (Hs : d_sets dp !! "s:ten" = Some (IPSetUpdate_NET, {["10.0.0.0/8"]})).
  { vm_compute in Hr. injection Hr as <-. vm_compute. reflexivity. }
  clear Hr. split.
  - unfold rule_fits. cbn. split_and!; try (intros uid Hu; by apply elem_of_nil in Hu).
    intros uid ->%list_elem_of_singleton. exists {["10.0.0.0/8"]}. split; [done|]. intros c Hc Hin%elem_of_singleton. assert (c = tenNet) as -> by (apply CIDR_String_inj; [done|apply tenNet_ok|by rewrite Hin]). left. cbn. lia.
  - assert (Hnil : ∀ {A} (x : A) (P : Prop), x ∈ [] → P) by (intros A x P Hx; by apply elem_of_nil in Hx). split_and!; [split_and!|split_and!|]; cbn; try (intros x; apply Hnil).
    + intros uid ->%list_elem_of_singleton. exists (cidrIPSetMember tenNet), tenNet. split; [|done]. split; [split; [apply tenNet_ok|done]|]. exists IPSetUpdate_NET, {["10.0.0.0/8"]}. split; [done|]. by apply elem_of_singleton.
    + by intros [].
    + intros _. left. exists (MkPortRange 80 90). split; [by left|]. by split.
Qed.

Lemma checker_agrees_witness :
  ∃ st r, processAll "per-host-policies" agreeMsgs NewPolicyStore = Ret st ∧ match_ (λ _ _, "") "" agreeRule (NewRequestCache st (webFlow [10; 0; 0; 5])) = Ret (true, r).
Proof.
  destruct (recvAll recv agreeMsgs emptyDataplane) as [dp|] eqn:Hr; [|by vm_compute in Hr].
  destruct (checker_agrees (λ _ _, "") agreeMsgs dp Hr) as (st&Hst&_&_&_&_&_&Hm).
  - split; [|done]. intros _. constructor; [|constructor]. exists tenNet. split; [apply tenNet_ok|done].
  - destruct (agreeRule_fits dp Hr) as [Hfit Hmatch]. destruct (Hm "" agreeRule agreePacket (webFlow [10; 0; 0; 5])) as (b&r&Hb&Hiff); [done|done| |by split|].
    + split_and!; try done; cbn; auto.
    + exists st, r. split; [done|]. rewrite Hb. do 2 f_equal. apply Hiff. split; [vm_compute; reflexivity|done].
Defined.
